(* ===== verification/_CoqProject ===== *)
-Q . S2P
Prelude.v
Lru.v
IndexMap.v
Settings.v
Keys.v
Auth.v
Errors.v
Tasks.v
TaskQueue.v
Autobatcher.v
Scheduler.v
Batch.v
QueueOps.v
Process.v
Tick.v
IndexMapper.v
Json.v
Flatten.v
FieldsIdsMap.v
DocumentsIds.v
Obkv.v
Concrete.v
DocFlatten.v
Merge.v
Transform.v
TransformInv.v
Distribution.v
TransformSpec.v
IndexDocuments.v
FacetDb.v
FacetTree.v
FacetSearch.v
FacetSort.v
FacetDistribution.v
FacetIncremental.v
FacetInsert.v
FacetDelete.v
FacetBulk.v
FacetUpdate.v
FacetRemove.v
FacetF64.v
FacetExtract.v
FacetIndex.v
FacetDemo.v
Filter.v
Distinct.v
BucketSort.v
ScoreDetails.v
RankingOrder.v
SortRule.v
GeoSort.v
Criteria.v
Search.v
SearchSpec.v
RankingDemo.v
SmallBitmap.v
Interner.v
QueryTerm.v
QueryGraph.v
Traversal.v
QueryResolve.v
ResolveSpec.v
RemovalOrder.v
