(* ===== verification/Prelude.v ===== *)
(** * Verification of Meilisearch: root file

    Meilisearch is a search server.  Clients send requests that are authorised
    by API keys (meilisearch-auth); a request that changes data becomes a task of
    a persistent queue (index-scheduler); one thread takes the tasks in batches
    and processes them on the indexes, whose engine is the crate milli.  This
    development models that pipeline from the key to the documents of an index:
    who may do what, which tasks exist and in which order they run, what becomes
    of their files, their dates and their errors, and what the additions and
    deletions of documents leave in an index.  For the facets of the documents it
    goes on to the search side: the databases they are indexed in, the filters, the
    sorts and the distributions that read them, and the searches that filter, sort,
    deduplicate and page documents with them.

    ** How the files correspond to the code

    Every path is under [src/].

    - [Prelude.v] (this file): results of fallible code ([outcome], with panics as
      values), the state monad [ST], machine integers, lemmas on lists and maps.
    - Open indexes.  [Lru.v]: index-scheduler/src/lru.rs.  [IndexMap.v]:
      index_mapper/index_map.rs, the indexes that are open, closing or being
      deleted.  [IndexMapper.v]: index_mapper/mod.rs, names, directories,
      statistics, deletions in a thread.
    - Rights.  [Keys.v]: meilisearch-types/src/keys.rs, index_uid.rs,
      index_uid_pattern.rs.  [Auth.v]: meilisearch-auth/src/lib.rs and store.rs,
      and the policy of meilisearch/src/extractors/authentication/mod.rs.
      [Errors.v]: the error codes of meilisearch-types/src/error.rs and the errors
      of index-scheduler/src/error.rs.
    - Tasks.  [Tasks.v]: meilisearch-types/src/tasks.rs.  [TaskQueue.v]:
      index-scheduler/src/utils.rs, the databases of the queue and their
      consistency ([queue_ok]).  [Scheduler.v]: queries, registration, cleanup and
      the memory budget of index-scheduler/src/lib.rs.  [Autobatcher.v]:
      autobatcher.rs.  [Batch.v]: the choice and the construction of the next
      batch in batch.rs.  [QueueOps.v]: cancelation, deletion and swaps of tasks in
      batch.rs.  [Process.v]: [process_batch] and [apply_index_operation].
      [Tick.v]: the tick and the run loop of lib.rs, with registrations,
      restarts and accesses to the index mapper in between.
    - Settings.  [Settings.v]: meilisearch-types/src/settings.rs and the setters of
      the builder of milli/src/update/settings.rs.
    - Documents.  [Json.v]: json-depth-checker, and the JSON values and texts.
      [Flatten.v]: flatten-serde-json.  [FieldsIdsMap.v], [DocumentsIds.v]:
      milli/src/fields_ids_map.rs, external_documents_ids.rs,
      update/available_documents_ids.rs.  [Obkv.v]: the interfaces to obkv,
      serde_json and the sorts; [Concrete.v]: instances of them, for the
      witnesses.  [DocFlatten.v], [Merge.v], [Transform.v]:
      update/index_documents/transform.rs and helpers/merge_functions.rs, from the
      flattening of one document to the whole transform; [TransformInv.v],
      [Distribution.v], [TransformSpec.v]: its invariant, the field distribution
      and what it computes.  [IndexDocuments.v]: update/index_documents/mod.rs,
      delete_documents.rs and clear_documents.rs.
    - Facet databases.  [FacetDb.v]: heed_codec/facet/mod.rs, the entries of a facet
      database in the order of LMDB, its levels and their invariant ([facet_tree]),
      and search/facet/mod.rs; [FacetTree.v]: lemmas on levels.  [FacetSearch.v]:
      search/facet/facet_range_search.rs.  [FacetSort.v]: facet_sort_ascending.rs
      and facet_sort_descending.rs.  [FacetDistribution.v]:
      facet_distribution_iter.rs.  [FacetIncremental.v]: update/facet/incremental.rs,
      with the proofs of [FacetInsert.v] and [FacetDelete.v].  [FacetBulk.v]:
      update/facet/bulk.rs.  [FacetUpdate.v]: update/facet/mod.rs.  [FacetRemove.v]:
      update/facet/delete.rs and the facets of delete_documents.rs.
    - Facets of documents.  [FacetF64.v]: heed_codec/facet/ordered_f64_codec.rs and
      facet/value_encoding.rs.  [FacetExtract.v]:
      extract/extract_fid_docid_facet_values.rs, extract_facet_string_docids.rs and
      extract_facet_number_docids.rs.  [FacetIndex.v]: the facet chunks of
      typed_chunk.rs and the facets of an index through its updates and deletions.
      [FacetDemo.v]: concrete databases, for the witnesses.
    - Filters.  [Filter.v]: the conditions of filter-parser and
      search/facet/filter.rs, from the rules in JSON to the documents.
    - Searches.  [Distinct.v]: search/new/distinct.rs.  [BucketSort.v]:
      search/new/bucket_sort.rs and ranking_rules.rs, a ranking rule being a record of
      its methods.  [ScoreDetails.v]: score_details.rs.  [RankingOrder.v]: the order of
      a ranking.  [SortRule.v], [GeoSort.v]: search/new/sort.rs and geo_sort.rs.
      [Criteria.v]: asc_desc.rs and criterion.rs.  [Search.v]: search/new/mod.rs, the
      searches without words and by vector; [SearchSpec.v]: what the former answer;
      [RankingDemo.v]: concrete searches, for the witnesses.
    - Search graphs.  [SmallBitmap.v]: search/new/small_bitmap.rs, the sets of nodes,
      edges and conditions, refined by finite sets.

    ** How they interact

    The tick of [Tick.v] calls [create_next_batch] ([Batch.v]), which calls the
    autobatcher, then [process_batch] ([Process.v]), which uses [QueueOps.v] for
    the operations on tasks and interfaces for the index mapper ([IndexNames])
    and for the indexing engine; it writes the tasks with [update_task]
    ([TaskQueue.v]).  [Lru.v] implements the class [Cache] that [IndexMap.v] is
    written against, and [IndexMapper.v] is written on [IndexMap.v].  The queries
    of [Scheduler.v] take the filters that [Auth.v] gives.  [IndexDocuments.v] is
    the update that the engine runs for a document operation of a batch: it
    drives [Transform.v], whose documents are flattened by [DocFlatten.v] and
    merged by [Merge.v].

    The flattened documents of an update are the input of [index_facets]
    ([FacetIndex.v]): [FacetExtract.v] gives the values of their faceted fields,
    with numbers encoded by [FacetF64.v]; [FacetUpdate.v] chooses between
    [FacetBulk.v], which builds the levels of a field again, and
    [FacetIncremental.v], which inserts one value at a time.  A hard deletion goes
    through [FacetRemove.v].  All of them keep [facet_tree] ([FacetDb.v]): a level
    0 with one entry for each value, and above it levels whose groups cover those
    of the level below.  [FacetSearch.v], [FacetSort.v] and [FacetDistribution.v]
    read the databases through that invariant only; [Filter.v] evaluates conditions
    with [FacetSearch.v].

    A search ([Search.v]) takes its universe from [Filter.v] and its ranking rules from
    the criteria of the index and the sort expressions ([Criteria.v]), and gives both to
    [bucket_sort], which applies the distinct rule to each bucket.  [BucketSort.v] states
    what a ranking rule owes to it ([rule_laws]) and [RankingOrder.v] what its buckets
    mean ([grades]); [SortRule.v] proves both for the iterators of [FacetSort.v], and
    [SearchSpec.v] composes these with the meaning of filters and the facets of the
    documents.

    ** What the theorems show

    - Autobatching changes nothing but the number of batches: running a batch
      and running its tasks one by one leave the same index, for a prefix of the
      queue of the index and with the rights and primary keys of each task.
    - The run loop, from any consistent queue and under any interleaving, keeps
      the queue consistent, never loses, reorders or re-runs a task, reports
      exactly one outcome for each, and empties the queue when batches succeed.
    - Every operation on the queue has its exact effect stated on all branches
      (registration, cleanup, queries, cancelation, deletion, swaps), and the
      binary search for dates is equivalent to a scan.
    - A request is accepted only with a key that is not expired and that gives
      the action on the index; tenant tokens only restrict; deleting a key
      removes its rights.
    - The index map never has an index open twice or more indexes than its
      capacity; the cache is the queue ordered by recency it is meant to be.
    - An update of documents leaves, under the users' ids, what its additions and
      removals give in sequence, whatever the rounds of the external sort and the
      deletion strategy, with an exact field distribution; flattening gives each
      path its scalars; ids are given once and never clash.
    - Whatever chunks of documents are indexed and deleted, the facet databases keep
      the shape of their levels and hold exactly the values of the documents that
      are left, in their level 0, in the lists per document and in the fst of the
      strings of each field.  Bulk and incremental updates and both deletions have the
      same specification on level 0.
    - Searches in the levels are equivalent to scans of level 0: the documents of
      a range, both sorts, both distributions.  The code of numbers is a bijection
      that keeps their order.  A filter answers exactly the documents that satisfy
      it, and it fails exactly on the fields and numbers it should refuse.
    - The bucket sort, with its stack of universes and its shortcuts, returns the page of
      the ranking that sorting everything would give, for any ranking rules that keep
      their contract.  A search without words answers the documents that satisfy its
      filter, one for each distinct value, in the lexicographic order of its fields.
      The global score has the order of the ranks while their product fits 32 bits.
    - The tables (error codes, statuses, kinds, actions) are consistent with their
      inverses.
    - Theorems also state the flaws that modelling showed, as the behaviour the
      code has; the findings of the manifest name them.

    ** Conventions, bounds and fuel

    Rust integers are [N] or [Z] kept at their width by [wrap32], [wrap64],
    saturating and checked operations, as the code has them.  [usize] is 64 bits.
    The binary searches are defined by a fuel that is the width of the searched
    range; the theorems prove it is enough.  The loops of the index mapper run over
    a list of turns, what the other threads do between two attempts, at most one
    hundred as in the code.  The loop of the budget of indexes halves a size and is
    given the number of its bits.  The searches in the facet levels recurse on the
    level, which is finite; the iterators of
    [FacetSort.v], the heap of [FacetDistribution.v] and the loop of [bucket_sort] take a
    fuel, and the theorems give a bound above which every fuel yields the result.  Everything else is
    structural.

    The level of a facet key is a byte: the theorems on facet updates ask that the
    heights stay below 255 ([heights_fit], [heights_fit_chunk]), which needs more
    than 4^254 values to fail, and those on searches that a database has less than
    2^64 entries ([usize::MAX] is the size of a group that has no end).  The sizes of
    groups (4, at most 8, levels of at least 5 groups) are the code's constants, and
    the theorems on the algorithms hold for any that the code accepts.

    LMDB databases are finite maps and their transactions are atomic: an aborted
    one leaves the state as it was.  The facet databases, which are read in the order
    of their keys, are lists sorted by the bytes of the keys.  Roaring bitmaps are finite sets, fst maps are
    finite maps.  Third-party code that the model needs more of is a class with its
    documented laws: the cache and the environment of an index ([IndexMap.v]),
    obkv, serde_json, [sort_unstable_by_key] (any sorting function),
    [merge_join_by] and the grenad sorter (any rounds of merges of neighbours; for
    facets, any sorted merge).  The normalisation of facet strings, the conversion of a
    JSON number to a float, the parsing and the arithmetic of floats, the distance of two
    points, the check of UTF-8, the r-tree of geo points, the neighbors of a vector and the
    parser of filter expressions are arguments of the definitions that call them.
    Each has a concrete instance in the witnesses.

    A registration's commit and its signal are one step, and processing a batch is
    one step with respect to registrations, since both hold the write transaction
    of the queue.  Opening an index while a batch is created leaves no effect on
    the view of the index mapper that the queue uses.

    ** Not modelled

    - The other search databases of milli and what reads them: extraction of words,
      geo points and vectors, prefix databases, query terms and query graph, the ranking
      rules on words, and the deletion of words in postings.
    - The nom combinators that parse filter expressions: they are calls to the
      library with few steps of their own.
    - The execution of a change of settings and the reindexing it triggers, the
      reading side of an index (settings as views, document retrieval and
      formatting), HTTP routes and their deserialisation, analytics.
    - Dumps and snapshots (their readers and writers), the file store, the codecs of
      LMDB values other than those of facets, benchmarks, fuzzers, command line tools:
      input and output, or glue around libraries.
    - The enrichment of a batch of documents is an input of the transform; the
      deserialisation of requests, the decoding of JSON web tokens and HMAC are
      parameters. *)
From Stdlib Require Export Lia.
From stdpp Require Export base gmap strings sorting numbers option relations.
From stdpp Require Export list.
Export list.

#[export] Set Warnings "-clear-no-such-hyp".

(** ** Fallible computations

    A Rust function of type [Result<A, E>] ends with [Ok], with [Err], or
    panics.  A panic is a value of its own, so that a theorem can say that a
    path never panics. *)
Inductive outcome (E A : Type) : Type :=
| Ok (a : A)
| Err (e : E)
| Panic (msg : string).
Arguments Ok {E A} a.
Arguments Err {E A} e.
Arguments Panic {E A} msg.

#[export] Instance outcome_ret {E} : MRet (outcome E) := λ A a, Ok a.
#[export] Instance outcome_bind {E} : MBind (outcome E) := λ A B f m,
  match m with Ok a => f a | Err e => Err e | Panic s => Panic s end.
#[export] Instance outcome_fmap {E} : FMap (outcome E) := λ A B f m,
  match m with Ok a => Ok (f a) | Err e => Err e | Panic s => Panic s end.

(** [Option::ok_or]. *)
Definition ok_or {E A} (o : option A) (e : E) : outcome E A :=
  match o with Some a => Ok a | None => Err e end.

(** [Result::map_err]. *)
Definition map_err {E F A} (f : E → F) (m : outcome E A) : outcome F A :=
  match m with Ok a => Ok a | Err e => Err (f e) | Panic s => Panic s end.

(** [assert!(b, msg)]. *)
Definition assert {E} (b : bool) (msg : string) : outcome E unit :=
  if b then Ok tt else Panic msg.

Definition is_ok {E A} (m : outcome E A) : bool :=
  match m with Ok _ => true | _ => false end.
Definition is_panic {E A} (m : outcome E A) : bool :=
  match m with Panic _ => true | _ => false end.

(** ** Stateful computations

    [ST S E A] is a computation on a state that survives an error: what was
    written before the [?] operator returned is still there, as in a method on
    [&mut self]. *)
Definition ST (S E A : Type) : Type := S → outcome E A * S.

#[export] Instance st_ret {S E} : MRet (ST S E) := λ A a s, (Ok a, s).
#[export] Instance st_bind {S E} : MBind (ST S E) := λ A B f m s,
  match m s with
  | (Ok a, s') => f a s'
  | (Err e, s') => (Err e, s')
  | (Panic p, s') => (Panic p, s')
  end.

Definition st_get {S E} : ST S E S := λ s, (Ok s, s).
Definition st_put {S E} (s : S) : ST S E unit := λ _, (Ok tt, s).
Definition st_modify {S E} (f : S → S) : ST S E unit := λ s, (Ok tt, f s).
Definition st_lift {S E A} (m : outcome E A) : ST S E A := λ s, (m, s).

(** [std::ops::ControlFlow]. *)
Inductive ControlFlow (B C : Type) : Type :=
| Continue (c : C)
| Break (b : B).
Arguments Continue {B C} c.
Arguments Break {B C} b.

(** ** Machine integers

    [u32] and [u64]/[usize] values are natural numbers; the release build
    wraps around on overflow. *)
Definition u32_max : N := 4294967295.
Definition u64_size : N := 18446744073709551616.
Definition wrap32 (n : N) : N := (n `mod` (u32_max + 1))%N.
Definition wrap64 (n : N) : N := (n `mod` u64_size)%N.

Lemma wrap64_small n : (n < u64_size)%N → wrap64 n = n.
Proof. apply N.mod_small. Qed.

Lemma wrap32_small n : (n ≤ u32_max)%N → wrap32 n = n.
Proof. unfold wrap32, u32_max. intros. apply N.mod_small. lia. Qed.

(** ** Inversion of binds *)
Section outcome_lemmas.
Context {E A B : Type}.
Implicit Types (m : outcome E A) (f : A → outcome E B).

Local Ltac outcome_cases m :=
  destruct m; simpl; split; intros; destruct_or?; destruct_and?;
  repeat match goal with H : ∃ _, _ |- _ => destruct H as [? H] end;
  destruct_and?; simplify_eq; eauto.

Lemma bind_Ok m f b : m ≫= f = Ok b ↔ ∃ a, m = Ok a ∧ f a = Ok b.
Proof. outcome_cases m. Qed.

Lemma bind_Err m f e :
  m ≫= f = Err e ↔ m = Err e ∨ ∃ a, m = Ok a ∧ f a = Err e.
Proof. outcome_cases m. Qed.

Lemma bind_Panic m f s :
  m ≫= f = Panic s ↔ m = Panic s ∨ ∃ a, m = Ok a ∧ f a = Panic s.
Proof. outcome_cases m. Qed.

Lemma fmap_Ok (g : A → B) m b : g <$> m = Ok b ↔ ∃ a, m = Ok a ∧ b = g a.
Proof. outcome_cases m. Qed.

Lemma ok_or_Ok (o : option A) (e : E) a : ok_or o e = Ok a ↔ o = Some a.
Proof. outcome_cases o. Qed.

Lemma ok_or_Err (o : option A) (e e' : E) :
  ok_or o e = Err e' ↔ o = None ∧ e = e'.
Proof. outcome_cases o. Qed.
End outcome_lemmas.

Lemma assert_Ok {E} b s u : @assert E b s = Ok u ↔ b = true.
Proof. destruct b, u; simpl; split; congruence. Qed.

(** Splits every successful bind of the context into its two halves. *)
Ltac inv_ok :=
  repeat match goal with
  | H : mbind _ _ = Ok _ |- _ => apply bind_Ok in H as (? & ? & ?)
  | H : fmap _ _ = Ok _ |- _ => apply fmap_Ok in H as (? & ? & ?)
  | H : ok_or _ _ = Ok _ |- _ => apply ok_or_Ok in H
  | H : assert _ _ = Ok _ |- _ => apply assert_Ok in H
  | H : mret _ = Ok _ |- _ => injection H as H
  | H : Ok _ = Ok _ |- _ => injection H as H
  | H : Err _ = Ok _ |- _ => discriminate H
  | H : Panic _ = Ok _ |- _ => discriminate H
  | _ => progress simplify_eq
  end.

(** ** [Vec::swap_remove]

    Removes the element at [i], puts the last element in its place and returns
    the removed element; [None] is the panic of an index out of range. *)
Definition swap_remove {A} (i : nat) (l : list A) : option (A * list A) :=
  x ← l !! i;
  y ← last l;
  Some (x, take (length l - 1) (<[i := y]> l)).

Lemma swap_remove_perm {A} i (l l' : list A) x :
  swap_remove i l = Some (x, l') → l ≡ₚ x :: l'.
Proof.
  unfold swap_remove. destruct (l !! i) as [z|] eqn:Hi; [|done]. simpl.
  destruct l as [|y0 l0] using rev_ind; [done|].
  rewrite last_snoc. simpl. intros [= -> <-].
  rewrite length_app; simpl.
  replace (length l0 + 1 - 1) with (length l0) by lia.
  destruct (decide (i = length l0)) as [->|Hne].
  - rewrite lookup_app_r in Hi by lia.
    rewrite Nat.sub_diag in Hi; simpl in Hi. injection Hi as ->.
    rewrite insert_app_r_alt, Nat.sub_diag by lia; simpl.
    rewrite take_app_length. rewrite Permutation_app_comm. done.
  - pose proof (lookup_lt_Some _ _ _ Hi) as Hlt. rewrite length_app in Hlt; simpl in Hlt.
    rewrite lookup_app_l in Hi by lia.
    rewrite insert_app_l by lia.
    rewrite take_app_le by (rewrite length_insert; lia).
    rewrite take_ge by (rewrite length_insert; lia).
    rewrite insert_take_drop by lia.
    rewrite <- (take_drop_middle l0 i x Hi) at 1.
    rewrite <- Permutation_cons_append, <- !Permutation_middle. constructor.
Qed.

Lemma swap_remove_lookup {A} i (l l' : list A) x :
  swap_remove i l = Some (x, l') → l !! i = Some x.
Proof.
  unfold swap_remove. destruct (l !! i) as [z|]; simpl; [|done].
  destruct (last l); simpl; congruence.
Qed.

Lemma swap_remove_is_Some {A} i (l : list A) :
  i < length l → is_Some (swap_remove i l).
Proof.
  intros Hi. unfold swap_remove.
  destruct (lookup_lt_is_Some_2 l i Hi) as [x ->]. simpl.
  destruct (last l) eqn:Hl; [simpl; eauto|].
  apply last_None in Hl. subst. simpl in Hi. lia.
Qed.

(** ** Lists *)

(** A list of entries with distinct keys is a function. *)
Lemma NoDup_fst_inj {A B} (l : list (A * B)) a b b' :
  NoDup l.*1 → (a, b) ∈ l → (a, b') ∈ l → b = b'.
Proof.
  intros Hnd [i Hi]%list_elem_of_lookup [j Hj]%list_elem_of_lookup.
  assert (i = j) as ->; [|congruence].
  apply (NoDup_lookup (l.*1) i j a); [done|..]; rewrite list_lookup_fmap.
  - by rewrite Hi.
  - by rewrite Hj.
Qed.

Lemma existsb_true {A} (f : A → bool) (l : list A) :
  existsb f l = true ↔ ∃ x, x ∈ l ∧ f x = true.
Proof. rewrite existsb_exists. by setoid_rewrite list_elem_of_In. Qed.

Lemma existsb_false {A} (f : A → bool) (l : list A) :
  existsb f l = false ↔ ∀ x, x ∈ l → f x = false.
Proof.
  rewrite <- not_true_iff_false, existsb_true. split.
  - intros H x Hx. apply not_true_iff_false. intros Hf. apply H. by exists x.
  - intros H (x & Hx & Hf). rewrite H in Hf by done. done.
Qed.

Lemma forallb_true {A} (f : A → bool) (l : list A) :
  forallb f l = true ↔ ∀ x, x ∈ l → f x = true.
Proof. rewrite forallb_forall. by setoid_rewrite list_elem_of_In. Qed.

#[export] Instance existsb_perm {A} (f : A → bool) :
  Proper ((≡ₚ) ==> eq) (existsb f).
Proof.
  intros l l' Hp. apply eq_true_iff_eq. rewrite !existsb_true.
  by setoid_rewrite Hp.
Qed.

#[export] Instance forallb_perm {A} (f : A → bool) :
  Proper ((≡ₚ) ==> eq) (forallb f).
Proof.
  intros l l' Hp. apply eq_true_iff_eq. rewrite !forallb_true.
  by setoid_rewrite Hp.
Qed.

(** A sorted list backwards. *)
Lemma StronglySorted_rev {A} (R : A → A → Prop) l : StronglySorted R l → StronglySorted (flip R) (rev l).
Proof.
  induction 1 as [|x l Hs IH Hx]; cbn; [constructor|].
  apply (StronglySorted_app_2 (flip R)); [|done|repeat constructor].
  intros y z Hy Hz%list_elem_of_singleton. subst z. rewrite Forall_forall in Hx. apply Hx.
  by apply list_elem_of_In, in_rev, list_elem_of_In in Hy.
Qed.
