(* ===== verification/Lru.v ===== *)
(** * The LRU cache (index-scheduler/src/lru.rs)

    [Lru] is the generation-stamped vector, [LruMap] the map built on it.  The
    generation counters are atomics of type [u64]; the model runs the calls one
    after the other and lets the counter wrap around.  [Cache] is the interface
    that the index map uses; [lru_cache] discharges it.  [LruMap] is also
    related to an abstract queue ordered by recency ([Recency]). *)
From S2P Require Import Prelude.

Record Lru (T : Type) := mkLru {
  data : list (N * T);
  generation : N;
  cap : nat
}.
Arguments mkLru {T} data generation cap.
Arguments data {T} _.
Arguments generation {T} _.
Arguments cap {T} _.

Section lru.
Context {E T : Type}.

Definition new (cap : nat) : outcome E (Lru T) :=
  if decide (cap = 0) then Panic "The capacity of a cache cannot be 0"
  else Ok (mkLru [] 0 cap).

Definition capacity (l : Lru T) : nat := cap l.

(** [fetch_add] stores the successor and returns the old value; the method
    returns the successor of that value. *)
Definition next_generation (l : Lru T) : N * Lru T :=
  let old := generation l in
  (wrap64 (old + 1), mkLru (data l) (wrap64 (old + 1)) (cap l)).

Definition next_generation_mut (l : Lru T) : N * Lru T :=
  let g := wrap64 (generation l + 1) in
  (g, mkLru (data l) g (cap l)).

Definition len (l : Lru T) : nat := length (data l).

Definition is_full (l : Lru T) : bool := bool_decide (len l = capacity l).

(** One turn of the loop of [pop] over the enumerated cells. *)
Definition min_generation_step
    (min_generation_index : option (nat * N)) (cell : nat * (N * T))
    : option (nat * N) :=
  let index := fst cell in
  let generation := fst (snd cell) in
  match min_generation_index with
  | Some (_, min_generation) =>
      if (generation <? min_generation)%N then Some (index, generation)
      else min_generation_index
  | None => Some (index, generation)
  end.

Definition min_generation_index (cells : list (N * T)) : option (nat * N) :=
  foldl min_generation_step None (imap pair cells).

(** [Vec::swap_remove] panics out of range; [pop] gives it an index of the
    vector ([pop_total] below), so the [None] of [swap_remove] stands for no
    behaviour. *)
Definition pop (l : Lru T) : option T * Lru T :=
  match min_generation_index (data l) with
  | Some (min_index, _) =>
      match swap_remove min_index (data l) with
      | Some (cell, rest) => (Some (snd cell), mkLru rest (generation l) (cap l))
      | None => (None, l)
      end
  | None => (None, l)
  end.

Definition put (value : T) (l : Lru T) : option T * Lru T :=
  let '(next, l1) := next_generation_mut l in
  let '(evicted, l2) := if is_full l1 then pop l1 else (None, l1) in
  (evicted, mkLru (data l2 ++ [(next, value)]) (generation l2) (cap l2)).
End lru.

(** The result of an insertion in a LRU map. *)
Inductive InsertionOutcome (K V : Type) : Type :=
| InsertedNew
| Evicted (k : K) (v : V)
| Replaced (v : V).
Arguments InsertedNew {K V}.
Arguments Evicted {K V} k v.
Arguments Replaced {K V} v.

Definition LruMap (K V : Type) : Type := Lru (K * V).

Section lru_map.
Context {K V : Type} `{EqDecision K}.

(** The loop of [get] and [get_mut]: the first cell with the key gets the
    generation [g] and the value the caller writes through the reference. *)
Fixpoint touch (key : K) (g : N) (write : V → V) (cells : list (N * (K * V)))
    : option (V * list (N * (K * V))) :=
  match cells with
  | [] => None
  | (gen, (candidate, value)) :: rest =>
      if decide (key = candidate)
      then Some (value, (g, (candidate, write value)) :: rest)
      else match touch key g write rest with
           | Some (v, rest') => Some (v, (gen, (candidate, value)) :: rest')
           | None => None
           end
  end.

(** [get] takes the next generation only when the key is found. *)
Definition get (key : K) (l : LruMap K V) : option V * LruMap K V :=
  let '(g, l') := next_generation l in
  match touch key g id (data l) with
  | Some (v, cells) => (Some v, mkLru cells (generation l') (cap l'))
  | None => (None, l)
  end.

(** [get_mut] takes the next generation in any case; [write] is what the
    caller does with the mutable reference it returns. *)
Definition get_mut (key : K) (write : V → V) (l : LruMap K V)
    : option V * LruMap K V :=
  let '(g, l') := next_generation_mut l in
  match touch key g write (data l') with
  | Some (v, cells) => (Some v, mkLru cells (generation l') (cap l'))
  | None => (None, l')
  end.

Definition insert (key : K) (value : V) (l : LruMap K V)
    : InsertionOutcome K V * LruMap K V :=
  match get_mut key (λ _, value) l with
  | (Some old_value, l') => (Replaced old_value, l')
  | (None, l') =>
      match put (key, value) l' with
      | (Some (k, v), l'') => (Evicted k v, l'')
      | (None, l'') => (InsertedNew, l'')
      end
  end.

(** The position of the first cell with the key. *)
Fixpoint position (key : K) (cells : list (N * (K * V))) : option nat :=
  match cells with
  | [] => None
  | (_, (candidate, _)) :: rest =>
      if decide (key = candidate) then Some 0 else S <$> position key rest
  end.

Definition remove (key : K) (l : LruMap K V) : option V * LruMap K V :=
  match position key (data l) with
  | Some index =>
      match swap_remove index (data l) with
      | Some ((_, (_, v)), rest) => (Some v, mkLru rest (generation l) (cap l))
      | None => (None, l)
      end
  | None => (None, l)
  end.
End lru_map.

(** ** The interface promised to the index map

    A cache is seen through the finite map of what it holds.  [cache_insert]
    says which of the three outcomes happened and what is in the cache after
    it; nothing is promised about which entry is evicted. *)
Class CacheOps (K V C : Type) := {
  cache_new : ∀ {E}, nat → outcome E C;
  cache_get : K → C → option V * C;
  cache_insert : K → V → C → InsertionOutcome K V * C;
  cache_remove : K → C → option V * C
}.

Class Cache (K V C : Type) `{Countable K} `{!CacheOps K V C} := {
  cache_ok : C → Prop;
  cache_capacity : C → nat;
  cache_map : C → gmap K V;
  cache_new_spec : ∀ {E} n c, cache_new (E:=E) n = Ok c →
    cache_ok c ∧ cache_map c = ∅ ∧ cache_capacity c = n;
  cache_size : ∀ c, cache_ok c → size (cache_map c) ≤ cache_capacity c;
  cache_get_spec : ∀ k c, cache_ok c →
    (cache_get k c).1 = cache_map c !! k ∧
    cache_map (cache_get k c).2 = cache_map c ∧ cache_ok (cache_get k c).2 ∧
    cache_capacity (cache_get k c).2 = cache_capacity c;
  cache_insert_spec : ∀ k v c, cache_ok c →
    let '(o, c') := cache_insert k v c in
    cache_ok c' ∧ cache_capacity c' = cache_capacity c ∧
    match o with
    | InsertedNew => cache_map c !! k = None ∧ cache_map c' = <[k:=v]> (cache_map c)
    | Evicted k0 v0 =>
        cache_map c !! k = None ∧ cache_map c !! k0 = Some v0 ∧
        cache_map c' = <[k:=v]> (delete k0 (cache_map c))
    | Replaced v0 =>
        cache_map c !! k = Some v0 ∧ cache_map c' = <[k:=v]> (cache_map c)
    end;
  cache_remove_spec : ∀ k c, cache_ok c →
    (cache_remove k c).1 = cache_map c !! k ∧
    cache_map (cache_remove k c).2 = delete k (cache_map c) ∧
    cache_ok (cache_remove k c).2 ∧
    cache_capacity (cache_remove k c).2 = cache_capacity c
}.

(** ** The loop of [pop] *)
Section pop_facts.
Context {T : Type}.
Implicit Types (cells : list (N * T)) (l : Lru T).

Lemma min_generation_index_spec cells :
  match min_generation_index cells with
  | None => cells = []
  | Some (i, g) =>
      (∃ x, cells !! i = Some (g, x)) ∧ Forall (λ c, (g ≤ c.1)%N) cells
  end.
Proof.
  unfold min_generation_index.
  induction cells as [|[g x] cells IH] using rev_ind; [done|].
  rewrite imap_app, foldl_app; simpl.
  rewrite Nat.add_0_r.
  destruct (foldl _ _ _) as [[i m]|]; simpl.
  - destruct IH as [[y Hy] Hall]. destruct (N.ltb_spec g m).
    + split.
      * exists x. rewrite lookup_app_r, Nat.sub_diag by lia. done.
      * apply Forall_app. split; [|by constructor].
        eapply Forall_impl; [exact Hall|]. simpl; intros; lia.
    + split.
      * exists y. by apply lookup_app_l_Some.
      * apply Forall_app. split; [done|]. by constructor.
  - subst. split; [by exists x|]. by constructor.
Qed.

(** [pop] evicts a cell with the least generation; it returns nothing on the
    empty vector only. *)
Lemma pop_spec l :
  match pop l with
  | (None, l') => data l = [] ∧ l' = l
  | (Some x, l') => ∃ g,
      data l ≡ₚ (g, x) :: data l' ∧ Forall (λ c, (g ≤ c.1)%N) (data l) ∧
      generation l' = generation l ∧ cap l' = cap l
  end.
Proof.
  unfold pop. pose proof (min_generation_index_spec (data l)) as Hm.
  destruct (min_generation_index (data l)) as [[i g]|]; [|done].
  destruct Hm as [[x Hx] Hall].
  destruct (swap_remove i (data l)) as [[[g' x'] rest]|] eqn:Hs.
  - exists g. simpl. split_and!; [|exact Hall|reflexivity|reflexivity].
    pose proof (swap_remove_lookup _ _ _ _ Hs). simplify_eq.
    by apply swap_remove_perm in Hs.
  - destruct (swap_remove_is_Some i (data l)) as [? ?].
    { by eapply lookup_lt_Some. }
    congruence.
Qed.
End pop_facts.

(** ** The loops of the map *)
Section map_facts.
Context {K V : Type} `{Countable K}.
Implicit Types (cells : list (N * (K * V))) (l : LruMap K V).

Definition keys_of cells : list K := (λ c, c.2.1) <$> cells.

Lemma touch_spec key g w cells :
  match touch key g w cells with
  | None => key ∉ keys_of cells
  | Some (v, cells') => ∃ p gen q,
      cells = p ++ (gen, (key, v)) :: q ∧ cells' = p ++ (g, (key, w v)) :: q
  end.
Proof.
  induction cells as [|[gen [c v]] cells IH]; simpl; [apply not_elem_of_nil|].
  case_decide as Hd; [subst; by exists [], gen, cells|].
  destruct (touch key g w cells) as [[v' cells']|].
  - destruct IH as (p & gen' & q & -> & ->). by exists ((gen, (c, v)) :: p), gen', q.
  - rewrite not_elem_of_cons. by split.
Qed.

Lemma position_spec key cells :
  match position key cells with
  | None => key ∉ keys_of cells
  | Some i => ∃ gen v, cells !! i = Some (gen, (key, v))
  end.
Proof.
  induction cells as [|[gen [c v]] cells IH]; simpl; [apply not_elem_of_nil|].
  case_decide as Hd; [subst; by exists gen, v|].
  destruct (position key cells) as [i|]; simpl; [done|].
  rewrite not_elem_of_cons. by split.
Qed.

Lemma remove_spec key l :
  match remove key l with
  | (None, l') => (key ∉ keys_of (data l)) ∧ l' = l
  | (Some v, l') => ∃ gen,
      data l ≡ₚ (gen, (key, v)) :: data l' ∧
      generation l' = generation l ∧ cap l' = cap l
  end.
Proof.
  unfold remove. pose proof (position_spec key (data l)) as Hp.
  destruct (position key (data l)) as [i|]; [|done].
  destruct Hp as (gen & v & Hi).
  destruct (swap_remove i (data l)) as [[[g' [k' v']] rest]|] eqn:Hs.
  - pose proof (swap_remove_lookup _ _ _ _ Hs). simplify_eq/=.
    exists gen. by apply swap_remove_perm in Hs.
  - destruct (swap_remove_is_Some i (data l)) as [? ?].
    { by eapply lookup_lt_Some. }
    congruence.
Qed.

(** The well-formedness of the map: one cell per key, within capacity. *)
Record lru_ok l : Prop := {
  ok_keys : NoDup (keys_of (data l));
  ok_len : len l ≤ cap l
}.

Definition lru_to_map l : gmap K V := list_to_map (snd <$> data l).

Lemma keys_of_fst cells : (snd <$> cells).*1 = keys_of cells.
Proof. unfold keys_of. rewrite <- list_fmap_compose. done. Qed.

Lemma to_map_perm cells cells' :
  NoDup (keys_of cells) → cells ≡ₚ cells' →
  (list_to_map (snd <$> cells) : gmap K V) = list_to_map (snd <$> cells').
Proof.
  intros Hnd Hp. apply list_to_map_proper; [by rewrite keys_of_fst|].
  by rewrite Hp.
Qed.

Lemma keys_of_perm cells cells' :
  cells ≡ₚ cells' → NoDup (keys_of cells) → NoDup (keys_of cells').
Proof. unfold keys_of. by intros ->. Qed.

Lemma lookup_to_map_None l k :
  k ∉ keys_of (data l) → lru_to_map l !! k = None.
Proof. intros. apply not_elem_of_list_to_map_1. by rewrite keys_of_fst. Qed.

(** Reading a vector with the cell of [k] brought to the front. *)
Lemma to_map_front l g k v rest :
  NoDup (keys_of (data l)) → data l ≡ₚ (g, (k, v)) :: rest →
  lru_to_map l = <[k := v]> (list_to_map (snd <$> rest)) ∧
  (list_to_map (snd <$> rest) : gmap K V) !! k = None ∧
  NoDup (k :: keys_of rest).
Proof.
  intros Hnd Hp. pose proof (keys_of_perm _ _ Hp Hnd) as Hnd'.
  simpl in Hnd'. split_and!; [by apply (to_map_perm _ _ Hnd Hp)| |done].
  apply not_elem_of_list_to_map_1. rewrite keys_of_fst. by inversion Hnd'.
Qed.

Lemma lru_ok_perm l cells :
  lru_ok l → data l ≡ₚ cells → lru_ok (mkLru cells (generation l) (cap l)).
Proof.
  intros [? Hl] Hp. split; [by eapply keys_of_perm|].
  unfold len in *; simpl. by rewrite <- Hp.
Qed.

(** Rewriting the value of one cell. *)
Lemma touch_map key g w l v cells n :
  lru_ok l → touch key g w (data l) = Some (v, cells) →
  lru_to_map l !! key = Some v ∧
  lru_ok (mkLru cells n (cap l)) ∧
  lru_to_map (mkLru cells n (cap l)) = <[key := w v]> (lru_to_map l).
Proof.
  intros [Hnd Hl] Ht. pose proof (touch_spec key g w (data l)) as Hs.
  rewrite Ht in Hs. destruct Hs as (p & gen & q & Hd & ->).
  assert (data l ≡ₚ (gen, (key, v)) :: p ++ q) as Hp by (by rewrite Hd, Permutation_middle).
  destruct (to_map_front l _ _ _ _ Hnd Hp) as (Hm & Hnone & Hnd').
  set (l' := mkLru (p ++ (g, (key, w v)) :: q) n (cap l)).
  assert (data l' ≡ₚ (g, (key, w v)) :: p ++ q) as Hp' by (simpl; by rewrite Permutation_middle).
  assert (lru_ok l') as Hok.
  { split; [by apply (keys_of_perm _ _ (symmetry Hp'))|].
    unfold len in *. rewrite Hp'. rewrite Hp in Hl. done. }
  destruct (to_map_front l' _ _ _ _ (ok_keys _ Hok) Hp') as (Hm' & _ & _).
  split_and!; [by rewrite Hm, lookup_insert_eq|done|].
  by rewrite Hm', Hm, insert_insert_eq.
Qed.

Lemma lru_get_map k l : lru_ok l →
  (get k l).1 = lru_to_map l !! k ∧
  lru_to_map (get k l).2 = lru_to_map l ∧ lru_ok (get k l).2.
Proof.
  intros Hok. unfold get; simpl.
  destruct (touch k (wrap64 (generation l + 1)) id (data l)) as [[v cells]|] eqn:Ht; simpl.
  - destruct (touch_map _ _ _ _ _ _ (wrap64 (generation l + 1)) Hok Ht) as (Hl & Hok' & Hm).
    split_and!; [done| |done]. rewrite Hm. by apply insert_id.
  - pose proof (touch_spec k (wrap64 (generation l + 1)) id (data l)) as Hs. rewrite Ht in Hs.
    split_and!; [|done..]. symmetry. by apply lookup_to_map_None.
Qed.

Lemma lru_remove_map k l : lru_ok l →
  (remove k l).1 = lru_to_map l !! k ∧
  lru_to_map (remove k l).2 = delete k (lru_to_map l) ∧ lru_ok (remove k l).2.
Proof.
  intros Hok. pose proof (remove_spec k l) as Hs.
  destruct (remove k l) as [[v|] l']; simpl.
  - destruct Hs as (gen & Hp & _ & Hc).
    destruct (to_map_front l _ _ _ _ (ok_keys _ Hok) Hp) as (Hm & Hnone & Hnd).
    split_and!; [by rewrite Hm, lookup_insert_eq| |].
    + rewrite Hm, delete_insert_id; done.
    + split; [by inversion Hnd|]. rewrite Hc. destruct Hok as [_ Hl].
      unfold len in *. rewrite Hp in Hl. simpl in Hl. lia.
  - destruct Hs as [Hk ->]. rewrite (lookup_to_map_None _ _ Hk).
    split_and!; [done| |done]. symmetry. by apply delete_id, lookup_to_map_None.
Qed.

(** Appending a cell with a new key. *)
Lemma lru_push_map l g k v n :
  lru_ok l → k ∉ keys_of (data l) → len l < cap l →
  lru_ok (mkLru (data l ++ [(g, (k, v))]) n (cap l)) ∧
  lru_to_map (mkLru (data l ++ [(g, (k, v))]) n (cap l)) = <[k := v]> (lru_to_map l).
Proof.
  intros [Hnd Hl] Hk Hlt.
  set (l' := mkLru (data l ++ [(g, (k, v))]) n (cap l)).
  assert (data l' ≡ₚ (g, (k, v)) :: data l) as Hp by (simpl; by rewrite Permutation_app_comm).
  assert (lru_ok l') as Hok.
  { split; [apply (keys_of_perm _ _ (symmetry Hp)); by constructor|].
    unfold len in *. rewrite Hp. simpl. lia. }
  split; [done|]. by destruct (to_map_front l' _ _ _ _ (ok_keys _ Hok) Hp) as (-> & _ & _).
Qed.

Lemma lru_put_map k v l :
  lru_ok l → cap l ≠ 0 → k ∉ keys_of (data l) →
  let '(o, l') := put (k, v) l in
  lru_ok l' ∧ cap l' = cap l ∧
  match o with
  | Some (k0, v0) =>
      lru_to_map l !! k0 = Some v0 ∧
      lru_to_map l' = <[k := v]> (delete k0 (lru_to_map l))
  | None => lru_to_map l' = <[k := v]> (lru_to_map l)
  end.
Proof.
  intros Hok Hcap Hk. unfold put; simpl.
  set (g := wrap64 (generation l + 1)).
  set (l1 := mkLru (data l) g (cap l)).
  assert (lru_ok l1) as Hok1 by (by destruct Hok).
  unfold is_full. case_bool_decide as Hfull.
  - pose proof (pop_spec l1) as Hp. destruct (pop l1) as [[[k0 v0]|] l2].
    + destruct Hp as (g0 & Hp & _ & Hg & Hc). simpl in Hp, Hg, Hc.
      destruct (to_map_front l1 _ _ _ _ (ok_keys _ Hok1) Hp) as (Hm & Hnone & Hnd).
      assert (lru_ok l2) as Hok2.
      { split; [by inversion Hnd|]. rewrite Hc. destruct Hok as [_ Hl].
        unfold len in *. rewrite Hp in Hl. simpl in Hl. lia. }
      destruct (lru_push_map l2 g k v (generation l2) Hok2) as [Hok3 Hm3].
      * intros Hin. apply Hk. unfold keys_of in *. rewrite Hp. by right.
      * unfold len, capacity, l1 in Hfull. simpl in Hfull.
        rewrite Hp in Hfull. simpl in Hfull. unfold len. lia.
      * split_and!; [done..| |].
        -- change (lru_to_map l) with (lru_to_map l1). by rewrite Hm, lookup_insert_eq.
        -- rewrite Hm3. change (lru_to_map l) with (lru_to_map l1).
           rewrite Hm, delete_insert_id by done. done.
    + destruct Hp as [Hnil ->]. exfalso. apply Hcap.
      unfold len, capacity in Hfull. rewrite Hnil in Hfull. done.
  - destruct (lru_push_map l1 g k v g Hok1) as [Hok3 Hm3]; [done| |done].
    destruct Hok1 as [_ Hl]. unfold capacity, len in *. simpl in *. lia.
Qed.

Lemma lru_insert_map k v l : lru_ok l → cap l ≠ 0 →
  let '(o, l') := insert k v l in
  lru_ok l' ∧ cap l' = cap l ∧
  match o with
  | InsertedNew => lru_to_map l !! k = None ∧ lru_to_map l' = <[k:=v]> (lru_to_map l)
  | Evicted k0 v0 =>
      lru_to_map l !! k = None ∧ lru_to_map l !! k0 = Some v0 ∧
      lru_to_map l' = <[k:=v]> (delete k0 (lru_to_map l))
  | Replaced v0 =>
      lru_to_map l !! k = Some v0 ∧ lru_to_map l' = <[k:=v]> (lru_to_map l)
  end.
Proof.
  intros Hok Hcap. unfold insert, get_mut; simpl.
  set (g := wrap64 (generation l + 1)).
  set (l1 := mkLru (data l) g (cap l)).
  destruct (touch k g (λ _, v) (data l)) as [[v0 cells]|] eqn:Ht.
  - by destruct (touch_map _ _ _ _ _ _ g Hok Ht) as (Hl & Hok' & Hm).
  - pose proof (touch_spec k g (λ _, v) (data l)) as Hs. rewrite Ht in Hs.
    assert (lru_ok l1) as Hok1 by (by destruct Hok).
    pose proof (lru_put_map k v l1 Hok1 Hcap Hs) as Hp.
    pose proof (lookup_to_map_None l k Hs).
    destruct (put (k, v) l1) as [[[k0 v0]|] l2]; by destruct_and?; split_and!.
Qed.
End map_facts.

#[export] Instance lru_cache_ops {K V} `{Countable K} : CacheOps K V (LruMap K V) := {
  cache_new E n := new n;
  cache_get := get;
  cache_insert := insert;
  cache_remove := remove
}.

#[export] Program Instance lru_cache {K V} `{Countable K} : Cache K V (LruMap K V) := {
  cache_ok l := lru_ok l ∧ cap l ≠ 0;
  cache_capacity l := cap l;
  cache_map l := lru_to_map l
}.
Next Obligation.
  intros K V ?? E n c. simpl. unfold new. case_decide; [done|].
  intros [= <-]. split_and!; [split; [apply NoDup_nil_2|apply Nat.le_0_l]|done..].
Qed.
Next Obligation.
  intros K V ?? c [[Hnd Hl] _]. unfold lru_to_map.
  rewrite <- length_map_to_list, map_to_list_to_map by (by rewrite keys_of_fst).
  rewrite length_fmap. done.
Qed.
Next Obligation.
  intros K V ?? k c [Hok ?]. simpl. destruct (lru_get_map k c Hok) as (? & ? & ?).
  split_and!; [done..| |]; unfold get; simpl; by destruct (touch _ _ _ _) as [[]|].
Qed.
Next Obligation.
  intros K V ?? k v c [Hok ?]. simpl. pose proof (lru_insert_map k v c Hok) as Hi.
  destruct (insert k v c) as [o c']. destruct Hi as (? & Hc & ?); [done|].
  rewrite Hc. split_and!; try done.
Qed.
Next Obligation.
  intros K V ?? k c [Hok ?]. simpl. destruct (lru_remove_map k c Hok) as (? & ? & ?).
  pose proof (remove_spec k c) as Hs.
  split_and!; [done..| |];
    (destruct (remove k c) as [[v|] c']; simpl in *; [|by destruct Hs as [_ ->]]);
    by destruct Hs as (? & _ & _ & ->).
Qed.

(** ** The abstract cache: a queue ordered by recency

    The head of the list is the least recently used entry.  Reading or writing
    an entry moves it to the back; inserting into a full queue drops the head. *)
Module Recency.
Section recency.
Context {K V : Type} `{Countable K}.
Implicit Types (s : list (K * V)) (l : LruMap K V) (cells : list (N * (K * V))).

Fixpoint lookup_spec (k : K) s : option V :=
  match s with
  | [] => None
  | (k', v) :: s' => if decide (k = k') then Some v else lookup_spec k s'
  end.

Definition forget (k : K) s : list (K * V) := filter (λ p, p.1 ≠ k) s.

Inductive op : Type :=
| OpGet (k : K)
| OpGetMut (k : K) (w : V → V)
| OpInsert (k : K) (v : V)
| OpRemove (k : K).

Inductive reply : Type :=
| Found (o : option V)
| Inserted (o : InsertionOutcome K V).

(** The specification of one call. *)
Definition spec_step (capacity : nat) (o : op) s : reply * list (K * V) :=
  match o with
  | OpGet k =>
      (Found (lookup_spec k s),
       match lookup_spec k s with
       | Some v => forget k s ++ [(k, v)] | None => s end)
  | OpGetMut k w =>
      (Found (lookup_spec k s),
       match lookup_spec k s with
       | Some v => forget k s ++ [(k, w v)] | None => s end)
  | OpRemove k => (Found (lookup_spec k s), forget k s)
  | OpInsert k v =>
      match lookup_spec k s with
      | Some old => (Inserted (Replaced old), forget k s ++ [(k, v)])
      | None =>
          match decide (length s = capacity), s with
          | left _, (k0, v0) :: s' => (Inserted (Evicted k0 v0), s' ++ [(k, v)])
          | _, _ => (Inserted InsertedNew, s ++ [(k, v)])
          end
      end
  end.

(** One call on the implementation. *)
Definition impl_step (o : op) l : reply * LruMap K V :=
  match o with
  | OpGet k => let '(r, l') := get k l in (Found r, l')
  | OpGetMut k w => let '(r, l') := get_mut k w l in (Found r, l')
  | OpInsert k v => let '(r, l') := insert k v l in (Inserted r, l')
  | OpRemove k => let '(r, l') := remove k l in (Found r, l')
  end.

Fixpoint spec_run (capacity : nat) (os : list op) s : list reply * list (K * V) :=
  match os with
  | [] => ([], s)
  | o :: os' =>
      let '(r, s1) := spec_step capacity o s in
      let '(rs, s2) := spec_run capacity os' s1 in (r :: rs, s2)
  end.

Fixpoint impl_run (os : list op) l : list reply * LruMap K V :=
  match os with
  | [] => ([], l)
  | o :: os' =>
      let '(r, l1) := impl_step o l in
      let '(rs, l2) := impl_run os' l1 in (r :: rs, l2)
  end.

Definition older : relation (N * (K * V)) := λ c d, (c.1 < d.1)%N.

(** [l] holds the entries of the queue [s], stamped in the queue's order. *)
Definition represents l s : Prop := ∃ cells,
  data l ≡ₚ cells ∧ snd <$> cells = s ∧ StronglySorted older cells ∧
  Forall (λ c, (c.1 ≤ generation l)%N) cells ∧
  NoDup (keys_of cells) ∧ length s ≤ cap l ∧ cap l ≠ 0.

Lemma lookup_spec_app k p v (q : list (K * V)) :
  k ∉ p.*1 → lookup_spec k (p ++ (k, v) :: q) = Some v.
Proof.
  induction p as [|[k' v'] p IH]; simpl; [by rewrite decide_True|].
  rewrite not_elem_of_cons. intros [? ?]. rewrite decide_False by done. auto.
Qed.

Lemma lookup_spec_None k s : k ∉ s.*1 → lookup_spec k s = None.
Proof.
  induction s as [|[k' v'] s IH]; simpl; [done|].
  rewrite not_elem_of_cons. intros [? ?]. rewrite decide_False by done. auto.
Qed.

Lemma forget_id k s : k ∉ s.*1 → forget k s = s.
Proof.
  unfold forget. induction s as [|[k' v'] s IH]; [done|]. simpl.
  rewrite not_elem_of_cons. intros [? ?].
  rewrite filter_cons_True by done. f_equal. auto.
Qed.

Lemma forget_app k p v (q : list (K * V)) :
  k ∉ p.*1 → k ∉ q.*1 → forget k (p ++ (k, v) :: q) = p ++ q.
Proof.
  intros Hp Hq. unfold forget. rewrite filter_app, filter_cons_False by auto.
  f_equal; by apply forget_id.
Qed.

(** The place of the entry of [k] in the queue that a vector represents. *)
Lemma represents_split l s gen k v rest :
  represents l s → data l ≡ₚ (gen, (k, v)) :: rest →
  ∃ p q, s = (snd <$> p) ++ (k, v) :: (snd <$> q) ∧ rest ≡ₚ p ++ q ∧
    StronglySorted older (p ++ q) ∧
    Forall (λ c, (c.1 ≤ generation l)%N) (p ++ q) ∧
    NoDup (k :: keys_of (p ++ q)) ∧
    (k ∉ (snd <$> p).*1) ∧ (k ∉ (snd <$> q).*1).
Proof.
  intros (cells & Hp & <- & Hs & Hg & Hnd & Hl & Hc) Hd.
  assert ((gen, (k, v)) ∈ cells) as Hin by (rewrite <- Hp, Hd; left).
  apply list_elem_of_split in Hin as (p & q & ->). exists p, q.
  rewrite StronglySorted_app, StronglySorted_cons in Hs.
  destruct Hs as (H1 & H2 & H3 & H4).
  assert (NoDup (k :: keys_of (p ++ q))) as Hnd'.
  { eapply (keys_of_perm _ ((gen, (k, v)) :: p ++ q)); [|exact Hnd].
    by rewrite Permutation_middle. }
  split_and!; [by rewrite fmap_app| | | |done|..].
  - apply (Permutation_cons_inv (a:=(gen, (k, v)))).
    rewrite <- Hd, Hp. symmetry. apply Permutation_middle.
  - apply StronglySorted_app_2; [|done..].
    intros x1 x2 ??. apply H1; [done|by right].
  - apply Forall_app in Hg as [Hg1 Hg2]. apply Forall_app. split; [done|].
    by inversion Hg2.
  - rewrite keys_of_fst. intros Hk. inversion Hnd' as [|?? Hn _].
    apply Hn. unfold keys_of in *. rewrite fmap_app. set_solver.
  - rewrite keys_of_fst. intros Hk. inversion Hnd' as [|?? Hn _].
    apply Hn. unfold keys_of in *. rewrite fmap_app. set_solver.
Qed.

(** Stamping a new entry with a fresh generation puts it at the back. *)
Lemma represents_push p cells l k v g cap' :
  data l ≡ₚ (g, (k, v)) :: cells → cells ≡ₚ p → StronglySorted older p →
  Forall (λ c, (c.1 < g)%N) p → NoDup (k :: keys_of p) →
  generation l = g → cap l = cap' → S (length p) ≤ cap' →
  represents l ((snd <$> p) ++ [(k, v)]).
Proof.
  intros Hd Hp Hs Hlt Hnd Hg Hc Hl. exists (p ++ [(g, (k, v))]). split_and!.
  - by rewrite Hd, Hp, <- Permutation_cons_append.
  - by rewrite fmap_app.
  - apply StronglySorted_app_2; [|done|by repeat constructor].
    intros x1 x2 H1 ->%list_elem_of_singleton. rewrite Forall_forall in Hlt.
    by apply Hlt.
  - apply Forall_app. split; [|by repeat constructor; rewrite Hg].
    eapply Forall_impl; [exact Hlt|]. simpl. intros; lia.
  - eapply keys_of_perm; [|exact (Hnd : NoDup (keys_of ((g, (k, v)) :: p)))].
    by rewrite <- Permutation_cons_append.
  - rewrite length_app, length_fmap, Hc. simpl. lia.
  - lia.
Qed.

Lemma represents_lookup_None l s k :
  represents l s → k ∉ keys_of (data l) → k ∉ s.*1.
Proof.
  intros (cells & Hp & <- & _) Hk. rewrite keys_of_fst. unfold keys_of in *.
  by rewrite <- Hp.
Qed.

(** Reading and writing through the cache. *)
Lemma touch_refines l s k w g :
  represents l s → (generation l < g)%N →
  match touch k g w (data l) with
  | None => lookup_spec k s = None
  | Some (v, cells) =>
      lookup_spec k s = Some v ∧
      represents (mkLru cells g (cap l)) (forget k s ++ [(k, w v)])
  end.
Proof.
  intros HR Hlt. pose proof (touch_spec k g w (data l)) as Ht.
  destruct (touch k g w (data l)) as [[v cells]|];
    [|by eapply lookup_spec_None, represents_lookup_None].
  destruct Ht as (p' & gen & q' & Hd & ->).
  destruct (represents_split l s gen k v (p' ++ q') HR) as
    (p & q & -> & Hpq & Hs & Hg & Hnd & Hkp & Hkq).
  { by rewrite Hd, Permutation_middle. }
  rewrite lookup_spec_app, forget_app, <- fmap_app by done. split; [done|].
  destruct HR as (_ & _ & _ & _ & _ & _ & Hl & _).
  eapply (represents_push (p ++ q) (p' ++ q')); try done; simpl.
  - by rewrite Permutation_middle.
  - eapply Forall_impl; [exact Hg|]. simpl; intros; lia.
  - rewrite length_app in *. simpl in Hl. rewrite !length_fmap in Hl. lia.
Qed.

Lemma remove_refines l s k :
  represents l s →
  let '(r, l') := remove k l in
  r = lookup_spec k s ∧ represents l' (forget k s) ∧
  generation l' = generation l.
Proof.
  intros HR. pose proof (remove_spec k l) as Hr.
  destruct (remove k l) as [[v|] l'].
  - destruct Hr as (gen & Hd & Hg' & Hc').
    destruct (represents_split l s gen k v _ HR Hd) as
      (p & q & -> & Hpq & Hs & Hg & Hnd & Hkp & Hkq).
    rewrite lookup_spec_app, forget_app, <- fmap_app by done.
    split_and!; [done| |done]. apply NoDup_cons in Hnd as [_ Hnd].
    destruct HR as (_ & _ & _ & _ & _ & _ & Hl & Hc).
    exists (p ++ q). split_and!; try done; [by rewrite Hg'| |by rewrite Hc'].
    rewrite Hc', length_fmap, length_app. rewrite length_app in Hl. simpl in Hl.
    rewrite !length_fmap in Hl. lia.
  - destruct Hr as [Hk ->]. pose proof (represents_lookup_None _ _ _ HR Hk) as Hk'.
    rewrite lookup_spec_None, forget_id by done. done.
Qed.

(** A full vector loses the head of the queue. *)
Lemma pop_refines l s k0 v0 s' :
  represents l ((k0, v0) :: s') → s = (k0, v0) :: s' →
  let '(r, l') := pop l in
  r = Some (k0, v0) ∧ cap l' = cap l ∧ generation l' = generation l ∧
  ∃ g0 cells, data l ≡ₚ (g0, (k0, v0)) :: cells ∧ data l' ≡ₚ cells ∧
    snd <$> cells = s' ∧ StronglySorted older cells ∧ NoDup (k0 :: keys_of cells).
Proof.
  intros (cells & Hp & Hc & Hs & Hg & Hnd & Hl & Hcap) _.
  destruct cells as [|[g0 [k0' v0']] cells]; [done|].
  simpl in Hc. injection Hc as -> -> <-.
  apply StronglySorted_cons in Hs as [Hlt Hs].
  pose proof (pop_spec l) as Hpop. destruct (pop l) as [[x|] l'].
  - destruct Hpop as (g & Hd & Hmin & Hg' & Hc').
    assert ((g, x) = (g0, (k0, v0))) as Heq.
    { assert ((g, x) ∈ (g0, (k0, v0)) :: cells) as Hin by (rewrite <- Hp, Hd; left).
      apply elem_of_cons in Hin as [|Hin]; [done|]. exfalso.
      rewrite Forall_forall in Hlt, Hmin. specialize (Hlt _ Hin).
      specialize (Hmin (g0, (k0, v0))). unfold older in Hlt. simpl in *.
      assert (g ≤ g0)%N; [|lia]. apply Hmin. rewrite Hp. left. }
    injection Heq as -> ->. split_and!; [done..|]. exists g0, cells.
    split_and!; [done| |done..].
    apply (Permutation_cons_inv (a:=(g0, (k0, v0)))). by rewrite <- Hd, Hp.
  - destruct Hpop as [Hnil _]. rewrite Hnil in Hp.
    by apply Permutation_nil_cons in Hp.
Qed.

Lemma represents_bump l s :
  represents l s → represents (mkLru (data l) (generation l + 1) (cap l)) s.
Proof.
  intros (cells & ? & ? & ? & Hg & ?). exists cells. destruct_and?. split_and!; try done.
  eapply Forall_impl; [exact Hg|]. simpl; intros; lia.
Qed.

Lemma put_refines l s k v :
  represents l s → k ∉ keys_of (data l) → (generation l + 1 < u64_size)%N →
  let '(r, l') := put (k, v) l in
  spec_step (cap l) (OpInsert k v) s =
    (Inserted match r with Some (k0, v0) => Evicted k0 v0 | None => InsertedNew end,
     match r with Some _ => tail s | None => s end ++ [(k, v)]) ∧
  represents l' (match r with Some _ => tail s | None => s end ++ [(k, v)]) ∧
  cap l' = cap l ∧ generation l' = (generation l + 1)%N.
Proof.
  intros HR Hk Hlt. pose proof (represents_lookup_None _ _ _ HR Hk) as Hks.
  unfold put; simpl. rewrite wrap64_small, lookup_spec_None by done.
  set (g := (generation l + 1)%N). set (l1 := mkLru (data l) g (cap l)).
  pose proof (represents_bump _ _ HR : represents l1 s) as HR1.
  assert (length s = len l) as Hlen.
  { destruct HR as (cells & Hp & <- & _). unfold len. by rewrite Hp, length_fmap. }
  unfold is_full, capacity. change (len l1) with (len l). rewrite <- Hlen. simpl.
  destruct HR as (cells & Hp & Hcs & Hs & Hg & Hnd & Hl & Hcap).
  case_bool_decide as Hfull.
  - rewrite decide_True by done. destruct s as [|[k0 v0] s']; [simpl in *; lia|].
    pose proof (pop_refines l1 _ k0 v0 s' HR1 eq_refl) as Hpop.
    destruct (pop l1) as [r l2]. destruct Hpop as (-> & Hc2 & Hg2 & g0 & cells2 & Hd2 & Hp2 & <- & Hs2 & Hnd2).
    simpl in Hc2, Hg2, Hd2 |- *. split_and!; [done| |done..].
    rewrite <- Hp, Hd2 in Hg. apply Forall_cons in Hg as [_ Hle].
    assert (k ∉ keys_of cells2) as Hk2.
    { intros Hin. apply Hk. unfold keys_of in *. rewrite Hd2. by right. }
    eapply (represents_push cells2 (data l2)); try done; simpl.
    + by rewrite <- Permutation_cons_append.
    + eapply Forall_impl; [exact Hle|]. simpl; intros; lia.
    + apply NoDup_cons. split; [done|]. by apply NoDup_cons in Hnd2 as [_ ?].
    + simpl in Hfull. rewrite length_fmap in Hfull. lia.
  - rewrite decide_False by done. simpl. split_and!; [by destruct s as [|[]]| |done..].
    rewrite <- Hcs. eapply (represents_push cells (data l)); try done; simpl.
    + by rewrite <- Permutation_cons_append.
    + eapply Forall_impl; [exact Hg|]. simpl; intros; lia.
    + apply NoDup_cons. split; [|done]. unfold keys_of in *. by rewrite <- Hp.
    + rewrite <- Hcs, length_fmap in *. lia.
Qed.

(** A call on a vector that represents a queue returns what the queue returns
    and leaves a vector that represents the queue's next state.  Each call
    takes at most two generations. *)
Lemma step_refines l s o :
  represents l s → (generation l + 2 < u64_size)%N →
  let '(r, l') := impl_step o l in
  r = (spec_step (cap l) o s).1 ∧ represents l' (spec_step (cap l) o s).2 ∧
  cap l' = cap l ∧ (generation l' ≤ generation l + 2)%N.
Proof.
  intros HR Hlt. destruct o as [k|k w|k v|k]; simpl.
  - unfold get; simpl. rewrite wrap64_small by lia.
    pose proof (touch_refines l s k id _ HR (N.lt_succ_diag_r _)) as Ht.
    rewrite <- N.add_1_r in Ht.
    destruct (touch k _ id (data l)) as [[v cells]|].
    + destruct Ht as [-> HR']. simpl. split_and!; [done..|lia].
    + rewrite Ht. split_and!; [done..|lia].
  - unfold get_mut; simpl. rewrite wrap64_small by lia.
    pose proof (touch_refines l s k w _ HR (N.lt_succ_diag_r _)) as Ht.
    rewrite <- N.add_1_r in Ht.
    destruct (touch k _ w (data l)) as [[v cells]|].
    + destruct Ht as [-> HR']. simpl. split_and!; [done..|lia].
    + rewrite Ht. split_and!; [done|by apply represents_bump|done|simpl; lia].
  - unfold insert, get_mut; simpl. rewrite wrap64_small by lia.
    pose proof (touch_refines l s k (λ _, v) _ HR (N.lt_succ_diag_r _)) as Ht.
    rewrite <- N.add_1_r in Ht.
    pose proof (touch_spec k (generation l + 1) (λ _, v) (data l)) as Hk.
    destruct (touch k _ (λ _, v) (data l)) as [[v0 cells]|].
    + destruct Ht as [-> HR']. simpl. split_and!; [done..|lia].
    + pose proof (put_refines _ s k v (represents_bump _ _ HR) Hk) as Hput.
      simpl in Hput. destruct (put (k, v) _) as [r l'].
      destruct Hput as (-> & HR' & Hc & Hg); [lia|].
      destruct r as [[k0 v0]|]; simpl in *; split_and!; try done; lia.
  - pose proof (remove_refines l s k HR) as Hr. destruct (remove k l) as [r l'] eqn:Er.
    destruct Hr as (-> & HR' & Hg). split_and!; [done..| |lia].
    pose proof (remove_spec k l) as Hs. rewrite Er in Hs.
    by destruct (lookup_spec k s); destruct Hs as [? Hs]; destruct_and?; subst.
Qed.

Lemma run_refines os l s :
  represents l s → (generation l + 2 * N.of_nat (length os) < u64_size)%N →
  (impl_run os l).1 = (spec_run (cap l) os s).1 ∧
  represents (impl_run os l).2 (spec_run (cap l) os s).2.
Proof.
  revert l s. induction os as [|o os IH]; intros l s HR Hlt; [done|].
  simpl in *. pose proof (step_refines l s o HR ltac:(lia)) as Hstep.
  destruct (impl_step o l) as [r l1]. destruct Hstep as (-> & HR1 & Hc1 & Hg1).
  destruct (spec_step (cap l) o s) as [r1 s1]. simpl in *.
  destruct (IH l1 s1 HR1 ltac:(lia)) as [IH1 IH2]. rewrite Hc1 in IH1, IH2.
  destruct (impl_run os l1), (spec_run (cap l) os s1). simpl in *. by subst.
Qed.

Lemma represents_new {E} n l : new (E:=E) n = Ok l → represents l [] ∧ generation l = 0%N.
Proof.
  unfold new. case_decide; [done|]. intros [= <-]. split; [|done].
  exists []. split_and!; try done; [constructor..|simpl; lia].
Qed.
End recency.
Arguments op K V : clear implicits.
Arguments reply K V : clear implicits.

(** C23: the LRU map refines the queue ordered by recency.  Any sequence of
  [get], [get_mut], [insert] and [remove] calls on a new cache returns, call
  by call, what the abstract queue of the same capacity returns: in
  particular the entry evicted by a full cache is always the one that was
  read or written the longest ago.  The bound is the one of the [u64]
  generation counter, at most two of which are taken per call. *)
Theorem lru_map_refines_recency_queue {K V} `{Countable K} {E}
  (n : nat) (l : LruMap K V) (os : list (op K V)) :
new (E:=E) n = Ok l →
(2 * N.of_nat (length os) < u64_size)%N →
(impl_run os l).1 = (spec_run n os []).1.
Proof.
intros Hn Hlt. destruct (represents_new n l Hn) as [HR Hg].
destruct (run_refines os l [] HR ltac:(lia)) as [Heq _]. rewrite Heq.
unfold new in Hn. case_decide; [done|]. by injection Hn as <-.
Qed.

Definition demo_ops : list (op N N) :=
[OpInsert 1 10; OpInsert 2 20; OpGet 1; OpInsert 3 30; OpGet 2; OpRemove 1;
 OpInsert 3 31; OpGetMut 3 (λ v, v + 1); OpGet 3]%N.

Lemma lru_map_refines_recency_queue_witness :
(impl_run demo_ops (mkLru [] 0%N 2)).1 = (spec_run 2 demo_ops []).1 ∧
(spec_run 2 demo_ops []).1 =
  [Inserted InsertedNew; Inserted InsertedNew; Found (Some 10);
   Inserted (Evicted 2 20); Found None; Found (Some 10);
   Inserted (Replaced 30); Found (Some 31); Found (Some 32)]%N.
Proof.
split; [|vm_compute; reflexivity].
apply (lru_map_refines_recency_queue (E:=unit) 2); [reflexivity|vm_compute; reflexivity].
Defined.
End Recency.
