(* ===== verification/IndexMap.v ===== *)
(** * The in-memory index map (index-scheduler/src/index_mapper/index_map.rs)

    Open indexes are in a cache that evicts the least recently used one;
    indexes being closed or deleted are in a map of their own.  What the
    environment does (opening an LMDB environment, waiting for its closing
    event) is an argument of the model; the cache is any [Cache]. *)
From S2P Require Import Prelude Lru.

(** What [EnvOpenOptions] carries when an index is opened. *)
Record EnvOpenOptions := mkOptions {
  opt_map_size : N;
  opt_max_readers : N;
  opt_write_map : bool
}.

(** The parts of heed, of the page size and of [milli::Index] that the index
    map calls. *)
Class IndexHost := {
  Index : Type;
  EnvClosingEvent : Type;
  HostError : Type;
  index_new : EnvOpenOptions → string → option (Z * Z) → outcome HostError Index;
  index_map_size : Index → outcome HostError N;
  prepare_for_closing : Index → EnvClosingEvent;
  page_size : N
}.

Definition Uuid : Type := N.

(** 10 GiB. *)
Definition DEFAULT_MAP_SIZE : N := (10 * 1024 * 1024 * 1024)%N.

(** utils.rs *)
Definition clamp_to_page_size `{IndexHost} (size : N) : N :=
  (size `div` page_size * page_size)%N.

Section types.
Context `{IndexHost}.

Record ClosingIndex := mkClosing {
  ci_uuid : Uuid;
  ci_closing_event : EnvClosingEvent;
  ci_enable_mdb_writemap : bool;
  ci_map_size : N;
  ci_generation : N
}.

Record ReopenableIndex := mkReopenable {
  ri_uuid : Uuid;
  ri_enable_mdb_writemap : bool;
  ri_map_size : N;
  ri_generation : N
}.

(** Whether an index is available (index_mapper/mod.rs). *)
Inductive IndexStatus :=
| Missing
| BeingDeleted
| Closing (c : ClosingIndex)
| Available (i : Index).
End types.

Record IndexMap `{IndexHost} (C : Type) := mkMap {
  available : C;
  unavailable : gmap Uuid (option ClosingIndex);
  im_generation : N
}.
Arguments mkMap {_ C}.
Arguments available {_ C}.
Arguments unavailable {_ C}.
Arguments im_generation {_ C}.

Section index_map.
Context `{IndexHost} {C : Type} `{!CacheOps Uuid Index C}.
Abbreviation map := (IndexMap C).

Definition set_available (c : C) (m : map) : map :=
  mkMap c (unavailable m) (im_generation m).
Definition set_unavailable (u : gmap Uuid (option ClosingIndex)) (m : map) : map :=
  mkMap (available m) u (im_generation m).

(** [woke] is the answer of the event: it was signalled before the timeout. *)
Definition wait_timeout (woke : bool) (c : ClosingIndex) : option ReopenableIndex :=
  if woke then
    Some (mkReopenable (ci_uuid c) (ci_enable_mdb_writemap c) (ci_map_size c)
            (ci_generation c))
  else None.

Definition new (capacity : nat) : outcome HostError map :=
  c ← cache_new capacity; Ok (mkMap c ∅ 0%N).

Definition get_unavailable (uuid : Uuid) (m : map) : IndexStatus :=
  match unavailable m !! uuid with
  | Some (Some reopen) => Closing reopen
  | Some None => BeingDeleted
  | None => Missing
  end.

Definition get (uuid : Uuid) (m : map) : IndexStatus * map :=
  let '(found, c) := cache_get uuid (available m) in
  let m' := set_available c m in
  match found with
  | Some index => (Available index, m')
  | None => (get_unavailable uuid m', m')
  end.

Definition next_generation (m : map) : N * map :=
  let g := wrap64 (im_generation m + 1) in
  (g, mkMap (available m) (unavailable m) g).

Definition close (uuid : Uuid) (index : Index) (enable_mdb_writemap : bool)
    (map_size_growth : N) (m : map) : map :=
  let map_size := wrap64 (match index_map_size index with
                          | Ok n => n | _ => DEFAULT_MAP_SIZE end + map_size_growth) in
  let closing_event := prepare_for_closing index in
  let '(g, m1) := next_generation m in
  set_unavailable
    (<[uuid := Some (mkClosing uuid closing_event enable_mdb_writemap map_size g)]>
       (unavailable m1)) m1.

Definition create_or_open_index (path : string) (date : option (Z * Z))
    (enable_mdb_writemap : bool) (map_size : N) : outcome HostError Index :=
  let options := mkOptions (clamp_to_page_size map_size) 1024 enable_mdb_writemap in
  index_new options path date.

Definition create (uuid : Uuid) (path : string) (date : option (Z * Z))
    (enable_mdb_writemap : bool) (map_size : N) : ST map HostError Index := λ m,
  match get_unavailable uuid m with
  | Missing =>
      match create_or_open_index path date enable_mdb_writemap map_size with
      | Ok index =>
          let '(o, c) := cache_insert uuid index (available m) in
          let m1 := set_available c m in
          match o with
          | InsertedNew => (Ok index, m1)
          | Evicted evicted_uuid evicted_index =>
              (Ok index, close evicted_uuid evicted_index enable_mdb_writemap 0 m1)
          | Replaced _ =>
              (Panic "Attempt to open an index that was already opened", m1)
          end
      | Err e => (Err e, m)
      | Panic p => (Panic p, m)
      end
  | _ => (Panic "Attempt to open an index that was unavailable", m)
  end.

Definition close_for_resize (uuid : Uuid) (enable_mdb_writemap : bool)
    (map_size_growth : N) (m : map) : map :=
  match cache_remove uuid (available m) with
  | (None, c) => set_available c m
  | (Some index, c) =>
      close uuid index enable_mdb_writemap map_size_growth (set_available c m)
  end.

(** [inl] is [Ok], [inr] is [Err]. *)
Definition start_deletion (uuid : Uuid) (m : map)
    : (option EnvClosingEvent + option ClosingIndex) * map :=
  match cache_remove uuid (available m) with
  | (Some index, c) =>
      let m1 := set_available c m in
      (inl (Some (prepare_for_closing index)),
       set_unavailable (<[uuid := None]> (unavailable m1)) m1)
  | (None, c) =>
      let m1 := set_available c m in
      let m2 := set_unavailable (delete uuid (unavailable m1)) m1 in
      match unavailable m1 !! uuid with
      | Some (Some reopen) => (inr (Some reopen), m2)
      | Some None => (inr None, m2)
      | None => (inl None, m2)
      end
  end.

Definition end_deletion (uuid : Uuid) : ST map HostError unit := λ m,
  let '(found, c) := cache_get uuid (available m) in
  let m1 := set_available c m in
  match found with
  | Some _ =>
      (Panic "Attempt to finish deletion of an index that was not being deleted", m1)
  | None =>
      let m2 := set_unavailable (delete uuid (unavailable m1)) m1 in
      match unavailable m1 !! uuid with
      | Some (Some _) =>
          (Panic "Attempt to finish deletion of an index that was being closed", m2)
      | _ => (Ok tt, m2)
      end
  end.

(** [ReopenableIndex::reopen]. *)
Definition reopen (self : ReopenableIndex) (path : string) : ST map HostError unit := λ m,
  let '(status, m1) := get (ri_uuid self) m in
  match status with
  | Closing reopen =>
      if negb (ci_generation reopen =? ri_generation self)%N then (Ok tt, m1)
      else
        let m2 := set_unavailable (delete (ri_uuid self) (unavailable m1)) m1 in
        match create (ri_uuid self) path None (ri_enable_mdb_writemap self)
                (ri_map_size self) m2 with
        | (Ok _, m3) => (Ok tt, m3)
        | (Err e, m3) => (Err e, m3)
        | (Panic p, m3) => (Panic p, m3)
        end
  | _ => (Ok tt, m1)
  end.

(** [ReopenableIndex::close]. *)
Definition close_reopenable (self : ReopenableIndex) (m : map) : map :=
  let '(status, m1) := get (ri_uuid self) m in
  match status with
  | Closing reopen =>
      if negb (ci_generation reopen =? ri_generation self)%N then m1
      else set_unavailable (delete (ri_uuid self) (unavailable m1)) m1
  | _ => m1
  end.
End index_map.

(** ** Invariant *)
Section index_map_facts.
Context `{IndexHost} {C : Type} `{!CacheOps Uuid Index C, !Cache Uuid Index C}.
Context (capacity : nat).
Abbreviation map := (IndexMap C).
Implicit Types (m : map) (u : Uuid).

(** The status of an index, without the side effect of [get] on the order of
    eviction. *)
Definition status u m : IndexStatus :=
  match cache_map (available m) !! u with
  | Some index => Available index
  | None => get_unavailable u m
  end.

(** An index is in one of the two maps only, and a closing index is filed
    under its own uuid. *)
Record map_ok m : Prop := {
  map_ok_cache : cache_ok (available m);
  map_ok_capacity : cache_capacity (available m) = capacity;
  map_ok_disjoint u i : cache_map (available m) !! u = Some i → unavailable m !! u = None;
  map_ok_closing u c : unavailable m !! u = Some (Some c) → ci_uuid c = u
}.

(** Two maps that differ by the order of eviction only. *)
Definition same_content m1 m2 : Prop :=
  cache_map (available m1) = cache_map (available m2) ∧
  unavailable m1 = unavailable m2 ∧ im_generation m1 = im_generation m2.

#[export] Instance same_content_equiv : Equivalence same_content.
Proof.
  split.
  - by intros m.
  - by intros m1 m2 (? & ? & ?).
  - intros m1 m2 m3 (? & ? & ?) (? & ? & ?). repeat split; congruence.
Qed.

#[export] Instance status_proper : Proper (eq ==> same_content ==> eq) status.
Proof.
  intros u ? <- m1 m2 (Hc & Hu & _). unfold status, get_unavailable.
  by rewrite Hc, Hu.
Qed.

Lemma map_ok_same m1 m2 :
  same_content m1 m2 → cache_ok (available m2) →
  cache_capacity (available m2) = capacity → map_ok m1 → map_ok m2.
Proof.
  intros (Hc & Hu & _) ?? [_ _ Hd Hci]. rewrite Hc, Hu in *. by split.
Qed.

Lemma index_map_get_spec u m : map_ok m →
  (get u m).1 = status u m ∧ same_content (get u m).2 m ∧ map_ok (get u m).2.
Proof.
  intros Hok. unfold get, status.
  destruct (cache_get_spec u (available m) (map_ok_cache _ Hok)) as (Hr & Hm & Hc & Hcap).
  destruct (cache_get u (available m)) as [found c]. simpl in *. subst found.
  assert (same_content (set_available c m) m) as Hsame by done.
  assert (map_ok (set_available c m)) as Hok'.
  { eapply map_ok_same; [by symmetry|done| |done]. simpl. rewrite Hcap. apply Hok. }
  by destruct (cache_map (available m) !! u).
Qed.

(** [close] files an index that is in neither map. *)
Lemma map_ok_close u i w growth m :
  map_ok m → cache_map (available m) !! u = None → map_ok (close u i w growth m).
Proof.
  intros [? ? Hd Hci] Hu. split; simpl; [done|done| |].
  - intros u' i' Hi. destruct (decide (u = u')) as [->|Hne]; [congruence|].
    rewrite lookup_insert_ne by done. by eapply Hd.
  - intros u' c. destruct (decide (u = u')) as [->|Hne].
    + rewrite lookup_insert_eq. by intros [= <-].
    + rewrite lookup_insert_ne by done. apply Hci.
Qed.

Lemma map_ok_forget u m :
  map_ok m → map_ok (set_unavailable (delete u (unavailable m)) m).
Proof.
  intros [? ? Hd Hci]. split; simpl; [done|done| |].
  - intros u' i' Hi. rewrite lookup_delete_None. right. by eapply Hd.
  - intros u' c [_ Hc]%lookup_delete_Some. by apply Hci.
Qed.

(** Taking an index out of the cache. *)
Lemma map_ok_remove u m : map_ok m →
  (cache_remove u (available m)).1 = cache_map (available m) !! u ∧
  cache_map (cache_remove u (available m)).2 = delete u (cache_map (available m)) ∧
  map_ok (set_available (cache_remove u (available m)).2 m).
Proof.
  intros [Hc Hcap Hd Hci].
  destruct (cache_remove_spec u (available m) Hc) as (Hr & Hm & Hok & Hcap').
  split_and!; [done..|]. split; simpl; [done|congruence| |done].
  intros u' i. rewrite Hm, lookup_delete_Some. intros [_ Hi]. by eapply Hd.
Qed.

(** What [create] does when it does not panic. *)
Lemma create_spec u path date w size m : map_ok m →
  match create u path date w size m with
  | (Ok index, m') =>
      map_ok m' ∧ get_unavailable u m = Missing ∧
      cache_map (available m) !! u = None ∧
      create_or_open_index path date w size = Ok index ∧
      (* nothing is evicted *)
      (cache_map (available m') = <[u := index]> (cache_map (available m)) ∧
       unavailable m' = unavailable m ∧ im_generation m' = im_generation m ∨
      (* the entry of [u0] is evicted and closed *)
       ∃ u0 i0, u0 ≠ u ∧ cache_map (available m) !! u0 = Some i0 ∧
       cache_map (available m') = <[u := index]> (delete u0 (cache_map (available m))) ∧
       (∃ c, unavailable m' = <[u0 := Some c]> (unavailable m) ∧
             ci_generation c = im_generation m') ∧
       im_generation m' = wrap64 (im_generation m + 1))
  | (Err e, m') => m' = m ∧ create_or_open_index path date w size = Err e
  | (Panic _, _) =>
      status u m ≠ Missing ∨ is_panic (create_or_open_index path date w size) = true
  end.
Proof.
  intros Hok. unfold create.
  destruct (get_unavailable u m) eqn:Hgu; try (left; unfold status; rewrite Hgu;
    by destruct (cache_map (available m) !! u)).
  destruct (create_or_open_index path date w size) as [index|e|p]; [|done|by right].
  pose proof (cache_insert_spec u index _ (map_ok_cache _ Hok)) as Hins.
  destruct (cache_insert u index (available m)) as [o c]. destruct Hins as (Hc & Hcap & Hins). rewrite (map_ok_capacity _ Hok) in Hcap.
  assert (unavailable m !! u = None) as Hun.
  { unfold get_unavailable in Hgu. by destruct (unavailable m !! u) as [[]|]. }
  destruct o as [|u0 i0|i0]; [| |left; unfold status; by destruct Hins as [-> _]].
  - destruct Hins as [Hnone Hm]. split_and!; try done; [|by left].
    destruct Hok as [_ _ Hd Hci]. split; simpl; [done|done| |done].
    intros u' i'. rewrite Hm. intros [[<- _]|[_ Hi]]%lookup_insert_Some; [done|].
    by eapply Hd.
  - destruct Hins as (Hnone & Hu0 & Hm).
    assert (u0 ≠ u) as Hne by congruence.
    assert (map_ok (set_available c m)) as Hok'.
    { destruct Hok as [_ _ Hd Hci]. split; simpl; [done|done| |done].
      intros u' i'. rewrite Hm.
      intros [[<- _]|[_ [_ Hi]%lookup_delete_Some]]%lookup_insert_Some; [done|].
      by eapply Hd. }
    split_and!; try done.
    + apply map_ok_close; [done|]. simpl. rewrite Hm, lookup_insert_ne by done.
      apply lookup_delete_eq.
    + right. exists u0, i0. split_and!; try done. by eexists.
Qed.

(** ** The map as a transition system *)
Inductive op : Type :=
| OpGet u
| OpCreate u (path : string) (date : option (Z * Z)) (w : bool) (size : N)
| OpCloseForResize u (w : bool) (growth : N)
| OpStartDeletion u
| OpEndDeletion u
| OpReopen (r : ReopenableIndex) (path : string)
| OpClose (r : ReopenableIndex).

Definition op_uuid (o : op) : Uuid :=
  match o with
  | OpGet u | OpCreate u _ _ _ _ | OpCloseForResize u _ _
  | OpStartDeletion u | OpEndDeletion u => u
  | OpReopen r _ | OpClose r => ri_uuid r
  end.

(** The state after an operation, and how it ended. *)
Definition apply_op (o : op) m : outcome HostError unit * map :=
  match o with
  | OpGet u => (Ok tt, (get u m).2)
  | OpCreate u path date w size =>
      let '(r, m') := create u path date w size m in ((λ _, tt) <$> r, m')
  | OpCloseForResize u w growth => (Ok tt, close_for_resize u w growth m)
  | OpStartDeletion u => (Ok tt, (start_deletion u m).2)
  | OpEndDeletion u => end_deletion u m
  | OpReopen r path => reopen r path m
  | OpClose r => (Ok tt, close_reopenable r m)
  end.

(** The states that calls reach without a panic (a panic poisons the lock). *)
Inductive reachable : map → Prop :=
| reach_new m : new capacity = Ok m → reachable m
| reach_step m o m' :
    reachable m → apply_op o m = (Ok tt, m') → reachable m'
| reach_err m o m' e :
    reachable m → apply_op o m = (Err e, m') → reachable m'.

Lemma start_deletion_ok u m : map_ok m → map_ok (start_deletion u m).2.
Proof.
  intros Hok. unfold start_deletion.
  destruct (map_ok_remove u m Hok) as (Hr & Hm & Hok').
  destruct (cache_remove u (available m)) as [[i|] c]; simpl in *.
  - destruct Hok' as [? ? Hd Hci]. simpl in *. split; simpl; [done|done| |].
    + intros u' i' Hi. rewrite lookup_insert_ne; [by eapply Hd|].
      intros <-. by rewrite Hm, lookup_delete_eq in Hi.
    + intros u' c' [[_ [=]]|[_ Hc']]%lookup_insert_Some. by apply Hci.
  - pose proof (map_ok_forget u _ Hok') as Hf.
    by destruct (unavailable m !! u) as [[]|].
Qed.

Lemma end_deletion_ok u m m' r : map_ok m → end_deletion u m = (r, m') → map_ok m'.
Proof.
  intros Hok. unfold end_deletion.
  destruct (index_map_get_spec u m Hok) as (_ & _ & Hok').
  unfold get in Hok'. destruct (cache_get u (available m)) as [[i|] c]; simpl in *.
  - by intros [= _ <-].
  - pose proof (map_ok_forget u _ Hok') as Hf. simpl in Hf.
    destruct (unavailable m !! u) as [[]|]; by intros [= _ <-].
Qed.

Lemma create_ok u path date w size m r m' :
  map_ok m → create u path date w size m = (r, m') → is_panic r = false → map_ok m'.
Proof.
  intros Hok Hc Hp. pose proof (create_spec u path date w size m Hok) as Hs.
  rewrite Hc in Hs. destruct r; [by destruct Hs|by destruct Hs as [-> _]|done].
Qed.

Lemma apply_op_ok o m r m' :
  map_ok m → apply_op o m = (r, m') → is_panic r = false → map_ok m'.
Proof.
  intros Hok. destruct o as [u|u path date w size|u w growth|u|u|r0 path|r0]; simpl.
  - intros [= _ <-] _. by apply index_map_get_spec.
  - destruct (create u path date w size m) as [r' m''] eqn:Hc.
    intros [= <- <-] Hp. eapply create_ok; [done..|]. by destruct r'.
  - intros [= _ <-] _. unfold close_for_resize.
    destruct (map_ok_remove u m Hok) as (Hr & Hm & Hok').
    destruct (cache_remove u (available m)) as [[i|] c]; simpl in *; [|done].
    apply map_ok_close; [done|]. simpl. rewrite Hm. apply lookup_delete_eq.
  - intros [= _ <-] _. by apply start_deletion_ok.
  - intros He _. by eapply end_deletion_ok.
  - unfold reopen. destruct (index_map_get_spec (ri_uuid r0) m Hok) as (Hst & _ & Hok').
    destruct (get (ri_uuid r0) m) as [st m1]. simpl in *.
    destruct st as [| |c|i]; try by intros [= _ <-].
    destruct (negb _); [by intros [= _ <-]|].
    pose proof (map_ok_forget (ri_uuid r0) _ Hok') as Hf.
    destruct (create _ _ _ _ _ _) as [r' m3] eqn:Hc.
    intros Heq Hp. eapply create_ok; [exact Hf| |]; [rewrite Hc|].
    + by destruct r'; injection Heq as _ <-.
    + destruct r'; by injection Heq as <- _.
  - intros [= _ <-] _. unfold close_reopenable.
    destruct (index_map_get_spec (ri_uuid r0) m Hok) as (_ & _ & Hok').
    destruct (get (ri_uuid r0) m) as [st m1]. simpl in *.
    destruct st as [| |c|i]; try done.
    destruct (negb _); [done|]. by apply map_ok_forget.
Qed.

(** C29: in every state that calls reach from [IndexMap::new], whatever their
    order and whatever the environment answers, an index is never both
    available and unavailable, a closing index is filed under its own uuid,
    and at most [capacity] indexes are open. *)
Theorem index_map_invariant m : reachable m →
  (∀ u i, cache_map (available m) !! u = Some i → unavailable m !! u = None) ∧
  (∀ u c, unavailable m !! u = Some (Some c) → ci_uuid c = u) ∧
  size (cache_map (available m)) ≤ capacity.
Proof.
  intros Hr. assert (map_ok m) as Hok.
  { induction Hr as [m Hn|m o m' _ IH Ho|m o m' e _ IH Ho];
      [|by eapply apply_op_ok|by eapply apply_op_ok].
    unfold new in Hn. inv_ok.
    match goal with Hc : cache_new _ = Ok _ |- _ =>
      destruct (cache_new_spec _ _ Hc) as (? & Hm & ?) end.
    split; simpl; [done|done| |]; intros u i; [by rewrite Hm|done]. }
  destruct Hok as [Hc Hcap Hd Hci]. split_and!; [done..|].
  rewrite <- Hcap. by apply cache_size.
Qed.

(** Reading the status of an index that is not in the cache. *)
Lemma status_not_available u m :
  cache_map (available m) !! u = None → status u m = get_unavailable u m.
Proof. unfold status. by intros ->. Qed.

Lemma status_cases u m : map_ok m →
  match status u m with
  | Available i => cache_map (available m) !! u = Some i ∧ unavailable m !! u = None
  | Closing c => cache_map (available m) !! u = None ∧ unavailable m !! u = Some (Some c)
  | BeingDeleted => cache_map (available m) !! u = None ∧ unavailable m !! u = Some None
  | Missing => cache_map (available m) !! u = None ∧ unavailable m !! u = None
  end.
Proof.
  intros Hok. unfold status, get_unavailable.
  destruct (cache_map (available m) !! u) eqn:Hc.
  - split; [done|]. by eapply map_ok_disjoint.
  - by destruct (unavailable m !! u) as [[]|].
Qed.

Lemma start_deletion_outcome u m : map_ok m →
  let '(r, m') := start_deletion u m in
  map_ok m' ∧
  match status u m with
  | Available i => r = inl (Some (prepare_for_closing i)) ∧ status u m' = BeingDeleted
  | Closing c => r = inr (Some c) ∧ status u m' = Missing
  | BeingDeleted => r = inr None ∧ status u m' = Missing
  | Missing => r = inl None ∧ status u m' = Missing
  end ∧
  (∀ u', u' ≠ u → status u' m' = status u' m).
Proof.
  intros Hok. pose proof (start_deletion_ok u m Hok) as Hok'.
  pose proof (status_cases u m Hok) as Hst. unfold start_deletion in *.
  destruct (map_ok_remove u m Hok) as (Hr & Hm & _).
  destruct (cache_remove u (available m)) as [found c]. simpl in Hr, Hm. subst found.
  assert (∀ un u', u' ≠ u → un !! u' = unavailable m !! u' →
    status u' (mkMap c un (im_generation m)) = status u' m) as Hframe.
  { intros un u' Hne Hun. unfold status, get_unavailable. simpl.
    by rewrite Hm, lookup_delete_ne, Hun by done. }
  assert (∀ un, status u (mkMap c un (im_generation m)) =
                get_unavailable u (mkMap c un (im_generation m))) as Hself.
  { intros un. apply status_not_available. simpl. by rewrite Hm, lookup_delete_eq. }
  destruct (status u m) as [| |ci|i]; destruct Hst as [Hc Hu]; rewrite Hc in *;
    simpl in *; [rewrite Hu in *; simpl in *..|];
    (split; [done|]; split;
     [split; [done|]; unfold set_available, set_unavailable; simpl; rewrite Hself;
      unfold get_unavailable; simpl; rewrite ?lookup_delete_eq, ?lookup_insert_eq; done
     |intros u' Hne; unfold set_available, set_unavailable; simpl; apply Hframe; [done|];
      rewrite ?lookup_delete_ne, ?lookup_insert_ne; done]).
Qed.

(** The status table of [start_deletion], as the code has it.  Only an
    available index becomes [BeingDeleted]; in the three other cases the
    uuid is removed from the map of the unavailable indexes, and the status
    after the call is [Missing], where the documented table says
    [BeingDeleted], [BeingDeleted] and [Closing]. *)
Theorem start_deletion_status u m : map_ok m →
  let '(r, m') := start_deletion u m in
  map_ok m' ∧
  match status u m with
  | Available i => r = inl (Some (prepare_for_closing i)) ∧ status u m' = BeingDeleted
  | Closing c => r = inr (Some c) ∧ status u m' = Missing
  | BeingDeleted => r = inr None ∧ status u m' = Missing
  | Missing => r = inl None ∧ status u m' = Missing
  end ∧
  (∀ u', u' ≠ u → status u' m' = status u' m).
Proof. exact (start_deletion_outcome u m). Qed.

Lemma status_after_insert u i c un g m :
  cache_map c = <[u := i]> (cache_map (available m)) →
  status u (mkMap c un g) = Available i.
Proof. intros Hm. unfold status. simpl. by rewrite Hm, lookup_insert_eq. Qed.

Lemma create_status u path date w size m : map_ok m →
  match create u path date w size m with
  | (Ok i, m') => status u m = Missing ∧ status u m' = Available i
  | (Err _, m') => m' = m
  | (Panic _, _) =>
      status u m ≠ Missing ∨ is_panic (create_or_open_index path date w size) = true
  end.
Proof.
  intros Hok. pose proof (create_spec u path date w size m Hok) as Hc.
  destruct (create u path date w size m) as [[i|e|p] m'];
    [|by destruct Hc as [? _]|done].
  destruct Hc as (_ & Hgu & Hnone & _ & Hcase). split.
  - rewrite <- Hgu. by apply status_not_available.
  - unfold status. destruct Hcase as [(Hm & _)|(u0 & i0 & _ & _ & Hm & _)];
      by rewrite Hm, lookup_insert_eq.
Qed.

Lemma close_for_resize_status u w growth m : map_ok m →
  let m' := close_for_resize u w growth m in
  match status u m with
  | Available i => ∃ c, status u m' = Closing c ∧ ci_generation c = im_generation m' ∧
      ci_closing_event c = prepare_for_closing i
  | st => status u m' = st
  end.
Proof.
  intros Hok. pose proof (status_cases u m Hok) as Hst.
  destruct (map_ok_remove u m Hok) as (Hr & Hm & _).
  unfold close_for_resize.
  destruct (cache_remove u (available m)) as [found c]. simpl in Hr, Hm. subst found.
  assert (status u m = status u (set_available c m) ∨
          is_Some (cache_map (available m) !! u)) as Hsame.
  { unfold status, get_unavailable. simpl. rewrite Hm, lookup_delete_eq.
    destruct (cache_map (available m) !! u); eauto. }
  destruct (status u m) as [| |ci|i]; destruct Hst as [Hc Hu]; rewrite Hc in *;
    simpl in *; try (destruct Hsame as [Hsame|[? [=]]]; by rewrite <- Hsame).
  eexists. rewrite status_not_available by (simpl; by rewrite Hm, lookup_delete_eq).
  unfold get_unavailable. simpl. rewrite lookup_insert_eq.
  split; [reflexivity|]. done.
Qed.

Lemma close_reopenable_status r m : map_ok m →
  let u := ri_uuid r in
  status u (close_reopenable r m) =
  match status u m with
  | Closing c => if decide (ci_generation c = ri_generation r) then Missing else Closing c
  | st => st
  end.
Proof.
  intros Hok. simpl. unfold close_reopenable.
  destruct (index_map_get_spec (ri_uuid r) m Hok) as (Hst & Hsame & Hok').
  destruct (get (ri_uuid r) m) as [st m1]. simpl in *. subst st.
  assert (status (ri_uuid r) m1 = status (ri_uuid r) m) as Hs1 by (by rewrite Hsame).
  pose proof (status_cases (ri_uuid r) m1 Hok') as Hc. rewrite Hs1 in Hc.
  destruct (status (ri_uuid r) m) as [| |c|i] eqn:Hst; try by rewrite Hsame.
  case_decide as Hg.
  - apply N.eqb_eq in Hg. rewrite Hg. simpl. destruct Hc as [Hc _].
    rewrite status_not_available by done. unfold get_unavailable. simpl.
    by rewrite lookup_delete_eq.
  - apply N.eqb_neq in Hg. rewrite Hg. simpl. by rewrite Hsame.
Qed.

Lemma reopen_status r path m : map_ok m →
  let u := ri_uuid r in
  match reopen r path m with
  | (Ok _, m') =>
      match status u m with
      | Closing c =>
          if decide (ci_generation c = ri_generation r)
          then ∃ i, status u m' = Available i else status u m' = Closing c
      | st => status u m' = st
      end
  | (Err _, m') => ∃ c, status u m = Closing c ∧ ci_generation c = ri_generation r ∧
      status u m' = Missing
  | (Panic _, _) => is_panic (create_or_open_index path None
      (ri_enable_mdb_writemap r) (ri_map_size r)) = true
  end.
Proof.
  intros Hok. simpl. unfold reopen.
  destruct (index_map_get_spec (ri_uuid r) m Hok) as (Hst & Hsame & Hok').
  destruct (get (ri_uuid r) m) as [st m1]. simpl in *. subst st.
  assert (status (ri_uuid r) m1 = status (ri_uuid r) m) as Hs1 by (by rewrite Hsame).
  pose proof (status_cases (ri_uuid r) m1 Hok') as Hc. rewrite Hs1 in Hc.
  destruct (status (ri_uuid r) m) as [| |c|i] eqn:Hst; try by rewrite Hsame.
  destruct Hc as [Hc _]. case_decide as Hg.
  - rewrite Hg, N.eqb_refl. simpl.
    set (m2 := set_unavailable (delete (ri_uuid r) (unavailable m1)) m1).
    assert (map_ok m2) as Hok2 by (by apply map_ok_forget).
    assert (status (ri_uuid r) m2 = Missing) as Hmiss.
    { rewrite status_not_available by done. unfold get_unavailable. simpl.
      by rewrite lookup_delete_eq. }
    pose proof (create_status (ri_uuid r) path None (ri_enable_mdb_writemap r)
      (ri_map_size r) m2 Hok2) as Hcr.
    destruct (create _ _ _ _ _ m2) as [[i|e|p] m3].
    + exists i. by destruct Hcr.
    + subst m3. by exists c.
    + by destruct Hcr.
  - apply N.eqb_neq in Hg. rewrite Hg. simpl. by rewrite Hsame.
Qed.

Lemma end_deletion_status u m : map_ok m →
  match status u m with
  | Missing | BeingDeleted =>
      (end_deletion u m).1 = Ok tt ∧ status u (end_deletion u m).2 = Missing
  | _ => is_panic (end_deletion u m).1 = true
  end.
Proof.
  intros Hok. pose proof (status_cases u m Hok) as Hst.
  destruct (cache_get_spec u (available m) (map_ok_cache _ Hok)) as (Hr & Hm & _).
  unfold end_deletion. destruct (cache_get u (available m)) as [found c].
  simpl in Hr, Hm. subst found.
  assert (status u (mkMap c (delete u (unavailable m)) (im_generation m)) =
    match cache_map (available m) !! u with Some i => Available i | None => Missing end)
    as Hafter.
  { unfold status, get_unavailable. simpl. by rewrite Hm, lookup_delete_eq. }
  destruct (status u m) as [| |ci|i]; destruct Hst as [Hc Hu]; rewrite Hc in *; simpl;
    [rewrite Hu; simpl..|]; done.
Qed.

(** The status tables of the other operations are the documented ones.
    [create] opens a missing index, and panics on any other status;
    [close_for_resize] closes an available index and leaves the others;
    [reopen] and [close] act on a closing index of their own generation
    only; [end_deletion] panics on an available or closing index. *)
Theorem index_map_status_tables u m : map_ok m →
  (∀ path date w size,
     match create u path date w size m with
     | (Ok i, m') => status u m = Missing ∧ status u m' = Available i
     | (Err _, m') => m' = m
     | (Panic _, _) =>
         status u m ≠ Missing ∨ is_panic (create_or_open_index path date w size) = true
     end) ∧
  (∀ w growth, let m' := close_for_resize u w growth m in
     match status u m with
     | Available i => ∃ c, status u m' = Closing c ∧ ci_generation c = im_generation m' ∧
         ci_closing_event c = prepare_for_closing i
     | st => status u m' = st
     end) ∧
  (∀ r path, ri_uuid r = u →
     match reopen r path m with
     | (Ok _, m') =>
         match status u m with
         | Closing c => if decide (ci_generation c = ri_generation r)
             then ∃ i, status u m' = Available i else status u m' = Closing c
         | st => status u m' = st
         end
     | (Err _, m') => ∃ c, status u m = Closing c ∧
         ci_generation c = ri_generation r ∧ status u m' = Missing
     | (Panic _, _) => is_panic (create_or_open_index path None
         (ri_enable_mdb_writemap r) (ri_map_size r)) = true
     end) ∧
  (∀ r, ri_uuid r = u → status u (close_reopenable r m) =
     match status u m with
     | Closing c => if decide (ci_generation c = ri_generation r) then Missing else Closing c
     | st => st
     end) ∧
  match status u m with
  | Missing | BeingDeleted =>
      (end_deletion u m).1 = Ok tt ∧ status u (end_deletion u m).2 = Missing
  | _ => is_panic (end_deletion u m).1 = true
  end.
Proof.
  intros Hok. split_and!.
  - intros. by apply create_status.
  - intros. by apply close_for_resize_status.
  - intros r path <-. by apply reopen_status.
  - intros r <-. by apply close_reopenable_status.
  - by apply end_deletion_status.
Qed.

(** ** Generations *)

(** One operation closes at most one index, under a generation that was not
    used before. *)
Definition evolves m m' : Prop :=
  (im_generation m ≤ im_generation m' ≤ im_generation m + 1)%N ∧
  ∀ u c, unavailable m' !! u = Some (Some c) →
    unavailable m !! u = Some (Some c) ∨ (im_generation m < ci_generation c)%N.

Lemma evolves_same m m' :
  unavailable m' = unavailable m → im_generation m' = im_generation m → evolves m m'.
Proof. intros Hu Hg. split; [lia|]. rewrite Hu. by left. Qed.

Lemma evolves_subseteq m m' u o :
  unavailable m' = delete u (unavailable m) ∨
    unavailable m' = <[u := o]> (unavailable m) ∧ o = None →
  im_generation m' = im_generation m → evolves m m'.
Proof.
  intros Hu Hg. split; [lia|]. intros u' c Hc. left.
  destruct Hu as [Hu|[Hu ->]]; rewrite Hu in Hc.
  - by apply lookup_delete_Some in Hc as [_ ?].
  - by apply lookup_insert_Some in Hc as [[_ [=]]|[_ ?]].
Qed.

Lemma evolves_close u m m' c :
  unavailable m' = <[u := Some c]> (unavailable m) →
  im_generation m' = (im_generation m + 1)%N → ci_generation c = im_generation m' →
  evolves m m'.
Proof.
  intros Hu Hg Hc. split; [lia|]. rewrite Hu.
  intros u' c' [[_ [= <-]]|[_ ?]]%lookup_insert_Some; [right; lia|by left].
Qed.

Lemma create_evolves u path date w size m r m' :
  map_ok m → (im_generation m + 1 < u64_size)%N →
  create u path date w size m = (r, m') → is_panic r = false → evolves m m'.
Proof.
  intros Hok Hlt Hc Hp. pose proof (create_spec u path date w size m Hok) as Hs.
  rewrite Hc in Hs. destruct r as [i|e|p]; [|destruct Hs as [-> _]; by apply evolves_same|done].
  destruct Hs as (_ & _ & _ & _ & [(_ & Hu & Hg)|(u0 & i0 & _ & _ & _ & (c & Hu & Hcg) & Hg)]).
  - by apply evolves_same.
  - rewrite wrap64_small in Hg by done. by eapply evolves_close.
Qed.

Lemma apply_op_evolves o m r m' :
  map_ok m → (im_generation m + 1 < u64_size)%N →
  apply_op o m = (r, m') → is_panic r = false → evolves m m'.
Proof.
  intros Hok Hlt. destruct o as [u|u path date w size|u w growth|u|u|r0 path|r0]; simpl.
  - intros [= _ <-] _. destruct (index_map_get_spec u m Hok) as (_ & (_ & ? & ?) & _).
    by apply evolves_same.
  - destruct (create u path date w size m) as [r' m''] eqn:Hc.
    intros [= <- <-] Hp. eapply create_evolves; [done..|]. by destruct r'.
  - intros [= _ <-] _. unfold close_for_resize, close.
    destruct (cache_remove u (available m)) as [[i|] c]; [|by apply evolves_same].
    eapply evolves_close; [reflexivity|simpl; by rewrite wrap64_small|reflexivity].
  - intros [= _ <-] _. unfold start_deletion.
    destruct (cache_remove u (available m)) as [[i|] c]; simpl.
    + eapply evolves_subseteq; [by right|done].
    + destruct (unavailable m !! u) as [[]|];
        (eapply (evolves_subseteq _ _ u None); [by left|done]).
  - unfold end_deletion. destruct (cache_get u (available m)) as [[i|] c]; simpl.
    + by intros [= <- <-].
    + destruct (unavailable m !! u) as [[]|]; intros [= <- <-] Hp; try done;
        (eapply (evolves_subseteq _ _ u None); [by left|done]).
  - unfold reopen. destruct (index_map_get_spec (ri_uuid r0) m Hok) as (_ & Hsame & Hok').
    destruct (get (ri_uuid r0) m) as [st m1]. simpl in *.
    destruct Hsame as (_ & Hu & Hg).
    destruct st as [| |c|i]; try by intros [= _ <-] _; apply evolves_same.
    destruct (negb _); [by intros [= _ <-] _; apply evolves_same|].
    pose proof (map_ok_forget (ri_uuid r0) _ Hok') as Hf.
    destruct (create _ _ _ _ _ _) as [r' m3] eqn:Hc.
    intros Heq Hp.
    assert (m' = m3 ∧ is_panic r' = false) as [-> Hp'] by (by destruct r'; injection Heq as <- <-).
    destruct (create_evolves _ _ _ _ _ _ _ _ Hf ltac:(simpl; by rewrite Hg) Hc Hp')
      as [Hg' Hu']. simpl in Hg', Hu'. split; [by rewrite Hg in Hg'|].
    intros u' c' Hc'. destruct (Hu' _ _ Hc') as [[_ H1]%lookup_delete_Some|?];
      [left; by rewrite <- Hu|right; lia].
  - intros [= _ <-] _. unfold close_reopenable.
    destruct (index_map_get_spec (ri_uuid r0) m Hok) as (_ & Hsame & Hok').
    destruct (get (ri_uuid r0) m) as [st m1]. simpl in *.
    destruct Hsame as (_ & Hu & Hg).
    destruct st as [| |c|i]; try by apply evolves_same.
    destruct (negb _); [by apply evolves_same|].
    eapply (evolves_subseteq _ _ (ri_uuid r0) None); simpl; [rewrite Hu; by left|done].
Qed.

(** Operations run one after the other; [None] when one of them panics. *)
Fixpoint run_ops (os : list op) m : option map :=
  match os with
  | [] => Some m
  | o :: os' =>
      match apply_op o m with
      | (Panic _, _) => None
      | (_, m') => run_ops os' m'
      end
  end.

Definition stale u g m : Prop :=
  (g ≤ im_generation m)%N ∧
  ∀ c, unavailable m !! u = Some (Some c) → ci_generation c ≠ g.

Lemma stale_evolves u g m m' : evolves m m' → stale u g m → stale u g m'.
Proof.
  intros [Hg Hu] [Hle Hs]. split; [lia|]. intros c Hc.
  destruct (Hu _ _ Hc) as [?|?]; [by apply Hs|lia].
Qed.

Lemma run_ops_stale os u g m m' :
  map_ok m → (im_generation m + N.of_nat (length os) < u64_size)%N →
  run_ops os m = Some m' → stale u g m → stale u g m' ∧ map_ok m'.
Proof.
  revert m. induction os as [|o os IH]; intros m Hok Hlt; simpl in *;
    [by intros [= ->]|].
  destruct (apply_op o m) as [r m1] eqn:Ho. intros Hrun Hst.
  assert (is_panic r = false ∧ run_ops os m1 = Some m') as [Hp Hrun'] by (by destruct r).
  pose proof (apply_op_evolves o m r m1 Hok ltac:(lia) Ho Hp) as Hev.
  apply (IH m1); [by eapply apply_op_ok| |done|by eapply stale_evolves].
  destruct Hev as [? _]. lia.
Qed.

Lemma stale_noop r path m : map_ok m → stale (ri_uuid r) (ri_generation r) m →
  (reopen r path m).1 = Ok tt ∧ same_content (reopen r path m).2 m ∧
  same_content (close_reopenable r m) m.
Proof.
  intros Hok [_ Hs]. unfold reopen, close_reopenable.
  destruct (index_map_get_spec (ri_uuid r) m Hok) as (Hst & Hsame & Hok').
  pose proof (status_cases (ri_uuid r) m Hok) as Hc.
  destruct (get (ri_uuid r) m) as [st m1]. simpl in *. subst st.
  destruct (status (ri_uuid r) m) as [| |c|i]; try done.
  destruct Hc as [_ Hc]. apply Hs, N.eqb_neq in Hc. by rewrite Hc.
Qed.

(** Two readers wait for the same closing request.  Once the first one
    has reopened the index (or given it up with [close]), whatever operations
    follow (the index may be closed again), the second reader's own [reopen]
    or [close] changes nothing: it has the generation of an older closing
    request.  The bound is the one of the [usize] generation counter. *)
Theorem late_reopen_is_noop m u c r path path' os m1 m2 :
  map_ok m → status u m = Closing c → (ci_generation c ≤ im_generation m)%N →
  wait_timeout true c = Some r →
  ((reopen r path m).2 = m1 ∧ (reopen r path m).1 = Ok tt ∨ close_reopenable r m = m1) →
  (im_generation m + 1 + N.of_nat (length os) < u64_size)%N →
  run_ops os m1 = Some m2 →
  (reopen r path' m2).1 = Ok tt ∧ same_content (reopen r path' m2).2 m2 ∧
  same_content (close_reopenable r m2) m2.
Proof.
  intros Hok Hst Hle [= <-] Hfirst Hlt Hrun.
  pose proof (status_cases u m Hok) as Hc. rewrite Hst in Hc.
  assert (ci_uuid c = u) as Hu by (destruct Hc; by eapply map_ok_closing).
  set (r := mkReopenable (ci_uuid c) (ci_enable_mdb_writemap c) (ci_map_size c)
              (ci_generation c)) in *.
  assert (map_ok m1 ∧ evolves m m1) as [Hok1 Hev].
  { destruct Hfirst as [[<- Hr]| <-].
    - destruct (reopen r path m) as [o m'] eqn:Hre. simpl in *. subst o. split.
      + by eapply (apply_op_ok (OpReopen r path)).
      + by eapply (apply_op_evolves (OpReopen r path)); [|lia| |].
    - split.
      + by eapply (apply_op_ok (OpClose r)).
      + by eapply (apply_op_evolves (OpClose r)); [|lia| |]. }
  assert (stale u (ci_generation c) m1) as Hstale.
  { split; [destruct Hev; lia|]. intros c' Hc' Hg.
    assert (∀ i, cache_map (available m1) !! u ≠ Some i) as Hna.
    { intros i Hi. pose proof (map_ok_disjoint _ Hok1 _ _ Hi). congruence. }
    assert (status u m1 = Closing c') as Hst1.
    { unfold status, get_unavailable. rewrite Hc'.
      destruct (cache_map (available m1) !! u) eqn:Hi; [by destruct (Hna i)|done]. }
    destruct Hfirst as [[<- Hr]| <-].
    - pose proof (reopen_status r path m Hok) as Ht. simpl in Ht. rewrite Hu, Hst in Ht.
      destruct (reopen r path m) as [o m']. simpl in *. subst o.
      rewrite decide_True in Ht by done. destruct Ht as [i Ht]. congruence.
    - pose proof (close_reopenable_status r m Hok) as Ht. simpl in Ht. rewrite Hu, Hst in Ht.
      rewrite decide_True in Ht by done. congruence. }
  destruct (run_ops_stale os u (ci_generation c) m1 m2 Hok1) as [Hs2 Hok2]; try done.
  { destruct Hev. lia. }
  apply stale_noop; [done|]. simpl. by rewrite Hu.
Qed.

(** Deleting an index that is not open leaves it [Missing] instead of
    [BeingDeleted], so that nothing stops a reader that resolved its name
    before the deletion from opening it again; the thread that removes the
    directory then panics in [end_deletion]. *)
Theorem deletion_of_missing_index_races u path date w size i m :
  map_ok m → status u m = Missing →
  create_or_open_index path date w size = Ok i →
  let m1 := (start_deletion u m).2 in
  (start_deletion u m).1 = inl None ∧
  (create u path date w size m1).1 = Ok i ∧
  is_panic (end_deletion u (create u path date w size m1).2).1 = true.
Proof.
  intros Hok Hst Hopen. pose proof (start_deletion_outcome u m Hok) as Hs.
  destruct (start_deletion u m) as [r m1]. simpl. rewrite Hst in Hs.
  destruct Hs as (Hok1 & [-> Hst1] & _). split; [done|].
  pose proof (create_status u path date w size m1 Hok1) as Hc.
  pose proof (create_spec u path date w size m1 Hok1) as Hsp.
  destruct (create u path date w size m1) as [o m2] eqn:Hcr. simpl.
  destruct o as [j|e|p].
  - destruct Hsp as (Hok2 & _ & _ & Hj & _). rewrite Hopen in Hj. injection Hj as <-.
    split; [done|]. destruct Hc as [_ Hav].
    pose proof (end_deletion_status u m2 Hok2) as He. by rewrite Hav in He.
  - destruct Hsp as [_ He]. congruence.
  - destruct Hc as [?|He]; [done|]. by rewrite Hopen in He.
Qed.
End index_map_facts.

(** ** A concrete environment

    Opening always succeeds, and an index is its own map size. *)
Module Demo.
#[export] Instance host : IndexHost := {|
  Index := N; EnvClosingEvent := N; HostError := string;
  index_new := λ o _ _, Ok (opt_map_size o);
  index_map_size := λ i, Ok i;
  prepare_for_closing := λ i, i;
  page_size := 4096%N
|}.
Definition cache : Type := LruMap N N.
#[export] Instance cache_ops : CacheOps Uuid Index cache := @lru_cache_ops N N _ _.
#[export] Instance cache_laws : Cache Uuid Index cache := @lru_cache N N _ _.

(** One index open, room for one only. *)
Definition m0 : IndexMap cache := mkMap (mkLru [(2, (1, 8192))]%N 2%N 1) ∅ 0%N.

Lemma m0_ok : map_ok 1 m0.
Proof.
  split; [|done|done|done]. split; [|done]. split; [|simpl; unfold len; simpl; lia].
  apply NoDup_singleton.
Qed.

(** Opening a second index evicts and closes the first one. *)
Definition m1 : IndexMap cache := (create 2%N "b" None false 4096%N m0).2.

Lemma m1_ok : map_ok 1 m1.
Proof.
  apply (create_ok 1 2%N "b" None false 4096%N m0 (Ok 4096%N)); [apply m0_ok|..]; done.
Qed.

Lemma index_map_invariant_witness :
  reachable (C:=cache) 1 m1 ∧ size (cache_map (available m1)) ≤ 1.
Proof.
  assert (reachable (C:=cache) 1 m1) as Hr.
  { apply (reach_step 1 m0 (OpCreate 2%N "b" None false 4096%N)); [|reflexivity].
    apply (reach_step 1 (mkMap (mkLru [] 0%N 1) ∅ 0%N) (OpCreate 1%N "a" None false 8192%N)).
    - by apply reach_new.
    - vm_compute. reflexivity. }
  split; [exact Hr|]. apply (index_map_invariant 1 m1 Hr).
Defined.

Lemma start_deletion_status_witness :
  status 1%N m1 = Closing (mkClosing 1 8192 false 8192 1)%N ∧
  status 1%N (start_deletion 1%N m1).2 = Missing.
Proof.
  pose proof (start_deletion_status 1 1%N m1 m1_ok) as H.
  split; [vm_compute; reflexivity|].
  destruct (start_deletion 1%N m1) as [r m'] eqn:E.
  destruct H as (_ & H & _). vm_compute in H. apply H.
Defined.

Lemma index_map_status_tables_witness :
  status 1%N m1 = Closing (mkClosing 1 8192 false 8192 1)%N ∧
  status 2%N m1 = Available 4096%N ∧
  is_panic (end_deletion 2%N m1).1 = true ∧
  (∃ i, status 1%N (reopen (mkReopenable 1 false 8192 1)%N "a" m1).2 = Available i).
Proof.
  pose proof (index_map_status_tables 1 2%N m1 m1_ok) as (_ & _ & _ & _ & H2).
  pose proof (index_map_status_tables 1 1%N m1 m1_ok) as (_ & _ & H1 & _).
  specialize (H1 (mkReopenable 1 false 8192 1)%N "a" eq_refl).
  vm_compute in H1, H2. split_and!; [vm_compute; reflexivity..|exact H2|].
  destruct H1 as [i Hi]. exists i. vm_compute. exact Hi.
Defined.

(** The index 1 is reopened, closed again for a resize, and the reader that
    still holds the first closing request comes late. *)
Lemma late_reopen_is_noop_witness :
  let r := mkReopenable 1%N false 8192%N 1%N in
  let first := (reopen r "a" m1).2 in
  ∃ m2, run_ops [OpCloseForResize 1%N false 4096%N] first = Some m2 ∧
    same_content (reopen r "a" m2).2 m2.
Proof.
  eexists. split; [vm_compute; reflexivity|].
  eapply (late_reopen_is_noop 1 m1 1%N (@mkClosing host 1 8192 false 8192 1)%N _ "a" "a"
    [OpCloseForResize 1%N false 4096%N]);
    [apply m1_ok|vm_compute; reflexivity|vm_compute; discriminate|reflexivity
    |left; split; reflexivity|vm_compute; reflexivity|vm_compute; reflexivity].
Defined.

Lemma deletion_of_missing_index_races_witness :
  status 7%N m0 = Missing ∧
  is_panic (end_deletion 7%N
    (create 7%N "g" None false 4096%N (start_deletion 7%N m0).2).2).1 = true.
Proof.
  split; [vm_compute; reflexivity|].
  apply (@deletion_of_missing_index_races host cache _ _ 1 7%N "g" None false 4096%N 4096%N m0 m0_ok);
    vm_compute; reflexivity.
Defined.
End Demo.
