(* ===== verification/Settings.v ===== *)
(** * Index settings (meilisearch-types/src/settings.rs, milli/src/update/settings.rs)

    The settings a task carries, their validation, and their application to the
    builder that milli executes.  Sets and maps keyed by strings are [gset] and
    [gmap]; the two type states [Checked] and [Unchecked] of the source are a
    phantom parameter, as there. *)
From S2P Require Import Prelude.

(** ** [Setting<T>] (milli/src/update/settings.rs) *)
Inductive Setting (T : Type) : Type :=
| Set_ (value : T)
| Reset
| NotSet.
Arguments Set_ {T} value.
Arguments Reset {T}.
Arguments NotSet {T}.

#[export] Instance setting_eq_dec {T} `{EqDecision T} : EqDecision (Setting T).
Proof. solve_decision. Defined.

Definition setting_set {T} (self : Setting T) : option T :=
  match self with Set_ value => Some value | _ => None end.

Definition is_not_set {T} (self : Setting T) : bool :=
  match self with NotSet => true | _ => false end.

Definition or_reset {T} (self : Setting T) (val : T) : Setting T :=
  match self with Reset => Set_ val | otherwise => otherwise end.

(** ** Ranking rules *)
Inductive Criterion : Type :=
| Words | Typo | Proximity | Attribute | Sort | Exactness
| Asc (field : string) | Desc (field : string).

#[export] Instance criterion_eq_dec : EqDecision Criterion.
Proof. solve_decision. Defined.

Module View.
Inductive RankingRuleView : Type :=
| Words | Typo | Proximity | Attribute | Sort | Exactness
| Asc (field : string) | Desc (field : string).

#[export] Instance ranking_rule_view_eq_dec : EqDecision RankingRuleView.
Proof. solve_decision. Defined.

Definition of_criterion (value : Criterion) : RankingRuleView :=
  match value with
  | Settings.Words => Words
  | Settings.Typo => Typo
  | Settings.Proximity => Proximity
  | Settings.Attribute => Attribute
  | Settings.Sort => Sort
  | Settings.Exactness => Exactness
  | Settings.Asc x => Asc x
  | Settings.Desc x => Desc x
  end.

Definition to_criterion (value : RankingRuleView) : Criterion :=
  match value with
  | Words => Settings.Words
  | Typo => Settings.Typo
  | Proximity => Settings.Proximity
  | Attribute => Settings.Attribute
  | Sort => Settings.Sort
  | Exactness => Settings.Exactness
  | Asc x => Settings.Asc x
  | Desc x => Settings.Desc x
  end.
End View.
Import View (RankingRuleView).
#[export] Existing Instance View.ranking_rule_view_eq_dec.

(** ** Facet sort orders (facet_values_sort.rs) *)
Inductive FacetValuesSort : Type := Alpha | Count.
Inductive OrderBy : Type := Lexicographic | OrderByCount.

#[export] Instance facet_values_sort_eq_dec : EqDecision FacetValuesSort.
Proof. solve_decision. Defined.

Definition order_of_sort (val : FacetValuesSort) : OrderBy :=
  match val with Alpha => Lexicographic | Count => OrderByCount end.

Definition sort_of_order (val : OrderBy) : FacetValuesSort :=
  match val with Lexicographic => Alpha | OrderByCount => Count end.

(** ** The settings of an index *)
Record MinWordSizeTyposSetting := mkMinWordSize {
  one_typo : Setting N;
  two_typos : Setting N
}.

Record TypoSettings := mkTypoSettings {
  enabled : Setting bool;
  min_word_size_for_typos : Setting MinWordSizeTyposSetting;
  disable_on_words : Setting (gset string);
  disable_on_attributes : Setting (gset string)
}.

Record FacetingSettings := mkFaceting {
  max_values_per_facet : Setting N;
  sort_facet_values_by : Setting (gmap string FacetValuesSort)
}.

Record PaginationSettings := mkPagination { max_total_hits : Setting N }.

#[export] Instance min_word_size_eq_dec : EqDecision MinWordSizeTyposSetting.
Proof. solve_decision. Defined.
#[export] Instance typo_settings_eq_dec : EqDecision TypoSettings.
Proof. solve_decision. Defined.
#[export] Instance faceting_eq_dec : EqDecision FacetingSettings.
Proof. solve_decision. Defined.
#[export] Instance pagination_eq_dec : EqDecision PaginationSettings.
Proof. solve_decision. Defined.

Inductive Checked : Type := checked.
Inductive Unchecked : Type := unchecked.

Record Settings (T : Type) := mkSettings {
  displayed_attributes : Setting (list string);
  searchable_attributes : Setting (list string);
  filterable_attributes : Setting (gset string);
  sortable_attributes : Setting (gset string);
  ranking_rules : Setting (list RankingRuleView);
  stop_words : Setting (gset string);
  synonyms : Setting (gmap string (list string));
  distinct_attribute : Setting string;
  typo_tolerance : Setting TypoSettings;
  faceting : Setting FacetingSettings;
  pagination : Setting PaginationSettings
}.
Arguments mkSettings {T}.
Arguments displayed_attributes {T}. Arguments searchable_attributes {T}.
Arguments filterable_attributes {T}. Arguments sortable_attributes {T}.
Arguments ranking_rules {T}. Arguments stop_words {T}. Arguments synonyms {T}.
Arguments distinct_attribute {T}. Arguments typo_tolerance {T}.
Arguments faceting {T}. Arguments pagination {T}.

#[export] Instance settings_eq_dec {T} : EqDecision (Settings T).
Proof. solve_decision. Defined.

(** [validate_min_word_size_for_typo_setting]; the error is the message's two
    numbers. *)
Definition validate_min_word_size_for_typo_setting (s : MinWordSizeTyposSetting)
    : outcome (N * N) MinWordSizeTyposSetting :=
  match one_typo s, two_typos s with
  | Set_ one, Set_ two => if (two <? one)%N then Err (one, two) else Ok s
  | _, _ => Ok s
  end.

Definition cleared : Settings Checked :=
  mkSettings Reset Reset Reset Reset Reset Reset Reset Reset Reset Reset Reset.

Definition into_unchecked (self : Settings Checked) : Settings Unchecked :=
  mkSettings (displayed_attributes self) (searchable_attributes self)
    (filterable_attributes self) (sortable_attributes self) (ranking_rules self)
    (stop_words self) (synonyms self) (distinct_attribute self)
    (typo_tolerance self) (faceting self) (pagination self).

(** A list of fields that contains the wildcard stands for the default. *)
Definition check_wildcard (fields : Setting (list string)) : Setting (list string) :=
  match fields with
  | Set_ fields => if decide ("*" ∈ fields) then Reset else Set_ fields
  | otherwise => otherwise
  end.

Definition check (self : Settings Unchecked) : Settings Checked :=
  mkSettings (check_wildcard (displayed_attributes self))
    (check_wildcard (searchable_attributes self))
    (filterable_attributes self) (sortable_attributes self) (ranking_rules self)
    (stop_words self) (synonyms self) (distinct_attribute self)
    (typo_tolerance self) (faceting self) (pagination self).

(** ** The settings builder (milli/src/update/settings.rs)

    The fields that say what [execute] will change; the transaction, the index
    and the indexer configuration of the struct are not read before it. *)
Record Builder := mkBuilder {
  searchable_fields : Setting (list string);
  displayed_fields : Setting (list string);
  filterable_fields : Setting (gset string);
  sortable_fields : Setting (gset string);
  criteria : Setting (list Criterion);
  builder_stop_words : Setting (gset string);
  distinct_field : Setting string;
  builder_synonyms : Setting (gmap string (list string));
  primary_key : Setting string;
  authorize_typos : Setting bool;
  min_word_len_two_typos : Setting N;
  min_word_len_one_typo : Setting N;
  exact_words : Setting (gset string);
  exact_attributes : Setting (gset string);
  max_values_facet : Setting N;
  facet_sort : Setting (gmap string OrderBy);
  pagination_max_total_hits : Setting N
}.

#[export] Instance order_by_eq_dec : EqDecision OrderBy.
Proof. solve_decision. Defined.
#[export] Instance builder_eq_dec : EqDecision Builder.
Proof. solve_decision. Defined.

(** [Settings::new]. *)
Definition new_builder : Builder :=
  mkBuilder NotSet NotSet NotSet NotSet NotSet NotSet NotSet NotSet NotSet
    NotSet NotSet NotSet NotSet NotSet NotSet NotSet NotSet.

(** The assignments to the fields. *)
Definition put_searchable_fields (v : Setting (list string)) (b : Builder) : Builder :=
  mkBuilder v (displayed_fields b) (filterable_fields b) (sortable_fields b)
    (criteria b) (builder_stop_words b) (distinct_field b)
    (builder_synonyms b) (primary_key b) (authorize_typos b)
    (min_word_len_two_typos b) (min_word_len_one_typo b) (exact_words b)
    (exact_attributes b) (max_values_facet b) (facet_sort b)
    (pagination_max_total_hits b).
Definition put_displayed_fields (v : Setting (list string)) (b : Builder) : Builder :=
  mkBuilder (searchable_fields b) v (filterable_fields b) (sortable_fields b)
    (criteria b) (builder_stop_words b) (distinct_field b)
    (builder_synonyms b) (primary_key b) (authorize_typos b)
    (min_word_len_two_typos b) (min_word_len_one_typo b) (exact_words b)
    (exact_attributes b) (max_values_facet b) (facet_sort b)
    (pagination_max_total_hits b).
Definition put_filterable_fields (v : Setting (gset string)) (b : Builder) : Builder :=
  mkBuilder (searchable_fields b) (displayed_fields b) v (sortable_fields b)
    (criteria b) (builder_stop_words b) (distinct_field b)
    (builder_synonyms b) (primary_key b) (authorize_typos b)
    (min_word_len_two_typos b) (min_word_len_one_typo b) (exact_words b)
    (exact_attributes b) (max_values_facet b) (facet_sort b)
    (pagination_max_total_hits b).
Definition put_sortable_fields (v : Setting (gset string)) (b : Builder) : Builder :=
  mkBuilder (searchable_fields b) (displayed_fields b) (filterable_fields b) v
    (criteria b) (builder_stop_words b) (distinct_field b)
    (builder_synonyms b) (primary_key b) (authorize_typos b)
    (min_word_len_two_typos b) (min_word_len_one_typo b) (exact_words b)
    (exact_attributes b) (max_values_facet b) (facet_sort b)
    (pagination_max_total_hits b).
Definition put_criteria (v : Setting (list Criterion)) (b : Builder) : Builder :=
  mkBuilder (searchable_fields b) (displayed_fields b) (filterable_fields b)
    (sortable_fields b) v (builder_stop_words b) (distinct_field b)
    (builder_synonyms b) (primary_key b) (authorize_typos b)
    (min_word_len_two_typos b) (min_word_len_one_typo b) (exact_words b)
    (exact_attributes b) (max_values_facet b) (facet_sort b)
    (pagination_max_total_hits b).
Definition put_builder_stop_words (v : Setting (gset string)) (b : Builder) : Builder :=
  mkBuilder (searchable_fields b) (displayed_fields b) (filterable_fields b)
    (sortable_fields b) (criteria b) v (distinct_field b) (builder_synonyms b)
    (primary_key b) (authorize_typos b) (min_word_len_two_typos b)
    (min_word_len_one_typo b) (exact_words b) (exact_attributes b)
    (max_values_facet b) (facet_sort b) (pagination_max_total_hits b).
Definition put_distinct_field (v : Setting string) (b : Builder) : Builder :=
  mkBuilder (searchable_fields b) (displayed_fields b) (filterable_fields b)
    (sortable_fields b) (criteria b) (builder_stop_words b) v
    (builder_synonyms b) (primary_key b) (authorize_typos b)
    (min_word_len_two_typos b) (min_word_len_one_typo b) (exact_words b)
    (exact_attributes b) (max_values_facet b) (facet_sort b)
    (pagination_max_total_hits b).
Definition put_builder_synonyms (v : Setting (gmap string (list string))) (b : Builder) : Builder :=
  mkBuilder (searchable_fields b) (displayed_fields b) (filterable_fields b)
    (sortable_fields b) (criteria b) (builder_stop_words b) (distinct_field b)
    v (primary_key b) (authorize_typos b) (min_word_len_two_typos b)
    (min_word_len_one_typo b) (exact_words b) (exact_attributes b)
    (max_values_facet b) (facet_sort b) (pagination_max_total_hits b).
Definition put_primary_key (v : Setting string) (b : Builder) : Builder :=
  mkBuilder (searchable_fields b) (displayed_fields b) (filterable_fields b)
    (sortable_fields b) (criteria b) (builder_stop_words b) (distinct_field b)
    (builder_synonyms b) v (authorize_typos b) (min_word_len_two_typos b)
    (min_word_len_one_typo b) (exact_words b) (exact_attributes b)
    (max_values_facet b) (facet_sort b) (pagination_max_total_hits b).
Definition put_authorize_typos (v : Setting bool) (b : Builder) : Builder :=
  mkBuilder (searchable_fields b) (displayed_fields b) (filterable_fields b)
    (sortable_fields b) (criteria b) (builder_stop_words b) (distinct_field b)
    (builder_synonyms b) (primary_key b) v (min_word_len_two_typos b)
    (min_word_len_one_typo b) (exact_words b) (exact_attributes b)
    (max_values_facet b) (facet_sort b) (pagination_max_total_hits b).
Definition put_min_word_len_two_typos (v : Setting N) (b : Builder) : Builder :=
  mkBuilder (searchable_fields b) (displayed_fields b) (filterable_fields b)
    (sortable_fields b) (criteria b) (builder_stop_words b) (distinct_field b)
    (builder_synonyms b) (primary_key b) (authorize_typos b) v
    (min_word_len_one_typo b) (exact_words b) (exact_attributes b)
    (max_values_facet b) (facet_sort b) (pagination_max_total_hits b).
Definition put_min_word_len_one_typo (v : Setting N) (b : Builder) : Builder :=
  mkBuilder (searchable_fields b) (displayed_fields b) (filterable_fields b)
    (sortable_fields b) (criteria b) (builder_stop_words b) (distinct_field b)
    (builder_synonyms b) (primary_key b) (authorize_typos b)
    (min_word_len_two_typos b) v (exact_words b) (exact_attributes b)
    (max_values_facet b) (facet_sort b) (pagination_max_total_hits b).
Definition put_exact_words (v : Setting (gset string)) (b : Builder) : Builder :=
  mkBuilder (searchable_fields b) (displayed_fields b) (filterable_fields b)
    (sortable_fields b) (criteria b) (builder_stop_words b) (distinct_field b)
    (builder_synonyms b) (primary_key b) (authorize_typos b)
    (min_word_len_two_typos b) (min_word_len_one_typo b) v
    (exact_attributes b) (max_values_facet b) (facet_sort b)
    (pagination_max_total_hits b).
Definition put_exact_attributes (v : Setting (gset string)) (b : Builder) : Builder :=
  mkBuilder (searchable_fields b) (displayed_fields b) (filterable_fields b)
    (sortable_fields b) (criteria b) (builder_stop_words b) (distinct_field b)
    (builder_synonyms b) (primary_key b) (authorize_typos b)
    (min_word_len_two_typos b) (min_word_len_one_typo b) (exact_words b) v
    (max_values_facet b) (facet_sort b) (pagination_max_total_hits b).
Definition put_max_values_facet (v : Setting N) (b : Builder) : Builder :=
  mkBuilder (searchable_fields b) (displayed_fields b) (filterable_fields b)
    (sortable_fields b) (criteria b) (builder_stop_words b) (distinct_field b)
    (builder_synonyms b) (primary_key b) (authorize_typos b)
    (min_word_len_two_typos b) (min_word_len_one_typo b) (exact_words b)
    (exact_attributes b) v (facet_sort b) (pagination_max_total_hits b).
Definition put_facet_sort (v : Setting (gmap string OrderBy)) (b : Builder) : Builder :=
  mkBuilder (searchable_fields b) (displayed_fields b) (filterable_fields b)
    (sortable_fields b) (criteria b) (builder_stop_words b) (distinct_field b)
    (builder_synonyms b) (primary_key b) (authorize_typos b)
    (min_word_len_two_typos b) (min_word_len_one_typo b) (exact_words b)
    (exact_attributes b) (max_values_facet b) v (pagination_max_total_hits b).
Definition put_pagination_max_total_hits (v : Setting N) (b : Builder) : Builder :=
  mkBuilder (searchable_fields b) (displayed_fields b) (filterable_fields b)
    (sortable_fields b) (criteria b) (builder_stop_words b) (distinct_field b)
    (builder_synonyms b) (primary_key b) (authorize_typos b)
    (min_word_len_two_typos b) (min_word_len_one_typo b) (exact_words b)
    (exact_attributes b) (max_values_facet b) (facet_sort b) v.

(** The methods of the builder. *)
Definition reset_searchable_fields : Builder → Builder := put_searchable_fields Reset.
Definition set_searchable_fields (v : list string) : Builder → Builder :=
  put_searchable_fields (Set_ v).
Definition reset_displayed_fields : Builder → Builder := put_displayed_fields Reset.
Definition set_displayed_fields (v : list string) : Builder → Builder :=
  put_displayed_fields (Set_ v).
Definition reset_filterable_fields : Builder → Builder := put_filterable_fields Reset.
Definition set_filterable_fields (v : gset string) : Builder → Builder :=
  put_filterable_fields (Set_ v).
Definition reset_sortable_fields : Builder → Builder := put_sortable_fields Reset.
Definition set_sortable_fields (v : gset string) : Builder → Builder :=
  put_sortable_fields (Set_ v).
Definition reset_criteria : Builder → Builder := put_criteria Reset.
Definition set_criteria (v : list Criterion) : Builder → Builder :=
  put_criteria (Set_ v).
Definition reset_stop_words : Builder → Builder := put_builder_stop_words Reset.
Definition set_stop_words (stop_words : gset string) : Builder → Builder :=
  put_builder_stop_words (if decide (stop_words = ∅) then Reset else Set_ stop_words).
Definition reset_distinct_field : Builder → Builder := put_distinct_field Reset.
Definition set_distinct_field (v : string) : Builder → Builder :=
  put_distinct_field (Set_ v).
Definition reset_synonyms : Builder → Builder := put_builder_synonyms Reset.
Definition set_synonyms (synonyms : gmap string (list string)) : Builder → Builder :=
  put_builder_synonyms (if decide (synonyms = ∅) then Reset else Set_ synonyms).
Definition reset_primary_key : Builder → Builder := put_primary_key Reset.
Definition set_primary_key (v : string) : Builder → Builder :=
  put_primary_key (Set_ v).
Definition reset_authorize_typos : Builder → Builder := put_authorize_typos Reset.
Definition set_autorize_typos (v : bool) : Builder → Builder :=
  put_authorize_typos (Set_ v).
Definition reset_min_word_len_two_typos : Builder → Builder := put_min_word_len_two_typos Reset.
Definition set_min_word_len_two_typos (v : N) : Builder → Builder :=
  put_min_word_len_two_typos (Set_ v).
Definition reset_min_word_len_one_typo : Builder → Builder := put_min_word_len_one_typo Reset.
Definition set_min_word_len_one_typo (v : N) : Builder → Builder :=
  put_min_word_len_one_typo (Set_ v).
Definition reset_exact_words : Builder → Builder := put_exact_words Reset.
Definition set_exact_words (v : gset string) : Builder → Builder :=
  put_exact_words (Set_ v).
Definition reset_exact_attributes : Builder → Builder := put_exact_attributes Reset.
Definition set_exact_attributes (v : gset string) : Builder → Builder :=
  put_exact_attributes (Set_ v).
Definition reset_max_values_per_facet : Builder → Builder := put_max_values_facet Reset.
Definition set_max_values_per_facet (v : N) : Builder → Builder :=
  put_max_values_facet (Set_ v).
Definition reset_sort_facet_values_by : Builder → Builder := put_facet_sort Reset.
Definition set_sort_facet_values_by (v : gmap string OrderBy) : Builder → Builder :=
  put_facet_sort (Set_ v).
Definition reset_pagination_max_total_hits : Builder → Builder := put_pagination_max_total_hits Reset.
Definition set_pagination_max_total_hits (v : N) : Builder → Builder :=
  put_pagination_max_total_hits (Set_ v).

(** A [match] on a setting whose [NotSet] branch does nothing. *)
Definition on_setting {T} (s : Setting T) (set : T → Builder → Builder)
    (reset : Builder → Builder) (b : Builder) : Builder :=
  match s with Set_ v => set v b | Reset => reset b | NotSet => b end.

Definition apply_min_word_size (setting : MinWordSizeTyposSetting) (b : Builder)
    : Builder :=
  let b := on_setting (one_typo setting) set_min_word_len_one_typo
             reset_min_word_len_one_typo b in
  on_setting (two_typos setting) set_min_word_len_two_typos
    reset_min_word_len_two_typos b.

Definition apply_typo_settings (value : TypoSettings) (b : Builder) : Builder :=
  let b := on_setting (enabled value) set_autorize_typos reset_authorize_typos b in
  let b := on_setting (min_word_size_for_typos value) apply_min_word_size
             (λ b, reset_min_word_len_two_typos (reset_min_word_len_one_typo b)) b in
  let b := on_setting (disable_on_words value) set_exact_words reset_exact_words b in
  on_setting (disable_on_attributes value) set_exact_attributes
    reset_exact_attributes b.

Definition apply_faceting (value : FacetingSettings) (b : Builder) : Builder :=
  let b := on_setting (max_values_per_facet value) set_max_values_per_facet
             reset_max_values_per_facet b in
  on_setting (sort_facet_values_by value)
    (λ val, set_sort_facet_values_by (order_of_sort <$> val))
    reset_sort_facet_values_by b.

Definition apply_pagination (value : PaginationSettings) (b : Builder) : Builder :=
  on_setting (max_total_hits value) set_pagination_max_total_hits
    reset_pagination_max_total_hits b.

Definition apply_settings_to_builder (settings : Settings Checked) (b : Builder)
    : Builder :=
  let b := on_setting (searchable_attributes settings) set_searchable_fields
             reset_searchable_fields b in
  let b := on_setting (displayed_attributes settings) set_displayed_fields
             reset_displayed_fields b in
  let b := on_setting (filterable_attributes settings) set_filterable_fields
             reset_filterable_fields b in
  let b := on_setting (sortable_attributes settings) set_sortable_fields
             reset_sortable_fields b in
  let b := on_setting (ranking_rules settings)
             (λ criteria, set_criteria (View.to_criterion <$> criteria))
             reset_criteria b in
  let b := on_setting (stop_words settings) set_stop_words reset_stop_words b in
  let b := on_setting (synonyms settings) set_synonyms reset_synonyms b in
  let b := on_setting (distinct_attribute settings) set_distinct_field
             reset_distinct_field b in
  let b := on_setting (typo_tolerance settings) apply_typo_settings
             (λ b, reset_exact_attributes (reset_exact_words
               (reset_min_word_len_two_typos (reset_min_word_len_one_typo
                 (reset_authorize_typos b))))) b in
  let b := on_setting (faceting settings) apply_faceting
             (λ b, reset_sort_facet_values_by (reset_max_values_per_facet b)) b in
  on_setting (pagination settings) apply_pagination
    reset_pagination_max_total_hits b.

(** ** Merging settings: the specification of a sequence of applications *)
Definition overlay {T} (old new : Setting T) : Setting T :=
  match new with NotSet => old | _ => new end.

(** A structured setting: what is reset and then partly set has its other
    parts reset. *)
Definition overlay_with {T} (merge : T → T → T) (reset : T) (old new : Setting T)
    : Setting T :=
  match old, new with
  | Set_ o, Set_ n => Set_ (merge o n)
  | Reset, Set_ n => Set_ (merge reset n)
  | _, NotSet => old
  | _, _ => new
  end.

Definition merge_min_word_size (o n : MinWordSizeTyposSetting) :=
  mkMinWordSize (overlay (one_typo o) (one_typo n)) (overlay (two_typos o) (two_typos n)).

Definition merge_typo (o n : TypoSettings) :=
  mkTypoSettings (overlay (enabled o) (enabled n))
    (overlay_with merge_min_word_size (mkMinWordSize Reset Reset)
       (min_word_size_for_typos o) (min_word_size_for_typos n))
    (overlay (disable_on_words o) (disable_on_words n))
    (overlay (disable_on_attributes o) (disable_on_attributes n)).

Definition merge_faceting (o n : FacetingSettings) :=
  mkFaceting (overlay (max_values_per_facet o) (max_values_per_facet n))
    (overlay (sort_facet_values_by o) (sort_facet_values_by n)).

Definition merge_pagination (o n : PaginationSettings) :=
  mkPagination (overlay (max_total_hits o) (max_total_hits n)).

Definition merge {T} (o n : Settings T) : Settings T :=
  mkSettings (overlay (displayed_attributes o) (displayed_attributes n))
    (overlay (searchable_attributes o) (searchable_attributes n))
    (overlay (filterable_attributes o) (filterable_attributes n))
    (overlay (sortable_attributes o) (sortable_attributes n))
    (overlay (ranking_rules o) (ranking_rules n))
    (overlay (stop_words o) (stop_words n)) (overlay (synonyms o) (synonyms n))
    (overlay (distinct_attribute o) (distinct_attribute n))
    (overlay_with merge_typo (mkTypoSettings Reset Reset Reset Reset)
       (typo_tolerance o) (typo_tolerance n))
    (overlay_with merge_faceting (mkFaceting Reset Reset) (faceting o) (faceting n))
    (overlay_with merge_pagination (mkPagination Reset)
       (pagination o) (pagination n)).

Definition not_set {T} : Settings T :=
  mkSettings NotSet NotSet NotSet NotSet NotSet NotSet NotSet NotSet NotSet NotSet
    NotSet.

(** ** Facts

    A step of the application overlays one field of the builder. *)
Definition non_empty {T} `{Empty T, EqDecision T} (s : Setting T) : Setting T :=
  match s with Set_ v => if decide (v = ∅) then Reset else s | _ => s end.

Definition setting_map {A B} (f : A → B) (s : Setting A) : Setting B :=
  match s with Set_ v => Set_ (f v) | Reset => Reset | NotSet => NotSet end.

(** The part [get] of the structured setting [s], as the builder sees it. *)
Definition sub_setting {A B} (get : A → Setting B) (s : Setting A) : Setting B :=
  match s with Set_ v => get v | Reset => Reset | NotSet => NotSet end.

(** What settings say of the builder's fields. *)
Definition settings_effect {T} (s : Settings T) : Builder :=
  let typo := typo_tolerance s in
  let sizes := sub_setting min_word_size_for_typos typo in
  mkBuilder (searchable_attributes s) (displayed_attributes s)
    (filterable_attributes s) (sortable_attributes s)
    (setting_map (fmap View.to_criterion) (ranking_rules s))
    (non_empty (stop_words s)) (distinct_attribute s) (non_empty (synonyms s))
    NotSet (sub_setting enabled typo) (sub_setting two_typos sizes)
    (sub_setting one_typo sizes) (sub_setting disable_on_words typo)
    (sub_setting disable_on_attributes typo)
    (sub_setting max_values_per_facet (faceting s))
    (setting_map (fmap order_of_sort) (sub_setting sort_facet_values_by (faceting s)))
    (sub_setting max_total_hits (pagination s)).

(** Laying the fields of [e] over those of [b]. *)
Definition overlay_builder (b e : Builder) : Builder :=
  mkBuilder (overlay (searchable_fields b) (searchable_fields e))
    (overlay (displayed_fields b) (displayed_fields e))
    (overlay (filterable_fields b) (filterable_fields e))
    (overlay (sortable_fields b) (sortable_fields e))
    (overlay (criteria b) (criteria e))
    (overlay (builder_stop_words b) (builder_stop_words e))
    (overlay (distinct_field b) (distinct_field e))
    (overlay (builder_synonyms b) (builder_synonyms e))
    (overlay (primary_key b) (primary_key e))
    (overlay (authorize_typos b) (authorize_typos e))
    (overlay (min_word_len_two_typos b) (min_word_len_two_typos e))
    (overlay (min_word_len_one_typo b) (min_word_len_one_typo e))
    (overlay (exact_words b) (exact_words e))
    (overlay (exact_attributes b) (exact_attributes e))
    (overlay (max_values_facet b) (max_values_facet e))
    (overlay (facet_sort b) (facet_sort e))
    (overlay (pagination_max_total_hits b) (pagination_max_total_hits e)).

Lemma overlay_assoc {T} (a b c : Setting T) :
  overlay a (overlay b c) = overlay (overlay a b) c.
Proof. by destruct c. Qed.

Lemma overlay_builder_assoc a b c :
  overlay_builder a (overlay_builder b c) = overlay_builder (overlay_builder a b) c.
Proof. unfold overlay_builder; simpl. by rewrite !overlay_assoc. Qed.

(** A step of the application assigns its field the overlay. *)
Lemma on_setting_put {T U} (s : Setting T) (f : Setting T → Setting U) set reset
    (get : Builder → Setting U) (put : Setting U → Builder → Builder) b :
  (∀ v, set v b = put (overlay (get b) (f (Set_ v))) b) →
  reset b = put (overlay (get b) (f Reset)) b →
  put (overlay (get b) (f NotSet)) b = b →
  on_setting s set reset b = put (overlay (get b) (f s)) b.
Proof. by destruct s; simpl. Qed.

Lemma apply_typo_overlay t b :
  on_setting t apply_typo_settings
    (λ b, reset_exact_attributes (reset_exact_words
      (reset_min_word_len_two_typos (reset_min_word_len_one_typo
        (reset_authorize_typos b))))) b =
  let sizes := sub_setting min_word_size_for_typos t in
  overlay_builder b
    (mkBuilder NotSet NotSet NotSet NotSet NotSet NotSet NotSet NotSet NotSet
       (sub_setting enabled t) (sub_setting two_typos sizes)
       (sub_setting one_typo sizes) (sub_setting disable_on_words t)
       (sub_setting disable_on_attributes t) NotSet NotSet NotSet).
Proof.
  destruct t as [[[] m [] []]| |], b; simpl;
    try (destruct m as [[[] []]| |]); reflexivity.
Qed.

Lemma apply_faceting_overlay t b :
  on_setting t apply_faceting
    (λ b, reset_sort_facet_values_by (reset_max_values_per_facet b)) b =
  overlay_builder b
    (mkBuilder NotSet NotSet NotSet NotSet NotSet NotSet NotSet NotSet NotSet
       NotSet NotSet NotSet NotSet NotSet
       (sub_setting max_values_per_facet t)
       (setting_map (fmap order_of_sort) (sub_setting sort_facet_values_by t)) NotSet).
Proof. destruct t as [[[] []]| |], b; reflexivity. Qed.

Lemma apply_pagination_overlay t b :
  on_setting t apply_pagination reset_pagination_max_total_hits b =
  overlay_builder b
    (mkBuilder NotSet NotSet NotSet NotSet NotSet NotSet NotSet NotSet NotSet
       NotSet NotSet NotSet NotSet NotSet NotSet NotSet
       (sub_setting max_total_hits t)).
Proof. destruct t as [[[]]| |], b; reflexivity. Qed.

(** Applying settings is laying their effect over the builder. *)
Lemma apply_settings_overlay s b :
  apply_settings_to_builder s b = overlay_builder b (settings_effect s).
Proof.
  destruct s as [dis sea fil sor ran sto syn dst typ fac pag].
  unfold apply_settings_to_builder; simpl.
  rewrite apply_pagination_overlay, apply_faceting_overlay, apply_typo_overlay.
  rewrite (on_setting_put sea id _ _ searchable_fields put_searchable_fields) by by destruct b.
  rewrite (on_setting_put dis id _ _ displayed_fields put_displayed_fields) by by destruct b.
  rewrite (on_setting_put fil id _ _ filterable_fields put_filterable_fields) by by destruct b.
  rewrite (on_setting_put sor id _ _ sortable_fields put_sortable_fields) by by destruct b.
  rewrite (on_setting_put ran (setting_map (fmap View.to_criterion)) _ _ criteria put_criteria) by by destruct b.
  rewrite (on_setting_put sto non_empty _ _ builder_stop_words put_builder_stop_words).
  2: intros v; unfold set_stop_words, non_empty; by case_decide.
  2, 3: by destruct b.
  rewrite (on_setting_put syn non_empty _ _ builder_synonyms put_builder_synonyms).
  2: intros v; unfold set_synonyms, non_empty; by case_decide.
  2, 3: by destruct b.
  rewrite (on_setting_put dst id _ _ distinct_field put_distinct_field) by by destruct b.
  destruct b. reflexivity.
Qed.

Lemma non_empty_overlay {T} `{Empty T, EqDecision T} (o n : Setting T) :
  non_empty (overlay o n) = overlay (non_empty o) (non_empty n).
Proof. destruct n; simpl; [by case_decide|done|done]. Qed.

Lemma setting_map_overlay {A B} (f : A → B) (o n : Setting A) :
  setting_map f (overlay o n) = overlay (setting_map f o) (setting_map f n).
Proof. by destruct n. Qed.

(** A part of a merged structure is the overlay of the parts, when merging
    overlays that part and a reset structure resets it. *)
Lemma sub_setting_overlay {A B} (get : A → Setting B) m r (o n : Setting A) :
  (∀ x y, get (m x y) = overlay (get x) (get y)) → get r = Reset →
  sub_setting get (overlay_with m r o n) = overlay (sub_setting get o) (sub_setting get n).
Proof.
  intros Hm Hr. destruct o, n; simpl; rewrite ?Hm, ?Hr; try done;
    match goal with |- context [get ?v] => by destruct (get v) end.
Qed.

Lemma sub_setting_overlay_with {A B} (get : A → Setting B) m r m' r' (o n : Setting A) :
  (∀ x y, get (m x y) = overlay_with m' r' (get x) (get y)) → get r = Reset →
  sub_setting get (overlay_with m r o n) =
  overlay_with m' r' (sub_setting get o) (sub_setting get n).
Proof.
  intros Hm Hr. destruct o, n; simpl; rewrite ?Hm, ?Hr; try done;
    match goal with |- context [get ?v] => by destruct (get v) end.
Qed.

Lemma settings_effect_merge {T} (o n : Settings T) :
  settings_effect (merge o n) = overlay_builder (settings_effect o) (settings_effect n).
Proof.
  unfold settings_effect, overlay_builder; simpl.
  rewrite !(sub_setting_overlay_with min_word_size_for_typos merge_typo _
    merge_min_word_size (mkMinWordSize Reset Reset)) by done.
  rewrite !non_empty_overlay, setting_map_overlay.
  rewrite !sub_setting_overlay by done. by rewrite setting_map_overlay.
Qed.

(** Applying a sequence of settings to one builder, as the batch does, is
    applying once the settings merged in order, where the last one that
    mentions a field wins and a reset structure resets its parts; the primary
    key of the builder is never touched. *)
Theorem apply_settings_sequence (ss : list (Settings Checked)) (b : Builder) :
  foldl (λ b s, apply_settings_to_builder s b) b ss =
    apply_settings_to_builder (foldl merge not_set ss) b ∧
  primary_key (foldl (λ b s, apply_settings_to_builder s b) b ss) = primary_key b.
Proof.
  assert (foldl (λ b s, apply_settings_to_builder s b) b ss =
    apply_settings_to_builder (foldl merge not_set ss) b) as ->.
  { induction ss as [|s ss IH] using rev_ind; [by destruct b|].
    rewrite !foldl_app; simpl. rewrite IH, !apply_settings_overlay, settings_effect_merge.
    by rewrite overlay_builder_assoc. }
  split; [done|]. by rewrite apply_settings_overlay.
Qed.

(** A field list that [check] produces never holds the wildcard. *)
Definition no_wildcard (s : Setting (list string)) : bool :=
  match s with Set_ fields => bool_decide ("*" ∉ fields) | _ => true end.

Lemma check_wildcard_spec s :
  no_wildcard (check_wildcard s) = true ∧
  (no_wildcard s = true → check_wildcard s = s) ∧
  (no_wildcard s = false → check_wildcard s = Reset).
Proof.
  destruct s as [fields| |]; simpl; [|done..]. case_decide; simpl.
  - by rewrite bool_decide_eq_false_2 by naive_solver.
  - by rewrite bool_decide_eq_true_2.
Qed.

(** Checking settings replaces exactly the two attribute lists that name the
    wildcard by a reset and changes nothing else; the result has no wildcard,
    and registering it unchecked and checking it again is the identity. *)
Theorem check_normalises (s : Settings Unchecked) :
  no_wildcard (displayed_attributes (check s)) = true ∧
  no_wildcard (searchable_attributes (check s)) = true ∧
  check (into_unchecked (check s)) = check s ∧
  (no_wildcard (displayed_attributes s) = true →
   no_wildcard (searchable_attributes s) = true → into_unchecked (check s) = s).
Proof.
  pose proof (check_wildcard_spec (displayed_attributes s)) as (H1 & H2 & H3).
  pose proof (check_wildcard_spec (searchable_attributes s)) as (H4 & H5 & H6).
  destruct s as [dis sea]; simpl in *. split_and!; [done|done| |].
  - unfold check, into_unchecked; simpl.
    rewrite (proj1 (proj2 (check_wildcard_spec (check_wildcard dis))) H1).
    by rewrite (proj1 (proj2 (check_wildcard_spec (check_wildcard sea))) H4).
  - intros Hd Hs. unfold into_unchecked, check; simpl. by rewrite H2, H5.
Qed.

Module Demo.
Definition plain : Settings Unchecked :=
  mkSettings (Set_ ["title"]) (Set_ ["title"; "body"]) NotSet NotSet NotSet
    (Set_ ∅) NotSet NotSet NotSet NotSet NotSet.

Lemma check_normalises_witness :
  no_wildcard (displayed_attributes plain) = true ∧
  into_unchecked (check plain) = plain.
Proof. split; [reflexivity|]. apply (check_normalises plain); reflexivity. Defined.
End Demo.
