(* ===== verification/Keys.v ===== *)
(** * API keys (meilisearch-types/src/keys.rs, index_uid.rs, index_uid_pattern.rs)

    The data of a key: its actions, the patterns of the indexes it reaches, and
    the parsing of index uids and patterns.  Strings are byte strings in UTF-8;
    instants are nanoseconds since the epoch; a [Uuid] is its 16 bytes. *)
From S2P Require Import Prelude Settings.
From stdpp Require Import vector.
From Stdlib Require Import Ascii.

Definition Uuid : Type := vec ascii 16.
Definition OffsetDateTime : Type := Z.

(** ** Index uids *)
Definition is_ascii_alphanumeric (c : ascii) : bool :=
  let n := N_of_ascii c in
  ((48 <=? n) && (n <=? 57) || (65 <=? n) && (n <=? 90)
   || (97 <=? n) && (n <=? 122))%N.

Fixpoint chars_all (p : ascii → bool) (s : string) : bool :=
  match s with
  | EmptyString => true
  | String c s' => p c && chars_all p s'
  end.

(** [IndexUid::try_from]; a uid is the string it wraps. *)
Definition index_uid_try_from (uid : string) : outcome string string :=
  if negb (chars_all
       (λ x, is_ascii_alphanumeric x || bool_decide (x = "-"%char)
             || bool_decide (x = "_"%char)) uid)
     || bool_decide (uid = "")
     || (400 <? String.length uid)
  then Err uid else Ok uid.

(** ** Index uid patterns *)
Definition IndexUidPattern : Type := string.

(** [str::strip_suffix] of one character. *)
Fixpoint strip_suffix (c : ascii) (s : string) : option string :=
  match s with
  | EmptyString => None
  | String a EmptyString => if decide (a = c) then Some "" else None
  | String a s' => String a <$> strip_suffix c s'
  end.

Definition ends_with (c : ascii) (s : string) : bool :=
  match strip_suffix c s with Some _ => true | None => false end.

Definition matches_all (pattern : IndexUidPattern) : bool := bool_decide (pattern = "*").

Definition is_exact (pattern : IndexUidPattern) : bool := negb (ends_with "*" pattern).

Definition matches_str (pattern : IndexUidPattern) (uid : string) : bool :=
  match strip_suffix "*" pattern with
  | Some prefix => String.prefix prefix uid
  | None => bool_decide (pattern = uid)
  end.

(** [IndexUidPattern::try_from]: the error carries what [IndexUid] rejected. *)
Definition pattern_try_from (uid : string) : outcome string IndexUidPattern :=
  match strip_suffix "*" uid with
  | Some "" => Ok uid
  | Some prefix => (λ _, uid) <$> index_uid_try_from prefix
  | None => index_uid_try_from uid
  end.

(** ** Actions *)
Inductive Action : Type :=
| All | Search | DocumentsAll | DocumentsAdd
| DocumentsGet | DocumentsDelete | IndexesAll | IndexesAdd
| IndexesGet | IndexesUpdate | IndexesDelete | IndexesSwap
| TasksAll | TasksCancel | TasksDelete | TasksGet
| SettingsAll | SettingsGet | SettingsUpdate | StatsAll
| StatsGet | MetricsAll | MetricsGet | DumpsAll
| DumpsCreate | Version | KeysAdd | KeysGet
| KeysUpdate | KeysDelete | ExperimentalFeaturesGet | ExperimentalFeaturesUpdate.

#[export] Instance action_eq_dec : EqDecision Action.
Proof. solve_decision. Defined.

Definition repr (action : Action) : N :=
  match action with
  | All => 0 | Search => 1 | DocumentsAll => 2 | DocumentsAdd => 3
  | DocumentsGet => 4 | DocumentsDelete => 5 | IndexesAll => 6 | IndexesAdd => 7
  | IndexesGet => 8 | IndexesUpdate => 9 | IndexesDelete => 10 | IndexesSwap => 11
  | TasksAll => 12 | TasksCancel => 13 | TasksDelete => 14 | TasksGet => 15
  | SettingsAll => 16 | SettingsGet => 17 | SettingsUpdate => 18 | StatsAll => 19
  | StatsGet => 20 | MetricsAll => 21 | MetricsGet => 22 | DumpsAll => 23
  | DumpsCreate => 24 | Version => 25 | KeysAdd => 26 | KeysGet => 27
  | KeysUpdate => 28 | KeysDelete => 29 | ExperimentalFeaturesGet => 30 | ExperimentalFeaturesUpdate => 31
  end.

Definition from_repr (repr : N) : option Action :=
  match repr with
  | 0 => Some All | 1 => Some Search | 2 => Some DocumentsAll | 3 => Some DocumentsAdd
  | 4 => Some DocumentsGet | 5 => Some DocumentsDelete | 6 => Some IndexesAll | 7 => Some IndexesAdd
  | 8 => Some IndexesGet | 9 => Some IndexesUpdate | 10 => Some IndexesDelete | 11 => Some IndexesSwap
  | 12 => Some TasksAll | 13 => Some TasksCancel | 14 => Some TasksDelete | 15 => Some TasksGet
  | 16 => Some SettingsAll | 17 => Some SettingsGet | 18 => Some SettingsUpdate | 19 => Some StatsAll
  | 20 => Some StatsGet | 21 => Some MetricsAll | 22 => Some MetricsGet | 23 => Some DumpsAll
  | 24 => Some DumpsCreate | 25 => Some Version | 26 => Some KeysAdd | 27 => Some KeysGet
  | 28 => Some KeysUpdate | 29 => Some KeysDelete | 30 => Some ExperimentalFeaturesGet | 31 => Some ExperimentalFeaturesUpdate
  | _ => None
  end%N.

(** [enum_iterator::all::<Action>()]. *)
Definition all_actions : list Action :=
  [All; Search; DocumentsAll; DocumentsAdd;
   DocumentsGet; DocumentsDelete; IndexesAll; IndexesAdd;
   IndexesGet; IndexesUpdate; IndexesDelete; IndexesSwap;
   TasksAll; TasksCancel; TasksDelete; TasksGet;
   SettingsAll; SettingsGet; SettingsUpdate; StatsAll;
   StatsGet; MetricsAll; MetricsGet; DumpsAll;
   DumpsCreate; Version; KeysAdd; KeysGet;
   KeysUpdate; KeysDelete; ExperimentalFeaturesGet; ExperimentalFeaturesUpdate].

(** The representation is a bijection between the actions and 0..31. *)
Lemma from_repr_repr a : from_repr (repr a) = Some a.
Proof. by destruct a. Qed.

Lemma repr_from_repr n a : from_repr n = Some a → n = repr a.
Proof.
  unfold from_repr. intros H.
  repeat (case_match; simplify_eq; try reflexivity).
Qed.

#[export] Instance action_countable : Countable Action :=
  inj_countable repr from_repr from_repr_repr.

Lemma repr_bound a : (repr a < 32)%N.
Proof. by destruct a. Qed.

Lemma elem_of_all_actions a : a ∈ all_actions.
Proof. apply list_elem_of_In. destruct a; simpl; tauto. Qed.

(** ** Keys *)
Record Key := mkKey {
  key_description : option string;
  key_name : option string;
  key_uid : Uuid;
  actions : list Action;
  indexes : list IndexUidPattern;
  expires_at : option OffsetDateTime;
  created_at : OffsetDateTime;
  updated_at : OffsetDateTime
}.

#[export] Instance key_eq_dec : EqDecision Key.
Proof. solve_decision. Defined.

Record CreateApiKey := mkCreateApiKey {
  create_description : option string;
  create_name : option string;
  create_uid : Uuid;
  create_actions : list Action;
  create_indexes : list IndexUidPattern;
  create_expires_at : option OffsetDateTime
}.

Record PatchApiKey := mkPatchApiKey {
  patch_description : Setting string;
  patch_name : Setting string
}.

(** [now] is [OffsetDateTime::now_utc()]. *)
Definition to_key (now : OffsetDateTime) (self : CreateApiKey) : Key :=
  mkKey (create_description self) (create_name self) (create_uid self)
    (create_actions self) (create_indexes self) (create_expires_at self) now now.

(** [uid] is the random uuid that the function draws. *)
Definition default_admin (now : OffsetDateTime) (uid : Uuid) : Key :=
  mkKey (Some "Use it for anything that is not a search operation. Caution! Do not expose it on a public frontend")
    (Some "Default Admin API Key") uid [All] ["*"] None now now.

Definition default_search (now : OffsetDateTime) (uid : Uuid) : Key :=
  mkKey (Some "Use it to search from the frontend") (Some "Default Search API Key")
    uid [Search] ["*"] None now now.

(** The four date parsers are those of the [time] crate, in the order in which
    they are tried. *)
Definition parse_expiration_date (parse_rfc3339 parse_t parse_space parse_date :
    string → option OffsetDateTime) (now : OffsetDateTime) (string : option string)
    : outcome String.string (option OffsetDateTime) :=
  match string with
  | None => Ok None
  | Some string =>
      let datetime :=
        match parse_rfc3339 string with
        | Some datetime => Some datetime
        | None =>
            match parse_t string with
            | Some datetime => Some datetime
            | None =>
                match parse_space string with
                | Some datetime => Some datetime
                | None => parse_date string
                end
            end
        end in
      match datetime with
      | None => Err string
      | Some datetime =>
          if (now <? datetime)%Z then Ok (Some datetime) else Err string
      end
  end.

(** ** Facts about patterns *)
Lemma strip_suffix_spec c s p : strip_suffix c s = Some p ↔ s = p +:+ String c "".
Proof.
  revert p. induction s as [|a s IH]; intros p; simpl.
  - split; [done|]. by destruct p.
  - destruct s as [|b s].
    + case_decide; subst; split.
      * by intros [= <-].
      * destruct p as [|x p]; simpl; [done|]. intros [= ? Hp]. by destruct p.
      * done.
      * destruct p as [|x p]; simpl; [by intros [=]|]. intros [= ? Hp]. by destruct p.
    + split.
      * intros (p' & Hp' & ->)%fmap_Some. apply IH in Hp'. simpl. by rewrite Hp'.
      * destruct p as [|x p]; simpl; [done|]. intros [= -> Hp].
        apply fmap_Some. exists p. split; [by apply IH|done].
Qed.

Lemma prefix_app (p s : string) : String.prefix p s = true ↔ ∃ t, s = p +:+ t.
Proof.
  revert s. induction p as [|a p IH]; intros s; simpl.
  - split; [by exists s|]. by destruct s.
  - destruct s as [|b s]; [split; [done|by intros [? ?]]|].
    simpl. destruct (ascii_dec a b) as [->|Hne].
    + rewrite IH. split; intros [t Ht]; exists t; [by rewrite Ht|by injection Ht].
    + split; [done|]. intros [t [=]]. done.
Qed.

(** What a pattern means: an exact uid, or every uid that extends a prefix. *)
Lemma matches_str_spec pattern uid :
  matches_str pattern uid = true ↔
  (is_exact pattern = true ∧ pattern = uid) ∨
  ∃ p t, pattern = p +:+ "*" ∧ uid = p +:+ t.
Proof.
  unfold matches_str, is_exact, ends_with.
  destruct (strip_suffix "*" pattern) as [p|] eqn:Hs.
  - apply strip_suffix_spec in Hs as ->. rewrite prefix_app. split.
    + intros [t Ht]. right. by exists p, t.
    + intros [[? _]|(p' & t & Hp & ->)]; [done|]. exists t. f_equal.
      assert (strip_suffix "*" (p +:+ "*") = Some p) as H1 by by apply strip_suffix_spec.
      rewrite Hp in H1.
      assert (strip_suffix "*" (p' +:+ "*") = Some p') as H2 by by apply strip_suffix_spec.
      congruence.
  - rewrite bool_decide_eq_true. split; [by left|].
    intros [[_ ?]|(p & t & -> & _)]; [done|].
    assert (strip_suffix "*" (p +:+ "*") = Some p) as H1 by by apply strip_suffix_spec.
    congruence.
Qed.

Lemma matches_all_str pattern uid : matches_all pattern = true → matches_str pattern uid = true.
Proof. unfold matches_all. rewrite bool_decide_eq_true. intros ->. by destruct uid. Qed.

Lemma pattern_try_from_Ok s p : pattern_try_from s = Ok p → p = s ∧ s ≠ "".
Proof.
  unfold pattern_try_from, index_uid_try_from.
  destruct (strip_suffix "*" s) as [pre|] eqn:Hs.
  - apply strip_suffix_spec in Hs as ->. intros H.
    destruct pre; [by simplify_eq|].
    split; [|done]. repeat case_match; simplify_eq/=; done.
  - repeat case_match; intros; simplify_eq.
    split; [done|]. intros ->. by simpl in *.
Qed.
