(* ===== verification/Auth.v ===== *)
(** * Authentication (meilisearch-auth/src, meilisearch/src/extractors/authentication)

    The store of API keys and its inverted database of rights ([store.rs]), the
    controller, the index filters ([lib.rs]), and the policy that grants a
    request its rights ([extractors/authentication/mod.rs]).

    An LMDB database is the finite map it holds, from byte strings; the errors
    of the file system are left out.  The instant [now], the message
    authentication code and the decoding of JSON web tokens are parameters. *)
From S2P Require Import Prelude Settings Keys.
From stdpp Require Import vector.
From Stdlib Require Import Ascii.
Import Keys.

Definition bytes : Type := list ascii.
Definition as_bytes (uid : Uuid) : bytes := vec_to_list uid.
Definition str_bytes (s : string) : bytes := String.list_ascii_of_string s.

(** [AuthControllerError]. *)
Inductive AuthError : Type :=
| ApiKeyNotFound (key : Uuid + string)
| ApiKeyAlreadyExists (uid : Uuid)
| Internal (message : string).

(** ** Prefix iteration of LMDB: ascending order of the bytes *)
Fixpoint bytes_le (a b : bytes) : bool :=
  match a, b with
  | [], _ => true
  | _ :: _, [] => false
  | x :: a', y :: b' =>
      if decide (x = y) then bytes_le a' b' else (N_of_ascii x <? N_of_ascii y)%N
  end.

Definition entry_le {V} : relation (bytes * V) := λ a b, Is_true (bytes_le a.1 b.1).

#[export] Instance entry_le_dec {V} : RelDecision (@entry_le V).
Proof. intros a b. unfold entry_le. apply _. Defined.

Definition prefix_iter {V} (db : gmap bytes V) (prefix : bytes) : list (bytes * V) :=
  filter (λ e, prefix `prefix_of` e.1) (merge_sort entry_le (map_to_list db)).

(** ** The codec of the inverted database *)
Definition try_split_at {T} (slice : list T) (mid : nat) : option (list T * list T) :=
  if mid <=? length slice then Some (take mid slice, drop mid slice) else None.

(** The array of [N] elements is a [vec]; the conversion of the head fails when
    its length is not [N]. *)
Definition try_split_array_at {T} (N : nat) (slice : list T)
    : option (vec T N * list T) :=
  '(head, tail) ← try_split_at slice N;
  match decide (length head = N) with
  | left H => Some (eq_rect _ (vec T) (list_to_vec head) _ H, tail)
  | right _ => None
  end.

Definition encode_key (key_id : Uuid) (action : Action) (index : option bytes) : bytes :=
  as_bytes key_id ++ [ascii_of_N (repr action)] ++
  match index with Some index => index | None => [] end.

Definition decode_key (b : bytes) : option (Uuid * Action * option bytes) :=
  '(key_id, action_bytes) ← try_split_array_at 16 b;
  '(action_byte, index) ← try_split_array_at 1 action_bytes;
  action ← from_repr (N_of_ascii (Vector.hd action_byte));
  Some (key_id, action, match index with [] => None | _ => Some index end).

(** ** The store *)
Record HeedAuthStore := mkStore {
  keys : gmap bytes Key;
  action_keyid_index_expiration : gmap bytes (option OffsetDateTime)
}.

Definition empty_store : HeedAuthStore := mkStore ∅ ∅.

Definition is_empty (s : HeedAuthStore) : bool := bool_decide (size (keys s) = 0).

Definition delete_key_from_inverted_db (key : Uuid)
    (db : gmap bytes (option OffsetDateTime)) : gmap bytes (option OffsetDateTime) :=
  foldr (λ e db, delete e.1 db) db (prefix_iter db (as_bytes key)).

(** One turn of the loop that expands the actions of a key. *)
Definition expand_action (action : Action) : list Action :=
  match action with
  | All => all_actions
  | DocumentsAll => [DocumentsGet; DocumentsDelete; DocumentsAdd]
  | IndexesAll => [IndexesAdd; IndexesDelete; IndexesGet; IndexesUpdate; IndexesSwap]
  | SettingsAll => [SettingsGet; SettingsUpdate]
  | DumpsAll => [DumpsCreate]
  | TasksAll => [TasksGet; TasksDelete; TasksCancel]
  | StatsAll => [StatsGet]
  | MetricsAll => [MetricsGet]
  | other => [other]
  end.

(** The [HashSet] of expanded actions. *)
Definition expand_actions (as_ : list Action) : gset Action :=
  foldl (λ actions action, actions ∪ list_to_set (expand_action action)) ∅ as_.

Definition no_index_restriction (key : Key) : bool :=
  existsb matches_all (indexes key).

(** The body of the loop over the expanded actions. *)
Definition put_action (key : Key) (action : Action)
    (db : gmap bytes (option OffsetDateTime)) : gmap bytes (option OffsetDateTime) :=
  if no_index_restriction key
  then <[encode_key (key_uid key) action None := expires_at key]> db
  else foldl (λ db index,
         <[encode_key (key_uid key) action (Some (str_bytes index)) := expires_at key]> db)
         db (indexes key).

Definition put_api_key (key : Key) (s : HeedAuthStore) : Key * HeedAuthStore :=
  let db := delete_key_from_inverted_db (key_uid key) (action_keyid_index_expiration s) in
  let db := foldl (λ db action, put_action key action db) db
              (elements (expand_actions (actions key))) in
  (key, mkStore (<[as_bytes (key_uid key) := key]> (keys s)) db).

Definition get_api_key (uid : Uuid) (s : HeedAuthStore) : option Key :=
  keys s !! as_bytes uid.

Definition delete_api_key (uid : Uuid) (s : HeedAuthStore) : bool * HeedAuthStore :=
  (bool_decide (is_Some (keys s !! as_bytes uid)),
   mkStore (delete (as_bytes uid) (keys s))
     (delete_key_from_inverted_db uid (action_keyid_index_expiration s))).

Definition delete_all_keys (s : HeedAuthStore) : HeedAuthStore :=
  mkStore ∅ (action_keyid_index_expiration s).

(** Newest first; the order of keys created at the same instant is that of an
    unstable sort, which the model takes to be the stable one. *)
Definition newest_first : relation Key := λ a b, (created_at b <= created_at a)%Z.
#[export] Instance newest_first_dec : RelDecision newest_first.
Proof. intros a b. unfold newest_first. apply _. Defined.

Definition list_api_keys (s : HeedAuthStore) : list Key :=
  merge_sort newest_first (snd <$> prefix_iter (keys s) []).

(** The loop of [get_expiration_date] over the entries of an action. *)
Fixpoint find_pattern (index : option string)
    (entries : list (bytes * option OffsetDateTime))
    : outcome AuthError (option (option OffsetDateTime)) :=
  match entries with
  | [] => Ok None
  | (k, expiration) :: rest =>
      match decode_key k with
      | None => Err (Internal "decoding")
      | Some (_, _, index_uid_pattern) =>
          match index_uid_pattern, index with
          | Some pattern, Some index =>
              match pattern_try_from (String.string_of_list_ascii pattern) with
              | Ok pattern =>
                  if matches_str pattern index then Ok (Some expiration)
                  else find_pattern (Some index) rest
              | Err e => Err (Internal e)
              | Panic p => Panic p
              end
          | _, _ => find_pattern index rest
          end
      end
  end.

Definition get_expiration_date (s : HeedAuthStore) (uid : Uuid) (action : Action)
    (index : option string) : outcome AuthError (option (option OffsetDateTime)) :=
  let db := action_keyid_index_expiration s in
  match db !! encode_key uid action (str_bytes <$> index) with
  | Some expiration => Ok (Some expiration)
  | None => find_pattern index (prefix_iter db (encode_key uid action None))
  end.

Definition prefix_first_expiration_date (s : HeedAuthStore) (uid : Uuid)
    (action : Action) : outcome AuthError (option (option OffsetDateTime)) :=
  match prefix_iter (action_keyid_index_expiration s) (encode_key uid action None) with
  | [] => Ok None
  | (k, expiration) :: _ =>
      match decode_key k with
      | Some _ => Ok (Some expiration)
      | None => Err (Internal "decoding")
      end
  end.

(** ** Search rules and index filters *)
Section filters.
(** [Value] is a JSON value, the filter of a search rule. *)
Context {Value : Type}.

Record IndexSearchRules := mkIndexSearchRules { filter : option Value }.

Definition default_index_search_rules : IndexSearchRules := mkIndexSearchRules None.

(** A hash map is the list of its entries in an order of iteration. *)
Inductive SearchRules : Type :=
| RuleSet (set : gset IndexUidPattern)
| RuleMap (map : list (IndexUidPattern * option IndexSearchRules)).

Definition default_search_rules : SearchRules := RuleSet {["*"]}.

Definition rules_is_index_authorized (self : SearchRules) (index : string) : bool :=
  match self with
  | RuleSet set =>
      bool_decide ("*" ∈ set) || bool_decide (index ∈ set)
      || existsb (λ pattern, matches_str pattern index) (elements set)
  | RuleMap map =>
      bool_decide ("*" ∈ map.*1) || bool_decide (index ∈ map.*1)
      || existsb (λ pattern, matches_str pattern index) (map.*1)
  end.

(** The order of the keys [(bool, usize)] of [max_by_key]. *)
Definition specificity_le (a b : IndexUidPattern) : bool :=
  match is_exact a, is_exact b with
  | false, true => true
  | true, false => false
  | _, _ => String.length a <=? String.length b
  end.

(** [Iterator::max_by_key]: the last of the greatest elements. *)
Definition max_by_specificity {A} (l : list (IndexUidPattern * A))
    : option (IndexUidPattern * A) :=
  foldl (λ acc x,
    match acc with
    | None => Some x
    | Some y => if specificity_le y.1 x.1 then Some x else Some y
    end) None l.

Definition rules_get_index_search_rules (self : SearchRules) (index : string)
    : option IndexSearchRules :=
  match self with
  | RuleSet _ =>
      if rules_is_index_authorized self index then Some default_index_search_rules
      else None
  | RuleMap map =>
      '(_, rule) ← max_by_specificity
        (List.filter (λ e, matches_str e.1 index) map);
      rule
  end.

Definition rules_all_indexes_authorized (self : SearchRules) : bool :=
  match self with
  | RuleSet set => bool_decide ("*" ∈ set)
  | RuleMap map => bool_decide ("*" ∈ map.*1)
  end.

Record AuthFilter := mkAuthFilter {
  search_rules : option SearchRules;
  key_authorized_indexes : SearchRules;
  filter_allow_index_creation : bool
}.

Definition default_auth_filter : AuthFilter :=
  mkAuthFilter None default_search_rules true.

Definition with_allowed_indexes (allowed_indexes : gset IndexUidPattern) : AuthFilter :=
  mkAuthFilter None (RuleSet allowed_indexes) false.

Definition all_indexes_authorized (self : AuthFilter) : bool :=
  rules_all_indexes_authorized (key_authorized_indexes self) &&
  match search_rules self with
  | Some search_rules => rules_all_indexes_authorized search_rules
  | None => true
  end.

Definition is_index_authorized (self : AuthFilter) (index : string) : bool :=
  rules_is_index_authorized (key_authorized_indexes self) index &&
  match search_rules self with
  | Some search_rules => rules_is_index_authorized search_rules index
  | None => true
  end.

Definition allow_index_creation (self : AuthFilter) (index : string) : bool :=
  filter_allow_index_creation self && is_index_authorized self index.

Definition get_index_search_rules (self : AuthFilter) (index : string)
    : option IndexSearchRules :=
  if negb (is_index_authorized self index) then None
  else
    let search_rules := default (key_authorized_indexes self) (search_rules self) in
    rules_get_index_search_rules search_rules index.

(** ** The controller *)
Definition get_key (s : HeedAuthStore) (uid : Uuid) : outcome AuthError Key :=
  ok_or (get_api_key uid s) (ApiKeyNotFound (inl uid)).

Definition create_key (now : OffsetDateTime) (create_key : CreateApiKey)
    : ST HeedAuthStore AuthError Key := λ s,
  match get_api_key (create_uid create_key) s with
  | Some _ => (Err (ApiKeyAlreadyExists (create_uid create_key)), s)
  | None => let '(key, s') := put_api_key (to_key now create_key) s in (Ok key, s')
  end.

(** The assignment of a patched text field. *)
Definition patch_field (patch : Setting string) (old : option string) : option string :=
  match patch with NotSet => old | description => setting_set description end.

Definition update_key (now : OffsetDateTime) (uid : Uuid) (patch : PatchApiKey)
    : ST HeedAuthStore AuthError Key := λ s,
  match get_key s uid with
  | Ok key =>
      let key := mkKey (patch_field (patch_description patch) (key_description key))
                   (patch_field (patch_name patch) (key_name key))
                   (key_uid key) (actions key) (indexes key) (expires_at key)
                   (created_at key) now in
      let '(key, s') := put_api_key key s in (Ok key, s')
  | Err e => (Err e, s)
  | Panic p => (Panic p, s)
  end.

Definition delete_key (uid : Uuid) : ST HeedAuthStore AuthError unit := λ s,
  let '(existing, s') := delete_api_key uid s in
  (if existing then Ok tt else Err (ApiKeyNotFound (inl uid)), s').

(** The lookup made for the requested index, or for any index. *)
Definition requested_expiration (s : HeedAuthStore) (uid : Uuid) (action : Action)
    (index : option string) : outcome AuthError (option (option OffsetDateTime)) :=
  match index with
  | Some index => get_expiration_date s uid action (Some index)
  | None => prefix_first_expiration_date s uid action
  end.

(** [Option::or] evaluates its argument first: the second lookup is made, and
    its error returned, even when the first one succeeds. *)
Definition is_key_authorized (now : OffsetDateTime) (s : HeedAuthStore) (uid : Uuid)
    (action : Action) (index : option string) : outcome AuthError bool :=
  all_indexes ← get_expiration_date s uid action None;
  requested ← requested_expiration s uid action index;
  match match all_indexes with Some e => Some e | None => requested end with
  | Some (Some exp) => Ok (now <? exp)%Z
  | Some None => Ok true
  | None => Ok false
  end.

Definition get_key_filters (now : OffsetDateTime) (s : HeedAuthStore) (uid : Uuid)
    (search_rules : option SearchRules) : outcome AuthError AuthFilter :=
  key ← get_key s uid;
  let key_authorized_indexes := RuleSet (list_to_set (indexes key)) in
  allow_index_creation ← is_key_authorized now s uid IndexesAdd None;
  Ok (mkAuthFilter search_rules key_authorized_indexes allow_index_creation).

(** [generate_default_keys], with the two uuids it draws. *)
Definition generate_default_keys (now : OffsetDateTime) (admin search : Uuid)
    (s : HeedAuthStore) : HeedAuthStore :=
  (put_api_key (default_search now search) (put_api_key (default_admin now admin) s).2).2.

Definition raw_insert_key (key : Key) (s : HeedAuthStore) : HeedAuthStore :=
  (put_api_key key s).2.
End filters.
Arguments IndexSearchRules : clear implicits.
Arguments SearchRules : clear implicits.
Arguments AuthFilter : clear implicits.

(** ** The policy of the HTTP routes *)
Section policy.
Context {Value : Type}.
(** [generate_key_as_hexa uid master_key], the HMAC of the uuid. *)
Context (generate_key_as_hexa : Uuid → string → string).

(** The claims of a tenant token. *)
Record Claims := mkClaims {
  claims_search_rules : SearchRules Value;
  claims_exp : option Z;
  claims_api_key_uid : Uuid
}.

(** [jsonwebtoken]: decoding without and with the check of the signature. *)
Context (decode_insecure : string → option Claims).
Context (decode_signed : string → string → option Claims).

Inductive TenantTokenOutcome : Type :=
| NotATenantToken
| Invalid
| Expired
| Valid (uid : Uuid) (rules : SearchRules Value).

Record AuthController := mkController {
  store : HeedAuthStore;
  master_key : option string
}.

Definition generate_key (auth : AuthController) (uid : Uuid) : option string :=
  generate_key_as_hexa uid <$> master_key auth.

(** The first key of the store, in the order of the uuids, whose encoding is the
    token. *)
Definition get_optional_uid_from_encoded_key (auth : AuthController)
    (encoded_key : string) : option Uuid :=
  match master_key auth with
  | Some master_key =>
      head (omap (λ e : bytes * Key,
        match try_split_array_at 16 e.1 with
        | Some (uid, _) =>
            if decide (generate_key_as_hexa uid master_key = encoded_key) then Some uid
            else None
        | None => None
        end) (prefix_iter (keys (store auth)) []))
  | None => None
  end.

Definition get_uid_from_encoded_key (auth : AuthController) (encoded_key : string)
    : outcome AuthError Uuid :=
  ok_or (get_optional_uid_from_encoded_key auth encoded_key)
    (ApiKeyNotFound (inr encoded_key)).

Definition is_keys_action (action : N) : bool :=
  bool_decide (action ∈ [repr KeysGet; repr KeysAdd; repr KeysUpdate; repr KeysDelete]).

Definition extract_key_id (token : string) : option Uuid :=
  claims_api_key_uid <$> decode_insecure token.

(** [now_s] is the unix timestamp, in seconds. *)
Definition authenticate_tenant_token (now_s : Z) (A : N) (auth : AuthController)
    (token : string) : TenantTokenOutcome :=
  if negb (bool_decide (A = repr Search)) then NotATenantToken
  else
    match extract_key_id token with
    | None => NotATenantToken
    | Some uid =>
        match generate_key auth uid with
        | None => Invalid
        | Some key =>
            match decode_signed token key with
            | None => Invalid
            | Some claims =>
                match claims_exp claims with
                | Some exp =>
                    if (exp <? now_s)%Z then Expired
                    else Valid uid (claims_search_rules claims)
                | None => Valid uid (claims_search_rules claims)
                end
            end
        end
    end.

Definition authenticate (now : OffsetDateTime) (A : N) (auth : AuthController)
    (token : string) (index : option string) : option (AuthFilter Value) :=
  if match master_key auth with
     | None => negb (is_keys_action A)
     | Some mk => bool_decide (mk = token)
     end
  then Some default_auth_filter
  else
    '(key_uuid, search_rules) ←
      match authenticate_tenant_token (now `div` 1000000000)%Z A auth token with
      | Valid key_uuid search_rules => Some (key_uuid, Some search_rules)
      | Expired | Invalid => None
      | NotATenantToken =>
          key_uuid ← get_optional_uid_from_encoded_key auth token;
          Some (key_uuid, None)
      end;
    action ← from_repr A;
    match get_key_filters now (store auth) key_uuid search_rules with
    | Ok auth_filter =>
        if match is_key_authorized now (store auth) key_uuid action index with
           | Ok b => b | _ => false end
           && match index with
              | Some index => is_index_authorized auth_filter index
              | None => true
              end
        then Some auth_filter else None
    | _ => None
    end.
End policy.

(** ** The codec *)
Lemma vec_cast_list {T n m} (v : vec T n) (H : n = m) :
  vec_to_list (eq_rect n (vec T) v m H) = vec_to_list v.
Proof. by destruct H. Qed.

Lemma try_split_array_at_app {T n} (v : vec T n) (rest : list T) :
  try_split_array_at n (vec_to_list v ++ rest) = Some (v, rest).
Proof.
  unfold try_split_array_at, try_split_at.
  rewrite length_app, length_vec_to_list.
  rewrite (proj2 (Nat.leb_le _ _)) by lia. simpl.
  case_decide as H.
  - rewrite drop_app_length' by by rewrite length_vec_to_list. f_equal. f_equal.
    apply vec_to_list_inj2. rewrite vec_cast_list, vec_to_list_to_vec.
    by rewrite take_app_length' by by rewrite length_vec_to_list.
  - exfalso. apply H. rewrite take_app_length' by by rewrite length_vec_to_list.
    by rewrite length_vec_to_list.
Qed.

Lemma repr_byte a : N_of_ascii (ascii_of_N (repr a)) = repr a.
Proof. apply N_ascii_embedding. pose proof (repr_bound a). lia. Qed.

(** The index that decoding gives back: an empty name reads as no index. *)
Definition decoded_index (index : option bytes) : option bytes :=
  match index with Some [] => None | _ => index end.

Lemma decode_encode uid action index :
  decode_key (encode_key uid action index) = Some (uid, action, decoded_index index).
Proof.
  unfold decode_key, encode_key, as_bytes. rewrite try_split_array_at_app.
  simpl. rewrite drop_0.
  rewrite repr_byte, from_repr_repr. simpl. f_equal. f_equal.
  by destruct index as [[|]|].
Qed.

(** The codec of the inverted database decodes what it encoded, except that
    an empty index name reads back as no index; encoding is injective on
    non-empty names, and the keys of an action extend those of its uuid. *)
Theorem key_id_action_codec uid action index :
  decode_key (encode_key uid action index) = Some (uid, action, decoded_index index) ∧
  (∀ uid' action' index', index ≠ Some [] → index' ≠ Some [] →
     encode_key uid action index = encode_key uid' action' index' →
     uid = uid' ∧ action = action' ∧ index = index') ∧
  (as_bytes uid `prefix_of` encode_key uid action index) ∧
  (∀ uid', as_bytes uid' `prefix_of` encode_key uid action index → uid' = uid).
Proof.
  split_and!; [apply decode_encode| | |].
  - intros uid' action' index' H H' He.
    assert (decoded_index index = index) as Hi by by destruct index as [[|]|].
    assert (decoded_index index' = index') as Hi' by by destruct index' as [[|]|].
    pose proof (decode_encode uid action index) as H1.
    pose proof (decode_encode uid' action' index') as H2.
    rewrite He, H2, Hi, Hi' in H1. injection H1 as <- <- <-. done.
  - unfold encode_key. by apply prefix_app_r.
  - intros uid' [k Hk]. apply vec_to_list_inj2. unfold encode_key, as_bytes in Hk.
    apply app_inj_1 in Hk as [Hk _]; [done|].
    transitivity 16; [|symmetry]; apply length_vec_to_list.
Qed.

(** ** The inverted database *)
Lemma elem_of_prefix_iter {V} (db : gmap bytes V) p k v :
  (k, v) ∈ prefix_iter db p ↔ db !! k = Some v ∧ p `prefix_of` k.
Proof.
  unfold prefix_iter. rewrite list_elem_of_filter, merge_sort_Permutation.
  rewrite elem_of_map_to_list. simpl. tauto.
Qed.

Lemma delete_key_lookup (uid : Uuid) (db : gmap bytes (option OffsetDateTime)) (k : bytes) :
  delete_key_from_inverted_db uid db !! k =
  if decide (as_bytes uid `prefix_of` k) then None else db !! k.
Proof.
  unfold delete_key_from_inverted_db.
  assert (∀ (l : list (bytes * option OffsetDateTime)),
    foldr (λ e db, delete e.1 db) db l !! k =
    if decide (k ∈ l.*1) then None else db !! k) as Hdel.
  { induction l as [|[k' v] l IH]; [done|]. simpl. destruct (decide (k = k')) as [->|Hne].
    - rewrite lookup_delete_eq, decide_True by by left. done.
    - rewrite lookup_delete_ne, IH by done. apply decide_ext. set_solver. }
  rewrite Hdel. repeat case_decide; try done.
  - exfalso. apply list_elem_of_fmap in H as ([k' v] & -> & [_ ?]%elem_of_prefix_iter). done.
  - destruct (db !! k) as [v|] eqn:Hk; [|done]. exfalso. apply H.
    apply list_elem_of_fmap. exists (k, v). by rewrite elem_of_prefix_iter.
Qed.

(** The keys that [put_api_key] writes for an API key. *)
Definition granted (key : Key) (k : bytes) : Prop :=
  ∃ action, action ∈ expand_actions (actions key) ∧
    if no_index_restriction key then k = encode_key (key_uid key) action None
    else ∃ index, index ∈ indexes key ∧
      k = encode_key (key_uid key) action (Some (str_bytes index)).

Definition action_keys (key : Key) (action : Action) : list bytes :=
  if no_index_restriction key then [encode_key (key_uid key) action None]
  else (λ index, encode_key (key_uid key) action (Some (str_bytes index))) <$> indexes key.

Definition granted_keys (key : Key) : list bytes :=
  elements (expand_actions (actions key)) ≫= action_keys key.

Lemma elem_of_granted_keys key k : k ∈ granted_keys key ↔ granted key k.
Proof.
  unfold granted_keys, granted, action_keys. rewrite list_elem_of_bind.
  setoid_rewrite elem_of_elements. destruct (no_index_restriction key).
  - setoid_rewrite list_elem_of_singleton. naive_solver.
  - setoid_rewrite list_elem_of_fmap. naive_solver.
Qed.

Lemma put_keys_lookup (v : option OffsetDateTime) (l : list bytes) (db : gmap bytes (option OffsetDateTime)) (k : bytes) :
  foldl (λ db k, <[k := v]> db) db l !! k = if decide (k ∈ l) then Some v else db !! k.
Proof.
  revert db. induction l as [|k' l IH]; intros db; [done|]. simpl. rewrite IH.
  destruct (decide (k = k')) as [->|Hne].
  - rewrite lookup_insert_eq, (decide_True (P := k' ∈ k' :: l)) by by left.
    by case_decide.
  - rewrite lookup_insert_ne by done. apply decide_ext. set_solver.
Qed.

Lemma put_action_keys key action db :
  put_action key action db =
  foldl (λ db k, <[k := expires_at key]> db) db (action_keys key action).
Proof.
  unfold put_action, action_keys. destruct (no_index_restriction key); [done|].
  revert db. induction (indexes key) as [|i l IH]; intros db; [done|]. simpl. apply IH.
Qed.

Lemma put_actions_keys key as_ db :
  foldl (λ db action, put_action key action db) db as_ =
  foldl (λ db k, <[k := expires_at key]> db) db (as_ ≫= action_keys key).
Proof.
  revert db. induction as_ as [|a as_ IH]; intros db; [done|]. simpl.
  by rewrite foldl_app, IH, put_action_keys.
Qed.

(** Exactly the granted keys are in the database under the uuid. *)
Lemma put_api_key_lookup key s k :
  action_keyid_index_expiration (put_api_key key s).2 !! k =
  if decide (k ∈ granted_keys key) then Some (expires_at key)
  else if decide (as_bytes (key_uid key) `prefix_of` k) then None
  else action_keyid_index_expiration s !! k.
Proof.
  unfold put_api_key; simpl. rewrite put_actions_keys, put_keys_lookup, delete_key_lookup.
  done.
Qed.

Lemma granted_prefix key k : granted key k → as_bytes (key_uid key) `prefix_of` k.
Proof.
  intros (a & _ & H). unfold encode_key in H.
  destruct (no_index_restriction key); [|destruct H as (i & _ & H)]; subst;
    by apply prefix_app_r.
Qed.

(** ** The invariant of the store *)
Definition key_valid (key : Key) : Prop :=
  Forall (λ p, pattern_try_from p = Ok p) (indexes key).

Definition uuid_entries (s : HeedAuthStore) (uid : Uuid) (key : option Key) : Prop :=
  ∀ k, as_bytes uid `prefix_of` k →
    action_keyid_index_expiration s !! k =
    match key with
    | Some key => if decide (k ∈ granted_keys key) then Some (expires_at key) else None
    | None => None
    end.

(** The operations of the controller on the store. *)
Inductive store_op : Type :=
| OpPut (key : Key)
| OpDelete (uid : Uuid)
| OpDeleteAll.

Definition run_op (o : store_op) (s : HeedAuthStore) : HeedAuthStore :=
  match o with
  | OpPut key => (put_api_key key s).2
  | OpDelete uid => (delete_api_key uid s).2
  | OpDeleteAll => delete_all_keys s
  end.

Definition run_ops (os : list store_op) (s : HeedAuthStore) : HeedAuthStore :=
  foldl (λ s o, run_op o s) s os.

Definition valid_op (o : store_op) : Prop :=
  match o with OpPut key => key_valid key | _ => True end.

Record store_ok (s : HeedAuthStore) : Prop := {
  ok_key : ∀ uid key, get_api_key uid s = Some key →
    key_uid key = uid ∧ key_valid key ∧ uuid_entries s uid (Some key)
}.

Lemma as_bytes_inj uid uid' : as_bytes uid = as_bytes uid' → uid = uid'.
Proof. apply vec_to_list_inj2. Qed.

Lemma prefix_same_uid uid uid' k :
  as_bytes uid `prefix_of` k → as_bytes uid' `prefix_of` k → uid = uid'.
Proof.
  intros [r ->] [r' Hr]. apply app_inj_1 in Hr as [H _]; [by apply as_bytes_inj|].
  unfold as_bytes. by rewrite !length_vec_to_list.
Qed.

Lemma put_ok key s : key_valid key → store_ok s → store_ok (put_api_key key s).2.
Proof.
  intros Hv [Hs]. constructor. intros uid key' Hk. unfold get_api_key in *; simpl in Hk.
  destruct (decide (key_uid key = uid)) as [<-|Hne].
  - rewrite lookup_insert_eq in Hk. simplify_eq. split_and!; [done|done|].
    intros k Hp. rewrite put_api_key_lookup. rewrite (decide_True (P := _ `prefix_of` _)) by done.
    done.
  - rewrite lookup_insert_ne in Hk by by intros ?%as_bytes_inj.
    destruct (Hs _ _ Hk) as (Hu & Hv' & He). split_and!; [done|done|].
    intros k Hp. rewrite put_api_key_lookup, decide_False.
    + rewrite decide_False; [by apply He|].
      intros Hp'. by apply Hne, (prefix_same_uid _ _ k).
    + rewrite elem_of_granted_keys. intros Hp'%granted_prefix.
      by apply Hne, (prefix_same_uid _ _ k).
Qed.

Lemma delete_ok uid s : store_ok s → store_ok (delete_api_key uid s).2.
Proof.
  intros [Hs]. constructor. intros uid' key' Hk. unfold get_api_key in *; simpl in Hk.
  apply lookup_delete_Some in Hk as [Hne Hk].
  destruct (Hs _ _ Hk) as (Hu & Hv' & He). split_and!; [done|done|].
  intros k Hp. simpl. rewrite delete_key_lookup, decide_False; [by apply He|].
  intros Hp'. apply Hne. by rewrite (prefix_same_uid _ _ _ Hp Hp').
Qed.

Lemma run_ops_ok os s : Forall valid_op os → store_ok s → store_ok (run_ops os s).
Proof.
  revert s. induction os as [|o os IH]; intros s Ho Hs; [done|].
  apply Forall_cons in Ho as [Ho Hos]. simpl. apply IH; [done|].
  destruct o; simpl in *; [by apply put_ok|by apply delete_ok|].
  constructor. intros uid key. unfold get_api_key; simpl. by rewrite lookup_empty.
Qed.

Lemma empty_store_ok : store_ok empty_store.
Proof. constructor. intros ??. unfold get_api_key; simpl. by rewrite lookup_empty. Qed.

(** ** What a key is allowed to do *)
Definition key_reaches (key : Key) (index : option string) : bool :=
  no_index_restriction key ||
  match index with
  | Some index => existsb (λ p, matches_str p index) (indexes key)
  | None => negb (bool_decide (indexes key = []))
  end.

Definition not_expired (now : OffsetDateTime) (key : Key) : bool :=
  match expires_at key with Some exp => (now <? exp)%Z | None => true end.

Definition key_allows (now : OffsetDateTime) (key : Key) (action : Action)
    (index : option string) : bool :=
  bool_decide (action ∈ expand_actions (actions key)) && key_reaches key index
  && not_expired now key.

Lemma str_bytes_inj a b : str_bytes a = str_bytes b → a = b.
Proof.
  intros H. rewrite <- (String.string_of_list_ascii_of_string a),
    <- (String.string_of_list_ascii_of_string b). by f_equal.
Qed.

Lemma valid_nonempty key p : key_valid key → p ∈ indexes key → p ≠ "".
Proof.
  unfold key_valid. rewrite Forall_forall. intros H Hp.
  exact (proj2 (pattern_try_from_Ok _ _ (H _ Hp))).
Qed.

Lemma encode_action_prefix uid a a' index :
  encode_key uid a None `prefix_of` encode_key uid a' index ↔ a = a'.
Proof.
  unfold encode_key. rewrite !app_nil_r. split.
  - intros [r Hr]. rewrite <- app_assoc in Hr. apply app_inv_head in Hr.
    simpl in Hr. injection Hr as Hb _. apply (f_equal N_of_ascii) in Hb.
    rewrite !repr_byte in Hb. apply (f_equal from_repr) in Hb.
    rewrite !from_repr_repr in Hb. congruence.
  - intros ->. exists (match index with Some i => i | None => [] end).
    by rewrite <- app_assoc.
Qed.

(** The entry [k] of the inverted database is one that [key] grants for [a]. *)
Definition entry_of (key : Key) (a : Action) (e : bytes * option OffsetDateTime) : Prop :=
  e.2 = expires_at key ∧
  (if no_index_restriction key then e.1 = encode_key (key_uid key) a None
   else ∃ index, index ∈ indexes key ∧
     e.1 = encode_key (key_uid key) a (Some (str_bytes index))).

Lemma decode_entry uid a i : i ≠ "" →
  decode_key (encode_key uid a (Some (str_bytes i))) = Some (uid, a, Some (str_bytes i)).
Proof. intros Hi. rewrite decode_encode. by destruct i. Qed.

Lemma encode_granted key a index :
  key_valid key → index ≠ Some "" →
  granted key (encode_key (key_uid key) a (str_bytes <$> index)) ↔
  a ∈ expand_actions (actions key) ∧
  match index with
  | None => no_index_restriction key = true
  | Some i => no_index_restriction key = false ∧ i ∈ indexes key
  end.
Proof.
  intros Hv Hi. unfold granted. split.
  - intros (a' & Ha & H). destruct (no_index_restriction key).
    + apply (f_equal decode_key) in H. rewrite !decode_encode in H.
      destruct index as [i|]; [|naive_solver]. simpl in *.
      destruct i; [done|]. by simplify_eq/=.
    + destruct H as (p & Hp & H). apply (f_equal decode_key) in H.
      pose proof (valid_nonempty _ _ Hv Hp). rewrite decode_entry in H by done.
      destruct index as [i|]; simpl in *.
      * rewrite decode_entry in H by naive_solver.
        assert (a = a' ∧ str_bytes i = str_bytes p) as [-> ->%str_bytes_inj]
          by (injection H; auto). done.
      * rewrite decode_encode in H. by simplify_eq/=.
  - intros [Ha H]. exists a. split; [done|]. destruct index as [i|].
    + destruct H as [-> H]. by exists i.
    + by rewrite H.
Qed.

Section authorized.
Context (s : HeedAuthStore) (uid : Uuid) (key : Key).
Hypothesis (Hok : store_ok s) (Hkey : get_api_key uid s = Some key).

Let Hv : key_valid key.
Proof. by destruct (ok_key _ Hok _ _ Hkey) as (_ & ? & _). Qed.
Let Huid : key_uid key = uid.
Proof. by destruct (ok_key _ Hok _ _ Hkey). Qed.

Lemma entry_lookup k : as_bytes uid `prefix_of` k →
  action_keyid_index_expiration s !! k =
  if decide (k ∈ granted_keys key) then Some (expires_at key) else None.
Proof. by destruct (ok_key _ Hok _ _ Hkey) as (_ & _ & He); apply He. Qed.

Lemma encode_lookup a index : index ≠ Some "" →
  action_keyid_index_expiration s !! encode_key uid a (str_bytes <$> index) =
  if decide (a ∈ expand_actions (actions key)) then
    if match index with
       | None => no_index_restriction key
       | Some i => negb (no_index_restriction key) && bool_decide (i ∈ indexes key)
       end
    then Some (expires_at key) else None
  else None.
Proof.
  intros Hi. rewrite entry_lookup by by apply prefix_app_r.
  pose proof (encode_granted key a index Hv Hi) as Hg. rewrite Huid in Hg.
  rewrite <- elem_of_granted_keys in Hg. case_decide as H1; case_decide as H2.
  - apply Hg in H1 as [_ H]. destruct index; [|by rewrite H].
    destruct H as [-> H]. simpl. by rewrite bool_decide_eq_true_2.
  - naive_solver.
  - destruct index as [i|].
    + destruct (no_index_restriction key); simpl; [done|]. case_bool_decide; naive_solver.
    + destruct (no_index_restriction key); naive_solver.
  - done.
Qed.

Lemma action_entries a e :
  e ∈ prefix_iter (action_keyid_index_expiration s) (encode_key uid a None) ↔
  a ∈ expand_actions (actions key) ∧ entry_of key a e.
Proof.
  destruct e as [k v]. rewrite elem_of_prefix_iter. unfold entry_of; simpl. split.
  - intros [Hk Hp]. assert (as_bytes uid `prefix_of` k) as Hu.
    { etransitivity; [|exact Hp]. by apply prefix_app_r. }
    rewrite entry_lookup in Hk by done. case_decide as Hg; [|done]. injection Hk as <-.
    apply elem_of_granted_keys in Hg as (a' & Ha & H). rewrite Huid in H |- *.
    destruct (no_index_restriction key).
    + subst k. apply encode_action_prefix in Hp as <-. done.
    + destruct H as (i & Hi & ->). apply encode_action_prefix in Hp as <-. naive_solver.
  - intros (Ha & -> & H). rewrite Huid in H.
    assert (granted key k ∧ encode_key uid a None `prefix_of` k) as [Hg Hp].
    { unfold granted. rewrite Huid. destruct (no_index_restriction key).
      - subst. split; [by exists a|done].
      - destruct H as (i & Hi & ->). split; [naive_solver|]. by apply encode_action_prefix. }
    split; [|done]. rewrite entry_lookup.
    + by rewrite decide_True by by apply elem_of_granted_keys.
    + rewrite <- Huid. by apply granted_prefix.
Qed.

Lemma find_pattern_spec a index l :
  Forall (entry_of key a) l →
  find_pattern index l =
  Ok (if negb (no_index_restriction key) &&
        existsb (λ e, match index with
          | Some i => existsb (λ p, bool_decide (e.1 = encode_key uid a (Some (str_bytes p)))
                         && matches_str p i) (indexes key)
          | None => false end) l
      then Some (expires_at key) else None).
Proof.
  induction l as [|[k v] l IH]; intros Hl; [by rewrite andb_false_r|].
  apply Forall_cons in Hl as [[Hv' Hk] Hl]. specialize (IH Hl). simpl in *. subst v.
  rewrite Huid in Hk. destruct (no_index_restriction key); simpl in *.
  - subst k. rewrite decode_encode; simpl. done.
  - destruct Hk as (p & Hp & ->). pose proof (valid_nonempty _ _ Hv Hp).
    rewrite decode_entry by done. destruct index as [i|]; simpl in *.
    + unfold str_bytes at 1. rewrite String.string_of_list_ascii_of_string.
      rewrite (proj1 (Forall_forall _ _) Hv p Hp).
      assert (existsb (λ p0, bool_decide (encode_key uid a (Some (str_bytes p)) =
         encode_key uid a (Some (str_bytes p0))) && matches_str p0 i) (indexes key) =
         matches_str p i) as ->.
      { destruct (matches_str p i) eqn:Hm.
        - apply existsb_true. exists p. by rewrite bool_decide_eq_true_2.
        - apply existsb_false. intros p' Hp'. case_bool_decide as He; [|done]. simpl.
          apply (f_equal decode_key) in He. pose proof (valid_nonempty _ _ Hv Hp').
          rewrite !decode_entry in He by done.
          assert (p = p') as <- by (apply str_bytes_inj; congruence). done. }
      destruct (matches_str p i); [done|]. rewrite IH. done.
    + rewrite IH. by destruct (existsb _ l).
Qed.

Lemma matches_own_pattern p : matches_str p p = true.
Proof.
  apply matches_str_spec. unfold is_exact, ends_with.
  destruct (strip_suffix "*" p) as [q|] eqn:Hs; [|by left].
  apply strip_suffix_spec in Hs as ->. right. by exists q, "*".
Qed.

Lemma all_entries a :
  Forall (entry_of key a)
    (prefix_iter (action_keyid_index_expiration s) (encode_key uid a None)).
Proof. apply Forall_forall. intros e He. by apply action_entries in He as [_ ?]. Qed.

(** The rights on every index. *)
Lemma expiration_all a :
  get_expiration_date s uid a None =
  Ok (if decide (a ∈ expand_actions (actions key)) then
        if no_index_restriction key then Some (expires_at key) else None
      else None).
Proof.
  unfold get_expiration_date. simpl.
  pose proof (encode_lookup a None) as Hl. simpl in Hl. rewrite Hl by done. clear Hl.
  rewrite (find_pattern_spec a None _ (all_entries a)).
  assert (∀ l : list (bytes * option OffsetDateTime), existsb (λ _, false) l = false) as ->
    by (intros l; by induction l).
  rewrite andb_false_r. by destruct (decide _), (no_index_restriction key).
Qed.

(** The rights of a restricted key on one index. *)
Lemma expiration_index a i : no_index_restriction key = false →
  get_expiration_date s uid a (Some i) =
  Ok (if decide (a ∈ expand_actions (actions key)) then
        if existsb (λ p, matches_str p i) (indexes key) then Some (expires_at key) else None
      else None).
Proof.
  intros Hr. unfold get_expiration_date.
  destruct (action_keyid_index_expiration s !! encode_key uid a (str_bytes <$> Some i))
    as [e|] eqn:Hl.
  - assert (i ≠ "") as Hi.
    { intros ->.
      change (encode_key uid a (str_bytes <$> Some "")) with (encode_key uid a (str_bytes <$> None)) in Hl.
      rewrite encode_lookup, Hr in Hl by done. by case_decide. }
    rewrite encode_lookup in Hl by congruence. case_decide; [|done].
    rewrite Hr in Hl. simpl in Hl. case_bool_decide as Hin; [|done].
    replace (existsb _ _) with true; [congruence|]. symmetry. apply existsb_true.
    exists i. split; [done|apply matches_own_pattern].
  - rewrite (find_pattern_spec a (Some i) _ (all_entries a)), Hr. simpl. f_equal.
    case_decide as Ha.
    + assert (∀ b c : bool, (b = true ↔ c = true) →
        (if b then Some (expires_at key) else None) =
        (if c then Some (expires_at key) else None)) as Hb.
      { intros [] [] ?; naive_solver. }
      apply Hb. rewrite !existsb_true. split.
      * intros (e & _ & (p & Hp & [_ Hm]%andb_true_iff)%existsb_true). by exists p.
      * intros (p & Hp & Hm). exists (encode_key uid a (Some (str_bytes p)), expires_at key).
        split.
        -- apply action_entries. split; [done|]. split; [done|]. simpl. rewrite Hr.
           exists p. by rewrite Huid.
        -- apply existsb_true. exists p. split; [done|]. by rewrite bool_decide_eq_true_2.
    + replace (prefix_iter _ _) with (@nil (bytes * option OffsetDateTime)); [done|].
      symmetry. apply elem_of_nil_inv. intros e He. by apply action_entries in He as [? _].
Qed.

Lemma expiration_any a : no_index_restriction key = false →
  prefix_first_expiration_date s uid a =
  Ok (if decide (a ∈ expand_actions (actions key)) then
        if bool_decide (indexes key = []) then None else Some (expires_at key)
      else None).
Proof.
  intros Hr. unfold prefix_first_expiration_date.
  pose proof (action_entries a) as He.
  destruct (prefix_iter _ _) as [|[k e] l].
  - f_equal. case_decide as Ha; [|done]. case_bool_decide as Hi; [done|].
    destruct (indexes key) as [|i is_] eqn:Hix; [done|]. exfalso.
    apply (not_elem_of_nil (encode_key uid a (Some (str_bytes i)), expires_at key)).
    apply He. split; [done|]. split; [done|]. simpl. rewrite Hr, Hix, Huid.
    exists i. split; [by left|done].
  - destruct (proj1 (He (k, e)) ltac:(by left)) as (Ha & He2 & Hk). simpl in He2, Hk. subst e.
    rewrite Hr in Hk. destruct Hk as (i & Hi & ->). rewrite decode_encode.
    rewrite decide_True by done. by case_bool_decide as Hn; [rewrite Hn in Hi; inversion Hi|].
Qed.

Lemma requested_ok a index : ∃ r, requested_expiration s uid a index = Ok r.
Proof.
  unfold requested_expiration. destruct index as [i|].
  - unfold get_expiration_date. destruct (_ !! _); [by eauto|].
    rewrite (find_pattern_spec a (Some i) _ (all_entries a)). eauto.
  - unfold prefix_first_expiration_date. pose proof (action_entries a) as He.
    destruct (prefix_iter _ _) as [|[k e] l]; [by eauto|].
    destruct (proj1 (He (k, e)) ltac:(by left)) as (_ & _ & Hk). simpl in Hk.
    destruct (no_index_restriction key); [|destruct Hk as (i & _ & Hk)];
      rewrite Hk, decode_encode; eauto.
Qed.

Lemma authorized_spec now a index :
  is_key_authorized now s uid a index = Ok (key_allows now key a index).
Proof.
  unfold is_key_authorized, key_allows, key_reaches, not_expired.
  rewrite expiration_all. destruct (no_index_restriction key) eqn:Hr.
  - destruct (requested_ok a index) as [r Hq]. rewrite Hq. simpl.
    destruct (decide (a ∈ expand_actions (actions key))) as [Ha|Ha];
      [rewrite bool_decide_eq_true_2 by done; simpl; by destruct (expires_at key)|].
    rewrite bool_decide_eq_false_2 by done. simpl.
    destruct r as [r|]; [|done]. exfalso.
    assert (prefix_iter (action_keyid_index_expiration s) (encode_key uid a None) = []) as Hn.
    { apply elem_of_nil_inv. intros e He. by apply action_entries in He as [? _]. }
    unfold requested_expiration in Hq. destruct index as [i|].
    + unfold get_expiration_date in Hq. rewrite Hn in Hq. simpl in Hq.
      destruct (_ !! _) eqn:Hl; [|done].
      rewrite entry_lookup in Hl by by apply prefix_app_r. case_decide as Hg; [|done].
      apply elem_of_granted_keys in Hg as (a' & Ha' & Hk). rewrite Hr, Huid in Hk.
      apply (f_equal decode_key) in Hk. rewrite !decode_encode in Hk. congruence.
    + unfold prefix_first_expiration_date in Hq. by rewrite Hn in Hq.
  - unfold requested_expiration. destruct index as [i|].
    + rewrite expiration_index by done. simpl.
      destruct (decide (a ∈ expand_actions (actions key))) as [Ha|Ha]; simpl;
        [rewrite bool_decide_eq_true_2 by done|by rewrite bool_decide_eq_false_2].
      destruct (existsb _ _); simpl; [by destruct (expires_at key)|done].
    + rewrite expiration_any by done. simpl.
      destruct (decide (a ∈ expand_actions (actions key))) as [Ha|Ha]; simpl.
      * rewrite (bool_decide_eq_true_2 (a ∈ _)) by done.
        case_bool_decide; simpl; [done|by destruct (expires_at key)].
      * by rewrite (bool_decide_eq_false_2 (a ∈ _)).
Qed.
End authorized.

(** C18: In every store reached by creating, updating, deleting and clearing
    keys with valid patterns, the rights read from the inverted database for a
    stored key are those its record grants: the action is among the expanded
    ones, a pattern reaches the index, and the key is not expired. *)
Theorem is_key_authorized_spec (now : OffsetDateTime) (os : list store_op) (uid : Uuid)
    (key : Key) (action : Action) (index : option string) :
  Forall valid_op os →
  get_api_key uid (run_ops os empty_store) = Some key →
  is_key_authorized now (run_ops os empty_store) uid action index =
  Ok (key_allows now key action index).
Proof.
  intros Hos Hk. pose proof (run_ops_ok _ _ Hos empty_store_ok) as Hok.
  by apply authorized_spec.
Qed.

(** ** Search rules *)
Section rules.
Context {A : Type}.
Implicit Types (l : list (IndexUidPattern * A)).

Lemma max_by_specificity_spec l :
  match max_by_specificity l with
  | None => l = []
  | Some x => x ∈ l ∧ ∀ y, y ∈ l → specificity_le y.1 x.1 = true
  end.
Proof.
  unfold max_by_specificity. induction l as [|x l IH] using rev_ind; [done|].
  rewrite foldl_app. simpl. destruct (foldl _ None l) as [y|] eqn:Hf; simpl in *.
  - destruct IH as [Hy Hmax]. destruct (specificity_le y.1 x.1) eqn:Hle.
    + split; [set_solver|]. intros z [Hz| ->%list_elem_of_singleton]%elem_of_app.
      * specialize (Hmax _ Hz). unfold specificity_le in *.
        destruct (is_exact z.1), (is_exact y.1), (is_exact x.1); try done;
          rewrite Nat.leb_le in *; lia.
      * unfold specificity_le. destruct (is_exact x.1); by apply Nat.leb_le.
    + split; [set_solver|]. intros z [Hz| ->%list_elem_of_singleton]%elem_of_app; [by auto|].
      unfold specificity_le in *.
      destruct (is_exact x.1), (is_exact y.1); try done;
        rewrite Nat.leb_gt in Hle; apply Nat.leb_le; lia.
  - subst. split; [set_solver|]. intros z ->%list_elem_of_singleton.
    unfold specificity_le. destruct (is_exact x.1); by apply Nat.leb_le.
Qed.

Lemma prefixes_same_length p q s t (u : string) :
  u = p +:+ s → u = q +:+ t → String.length p = String.length q → p = q.
Proof.
  revert q u. induction p as [|a p IH]; intros [|b q] u Hp Hq Hl; simpl in *; try done.
  destruct u as [|c u]; [done|]. injection Hp as -> Hp. injection Hq as -> Hq.
  f_equal. by eapply IH; [exact Hp|exact Hq|lia].
Qed.

Lemma length_app_string a b : String.length (a +:+ b) = String.length a + String.length b.
Proof. induction a; simpl; auto. Qed.

(** Two patterns that match the same uid and are equally specific are equal. *)
Lemma equally_specific p q u :
  matches_str p u = true → matches_str q u = true →
  specificity_le p q = true → specificity_le q p = true → p = q.
Proof.
  intros [[Hp ->]|(p' & s & -> & Hp)]%matches_str_spec
    [[Hq ->]|(q' & t & -> & Hq)]%matches_str_spec H1 H2; [done|..].
  - unfold specificity_le in *. rewrite Hp in *. unfold is_exact, ends_with in *.
    rewrite (proj2 (strip_suffix_spec _ (q' +:+ "*") q') eq_refl) in *. done.
  - unfold specificity_le in *. rewrite Hq in *. unfold is_exact, ends_with in *.
    rewrite (proj2 (strip_suffix_spec _ (p' +:+ "*") p') eq_refl) in *. done.
  - unfold specificity_le, is_exact, ends_with in *.
    rewrite (proj2 (strip_suffix_spec _ (q' +:+ "*") q') eq_refl) in *.
    rewrite (proj2 (strip_suffix_spec _ (p' +:+ "*") p') eq_refl) in *. simpl in *.
    rewrite !length_app_string, !Nat.leb_le in *. f_equal.
    eapply prefixes_same_length; [exact Hp|exact Hq|lia].
Qed.
End rules.

Definition authorized_pattern {Value} (rules : SearchRules Value) (p : IndexUidPattern) : Prop :=
  match rules with RuleSet set => p ∈ set | RuleMap map => p ∈ map.*1 end.

(** An index is authorized when one of the patterns matches it. *)
Lemma rules_authorized_spec {Value} (rules : SearchRules Value) index :
  rules_is_index_authorized rules index = true ↔
  ∃ p, authorized_pattern rules p ∧ matches_str p index = true.
Proof.
  assert (matches_str "*" index = true) as Hstar by by apply matches_all_str.
  destruct rules as [set|map]; simpl;
    rewrite !orb_true_iff, !bool_decide_eq_true, existsb_true.
  - setoid_rewrite elem_of_elements. split; [|by auto].
    intros [[?|?]|?]; [by exists "*"|exists index; split; [done|apply matches_own_pattern]|done].
  - split; [|by auto].
    intros [[?|?]|?]; [by exists "*"|exists index; split; [done|apply matches_own_pattern]|done].
Qed.

(** The rules that apply to an index do not depend on the order in which
    the hash map of a tenant token is iterated: they are those of the exact
    pattern if there is one, else of the longest prefix; an index has no rules
    exactly when its selected entry has none or it is not authorized. *)
Theorem search_rules_order_independent {Value}
    (map map' : list (IndexUidPattern * option (IndexSearchRules Value))) index :
  NoDup map.*1 → map ≡ₚ map' →
  rules_get_index_search_rules (RuleMap map) index =
    rules_get_index_search_rules (RuleMap map') index ∧
  (∀ p rule, (p, rule) ∈ map → matches_str p index = true →
     (∀ q, q ∈ map.*1 → matches_str q index = true → specificity_le q p = true) →
     rules_get_index_search_rules (RuleMap map) index = rule).
Proof.
  intros Hnd Hp.
  assert (∀ m, m ≡ₚ map → ∀ p rule, (p, rule) ∈ m → matches_str p index = true →
     (∀ q, q ∈ m.*1 → matches_str q index = true → specificity_le q p = true) →
     rules_get_index_search_rules (RuleMap m) index = rule) as Hsel.
  { intros m Hm p rule Hin Hmatch Hmax. simpl.
    pose proof (max_by_specificity_spec (List.filter (λ e, matches_str e.1 index) m)) as H.
    destruct (max_by_specificity _) as [[q r]|].
    - destruct H as [[Hq Hqm]%list_elem_of_In%filter_In Hle]. apply list_elem_of_In in Hq.
      simpl in *. assert (p = q) as <-.
      { apply (equally_specific p q index); [done|done| |].
        - apply (Hle (p, rule)). by apply list_elem_of_In, filter_In; rewrite <- list_elem_of_In.
        - apply Hmax; [|done]. apply list_elem_of_fmap. by exists (q, r). }
      rewrite <- Hm in Hnd. by apply (NoDup_fst_inj m p).
    - exfalso. assert ((p, rule) ∈ List.filter (λ e, matches_str e.1 index) m) as Hin'.
      { by apply list_elem_of_In, filter_In; rewrite <- list_elem_of_In. }
      rewrite H in Hin'. by apply not_elem_of_nil in Hin'. }
  split; [|by apply Hsel].
  simpl. pose proof (max_by_specificity_spec (List.filter (λ e, matches_str e.1 index) map)) as H.
  destruct (max_by_specificity (List.filter _ map)) as [[q r]|] eqn:Hm.
  - destruct H as [[Hq Hqm]%list_elem_of_In%filter_In Hle]. apply list_elem_of_In in Hq.
    simpl. symmetry. apply (Hsel map' ltac:(by symmetry) q r); [by rewrite <- Hp|done|].
    intros q' Hq' Hqm'. rewrite <- Hp in Hq'. apply list_elem_of_fmap in Hq' as ([? r'] & -> & Hin).
    apply (Hle (_, r')). by apply list_elem_of_In, filter_In; rewrite <- list_elem_of_In.
  - assert (List.filter (λ e, matches_str e.1 index) map' = []) as ->; [|done].
    apply Permutation_nil. rewrite <- H.
    assert (∀ l l' : list (IndexUidPattern * option (IndexSearchRules Value)), l ≡ₚ l' →
      List.filter (λ e, matches_str e.1 index) l ≡ₚ List.filter (λ e, matches_str e.1 index) l')
      as Hf; [|by apply Hf].
    induction 1; simpl; repeat case_match; eauto using perm_nil, perm_skip, perm_swap, perm_trans.
Qed.

(** ** The policy *)
Section policy_facts.
Context {Value : Type}.
Context (generate_key_as_hexa : Uuid → string → string).
Context (decode_insecure : string → option (@Claims Value)).
Context (decode_signed : string → string → option (@Claims Value)).

(** The token proves that its bearer knows the key [uid]: it is the encoded key,
    or it is signed with it and not expired, and then carries [rules]. *)
Definition proves_key (now : OffsetDateTime) (token mk : string) (action : Action)
    (uid : Uuid) (rules : option (SearchRules Value)) : Prop :=
  (rules = None ∧ token = generate_key_as_hexa uid mk) ∨
  ∃ claims, action = Search ∧
    decode_signed token (generate_key_as_hexa uid mk) = Some claims ∧
    rules = Some (claims_search_rules claims) ∧
    match claims_exp claims with Some exp => (now `div` 1000000000 <= exp)%Z | None => True end.

Lemma encoded_key_sound auth token uid :
  get_optional_uid_from_encoded_key generate_key_as_hexa auth token = Some uid →
  ∃ mk, master_key auth = Some mk ∧ token = generate_key_as_hexa uid mk.
Proof.
  unfold get_optional_uid_from_encoded_key. destruct (master_key auth) as [mk|]; [|done].
  intros H. exists mk. split; [done|].
  apply head_Some_elem_of in H. apply list_elem_of_omap in H as ([k key] & _ & H).
  simpl in H. destruct (try_split_array_at 16 k) as [[u ?]|]; [|done].
  case_decide; by simplify_eq.
Qed.

Lemma tenant_token_sound now A auth token uid rules :
  authenticate_tenant_token generate_key_as_hexa decode_insecure decode_signed
    (now `div` 1000000000)%Z A auth token = Valid uid rules →
  ∃ mk, master_key auth = Some mk ∧ A = repr Search ∧
    proves_key now token mk Search uid (Some rules).
Proof.
  unfold authenticate_tenant_token, generate_key. case_bool_decide; [|done]. simpl.
  destruct (extract_key_id _ _) as [u|]; [|done].
  destruct (master_key auth) as [mk|]; [|done]. simpl.
  destruct (decode_signed _ _) as [claims|] eqn:Hd; [|done].
  destruct (claims_exp claims) as [exp|] eqn:He.
  - destruct (Z.ltb_spec exp (now `div` 1000000000)); [done|]. intros [= -> <-].
    exists mk. split_and!; [done|done|]. right. exists claims. by rewrite He.
  - intros [= -> <-]. exists mk. split_and!; [done|done|]. right. exists claims.
    by rewrite He.
Qed.

(** C16: A request is granted rights only when its token is the master key, or
    there is no master key and the action does not manage keys, or the token
    proves the possession of a stored key that allows the action on the index,
    and then the filter it gets authorizes no index out of reach of that key
    or of the rules of the tenant token. *)
Theorem authenticate_sound now os A auth token index filters :
  Forall valid_op os → store auth = run_ops os empty_store →
  authenticate generate_key_as_hexa decode_insecure decode_signed now A auth token index
    = Some filters →
  (filters = default_auth_filter ∧
     (master_key auth = Some token ∨
      (master_key auth = None ∧ is_keys_action A = false))) ∨
  ∃ mk uid key action, master_key auth = Some mk ∧
    get_api_key uid (store auth) = Some key ∧ from_repr A = Some action ∧
    proves_key now token mk action uid (search_rules filters) ∧
    key_allows now key action index = true ∧
    filter_allow_index_creation filters = key_allows now key IndexesAdd None ∧
    (∀ i, is_index_authorized filters i = true →
       (∃ p, p ∈ indexes key ∧ matches_str p i = true) ∧
       (∀ rules, search_rules filters = Some rules →
          ∃ p, authorized_pattern rules p ∧ matches_str p i = true)).
Proof.
  intros Hos Hst H. pose proof (run_ops_ok _ _ Hos empty_store_ok) as Hok.
  rewrite <- Hst in Hok. unfold authenticate in H.
  destruct (match master_key auth with None => _ | Some mk => _ end) eqn:Hmk.
  - left. simplify_eq. split; [done|]. destruct (master_key auth) as [mk|].
    + apply bool_decide_eq_true in Hmk. left. congruence.
    + right. split; [done|]. by destruct (is_keys_action A).
  - right. apply bind_Some in H as ([uid rules] & Hcred & H).
    apply bind_Some in H as (action & Ha & H).
    assert (∃ mk, master_key auth = Some mk ∧ proves_key now token mk action uid rules)
      as (mk & Hm & Hp).
    { destruct (authenticate_tenant_token _ _ _ _ _ _ _) eqn:Ht; try done.
      - apply bind_Some in Hcred as (uid' & Hu & ?). simplify_eq.
        destruct (encoded_key_sound _ _ _ Hu) as (mk & ? & ?). exists mk. split; [done|]. by left.
      - simplify_eq. destruct (tenant_token_sound _ _ _ _ _ _ Ht) as (mk & ? & -> & Hp).
        rewrite from_repr_repr in Ha. simplify_eq. eauto. }
    unfold get_key_filters, get_key in H.
    destruct (get_api_key uid (store auth)) as [key|] eqn:Hk; [|done]. simpl in H.
    rewrite (authorized_spec _ _ _ Hok Hk) in H. simpl in H.
    rewrite (authorized_spec _ _ _ Hok Hk) in H.
    destruct (_ && _) eqn:Hand in H; [|discriminate H]. apply andb_true_iff in Hand as [Hall _].
    injection H as <-. simpl. exists mk, uid, key, action. split_and!; try done.
    intros i [Hi Hr]%andb_true_iff. simpl in Hi, Hr. split.
    + destruct (proj1 (rules_authorized_spec (Value:=Value) (RuleSet _) _) Hi) as (p & Hin & Hm'). simpl in Hin.
      exists p. split; [|done]. by apply elem_of_list_to_set in Hin.
    + intros r Hr'. simpl in Hr'. subst rules. by apply rules_authorized_spec.
Qed.
End policy_facts.

(** Deleting a key takes away every right on it, whatever was done before;
    clearing the keys only empties the records, and the inverted database still
    grants what they granted. *)
Theorem deleted_key_has_no_rights (now : OffsetDateTime) (os : list store_op)
    (uid : Uuid) (action : Action) (index : option string) :
  Forall valid_op os →
  let s := (delete_api_key uid (run_ops os empty_store)).2 in
  get_api_key uid s = None ∧
  is_key_authorized now s uid action index = Ok false ∧
  (∀ key, get_api_key uid (run_ops os empty_store) = Some key →
     is_key_authorized now (delete_all_keys (run_ops os empty_store)) uid action index
     = Ok (key_allows now key action index)).
Proof.
  intros Hos s. pose proof (run_ops_ok _ _ Hos empty_store_ok) as Hok. split_and!.
  - unfold get_api_key. simpl. by rewrite lookup_delete_eq.
  - assert (∀ k, as_bytes uid `prefix_of` k → action_keyid_index_expiration s !! k = None) as Hn.
    { intros k Hk. simpl. rewrite delete_key_lookup. by rewrite decide_True. }
    assert (∀ a, prefix_iter (action_keyid_index_expiration s) (encode_key uid a None) = [])
      as Hi.
    { intros a. apply elem_of_nil_inv. intros [k v] [Hkv Hp]%elem_of_prefix_iter.
      rewrite Hn in Hkv; [done|]. etransitivity; [|exact Hp]. by apply prefix_app_r. }
    assert (∀ i, get_expiration_date s uid action i = Ok None) as Hg.
    { intros i. unfold get_expiration_date. rewrite Hn by by apply prefix_app_r. by rewrite Hi. }
    unfold is_key_authorized, requested_expiration, prefix_first_expiration_date.
    rewrite Hg, Hi. destruct index; by rewrite ?Hg.
  - intros key Hk. by rewrite <- (authorized_spec _ _ _ Hok Hk).
Qed.

Module Demo.
Definition uid1 : Uuid := vreplicate 16 "a"%char.
Definition movies_key : Key :=
  mkKey None (Some "movies") uid1 [DocumentsAll; Search] ["movies*"; "books"]
    (Some 500%Z) 0%Z 0%Z.
Definition ops : list store_op := [OpPut (default_admin 0%Z (vreplicate 16 "b"%char)); OpPut movies_key].
Definition hexa (uid : Uuid) (mk : string) : string :=
  String.string_of_list_ascii (as_bytes uid) +:+ mk.
Definition no_token (t : string) : option (@Claims unit) := None.
Definition no_signed (t k : string) : option (@Claims unit) := None.
Definition controller : AuthController := mkController (run_ops ops empty_store) (Some "master").

Lemma valid_ops : Forall valid_op ops.
Proof. repeat constructor. Defined.

Lemma is_key_authorized_spec_witness :
  get_api_key uid1 (run_ops ops empty_store) = Some movies_key ∧
  key_allows 100%Z movies_key DocumentsAdd (Some "movies-fr") = true ∧
  is_key_authorized 100%Z (run_ops ops empty_store) uid1 DocumentsAdd (Some "movies-fr")
    = Ok (key_allows 100%Z movies_key DocumentsAdd (Some "movies-fr")).
Proof.
  split; [vm_compute; reflexivity|]. split; [vm_compute; reflexivity|].
  apply (is_key_authorized_spec 100%Z ops uid1 movies_key); [apply valid_ops|].
  vm_compute; reflexivity.
Defined.

Lemma key_id_action_codec_witness :
  decode_key (encode_key uid1 Search (Some (str_bytes "books"))) =
    Some (uid1, Search, Some (str_bytes "books")) ∧
  (encode_key uid1 Search None = encode_key uid1 Search (Some (str_bytes "books")) →
   None = Some (str_bytes "books")).
Proof.
  split; [exact (proj1 (key_id_action_codec uid1 Search (Some (str_bytes "books"))))|].
  intros H. apply (proj1 (proj2 (key_id_action_codec uid1 Search None)) uid1 Search
    (Some (str_bytes "books"))); [discriminate|discriminate|exact H].
Defined.

Lemma search_rules_order_independent_witness :
  rules_get_index_search_rules (Value:=unit)
    (RuleMap [("m*", None); ("movies", Some (mkIndexSearchRules (Some tt)))]) "movies" =
  rules_get_index_search_rules
    (RuleMap [("movies", Some (mkIndexSearchRules (Some tt))); ("m*", None)]) "movies".
Proof.
  refine (proj1 (search_rules_order_independent _ _ _ _ _)).
  - apply (bool_decide_unpack _). vm_compute. exact I.
  - apply perm_swap.
Defined.

Lemma authenticate_sound_witness :
  ∃ filters,
    authenticate hexa no_token no_signed 100%Z (repr Search) controller
      (hexa uid1 "master") (Some "books") = Some filters ∧
    ∃ mk uid key action, master_key controller = Some mk ∧
      get_api_key uid (store controller) = Some key ∧ from_repr (repr Search) = Some action ∧
      proves_key hexa no_signed 100%Z (hexa uid1 "master") mk action uid (search_rules filters).
Proof.
  eexists. split; [vm_compute; reflexivity|].
  assert (H : authenticate hexa no_token no_signed 100%Z (repr Search) controller
     (hexa uid1 "master") (Some "books") = Some (mkAuthFilter None
       (RuleSet (list_to_set ["movies*"; "books"])) false)) by (vm_compute; reflexivity).
  destruct (authenticate_sound hexa no_token no_signed 100%Z ops (repr Search) controller
     (hexa uid1 "master") (Some "books") _ valid_ops eq_refl H) as [[H1 _]|H1].
  - discriminate H1.
  - destruct H1 as (mk & uid & key & action & H1 & H2 & H3 & H4 & _).
    exists mk, uid, key, action. auto.
Defined.

Lemma deleted_key_has_no_rights_witness :
  is_key_authorized 100%Z (delete_api_key uid1 (run_ops ops empty_store)).2 uid1 Search
    (Some "books") = Ok false.
Proof. exact (proj1 (proj2 (deleted_key_has_no_rights 100%Z ops uid1 Search (Some "books") valid_ops))). Defined.
End Demo.
