(* ===== verification/Errors.v ===== *)
(** * Error codes and the scheduler's errors
    (meilisearch-types/src/error.rs, index-scheduler/src/error.rs)

    The table of error codes, the error object of a failed task, and the errors
    of the scheduler with their recoverability and code.  Every constructor of
    [Code] starts with [C_]. *)
From S2P Require Import Prelude.
From stdpp Require Import pretty.

(** ** Codes *)
Inductive ErrorType : Type := TInternal | TInvalidRequest | TAuth | TSystem.

Definition error_type_name (t : ErrorType) : string :=
  match t with
  | TInternal => "internal"
  | TInvalidRequest => "invalid_request"
  | TAuth => "auth"
  | TSystem => "system"
  end.

Inductive Code : Type :=
| C_ApiKeyAlreadyExists
| C_ApiKeyNotFound
| C_BadParameter
| C_BadRequest
| C_DatabaseSizeLimitReached
| C_DocumentNotFound
| C_DumpAlreadyProcessing
| C_DumpNotFound
| C_DumpProcessFailed
| C_DuplicateIndexFound
| C_ImmutableApiKeyActions
| C_ImmutableApiKeyCreatedAt
| C_ImmutableApiKeyExpiresAt
| C_ImmutableApiKeyIndexes
| C_ImmutableApiKeyKey
| C_ImmutableApiKeyUid
| C_ImmutableApiKeyUpdatedAt
| C_ImmutableIndexCreatedAt
| C_ImmutableIndexUid
| C_ImmutableIndexUpdatedAt
| C_IndexAlreadyExists
| C_IndexCreationFailed
| C_IndexNotFound
| C_IndexPrimaryKeyAlreadyExists
| C_IndexPrimaryKeyMultipleCandidatesFound
| C_IndexPrimaryKeyNoCandidateFound
| C_Internal
| C_InvalidApiKey
| C_InvalidApiKeyActions
| C_InvalidApiKeyDescription
| C_InvalidApiKeyExpiresAt
| C_InvalidApiKeyIndexes
| C_InvalidApiKeyLimit
| C_InvalidApiKeyName
| C_InvalidApiKeyOffset
| C_InvalidApiKeyUid
| C_InvalidContentType
| C_InvalidDocumentCsvDelimiter
| C_InvalidDocumentFields
| C_MissingDocumentFilter
| C_InvalidDocumentFilter
| C_InvalidDocumentGeoField
| C_InvalidVectorDimensions
| C_InvalidVectorsType
| C_InvalidDocumentId
| C_InvalidDocumentLimit
| C_InvalidDocumentOffset
| C_InvalidIndexLimit
| C_InvalidIndexOffset
| C_InvalidIndexPrimaryKey
| C_InvalidIndexUid
| C_InvalidSearchAttributesToSearchOn
| C_InvalidSearchAttributesToCrop
| C_InvalidSearchAttributesToHighlight
| C_InvalidSearchAttributesToRetrieve
| C_InvalidSearchCropLength
| C_InvalidSearchCropMarker
| C_InvalidSearchFacets
| C_InvalidFacetSearchFacetName
| C_InvalidSearchFilter
| C_InvalidSearchHighlightPostTag
| C_InvalidSearchHighlightPreTag
| C_InvalidSearchHitsPerPage
| C_InvalidSearchLimit
| C_InvalidSearchMatchingStrategy
| C_InvalidSearchOffset
| C_InvalidSearchPage
| C_InvalidSearchQ
| C_InvalidFacetSearchQuery
| C_InvalidFacetSearchName
| C_InvalidSearchVector
| C_InvalidSearchShowMatchesPosition
| C_InvalidSearchShowRankingScore
| C_InvalidSearchShowRankingScoreDetails
| C_InvalidSearchSort
| C_InvalidSettingsDisplayedAttributes
| C_InvalidSettingsDistinctAttribute
| C_InvalidSettingsFaceting
| C_InvalidSettingsFilterableAttributes
| C_InvalidSettingsPagination
| C_InvalidSettingsRankingRules
| C_InvalidSettingsSearchableAttributes
| C_InvalidSettingsSortableAttributes
| C_InvalidSettingsStopWords
| C_InvalidSettingsSynonyms
| C_InvalidSettingsTypoTolerance
| C_InvalidState
| C_InvalidStoreFile
| C_InvalidSwapDuplicateIndexFound
| C_InvalidSwapIndexes
| C_InvalidTaskAfterEnqueuedAt
| C_InvalidTaskAfterFinishedAt
| C_InvalidTaskAfterStartedAt
| C_InvalidTaskBeforeEnqueuedAt
| C_InvalidTaskBeforeFinishedAt
| C_InvalidTaskBeforeStartedAt
| C_InvalidTaskCanceledBy
| C_InvalidTaskFrom
| C_InvalidTaskLimit
| C_InvalidTaskStatuses
| C_InvalidTaskTypes
| C_InvalidTaskUids
| C_IoError
| C_FeatureNotEnabled
| C_MalformedPayload
| C_MaxFieldsLimitExceeded
| C_MissingApiKeyActions
| C_MissingApiKeyExpiresAt
| C_MissingApiKeyIndexes
| C_MissingAuthorizationHeader
| C_MissingContentType
| C_MissingDocumentId
| C_MissingFacetSearchFacetName
| C_MissingIndexUid
| C_MissingMasterKey
| C_MissingPayload
| C_MissingSwapIndexes
| C_MissingTaskFilters
| C_NoSpaceLeftOnDevice
| C_PayloadTooLarge
| C_TaskNotFound
| C_TooManyOpenFiles
| C_UnretrievableDocument
| C_UnretrievableErrorCode
| C_UnsupportedMediaType.

#[export] Instance code_eq_dec : EqDecision Code.
Proof. solve_decision. Defined.

(** One line of the table: the identifier, its type and its HTTP status. *)
Definition code_row (c : Code) : string * ErrorType * N :=
  match c with
  | C_ApiKeyAlreadyExists => ("ApiKeyAlreadyExists", TInvalidRequest, 409%N)
  | C_ApiKeyNotFound => ("ApiKeyNotFound", TInvalidRequest, 404%N)
  | C_BadParameter => ("BadParameter", TInvalidRequest, 400%N)
  | C_BadRequest => ("BadRequest", TInvalidRequest, 400%N)
  | C_DatabaseSizeLimitReached => ("DatabaseSizeLimitReached", TInternal, 500%N)
  | C_DocumentNotFound => ("DocumentNotFound", TInvalidRequest, 404%N)
  | C_DumpAlreadyProcessing => ("DumpAlreadyProcessing", TInvalidRequest, 409%N)
  | C_DumpNotFound => ("DumpNotFound", TInvalidRequest, 404%N)
  | C_DumpProcessFailed => ("DumpProcessFailed", TInternal, 500%N)
  | C_DuplicateIndexFound => ("DuplicateIndexFound", TInvalidRequest, 400%N)
  | C_ImmutableApiKeyActions => ("ImmutableApiKeyActions", TInvalidRequest, 400%N)
  | C_ImmutableApiKeyCreatedAt => ("ImmutableApiKeyCreatedAt", TInvalidRequest, 400%N)
  | C_ImmutableApiKeyExpiresAt => ("ImmutableApiKeyExpiresAt", TInvalidRequest, 400%N)
  | C_ImmutableApiKeyIndexes => ("ImmutableApiKeyIndexes", TInvalidRequest, 400%N)
  | C_ImmutableApiKeyKey => ("ImmutableApiKeyKey", TInvalidRequest, 400%N)
  | C_ImmutableApiKeyUid => ("ImmutableApiKeyUid", TInvalidRequest, 400%N)
  | C_ImmutableApiKeyUpdatedAt => ("ImmutableApiKeyUpdatedAt", TInvalidRequest, 400%N)
  | C_ImmutableIndexCreatedAt => ("ImmutableIndexCreatedAt", TInvalidRequest, 400%N)
  | C_ImmutableIndexUid => ("ImmutableIndexUid", TInvalidRequest, 400%N)
  | C_ImmutableIndexUpdatedAt => ("ImmutableIndexUpdatedAt", TInvalidRequest, 400%N)
  | C_IndexAlreadyExists => ("IndexAlreadyExists", TInvalidRequest, 409%N)
  | C_IndexCreationFailed => ("IndexCreationFailed", TInternal, 500%N)
  | C_IndexNotFound => ("IndexNotFound", TInvalidRequest, 404%N)
  | C_IndexPrimaryKeyAlreadyExists => ("IndexPrimaryKeyAlreadyExists", TInvalidRequest, 400%N)
  | C_IndexPrimaryKeyMultipleCandidatesFound => ("IndexPrimaryKeyMultipleCandidatesFound", TInvalidRequest, 400%N)
  | C_IndexPrimaryKeyNoCandidateFound => ("IndexPrimaryKeyNoCandidateFound", TInvalidRequest, 400%N)
  | C_Internal => ("Internal", TInternal, 500%N)
  | C_InvalidApiKey => ("InvalidApiKey", TAuth, 403%N)
  | C_InvalidApiKeyActions => ("InvalidApiKeyActions", TInvalidRequest, 400%N)
  | C_InvalidApiKeyDescription => ("InvalidApiKeyDescription", TInvalidRequest, 400%N)
  | C_InvalidApiKeyExpiresAt => ("InvalidApiKeyExpiresAt", TInvalidRequest, 400%N)
  | C_InvalidApiKeyIndexes => ("InvalidApiKeyIndexes", TInvalidRequest, 400%N)
  | C_InvalidApiKeyLimit => ("InvalidApiKeyLimit", TInvalidRequest, 400%N)
  | C_InvalidApiKeyName => ("InvalidApiKeyName", TInvalidRequest, 400%N)
  | C_InvalidApiKeyOffset => ("InvalidApiKeyOffset", TInvalidRequest, 400%N)
  | C_InvalidApiKeyUid => ("InvalidApiKeyUid", TInvalidRequest, 400%N)
  | C_InvalidContentType => ("InvalidContentType", TInvalidRequest, 415%N)
  | C_InvalidDocumentCsvDelimiter => ("InvalidDocumentCsvDelimiter", TInvalidRequest, 400%N)
  | C_InvalidDocumentFields => ("InvalidDocumentFields", TInvalidRequest, 400%N)
  | C_MissingDocumentFilter => ("MissingDocumentFilter", TInvalidRequest, 400%N)
  | C_InvalidDocumentFilter => ("InvalidDocumentFilter", TInvalidRequest, 400%N)
  | C_InvalidDocumentGeoField => ("InvalidDocumentGeoField", TInvalidRequest, 400%N)
  | C_InvalidVectorDimensions => ("InvalidVectorDimensions", TInvalidRequest, 400%N)
  | C_InvalidVectorsType => ("InvalidVectorsType", TInvalidRequest, 400%N)
  | C_InvalidDocumentId => ("InvalidDocumentId", TInvalidRequest, 400%N)
  | C_InvalidDocumentLimit => ("InvalidDocumentLimit", TInvalidRequest, 400%N)
  | C_InvalidDocumentOffset => ("InvalidDocumentOffset", TInvalidRequest, 400%N)
  | C_InvalidIndexLimit => ("InvalidIndexLimit", TInvalidRequest, 400%N)
  | C_InvalidIndexOffset => ("InvalidIndexOffset", TInvalidRequest, 400%N)
  | C_InvalidIndexPrimaryKey => ("InvalidIndexPrimaryKey", TInvalidRequest, 400%N)
  | C_InvalidIndexUid => ("InvalidIndexUid", TInvalidRequest, 400%N)
  | C_InvalidSearchAttributesToSearchOn => ("InvalidSearchAttributesToSearchOn", TInvalidRequest, 400%N)
  | C_InvalidSearchAttributesToCrop => ("InvalidSearchAttributesToCrop", TInvalidRequest, 400%N)
  | C_InvalidSearchAttributesToHighlight => ("InvalidSearchAttributesToHighlight", TInvalidRequest, 400%N)
  | C_InvalidSearchAttributesToRetrieve => ("InvalidSearchAttributesToRetrieve", TInvalidRequest, 400%N)
  | C_InvalidSearchCropLength => ("InvalidSearchCropLength", TInvalidRequest, 400%N)
  | C_InvalidSearchCropMarker => ("InvalidSearchCropMarker", TInvalidRequest, 400%N)
  | C_InvalidSearchFacets => ("InvalidSearchFacets", TInvalidRequest, 400%N)
  | C_InvalidFacetSearchFacetName => ("InvalidFacetSearchFacetName", TInvalidRequest, 400%N)
  | C_InvalidSearchFilter => ("InvalidSearchFilter", TInvalidRequest, 400%N)
  | C_InvalidSearchHighlightPostTag => ("InvalidSearchHighlightPostTag", TInvalidRequest, 400%N)
  | C_InvalidSearchHighlightPreTag => ("InvalidSearchHighlightPreTag", TInvalidRequest, 400%N)
  | C_InvalidSearchHitsPerPage => ("InvalidSearchHitsPerPage", TInvalidRequest, 400%N)
  | C_InvalidSearchLimit => ("InvalidSearchLimit", TInvalidRequest, 400%N)
  | C_InvalidSearchMatchingStrategy => ("InvalidSearchMatchingStrategy", TInvalidRequest, 400%N)
  | C_InvalidSearchOffset => ("InvalidSearchOffset", TInvalidRequest, 400%N)
  | C_InvalidSearchPage => ("InvalidSearchPage", TInvalidRequest, 400%N)
  | C_InvalidSearchQ => ("InvalidSearchQ", TInvalidRequest, 400%N)
  | C_InvalidFacetSearchQuery => ("InvalidFacetSearchQuery", TInvalidRequest, 400%N)
  | C_InvalidFacetSearchName => ("InvalidFacetSearchName", TInvalidRequest, 400%N)
  | C_InvalidSearchVector => ("InvalidSearchVector", TInvalidRequest, 400%N)
  | C_InvalidSearchShowMatchesPosition => ("InvalidSearchShowMatchesPosition", TInvalidRequest, 400%N)
  | C_InvalidSearchShowRankingScore => ("InvalidSearchShowRankingScore", TInvalidRequest, 400%N)
  | C_InvalidSearchShowRankingScoreDetails => ("InvalidSearchShowRankingScoreDetails", TInvalidRequest, 400%N)
  | C_InvalidSearchSort => ("InvalidSearchSort", TInvalidRequest, 400%N)
  | C_InvalidSettingsDisplayedAttributes => ("InvalidSettingsDisplayedAttributes", TInvalidRequest, 400%N)
  | C_InvalidSettingsDistinctAttribute => ("InvalidSettingsDistinctAttribute", TInvalidRequest, 400%N)
  | C_InvalidSettingsFaceting => ("InvalidSettingsFaceting", TInvalidRequest, 400%N)
  | C_InvalidSettingsFilterableAttributes => ("InvalidSettingsFilterableAttributes", TInvalidRequest, 400%N)
  | C_InvalidSettingsPagination => ("InvalidSettingsPagination", TInvalidRequest, 400%N)
  | C_InvalidSettingsRankingRules => ("InvalidSettingsRankingRules", TInvalidRequest, 400%N)
  | C_InvalidSettingsSearchableAttributes => ("InvalidSettingsSearchableAttributes", TInvalidRequest, 400%N)
  | C_InvalidSettingsSortableAttributes => ("InvalidSettingsSortableAttributes", TInvalidRequest, 400%N)
  | C_InvalidSettingsStopWords => ("InvalidSettingsStopWords", TInvalidRequest, 400%N)
  | C_InvalidSettingsSynonyms => ("InvalidSettingsSynonyms", TInvalidRequest, 400%N)
  | C_InvalidSettingsTypoTolerance => ("InvalidSettingsTypoTolerance", TInvalidRequest, 400%N)
  | C_InvalidState => ("InvalidState", TInternal, 500%N)
  | C_InvalidStoreFile => ("InvalidStoreFile", TInternal, 500%N)
  | C_InvalidSwapDuplicateIndexFound => ("InvalidSwapDuplicateIndexFound", TInvalidRequest, 400%N)
  | C_InvalidSwapIndexes => ("InvalidSwapIndexes", TInvalidRequest, 400%N)
  | C_InvalidTaskAfterEnqueuedAt => ("InvalidTaskAfterEnqueuedAt", TInvalidRequest, 400%N)
  | C_InvalidTaskAfterFinishedAt => ("InvalidTaskAfterFinishedAt", TInvalidRequest, 400%N)
  | C_InvalidTaskAfterStartedAt => ("InvalidTaskAfterStartedAt", TInvalidRequest, 400%N)
  | C_InvalidTaskBeforeEnqueuedAt => ("InvalidTaskBeforeEnqueuedAt", TInvalidRequest, 400%N)
  | C_InvalidTaskBeforeFinishedAt => ("InvalidTaskBeforeFinishedAt", TInvalidRequest, 400%N)
  | C_InvalidTaskBeforeStartedAt => ("InvalidTaskBeforeStartedAt", TInvalidRequest, 400%N)
  | C_InvalidTaskCanceledBy => ("InvalidTaskCanceledBy", TInvalidRequest, 400%N)
  | C_InvalidTaskFrom => ("InvalidTaskFrom", TInvalidRequest, 400%N)
  | C_InvalidTaskLimit => ("InvalidTaskLimit", TInvalidRequest, 400%N)
  | C_InvalidTaskStatuses => ("InvalidTaskStatuses", TInvalidRequest, 400%N)
  | C_InvalidTaskTypes => ("InvalidTaskTypes", TInvalidRequest, 400%N)
  | C_InvalidTaskUids => ("InvalidTaskUids", TInvalidRequest, 400%N)
  | C_IoError => ("IoError", TSystem, 422%N)
  | C_FeatureNotEnabled => ("FeatureNotEnabled", TInvalidRequest, 400%N)
  | C_MalformedPayload => ("MalformedPayload", TInvalidRequest, 400%N)
  | C_MaxFieldsLimitExceeded => ("MaxFieldsLimitExceeded", TInvalidRequest, 400%N)
  | C_MissingApiKeyActions => ("MissingApiKeyActions", TInvalidRequest, 400%N)
  | C_MissingApiKeyExpiresAt => ("MissingApiKeyExpiresAt", TInvalidRequest, 400%N)
  | C_MissingApiKeyIndexes => ("MissingApiKeyIndexes", TInvalidRequest, 400%N)
  | C_MissingAuthorizationHeader => ("MissingAuthorizationHeader", TAuth, 401%N)
  | C_MissingContentType => ("MissingContentType", TInvalidRequest, 415%N)
  | C_MissingDocumentId => ("MissingDocumentId", TInvalidRequest, 400%N)
  | C_MissingFacetSearchFacetName => ("MissingFacetSearchFacetName", TInvalidRequest, 400%N)
  | C_MissingIndexUid => ("MissingIndexUid", TInvalidRequest, 400%N)
  | C_MissingMasterKey => ("MissingMasterKey", TAuth, 401%N)
  | C_MissingPayload => ("MissingPayload", TInvalidRequest, 400%N)
  | C_MissingSwapIndexes => ("MissingSwapIndexes", TInvalidRequest, 400%N)
  | C_MissingTaskFilters => ("MissingTaskFilters", TInvalidRequest, 400%N)
  | C_NoSpaceLeftOnDevice => ("NoSpaceLeftOnDevice", TSystem, 422%N)
  | C_PayloadTooLarge => ("PayloadTooLarge", TInvalidRequest, 413%N)
  | C_TaskNotFound => ("TaskNotFound", TInvalidRequest, 404%N)
  | C_TooManyOpenFiles => ("TooManyOpenFiles", TSystem, 422%N)
  | C_UnretrievableDocument => ("UnretrievableDocument", TInternal, 400%N)
  | C_UnretrievableErrorCode => ("UnretrievableErrorCode", TInvalidRequest, 400%N)
  | C_UnsupportedMediaType => ("UnsupportedMediaType", TInvalidRequest, 415%N)
  end.

Definition http (c : Code) : N := (code_row c).2.

Definition type_ (c : Code) : string := error_type_name (code_row c).1.2.

(** Foreign code: the conversion of an identifier to snake case. *)
Class CaseConversion := to_snake_case : string → string.

Definition code_name `{CaseConversion} (c : Code) : string := to_snake_case (code_row c).1.1.

Definition code_url `{CaseConversion} (c : Code) : string :=
  "https://docs.meilisearch.com/errors#" +:+ code_name c.

Record ResponseError := mkResponseError {
  response_code : N;
  response_message : string;
  response_error_code : string;
  response_error_type : string;
  response_error_link : string
}.

#[export] Instance response_error_eq_dec : EqDecision ResponseError.
Proof. solve_decision. Defined.

Definition from_msg `{CaseConversion} (message : string) (code : Code) : ResponseError :=
  let message :=
    if decide (code = C_IoError)
    then message +:+ ". This error generally happens when you have no space left on device or when your database doesn't have read or write right."
    else message in
  mkResponseError (http code) message (code_name code) (type_ code) (code_url code).

(** ** The errors of the scheduler *)
Inductive DateField : Type :=
| BeforeEnqueuedAt | AfterEnqueuedAt | BeforeStartedAt
| AfterStartedAt | BeforeFinishedAt | AfterFinishedAt.

#[export] Instance date_field_eq_dec : EqDecision DateField.
Proof. solve_decision. Defined.

Definition date_field_to_string (f : DateField) : string :=
  match f with
  | BeforeEnqueuedAt => "beforeEnqueuedAt"
  | AfterEnqueuedAt => "afterEnqueuedAt"
  | BeforeStartedAt => "beforeStartedAt"
  | AfterStartedAt => "afterStartedAt"
  | BeforeFinishedAt => "beforeFinishedAt"
  | AfterFinishedAt => "afterFinishedAt"
  end.

Definition code_of_date_field (date : DateField) : Code :=
  match date with
  | BeforeEnqueuedAt => C_InvalidTaskBeforeEnqueuedAt
  | AfterEnqueuedAt => C_InvalidTaskAfterEnqueuedAt
  | BeforeStartedAt => C_InvalidTaskBeforeStartedAt
  | AfterStartedAt => C_InvalidTaskAfterStartedAt
  | BeforeFinishedAt => C_InvalidTaskBeforeFinishedAt
  | AfterFinishedAt => C_InvalidTaskAfterFinishedAt
  end.

(** An error of another crate, through its two traits: [Display] and
    [ErrorCode]. *)
Record Foreign := mkForeign { foreign_message : string; foreign_code : Code }.

#[export] Instance foreign_eq_dec : EqDecision Foreign.
Proof. solve_decision. Defined.

Record FeatureNotEnabledError := mkFeatureNotEnabled {
  disabled_action : string;
  feature : string;
  issue_link : string
}.

#[export] Instance feature_not_enabled_eq_dec : EqDecision FeatureNotEnabledError.
Proof. solve_decision. Defined.

Inductive Error : Type :=
| WithCustomErrorCode (code : Code) (e : Error)
| IndexNotFound (uid : string)
| IndexAlreadyExists (uid : string)
| SwapDuplicateIndexFound (uid : string)
| SwapDuplicateIndexesFound (uids : list string)
| SwapIndexNotFound (uid : string)
| NoSpaceLeftInTaskQueue
| SwapIndexesNotFound (uids : list string)
| CorruptedDump
| InvalidTaskDate (field : DateField) (date : string)
| InvalidTaskUids (task_uid : string)
| InvalidTaskStatuses (status : string)
| InvalidTaskTypes (type_ : string)
| InvalidTaskCanceledBy (canceled_by : string)
| InvalidIndexUid (index_uid : string)
| TaskNotFound (uid : N)
| TaskDeletionWithEmptyQuery
| TaskCancelationWithEmptyQuery
| Dump (e : Foreign)
| Heed (e : Foreign)
| Milli (e : Foreign)
| ProcessBatchPanicked
| FileStore (e : Foreign)
| IoError (e : Foreign)
| Persist (e : Foreign)
| FeatureNotEnabled (e : FeatureNotEnabledError)
| Anyhow (message : string)
| CreateBatch (e : Error)
| CorruptedTaskQueue
| TaskDatabaseUpdate (e : Error)
| HeedTransaction (e : Foreign).

#[export] Instance error_eq_dec : EqDecision Error.
Proof. solve_decision. Defined.

Definition is_recoverable (e : Error) : bool :=
  match e with
  | IndexNotFound _ | WithCustomErrorCode _ _ | IndexAlreadyExists _
  | SwapDuplicateIndexFound _ | SwapDuplicateIndexesFound _ | SwapIndexNotFound _
  | NoSpaceLeftInTaskQueue | SwapIndexesNotFound _ | CorruptedDump
  | InvalidTaskDate _ _ | InvalidTaskUids _ | InvalidTaskStatuses _
  | InvalidTaskTypes _ | InvalidTaskCanceledBy _ | InvalidIndexUid _
  | TaskNotFound _ | TaskDeletionWithEmptyQuery | TaskCancelationWithEmptyQuery
  | Dump _ | Heed _ | Milli _ | ProcessBatchPanicked | FileStore _ | IoError _
  | Persist _ | FeatureNotEnabled _ | Anyhow _ => true
  | CreateBatch _ | CorruptedTaskQueue | TaskDatabaseUpdate _ | HeedTransaction _ => false
  end.

Definition with_custom_error_code (self : Error) (code : Code) : Error :=
  WithCustomErrorCode code self.

Definition error_code (e : Error) : Code :=
  match e with
  | WithCustomErrorCode code _ => code
  | IndexNotFound _ => C_IndexNotFound
  | IndexAlreadyExists _ => C_IndexAlreadyExists
  | SwapDuplicateIndexesFound _ => C_InvalidSwapDuplicateIndexFound
  | SwapDuplicateIndexFound _ => C_InvalidSwapDuplicateIndexFound
  | SwapIndexNotFound _ => C_IndexNotFound
  | SwapIndexesNotFound _ => C_IndexNotFound
  | InvalidTaskDate field _ => code_of_date_field field
  | InvalidTaskUids _ => C_InvalidTaskUids
  | InvalidTaskStatuses _ => C_InvalidTaskStatuses
  | InvalidTaskTypes _ => C_InvalidTaskTypes
  | InvalidTaskCanceledBy _ => C_InvalidTaskCanceledBy
  | InvalidIndexUid _ => C_InvalidIndexUid
  | TaskNotFound _ => C_TaskNotFound
  | TaskDeletionWithEmptyQuery => C_MissingTaskFilters
  | TaskCancelationWithEmptyQuery => C_MissingTaskFilters
  | NoSpaceLeftInTaskQueue => C_NoSpaceLeftOnDevice
  | Dump e => foreign_code e
  | Milli e => foreign_code e
  | ProcessBatchPanicked => C_Internal
  | Heed e => foreign_code e
  | HeedTransaction e => foreign_code e
  | FileStore e => foreign_code e
  | IoError e => foreign_code e
  | Persist e => foreign_code e
  | FeatureNotEnabled _ => C_FeatureNotEnabled
  | Anyhow _ => C_Internal
  | CorruptedTaskQueue => C_Internal
  | CorruptedDump => C_Internal
  | TaskDatabaseUpdate _ => C_Internal
  | CreateBatch _ => C_Internal
  end.

(** [.iter().map(|s| format!("`{}`", s)).collect().join(", ")]. *)
Definition quote (s : string) : string := "`" +:+ s +:+ "`".

Fixpoint quoted_list (l : list string) : string :=
  match l with
  | [] => ""
  | [s] => quote s
  | s :: l' => quote s +:+ ", " +:+ quoted_list l'
  end.

Definition available_statuses : list string :=
  ["enqueued"; "processing"; "succeeded"; "failed"; "canceled"].
Definition available_types : list string :=
  ["documentAdditionOrUpdate"; "documentDeletion"; "settingsUpdate"; "indexCreation";
   "indexDeletion"; "indexUpdate"; "indexSwap"; "taskCancelation"; "taskDeletion";
   "dumpCreation"; "snapshotCreation"].

Definition query_parameters : string :=
  "Available query parameters are: `uids`, `indexUids`, `statuses`, `types`, `canceledBy`, `beforeEnqueuedAt`, `afterEnqueuedAt`, `beforeStartedAt`, `afterStartedAt`, `beforeFinishedAt`, `afterFinishedAt`.".

(** The [Display] that the [thiserror] attributes derive. *)
Fixpoint error_to_string (e : Error) : string :=
  match e with
  | WithCustomErrorCode _ e => error_to_string e
  | IndexNotFound uid => "Index " +:+ quote uid +:+ " not found."
  | IndexAlreadyExists uid => "Index " +:+ quote uid +:+ " already exists."
  | SwapDuplicateIndexFound uid =>
      "Indexes must be declared only once during a swap. " +:+ quote uid +:+ " was specified several times."
  | SwapDuplicateIndexesFound uids =>
      "Indexes must be declared only once during a swap. " +:+ quoted_list uids +:+ " were specified several times."
  | SwapIndexNotFound uid => "Index " +:+ quote uid +:+ " not found."
  | NoSpaceLeftInTaskQueue =>
      "Meilisearch cannot receive write operations because the limit of the task database has been reached. Please delete tasks to continue performing write operations."
  | SwapIndexesNotFound uids => "Indexes " +:+ quoted_list uids +:+ " not found."
  | CorruptedDump => "Corrupted dump."
  | InvalidTaskDate field date =>
      "Task " +:+ quote (date_field_to_string field) +:+ " " +:+ quote date +:+ " is invalid. It should follow the YYYY-MM-DD or RFC 3339 date-time format."
  | InvalidTaskUids task_uid =>
      "Task uid " +:+ quote task_uid +:+ " is invalid. It should only contain numeric characters."
  | InvalidTaskStatuses status =>
      "Task status " +:+ quote status +:+ " is invalid. Available task statuses are " +:+ quoted_list available_statuses +:+ "."
  | InvalidTaskTypes type_ =>
      "Task type " +:+ quote type_ +:+ " is invalid. Available task types are " +:+ quoted_list available_types
  | InvalidTaskCanceledBy canceled_by =>
      "Task canceledBy " +:+ quote canceled_by +:+ " is invalid. It should only contains numeric characters separated by `,` character."
  | InvalidIndexUid index_uid =>
      index_uid +:+ " is not a valid index uid. Index uid can be an integer or a string containing only alphanumeric characters, hyphens (-) and underscores (_)."
  | TaskNotFound uid => "Task " +:+ quote (pretty uid) +:+ " not found."
  | TaskDeletionWithEmptyQuery =>
      "Query parameters to filter the tasks to delete are missing. " +:+ query_parameters
  | TaskCancelationWithEmptyQuery =>
      "Query parameters to filter the tasks to cancel are missing. " +:+ query_parameters
  | Dump e | Heed e | Milli e | FileStore e | IoError e | Persist e
  | HeedTransaction e => foreign_message e
  | ProcessBatchPanicked => "An unexpected crash occurred when processing the task."
  | FeatureNotEnabled e =>
      disabled_action e +:+ " requires enabling the " +:+ quote (feature e) +:+ " experimental feature. See " +:+ issue_link e
  | Anyhow message => message
  | CreateBatch e => error_to_string e
  | CorruptedTaskQueue => "Corrupted task queue."
  | TaskDatabaseUpdate e => error_to_string e
  end.

(** [ResponseError::from], the error that a failed task keeps. *)
Definition response_error_of `{CaseConversion} (other : Error) : ResponseError :=
  from_msg (error_to_string other) (error_code other).

(** The HTTP status of a code agrees with its type: requests and
    credentials at fault give a 4xx status, the system 422, and internal errors
    500 except an unretrievable document; an error that stops the scheduler is
    reported as internal unless the storage gave it its code, and wrapping an
    error in a custom code changes the code and neither its text nor makes it
    unrecoverable. *)
Theorem error_codes_agree (c : Code) (e : Error) :
  match (code_row c).1.2 with
  | TInvalidRequest | TAuth => (400 <= http c < 500)%N
  | TSystem => http c = 422%N
  | TInternal => http c = 500%N ∨ (c = C_UnretrievableDocument ∧ http c = 400%N)
  end ∧
  (is_recoverable e = false →
     error_code e = C_Internal ∨ ∃ f, e = HeedTransaction f ∧ error_code e = foreign_code f) ∧
  error_code (with_custom_error_code e c) = c ∧
  error_to_string (with_custom_error_code e c) = error_to_string e ∧
  is_recoverable (with_custom_error_code e c) = true.
Proof.
  split_and!; [| |done..].
  - destruct c; vm_compute; first [split; congruence|reflexivity|by left|by right].
  - destruct e; simpl; try done; eauto.
Qed.

Module Demo.
Lemma error_codes_agree_witness :
  http C_IoError = 422%N ∧ error_code (CreateBatch CorruptedTaskQueue) = C_Internal.
Proof.
  split.
  - exact (proj1 (error_codes_agree C_IoError CorruptedTaskQueue)).
  - destruct (proj1 (proj2 (error_codes_agree C_IoError (CreateBatch CorruptedTaskQueue))) eq_refl)
      as [H|[f [H _]]]; [exact H|discriminate H].
Defined.
End Demo.
