(* ===== verification/Tasks.v ===== *)
(** * Tasks (meilisearch-types/src/tasks.rs)

    The data of a task and the functions on it.  The constructors of [Kind]
    start with [K], those of [Details] with [D]; a JSON value comes from another
    crate and is seen through its text. *)
From S2P Require Import Prelude Settings Keys Errors.
From stdpp Require Import pretty.
From Stdlib Require Import Ascii.

Definition TaskId : Type := N.

(** [serde_json::Value], the expression of a filter. *)
Class JsonValue := {
  Value : Type;
  value_eq_dec :: EqDecision Value;
  value_to_string : Value → string
}.

Inductive IndexDocumentsMethod : Type := ReplaceDocuments | UpdateDocuments.

#[export] Instance method_eq_dec : EqDecision IndexDocumentsMethod.
Proof. solve_decision. Defined.

(** The two indexes of a swap. *)
Record IndexSwap := mkIndexSwap { swap_indexes : string * string }.

#[export] Instance index_swap_eq_dec : EqDecision IndexSwap.
Proof. solve_decision. Defined.

(** ** Status *)
Inductive Status : Type := Enqueued | Processing | Succeeded | Failed | Canceled.

#[export] Instance status_eq_dec : EqDecision Status.
Proof. solve_decision. Defined.

#[export] Instance status_countable : Countable Status.
Proof.
  apply (inj_countable'
    (λ s, match s with Enqueued => 0 | Processing => 1 | Succeeded => 2
          | Failed => 3 | Canceled => 4 end)
    (λ n, match n with 0 => Enqueued | 1 => Processing | 2 => Succeeded
          | 3 => Failed | _ => Canceled end)). by intros [].
Defined.

Definition all_statuses : list Status := [Enqueued; Processing; Succeeded; Failed; Canceled].

Definition status_to_string (s : Status) : string :=
  match s with
  | Enqueued => "enqueued"
  | Processing => "processing"
  | Succeeded => "succeeded"
  | Failed => "failed"
  | Canceled => "canceled"
  end.

(** [u8::to_ascii_lowercase] and [str::eq_ignore_ascii_case]. *)
Definition to_ascii_lowercase (c : ascii) : ascii :=
  let n := N_of_ascii c in
  if ((65 <=? n) && (n <=? 90))%N then ascii_of_N (n + 32) else c.

Fixpoint lowercase (s : string) : string :=
  match s with
  | EmptyString => EmptyString
  | String c s' => String (to_ascii_lowercase c) (lowercase s')
  end.

Definition eq_ignore_ascii_case (a b : string) : bool :=
  bool_decide (lowercase a = lowercase b).

Definition status_from_str (status : string) : outcome string Status :=
  if eq_ignore_ascii_case status "enqueued" then Ok Enqueued
  else if eq_ignore_ascii_case status "processing" then Ok Processing
  else if eq_ignore_ascii_case status "succeeded" then Ok Succeeded
  else if eq_ignore_ascii_case status "failed" then Ok Failed
  else if eq_ignore_ascii_case status "canceled" then Ok Canceled
  else Err status.

(** ** Kind *)
Inductive Kind : Type :=
| KDocumentAdditionOrUpdate
| KDocumentDeletion
| KSettingsUpdate
| KIndexCreation
| KIndexDeletion
| KIndexUpdate
| KIndexSwap
| KTaskCancelation
| KTaskDeletion
| KDumpCreation
| KSnapshotCreation.

#[export] Instance kind_eq_dec : EqDecision Kind.
Proof. solve_decision. Defined.

Definition kind_index (k : Kind) : nat :=
  match k with
  | KDocumentAdditionOrUpdate => 0 | KDocumentDeletion => 1 | KSettingsUpdate => 2 | KIndexCreation => 3 | KIndexDeletion => 4 | KIndexUpdate => 5 | KIndexSwap => 6 | KTaskCancelation => 7 | KTaskDeletion => 8 | KDumpCreation => 9 | KSnapshotCreation => 10
  end.

Definition all_kinds : list Kind :=
  [KDocumentAdditionOrUpdate; KDocumentDeletion; KSettingsUpdate; KIndexCreation; KIndexDeletion; KIndexUpdate; KIndexSwap; KTaskCancelation; KTaskDeletion; KDumpCreation; KSnapshotCreation].

#[export] Instance kind_countable : Countable Kind.
Proof.
  apply (inj_countable' kind_index
    (λ n, nth n all_kinds KSnapshotCreation)). by intros [].
Defined.

Definition related_to_one_index (k : Kind) : bool :=
  match k with
  | KDocumentAdditionOrUpdate | KDocumentDeletion | KSettingsUpdate
  | KIndexCreation | KIndexDeletion | KIndexUpdate => true
  | KIndexSwap | KTaskCancelation | KTaskDeletion | KDumpCreation
  | KSnapshotCreation => false
  end.

Definition kind_to_string (k : Kind) : string :=
  match k with
  | KDocumentAdditionOrUpdate => "documentAdditionOrUpdate"
  | KDocumentDeletion => "documentDeletion"
  | KSettingsUpdate => "settingsUpdate"
  | KIndexCreation => "indexCreation"
  | KIndexDeletion => "indexDeletion"
  | KIndexUpdate => "indexUpdate"
  | KIndexSwap => "indexSwap"
  | KTaskCancelation => "taskCancelation"
  | KTaskDeletion => "taskDeletion"
  | KDumpCreation => "dumpCreation"
  | KSnapshotCreation => "snapshotCreation"
  end.

Definition kind_from_str (kind : string) : outcome string Kind :=
  if eq_ignore_ascii_case kind "indexCreation" then Ok KIndexCreation
  else if eq_ignore_ascii_case kind "indexUpdate" then Ok KIndexUpdate
  else if eq_ignore_ascii_case kind "indexSwap" then Ok KIndexSwap
  else if eq_ignore_ascii_case kind "indexDeletion" then Ok KIndexDeletion
  else if eq_ignore_ascii_case kind "documentAdditionOrUpdate" then Ok KDocumentAdditionOrUpdate
  else if eq_ignore_ascii_case kind "documentDeletion" then Ok KDocumentDeletion
  else if eq_ignore_ascii_case kind "settingsUpdate" then Ok KSettingsUpdate
  else if eq_ignore_ascii_case kind "taskCancelation" then Ok KTaskCancelation
  else if eq_ignore_ascii_case kind "taskDeletion" then Ok KTaskDeletion
  else if eq_ignore_ascii_case kind "dumpCreation" then Ok KDumpCreation
  else if eq_ignore_ascii_case kind "snapshotCreation" then Ok KSnapshotCreation
  else Err kind.

(** ** Tasks *)
Section tasks.
Context {J : JsonValue}.

Inductive KindWithContent : Type :=
| DocumentAdditionOrUpdate (index_uid : string) (primary_key : option string)
    (method : IndexDocumentsMethod) (content_file : Uuid) (documents_count : N)
    (allow_index_creation : bool)
| DocumentDeletion (index_uid : string) (documents_ids : list string)
| DocumentDeletionByFilter (index_uid : string) (filter_expr : Value)
| DocumentClear (index_uid : string)
| SettingsUpdate (index_uid : string) (new_settings : Settings Unchecked)
    (is_deletion : bool) (allow_index_creation : bool)
| IndexDeletion (index_uid : string)
| IndexCreation (index_uid : string) (primary_key : option string)
| IndexUpdate (index_uid : string) (primary_key : option string)
| IndexSwapTask (swaps : list IndexSwap)
| TaskCancelation (query : string) (tasks : gset TaskId)
| TaskDeletion (query : string) (tasks : gset TaskId)
| DumpCreation (keys : list Key) (instance_uid : option Uuid)
| SnapshotCreation.

Inductive Details : Type :=
| DDocumentAdditionOrUpdate (received_documents : N) (indexed_documents : option N)
| DSettingsUpdate (settings : Settings Unchecked)
| DIndexInfo (primary_key : option string)
| DDocumentDeletion (provided_ids : N) (deleted_documents : option N)
| DDocumentDeletionByFilter (original_filter : string) (deleted_documents : option N)
| DClearAll (deleted_documents : option N)
| DTaskCancelation (matched_tasks : N) (canceled_tasks : option N) (original_filter : string)
| DTaskDeletion (matched_tasks : N) (deleted_tasks : option N) (original_filter : string)
| DDump (dump_uid : option string)
| DIndexSwap (swaps : list IndexSwap).

Record Task := mkTask {
  uid : TaskId;
  enqueued_at : OffsetDateTime;
  started_at : option OffsetDateTime;
  finished_at : option OffsetDateTime;
  error : option ResponseError;
  canceled_by : option TaskId;
  details : option Details;
  status : Status;
  kind : KindWithContent
}.

#[export] Instance kind_with_content_eq_dec : EqDecision KindWithContent.
Proof. solve_decision. Defined.
#[export] Instance details_eq_dec : EqDecision Details.
Proof. solve_decision. Defined.
#[export] Instance task_eq_dec : EqDecision Task.
Proof. solve_decision. Defined.

(** The one index of a task that concerns one index. *)
Definition kind_index_uid (k : KindWithContent) : option string :=
  match k with
  | DumpCreation _ _ | SnapshotCreation | TaskCancelation _ _ | TaskDeletion _ _
  | IndexSwapTask _ => None
  | DocumentAdditionOrUpdate index_uid _ _ _ _ _
  | DocumentDeletion index_uid _
  | DocumentDeletionByFilter index_uid _
  | DocumentClear index_uid
  | SettingsUpdate index_uid _ _ _
  | IndexCreation index_uid _
  | IndexUpdate index_uid _
  | IndexDeletion index_uid => Some index_uid
  end.

Definition index_uid (self : Task) : option string := kind_index_uid (kind self).

(** The [HashSet] of a swap's indexes; [elements] is its order of iteration. *)
Definition kind_indexes (self : KindWithContent) : list string :=
  match self with
  | DumpCreation _ _ | SnapshotCreation | TaskCancelation _ _ | TaskDeletion _ _ => []
  | DocumentAdditionOrUpdate index_uid _ _ _ _ _
  | DocumentDeletion index_uid _
  | DocumentDeletionByFilter index_uid _
  | DocumentClear index_uid
  | SettingsUpdate index_uid _ _ _
  | IndexCreation index_uid _
  | IndexUpdate index_uid _
  | IndexDeletion index_uid => [index_uid]
  | IndexSwapTask swaps =>
      elements (foldl (λ (indexes : gset string) swap,
        {[ (swap_indexes swap).2 ]} ∪ ({[ (swap_indexes swap).1 ]} ∪ indexes)) ∅ swaps)
  end.

Definition indexes (self : Task) : list string := kind_indexes (kind self).

Definition content_uuid (self : Task) : option Uuid :=
  match kind self with
  | DocumentAdditionOrUpdate _ _ _ content_file _ _ => Some content_file
  | _ => None
  end.

Definition as_kind (self : KindWithContent) : Kind :=
  match self with
  | DocumentAdditionOrUpdate _ _ _ _ _ _ => KDocumentAdditionOrUpdate
  | DocumentDeletion _ _ => KDocumentDeletion
  | DocumentDeletionByFilter _ _ => KDocumentDeletion
  | DocumentClear _ => KDocumentDeletion
  | SettingsUpdate _ _ _ _ => KSettingsUpdate
  | IndexCreation _ _ => KIndexCreation
  | IndexDeletion _ => KIndexDeletion
  | IndexUpdate _ _ => KIndexUpdate
  | IndexSwapTask _ => KIndexSwap
  | TaskCancelation _ _ => KTaskCancelation
  | TaskDeletion _ _ => KTaskDeletion
  | DumpCreation _ _ => KDumpCreation
  | SnapshotCreation => KSnapshotCreation
  end.

Definition bitmap_len (tasks : gset TaskId) : N := N.of_nat (size tasks).

Definition default_details (self : KindWithContent) : option Details :=
  match self with
  | DocumentAdditionOrUpdate _ _ _ _ documents_count _ =>
      Some (DDocumentAdditionOrUpdate documents_count None)
  | DocumentDeletion _ documents_ids =>
      Some (DDocumentDeletion (N.of_nat (length documents_ids)) None)
  | DocumentDeletionByFilter _ filter_expr =>
      Some (DDocumentDeletionByFilter (value_to_string filter_expr) None)
  | DocumentClear _ | IndexDeletion _ => Some (DClearAll None)
  | SettingsUpdate _ new_settings _ _ => Some (DSettingsUpdate new_settings)
  | IndexCreation _ primary_key | IndexUpdate _ primary_key =>
      Some (DIndexInfo primary_key)
  | IndexSwapTask swaps => Some (DIndexSwap swaps)
  | TaskCancelation query tasks => Some (DTaskCancelation (bitmap_len tasks) None query)
  | TaskDeletion query tasks => Some (DTaskDeletion (bitmap_len tasks) None query)
  | DumpCreation _ _ => Some (DDump None)
  | SnapshotCreation => None
  end.

(** [todo!()] panics on a swap. *)
Definition default_finished_details {E} (self : KindWithContent)
    : outcome E (option Details) :=
  match self with
  | DocumentAdditionOrUpdate _ _ _ _ documents_count _ =>
      Ok (Some (DDocumentAdditionOrUpdate documents_count (Some 0%N)))
  | DocumentDeletion _ documents_ids =>
      Ok (Some (DDocumentDeletion (N.of_nat (length documents_ids)) (Some 0%N)))
  | DocumentDeletionByFilter _ filter_expr =>
      Ok (Some (DDocumentDeletionByFilter (value_to_string filter_expr) (Some 0%N)))
  | DocumentClear _ => Ok (Some (DClearAll None))
  | SettingsUpdate _ new_settings _ _ => Ok (Some (DSettingsUpdate new_settings))
  | IndexDeletion _ => Ok None
  | IndexCreation _ primary_key | IndexUpdate _ primary_key =>
      Ok (Some (DIndexInfo primary_key))
  | IndexSwapTask _ => Panic "not yet implemented"
  | TaskCancelation query tasks =>
      Ok (Some (DTaskCancelation (bitmap_len tasks) (Some 0%N) query))
  | TaskDeletion query tasks =>
      Ok (Some (DTaskDeletion (bitmap_len tasks) (Some 0%N) query))
  | DumpCreation _ _ => Ok (Some (DDump None))
  | SnapshotCreation => Ok None
  end.

(** [Option<Details>::from]. *)
Definition details_from (kind : KindWithContent) : option Details :=
  match kind with
  | DocumentAdditionOrUpdate _ _ _ _ documents_count _ =>
      Some (DDocumentAdditionOrUpdate documents_count None)
  | DocumentDeletion _ _ => None
  | DocumentDeletionByFilter _ _ => None
  | DocumentClear _ => None
  | SettingsUpdate _ new_settings _ _ => Some (DSettingsUpdate new_settings)
  | IndexDeletion _ => None
  | IndexCreation _ primary_key => Some (DIndexInfo primary_key)
  | IndexUpdate _ primary_key => Some (DIndexInfo primary_key)
  | IndexSwapTask _ => None
  | TaskCancelation query tasks => Some (DTaskCancelation (bitmap_len tasks) None query)
  | TaskDeletion query tasks => Some (DTaskDeletion (bitmap_len tasks) None query)
  | DumpCreation _ _ => Some (DDump None)
  | SnapshotCreation => None
  end.

Definition to_failed (self : Details) : Details :=
  match self with
  | DDocumentAdditionOrUpdate received _ => DDocumentAdditionOrUpdate received (Some 0%N)
  | DDocumentDeletion provided _ => DDocumentDeletion provided (Some 0%N)
  | DDocumentDeletionByFilter filter _ => DDocumentDeletionByFilter filter (Some 0%N)
  | DClearAll _ => DClearAll (Some 0%N)
  | DTaskCancelation matched _ filter => DTaskCancelation matched (Some 0%N) filter
  | DTaskDeletion matched _ filter => DTaskDeletion matched (Some 0%N) filter
  | DSettingsUpdate _ | DIndexInfo _ | DDump _ | DIndexSwap _ => self
  end.
End tasks.

(** ** Durations

    A duration is a number of nanoseconds.  [zero_pad] is the format
    [{:0width}] of a number that is not negative. *)
Fixpoint zero_pad_aux (missing : nat) (s : string) : string :=
  match missing with 0 => s | S n => String "0" (zero_pad_aux n s) end.

Definition zero_pad (width : nat) (n : Z) : string :=
  let s := pretty n in zero_pad_aux (width - String.length s) s.

Definition serialize_duration (duration : option Z) : option string :=
  match duration with
  | Some duration =>
      if (duration <? 0)%Z then None
      else
        let secs := Z.quot duration 1000000000 in
        let days := Z.quot secs 86400 in
        let secs := (secs - days * 86400)%Z in
        let hasdate := negb (days =? 0)%Z in
        let nanos := Z.rem duration 1000000000 in
        let hastime := (negb (secs =? 0)%Z || negb (nanos =? 0)%Z) || negb hasdate in
        let res := "P" in
        let res := if hasdate then res +:+ pretty days +:+ "D" else res in
        let res :=
          if hastime then
            if (nanos =? 0)%Z then res +:+ "T" +:+ pretty secs +:+ "S"
            else if (Z.rem nanos 1000000 =? 0)%Z then
              res +:+ "T" +:+ pretty secs +:+ "." +:+ zero_pad 3 (Z.quot nanos 1000000) +:+ "S"
            else if (Z.rem nanos 1000 =? 0)%Z then
              res +:+ "T" +:+ pretty secs +:+ "." +:+ zero_pad 6 (Z.quot nanos 1000) +:+ "S"
            else res +:+ "T" +:+ pretty secs +:+ "." +:+ zero_pad 9 nanos +:+ "S"
          else res in
        Some res
  | None => None
  end.

(** ** Facts *)

(** The textual forms of statuses and kinds are read back whatever the case
    of their ASCII letters, and nothing else is read as a status or a kind. *)
Theorem status_kind_round_trip (st : Status) (k : Kind) (text : string) :
  (status_from_str text = Ok st ↔ lowercase text = status_to_string st) ∧
  (kind_from_str text = Ok k ↔ lowercase text = lowercase (kind_to_string k)) ∧
  (status_from_str text = Err text ↔ ∀ st, lowercase text ≠ status_to_string st) ∧
  (kind_from_str text = Err text ↔ ∀ k, lowercase text ≠ lowercase (kind_to_string k)).
Proof.
  unfold status_from_str, kind_from_str, eq_ignore_ascii_case.
  generalize (lowercase text). intros low.
  split_and!.
  - repeat case_bool_decide; simplify_eq; destruct st; split; intros; simplify_eq; try done.
  - repeat case_bool_decide; simplify_eq; destruct k; split; intros; simplify_eq; try done.
  - split.
    + intros H st' ->. by destruct st'.
    + intros H. pose proof (H Enqueued). pose proof (H Processing). pose proof (H Succeeded).
      pose proof (H Failed). pose proof (H Canceled).
      repeat case_bool_decide; simplify_eq; done.
  - split.
    + intros H k' ->. by destruct k'.
    + intros H. repeat case_bool_decide; try done; exfalso.
      all: first [by apply (H KIndexCreation)
        |by apply (H KIndexUpdate)
        |by apply (H KIndexSwap)
        |by apply (H KIndexDeletion)
        |by apply (H KDocumentAdditionOrUpdate)
        |by apply (H KDocumentDeletion)
        |by apply (H KSettingsUpdate)
        |by apply (H KTaskCancelation)
        |by apply (H KTaskDeletion)
        |by apply (H KDumpCreation)
        |by apply (H KSnapshotCreation)].
Qed.

(** A trivial JSON value, for the examples. *)
Module UnitJson.
#[export] Instance unit_json : JsonValue :=
  {| Value := unit; value_eq_dec := unit_eq_dec; value_to_string := λ _, "null" |}.
End UnitJson.

Module Demo.
Lemma status_kind_round_trip_witness :
  status_from_str "ENQUEUED" = Ok Enqueued ∧ kind_from_str "indexswap" = Ok KIndexSwap.
Proof.
  split.
  - apply (status_kind_round_trip Enqueued KIndexSwap "ENQUEUED"). reflexivity.
  - apply (status_kind_round_trip Enqueued KIndexSwap "indexswap"). reflexivity.
Defined.
End Demo.
