(* ===== verification/TaskQueue.v ===== *)
(** * The task queue (index-scheduler/src/utils.rs)

    The databases of tasks and their inverted bitmaps, the getters and setters
    on them, the rewriting of index names in a task, the validity of a swap and
    the dichotomic search.  An LMDB database is the finite map it holds, a
    [RoaringBitmap] a finite set; an operation returns the new databases, and
    the errors of LMDB itself are left out. *)
From S2P Require Import Prelude Settings Keys Errors Tasks.

(** ** Inverted databases

    [bucket db k] is the bitmap stored under [k], empty when there is none. *)
Section buckets.
Context {K : Type} `{Countable K}.
Implicit Types (db : gmap K (gset TaskId)).

Definition bucket db (k : K) : gset TaskId := default ∅ (db !! k).

(** [put_status], [put_kind] and the datetime insertion always store. *)
Definition put_bucket (k : K) (b : gset TaskId) db : gmap K (gset TaskId) := <[k := b]> db.

(** [update_index] and the datetime removal drop an empty bitmap. *)
Definition put_or_delete (k : K) (b : gset TaskId) db : gmap K (gset TaskId) :=
  if decide (b = ∅) then delete k db else <[k := b]> db.

Lemma bucket_put k b db k' :
  bucket (put_bucket k b db) k' = if decide (k = k') then b else bucket db k'.
Proof.
  unfold bucket, put_bucket. case_decide; subst.
  - by rewrite lookup_insert_eq.
  - by rewrite lookup_insert_ne.
Qed.

Lemma bucket_put_or_delete k b db k' :
  bucket (put_or_delete k b db) k' = if decide (k = k') then b else bucket db k'.
Proof.
  unfold put_or_delete. case_decide as Hb; [|apply bucket_put].
  unfold bucket. case_decide; subst.
  - by rewrite lookup_delete_eq.
  - by rewrite lookup_delete_ne.
Qed.
End buckets.

Section queue.
Context {J : JsonValue}.

(** The databases of [IndexScheduler] that describe the tasks. *)
Record TaskDb := mkTaskDb {
  all_tasks : gmap TaskId Task;
  status_db : gmap Status (gset TaskId);
  kind_db : gmap Kind (gset TaskId);
  index_tasks_db : gmap string (gset TaskId);
  canceled_by_db : gmap TaskId (gset TaskId);
  enqueued_at_db : gmap OffsetDateTime (gset TaskId);
  started_at_db : gmap OffsetDateTime (gset TaskId);
  finished_at_db : gmap OffsetDateTime (gset TaskId)
}.

Definition empty_db : TaskDb := mkTaskDb ∅ ∅ ∅ ∅ ∅ ∅ ∅ ∅.

(** Writing one database. *)
Definition with_all_tasks x (d : TaskDb) := mkTaskDb x (status_db d) (kind_db d)
  (index_tasks_db d) (canceled_by_db d) (enqueued_at_db d) (started_at_db d) (finished_at_db d).
Definition with_status x (d : TaskDb) := mkTaskDb (all_tasks d) x (kind_db d)
  (index_tasks_db d) (canceled_by_db d) (enqueued_at_db d) (started_at_db d) (finished_at_db d).
Definition with_kind x (d : TaskDb) := mkTaskDb (all_tasks d) (status_db d) x
  (index_tasks_db d) (canceled_by_db d) (enqueued_at_db d) (started_at_db d) (finished_at_db d).
Definition with_index_tasks x (d : TaskDb) := mkTaskDb (all_tasks d) (status_db d) (kind_db d)
  x (canceled_by_db d) (enqueued_at_db d) (started_at_db d) (finished_at_db d).
Definition with_canceled_by x (d : TaskDb) := mkTaskDb (all_tasks d) (status_db d) (kind_db d)
  (index_tasks_db d) x (enqueued_at_db d) (started_at_db d) (finished_at_db d).
Definition with_enqueued_at x (d : TaskDb) := mkTaskDb (all_tasks d) (status_db d) (kind_db d)
  (index_tasks_db d) (canceled_by_db d) x (started_at_db d) (finished_at_db d).
Definition with_started_at x (d : TaskDb) := mkTaskDb (all_tasks d) (status_db d) (kind_db d)
  (index_tasks_db d) (canceled_by_db d) (enqueued_at_db d) x (finished_at_db d).
Definition with_finished_at x (d : TaskDb) := mkTaskDb (all_tasks d) (status_db d) (kind_db d)
  (index_tasks_db d) (canceled_by_db d) (enqueued_at_db d) (started_at_db d) x.

(** ** Getters and setters *)
Definition get_status (d : TaskDb) (status : Status) : gset TaskId := bucket (status_db d) status.
Definition get_kind (d : TaskDb) (kind : Kind) : gset TaskId := bucket (kind_db d) kind.
Definition index_tasks (d : TaskDb) (index : string) : gset TaskId :=
  bucket (index_tasks_db d) index.

Definition put_status (status : Status) (bitmap : gset TaskId) (d : TaskDb) : TaskDb :=
  with_status (put_bucket status bitmap (status_db d)) d.
Definition put_kind (kind : Kind) (bitmap : gset TaskId) (d : TaskDb) : TaskDb :=
  with_kind (put_bucket kind bitmap (kind_db d)) d.

Definition update_status (status : Status) (f : gset TaskId → gset TaskId) (d : TaskDb)
    : TaskDb :=
  put_status status (f (get_status d status)) d.
Definition update_kind (kind : Kind) (f : gset TaskId → gset TaskId) (d : TaskDb) : TaskDb :=
  put_kind kind (f (get_kind d kind)) d.
Definition update_index (index : string) (f : gset TaskId → gset TaskId) (d : TaskDb)
    : TaskDb :=
  with_index_tasks (put_or_delete index (f (index_tasks d index)) (index_tasks_db d)) d.

Definition all_task_ids (d : TaskDb) : gset TaskId := ⋃ (get_status d <$> all_statuses).

(** The greatest key, plus one in [u32]. *)
Definition last_task_id (d : TaskDb) : option TaskId :=
  match elements (dom (all_tasks d)) with
  | [] => None
  | ids => Some (wrap32 (foldr N.max 0 ids + 1))%N
  end.

Definition next_task_id (d : TaskDb) : TaskId := default 0%N (last_task_id d).

Definition get_task (d : TaskDb) (task_id : TaskId) : option Task := all_tasks d !! task_id.

(** The first task that is missing makes the whole collection an error. *)
Definition get_existing_tasks (d : TaskDb) (tasks : list TaskId) : outcome Error (list Task) :=
  foldr (λ task_id acc,
    task ← ok_or (get_task d task_id) CorruptedTaskQueue;
    tasks ← acc;
    Ok (task :: tasks)) (Ok []) tasks.

(** ** Datetimes *)
Definition insert_task_datetime (time : OffsetDateTime) (task_id : TaskId)
    (database : gmap OffsetDateTime (gset TaskId)) : gmap OffsetDateTime (gset TaskId) :=
  put_bucket time ({[task_id]} ∪ bucket database time) database.

Definition remove_task_datetime (time : OffsetDateTime) (task_id : TaskId)
    (database : gmap OffsetDateTime (gset TaskId)) : gmap OffsetDateTime (gset TaskId) :=
  match database !! time with
  | Some existing => put_or_delete time (existing ∖ {[task_id]}) database
  | None => database
  end.

Inductive Bound (T : Type) : Type :=
| Included (x : T)
| Excluded (x : T)
| Unbounded.
Global Arguments Included {T} x.
Global Arguments Excluded {T} x.
Global Arguments Unbounded {T}.

Definition map_bound {T U} (bound : Bound T) (map : T → U) : Bound U :=
  match bound with
  | Included x => Included (map x)
  | Excluded x => Excluded (map x)
  | Unbounded => Unbounded
  end.

(** The keys between two bounds, as [Database::range] of heed iterates them. *)
Definition above (start : Bound Z) (k : Z) : bool :=
  match start with
  | Included x => (x <=? k)%Z | Excluded x => (x <? k)%Z | Unbounded => true
  end.
Definition below (end_ : Bound Z) (k : Z) : bool :=
  match end_ with
  | Included x => (k <=? x)%Z | Excluded x => (k <? x)%Z | Unbounded => true
  end.

Definition range (start end_ : Bound Z) (database : gmap Z (gset TaskId))
    : list (Z * gset TaskId) :=
  List.filter (λ e, above start e.1 && below end_ e.1) (map_to_list database).

Definition keep_tasks_within_datetimes (tasks : gset TaskId)
    (database : gmap OffsetDateTime (gset TaskId)) (after before : option OffsetDateTime)
    : gset TaskId :=
  let keep start end_ :=
    tasks ∩ foldl (λ collected e, collected ∪ e.2) ∅
      (range (map_bound start id) (map_bound end_ id) database) in
  match after, before with
  | None, None => tasks
  | None, Some before => keep Unbounded (Excluded before)
  | Some after, None => keep (Excluded after) Unbounded
  | Some after, Some before => keep (Excluded after) (Excluded before)
  end.

(** ** Updating a task *)
Definition update_datetime (old new : option OffsetDateTime) (task_id : TaskId)
    (panic : string) (database : gmap OffsetDateTime (gset TaskId))
    : outcome Error (gmap OffsetDateTime (gset TaskId)) :=
  if decide (old = new) then Ok database
  else
    assert (match old with None => true | Some _ => false end) panic;;
    Ok (match new with
        | Some time => insert_task_datetime time task_id database
        | None => database
        end).

Definition update_task (task : Task) (d : TaskDb) : outcome Error TaskDb :=
  old_task ← ok_or (get_task d (uid task)) CorruptedTaskQueue;
  if decide (old_task = task) then Ok d
  else
    let d :=
      if decide (status old_task = status task) then d
      else update_status (status task) (λ bitmap, {[uid task]} ∪ bitmap)
             (update_status (status old_task) (λ bitmap, bitmap ∖ {[uid task]}) d) in
    let d :=
      if decide (as_kind (kind old_task) = as_kind (kind task)) then d
      else update_kind (as_kind (kind task)) (λ bitmap, {[uid task]} ∪ bitmap)
             (update_kind (as_kind (kind old_task)) (λ bitmap, bitmap ∖ {[uid task]}) d) in
    assert (bool_decide (enqueued_at old_task = enqueued_at task))
      "Cannot update a task's enqueued_at time";;
    started ← update_datetime (started_at old_task) (started_at task) (uid task)
      "Cannot update a task's started_at time" (started_at_db d);
    let d := with_started_at started d in
    finished ← update_datetime (finished_at old_task) (finished_at task) (uid task)
      "Cannot update a task's finished_at time" (finished_at_db d);
    let d := with_finished_at finished d in
    Ok (with_all_tasks (<[uid task := task]> (all_tasks d)) d).

(** ** Index names in a task *)
Definition swap_uid (swap : string * string) (index_uid : string) : string :=
  if decide (index_uid = swap.1) then swap.2
  else if decide (index_uid = swap.2) then swap.1 else index_uid.

(** The names of a swap are collected only when they are one of the two, and
    then exchanged. *)
Definition swap_uids (swap : string * string) (s : IndexSwap) : IndexSwap :=
  let '(lhs, rhs) := swap_indexes s in
  let side x := if bool_decide (x = swap.1) || bool_decide (x = swap.2)
                then swap_uid swap x else x in
  mkIndexSwap (side lhs, side rhs).

Definition swap_index_uid_in_kind (swap : string * string) (k : KindWithContent)
    : KindWithContent :=
  let f := swap_uid swap in
  match k with
  | DocumentAdditionOrUpdate index_uid pk me file count allow =>
      DocumentAdditionOrUpdate (f index_uid) pk me file count allow
  | DocumentDeletion index_uid ids => DocumentDeletion (f index_uid) ids
  | DocumentDeletionByFilter index_uid filter => DocumentDeletionByFilter (f index_uid) filter
  | DocumentClear index_uid => DocumentClear (f index_uid)
  | SettingsUpdate index_uid settings del allow => SettingsUpdate (f index_uid) settings del allow
  | IndexDeletion index_uid => IndexDeletion (f index_uid)
  | IndexCreation index_uid pk => IndexCreation (f index_uid) pk
  | IndexUpdate index_uid pk => IndexUpdate (f index_uid) pk
  | IndexSwapTask swaps => IndexSwapTask (swap_uids swap <$> swaps)
  | TaskCancelation _ _ | TaskDeletion _ _ | DumpCreation _ _ | SnapshotCreation => k
  end.

Definition with_kind_details (k : KindWithContent) (d : option Details) (t : Task) : Task :=
  mkTask (uid t) (enqueued_at t) (started_at t) (finished_at t) (error t) (canceled_by t)
    d (status t) k.

Definition swap_index_uid_in_task (task : Task) (swap : string * string) : Task :=
  with_kind_details (swap_index_uid_in_kind swap (kind task))
    (match details task with
     | Some (DIndexSwap swaps) => Some (DIndexSwap (swap_uids swap <$> swaps))
     | d => d
     end) task.

(** [tasks.remove_range(task.uid..)] keeps the smaller ids. *)
Definition remove_from (id : TaskId) (tasks : gset TaskId) : gset TaskId :=
  filter (λ i, (i < id)%N) tasks.

Definition with_matched_tasks (n : N) (d : option Details) : option Details :=
  match d with
  | Some (DTaskCancelation _ canceled filter) => Some (DTaskCancelation n canceled filter)
  | Some (DTaskDeletion _ deleted filter) => Some (DTaskDeletion n deleted filter)
  | d => d
  end.

Definition filter_out_references_to_newer_tasks (task : Task) : Task :=
  match kind task with
  | TaskCancelation query tasks =>
      let tasks := remove_from (uid task) tasks in
      with_kind_details (TaskCancelation query tasks)
        (with_matched_tasks (bitmap_len tasks) (details task)) task
  | TaskDeletion query tasks =>
      let tasks := remove_from (uid task) tasks in
      with_kind_details (TaskDeletion query tasks)
        (with_matched_tasks (bitmap_len tasks) (details task)) task
  | _ => task
  end.

(** The loop of [check_index_swap_validity] over the names, in their order. *)
Definition swap_names (swaps : list IndexSwap) : list string :=
  swaps ≫= λ s, [(swap_indexes s).1; (swap_indexes s).2].

Definition duplicate_step (acc : gset string * gset string) (name : string)
    : gset string * gset string :=
  let '(all_indexes, duplicate_indexes) := acc in
  if decide (name ∈ all_indexes) then (all_indexes, {[name]} ∪ duplicate_indexes)
  else ({[name]} ∪ all_indexes, duplicate_indexes).

(** The names of a [BTreeSet], in ascending order of their bytes. *)
Definition sorted_names (names : gset string) : list string :=
  merge_sort String.le (elements names).

Definition check_index_swap_validity (task : Task) : outcome Error unit :=
  match kind task with
  | IndexSwapTask swaps =>
      let '(_, duplicate_indexes) := foldl duplicate_step (∅, ∅) (swap_names swaps) in
      match sorted_names duplicate_indexes with
      | [] => Ok tt
      | [name] => Err (SwapDuplicateIndexFound name)
      | names => Err (SwapDuplicateIndexesFound names)
      end
  | _ => Ok tt
  end.
End queue.

(** ** Dichotomic search *)
Definition dichotomic_step (biggest_good smallest_bad : option N) (current : N)
    (is_good : bool) : option N * option N * N :=
  match biggest_good, smallest_bad, is_good with
  | None, None, false => (None, Some current, current / 2)%N
  | None, None, true => (Some current, None, wrap64 (current * 2))%N
  | None, Some smallest_bad, true =>
      (Some current, Some smallest_bad, wrap64 (current + smallest_bad) / 2)%N
  | None, Some _, false => (None, Some current, current / 2)%N
  | Some _, None, true => (Some current, None, wrap64 (current * 2))%N
  | Some biggest_good, None, false =>
      (Some biggest_good, Some current, wrap64 (biggest_good + current) / 2)%N
  | Some _, Some smallest_bad, true =>
      (Some current, Some smallest_bad, wrap64 (smallest_bad + current) / 2)%N
  | Some biggest_good, Some _, false =>
      (Some biggest_good, Some current, wrap64 (biggest_good + current) / 2)%N
  end.

(** [loop], with fuel; [is_good] is a pure test. *)
Fixpoint dichotomic_loop (fuel : nat) (is_good : N → bool)
    (biggest_good smallest_bad : option N) (current : N) : option N :=
  match fuel with
  | 0 => None
  | S fuel =>
      let '(biggest_good, smallest_bad, current) :=
        dichotomic_step biggest_good smallest_bad current (is_good current) in
      if (current =? 0)%N then Some current
      else
        match smallest_bad, biggest_good with
        | Some _, Some good =>
            if (current <=? good)%N then Some current
            else dichotomic_loop fuel is_good biggest_good smallest_bad current
        | _, _ => dichotomic_loop fuel is_good biggest_good smallest_bad current
        end
  end.

Definition dichotomic_search (fuel : nat) (start_point : N) (is_good : N → bool) : option N :=
  dichotomic_loop fuel is_good None None start_point.

(** ** The consistency of the inverted databases *)
Section consistency.
Context {J : JsonValue}.

(** [db] files exactly the tasks [t] of [tasks] under the keys [f t]. *)
Definition filed_under {K} `{Countable K} (tasks : gmap TaskId Task) (f : Task → list K)
    (db : gmap K (gset TaskId)) : Prop :=
  ∀ k i, i ∈ bucket db k ↔ ∃ t, tasks !! i = Some t ∧ k ∈ f t.

Definition time_keys (o : option OffsetDateTime) : list OffsetDateTime := option_list o.

(** What every operation on the queue keeps.  [canceled_by] is apart: a task
    keeps its reference after the canceling task is gone. *)
Record consistent (d : TaskDb) : Prop := {
  con_uid : ∀ i t, all_tasks d !! i = Some t → uid t = i;
  con_status : filed_under (all_tasks d) (λ t, [status t]) (status_db d);
  con_kind : filed_under (all_tasks d) (λ t, [as_kind (kind t)]) (kind_db d);
  con_index : filed_under (all_tasks d) (λ t, indexes t) (index_tasks_db d);
  con_enqueued : filed_under (all_tasks d) (λ t, [enqueued_at t]) (enqueued_at_db d);
  con_started : filed_under (all_tasks d) (λ t, time_keys (started_at t)) (started_at_db d);
  con_finished : filed_under (all_tasks d) (λ t, time_keys (finished_at t)) (finished_at_db d)
}.

Lemma elem_of_time_keys o (x : OffsetDateTime) : x ∈ time_keys o ↔ o = Some x.
Proof.
  unfold time_keys. destruct o; simpl; [rewrite list_elem_of_singleton; naive_solver|].
  split; [by intros ?%not_elem_of_nil|done].
Qed.

Section filed.
Context {K : Type} `{Countable K}.
Implicit Types (db : gmap K (gset TaskId)) (f : Task → list K) (tasks : gmap TaskId Task).

Lemma filed_empty f : filed_under ∅ f ∅.
Proof.
  intros k i. unfold bucket. rewrite lookup_empty. simpl.
  split; [set_solver|]. intros (t & Ht & _). by rewrite lookup_empty in Ht.
Qed.

(** Replacing or adding the task [i]: every bucket must lose [i] and gain it
    back under the keys of the new task. *)
Lemma filed_insert tasks f db db' i t :
  filed_under tasks f db →
  (∀ k j, j ∈ bucket db' k ↔ (j ≠ i ∧ j ∈ bucket db k) ∨ (j = i ∧ k ∈ f t)) →
  filed_under (<[i := t]> tasks) f db'.
Proof.
  intros Hf Hdb k j. rewrite Hdb. destruct (decide (j = i)) as [->|Hne].
  - rewrite lookup_insert_eq. naive_solver.
  - rewrite lookup_insert_ne by done. rewrite (Hf k j). naive_solver.
Qed.

Lemma filed_delete tasks f db db' i :
  filed_under tasks f db →
  (∀ k j, j ∈ bucket db' k ↔ j ≠ i ∧ j ∈ bucket db k) →
  filed_under (delete i tasks) f db'.
Proof.
  intros Hf Hdb k j. rewrite Hdb, (Hf k j). destruct (decide (j = i)) as [->|Hne].
  - rewrite lookup_delete_eq. naive_solver.
  - rewrite lookup_delete_ne by done. naive_solver.
Qed.

(** An unchanged database stays right when the keys of the task do not change. *)
Lemma filed_same tasks f db i told t :
  filed_under tasks f db → tasks !! i = Some told → (∀ k, k ∈ f t ↔ k ∈ f told) →
  filed_under (<[i := t]> tasks) f db.
Proof.
  intros Hf Ht Heq. eapply filed_insert; [done|]. intros k j.
  rewrite (Hf k j). destruct (decide (j = i)) as [->|Hne]; [|tauto].
  rewrite Heq. naive_solver.
Qed.

(** Moving a task from the bucket of its only key to another one. *)
Lemma filed_move tasks (g : Task → K) db db' i told t :
  filed_under tasks (λ t, [g t]) db → tasks !! i = Some told → g told ≠ g t →
  (∀ k, bucket db' k =
     if decide (k = g t) then {[i]} ∪ bucket db k
     else if decide (k = g told) then bucket db k ∖ {[i]} else bucket db k) →
  filed_under (<[i := t]> tasks) (λ t, [g t]) db'.
Proof.
  intros Hf Ht Hne Hdb. eapply filed_insert; [exact Hf|]. intros k j. rewrite Hdb.
  rewrite list_elem_of_singleton. assert (i ∈ bucket db k → k = g told) as Hi.
  { intros (t' & Ht' & Hk)%Hf. apply list_elem_of_singleton in Hk. congruence. }
  destruct (decide (k = g t)) as [->|];
    [|destruct (decide (k = g told)) as [->|]];
    rewrite ?elem_of_union, ?elem_of_difference, ?elem_of_singleton;
    destruct (decide (j = i)) as [->|]; try tauto.
Qed.
End filed.

Lemma bucket_insert_time time i db k :
  bucket (insert_task_datetime time i db) k =
  if decide (time = k) then {[i]} ∪ bucket db k else bucket db k.
Proof. unfold insert_task_datetime. rewrite bucket_put. by case_decide; subst. Qed.

Lemma bucket_remove_time time i db k :
  bucket (remove_task_datetime time i db) k =
  if decide (time = k) then bucket db k ∖ {[i]} else bucket db k.
Proof.
  unfold remove_task_datetime. destruct (db !! time) as [b|] eqn:Hl.
  - rewrite bucket_put_or_delete. case_decide; subst; [|done].
    unfold bucket. by rewrite Hl.
  - case_decide; subst; [|done]. unfold bucket. rewrite Hl. simpl. set_solver.
Qed.

Lemma bucket_update_status st f d k :
  bucket (status_db (update_status st f d)) k =
  if decide (st = k) then f (get_status d st) else get_status d k.
Proof. apply bucket_put. Qed.

Lemma bucket_update_kind kd f d k :
  bucket (kind_db (update_kind kd f d)) k =
  if decide (kd = k) then f (get_kind d kd) else get_kind d k.
Proof. apply bucket_put. Qed.

Lemma bucket_update_index n f d k :
  bucket (index_tasks_db (update_index n f d)) k =
  if decide (n = k) then f (index_tasks d n) else index_tasks d k.
Proof. apply bucket_put_or_delete. Qed.

(** The bitmaps give back the task table. *)
Lemma get_status_spec d st i : consistent d →
  i ∈ get_status d st ↔ ∃ t, all_tasks d !! i = Some t ∧ status t = st.
Proof.
  intros Hc. unfold get_status. rewrite (con_status _ Hc st i).
  setoid_rewrite list_elem_of_singleton. naive_solver.
Qed.

Lemma get_kind_spec d kd i : consistent d →
  i ∈ get_kind d kd ↔ ∃ t, all_tasks d !! i = Some t ∧ as_kind (kind t) = kd.
Proof.
  intros Hc. unfold get_kind. rewrite (con_kind _ Hc kd i).
  setoid_rewrite list_elem_of_singleton. naive_solver.
Qed.

Lemma index_tasks_spec d n i : consistent d →
  i ∈ index_tasks d n ↔ ∃ t, all_tasks d !! i = Some t ∧ n ∈ indexes t.
Proof. intros Hc. unfold index_tasks. by rewrite (con_index _ Hc n i). Qed.

Lemma elem_of_all_statuses st : st ∈ all_statuses.
Proof. destruct st; set_solver. Qed.

Lemma all_task_ids_spec d : consistent d → all_task_ids d = dom (all_tasks d).
Proof.
  intros Hc. apply set_eq. intros i. unfold all_task_ids.
  rewrite elem_of_union_list, elem_of_dom. split.
  - intros (b & (st & -> & _)%list_elem_of_fmap & Hi). apply get_status_spec in Hi; [|done].
    naive_solver.
  - intros [t Ht]. exists (get_status d (status t)). split.
    + apply list_elem_of_fmap. exists (status t). split; [done|]. apply elem_of_all_statuses.
    + apply get_status_spec; [done|]. by exists t.
Qed.

Lemma empty_consistent : consistent empty_db.
Proof.
  constructor; try apply filed_empty. intros i t. simpl. by rewrite lookup_empty.
Qed.

(** Two tasks that the updates of a running task may go between. *)
Definition same_identity (old new : Task) : Prop :=
  (∀ n, n ∈ indexes new ↔ n ∈ indexes old) ∧ enqueued_at new = enqueued_at old ∧
  (started_at old = None ∨ started_at new = started_at old) ∧
  (finished_at old = None ∨ finished_at new = finished_at old).

Lemma filed_time (get : Task → option OffsetDateTime) tasks db i told t msg db' :
  filed_under tasks (λ t, time_keys (get t)) db → tasks !! i = Some told →
  update_datetime (get told) (get t) i msg db = Ok db' →
  filed_under (<[i := t]> tasks) (λ t, time_keys (get t)) db'.
Proof.
  intros Hf Ht. unfold update_datetime. case_decide as Heq.
  - intros [= <-]. eapply filed_same; [done|done|]. by rewrite Heq.
  - intros H. inv_ok. destruct (get told) eqn:Hold; [done|].
    destruct (get t) as [time|] eqn:Hnew; [|done].
    eapply filed_insert; [exact Hf|]. intros k j. rewrite bucket_insert_time, Hnew.
    rewrite elem_of_time_keys. pose proof (Hf k i) as Hki.
    assert (i ∉ bucket db k) as Hni.
    { intros Hb. apply Hki in Hb. revert Hb. intros (t' & Ht' & Hk). simplify_eq.
      apply elem_of_time_keys in Hk. congruence. }
    destruct (decide (time = k)) as [->|Hne];
      rewrite ?elem_of_union, ?elem_of_singleton;
      destruct (decide (j = i)) as [->|]; naive_solver.
Qed.
End consistency.

Section operations.
Context {J : JsonValue}.

Lemma update_datetime_Ok old new i msg db :
  (old = None ∨ new = old) → ∃ db', update_datetime old new i msg db = Ok db'.
Proof.
  intros H. unfold update_datetime. case_decide; [by eauto|].
  destruct H as [-> | ->]; simpl; [by eauto|done].
Qed.

(** The databases after the two steps on the status and kind bitmaps. *)
Lemma filed_status_step d told t i :
  consistent d → all_tasks d !! i = Some told →
  filed_under (<[i := t]> (all_tasks d)) (λ t, [status t])
    (status_db (if decide (status told = status t) then d
      else update_status (status t) (λ bitmap, {[i]} ∪ bitmap)
             (update_status (status told) (λ bitmap, bitmap ∖ {[i]}) d))).
Proof.
  intros Hc Ht. case_decide as Heq.
  - eapply filed_same; [apply Hc|done|]. by rewrite Heq.
  - eapply (filed_move (all_tasks d) status); [apply Hc|done|done|]. intros k.
    rewrite bucket_update_status. unfold get_status at 1. rewrite bucket_update_status.
    unfold get_status. rewrite !bucket_update_status.
    repeat case_decide; subst; try done.
Qed.

Lemma filed_kind_step d told t i :
  consistent d → all_tasks d !! i = Some told →
  filed_under (<[i := t]> (all_tasks d)) (λ t, [as_kind (kind t)])
    (kind_db (if decide (as_kind (kind told) = as_kind (kind t)) then d
      else update_kind (as_kind (kind t)) (λ bitmap, {[i]} ∪ bitmap)
             (update_kind (as_kind (kind told)) (λ bitmap, bitmap ∖ {[i]}) d))).
Proof.
  intros Hc Ht. case_decide as Heq.
  - eapply filed_same; [apply Hc|done|]. by rewrite Heq.
  - eapply (filed_move (all_tasks d) (λ t, as_kind (kind t))); [apply Hc|done|done|].
    intros k. rewrite bucket_update_kind. unfold get_kind at 1. rewrite bucket_update_kind.
    unfold get_kind. rewrite !bucket_update_kind. repeat case_decide; subst; try done.
Qed.

(** [update_task] on a consistent queue: the table gets the new task and the
    inverted databases follow. *)
Lemma update_task_spec d told t :
  consistent d → all_tasks d !! uid t = Some told → same_identity told t →
  ∃ d', update_task t d = Ok d' ∧ consistent d' ∧
    all_tasks d' = <[uid t := t]> (all_tasks d) ∧ canceled_by_db d' = canceled_by_db d.
Proof.
  intros Hc Ht (Hix & Henq & Hst & Hfi). unfold update_task, get_task. rewrite Ht. simpl.
  case_decide as Heq.
  { subst told. exists d. split_and!; [done|done| |done]. by rewrite insert_id. }
  rewrite bool_decide_eq_true_2 by done. simpl.
  pose proof (filed_status_step d told t (uid t) Hc Ht) as Hfs.
  pose proof (filed_kind_step d told t (uid t) Hc Ht) as Hfk.
  set (d1 := if decide (status told = status t) then d else _) in *.
  assert (all_tasks d1 = all_tasks d ∧ kind_db d1 = kind_db d ∧
    index_tasks_db d1 = index_tasks_db d ∧ canceled_by_db d1 = canceled_by_db d ∧
    enqueued_at_db d1 = enqueued_at_db d ∧ started_at_db d1 = started_at_db d ∧
    finished_at_db d1 = finished_at_db d) as (H1 & H2 & H3 & H4 & H5 & H6 & H7).
  { unfold d1. destruct (decide (status told = status t)); split_and!; done. }
  set (d2 := if decide (as_kind _ = _) then d1 else _) in *.
  assert (all_tasks d2 = all_tasks d ∧ status_db d2 = status_db d1 ∧
    kind_db d2 = kind_db (if decide (as_kind (kind told) = as_kind (kind t)) then d
      else update_kind (as_kind (kind t)) (λ bitmap, {[uid t]} ∪ bitmap)
             (update_kind (as_kind (kind told)) (λ bitmap, bitmap ∖ {[uid t]}) d)) ∧
    index_tasks_db d2 = index_tasks_db d ∧ canceled_by_db d2 = canceled_by_db d ∧
    enqueued_at_db d2 = enqueued_at_db d ∧ started_at_db d2 = started_at_db d ∧
    finished_at_db d2 = finished_at_db d) as (E1 & E2 & E3 & E4 & E5 & E6 & E7 & E8).
  { unfold d2, update_kind, get_kind, put_kind.
    destruct (decide (as_kind (kind told) = as_kind (kind t))); simpl; rewrite ?H2; split_and!; done. }
  clearbody d1 d2.
  destruct (update_datetime_Ok (started_at told) (started_at t) (uid t)
    "Cannot update a task's started_at time" (started_at_db d2) Hst) as [s Hs].
  destruct (update_datetime_Ok (finished_at told) (finished_at t) (uid t)
    "Cannot update a task's finished_at time" (finished_at_db d2) Hfi) as [f Hf].
  rewrite Hs. simpl. rewrite Hf. simpl. eexists. split; [done|].
  rewrite E1. split; [|split; [done|exact E5]]. rewrite E7 in Hs. rewrite E8 in Hf.
  constructor; simpl; rewrite ?E1, ?E2, ?E3, ?E4, ?E6.
  - intros i t' Hi. destruct (decide (i = uid t)) as [->|Hne].
    + rewrite lookup_insert_eq in Hi. by simplify_eq.
    + rewrite lookup_insert_ne in Hi by done. by apply (con_uid _ Hc).
  - exact Hfs.
  - exact Hfk.
  - eapply filed_same; [apply Hc|exact Ht|]. intros k. apply Hix.
  - eapply filed_same; [apply Hc|exact Ht|]. by rewrite Henq.
  - eapply (filed_time started_at); [apply (con_started _ Hc)|exact Ht|exact Hs].
  - eapply (filed_time finished_at); [apply (con_finished _ Hc)|exact Ht|exact Hf].
Qed.
End operations.

(** ** Dates, names and swaps *)
Section facts.
Context {J : JsonValue}.

Lemma elem_of_range start end_ (db : gmap Z (gset TaskId)) k b :
  (k, b) ∈ range start end_ db ↔ db !! k = Some b ∧ above start k = true ∧ below end_ k = true.
Proof.
  unfold range. rewrite <- elem_of_map_to_list, !list_elem_of_In, filter_In. simpl.
  rewrite andb_true_iff. tauto.
Qed.

Lemma elem_of_collected (l : list (Z * gset TaskId)) acc i :
  i ∈ foldl (λ collected e, collected ∪ e.2) acc l ↔ i ∈ acc ∨ ∃ k b, (k, b) ∈ l ∧ i ∈ b.
Proof.
  revert acc. induction l as [|[k b] l IH]; intros acc; simpl.
  - split; [by left|]. intros [?|(? & ? & []%not_elem_of_nil & _)]; done.
  - rewrite IH, elem_of_union. setoid_rewrite elem_of_cons. naive_solver.
Qed.

Definition strictly_after (after : option OffsetDateTime) (x : OffsetDateTime) : Prop :=
  match after with Some a => (a < x)%Z | None => True end.
Definition strictly_before (before : option OffsetDateTime) (x : OffsetDateTime) : Prop :=
  match before with Some b => (x < b)%Z | None => True end.

Lemma elem_of_bucket_Some {K} `{Countable K} (db : gmap K (gset TaskId)) k i :
  i ∈ bucket db k ↔ ∃ b, db !! k = Some b ∧ i ∈ b.
Proof.
  unfold bucket. destruct (db !! k) as [b|]; simpl; [naive_solver|].
  split; [by intros ?%elem_of_empty|naive_solver].
Qed.

Lemma keep_within_spec (get : Task → option OffsetDateTime) tasks db s after before i :
  filed_under tasks (λ t, time_keys (get t)) db →
  i ∈ keep_tasks_within_datetimes s db after before ↔
  i ∈ s ∧ ((after = None ∧ before = None) ∨
    ∃ t x, tasks !! i = Some t ∧ get t = Some x ∧ strictly_after after x ∧ strictly_before before x).
Proof.
  intros Hf.
  assert (∀ start end_,
    i ∈ s ∩ foldl (λ collected e, collected ∪ e.2) ∅ (range start end_ db) ↔
    i ∈ s ∧ ∃ t x, tasks !! i = Some t ∧ get t = Some x ∧
      above start x = true ∧ below end_ x = true) as Hk.
  { intros start end_. rewrite elem_of_intersection, elem_of_collected.
    setoid_rewrite elem_of_range. apply and_iff_compat_l. split.
    - intros [?%elem_of_empty|(k & b & (Hl & Ha & Hb) & Hi)]; [done|].
      assert (i ∈ bucket db k) as (t & Ht & Hx)%Hf by (apply elem_of_bucket_Some; eauto).
      apply elem_of_time_keys in Hx. eauto 10.
    - intros (t & x & Ht & Hx & Ha & Hb). right.
      assert (i ∈ bucket db x) as (b & Hl & Hi)%elem_of_bucket_Some.
      { apply Hf. exists t. split; [done|]. by apply elem_of_time_keys. }
      eauto 10. }
  unfold keep_tasks_within_datetimes.
  destruct after as [a|], before as [b|]; unfold map_bound, id; simpl;
    rewrite ?Hk; simpl; repeat setoid_rewrite Z.ltb_lt; naive_solver.
Qed.

(** *** Swaps of index names *)
Lemma swap_uid_involutive swap x : swap_uid swap (swap_uid swap x) = x.
Proof. unfold swap_uid. repeat case_decide; congruence. Qed.

Lemma swap_uids_eq swap s :
  swap_uids swap s =
  mkIndexSwap (swap_uid swap (swap_indexes s).1, swap_uid swap (swap_indexes s).2).
Proof.
  destruct s as [[l r]]. unfold swap_uids, swap_uid; simpl.
  repeat case_bool_decide; simpl; repeat case_decide; simplify_eq; done.
Qed.

Lemma swap_uids_involutive swap s : swap_uids swap (swap_uids swap s) = s.
Proof.
  rewrite !swap_uids_eq. simpl. rewrite !swap_uid_involutive. by destruct s as [[]].
Qed.

Lemma fmap_swap_uids_involutive swap (l : list IndexSwap) : swap_uids swap <$> (swap_uids swap <$> l) = l.
Proof.
  rewrite <- list_fmap_compose. etransitivity; [|apply list_fmap_id].
  apply list_fmap_ext. intros. apply swap_uids_involutive.
Qed.

Definition swap_set (swaps : list IndexSwap) (acc : gset string) : gset string :=
  foldl (λ indexes swap, {[ (swap_indexes swap).2 ]} ∪ ({[ (swap_indexes swap).1 ]} ∪ indexes))
    acc swaps.

Lemma elem_of_swap_set swaps acc n :
  n ∈ swap_set swaps acc ↔ n ∈ acc ∨ n ∈ swap_names swaps.
Proof.
  unfold swap_set. revert acc. induction swaps as [|s swaps IH]; intros acc; simpl.
  - split; [by left|]. intros [?|?%not_elem_of_nil]; done.
  - rewrite IH. unfold swap_names. simpl. rewrite !elem_of_cons.
    rewrite !elem_of_union, !elem_of_singleton. unfold swap_names. naive_solver.
Qed.

Lemma swap_names_fmap swap swaps :
  swap_names (swap_uids swap <$> swaps) = swap_uid swap <$> swap_names swaps.
Proof.
  unfold swap_names. induction swaps as [|s swaps IH]; [done|].
  rewrite fmap_cons, !bind_cons, fmap_app, IH, swap_uids_eq. done.
Qed.

Lemma kind_indexes_swap swap k n :
  n ∈ kind_indexes (swap_index_uid_in_kind swap k) ↔
  ∃ m, m ∈ kind_indexes k ∧ n = swap_uid swap m.
Proof.
  destruct k; simpl;
    try (setoid_rewrite list_elem_of_singleton; naive_solver);
    try (split; [by intros ?%not_elem_of_nil|by intros (? & ?%not_elem_of_nil & _)]).
  setoid_rewrite elem_of_elements. setoid_rewrite elem_of_swap_set.
  rewrite swap_names_fmap, list_elem_of_fmap. split.
  - intros [?%elem_of_empty|(m & -> & Hm)]; [done|]. exists m. split; [by right|done].
  - intros (m & [?%elem_of_empty|Hm] & ->); [done|]. right. by exists m.
Qed.

(** *** Duplicates *)
Lemma duplicate_loop names (all dup : gset string) :
  let '(all', dup') := foldl duplicate_step (all, dup) names in
  ∀ n, n ∈ dup' ↔ n ∈ dup ∨ (n ∈ names ∧ n ∈ all) ∨
    ∃ l1 l2, names = l1 ++ n :: l2 ∧ n ∈ l2.
Proof.
  revert all dup. induction names as [|x names IH]; intros all dup; simpl.
  - intros n. split; [by left|]. intros [?|[[?%not_elem_of_nil _]|(l1 & l2 & H & _)]]; [done..|].
    by destruct l1.
  - assert (∀ n (P : Prop), (n ∈ names ∧ n ∈ {[x]} ∪ all ∨
        (∃ l1 l2, names = l1 ++ n :: l2 ∧ n ∈ l2)) ↔
      (n ∈ names ∧ n ∈ all) ∨ ∃ l1 l2, x :: names = l1 ++ n :: l2 ∧ n ∈ l2) as Hcons.
    { intros n _. rewrite elem_of_union, elem_of_singleton. split.
      - intros [[Hn [->|Ha]]|(l1 & l2 & -> & Hn)].
        + right. by exists [], names.
        + by left.
        + right. by exists (x :: l1), l2.
      - intros [[Hn Ha]|([|y l1] & l2 & Heq & Hn)]; simplify_eq/=; eauto 10. }
    case_decide as Hx.
    + specialize (IH all ({[x]} ∪ dup)). destruct (foldl _ _ names) as [a d].
      intros n. rewrite IH. replace ({[x]} ∪ all) with all in Hcons by set_solver.
      specialize (Hcons n True). rewrite elem_of_union, elem_of_singleton, elem_of_cons.
      destruct (decide (n = x)) as [->|]; naive_solver.
    + specialize (IH ({[x]} ∪ all) dup). destruct (foldl _ _ names) as [a d].
      intros n. rewrite IH. specialize (Hcons n True). rewrite elem_of_cons.
      destruct (decide (n = x)) as [->|]; naive_solver.
Qed.

Lemma duplicates_iff_not_NoDup (l : list string) :
  NoDup l ↔ ¬ ∃ n l1 l2, l = l1 ++ n :: l2 ∧ n ∈ l2.
Proof.
  induction l as [|x l IH].
  - split; [|constructor]. intros _ (n & [|] & l2 & H & _); done.
  - rewrite NoDup_cons, IH. split.
    + intros [Hx Hn] (n & [|y l1] & l2 & H & Hin); simplify_eq/=; [done|]. apply Hn. eauto.
    + intros H. split.
      * intros Hx. apply H. by exists x, [], l.
      * intros (n & l1 & l2 & -> & Hin). apply H. by exists n, (x :: l1), l2.
Qed.

Lemma sorted_names_perm s : sorted_names s ≡ₚ elements s.
Proof. apply merge_sort_Permutation. Qed.

(** A swap is accepted exactly when it names no index twice; otherwise the
    error lists, in order, exactly the names that occur more than once, and it
    is the singular one when there is one such name. *)
Theorem check_index_swap_validity_spec (t : Task) swaps :
  kind t = IndexSwapTask swaps →
  (check_index_swap_validity t = Ok tt ↔ NoDup (swap_names swaps)) ∧
  (∀ e, check_index_swap_validity t = Err e →
     ∃ names, Sorted String.le names ∧ NoDup names ∧
       (∀ n, n ∈ names ↔ ∃ l1 l2, swap_names swaps = l1 ++ n :: l2 ∧ n ∈ l2) ∧
       ((∃ n, names = [n] ∧ e = SwapDuplicateIndexFound n) ∨
        (2 ≤ length names ∧ e = SwapDuplicateIndexesFound names))).
Proof.
  intros Hk. unfold check_index_swap_validity. rewrite Hk.
  pose proof (duplicate_loop (swap_names swaps) ∅ ∅) as Hd.
  destruct (foldl duplicate_step (∅, ∅) (swap_names swaps)) as [all dup].
  assert (∀ n, n ∈ sorted_names dup ↔
    ∃ l1 l2, swap_names swaps = l1 ++ n :: l2 ∧ n ∈ l2) as Hn.
  { intros n. rewrite sorted_names_perm, elem_of_elements, Hd. set_solver. }
  assert (NoDup (sorted_names dup)) as Hnd.
  { rewrite sorted_names_perm. apply NoDup_elements. }
  assert (Sorted String.le (sorted_names dup)) as Hs by apply Sorted_merge_sort, _.
  rewrite duplicates_iff_not_NoDup. split.
  - destruct (sorted_names dup) as [|n [|m l]]; split; try done.
    + intros _ (n & l1 & l2 & H). eapply not_elem_of_nil, Hn; eauto.
    + intros H. exfalso. apply H. exists n. apply Hn. by left.
    + intros H. exfalso. apply H. exists n. apply Hn. by left.
  - intros e He. exists (sorted_names dup). split_and!; [done|done|done|].
    destruct (sorted_names dup) as [|n [|m l]]; [done|left|right]; simplify_eq/=;
      [by exists n|]. split; [lia|done].
Qed.

Lemma swap_uid_other swap n : n ≠ swap.1 ∧ n ≠ swap.2 → swap_uid swap n = n.
Proof. intros [? ?]. unfold swap_uid. by repeat case_decide. Qed.

Lemma swap_kind_other swap k :
  (∀ n, n ∈ kind_indexes k → n ≠ swap.1 ∧ n ≠ swap.2) → swap_index_uid_in_kind swap k = k.
Proof.
  intros H. destruct k; simpl in *;
    try (rewrite swap_uid_other; [done|apply H, list_elem_of_singleton; done]); try done.
  f_equal. assert (∀ n, n ∈ swap_names swaps → swap_uid swap n = n) as Hn.
  { intros n Hn. apply swap_uid_other, H, elem_of_elements, elem_of_swap_set. by right. }
  clear H. induction swaps as [|s swaps IH]; [done|]. simpl. f_equal.
  - rewrite swap_uids_eq, !Hn; [by destruct s as [[]]|..]; unfold swap_names; simpl; set_solver.
  - apply IH. intros n Hin. apply Hn. unfold swap_names in *. simpl. set_solver.
Qed.

(** Exchanging two index names in a task twice gives the task back; one
    exchange renames the indexes of the task one by one, keeps its id, its kind
    and its status, and changes nothing in a task on other indexes. *)
Theorem swap_index_uid_in_task_spec (t : Task) (swap : string * string) :
  swap_index_uid_in_task (swap_index_uid_in_task t swap) swap = t ∧
  (∀ n, n ∈ indexes (swap_index_uid_in_task t swap) ↔
     ∃ m, m ∈ indexes t ∧ n = swap_uid swap m) ∧
  as_kind (kind (swap_index_uid_in_task t swap)) = as_kind (kind t) ∧
  uid (swap_index_uid_in_task t swap) = uid t ∧
  status (swap_index_uid_in_task t swap) = status t ∧
  ((∀ n, n ∈ indexes t → n ≠ swap.1 ∧ n ≠ swap.2) →
   (∀ swaps, details t ≠ Some (DIndexSwap swaps)) → swap_index_uid_in_task t swap = t).
Proof.
  destruct t as [i e s f err c d st k]. unfold swap_index_uid_in_task, indexes; simpl.
  split_and!; try done.
  - unfold with_kind_details; simpl. f_equal.
    + destruct d as [[]|]; try done. by rewrite fmap_swap_uids_involutive.
    + destruct k; simpl; rewrite ?swap_uid_involutive, ?fmap_swap_uids_involutive; done.
  - intros n. apply kind_indexes_swap.
  - by destruct k.
  - intros Hn Hd. unfold with_kind_details; simpl. rewrite swap_kind_other by done.
    f_equal. destruct d as [[]|]; try done. by destruct (Hd swaps).
Qed.
End facts.

(** ** The dichotomic search finds the threshold *)
Lemma half_bounds n : (2 * (n / 2) <= n < 2 * (n / 2) + 2)%N.
Proof.
  pose proof (N.div_mod n 2 ltac:(done)). pose proof (N.mod_lt n 2 ltac:(done)). 
  pose proof (N.le_0_l (n mod 2)). lia.
Qed.

Section dichotomic.
Context (is_good : N → bool) (t : N).
Hypothesis (Hgood : ∀ n, is_good n = (n <=? t)%N) (Ht : (4 * t < u64_size)%N).

Let half_size : N := 9223372036854775808.
Let half_size_eq : u64_size = (2 * half_size)%N.
Proof. done. Qed.

(** The exit test once both bounds are known. *)
Definition exit_or (fuel : nat) (good bad current : N) : option N :=
  if (current =? 0)%N then Some current
  else if (current <=? good)%N then Some current
  else dichotomic_loop fuel is_good (Some good) (Some bad) current.

(** With a good point and a bad point, the search ends on the greatest good one. *)
Lemma dichotomic_between n good bad :
  N.to_nat (bad - good) ≤ n → (1 <= good <= t)%N → (t < bad < half_size)%N →
  ∀ fuel, n ≤ fuel → exit_or fuel good bad ((good + bad) / 2) = Some t.
Proof.
  revert good bad. induction n as [|n IH]; intros good bad Hn Hg Hb fuel Hf; [lia|].
  unfold exit_or. pose proof (half_bounds (good + bad)) as Hmid.
  set (cur := ((good + bad) / 2)%N) in *.
  destruct (N.eqb_spec cur 0); [lia|].
  destruct (N.leb_spec cur good); [f_equal; lia|].
  destruct fuel as [|fuel]; [lia|]. simpl. rewrite Hgood.
  destruct (N.leb_spec cur t).
  - simpl. rewrite wrap64_small by lia. rewrite N.add_comm.
    apply IH; lia.
  - simpl. rewrite wrap64_small by lia. apply IH; lia.
Qed.

(** Doubling up from a good point. *)
Lemma dichotomic_up n good :
  N.to_nat (t - good) ≤ n → (1 <= good <= t)%N →
  ∀ fuel, n + N.to_nat (2 * t) + 1 ≤ fuel →
  dichotomic_loop fuel is_good (Some good) None (good * 2) = Some t.
Proof.
  revert good. induction n as [|n IH]; intros good Hn Hg fuel Hf;
    (destruct fuel as [|fuel]; [lia|]); simpl; rewrite Hgood;
    destruct (N.leb_spec (good * 2) t); simpl; rewrite wrap64_small by lia; try lia.
  - apply (dichotomic_between (N.to_nat (2 * t))); lia.
  - destruct (N.eqb_spec (good * 2 * 2) 0); [lia|]. apply IH; lia.
  - apply (dichotomic_between (N.to_nat (2 * t))); lia.
Qed.

(** Halving down from a bad point. *)
Lemma dichotomic_down n bad :
  N.to_nat bad ≤ n → (t < bad < half_size)%N →
  ∀ fuel, n + N.to_nat bad ≤ fuel →
  (if (bad / 2 =? 0)%N then Some (bad / 2)%N
   else dichotomic_loop fuel is_good None (Some bad) (bad / 2)) = Some t.
Proof.
  revert bad. induction n as [|n IH]; intros bad Hn Hb fuel Hf; [lia|].
  pose proof (half_bounds bad). set (cur := (bad / 2)%N) in *.
  destruct (N.eqb_spec cur 0); [f_equal; lia|].
  destruct fuel as [|fuel]; [lia|]. simpl. rewrite Hgood.
  destruct (N.leb_spec cur t).
  - simpl. rewrite wrap64_small by lia. apply (dichotomic_between (N.to_nat bad)); lia.
  - simpl. apply IH; lia.
Qed.
End dichotomic.

(** The search, from both kinds of starts. *)
Lemma dichotomic_search_loop (is_good : N → bool) (t start : N) (fuel : nat) :
  (∀ n, is_good n = (n <=? t)%N) → (4 * t < u64_size)%N →
  (1 <= start)%N → (2 * start < u64_size)%N →
  N.to_nat (2 * start + 4 * t) + 2 ≤ fuel →
  dichotomic_search fuel start is_good = Some t.
Proof.
  intros Hgood Ht Hs Hmax Hf. unfold dichotomic_search.
  destruct fuel as [|fuel]; [lia|]. simpl. rewrite Hgood.
  destruct (N.leb_spec start t); simpl.
  - assert (u64_size = 18446744073709551616)%N by done.
    rewrite wrap64_small by lia.
    destruct (N.eqb_spec (start * 2) 0); [lia|].
    apply (dichotomic_up is_good t Hgood Ht (N.to_nat t)); lia.
  - assert (u64_size = 18446744073709551616)%N by done.
    apply (dichotomic_down is_good t Hgood Ht (N.to_nat start)); lia.
Qed.

(** When the test holds exactly up to a threshold, the search from any
    positive start returns the threshold, in a number of turns bounded by the
    start and the threshold; no addition or doubling overflows [usize] below
    2^62. *)
Theorem dichotomic_search_threshold (is_good : N → bool) (t start : N) (fuel : nat) :
  (∀ n, is_good n = (n <=? t)%N) → (4 * t < u64_size)%N →
  (1 <= start)%N → (2 * start < u64_size)%N →
  N.to_nat (2 * start + 4 * t) + 2 ≤ fuel →
  dichotomic_search fuel start is_good = Some t.
Proof. apply dichotomic_search_loop. Qed.

Section update.
Context {J : JsonValue}.

(** C17: On a consistent queue, updating a task that exists, with the same
    indexes and enqueuing date and with dates that are only set once, succeeds,
    replaces exactly that task, and leaves every inverted database filing
    exactly the tasks of the table; a missing task is a corrupted queue, and a
    changed date panics. *)
Theorem update_task_keeps_queue_consistent (d : TaskDb) (t : Task) :
  consistent d →
  (∀ told, all_tasks d !! uid t = Some told → same_identity told t →
     ∃ d', update_task t d = Ok d' ∧ consistent d' ∧
       all_tasks d' = <[uid t := t]> (all_tasks d) ∧ canceled_by_db d' = canceled_by_db d) ∧
  (all_tasks d !! uid t = None → update_task t d = Err CorruptedTaskQueue) ∧
  (∀ told, all_tasks d !! uid t = Some told →
     (enqueued_at told ≠ enqueued_at t ∨
      (started_at told ≠ None ∧ started_at told ≠ started_at t) ∨
      (finished_at told ≠ None ∧ finished_at told ≠ finished_at t)) →
     is_panic (update_task t d) = true).
Proof.
  intros Hc. split_and!.
  - intros told Ht Hs. by eapply update_task_spec.
  - intros Hn. unfold update_task, get_task. by rewrite Hn.
  - intros told Ht Hbad. unfold update_task, get_task. rewrite Ht. simpl.
    destruct (decide (told = t)) as [->|Hne]; [naive_solver|].
    case_bool_decide as He; [|done]. simpl.
    assert (∀ old new i msg db, old ≠ None → old ≠ new →
      update_datetime old new i msg db = Panic msg) as Hp.
    { intros old new i msg db Ho Hon. unfold update_datetime. rewrite decide_False by done.
      by destruct old. }
    destruct Hbad as [?|[[Hs1 Hs2]|[Hf1 Hf2]]]; [done| |].
    + rewrite (Hp (started_at told) (started_at t)) by done. done.
    + destruct (update_datetime (started_at told) (started_at t) (uid t) _ _) as [s| |] eqn:Hs.
      * simpl. rewrite (Hp (finished_at told) (finished_at t)) by done. done.
      * unfold update_datetime in Hs. case_decide; [done|]. by destruct (started_at told).
      * done.
Qed.
End update.

Module Demo.
Import UnitJson.
Definition swap_task : Task :=
  mkTask 3%N 10%Z None None None None None Enqueued (IndexSwapTask [mkIndexSwap ("a", "b"); mkIndexSwap ("c", "a")]).
Definition clear_task : Task :=
  mkTask 0%N 10%Z None None None None None Enqueued (DocumentClear "a").
Definition started_task : Task :=
  mkTask 0%N 10%Z (Some 20%Z) None None None None Processing (DocumentClear "a").
Definition one_task : TaskDb :=
  mkTaskDb {[0%N := clear_task]} {[Enqueued := {[0%N]}]} {[KDocumentDeletion := {[0%N]}]}
    {["a" := {[0%N]}]} ∅ {[10%Z := {[0%N]}]} ∅ ∅.

Lemma filed_singleton {K} `{Countable K} (f : Task → list K) k t :
  f t = [k] → filed_under {[0%N := t]} f {[k := {[0%N]}]}.
Proof.
  intros Hf k' i. rewrite elem_of_bucket_Some. split.
  - intros (b & [<- <-]%lookup_singleton_Some & ->%elem_of_singleton). exists t.
    rewrite lookup_singleton_eq, Hf. split; [done|]. by apply list_elem_of_singleton.
  - intros (t' & [<- <-]%lookup_singleton_Some & Hk). rewrite Hf in Hk.
    apply list_elem_of_singleton in Hk as ->. exists {[0%N]}.
    rewrite lookup_singleton_eq. split; [done|]. by apply elem_of_singleton.
Qed.

Lemma filed_none {K} `{Countable K} (f : Task → list K) t :
  f t = [] → filed_under {[0%N := t]} f (∅ : gmap K (gset TaskId)).
Proof.
  intros Hf k' i. rewrite elem_of_bucket_Some. split.
  - intros (b & Hb & _). by rewrite lookup_empty in Hb.
  - intros (t' & [<- <-]%lookup_singleton_Some & Hk). rewrite Hf in Hk.
    by apply not_elem_of_nil in Hk.
Qed.

Lemma one_task_consistent : consistent one_task.
Proof.
  constructor; try (by apply filed_singleton); try (by apply filed_none).
  intros i t H. simpl in H. apply lookup_singleton_Some in H as [<- <-]. done.
Qed.

Lemma check_index_swap_validity_spec_witness :
  kind swap_task = IndexSwapTask [mkIndexSwap ("a", "b"); mkIndexSwap ("c", "a")] ∧
  check_index_swap_validity swap_task = Err (SwapDuplicateIndexFound "a") ∧
  ∃ names, names = ["a"] ∧ SwapDuplicateIndexFound "a" = SwapDuplicateIndexFound "a".
Proof.
  assert (H : check_index_swap_validity swap_task = Err (SwapDuplicateIndexFound "a"))
    by (vm_compute; reflexivity).
  split; [reflexivity|]. split; [exact H|].
  destruct (proj2 (check_index_swap_validity_spec swap_task _ eq_refl) _ H)
    as (names & _ & _ & _ & [(n & Hn & He)|[_ He]]); [|discriminate He].
  exists ["a"]. split; reflexivity.
Defined.

Lemma swap_index_uid_in_task_spec_witness :
  swap_index_uid_in_task clear_task ("x", "y") = clear_task.
Proof.
  apply (swap_index_uid_in_task_spec clear_task ("x", "y")).
  - intros n Hn. apply list_elem_of_singleton in Hn as ->. split; discriminate.
  - intros swaps H. discriminate H.
Defined.

Lemma dichotomic_search_threshold_witness :
  dichotomic_search 600 100 (λ n, (n <=? 70)%N) = Some 70%N.
Proof.
  apply (dichotomic_search_threshold (λ n, (n <=? 70)%N) 70 100 600);
    [reflexivity|reflexivity|vm_compute; discriminate|reflexivity|vm_compute; lia].
Defined.

Lemma update_task_keeps_queue_consistent_witness :
  ∃ d', update_task started_task one_task = Ok d' ∧ consistent d' ∧
    all_tasks d' = <[0%N := started_task]> (all_tasks one_task).
Proof.
  destruct (proj1 (update_task_keeps_queue_consistent one_task started_task one_task_consistent)
    clear_task eq_refl) as (d' & H1 & H2 & H3 & _).
  - split; [intros n; split; exact id|]. split; [reflexivity|]. split; left; reflexivity.
  - exists d'. split; [exact H1|]. split; [exact H2|exact H3].
Defined.
End Demo.
