(* ===== verification/Autobatcher.v ===== *)
(** * The autobatcher (index-scheduler/src/autobatcher.rs)

    How the next enqueued tasks of one index are combined into a batch.  The
    constructors of [AutobatchKind] start with [A], those of [BatchKind] with
    [B].  [unreachable!()] and the panic on prioritised tasks are the [Panic] of
    an outcome, whose error type is never used. *)
From S2P Require Import Prelude Settings Keys Errors Tasks.

Inductive AutobatchKind : Type :=
| ADocumentImport (method : IndexDocumentsMethod) (allow_index_creation : bool)
    (primary_key : option string)
| ADocumentDeletion
| ADocumentDeletionByFilter
| ADocumentClear
| ASettings (allow_index_creation : bool)
| AIndexCreation
| AIndexDeletion
| AIndexUpdate
| AIndexSwap.

#[export] Instance autobatch_kind_eq_dec : EqDecision AutobatchKind.
Proof. solve_decision. Defined.

Definition kind_allow_index_creation (k : AutobatchKind) : option bool :=
  match k with
  | ADocumentImport _ allow_index_creation _ | ASettings allow_index_creation =>
      Some allow_index_creation
  | _ => None
  end.

Definition kind_primary_key (k : AutobatchKind) : option (option string) :=
  match k with
  | ADocumentImport _ _ primary_key => Some primary_key
  | _ => None
  end.

Definition autobatch_kind_from `{JsonValue} {E} (kind : KindWithContent)
    : outcome E AutobatchKind :=
  match kind with
  | DocumentAdditionOrUpdate _ primary_key method _ _ allow_index_creation =>
      Ok (ADocumentImport method allow_index_creation primary_key)
  | DocumentDeletion _ _ => Ok ADocumentDeletion
  | DocumentClear _ => Ok ADocumentClear
  | DocumentDeletionByFilter _ _ => Ok ADocumentDeletionByFilter
  | SettingsUpdate _ _ is_deletion allow_index_creation =>
      Ok (ASettings (allow_index_creation && negb is_deletion))
  | IndexDeletion _ => Ok AIndexDeletion
  | IndexCreation _ _ => Ok AIndexCreation
  | IndexUpdate _ _ => Ok AIndexUpdate
  | IndexSwapTask _ => Ok AIndexSwap
  | TaskCancelation _ _ | TaskDeletion _ _ | DumpCreation _ _ | SnapshotCreation =>
      Panic "The autobatcher should never be called with tasks that don't apply to an index."
  end.

Inductive BatchKind : Type :=
| BDocumentClear (ids : list TaskId)
| BDocumentOperation (method : IndexDocumentsMethod) (allow_index_creation : bool)
    (primary_key : option string) (operation_ids : list TaskId)
| BDocumentDeletion (deletion_ids : list TaskId)
| BDocumentDeletionByFilter (id : TaskId)
| BClearAndSettings (other : list TaskId) (allow_index_creation : bool)
    (settings_ids : list TaskId)
| BSettingsAndDocumentOperation (settings_ids : list TaskId)
    (method : IndexDocumentsMethod) (allow_index_creation : bool)
    (primary_key : option string) (operation_ids : list TaskId)
| BSettings (allow_index_creation : bool) (settings_ids : list TaskId)
| BIndexDeletion (ids : list TaskId)
| BIndexCreation (id : TaskId)
| BIndexUpdate (id : TaskId)
| BIndexSwap (id : TaskId).

Definition batch_allow_index_creation (b : BatchKind) : option bool :=
  match b with
  | BDocumentOperation _ allow_index_creation _ _
  | BClearAndSettings _ allow_index_creation _
  | BSettingsAndDocumentOperation _ _ allow_index_creation _ _
  | BSettings allow_index_creation _ => Some allow_index_creation
  | _ => None
  end.

Definition batch_primary_key (b : BatchKind) : option (option string) :=
  match b with
  | BDocumentOperation _ _ primary_key _
  | BSettingsAndDocumentOperation _ _ _ primary_key _ => Some primary_key
  | _ => None
  end.

(** [BatchKind::new] on the summarised kind. *)
Definition new_batch_kind (task_id : TaskId) (kind : AutobatchKind)
    (primary_key : option string) : ControlFlow BatchKind BatchKind * bool :=
  match kind with
  | AIndexCreation => (Break (BIndexCreation task_id), true)
  | AIndexDeletion => (Break (BIndexDeletion [task_id]), false)
  | AIndexUpdate => (Break (BIndexUpdate task_id), false)
  | AIndexSwap => (Break (BIndexSwap task_id), false)
  | ADocumentClear => (Continue (BDocumentClear [task_id]), false)
  | ADocumentImport method allow_index_creation pk =>
      if bool_decide (primary_key = None) || bool_decide (pk = None)
         || bool_decide (primary_key = pk)
      then (Continue (BDocumentOperation method allow_index_creation pk [task_id]),
            allow_index_creation)
      else (Break (BDocumentOperation method allow_index_creation pk [task_id]),
            allow_index_creation)
  | ADocumentDeletion => (Continue (BDocumentDeletion [task_id]), false)
  | ADocumentDeletionByFilter => (Break (BDocumentDeletionByFilter task_id), false)
  | ASettings allow_index_creation =>
      (Continue (BSettings allow_index_creation [task_id]), allow_index_creation)
  end.

(** [BatchKind::new]. *)
Definition new `{JsonValue} {E} (task_id : TaskId) (kind : KindWithContent)
    (primary_key : option string)
    : outcome E (ControlFlow BatchKind BatchKind * bool) :=
  kind ← autobatch_kind_from kind;
  Ok (new_batch_kind task_id kind primary_key).

(** The condition under which two primary keys let the task join the batch. *)
Definition compatible_primary_keys (this : BatchKind) (kind : AutobatchKind)
    (primary_key : option string) : bool :=
  (bool_decide (batch_primary_key this = None) && bool_decide (kind_primary_key kind = None))
  || ((bool_decide (primary_key ≠ None) &&
       match kind_primary_key kind with
       | None => true
       | Some pk => bool_decide (pk = primary_key)
       end)
      || match batch_primary_key this, kind_primary_key kind with
         | Some this, Some kind => bool_decide (this = kind)
         | _, _ => true
         end).

Definition different_creation_rights (this : BatchKind) (kind : AutobatchKind)
    (index_already_exists : bool) : bool :=
  negb index_already_exists
  && bool_decide (batch_allow_index_creation this = Some false)
  && bool_decide (kind_allow_index_creation kind = Some true).

(** The arms of [accumulate] after its three guards. *)
Definition combine {E} (this : BatchKind) (id : TaskId) (kind : AutobatchKind)
    (index_already_exists : bool) : outcome E (ControlFlow BatchKind BatchKind) :=
  match this, kind with
  | BDocumentClear ids, AIndexDeletion
  | BDocumentDeletion ids, AIndexDeletion
  | BDocumentOperation _ _ _ ids, AIndexDeletion
  | BSettings _ ids, AIndexDeletion => Ok (Break (BIndexDeletion (ids ++ [id])))
  | BClearAndSettings other _ ids, AIndexDeletion
  | BSettingsAndDocumentOperation other _ _ _ ids, AIndexDeletion =>
      Ok (Break (BIndexDeletion ((ids ++ [id]) ++ other)))
  | BDocumentClear ids, ADocumentClear | BDocumentClear ids, ADocumentDeletion =>
      Ok (Continue (BDocumentClear (ids ++ [id])))
  | BDocumentClear _, ADocumentImport _ _ _ | BDocumentClear _, ASettings _ =>
      Ok (Break this)
  | BDocumentOperation _ _ _ operation_ids, ADocumentClear =>
      Ok (Continue (BDocumentClear (operation_ids ++ [id])))
  | BDocumentOperation ReplaceDocuments allow _ operation_ids,
    ADocumentImport ReplaceDocuments _ pk =>
      Ok (Continue (BDocumentOperation ReplaceDocuments allow pk (operation_ids ++ [id])))
  | BDocumentOperation UpdateDocuments allow _ operation_ids,
    ADocumentImport UpdateDocuments _ pk =>
      Ok (Continue (BDocumentOperation UpdateDocuments allow pk (operation_ids ++ [id])))
  | BDocumentOperation method allow pk operation_ids, ADocumentDeletion =>
      Ok (Continue (BDocumentOperation method allow pk (operation_ids ++ [id])))
  | BDocumentOperation _ _ _ _, ADocumentImport _ _ _ => Ok (Break this)
  | BDocumentOperation method allow pk operation_ids, ASettings _ =>
      Ok (Continue (BSettingsAndDocumentOperation [id] method allow pk operation_ids))
  | BDocumentDeletion deletion_ids, ADocumentClear =>
      Ok (Continue (BDocumentClear (deletion_ids ++ [id])))
  | BDocumentDeletion deletion_ids, ADocumentImport method allow pk =>
      if index_already_exists then
        Ok (Continue (BDocumentOperation method allow pk (deletion_ids ++ [id])))
      else if negb allow then
        Ok (Continue (BDocumentOperation method allow pk (deletion_ids ++ [id])))
      else Ok (Break this)
  | BDocumentDeletion deletion_ids, ADocumentDeletion =>
      Ok (Continue (BDocumentDeletion (deletion_ids ++ [id])))
  | BDocumentDeletion _, ASettings _ => Ok (Break this)
  | BSettings allow settings_ids, ADocumentClear =>
      Ok (Continue (BClearAndSettings [id] allow settings_ids))
  | BSettings _ _, ADocumentImport _ _ _ | BSettings _ _, ADocumentDeletion =>
      Ok (Break this)
  | BSettings allow settings_ids, ASettings _ =>
      Ok (Continue (BSettings allow (settings_ids ++ [id])))
  | BClearAndSettings other allow settings_ids, ADocumentClear =>
      Ok (Continue (BClearAndSettings (other ++ [id]) allow settings_ids))
  | BClearAndSettings _ _ _, ADocumentImport _ _ _ => Ok (Break this)
  | BClearAndSettings other allow settings_ids, ADocumentDeletion =>
      Ok (Continue (BClearAndSettings (other ++ [id]) allow settings_ids))
  | BClearAndSettings other allow settings_ids, ASettings _ =>
      Ok (Continue (BClearAndSettings other allow (settings_ids ++ [id])))
  | BSettingsAndDocumentOperation settings_ids _ allow _ operation_ids, ADocumentClear =>
      Ok (Continue (BClearAndSettings (operation_ids ++ [id]) allow settings_ids))
  | BSettingsAndDocumentOperation settings_ids ReplaceDocuments allow _ operation_ids,
    ADocumentImport ReplaceDocuments _ pk2 =>
      Ok (Continue (BSettingsAndDocumentOperation settings_ids ReplaceDocuments allow pk2
        (operation_ids ++ [id])))
  | BSettingsAndDocumentOperation settings_ids UpdateDocuments allow _ operation_ids,
    ADocumentImport UpdateDocuments _ pk2 =>
      Ok (Continue (BSettingsAndDocumentOperation settings_ids UpdateDocuments allow pk2
        (operation_ids ++ [id])))
  | BSettingsAndDocumentOperation _ _ _ _ _, ADocumentDeletion
  | BSettingsAndDocumentOperation _ _ _ _ _, ADocumentImport _ _ _ => Ok (Break this)
  | BSettingsAndDocumentOperation settings_ids method allow pk operation_ids, ASettings _ =>
      Ok (Continue (BSettingsAndDocumentOperation (settings_ids ++ [id]) method allow pk
        operation_ids))
  | _, _ => Panic "internal error: entered unreachable code"
  end.

Definition accumulate {E} (this : BatchKind) (id : TaskId) (kind : AutobatchKind)
    (index_already_exists : bool) (primary_key : option string)
    : outcome E (ControlFlow BatchKind BatchKind) :=
  match kind with
  | AIndexCreation | AIndexUpdate | AIndexSwap | ADocumentDeletionByFilter =>
      Ok (Break this)
  | _ =>
      if different_creation_rights this kind index_already_exists then Ok (Break this)
      else if negb (compatible_primary_keys this kind primary_key) then Ok (Break this)
      else combine this id kind index_already_exists
  end.

(** The loop of [autobatch] over the tasks after the first one. *)
Fixpoint accumulate_all `{JsonValue} {E} (acc : BatchKind)
    (enqueued : list (TaskId * KindWithContent)) (index_exist : bool)
    (primary_key : option string) : outcome E BatchKind :=
  match enqueued with
  | [] => Ok acc
  | (id, kind) :: enqueued =>
      kind ← autobatch_kind_from kind;
      flow ← accumulate acc id kind index_exist primary_key;
      match flow with
      | Continue acc => accumulate_all acc enqueued index_exist primary_key
      | Break acc => Ok acc
      end
  end.

Definition autobatch `{JsonValue} {E} (enqueued : list (TaskId * KindWithContent))
    (index_already_exists : bool) (primary_key : option string)
    : outcome E (option (BatchKind * bool)) :=
  match enqueued with
  | [] => Ok None
  | (id, kind) :: enqueued =>
      '(flow, create) ← new id kind primary_key;
      match flow with
      | Break acc => Ok (Some (acc, create))
      | Continue acc =>
          let index_exist := index_already_exists || create in
          acc ← accumulate_all acc enqueued index_exist primary_key;
          Ok (Some (acc, create))
      end
  end.

(** ** How a batch grows *)
Definition flow_batch (flow : ControlFlow BatchKind BatchKind) : BatchKind :=
  match flow with Continue b => b | Break b => b end.

Definition batch_ids (b : BatchKind) : list TaskId :=
  match b with
  | BDocumentClear ids | BDocumentOperation _ _ _ ids | BDocumentDeletion ids
  | BSettings _ ids | BIndexDeletion ids => ids
  | BDocumentDeletionByFilter id | BIndexCreation id | BIndexUpdate id | BIndexSwap id => [id]
  | BClearAndSettings other _ settings_ids => other ++ settings_ids
  | BSettingsAndDocumentOperation settings_ids _ _ _ operation_ids =>
      settings_ids ++ operation_ids
  end.

(** The batches that [accumulate] expects. *)
Definition open_batch (b : BatchKind) : bool :=
  match b with
  | BIndexCreation _ | BIndexDeletion _ | BIndexUpdate _ | BIndexSwap _
  | BDocumentDeletionByFilter _ => false
  | _ => true
  end.

(** The kinds that are never added to a batch. *)
Definition solitary (k : AutobatchKind) : bool :=
  match k with
  | AIndexCreation | AIndexUpdate | AIndexSwap | ADocumentDeletionByFilter => true
  | _ => false
  end.

(** A task joins the batch when the batch goes on, or when it deletes the index. *)
Definition joins (flow : ControlFlow BatchKind BatchKind) (k : AutobatchKind) : Prop :=
  match flow with Continue _ => True | Break _ => k = AIndexDeletion end.

Lemma combine_cases {E} this id k e :
  open_batch this = true → solitary k = false →
  ∃ flow, @combine E this id k e = Ok flow ∧
    ((flow = Break this ∧ k ≠ AIndexDeletion) ∨
     (joins flow k ∧ batch_ids (flow_batch flow) ≡ₚ batch_ids this ++ [id] ∧
      (open_batch (flow_batch flow) = true ↔ k ≠ AIndexDeletion))).
Proof.
  intros Ho Hs.
  destruct this, k; simpl in Ho, Hs; try discriminate; simpl;
    repeat match goal with
    | |- context [match ?m with ReplaceDocuments => _ | UpdateDocuments => _ end] => destruct m
    | |- context [if ?b then _ else _] => destruct b
    end;
    (eexists; split; [reflexivity|]);
    first [left; split; [reflexivity|discriminate]
          |right; split; [first [exact I|reflexivity]|]; split; simpl;
           [|split; intros; try done; try discriminate]];
    rewrite ?(Permutation_app_comm _ [_]); simpl;
    rewrite ?(Permutation_app_comm _ [_]); simpl;
    rewrite <- ?Permutation_middle; try done; try solve_Permutation.
Qed.

Section growth.
Context {J : JsonValue} {E : Type}.
Context (exists_ : bool) (pk : option string).

(** [grown p flow create]: the tasks [p] make the batch of [flow], which other
    tasks may still join when it is a [Continue]; [create] is the flag of the
    first task. *)
Inductive grown : list (TaskId * KindWithContent) →
    ControlFlow BatchKind BatchKind → bool → Prop :=
| grown_new id kind k flow create :
    autobatch_kind_from (E:=E) kind = Ok k →
    new_batch_kind id k pk = (flow, create) →
    grown [(id, kind)] flow create
| grown_join p b create id kind k flow :
    grown p (Continue b) create →
    autobatch_kind_from (E:=E) kind = Ok k → solitary k = false →
    different_creation_rights b k (exists_ || create) = false →
    compatible_primary_keys b k pk = true →
    combine (E:=E) b id k (exists_ || create) = Ok flow → joins flow k →
    grown (p ++ [(id, kind)]) flow create.

(** The kinds the autobatcher may be called with. *)
Definition batchable (kind : KindWithContent) : Prop :=
  ∃ k, autobatch_kind_from (E:=E) kind = Ok k.

Lemma new_batch_kind_open id k flow create :
  new_batch_kind id k pk = (flow, create) →
  (∀ b, flow = Continue b → open_batch b = true) ∧ batch_ids (flow_batch flow) = [id].
Proof.
  intros H. destruct k; simpl in H; try (destruct (_ || _) in H);
    injection H as <- <-; (split; [by intros ? [=]; subst|done]).
Qed.

Lemma grown_open p b create : grown p (Continue b) create → open_batch b = true.
Proof.
  remember (Continue b) as f eqn:Hf. intros Hg. revert b Hf.
  induction Hg as [id kind k flow create Hk Hn|p b create id kind k flow Hg IH Hk Hs Hd Hp Hc Hj];
    intros b' ->.
  - by apply (new_batch_kind_open _ _ _ _ Hn).
  - destruct (combine_cases (E:=E) b id k (exists_ || create) (IH _ eq_refl) Hs)
      as (flow' & Hc' & Hflow).
    rewrite Hc in Hc'. injection Hc' as <-.
    destruct Hflow as [[? _]|(_ & _ & Hopen)]; [done|]. apply Hopen. intros ->.
    destruct b; simpl in Hc; repeat case_match; congruence.
Qed.

Lemma accumulate_all_grown tasks p b create :
  grown p (Continue b) create → Forall (λ e, batchable e.2) tasks →
  ∃ flow p' rest,
    accumulate_all (E:=E) b tasks (exists_ || create) pk = Ok (flow_batch flow) ∧
    tasks = p' ++ rest ∧ grown (p ++ p') flow create.
Proof.
  revert p b. induction tasks as [|[id kind] tasks IH]; intros p b Hg Hall.
  - exists (Continue b), [], []. rewrite !app_nil_r. split_and!; done.
  - apply Forall_cons in Hall as [[k Hk] Hall]. simpl. simpl in Hk. rewrite Hk. simpl.
    assert (∃ flow p' rest, Ok (E:=E) b = Ok (flow_batch flow) ∧
      (id, kind) :: tasks = p' ++ rest ∧ grown (p ++ p') flow create) as Hstop.
    { exists (Continue b), [], ((id, kind) :: tasks). rewrite !app_nil_r. split_and!; done. }
    destruct (solitary k) eqn:Hs; [by destruct k|].
    assert (accumulate (E:=E) b id k (exists_ || create) pk =
      if different_creation_rights b k (exists_ || create) then Ok (Break b)
      else if negb (compatible_primary_keys b k pk) then Ok (Break b)
      else combine b id k (exists_ || create)) as -> by by destruct k.
    destruct (different_creation_rights _ _ _) eqn:Hd; [done|].
    destruct (compatible_primary_keys _ _ _) eqn:Hp; [|done]. simpl.
    destruct (combine_cases (E:=E) b id k (exists_ || create) (grown_open _ _ _ Hg) Hs)
      as (flow & Hc & Hflow).
    rewrite Hc. simpl.
    destruct Hflow as [[-> _]|(Hj & Hids & Hopen)]; [done|].
    assert (grown (p ++ [(id, kind)]) flow create) as Hg' by by eapply grown_join.
    destruct flow as [b'|b'].
    + destruct (IH _ _ Hg' Hall) as (flow & p' & rest & -> & -> & Hg'').
      exists flow, ((id, kind) :: p'), rest. rewrite <- app_assoc in Hg''. split_and!; done.
    + exists (Break b'), [(id, kind)], tasks. split_and!; done.
Qed.

(** Every batch of [autobatch] is grown from a prefix of the tasks. *)
Lemma autobatch_grown enqueued :
  Forall (λ e, batchable e.2) enqueued → enqueued ≠ [] →
  ∃ flow create p rest,
    autobatch (E:=E) enqueued exists_ pk = Ok (Some (flow_batch flow, create)) ∧
    enqueued = p ++ rest ∧ grown p flow create.
Proof.
  intros Hall Hne. destruct enqueued as [|[id kind] tasks]; [done|].
  apply Forall_cons in Hall as [[k Hk] Hall]. simpl in Hk. simpl. unfold new. rewrite Hk. simpl.
  destruct (new_batch_kind id k pk) as [flow create] eqn:Hn. simpl.
  pose proof (grown_new _ _ _ _ _ Hk Hn) as Hg.
  destruct flow as [b|b].
  - destruct (accumulate_all_grown tasks _ _ _ Hg Hall) as (flow & p' & rest & -> & -> & Hg').
    simpl. exists flow, create, ((id, kind) :: p'), rest. split_and!; done.
  - exists (Break b), create, [(id, kind)], tasks. split_and!; done.
Qed.

Lemma grown_nonempty p flow create : grown p flow create → p ≠ [].
Proof. by destruct 1 as [|[]]. Qed.

Lemma grown_ids p flow create : grown p flow create → batch_ids (flow_batch flow) ≡ₚ p.*1.
Proof.
  induction 1 as [id kind k flow create Hk Hn|p b create id kind k flow Hg IH Hk Hs Hd Hp Hc Hj].
  - by destruct (new_batch_kind_open _ _ _ _ Hn) as [_ ->].
  - destruct (combine_cases (E:=E) b id k (exists_ || create) (grown_open _ _ _ Hg) Hs)
      as (flow' & Hc' & Hflow).
    rewrite Hc in Hc'. injection Hc' as <-.
    destruct Hflow as [[-> Hk']|(_ & Hids & _)]; [done|].
    rewrite Hids, fmap_app. simpl in IH. by rewrite IH.
Qed.
End growth.

(** ** Index creation rights and primary keys *)
Section rights.
Context {J : JsonValue} {E : Type}.

Definition kind_of (kind : KindWithContent) : option AutobatchKind :=
  match autobatch_kind_from (E:=E) kind with Ok k => Some k | _ => None end.

Lemma kind_of_Ok kind k : autobatch_kind_from (E:=E) kind = Ok k → kind_of kind = Some k.
Proof. unfold kind_of. by intros ->. Qed.

(** The primary key that a task imports documents with. *)
Definition import_key (kind : KindWithContent) : option (option string) :=
  k ← kind_of kind; kind_primary_key k.

Definition creates_index (kind : KindWithContent) : Prop :=
  (k ← kind_of kind; kind_allow_index_creation k) = Some true.

(** Case analysis of one successful step. *)
Ltac step_cases b k :=
  destruct b, k; simpl in *; try discriminate;
  repeat match goal with
  | H : context [match ?m with ReplaceDocuments => _ | UpdateDocuments => _ end] |- _ =>
      destruct m
  | H : context [if ?a then _ else _] |- _ => is_var a; destruct a; simpl in H
  | H : context [if negb ?a then _ else _] |- _ => is_var a; destruct a; simpl in H
  | H : context [if ?a || ?c then _ else _] |- _ => destruct (a || c); simpl in H
  end; simplify_eq/=; try discriminate.

(** Without an index, a batch that does not create one has no task that would
    have, and says so. *)
Lemma grown_rights pk p flow create :
  grown (E:=E) false pk p flow create → create = false →
  Forall (λ e, ¬ creates_index e.2) p ∧
  (∀ b, flow = Continue b → batch_allow_index_creation b ≠ Some true).
Proof.
  induction 1 as [id kind k flow create Hk Hn|p b create id kind k flow Hg IH Hk Hs Hd Hp Hc Hj];
    intros ->.
  - unfold creates_index. split.
    + repeat constructor. simpl. rewrite (kind_of_Ok _ _ Hk). simpl.
      destruct k; simpl in Hn; simplify_eq; try done. destruct (_ || _); by simplify_eq.
    + intros b' ->. destruct k; simpl in Hn; simplify_eq; try done.
      destruct (_ || _); by simplify_eq.
  - destruct (IH eq_refl) as [Hall Hb]. specialize (Hb b eq_refl).
    pose proof (grown_open _ _ _ _ _ Hg) as Ho.
    unfold different_creation_rights in Hd. simpl in Hd, Hc.
    assert (¬ creates_index kind ∧
      (∀ b, flow = Continue b → batch_allow_index_creation b ≠ Some true)) as [Hk' Hb'].
    { unfold creates_index. rewrite (kind_of_Ok _ _ Hk). simpl. clear Hp Hk Hg Hall IH.
      step_cases b k; repeat case_bool_decide; simpl in *; try discriminate;
        split; intros; simplify_eq/=; try congruence;
        repeat match goal with x : bool |- _ => destruct x; try congruence end. }
    split; [|done]. apply Forall_app. split; [done|]. by repeat constructor.
Qed.

(** All the imports of [p] have the primary key [x]. *)
Definition imports_with (x : option string) (p : list (TaskId * KindWithContent)) : Prop :=
  Forall (λ e, ∀ y, import_key e.2 = Some y → y = x) p.

Lemma import_key_of kind k :
  autobatch_kind_from (E:=E) kind = Ok k → import_key kind = kind_primary_key k.
Proof. intros H. unfold import_key. by rewrite (kind_of_Ok _ _ H). Qed.

(** What is known of the imports of an open batch when the index has no key. *)
Definition keys_without_index_key (b : BatchKind) (p : list (TaskId * KindWithContent)) : Prop :=
  match b with
  | BDocumentOperation _ _ q _ | BSettingsAndDocumentOperation _ _ _ q _ => imports_with q p
  | BDocumentDeletion _ => ∀ x, imports_with x p
  | _ => ∃ x, imports_with x p
  end.

Lemma imports_with_snoc x p e :
  imports_with x (p ++ [e]) ↔ imports_with x p ∧ ∀ y, import_key e.2 = Some y → y = x.
Proof. unfold imports_with. rewrite Forall_app, Forall_singleton. done. Qed.

Lemma grown_no_index_key exists_ p flow create :
  grown (E:=E) exists_ None p flow create →
  (∃ x, imports_with x p) ∧ (∀ b, flow = Continue b → keys_without_index_key b p).
Proof.
  induction 1 as [id kind k flow create Hk Hn|p b create id kind k flow Hg IH Hk Hs Hd Hp Hc Hj].
  - apply import_key_of in Hk.
    assert (∀ x, (∀ y, kind_primary_key k = Some y → y = x) → imports_with x [(id, kind)]) as Hi.
    { intros x Hx. repeat constructor. simpl. by rewrite Hk. }
    split.
    + exists (default None (kind_primary_key k)). apply Hi. by intros y ->.
    + intros b ->. destruct k; simpl in Hn; simplify_eq; simpl;
        try (exists None); try (intros ?); apply Hi; simpl; congruence.
  - destruct IH as [[x Hx] Hb]. specialize (Hb b eq_refl). apply import_key_of in Hk.
    assert (∀ x, imports_with x p → (∀ y, kind_primary_key k = Some y → y = x) →
      imports_with x (p ++ [(id, kind)])) as Hadd.
    { intros z Hz Hy. rewrite imports_with_snoc. simpl. by rewrite Hk. }
    unfold compatible_primary_keys in Hp. unfold keys_without_index_key in Hb |- *.
    clear Hd Hk Hg.
    step_cases b k; repeat case_bool_decide; simplify_eq/=; try discriminate;
      (split; [|intros b' Hb'; simplify_eq/=]);
      first
        [ apply Hadd; [exact Hb|congruence]
        | exists x; apply Hadd; [exact Hx|congruence]
        | eexists; apply Hadd; [exact Hb|congruence]
        | eexists; apply Hadd; [apply Hb|by intros y [= <-]]
        | intros z; apply Hadd; [apply Hb|congruence]
        | apply Hadd; [apply Hb|congruence] ].
Qed.

(** The same when the index has a key and the batch did not start with
    deletions: no other key gets in. *)
Definition fits (i : string) (x : option string) : Prop := x = None ∨ x = Some i.

Definition imports_fit (i : string) (p : list (TaskId * KindWithContent)) : Prop :=
  Forall (λ e, ∀ y, import_key e.2 = Some y → fits i y) p.

Definition keys_with_index_key (i : string) (b : BatchKind) : Prop :=
  match b with
  | BDocumentOperation _ _ q _ | BSettingsAndDocumentOperation _ _ _ q _ => fits i q
  | BDocumentDeletion _ => False
  | _ => True
  end.

Lemma grown_index_key exists_ i p flow create :
  grown (E:=E) exists_ (Some i) p flow create →
  (∀ e, head p = Some e → kind_of e.2 ≠ Some ADocumentDeletion) →
  (∀ b, flow = Continue b → imports_fit i p ∧ keys_with_index_key i b) ∧
  (1 < length p → imports_fit i p).
Proof.
  induction 1 as [id kind k flow create Hk Hn|p b create id kind k flow Hg IH Hk Hs Hd Hp Hc Hj];
    intros Hhead.
  - split; [|simpl; lia]. intros b ->. specialize (Hhead _ eq_refl). simpl in Hhead.
    rewrite (kind_of_Ok _ _ Hk) in Hhead. apply import_key_of in Hk.
    assert ((∀ y, kind_primary_key k = Some y → fits i y) ∧ keys_with_index_key i b) as [? ?].
    { unfold fits. destruct k; simpl in *; simplify_eq; try done.
      destruct (_ || _) eqn:Hor in Hn; [|discriminate Hn]. simplify_eq.
      rewrite !orb_true_iff, !bool_decide_eq_true in Hor.
      assert (primary_key = None ∨ primary_key = Some i) as Hpk by (intuition congruence).
      split; [by intros y [= <-]|done]. }
    split; [|done]. apply Forall_singleton. simpl. by rewrite Hk.
  - assert (∀ e, head p = Some e → kind_of e.2 ≠ Some ADocumentDeletion) as Hhead'.
    { intros e He. apply Hhead. by destruct p. }
    destruct (IH Hhead') as [Hb _]. destruct (Hb b eq_refl) as [Hfit Hq].
    apply import_key_of in Hk.
    assert ((∀ y, kind_primary_key k = Some y → fits i y) ∧
      (∀ b, flow = Continue b → keys_with_index_key i b)) as [Hy Hb'].
    { unfold compatible_primary_keys in Hp. unfold fits in *. clear Hk Hd Hg IH Hb Hhead Hhead'.
      step_cases b k; repeat case_bool_decide; simplify_eq/=; try discriminate;
        (split; [intros y Hy; simplify_eq/=; unfold fits in *; intuition congruence
               |intros b' Hb'; simplify_eq/=; unfold fits in *; intuition congruence]). }
    assert (imports_fit i (p ++ [(id, kind)])).
    { apply Forall_app. split; [done|]. apply Forall_singleton. simpl. by rewrite Hk. }
    split; [|done]. intros b' Hf. split; [done|by apply Hb'].
Qed.
End rights.

(** ** The batch means its tasks *)

(** How the tasks of one index act on its content, as far as batching relies on
    it: clearing and deleting forget what was there, and settings commute with
    operations on documents. *)
Class IndexEffect `{JsonValue} (S : Type) := {
  effect : KindWithContent → S → S;
  clear : S → S;
  drop_index : S → S
}.

Definition document_kind (k : AutobatchKind) : bool :=
  match k with ADocumentImport _ _ _ | ADocumentDeletion | ADocumentClear => true | _ => false end.

Section transparency.
Context {J : JsonValue} {E : Type} {S : Type} `{!IndexEffect S}.

Abbreviation kind_is kind k := (autobatch_kind_from (E:=E) kind = Ok k).

Class IndexEffectLaws : Prop := {
  effect_clear : ∀ kind s, kind_is kind ADocumentClear → effect kind s = clear s;
  effect_drop : ∀ kind s, kind_is kind AIndexDeletion → effect kind s = drop_index s;
  clear_forgets : ∀ kind k s, kind_is kind k → document_kind k = true →
    clear (effect kind s) = clear s;
  deletion_of_nothing : ∀ kind s, kind_is kind ADocumentDeletion →
    effect kind (clear s) = clear s;
  drop_forgets : ∀ kind k s, kind_is kind k → drop_index (effect kind s) = drop_index s;
  settings_commute : ∀ st kind k a s, kind_is st (ASettings a) → kind_is kind k →
    document_kind k = true → effect st (effect kind s) = effect kind (effect st s)
}.

Definition run (kinds : list KindWithContent) (s : S) : S := foldl (λ s k, effect k s) s kinds.

Context (task : TaskId → KindWithContent).

Definition run_ids (ids : list TaskId) (s : S) : S := run (task <$> ids) s.

(** What the execution of a batch does: the settings of a mixed batch are
    applied before the documents, and after the clearing. *)
Definition batch_effect (b : BatchKind) (s : S) : S :=
  match b with
  | BDocumentClear _ => clear s
  | BDocumentOperation _ _ _ ids | BDocumentDeletion ids | BSettings _ ids => run_ids ids s
  | BDocumentDeletionByFilter id | BIndexCreation id | BIndexUpdate id | BIndexSwap id =>
      run_ids [id] s
  | BClearAndSettings _ _ settings_ids => run_ids settings_ids (clear s)
  | BSettingsAndDocumentOperation settings_ids _ _ _ operation_ids =>
      run_ids operation_ids (run_ids settings_ids s)
  | BIndexDeletion _ => drop_index s
  end.

Lemma run_app l1 l2 s : run (l1 ++ l2) s = run l2 (run l1 s).
Proof. unfold run. by rewrite foldl_app. Qed.

Lemma run_ids_snoc ids id s : run_ids (ids ++ [id]) s = effect (task id) (run_ids ids s).
Proof. unfold run_ids. by rewrite fmap_app, run_app. Qed.

Definition all_kinds_are (P : AutobatchKind → Prop) (ids : list TaskId) : Prop :=
  Forall (λ id, ∃ k, kind_is (task id) k ∧ P k) ids.

(** The ids that a batch keeps apart are of the right kind. *)
Definition well_sorted (b : BatchKind) : Prop :=
  match b with
  | BDocumentOperation _ _ _ ids => all_kinds_are (λ k, document_kind k = true) ids
  | BDocumentDeletion ids => all_kinds_are (λ k, k = ADocumentDeletion) ids
  | BSettings _ ids | BClearAndSettings _ _ ids =>
      all_kinds_are (λ k, ∃ a, k = ASettings a) ids
  | BSettingsAndDocumentOperation sids _ _ _ ids =>
      all_kinds_are (λ k, ∃ a, k = ASettings a) sids ∧
      all_kinds_are (λ k, document_kind k = true) ids
  | _ => True
  end.

Context `{!IndexEffectLaws}.

Lemma clear_run_documents ids s :
  all_kinds_are (λ k, document_kind k = true) ids → clear (run_ids ids s) = clear s.
Proof.
  induction ids as [|id ids IH] using rev_ind; [done|]. unfold all_kinds_are.
  rewrite Forall_app, Forall_singleton. intros [Hall (k & Hk & Hd)].
  rewrite run_ids_snoc, (clear_forgets _ k) by done. by apply IH.
Qed.

Lemma settings_run_documents st a ids s :
  kind_is st (ASettings a) → all_kinds_are (λ k, document_kind k = true) ids →
  effect st (run_ids ids s) = run_ids ids (effect st s).
Proof.
  intros Hst. induction ids as [|id ids IH] using rev_ind; [done|]. unfold all_kinds_are.
  rewrite Forall_app, Forall_singleton. intros [Hall (k & Hk & Hd)].
  rewrite !run_ids_snoc, (settings_commute _ _ k a) by done. f_equal. by apply IH.
Qed.

Lemma document_run_settings kind k ids s :
  kind_is kind k → document_kind k = true → all_kinds_are (λ k, ∃ a, k = ASettings a) ids →
  effect kind (run_ids ids s) = run_ids ids (effect kind s).
Proof.
  intros Hk Hd. induction ids as [|id ids IH] using rev_ind; [done|]. unfold all_kinds_are.
  rewrite Forall_app, Forall_singleton. intros [Hall (k' & Hk' & a & ->)].
  rewrite !run_ids_snoc. rewrite <- (settings_commute _ _ k a) by done. f_equal. by apply IH.
Qed.

Lemma deletion_kinds ids :
  all_kinds_are (λ k, k = ADocumentDeletion) ids →
  all_kinds_are (λ k, document_kind k = true) ids.
Proof.
  intros Hids. eapply Forall_impl; [exact Hids|]. intros id (k & Hk & ->). by eexists.
Qed.

Lemma clear_clear kind s : kind_is kind ADocumentClear → clear (clear s) = clear s.
Proof.
  intros Hk. rewrite <- (effect_clear kind s Hk) at 1. by apply (clear_forgets _ ADocumentClear).
Qed.

Lemma drop_run kinds s : Forall (batchable (E:=E)) kinds → drop_index (run kinds s) = drop_index s.
Proof.
  induction kinds as [|kind kinds IH] using rev_ind; [done|].
  rewrite Forall_app, Forall_singleton. intros [Hall [k Hk]].
  rewrite run_app. simpl. rewrite (drop_forgets _ k) by done. by apply IH.
Qed.

Lemma clear_run_settings kind ids s :
  kind_is kind ADocumentClear → all_kinds_are (λ k, ∃ a, k = ASettings a) ids →
  clear (run_ids ids s) = run_ids ids (clear s).
Proof.
  intros Hk Hids. rewrite <- !(effect_clear kind) by done.
  by apply (document_run_settings _ ADocumentClear).
Qed.

(** One more task in the batch is one more effect. *)
Lemma combine_effect b id k e flow s :
  open_batch b = true → solitary k = false → k ≠ AIndexDeletion →
  combine (E:=E) b id k e = Ok flow → joins flow k → kind_is (task id) k → well_sorted b →
  well_sorted (flow_batch flow) ∧
  batch_effect (flow_batch flow) s = effect (task id) (batch_effect b s).
Proof.
  intros Ho Hs Hd Hc Hj Hk Hw.
  assert (∀ (P : AutobatchKind → Prop) ids, P k → all_kinds_are P ids →
    all_kinds_are P (ids ++ [id])) as Hsnoc.
  { intros P ids HP Hids. apply Forall_app. split; [done|]. apply Forall_singleton. eauto. }
  destruct b, k; simpl in Ho, Hs, Hc, Hw; try discriminate; try done;
    repeat match goal with
    | H : context [match ?m with ReplaceDocuments => _ | UpdateDocuments => _ end] |- _ =>
        destruct m
    | H : context [if ?a then _ else _] |- _ => destruct a
    end; injection Hc as <-; try discriminate Hj; simpl in *;
    rewrite ?run_ids_snoc.
  all: try (split; [|done]; try split; destruct_and?;
    first [done | apply Hsnoc; [by eauto|by eauto using deletion_kinds]]).
  all: destruct_and?; split_and?; try done; try (apply Hsnoc; by eauto).
  all: rewrite ?(effect_clear (task id)) by done.
  all: try (by apply Forall_singleton; eauto).
  all: rewrite ?clear_run_documents by eauto using deletion_kinds.
  all: rewrite ?(clear_run_settings (task id)), ?(clear_clear (task id)) by done.
  all: try done.
  all: try (by rewrite deletion_of_nothing).
  all: try (by rewrite (document_run_settings _ ADocumentDeletion), deletion_of_nothing).
  all: symmetry; eapply settings_run_documents; eassumption.
Qed.

Lemma new_effect id k pk flow create s :
  new_batch_kind id k pk = (flow, create) → kind_is (task id) k →
  well_sorted (flow_batch flow) ∧ batch_effect (flow_batch flow) s = effect (task id) s.
Proof.
  intros Hn Hk. destruct k; simpl in Hn; try (destruct (_ || _) in Hn); injection Hn as <- <-;
    simpl; (split; [try (apply Forall_singleton; by eauto)|]); try done.
  - by rewrite effect_clear.
  - by rewrite effect_drop.
Qed.

Lemma grown_effect exists_ pk p flow create s :
  grown (E:=E) exists_ pk p flow create → Forall (λ e, task e.1 = e.2) p →
  Forall (batchable (E:=E)) p.*2 ∧
  (flow_batch flow = BIndexDeletion (batch_ids (flow_batch flow)) ∨ well_sorted (flow_batch flow)) ∧
  batch_effect (flow_batch flow) s = run p.*2 s.
Proof.
  induction 1 as [id kind k flow create Hk Hn|p b create id kind k flow Hg IH Hk Hs Hd Hp Hc Hj];
    intros Htask.
  - apply Forall_cons in Htask as [Htask _]. simpl in Htask. subst kind.
    destruct (new_effect _ _ _ _ _ s Hn Hk) as [Hw He].
    split_and!; [apply Forall_singleton; by eexists|by right|done].
  - apply Forall_app in Htask as [Htask Hid]. apply Forall_cons in Hid as [Hid _]. simpl in Hid.
    subst kind. destruct (IH Htask) as (Hbat & Hw & He). clear IH. simpl in Hw, He.
    pose proof (grown_open _ _ _ _ _ Hg) as Ho.
    assert (Forall (batchable (E:=E)) (p ++ [(id, task id)]).*2) as Hbat'.
    { rewrite fmap_app. apply Forall_app. split; [done|]. apply Forall_singleton. by eexists. }
    split; [done|]. rewrite fmap_app, run_app. simpl. rewrite <- He.
    destruct Hw as [Hw|Hw]; [by rewrite Hw in Ho|].
    destruct (decide (k = AIndexDeletion)) as [->|Hne].
    + rewrite effect_drop, He by done. rewrite drop_run by done.
      destruct b; simpl in Hc, Ho; try discriminate Ho; try destruct method;
        injection Hc as <-; simpl; (split; [by left|done]).
    + destruct (combine_effect b id k _ flow s Ho Hs Hne Hc Hj Hk Hw) as [Hw' He'].
      split; [by right|done].
Qed.
End transparency.

(** ** Properties *)
Section properties.
Context {J : JsonValue} {E : Type}.

(** Called on enqueued tasks that concern an index, the autobatcher never
    reaches its unreachable code; it returns nothing on no task, and otherwise
    a batch whose ids are exactly those of a non-empty prefix of the tasks. *)
Theorem autobatch_takes_a_prefix (enqueued : list (TaskId * KindWithContent))
    (index_already_exists : bool) (primary_key : option string) :
  Forall (λ e, batchable (E:=E) e.2) enqueued →
  (enqueued = [] ∧ autobatch (E:=E) enqueued index_already_exists primary_key = Ok None) ∨
  ∃ b create p rest,
    autobatch (E:=E) enqueued index_already_exists primary_key = Ok (Some (b, create)) ∧
    enqueued = p ++ rest ∧ p ≠ [] ∧ batch_ids b ≡ₚ p.*1.
Proof.
  intros Hall. destruct (decide (enqueued = [])) as [->|Hne]; [by left|right].
  destruct (autobatch_grown index_already_exists primary_key _ Hall Hne)
    as (flow & create & p & rest & Hr & -> & Hg).
  exists (flow_batch flow), create, p, rest.
  split_and!; [done|done|by eapply grown_nonempty|by eapply grown_ids].
Qed.

(** When the index does not exist and the batch is not to create it, no
    task of the batch had the right to create it, so that none is failed by
    the rights of another one. *)
Theorem autobatch_respects_creation_rights (enqueued : list (TaskId * KindWithContent))
    (primary_key : option string) (b : BatchKind) :
  Forall (λ e, batchable (E:=E) e.2) enqueued →
  autobatch (E:=E) enqueued false primary_key = Ok (Some (b, false)) →
  ∃ p rest, enqueued = p ++ rest ∧ batch_ids b ≡ₚ p.*1 ∧
    Forall (λ e, ¬ creates_index (E:=E) e.2) p.
Proof.
  intros Hall Hr. assert (enqueued ≠ []) as Hne by by intros ->.
  destruct (autobatch_grown false primary_key _ Hall Hne)
    as (flow & create & p & rest & Hr' & -> & Hg).
  rewrite Hr in Hr'. injection Hr' as -> <-. exists p, rest.
  split_and!; [done|by eapply grown_ids|by eapply grown_rights].
Qed.

(** The imports of a batch agree on the primary key: when the index has
    none they all carry the same one; when it has one, and the batch does not
    start with a deletion of documents, they carry none or that one.  After a
    deletion the check is missed: an import with another key joins the batch of
    the deletion, which it then makes fail. *)
Theorem autobatch_primary_keys (enqueued : list (TaskId * KindWithContent))
    (index_already_exists : bool) (primary_key : option string) (b : BatchKind)
    (create : bool) :
  Forall (λ e, batchable (E:=E) e.2) enqueued →
  autobatch (E:=E) enqueued index_already_exists primary_key = Ok (Some (b, create)) →
  (∃ p rest, enqueued = p ++ rest ∧ batch_ids b ≡ₚ p.*1 ∧
    (primary_key = None → ∃ x, imports_with (E:=E) x p) ∧
    (∀ i, primary_key = Some i → 1 < length p →
       (∀ e, head p = Some e → kind_of (E:=E) e.2 ≠ Some ADocumentDeletion) →
       imports_fit (E:=E) i p)) ∧
  (∀ id1 id2 uid ids i other method file count allow,
     autobatch (E:=E) [(id1, DocumentDeletion uid ids);
        (id2, DocumentAdditionOrUpdate uid (Some other) method file count allow)] true (Some i)
     = Ok (Some (BDocumentOperation method allow (Some other) [id1; id2], false))).
Proof.
  intros Hall Hr. split.
  - assert (enqueued ≠ []) as Hne by by intros ->.
    destruct (autobatch_grown index_already_exists primary_key _ Hall Hne)
      as (flow & create' & p & rest & Hr' & -> & Hg).
    rewrite Hr in Hr'. injection Hr' as -> ->. exists p, rest.
    split_and!; [done|by eapply grown_ids| |].
    + intros ->. by destruct (grown_no_index_key _ _ _ _ Hg) as [? _].
    + intros i -> Hl Hh. by apply (grown_index_key _ _ _ _ _ Hg Hh).
  - intros. unfold autobatch, new. simpl. unfold accumulate. simpl.
    assert (compatible_primary_keys (BDocumentDeletion [id1])
      (ADocumentImport method allow (Some other)) (Some i) = true) as ->; [|done].
    unfold compatible_primary_keys. simpl. by rewrite orb_true_r.
Qed.

End properties.

Module Demo.
Import UnitJson.
Definition file : Uuid := Vector.const Ascii.zero 16.
Definition import (pk : option string) (allow : bool) : KindWithContent :=
  DocumentAdditionOrUpdate "movies" pk ReplaceDocuments file 1 allow.
Definition new_settings : Settings Unchecked := Settings.not_set.
Definition queue : list (TaskId * KindWithContent) :=
  [(3, import None false); (5, SettingsUpdate "movies" new_settings false false);
   (6, import None false); (8, DocumentClear "movies"); (9, IndexCreation "movies" None)]%N.

Lemma queue_batchable : Forall (λ e, batchable (E:=Error) e.2) queue.
Proof. repeat constructor; eexists; reflexivity. Defined.

Lemma autobatch_takes_a_prefix_witness :
  Forall (λ e, batchable (E:=Error) e.2) queue ∧
  ∃ b create p rest, autobatch (E:=Error) queue true None = Ok (Some (b, create)) ∧
    queue = p ++ rest ∧ p ≠ [] ∧ batch_ids b ≡ₚ p.*1.
Proof.
  split; [exact queue_batchable|].
  destruct (autobatch_takes_a_prefix queue true None queue_batchable) as [[H _]|H];
    [discriminate H|exact H].
Defined.

Lemma autobatch_respects_creation_rights_witness :
  ∃ p rest, queue = p ++ rest ∧
    batch_ids (BClearAndSettings [3; 6; 8]%N false [5]%N) ≡ₚ p.*1 ∧
    Forall (λ e, ¬ creates_index (E:=Error) e.2) p.
Proof.
  apply (autobatch_respects_creation_rights queue None); [exact queue_batchable|].
  vm_compute. reflexivity.
Defined.

Lemma autobatch_primary_keys_witness :
  ∃ p rest, queue = p ++ rest ∧
    batch_ids (BClearAndSettings [3; 6; 8]%N false [5]%N) ≡ₚ p.*1 ∧
    ∃ x, imports_with (E:=Error) x p.
Proof.
  destruct (autobatch_primary_keys (E:=Error) queue true None
    (BClearAndSettings [3; 6; 8]%N false [5]%N) false queue_batchable) as [H _].
  - vm_compute. reflexivity.
  - destruct H as (p & rest & H1 & H2 & H3 & _). exists p, rest.
    split; [exact H1|]. split; [exact H2|exact (H3 eq_refl)].
Defined.

(** An index as its documents, a list of imported files, and its settings. *)
Definition index_state : Type := option (list Uuid * nat).
#[export] Instance list_effect : IndexEffect index_state := {|
  effect kind s :=
    match kind, s with
    | DocumentAdditionOrUpdate _ _ _ f _ _, Some (docs, n) => Some (f :: docs, n)
    | DocumentDeletion _ _, Some (docs, n) => Some (tail docs, n)
    | DocumentClear _, Some (docs, n) => Some ([], n)
    | SettingsUpdate _ _ _ _, Some (docs, n) => Some (docs, n + 1)
    | IndexDeletion _, _ => None
    | _, _ => s
    end;
  clear s := match s with Some (_, n) => Some ([], n) | None => None end;
  drop_index s := None
|}.

#[export] Instance list_effect_laws : IndexEffectLaws (E:=Error) (S:=index_state).
Proof.
  split.
  - intros [] s H; simpl in H; try discriminate H; by destruct s as [[]|].
  - intros [] s H; simpl in H; try discriminate H; by destruct s as [[]|].
  - intros [] k s H Hd; simpl in H; simplify_eq; try discriminate Hd; by destruct s as [[]|].
  - intros [] s H; simpl in H; try discriminate H; by destruct s as [[]|].
  - done.
  - intros [] [] k a s H1 H2 Hd; simpl in H1, H2; simplify_eq; try discriminate Hd;
      by destruct s as [[]|].
Defined.

Definition queued (id : TaskId) : KindWithContent :=
  match List.find (λ e, N.eqb e.1 id) queue with Some e => e.2 | None => SnapshotCreation end.

End Demo.
