(* ===== verification/Scheduler.v ===== *)
(** * The index scheduler (index-scheduler/src/lib.rs)

    Queries on the task queue, the registration of tasks, the automatic cleanup
    and the memory budget.  Instants are given by the caller; the sizes of the
    LMDB environment and the success of a commit are parameters of [register]. *)
From S2P Require Import Prelude Settings Keys Auth Errors Tasks TaskQueue.
From stdpp Require Import pretty.

(** ** Queries *)
Record Query := mkQuery {
  q_limit : option N;
  q_from : option N;
  q_statuses : option (list Status);
  q_types : option (list Kind);
  q_index_uids : option (list string);
  q_uids : option (list TaskId);
  q_canceled_by : option (list TaskId);
  q_before_enqueued_at : option OffsetDateTime;
  q_after_enqueued_at : option OffsetDateTime;
  q_before_started_at : option OffsetDateTime;
  q_after_started_at : option OffsetDateTime;
  q_before_finished_at : option OffsetDateTime;
  q_after_finished_at : option OffsetDateTime
}.

#[export] Instance query_eq_dec : EqDecision Query.
Proof. solve_decision. Defined.

Definition default_query : Query :=
  mkQuery None None None None None None None None None None None None None.

Definition query_is_empty (self : Query) : bool :=
  match self with
  | mkQuery None None None None None None None None None None None None None => true
  | _ => false
  end.

Definition with_index (self : Query) (index_uid : string) : Query :=
  mkQuery (q_limit self) (q_from self) (q_statuses self) (q_types self)
    (Some (default [] (q_index_uids self) ++ [index_uid]))
    (q_uids self) (q_canceled_by self)
    (q_before_enqueued_at self) (q_after_enqueued_at self)
    (q_before_started_at self) (q_after_started_at self)
    (q_before_finished_at self) (q_after_finished_at self).

(** ** The tasks being processed *)
Record ProcessingTasks := mkProcessing {
  processing_started_at : OffsetDateTime;
  processing : gset TaskId
}.

Definition start_processing_at (started_at : OffsetDateTime) (processing : gset TaskId)
    : ProcessingTasks := mkProcessing started_at processing.

Definition stop_processing (self : ProcessingTasks) : ProcessingTasks :=
  mkProcessing (processing_started_at self) ∅.

Definition must_cancel_processing_tasks (self : ProcessingTasks)
    (canceled_tasks : gset TaskId) : bool :=
  negb (bool_decide (processing self ## canceled_tasks)).

(** ** Bitmaps in the order of their ids *)
Definition sorted_ids (s : gset TaskId) : list TaskId := merge_sort N.le (elements s).

(** [tasks.into_iter().rev().take(n).collect()]. *)
Definition newest (n : N) (s : gset TaskId) : gset TaskId :=
  list_to_set (take (N.to_nat n) (rev (sorted_ids s))).

Definition saturating_add_u32 (a b : N) : N := N.min (a + b) u32_max.

Section scheduler.
Context {J : JsonValue}.

(** The part of the scheduler that its operations change. *)
Record IndexScheduler := mkScheduler {
  db : TaskDb;
  processing_tasks : ProcessingTasks;
  must_stop_processing : bool;
  file_store : gset Uuid;
  wake_up : bool
}.

Definition with_db (d : TaskDb) (s : IndexScheduler) : IndexScheduler :=
  mkScheduler d (processing_tasks s) (must_stop_processing s) (file_store s) (wake_up s).
Definition with_processing (p : ProcessingTasks) (s : IndexScheduler) : IndexScheduler :=
  mkScheduler (db s) p (must_stop_processing s) (file_store s) (wake_up s).
Definition with_must_stop (b : bool) (s : IndexScheduler) : IndexScheduler :=
  mkScheduler (db s) (processing_tasks s) b (file_store s) (wake_up s).
Definition with_files (f : gset Uuid) (s : IndexScheduler) : IndexScheduler :=
  mkScheduler (db s) (processing_tasks s) (must_stop_processing s) f (wake_up s).
Definition signal (s : IndexScheduler) : IndexScheduler :=
  mkScheduler (db s) (processing_tasks s) (must_stop_processing s) (file_store s) true.

(** *** [get_task_ids] *)
Definition filter_from (from : option N) (tasks : gset TaskId) : gset TaskId :=
  match from with
  | Some from => remove_from (saturating_add_u32 from 1) tasks
  | None => tasks
  end.

Definition filter_statuses (d : TaskDb) (processing : gset TaskId)
    (statuses : option (list Status)) (tasks : gset TaskId) : gset TaskId :=
  match statuses with
  | Some status =>
      let status_tasks := foldl (λ status_tasks st,
        status_tasks ∪ match st with
                       | Processing => processing
                       | _ => get_status d st
                       end) ∅ status in
      let tasks := if decide (Processing ∈ status) then tasks else tasks ∖ processing in
      tasks ∩ status_tasks
  | None => tasks
  end.

Definition filter_uids (uids : option (list TaskId)) (tasks : gset TaskId) : gset TaskId :=
  match uids with
  | Some uids => tasks ∩ list_to_set uids
  | None => tasks
  end.

Definition canceled_tasks (d : TaskDb) (canceled_by : list TaskId) : gset TaskId :=
  foldl (λ all_canceled cancel_task_uid,
    match canceled_by_db d !! cancel_task_uid with
    | Some ids => all_canceled ∪ ids
    | None => all_canceled
    end) ∅ canceled_by.

Definition filter_kinds (d : TaskDb) (kinds : option (list Kind)) (tasks : gset TaskId)
    : gset TaskId :=
  match kinds with
  | Some kind => tasks ∩ foldl (λ kind_tasks kind, kind_tasks ∪ get_kind d kind) ∅ kind
  | None => tasks
  end.

Definition filter_indexes (d : TaskDb) (index_uids : option (list string))
    (tasks : gset TaskId) : gset TaskId :=
  match index_uids with
  | Some index =>
      tasks ∩ foldl (λ tasks index, tasks ∪ TaskQueue.index_tasks d index) ∅ index
  | None => tasks
  end.

(** [RangeBounds::contains] of two bounds, on the date of the processing tasks. *)
Definition processing_within (after before : option OffsetDateTime) (started_at : OffsetDateTime)
    (filtered_processing_tasks : gset TaskId) : gset TaskId :=
  let clear start end_ :=
    if above (map_bound start id) started_at && below (map_bound end_ id) started_at
    then filtered_processing_tasks else ∅ in
  match after, before with
  | None, None => filtered_processing_tasks
  | None, Some before => clear Unbounded (Excluded before)
  | Some after, None => clear (Excluded after) Unbounded
  | Some after, Some before => clear (Excluded after) (Excluded before)
  end.

Definition filter_started (d : TaskDb) (p : ProcessingTasks)
    (after before : option OffsetDateTime) (tasks : gset TaskId) : gset TaskId :=
  let filtered_non_processing_tasks := tasks ∖ processing p in
  let filtered_processing_tasks := tasks ∩ processing p in
  let filtered_processing_tasks :=
    processing_within after before (processing_started_at p) filtered_processing_tasks in
  let filtered_non_processing_tasks :=
    keep_tasks_within_datetimes filtered_non_processing_tasks (started_at_db d) after before in
  filtered_non_processing_tasks ∪ filtered_processing_tasks.

(** The filters on kinds, indexes and dates, and the limit, after the early
    return on [canceled_by]. *)
Definition filter_rest (s : IndexScheduler) (query : Query) (tasks : gset TaskId)
    : gset TaskId :=
  let tasks := filter_kinds (db s) (q_types query) tasks in
  let tasks := filter_indexes (db s) (q_index_uids query) tasks in
  let tasks := filter_started (db s) (processing_tasks s)
                 (q_after_started_at query) (q_before_started_at query) tasks in
  let tasks := keep_tasks_within_datetimes tasks (enqueued_at_db (db s))
                 (q_after_enqueued_at query) (q_before_enqueued_at query) in
  let tasks := keep_tasks_within_datetimes tasks (finished_at_db (db s))
                 (q_after_finished_at query) (q_before_finished_at query) in
  match q_limit query with Some limit => newest limit tasks | None => tasks end.

Definition get_task_ids (s : IndexScheduler) (query : Query) : gset TaskId :=
  let tasks := all_task_ids (db s) in
  let tasks := filter_from (q_from query) tasks in
  let tasks := filter_statuses (db s) (processing (processing_tasks s)) (q_statuses query) tasks in
  let tasks := filter_uids (q_uids query) tasks in
  match q_canceled_by query with
  | Some canceled_by =>
      let all_canceled_tasks := canceled_tasks (db s) canceled_by in
      if decide (all_canceled_tasks = ∅) then ∅
      else filter_rest s query (tasks ∩ all_canceled_tasks)
  | None => filter_rest s query tasks
  end.

(** *** Statistics *)
Definition get_stats (s : IndexScheduler) : gmap string (gmap string N) :=
  let statuses := list_to_map
    ((λ st, (status_to_string st, bitmap_len (get_status (db s) st))) <$> all_statuses) in
  let types := list_to_map
    ((λ k, (kind_to_string k, bitmap_len (get_kind (db s) k))) <$> all_kinds) in
  let indexes := bitmap_len <$> index_tasks_db (db s) in
  <["indexes" := indexes]> (<["types" := types]> {["statuses" := statuses]}).

Definition is_index_processing (s : IndexScheduler) (index : string) : bool :=
  (0 <? bitmap_len (processing (processing_tasks s) ∩ TaskQueue.index_tasks (db s) index))%N.

(** *** Queries of a user *)
Definition discard_unrelated_kinds (d : TaskDb) (tasks : gset TaskId) : gset TaskId :=
  foldl (λ tasks kind, tasks ∖ get_kind d kind) tasks
    (List.filter (λ kind, negb (related_to_one_index kind)) all_kinds).

Definition discard_unauthorized {Value} (d : TaskDb) (filters : AuthFilter Value)
    (tasks : gset TaskId) : gset TaskId :=
  foldl (λ tasks (entry : string * gset TaskId),
    if negb (is_index_authorized filters entry.1) then tasks ∖ entry.2 else tasks)
    tasks (map_to_list (index_tasks_db d)).

Definition get_task_ids_from_authorized_indexes {Value} (s : IndexScheduler) (query : Query)
    (filters : AuthFilter Value) : gset TaskId :=
  let tasks := get_task_ids s query in
  let tasks :=
    if bool_decide (q_index_uids query ≠ None) || negb (all_indexes_authorized filters)
    then discard_unrelated_kinds (db s) tasks else tasks in
  if negb (all_indexes_authorized filters) then discard_unauthorized (db s) filters tasks
  else tasks.

Definition with_processing_status (p : ProcessingTasks) (task : Task) : Task :=
  if decide (uid task ∈ processing p)
  then mkTask (uid task) (enqueued_at task) (Some (processing_started_at p)) (finished_at task)
         (error task) (canceled_by task) (details task) Processing (kind task)
  else task.

Definition get_tasks_from_authorized_indexes {Value} (s : IndexScheduler) (query : Query)
    (filters : AuthFilter Value) : outcome Error (list Task) :=
  let tasks := get_task_ids_from_authorized_indexes s query filters in
  found ← get_existing_tasks (db s)
    (take (N.to_nat (default u32_max (q_limit query))) (rev (sorted_ids tasks)));
  Ok (if decide (processing (processing_tasks s) = ∅) then found
      else map (with_processing_status (processing_tasks s)) found).

(** *** Registration *)

(** What the environment decides during a registration: the date, the sizes of
    the LMDB environment, LMDB's error for a key out of order, and the failure
    of the commit, if any. *)
Record RegisterEnv := mkRegisterEnv {
  env_now : OffsetDateTime;
  env_non_free_pages_size : N;
  env_map_size : N;
  env_key_exist : Foreign;
  env_commit : option Foreign
}.

Definition is_non_empty_task_deletion (kind : KindWithContent) : bool :=
  match kind with
  | TaskDeletion _ tasks => negb (bool_decide (tasks = ∅))
  | _ => false
  end.

Definition no_space_left (env : RegisterEnv) (kind : KindWithContent) : bool :=
  negb (is_non_empty_task_deletion kind)
  && (50 <? wrap64 (env_non_free_pages_size env * 100) `div` env_map_size env)%N.

(** [Database::append] refuses a key that is not above all the others. *)
Definition append_task (key_exist : Foreign) (task : Task) (d : TaskDb)
    : outcome Error TaskDb :=
  if forallb (λ id, (id <? uid task)%N) (elements (dom (all_tasks d)))
  then Ok (with_all_tasks (<[uid task := task]> (all_tasks d)) d)
  else Err (Heed key_exist).

(** The entries of a new task in the inverted databases. *)
Definition index_new_task (task : Task) (d : TaskDb) : TaskDb :=
  let d := foldl (λ d index, update_index index (λ bitmap, {[uid task]} ∪ bitmap) d) d
             (Tasks.indexes task) in
  let d := update_status Enqueued (λ bitmap, {[uid task]} ∪ bitmap) d in
  let d := update_kind (as_kind (kind task)) (λ bitmap, {[uid task]} ∪ bitmap) d in
  with_enqueued_at (insert_task_datetime (enqueued_at task) (uid task) (enqueued_at_db d)) d.

Definition new_task (now : OffsetDateTime) (uid : TaskId) (kind : KindWithContent) : Task :=
  filter_out_references_to_newer_tasks
    (mkTask uid now None None None None (default_details kind) Enqueued kind).

(** [file_store.delete], without the errors of the file system. *)
Definition delete_update_file (uuid : Uuid) (s : IndexScheduler) : IndexScheduler :=
  with_files (file_store s ∖ {[uuid]}) s.

Definition delete_persisted_task_data (task : Task) (s : IndexScheduler) : IndexScheduler :=
  match content_uuid task with
  | Some content_file => delete_update_file content_file s
  | None => s
  end.

Definition register (env : RegisterEnv) (kind : KindWithContent)
    : ST IndexScheduler Error Task := λ s,
  if no_space_left env kind then (Err NoSpaceLeftInTaskQueue, s)
  else
    let task := new_task (env_now env) (next_task_id (db s)) kind in
    match
      check_index_swap_validity task;;
      d ← append_task (env_key_exist env) task (db s);
      Ok (index_new_task task d)
    with
    | Ok d =>
        match env_commit env with
        | Some e => (Err (Heed e), delete_persisted_task_data task s)
        | None =>
            let s := with_db d s in
            let s :=
              match kind with
              | TaskCancelation _ tasks =>
                  if must_cancel_processing_tasks (processing_tasks s) tasks
                  then with_must_stop true s else s
              | _ => s
              end in
            (Ok task, signal s)
        end
    | Err e => (Err e, s)
    | Panic p => (Panic p, s)
    end.

(** *** Cleanup of the queue

    [format] is the RFC 3339 formatter of the [time] crate. *)
Definition cleanup_task_queue (format : OffsetDateTime → option string)
    (max_number_of_tasks : N) (env : RegisterEnv) : ST IndexScheduler Error unit := λ s,
  let nb_tasks := bitmap_len (all_task_ids (db s)) in
  if (nb_tasks <? max_number_of_tasks)%N then (Ok tt, s)
  else
    let finished := get_status (db s) Succeeded ∪ get_status (db s) Failed
                    ∪ get_status (db s) Canceled in
    let to_delete := newest 100000 finished in
    if (bitmap_len to_delete <? 2)%N then (Ok tt, s)
    else
      match last (sorted_ids to_delete) with
      | None => (Panic "called `Option::unwrap()` on a `None` value", s)
      | Some newest_task_id =>
          match get_task (db s) newest_task_id with
          | None => (Err CorruptedTaskQueue, s)
          | Some last_task_to_delete =>
              let delete_before := (enqueued_at last_task_to_delete + 1)%Z in
              match format delete_before with
              | None => (Err CorruptedTaskQueue, s)
              | Some date =>
                  match register env (TaskDeletion
                    ("?beforeEnqueuedAt=" +:+ date +:+ "&statuses=succeeded,failed,canceled")
                    to_delete) s with
                  | (Ok _, s) => (Ok tt, s)
                  | (Err e, s) => (Err e, s)
                  | (Panic p, s) => (Panic p, s)
                  end
              end
          end
      end.
End scheduler.

(** ** The memory budget

    [is_good_heed] tells whether an environment of a size opens; [fuel] bounds
    the dichotomic search and [page_size] is the system's. *)
Record IndexBudget := mkBudget {
  map_size : N;
  index_count : N;
  task_db_size : N
}.

Definition DEFAULT_BUDGET : N := 80 * 1024 * 1024 * 1024 * 1024.

Definition clamp_to_page_size (page_size size : N) : N :=
  (size `div` page_size * page_size)%N.

(** The part of [index_budget] after the discovery of the total. *)
Definition split_budget {E} (page_size base_map_size task_db_size max_index_count budget : N)
    : outcome E IndexBudget :=
  let budget := (budget `div` 2)%N in
  let task_db_size :=
    if (budget `div` 2 <? task_db_size)%N
    then clamp_to_page_size page_size (wrap64 (budget * 2) `div` 5)%N else task_db_size in
  let budget := (budget - task_db_size)%N in
  if (base_map_size =? 0)%N then Panic "attempt to divide by zero"
  else
    let index_count := (budget `div` base_map_size)%N in
    if (index_count <? 2)%N then
      Ok (mkBudget (wrap64 (budget * 2) `div` 5)%N 1 task_db_size)
    else
      let index_count := (index_count - 1)%N in
      let index_count :=
        if (max_index_count <? index_count)%N then max_index_count else index_count in
      Ok (mkBudget base_map_size index_count task_db_size).

Definition index_budget {E} (fuel : nat) (is_good_heed : N → bool) (page_size base_map_size
    task_db_size max_index_count : N) : outcome E IndexBudget :=
  budget ←
    (if is_good_heed DEFAULT_BUDGET then Ok DEFAULT_BUDGET
     else match dichotomic_search fuel (DEFAULT_BUDGET `div` 2)%N is_good_heed with
          | Some budget => Ok budget
          | None => Panic "out of fuel"
          end);
  split_budget page_size base_map_size task_db_size max_index_count budget.

(** ** Facts on bitmaps *)
Lemma elem_of_unions {A} (f : A → gset TaskId) l acc i :
  i ∈ foldl (λ acc x, acc ∪ f x) acc l ↔ i ∈ acc ∨ ∃ x, x ∈ l ∧ i ∈ f x.
Proof.
  revert acc. induction l as [|y l IH]; intros acc; simpl.
  - split; [by left|]. intros [?|(x & Hx & _)]; [done|]. by apply not_elem_of_nil in Hx.
  - rewrite IH, elem_of_union. split.
    + intros [[?|?]|(x & Hx & Hi)]; [by left|right; exists y; split; [by left|done]|].
      right. exists x. split; [by right|done].
    + intros [?|(x & [->|Hx]%elem_of_cons & Hi)]; [by left; left|by left; right|].
      right. by exists x.
Qed.

Lemma elem_of_differences {A} (P : A → bool) (f : A → gset TaskId) l acc i :
  i ∈ foldl (λ acc x, if P x then acc ∖ f x else acc) acc l ↔
  i ∈ acc ∧ ∀ x, x ∈ l → P x = true → i ∉ f x.
Proof.
  revert acc. induction l as [|y l IH]; intros acc; simpl.
  - split; [|by intros [? _]]. intros ?. split; [done|]. by intros x ?%not_elem_of_nil.
  - rewrite IH. destruct (P y) eqn:Hy.
    + rewrite elem_of_difference. split.
      * intros [[Ha Hn] Hl]. split; [done|]. intros x [->|Hx]%elem_of_cons; auto.
      * intros [Ha Hl]. split.
        -- split; [done|]. apply Hl; [by left|done].
        -- intros x Hx. apply Hl. by right.
    + split.
      * intros [Ha Hl]. split; [done|]. intros x [->|Hx]%elem_of_cons; [congruence|auto].
      * intros [Ha Hl]. split; [done|]. intros x Hx. apply Hl. by right.
Qed.

Lemma elem_of_sorted_ids s i : i ∈ sorted_ids s ↔ i ∈ s.
Proof. unfold sorted_ids. by rewrite merge_sort_Permutation, elem_of_elements. Qed.

Lemma NoDup_sorted_ids s : NoDup (sorted_ids s).
Proof. unfold sorted_ids. rewrite merge_sort_Permutation. apply NoDup_elements. Qed.

Lemma sorted_sorted_ids s : StronglySorted N.le (sorted_ids s).
Proof. apply StronglySorted_merge_sort; [intros ???; lia|intros a b; lia]. Qed.

Lemma length_sorted_ids s : length (sorted_ids s) = size s.
Proof. unfold sorted_ids. by rewrite merge_sort_Permutation. Qed.

Lemma sorted_rev_ids X : StronglySorted (flip N.le) (rev (sorted_ids X)).
Proof.
  pose proof (sorted_sorted_ids X) as Hs. induction Hs as [|a l Hs IH Hall]; simpl; [constructor|].
  apply StronglySorted_app_2; [|done|by repeat constructor].
  intros x1 x2 Hx1 ->%list_elem_of_singleton. apply list_elem_of_In, in_rev in Hx1.
  rewrite Forall_forall in Hall. apply Hall. by apply list_elem_of_In.
Qed.

Lemma strictly_sorted l :
  StronglySorted (flip N.le) l → NoDup l → StronglySorted (λ a b, b < a)%N l.
Proof.
  induction 1 as [|a l Hs IH Hall]; intros Hnd; [constructor|].
  apply NoDup_cons in Hnd as [Ha Hnd]. constructor; [by apply IH|].
  rewrite Forall_forall in Hall |- *. intros x Hx. specialize (Hall x Hx). unfold flip in Hall.
  assert (a ≠ x) by (intros ->; done). lia.
Qed.

Lemma NoDup_take_rev_ids n X : NoDup (take n (rev (sorted_ids X))).
Proof.
  assert (NoDup (rev (sorted_ids X))) as Hnd.
  { apply NoDup_ListNoDup, List.NoDup_rev, NoDup_ListNoDup, NoDup_sorted_ids. }
  rewrite <- (take_drop n) in Hnd. by apply NoDup_app in Hnd as [? _].
Qed.

(** The [n] newest ids of a set: a subset, of the right size, above the others. *)
Lemma newest_spec n s :
  newest n s ⊆ s ∧ size (newest n s) = Nat.min (N.to_nat n) (size s) ∧
  ∀ i j, i ∈ newest n s → j ∈ s → j ∉ newest n s → (j < i)%N.
Proof.
  unfold newest. set (l := rev (sorted_ids s)).
  assert (∀ i, i ∈ l ↔ i ∈ s) as Hl.
  { intros i. unfold l. rewrite <- elem_of_sorted_ids, !list_elem_of_In. symmetry. apply in_rev. }
  assert (NoDup l) as Hnd.
  { unfold l. apply NoDup_ListNoDup, List.NoDup_rev, NoDup_ListNoDup, NoDup_sorted_ids. }
  pose proof (take_drop (N.to_nat n) l) as Htd. split_and!.
  - intros i Hi%elem_of_list_to_set. apply Hl. rewrite <- Htd. apply elem_of_app. by left.
  - rewrite size_list_to_set.
    + rewrite length_take. unfold l. by rewrite length_rev, length_sorted_ids.
    + rewrite <- Htd in Hnd. by apply NoDup_app in Hnd as [? _].
  - intros i j Hi%elem_of_list_to_set Hj Hnj.
    assert (j ∈ drop (N.to_nat n) l) as Hdj.
    { apply Hl in Hj. rewrite <- Htd in Hj. apply elem_of_app in Hj as [Hj|Hj]; [|done].
      exfalso. apply Hnj. by apply elem_of_list_to_set. }
    assert (StronglySorted (flip N.le) l) as Hs by apply sorted_rev_ids.
    rewrite <- Htd in Hs, Hnd. apply StronglySorted_app in Hs as (H1 & _ & _).
    specialize (H1 i j Hi Hdj). simpl in H1.
    assert (i ≠ j); [|unfold flip in H1; lia]. intros ->.
    apply NoDup_app in Hnd as (_ & Hdis & _). by apply (Hdis j).
Qed.

Lemma newest_all n s : size s ≤ N.to_nat n → newest n s = s.
Proof.
  intros Hn. destruct (newest_spec n s) as (Hsub & Hsize & _).
  apply set_eq. intros i. split; [apply Hsub|]. intros Hi.
  assert (newest n s ≡ s) as Heq.
  { apply set_subseteq_size_equiv; [done|lia]. }
  by apply Heq.
Qed.

(** ** What a query selects *)
Section query_spec.
Context {J : JsonValue}.

Definition within (after before : option OffsetDateTime) (x : OffsetDateTime) : Prop :=
  strictly_after after x ∧ strictly_before before x.

Definition date_matches (after before : option OffsetDateTime) (date : option OffsetDateTime)
    : Prop :=
  (after = None ∧ before = None) ∨ ∃ x, date = Some x ∧ within after before x.

(** A task is being processed when it is in the list in memory, whatever its
    status on disk. *)
Definition status_matches (processing : gset TaskId) (statuses : list Status) (t : Task)
    : Prop :=
  if decide (Processing ∈ statuses)
  then uid t ∈ processing ∨ (status t ≠ Processing ∧ status t ∈ statuses)
  else (uid t ∉ processing) ∧ status t ∈ statuses.

Definition if_some {A} (o : option A) (P : A → Prop) : Prop :=
  match o with Some x => P x | None => True end.

Definition query_matches (s : IndexScheduler) (q : Query) (t : Task) : Prop :=
  let p := processing_tasks s in
  if_some (q_from q) (λ from, uid t < saturating_add_u32 from 1)%N ∧
  if_some (q_statuses q) (λ sts, status_matches (processing p) sts t) ∧
  if_some (q_uids q) (λ ids, uid t ∈ ids) ∧
  if_some (q_canceled_by q) (λ ids, ∃ c, c ∈ ids ∧ uid t ∈ bucket (canceled_by_db (db s)) c) ∧
  if_some (q_types q) (λ kinds, as_kind (kind t) ∈ kinds) ∧
  if_some (q_index_uids q) (λ names, ∃ n, n ∈ names ∧ n ∈ Tasks.indexes t) ∧
  (if decide (uid t ∈ processing p)
   then within (q_after_started_at q) (q_before_started_at q) (processing_started_at p)
   else date_matches (q_after_started_at q) (q_before_started_at q) (started_at t)) ∧
  within (q_after_enqueued_at q) (q_before_enqueued_at q) (enqueued_at t) ∧
  date_matches (q_after_finished_at q) (q_before_finished_at q) (finished_at t).

Context (s : IndexScheduler).
Hypothesis (Hc : consistent (db s)).

Let tasks := all_tasks (db s).
Let p := processing (processing_tasks s).

Lemma elem_of_filter_from from X t :
  uid t ∈ filter_from from X ↔
  uid t ∈ X ∧ if_some from (λ from, uid t < saturating_add_u32 from 1)%N.
Proof.
  unfold filter_from, remove_from, if_some. destruct from; [|tauto].
  rewrite elem_of_filter. tauto.
Qed.

Lemma status_of i t st : tasks !! i = Some t → i ∈ get_status (db s) st ↔ status t = st.
Proof. intros Ht. rewrite get_status_spec by done. unfold tasks in Ht. naive_solver. Qed.

Lemma elem_of_filter_statuses sts X t :
  tasks !! uid t = Some t →
  uid t ∈ filter_statuses (db s) p sts X ↔ uid t ∈ X ∧ if_some sts (λ sts, status_matches p sts t).
Proof.
  intros Ht. unfold filter_statuses, if_some, status_matches. destruct sts as [sts|]; [|tauto].
  rewrite elem_of_intersection, elem_of_unions.
  assert ((uid t ∈ (∅ : gset TaskId) ∨ ∃ x, x ∈ sts ∧ uid t ∈ match x with
      | Processing => p | _ => get_status (db s) x end) ↔
    (Processing ∈ sts ∧ uid t ∈ p) ∨ (status t ∈ sts ∧ status t ≠ Processing)) as ->.
  { split.
    - intros [?%elem_of_empty|(x & Hx & Hi)]; [done|].
      destruct x; try (apply (status_of _ _ _ Ht) in Hi; right; by rewrite Hi). by left.
    - intros [[H1 H2]|[H1 H2]]; right; [by exists Processing|].
      exists (status t). split; [done|].
      assert (uid t ∈ get_status (db s) (status t)) by by apply (status_of _ _ _ Ht).
      by destruct (status t). }
  case_decide; [|rewrite elem_of_difference]; destruct (decide (status t = Processing)) as [He|];
    try rewrite He; tauto.
Qed.

Lemma elem_of_filter_kinds kinds X t :
  tasks !! uid t = Some t →
  uid t ∈ filter_kinds (db s) kinds X ↔
  uid t ∈ X ∧ if_some kinds (λ kinds, as_kind (kind t) ∈ kinds).
Proof.
  intros Ht. unfold filter_kinds, if_some. destruct kinds; [|tauto].
  rewrite elem_of_intersection, elem_of_unions.
  setoid_rewrite get_kind_spec; [|done]. unfold tasks in Ht. split.
  - intros [? [?%elem_of_empty|(x & Hx & t' & Ht' & <-)]]; [done|]. by simplify_eq.
  - intros [? ?]. split; [done|]. right. eauto.
Qed.

Lemma elem_of_filter_indexes names X t :
  tasks !! uid t = Some t →
  uid t ∈ filter_indexes (db s) names X ↔
  uid t ∈ X ∧ if_some names (λ names, ∃ n, n ∈ names ∧ n ∈ Tasks.indexes t).
Proof.
  intros Ht. unfold filter_indexes, if_some. destruct names; [|tauto].
  rewrite elem_of_intersection, elem_of_unions.
  setoid_rewrite index_tasks_spec; [|done]. unfold tasks in Ht. split.
  - intros [? [?%elem_of_empty|(x & Hx & t' & Ht' & Hn)]]; [done|]. simplify_eq. eauto.
  - intros [? (n & Hn & Hi)]. split; [done|]. right. eauto.
Qed.

Lemma elem_of_keep get X dates after before t :
  filed_under tasks (λ t, time_keys (get t)) dates → tasks !! uid t = Some t →
  uid t ∈ keep_tasks_within_datetimes X dates after before ↔
  uid t ∈ X ∧ date_matches after before (get t).
Proof.
  intros Hf Ht. rewrite (keep_within_spec get tasks) by done.
  unfold date_matches, within. split.
  - intros [? [?|(t' & x & Ht' & H)]]; [by eauto|]. simplify_eq. eauto 10.
  - intros [? [?|(x & ? & ?)]]; eauto 10.
Qed.

Lemma filed_enqueued : filed_under tasks (λ t, time_keys (Some (enqueued_at t))) (enqueued_at_db (db s)).
Proof. exact (con_enqueued _ Hc). Qed.

Lemma elem_of_filter_started after before X t :
  tasks !! uid t = Some t →
  uid t ∈ filter_started (db s) (processing_tasks s) after before X ↔
  uid t ∈ X ∧
  (if decide (uid t ∈ p) then within after before (processing_started_at (processing_tasks s))
   else date_matches after before (started_at t)).
Proof.
  intros Ht. unfold filter_started. rewrite elem_of_union.
  rewrite (elem_of_keep started_at _ _ _ _ _ (con_started _ Hc) Ht).
  assert (∀ Y, uid t ∈ processing_within after before
      (processing_started_at (processing_tasks s)) Y ↔
    uid t ∈ Y ∧ within after before (processing_started_at (processing_tasks s))) as ->.
  { intros Y. unfold processing_within, within, strictly_after, strictly_before, map_bound, id.
    destruct after as [a|], before as [b|]; simpl; try tauto;
      match goal with |- context [if ?c then _ else _] => destruct c eqn:Hb end;
      rewrite ?andb_true_iff, ?andb_false_iff, ?andb_true_r, ?Z.ltb_lt, ?Z.ltb_ge in Hb;
      split; intros HY; destruct_and?; try (by apply elem_of_empty in HY);
      try (exfalso; lia); split_and?; done. }
  rewrite elem_of_difference, elem_of_intersection. fold p. case_decide; tauto.
Qed.

Lemma canceled_tasks_spec ids i :
  i ∈ canceled_tasks (db s) ids ↔ ∃ c, c ∈ ids ∧ i ∈ bucket (canceled_by_db (db s)) c.
Proof.
  assert (canceled_tasks (db s) ids =
    foldl (λ acc c, acc ∪ bucket (canceled_by_db (db s)) c) ∅ ids) as ->.
  { unfold canceled_tasks, bucket. generalize (∅ : gset TaskId) at 1 3 as acc.
    induction ids as [|c ids IH]; intros acc; [done|]. simpl. rewrite <- IH. f_equal.
    destruct (canceled_by_db (db s) !! c); simpl; [done|]. apply set_eq. set_solver. }
  rewrite elem_of_unions. split; [|by right]. by intros [?%elem_of_empty|?].
Qed.

(** The tasks left before the limit. *)
Definition matching (q : Query) : gset TaskId :=
  get_task_ids s (mkQuery None (q_from q) (q_statuses q) (q_types q) (q_index_uids q)
    (q_uids q) (q_canceled_by q) (q_before_enqueued_at q) (q_after_enqueued_at q)
    (q_before_started_at q) (q_after_started_at q)
    (q_before_finished_at q) (q_after_finished_at q)).

Lemma newest_empty n : newest n ∅ = ∅.
Proof. apply newest_all. rewrite size_empty. lia. Qed.

Lemma get_task_ids_limit q :
  get_task_ids s q =
  match q_limit q with Some limit => newest limit (matching q) | None => matching q end.
Proof.
  unfold matching, get_task_ids, filter_rest; simpl.
  destruct (q_canceled_by q); [case_decide|]; destruct (q_limit q);
    rewrite ?newest_empty; done.
Qed.

Lemma elem_of_filter_rest q X t :
  q_limit q = None → tasks !! uid t = Some t →
  uid t ∈ filter_rest s q X ↔ uid t ∈ X ∧
  if_some (q_types q) (λ kinds, as_kind (kind t) ∈ kinds) ∧
  if_some (q_index_uids q) (λ names, ∃ n, n ∈ names ∧ n ∈ Tasks.indexes t) ∧
  (if decide (uid t ∈ p)
   then within (q_after_started_at q) (q_before_started_at q)
          (processing_started_at (processing_tasks s))
   else date_matches (q_after_started_at q) (q_before_started_at q) (started_at t)) ∧
  date_matches (q_after_enqueued_at q) (q_before_enqueued_at q) (Some (enqueued_at t)) ∧
  date_matches (q_after_finished_at q) (q_before_finished_at q) (finished_at t).
Proof.
  intros Hl Ht. unfold filter_rest. rewrite Hl.
  rewrite (elem_of_keep finished_at _ _ _ _ _ (con_finished _ Hc) Ht).
  rewrite (elem_of_keep (λ t, Some (enqueued_at t)) _ _ _ _ _ filed_enqueued Ht).
  rewrite elem_of_filter_started, elem_of_filter_indexes, elem_of_filter_kinds by done.
  tauto.
Qed.

Lemma date_matches_Some after before x :
  date_matches after before (Some x) ↔ within after before x.
Proof.
  unfold date_matches, within. split.
  - intros [[-> ->]|(y & [= <-] & ?)]; done.
  - intros ?. right. by exists x.
Qed.

Lemma filter_subseteq q : matching q ⊆ dom tasks.
Proof.
  unfold tasks. rewrite <- all_task_ids_spec by done.
  assert (∀ X d a b, keep_tasks_within_datetimes X d a b ⊆ X) as Hk.
  { intros X d a b. unfold keep_tasks_within_datetimes. destruct a, b; set_solver. }
  assert (∀ X : gset TaskId, filter_rest s (mkQuery None (q_from q) (q_statuses q) (q_types q)
    (q_index_uids q) (q_uids q) (q_canceled_by q) (q_before_enqueued_at q)
    (q_after_enqueued_at q) (q_before_started_at q) (q_after_started_at q)
    (q_before_finished_at q) (q_after_finished_at q)) X ⊆ X) as Hr.
  { intros X. unfold filter_rest; simpl. do 2 (etransitivity; [apply Hk|]).
    unfold filter_started, processing_within, filter_indexes, filter_kinds.
    assert (∀ (b : bool) (Z : gset TaskId), (if b then Z else ∅) ⊆ Z) as Hif.
    { intros [] Z; set_solver. }
    intros i Hi. apply elem_of_union in Hi as [Hi|Hi].
    - apply Hk in Hi. destruct (q_index_uids q), (q_types q); set_solver.
    - assert (i ∈ filter_indexes (db s) (q_index_uids q) (filter_kinds (db s) (q_types q) X)).
      { destruct (q_after_started_at q), (q_before_started_at q);
          try apply Hif in Hi; apply elem_of_intersection in Hi as [? _]; done. }
      unfold filter_indexes, filter_kinds in *.
      destruct (q_index_uids q), (q_types q); set_solver. }
  assert (∀ X : gset TaskId, filter_uids (q_uids q) (filter_statuses (db s)
    (processing (processing_tasks s)) (q_statuses q) (filter_from (q_from q) X)) ⊆ X) as Hf.
  { intros X i. unfold filter_uids, filter_statuses, filter_from, remove_from.
    destruct (q_uids q), (q_statuses q), (q_from q); try case_decide; set_solver. }
  unfold matching, get_task_ids; simpl. destruct (q_canceled_by q).
  - case_decide; [set_solver|]. etransitivity; [apply Hr|].
    specialize (Hf (all_task_ids (db s))). set_solver.
  - etransitivity; [apply Hr|apply Hf].
Qed.

Lemma elem_of_matching q i :
  i ∈ matching q ↔ ∃ t, tasks !! i = Some t ∧ query_matches s q t.
Proof.
  assert (∀ t, tasks !! i = Some t → uid t = i) as Huid by apply (con_uid _ Hc).
  assert (∀ t, tasks !! i = Some t → (i ∈ matching q ↔ query_matches s q t)) as Hm.
  { intros t Ht. specialize (Huid t Ht) as <-.
    assert (uid t ∈ filter_uids (q_uids q) (filter_statuses (db s)
        (processing (processing_tasks s)) (q_statuses q)
        (filter_from (q_from q) (all_task_ids (db s)))) ↔
      if_some (q_from q) (λ from, uid t < saturating_add_u32 from 1)%N ∧
      if_some (q_statuses q) (λ sts, status_matches p sts t) ∧
      if_some (q_uids q) (λ ids, uid t ∈ ids)) as Hu.
    { assert (∀ o X, uid t ∈ filter_uids o X ↔ uid t ∈ X ∧ if_some o (λ ids, uid t ∈ ids)) as ->.
      { intros [ids|] X; unfold filter_uids, if_some; [|tauto].
        by rewrite elem_of_intersection, elem_of_list_to_set. }
      fold p. rewrite elem_of_filter_statuses, elem_of_filter_from by done.
      assert (uid t ∈ all_task_ids (db s)).
      { rewrite all_task_ids_spec by done. by apply elem_of_dom_2 in Ht. }
      tauto. }
    unfold matching, get_task_ids, query_matches; simpl. fold p. fold p in Hu.
    rewrite <- (date_matches_Some _ _ (enqueued_at t)). destruct (q_canceled_by q) as [ids|]; simpl.
    - pose proof (canceled_tasks_spec ids (uid t)) as Hca.
      case_decide as Hemp.
      + rewrite Hemp in Hca. split; [by intros ?%elem_of_empty|].
        intros (_ & _ & _ & Hx & _). apply Hca in Hx. by apply elem_of_empty in Hx.
      + rewrite elem_of_filter_rest by done. rewrite elem_of_intersection, Hu, Hca. simpl. tauto.
    - rewrite elem_of_filter_rest by done. rewrite Hu. simpl. tauto. }
  split.
  - intros Hi. pose proof (filter_subseteq q i Hi) as [t Ht]%elem_of_dom.
    exists t. split; [done|]. by apply Hm.
  - intros (t & Ht & Hq). by apply (Hm t).
Qed.
End query_spec.

Section query_theorems.
Context {J : JsonValue}.

(** C21: On a consistent queue, a query selects exactly the tasks that match all
    of its filters, a task being processed counting as [processing] from the
    date its batch started; a limit keeps that many of the selected tasks, the
    newest ones. *)
Theorem get_task_ids_spec (s : IndexScheduler) (q : Query) :
  consistent (db s) →
  ∃ selected : gset TaskId,
    (∀ i, i ∈ selected ↔ ∃ t, all_tasks (db s) !! i = Some t ∧ query_matches s q t) ∧
    (q_limit q = None → get_task_ids s q = selected) ∧
    (∀ limit, q_limit q = Some limit →
       get_task_ids s q ⊆ selected ∧
       size (get_task_ids s q) = Nat.min (N.to_nat limit) (size selected) ∧
       ∀ i j, i ∈ get_task_ids s q → j ∈ selected → j ∉ get_task_ids s q → (j < i)%N).
Proof.
  intros Hc. exists (matching s q). split_and!.
  - intros i. by apply elem_of_matching.
  - intros Hl. by rewrite get_task_ids_limit, Hl.
  - intros limit Hl. rewrite get_task_ids_limit, Hl. apply newest_spec.
Qed.

Lemma get_task_ids_matching s q i : i ∈ get_task_ids s q → i ∈ matching s q.
Proof.
  rewrite get_task_ids_limit. destruct (q_limit q); [|done]. apply newest_spec.
Qed.

(** A task that a query of this user may show. *)
Definition visible {V} (q : Query) (filters : AuthFilter V) (t : Task) : Prop :=
  (q_index_uids q ≠ None ∨ all_indexes_authorized filters = false →
     related_to_one_index (as_kind (kind t)) = true) ∧
  (all_indexes_authorized filters = false →
     ∀ n, n ∈ Tasks.indexes t → is_index_authorized filters n = true).

Lemma elem_of_all_kinds k : k ∈ all_kinds.
Proof. destruct k; set_solver. Qed.

Lemma elem_of_discard_unrelated_kinds d X t :
  consistent d → all_tasks d !! uid t = Some t →
  uid t ∈ discard_unrelated_kinds d X ↔
  uid t ∈ X ∧ related_to_one_index (as_kind (kind t)) = true.
Proof.
  intros Hc Ht. unfold discard_unrelated_kinds.
  rewrite (elem_of_differences (λ _ : Kind, true) (get_kind d)). apply and_iff_compat_l. split.
  - intros H. destruct (related_to_one_index _) eqn:Hk; [done|]. exfalso.
    apply (H (as_kind (kind t))); [|done|apply get_kind_spec; eauto].
    apply list_elem_of_In, filter_In. rewrite Hk, <- list_elem_of_In.
    split; [apply elem_of_all_kinds|done].
  - intros Hk x [_ Hx]%list_elem_of_In%filter_In _ (t' & Ht' & <-)%get_kind_spec; [|done].
    simplify_eq. by rewrite Hk in Hx.
Qed.

Lemma elem_of_discard_unauthorized {V} d (filters : AuthFilter V) X t :
  consistent d → all_tasks d !! uid t = Some t →
  uid t ∈ discard_unauthorized d filters X ↔
  uid t ∈ X ∧ ∀ n, n ∈ Tasks.indexes t → is_index_authorized filters n = true.
Proof.
  intros Hc Ht. unfold discard_unauthorized.
  rewrite (elem_of_differences (λ e : string * gset TaskId,
    negb (is_index_authorized filters e.1)) snd). apply and_iff_compat_l. split.
  - intros H n Hn. destruct (is_index_authorized filters n) eqn:Ha; [done|]. exfalso.
    assert (uid t ∈ bucket (index_tasks_db d) n) as (b & Hb & Hi)%elem_of_bucket_Some.
    { apply (con_index _ Hc). eauto. }
    apply (H (n, b)); [by apply elem_of_map_to_list|simpl; by rewrite Ha|done].
  - intros H [n b] Hb%elem_of_map_to_list Ha Hi. simpl in *.
    assert (uid t ∈ bucket (index_tasks_db d) n) as (t' & Ht' & Hn)%(con_index _ Hc).
    { apply elem_of_bucket_Some. eauto. }
    simplify_eq. by rewrite H in Ha.
Qed.

Lemma discard_subseteq {V} d (filters : AuthFilter V) X :
  discard_unrelated_kinds d X ⊆ X ∧ discard_unauthorized d filters X ⊆ X.
Proof.
  split; intros i Hi.
  - unfold discard_unrelated_kinds in Hi.
    by apply (elem_of_differences (λ _ : Kind, true) (get_kind d)) in Hi as [? _].
  - unfold discard_unauthorized in Hi.
    by apply (elem_of_differences (λ e : string * gset TaskId,
      negb (is_index_authorized filters e.1)) snd) in Hi as [? _].
Qed.

Lemma authorized_ids_spec {V} s q (filters : AuthFilter V) i :
  consistent (db s) →
  i ∈ get_task_ids_from_authorized_indexes s q filters ↔
  i ∈ get_task_ids s q ∧ ∃ t, all_tasks (db s) !! i = Some t ∧ visible q filters t.
Proof.
  intros Hc.
  assert (∀ t, all_tasks (db s) !! i = Some t →
    (i ∈ get_task_ids_from_authorized_indexes s q filters ↔
     i ∈ get_task_ids s q ∧ visible q filters t)) as Ht.
  { intros t Ht. pose proof (con_uid _ Hc _ _ Ht) as <-.
    unfold get_task_ids_from_authorized_indexes, visible.
    destruct (all_indexes_authorized filters); simpl;
      [destruct (decide (q_index_uids q = None))|];
      rewrite ?bool_decide_eq_true_2, ?bool_decide_eq_false_2 by (try tauto; congruence);
      rewrite ?orb_true_r; simpl;
      rewrite ?elem_of_discard_unauthorized, ?elem_of_discard_unrelated_kinds by done;
      naive_solver. }
  split.
  - intros Hi. assert (i ∈ get_task_ids s q) as Hq.
    { unfold get_task_ids_from_authorized_indexes in Hi.
      destruct (negb _) in Hi; [apply discard_subseteq in Hi|];
        destruct (_ || _) in Hi; try done; by apply (discard_subseteq _ filters) in Hi. }
    pose proof (get_task_ids_matching _ _ _ Hq) as (t & Htk & _)%elem_of_matching; [|done].
    split; [done|]. exists t. split; [done|]. by apply (Ht t).
  - intros [Hi (t & Htk & Hv)]. by apply (Ht t).
Qed.

Lemma get_existing_tasks_Ok d l :
  consistent d → (∀ i, i ∈ l → is_Some (all_tasks d !! i)) →
  ∃ ts, get_existing_tasks d l = Ok ts ∧ uid <$> ts = l ∧
    ∀ t, t ∈ ts → all_tasks d !! uid t = Some t.
Proof.
  intros Hc. induction l as [|i l IH]; intros Hl.
  - exists []. split_and!; [done|done|]. by intros t ?%not_elem_of_nil.
  - destruct (Hl i) as [t Ht]; [by left|]. destruct IH as (ts & H1 & H2 & H3).
    { intros j Hj. apply Hl. by right. }
    pose proof (con_uid _ Hc _ _ Ht) as Hu. exists (t :: ts). split_and!.
    + unfold get_existing_tasks in *. cbn [foldr]. rewrite H1.
      unfold get_task. by rewrite Ht.
    + rewrite fmap_cons. by rewrite H2, Hu.
    + intros t' [->|Hin]%elem_of_cons; [by rewrite Hu|auto].
Qed.


Lemma uid_with_processing_status p t : uid (with_processing_status p t) = uid t.
Proof. unfold with_processing_status. by case_decide. Qed.

Lemma with_processing_status_empty p t : processing p = ∅ → with_processing_status p t = t.
Proof. intros Hp. unfold with_processing_status. rewrite Hp. by rewrite decide_False by set_solver. Qed.

(** What a user sees of a consistent queue: the call never fails, the
    tasks come from the newest to the oldest, none twice, and each one is a
    task of the table that matches the query, whose indexes the key gives
    access to, and that concerns one index when the query names indexes or the
    key is restricted; only the status and the starting date of a task being
    processed differ from the table.  Every id the query selects and the user
    may see is there, up to the limit. *)
Theorem get_tasks_from_authorized_indexes_spec {V} (s : IndexScheduler) (q : Query)
    (filters : AuthFilter V) :
  consistent (db s) →
  (∀ i, i ∈ get_task_ids_from_authorized_indexes s q filters ↔
     i ∈ get_task_ids s q ∧ ∃ t, all_tasks (db s) !! i = Some t ∧ visible q filters t) ∧
  ∃ ts, get_tasks_from_authorized_indexes s q filters = Ok ts ∧
    StronglySorted (λ a b, b < a)%N (uid <$> ts) ∧
    length ts = Nat.min (N.to_nat (default u32_max (q_limit q)))
      (size (get_task_ids_from_authorized_indexes s q filters)) ∧
    ∀ t, t ∈ ts → ∃ t0, all_tasks (db s) !! uid t = Some t0 ∧ query_matches s q t0 ∧
      visible q filters t0 ∧ t = with_processing_status (processing_tasks s) t0.
Proof.
  intros Hc. split; [intros i; by apply authorized_ids_spec|].
  set (ids := get_task_ids_from_authorized_indexes s q filters).
  set (l := take (N.to_nat (default u32_max (q_limit q))) (rev (sorted_ids ids))).
  assert (∀ i, i ∈ l → i ∈ ids) as Hl.
  { intros i Hi%elem_of_take. destruct Hi as (j & Hj & _). apply elem_of_sorted_ids, list_elem_of_In, in_rev, list_elem_of_In.
    by apply list_elem_of_lookup_2 in Hj. }
  destruct (get_existing_tasks_Ok (db s) l Hc) as (found & Hf & Hids & Htab).
  { intros i Hi%Hl. apply authorized_ids_spec in Hi as [_ (t & -> & _)]; [by eauto|done]. }
  exists (map (with_processing_status (processing_tasks s)) found).
  unfold get_tasks_from_authorized_indexes. fold ids. fold l. rewrite Hf. simpl.
  assert (uid <$> map (with_processing_status (processing_tasks s)) found = l) as Hu.
  { rewrite <- Hids. clear. induction found as [|t found IH]; [done|].
    simpl. rewrite uid_with_processing_status. f_equal. exact IH. }
  split_and!.
  - case_decide as Hp; [|done]. f_equal. clear -Hp. induction found as [|t found IH]; [done|].
    simpl. by rewrite with_processing_status_empty, <- IH.
  - rewrite Hu. apply strictly_sorted; [|apply NoDup_take_rev_ids].
    pose proof (sorted_rev_ids ids) as Hs.
    rewrite <- (take_drop (N.to_nat (default u32_max (q_limit q)))) in Hs.
    by apply StronglySorted_app in Hs as (_ & Hs & _).
  - rewrite <- (length_fmap uid), Hu. unfold l.
    by rewrite length_take, length_rev, length_sorted_ids.
  - intros t (t0 & <- & Hin)%list_elem_of_In%in_map_iff. apply list_elem_of_In in Hin.
    pose proof (Htab _ Hin) as Ht0. exists t0. rewrite uid_with_processing_status.
    assert (uid t0 ∈ ids) as Hi.
    { apply Hl. rewrite <- Hids. apply list_elem_of_fmap. eauto. }
    apply authorized_ids_spec in Hi as [Hi (t1 & Ht1 & Hv)]; [|done]. simplify_eq.
    split; [done|]. split; [|done].
    apply get_task_ids_matching in Hi. apply elem_of_matching in Hi as (t2 & Ht2 & Hq); [|done].
    by simplify_eq.
Qed.
End query_theorems.

(** ** Registration *)
Section register_theorems.
Context {J : JsonValue}.

Lemma foldr_max_spec (l : list N) :
  (∀ i, i ∈ l → (i <= foldr N.max 0 l)%N) ∧ (l ≠ [] → foldr N.max 0%N l ∈ l).
Proof.
  induction l as [|a l [IH1 IH2]]; simpl; [split; [by intros i ?%not_elem_of_nil|done]|].
  split.
  - intros i [->|Hi%IH1]%elem_of_cons; lia.
  - intros _. destruct (decide (l = [])) as [->|Hne].
    + simpl. rewrite N.max_0_r. by left.
    + destruct (N.max_spec a (foldr N.max 0%N l)) as [[_ ->]|[_ ->]];
        [right; by apply IH2|by left].
Qed.

(** The next id is above every task, when the ids are not exhausted. *)
Lemma next_task_id_fresh d :
  (∀ i, i ∈ dom (all_tasks d) → (i < u32_max)%N) →
  (∀ i, i ∈ dom (all_tasks d) → (i < next_task_id d)%N) ∧ (next_task_id d <= u32_max)%N.
Proof.
  intros Hmax. unfold next_task_id, last_task_id.
  destruct (foldr_max_spec (elements (dom (all_tasks d)))) as [H1 H2].
  assert (∀ i, i ∈ dom (all_tasks d) ↔ i ∈ elements (dom (all_tasks d))) as Hel.
  { intros i. by rewrite elem_of_elements. }
  destruct (elements (dom (all_tasks d))) as [|a l] eqn:He.
  - split; [|unfold u32_max; simpl; lia]. by intros i ?%Hel%not_elem_of_nil.
  - cbn [from_option id]. set (m := foldr N.max 0%N (a :: l)) in *.
    assert (m < u32_max)%N by (apply Hmax, Hel, H2; done). clearbody m.
    rewrite wrap32_small by lia. split; [|lia].
    intros i Hi%Hel%H1. lia.
Qed.

(** What [append] accepts. *)
Lemma append_task_Ok e t d d' :
  append_task e t d = Ok d' ↔
  (∀ i, i ∈ dom (all_tasks d) → (i < uid t)%N) ∧
  d' = with_all_tasks (<[uid t := t]> (all_tasks d)) d.
Proof.
  unfold append_task. setoid_rewrite <- elem_of_elements.
  destruct (forallb _ _) eqn:Hf.
  - rewrite forallb_true in Hf. setoid_rewrite N.ltb_lt in Hf. naive_solver.
  - split; [done|]. intros [H _]. exfalso. apply not_true_iff_false in Hf. apply Hf.
    apply forallb_true. intros i Hi. apply N.ltb_lt. auto.
Qed.

Definition file_indexes (i : TaskId) (names : list string) (d : TaskDb) : TaskDb :=
  foldl (λ d index, update_index index (λ bitmap, {[i]} ∪ bitmap) d) d names.

Lemma file_indexes_other i names d :
  let d' := file_indexes i names d in
  all_tasks d' = all_tasks d ∧ status_db d' = status_db d ∧ kind_db d' = kind_db d ∧
  canceled_by_db d' = canceled_by_db d ∧ enqueued_at_db d' = enqueued_at_db d ∧
  started_at_db d' = started_at_db d ∧ finished_at_db d' = finished_at_db d.
Proof.
  unfold file_indexes. revert d. induction names as [|n names IH]; intros d; simpl; [done|].
  destruct (IH (update_index n (λ bitmap, {[i]} ∪ bitmap) d))
    as (-> & -> & -> & -> & -> & -> & ->). done.
Qed.

Lemma bucket_file_indexes i names d k j :
  j ∈ bucket (index_tasks_db (file_indexes i names d)) k ↔
  j ∈ bucket (index_tasks_db d) k ∨ (j = i ∧ k ∈ names).
Proof.
  unfold file_indexes. revert d. induction names as [|n names IH]; intros d; simpl.
  - rewrite elem_of_nil. tauto.
  - rewrite IH, bucket_update_index, elem_of_cons. unfold TaskQueue.index_tasks.
    destruct (decide (n = k)) as [->|Hne]; rewrite ?elem_of_union, ?elem_of_singleton; naive_solver.
Qed.

(** Filing a new enqueued task keeps the queue consistent. *)
Lemma index_new_task_consistent d t :
  consistent d → all_tasks d !! uid t = None → status t = Enqueued →
  started_at t = None → finished_at t = None →
  let d' := index_new_task t (with_all_tasks (<[uid t := t]> (all_tasks d)) d) in
  consistent d' ∧ all_tasks d' = <[uid t := t]> (all_tasks d) ∧
  canceled_by_db d' = canceled_by_db d.
Proof.
  intros Hc Hn Hst Hs Hf. unfold index_new_task.
  set (d0 := with_all_tasks _ d). fold (file_indexes (uid t) (Tasks.indexes t) d0).
  destruct (file_indexes_other (uid t) (Tasks.indexes t) d0) as (E1 & E2 & E3 & E4 & E5 & E6 & E7).
  pose proof (bucket_file_indexes (uid t) (Tasks.indexes t) d0) as Hix.
  set (d1 := file_indexes _ _ d0) in *. clearbody d1.
  assert (∀ {K} `{Countable K} (f : Task → list K) (m m' : gmap K (gset TaskId)),
    filed_under (all_tasks d) f m →
    (∀ k j, j ∈ bucket m' k ↔ j ∈ bucket m k ∨ (j = uid t ∧ k ∈ f t)) →
    filed_under (<[uid t := t]> (all_tasks d)) f m') as Hfile.
  { intros K ? ? f m m' Hm Hm'. eapply filed_insert; [exact Hm|]. intros k j. rewrite Hm'.
    assert (uid t ∉ bucket m k); [|naive_solver].
    intros Hb. apply Hm in Hb as (t' & Ht' & _). congruence. }
  assert (∀ x y k' (b : gset TaskId) j, (j ∈ (if decide (x = k') then {[y]} ∪ b else b)) ↔
    j ∈ b ∨ (j = y ∧ k' ∈ [x : OffsetDateTime])) as Hone.
  { intros x y k' b j. rewrite list_elem_of_singleton.
    case_decide; rewrite ?elem_of_union, ?elem_of_singleton; naive_solver. }
  split; [|by split]. constructor; simpl; rewrite E1; simpl.
  - intros i t' Hi. destruct (decide (i = uid t)) as [->|Hne].
    + rewrite lookup_insert_eq in Hi. by simplify_eq.
    + rewrite lookup_insert_ne in Hi by done. by apply (con_uid _ Hc).
  - eapply Hfile; [apply (con_status _ Hc)|]. intros k j.
    change (put_bucket Enqueued ({[uid t]} ∪ get_status d1 Enqueued) (status_db d1))
      with (status_db (update_status Enqueued (λ bitmap, {[uid t]} ∪ bitmap) d1)).
    rewrite bucket_update_status. unfold get_status. rewrite E2. rewrite Hst.
    rewrite list_elem_of_singleton. simpl.
    destruct (decide (Enqueued = k)) as [<-|]; rewrite ?elem_of_union, ?elem_of_singleton; naive_solver.
  - eapply Hfile; [apply (con_kind _ Hc)|]. intros k j. rewrite bucket_put. unfold get_kind. simpl. rewrite E3.
    rewrite list_elem_of_singleton. simpl.
    destruct (decide (as_kind (kind t) = k)) as [<-|]; rewrite ?elem_of_union, ?elem_of_singleton; naive_solver.
  - eapply Hfile; [apply (con_index _ Hc)|]. intros k j. apply Hix.
  - eapply Hfile; [apply (con_enqueued _ Hc)|]. intros k j.
    rewrite bucket_insert_time, E5. simpl. apply Hone.
  - eapply Hfile; [apply (con_started _ Hc)|]. intros k j. rewrite E6, Hs. simpl.
    rewrite elem_of_nil. tauto.
  - eapply Hfile; [apply (con_finished _ Hc)|]. intros k j. rewrite E7, Hf. simpl.
    rewrite elem_of_nil. tauto.
Qed.

(** The tasks a cancelation or a deletion refers to. *)
Definition references (k : KindWithContent) : gset TaskId :=
  match k with
  | TaskCancelation _ tasks | TaskDeletion _ tasks => tasks
  | _ => ∅
  end.

Lemma new_task_spec now i k :
  let t := new_task now i k in
  uid t = i ∧ enqueued_at t = now ∧ status t = Enqueued ∧ started_at t = None ∧
  finished_at t = None ∧ canceled_by t = None ∧ error t = None ∧
  as_kind (kind t) = as_kind k ∧ Tasks.indexes t = kind_indexes k ∧
  (∀ j, j ∈ references (kind t) ↔ j ∈ references k ∧ (j < i)%N) ∧
  (references k = ∅ → kind t = k) ∧
  (∀ swaps, kind t = IndexSwapTask swaps → k = IndexSwapTask swaps) ∧
  details t = default_details (kind t).
Proof.
  assert (∀ X i j, j ∈ remove_from i X ↔ j ∈ X ∧ (j < i)%N) as Hr.
  { intros X i' j. unfold remove_from. rewrite elem_of_filter. tauto. }
  assert (∀ i, remove_from i ∅ = ∅) as He.
  { intros i'. apply set_eq. intros j. rewrite Hr. set_solver. }
  destruct k; simpl; split_and!; try done; try (intros j; set_solver);
    intros; subst; rewrite ?Hr, ?He; done.
Qed.

Lemma must_cancel_spec p X : must_cancel_processing_tasks p X = true ↔ ∃ i, i ∈ X ∧ i ∈ processing p.
Proof.
  unfold must_cancel_processing_tasks. rewrite negb_true_iff, bool_decide_eq_false. split.
  - intros H. destruct (set_choose_or_empty (processing p ∩ X)) as [[i Hi]|He].
    + apply elem_of_intersection in Hi as [? ?]. by exists i.
    + exfalso. apply H. by apply disjoint_intersection.
  - intros (i & H1 & H2) Hd. by apply (Hd i).
Qed.

Lemma register_swap_ok now i k :
  check_index_swap_validity (new_task now i k) = Ok tt ↔
  ∀ swaps, k = IndexSwapTask swaps → NoDup (swap_names swaps).
Proof.
  unfold check_index_swap_validity. destruct k; simpl; try (split; naive_solver).
  pose proof (duplicate_loop (swap_names swaps) ∅ ∅) as Hd.
  destruct (foldl duplicate_step (∅, ∅) (swap_names swaps)) as [all dup].
  transitivity (NoDup (swap_names swaps)); [|naive_solver].
  rewrite duplicates_iff_not_NoDup.
  assert (∀ n, n ∈ sorted_names dup ↔
    ∃ l1 l2, swap_names swaps = l1 ++ n :: l2 ∧ n ∈ l2) as Hn.
  { intros n. rewrite sorted_names_perm, elem_of_elements, Hd. set_solver. }
  destruct (sorted_names dup) as [|n l].
  - split; [|done]. intros _ (n & l1 & l2 & H). eapply not_elem_of_nil, Hn; eauto.
  - assert (¬ ¬ ∃ n l1 l2, swap_names swaps = l1 ++ n :: l2 ∧ n ∈ l2) as Hno.
    { intros H. apply H. exists n. apply Hn. by left. }
    destruct l; split; done.
Qed.

(** The state after a successful registration. *)
Definition registered (env : RegisterEnv) (k : KindWithContent) (s : IndexScheduler)
    (t : Task) (s' : IndexScheduler) : Prop :=
  t = new_task (env_now env) (next_task_id (db s)) k ∧
  (∀ i, i ∈ dom (all_tasks (db s)) → i < uid t)%N ∧
  consistent (db s') ∧
  all_tasks (db s') = <[uid t := t]> (all_tasks (db s)) ∧
  canceled_by_db (db s') = canceled_by_db (db s) ∧
  (∀ j, j ∈ references (kind t) ↔ j ∈ references k ∧ (j < uid t)%N) ∧
  (∀ swaps, k = IndexSwapTask swaps → NoDup (swap_names swaps)) ∧
  processing_tasks s' = processing_tasks s ∧ file_store s' = file_store s ∧
  wake_up s' = true ∧
  (must_stop_processing s' = true ↔ must_stop_processing s = true ∨
     ∃ query tasks i, k = TaskCancelation query tasks ∧ i ∈ tasks ∧
       i ∈ processing (processing_tasks s)).

Lemma register_Ok env k s d :
  consistent (db s) →
  let t := new_task (env_now env) (next_task_id (db s)) k in
  check_index_swap_validity t = Ok tt →
  append_task (env_key_exist env) t (db s) = Ok d →
  no_space_left env k = false → env_commit env = None →
  ∃ s', register env k s = (Ok t, s') ∧ registered env k s t s'.
Proof.
  intros Hc t Hsw Happ Hsp Hco. unfold register. rewrite Hsp. fold t. rewrite Hsw.
  cbn [mbind outcome_bind]. rewrite Happ. cbn. rewrite Hco. eexists. split; [done|].
  apply append_task_Ok in Happ as [Hfresh ->].
  destruct (new_task_spec (env_now env) (next_task_id (db s)) k)
    as (Hu & _ & Hst & Hs & Hf & _ & _ & _ & _ & Href & _).
  fold t in Hu, Hst, Hs, Hf, Href. rewrite <- Hu in Href.
  destruct (index_new_task_consistent (db s) t Hc) as (H1 & H2 & H3); try done.
  { apply not_elem_of_dom. intros Hi. specialize (Hfresh _ Hi). lia. }
  pose proof (proj1 (register_swap_ok _ _ _) Hsw) as Hnd. unfold registered. fold t.
  destruct k; try (split_and!; try done; split; [by left|];
    intros [?|(? & ? & ? & HX & _)]; [done|discriminate HX]).
  pose proof (must_cancel_spec (processing_tasks s) tasks) as Hm. simpl.
  destruct (must_cancel_processing_tasks (processing_tasks s) tasks) eqn:Hb;
    split_and!; try done; simpl.
  - split; [|done]. intros _. right. destruct (proj1 Hm eq_refl) as (i & ? & ?). eauto 10.
  - split; [by left|]. intros [?|(q & X & i & HX & Hi & Hp)]; [done|].
    simplify_eq. discriminate (proj2 Hm (ex_intro _ i (conj Hi Hp))).
Qed.

Lemma register_outcome (env : RegisterEnv) (k : KindWithContent) (s : IndexScheduler) :
  consistent (db s) →
  match register env k s with
  | (Ok t, s') => no_space_left env k = false ∧ env_commit env = None ∧ registered env k s t s'
  | (Err e, s') =>
      db s' = db s ∧ processing_tasks s' = processing_tasks s ∧ wake_up s' = wake_up s ∧
      must_stop_processing s' = must_stop_processing s ∧
      (file_store s' = file_store s ∨
       (env_commit env ≠ None ∧ ∃ index_uid pk method file count allow,
          k = DocumentAdditionOrUpdate index_uid pk method file count allow ∧
          file_store s' = file_store s ∖ {[file]}))
  | (Panic _, _) => False
  end ∧
  ((∀ i, i ∈ dom (all_tasks (db s)) → (i < u32_max)%N) →
   no_space_left env k = false → env_commit env = None →
   (∀ swaps, k = IndexSwapTask swaps → NoDup (swap_names swaps)) →
   ∃ t s', register env k s = (Ok t, s')).
Proof.
  intros Hc. set (t := new_task (env_now env) (next_task_id (db s)) k). split.
  - destruct (no_space_left env k) eqn:Hsp.
    { unfold register. rewrite Hsp. split_and!; try done. by left. }
    destruct (check_index_swap_validity t) as [[]|e|msg] eqn:Hsw.
    + destruct (append_task (env_key_exist env) t (db s)) as [d|e|msg] eqn:Happ.
      * destruct (env_commit env) as [e|] eqn:Hco.
        -- unfold register. rewrite Hsp. fold t. rewrite Hsw. cbn [mbind outcome_bind].
           rewrite Happ. cbn. rewrite Hco. unfold delete_persisted_task_data, t.
           destruct k; simpl; split_and!; try done; try (by left). right. split; [done|]. eauto 10.
        -- destruct (register_Ok env k s d Hc Hsw Happ Hsp Hco) as (s' & -> & Hr). done.
      * unfold register. rewrite Hsp. fold t. rewrite Hsw. cbn [mbind outcome_bind].
        rewrite Happ. split_and!; try done. by left.
      * unfold append_task in Happ. by destruct (forallb _ _).
    + unfold register. rewrite Hsp. fold t. rewrite Hsw. split_and!; try done. by left.
    + exfalso. unfold check_index_swap_validity in Hsw. destruct (kind t); try done.
      destruct (foldl _ _ _) as [all dup]. by destruct (sorted_names dup) as [|? [|]].
  - intros Hmax Hsp Hco Hsw. destruct (next_task_id_fresh (db s) Hmax) as [Hfresh _].
    assert (append_task (env_key_exist env) t (db s) =
      Ok (with_all_tasks (<[uid t := t]> (all_tasks (db s))) (db s))) as Happ.
    { apply append_task_Ok. split; [|done]. intros i Hi%Hfresh.
      destruct (new_task_spec (env_now env) (next_task_id (db s)) k) as [Hu _]. fold t in Hu. lia. }
    destruct (register_Ok env k s _ Hc (proj2 (register_swap_ok _ _ _) Hsw) Happ Hsp Hco)
      as (s' & -> & _). eauto.
Qed.

(** C19: Registering a task on a consistent queue never panics.  On success the
    queue gains exactly the new task, under an id above all the others, filed
    in every inverted database; its references to other tasks are cut to older
    tasks, a swap has no duplicate, and a cancelation that meets a task being
    processed asks for the processing to stop.  On failure the queue is
    unchanged and only the update file of the task may go, when the commit
    failed.  With ids left, room, a valid swap and a commit, it succeeds. *)
Theorem register_spec (env : RegisterEnv) (k : KindWithContent) (s : IndexScheduler) :
  consistent (db s) →
  match register env k s with
  | (Ok t, s') => no_space_left env k = false ∧ env_commit env = None ∧ registered env k s t s'
  | (Err e, s') =>
      db s' = db s ∧ processing_tasks s' = processing_tasks s ∧ wake_up s' = wake_up s ∧
      must_stop_processing s' = must_stop_processing s ∧
      (file_store s' = file_store s ∨
       (env_commit env ≠ None ∧ ∃ index_uid pk method file count allow,
          k = DocumentAdditionOrUpdate index_uid pk method file count allow ∧
          file_store s' = file_store s ∖ {[file]}))
  | (Panic _, _) => False
  end ∧
  ((∀ i, i ∈ dom (all_tasks (db s)) → (i < u32_max)%N) →
   no_space_left env k = false → env_commit env = None →
   (∀ swaps, k = IndexSwapTask swaps → NoDup (swap_names swaps)) →
   ∃ t s', register env k s = (Ok t, s')).
Proof. exact (register_outcome env k s). Qed.

Definition is_finished_status (st : Status) : Prop :=
  st = Succeeded ∨ st = Failed ∨ st = Canceled.

Lemma last_sorted_ids X : 1 ≤ size X → ∃ i, last (sorted_ids X) = Some i ∧ i ∈ X.
Proof.
  intros Hs. destruct (last (sorted_ids X)) as [i|] eqn:Hl.
  - exists i. split; [done|]. by apply elem_of_sorted_ids, last_Some_elem_of.
  - apply last_None in Hl. rewrite <- length_sorted_ids, Hl in Hs. simpl in Hs. lia.
Qed.

(** The deletion that a cleanup registers. *)
Definition cleaned_up (env : RegisterEnv) (s s' : IndexScheduler) : Prop :=
  ∃ (t : Task) (query : string) (finished deleted : gset TaskId),
    (∀ i, i ∈ finished ↔
       ∃ t0, all_tasks (db s) !! i = Some t0 ∧ is_finished_status (status t0)) ∧
    deleted ⊆ finished ∧
    size deleted = Nat.min (N.to_nat 100000) (size finished) ∧ 2 ≤ size deleted ∧
    (∀ i j, i ∈ deleted → j ∈ finished → j ∉ deleted → (j < i)%N) ∧
    registered env (TaskDeletion query deleted) s t s' ∧ kind t = TaskDeletion query deleted.

Lemma cleanup_task_queue_outcome (format : OffsetDateTime → option string) (max : N)
    (env : RegisterEnv) (s : IndexScheduler) :
  consistent (db s) →
  match cleanup_task_queue format max env s with
  | (Ok _, s') => s' = s ∨ ((max <= bitmap_len (all_task_ids (db s)))%N ∧ cleaned_up env s s')
  | (Err _, s') =>
      db s' = db s ∧ processing_tasks s' = processing_tasks s ∧ wake_up s' = wake_up s
  | (Panic _, _) => False
  end ∧
  ((bitmap_len (all_task_ids (db s)) < max)%N → cleanup_task_queue format max env s = (Ok tt, s)).
Proof.
  intros Hc. unfold cleanup_task_queue.
  destruct (N.ltb_spec (bitmap_len (all_task_ids (db s))) max) as [Hlt|Hge]; [split; [by left|done]|].
  split; [|intros H; lia].
  set (finished := get_status (db s) Succeeded ∪ _ ∪ _).
  assert (∀ i, i ∈ finished ↔
    ∃ t0, all_tasks (db s) !! i = Some t0 ∧ is_finished_status (status t0)) as Hfin.
  { intros i. unfold finished, is_finished_status. rewrite !elem_of_union, !get_status_spec by done.
    naive_solver. }
  clearbody finished. destruct (newest_spec 100000 finished) as (Hsub & Hsize & Hnew).
  set (del := newest 100000 finished) in *. clearbody del.
  destruct (N.ltb_spec (bitmap_len del) 2) as [Hl2|Hl2]; [by left|].
  unfold bitmap_len in Hl2.
  destruct (last_sorted_ids del) as (i & -> & Hi); [lia|].
  destruct (proj1 (Hfin i) (Hsub i Hi)) as (ti & Hti & _). unfold get_task. rewrite Hti.
  destruct (format (enqueued_at ti + 1)%Z) as [date|]; [|done].
  set (query := "?beforeEnqueuedAt=" +:+ _).
  destruct (register_outcome env (TaskDeletion query del) s Hc) as [Hr _].
  destruct (register env (TaskDeletion query del) s) as [[t|e|m] s'];
    [|by destruct Hr as (? & ? & ? & _)|done].
  destruct Hr as (_ & _ & Hr). right. split; [done|].
  exists t, query, finished, del. split_and!; try done; [lia|].
  destruct Hr as (Ht & Hfresh & _). pose proof (f_equal kind Ht) as Hk. simpl in Hk.
  rewrite Hk. f_equal. apply set_eq. intros j. unfold remove_from. rewrite elem_of_filter.
  split; [by intros [_ ?]|]. intros Hj. split; [|done].
  destruct (new_task_spec (env_now env) (next_task_id (db s)) (TaskDeletion query del)) as [Hu _].
  rewrite <- Ht in Hu. rewrite <- Hu. apply Hfresh, elem_of_dom.
  destruct (proj1 (Hfin j) (Hsub j Hj)) as (tj & Htj & _). by exists tj.
Qed.

(** The automatic cleanup of a consistent queue never panics and never
    touches a queue below its maximum.  When it does something, it registers
    one deletion of finished tasks only, of at least two and at most 100 000 of
    them, and never loses a reference; the tasks it takes are the newest
    finished ones. *)
Theorem cleanup_task_queue_spec (format : OffsetDateTime → option string) (max : N)
    (env : RegisterEnv) (s : IndexScheduler) :
  consistent (db s) →
  match cleanup_task_queue format max env s with
  | (Ok _, s') => s' = s ∨ ((max <= bitmap_len (all_task_ids (db s)))%N ∧ cleaned_up env s s')
  | (Err _, s') =>
      db s' = db s ∧ processing_tasks s' = processing_tasks s ∧ wake_up s' = wake_up s
  | (Panic _, _) => False
  end ∧
  ((bitmap_len (all_task_ids (db s)) < max)%N → cleanup_task_queue format max env s = (Ok tt, s)).
Proof. exact (cleanup_task_queue_outcome format max env s). Qed.
End register_theorems.

(** ** The budget *)
Lemma div_mul_le a b : (b * (a `div` b) <= a)%N.
Proof. destruct (decide (b = 0)%N) as [->|]; [lia|]. by apply N.Div0.mul_div_le. Qed.

(** Every index that may be open and one more fit with the task database. *)
Definition fits (base task max total : N) (b : IndexBudget) : Prop :=
  (map_size b * (index_count b + 1) + task_db_size b <= total / 2)%N ∧
  (task_db_size b <= task)%N ∧
  (index_count b = 1 ∨ map_size b = base ∧ index_count b <= max)%N.

Lemma split_budget_fits {E} page base task max budget :
  (0 < base)%N → (budget < u64_size)%N →
  ∃ b, @split_budget E page base task max budget = Ok b ∧ fits base task max budget b.
Proof.
  intros Hbase Hb. unfold split_budget, fits.
  pose proof (div_mul_le budget 2) as Hh. set (h := (budget `div` 2)%N) in *.
  assert (∀ n, (n <= h)%N → wrap64 (n * 2) = (n * 2)%N) as Hwrap.
  { intros n Hn. apply wrap64_small. lia. }
  set (task' := if (h `div` 2 <? task)%N then _ else task).
  assert (task' <= h / 2 ∧ task' <= task)%N as [Ht1 Ht2].
  { unfold task', clamp_to_page_size. destruct (N.ltb_spec (h `div` 2) task); [|lia].
    rewrite Hwrap by lia. pose proof (div_mul_le (h * 2 / 5) page).
    pose proof (div_mul_le (h * 2) 5).
    assert (h * 2 / 5 <= h / 2)%N; [|lia]. pose proof (half_bounds h). lia. }
  pose proof (half_bounds h) as Hh2. set (rest := (h - task')%N).
  destruct (N.eqb_spec base 0) as [?|_]; [lia|].
  pose proof (div_mul_le rest base) as Hr. set (count := (rest `div` base)%N) in *.
  destruct (N.ltb_spec count 2).
  - rewrite Hwrap by lia. pose proof (div_mul_le (rest * 2) 5).
    eexists. split; [done|]. simpl. split; [lia|]. split; [lia|]. by left.
  - eexists. split; [done|]. simpl. split; [|split; [lia|right; split; [done|]]].
    + destruct (N.ltb_spec max (count - 1)); [nia|].
      replace (count - 1 + 1)%N with count by lia. lia.
    + destruct (N.ltb_spec max (count - 1)); lia.
Qed.

(** Where the system opens environments up to a size [t], the budget is
    always found, within the fuel: the indexes that may be open at the same
    time, one more index to open before one is closed, and the task database
    fit together in half of what the system gives; the task database is never
    larger than asked, and the number of indexes is one, at a reduced size, or
    at most the number asked, at the size asked. *)
Theorem index_budget_fits {E} (is_good_heed : N → bool) (t page base task max : N) (fuel : nat) :
  (∀ n, is_good_heed n = (n <=? t)%N) → (4 * t < u64_size)%N → (0 < base)%N →
  N.to_nat (DEFAULT_BUDGET + 4 * t) + 2 ≤ fuel →
  ∃ b, @index_budget E fuel is_good_heed page base task max = Ok b ∧
    fits base task max (N.min DEFAULT_BUDGET t) b.
Proof.
  intros Hgood Ht Hbase Hfuel. unfold index_budget. rewrite Hgood.
  destruct (N.leb_spec DEFAULT_BUDGET t) as [Hd|Hd].
  - rewrite N.min_l by done. by apply split_budget_fits.
  - rewrite N.min_r by lia.
    rewrite (dichotomic_search_loop is_good_heed t (DEFAULT_BUDGET `div` 2) fuel); [|done|done|done|done|].
    + apply split_budget_fits; [done|lia].
    + pose proof (div_mul_le DEFAULT_BUDGET 2). lia.
Qed.

Module Demo.
Import UnitJson TaskQueue.Demo.
Definition idle : IndexScheduler :=
  mkScheduler one_task (start_processing_at 0%Z ∅) false ∅ false.
Definition env0 : RegisterEnv := mkRegisterEnv 50%Z 1 100 (mkForeign "MDB_KEYEXIST" C_Internal) None.
Definition limit_1 : Query :=
  mkQuery (Some 1%N) None None None None None None None None None None None None.
Definition reader : AuthFilter unit := with_allowed_indexes {["a" : IndexUidPattern]}.

(** Two tasks, the newer one on an index that [reader] does not see. *)
Definition busy : IndexScheduler :=
  snd (register env0 (DocumentClear "b") idle).

(** The limit is spent on a task that is then hidden: a page of one task is
    empty although a visible task matches. *)
Example limit_is_spent_on_hidden_tasks :
  get_task_ids_from_authorized_indexes busy limit_1 reader = ∅ ∧
  get_task_ids_from_authorized_indexes busy default_query reader = {[0%N]}.
Proof. vm_compute. split; reflexivity. Qed.

Lemma get_task_ids_spec_witness :
  ∃ selected : gset TaskId,
    get_task_ids idle limit_1 ⊆ selected ∧
    size (get_task_ids idle limit_1) = Nat.min (N.to_nat 1) (size selected).
Proof.
  destruct (get_task_ids_spec idle limit_1 one_task_consistent) as (X & _ & _ & H).
  destruct (H 1%N eq_refl) as (H1 & H2 & _). exists X. split; [exact H1|exact H2].
Defined.

Lemma get_tasks_from_authorized_indexes_spec_witness :
  ∃ ts, get_tasks_from_authorized_indexes idle limit_1 reader = Ok ts ∧ length ts = 1.
Proof.
  destruct (get_tasks_from_authorized_indexes_spec idle limit_1 reader one_task_consistent)
    as (_ & ts & H1 & _ & H2 & _).
  exists ts. split; [exact H1|]. rewrite H2. vm_compute. reflexivity.
Defined.

Lemma register_spec_witness :
  ∃ t s', register env0 (DocumentClear "b") idle = (Ok t, s').
Proof.
  apply (proj2 (register_spec env0 (DocumentClear "b") idle one_task_consistent)).
  - intros i Hi. apply elem_of_dom in Hi as [t Ht]. simpl in Ht.
    apply lookup_singleton_Some in Ht as [<- _]. reflexivity.
  - reflexivity.
  - reflexivity.
  - intros swaps H. discriminate H.
Defined.

Lemma cleanup_task_queue_spec_witness :
  cleanup_task_queue (λ _, Some "now") 10 env0 idle = (Ok tt, idle).
Proof.
  apply (proj2 (cleanup_task_queue_spec (λ _, Some "now") 10 env0 idle one_task_consistent)).
  vm_compute. reflexivity.
Defined.

Lemma index_budget_fits_witness :
  ∃ b, @index_budget unit (N.to_nat (DEFAULT_BUDGET + 4 * 100) + 2) (λ n, (n <=? 100)%N)
         1 20 10 5 = Ok b ∧ fits 20 10 5 100 b.
Proof.
  exact (index_budget_fits (λ n, (n <=? 100)%N) 100 1 20 10 5 _
    (λ n, eq_refl) eq_refl eq_refl (le_n _)).
Defined.
End Demo.
