(* ===== verification/Batch.v ===== *)
(** * Creation of batches (index-scheduler/src/batch.rs)

    From the task queue to the next batch to process: the priorities between
    kinds of tasks, the enqueued tasks of one index given to the autobatcher,
    and the operations that its answer stands for.  What the index mapper knows
    of an index (whether it exists, its primary key) is an argument. *)
From S2P Require Import Prelude Settings Keys Errors Tasks TaskQueue Autobatcher Scheduler.

(** ** Batches *)
Inductive DocumentOperation : Type :=
| AddDocuments (content_file : Uuid)
| DeleteDocuments (documents_ids : list string).

Section batch.
Context {J : JsonValue}.

Inductive IndexOperation : Type :=
| ODocumentOperation (index_uid : string) (primary_key : option string)
    (method : IndexDocumentsMethod) (documents_counts : list N)
    (operations : list DocumentOperation) (tasks : list Task)
| ODocumentDeletion (index_uid : string) (documents : list (list string)) (tasks : list Task)
| ODocumentClear (index_uid : string) (tasks : list Task)
| OSettings (index_uid : string) (settings : list (bool * Settings Unchecked))
    (tasks : list Task)
| ODocumentClearAndSetting (index_uid : string) (cleared_tasks : list Task)
    (settings : list (bool * Settings Unchecked)) (settings_tasks : list Task)
| OSettingsAndDocumentOperation (index_uid : string) (primary_key : option string)
    (method : IndexDocumentsMethod) (documents_counts : list N)
    (operations : list DocumentOperation) (document_import_tasks : list Task)
    (settings : list (bool * Settings Unchecked)) (settings_tasks : list Task).

Inductive Batch : Type :=
| BatchTaskCancelation (task : Task) (previous_started_at : OffsetDateTime)
    (previous_processing_tasks : gset TaskId)
| BatchTaskDeletion (task : Task)
| BatchSnapshotCreation (tasks : list Task)
| BatchDump (task : Task)
| BatchIndexOperation (op : IndexOperation) (must_create_index : bool)
| BatchIndexDocumentDeletionByFilter (index_uid : string) (task : Task)
| BatchIndexCreation (index_uid : string) (primary_key : option string) (task : Task)
| BatchIndexUpdate (index_uid : string) (primary_key : option string) (task : Task)
| BatchIndexDeletion (index_uid : string) (tasks : list Task) (index_has_been_created : bool)
| BatchIndexSwap (task : Task).

(** The tasks of a batch, in the order of [ids]. *)
Definition operation_tasks (op : IndexOperation) : list Task :=
  match op with
  | ODocumentOperation _ _ _ _ _ tasks | ODocumentDeletion _ _ tasks
  | OSettings _ _ tasks | ODocumentClear _ tasks => tasks
  | OSettingsAndDocumentOperation _ _ _ _ _ tasks _ other
  | ODocumentClearAndSetting _ tasks _ other => tasks ++ other
  end.

Definition batch_tasks (b : Batch) : list Task :=
  match b with
  | BatchTaskCancelation task _ _ | BatchTaskDeletion task | BatchDump task
  | BatchIndexCreation _ _ task | BatchIndexDocumentDeletionByFilter _ task
  | BatchIndexUpdate _ _ task | BatchIndexSwap task => [task]
  | BatchSnapshotCreation tasks | BatchIndexDeletion _ tasks _ => tasks
  | BatchIndexOperation op _ => operation_tasks op
  end.

Definition ids (self : Batch) : list TaskId := uid <$> batch_tasks self.

Definition operation_index_uid (self : IndexOperation) : string :=
  match self with
  | ODocumentOperation index_uid _ _ _ _ _ | ODocumentDeletion index_uid _ _
  | ODocumentClear index_uid _ | OSettings index_uid _ _
  | ODocumentClearAndSetting index_uid _ _ _
  | OSettingsAndDocumentOperation index_uid _ _ _ _ _ _ _ => index_uid
  end.

Definition batch_index_uid (self : Batch) : option string :=
  match self with
  | BatchTaskCancelation _ _ _ | BatchTaskDeletion _ | BatchSnapshotCreation _
  | BatchDump _ | BatchIndexSwap _ => None
  | BatchIndexOperation op _ => Some (operation_index_uid op)
  | BatchIndexCreation index_uid _ _ | BatchIndexUpdate index_uid _ _
  | BatchIndexDeletion index_uid _ _
  | BatchIndexDocumentDeletionByFilter index_uid _ => Some index_uid
  end.

(** ** From the autobatcher's answer to a batch *)
Definition unreachable {E A} : outcome E A := Panic "internal error: entered unreachable code".

(** [tasks.iter().find_map(..).flatten()]. *)
Fixpoint first_primary_key (tasks : list Task) : outcome Error (option string) :=
  match tasks with
  | [] => Ok None
  | task :: tasks =>
      match kind task with
      | DocumentAdditionOrUpdate _ primary_key _ _ _ _ => Ok primary_key
      | DocumentDeletion _ _ => first_primary_key tasks
      | _ => unreachable
      end
  end.

Definition document_operation (task : Task) : outcome Error (N * DocumentOperation) :=
  match kind task with
  | DocumentAdditionOrUpdate _ _ _ content_file documents_count _ =>
      Ok (documents_count, AddDocuments content_file)
  | DocumentDeletion _ documents_ids =>
      Ok (N.of_nat (length documents_ids), DeleteDocuments documents_ids)
  | _ => unreachable
  end.

Definition deleted_ids (task : Task) : outcome Error (list string) :=
  match kind task with
  | DocumentDeletion _ documents_ids => Ok documents_ids
  | _ => unreachable
  end.

Definition updated_settings (task : Task) : outcome Error (bool * Settings Unchecked) :=
  match kind task with
  | SettingsUpdate _ new_settings is_deletion _ => Ok (is_deletion, new_settings)
  | _ => unreachable
  end.

(** A loop that pushes what [f] gives for each task. *)
Fixpoint collect {A B} (f : A → outcome Error B) (l : list A) : outcome Error (list B) :=
  match l with
  | [] => Ok []
  | x :: l => y ← f x; ys ← collect f l; Ok (y :: ys)
  end.

Definition get_task_or_corrupted (d : TaskDb) (id : TaskId) : outcome Error Task :=
  ok_or (get_task d id) CorruptedTaskQueue.

(** The arms that the composite ones call back, by the operation they give. *)
Definition create_document_clear (d : TaskDb) (index_uid : string) (ids : list TaskId)
    : outcome Error IndexOperation :=
  tasks ← get_existing_tasks d ids;
  Ok (ODocumentClear index_uid tasks).

Definition create_document_operation (d : TaskDb) (index_uid : string)
    (method : IndexDocumentsMethod) (operation_ids : list TaskId)
    : outcome Error IndexOperation :=
  tasks ← get_existing_tasks d operation_ids;
  primary_key ← first_primary_key tasks;
  operations ← collect document_operation tasks;
  Ok (ODocumentOperation index_uid primary_key method operations.*1 operations.*2 tasks).

Definition create_settings (d : TaskDb) (index_uid : string) (settings_ids : list TaskId)
    : outcome Error IndexOperation :=
  tasks ← get_existing_tasks d settings_ids;
  settings ← collect updated_settings tasks;
  Ok (OSettings index_uid settings tasks).

Definition create_next_batch_index (d : TaskDb) (index_uid : string) (batch : BatchKind)
    (must_create_index : bool) : outcome Error (option Batch) :=
  let operation op := Ok (Some (BatchIndexOperation op must_create_index)) in
  match batch with
  | BDocumentClear ids => op ← create_document_clear d index_uid ids; operation op
  | BDocumentDeletionByFilter id =>
      task ← get_task_or_corrupted d id;
      match kind task with
      | DocumentDeletionByFilter index_uid _ =>
          Ok (Some (BatchIndexDocumentDeletionByFilter index_uid task))
      | _ => unreachable
      end
  | BDocumentOperation method _ _ operation_ids =>
      op ← create_document_operation d index_uid method operation_ids; operation op
  | BDocumentDeletion deletion_ids =>
      tasks ← get_existing_tasks d deletion_ids;
      documents ← collect deleted_ids tasks;
      operation (ODocumentDeletion index_uid documents tasks)
  | BSettings _ settings_ids =>
      op ← create_settings d index_uid settings_ids; operation op
  | BClearAndSettings other _ settings_ids =>
      settings_op ← create_settings d index_uid settings_ids;
      match settings_op with
      | OSettings index_uid settings settings_tasks =>
          clear_op ← create_document_clear d index_uid other;
          match clear_op with
          | ODocumentClear index_uid cleared_tasks =>
              operation (ODocumentClearAndSetting index_uid cleared_tasks settings settings_tasks)
          | _ => unreachable
          end
      | _ => unreachable
      end
  | BSettingsAndDocumentOperation settings_ids method _ _ operation_ids =>
      settings_op ← create_settings d index_uid settings_ids;
      import_op ← create_document_operation d index_uid method operation_ids;
      match import_op, settings_op with
      | ODocumentOperation _ primary_key _ documents_counts operations document_import_tasks,
        OSettings _ settings settings_tasks =>
          operation (OSettingsAndDocumentOperation index_uid primary_key method
            documents_counts operations document_import_tasks settings settings_tasks)
      | _, _ => unreachable
      end
  | BIndexCreation id =>
      task ← get_task_or_corrupted d id;
      match kind task with
      | IndexCreation index_uid primary_key =>
          Ok (Some (BatchIndexCreation index_uid primary_key task))
      | _ => unreachable
      end
  | BIndexUpdate id =>
      task ← get_task_or_corrupted d id;
      match kind task with
      | IndexUpdate _ primary_key => Ok (Some (BatchIndexUpdate index_uid primary_key task))
      | _ => unreachable
      end
  | BIndexDeletion ids =>
      tasks ← get_existing_tasks d ids;
      Ok (Some (BatchIndexDeletion index_uid tasks must_create_index))
  | BIndexSwap id =>
      task ← get_task_or_corrupted d id;
      Ok (Some (BatchIndexSwap task))
  end.

(** ** The next batch *)

(** [RoaringBitmap::min] and [max]. *)
Definition bitmap_min (s : gset TaskId) : option TaskId := head (sorted_ids s).
Definition bitmap_max (s : gset TaskId) : option TaskId := last (sorted_ids s).

(** What the index mapper answers on an index: whether it is there, and its
    primary key, which opens it. *)
Record IndexView := mkIndexView {
  view_exists : string → bool;
  view_primary_key : string → outcome Error (option string)
}.

Definition task_uid_kind (d : TaskDb) (id : TaskId) : outcome Error (TaskId * KindWithContent) :=
  task ← get_task_or_corrupted d id; Ok (uid task, kind task).

(** The last part: the unprioritised tasks. *)
Definition create_index_batch (indexes : IndexView) (autobatching_enabled : bool)
    (d : TaskDb) (enqueued : gset TaskId) : outcome Error (option Batch) :=
  match bitmap_min enqueued with
  | None => Ok None
  | Some task_id =>
      task ← get_task_or_corrupted d task_id;
      match head (Tasks.indexes task) with
      | None =>
          assert (match kind task with IndexSwapTask [] => true | _ => false end)
            "assertion failed: matches!(&task.kind, KindWithContent::IndexSwap { swaps } if swaps.is_empty())";;
          Ok (Some (BatchIndexSwap task))
      | Some index_name =>
          let index_already_exists := view_exists indexes index_name in
          primary_key ← (if index_already_exists then view_primary_key indexes index_name
                         else Ok None);
          let index_tasks := TaskQueue.index_tasks d index_name ∩ enqueued in
          let enqueued := sorted_ids index_tasks in
          let enqueued := if autobatching_enabled then enqueued else take 1 enqueued in
          enqueued ← collect (task_uid_kind d) enqueued;
          batch ← autobatch enqueued index_already_exists primary_key;
          match batch with
          | Some (batchkind, create_index) =>
              create_next_batch_index d index_name batchkind create_index
          | None => Ok None
          end
      end
  end.

Definition create_next_batch (indexes : IndexView) (autobatching_enabled : bool)
    (s : IndexScheduler) : outcome Error (option Batch) :=
  let d := db s in
  let enqueued := get_status d Enqueued in
  let to_cancel := get_kind d KTaskCancelation ∩ enqueued in
  match bitmap_max to_cancel with
  | Some task_id =>
      task ← get_task_or_corrupted d task_id;
      Ok (Some (BatchTaskCancelation task (processing_started_at (processing_tasks s))
                  (processing (processing_tasks s))))
  | None =>
  let to_delete := get_kind d KTaskDeletion ∩ enqueued in
  match bitmap_min to_delete with
  | Some task_id =>
      task ← get_task_or_corrupted d task_id;
      Ok (Some (BatchTaskDeletion task))
  | None =>
  let to_snapshot := get_kind d KSnapshotCreation ∩ enqueued in
  if decide (to_snapshot ≠ ∅) then
    tasks ← get_existing_tasks d (sorted_ids to_snapshot);
    Ok (Some (BatchSnapshotCreation tasks))
  else
  let to_dump := get_kind d KDumpCreation ∩ enqueued in
  match bitmap_min to_dump with
  | Some to_dump =>
      task ← get_task_or_corrupted d to_dump;
      Ok (Some (BatchDump task))
  | None => create_index_batch indexes autobatching_enabled d enqueued
  end end end.

(** ** The autobatcher sorts the tasks by kind *)
Definition is_document_operation (k : KindWithContent) : bool :=
  match k with DocumentAdditionOrUpdate _ _ _ _ _ _ | DocumentDeletion _ _ => true | _ => false end.
Definition is_document_deletion (k : KindWithContent) : bool :=
  match k with DocumentDeletion _ _ => true | _ => false end.
Definition is_settings (k : KindWithContent) : bool :=
  match k with SettingsUpdate _ _ _ _ => true | _ => false end.

Section typed.
Context (task : TaskId → KindWithContent).

Abbreviation all P ids := (Forall (λ id, P (task id) = true) ids).

(** The ids that a batch keeps apart are of the kinds their arm expects. *)
Definition typed_batch (b : BatchKind) : Prop :=
  match b with
  | BDocumentOperation _ _ _ ids => all is_document_operation ids
  | BDocumentDeletion ids => all is_document_deletion ids
  | BSettings _ ids | BClearAndSettings _ _ ids => all is_settings ids
  | BSettingsAndDocumentOperation sids _ _ _ ids =>
      all is_settings sids ∧ all is_document_operation ids
  | BDocumentDeletionByFilter id => ∃ uid filter, task id = DocumentDeletionByFilter uid filter
  | BIndexCreation id => ∃ uid pk, task id = IndexCreation uid pk
  | BIndexUpdate id => ∃ uid pk, task id = IndexUpdate uid pk
  | BIndexSwap id => ∃ swaps, task id = IndexSwapTask swaps
  | BIndexDeletion _ | BDocumentClear _ => True
  end.

Lemma all_snoc (P : KindWithContent → bool) l id :
  P (task id) = true → all P l → all P (l ++ [id]).
Proof. intros ??. apply Forall_app. split; [done|]. by apply Forall_singleton. Qed.

Lemma deletions_are_operations l : all is_document_deletion l → all is_document_operation l.
Proof. intros H. eapply Forall_impl; [exact H|]. intros id. simpl. by destruct (task id). Qed.

Lemma typed_combine {E} b id k e flow :
  open_batch b = true → combine (E:=E) b id k e = Ok flow →
  autobatch_kind_from (E:=E) (task id) = Ok k → joins flow k → typed_batch b →
  typed_batch (flow_batch flow).
Proof.
  intros Ho Hc Hk Hj Ht.
  assert (match k with
    | ADocumentImport _ _ _ => is_document_operation (task id) = true
    | ADocumentDeletion =>
        is_document_operation (task id) = true ∧ is_document_deletion (task id) = true
    | ASettings _ => is_settings (task id) = true
    | _ => True end) as Hid by (destruct (task id); simplify_eq/=; done).
  clear Hk.
  destruct b, k; simpl in Ho, Hc, Ht; try discriminate; try done;
    repeat match goal with
    | H : context [match ?m with ReplaceDocuments => _ | UpdateDocuments => _ end] |- _ =>
        destruct m
    | H : context [if ?a then _ else _] |- _ => destruct a
    end; try discriminate; injection Hc as <-; try discriminate Hj; simpl in *; destruct_and?;
    try split; try done; try (apply all_snoc; first [done|by apply deletions_are_operations]);
    try (by apply Forall_singleton); try (by apply deletions_are_operations).
Qed.

Lemma typed_grown {E} exists_ pk p flow create :
  grown (E:=E) exists_ pk p flow create → Forall (λ e, task e.1 = e.2) p →
  typed_batch (flow_batch flow) ∧ Forall (λ e, related_to_one_index (as_kind e.2) = true ∨
    flow = Break (BIndexSwap e.1)) p.
Proof.
  induction 1 as [id kind k flow create Hk Hn|p b create id kind k flow Hg IH Hk Hs Hd Hp Hc Hj];
    intros Htask.
  - apply Forall_cons in Htask as [Htask _]. simpl in Htask. split.
    + destruct kind; simplify_eq/=; try destruct (_ || _); simplify_eq/=; try done;
        rewrite ?Htask; try (by eauto); try (apply Forall_singleton; by rewrite Htask).
    + apply Forall_singleton. destruct kind; simplify_eq/=; try (by left). by right.
  - apply Forall_app in Htask as [Htask Hid]. apply Forall_cons in Hid as [Hid _]. simpl in Hid.
    subst kind. destruct (IH Htask) as [Hw Hall]. split.
    + by apply (typed_combine (E:=E) b id k _ flow (grown_open _ _ _ _ _ Hg) Hc Hk Hj).
    + apply Forall_app. split.
      * eapply Forall_impl; [exact Hall|]. intros e [?|?]; [by left|done].
      * apply Forall_singleton. left. simpl. destruct (task id); simplify_eq/=; done.
Qed.
End typed.

(** ** What a queue always satisfies *)

(** The details that the processing of a task looks for. *)
Definition details_ok (k : KindWithContent) (d : option Details) : Prop :=
  match k with
  | DocumentAdditionOrUpdate _ _ _ _ _ _ => ∃ n m, d = Some (DDocumentAdditionOrUpdate n m)
  | DocumentDeletion _ _ => ∃ n m, d = Some (DDocumentDeletion n m)
  | DocumentDeletionByFilter _ _ => ∃ f m, d = Some (DDocumentDeletionByFilter f m)
  | TaskCancelation _ _ => ∃ n m f, d = Some (DTaskCancelation n m f)
  | TaskDeletion _ _ => ∃ n m f, d = Some (DTaskDeletion n m f)
  | _ => True
  end.

Record queue_ok (d : TaskDb) : Prop := {
  qok_consistent : consistent d;
  qok_status i t : all_tasks d !! i = Some t → status t ≠ Processing;
  qok_enqueued i t : all_tasks d !! i = Some t → status t = Enqueued →
    started_at t = None ∧ finished_at t = None ∧ error t = None ∧ details_ok (kind t) (details t);
  qok_references i t j : all_tasks d !! i = Some t → j ∈ references (kind t) → (j < i)%N;
  qok_swaps i t swaps : all_tasks d !! i = Some t → kind t = IndexSwapTask swaps →
    NoDup (swap_names swaps)
}.

Lemma empty_queue_ok : queue_ok empty_db.
Proof. constructor; [apply empty_consistent|..]; intros i t; intros; simplify_map_eq. Qed.

(** Adding or replacing one task. *)
Lemma queue_ok_insert d d' i t :
  queue_ok d → consistent d' → all_tasks d' = <[i := t]> (all_tasks d) →
  status t ≠ Processing →
  (status t = Enqueued → started_at t = None ∧ finished_at t = None ∧ error t = None ∧
     details_ok (kind t) (details t)) →
  (∀ j, j ∈ references (kind t) → (j < i)%N) →
  (∀ swaps, kind t = IndexSwapTask swaps → NoDup (swap_names swaps)) → queue_ok d'.
Proof.
  intros [_ H1 H2 H3 H4] Hc Ha Hs He Hr Hsw.
  constructor; [done|..]; rewrite Ha; intros i' t'.
  - intros [[<- <-]|[_ ?]]%lookup_insert_Some; eauto.
  - intros [[<- <-]|[_ ?]]%lookup_insert_Some; eauto.
  - intros j [[<- <-]|[_ ?]]%lookup_insert_Some; eauto.
  - intros swaps [[<- <-]|[_ ?]]%lookup_insert_Some; eauto.
Qed.

(** Registration keeps it. *)
Lemma registered_queue_ok env k s t s' :
  registered env k s t s' → queue_ok (db s) → queue_ok (db s').
Proof.
  intros (Ht & Hfresh & Hc & Ha & _ & Hr & Hsw & _) Hq.
  destruct (new_task_spec (env_now env) (next_task_id (db s)) k)
    as (Hu & _ & Hst & Hs & Hf & _ & He & _ & _ & _ & _ & Hks & Hd).
  rewrite <- Ht in *. eapply queue_ok_insert; [exact Hq|exact Hc|exact Ha|..].
  - by rewrite Hst.
  - intros _. split_and!; [done|done|done|]. rewrite Hd. unfold details_ok.
    destruct (kind t); simpl; eauto.
  - intros j Hj. by apply Hr in Hj as [_ ?].
  - intros swaps Hk. apply Hsw. by apply Hks.
Qed.

(** ** Batches that fit their tasks *)
Definition operation_ok (op : IndexOperation) : Prop :=
  match op with
  | ODocumentOperation _ pk _ counts operations tasks =>
      first_primary_key tasks = Ok pk ∧
      ∃ l, collect document_operation tasks = Ok l ∧ counts = l.*1 ∧ operations = l.*2
  | ODocumentDeletion _ documents tasks => collect deleted_ids tasks = Ok documents
  | ODocumentClear _ _ => True
  | OSettings _ settings tasks => collect updated_settings tasks = Ok settings
  | ODocumentClearAndSetting _ _ settings tasks => collect updated_settings tasks = Ok settings
  | OSettingsAndDocumentOperation _ pk _ counts operations imports settings tasks =>
      collect updated_settings tasks = Ok settings ∧
      first_primary_key imports = Ok pk ∧
      ∃ l, collect document_operation imports = Ok l ∧ counts = l.*1 ∧ operations = l.*2
  end.

Definition batch_ok (b : Batch) : Prop :=
  match b with
  | BatchTaskCancelation t _ _ => as_kind (kind t) = KTaskCancelation
  | BatchTaskDeletion t => as_kind (kind t) = KTaskDeletion
  | BatchSnapshotCreation ts => Forall (λ t, as_kind (kind t) = KSnapshotCreation) ts
  | BatchDump t => as_kind (kind t) = KDumpCreation
  | BatchIndexOperation op _ => operation_ok op
  | BatchIndexDocumentDeletionByFilter uid t => ∃ f, kind t = DocumentDeletionByFilter uid f
  | BatchIndexCreation uid pk t => kind t = IndexCreation uid pk
  | BatchIndexUpdate uid pk t => kind t = IndexUpdate uid pk
  | BatchIndexDeletion _ ts _ => Forall (λ t, related_to_one_index (as_kind (kind t)) = true) ts
  | BatchIndexSwap t => ∃ swaps, kind t = IndexSwapTask swaps
  end.

Definition is_index_batch (b : Batch) : Prop :=
  match b with
  | BatchTaskCancelation _ _ _ | BatchTaskDeletion _ | BatchSnapshotCreation _ | BatchDump _ =>
      False
  | _ => True
  end.

Lemma collect_Ok {A B} (f : A → outcome Error B) l :
  (∀ x, x ∈ l → ∃ y, f x = Ok y) → ∃ ys, collect f l = Ok ys.
Proof.
  induction l as [|x l IH]; intros H; simpl; [by eexists|].
  destruct (H x) as [y ->]; [by left|]. destruct IH as [ys ->]; [intros; apply H; by right|].
  simpl. by eexists.
Qed.

Lemma collect_Forall2 {A B} (f : A → outcome Error B) l ys :
  collect f l = Ok ys → Forall2 (λ x y, f x = Ok y) l ys.
Proof.
  revert ys. induction l as [|x l IH]; intros ys; simpl.
  - intros [= <-]. constructor.
  - intros H. inv_ok. constructor; [done|]. by apply IH.
Qed.

Lemma first_primary_key_Ok ts :
  Forall (λ t, is_document_operation (kind t) = true) ts → ∃ pk, first_primary_key ts = Ok pk.
Proof.
  induction 1 as [|t ts Ht Hts IH]; simpl; [by eexists|].
  destruct (kind t); simplify_eq/=; [by eexists|done].
Qed.

(** Making the batch of a sorted answer of the autobatcher. *)
Section from_kind.
Context (d : TaskDb) (Hc : consistent d).

Definition stored_kind (id : TaskId) : KindWithContent :=
  match all_tasks d !! id with Some t => kind t | None => SnapshotCreation end.

Definition stored (t : Task) : Prop := all_tasks d !! uid t = Some t.

Lemma stored_tasks l (P : KindWithContent → bool) :
  (∀ i, i ∈ l → is_Some (all_tasks d !! i)) →
  ∃ ts, get_existing_tasks d l = Ok ts ∧ uid <$> ts = l ∧ Forall stored ts ∧
    (Forall (λ id, P (stored_kind id) = true) l → Forall (λ t, P (kind t) = true) ts).
Proof.
  intros Hl. destruct (get_existing_tasks_Ok d l Hc Hl) as (ts & H1 & H2 & H3).
  exists ts. split_and!; [done|done|by apply Forall_forall|].
  rewrite <- H2, Forall_fmap, !Forall_forall. intros HP t Ht. specialize (HP t Ht). simpl in HP.
  unfold stored_kind in HP. by rewrite (H3 t Ht) in HP.
Qed.

Lemma stored_task id :
  is_Some (all_tasks d !! id) →
  ∃ t, get_task_or_corrupted d id = Ok t ∧ uid t = id ∧ stored t ∧ kind t = stored_kind id.
Proof.
  intros [t Ht]. exists t. unfold get_task_or_corrupted, get_task, stored_kind, stored.
  pose proof (con_uid _ Hc _ _ Ht) as Hu. rewrite Hu, Ht. done.
Qed.

Lemma settings_Ok n l :
  (∀ i, i ∈ l → is_Some (all_tasks d !! i)) →
  Forall (λ id, is_settings (stored_kind id) = true) l →
  ∃ ss ts, create_settings d n l = Ok (OSettings n ss ts) ∧
    uid <$> ts = l ∧ Forall stored ts ∧ collect updated_settings ts = Ok ss.
Proof.
  intros Hl HP. destruct (stored_tasks l is_settings Hl) as (ts & H1 & H2 & H3 & H4).
  specialize (H4 HP). destruct (collect_Ok updated_settings ts) as [ss Hss].
  { intros t Ht. rewrite Forall_forall in H4. specialize (H4 t Ht).
    unfold updated_settings. destruct (kind t); simplify_eq/=. by eexists. }
  exists ss, ts. unfold create_settings. rewrite H1. simpl. rewrite Hss. done.
Qed.

Lemma document_operation_Ok n m l :
  (∀ i, i ∈ l → is_Some (all_tasks d !! i)) →
  Forall (λ id, is_document_operation (stored_kind id) = true) l →
  ∃ pk counts ops ts,
    create_document_operation d n m l = Ok (ODocumentOperation n pk m counts ops ts) ∧
    uid <$> ts = l ∧ Forall stored ts ∧
    operation_ok (ODocumentOperation n pk m counts ops ts).
Proof.
  intros Hl HP. destruct (stored_tasks l is_document_operation Hl) as (ts & H1 & H2 & H3 & H4).
  specialize (H4 HP). destruct (first_primary_key_Ok ts H4) as [pk Hpk].
  destruct (collect_Ok document_operation ts) as [ops Hops].
  { intros t Ht. rewrite Forall_forall in H4. specialize (H4 t Ht).
    unfold document_operation. destruct (kind t); simplify_eq/=; by eexists. }
  exists pk, ops.*1, ops.*2, ts. unfold create_document_operation. rewrite H1. simpl.
  rewrite Hpk. simpl. rewrite Hops. simpl. split_and!; try done. by exists ops.
Qed.

(** The names of the only index of a task. *)
Definition concerns (n : string) (id : TaskId) : Prop :=
  related_to_one_index (as_kind (stored_kind id)) = true → kind_indexes (stored_kind id) = [n].

(** A batch for the index [n], with the tasks of these ids. *)
Definition makes (n : string) (l : list TaskId) (c : bool) (r : outcome Error (option Batch))
    : Prop :=
  ∃ B, r = Ok (Some B) ∧ is_index_batch B ∧ batch_ok B ∧ ids B ≡ₚ l ∧
    Forall stored (batch_tasks B) ∧
    ∀ op must, B = BatchIndexOperation op must → must = c ∧ operation_index_uid op = n.

Lemma makes_operation n l c op :
  operation_ok op → operation_index_uid op = n → uid <$> operation_tasks op ≡ₚ l →
  Forall stored (operation_tasks op) → makes n l c (Ok (Some (BatchIndexOperation op c))).
Proof.
  intros. eexists. split_and!; try done. by intros op' must [= <- <-].
Qed.

Lemma makes_other n l c B :
  is_index_batch B → batch_ok B → uid <$> batch_tasks B = l → Forall stored (batch_tasks B) →
  (∀ op must, B ≠ BatchIndexOperation op must) → makes n l c (Ok (Some B)).
Proof.
  intros Hi Hok Hids Hst Hno. exists B. split_and!; try done.
  - unfold ids. by rewrite Hids.
  - intros op must ->. by destruct (Hno op must).
Qed.

Lemma makes_single n id c (mk : Task → outcome Error (option Batch)) :
  is_Some (all_tasks d !! id) →
  (∀ t, kind t = stored_kind id → ∃ B, mk t = Ok (Some B) ∧ is_index_batch B ∧ batch_ok B ∧
     batch_tasks B = [t] ∧ ∀ op must, B ≠ BatchIndexOperation op must) →
  makes n [id] c (task ← get_task_or_corrupted d id; mk task).
Proof.
  intros Hid Hmk. destruct (stored_task id Hid) as (t & -> & Hu & Hst & Hk). simpl.
  destruct (Hmk t Hk) as (B & -> & Hi & Hok & Hts & Hno).
  apply makes_other; rewrite ?Hts; try done.
  - simpl. by rewrite Hu.
  - by apply Forall_singleton.
Qed.

Ltac single := apply makes_single; [match goal with Hl : ∀ i, _ → is_Some _ |- _ => apply Hl; by left end|];
  intros t Hk; rewrite ?Hk.

Lemma create_next_batch_index_Ok n b c :
  (∀ i, i ∈ batch_ids b → is_Some (all_tasks d !! i)) →
  typed_batch stored_kind b →
  Forall (concerns n) (batch_ids b) →
  (∀ ids, b = BIndexDeletion ids →
     Forall (λ i, related_to_one_index (as_kind (stored_kind i)) = true) ids) →
  makes n (batch_ids b) c (create_next_batch_index d n b c).
Proof.
  intros Hl Ht Hn Hdel.
  assert (∀ l : list TaskId, (∀ i, i ∈ l → i ∈ batch_ids b) → ∀ i, i ∈ l → is_Some (all_tasks d !! i)) as Hsub.
  { intros l Hsub i Hi. by apply Hl, Hsub. }
  destruct b; simpl in Hl, Ht, Hn, Hsub |- *.
  - destruct (stored_tasks ids0 (λ _, true) Hl) as (ts & H1 & H2 & H3 & _).
    unfold create_document_clear. rewrite H1. apply makes_operation; simpl; by rewrite ?H2.
  - destruct (document_operation_Ok n method operation_ids Hl Ht)
      as (pk & cs & ops & ts & -> & H2 & H3 & Hop). apply makes_operation; simpl; by rewrite ?H2.
  - destruct (stored_tasks deletion_ids is_document_deletion Hl) as (ts & H1 & H2 & H3 & H4).
    specialize (H4 Ht). rewrite H1. simpl.
    destruct (collect_Ok deleted_ids ts) as [docs Hdocs].
    { intros t Hin. rewrite Forall_forall in H4. specialize (H4 t Hin).
      unfold deleted_ids. destruct (kind t); simplify_eq/=; by eexists. }
    rewrite Hdocs. apply makes_operation; simpl; by rewrite ?H2.
  - single. destruct Ht as (u & f & Hf). rewrite Hf in Hk |- *. eexists. split_and!; try done.
    by exists f.
  - destruct (settings_Ok n settings_ids) as (ss & ts & -> & H2 & H3 & H4);
      [apply Hsub; set_solver|done|].
    destruct (stored_tasks other (λ _, true)) as (cts & H1' & H2' & H3' & _);
      [apply Hsub; set_solver|].
    simpl. unfold create_document_clear. rewrite H1'.
    apply makes_operation; simpl; rewrite ?fmap_app, ?H2, ?H2'; try done. by apply Forall_app.
  - destruct Ht as [Ht1 Ht2].
    destruct (settings_Ok n settings_ids) as (ss & ts & -> & H2 & H3 & H4);
      [apply Hsub; set_solver|done|].
    destruct (document_operation_Ok n method operation_ids)
      as (pk & cs & ops & its & -> & H2' & H3' & Hop); [apply Hsub; set_solver|done|].
    apply makes_operation; simpl; rewrite ?fmap_app, ?H2, ?H2'; try done.
    + apply Permutation_app_comm.
    + by apply Forall_app.
  - destruct (settings_Ok n settings_ids Hl Ht) as (ss & ts & -> & H2 & H3 & H4).
    apply makes_operation; simpl; by rewrite ?H2.
  - destruct (stored_tasks ids0 (λ k, related_to_one_index (as_kind k)) Hl)
      as (ts & H1 & H2 & H3 & H4).
    rewrite H1. apply makes_other; simpl; rewrite ?H2; try done. apply H4. by apply (Hdel ids0).
  - single. destruct Ht as (u & pk & Hf). rewrite Hf in Hk |- *. eexists. split_and!; done.
  - single. destruct Ht as (u & pk & Hf). rewrite Hf in Hk |- *.
    pose proof (proj1 (Forall_singleton _ _) Hn) as Hnu. unfold concerns in Hnu.
    rewrite Hf in Hnu. specialize (Hnu eq_refl). injection Hnu as <-. eexists. split_and!; done.
  - single. eexists. split_and!; try done. destruct Ht as [swaps Hs]. exists swaps. by rewrite Hk.
Qed.
End from_kind.

(** ** Choosing the batch *)
Lemma bitmap_min_Some s i :
  bitmap_min s = Some i → i ∈ s ∧ ∀ j, j ∈ s → (i <= j)%N.
Proof.
  unfold bitmap_min. intros Hh. pose proof (sorted_sorted_ids s) as Hs.
  destruct (sorted_ids s) as [|a l] eqn:Hl; simplify_eq/=. split.
  - apply elem_of_sorted_ids. rewrite Hl. by left.
  - intros j Hj. apply elem_of_sorted_ids in Hj. rewrite Hl in Hj.
    apply elem_of_cons in Hj as [->|Hj]; [lia|].
    apply StronglySorted_inv in Hs as [_ Hs]. rewrite Forall_forall in Hs. by apply Hs.
Qed.

Lemma bitmap_max_Some s i :
  bitmap_max s = Some i → i ∈ s ∧ ∀ j, j ∈ s → (j <= i)%N.
Proof.
  unfold bitmap_max. intros Hh. pose proof (sorted_sorted_ids s) as Hs.
  apply last_Some in Hh as [l Hl]. split.
  - apply elem_of_sorted_ids. rewrite Hl. apply elem_of_app. right. by left.
  - intros j Hj. apply elem_of_sorted_ids in Hj. rewrite Hl in Hj, Hs.
    apply elem_of_app in Hj as [Hj|Hj%list_elem_of_singleton]; [|subst; lia].
    apply StronglySorted_app in Hs as (Hs & _). apply Hs; [done|by left].
Qed.

Lemma sorted_ids_nil s : sorted_ids s = [] → s = ∅.
Proof.
  intros Hl. apply set_eq. intros i. rewrite <- elem_of_sorted_ids, Hl. set_solver.
Qed.

Lemma bitmap_min_None s : bitmap_min s = None → s = ∅.
Proof. unfold bitmap_min. intros Hh. apply sorted_ids_nil. by destruct (sorted_ids s). Qed.

Lemma bitmap_max_None s : bitmap_max s = None → s = ∅.
Proof. unfold bitmap_max. intros Hh. apply sorted_ids_nil. by apply last_None. Qed.

Section choice.
Context (indexes : IndexView) (autobatching_enabled : bool) (d : TaskDb).
Hypothesis (Hq : queue_ok d).
Hypothesis (Hview : ∀ n, view_exists indexes n = true →
  ∃ pk, view_primary_key indexes n = Ok pk).

Let Hc : consistent d := qok_consistent _ Hq.

Definition enqueued_kind (k : Kind) (i : TaskId) : Prop :=
  i ∈ get_kind d k ∩ get_status d Enqueued.

Lemma enqueued_kind_spec k i :
  enqueued_kind k i ↔ ∃ t, all_tasks d !! i = Some t ∧ status t = Enqueued ∧ as_kind (kind t) = k.
Proof.
  unfold enqueued_kind. rewrite elem_of_intersection, get_kind_spec, get_status_spec by done.
  naive_solver.
Qed.

(** A batch on the index of the first enqueued task: enqueued tasks of that
    index, with no gap. *)
Definition index_choice (b : Batch) : Prop :=
  ∃ first, bitmap_min (get_status d Enqueued) = Some first ∧ first ∈ ids b ∧
    (autobatching_enabled = false → ids b = [first]) ∧
    ((ids b = [first] ∧ stored_kind d first = IndexSwapTask []) ∨
     ∃ n, (∀ i, i ∈ ids b → i ∈ TaskQueue.index_tasks d n) ∧
       ∀ i j, i ∈ ids b → j ∈ TaskQueue.index_tasks d n → j ∈ get_status d Enqueued →
         (j < i)%N → j ∈ ids b).

Lemma stored_kind_Some i t : all_tasks d !! i = Some t → stored_kind d i = kind t.
Proof. unfold stored_kind. by intros ->. Qed.

Lemma collect_task_uid_kind l :
  (∀ i, i ∈ l → is_Some (all_tasks d !! i)) →
  collect (task_uid_kind d) l = Ok ((λ i, (i, stored_kind d i)) <$> l).
Proof.
  induction l as [|i l IH]; intros Hl; [done|].
  destruct (stored_task d Hc i) as (t & Ht & Hu & _ & Hk); [apply Hl; by left|].
  cbn [collect]. rewrite IH by (intros; apply Hl; by right).
  unfold task_uid_kind. rewrite Ht. simpl. by rewrite Hu, Hk.
Qed.

Definition unprioritised (k : Kind) : bool :=
  match k with
  | KTaskCancelation | KTaskDeletion | KSnapshotCreation | KDumpCreation => false
  | _ => true
  end.

Lemma unprioritised_batchable k :
  unprioritised (as_kind k) = true → batchable (E:=Error) k.
Proof. unfold batchable. destruct k; simpl; try done; intros _; by eexists. Qed.

Lemma indexes_nil k :
  unprioritised (as_kind k) = true → kind_indexes k = [] → k = IndexSwapTask [].
Proof.
  destruct k; simpl; try done. intros _ He.
  change (elements (swap_set swaps ∅) = []) in He.
  destruct swaps as [|s swaps]; [done|]. exfalso.
  assert ((swap_indexes s).1 ∈ elements (swap_set (s :: swaps) ∅)) as Hin.
  { apply elem_of_elements, elem_of_swap_set. right. by left. }
  rewrite He in Hin. by apply not_elem_of_nil in Hin.
Qed.

Lemma concerns_index n i : i ∈ TaskQueue.index_tasks d n → concerns d n i.
Proof.
  intros (t & Ht & Hn)%index_tasks_spec; [|done]. unfold concerns.
  rewrite (stored_kind_Some i t Ht). unfold Tasks.indexes in Hn.
  destruct (kind t); simpl in *; try done; intros _;
    apply list_elem_of_singleton in Hn; by subst.
Qed.

(** Autobatching a sorted list of enqueued tasks of one index. *)
Lemma autobatched n (l : list TaskId) exists_ pk :
  l ≠ [] → NoDup l →
  (∀ i, i ∈ l → i ∈ TaskQueue.index_tasks d n ∧ unprioritised (as_kind (stored_kind d i)) = true) →
  ∃ b create p rest,
    autobatch (E:=Error) ((λ i, (i, stored_kind d i)) <$> l) exists_ pk = Ok (Some (b, create)) ∧
    l = p ++ rest ∧ p ≠ [] ∧
    makes d n p create (create_next_batch_index d n b create).
Proof.
  intros Hne Hnd Hl.
  assert (Forall (λ e, batchable (E:=Error) e.2) ((λ i, (i, stored_kind d i)) <$> l)) as Hb.
  { apply Forall_fmap, Forall_forall. intros i Hi. by apply unprioritised_batchable, Hl. }
  destruct (autobatch_grown exists_ pk _ Hb) as (flow & create & p' & rest' & -> & Heq & Hg).
  { by destruct l. }
  apply fmap_app_inv in Heq as (p & rest & -> & -> & ->).
  exists (flow_batch flow), create, p, rest. split; [done|]. split; [done|].
  assert (p ≠ []) as Hp by (intros ->; by apply grown_nonempty in Hg). split; [done|].
  pose proof (grown_ids _ _ _ _ _ Hg) as Hids.
  assert (((λ i, (i, stored_kind d i)) <$> p).*1 = p) as Hp1.
  { rewrite <- list_fmap_compose. etransitivity; [|apply list_fmap_id]. done. }
  rewrite Hp1 in Hids.
  destruct (typed_grown (stored_kind d) _ _ _ _ _ Hg) as [Ht Hrel].
  { apply Forall_fmap, Forall_forall. by intros i Hi. }
  assert (∀ i, i ∈ batch_ids (flow_batch flow) → i ∈ p) as Hin.
  { intros i Hi. by rewrite <- Hids. }
  assert (∀ i, i ∈ p → i ∈ TaskQueue.index_tasks d n) as Hpn.
  { intros i Hi. apply Hl, elem_of_app. by left. }
  destruct (create_next_batch_index_Ok d Hc n (flow_batch flow) create)
    as (B & -> & H1 & H2 & H3 & H4 & H5).
  - intros i Hi%Hin%Hpn. apply index_tasks_spec in Hi as (t & Ht' & _); [|done]. by exists t.
  - done.
  - apply Forall_forall. intros i Hi%Hin%Hpn. by apply concerns_index.
  - intros ids' Hdel. apply Forall_forall. intros i Hi.
    rewrite Forall_fmap, Forall_forall in Hrel.
    assert (i ∈ p) as Hip by (apply Hin; by rewrite Hdel).
    destruct (Hrel i Hip) as [Hr|Hr]; [done|]. by rewrite Hr in Hdel.
  - exists B. split_and!; try done. by rewrite H3.
Qed.

Definition no_enqueued (k : Kind) : Prop := get_kind d k ∩ get_status d Enqueued = ∅.

Definition from_table (b : Batch) : Prop :=
  Forall (λ t, stored d t ∧ status t = Enqueued) (batch_tasks b).

Lemma sorted_ids_cons X i :
  bitmap_min X = Some i → ∃ l, sorted_ids X = i :: l.
Proof. unfold bitmap_min. destruct (sorted_ids X); intros; simplify_eq/=. by eexists. Qed.

(** The smallest id of a set comes first in every subset that has it. *)
Lemma bitmap_min_subset X Y i : bitmap_min X = Some i → Y ⊆ X → i ∈ Y → bitmap_min Y = Some i.
Proof.
  intros [Hi Hmin]%bitmap_min_Some Hsub HiY. destruct (bitmap_min Y) as [j|] eqn:Hj.
  - apply bitmap_min_Some in Hj as [HjY Hmj]. f_equal.
    pose proof (Hmin j (Hsub j HjY)). pose proof (Hmj i HiY). lia.
  - apply bitmap_min_None in Hj. set_solver.
Qed.

Lemma sorted_prefix (X : gset TaskId) p rest i j :
  sorted_ids X = p ++ rest → i ∈ p → j ∈ X → (j < i)%N → j ∈ p.
Proof.
  intros Hs Hi Hj Hlt. apply elem_of_sorted_ids in Hj. rewrite Hs in Hj.
  apply elem_of_app in Hj as [?|Hj]; [done|]. exfalso.
  pose proof (sorted_sorted_ids X) as Hso. rewrite Hs in Hso.
  apply StronglySorted_app in Hso as (H & _). specialize (H i j Hi Hj). lia.
Qed.

(** The batch of the first tasks of one index. *)
Definition good_index_batch (b : Batch) : Prop :=
  is_index_batch b ∧ batch_ok b ∧ from_table b ∧ NoDup (ids b) ∧ index_choice b.

Lemma stored_enqueued t : stored d t → uid t ∈ get_status d Enqueued → status t = Enqueued.
Proof.
  intros Ht (t' & Ht' & <-)%get_status_spec; [|done]. unfold stored in Ht. congruence.
Qed.

Lemma index_batch_of n first l2 l1 exists_ pk :
  (∀ i, i ∈ get_status d Enqueued → unprioritised (as_kind (stored_kind d i)) = true) →
  bitmap_min (get_status d Enqueued) = Some first →
  sorted_ids (TaskQueue.index_tasks d n ∩ get_status d Enqueued) = (first :: l2) ++ l1 →
  (autobatching_enabled = false → l2 = []) →
  ∃ b create B,
    autobatch (E:=Error) ((λ i, (i, stored_kind d i)) <$> first :: l2) exists_ pk
      = Ok (Some (b, create)) ∧
    create_next_batch_index d n b create = Ok (Some B) ∧ good_index_batch B.
Proof.
  intros Hun Hmin Hl1 Hoff. set (X := _ ∩ _) in Hl1.
  assert (∀ i, i ∈ first :: l2 → i ∈ X) as HlX.
  { intros i Hi. apply elem_of_sorted_ids. rewrite Hl1. apply elem_of_app. by left. }
  assert (NoDup (first :: l2)) as Hnd.
  { pose proof (NoDup_sorted_ids X) as Hnd. rewrite Hl1 in Hnd. by apply NoDup_app in Hnd as [? _]. }
  destruct (autobatched n (first :: l2) exists_ pk)
    as (b & create & p & rest & Hb & Hp & Hpne & B & HB & H1 & H2 & H3 & H4 & _); [done|done| |].
  { intros i Hi%HlX. apply elem_of_intersection in Hi as [? ?]. split; [done|by apply Hun]. }
  exists b, create, B. split; [done|]. split; [done|].
  assert (∀ i, i ∈ ids B → i ∈ X) as HidsX.
  { intros i. rewrite H3. intros Hi. apply HlX. rewrite Hp. apply elem_of_app. by left. }
  destruct p as [|x p]; [done|]. simplify_eq/=. split_and!; try done.
  - apply Forall_forall. intros t' Ht'. rewrite Forall_forall in H4. split; [by apply H4|].
    apply stored_enqueued; [by apply H4|]. assert (uid t' ∈ X); [|set_solver].
    apply HidsX. apply list_elem_of_fmap. by exists t'.
  - rewrite H3. rewrite app_comm_cons in Hnd. by apply NoDup_app in Hnd as [? _].
  - exists x. split; [done|]. split; [rewrite H3; by left|]. split.
    + intros [Hn Hr]%Hoff%app_nil. subst p. by apply Permutation_singleton_r.
    + right. exists n. split; [intros i Hi%HidsX; set_solver|].
      intros i j Hi Hj Hje Hlt. rewrite H3 in Hi |- *.
      assert (sorted_ids X = (x :: p) ++ (rest ++ l1)) as Hl1'.
      { rewrite Hl1. simpl. by rewrite <- app_assoc. }
      apply (sorted_prefix X (x :: p) (rest ++ l1) i); [done|done|set_solver|done].
Qed.

Lemma create_index_batch_spec :
  (∀ i, i ∈ get_status d Enqueued → unprioritised (as_kind (stored_kind d i)) = true) →
  (create_index_batch indexes autobatching_enabled d (get_status d Enqueued) = Ok None ∧
   get_status d Enqueued = ∅) ∨
  ∃ b, create_index_batch indexes autobatching_enabled d (get_status d Enqueued) = Ok (Some b) ∧
    good_index_batch b.
Proof.
  intros Hun. unfold create_index_batch.
  destruct (bitmap_min (get_status d Enqueued)) as [first|] eqn:Hmin;
    [right|left; split; [done|by apply bitmap_min_None]].
  pose proof (bitmap_min_Some _ _ Hmin) as [Hfirst Hle].
  pose proof (proj1 (get_status_spec d Enqueued first Hc) Hfirst) as (t0 & Ht0 & _).
  destruct (stored_task d Hc first) as (t & -> & Hu & Hstored & Hk); [by exists t0|]. simpl.
  pose proof (Hun first Hfirst) as Hunf.
  destruct (Tasks.indexes t) as [|n names] eqn:Hn; simpl.
  - assert (kind t = IndexSwapTask []) as Hkt by (apply indexes_nil; [by rewrite Hk|done]).
    rewrite Hkt. simpl. exists (BatchIndexSwap t). unfold good_index_batch. split_and!; try done.
    + simpl. rewrite Hkt. by eexists.
    + apply Forall_singleton. split; [done|]. apply stored_enqueued; [done|by rewrite Hu].
    + simpl. apply NoDup_singleton.
    + exists first. unfold ids. simpl. rewrite Hu. split_and!; [done|by left|done|].
      left. split; [done|]. by rewrite <- Hk.
  - assert (∃ o, (if view_exists indexes n then view_primary_key indexes n else Ok None) = Ok o)
      as [o ->].
    { destruct (view_exists indexes n) eqn:He; [by apply Hview|by eexists]. }
    simpl. set (X := TaskQueue.index_tasks d n ∩ get_status d Enqueued).
    assert (bitmap_min X = Some first) as HminX.
    { apply (bitmap_min_subset (get_status d Enqueued)); [done|set_solver|].
      apply elem_of_intersection. split; [|done]. apply index_tasks_spec; [done|].
      exists t. rewrite <- Hu. split; [done|]. rewrite Hn. by left. }
    destruct (sorted_ids_cons X first HminX) as [l0 Hl0].
    set (l2 := if autobatching_enabled then l0 else []).
    assert ((if autobatching_enabled then sorted_ids X else take 1 (sorted_ids X)) = first :: l2)
      as -> by (unfold l2; rewrite Hl0; by destruct autobatching_enabled).
    destruct (index_batch_of n first l2 (if autobatching_enabled then [] else l0)
      (view_exists indexes n) o Hun Hmin) as (b & create & B & Hb & HB & Hgood).
    { fold X. rewrite Hl0. unfold l2. destruct autobatching_enabled; [by rewrite app_nil_r|done]. }
    { unfold l2. by destruct autobatching_enabled. }
    rewrite collect_task_uid_kind.
    + cbn [mbind outcome_bind]. rewrite Hb. simpl. rewrite HB. by exists B.
    + intros i Hi. assert (i ∈ X) as Hx.
      { apply elem_of_sorted_ids. rewrite Hl0. unfold l2 in Hi.
        destruct autobatching_enabled; [done|]. apply list_elem_of_singleton in Hi as ->. by left. }
      apply elem_of_intersection in Hx as [(t' & Ht' & _)%index_tasks_spec _]; [by exists t'|done].
Qed.
End choice.

(** *** The priorities *)
Section priorities.
Context (s : IndexScheduler) (autobatching_enabled : bool).

Definition chosen (b : Batch) : Prop :=
  match b with
  | BatchTaskCancelation task started_at processing_ids =>
      enqueued_kind (db s) KTaskCancelation (uid task) ∧
      (∀ j, enqueued_kind (db s) KTaskCancelation j → (j <= uid task)%N) ∧
      started_at = processing_started_at (processing_tasks s) ∧
      processing_ids = processing (processing_tasks s)
  | BatchTaskDeletion task =>
      no_enqueued (db s) KTaskCancelation ∧
      enqueued_kind (db s) KTaskDeletion (uid task) ∧
      (∀ j, enqueued_kind (db s) KTaskDeletion j → (uid task <= j)%N)
  | BatchSnapshotCreation tasks =>
      no_enqueued (db s) KTaskCancelation ∧ no_enqueued (db s) KTaskDeletion ∧
      (∀ i, i ∈ uid <$> tasks ↔ enqueued_kind (db s) KSnapshotCreation i)
  | BatchDump task =>
      no_enqueued (db s) KTaskCancelation ∧ no_enqueued (db s) KTaskDeletion ∧
      no_enqueued (db s) KSnapshotCreation ∧
      enqueued_kind (db s) KDumpCreation (uid task) ∧
      (∀ j, enqueued_kind (db s) KDumpCreation j → (uid task <= j)%N)
  | b =>
      no_enqueued (db s) KTaskCancelation ∧ no_enqueued (db s) KTaskDeletion ∧
      no_enqueued (db s) KSnapshotCreation ∧ no_enqueued (db s) KDumpCreation ∧
      index_choice autobatching_enabled (db s) b
  end.

(** A batch that the next tick may process. *)
Definition good_batch (b : Batch) : Prop :=
  batch_ok b ∧ from_table (db s) b ∧ NoDup (ids b) ∧ ids b ≠ [].

Context (indexes : IndexView).
Hypothesis (Hq : queue_ok (db s)).
Hypothesis (Hview : ∀ n, view_exists indexes n = true →
  ∃ pk, view_primary_key indexes n = Ok pk).

Let Hc : consistent (db s) := qok_consistent _ Hq.

Lemma enqueued_task k i :
  enqueued_kind (db s) k i →
  ∃ t, get_task_or_corrupted (db s) i = Ok t ∧ uid t = i ∧ as_kind (kind t) = k ∧
    stored (db s) t ∧ status t = Enqueued.
Proof.
  intros (t & Ht & Hs & Hk)%enqueued_kind_spec; [|done].
  destruct (stored_task (db s) Hc i) as (t' & H1 & H2 & H3 & H4); [by exists t|].
  exists t'. assert (t' = t) as -> by (unfold stored in H3; congruence). done.
Qed.

Lemma good_single (b : Batch) t :
  batch_tasks b = [t] → stored (db s) t → status t = Enqueued → batch_ok b → good_batch b.
Proof.
  intros Hb Hst He Hok. unfold good_batch, from_table, ids. rewrite Hb.
  split_and!; [done|by apply Forall_singleton|apply NoDup_singleton|done].
Qed.

(** All the snapshots at once. *)
Lemma good_snapshot :
  get_kind (db s) KSnapshotCreation ∩ get_status (db s) Enqueued ≠ ∅ →
  ∃ ts, get_existing_tasks (db s)
      (sorted_ids (get_kind (db s) KSnapshotCreation ∩ get_status (db s) Enqueued)) = Ok ts ∧
    good_batch (BatchSnapshotCreation ts) ∧
    ∀ i, i ∈ uid <$> ts ↔ enqueued_kind (db s) KSnapshotCreation i.
Proof.
  intros Hsnap. set (X := _ ∩ _) in Hsnap |- *.
  assert (∀ i, i ∈ X ↔ enqueued_kind (db s) KSnapshotCreation i) as HX by done.
  destruct (stored_tasks (db s) Hc (sorted_ids X) (λ _, true)) as (ts & -> & Hids & Hst & _).
  { intros i Hi%elem_of_sorted_ids%HX. apply enqueued_kind_spec in Hi as (t & -> & _); [|done].
    by eexists. }
  rewrite Forall_forall in Hst.
  assert (∀ t, t ∈ ts → status t = Enqueued ∧ as_kind (kind t) = KSnapshotCreation) as Hts.
  { intros t Ht. specialize (Hst t Ht). assert (uid t ∈ X) as Hx.
    { apply elem_of_sorted_ids. rewrite <- Hids. apply list_elem_of_fmap. by exists t. }
    apply HX, enqueued_kind_spec in Hx as (t' & Ht' & ? & ?); [|done].
    unfold stored in Hst. by simplify_eq. }
  exists ts. split; [done|]. split; [|intros i; rewrite Hids, elem_of_sorted_ids; apply HX].
  unfold good_batch, from_table, ids. simpl. rewrite Hids. split_and!.
  - apply Forall_forall. intros t Ht. by apply Hts.
  - apply Forall_forall. intros t Ht. split; [by apply Hst|by apply Hts].
  - apply NoDup_sorted_ids.
  - intros Hnil. by apply Hsnap, sorted_ids_nil.
Qed.

(** The first priority with an enqueued task makes the batch. *)
Lemma next_batch_cases :
  (create_next_batch indexes autobatching_enabled s = Ok None ∧
   get_status (db s) Enqueued = ∅) ∨
  ∃ b, create_next_batch indexes autobatching_enabled s = Ok (Some b) ∧
    good_batch b ∧ chosen b.
Proof.
  unfold create_next_batch.
  destruct (bitmap_max (_ ∩ _)) as [i|] eqn:Hcancel.
  { right. apply bitmap_max_Some in Hcancel as [Hi Hmax].
    destruct (enqueued_task _ _ Hi) as (t & -> & <- & Hk & Hst & He). eexists. split; [done|].
    split; [by eapply good_single|done]. }
  apply bitmap_max_None in Hcancel.
  destruct (bitmap_min (get_kind _ KTaskDeletion ∩ _)) as [i|] eqn:Hdel.
  { right. apply bitmap_min_Some in Hdel as [Hi Hmin].
    destruct (enqueued_task _ _ Hi) as (t & -> & <- & Hk & Hst & He). eexists. split; [done|].
    split; [by eapply good_single|done]. }
  apply bitmap_min_None in Hdel. case_decide as Hsnap.
  { right. destruct (good_snapshot Hsnap) as (ts & -> & Hgood & Hids). eexists. done. }
  destruct (bitmap_min (get_kind _ KDumpCreation ∩ _)) as [i|] eqn:Hdump.
  { right. apply bitmap_min_Some in Hdump as [Hi Hmin].
    destruct (enqueued_task _ _ Hi) as (t & -> & <- & Hk & Hst & He). eexists. split; [done|].
    split; [by eapply good_single|done]. }
  apply bitmap_min_None in Hdump.
  destruct (create_index_batch_spec indexes autobatching_enabled (db s) Hq Hview)
    as [[-> ?]|(b & -> & Hib & Hok & Hft & Hnd & Hch)].
  - intros i Hi. assert (∀ k, get_kind (db s) k ∩ get_status (db s) Enqueued = ∅ →
      as_kind (stored_kind (db s) i) ≠ k) as Hno.
    { intros k Hk Heq. apply get_status_spec in Hi as Ht; [|done]. destruct Ht as (t & Ht & Hs).
      rewrite (stored_kind_Some _ _ _ Ht) in Heq.
      assert (enqueued_kind (db s) k i) as He by (apply enqueued_kind_spec; eauto).
      unfold enqueued_kind in He. rewrite Hk in He. by apply elem_of_empty in He. }
    apply Hno in Hcancel, Hdel, Hsnap, Hdump. by destruct (as_kind (stored_kind (db s) i)).
  - by left.
  - right. exists b. split; [done|]. split.
    + split_and!; try done. destruct Hch as (f & _ & Hf & _). intros Hnil. rewrite Hnil in Hf.
      by apply not_elem_of_nil in Hf.
    + destruct b; simpl in Hib; try done; by split_and!.
Qed.
End priorities.

(** An answer does not depend on the indexes that cannot be opened. *)
Definition opened (indexes : IndexView) : IndexView :=
  mkIndexView (view_exists indexes) (λ n,
    match view_primary_key indexes n with Ok pk => Ok pk | _ => Ok None end).

(** The first index of the queue cannot be opened, and this is the answer. *)
Definition not_opened (indexes : IndexView) (r : outcome Error (option Batch)) : Prop :=
  ∃ n, (∃ e, view_primary_key indexes n = Err e ∧ r = Err e) ∨
       (∃ p, view_primary_key indexes n = Panic p ∧ r = Panic p).

Lemma create_index_batch_opened indexes autobatching_enabled d X :
  let r := create_index_batch indexes autobatching_enabled d X in
  r = create_index_batch (opened indexes) autobatching_enabled d X ∨ not_opened indexes r.
Proof.
  unfold create_index_batch, not_opened. destruct (bitmap_min X) as [i|]; [|by left].
  destruct (get_task_or_corrupted d i) as [t|e|p]; [|by left..]. cbn [mbind outcome_bind].
  destruct (head (Tasks.indexes t)) as [n|]; [|by left]. cbn [view_exists view_primary_key opened].
  destruct (view_exists indexes n); [|by left].
  destruct (view_primary_key indexes n) as [pk|e|p] eqn:Hpk; cbn [mbind outcome_bind];
    [by left|right; eauto..].
Qed.

Lemma create_next_batch_opened indexes autobatching_enabled s :
  let r := create_next_batch indexes autobatching_enabled s in
  r = create_next_batch (opened indexes) autobatching_enabled s ∨ not_opened indexes r.
Proof.
  unfold create_next_batch. repeat (case_match; [by left|]). apply create_index_batch_opened.
Qed.

(** What is chosen, when something is. *)
Lemma next_batch_Ok indexes autobatching_enabled s r :
  queue_ok (db s) → create_next_batch indexes autobatching_enabled s = r →
  match r with
  | Ok None => get_status (db s) Enqueued = ∅
  | Ok (Some b) => good_batch s b ∧ chosen s autobatching_enabled b
  | _ => not_opened indexes r
  end.
Proof.
  intros Hq <-. destruct (create_next_batch_opened indexes autobatching_enabled s) as [->|Hno].
  - destruct (next_batch_cases s autobatching_enabled (opened indexes) Hq)
      as [[-> ?]|(b & -> & ? & ?)]; try done.
    intros n _. simpl. destruct (view_primary_key indexes n); eauto.
  - destruct (create_next_batch _ _ _) as [r|e|p]; [|done..].
    by destruct Hno as (n & [(e & _ & ?)|(p & _ & ?)]).
Qed.

(** C13: On a well-formed queue whose existing indexes can be opened, choosing
    the next batch never fails and never reaches its unreachable code.  There
    is no batch exactly when no task is enqueued.  Otherwise the batch is made
    of distinct enqueued tasks of the table, of the kinds its operation
    expects, and it is chosen by priority: the last enqueued cancelation, else
    the first deletion, else all the snapshots, else the first dump, else tasks
    of one index of the first enqueued task, with no enqueued task of that index
    skipped, only the first one when autobatching is disabled. *)
Theorem create_next_batch_spec (indexes : IndexView) (autobatching_enabled : bool)
    (s : IndexScheduler) :
  queue_ok (db s) →
  (∀ n, view_exists indexes n = true → ∃ pk, view_primary_key indexes n = Ok pk) →
  (create_next_batch indexes autobatching_enabled s = Ok None ↔
     get_status (db s) Enqueued = ∅) ∧
  (get_status (db s) Enqueued ≠ ∅ →
     ∃ b, create_next_batch indexes autobatching_enabled s = Ok (Some b) ∧
       good_batch s b ∧ chosen s autobatching_enabled b).
Proof.
  intros Hq Hview.
  destruct (next_batch_cases s autobatching_enabled indexes Hq Hview)
    as [[-> He]|(b & -> & Hgood & Hch)]; [done|].
  assert (get_status (db s) Enqueued ≠ ∅) as Hne.
  { destruct Hgood as (_ & Hft & _ & Hids). unfold ids in Hids. intros He.
    destruct (batch_tasks b) as [|t ts] eqn:Hb; [done|]. unfold from_table in Hft.
    rewrite Hb in Hft. apply Forall_cons in Hft as [[Hst Hen] _].
    assert (uid t ∈ get_status (db s) Enqueued) as Hin.
    { apply get_status_spec; [apply (qok_consistent _ Hq)|]. by exists t. }
    rewrite He in Hin. by apply elem_of_empty in Hin. }
  split; [by split|]. intros _. by exists b.
Qed.
End batch.

Module Demo.
Import UnitJson TaskQueue.Demo Scheduler.Demo.
Definition no_index : IndexView := mkIndexView (λ _, false) (λ _, Ok None).

Lemma one_task_ok : queue_ok one_task.
Proof.
  constructor; [apply one_task_consistent|..]; intros i t;
    intros; match goal with H : all_tasks _ !! _ = _ |- _ => simpl in H;
      apply lookup_singleton_Some in H as [<- <-] end; try done.
Qed.

Lemma create_next_batch_spec_witness :
  ∃ b, create_next_batch no_index true idle = Ok (Some b) ∧ good_batch idle b.
Proof.
  destruct (proj2 (create_next_batch_spec no_index true idle one_task_ok
    (λ n (H : false = true), False_rect _ (diff_false_true H)))) as (b & H1 & H2 & _).
  - vm_compute. discriminate.
  - exists b. split; [exact H1|exact H2].
Defined.
End Demo.
