(* ===== verification/QueueOps.v ===== *)
(** * Batches that act on the queue (index-scheduler/src/batch.rs)

    The cancelation and the deletion of the tasks that a query matched, and the
    swap of two indexes, which rewrites the names in the older tasks.  The index
    mapper is an interface: what a name resolves to, and the swap of two
    names. *)
From S2P Require Import Prelude Settings Keys Errors Tasks TaskQueue Scheduler Batch.

(** ** The names of the index mapper *)
Class IndexNames (M : Type) := {
  IndexId : Type;
  resolve : M → string → option IndexId;
  swap_names_of : string → string → M → outcome Error M
}.

(** [IndexMapper::swap] exchanges two names that exist. *)
Class IndexNamesLaws (M : Type) `{IndexNames M} : Prop := {
  swap_resolves m lhs rhs :
    is_Some (resolve m lhs) → is_Some (resolve m rhs) →
    ∃ m', swap_names_of lhs rhs m = Ok m' ∧
      ∀ n, resolve m' n = resolve m (swap_uid (lhs, rhs) n)
}.

Definition index_exists `{IndexNames M} (m : M) (name : string) : bool :=
  bool_decide (is_Some (resolve m name)).

Section queue_ops.
Context {J : JsonValue}.

(** A loop whose body may fail. *)
Fixpoint fold_outcome {A B} (f : A → B → outcome Error B) (l : list A) (acc : B)
    : outcome Error B :=
  match l with
  | [] => Ok acc
  | x :: l => acc ← f x acc; fold_outcome f l acc
  end.

(** ** Cancelation *)
Definition canceled_task (cancel_task_id : TaskId) (previous_started_at now : OffsetDateTime)
    (previous_processing_tasks : gset TaskId) (task : Task) : Task :=
  mkTask (uid task) (enqueued_at task)
    (if decide (uid task ∈ previous_processing_tasks) then Some previous_started_at
     else started_at task)
    (Some now) (error task) (Some cancel_task_id) (to_failed <$> details task) Canceled (kind task).

Definition cancel_matched_tasks (now : OffsetDateTime) (cancel_task_id : TaskId)
    (matched_tasks : gset TaskId) (previous_started_at : OffsetDateTime)
    (previous_processing_tasks : gset TaskId) (d : TaskDb)
    : outcome Error (list Uuid * TaskDb) :=
  let tasks_to_cancel := get_status d Enqueued ∩ matched_tasks in
  tasks ← get_existing_tasks d (sorted_ids tasks_to_cancel);
  let content_files_to_delete := omap content_uuid tasks in
  d ← fold_outcome (λ task d,
        update_task (canceled_task cancel_task_id previous_started_at now
          previous_processing_tasks task) d) tasks d;
  Ok (content_files_to_delete,
      with_canceled_by (<[cancel_task_id := tasks_to_cancel]> (canceled_by_db d)) d).

(** ** Deletion *)

(** What the first loop collects, besides the datetimes it removes. *)
Record Affected := mkAffected {
  affected_indexes : gset string;
  affected_statuses : gset Status;
  affected_kinds : gset Kind;
  affected_canceled_by : gset TaskId
}.

Definition remove_optional_datetime (time : option OffsetDateTime) (task_id : TaskId)
    (database : gmap OffsetDateTime (gset TaskId)) : gmap OffsetDateTime (gset TaskId) :=
  match time with
  | Some time => remove_task_datetime time task_id database
  | None => database
  end.

Definition forget_dates (task : Task) (acc : Affected * TaskDb) : Affected * TaskDb :=
  let '(a, d) := acc in
  (mkAffected (list_to_set (Tasks.indexes task) ∪ affected_indexes a)
     ({[status task]} ∪ affected_statuses a)
     ({[as_kind (kind task)]} ∪ affected_kinds a)
     (match canceled_by task with Some c => {[c]} | None => ∅ end ∪ affected_canceled_by a),
   with_finished_at (remove_optional_datetime (finished_at task) (uid task) (finished_at_db d))
     (with_started_at (remove_optional_datetime (started_at task) (uid task) (started_at_db d))
        (with_enqueued_at
           (remove_task_datetime (enqueued_at task) (uid task) (enqueued_at_db d)) d))).

Definition forget_canceled_by (to_delete_tasks : gset TaskId) (d : TaskDb)
    (canceled_by : TaskId) : TaskDb :=
  match canceled_by_db d !! canceled_by with
  | Some tasks =>
      with_canceled_by
        (put_or_delete canceled_by (tasks ∖ to_delete_tasks) (canceled_by_db d)) d
  | None => d
  end.

Definition deletable (processing_ids : gset TaskId) (matched_tasks : gset TaskId) (d : TaskDb)
    : gset TaskId :=
  ((all_task_ids d ∩ matched_tasks) ∖ processing_ids) ∖ get_status d Enqueued.

(** The loops on what the first one collected. *)
Definition forget_tasks (to_delete_tasks : gset TaskId) (a : Affected) (d : TaskDb) : TaskDb :=
  let d := foldl (λ d index, update_index index (λ bitmap, bitmap ∖ to_delete_tasks) d) d
             (elements (affected_indexes a)) in
  let d := foldl (λ d st, update_status st (λ bitmap, bitmap ∖ to_delete_tasks) d) d
             (elements (affected_statuses a)) in
  let d := foldl (λ d kd, update_kind kd (λ bitmap, bitmap ∖ to_delete_tasks) d) d
             (elements (affected_kinds a)) in
  let d := foldl (λ d task, with_all_tasks (delete task (all_tasks d)) d) d
             (sorted_ids to_delete_tasks) in
  foldl (forget_canceled_by to_delete_tasks) d (sorted_ids (affected_canceled_by a)).

Definition delete_matched_tasks (processing_ids matched_tasks : gset TaskId) (d : TaskDb)
    : outcome Error (N * TaskDb) :=
  let to_delete_tasks := deletable processing_ids matched_tasks d in
  '(a, d) ← fold_outcome (λ task_id acc,
      task ← get_task_or_corrupted acc.2 task_id; Ok (forget_dates task acc))
    (sorted_ids to_delete_tasks) (mkAffected ∅ ∅ ∅ ∅, d);
  Ok (bitmap_len to_delete_tasks, forget_tasks to_delete_tasks a d).

(** ** Swap *)
Section swap.
Context {M : Type} `{!IndexNames M}.

Definition rename_task (swap : string * string) (task_id : TaskId) (d : TaskDb)
    : outcome Error TaskDb :=
  task ← get_task_or_corrupted d task_id;
  Ok (with_all_tasks (<[task_id := swap_index_uid_in_task task swap]> (all_tasks d)) d).

Definition apply_index_swap (task_id : TaskId) (lhs rhs : string) (acc : M * TaskDb)
    : outcome Error (M * TaskDb) :=
  let '(m, d) := acc in
  if negb (index_exists m lhs) then Err (IndexNotFound lhs)
  else if negb (index_exists m rhs) then Err (IndexNotFound rhs)
  else
    let index_lhs_task_ids := remove_from task_id (TaskQueue.index_tasks d lhs) in
    let index_rhs_task_ids := remove_from task_id (TaskQueue.index_tasks d rhs) in
    d ← fold_outcome (rename_task (lhs, rhs))
          (sorted_ids (index_lhs_task_ids ∪ index_rhs_task_ids)) d;
    let d := update_index lhs (λ lhs_tasks,
               (lhs_tasks ∖ index_lhs_task_ids) ∪ index_rhs_task_ids) d in
    let d := update_index rhs (λ rhs_tasks,
               (rhs_tasks ∖ index_rhs_task_ids) ∪ index_lhs_task_ids) d in
    m ← swap_names_of lhs rhs m;
    Ok (m, d).

(** The names that do not exist, in the order of a [BTreeSet]. *)
Definition not_found_indexes (m : M) (swaps : list IndexSwap) : list string :=
  sorted_names (list_to_set (List.filter (λ n, negb (index_exists m n)) (swap_names swaps))).

Definition process_swaps (task_id : TaskId) (swaps : list IndexSwap) (acc : M * TaskDb)
    : outcome Error (M * TaskDb) :=
  match not_found_indexes acc.1 swaps with
  | [] =>
      fold_outcome (λ swap, apply_index_swap task_id (swap_indexes swap).1 (swap_indexes swap).2)
        swaps acc
  | [name] => Err (SwapIndexNotFound name)
  | names => Err (SwapIndexesNotFound names)
  end.
End swap.
End queue_ops.

(** ** Updating many tasks *)
Section update.
Context {J : JsonValue}.

(** The part of [queue_ok] on one task. *)
Definition task_ok (i : TaskId) (t : Task) : Prop :=
  status t ≠ Processing ∧
  (status t = Enqueued → started_at t = None ∧ finished_at t = None ∧ error t = None ∧
     details_ok (kind t) (details t)) ∧
  (∀ j, j ∈ references (kind t) → (j < i)%N) ∧
  (∀ swaps, kind t = IndexSwapTask swaps → NoDup (swap_names swaps)).

Lemma queue_ok_iff d :
  queue_ok d ↔ consistent d ∧ ∀ i t, all_tasks d !! i = Some t → task_ok i t.
Proof.
  split.
  - intros [Hc H1 H2 H3 H4]. split; [done|]. intros i t Ht. split_and!; eauto.
  - intros [Hc H]. constructor; [done|..]; intros i t; intros; by apply (H i t).
Qed.

(** A task that leaves the queue of the enqueued ones keeps it well formed. *)
Lemma task_ok_finished i t t' :
  task_ok i t → kind t' = kind t → status t' ≠ Processing → status t' ≠ Enqueued → task_ok i t'.
Proof.
  intros (_ & _ & H3 & H4) Hk Hp He. unfold task_ok. rewrite Hk. split_and!; try done.
Qed.

Lemma update_tasks_spec (f : Task → Task) ts d :
  consistent d → NoDup (uid <$> ts) →
  (∀ t, t ∈ ts → uid (f t) = uid t ∧
     ∃ told, all_tasks d !! uid t = Some told ∧ same_identity told (f t)) →
  ∃ d', fold_outcome (λ t d, update_task (f t) d) ts d = Ok d' ∧ consistent d' ∧
    (∀ t, t ∈ ts → all_tasks d' !! uid t = Some (f t)) ∧
    (∀ i, i ∉ uid <$> ts → all_tasks d' !! i = all_tasks d !! i) ∧
    canceled_by_db d' = canceled_by_db d.
Proof.
  revert d. induction ts as [|t ts IH]; intros d Hc Hnd Hts; simpl.
  - exists d. split_and!; try done. by intros t ?%not_elem_of_nil.
  - rewrite fmap_cons in Hnd. apply NoDup_cons in Hnd as [Hnt Hnd].
    destruct (Hts t) as (Hu & told & Hold & Hid); [by left|]. rewrite <- Hu in Hold.
    destruct (update_task_spec d told (f t) Hc Hold Hid) as (d1 & -> & Hc1 & Ha1 & Hcb1).
    simpl. rewrite Hu in Ha1.
    destruct (IH d1 Hc1 Hnd) as (d' & Hf & Hc' & Hin & Hout & Hcb).
    { intros t' Ht'. destruct (Hts t') as (Hu' & told' & Hold' & Hid'); [by right|].
      split; [done|]. exists told'. split; [|done]. rewrite Ha1, lookup_insert_ne; [done|].
      intros Heq. apply Hnt. rewrite Heq. apply list_elem_of_fmap. by exists t'. }
    exists d'. split; [done|]. split; [done|]. split; [|split].
    + intros t' [->|Ht']%elem_of_cons; [|by apply Hin].
      rewrite Hout, Ha1, lookup_insert_eq; done.
    + intros i Hi. apply not_elem_of_cons in Hi as [Hne Hi].
      rewrite Hout, Ha1, lookup_insert_ne; done.
    + by rewrite Hcb.
Qed.
End update.

(** ** Cancelation *)
Section cancel.
Context {J : JsonValue}.

Lemma with_canceled_by_consistent x d : consistent d → consistent (with_canceled_by x d).
Proof. by intros []. Qed.

(** The table after an operation that maps the tasks of a list. *)
Lemma mapped_table (f : Task → Task) (P : Task → Prop) `{!∀ t, Decision (P t)} (ts : list Task) d d' :
  consistent d →
  (∀ t, t ∈ ts ↔ all_tasks d !! uid t = Some t ∧ P t) →
  (∀ t, t ∈ ts → all_tasks d' !! uid t = Some (f t)) →
  (∀ i, i ∉ uid <$> ts → all_tasks d' !! i = all_tasks d !! i) →
  all_tasks d' = (λ t, if decide (P t) then f t else t) <$> all_tasks d.
Proof.
  intros Hc Hts Hin Hout. apply map_eq. intros i. rewrite lookup_fmap.
  destruct (all_tasks d !! i) as [t|] eqn:Ht; simpl.
  - pose proof (con_uid _ Hc _ _ Ht) as <-. case_decide as HP.
    + apply Hin, Hts. done.
    + rewrite Hout; [done|]. intros (t' & Hu & Ht')%list_elem_of_fmap.
      apply Hts in Ht' as [Ht' HP']. rewrite <- Hu in Ht'. by simplify_eq.
  - rewrite Hout; [done|]. intros (t' & Hu & Ht')%list_elem_of_fmap.
    apply Hts in Ht' as [Ht' _]. congruence.
Qed.

Definition to_cancel (matched : gset TaskId) (t : Task) : Prop :=
  status t = Enqueued ∧ uid t ∈ matched.

#[export] Instance to_cancel_dec matched t : Decision (to_cancel matched t).
Proof. unfold to_cancel. apply _. Defined.

Lemma cancel_matched_tasks_Ok (now : OffsetDateTime) (cancel_task_id : TaskId)
    (matched : gset TaskId) (previous_started_at : OffsetDateTime)
    (previous_processing : gset TaskId) (d : TaskDb) :
  queue_ok d →
  ∃ files d',
    cancel_matched_tasks now cancel_task_id matched previous_started_at previous_processing d
      = Ok (files, d') ∧
    queue_ok d' ∧
    all_tasks d' = (λ t, if decide (to_cancel matched t)
      then canceled_task cancel_task_id previous_started_at now previous_processing t else t)
      <$> all_tasks d ∧
    (∀ c, bucket (canceled_by_db d') c =
       if decide (c = cancel_task_id) then get_status d Enqueued ∩ matched
       else bucket (canceled_by_db d) c) ∧
    ∀ file, file ∈ files ↔
      ∃ i t, all_tasks d !! i = Some t ∧ to_cancel matched t ∧ content_uuid t = Some file.
Proof.
  intros Hq. pose proof (qok_consistent _ Hq) as Hc. unfold cancel_matched_tasks.
  set (X := get_status d Enqueued ∩ matched).
  assert (∀ i, i ∈ X ↔ ∃ t, all_tasks d !! i = Some t ∧ to_cancel matched t) as HX.
  { intros i. unfold X, to_cancel. rewrite elem_of_intersection, get_status_spec by done. split.
    - intros [(t & Ht & ?) ?]. exists t. by rewrite (con_uid _ Hc _ _ Ht).
    - intros (t & Ht & ? & Hu). rewrite (con_uid _ Hc _ _ Ht) in Hu. eauto. }
  destruct (get_existing_tasks_Ok d (sorted_ids X) Hc) as (ts & -> & Hids & Hst).
  { intros i Hi%elem_of_sorted_ids%HX. destruct Hi as (t & -> & _). by eexists. }
  assert (∀ t, t ∈ ts ↔ all_tasks d !! uid t = Some t ∧ to_cancel matched t) as Hts.
  { intros t. split.
    - intros Ht. split; [by apply Hst|]. assert (uid t ∈ X) as (t' & Ht' & ?)%HX.
      { apply elem_of_sorted_ids. rewrite <- Hids. apply list_elem_of_fmap. by exists t. }
      rewrite Hst in Ht' by done. by simplify_eq.
    - intros [Ht Hcan]. assert (uid t ∈ uid <$> ts) as (t' & Hu & Ht')%list_elem_of_fmap.
      { rewrite Hids. apply elem_of_sorted_ids, HX. by exists t. }
      pose proof (Hst t' Ht') as H'. rewrite <- Hu in H'. by simplify_eq. }
  simpl. set (f := canceled_task cancel_task_id previous_started_at now previous_processing).
  destruct (update_tasks_spec f ts d Hc) as (d1 & -> & Hc1 & Hin & Hout & Hcb).
  { rewrite Hids. apply NoDup_sorted_ids. }
  { intros t [Ht [He _]]%Hts. split; [done|]. exists t. split; [done|].
    destruct (qok_enqueued _ Hq _ _ Ht He) as (Hs & Hf & _). unfold same_identity. split_and!; auto. }
  pose proof (mapped_table f (to_cancel matched) ts d d1 Hc Hts Hin Hout) as Htab.
  simpl. eexists _, _. split; [done|]. split_and!.
  - apply queue_ok_iff. split; [by apply with_canceled_by_consistent|]. simpl. rewrite Htab.
    intros i t. rewrite lookup_fmap. intros (t0 & Ht0 & ->)%fmap_Some.
    apply queue_ok_iff in Hq as [_ Hok]. specialize (Hok _ _ Ht0). case_decide; [|done].
    by eapply task_ok_finished.
  - done.
  - intros c. simpl. unfold bucket. rewrite Hcb. destruct (decide (c = cancel_task_id)) as [->|Hne].
    + by rewrite lookup_insert_eq.
    + by rewrite lookup_insert_ne.
  - intros file. rewrite list_elem_of_omap. split.
    + intros (t & [Ht Hcan]%Hts & Hf). eauto.
    + intros (i & t & Ht & Hcan & Hf). exists t. split; [|done]. apply Hts. split; [|done].
      by rewrite (con_uid _ Hc _ _ Ht).
Qed.

(** C26: Canceling the tasks a query matched cancels exactly those that are
    enqueued: they get the canceled status, the date, the canceling task and
    details that count nothing done, they are filed under the canceling task,
    and their update files, and no others, are given back for deletion; every
    other task, and the consistency of the queue, is kept. *)
Theorem cancel_matched_tasks_spec (now : OffsetDateTime) (cancel_task_id : TaskId)
    (matched : gset TaskId) (previous_started_at : OffsetDateTime)
    (previous_processing : gset TaskId) (d : TaskDb) :
  queue_ok d →
  ∃ files d',
    cancel_matched_tasks now cancel_task_id matched previous_started_at previous_processing d
      = Ok (files, d') ∧
    queue_ok d' ∧
    all_tasks d' = (λ t, if decide (to_cancel matched t)
      then canceled_task cancel_task_id previous_started_at now previous_processing t else t)
      <$> all_tasks d ∧
    (∀ c, bucket (canceled_by_db d') c =
       if decide (c = cancel_task_id) then get_status d Enqueued ∩ matched
       else bucket (canceled_by_db d) c) ∧
    ∀ file, file ∈ files ↔
      ∃ i t, all_tasks d !! i = Some t ∧ to_cancel matched t ∧ content_uuid t = Some file.
Proof. exact (cancel_matched_tasks_Ok now cancel_task_id matched previous_started_at previous_processing d). Qed.
End cancel.

(** ** Deletion *)
Section delete.
Context {J : JsonValue}.

(** Every inverted database loses the deleted ids. *)
Lemma filed_restrict {K} `{Countable K} (f : Task → list K) tasks tasks' db db'
    (D : gset TaskId) :
  filed_under tasks f db →
  (∀ k j, j ∈ bucket db' k ↔ (j ∉ D) ∧ j ∈ bucket db k) →
  (∀ j, tasks' !! j = if decide (j ∈ D) then None else tasks !! j) →
  filed_under tasks' f db'.
Proof.
  intros Hf Hdb Ht k j. rewrite Hdb, (Hf k j), Ht. case_decide; naive_solver.
Qed.

Section loop.
Context (d : TaskDb).
Hypothesis (Hc : consistent d).

(** The state of the first loop after the ids [done]. *)
Definition loses (done : gset TaskId) (db db' : gmap OffsetDateTime (gset TaskId)) : Prop :=
  ∀ k j, j ∈ bucket db' k ↔ (j ∉ done) ∧ j ∈ bucket db k.

Record forgotten (done : gset TaskId) (a : Affected) (d' : TaskDb) : Prop := {
  fg_tasks : all_tasks d' = all_tasks d;
  fg_status : status_db d' = status_db d;
  fg_kind : kind_db d' = kind_db d;
  fg_index : index_tasks_db d' = index_tasks_db d;
  fg_canceled : canceled_by_db d' = canceled_by_db d;
  fg_enqueued_at : loses done (enqueued_at_db d) (enqueued_at_db d');
  fg_started_at : loses done (started_at_db d) (started_at_db d');
  fg_finished_at : loses done (finished_at_db d) (finished_at_db d');
  fg_affected i t : i ∈ done → all_tasks d !! i = Some t →
    (∀ n, n ∈ Tasks.indexes t → n ∈ affected_indexes a) ∧ status t ∈ affected_statuses a ∧
    as_kind (kind t) ∈ affected_kinds a ∧
    (∀ c, canceled_by t = Some c → c ∈ affected_canceled_by a)
}.

Lemma loses_step (get : Task → option OffsetDateTime) done db db' i t :
  filed_under (all_tasks d) (λ t, time_keys (get t)) db → all_tasks d !! i = Some t →
  loses done db db' → loses ({[i]} ∪ done) db (remove_optional_datetime (get t) i db').
Proof.
  intros Hf Ht Hl k j. unfold remove_optional_datetime.
  assert (j ∈ bucket (match get t with Some time => remove_task_datetime time i db'
      | None => db' end) k ↔ j ∈ bucket db' k ∧ ¬ (j = i ∧ get t = Some k)) as ->.
  { destruct (get t) as [time|].
    - rewrite bucket_remove_time. destruct (decide (time = k)) as [->|Hne];
        rewrite ?elem_of_difference, ?elem_of_singleton; naive_solver.
    - naive_solver. }
  rewrite (Hl k j), elem_of_union, elem_of_singleton.
  assert (i ∈ bucket db k ↔ get t = Some k) as Hi.
  { rewrite (Hf k i). setoid_rewrite elem_of_time_keys. naive_solver. }
  destruct (decide (j = i)) as [->|]; [rewrite Hi; tauto|tauto].
Qed.

Lemma forgotten_step done a d' i t :
  forgotten done a d' → all_tasks d !! i = Some t →
  forgotten ({[i]} ∪ done) (forget_dates t (a, d')).1 (forget_dates t (a, d')).2.
Proof.
  intros [F1 F2 F3 F4 F5 F6 F7 F8 F9] Ht. pose proof (con_uid _ Hc _ _ Ht) as Hu.
  constructor; simpl; rewrite ?Hu; try done.
  - apply (loses_step (λ t, Some (enqueued_at t))); [apply (con_enqueued _ Hc)|done|done].
  - apply (loses_step started_at); [apply (con_started _ Hc)|done|done].
  - apply (loses_step finished_at); [apply (con_finished _ Hc)|done|done].
  - intros j tj Hj Htj. rewrite elem_of_union, elem_of_singleton in Hj.
    setoid_rewrite elem_of_union. setoid_rewrite elem_of_list_to_set.
    rewrite !elem_of_singleton. destruct Hj as [->|Hj].
    + simplify_eq. split_and!; auto. intros c ->. left. by apply elem_of_singleton.
    + destruct (F9 _ _ Hj Htj) as (G1 & G2 & G3 & G4). split_and!; auto.
Qed.

Lemma forget_all l done a d' :
  (∀ i, i ∈ l → is_Some (all_tasks d !! i)) → forgotten done a d' →
  ∃ a' d'', fold_outcome (λ task_id acc,
      task ← get_task_or_corrupted acc.2 task_id; Ok (forget_dates task acc)) l (a, d')
    = Ok (a', d'') ∧ forgotten (list_to_set l ∪ done) a' d''.
Proof.
  revert done a d'. induction l as [|i l IH]; intros done a d' Hl Hf; cbn [fold_outcome].
  - exists a, d'. split; [done|]. simpl. by rewrite (left_id_L ∅ (∪)).
  - destruct (Hl i) as [t Ht]; [by left|].
    assert (get_task_or_corrupted d' i = Ok t) as Hg.
    { unfold get_task_or_corrupted, get_task. by rewrite (fg_tasks _ _ _ Hf), Ht. }
    pose proof (forgotten_step done a d' i t Hf Ht) as Hf'.
    cbn [snd]. rewrite Hg. cbn [mbind outcome_bind].
    destruct (forget_dates t (a, d')) as [a1 d1]. simpl in Hf' |- *.
    destruct (IH ({[i]} ∪ done) a1 d1) as (a' & d'' & -> & Hf''); [by intros; apply Hl; right|done|].
    exists a', d''. split; [done|]. replace ({[i]} ∪ list_to_set l ∪ done) with
      (list_to_set l ∪ ({[i]} ∪ done) : gset TaskId) by set_solver. done.
Qed.
End loop.

(** The loops that subtract the deleted ids from some buckets. *)
Lemma subtract_indexes D names d :
  let d' := foldl (λ d index, update_index index (λ b, b ∖ D) d) d names in
  (∀ k j, j ∈ bucket (index_tasks_db d') k ↔
     j ∈ bucket (index_tasks_db d) k ∧ ¬ (k ∈ names ∧ j ∈ D)) ∧
  all_tasks d' = all_tasks d ∧ status_db d' = status_db d ∧ kind_db d' = kind_db d ∧
  canceled_by_db d' = canceled_by_db d ∧ enqueued_at_db d' = enqueued_at_db d ∧
  started_at_db d' = started_at_db d ∧ finished_at_db d' = finished_at_db d.
Proof.
  revert d. induction names as [|n names IH]; intros d; simpl.
  - split_and!; try done. intros k j. rewrite elem_of_nil. tauto.
  - destruct (IH (update_index n (λ b, b ∖ D) d)) as (Hb & Hrest). split; [|done].
    intros k j. rewrite Hb, bucket_update_index, elem_of_cons. unfold TaskQueue.index_tasks.
    destruct (decide (n = k)) as [->|Hne]; rewrite ?elem_of_difference; naive_solver.
Qed.

Lemma subtract_statuses D sts d :
  let d' := foldl (λ d st, update_status st (λ b, b ∖ D) d) d sts in
  (∀ k j, j ∈ bucket (status_db d') k ↔
     j ∈ bucket (status_db d) k ∧ ¬ (k ∈ sts ∧ j ∈ D)) ∧
  all_tasks d' = all_tasks d ∧ kind_db d' = kind_db d ∧ index_tasks_db d' = index_tasks_db d ∧
  canceled_by_db d' = canceled_by_db d ∧ enqueued_at_db d' = enqueued_at_db d ∧
  started_at_db d' = started_at_db d ∧ finished_at_db d' = finished_at_db d.
Proof.
  revert d. induction sts as [|n sts IH]; intros d; simpl.
  - split_and!; try done. intros k j. rewrite elem_of_nil. tauto.
  - destruct (IH (update_status n (λ b, b ∖ D) d)) as (Hb & Hrest). split; [|done].
    intros k j. rewrite Hb, bucket_update_status, elem_of_cons. unfold get_status.
    destruct (decide (n = k)) as [->|Hne]; rewrite ?elem_of_difference; naive_solver.
Qed.

Lemma subtract_kinds D kds d :
  let d' := foldl (λ d kd, update_kind kd (λ b, b ∖ D) d) d kds in
  (∀ k j, j ∈ bucket (kind_db d') k ↔
     j ∈ bucket (kind_db d) k ∧ ¬ (k ∈ kds ∧ j ∈ D)) ∧
  all_tasks d' = all_tasks d ∧ status_db d' = status_db d ∧ index_tasks_db d' = index_tasks_db d ∧
  canceled_by_db d' = canceled_by_db d ∧ enqueued_at_db d' = enqueued_at_db d ∧
  started_at_db d' = started_at_db d ∧ finished_at_db d' = finished_at_db d.
Proof.
  revert d. induction kds as [|n kds IH]; intros d; simpl.
  - split_and!; try done. intros k j. rewrite elem_of_nil. tauto.
  - destruct (IH (update_kind n (λ b, b ∖ D) d)) as (Hb & Hrest). split; [|done].
    intros k j. rewrite Hb, bucket_update_kind, elem_of_cons. unfold get_kind.
    destruct (decide (n = k)) as [->|Hne]; rewrite ?elem_of_difference; naive_solver.
Qed.

Lemma delete_rows l d :
  let d' := foldl (λ d task, with_all_tasks (delete task (all_tasks d)) d) d l in
  (∀ j, all_tasks d' !! j = if decide (j ∈ l) then None else all_tasks d !! j) ∧
  status_db d' = status_db d ∧ kind_db d' = kind_db d ∧ index_tasks_db d' = index_tasks_db d ∧
  canceled_by_db d' = canceled_by_db d ∧ enqueued_at_db d' = enqueued_at_db d ∧
  started_at_db d' = started_at_db d ∧ finished_at_db d' = finished_at_db d.
Proof.
  revert d. induction l as [|i l IH]; intros d; simpl.
  - split_and!; try done.
  - destruct (IH (with_all_tasks (delete i (all_tasks d)) d)) as (Hb & Hrest). split; [|done].
    intros j. rewrite Hb. simpl. destruct (decide (j = i)) as [->|Hne].
    + rewrite lookup_delete_eq. rewrite (decide_True (P := i ∈ i :: l)) by by left. by case_decide.
    + rewrite lookup_delete_ne by done.
      destruct (decide (j ∈ l)), (decide (j ∈ i :: l)); try done; exfalso; set_solver.
Qed.

Lemma forget_canceled_bys D l d :
  let d' := foldl (forget_canceled_by D) d l in
  (∀ k j, j ∈ bucket (canceled_by_db d') k ↔
     j ∈ bucket (canceled_by_db d) k ∧ ¬ (k ∈ l ∧ j ∈ D)) ∧
  all_tasks d' = all_tasks d ∧ status_db d' = status_db d ∧ kind_db d' = kind_db d ∧
  index_tasks_db d' = index_tasks_db d ∧ enqueued_at_db d' = enqueued_at_db d ∧
  started_at_db d' = started_at_db d ∧ finished_at_db d' = finished_at_db d.
Proof.
  revert d. induction l as [|c l IH]; intros d; simpl.
  - split_and!; try done. intros k j. rewrite elem_of_nil. tauto.
  - destruct (IH (forget_canceled_by D d c)) as (Hb & Hrest).
    assert (∀ k j, j ∈ bucket (canceled_by_db (forget_canceled_by D d c)) k ↔
      j ∈ bucket (canceled_by_db d) k ∧ ¬ (k = c ∧ j ∈ D)) as Hone.
    { intros k j. unfold forget_canceled_by. destruct (canceled_by_db d !! c) as [b|] eqn:Hl.
      - simpl. rewrite bucket_put_or_delete. destruct (decide (c = k)) as [->|Hne].
        + unfold bucket. rewrite Hl. simpl. rewrite elem_of_difference. naive_solver.
        + naive_solver.
      - split; [|by intros [? _]]. intros Hj. split; [done|]. intros [-> _].
        apply elem_of_bucket_Some in Hj as (b & Hb' & _). congruence. }
    split.
    + intros k j. rewrite Hb, Hone, elem_of_cons. naive_solver.
    + destruct Hrest as (-> & -> & -> & -> & -> & -> & ->).
      unfold forget_canceled_by. by destruct (canceled_by_db d !! c).
Qed.

(** A database that lost the deleted ids under the keys of the deleted tasks
    lost them everywhere. *)
Lemma lost_everywhere {K} `{Countable K} (f : Task → list K) (d : TaskDb) db db' (D : gset TaskId)
    (keys : list K) :
  filed_under (all_tasks d) f db →
  (∀ i t k, i ∈ D → all_tasks d !! i = Some t → k ∈ f t → k ∈ keys) →
  (∀ k j, j ∈ bucket db' k ↔ j ∈ bucket db k ∧ ¬ (k ∈ keys ∧ j ∈ D)) →
  ∀ k j, j ∈ bucket db' k ↔ (j ∉ D) ∧ j ∈ bucket db k.
Proof.
  intros Hf Hkeys Hdb k j. rewrite Hdb. split; [|naive_solver].
  intros [Hj Hno]. split; [|done]. intros HD. apply Hno. split; [|done].
  apply Hf in Hj as (t & Ht & Hk). by eapply Hkeys.
Qed.

Lemma forget_tasks_spec (d d1 : TaskDb) (a : Affected) (D : gset TaskId) :
  consistent d → forgotten d D a d1 →
  let d' := forget_tasks D a d1 in
  consistent d' ∧
  (∀ i, all_tasks d' !! i = if decide (i ∈ D) then None else all_tasks d !! i) ∧
  (∀ k j, j ∈ bucket (canceled_by_db d') k ↔
     j ∈ bucket (canceled_by_db d) k ∧ ¬ (k ∈ affected_canceled_by a ∧ j ∈ D)).
Proof.
  intros Hc [F1 F2 F3 F4 F5 F6 F7 F8 F9]. unfold forget_tasks.
  destruct (subtract_indexes D (elements (affected_indexes a)) d1)
    as (HI & I1 & I2 & I3 & I4 & I5 & I6 & I7).
  set (d2 := foldl _ d1 _) in *.
  destruct (subtract_statuses D (elements (affected_statuses a)) d2)
    as (HS & S1 & S2 & S3 & S4 & S5 & S6 & S7).
  set (d3 := foldl _ d2 _) in *.
  destruct (subtract_kinds D (elements (affected_kinds a)) d3)
    as (HK & K1 & K2 & K3 & K4 & K5 & K6 & K7).
  set (d4 := foldl _ d3 _) in *.
  destruct (delete_rows (sorted_ids D) d4) as (HR & R1 & R2 & R3 & R4 & R5 & R6 & R7).
  set (d5 := foldl _ d4 _) in *.
  destruct (forget_canceled_bys D (sorted_ids (affected_canceled_by a)) d5)
    as (HC & C1 & C2 & C3 & C4 & C5 & C6 & C7).
  set (d6 := foldl _ d5 _) in *. clearbody d2 d3 d4 d5 d6.
  assert (∀ i, all_tasks d6 !! i = if decide (i ∈ D) then None else all_tasks d !! i) as Htab.
  { intros i. rewrite C1, HR, K1, S1, I1, F1.
    destruct (decide (i ∈ sorted_ids D)) as [Hi|Hi], (decide (i ∈ D)) as [Hj|Hj]; try done;
      exfalso; rewrite elem_of_sorted_ids in Hi; done. }
  split; [|split; [done|intros k j; by rewrite HC, R4, K4, S4, I4, F5, elem_of_sorted_ids]].
  constructor; [|eapply filed_restrict; [apply Hc| |exact Htab]..];
    rewrite ?C2, ?C3, ?C4, ?C5, ?C6, ?C7, ?R1, ?R2, ?R3, ?R5, ?R6, ?R7, ?K2, ?K3, ?K5, ?K6, ?K7,
      ?S5, ?S6, ?S7, ?I5, ?I6, ?I7; try done.
  - intros i t. rewrite Htab. case_decide; [done|]. apply (con_uid _ Hc).
  - eapply lost_everywhere; [apply (con_status _ Hc)| |intros k j; by rewrite HS, I2, F2].
    intros i t k Hi Ht ->%list_elem_of_singleton. apply elem_of_elements. by apply (F9 i t).
  - eapply lost_everywhere; [apply (con_kind _ Hc)| |intros k j; by rewrite HK, S2, I3, F3].
    intros i t k Hi Ht ->%list_elem_of_singleton. apply elem_of_elements. by apply (F9 i t).
  - rewrite S3. eapply lost_everywhere; [apply (con_index _ Hc)| |intros k j; by rewrite HI, F4].
    intros i t k Hi Ht Hk. apply elem_of_elements. by apply (F9 i t).
Qed.

Lemma delete_matched_tasks_Ok (processing_ids matched : gset TaskId) (d : TaskDb) :
  queue_ok d →
  ∃ (deleted : gset TaskId) d',
    delete_matched_tasks processing_ids matched d = Ok (bitmap_len deleted, d') ∧
    queue_ok d' ∧
    (∀ i, i ∈ deleted ↔ ∃ t, all_tasks d !! i = Some t ∧ i ∈ matched ∧
       (i ∉ processing_ids) ∧ status t ≠ Enqueued) ∧
    (∀ i, all_tasks d' !! i = if decide (i ∈ deleted) then None else all_tasks d !! i) ∧
    (∀ c i, i ∈ bucket (canceled_by_db d') c → i ∈ bucket (canceled_by_db d) c) ∧
    (∀ c i, i ∉ deleted → i ∈ bucket (canceled_by_db d) c → i ∈ bucket (canceled_by_db d') c) ∧
    (∀ c i t, i ∈ deleted → all_tasks d !! i = Some t → canceled_by t = Some c →
       i ∉ bucket (canceled_by_db d') c).
Proof.
  intros Hq. pose proof (qok_consistent _ Hq) as Hc. unfold delete_matched_tasks.
  set (D := deletable processing_ids matched d).
  assert (∀ i, i ∈ D ↔ ∃ t, all_tasks d !! i = Some t ∧ i ∈ matched ∧
    (i ∉ processing_ids) ∧ status t ≠ Enqueued) as HD.
  { intros i. unfold D, deletable. rewrite !elem_of_difference, elem_of_intersection.
    rewrite all_task_ids_spec, elem_of_dom, get_status_spec by done. split.
    - intros [[[[t Ht] Hm] Hp] He]. exists t. naive_solver.
    - intros (t & Ht & ? & ? & He). split_and!; [by exists t|done|done|]. naive_solver. }
  destruct (forget_all d Hc (sorted_ids D) ∅ (mkAffected ∅ ∅ ∅ ∅) d) as (a & d1 & -> & Hf).
  { intros i Hi%elem_of_sorted_ids%HD. destruct Hi as (t & -> & _). by eexists. }
  { constructor; try done; try (intros k j; set_solver). }
  assert (list_to_set (sorted_ids D) ∪ ∅ = D) as HsD.
  { apply set_eq. intros i. rewrite elem_of_union, elem_of_list_to_set, elem_of_sorted_ids. set_solver. }
  rewrite HsD in Hf. cbn [mbind outcome_bind].
  destruct (forget_tasks_spec d d1 a D Hc Hf) as (Hc' & Htab & HC).
  exists D, (forget_tasks D a d1). split; [done|]. split; [|split; [done|]; split; [done|]; split_and!].
  - apply queue_ok_iff. split; [done|]. intros i t. rewrite Htab. case_decide; [done|].
    apply queue_ok_iff in Hq as [_ Hok]. apply Hok.
  - intros c i Hi. by apply HC in Hi as [Hi _].
  - intros c i Hi Hb. apply HC. tauto.
  - intros c i t Hi Ht Hcb Hb. apply HC in Hb as [_ Hno]. apply Hno. split; [|done].
    by apply (fg_affected _ _ _ _ Hf i t).
Qed.

(** C25: Deleting the tasks a query matched deletes exactly those that are
    neither enqueued nor being processed, counts them, removes them from every
    inverted database, and from the list of the task that canceled them; the
    other tasks and the consistency of the queue are kept. *)
Theorem delete_matched_tasks_spec (processing_ids matched : gset TaskId) (d : TaskDb) :
  queue_ok d →
  ∃ (deleted : gset TaskId) d',
    delete_matched_tasks processing_ids matched d = Ok (bitmap_len deleted, d') ∧
    queue_ok d' ∧
    (∀ i, i ∈ deleted ↔ ∃ t, all_tasks d !! i = Some t ∧ i ∈ matched ∧
       (i ∉ processing_ids) ∧ status t ≠ Enqueued) ∧
    (∀ i, all_tasks d' !! i = if decide (i ∈ deleted) then None else all_tasks d !! i) ∧
    (∀ c i, i ∈ bucket (canceled_by_db d') c → i ∈ bucket (canceled_by_db d) c) ∧
    (∀ c i, i ∉ deleted → i ∈ bucket (canceled_by_db d) c → i ∈ bucket (canceled_by_db d') c) ∧
    (∀ c i t, i ∈ deleted → all_tasks d !! i = Some t → canceled_by t = Some c →
       i ∉ bucket (canceled_by_db d') c).
Proof. exact (delete_matched_tasks_Ok processing_ids matched d). Qed.
End delete.

(** ** Swap *)
Section swap_theorems.
Context {J : JsonValue} {M : Type} `{!IndexNames M, !IndexNamesLaws M}.

(** What a swap does to an older task. *)
Definition touches (swap : string * string) (t : Task) : Prop :=
  swap.1 ∈ Tasks.indexes t ∨ swap.2 ∈ Tasks.indexes t.

Definition renamed (swap : string * string) (t : Task) : Task :=
  if decide (touches swap t) then swap_index_uid_in_task t swap else t.

Lemma indexes_renamed swap t n :
  n ∈ Tasks.indexes (renamed swap t) ↔ swap_uid swap n ∈ Tasks.indexes t.
Proof.
  unfold renamed. case_decide as Ht.
  - unfold Tasks.indexes. simpl. rewrite kind_indexes_swap. split.
    + intros (m & Hm & ->). by rewrite swap_uid_involutive.
    + intros Hm. eexists. split; [exact Hm|]. by rewrite swap_uid_involutive.
  - unfold touches in Ht. unfold swap_uid. repeat case_decide; subst; tauto.
Qed.

Lemma renamed_same swap t :
  uid (renamed swap t) = uid t ∧ status (renamed swap t) = status t ∧
  as_kind (kind (renamed swap t)) = as_kind (kind t) ∧
  enqueued_at (renamed swap t) = enqueued_at t ∧ started_at (renamed swap t) = started_at t ∧
  finished_at (renamed swap t) = finished_at t ∧ error (renamed swap t) = error t ∧
  canceled_by (renamed swap t) = canceled_by t ∧
  kind (renamed swap t) = swap_index_uid_in_kind swap (kind t).
Proof.
  unfold renamed. case_decide as Ht; simpl; split_and!; try done.
  - by destruct (kind t).
  - symmetry. apply swap_kind_other. intros n Hn. unfold touches in Ht.
    split; intros ->; apply Ht; auto.
Qed.

Lemma swap_names_NoDup swap swaps :
  NoDup (swap_names swaps) → NoDup (swap_names (swap_uids swap <$> swaps)).
Proof.
  rewrite swap_names_fmap. intros Hnd. apply NoDup_fmap_2; [|done].
  intros x y Hxy. rewrite <- (swap_uid_involutive swap x), Hxy. apply swap_uid_involutive.
Qed.

Lemma task_ok_renamed i swap t : task_ok i t → task_ok i (renamed swap t).
Proof.
  intros (H1 & H2 & H3 & H4).
  destruct (renamed_same swap t) as (_ & Hst & _ & _ & Hs & Hf & He & _ & Hk).
  unfold task_ok. rewrite Hst, Hs, Hf, He, Hk. split_and!; [done| | |].
  - intros Henq. destruct (H2 Henq) as (? & ? & ? & Hd). split_and!; [done..|].
    assert (details (renamed swap t) = details t ∨ ∃ sw, details t = Some (DIndexSwap sw)) as Hdet.
    { unfold renamed. case_decide; [|by left]. simpl. destruct (details t) as [[]|]; eauto. }
    destruct Hdet as [->|[sw Hsw]]; [by destruct (kind t)|].
    rewrite Hsw in Hd. destruct (kind t); simpl in *; try done; destruct_and?;
      repeat match goal with H : ∃ _, _ |- _ => destruct H as [? H] end; discriminate.
  - intros j Hj. apply H3. by destruct (kind t).
  - intros swaps Hsw. destruct (kind t) eqn:Ht; simplify_eq/=.
    apply swap_names_NoDup. by apply H4.
Qed.

(** The loop on the older tasks of both indexes. *)
Lemma rename_loop swap l d :
  NoDup l → (∀ i, i ∈ l → is_Some (all_tasks d !! i)) →
  ∃ d', fold_outcome (rename_task swap) l d = Ok d' ∧
    (∀ i, all_tasks d' !! i =
       if decide (i ∈ l) then (λ t, swap_index_uid_in_task t swap) <$> all_tasks d !! i
       else all_tasks d !! i) ∧
    status_db d' = status_db d ∧ kind_db d' = kind_db d ∧ index_tasks_db d' = index_tasks_db d ∧
    canceled_by_db d' = canceled_by_db d ∧ enqueued_at_db d' = enqueued_at_db d ∧
    started_at_db d' = started_at_db d ∧ finished_at_db d' = finished_at_db d.
Proof.
  revert d. induction l as [|i l IH]; intros d Hnd Hl; cbn [fold_outcome].
  - exists d. split_and!; done.
  - apply NoDup_cons in Hnd as [Hi Hnd]. destruct (Hl i) as [t Ht]; [by left|].
    set (d1 := with_all_tasks (<[i := swap_index_uid_in_task t swap]> (all_tasks d)) d).
    assert (rename_task swap i d = Ok d1) as ->.
    { unfold rename_task, get_task_or_corrupted, get_task. by rewrite Ht. }
    cbn [mbind outcome_bind].
    destruct (IH d1 Hnd) as (d' & -> & Htab & Hrest).
    { intros j Hj. simpl. rewrite lookup_insert_ne by (intros ->; done). apply Hl. by right. }
    exists d'. split; [done|]. split; [|done]. intros j. rewrite Htab. simpl.
    destruct (decide (j = i)) as [->|Hne].
    + rewrite lookup_insert_eq, Ht. rewrite decide_False by done. by rewrite decide_True by by left.
    + rewrite lookup_insert_ne by done.
      destruct (decide (j ∈ l)), (decide (j ∈ i :: l)); try done; exfalso; set_solver.
Qed.

Lemma filed_fmap {K} `{Countable K} (f : Task → list K) (g : Task → Task) tasks db :
  (∀ t k, k ∈ f (g t) ↔ k ∈ f t) → filed_under tasks f db → filed_under (g <$> tasks) f db.
Proof.
  intros Hg Hf k i. rewrite (Hf k i). setoid_rewrite lookup_fmap. split.
  - intros (t & -> & Hk). exists (g t). split; [done|]. by apply Hg.
  - intros (t' & (t & Ht & ->)%fmap_Some & Hk). exists t. split; [done|]. by apply Hg.
Qed.

Definition older_renamed (task_id : TaskId) (swap : string * string) (t : Task) : Task :=
  if (uid t <? task_id)%N then renamed swap t else t.

Lemma lookup_older_renamed task_id swap d i t' : consistent d →
  (older_renamed task_id swap <$> all_tasks d) !! i = Some t' →
  ∃ t, all_tasks d !! i = Some t ∧ uid t = i ∧
    t' = if (i <? task_id)%N then renamed swap t else t.
Proof.
  intros Hc. rewrite lookup_fmap. intros (t & Ht & ->)%fmap_Some.
  pose proof (con_uid _ Hc _ _ Ht) as <-. by exists t.
Qed.

Lemma swapped_consistent task_id swap d d' :
  consistent d → all_tasks d' = older_renamed task_id swap <$> all_tasks d →
  status_db d' = status_db d → kind_db d' = kind_db d → enqueued_at_db d' = enqueued_at_db d →
  started_at_db d' = started_at_db d → finished_at_db d' = finished_at_db d →
  (∀ k j, j ∈ bucket (index_tasks_db d') k ↔
     j ∈ bucket (index_tasks_db d) (if (j <? task_id)%N then swap_uid swap k else k)) →
  consistent d'.
Proof.
  intros Hc Htab H1 H2 H3 H4 H5 Hix.
  assert (∀ t, let t' := older_renamed task_id swap t in
    status t' = status t ∧ as_kind (kind t') = as_kind (kind t) ∧
    enqueued_at t' = enqueued_at t ∧ started_at t' = started_at t ∧
    finished_at t' = finished_at t) as Hsame.
  { intros t. unfold older_renamed. destruct (_ <? _)%N; [|done].
    by destruct (renamed_same swap t) as (_ & -> & -> & -> & -> & -> & _). }
  constructor; rewrite ?Htab, ?H1, ?H2, ?H3, ?H4, ?H5.
  - intros i t' Hi. destruct (lookup_older_renamed _ _ _ _ _ Hc Hi) as (t & Ht & Hu & ->).
    destruct (_ <? _)%N; [|done]. by rewrite (proj1 (renamed_same _ _)).
  - apply filed_fmap; [|apply Hc]. intros t k. by rewrite (proj1 (Hsame t)).
  - apply filed_fmap; [|apply Hc]. intros t k. by destruct (Hsame t) as (_ & -> & _).
  - intros k j. rewrite Hix, (con_index _ Hc _ j). split.
    + intros (t & Ht & Hk). exists (older_renamed task_id swap t).
      rewrite lookup_fmap, Ht. split; [done|]. pose proof (con_uid _ Hc _ _ Ht) as Hu.
      unfold older_renamed. rewrite Hu. destruct (_ <? _)%N; [by apply indexes_renamed|done].
    + intros (t' & Ht' & Hk). destruct (lookup_older_renamed _ _ _ _ _ Hc Ht') as (t & Ht & Hu & ->).
      exists t. split; [done|]. destruct (_ <? _)%N; [by apply indexes_renamed|done].
  - apply filed_fmap; [|apply Hc]. intros t k. by destruct (Hsame t) as (_ & _ & -> & _).
  - apply filed_fmap; [|apply Hc]. intros t k. by destruct (Hsame t) as (_ & _ & _ & -> & _).
  - apply filed_fmap; [|apply Hc]. intros t k. by destruct (Hsame t) as (_ & _ & _ & _ & ->).
Qed.

(** The ids that the two bitmaps exchange. *)
Lemma exchanged_buckets task_id lhs rhs d d1 :
  lhs ≠ rhs → index_tasks_db d1 = index_tasks_db d →
  let L := remove_from task_id (TaskQueue.index_tasks d lhs) in
  let R := remove_from task_id (TaskQueue.index_tasks d rhs) in
  let d' := update_index rhs (λ b, (b ∖ R) ∪ L) (update_index lhs (λ b, (b ∖ L) ∪ R) d1) in
  ∀ k j, j ∈ bucket (index_tasks_db d') k ↔
    j ∈ bucket (index_tasks_db d) (if (j <? task_id)%N then swap_uid (lhs, rhs) k else k).
Proof.
  intros Hne Hd1 L R d' k j.
  assert (∀ n, j ∈ remove_from task_id (TaskQueue.index_tasks d n) ↔
    j ∈ bucket (index_tasks_db d) n ∧ (j < task_id)%N) as Hrem.
  { intros n. unfold remove_from. rewrite elem_of_filter. unfold TaskQueue.index_tasks. tauto. }
  unfold d'. rewrite bucket_update_index. unfold TaskQueue.index_tasks. rewrite !bucket_update_index.
  unfold TaskQueue.index_tasks. rewrite Hd1. unfold swap_uid. simpl.
  rewrite (decide_False (P := lhs = rhs)) by done.
  destruct (N.ltb_spec j task_id).
  - destruct (decide (rhs = k)) as [<-|Hr]; [|destruct (decide (lhs = k)) as [<-|Hl]];
      rewrite ?decide_True, ?decide_False by congruence;
      rewrite ?decide_True by congruence;
      rewrite ?elem_of_union, ?elem_of_difference; unfold L, R; rewrite ?Hrem; tauto.
  - destruct (decide (rhs = k)) as [<-|Hr]; [|destruct (decide (lhs = k)) as [<-|Hl]];
      rewrite ?elem_of_union, ?elem_of_difference; unfold L, R; rewrite ?Hrem; try tauto; 
      assert (¬ (j < task_id)%N) by lia; tauto.
Qed.

Lemma apply_index_swap_spec task_id lhs rhs m d :
  queue_ok d → lhs ≠ rhs → is_Some (resolve m lhs) → is_Some (resolve m rhs) →
  ∃ m' d', apply_index_swap task_id lhs rhs (m, d) = Ok (m', d') ∧ queue_ok d' ∧
    all_tasks d' = older_renamed task_id (lhs, rhs) <$> all_tasks d ∧
    canceled_by_db d' = canceled_by_db d ∧
    (∀ n, resolve m' n = resolve m (swap_uid (lhs, rhs) n)).
Proof.
  intros Hq Hne Hl Hr. pose proof (qok_consistent _ Hq) as Hc.
  unfold apply_index_swap, index_exists. rewrite !bool_decide_eq_true_2 by done. simpl.
  set (L := remove_from task_id (TaskQueue.index_tasks d lhs)).
  set (R := remove_from task_id (TaskQueue.index_tasks d rhs)).
  assert (∀ i : TaskId, i ∈ L ∪ R ↔ ∃ t, all_tasks d !! i = Some t ∧ (i < task_id)%N ∧ touches (lhs, rhs) t)
    as HLR.
  { intros i. unfold L, R, remove_from, touches. rewrite elem_of_union, !elem_of_filter.
    rewrite !index_tasks_spec by done. naive_solver. }
  destruct (rename_loop (lhs, rhs) (sorted_ids (L ∪ R)) d)
    as (d1 & -> & Htab & D1 & D2 & D3 & D4 & D5 & D6 & D7); [apply NoDup_sorted_ids| |].
  { intros i Hi%elem_of_sorted_ids%HLR. destruct Hi as (t & Ht & _). by exists t. }
  cbn [mbind outcome_bind]. destruct (swap_resolves m lhs rhs Hl Hr) as (m' & -> & Hm').
  cbn [mbind outcome_bind]. eexists m', _. split; [done|].
  assert (all_tasks d1 = older_renamed task_id (lhs, rhs) <$> all_tasks d) as Ht1.
  { apply map_eq. intros i. rewrite Htab, lookup_fmap.
    destruct (all_tasks d !! i) as [t|] eqn:Ht; [|by case_decide].
    pose proof (con_uid _ Hc _ _ Ht) as <-. simpl. unfold older_renamed, renamed.
    assert (uid t ∈ sorted_ids (L ∪ R) ↔ (uid t < task_id)%N ∧ touches (lhs, rhs) t) as Hin.
    { rewrite elem_of_sorted_ids, HLR. split; [|by exists t].
      intros (t0 & Ht0 & ? & ?). rewrite Ht in Ht0. by injection Ht0 as ->. }
    destruct (N.ltb_spec (uid t) task_id), (decide (uid t ∈ sorted_ids (L ∪ R))),
      (decide (touches (lhs, rhs) t)); try done; exfalso; first [tauto|apply Hin in e; lia]. }
  split; [|split; [exact Ht1|split; [exact D4|exact Hm']]].
  apply queue_ok_iff. split.
  - eapply swapped_consistent; [exact Hc|exact Ht1|exact D1|exact D2|exact D5|exact D6|exact D7|].
    by apply exchanged_buckets.
  - simpl. rewrite Ht1. intros i t' Hi.
    destruct (lookup_older_renamed _ _ _ _ _ Hc Hi) as (t & Ht & _ & ->).
    apply queue_ok_iff in Hq as [_ Hok]. specialize (Hok i t Ht).
    destruct (_ <? _)%N; [by apply task_ok_renamed|done].
Qed.

Definition rename_all (task_id : TaskId) (swaps : list IndexSwap) (t : Task) : Task :=
  foldl (λ t swap, older_renamed task_id (swap_indexes swap) t) t swaps.

Definition swap_all (swaps : list IndexSwap) (n : string) : string :=
  foldr (λ swap n, swap_uid (swap_indexes swap) n) n swaps.

Lemma swap_uid_resolves (swap : string * string) (m : M) n :
  is_Some (resolve m swap.1) → is_Some (resolve m swap.2) → is_Some (resolve m n) →
  is_Some (resolve m (swap_uid swap n)).
Proof. intros ???. unfold swap_uid. by repeat case_decide; subst. Qed.

Lemma swaps_loop task_id swaps m d :
  queue_ok d → NoDup (swap_names swaps) → (∀ n, n ∈ swap_names swaps → is_Some (resolve m n)) →
  ∃ m' d',
    fold_outcome (λ swap, apply_index_swap task_id (swap_indexes swap).1 (swap_indexes swap).2)
      swaps (m, d) = Ok (m', d') ∧
    queue_ok d' ∧ all_tasks d' = rename_all task_id swaps <$> all_tasks d ∧
    canceled_by_db d' = canceled_by_db d ∧
    ∀ n, resolve m' n = resolve m (swap_all swaps n).
Proof.
  revert m d. induction swaps as [|[[l r]] swaps IH]; intros m d Hq Hnd Hex; cbn [fold_outcome].
  - exists m, d. split_and!; try done. by rewrite map_fmap_id.
  - unfold swap_names in Hnd, Hex. rewrite bind_cons in Hnd, Hex. fold (swap_names swaps) in Hnd, Hex.
    simpl in Hnd, Hex. apply NoDup_cons in Hnd as [Hl Hnd]. apply NoDup_cons in Hnd as [Hr Hnd].
    destruct (apply_index_swap_spec task_id l r m d Hq) as (m1 & d1 & H1 & Hq1 & Ht1 & Hc1 & Hm1).
    { set_solver. }
    { apply Hex. by left. }
    { apply Hex. right. by left. }
    cbn [swap_indexes fst snd]. rewrite H1. cbn [mbind outcome_bind].
    destruct (IH m1 d1 Hq1 Hnd) as (m' & d' & -> & Hq' & Ht' & Hc' & Hm').
    { intros n Hn. rewrite Hm1. apply swap_uid_resolves; apply Hex; set_solver. }
    exists m', d'. split_and!; [done|done| |by rewrite Hc'|].
    + rewrite Ht', Ht1, <- map_fmap_compose. done.
    + intros n. by rewrite Hm', Hm1.
Qed.

Lemma elem_of_not_found (m : M) swaps n :
  n ∈ not_found_indexes m swaps ↔ n ∈ swap_names swaps ∧ resolve m n = None.
Proof.
  unfold not_found_indexes. rewrite sorted_names_perm, elem_of_elements, elem_of_list_to_set.
  rewrite !list_elem_of_In, filter_In, negb_true_iff. unfold index_exists.
  rewrite bool_decide_eq_false, eq_None_not_Some. done.
Qed.

Lemma process_swaps_Ok (task_id : TaskId) (swaps : list IndexSwap) (m : M) (d : TaskDb) :
  queue_ok d → NoDup (swap_names swaps) →
  ((∀ n, n ∈ swap_names swaps → is_Some (resolve m n)) →
   ∃ m' d', process_swaps task_id swaps (m, d) = Ok (m', d') ∧ queue_ok d' ∧
     all_tasks d' = rename_all task_id swaps <$> all_tasks d ∧
     canceled_by_db d' = canceled_by_db d ∧
     ∀ n, resolve m' n = resolve m (swap_all swaps n)) ∧
  ((∃ n, n ∈ swap_names swaps ∧ resolve m n = None) →
   ∃ missing, Sorted String.le missing ∧ NoDup missing ∧
     (∀ n, n ∈ missing ↔ n ∈ swap_names swaps ∧ resolve m n = None) ∧
     ((∃ n, missing = [n] ∧ process_swaps task_id swaps (m, d) = Err (SwapIndexNotFound n)) ∨
      (2 ≤ length missing ∧
       process_swaps task_id swaps (m, d) = Err (SwapIndexesNotFound missing)))).
Proof.
  intros Hq Hnd. unfold process_swaps. simpl. pose proof (elem_of_not_found m swaps) as Hnf. split.
  - intros Hex. destruct (not_found_indexes m swaps) as [|n l].
    + by apply swaps_loop.
    + destruct (proj1 (Hnf n)) as [Hn Hno]; [by left|]. apply Hex in Hn as [? ?]. congruence.
  - intros (n & Hn). exists (not_found_indexes m swaps). split_and!.
    + apply Sorted_merge_sort, _.
    + unfold not_found_indexes. rewrite sorted_names_perm. apply NoDup_elements.
    + done.
    + apply Hnf in Hn. destruct (not_found_indexes m swaps) as [|n1 [|n2 l]].
      * by apply not_elem_of_nil in Hn.
      * left. by exists n1.
      * right. split; [simpl; lia|done].
Qed.

(** C27: Swapping pairs of distinct indexes that all exist exchanges their names
    in the index mapper and in every task older than the swap, in its kind and
    in the inverted database, and changes no other task; the queue stays
    consistent.  When some index does not exist, nothing is done and the error
    lists exactly the missing ones, in order. *)
Theorem process_swaps_spec (task_id : TaskId) (swaps : list IndexSwap) (m : M) (d : TaskDb) :
  queue_ok d → NoDup (swap_names swaps) →
  ((∀ n, n ∈ swap_names swaps → is_Some (resolve m n)) →
   ∃ m' d', process_swaps task_id swaps (m, d) = Ok (m', d') ∧ queue_ok d' ∧
     all_tasks d' = rename_all task_id swaps <$> all_tasks d ∧
     canceled_by_db d' = canceled_by_db d ∧
     ∀ n, resolve m' n = resolve m (swap_all swaps n)) ∧
  ((∃ n, n ∈ swap_names swaps ∧ resolve m n = None) →
   ∃ missing, Sorted String.le missing ∧ NoDup missing ∧
     (∀ n, n ∈ missing ↔ n ∈ swap_names swaps ∧ resolve m n = None) ∧
     ((∃ n, missing = [n] ∧ process_swaps task_id swaps (m, d) = Err (SwapIndexNotFound n)) ∨
      (2 ≤ length missing ∧
       process_swaps task_id swaps (m, d) = Err (SwapIndexesNotFound missing)))).
Proof. exact (process_swaps_Ok task_id swaps m d). Qed.
End swap_theorems.

Module Demo.
Import UnitJson TaskQueue.Demo Batch.Demo.

(** An index mapper that is a finite map. *)
#[export] Instance map_names {A} : IndexNames (gmap string A) := {|
  IndexId := A;
  resolve := λ m n, m !! n;
  swap_names_of := λ lhs rhs m,
    match m !! lhs, m !! rhs with
    | Some l, Some r => Ok (<[rhs := l]> (<[lhs := r]> m))
    | _, _ => Err CorruptedTaskQueue
    end
|}.

#[export] Instance map_names_laws {A} : IndexNamesLaws (gmap string A).
Proof.
  constructor. intros m lhs rhs [l Hl] [r Hr]. simpl in Hl, Hr |- *. rewrite Hl, Hr.
  eexists. split; [done|]. intros n. unfold swap_uid. simpl. repeat case_decide; subst.
  - destruct (decide (lhs = rhs)) as [->|Hne].
    + rewrite lookup_insert_eq. congruence.
    + rewrite lookup_insert_ne, lookup_insert_eq by done. done.
  - by rewrite lookup_insert_eq.
  - by rewrite !lookup_insert_ne by done.
Qed.

Definition two_indexes : gmap string N := {["a" := 1%N; "b" := 2%N]}.

Lemma cancel_matched_tasks_spec_witness :
  ∃ files d', cancel_matched_tasks 30%Z 5%N {[0%N]} 20%Z ∅ one_task = Ok (files, d') ∧ queue_ok d'.
Proof.
  destruct (cancel_matched_tasks_spec 30%Z 5%N {[0%N]} 20%Z ∅ one_task one_task_ok)
    as (files & d' & H1 & H2 & _).
  exists files, d'. split; [exact H1|exact H2].
Defined.

Lemma delete_matched_tasks_spec_witness :
  ∃ (deleted : gset TaskId) d',
    delete_matched_tasks ∅ {[0%N]} one_task = Ok (bitmap_len deleted, d') ∧ queue_ok d'.
Proof.
  destruct (delete_matched_tasks_spec ∅ {[0%N]} one_task one_task_ok)
    as (D & d' & H1 & H2 & _).
  exists D, d'. split; [exact H1|exact H2].
Defined.

Lemma process_swaps_spec_witness :
  ∃ m' d', process_swaps 7%N [mkIndexSwap ("a", "b")] (two_indexes, one_task) = Ok (m', d') ∧
    queue_ok d' ∧ resolve m' "a" = resolve two_indexes "b".
Proof.
  assert (Hnd : NoDup (swap_names [mkIndexSwap ("a", "b")])).
  { apply (bool_decide_unpack _). vm_compute. exact I. }
  destruct (proj1 (process_swaps_spec 7%N [mkIndexSwap ("a", "b")] two_indexes one_task
    one_task_ok Hnd)) as (m' & d' & H1 & H2 & _ & _ & H3).
  - intros n Hn. apply elem_of_cons in Hn as [->|Hn]; [vm_compute; by eexists|].
    apply list_elem_of_singleton in Hn as ->. vm_compute. by eexists.
  - exists m', d'. split; [exact H1|]. split; [exact H2|]. rewrite H3. reflexivity.
Defined.
End Demo.
