(* ===== verification/Process.v ===== *)
(** * Processing a batch (index-scheduler/src/batch.rs)

    [process_batch], the operations on one index and the deletion of documents
    by filter.  The indexing engine (milli), the index mapper, the snapshot and
    the dump writers are interfaces: the model says when they are called, on
    what, and what becomes of their answers. *)
From S2P Require Import Prelude Settings Keys Errors Tasks TaskQueue Scheduler Batch QueueOps.

(** ** Interfaces *)

(** The indexing engine, on the content of one index.  A builder of document
    operations keeps the content it works on; [must_stop] is what the closure
    given to the engine answers. *)
Class IndexEngine `{JsonValue} := {
  Content : Type;
  UpdateFile : Type;
  DocumentsBuilder : Type;
  Filter : Type;
  Candidates : Type;
  engine_primary_key : Content → outcome Error (option string);
  number_of_documents : Content → outcome Error N;
  clear_documents : Content → outcome Error (N * Content);
  execute_settings : bool → Builder → Content → outcome Error Content;
  primary_key_cannot_be_changed : string → Foreign;
  index_documents_new : bool → IndexDocumentsMethod → Content → outcome Error DocumentsBuilder;
  get_update : Uuid → outcome Error UpdateFile;
  add_documents : UpdateFile → DocumentsBuilder → outcome Error (DocumentsBuilder * (N + Foreign));
  remove_documents : list string → DocumentsBuilder → outcome Error (DocumentsBuilder * (N + Foreign));
  index_documents_execute : DocumentsBuilder → outcome Error Content;
  builder_content : DocumentsBuilder → Content;
  delete_external_ids : list string → Content → outcome Error (N * Content);
  filter_from_json : Value → outcome Error (option Filter);
  filter_evaluate : Filter → Content → outcome Foreign Candidates;
  is_invalid_filter : Foreign → bool;
  delete_documents : Candidates → Content → outcome Error (N * Content);
  is_aborted_indexation : Foreign → bool;
  is_max_database_size_reached : Foreign → bool
}.

(** The index mapper: names, opened indexes and their content on disk. *)
Class IndexMapper `{IndexEngine} (M : Type) := {
  mapper_names :: IndexNames M;
  Handle : Type;
  mapper_index : string → ST M Error Handle;
  mapper_create_index : string → ST M Error Handle;
  mapper_delete_index : string → ST M Error unit;
  mapper_resize_index : string → ST M Error unit;
  mapper_content : Handle → M → Content;
  mapper_write : Handle → Content → M → M;
  mapper_store_stats : string → Handle → M → M
}.

Section process.
Context {J : JsonValue} {CC : CaseConversion} {EN : IndexEngine}.

(** ** Operations on one index *)
Definition with_status_details (st : Status) (d : option Details) (t : Task) : Task :=
  mkTask (uid t) (enqueued_at t) (started_at t) (finished_at t) (error t) (canceled_by t)
    d st (kind t).

Definition with_failure (e : Error) (d : option Details) (t : Task) : Task :=
  mkTask (uid t) (enqueued_at t) (started_at t) (finished_at t) (Some (response_error_of e))
    (canceled_by t) d Failed (kind t).

(** [clear] counts the documents for the first clear only. *)
Fixpoint clear_tasks (count : N) (first_clear_found : bool) (tasks : list Task) : list Task :=
  match tasks with
  | [] => []
  | task :: tasks =>
      match kind task with
      | DocumentClear _ =>
          let n := if first_clear_found then 0%N else count in
          with_status_details Succeeded (Some (DClearAll (Some n))) task
            :: clear_tasks count true tasks
      | otherwise =>
          with_status_details Succeeded (default_details otherwise) task
            :: clear_tasks count first_clear_found tasks
      end
  end.

Definition apply_document_clear (tasks : list Task) (c : Content)
    : outcome Error (list Task * Content) :=
  '(count, c) ← clear_documents c;
  Ok (clear_tasks count false tasks, c).

(** The primary key of an import: whether it has been set, and the content. *)
Definition apply_primary_key (must_stop : bool) (primary_key : option string) (c : Content)
    : outcome Error (bool * Content) :=
  match primary_key with
  | Some primary_key =>
      pk ← engine_primary_key c;
      match pk with
      | Some pk =>
          if decide (primary_key ≠ pk) then Err (Milli (primary_key_cannot_be_changed pk))
          else Ok (false, c)
      | None =>
          c ← execute_settings must_stop (set_primary_key primary_key new_builder) c;
          Ok (true, c)
      end
  | None => Ok (false, c)
  end.

(** One turn of the loop on the operations. *)
Definition apply_document_operation (operation : DocumentOperation) (task : Task)
    (builder : DocumentsBuilder) : outcome Error (Task * DocumentsBuilder) :=
  match operation with
  | AddDocuments content_uuid =>
      content_file ← get_update content_uuid;
      '(builder, user_result) ← add_documents content_file builder;
      match details task with
      | Some (DDocumentAdditionOrUpdate received_documents _) =>
          Ok (match user_result with
              | inl count => with_status_details Succeeded
                  (Some (DDocumentAdditionOrUpdate received_documents (Some count))) task
              | inr e => with_failure (Milli e)
                  (Some (DDocumentAdditionOrUpdate received_documents (Some 0%N))) task
              end, builder)
      | _ => unreachable
      end
  | DeleteDocuments document_ids =>
      '(builder, user_result) ← remove_documents document_ids builder;
      match details task with
      | Some (DDocumentDeletion provided_ids _) =>
          Ok (match user_result with
              | inl count => with_status_details Succeeded
                  (Some (DDocumentDeletion provided_ids (Some count))) task
              | inr e => with_failure (Milli e)
                  (Some (DDocumentDeletion provided_ids (Some 0%N))) task
              end, builder)
      | _ => unreachable
      end
  end.

(** [operations.into_iter().zip(tasks.iter_mut())]. *)
Fixpoint apply_document_operations (operations : list DocumentOperation) (tasks : list Task)
    (builder : DocumentsBuilder) : outcome Error (list Task * DocumentsBuilder) :=
  match operations, tasks with
  | operation :: operations, task :: tasks =>
      '(task, builder) ← apply_document_operation operation task builder;
      '(tasks, builder) ← apply_document_operations operations tasks builder;
      Ok (task :: tasks, builder)
  | _, _ => Ok (tasks, builder)
  end.

Definition has_error (t : Task) : bool := bool_decide (error t ≠ None).

Definition apply_document_import (must_stop : bool) (primary_key : option string)
    (method : IndexDocumentsMethod) (operations : list DocumentOperation) (tasks : list Task)
    (c : Content) : outcome Error (list Task * Content) :=
  '(primary_key_has_been_set, c) ← apply_primary_key must_stop primary_key c;
  builder ← index_documents_new must_stop method c;
  '(tasks, builder) ← apply_document_operations operations tasks builder;
  if negb (forallb has_error tasks) then
    c ← index_documents_execute builder;
    Ok (tasks, c)
  else if (primary_key_has_been_set : bool) then
    c ← execute_settings must_stop (reset_primary_key new_builder) (builder_content builder);
    Ok (tasks, c)
  else Ok (tasks, builder_content builder).

(** [tasks.iter_mut().zip(documents)]. *)
Fixpoint deletion_tasks (deleted_documents : N) (documents : list (list string))
    (tasks : list Task) : list Task :=
  match documents, tasks with
  | docs :: documents, task :: tasks =>
      let n := N.of_nat (length docs) in
      with_status_details Succeeded
        (Some (DDocumentDeletion n (Some (N.min deleted_documents n)))) task
        :: deletion_tasks deleted_documents documents tasks
  | _, _ => tasks
  end.

Definition apply_document_deletion (documents : list (list string)) (tasks : list Task)
    (c : Content) : outcome Error (list Task * Content) :=
  '(deleted_documents, c) ← delete_external_ids (mjoin documents) c;
  Ok (deletion_tasks deleted_documents documents tasks, c).

(** The builder and the tasks after all the settings. *)
Fixpoint settings_tasks (settings : list (bool * Settings Unchecked)) (tasks : list Task)
    (builder : Builder) : list Task * Builder :=
  match settings, tasks with
  | (_, s) :: settings, task :: tasks =>
      let builder := apply_settings_to_builder (check s) builder in
      let '(tasks, builder) := settings_tasks settings tasks builder in
      (with_status_details Succeeded (Some (DSettingsUpdate s)) task :: tasks, builder)
  | _, _ => (tasks, builder)
  end.

Definition apply_settings (must_stop : bool) (settings : list (bool * Settings Unchecked))
    (tasks : list Task) (c : Content) : outcome Error (list Task * Content) :=
  let '(tasks, builder) := settings_tasks settings tasks new_builder in
  c ← execute_settings must_stop builder c;
  Ok (tasks, c).

Definition apply_index_operation (must_stop : bool) (operation : IndexOperation) (c : Content)
    : outcome Error (list Task * Content) :=
  match operation with
  | ODocumentClear _ tasks => apply_document_clear tasks c
  | ODocumentOperation _ primary_key method _ operations tasks =>
      apply_document_import must_stop primary_key method operations tasks c
  | ODocumentDeletion _ documents tasks => apply_document_deletion documents tasks c
  | OSettings _ settings tasks => apply_settings must_stop settings tasks c
  | OSettingsAndDocumentOperation _ primary_key method _ operations document_import_tasks
      settings settings_tasks =>
      '(settings_tasks, c) ← apply_settings must_stop settings settings_tasks c;
      '(import_tasks, c) ←
        apply_document_import must_stop primary_key method operations document_import_tasks c;
      Ok (settings_tasks ++ import_tasks, c)
  | ODocumentClearAndSetting _ cleared_tasks settings settings_tasks =>
      '(import_tasks, c) ← apply_document_clear cleared_tasks c;
      '(settings_tasks, c) ← apply_settings must_stop settings settings_tasks c;
      Ok (settings_tasks ++ import_tasks, c)
  end.

Definition delete_document_by_filter (filter : Value) (c : Content) : outcome Error (N * Content) :=
  filter ← filter_from_json filter;
  match filter with
  | Some filter =>
      candidates ← map_err (λ e,
        if is_invalid_filter e
        then with_custom_error_code (Milli e) C_InvalidDocumentFilter else Milli e)
        (filter_evaluate filter c);
      delete_documents candidates c
  | None => Ok (0%N, c)
  end.

(** ** The scheduler and its indexes *)
Section world.
Context {M : Type} {IM : IndexMapper M}.

Record World := mkWorld {
  scheduler : IndexScheduler;
  mapper : M
}.

(** What the environment decides during a batch: the date, the failure of a
    commit, and the outcome of the writers of snapshots and dumps. *)
Record Host := mkHost {
  host_now : OffsetDateTime;
  host_commit : option Foreign;
  host_snapshot : World → outcome Error unit;
  host_dump : Task → World → outcome Error string
}.

Definition with_world_db (d : TaskDb) (w : World) : World :=
  mkWorld (with_db d (scheduler w)) (mapper w).
Definition with_mapper (m : M) (w : World) : World := mkWorld (scheduler w) m.

(** A step of the index mapper. *)
Definition on_mapper {A} (step : ST M Error A) : ST World Error A := λ w,
  let '(r, m) := step (mapper w) in (r, with_mapper m w).

Definition world_must_stop (w : World) : bool := must_stop_processing (scheduler w).

(** A transaction on the queue: its writes are kept when it commits. *)
Definition commit (h : Host) (w' : World) : ST World Error unit := λ w,
  match host_commit h with
  | None => (Ok tt, w')
  | Some e => (Err (Heed e), w)
  end.

Definition delete_files (files : list Uuid) (w : World) : World :=
  mkWorld (foldl (λ s file, delete_update_file file s) (scheduler w) files) (mapper w).

(** ** The arms of [process_batch] *)
Definition process_task_cancelation (h : Host) (task : Task)
    (previous_started_at : OffsetDateTime) (previous_processing_tasks : gset TaskId)
    : ST World Error (list Task) := λ w,
  match kind task with
  | TaskCancelation _ matched_tasks =>
      match cancel_matched_tasks (host_now h) (uid task) matched_tasks previous_started_at
              previous_processing_tasks (db (scheduler w)) with
      | Ok (canceled_tasks_content_uuids, d) =>
          match details task with
          | Some (DTaskCancelation matched _ original_filter) =>
              let canceled_tasks := N.of_nat (length canceled_tasks_content_uuids) in
              let task := with_status_details Succeeded
                (Some (DTaskCancelation matched (Some canceled_tasks) original_filter)) task in
              (_ ← commit h (with_world_db d w);
               _ ← st_modify (delete_files canceled_tasks_content_uuids);
               mret [task]) w
          | _ => (unreachable, w)
          end
      | Err e => (Err e, w)
      | Panic p => (Panic p, w)
      end
  | _ => (unreachable, w)
  end.

Definition process_task_deletion (h : Host) (task : Task) : ST World Error (list Task) := λ w,
  match kind task with
  | TaskDeletion _ matched_tasks =>
      match delete_matched_tasks (processing (processing_tasks (scheduler w))) matched_tasks
              (db (scheduler w)) with
      | Ok (deleted_tasks_count, d) =>
          match details task with
          | Some (DTaskDeletion matched _ original_filter) =>
              let task := with_status_details Succeeded
                (Some (DTaskDeletion matched (Some deleted_tasks_count) original_filter)) task in
              (_ ← commit h (with_world_db d w); mret [task]) w
          | _ => (unreachable, w)
          end
      | Err e => (Err e, w)
      | Panic p => (Panic p, w)
      end
  | _ => (unreachable, w)
  end.

Definition process_snapshot (h : Host) (tasks : list Task) : ST World Error (list Task) := λ w,
  match host_snapshot h w with
  | Ok _ => (Ok ((λ task, with_status_details Succeeded (details task) task) <$> tasks), w)
  | Err e => (Err e, w)
  | Panic p => (Panic p, w)
  end.

Definition process_dump (h : Host) (task : Task) : ST World Error (list Task) := λ w,
  match kind task with
  | DumpCreation _ _ =>
      match host_dump h task w with
      | Ok dump_uid => (Ok [with_status_details Succeeded (Some (DDump (Some dump_uid))) task], w)
      | Err e => (Err e, w)
      | Panic p => (Panic p, w)
      end
  | _ => (unreachable, w)
  end.

Definition process_index_operation (op : IndexOperation) (must_create_index : bool)
    : ST World Error (list Task) :=
  let index_uid := operation_index_uid op in
  index ← (if must_create_index then on_mapper (mapper_create_index index_uid)
           else on_mapper (mapper_index index_uid));
  w ← st_get;
  '(tasks, c) ← st_lift (apply_index_operation (world_must_stop w) op
                  (mapper_content index (mapper w)));
  _ ← st_modify (λ w, with_mapper (mapper_write index c (mapper w)) w);
  _ ← st_modify (λ w, with_mapper (mapper_store_stats index_uid index (mapper w)) w);
  mret tasks.

Definition process_deletion_by_filter (task : Task) : ST World Error (list Task) :=
  match kind task with
  | DocumentDeletionByFilter index_uid filter =>
      index ← on_mapper (mapper_index index_uid);
      w ← st_get;
      match delete_document_by_filter filter (mapper_content index (mapper w)), details task with
      | Panic p, _ => st_lift (Panic p)
      | Ok (deleted_documents, c), Some (DDocumentDeletionByFilter original_filter _) =>
          _ ← st_modify (λ w, with_mapper (mapper_write index c (mapper w)) w);
          mret [with_status_details Succeeded
            (Some (DDocumentDeletionByFilter original_filter (Some deleted_documents))) task]
      | Err e, Some (DDocumentDeletionByFilter original_filter _) =>
          mret [with_failure e (Some (DDocumentDeletionByFilter original_filter (Some 0%N))) task]
      | Ok (_, c), _ =>
          _ ← st_modify (λ w, with_mapper (mapper_write index c (mapper w)) w);
          st_lift unreachable
      | Err _, _ => st_lift unreachable
      end
  | _ => st_lift unreachable
  end.

Definition process_index_update (index_uid : string) (primary_key : option string) (task : Task)
    : ST World Error (list Task) :=
  index ← on_mapper (mapper_index index_uid);
  w ← st_get;
  _ ← match primary_key with
      | Some primary_key =>
          c ← st_lift (execute_settings (world_must_stop w)
                (set_primary_key primary_key new_builder) (mapper_content index (mapper w)));
          st_modify (λ w, with_mapper (mapper_write index c (mapper w)) w)
      | None => mret tt
      end;
  _ ← st_modify (λ w, with_mapper (mapper_store_stats index_uid index (mapper w)) w);
  mret [with_status_details Succeeded (Some (DIndexInfo primary_key)) task].

Definition process_index_creation (index_uid : string) (primary_key : option string)
    (task : Task) : ST World Error (list Task) :=
  w ← st_get;
  if index_exists (mapper w) index_uid then st_lift (Err (IndexAlreadyExists index_uid))
  else
    _ ← on_mapper (mapper_create_index index_uid);
    process_index_update index_uid primary_key task.

(** The status and details of the tasks of an index that is deleted. *)
Definition deleted_index_task (number_of_documents : N) (task : Task) : outcome Error Task :=
  d ← match kind task with
      | IndexDeletion _ => Ok (Some (DClearAll (Some number_of_documents)))
      | otherwise => default_finished_details otherwise
      end;
  Ok (with_status_details Succeeded d task).

(** [unwrap_or_default]: an error counts no document. *)
Definition documents_of (index_uid : string) : ST World Error N := λ w,
  match on_mapper (mapper_index index_uid) w with
  | (Ok index, w) =>
      match number_of_documents (mapper_content index (mapper w)) with
      | Ok n => (Ok n, w)
      | Err _ => (Ok 0%N, w)
      | Panic p => (Panic p, w)
      end
  | (Err _, w) => (Ok 0%N, w)
  | (Panic p, w) => (Panic p, w)
  end.

Definition is_index_not_found (e : Error) : bool :=
  match e with IndexNotFound _ => true | _ => false end.

Definition process_index_deletion (index_uid : string) (tasks : list Task)
    (index_has_been_created : bool) : ST World Error (list Task) :=
  n ← documents_of index_uid;
  _ ← (λ w, match on_mapper (mapper_delete_index index_uid) w with
            | (Err e, w) =>
                if is_index_not_found e && index_has_been_created then (Ok tt, w) else (Err e, w)
            | (r, w) => (r, w)
            end);
  st_lift (collect (deleted_index_task n) tasks).

Definition process_index_swap (h : Host) (task : Task) : ST World Error (list Task) := λ w,
  match kind task with
  | IndexSwapTask swaps =>
      match process_swaps (uid task) swaps (mapper w, db (scheduler w)) with
      | Ok (m, d) =>
          (_ ← commit h (with_mapper m (with_world_db d w));
           mret [with_status_details Succeeded (details task) task]) w
      | Err e => (Err e, w)
      | Panic p => (Panic p, w)
      end
  | _ => (unreachable, w)
  end.

Definition process_batch (h : Host) (batch : Batch) : ST World Error (list Task) :=
  match batch with
  | BatchTaskCancelation task previous_started_at previous_processing_tasks =>
      process_task_cancelation h task previous_started_at previous_processing_tasks
  | BatchTaskDeletion task => process_task_deletion h task
  | BatchSnapshotCreation tasks => process_snapshot h tasks
  | BatchDump task => process_dump h task
  | BatchIndexOperation op must_create_index => process_index_operation op must_create_index
  | BatchIndexDocumentDeletionByFilter _ task => process_deletion_by_filter task
  | BatchIndexCreation index_uid primary_key task =>
      process_index_creation index_uid primary_key task
  | BatchIndexUpdate index_uid primary_key task => process_index_update index_uid primary_key task
  | BatchIndexDeletion index_uid tasks index_has_been_created =>
      process_index_deletion index_uid tasks index_has_been_created
  | BatchIndexSwap task => process_index_swap h task
  end.
End world.
End process.

(** ** What becomes of the tasks *)
Section tasks.
Context {J : JsonValue} {CC : CaseConversion} {EN : IndexEngine}.

(** A task after its processing: finished, and otherwise the same. *)
Definition processed (t t' : Task) : Prop :=
  uid t' = uid t ∧ kind t' = kind t ∧ enqueued_at t' = enqueued_at t ∧
  started_at t' = started_at t ∧ finished_at t' = finished_at t ∧
  canceled_by t' = canceled_by t ∧
  ((status t' = Succeeded ∧ error t' = error t) ∨ (status t' = Failed ∧ error t' ≠ None)).

Lemma processed_succeeded d t : processed t (with_status_details Succeeded d t).
Proof. unfold processed. simpl. split_and!; try done. by left. Qed.

Lemma processed_failed e d t : processed t (with_failure e d t).
Proof. unfold processed. simpl. split_and!; try done. by right. Qed.

Hint Resolve processed_succeeded processed_failed : core.

Lemma clear_tasks_processed count found ts : Forall2 processed ts (clear_tasks count found ts).
Proof.
  revert found. induction ts as [|t ts IH]; intros found; simpl; [constructor|].
  destruct (kind t); constructor; auto.
Qed.

Lemma apply_document_operation_processed op t b t' b' :
  apply_document_operation op t b = Ok (t', b') → processed t t'.
Proof.
  destruct op; simpl; intros H; inv_ok; repeat case_match; inv_ok; auto.
Qed.

Lemma apply_document_operations_processed ops ts b ts' b' :
  length ops = length ts →
  apply_document_operations ops ts b = Ok (ts', b') → Forall2 processed ts ts'.
Proof.
  revert ts b ts' b'. induction ops as [|op ops IH]; intros [|t ts] b ts' b' Hl H;
    simplify_eq/=; try constructor.
  inv_ok. destruct x as [t1 b1]. inv_ok. destruct x as [ts1 b2]. inv_ok.
  constructor; [by eapply apply_document_operation_processed|by eapply IH].
Qed.

Lemma deletion_tasks_processed n docs ts :
  length docs = length ts → Forall2 processed ts (deletion_tasks n docs ts).
Proof.
  revert ts. induction docs as [|d docs IH]; intros [|t ts] Hl; simplify_eq/=; constructor; auto.
Qed.

Lemma settings_tasks_processed ss ts b :
  length ss = length ts → Forall2 processed ts (settings_tasks ss ts b).1.
Proof.
  revert ts b. induction ss as [|[del s] ss IH]; intros [|t ts] b Hl; simplify_eq/=; [constructor|].
  specialize (IH ts (apply_settings_to_builder (check s) b) Hl).
  destruct (settings_tasks ss ts _). constructor; auto.
Qed.

Lemma apply_settings_processed ms ss ts c ts' c' :
  length ss = length ts → apply_settings ms ss ts c = Ok (ts', c') → Forall2 processed ts ts'.
Proof.
  intros Hl. unfold apply_settings. pose proof (settings_tasks_processed ss ts new_builder Hl) as Hp.
  destruct (settings_tasks ss ts new_builder). intros H. inv_ok. done.
Qed.

Lemma apply_document_clear_processed ts c ts' c' :
  apply_document_clear ts c = Ok (ts', c') → Forall2 processed ts ts'.
Proof.
  unfold apply_document_clear. intros H. inv_ok. destruct x. inv_ok. apply clear_tasks_processed.
Qed.

Lemma apply_document_import_processed ms pk m ops ts c ts' c' :
  length ops = length ts →
  apply_document_import ms pk m ops ts c = Ok (ts', c') → Forall2 processed ts ts'.
Proof.
  intros Hl H. unfold apply_document_import in H. inv_ok. destruct x as [set_ c1]. inv_ok.
  destruct x0 as [ts1 b1].
  assert (Forall2 processed ts ts1) by by eapply apply_document_operations_processed.
  repeat case_match; inv_ok; done.
Qed.

Lemma collect_length {A B} (f : A → outcome Error B) l ys : collect f l = Ok ys → length ys = length l.
Proof. intros H. symmetry. by eapply Forall2_length, collect_Forall2. Qed.

(** Every operation on an index finishes its tasks. *)
Lemma apply_index_operation_processed ms op c ts' c' :
  operation_ok op → apply_index_operation ms op c = Ok (ts', c') →
  ∃ ts, ts ≡ₚ operation_tasks op ∧ Forall2 processed ts ts'.
Proof.
  intros Hok H. destruct op; simpl in *.
  - destruct Hok as (_ & l & Hl & -> & ->). exists tasks. split; [done|].
    eapply apply_document_import_processed; [|exact H]. rewrite length_fmap. by eapply collect_length.
  - exists tasks. split; [done|]. unfold apply_document_deletion in H. inv_ok. destruct x. inv_ok.
    apply deletion_tasks_processed. by eapply collect_length.
  - exists tasks. split; [done|]. by eapply apply_document_clear_processed.
  - exists tasks. split; [done|]. eapply apply_settings_processed; [|exact H]. by eapply collect_length.
  - inv_ok. destruct x as [cts c1]. inv_ok. destruct x as [sts c2]. inv_ok.
    exists (settings_tasks0 ++ cleared_tasks). split; [apply Permutation_app_comm|].
    apply Forall2_app; [|by eapply apply_document_clear_processed].
    eapply apply_settings_processed; [|done]. by eapply collect_length.
  - destruct Hok as (Hs & _ & l & Hl & -> & ->). inv_ok. destruct x as [sts c1]. inv_ok.
    destruct x as [its c2]. inv_ok.
    exists (settings_tasks0 ++ document_import_tasks). split; [apply Permutation_app_comm|].
    apply Forall2_app.
    + eapply apply_settings_processed; [|done]. by eapply collect_length.
    + eapply apply_document_import_processed; [|done]. rewrite length_fmap. by eapply collect_length.
Qed.
End tasks.

(** ** What becomes of the queue *)
Section queue.
Context {J : JsonValue} {CC : CaseConversion} {EN : IndexEngine} {M : Type} {IM : IndexMapper M}.
Abbreviation W := (World (M:=M)).

(** A computation that only touches the indexes. *)
Class KeepsScheduler {A} (m : ST W Error A) : Prop :=
  keeps_scheduler w : scheduler (m w).2 = scheduler w.

#[export] Instance keeps_ret {A} (a : A) : KeepsScheduler (mret a).
Proof. done. Qed.

#[export] Instance keeps_bind {A B} (m : ST W Error A) (f : A → ST W Error B) :
  KeepsScheduler m → (∀ a, KeepsScheduler (f a)) → KeepsScheduler (m ≫= f).
Proof.
  intros Hm Hf w. unfold mbind, st_bind. specialize (Hm w). destruct (m w) as [[a|e|p] w1];
    simpl in *; [|done..]. by rewrite (Hf a).
Qed.

#[export] Instance keeps_mapper {A} (m : ST M Error A) : KeepsScheduler (on_mapper m).
Proof. intros w. unfold on_mapper. by destruct (m (mapper w)). Qed.

#[export] Instance keeps_get : KeepsScheduler (A:=W) st_get.
Proof. done. Qed.

#[export] Instance keeps_lift {A} (m : outcome Error A) : KeepsScheduler (st_lift m).
Proof. done. Qed.

#[export] Instance keeps_with_mapper (f : W → M) : KeepsScheduler (st_modify (λ w : W, with_mapper (f w) w)).
Proof. done. Qed.

#[export] Instance keeps_update uid pk t : KeepsScheduler (process_index_update uid pk t).
Proof. unfold process_index_update. destruct pk; apply _. Qed.

#[export] Instance keeps_creation uid pk t : KeepsScheduler (process_index_creation uid pk t).
Proof.
  unfold process_index_creation. apply keeps_bind; [apply _|]. intros w0. case_match; apply _.
Qed.

#[export] Instance keeps_operation op must : KeepsScheduler (process_index_operation op must).
Proof.
  unfold process_index_operation. apply keeps_bind; [destruct must; apply _|]. intros idx.
  apply keeps_bind; [apply _|]. intros w0. apply keeps_bind; [apply _|]. intros []. apply _.
Qed.

#[export] Instance keeps_by_filter t : KeepsScheduler (process_deletion_by_filter t).
Proof.
  unfold process_deletion_by_filter. case_match; try apply _.
  apply keeps_bind; [apply _|]. intros idx. apply keeps_bind; [apply _|]. intros w0.
  repeat case_match; apply _.
Qed.

#[export] Instance keeps_deletion uid ts b : KeepsScheduler (process_index_deletion uid ts b).
Proof.
  unfold process_index_deletion. apply keeps_bind.
  - intros w. unfold documents_of. pose proof (keeps_mapper (mapper_index uid) w) as Hk.
    destruct (on_mapper _ w) as [[i|e|p] w1]; simpl in *; [|done..]. by case_match.
  - intros n. apply keeps_bind; [|apply _]. intros w.
    pose proof (keeps_mapper (mapper_delete_index uid) w) as Hk.
    destruct (on_mapper _ w) as [[u|e|p] w1]; simpl in *; [done| |done]. by case_match.
Qed.

(** What becomes of a row: it keeps its identity, up to the names of the
    indexes that a swap exchanges, and once the task is finished it keeps how
    it finished. *)
Definition evolves (t t' : Task) : Prop :=
  uid t' = uid t ∧ enqueued_at t' = enqueued_at t ∧ as_kind (kind t') = as_kind (kind t) ∧
  (status t ≠ Enqueued → status t' = status t ∧ error t' = error t ∧
     started_at t' = started_at t ∧ finished_at t' = finished_at t ∧ canceled_by t' = canceled_by t).

#[export] Instance evolves_preorder : PreOrder evolves.
Proof.
  split.
  - intros t. split_and!; done.
  - intros t1 t2 t3 (H1 & H2 & H3 & H4) (E1 & E2 & E3 & E4). unfold evolves.
    split_and!; [congruence..|]. intros Hne. destruct (H4 Hne) as (Hs & ? & ? & ? & ?).
    destruct E4 as (? & ? & ? & ? & ?); [congruence|]. split_and!; congruence.
Qed.

Lemma evolves_renamed swap t : evolves t (renamed swap t).
Proof.
  destruct (renamed_same swap t) as (H1 & H2 & H3 & H4 & H5 & H6 & H7 & H8 & _).
  split_and!; try done.
Qed.

Lemma evolves_rename_all id swaps t : evolves t (rename_all id swaps t).
Proof.
  unfold rename_all. revert t. induction swaps as [|s swaps IH]; intros t; [done|]. simpl.
  etrans; [|apply IH]. unfold older_renamed. destruct (_ <? _)%N; [apply evolves_renamed|done].
Qed.

(** The rows of a table after a table: none appears, enqueued ones stay, the
    others evolve or leave for good, since a newer row keeps their id taken. *)
Definition table_evolves (d d' : TaskDb) : Prop :=
  (∀ (i : TaskId) t', all_tasks d' !! i = Some t' → ∃ t, all_tasks d !! i = Some t ∧ evolves t t') ∧
  (∀ (i : TaskId) t, all_tasks d !! i = Some t → is_Some (all_tasks d' !! i) ∨
     (status t ≠ Enqueued ∧ ∃ j : TaskId, (i < j)%N ∧ is_Some (all_tasks d' !! j))).

#[export] Instance table_evolves_refl : Reflexive table_evolves.
Proof. intros d. split; intros i t Ht; [by exists t|by left]. Qed.

(** How the queue may change while a batch with the tasks [ts] is processed. *)
Record kept (ts : list Task) (s s' : IndexScheduler) : Prop := {
  kept_ok : queue_ok (db s');
  kept_rows t : t ∈ ts → stored (db s') t;
  kept_table : table_evolves (db s) (db s');
  kept_processing : processing_tasks s' = processing_tasks s;
  kept_must_stop : must_stop_processing s' = must_stop_processing s;
  kept_wake_up : wake_up s' = wake_up s
}.

Lemma kept_same s ts : queue_ok (db s) → Forall (stored (db s)) ts → kept ts s s.
Proof. intros Hq Hts. rewrite Forall_forall in Hts. constructor; try done. Qed.

(** No task is put back among the enqueued ones. *)
Lemma table_evolves_enqueued d d' : consistent d → consistent d' → table_evolves d d' →
  get_status d' Enqueued ⊆ get_status d Enqueued.
Proof.
  intros Hc Hc' [Ht _] i (t' & Ht' & He)%get_status_spec; [|done].
  destruct (Ht i t' Ht') as (t & Hi & _ & _ & _ & Hs). apply get_status_spec; [done|].
  exists t. split; [done|]. destruct (decide (status t = Enqueued)) as [|Hne]; [done|].
  destruct (Hs Hne) as (Hst & _). congruence.
Qed.

Lemma table_evolves_dom d d' : table_evolves d d' → dom (all_tasks d') ⊆ dom (all_tasks d).
Proof.
  intros [Ht _] i [t' Hi]%elem_of_dom. destruct (Ht i t' Hi) as (t & Hti & _).
  apply elem_of_dom. by exists t.
Qed.

Lemma delete_files_scheduler files (w : W) :
  let s := scheduler w in let s' := scheduler (delete_files files w) in
  db s' = db s ∧ processing_tasks s' = processing_tasks s ∧
  must_stop_processing s' = must_stop_processing s ∧ wake_up s' = wake_up s.
Proof.
  unfold delete_files. simpl. generalize (scheduler w) as s. induction files as [|f files IH]; [done|].
  intros s. simpl. destruct (IH (delete_update_file f s)) as (-> & -> & -> & ->). done.
Qed.

(** The contract of one arm. *)
Definition arm_ok (ts : list Task) (m : ST W Error (list Task)) (w : World) : Prop :=
  kept ts (scheduler w) (scheduler (m w).2) ∧
  ∀ ts', (m w).1 = Ok ts' → ∃ ts0, ts0 ≡ₚ ts ∧ Forall2 processed ts0 ts'.

Lemma arm_index ts m w :
  KeepsScheduler m → queue_ok (db (scheduler w)) → Forall (stored (db (scheduler w))) ts →
  (∀ ts', (m w).1 = Ok ts' → ∃ ts0, ts0 ≡ₚ ts ∧ Forall2 processed ts0 ts') → arm_ok ts m w.
Proof. intros Hk Hq Hst Hts. split; [|done]. rewrite Hk. by apply kept_same. Qed.

Lemma arm_single t t' : processed t t' → ∃ ts0, ts0 ≡ₚ [t] ∧ Forall2 processed ts0 [t'].
Proof. intros H. exists [t]. split; [done|]. by constructor. Qed.

(** *** The results of the arms on an index *)
Lemma st_bind_Ok {A B} (m : ST W Error A) (f : A → ST W Error B) w b :
  ((m ≫= f) w).1 = Ok b → ∃ a w', m w = (Ok a, w') ∧ (f a w').1 = Ok b.
Proof.
  unfold mbind, st_bind. destruct (m w) as [[a|e|p] w']; [|done..]. intros Hf. by exists a, w'.
Qed.

Ltac inv_st :=
  repeat match goal with
  | H : ((_ ≫= _) _).1 = Ok _ |- _ => apply st_bind_Ok in H as (? & ? & ? & H)
  | H : st_lift _ _ = (Ok _, _) |- _ => unfold st_lift in H
  | H : (_, _) = (_, _) |- _ => injection H as H; subst
  end.

Lemma index_update_Ok uid_ pk t w ts' :
  (process_index_update uid_ pk t w).1 = Ok ts' → ∃ ts0, ts0 ≡ₚ [t] ∧ Forall2 processed ts0 ts'.
Proof.
  unfold process_index_update. intros H. inv_st. injection H as <-.
  by apply arm_single, processed_succeeded.
Qed.

Lemma index_creation_Ok uid_ pk t w ts' :
  (process_index_creation uid_ pk t w).1 = Ok ts' → ∃ ts0, ts0 ≡ₚ [t] ∧ Forall2 processed ts0 ts'.
Proof.
  unfold process_index_creation. intros H. inv_st. case_match; [done|]. inv_st.
  by eapply index_update_Ok.
Qed.

Lemma index_operation_Ok op must w ts' :
  operation_ok op → (process_index_operation op must w).1 = Ok ts' →
  ∃ ts0, ts0 ≡ₚ operation_tasks op ∧ Forall2 processed ts0 ts'.
Proof.
  intros Hok H. unfold process_index_operation in H. inv_st. destruct x3 as [ts c]. inv_st.
  injection H as <-. by eapply apply_index_operation_processed.
Qed.

Lemma by_filter_Ok t w ts' :
  (process_deletion_by_filter t w).1 = Ok ts' → ∃ ts0, ts0 ≡ₚ [t] ∧ Forall2 processed ts0 ts'.
Proof.
  unfold process_deletion_by_filter. intros H. case_match; try done. inv_st.
  repeat case_match; inv_st; try done; injection H as <-; apply arm_single;
    first [apply processed_succeeded|apply processed_failed].
Qed.

Lemma collect_deleted n ts ts' :
  collect (deleted_index_task n) ts = Ok ts' → Forall2 processed ts ts'.
Proof.
  intros H%collect_Forall2. eapply Forall2_impl; [exact H|]. intros t t' Ht. simpl in Ht.
  unfold deleted_index_task in Ht. inv_ok. apply processed_succeeded.
Qed.

Lemma index_deletion_Ok uid_ ts created w ts' :
  (process_index_deletion uid_ ts created w).1 = Ok ts' →
  ∃ ts0, ts0 ≡ₚ ts ∧ Forall2 processed ts0 ts'.
Proof.
  unfold process_index_deletion. intros H. inv_st. exists ts. split; [done|].
  eapply collect_deleted; exact H.
Qed.

Section arms.
Context `{!IndexNamesLaws M} (h : Host (M:=M)) (w : W).
Hypothesis (Hq : queue_ok (db (scheduler w))).

Abbreviation d := (db (scheduler w)).

(** A write transaction on the queue, kept or not. *)
Lemma commit_kept ts (w' : W) :
  Forall (stored d) ts → kept ts (scheduler w) (scheduler w') →
  kept ts (scheduler w) (scheduler (commit h w' w).2).
Proof. intros Hst Hk. unfold commit. destruct (host_commit h); [by apply kept_same|done]. Qed.

Lemma stored_reference t j : stored d t → j ∈ references (kind t) → (j < uid t)%N.
Proof. intros Ht Hj. by apply (qok_references _ Hq (uid t) t). Qed.

Lemma cancelation_arm t sa pr :
  stored d t → as_kind (kind t) = KTaskCancelation →
  arm_ok [t] (process_task_cancelation h t sa pr) w.
Proof.
  intros Ht Hk. unfold arm_ok, process_task_cancelation.
  assert (Forall (stored d) [t]) as Hst by by apply Forall_singleton.
  destruct (kind t) as [| | | | | | | | |query matched| | |] eqn:Hkt; try discriminate Hk.
  destruct (cancel_matched_tasks_Ok (host_now h) (uid t) matched sa pr d Hq)
    as (files & d' & -> & Hq' & Htab & _).
  destruct (details t) as [[]|]; try (split; [by apply kept_same|done]).
  unfold mbind, st_bind, commit.
  destruct (host_commit h); [split; [by apply kept_same|done]|].
  split; [|intros ts' [= <-]; by apply arm_single, processed_succeeded].
  simpl. destruct (delete_files_scheduler files (with_world_db d' w)) as (E1 & E2 & E3 & E4).
  simpl in E1, E2, E3, E4. constructor; rewrite ?E1; try done.
  - intros t' ->%list_elem_of_singleton. unfold stored. rewrite Htab, lookup_fmap.
    unfold stored in Ht. rewrite Ht. simpl. rewrite decide_False; [done|]. intros [_ Hin].
    assert (uid t < uid t)%N; [|lia]. apply (stored_reference t (uid t) Ht). by rewrite Hkt.
  - split.
    + intros i t'. rewrite Htab, lookup_fmap. intros (t0 & Ht0 & ->)%fmap_Some.
      exists t0. split; [done|]. case_decide as Hc; [|done]. destruct Hc as [Hc _].
      split_and!; try done. 
    + intros i t0 Ht0. left. rewrite Htab, lookup_fmap, Ht0. by eexists.
Qed.

Lemma deletion_arm t :
  stored d t → status t = Enqueued → as_kind (kind t) = KTaskDeletion →
  arm_ok [t] (process_task_deletion h t) w.
Proof.
  intros Ht He Hk. unfold arm_ok, process_task_deletion.
  assert (Forall (stored d) [t]) as Hst by by apply Forall_singleton.
  destruct (kind t) as [| | | | | | | | | |query matched| |] eqn:Hkt; try discriminate Hk.
  destruct (delete_matched_tasks_Ok (processing (processing_tasks (scheduler w))) matched d Hq)
    as (D & d' & -> & Hq' & HD & Htab & _).
  destruct (details t) as [[]|]; try (split; [by apply kept_same|done]).
  unfold mbind, st_bind, commit.
  destruct (host_commit h); [split; [by apply kept_same|done]|].
  split; [|intros ts' [= <-]; by apply arm_single, processed_succeeded].
  constructor; try done; simpl.
  - intros t' ->%list_elem_of_singleton. unfold stored. rewrite Htab, decide_False; [done|].
    intros (t0 & Ht0 & _ & _ & Hne)%HD. unfold stored in Ht. by simplify_eq.
  - split; intros i t0.
    + rewrite Htab. case_decide; [done|]. intros Ht0. by exists t0.
    + intros Ht0. rewrite Htab. case_decide as Hi; [|by left]. right.
      apply HD in Hi as (t1 & Ht1 & Hm & _ & Hne). simplify_eq. split; [done|].
      exists (uid t). split; [apply (stored_reference t i Ht); by rewrite Hkt|].
      rewrite Htab, decide_False; [by exists t|].
      intros (t2 & Ht2 & _ & _ & Hne2)%HD. unfold stored in Ht. by simplify_eq.
Qed.

Lemma rename_all_newer id swaps t : (id <= uid t)%N → rename_all id swaps t = t.
Proof.
  intros Hle. unfold rename_all. induction swaps as [|s swaps IH]; [done|]. simpl.
  assert (older_renamed id (swap_indexes s) t = t) as ->; [|done].
  unfold older_renamed. destruct (N.ltb_spec (uid t) id); [lia|done].
Qed.

Lemma swap_arm t swaps :
  stored d t → kind t = IndexSwapTask swaps → arm_ok [t] (process_index_swap h t) w.
Proof.
  intros Ht Hkt. unfold arm_ok, process_index_swap. rewrite Hkt.
  assert (Forall (stored d) [t]) as Hst by by apply Forall_singleton.
  pose proof (qok_swaps _ Hq _ _ _ Ht Hkt) as Hnd.
  destruct (process_swaps_Ok (uid t) swaps (mapper w) d Hq Hnd) as [Hok Herr].
  destruct (decide (Forall (λ n, is_Some (resolve (mapper w) n)) (swap_names swaps)))
    as [Hall|Hall].
  - rewrite Forall_forall in Hall. destruct (Hok Hall) as (m' & d' & -> & Hq' & Htab & _).
    unfold mbind, st_bind, commit.
    destruct (host_commit h); [split; [by apply kept_same|done]|].
    split; [|intros ts' [= <-]; by apply arm_single, processed_succeeded].
    constructor; try done; unfold stored, table_evolves; simpl; rewrite Htab.
    + intros t' ->%list_elem_of_singleton. unfold stored in Ht. rewrite lookup_fmap, Ht.
      simpl. by rewrite rename_all_newer.
    + split; intros i t0; rewrite lookup_fmap.
      * intros (t1 & Ht1 & ->)%fmap_Some. exists t1. split; [done|]. apply evolves_rename_all.
      * intros ->. left. by eexists.
  - apply not_Forall_Exists, Exists_exists in Hall as (n & Hn & Hno); [|apply _].
    apply eq_None_not_Some in Hno.
    destruct Herr as (missing & _ & _ & _ & [(n' & _ & ->)|[_ ->]]); [by exists n|..];
      (split; [by apply kept_same|done]).
Qed.
End arms.

Lemma process_batch_outcome `{!IndexNamesLaws M} (h : Host (M:=M)) (b : Batch) (w : W) :
  queue_ok (db (scheduler w)) → good_batch (scheduler w) b →
  kept (batch_tasks b) (scheduler w) (scheduler (process_batch h b w).2) ∧
  ∀ tasks, (process_batch h b w).1 = Ok tasks →
    ∃ ts, ts ≡ₚ batch_tasks b ∧ Forall2 processed ts tasks.
Proof.
  intros Hq (Hok & Hft & _ & _).
  assert (Forall (stored (db (scheduler w))) (batch_tasks b)) as Hst.
  { eapply Forall_impl; [exact Hft|]. by intros t [? _]. }
  change (arm_ok (batch_tasks b) (process_batch h b) w).
  destruct b as [t sa pr|t|ts|t|op must|uid_ t|uid_ pk t|uid_ pk t|uid_ ts created|t];
    simpl in Hok, Hft, Hst |- *;
    try (apply Forall_singleton in Hft as [Ht He]).
  - by apply cancelation_arm.
  - by apply deletion_arm.
  - unfold arm_ok, process_snapshot. destruct (host_snapshot h w); simpl;
      (split; [by apply kept_same|]); [|done..]. intros ts' [= <-]. exists ts. split; [done|].
    apply Forall2_fmap_r, Forall_Forall2_diag, Forall_forall. intros. apply processed_succeeded.
  - unfold arm_ok, process_dump. destruct (kind t) eqn:Hk; try discriminate Hok.
    destruct (host_dump h t w); simpl; (split; [by apply kept_same|]); [|done..].
    intros ts' [= <-]. by apply arm_single, processed_succeeded.
  - apply arm_index; [apply _|done|done|]. intros ts'. by apply index_operation_Ok.
  - apply arm_index; [apply _|done|done|]. apply by_filter_Ok.
  - apply arm_index; [apply _|done|done|]. apply index_creation_Ok.
  - apply arm_index; [apply _|done|done|]. apply index_update_Ok.
  - apply arm_index; [apply _|done|done|]. apply index_deletion_Ok.
  - destruct Hok as [swaps Hs]. by eapply swap_arm.
Qed.

(** C12: Whatever the indexing engine, the index mapper and the disk answer, the
    processing of a batch of a well-formed queue keeps the queue well formed,
    adds no task, puts no task back among the enqueued ones, and leaves the
    rows of its own tasks alone; when it returns, it returns each task of the
    batch once, finished, failed with its error or succeeded, and otherwise the
    same. *)
Theorem process_batch_contract `{!IndexNamesLaws M} (h : Host (M:=M)) (b : Batch) (w : W) :
  queue_ok (db (scheduler w)) → good_batch (scheduler w) b →
  kept (batch_tasks b) (scheduler w) (scheduler (process_batch h b w).2) ∧
  ∀ tasks, (process_batch h b w).1 = Ok tasks →
    ∃ ts, ts ≡ₚ batch_tasks b ∧ Forall2 processed ts tasks.
Proof. exact (process_batch_outcome h b w). Qed.

(** ** The unreachable code is not reached *)

(** Interfaces that return, with a value or an error. *)
Class QuietEngine : Prop := {
  quiet_primary_key c : is_panic (engine_primary_key c) = false;
  quiet_number_of_documents c : is_panic (number_of_documents c) = false;
  quiet_clear c : is_panic (clear_documents c) = false;
  quiet_settings ms b c : is_panic (execute_settings ms b c) = false;
  quiet_new ms m c : is_panic (index_documents_new ms m c) = false;
  quiet_get_update u : is_panic (get_update u) = false;
  quiet_add f b : is_panic (add_documents f b) = false;
  quiet_remove l b : is_panic (remove_documents l b) = false;
  quiet_execute b : is_panic (index_documents_execute b) = false;
  quiet_delete_ids l c : is_panic (delete_external_ids l c) = false;
  quiet_filter v : is_panic (filter_from_json v) = false;
  quiet_evaluate f c : is_panic (filter_evaluate f c) = false;
  quiet_delete cs c : is_panic (delete_documents cs c) = false
}.

Class QuietMapper : Prop := {
  quiet_index n m : is_panic (mapper_index (M:=M) n m).1 = false;
  quiet_create_index n m : is_panic (mapper_create_index (M:=M) n m).1 = false;
  quiet_delete_index n m : is_panic (mapper_delete_index (M:=M) n m).1 = false
}.

Lemma quiet_bind {E A B} (m : outcome E A) (f : A → outcome E B) :
  is_panic m = false → (∀ a, m = Ok a → is_panic (f a) = false) → is_panic (m ≫= f) = false.
Proof. destruct m; simpl; auto. Qed.

Lemma quiet_st_bind {A B} (m : ST W Error A) (f : A → ST W Error B) w :
  is_panic (m w).1 = false →
  (∀ a w', m w = (Ok a, w') → is_panic (f a w').1 = false) → is_panic ((m ≫= f) w).1 = false.
Proof. unfold mbind, st_bind. destruct (m w) as [[a|e|p] w']; simpl; auto. Qed.

Lemma quiet_map_err {E F A} (f : E → F) (m : outcome E A) :
  is_panic m = false → is_panic (map_err f m) = false.
Proof. by destruct m. Qed.

Create HintDb quiet discriminated.

Section quiet.
Context `{!QuietEngine, !QuietMapper}.

Hint Resolve quiet_primary_key quiet_number_of_documents quiet_clear quiet_settings quiet_new
  quiet_get_update quiet_add quiet_remove quiet_execute quiet_delete_ids quiet_filter
  quiet_evaluate quiet_delete quiet_index quiet_create_index quiet_delete_index : quiet.

(** Steps through binds and pairs. *)
Ltac quiet :=
  repeat first
    [ apply quiet_bind; [|intros ? ?]
    | apply quiet_map_err
    | solve [auto 2 with nocore quiet]
    | match goal with
      | |- is_panic (let '(_, _) := ?x in _) = false => destruct x
      | |- is_panic (match ?x with _ => _ end) = false => destruct x
      end
    | reflexivity ].

Lemma quiet_mapper_step {A} (m : ST M Error A) w :
  is_panic (m (mapper w)).1 = false → is_panic (on_mapper m w).1 = false.
Proof. unfold on_mapper. by destruct (m (mapper w)). Qed.

Lemma quiet_document_operations ops ts b :
  Forall2 (λ t op, ∃ n, document_operation t = Ok (n, op)) ts ops →
  Forall (λ t, details_ok (kind t) (details t)) ts →
  is_panic (apply_document_operations ops ts b) = false.
Proof.
  intros Hops. revert b. induction Hops as [|t op ts ops [n Ht] Hops IH]; intros b Hd; [done|].
  apply Forall_cons in Hd as [Hdt Hd]. simpl. apply quiet_bind.
  - unfold document_operation in Ht. destruct (kind t); simplify_eq/=;
      destruct Hdt as (n1 & m1 & Hdt); rewrite Hdt; quiet.
  - intros [t' b'] _. apply quiet_bind; [by apply IH|]. by intros [].
Qed.

Lemma quiet_import ms pk m ops ts c l :
  collect document_operation ts = Ok l → ops = l.*2 →
  Forall (λ t, details_ok (kind t) (details t)) ts →
  is_panic (apply_document_import ms pk m ops ts c) = false.
Proof.
  intros Hl -> Hd. unfold apply_document_import. apply quiet_bind.
  { unfold apply_primary_key. quiet. }
  intros [set_ c1] _. apply quiet_bind; [quiet|]. intros b _. apply quiet_bind.
  - apply quiet_document_operations; [|done]. apply collect_Forall2 in Hl.
    apply Forall2_fmap_r. eapply Forall2_impl; [exact Hl|]. intros t [n op] ->. by exists n.
  - intros [ts' b'] _. quiet.
Qed.

Lemma quiet_apply_settings ms ss ts c : is_panic (apply_settings ms ss ts c) = false.
Proof. unfold apply_settings. quiet. Qed.

Lemma quiet_apply_clear ts c : is_panic (apply_document_clear ts c) = false.
Proof. unfold apply_document_clear. quiet. Qed.

Lemma quiet_operation ms op c :
  operation_ok op → Forall (λ t, details_ok (kind t) (details t)) (operation_tasks op) →
  is_panic (apply_index_operation ms op c) = false.
Proof.
  intros Hok Hd. destruct op; simpl in *.
  - destruct Hok as (_ & l & Hl & _ & ->). by eapply quiet_import.
  - unfold apply_document_deletion. quiet.
  - apply quiet_apply_clear.
  - apply quiet_apply_settings.
  - apply quiet_bind; [apply quiet_apply_clear|]. intros [ts1 c1] _.
    apply quiet_bind; [apply quiet_apply_settings|]. by intros [].
  - destruct Hok as (_ & _ & l & Hl & _ & ->). apply Forall_app in Hd as [Hd _].
    apply quiet_bind; [apply quiet_apply_settings|]. intros [ts1 c1] _.
    apply quiet_bind; [by eapply quiet_import|]. by intros [].
Qed.

Lemma quiet_delete_by_filter f c : is_panic (delete_document_by_filter f c) = false.
Proof. unfold delete_document_by_filter. quiet. Qed.

Lemma quiet_index_update uid_ pk t w : is_panic (process_index_update uid_ pk t w).1 = false.
Proof.
  unfold process_index_update. apply quiet_st_bind; [apply quiet_mapper_step; auto with quiet|].
  intros i w1 _. apply quiet_st_bind; [done|]. intros w2 w3 _. apply quiet_st_bind; [|done].
  destruct pk; [|done]. apply quiet_st_bind; [|done]. unfold st_lift. simpl. auto with quiet.
Qed.

Lemma quiet_index_operation op must w :
  operation_ok op → Forall (λ t, details_ok (kind t) (details t)) (operation_tasks op) →
  is_panic (process_index_operation op must w).1 = false.
Proof.
  intros Hok Hd. unfold process_index_operation. apply quiet_st_bind.
  { destruct must; apply quiet_mapper_step; auto with quiet. }
  intros i w1 _. apply quiet_st_bind; [done|]. intros w2 w3 _.
  apply quiet_st_bind; [by apply quiet_operation|]. by intros [].
Qed.

Lemma quiet_by_filter t w :
  (∃ uid_ f, kind t = DocumentDeletionByFilter uid_ f) → details_ok (kind t) (details t) →
  is_panic (process_deletion_by_filter t w).1 = false.
Proof.
  intros (uid_ & f & Hk) Hd. rewrite Hk in Hd. destruct Hd as (o & n & Hd).
  unfold process_deletion_by_filter. rewrite Hk, Hd.
  apply quiet_st_bind; [apply quiet_mapper_step; auto with quiet|].
  intros i w1 _. apply quiet_st_bind; [done|]. intros w2 w3 _.
  pose proof (quiet_delete_by_filter f (mapper_content i (mapper w2))) as Hq.
  by destruct (delete_document_by_filter f (mapper_content i (mapper w2))) as [[]|e|p].
Qed.

Lemma quiet_collect_deleted n ts :
  Forall (λ t, related_to_one_index (as_kind (kind t)) = true) ts →
  is_panic (collect (deleted_index_task n) ts) = false.
Proof.
  induction 1 as [|t ts Ht Hts IH]; [done|]. cbn [collect]. apply quiet_bind.
  - unfold deleted_index_task. destruct (kind t); try discriminate Ht; reflexivity.
  - intros t' _. by apply quiet_bind.
Qed.

Lemma quiet_index_deletion uid_ ts created w :
  Forall (λ t, related_to_one_index (as_kind (kind t)) = true) ts →
  is_panic (process_index_deletion uid_ ts created w).1 = false.
Proof.
  intros Hts. unfold process_index_deletion. apply quiet_st_bind.
  - unfold documents_of. pose proof (quiet_mapper_step (mapper_index uid_) w) as Hi.
    specialize (Hi (quiet_index _ _)). destruct (on_mapper _ w) as [[i|e|p] w1]; [|done..].
    pose proof (quiet_number_of_documents (mapper_content i (mapper w1))) as Hn.
    by destruct (number_of_documents _).
  - intros n w1 _. apply quiet_st_bind; [|intros; by apply quiet_collect_deleted].
    pose proof (quiet_mapper_step (mapper_delete_index uid_) w1 (quiet_delete_index _ _)) as Hi.
    destruct (on_mapper _ w1) as [[i|e|p] w2]; [done| |done]. by destruct (_ && _).
Qed.

Lemma quiet_index_creation uid_ pk t w : is_panic (process_index_creation uid_ pk t w).1 = false.
Proof.
  unfold process_index_creation. apply quiet_st_bind; [done|]. intros w1 w2 _.
  case_match; [done|]. apply quiet_st_bind; [apply quiet_mapper_step; auto with quiet|].
  intros i w3 _. apply quiet_index_update.
Qed.

(** A stored enqueued task has the details its kind asks for. *)
Lemma good_details s b : queue_ok (db s) → good_batch s b →
  Forall (λ t, details_ok (kind t) (details t)) (batch_tasks b).
Proof.
  intros Hq (_ & Hft & _). eapply Forall_impl; [exact Hft|]. intros t [Ht He].
  by apply (qok_enqueued _ Hq _ _ Ht He).
Qed.

Lemma quiet_commit h (w w' : W) : is_panic (commit h w' w).1 = false.
Proof. unfold commit. by destruct (host_commit h). Qed.

(** With an indexing engine, an index mapper and writers that return,
    processing a batch of a well-formed queue never panics: the unreachable
    code on kinds and details, and the unimplemented details of a swap, are not
    reached. *)
Theorem process_batch_never_panics `{!IndexNamesLaws M} (h : Host (M:=M)) (b : Batch) (w : W) :
  queue_ok (db (scheduler w)) → good_batch (scheduler w) b →
  is_panic (host_snapshot h w) = false → (∀ t, is_panic (host_dump h t w) = false) →
  is_panic (process_batch h b w).1 = false.
Proof.
  intros Hq Hgood Hsnap Hdump. pose proof (good_details _ _ Hq Hgood) as Hd.
  destruct Hgood as (Hok & Hft & _ & _).
  destruct b as [t sa pr|t|ts|t|op must|uid_ t|uid_ pk t|uid_ pk t|uid_ ts created|t];
    simpl in Hok, Hft, Hd |- *;
    try (apply Forall_singleton in Hft as [Ht He]); try (apply (proj1 (Forall_singleton _ _)) in Hd; cbv beta in Hd).
  - unfold process_task_cancelation. destruct (kind t) eqn:Hk; try discriminate Hok.
    destruct (cancel_matched_tasks_Ok (host_now h) (uid t) tasks sa pr _ Hq)
      as (files & d' & -> & _).
    destruct Hd as (n & m & f & ->). apply quiet_st_bind; [apply quiet_commit|done].
  - unfold process_task_deletion. destruct (kind t) eqn:Hk; try discriminate Hok.
    destruct (delete_matched_tasks_Ok (processing (processing_tasks (scheduler w))) tasks _ Hq)
      as (D & d' & -> & _).
    destruct Hd as (n & m & f & ->). apply quiet_st_bind; [apply quiet_commit|done].
  - unfold process_snapshot. by destruct (host_snapshot h w).
  - unfold process_dump. destruct (kind t) eqn:Hk; try discriminate Hok.
    specialize (Hdump t). by destruct (host_dump h t w).
  - by apply quiet_index_operation.
  - apply quiet_by_filter; [|done]. destruct Hok as [f Hf]. by exists uid_, f.
  - apply quiet_index_creation.
  - apply quiet_index_update.
  - by apply quiet_index_deletion.
  - unfold process_index_swap. destruct Hok as [swaps Hs]. rewrite Hs.
    pose proof (qok_swaps _ Hq _ _ _ Ht Hs) as Hnd.
    destruct (process_swaps_Ok (uid t) swaps (mapper w) _ Hq Hnd) as [Hall Herr].
    destruct (not_found_indexes (mapper w) swaps) as [|n l] eqn:Hnf.
    + destruct Hall as (m' & d' & -> & _); [|apply quiet_st_bind; [apply quiet_commit|done]].
      intros n Hn. destruct (resolve (mapper w) n) as [x|] eqn:Hr; [by eexists|].
      assert (n ∈ not_found_indexes (mapper w) swaps) as Hin by by apply elem_of_not_found.
      rewrite Hnf in Hin. by apply not_elem_of_nil in Hin.
    + destruct Herr as (missing & _ & _ & _ & [(x & _ & ->)|[_ ->]]); try done.
      exists n. apply elem_of_not_found. rewrite Hnf. by left.
Qed.
End quiet.

(** *** What a cancelation counts *)
Lemma length_omap_files (ts : list Task) :
  length (omap content_uuid ts) = length (List.filter (λ t, bool_decide (content_uuid t ≠ None)) ts).
Proof.
  induction ts as [|t ts IH]; [done|]. simpl. destruct (content_uuid t) eqn:Hf; simpl; [f_equal|]; exact IH.
Qed.

(** A successful cancelation cancels every enqueued task it matched, but
    the number of canceled tasks it reports is the number of those that have an
    update file, the imports of documents. *)
Theorem cancelation_counts_update_files (h : Host (M:=M)) (task task' : Task)
    (query original_filter : string) (matched : gset TaskId) (sa : OffsetDateTime)
    (pr : gset TaskId) (n c : N) (w : W) :
  queue_ok (db (scheduler w)) → kind task = TaskCancelation query matched →
  (process_task_cancelation h task sa pr w).1 = Ok [task'] →
  details task' = Some (DTaskCancelation n (Some c) original_filter) →
  ∃ canceled, NoDup (uid <$> canceled) ∧
    (∀ t, t ∈ canceled ↔
       all_tasks (db (scheduler w)) !! uid t = Some t ∧ to_cancel matched t) ∧
    c = N.of_nat (length (List.filter (λ t, bool_decide (content_uuid t ≠ None)) canceled)).
Proof.
  intros Hq Hk Hr Hd. pose proof (qok_consistent _ Hq) as Hc.
  unfold process_task_cancelation in Hr. rewrite Hk in Hr.
  destruct (cancel_matched_tasks _ _ _ _ _ _) as [[files d']|e|p] eqn:Hcan; [|done..].
  unfold cancel_matched_tasks in Hcan. set (X := get_status _ Enqueued ∩ matched) in Hcan.
  destruct (get_existing_tasks_Ok (db (scheduler w)) (sorted_ids X) Hc) as (ts & Hts & Hids & Hst).
  { intros i Hi%elem_of_sorted_ids. apply elem_of_intersection in Hi as [Hi _].
    apply get_status_spec in Hi as (t & Ht & _); [by exists t|done]. }
  rewrite Hts in Hcan. simpl in Hcan. inv_ok. exists ts. split_and!.
  - rewrite Hids. apply NoDup_sorted_ids.
  - intros t. assert (t ∈ ts ↔ all_tasks (db (scheduler w)) !! uid t = Some t ∧ uid t ∈ X) as ->.
    { rewrite <- elem_of_sorted_ids, <- Hids, list_elem_of_fmap. split; [by eauto|].
      intros [Ht (t' & Hu & Ht')]. specialize (Hst t' Ht'). rewrite <- Hu in Hst. by simplify_eq. }
    unfold X, to_cancel. rewrite elem_of_intersection, get_status_spec by done. naive_solver.
  - destruct (details task) as [[]|]; try done. apply st_bind_Ok in Hr as ([] & w1 & _ & Hr).
    apply st_bind_Ok in Hr as ([] & w2 & _ & Hr). simpl in Hr. injection Hr as <-.
    simpl in Hd. injection Hd as _ <- _. by rewrite length_omap_files.
Qed.
End queue.

Module Demo.
Import UnitJson TaskQueue.Demo Scheduler.Demo Batch.Demo QueueOps.Demo.

#[export] Instance same_case : CaseConversion := λ s, s.

(** An index is the set of its documents. *)
#[export] Instance set_engine : IndexEngine := {|
  Content := gset string;
  UpdateFile := list string;
  DocumentsBuilder := gset string;
  Filter := unit;
  Candidates := unit;
  engine_primary_key := λ _, Ok None;
  number_of_documents := λ c, Ok (N.of_nat (size c));
  clear_documents := λ c, Ok (N.of_nat (size c), ∅);
  execute_settings := λ _ _ c, Ok c;
  primary_key_cannot_be_changed := λ s, mkForeign s C_Internal;
  index_documents_new := λ _ _ c, Ok c;
  get_update := λ _, Ok ["1"];
  add_documents := λ f b, Ok (list_to_set f ∪ b, inl (N.of_nat (length f)));
  remove_documents := λ l b, Ok (b ∖ list_to_set l, inl (N.of_nat (length l)));
  index_documents_execute := λ b, Ok b;
  builder_content := λ b, b;
  delete_external_ids := λ l c, Ok (N.of_nat (length l), c ∖ list_to_set l);
  filter_from_json := λ _, Ok None;
  filter_evaluate := λ _ _, Ok tt;
  is_invalid_filter := λ _, false;
  delete_documents := λ _ c, Ok (0%N, c);
  is_aborted_indexation := λ _, false;
  is_max_database_size_reached := λ _, false
|}.

#[export] Instance set_engine_quiet : QuietEngine.
Proof. constructor; reflexivity. Qed.

#[export] Instance map_mapper : IndexMapper (gmap string (gset string)) := {|
  Handle := string;
  mapper_index := λ n m, match m !! n with
    | Some _ => (Ok n, m) | None => (Err (IndexNotFound n), m) end;
  mapper_create_index := λ n m, match m !! n with
    | Some _ => (Ok n, m) | None => (Ok n, <[n := ∅]> m) end;
  mapper_delete_index := λ n m, match m !! n with
    | Some _ => (Ok tt, delete n m) | None => (Err (IndexNotFound n), m) end;
  mapper_resize_index := λ n m, (Ok tt, m);
  mapper_content := λ n m, default ∅ (m !! n);
  mapper_write := λ n c m, <[n := c]> m;
  mapper_store_stats := λ n i m, m
|}.

#[export] Instance map_mapper_quiet : QuietMapper.
Proof. constructor; intros n m; simpl; by destruct (m !! n). Qed.

Definition world : World := mkWorld idle ({["a" := {["1"; "2"]}]} : gmap string (gset string)).
Definition host : Host (M := gmap string (gset string)) :=
  mkHost 60%Z None (λ _, Ok tt) (λ _ _, Ok "20230101").

Definition clear_a : Batch := BatchIndexOperation (ODocumentClear "a" [clear_task]) false.

Lemma clear_a_good : good_batch idle clear_a.
Proof.
  split; [exact I|]. split; [|split].
  - apply Forall_singleton. split; reflexivity.
  - apply NoDup_singleton.
  - discriminate.
Qed.

Lemma process_batch_contract_witness :
  (process_batch host clear_a world).1 =
    Ok [with_status_details Succeeded (Some (DClearAll (Some 2%N))) clear_task] ∧
  queue_ok (db (scheduler (process_batch host clear_a world).2)).
Proof.
  split; [vm_compute; reflexivity|].
  exact (kept_ok _ _ _ (proj1 (process_batch_contract host clear_a world one_task_ok clear_a_good))).
Defined.

Lemma process_batch_never_panics_witness :
  is_panic (process_batch host clear_a world).1 = false.
Proof.
  exact (process_batch_never_panics host clear_a world one_task_ok clear_a_good eq_refl
    (λ _, eq_refl)).
Defined.

Definition cancel_all : Task :=
  mkTask 1%N 40%Z None None None None (Some (DTaskCancelation 1 None "?uids=0")) Enqueued
    (TaskCancelation "?uids=0" {[0%N]}).

(** The clearing of documents is canceled, and not counted. *)
Lemma cancelation_counts_update_files_witness :
  get_status (db (scheduler (process_task_cancelation host cancel_all 0%Z ∅ world).2)) Canceled
    = {[0%N]} ∧
  ∃ canceled : list Task, length canceled = 1 ∧
    0%N = N.of_nat (length (List.filter (λ t, bool_decide (content_uuid t ≠ None)) canceled)).
Proof.
  split; [vm_compute; reflexivity|].
  destruct (cancelation_counts_update_files host cancel_all
    (with_status_details Succeeded (Some (DTaskCancelation 1 (Some 0%N) "?uids=0")) cancel_all)
    "?uids=0" "?uids=0" {[0%N]} 0%Z ∅ 1 0 world one_task_ok eq_refl) as (l & Hnd & Hl & Hn).
  - vm_compute. reflexivity.
  - reflexivity.
  - exists l. split; [|exact Hn].
    assert (Hp : l ≡ₚ [clear_task]).
    { apply NoDup_Permutation; [by eapply NoDup_fmap_1|apply NoDup_singleton|]. intros t.
      rewrite Hl, list_elem_of_singleton. split.
      - intros [Ht _]. simpl in Ht. by apply lookup_singleton_Some in Ht as [_ <-].
      - intros ->. split; [reflexivity|]. split; [reflexivity|]. by apply elem_of_singleton. }
    by rewrite Hp.
Defined.
End Demo.
