(* ===== verification/Tick.v ===== *)
(** * The run loop of the scheduler (index-scheduler/src/lib.rs)

    [tick] is cut where other threads can act: the choice of a batch and the
    marking of its tasks, its processing in a thread of its own, and the update
    of the tasks.  A step relation interleaves these parts with registrations
    and restarts; its invariants hold whatever the indexing engine, the index
    mapper, the disk and the clocks answer. *)
From S2P Require Import Prelude Settings Keys Errors Tasks TaskQueue Scheduler Batch QueueOps Process.

Section tick.
Context {J : JsonValue} {CC : CaseConversion} {EN : IndexEngine} {M : Type} {IM : IndexMapper M}.
Abbreviation W := (World (M:=M)).

(** ** What the environment decides during a tick *)
Record TickEnv := mkTickEnv {
  te_register : RegisterEnv;
  te_format : OffsetDateTime → option string;
  te_max_number_of_tasks : N;
  te_autobatching : bool;
  te_host : Host (M:=M);
  te_started_at : OffsetDateTime;
  te_finished_at : OffsetDateTime;
  te_write_txn : option Foreign;
  te_commit : option Foreign
}.

Inductive TickOutcome : Type :=
| TickAgain (n : N)
| WaitForSignal.

Definition with_scheduler (s : IndexScheduler) (w : W) : W := mkWorld s (mapper w).

(** A step of the scheduler alone. *)
Definition on_scheduler {A} (step : ST IndexScheduler Error A) : ST W Error A := λ w,
  let '(r, s) := step (scheduler w) in (r, with_scheduler s w).

(** What [create_next_batch] asks the index mapper. *)
Definition mapper_view (m : M) : IndexView := {|
  view_exists := index_exists m;
  view_primary_key index_name :=
    let '(r, m) := mapper_index index_name m in
    index ← r; engine_primary_key (mapper_content index m)
|}.

(** ** The three parts of a tick *)

(** [RoaringBitmap::from_sorted_iter(..).unwrap()]. *)
Definition from_sorted (l : list TaskId) : outcome Error (gset TaskId) :=
  if decide (NoDup l) then Ok (list_to_set l)
  else Panic "called `Result::unwrap()` on an `Err` value: NonSortedIntegers".

Definition mark_processing (b : Batch) (started_at : OffsetDateTime) : ST W Error unit :=
  processing_tasks ← st_lift (from_sorted (merge_sort N.le (ids b)));
  _ ← st_modify (λ w, with_scheduler (with_must_stop false (scheduler w)) w);
  st_modify (λ w, with_scheduler
    (with_processing (start_processing_at started_at processing_tasks) (scheduler w)) w).

(** From the start of a tick to the processing of its batch. *)
Definition tick_start (e : TickEnv) : ST W Error (option Batch) :=
  _ ← on_scheduler (cleanup_task_queue (te_format e) (te_max_number_of_tasks e) (te_register e));
  w ← st_get;
  batch ← st_lift (map_err CreateBatch
            (create_next_batch (mapper_view (mapper w)) (te_autobatching e) (scheduler w)));
  match batch with
  | None => mret None
  | Some batch => _ ← mark_processing batch (te_started_at e); mret (Some batch)
  end.

(** The thread of the batch: a panic is an error. *)
Definition tick_process (h : Host (M:=M)) (b : Batch) (w : W) : (list Task + Error) * W :=
  match process_batch h b w with
  | (Ok tasks, w) => (inl tasks, w)
  | (Err e, w) => (inr e, w)
  | (Panic _, w) => (inr ProcessBatchPanicked, w)
  end.

(** *** The loops on the tasks of the batch

    They write in a transaction, the database of the pair, and delete files at
    once, in the scheduler of the pair. *)
Definition dated_task (started_at finished_at : OffsetDateTime) (t : Task) : Task :=
  mkTask (uid t) (enqueued_at t) (Some started_at) (Some finished_at) (error t) (canceled_by t)
    (details t) (status t) (kind t).

Definition failed_task (started_at finished_at : OffsetDateTime) (err : ResponseError) (t : Task)
    : Task :=
  mkTask (uid t) (enqueued_at t) (Some started_at) (Some finished_at) (Some err) (canceled_by t)
    (to_failed <$> details t) Failed (kind t).

Definition update_row (t : Task) : ST (TaskDb * IndexScheduler) Error unit := λ acc,
  match map_err TaskDatabaseUpdate (update_task t acc.1) with
  | Ok d => (Ok tt, (d, acc.2))
  | Err e => (Err e, acc)
  | Panic p => (Panic p, acc)
  end.

Definition drop_files (t : Task) : ST (TaskDb * IndexScheduler) Error unit :=
  st_modify (λ acc, (acc.1, delete_persisted_task_data t acc.2)).

Definition finish_succeeded (started_at finished_at : OffsetDateTime) (task : Task)
    : ST (TaskDb * IndexScheduler) Error unit :=
  let task := dated_task started_at finished_at task in
  _ ← update_row task; drop_files task.

Definition finish_failed (started_at finished_at : OffsetDateTime) (err : ResponseError)
    (id : TaskId) : ST (TaskDb * IndexScheduler) Error unit :=
  acc ← st_get;
  task ← st_lift (get_task_or_corrupted acc.1 id);
  let task := failed_task started_at finished_at err task in
  _ ← drop_files task; update_row task.

Fixpoint for_each {S A} (f : A → ST S Error unit) (l : list A) : ST S Error unit :=
  match l with
  | [] => mret tt
  | x :: l => _ ← f x; for_each f l
  end.

Definition finish_tasks (started_at finished_at : OffsetDateTime) (b : Batch)
    (res : list Task + Error) : ST (TaskDb * IndexScheduler) Error unit :=
  match res with
  | inl tasks => for_each (finish_succeeded started_at finished_at) tasks
  | inr err =>
      for_each (finish_failed started_at finished_at (response_error_of err))
        (merge_sort N.le (ids b))
  end.

(** Results that put the tasks back without touching them. *)
Inductive Verdict : Type :=
| Aborted
| Full (index_uid : string)
| Finished.

Definition verdict (b : Batch) (res : list Task + Error) : Verdict :=
  match res with
  | inr (Milli e) =>
      if is_aborted_indexation e then Aborted
      else if is_max_database_size_reached e then
        match batch_index_uid b with Some index_uid => Full index_uid | None => Finished end
      else Finished
  | _ => Finished
  end.

Definition tick_end (e : TickEnv) (b : Batch) (started_at : OffsetDateTime)
    (res : list Task + Error) : ST W Error TickOutcome := λ w,
  match te_write_txn e with
  | Some err => (Err (HeedTransaction err), w)
  | None =>
      match verdict b res with
      | Aborted => (Ok (TickAgain 0), w)
      | Full index_uid =>
          (_ ← on_mapper (mapper_resize_index index_uid); mret (TickAgain 0)) w
      | Finished =>
          let s := scheduler w in
          match finish_tasks started_at (te_finished_at e) b res (db s, s) with
          | (Ok _, (d, s)) =>
              let s := with_processing (stop_processing (processing_tasks s)) s in
              match te_commit e with
              | Some err => (Err (HeedTransaction err), with_scheduler s w)
              | None =>
                  (Ok (TickAgain (N.of_nat (length (ids b)))), with_scheduler (with_db d s) w)
              end
          | (Err err, (_, s)) => (Err err, with_scheduler s w)
          | (Panic p, (_, s)) => (Panic p, with_scheduler s w)
          end
      end
  end.

(** A tick that no other thread interrupts. *)
Definition tick (e : TickEnv) (w : W) : outcome Error TickOutcome * W :=
  match tick_start e w with
  | (Ok None, w) => (Ok WaitForSignal, w)
  | (Ok (Some batch), w) =>
      let '(res, w) := tick_process (te_host e) batch w in
      tick_end e batch (te_started_at e) res w
  | (Err err, w) => (Err err, w)
  | (Panic p, w) => (Panic p, w)
  end.

(** ** The run loop and the other threads *)

(** Where the thread of the scheduler is. *)
Inductive Phase : Type :=
| Waiting
| Running
| Working (b : Batch) (started_at : OffsetDateTime)
| Processed (b : Batch) (started_at : OffsetDateTime) (res : list Task + Error)
| Stopped (msg : string).

(** [run]: the loop goes on after an error, and a panic ends it. *)
Definition after_start (started_at : OffsetDateTime) (r : outcome Error (option Batch)) : Phase :=
  match r with
  | Ok (Some b) => Working b started_at
  | Ok None => Waiting
  | Err _ => Running
  | Panic p => Stopped p
  end.

Definition after_end (r : outcome Error TickOutcome) : Phase :=
  match r with
  | Ok WaitForSignal => Waiting
  | Ok (TickAgain _) | Err _ => Running
  | Panic p => Stopped p
  end.

(** [SignalEvent::wait] of an automatic event takes the signal back. *)
Definition wait (s : IndexScheduler) : IndexScheduler :=
  mkScheduler (db s) (processing_tasks s) (must_stop_processing s) (file_store s) false.

(** What [IndexScheduler::new] makes of the databases and the files on disk. *)
Definition boot (now : OffsetDateTime) (d : TaskDb) (files : gset Uuid) : IndexScheduler :=
  mkScheduler d (mkProcessing now ∅) false files true.

(** A registration, an access to the index mapper and a restart come at any
    time between the parts of a tick. *)
Inductive step : W * Phase → W * Phase → Prop :=
| step_register env k w ph :
    step (w, ph) ((on_scheduler (register env k) w).2, ph)
| step_mapper m w ph :
    step (w, ph) (mkWorld (scheduler w) m, ph)
| step_restart now m w ph :
    step (w, ph) (mkWorld (boot now (db (scheduler w)) (file_store (scheduler w))) m, Waiting)
| step_wake w :
    wake_up (scheduler w) = true → step (w, Waiting) (with_scheduler (wait (scheduler w)) w, Running)
| step_start e w r w' :
    tick_start e w = (r, w') → step (w, Running) (w', after_start (te_started_at e) r)
| step_process h b at_ w res w' :
    tick_process h b w = (res, w') → step (w, Working b at_) (w', Processed b at_ res)
| step_end e b at_ res w r w' :
    tick_end e b at_ res w = (r, w') → step (w, Processed b at_ res) (w', after_end r).

(** ** The loops *)
Definition dropped (s : IndexScheduler) (rows : list Task) : IndexScheduler :=
  foldl (λ s t, delete_persisted_task_data t s) s rows.

Lemma dropped_same rows s :
  db (dropped s rows) = db s ∧ processing_tasks (dropped s rows) = processing_tasks s ∧
  must_stop_processing (dropped s rows) = must_stop_processing s ∧
  wake_up (dropped s rows) = wake_up s ∧
  ∀ f, f ∈ file_store (dropped s rows) ↔ f ∈ file_store s ∧ Some f ∉ content_uuid <$> rows.
Proof.
  revert s. induction rows as [|t rows IH]; intros s; simpl.
  { split_and!; try done. intros f. split; [|tauto]. intros Hf. split; [done|]. by intros ?%not_elem_of_nil. }
  destruct (IH (delete_persisted_task_data t s)) as (-> & -> & -> & -> & Hf).
  unfold delete_persisted_task_data in *. destruct (content_uuid t) as [u|]; simpl in *;
    split_and!; try done; intros f; rewrite Hf, not_elem_of_cons; [|naive_solver].
  unfold delete_update_file. simpl. rewrite elem_of_difference, elem_of_singleton. naive_solver.
Qed.

(** A loop whose turn on [x] puts the row of [x] and drops its files. *)
Lemma for_each_rows {A} (f : A → ST (TaskDb * IndexScheduler) Error unit) (l : list (A * Task)) d s :
  consistent d → NoDup (uid <$> l.*2) →
  (∀ x t, (x, t) ∈ l → ∃ told, all_tasks d !! uid t = Some told ∧ same_identity told t ∧
     ∀ d1 s1 d2, all_tasks d1 !! uid t = Some told → update_task t d1 = Ok d2 →
       f x (d1, s1) = (Ok tt, (d2, delete_persisted_task_data t s1))) →
  ∃ d', for_each f l.*1 (d, s) = (Ok tt, (d', dropped s l.*2)) ∧ consistent d' ∧
    (∀ t, t ∈ l.*2 → all_tasks d' !! uid t = Some t) ∧
    (∀ i, i ∉ uid <$> l.*2 → all_tasks d' !! i = all_tasks d !! i).
Proof.
  revert d s. induction l as [|[x t] l IH]; intros d s Hc Hnd Hl.
  { exists d. split_and!; try done. by intros t ?%not_elem_of_nil. }
  rewrite !fmap_cons in Hnd. rewrite !fmap_cons. cbn [fst snd for_each dropped foldl] in *.
  apply NoDup_cons in Hnd as [Hnt Hnd].
  destruct (Hl x t) as (told & Ht & Hid & Hf); [by left|].
  destruct (update_task_spec d told t Hc Ht Hid) as (d1 & Hu & Hc1 & Ha1 & _).
  unfold mbind, st_bind. rewrite (Hf d s d1 Ht Hu).
  destruct (IH d1 (delete_persisted_task_data t s) Hc1 Hnd) as (d' & -> & Hc' & Hin & Hout).
  { intros x' t' Hx. destruct (Hl x' t') as (told' & Ht' & Hid' & Hf'); [by right|].
    exists told'. split_and!; try done. rewrite Ha1, lookup_insert_ne; [done|].
    intros Heq. apply Hnt. rewrite Heq. apply list_elem_of_fmap. exists t'. split; [done|].
    apply list_elem_of_fmap. by exists (x', t'). }
  exists d'. split; [done|]. split; [done|]. split.
  - intros t' [->|Ht']%elem_of_cons; [|by apply Hin]. by rewrite Hout, Ha1, lookup_insert_eq.
  - intros i [Hne Hi]%not_elem_of_cons. by rewrite Hout, Ha1, lookup_insert_ne.
Qed.

(** ** The end of a tick *)

(** The rows that the tasks of a batch get. *)
Definition finished_rows (started_at finished_at : OffsetDateTime) (b : Batch)
    (res : list Task + Error) : list Task :=
  match res with
  | inl tasks => dated_task started_at finished_at <$> tasks
  | inr err => failed_task started_at finished_at (response_error_of err) <$> batch_tasks b
  end.

(** The processing gives back each task of the batch once. *)
Definition result_ok (b : Batch) (res : list Task + Error) : Prop :=
  ∀ tasks, res = inl tasks → ∃ ts, ts ≡ₚ batch_tasks b ∧ Forall2 processed ts tasks.

Lemma finished_rows_from (sa fa : OffsetDateTime) b res :
  result_ok b res →
  uid <$> finished_rows sa fa b res ≡ₚ ids b ∧
  ∀ t', t' ∈ finished_rows sa fa b res → ∃ t, t ∈ batch_tasks b ∧ uid t' = uid t ∧
    kind t' = kind t ∧ enqueued_at t' = enqueued_at t ∧ started_at t' = Some sa ∧
    finished_at t' = Some fa ∧ (status t' = Succeeded ∨ (status t' = Failed ∧ error t' ≠ None)).
Proof.
  intros Hres. destruct res as [tasks|err]; simpl.
  - destruct (Hres tasks eq_refl) as (ts & Hp & Hf). split.
    + unfold ids. rewrite <- Hp.
      assert (uid <$> (dated_task sa fa <$> tasks) = uid <$> ts) as ->; [|done].
      clear Hp Hres. induction Hf as [|t t' ts tasks Ht Hf IH]; [done|].
      rewrite !fmap_cons, IH. simpl. by destruct Ht as (-> & _).
    + intros t' (t1 & -> & Ht1)%list_elem_of_fmap.
      apply list_elem_of_lookup in Ht1 as [k Hk].
      destruct (Forall2_lookup_r _ _ _ _ _ Hf Hk) as (t & Ht & H1 & H2 & H3 & _ & _ & _ & H).
      exists t. rewrite <- Hp. simpl. split; [by eapply list_elem_of_lookup_2|].
      split_and!; try done. destruct H as [[? _]|?]; [by left|by right].
  - split; [by rewrite <- list_fmap_compose|]. intros t' (t & -> & Ht)%list_elem_of_fmap.
    exists t. simpl. split_and!; try done. by right.
Qed.

(** A row of a batch may be replaced by what the end of a tick makes of it. *)
Lemma finished_same_identity (t t' : Task) :
  started_at t = None → finished_at t = None → kind t' = kind t → enqueued_at t' = enqueued_at t →
  same_identity t t'.
Proof.
  intros Hs Hf Hk He. unfold same_identity, Tasks.indexes. rewrite Hk. split_and!; try done; by left.
Qed.

Section finish.
Context (sa fa : OffsetDateTime) (b : Batch) (s : IndexScheduler).
Hypothesis (Hq : queue_ok (db s)).
Hypothesis (Hgood : good_batch s b).

Let Hc : consistent (db s) := qok_consistent _ Hq.

Lemma batch_row t : t ∈ batch_tasks b →
  stored (db s) t ∧ status t = Enqueued ∧ started_at t = None ∧ finished_at t = None ∧
  task_ok (uid t) t.
Proof.
  intros Ht. destruct Hgood as (_ & Hft & _). unfold from_table in Hft.
  rewrite Forall_forall in Hft. destruct (Hft t Ht) as [Hst He].
  destruct (qok_enqueued _ Hq _ _ Hst He) as (? & ? & _). split_and!; try done.
  destruct (proj1 (queue_ok_iff _) Hq) as [_ Hrow]. by apply Hrow.
Qed.

Lemma fmap_pairs {A B C} (h : A → B) (g : A → C) (l : list A) :
  ((λ x, (h x, g x)) <$> l).*1 = h <$> l ∧ ((λ x, (h x, g x)) <$> l).*2 = g <$> l.
Proof. by rewrite <- !list_fmap_compose. Qed.

(** The two loops, as one on rows. *)
Lemma finish_loop res : result_ok b res →
  ∃ rows d', rows ≡ₚ finished_rows sa fa b res ∧
    finish_tasks sa fa b res (db s, s) = (Ok tt, (d', dropped s rows)) ∧ consistent d' ∧
    (∀ t, t ∈ rows → all_tasks d' !! uid t = Some t) ∧
    (∀ i, i ∉ uid <$> rows → all_tasks d' !! i = all_tasks (db s) !! i).
Proof.
  intros Hres. destruct (finished_rows_from sa fa b res Hres) as [Hids Hrows].
  destruct Hgood as (_ & _ & Hnd & _). rewrite <- Hids in Hnd. destruct res as [tasks|err].
  - destruct (fmap_pairs id (dated_task sa fa) tasks) as [Hl1 Hl2]. rewrite list_fmap_id in Hl1.
    destruct (for_each_rows (finish_succeeded sa fa)
      ((λ t, (id t, dated_task sa fa t)) <$> tasks) (db s) s Hc) as (d' & Hf & H);
      rewrite ?Hl1, ?Hl2 in *.
    + exact Hnd.
    + intros x t (t1 & [= -> ->] & Ht1)%list_elem_of_fmap.
      destruct (Hrows (dated_task sa fa t1)) as (t0 & Ht0 & Hu & Hk & He & _).
      { apply list_elem_of_fmap. by exists t1. }
      destruct (batch_row t0 Ht0) as (Hst & _ & Hs & Hfi & _). exists t0. rewrite Hu.
      split; [exact Hst|]. split; [by apply finished_same_identity|].
      intros d1 s1 d2 _ Hup. unfold finish_succeeded, mbind, st_bind, update_row. simpl.
      by rewrite Hup.
    + by exists (dated_task sa fa <$> tasks), d'.
  - assert (merge_sort N.le (ids b) ≡ₚ uid <$> batch_tasks b) as Hs by apply merge_sort_Permutation.
    apply Permutation_map_inv in Hs as (ts & Hs & Hp).
    set (g := failed_task sa fa (response_error_of err)). destruct (fmap_pairs uid g ts) as [Hl1 Hl2].
    destruct (for_each_rows (finish_failed sa fa (response_error_of err))
      ((λ t, (uid t, g t)) <$> ts) (db s) s Hc) as (d' & Hf & H); rewrite ?Hl1, ?Hl2 in *.
    + simpl in Hnd. fold g in Hnd. by rewrite Hp in Hnd.
    + intros x t (t1 & [= -> ->] & Ht1)%list_elem_of_fmap. rewrite <- Hp in Ht1.
      destruct (batch_row t1 Ht1) as (Hst & _ & Hs1 & Hfi & _). exists t1.
      split; [exact Hst|]. split; [by apply finished_same_identity|].
      intros d1 s1 d2 Hrow Hup. unfold finish_failed, mbind, st_bind, st_get, st_lift.
      unfold get_task_or_corrupted, get_task. simpl in Hrow |- *. rewrite Hrow. simpl.
      unfold update_row. simpl. fold g. by rewrite Hup.
    + exists (g <$> ts), d'. split; [simpl; by rewrite Hp|]. split; [|done].
      simpl. rewrite Hs. exact Hf.
Qed.

Lemma finish_tasks_Ok res : result_ok b res →
  ∃ rows d', rows ≡ₚ finished_rows sa fa b res ∧
    finish_tasks sa fa b res (db s, s) = (Ok tt, (d', dropped s rows)) ∧ queue_ok d' ∧
    (∀ t, t ∈ rows → all_tasks d' !! uid t = Some t) ∧
    (∀ i, i ∉ ids b → all_tasks d' !! i = all_tasks (db s) !! i).
Proof.
  intros Hres. destruct (finished_rows_from sa fa b res Hres) as [Hids Hfrom].
  destruct (finish_loop res Hres) as (rows & d' & Hp & Hf & Hc' & Hin & Hout).
  assert (∀ i, i ∈ uid <$> rows ↔ i ∈ ids b) as Hrows by (intros i; by rewrite Hp, Hids).
  setoid_rewrite Hrows in Hout. exists rows, d'. split_and!; try done.
  apply queue_ok_iff. split; [done|]. intros i t Hi.
  destruct (decide (i ∈ ids b)) as [Hib|Hib].
  - apply Hrows, list_elem_of_fmap in Hib as (t1 & -> & Ht1). rewrite (Hin t1 Ht1) in Hi.
    injection Hi as <-. rewrite Hp in Ht1.
    destruct (Hfrom t1 Ht1) as (t0 & Ht0 & Hu & Hk & _ & _ & _ & Hst). rewrite Hu.
    destruct (batch_row t0 Ht0) as (_ & _ & _ & _ & Hok).
    apply (task_ok_finished _ t0); [done|done|..]; destruct Hst as [->|[-> _]]; done.
  - rewrite Hout in Hi by done. destruct (proj1 (queue_ok_iff _) Hq) as [_ Hrow]. by apply Hrow.
Qed.
End finish.

(** ** Registrations *)

(** A queue that only gained tasks, under new ids; the run loop is woken up. *)
Record gained (s s' : IndexScheduler) : Prop := {
  gained_ok : queue_ok (db s');
  gained_rows i t : all_tasks (db s) !! i = Some t → all_tasks (db s') !! i = Some t;
  gained_new i t : all_tasks (db s') !! i = Some t →
    all_tasks (db s) !! i = Some t ∨ ∀ j, j ∈ dom (all_tasks (db s)) → (j < i)%N;
  gained_processing : processing_tasks s' = processing_tasks s;
  gained_wake_up : wake_up s' = true ∨ (db s' = db s ∧ wake_up s' = wake_up s)
}.

Lemma gained_same s s' :
  queue_ok (db s) → db s' = db s → processing_tasks s' = processing_tasks s →
  wake_up s' = wake_up s → gained s s'.
Proof. intros Hq Hd Hp Hw. constructor; rewrite ?Hd; auto. Qed.

Lemma registered_gained env k s t s' : queue_ok (db s) → registered env k s t s' → gained s s'.
Proof.
  intros Hq Hr. pose proof (registered_queue_ok _ _ _ _ _ Hr Hq) as Hq'.
  destruct Hr as (_ & Hfresh & _ & Ha & _ & _ & _ & Hp & _ & Hw & _).
  constructor; try done; [..|by left]; intros i t0; rewrite Ha.
  - intros Ht0. rewrite lookup_insert_ne; [done|]. intros <-.
    assert (uid t < uid t)%N; [|lia]. apply Hfresh, elem_of_dom. by exists t0.
  - intros [[<- <-]|[_ Ht0]]%lookup_insert_Some; [by right|by left].
Qed.

Lemma register_gained env k s : queue_ok (db s) → gained s (register env k s).2.
Proof.
  intros Hq. destruct (register_outcome env k s (qok_consistent _ Hq)) as [Hr _].
  destruct (register env k s) as [[t|e|p] s']; [|by apply gained_same; naive_solver|done].
  destruct Hr as (_ & _ & Hr). by eapply registered_gained.
Qed.

Lemma cleanup_gained format max env s :
  queue_ok (db s) → gained s (cleanup_task_queue format max env s).2.
Proof.
  intros Hq. destruct (cleanup_task_queue_outcome format max env s (qok_consistent _ Hq)) as [Hr _].
  destruct (cleanup_task_queue format max env s) as [[t|e|p] s']; simpl in *; [| |done].
  - destruct Hr as [->|(_ & t0 & q & fin & del & _ & _ & _ & _ & _ & Hr & _)];
      [by apply gained_same|by eapply registered_gained].
  - by apply gained_same; naive_solver.
Qed.

Lemma good_batch_mono s s' b :
  (∀ t, t ∈ batch_tasks b → stored (db s) t → stored (db s') t) → good_batch s b → good_batch s' b.
Proof.
  intros Hst (Hok & Hft & Hnd & Hne). split_and!; try done. unfold from_table in *.
  rewrite Forall_forall in Hft |- *. intros t Ht. destruct (Hft t Ht). split; [by apply Hst|done].
Qed.

(** ** The start of a tick *)
Definition marked (b : Batch) (started_at : OffsetDateTime) (s : IndexScheduler) : Prop :=
  processing_tasks s = mkProcessing started_at (list_to_set (ids b)).

Lemma mark_processing_Ok b at_ w :
  NoDup (ids b) →
  mark_processing b at_ w = (Ok tt, with_scheduler
    (with_processing (mkProcessing at_ (list_to_set (ids b)))
       (with_must_stop false (scheduler w))) w).
Proof.
  intros Hnd. unfold mark_processing, from_sorted, mbind, st_bind, st_lift.
  assert (merge_sort N.le (ids b) ≡ₚ ids b) as Hp by apply merge_sort_Permutation.
  rewrite decide_True by by rewrite Hp.
  unfold st_modify, start_processing_at, with_scheduler. simpl. do 4 f_equal.
  by apply list_to_set_perm_L.
Qed.

Lemma tick_start_spec e w :
  queue_ok (db (scheduler w)) →
  let '(r, w') := tick_start e w in
  mapper w' = mapper w ∧
  ∃ s1, gained (scheduler w) s1 ∧ db (scheduler w') = db s1 ∧
    wake_up (scheduler w') = wake_up s1 ∧
    match r with
    | Ok (Some b) =>
        good_batch (scheduler w') b ∧ chosen s1 (te_autobatching e) b ∧
        marked b (te_started_at e) (scheduler w') ∧ must_stop_processing (scheduler w') = false
    | Ok None => scheduler w' = s1 ∧ get_status (db s1) Enqueued = ∅
    | Err _ => scheduler w' = s1
    | Panic p => scheduler w' = s1 ∧
        ∃ n, view_primary_key (mapper_view (mapper w)) n = Panic p
    end.
Proof.
  intros Hq. unfold tick_start, on_scheduler, mbind, st_bind.
  pose proof (cleanup_gained (te_format e) (te_max_number_of_tasks e) (te_register e) _ Hq) as Hg.
  pose proof (proj1 (cleanup_task_queue_outcome (te_format e) (te_max_number_of_tasks e)
    (te_register e) _ (qok_consistent _ Hq))) as Hp.
  destruct (cleanup_task_queue _ _ _ _) as [[u|err|p] s1]; simpl in *;
    [|(split; [done|]; by exists s1)|done]. clear Hp.
  unfold st_get, st_lift. simpl.
  pose proof (next_batch_Ok (mapper_view (mapper w)) (te_autobatching e) s1 _
    (gained_ok _ _ Hg) eq_refl) as Hn.
  destruct (create_next_batch _ _ s1) as [[b|]|err|p]; simpl;
    [|split; [done|]; by exists s1..|].
  2:{ split; [done|]. exists s1. split_and!; try done.
      destruct Hn as (n & [(? & _ & ?)|(p' & Hp & [= ->])]); [done|]. by exists n. }
  destruct Hn as [Hgood Hch]. rewrite mark_processing_Ok; [|apply Hgood]. simpl.
  split; [done|]. exists s1. split_and!; try done.
Qed.

(** ** The end of a tick *)

(** The answers of the index mapper that end the run loop when they panic. *)
Class QuietLoop : Prop := {
  quiet_view m n : is_panic (view_primary_key (mapper_view m) n) = false;
  quiet_resize n m : is_panic (mapper_resize_index (M:=M) n m).1 = false
}.

Lemma tick_end_spec e b at_ res w :
  queue_ok (db (scheduler w)) → good_batch (scheduler w) b → result_ok b res →
  let '(r, w') := tick_end e b at_ res w in
  match r with
  | Panic p => ∃ n, (mapper_resize_index n (mapper w)).1 = Panic p
  | Ok WaitForSignal => False
  | _ => True
  end ∧ wake_up (scheduler w') = wake_up (scheduler w) ∧
  (scheduler w' = scheduler w ∨
   ∃ rows, rows ≡ₚ finished_rows at_ (te_finished_at e) b res ∧ mapper w' = mapper w ∧
     processing_tasks (scheduler w') = stop_processing (processing_tasks (scheduler w)) ∧
     file_store (scheduler w') = file_store (dropped (scheduler w) rows) ∧
     ((∃ err, te_commit e = Some err ∧ r = Err (HeedTransaction err) ∧
         db (scheduler w') = db (scheduler w)) ∨
      (te_commit e = None ∧ r = Ok (TickAgain (N.of_nat (length (ids b)))) ∧
         queue_ok (db (scheduler w')) ∧
         (∀ t, t ∈ rows → all_tasks (db (scheduler w')) !! uid t = Some t) ∧
         (∀ i, i ∉ ids b → all_tasks (db (scheduler w')) !! i = all_tasks (db (scheduler w)) !! i)))).
Proof.
  intros Hq Hgood Hres. unfold tick_end. destruct (te_write_txn e); [by auto|].
  destruct (verdict b res) as [|n|] eqn:Hv; [by auto|..].
  { unfold mbind, st_bind, on_mapper.
    destruct (mapper_resize_index n (mapper w)) as [[h|err|p] m] eqn:Hr; simpl;
      split_and!; auto. exists n. by rewrite Hr. }
  destruct (finish_tasks_Ok at_ (te_finished_at e) b (scheduler w) Hq Hgood res Hres)
    as (rows & d' & Hp & -> & Hq' & Hin & Hout).
  destruct (dropped_same rows (scheduler w)) as (Hd & Hpr & _ & Hw & _).
  destruct (te_commit e) as [err|] eqn:He; simpl; (split_and!; [done|done|]); right;
    exists rows; rewrite Hpr; split_and!; try done; [left; by exists err|right].
  split_and!; done.
Qed.

(** ** Invariants of the loop *)
Definition phase_ok (s : IndexScheduler) (ph : Phase) : Prop :=
  match ph with
  | Waiting => processing (processing_tasks s) = ∅ ∧
      (get_status (db s) Enqueued ≠ ∅ → wake_up s = true)
  | Running => True
  | Working b at_ => good_batch s b ∧ marked b at_ s
  | Processed b at_ res => good_batch s b ∧ marked b at_ s ∧ result_ok b res
  | Stopped _ => False
  end.

Record loop_ok (c : W * Phase) : Prop := {
  loop_queue : queue_ok (db (scheduler c.1));
  loop_processing :
    processing (processing_tasks (scheduler c.1)) ⊆ get_status (db (scheduler c.1)) Enqueued;
  loop_phase : phase_ok (scheduler c.1) c.2
}.

Lemma enqueued_gained s s' : queue_ok (db s) → gained s s' →
  get_status (db s) Enqueued ⊆ get_status (db s') Enqueued.
Proof.
  intros Hq [Hq' Hr _ _ _] i (t & Ht & He)%get_status_spec; [|apply Hq].
  apply get_status_spec; [apply Hq'|]. exists t. auto.
Qed.

Lemma phase_gained s s' ph : queue_ok (db s) → gained s s' → phase_ok s ph → phase_ok s' ph.
Proof.
  intros Hq Hg. destruct Hg as [Hq' Hr Hn Hp Hw]. unfold phase_ok, marked. rewrite Hp.
  assert (∀ b, good_batch s b → good_batch s' b) as Hgood.
  { intros b. apply good_batch_mono. intros t _. apply Hr. }
  destruct ph as [| |b at_|b at_ res|p]; try done.
  - intros [? Hwait]. split; [done|]. destruct Hw as [|[-> ->]]; [done|exact Hwait].
  - intros [??]. split; [by apply Hgood|done].
  - intros (?&?&?). split; [by apply Hgood|done].
Qed.

Lemma loop_gained s m m' ph s' : gained s s' →
  loop_ok (mkWorld s m, ph) → loop_ok (mkWorld s' m', ph).
Proof.
  intros Hg [Hq Hp Hph]. simpl in *. constructor; simpl.
  - apply Hg.
  - rewrite (gained_processing _ _ Hg). etrans; [exact Hp|]. by apply enqueued_gained.
  - by eapply phase_gained.
Qed.

Lemma marked_enqueued s b at_ : queue_ok (db s) → good_batch s b → marked b at_ s →
  processing (processing_tasks s) ⊆ get_status (db s) Enqueued.
Proof.
  intros Hq (_ & Hft & _) Hm i. unfold marked in Hm. rewrite Hm. simpl.
  rewrite elem_of_list_to_set. intros (t & -> & Ht)%list_elem_of_fmap.
  unfold from_table in Hft. rewrite Forall_forall in Hft. destruct (Hft t Ht) as [Hst He].
  apply get_status_spec; [apply Hq|]. by exists t.
Qed.

Lemma process_loop_ok `{!IndexNamesLaws M} h b at_ w res w' :
  tick_process h b w = (res, w') → loop_ok (w, Working b at_) → loop_ok (w', Processed b at_ res).
Proof.
  intros Hs [Hq Hp [Hgood Hm]]. simpl in *.
  destruct (process_batch_outcome h b w Hq Hgood) as [Hk Hok]. unfold tick_process in Hs.
  assert (w' = (process_batch h b w).2 ∧ result_ok b res) as [-> Hres].
  { destruct (process_batch h b w) as [[tasks|e|p] w1]; simplify_eq/=; split; try done.
    intros tasks' [= <-]. by apply Hok. }
  destruct Hk as [Hq' Hrows Htab Hpr _ _].
  assert (good_batch (scheduler (process_batch h b w).2) b) as Hgood'.
  { eapply good_batch_mono; [|exact Hgood]. intros t Ht _. by apply Hrows. }
  assert (marked b at_ (scheduler (process_batch h b w).2)) as Hm' by by unfold marked; rewrite Hpr.
  constructor; [done| |done]. by eapply marked_enqueued.
Qed.

Lemma end_loop_ok `{!QuietLoop} e b at_ res w r w' :
  tick_end e b at_ res w = (r, w') → loop_ok (w, Processed b at_ res) → loop_ok (w', after_end r).
Proof.
  intros Hs [Hq Hp (Hgood & Hm & Hres)]. simpl in *.
  pose proof (tick_end_spec e b at_ res w Hq Hgood Hres) as Hend. rewrite Hs in Hend.
  destruct Hend as (Hpanic & Hw & Hend).
  assert (phase_ok (scheduler w') (after_end r)) as Hph.
  { destruct r as [[n|]|err|p]; simpl; try done.
    destruct Hpanic as (n & Hn). pose proof (quiet_resize n (mapper w)) as Hquiet.
    by rewrite Hn in Hquiet. }
  destruct Hend as [Hsame|(rows & _ & _ & Hpr & _ & Hdb)]; constructor; simpl;
    try exact Hph; rewrite ?Hsame; try done.
  - by destruct Hdb as [(? & _ & _ & ->)|(_ & _ & ? & _)].
  - rewrite Hpr. apply empty_subseteq.
Qed.

Lemma start_loop_ok `{!QuietLoop} e w r w' :
  tick_start e w = (r, w') → loop_ok (w, Running) → loop_ok (w', after_start (te_started_at e) r).
Proof.
  intros Hs [Hq Hp _]. simpl in *. pose proof (tick_start_spec e w Hq) as Hst. rewrite Hs in Hst.
  destruct Hst as (_ & s1 & Hg & Hdb & _ & Hr).
  assert (queue_ok (db (scheduler w'))) as Hq' by by rewrite Hdb; apply Hg.
  assert (processing (processing_tasks s1) ⊆ get_status (db s1) Enqueued) as Hp1.
  { rewrite (gained_processing _ _ Hg). etrans; [exact Hp|]. by apply enqueued_gained. }
  destruct r as [[b|]|err|p]; simpl.
  - destruct Hr as (Hgood & _ & Hm & _). constructor; try done. by eapply marked_enqueued.
  - destruct Hr as [Hr He]. rewrite <- Hr in Hp1, He. constructor; try done. simpl.
    rewrite He in Hp1 |- *. split; [set_solver|done].
  - rewrite <- Hr in Hp1. by constructor.
  - destruct Hr as (_ & n & Hn). pose proof (quiet_view (mapper w) n) as Hquiet.
    by rewrite Hn in Hquiet.
Qed.

Lemma step_loop_ok `{!IndexNamesLaws M, !QuietLoop} c c' : step c c' → loop_ok c → loop_ok c'.
Proof.
  intros Hs Hok. destruct Hs as [env k w ph|m w ph|now m w ph|w Hw|e w r w' Hs|h b at_ w res w' Hs
    |e b at_ res w r w' Hs].
  - unfold on_scheduler. pose proof (register_gained env k _ (loop_queue _ Hok)) as Hg. simpl in Hg.
    destruct w as [s m]. simpl in *. destruct (register env k s) as [r s']. by eapply loop_gained.
  - destruct w as [s m0]. eapply (loop_gained s); [|exact Hok].
    apply gained_same; [apply (loop_queue _ Hok)|done..].
  - constructor; simpl; [apply (loop_queue _ Hok)|apply empty_subseteq|done].
  - destruct Hok as [Hq Hp Hph]. by constructor.
  - by eapply start_loop_ok.
  - by eapply process_loop_ok.
  - by eapply end_loop_ok.
Qed.

(** C2: From a restart on a well-formed queue, whatever registrations, restarts
    and accesses to the indexes come between the parts of the ticks, and
    whatever the engine, the disk and the clocks answer: the queue is well
    formed; the tasks shown as processing are enqueued tasks of the table; the
    loop never sleeps on enqueued tasks without a signal to wake it up; a batch
    that is worked on is made of enqueued tasks of the table, marked as
    processing; and the loop never panics. *)
Theorem loop_invariant `{!IndexNamesLaws M, !QuietLoop} (now : OffsetDateTime) (d : TaskDb)
    (files : gset Uuid) (m : M) (w : W) (ph : Phase) :
  queue_ok d → rtc step (mkWorld (boot now d files) m, Waiting) (w, ph) →
  let s := scheduler w in
  queue_ok (db s) ∧ processing (processing_tasks s) ⊆ get_status (db s) Enqueued ∧
  (ph = Waiting → get_status (db s) Enqueued ≠ ∅ → wake_up s = true) ∧
  (∀ b at_, ph = Working b at_ ∨ (∃ res, ph = Processed b at_ res) →
     good_batch s b ∧ processing_tasks s = mkProcessing at_ (list_to_set (ids b))) ∧
  (∀ p, ph ≠ Stopped p).
Proof.
  intros Hq Hr.
  assert (loop_ok (w, ph)) as [Hq' Hp Hph].
  { revert Hr. generalize (w, ph). apply (rtc_ind_r loop_ok); [|intros; by eapply step_loop_ok].
    by constructor. }
  simpl in *. split_and!; try done.
  - by intros ->; apply Hph.
  - intros b at_ [->|[res ->]]; split; apply Hph.
  - by intros p ->.
Qed.

(** ** What a tick leaves *)
Lemma finished_row_of sa fa s b res t :
  good_batch s b → result_ok b res → t ∈ batch_tasks b →
  ∃ t', t' ∈ finished_rows sa fa b res ∧ uid t' = uid t ∧ content_uuid t' = content_uuid t.
Proof.
  intros (_ & Hft & _) Hres Ht. destruct (finished_rows_from sa fa b res Hres) as [Hids Hfrom].
  assert (uid t ∈ uid <$> finished_rows sa fa b res) as (t' & Hu & Ht')%list_elem_of_fmap.
  { rewrite Hids. by apply list_elem_of_fmap_2. }
  exists t'. split; [done|]. split; [done|].
  destruct (Hfrom t' Ht') as (t0 & Ht0 & Hu0 & Hk & _). unfold content_uuid. rewrite Hk.
  unfold from_table in Hft. rewrite Forall_forall in Hft.
  destruct (Hft t Ht) as [Hst _]. destruct (Hft t0 Ht0) as [Hst0 _]. unfold stored in *.
  rewrite <- Hu0, <- Hu, Hst in Hst0. by injection Hst0 as ->.
Qed.

Lemma finished_enqueued sa fa d d' b res rows :
  consistent d → consistent d' → rows ≡ₚ finished_rows sa fa b res → result_ok b res →
  (∀ t, t ∈ rows → all_tasks d' !! uid t = Some t) →
  (∀ i, i ∉ ids b → all_tasks d' !! i = all_tasks d !! i) →
  get_status d' Enqueued = get_status d Enqueued ∖ list_to_set (ids b).
Proof.
  intros Hc Hc' Hp Hres Hin Hout. destruct (finished_rows_from sa fa b res Hres) as [Hids Hfrom].
  apply set_eq. intros i. rewrite elem_of_difference, elem_of_list_to_set, !get_status_spec by done.
  destruct (decide (i ∈ ids b)) as [Hi|Hi]; [|rewrite (Hout i Hi); naive_solver].
  split; [|naive_solver]. intros (t & Ht & He). exfalso.
  rewrite <- Hids, <- Hp in Hi. apply list_elem_of_fmap in Hi as (t' & -> & Ht').
  rewrite (Hin t' Ht') in Ht. injection Ht as ->. rewrite Hp in Ht'.
  destruct (Hfrom t Ht') as (_ & _ & _ & _ & _ & _ & _ & [?|[? _]]); congruence.
Qed.

Lemma tick_end_outcome (e : TickEnv) (b : Batch) (started_at : OffsetDateTime)
    (res : list Task + Error) (w : W) :
  queue_ok (db (scheduler w)) → good_batch (scheduler w) b → result_ok b res →
  te_write_txn e = None →
  let '(r, w') := tick_end e b started_at res w in
  let s := scheduler w in let s' := scheduler w' in
  match verdict b res with
  | Aborted => r = Ok (TickAgain 0) ∧ w' = w
  | Full n => s' = s ∧ mapper w' = (mapper_resize_index n (mapper w)).2
  | Finished =>
      mapper w' = mapper w ∧ processing (processing_tasks s') = ∅ ∧
      (∀ t f, t ∈ batch_tasks b → content_uuid t = Some f → f ∉ file_store s') ∧
      match te_commit e with
      | None =>
          r = Ok (TickAgain (N.of_nat (length (ids b)))) ∧ queue_ok (db s') ∧
          (∀ t, t ∈ finished_rows started_at (te_finished_at e) b res →
             all_tasks (db s') !! uid t = Some t) ∧
          (∀ i, i ∉ ids b → all_tasks (db s') !! i = all_tasks (db s) !! i) ∧
          get_status (db s') Enqueued = get_status (db s) Enqueued ∖ list_to_set (ids b)
      | Some err =>
          r = Err (HeedTransaction err) ∧ db s' = db s ∧
          (∀ t, t ∈ batch_tasks b → stored (db s') t ∧ status t = Enqueued)
      end
  end.
Proof.
  intros Hq Hgood Hres Htxn. unfold tick_end. rewrite Htxn.
  destruct (verdict b res) as [|n|]; [done|..].
  { unfold mbind, st_bind, on_mapper. by destruct (mapper_resize_index n (mapper w)) as [[] ?]. }
  destruct (finish_tasks_Ok started_at (te_finished_at e) b (scheduler w) Hq Hgood res Hres)
    as (rows & d' & Hp & -> & Hq' & Hin & Hout).
  destruct (dropped_same rows (scheduler w)) as (Hd & Hpr & _ & _ & Hfiles).
  assert (∀ t f, t ∈ batch_tasks b → content_uuid t = Some f →
    f ∉ file_store (dropped (scheduler w) rows)) as Hgone.
  { intros t f Ht Hf [_ Hno]%Hfiles. apply Hno.
    destruct (finished_row_of started_at (te_finished_at e) _ _ _ _ Hgood Hres Ht)
      as (t' & Ht' & _ & Hc'). rewrite <- Hp in Ht'. rewrite <- Hf, <- Hc'.
    by apply list_elem_of_fmap_2. }
  destruct (te_commit e) as [err|]; simpl; split_and!; try done.
  - intros t Ht. destruct (batch_row b (scheduler w) Hq Hgood t Ht) as (? & ? & _). by rewrite Hd.
  - intros t Ht. apply Hin. by rewrite Hp.
  - by eapply finished_enqueued; [apply Hq|apply Hq'|..].
Qed.

(** At the end of a tick an interrupted batch is put back untouched, and
    the index of a batch that filled it is resized.  Otherwise the tasks of the
    batch are no longer shown as processing and their update files are deleted;
    when the transaction commits, each task of the batch is finished in the
    table, with the dates of the tick and what the processing made of it, or
    the error, and nothing else changes; when it does not commit the table is
    unchanged, so the tasks are enqueued still, without their update files. *)
Theorem tick_end_effect (e : TickEnv) (b : Batch) (started_at : OffsetDateTime)
    (res : list Task + Error) (w : W) :
  queue_ok (db (scheduler w)) → good_batch (scheduler w) b → result_ok b res →
  te_write_txn e = None →
  let '(r, w') := tick_end e b started_at res w in
  let s := scheduler w in let s' := scheduler w' in
  match verdict b res with
  | Aborted => r = Ok (TickAgain 0) ∧ w' = w
  | Full n => s' = s ∧ mapper w' = (mapper_resize_index n (mapper w)).2
  | Finished =>
      mapper w' = mapper w ∧ processing (processing_tasks s') = ∅ ∧
      (∀ t f, t ∈ batch_tasks b → content_uuid t = Some f → f ∉ file_store s') ∧
      match te_commit e with
      | None =>
          r = Ok (TickAgain (N.of_nat (length (ids b)))) ∧ queue_ok (db s') ∧
          (∀ t, t ∈ finished_rows started_at (te_finished_at e) b res →
             all_tasks (db s') !! uid t = Some t) ∧
          (∀ i, i ∉ ids b → all_tasks (db s') !! i = all_tasks (db s) !! i) ∧
          get_status (db s') Enqueued = get_status (db s) Enqueued ∖ list_to_set (ids b)
      | Some err =>
          r = Err (HeedTransaction err) ∧ db s' = db s ∧
          (∀ t, t ∈ batch_tasks b → stored (db s') t ∧ status t = Enqueued)
      end
  end.
Proof. exact (tick_end_outcome e b started_at res w). Qed.

(** ** The history of the tasks *)
Definition history (d d' : TaskDb) : Prop :=
  (∀ (i : TaskId) t', all_tasks d' !! i = Some t' →
     (∃ t, all_tasks d !! i = Some t ∧ evolves t t') ∨
     ∀ j, j ∈ dom (all_tasks d) → (j < i)%N) ∧
  (∀ i, i ∈ dom (all_tasks d) → ∃ j, (i <= j)%N ∧ j ∈ dom (all_tasks d')).

#[export] Instance history_preorder : PreOrder history.
Proof.
  split.
  - intros d. split; [intros i t Ht; left; by exists t|]. intros i Hi. exists i. by split; [lia|].
  - intros d1 d2 d3 [H1 H2] [E1 E2]. split.
    + intros i t3 Ht3. destruct (E1 i t3 Ht3) as [(t2 & Ht2 & He)|Hnew].
      * destruct (H1 i t2 Ht2) as [(t1 & Ht1 & He1)|Hnew]; [|by right].
        left. exists t1. split; [done|]. by etrans.
      * right. intros j Hj. destruct (H2 j Hj) as (k & Hle & Hk). specialize (Hnew k Hk). lia.
    + intros i Hi. destruct (H2 i Hi) as (j & Hle & Hj). destruct (E2 j Hj) as (k & Hle' & Hk).
      exists k. split; [lia|done].
Qed.

(** A step, with what it keeps for sure. *)
Definition keeps_enqueued (d d' : TaskDb) : Prop :=
  ∀ (i : TaskId) t, all_tasks d !! i = Some t → status t = Enqueued → is_Some (all_tasks d' !! i).

Lemma history_gained s s' : gained s s' → history (db s) (db s') ∧ keeps_enqueued (db s) (db s').
Proof.
  intros [_ Hr Hn _ _]. split; [split|].
  - intros i t Ht. destruct (Hn i t Ht) as [?|?]; [left; by exists t|by right].
  - intros i [t Ht]%elem_of_dom. exists i. split; [lia|]. apply elem_of_dom. exists t. by apply Hr.
  - intros i t Ht _. exists t. by apply Hr.
Qed.

Lemma history_table d d' : table_evolves d d' → history d d' ∧ keeps_enqueued d d'.
Proof.
  intros [H1 H2]. split; [split|].
  - intros i t Ht. left. by apply H1.
  - intros i [t Ht]%elem_of_dom. destruct (H2 i t Ht) as [Hi|(_ & j & Hlt & Hj)];
      [exists i|exists j]; (split; [lia|by apply elem_of_dom]).
  - intros i t Ht He. by destruct (H2 i t Ht) as [|[]].
Qed.

Lemma history_end e b at_ res w :
  queue_ok (db (scheduler w)) → good_batch (scheduler w) b → result_ok b res →
  table_evolves (db (scheduler w)) (db (scheduler (tick_end e b at_ res w).2)).
Proof.
  intros Hq Hgood Hres. pose proof (tick_end_spec e b at_ res w Hq Hgood Hres) as Hend.
  destruct (tick_end e b at_ res w) as [r w']. simpl.
  destruct Hend as (_ & _ & [->|(rows & Hp & _ & _ & _ & [(? & _ & _ & ->)|(_ & _ & _ & Hin & Hout)])]);
    [done..|].
  destruct (finished_rows_from at_ (te_finished_at e) b res Hres) as [Hids Hfrom].
  assert (∀ i, i ∈ ids b → ∃ t t', all_tasks (db (scheduler w)) !! i = Some t ∧
    all_tasks (db (scheduler w')) !! i = Some t' ∧ evolves t t') as Hev.
  { intros i. rewrite <- Hids, <- Hp. intros (t' & -> & Ht')%list_elem_of_fmap.
    pose proof (Hin t' Ht') as Hrow. rewrite Hp in Ht'.
    destruct (Hfrom t' Ht') as (t & Ht & Hu & Hk & He & _).
    destruct (batch_row b (scheduler w) Hq Hgood t Ht) as (Hst & Hen & _).
    exists t, t'. rewrite Hu in Hrow. split; [by rewrite Hu|]. split; [by rewrite Hu|].
    unfold evolves. rewrite Hk. split_and!; done. }
  split; intros i t Ht; destruct (decide (i ∈ ids b)) as [Hi|Hi].
  - destruct (Hev i Hi) as (t0 & t1 & H0 & H1 & H01). exists t0. by simplify_eq.
  - rewrite Hout in Ht by done. by exists t.
  - destruct (Hev i Hi) as (t0 & t1 & _ & H1 & _). left. by exists t1.
  - left. rewrite Hout by done. by exists t.
Qed.

Lemma step_history `{!IndexNamesLaws M} c c' : step c c' → loop_ok c →
  history (db (scheduler c.1)) (db (scheduler c'.1)) ∧
  keeps_enqueued (db (scheduler c.1)) (db (scheduler c'.1)).
Proof.
  intros Hs Hok.
  assert (∀ d, history d d ∧ keeps_enqueued d d) as Hsame by (intros d; by apply history_table).
  destruct Hs as [env k w ph|m w ph|now m w ph|w Hw|e w r w' Hs|h b at_ w res w' Hs
    |e b at_ res w r w' Hs]; simpl; try apply Hsame; destruct Hok as [Hq Hp Hph]; simpl in *.
  - unfold on_scheduler. pose proof (register_gained env k _ Hq) as Hg.
    destruct (register env k (scheduler w)) as [r s']. by apply history_gained in Hg.
  - pose proof (tick_start_spec e w Hq) as Hst. rewrite Hs in Hst.
    destruct Hst as (_ & s1 & Hg & -> & _). by apply history_gained.
  - destruct Hph as [Hgood _]. destruct (process_batch_outcome h b w Hq Hgood) as [Hk _].
    assert (w' = (process_batch h b w).2) as ->; [|apply history_table, Hk].
    unfold tick_process in Hs. by destruct (process_batch h b w) as [[] ?]; simplify_eq/=.
  - destruct Hph as (Hgood & _ & Hres).
    pose proof (history_end e b at_ res w Hq Hgood Hres) as He. rewrite Hs in He.
    by apply history_table.
Qed.

(** C8: In the life of a scheduler, restarts included: an enqueued task is
    never lost in a step; a task keeps its kind and its enqueuing date for ever,
    and once it is finished its status, error and dates; and the id of a task
    that is deleted is never given to another one. *)
Theorem tasks_are_permanent `{!IndexNamesLaws M, !QuietLoop} (now : OffsetDateTime) (d : TaskDb)
    (files : gset Uuid) (m : M) (c : W * Phase) :
  queue_ok d → rtc step (mkWorld (boot now d files) m, Waiting) c →
  (∀ c' (i : TaskId) t, step c c' → all_tasks (db (scheduler c.1)) !! i = Some t →
     status t = Enqueued → is_Some (all_tasks (db (scheduler c'.1)) !! i)) ∧
  (∀ c' (i : TaskId) t t', rtc step c c' → all_tasks (db (scheduler c.1)) !! i = Some t →
     all_tasks (db (scheduler c'.1)) !! i = Some t' → evolves t t') ∧
  (∀ c' i j, rtc step c c' → i ∉ dom (all_tasks (db (scheduler c.1))) →
     j ∈ dom (all_tasks (db (scheduler c.1))) → (i < j)%N →
     i ∉ dom (all_tasks (db (scheduler c'.1)))).
Proof.
  intros Hq Hr. assert (loop_ok c) as Hok.
  { revert Hr. apply (rtc_ind_r loop_ok); [|intros; by eapply step_loop_ok]. by constructor. }
  assert (∀ c', rtc step c c' → loop_ok c' ∧
    history (db (scheduler c.1)) (db (scheduler c'.1))) as Hhist.
  { apply rtc_ind_r; [done|]. intros c1 c2 _ Hs [Hok1 Hh]. split; [by eapply step_loop_ok|].
    etrans; [exact Hh|]. by apply step_history. }
  split; [|split].
  - intros c' i t Hs. by apply step_history.
  - intros c' i t t' Hc' Ht Ht'. destruct (Hhist c' Hc') as (_ & Hrow & _).
    destruct (Hrow i t' Ht') as [(t0 & Ht0 & He)|Hnew]; [by simplify_eq|].
    assert (i < i)%N; [|lia]. apply Hnew, elem_of_dom. by exists t.
  - intros c' i j Hc' Hi Hj Hlt [t' Ht']%elem_of_dom. destruct (Hhist c' Hc') as (_ & Hrow & _).
    destruct (Hrow i t' Ht') as [(t0 & Ht0 & _)|Hnew].
    + apply Hi, elem_of_dom. by exists t0.
    + specialize (Hnew j Hj). lia.
Qed.

(** ** Progress *)
Fixpoint run_ticks (envs : list TickEnv) (w : W) : W :=
  match envs with
  | [] => w
  | e :: envs => run_ticks envs (tick e w).2
  end.

(** No batch is interrupted, and the indexes that exist can be opened. *)
Class Uninterrupted : Prop := {
  never_aborted err : is_aborted_indexation err = false;
  never_full err : is_max_database_size_reached err = false;
  can_open m n : index_exists m n = true → ∃ pk, view_primary_key (mapper_view m) n = Ok pk
}.

(** A tick with a transaction that commits, far from the cleanup. *)
Definition smooth (w : W) (e : TickEnv) : Prop :=
  te_write_txn e = None ∧ te_commit e = None ∧
  (bitmap_len (dom (all_tasks (db (scheduler w)))) < te_max_number_of_tasks e)%N.

Abbreviation enqueued w := (get_status (db (scheduler w)) Enqueued).

Lemma tick_start_smooth `{!Uninterrupted} e w :
  queue_ok (db (scheduler w)) → smooth w e →
  (tick_start e w = (Ok None, w) ∧ enqueued w = ∅) ∨
  ∃ b w', tick_start e w = (Ok (Some b), w') ∧ good_batch (scheduler w) b ∧
    db (scheduler w') = db (scheduler w) ∧ good_batch (scheduler w') b.
Proof.
  intros Hq (_ & _ & Hmax). unfold tick_start, on_scheduler, mbind, st_bind.
  rewrite <- all_task_ids_spec in Hmax by apply Hq.
  rewrite (proj2 (cleanup_task_queue_outcome _ _ _ _ (qok_consistent _ Hq)) Hmax).
  assert (with_scheduler (scheduler w) w = w) as -> by by destruct w.
  unfold st_get, st_lift.
  destruct (next_batch_cases (scheduler w) (te_autobatching e) (mapper_view (mapper w)) Hq)
    as [[-> He]|(b & -> & Hgood & _)]; [by intros n; apply can_open|by left|right].
  exists b. simpl. rewrite mark_processing_Ok by apply Hgood. by eexists.
Qed.

Lemma tick_progress `{!IndexNamesLaws M, !Uninterrupted} e w :
  queue_ok (db (scheduler w)) → smooth w e →
  let '(r, w') := tick e w in
  queue_ok (db (scheduler w')) ∧
  dom (all_tasks (db (scheduler w'))) ⊆ dom (all_tasks (db (scheduler w))) ∧
  (enqueued w = ∅ → r = Ok WaitForSignal ∧ w' = w) ∧
  (enqueued w ≠ ∅ → (∃ n, r = Ok (TickAgain n)) ∧ enqueued w' ⊂ enqueued w).
Proof.
  intros Hq Hsm. unfold tick.
  destruct (tick_start_smooth e w Hq Hsm) as [[-> He]|(b & w1 & -> & Hgood & Hdb & Hgood1)]; [done|].
  assert (queue_ok (db (scheduler w1))) as Hq1 by by rewrite Hdb.
  destruct (process_batch_outcome (te_host e) b w1 Hq1 Hgood1) as [Hk Hok].
  assert (∃ res, tick_process (te_host e) b w1 = (res, (process_batch (te_host e) b w1).2) ∧
    result_ok b res) as (res & -> & Hres).
  { unfold tick_process. destruct (process_batch (te_host e) b w1) as [[ts|er|p] w2]; simpl;
      eexists; (split; [done|]); intros ts' [= <-]. by apply Hok. }
  set (w2 := (process_batch (te_host e) b w1).2) in *. clearbody w2. clear Hok.
  pose proof (kept_ok _ _ _ Hk) as Hq2.
  assert (good_batch (scheduler w2) b) as Hgood2.
  { eapply good_batch_mono; [|exact Hgood1]. intros t Ht _. by apply (kept_rows _ _ _ Hk). }
  destruct Hsm as (Htxn & Hcommit & _).
  pose proof (tick_end_outcome e b (te_started_at e) res w2 Hq2 Hgood2 Hres Htxn) as Hend.
  pose proof (history_end e b (te_started_at e) res w2 Hq2 Hgood2 Hres) as Hdom.
  assert (verdict b res = Finished) as Hv.
  { unfold verdict. destruct res as [|[]]; try done. by rewrite never_aborted, never_full. }
  destruct (tick_end e b (te_started_at e) res w2) as [r w3]. rewrite Hv, Hcommit in Hend.
  destruct Hend as (_ & _ & _ & -> & Hq3 & _ & _ & Henq).
  pose proof (table_evolves_enqueued _ _ (qok_consistent _ Hq1) (qok_consistent _ Hq2)
    (kept_table _ _ _ Hk)) as Hsub. rewrite Hdb in Hsub.
  destruct Hgood as (_ & Hft & _ & Hne). unfold ids in Hne.
  destruct (batch_tasks b) as [|t ts] eqn:Hb; [done|]. unfold from_table in Hft. rewrite Hb in Hft.
  apply Forall_cons in Hft as [[Hst He] _].
  assert (uid t ∈ enqueued w) as Hin by (apply get_status_spec; [apply Hq|by exists t]).
  split; [done|]. split; [|split].
  - etrans; [by apply table_evolves_dom|]. rewrite <- Hdb. by apply table_evolves_dom, Hk.
  - intros Hno. rewrite Hno in Hin. by apply elem_of_empty in Hin.
  - intros _. split; [by eexists|]. rewrite Henq. split; [set_solver|]. intros Hall.
    specialize (Hall (uid t) Hin). apply elem_of_difference in Hall as [_ Hno].
    apply Hno, elem_of_list_to_set. unfold ids. rewrite Hb. by left.
Qed.

(** C11: The scheduler empties its queue.  When no batch is interrupted, the
    existing indexes can be opened, transactions commit and the queue is below
    the maximum that triggers the cleanup, then whatever the engine answers,
    errors and panics included, as many ticks as there are enqueued tasks leave
    no task enqueued, and the next tick waits. *)
Theorem queue_is_emptied `{!IndexNamesLaws M, !Uninterrupted} (envs : list TickEnv) (w : W) :
  queue_ok (db (scheduler w)) → Forall (smooth w) envs → size (enqueued w) ≤ length envs →
  let w' := run_ticks envs w in
  queue_ok (db (scheduler w')) ∧ enqueued w' = ∅ ∧
  ∀ e, smooth w e → tick e w' = (Ok WaitForSignal, w').
Proof.
  assert (∀ w1 w2 e, dom (all_tasks (db (scheduler w2))) ⊆ dom (all_tasks (db (scheduler w1))) →
    smooth w1 e → smooth w2 e) as Hmono.
  { intros w1 w2 e Hsub (H1 & H2 & H3). split_and!; [done..|]. unfold bitmap_len in *.
    apply subseteq_size in Hsub. lia. }
  revert w. induction envs as [|e envs IH]; intros w Hq Hsm Hsize; simpl in *.
  - assert (enqueued w = ∅) as He by (apply leibniz_equiv, size_empty_inv; lia).
    split; [done|]. split; [done|]. intros e Hse. pose proof (tick_progress e w Hq Hse) as Hp.
    destruct (tick e w) as [r w']. destruct Hp as (_ & _ & Hidle & _).
    by destruct (Hidle He) as [-> ->].
  - apply Forall_cons in Hsm as [Hse Hsm]. pose proof (tick_progress e w Hq Hse) as Hp.
    destruct (tick e w) as [r w']. simpl. destruct Hp as (Hq' & Hdom & Hidle & Hbusy).
    destruct (IH w') as (? & ? & Hlast); [done|..].
    + eapply Forall_impl; [exact Hsm|]. intros e'. by apply Hmono.
    + destruct (decide (enqueued w = ∅)) as [He|He].
      * destruct (Hidle He) as [_ ->]. rewrite He, size_empty. lia.
      * destruct (Hbusy He) as [_ Hlt%subset_size]. lia.
    + split; [done|]. split; [done|]. intros e' Hse'. apply Hlast. by eapply Hmono.
Qed.
End tick.

Module Demo.
Import UnitJson TaskQueue.Demo Scheduler.Demo Batch.Demo QueueOps.Demo Process.Demo.
Abbreviation indexes := (gmap string (gset string)).

#[export] Instance demo_quiet : QuietLoop (M:=indexes).
Proof. constructor; intros; simpl; [by destruct (m !! n)|done]. Qed.

#[export] Instance demo_uninterrupted : Uninterrupted (M:=indexes).
Proof.
  constructor; [done..|]. intros m n Hn. unfold index_exists in Hn. simpl in Hn |- *.
  destruct (m !! n); [by exists None|done].
Qed.

Definition env : TickEnv (M:=indexes) :=
  mkTickEnv env0 (λ _, Some "") 1000 true host 100%Z 110%Z None None.

(** The clearing of the index, from a restart to its batch. *)
Definition booted : World (M:=indexes) := mkWorld (boot 5%Z one_task ∅) (mapper world).
Definition awake : World (M:=indexes) := with_scheduler (wait (scheduler booted)) booted.
Definition started : World (M:=indexes) := (tick_start env awake).2.

Lemma reach_started :
  rtc step (booted, Waiting) (started, Working clear_a 100%Z).
Proof.
  eapply rtc_l; [apply step_wake; reflexivity|].
  eapply rtc_l; [|apply rtc_refl]. apply (step_start env awake (Ok (Some clear_a))).
  vm_compute. reflexivity.
Qed.

Lemma loop_invariant_witness :
  processing (processing_tasks (scheduler started)) = {[0%N]} ∧
  processing (processing_tasks (scheduler started)) ⊆ get_status (db (scheduler started)) Enqueued.
Proof.
  split; [vm_compute; reflexivity|].
  exact (proj1 (proj2 (loop_invariant 5%Z one_task ∅ (mapper world) started
    (Working clear_a 100%Z) one_task_ok reach_started))).
Defined.

Definition cleared : list Task + Error :=
  inl [with_status_details Succeeded (Some (DClearAll (Some 2%N))) clear_task].

Lemma cleared_ok : result_ok clear_a cleared.
Proof.
  intros tasks [= <-]. exists [clear_task]. split; [done|]. constructor; [|constructor].
  apply processed_succeeded.
Qed.

Lemma tick_end_effect_witness :
  (tick_end env clear_a 100%Z cleared world).1 = Ok (TickAgain 1) ∧
  get_status (db (scheduler (tick_end env clear_a 100%Z cleared world).2)) Enqueued = ∅ ∧
  queue_ok (db (scheduler (tick_end env clear_a 100%Z cleared world).2)).
Proof.
  split; [vm_compute; reflexivity|]. split; [vm_compute; reflexivity|].
  pose proof (tick_end_effect env clear_a 100%Z cleared world one_task_ok clear_a_good cleared_ok
    eq_refl) as H.
  destruct (tick_end env clear_a 100%Z cleared world) as [r w].
  exact (proj1 (proj2 (proj2 (proj2 (proj2 H))))).
Defined.

Lemma tasks_are_permanent_witness :
  all_tasks (db (scheduler started)) !! 0%N = Some clear_task ∧
  ∀ c t', rtc step (started, Working clear_a 100%Z) c →
    all_tasks (db (scheduler c.1)) !! 0%N = Some t' → evolves clear_task t'.
Proof.
  split; [vm_compute; reflexivity|]. intros c t' Hc.
  refine (proj1 (proj2 (tasks_are_permanent 5%Z one_task ∅ (mapper world)
    (started, Working clear_a 100%Z) one_task_ok reach_started)) c 0%N clear_task t' Hc _).
  vm_compute. reflexivity.
Defined.

Lemma queue_is_emptied_witness :
  size (get_status (db (scheduler world)) Enqueued) = 1 ∧
  get_status (db (scheduler (run_ticks [env] world))) Enqueued = ∅.
Proof.
  split; [vm_compute; reflexivity|].
  refine (proj1 (proj2 (queue_is_emptied [env] world one_task_ok _ _))).
  - constructor; [|constructor]. split; [reflexivity|]. split; [reflexivity|].
    vm_compute. reflexivity.
  - vm_compute. lia.
Defined.
End Demo.
