(* ===== verification/IndexMapper.v ===== *)
(** * The index mapper (index-scheduler/src/index_mapper/mod.rs)

    The names of the indexes, their uuids, their statistics and their
    directories, above the in-memory map of the opened ones.  The loops that
    open and delete an index take the lock of the map for a moment only: a
    [Turn] says what the other threads do to the map when the lock is free, and
    whether the wait for a closing index was answered. *)
From S2P Require Import Prelude Keys Errors Tasks TaskQueue Scheduler Batch QueueOps Process.
From S2P Require Lru IndexMap.

Abbreviation Uuid := IndexMap.Uuid.

Section mapper.
Context `{IndexMap.IndexHost} {C : Type} `{!Lru.CacheOps Uuid IndexMap.Index C}.
Context {IndexStats Data : Type}.

Abbreviation map := (IndexMap.IndexMap C).
Abbreviation Index := IndexMap.Index.

(** The databases, the opened indexes and the directories on disk. *)
Record IndexMapper := mkMapper {
  index_mapping : gmap string Uuid;
  index_stats : gmap Uuid IndexStats;
  index_map : map;
  disk : gmap Uuid Data
}.

(** The fields that do not change, and what is not of the mapper: the error of
    a failed opening, and a new directory. *)
Record Config := mkConfig {
  base_path : Uuid → string;
  index_base_map_size : N;
  index_growth_amount : N;
  enable_mdb_writemap : bool;
  error_of_host : IndexMap.HostError → Error;
  blank : Data
}.

Context (cfg : Config).

Definition with_mapping (x : gmap string Uuid) (s : IndexMapper) : IndexMapper :=
  mkMapper x (index_stats s) (index_map s) (disk s).
Definition with_stats (x : gmap Uuid IndexStats) (s : IndexMapper) : IndexMapper :=
  mkMapper (index_mapping s) x (index_map s) (disk s).
Definition with_map (x : map) (s : IndexMapper) : IndexMapper :=
  mkMapper (index_mapping s) (index_stats s) x (disk s).
Definition with_disk (x : gmap Uuid Data) (s : IndexMapper) : IndexMapper :=
  mkMapper (index_mapping s) (index_stats s) (index_map s) x.

(** A moment under the lock of the map. *)
Definition locked {A} (f : ST map IndexMap.HostError A) : ST IndexMapper Error A := λ s,
  let '(r, m) := f (index_map s) in (map_err (error_of_host cfg) r, with_map m s).

Definition uuid_of (name : string) (s : IndexMapper) : outcome Error Uuid :=
  ok_or (index_mapping s !! name) (IndexNotFound name).

(** ** Opening an index *)

(** What happens out of the lock during a turn: before the map is read, during
    the wait, and before the index is created. *)
Record Turn := mkTurn {
  others_before : map → map;
  woke : bool;
  others_waiting : map → map;
  others_between : map → map
}.

Definition meanwhile (f : map → map) (s : IndexMapper) : IndexMapper :=
  with_map (f (index_map s)) s.

(** The loop; it runs out of turns after 100 of them. *)
Fixpoint open_index (turns : list Turn) (name : string) (uuid : Uuid)
    : ST IndexMapper Error Index := λ s,
  match turns with
  | [] => (Panic "Too many spurious wake ups while trying to open the index", s)
  | turn :: turns =>
      let s := meanwhile (others_before turn) s in
      let '(index, m) := IndexMap.get uuid (index_map s) in
      let s := with_map m s in
      match index with
      | IndexMap.Available index => (Ok index, s)
      | IndexMap.Closing reopen =>
          let s := meanwhile (others_waiting turn) s in
          match IndexMap.wait_timeout (woke turn) reopen with
          | None => open_index turns name uuid s
          | Some reopen =>
              match locked (IndexMap.reopen reopen (base_path cfg uuid)) s with
              | (Ok _, s) => open_index turns name uuid s
              | (Err e, s) => (Err e, s)
              | (Panic p, s) => (Panic p, s)
              end
          end
      | IndexMap.BeingDeleted => (Err (IndexNotFound name), s)
      | IndexMap.Missing =>
          let s := meanwhile (others_between turn) s in
          let '(index, m) := IndexMap.get uuid (index_map s) in
          let s := with_map m s in
          match index with
          | IndexMap.Missing =>
              locked (IndexMap.create uuid (base_path cfg uuid) None (enable_mdb_writemap cfg)
                (index_base_map_size cfg)) s
          | IndexMap.Available index => (Ok index, s)
          | IndexMap.Closing _ => open_index turns name uuid s
          | IndexMap.BeingDeleted => (Err (IndexNotFound name), s)
          end
      end
  end.

Definition index (turns : list Turn) (name : string) : ST IndexMapper Error Index :=
  s ← st_get;
  uuid ← st_lift (uuid_of name s);
  open_index turns name uuid.

(** ** Creation *)

(** [uuid] is the one that [Uuid::new_v4] draws; the name is put in the
    transaction, which an error drops. *)
Definition create_index (turns : list Turn) (uuid : Uuid) (name : string)
    (date : option (Z * Z)) : ST IndexMapper Error Index := λ s,
  match index turns name s with
  | (Err (IndexNotFound _), s) =>
      let s := with_disk (<[uuid := default (blank cfg) (disk s !! uuid)]> (disk s)) s in
      match locked (IndexMap.create uuid (base_path cfg uuid) date (enable_mdb_writemap cfg)
              (index_base_map_size cfg)) s with
      | (Ok index, s) => (Ok index, with_mapping (<[name := uuid]> (index_mapping s)) s)
      | (Err e, s) => (Err e, s)
      | (Panic p, s) => (Panic p, s)
      end
  | (r, s) => (r, s)
  end.

(** ** Deletion *)

(** The event the deleting thread waits for, if it is spawned. *)
Inductive DeletionThread : Type :=
| NotSpawned
| Spawned (closing_event : option IndexMap.EnvClosingEvent).

Definition start (uuid : Uuid) (s : IndexMapper)
    : (option IndexMap.EnvClosingEvent + option IndexMap.ClosingIndex) * IndexMapper :=
  let '(r, m) := IndexMap.start_deletion uuid (index_map s) in (r, with_map m s).

(** The loop; the last of 100 attempts panics instead of waiting. *)
Fixpoint take_down (turns : list Turn) (uuid : Uuid) : ST IndexMapper Error DeletionThread := λ s,
  match start uuid s with
  | (inl env_closing, s) => (Ok (Spawned env_closing), s)
  | (inr None, s) => (Ok NotSpawned, s)
  | (inr (Some reopen), s) =>
      match turns with
      | [] => (Panic "Too many attempts to close index prior to deletion.", s)
      | turn :: turns =>
          let s := meanwhile (others_waiting turn) s in
          match IndexMap.wait_timeout (woke turn) reopen with
          | None => take_down turns uuid s
          | Some reopen =>
              take_down turns uuid
                (with_map (IndexMap.close_reopenable reopen (index_map s)) s)
          end
      end
  end.

Definition delete_index (turns : list Turn) (name : string)
    : ST IndexMapper Error (Uuid * DeletionThread) :=
  s ← st_get;
  uuid ← st_lift (uuid_of name s);
  _ ← st_modify (λ s, with_stats (delete uuid (index_stats s)) s);
  s ← st_get;
  _ ← st_lift (assert (bool_decide (is_Some (index_mapping s !! name)))
        "assertion failed: self.index_mapping.delete(&mut wtxn, name)?");
  _ ← st_modify (λ s, with_mapping (delete name (index_mapping s)) s);
  thread ← take_down turns uuid;
  mret (uuid, thread).

(** The thread, once the environment is closed. *)
Definition index_deleter (uuid : Uuid) : ST IndexMapper Error unit :=
  _ ← st_modify (λ s, with_disk (delete uuid (disk s)) s);
  locked (IndexMap.end_deletion uuid).

(** ** The other operations *)
Definition exists_ (name : string) (s : IndexMapper) : bool :=
  bool_decide (is_Some (index_mapping s !! name)).

Definition resize_index (name : string) : ST IndexMapper Error unit :=
  s ← st_get;
  uuid ← st_lift (uuid_of name s);
  st_modify (λ s, with_map (IndexMap.close_for_resize uuid (enable_mdb_writemap cfg)
    (index_growth_amount cfg) (index_map s)) s).

(** Names in the order of the database. *)
Definition index_names (s : IndexMapper) : list string :=
  merge_sort String.le (map_to_list (index_mapping s)).*1.

Definition swap (lhs rhs : string) (s : IndexMapper) : outcome Error IndexMapper :=
  lhs_uuid ← uuid_of lhs s;
  rhs_uuid ← uuid_of rhs s;
  Ok (with_mapping (<[rhs := lhs_uuid]> (<[lhs := rhs_uuid]> (index_mapping s))) s).

(** [compute] is [IndexStats::new]. *)
Definition stats_of (turns : list Turn) (compute : Index → outcome Error IndexStats)
    (index_uid : string) : ST IndexMapper Error IndexStats :=
  s ← st_get;
  uuid ← st_lift (uuid_of index_uid s);
  match index_stats s !! uuid with
  | Some stats => mret stats
  | None => index ← index turns index_uid; st_lift (compute index)
  end.

Definition store_stats_of (index_uid : string) (stats : IndexStats) : ST IndexMapper Error unit :=
  s ← st_get;
  uuid ← st_lift (uuid_of index_uid s);
  st_modify (λ s, with_stats (<[uuid := stats]> (index_stats s)) s).

(** [try_for_each_index], with the list of the results. *)
Fixpoint for_each_name {U} (turns : list Turn) (f : string → Index → outcome Error U)
    (names : list string) : ST IndexMapper Error (list U) :=
  match names with
  | [] => mret []
  | name :: names =>
      index ← index turns name;
      u ← st_lift (f name index);
      us ← for_each_name turns f names;
      mret (u :: us)
  end.

Definition try_for_each_index {U} (turns : list Turn) (f : string → Index → outcome Error U)
    : ST IndexMapper Error (list U) :=
  s ← st_get; for_each_name turns f (index_names s).
End mapper.

(** ** Opening an index, whatever the other threads do *)
Section opening.
Context `{IndexMap.IndexHost} {C : Type} `{!Lru.CacheOps Uuid IndexMap.Index C}.
Context `{!Lru.Cache Uuid IndexMap.Index C} (capacity : nat).
Context {IndexStats Data : Type} (cfg : Config (Data:=Data)).
Abbreviation map := (IndexMap.IndexMap C).
Abbreviation IndexMapper := (IndexMapper (C:=C) (IndexStats:=IndexStats) (Data:=Data)).
Abbreviation Turn := (Turn (C:=C)).
Abbreviation map_ok := (IndexMap.map_ok capacity).
Implicit Types (s : IndexMapper) (t : Turn) (u : Uuid).

Definition status u s : IndexMap.IndexStatus := IndexMap.status u (index_map s).

(** The other threads call the operations of the map. *)
Definition fair t : Prop :=
  ∀ m, map_ok m → map_ok (others_before t m) ∧ map_ok (others_waiting t m) ∧
    map_ok (others_between t m).

(** No other thread touches the map. *)
Definition quiet t : Prop :=
  ∀ m, others_before t m = m ∧ others_waiting t m = m ∧ others_between t m = m.

Lemma quiet_fair t : quiet t → fair t.
Proof. intros Hq m Hm. destruct (Hq m) as (-> & -> & ->). done. Qed.

(** The mapper apart from the map. *)
Definition same_databases s s' : Prop :=
  index_mapping s' = index_mapping s ∧ index_stats s' = index_stats s ∧ disk s' = disk s.

#[local] Instance same_databases_preorder : PreOrder same_databases.
Proof. split; [by intros s|]. intros s1 s2 s3 (? & ? & ?) (? & ? & ?). split_and!; congruence. Qed.

Hypothesis (Hhost : ∀ path date w size,
  is_panic (IndexMap.create_or_open_index path date w size) = false).

(** The three accesses to the map. *)
Lemma get_step u s : map_ok (index_map s) →
  ∃ m, IndexMap.get u (index_map s) = (status u s, m) ∧ map_ok m ∧
    status u (with_map m s) = status u s.
Proof.
  intros Hm. destruct (IndexMap.index_map_get_spec capacity u _ Hm) as (Hst & Hsame & Hok).
  destruct (IndexMap.get u (index_map s)) as [st m]. simpl in *. subst st. exists m.
  split_and!; try done. apply (IndexMap.status_proper _ _ eq_refl _ _ Hsame).
Qed.

Lemma create_step u path date w size s : map_ok (index_map s) → status u s = IndexMap.Missing →
  let '(r, s') := locked cfg (IndexMap.create u path date w size) s in
  same_databases s s' ∧ map_ok (index_map s') ∧
  match r with
  | Ok i => status u s' = IndexMap.Available i
  | Err e => s' = s ∧ ∃ h, e = error_of_host cfg h
  | Panic _ => False
  end.
Proof.
  intros Hm Hst. unfold locked.
  pose proof (IndexMap.create_status capacity u path date w size _ Hm) as Hc.
  destruct (IndexMap.create u path date w size (index_map s)) as [r m] eqn:He.
  assert (is_panic r = false) as Hp.
  { destruct r as [i|e|p]; try done. destruct Hc as [Hc|Hc]; [done|].
    by rewrite Hhost in Hc. }
  pose proof (IndexMap.create_ok capacity u path date w size _ r m Hm He Hp) as Hok.
  destruct r as [i|e|p]; simpl; [|subst m|done]; split_and!; try done.
  - apply Hc.
  - by destruct s.
  - by eexists.
Qed.

Lemma reopen_step r path s : map_ok (index_map s) →
  let u := IndexMap.ri_uuid r in
  let '(res, s') := locked cfg (IndexMap.reopen r path) s in
  same_databases s s' ∧ map_ok (index_map s') ∧
  match res with
  | Ok _ => ∀ c, status u s = IndexMap.Closing c →
      IndexMap.ci_generation c = IndexMap.ri_generation r → ∃ i, status u s' = IndexMap.Available i
  | Err e => ∃ h, e = error_of_host cfg h
  | Panic _ => False
  end.
Proof.
  intros Hm. simpl. unfold locked, status.
  pose proof (IndexMap.reopen_status capacity r path _ Hm) as Hr. simpl in Hr.
  destruct (IndexMap.reopen r path (index_map s)) as [res m] eqn:He.
  assert (is_panic res = false) as Hp.
  { destruct res as [[]|e|p]; try done. by rewrite Hhost in Hr. }
  pose proof (IndexMap.apply_op_ok capacity (IndexMap.OpReopen r path) _ res m Hm He Hp) as Hok.
  destruct res as [[]|e|p]; simpl; [..|done]; split_and!; try done; [|by eexists].
  intros c Hc Hg. rewrite Hc in Hr. by rewrite decide_True in Hr.
Qed.

(** What a loop leaves. *)
Definition opened name u s (r : outcome Error IndexMap.Index) s' : Prop :=
  same_databases s s' ∧ map_ok (index_map s') ∧
  match r with
  | Ok i => status u s' = IndexMap.Available i
  | Err e => (e = IndexNotFound name ∧ status u s' = IndexMap.BeingDeleted) ∨
      ∃ h, e = error_of_host cfg h
  | Panic p => p = "Too many spurious wake ups while trying to open the index"
  end.

Lemma opened_after name u s s1 r s' : same_databases s s1 → opened name u s1 r s' → opened name u s r s'.
Proof. intros Hs (Hs' & Hrest). split; [by etrans|done]. Qed.

Lemma open_index_spec turns name u s :
  map_ok (index_map s) → Forall fair turns →
  let '(r, s') := open_index cfg turns name u s in opened name u s r s'.
Proof.
  revert s. induction turns as [|t turns IH]; intros s Hm Hf; [done|].
  apply Forall_cons in Hf as [Ht Hf]. cbn [open_index]. cbv zeta.
  set (s0 := meanwhile (others_before t) s).
  assert (map_ok (index_map s0)) as Hm0 by by apply Ht.
  destruct (get_step u s0 Hm0) as (m1 & -> & Hm1 & Hst1).
  set (s1 := with_map m1 s0).
  assert (∀ s2, map_ok (index_map s2) → same_databases s s2 →
    let '(r, s') := open_index cfg turns name u s2 in opened name u s r s') as Hrec.
  { intros s2 Hm2 Hs2. specialize (IH s2 Hm2 Hf). destruct (open_index _ _ _ _ _) as [r s'].
    by eapply opened_after. }
  destruct (status u s0) as [| |c|i] eqn:Hst; [|by split_and!; [..|left]| |by split_and!].
  - set (s2 := meanwhile (others_between t) s1).
    assert (map_ok (index_map s2)) as Hm2 by by apply Ht.
    destruct (get_step u s2 Hm2) as (m3 & -> & Hm3 & Hst3). set (s3 := with_map m3 s2).
    destruct (status u s2) as [| |c|i]; [|by split_and!; [..|left]|by apply Hrec|by split_and!].
    pose proof (create_step u (base_path cfg u) None (enable_mdb_writemap cfg)
      (index_base_map_size cfg) s3 Hm3 Hst3) as Hc.
    destruct (locked _ _ s3) as [r s']. destruct Hc as (Hs & Hm' & Hr).
    split; [by etrans; [|exact Hs]|]. split; [done|]. destruct r as [i|e|p]; [done| |done].
    right. by destruct Hr as [_ ?].
  - set (s2 := meanwhile (others_waiting t) s1).
    assert (map_ok (index_map s2)) as Hm2 by by apply Ht.
    unfold IndexMap.wait_timeout. destruct (woke t); [|by apply Hrec].
    set (r0 := IndexMap.mkReopenable _ _ _ _).
    pose proof (reopen_step r0 (base_path cfg u) s2 Hm2) as Hr. simpl in Hr.
    destruct (locked _ _ s2) as [[[]|e|p] s3]; destruct Hr as (Hs & Hm3 & Hr); [| |done].
    + apply Hrec; [done|]. by etrans; [|exact Hs].
    + split; [by etrans; [|exact Hs]|]. split; [done|]. by right.
Qed.

Lemma with_map_id s : with_map (index_map s) s = s.
Proof. by destruct s. Qed.

Lemma quiet_meanwhile t s : quiet t →
  meanwhile (others_before t) s = s ∧ meanwhile (others_waiting t) s = s ∧
  meanwhile (others_between t) s = s.
Proof.
  intros Hq. destruct (Hq (index_map s)) as (H1' & H2' & H3'). unfold meanwhile.
  by rewrite H1', H2', H3', with_map_id.
Qed.

Lemma closing_uuid u c s :
  map_ok (index_map s) → status u s = IndexMap.Closing c → IndexMap.ci_uuid c = u.
Proof.
  intros Hm Hst. pose proof (IndexMap.status_cases capacity u _ Hm) as Hcase.
  unfold status in Hst. rewrite Hst in Hcase. by apply (IndexMap.map_ok_closing _ _ Hm), Hcase.
Qed.

(** A wait is answered before the last turn. *)
Definition answered (turns : list Turn) : Prop :=
  ∃ k t, turns !! k = Some t ∧ woke t = true ∧ S k < length turns.

Lemma open_index_quiet turns name u s :
  map_ok (index_map s) → Forall quiet turns → turns ≠ [] →
  ((∃ c, status u s = IndexMap.Closing c) → answered turns) →
  is_panic (open_index cfg turns name u s).1 = false.
Proof.
  revert s. induction turns as [|t turns IH]; intros s Hm Hquiet Hne Hans; [done|].
  apply Forall_cons in Hquiet as [Ht Hquiet]. cbn [open_index]. cbv zeta.
  rewrite (proj1 (quiet_meanwhile t s Ht)). destruct (get_step u s Hm) as (m1 & -> & Hm1 & Hst1). set (s1 := with_map m1 s) in *.
  destruct (status u s) as [| |c|i] eqn:Hst; [|done| |done].
  - rewrite (proj2 (proj2 (quiet_meanwhile t s1 Ht))). destruct (get_step u s1 Hm1) as (m3 & -> & Hm3 & Hst3). rewrite Hst1 in Hst3 |- *.
    pose proof (create_step u (base_path cfg u) None (enable_mdb_writemap cfg)
      (index_base_map_size cfg) (with_map m3 s1) Hm3 Hst3) as Hc.
    destruct (locked _ _ _) as [[i|e|p] s']; [done..|by destruct Hc as (_ & _ & [])].
  - destruct Hans as (k & t' & Hk & Hwoke & Hlen); [by exists c|]. simpl in Hlen.
    assert (turns ≠ []) as Hne2 by (destruct turns; [simpl in Hlen; lia|done]).
    rewrite (proj1 (proj2 (quiet_meanwhile t s1 Ht))).
    unfold IndexMap.wait_timeout. destruct (woke t) eqn:Hw.
    + set (r0 := IndexMap.mkReopenable _ _ _ _).
      pose proof (reopen_step r0 (base_path cfg u) s1 Hm1) as Hr. simpl in Hr.
      pose proof (closing_uuid u c s1 Hm1 Hst1) as Hu.
      destruct (locked _ _ s1) as [[[]|e|p] s3]; [|done|by destruct Hr as (_ & _ & [])].
      destruct Hr as (_ & Hm3 & Hr). apply IH; try done. rewrite Hu in Hr.
      destruct (Hr c) as [i Hi]; [done..|]. rewrite Hi. by intros [? ?].
    + apply IH; try done. intros _. destruct k as [|k]; [simpl in Hk; congruence|].
      exists k, t'. split_and!; [done|done|lia].
Qed.

(** ** Taking an index down *)
Lemma start_step u s : map_ok (index_map s) →
  let '(r, s') := start u s in
  same_databases s s' ∧ map_ok (index_map s') ∧
  match status u s with
  | IndexMap.Available i =>
      r = inl (Some (IndexMap.prepare_for_closing i)) ∧ status u s' = IndexMap.BeingDeleted
  | IndexMap.Closing c => r = inr (Some c) ∧ status u s' = IndexMap.Missing
  | IndexMap.BeingDeleted => r = inr None ∧ status u s' = IndexMap.Missing
  | IndexMap.Missing => r = inl None ∧ status u s' = IndexMap.Missing
  end.
Proof.
  intros Hm. unfold start, status.
  pose proof (IndexMap.start_deletion_outcome capacity u _ Hm) as Hst.
  destruct (IndexMap.start_deletion u (index_map s)) as [r m]. simpl.
  destruct Hst as (Hok & Hst & _). by split.
Qed.

(** Without the other threads the second attempt is the last one: the first
    one forgot the closing index, answered or not. *)
Lemma take_down_quiet turns u s : map_ok (index_map s) → Forall quiet turns → turns ≠ [] →
  let '(r, s') := take_down turns u s in
  same_databases s s' ∧ map_ok (index_map s') ∧
  match status u s with
  | IndexMap.Available i =>
      r = Ok (Spawned (Some (IndexMap.prepare_for_closing i))) ∧ status u s' = IndexMap.BeingDeleted
  | IndexMap.BeingDeleted => r = Ok NotSpawned ∧ status u s' = IndexMap.Missing
  | IndexMap.Closing _ | IndexMap.Missing => r = Ok (Spawned None) ∧ status u s' = IndexMap.Missing
  end.
Proof.
  intros Hm Hquiet Hne. destruct turns as [|t turns]; [done|].
  apply Forall_cons in Hquiet as [Ht _]. cbn [take_down]. cbv zeta.
  pose proof (start_step u s Hm) as Hst. destruct (start u s) as [r s1].
  destruct Hst as (Hs1 & Hm1 & Hst).
  destruct (status u s) as [| |c|i] eqn:Hs; destruct Hst as [-> Hst]; try done.
  pose proof (closing_uuid u c s Hm Hs) as Hu.
  rewrite (proj1 (proj2 (quiet_meanwhile t s1 Ht))).
  assert (∀ s2, map_ok (index_map s2) → same_databases s1 s2 → status u s2 = IndexMap.Missing →
    let '(r, s') := take_down turns u s2 in
    same_databases s s' ∧ map_ok (index_map s') ∧
    r = Ok (Spawned None) ∧ status u s' = IndexMap.Missing) as Hlast.
  { intros s2 Hm2 Hs2 Hst2. pose proof (start_step u s2 Hm2) as Hst'.
    assert (take_down turns u s2 = let '(r, s') := start u s2 in
      match r with inl e => (Ok (Spawned e), s') | inr None => (Ok NotSpawned, s') | _ => take_down turns u s2 end) as ->.
    { rewrite Hst2 in Hst'. destruct turns; cbn [take_down]; destruct (start u s2) as [r s'];
        by destruct Hst' as (_ & _ & -> & _). }
    destruct (start u s2) as [r s']. rewrite Hst2 in Hst'.
    destruct Hst' as (Hs' & Hm' & -> & ?). split_and!; try done.
    etrans; [exact Hs1|]. by etrans. }
  unfold IndexMap.wait_timeout. destruct (woke t); [|by apply Hlast].
  apply Hlast; [|done|].
  - by apply (IndexMap.apply_op_ok capacity (IndexMap.OpClose _) _ (Ok tt) _ Hm1 eq_refl).
  - unfold status. simpl. set (r0 := IndexMap.mkReopenable _ _ _ _).
    pose proof (IndexMap.close_reopenable_status capacity r0 _ Hm1) as Hcl. simpl in Hcl.
    rewrite Hu in Hcl. unfold status in Hst. by rewrite Hcl, Hst.
Qed.

(** ** Names *)

(** The map is well formed, and no two names have the same uuid. *)
Record mapper_ok s : Prop := {
  mok_map : map_ok (index_map s);
  mok_names n n' u :
    index_mapping s !! n = Some u → index_mapping s !! n' = Some u → n = n'
}.

Lemma mapper_ok_same s s' : same_databases s s' → map_ok (index_map s') → mapper_ok s → mapper_ok s'.
Proof. intros (Hm & _) Hok [_ Hn]. constructor; [done|]. by rewrite Hm. Qed.

Lemma index_mapped turns name u s : index_mapping s !! name = Some u →
  index cfg turns name s = open_index cfg turns name u s.
Proof. intros Hu. unfold index, mbind, st_bind, st_get, st_lift, uuid_of. by rewrite Hu. Qed.

Lemma index_not_mapped turns name s : index_mapping s !! name = None →
  index cfg turns name s = (Err (IndexNotFound name), s).
Proof. intros Hu. unfold index, mbind, st_bind, st_get, st_lift, uuid_of. by rewrite Hu. Qed.

Lemma index_outcome (turns : list Turn) (name : string) (s : IndexMapper) :
  mapper_ok s → Forall fair turns →
  let '(r, s') := index cfg turns name s in
  same_databases s s' ∧ mapper_ok s' ∧
  match r with
  | Ok i => ∃ u, index_mapping s !! name = Some u ∧ status u s' = IndexMap.Available i
  | Err e =>
      (e = IndexNotFound name ∧
       ∀ u, index_mapping s !! name = Some u → status u s' = IndexMap.BeingDeleted) ∨
      ∃ h, e = error_of_host cfg h
  | Panic p =>
      p = "Too many spurious wake ups while trying to open the index" ∧
      (Forall quiet turns → turns ≠ [] → ¬ answered turns ∧
       ∃ u c, index_mapping s !! name = Some u ∧ status u s = IndexMap.Closing c)
  end.
Proof.
  intros Hok Hfair. destruct (index_mapping s !! name) as [u|] eqn:Hu.
  - rewrite (index_mapped _ _ u _ Hu).
    pose proof (open_index_spec turns name u s (mok_map _ Hok) Hfair) as Hs.
    pose proof (open_index_quiet turns name u s (mok_map _ Hok)) as Hq.
    destruct (open_index cfg turns name u s) as [r s']. destruct Hs as (Hs & Hm & Hr).
    split; [done|]. split; [by eapply mapper_ok_same|]. destruct r as [i|e|p]; simpl in Hq.
    + by exists u.
    + destruct Hr as [[-> Hr]|?]; [left; split; [done|by intros ? [= <-]]|by right].
    + split; [done|]. intros Hquiet Hne.
      destruct (status u s) as [| |c|i] eqn:Hst;
        try (discriminate Hq; [done..|]; by intros [? ?]).
      split; [|by exists u, c]. intros Hans. by discriminate Hq.
  - rewrite (index_not_mapped _ _ _ Hu). split; [done|]. split; [done|]. by left.
Qed.

(** Opening an index by name, whatever the other threads do to the map of
    the opened indexes while its lock is free, changes no name, statistics or
    directory, and keeps the map well formed.  The index that is returned is
    the available one of the uuid of that name; an index is only reported as
    not found when its name is unknown or the index is being deleted; the other
    errors come from the opening itself.  The only panic is that of the
    hundredth attempt: without other threads, it does not happen once a wait for
    the closing of the index is answered before the last turn. *)
Theorem index_opens (turns : list Turn) (name : string) (s : IndexMapper) r s' :
  mapper_ok s → Forall fair turns →
  index cfg turns name s = (r, s') →
  same_databases s s' ∧ mapper_ok s' ∧
  match r with
  | Ok i => ∃ u, index_mapping s !! name = Some u ∧ status u s' = IndexMap.Available i
  | Err e =>
      (e = IndexNotFound name ∧
       ∀ u, index_mapping s !! name = Some u → status u s' = IndexMap.BeingDeleted) ∨
      ∃ h, e = error_of_host cfg h
  | Panic p =>
      p = "Too many spurious wake ups while trying to open the index" ∧
      (Forall quiet turns → turns ≠ [] → ¬ answered turns ∧
       ∃ u c, index_mapping s !! name = Some u ∧ status u s = IndexMap.Closing c)
  end.
Proof.
  intros Hok Hfair Hr. pose proof (index_outcome turns name s Hok Hfair) as Ho. by rewrite Hr in Ho.
Qed.

Lemma delete_index_mapped turns name u s : index_mapping s !! name = Some u →
  delete_index turns name s =
  let '(r, s') := take_down turns u
    (with_mapping (delete name (index_mapping s)) (with_stats (delete u (index_stats s)) s)) in
  ((λ thread, (u, thread)) <$> r, s').
Proof.
  intros Hu. unfold delete_index, mbind, st_bind, st_get, st_lift, uuid_of. rewrite Hu. simpl.
  rewrite Hu. simpl. by destruct (take_down _ _ _) as [[] ?].
Qed.

Lemma index_names_outcome (turns : list Turn) (name : string) (s : IndexMapper) :
  mapper_ok s → Forall quiet turns → turns ≠ [] →
  (∀ uuid date, index_mapping s !! name = None → (∀ n, index_mapping s !! n ≠ Some uuid) →
     status uuid s = IndexMap.Missing →
     let '(r, s') := create_index cfg turns uuid name date s in
     mapper_ok s' ∧ index_stats s' = index_stats s ∧
     match r with
     | Ok i => index_mapping s' = <[name := uuid]> (index_mapping s) ∧
         status uuid s' = IndexMap.Available i ∧ is_Some (disk s' !! uuid)
     | Err e => index_mapping s' = index_mapping s ∧ ∃ h, e = error_of_host cfg h
     | Panic _ => False
     end) ∧
  let '(r, s') := delete_index turns name s in
  match index_mapping s !! name with
  | None => r = Err (IndexNotFound name) ∧ s' = s
  | Some u =>
      mapper_ok s' ∧ index_mapping s' = delete name (index_mapping s) ∧
      index_stats s' = delete u (index_stats s) ∧ disk s' = disk s ∧
      match status u s with
      | IndexMap.Available i =>
          r = Ok (u, Spawned (Some (IndexMap.prepare_for_closing i))) ∧
          status u s' = IndexMap.BeingDeleted
      | IndexMap.BeingDeleted => r = Ok (u, NotSpawned) ∧ status u s' = IndexMap.Missing
      | IndexMap.Closing _ | IndexMap.Missing =>
          r = Ok (u, Spawned None) ∧ status u s' = IndexMap.Missing
      end
  end.
Proof.
  intros Hok Hquiet Hne. split.
  - intros uuid date Hu Hfresh Hst. unfold create_index. rewrite (index_not_mapped _ _ _ Hu).
    set (s1 := with_disk _ s).
    pose proof (create_step uuid (base_path cfg uuid) date (enable_mdb_writemap cfg)
      (index_base_map_size cfg) s1 (mok_map _ Hok) Hst) as Hc.
    destruct (locked _ _ s1) as [[i|e|p] s2]; destruct Hc as ((Hmap & Hstats & Hdisk) & Hm2 & Hr);
      [| |done]; rewrite ?Hmap; simpl.
    + split; [|rewrite Hdisk; split_and!; try done].
      * constructor; [done|]. simpl. intros n n' u'.
        destruct Hok as [_ Hn]. intros [[<- <-]|[Hne1 H1']]%lookup_insert_Some
          [[Hn2 Hu2]|[Hne2 H2']]%lookup_insert_Some; simplify_eq/=; try done.
        -- by destruct (Hfresh n').
        -- by destruct (Hfresh n).
        -- by eapply Hn.
      * simpl. by rewrite lookup_insert_eq.
    + destruct Hr as (-> & h & ->). split_and!; try done; [|by exists h].
      destruct Hok as [Hm Hn]. by constructor.
  - destruct (index_mapping s !! name) as [u|] eqn:Hu.
    + rewrite (delete_index_mapped _ _ u _ Hu). set (s1 := with_mapping _ _).
      pose proof (take_down_quiet turns u s1 (mok_map _ Hok) Hquiet Hne) as Ht.
      destruct (take_down turns u s1) as [r s2]. destruct Ht as ((Hmap & Hstats & Hdisk) & Hm2 & Hr).
      rewrite Hmap, Hstats, Hdisk. split_and!; try done.
      * constructor; [done|]. rewrite Hmap. simpl. intros n n' u'.
        intros [_ H1']%lookup_delete_Some [_ H2']%lookup_delete_Some. by eapply (mok_names _ Hok).
      * change (status u s1) with (status u s) in Hr.
        destruct (status u s); by destruct Hr as [-> ?].
    + unfold delete_index, mbind, st_bind, st_get, st_lift, uuid_of. by rewrite Hu.
Qed.

(** Creating an index under a free name and a fresh uuid opens it and maps
    the name to it, or fails without taking the name; it never panics.  Deleting
    an index forgets its name and statistics at once and keeps every other
    name; the thread that removes the directory waits for the environment of an
    open index, but not for one that was still being closed. *)
Theorem index_names_life (turns : list Turn) (name : string) (s : IndexMapper) :
  mapper_ok s → Forall quiet turns → turns ≠ [] →
  (∀ uuid date r s', index_mapping s !! name = None → (∀ n, index_mapping s !! n ≠ Some uuid) →
     status uuid s = IndexMap.Missing →
     create_index cfg turns uuid name date s = (r, s') →
     mapper_ok s' ∧ index_stats s' = index_stats s ∧
     match r with
     | Ok i => index_mapping s' = <[name := uuid]> (index_mapping s) ∧
         status uuid s' = IndexMap.Available i ∧ is_Some (disk s' !! uuid)
     | Err e => index_mapping s' = index_mapping s ∧ ∃ h, e = error_of_host cfg h
     | Panic _ => False
     end) ∧
  (∀ r s', delete_index turns name s = (r, s') →
  match index_mapping s !! name with
  | None => r = Err (IndexNotFound name) ∧ s' = s
  | Some u =>
      mapper_ok s' ∧ index_mapping s' = delete name (index_mapping s) ∧
      index_stats s' = delete u (index_stats s) ∧ disk s' = disk s ∧
      match status u s with
      | IndexMap.Available i =>
          r = Ok (u, Spawned (Some (IndexMap.prepare_for_closing i))) ∧
          status u s' = IndexMap.BeingDeleted
      | IndexMap.BeingDeleted => r = Ok (u, NotSpawned) ∧ status u s' = IndexMap.Missing
      | IndexMap.Closing _ | IndexMap.Missing =>
          r = Ok (u, Spawned None) ∧ status u s' = IndexMap.Missing
      end
  end).
Proof.
  intros Hok Hquiet Hne. destruct (index_names_outcome turns name s Hok Hquiet Hne) as [Hc Hd]. split.
  - intros uuid date r s' Hu Hf Hst Hr. specialize (Hc uuid date Hu Hf Hst). by rewrite Hr in Hc.
  - intros r s' Hr. by rewrite Hr in Hd.
Qed.

(** ** The interface of the batches *)
#[export] Instance names_of_mapper : IndexNames IndexMapper := {|
  IndexId := Uuid;
  resolve s name := index_mapping s !! name;
  swap_names_of := swap
|}.

#[export] Instance names_of_mapper_laws : IndexNamesLaws IndexMapper.
Proof.
  constructor. intros s lhs rhs [l Hl] [r Hr]. simpl in *. unfold swap, uuid_of. rewrite Hl, Hr.
  simpl. eexists. split; [done|]. intros n. simpl. unfold swap_uid. simpl.
  destruct (decide (n = rhs)) as [->|Hr'].
  - rewrite lookup_insert_eq. case_decide; by subst.
  - rewrite lookup_insert_ne by done. destruct (decide (n = lhs)) as [->|Hl'].
    + by rewrite lookup_insert_eq.
    + by rewrite lookup_insert_ne.
Qed.

(** A swap keeps every index under one name. *)
Lemma swap_ok lhs rhs s s' : mapper_ok s → swap lhs rhs s = Ok s' → mapper_ok s'.
Proof.
  intros [Hm Hn] Hsw. unfold swap, uuid_of in Hsw. inv_ok. constructor; [done|].
  simpl. intros n n' u. rewrite !lookup_insert_Some. naive_solver.
Qed.
End opening.

(** ** The mapper that the batches work on

    A handle is the uuid of a directory with the opened index; what the index
    holds is the content of the directory. *)
Section batches.
Context `{IndexMap.IndexHost} {C : Type} `{!Lru.CacheOps Uuid IndexMap.Index C}.
Context `{!JsonValue} {EN : IndexEngine} {IndexStats : Type}.
Abbreviation State := (IndexMapper (C:=C) (IndexStats:=IndexStats) (Data:=Content)).
Context (cfg : Config (Data:=Content)) (turns : list (Turn (C:=C))) (fresh : State → Uuid)
  (compute : Content → option IndexStats).

Definition with_uuid (name : string) (open : ST State Error IndexMap.Index)
    : ST State Error (Uuid * IndexMap.Index) :=
  i ← open; s ← st_get; uuid ← st_lift (uuid_of name s); mret (uuid, i).

Definition content_at (uuid : Uuid) (s : State) : Content := default (blank cfg) (disk s !! uuid).

Definition batch_mapper : Process.IndexMapper State := {|
  Process.mapper_names := names_of_mapper;
  Handle := Uuid * IndexMap.Index;
  mapper_index name := with_uuid name (index cfg turns name);
  mapper_create_index name := λ s, with_uuid name (create_index cfg turns (fresh s) name None) s;
  mapper_delete_index name := _ ← delete_index turns name; mret tt;
  mapper_resize_index := resize_index cfg;
  mapper_content handle := content_at handle.1;
  mapper_write handle c := λ s, with_disk (<[handle.1 := c]> (disk s)) s;
  mapper_store_stats name handle := λ s,
    match compute (content_at handle.1 s) with
    | Some stats => (store_stats_of name stats s).2
    | None => s
    end
|}.
End batches.

Module Demo.
Import UnitJson IndexMap.Demo TaskQueue.Demo Scheduler.Demo Batch.Demo Process.Demo.
Abbreviation State := (IndexMapper (C:=cache) (IndexStats:=N) (Data:=gset string)).

Definition cfg : Config (Data:=gset string) :=
  mkConfig (λ _, "indexes/") 8192 4096 false (λ e, Milli (mkForeign e C_Internal)) ∅.
Definition calm : Turn (C:=cache) := mkTurn (λ m, m) true (λ m, m) (λ m, m).
Definition turns : list (Turn (C:=cache)) := replicate 100 calm.

Lemma calm_quiet : Forall quiet turns.
Proof. apply Forall_replicate. done. Qed.

Lemma demo_host path date w size :
  is_panic (IndexMap.create_or_open_index path date w size) = false.
Proof. done. Qed.

(** Index 2 is open, index 1 is being closed. *)
Definition two : State :=
  mkMapper {["a" := 1%N; "b" := 2%N]} {[1%N := 5%N]} IndexMap.Demo.m1 {[1%N := {["x"]}; 2%N := ∅]}.

Lemma two_ok : mapper_ok 1 two.
Proof.
  constructor; [apply m1_ok|]. simpl. intros n n' u.
  rewrite !lookup_insert_Some, !lookup_singleton_Some. naive_solver.
Qed.

Lemma index_opens_witness :
  (index cfg turns "a" two).1 = Ok 8192%N ∧ mapper_ok 1 (index cfg turns "a" two).2.
Proof.
  split; [vm_compute; reflexivity|].
  exact (proj1 (proj2 (index_opens 1 cfg demo_host turns "a" two _ _ two_ok
    (Forall_impl _ _ _ calm_quiet (quiet_fair 1)) (surjective_pairing _)))).
Defined.

Lemma index_names_life_witness :
  (delete_index turns "a" two).1 = Ok (1%N, Spawned None) ∧
  index_mapping (delete_index turns "a" two).2 = delete "a" (index_mapping two).
Proof.
  split; [vm_compute; reflexivity|].
  exact (proj1 (proj2 (proj2 (index_names_life 1 cfg demo_host turns "a" two two_ok calm_quiet
    ltac:(discriminate)) _ _ (surjective_pairing _)))).
Defined.
End Demo.
