(* ===== verification/Json.v ===== *)
(** * JSON values (serde_json) and the depth checker (json-depth-checker/src/lib.rs)

    [Json] is [serde_json::Value]; its numbers are a parameter.  An object is
    the list of its entries in insertion order, as [serde_json::Map] keeps it
    with the feature [preserve_order] that the workspace turns on.  [text] is
    the shape of what [serde_json::to_vec] writes for a value, and
    [should_flatten_texts_agree] shows that the scan of these bytes answers
    what the inspection of the value answers. *)
From Stdlib Require Import Ascii String.
From S2P Require Import Prelude.

#[local] Set Warnings "-register-all".

(** ** Values *)
Inductive Json (Number : Type) : Type :=
| JNull
| JBool (b : bool)
| JNumber (n : Number)
| JString (s : string)
| JArray (a : list (Json Number))
| JObject (o : list (string * Json Number)).
Arguments JNull {Number}.
Arguments JBool {Number} b.
Arguments JNumber {Number} n.
Arguments JString {Number} s.
Arguments JArray {Number} a.
Arguments JObject {Number} o.

(** [serde_json::Map<String, Value>]. *)
Abbreviation Map Number := (list (string * Json Number)).

(** The induction principle that reaches the values inside arrays and
    objects. *)
Section json_ind.
Context {Number : Type} (P : Json Number → Prop).
Hypothesis case_null : P JNull.
Hypothesis case_bool : ∀ b, P (JBool b).
Hypothesis case_number : ∀ n, P (JNumber n).
Hypothesis case_string : ∀ s, P (JString s).
Hypothesis case_array : ∀ a, Forall P a → P (JArray a).
Hypothesis case_object : ∀ o, Forall (λ kv, P kv.2) o → P (JObject o).

Fixpoint json_ind' (v : Json Number) : P v :=
  match v with
  | JNull => case_null
  | JBool b => case_bool b
  | JNumber n => case_number n
  | JString s => case_string s
  | JArray a =>
      case_array a ((fix go (a : list (Json Number)) : Forall P a :=
        match a with
        | [] => Forall_nil_2 P
        | v :: a => Forall_cons_2 P v a (json_ind' v) (go a)
        end) a)
  | JObject o =>
      case_object o ((fix go (o : Map Number) : Forall (λ kv, P kv.2) o :=
        match o with
        | [] => Forall_nil_2 _
        | kv :: o => Forall_cons_2 _ kv o (json_ind' kv.2) (go o)
        end) o)
  end.
End json_ind.

Section json.
Context {Number : Type}.
Implicit Types (v : Json Number) (o : Map Number).

(** [Value::is_array] and [Value::is_object]. *)
Definition is_array v : bool := match v with JArray _ => true | _ => false end.
Definition is_object v : bool := match v with JObject _ => true | _ => false end.
Definition is_scalar v : bool := negb (is_array v) && negb (is_object v).

Lemma is_scalar_spec v :
  is_scalar v = true ↔ (∀ a, v ≠ JArray a) ∧ (∀ o, v ≠ JObject o).
Proof.
  unfold is_scalar. destruct v; simpl; split; try done;
    intros [Ha Ho]; solve [by destruct (Ha a) | by destruct (Ho o)].
Qed.
End json.

(** An object has each key once, at every depth. *)
Fixpoint json_ok {Number} (v : Json Number) : Prop :=
  match v with
  | JArray a => foldr (λ v P, json_ok v ∧ P) True a
  | JObject o => NoDup o.*1 ∧ foldr (λ kv P, json_ok kv.2 ∧ P) True o
  | _ => True
  end.

Lemma json_ok_array {Number} (a : list (Json Number)) :
  json_ok (JArray a) ↔ Forall json_ok a.
Proof. induction a as [|v a IH]; cbn in *; [done|]. by rewrite Forall_cons, IH. Qed.

Lemma json_ok_object {Number} (o : Map Number) :
  json_ok (JObject o) ↔ NoDup o.*1 ∧ Forall (λ kv, json_ok kv.2) o.
Proof.
  cbn. f_equiv. induction o as [|kv o IH]; cbn; [done|]. by rewrite Forall_cons, IH.
Qed.

Lemma scalar_json_ok {Number} (v : Json Number) : is_scalar v = true → json_ok v.
Proof. by destruct v. Qed.

(** ** Maps in insertion order *)
Section map_ops.
Context {V : Type}.
Implicit Types (o : list (string * V)) (k : string).

(** [Map::get]. *)
Fixpoint map_get k o : option V :=
  match o with
  | [] => None
  | (k', v) :: o => if decide (k = k') then Some v else map_get k o
  end.

(** [Map::insert]: the value of a known key is replaced in place, a new key
    goes to the end. *)
Fixpoint map_insert k (v : V) o : list (string * V) :=
  match o with
  | [] => [(k, v)]
  | (k', v') :: o => if decide (k = k') then (k', v) :: o else (k', v') :: map_insert k v o
  end.

(** [map.entry(key).or_insert(value)]. *)
Definition or_insert k (v : V) o : list (string * V) :=
  match map_get k o with Some _ => o | None => map_insert k v o end.

Lemma map_get_None k o : map_get k o = None ↔ k ∉ o.*1.
Proof.
  induction o as [|[k' v] o IH]; simpl; [set_solver|].
  destruct (decide (k = k')); set_solver.
Qed.

Lemma map_get_Some_elem k v o : map_get k o = Some v → (k, v) ∈ o.
Proof.
  induction o as [|[k' v'] o IH]; simpl; [done|].
  destruct (decide (k = k')) as [->|]; [intros [= ->]|]; set_solver.
Qed.

Lemma map_get_elem k v o : NoDup o.*1 → (k, v) ∈ o → map_get k o = Some v.
Proof.
  intros Hnd Hin. destruct (map_get k o) as [v'|] eqn:Hg.
  - apply map_get_Some_elem in Hg. f_equal. by eapply (NoDup_fst_inj o).
  - apply map_get_None in Hg. destruct Hg. by apply (list_elem_of_fmap_2 fst) in Hin.
Qed.

Lemma map_get_app k o o' :
  map_get k (o ++ o') = match map_get k o with Some v => Some v | None => map_get k o' end.
Proof.
  induction o as [|[k' v] o IH]; simpl; [done|]. by destruct (decide (k = k')).
Qed.

Lemma map_get_insert k k' v o :
  map_get k (map_insert k' v o) = if decide (k = k') then Some v else map_get k o.
Proof.
  induction o as [|[k0 v0] o IH]; simpl; [done|].
  destruct (decide (k' = k0)) as [->|]; simpl.
  - by destruct (decide (k = k0)).
  - rewrite IH. destruct (decide (k = k0)) , (decide (k = k')); congruence.
Qed.

Lemma map_insert_new k v o : map_get k o = None → map_insert k v o = o ++ [(k, v)].
Proof.
  induction o as [|[k' v'] o IH]; simpl; [done|].
  destruct (decide (k = k')); [done|]. intros. by rewrite IH.
Qed.

Lemma map_insert_keys k v o :
  (map_insert k v o).*1 = match map_get k o with Some _ => o.*1 | None => o.*1 ++ [k] end.
Proof.
  induction o as [|[k' v'] o IH]; [done|]. cbn [map_insert map_get].
  destruct (decide (k = k')); rewrite !fmap_cons; [done|]. rewrite IH.
  by destruct (map_get k o).
Qed.

Lemma map_insert_NoDup k v o : NoDup o.*1 → NoDup (map_insert k v o).*1.
Proof.
  intros Hnd. rewrite map_insert_keys. destruct (map_get k o) eqn:Hg; [done|].
  apply map_get_None in Hg. apply NoDup_app. split; [done|]. split; [set_solver|].
  apply NoDup_singleton.
Qed.

Lemma map_get_or_insert k k' v o :
  map_get k (or_insert k' v o) =
    match map_get k o with
    | Some w => Some w
    | None => if decide (k = k') then Some v else None
    end.
Proof.
  unfold or_insert. destruct (map_get k' o) eqn:Hg.
  - destruct (map_get k o) eqn:Hk; [done|].
    destruct (decide (k = k')); congruence.
  - rewrite map_get_insert. destruct (decide (k = k')) as [->|]; [by rewrite Hg|].
    by destruct (map_get k o).
Qed.

Lemma or_insert_NoDup k v o : NoDup o.*1 → NoDup (or_insert k v o).*1.
Proof. unfold or_insert. destruct (map_get k o); [done|]. apply map_insert_NoDup. Qed.

(** A map is determined by its lookups up to the order of its entries. *)
Lemma map_get_perm o o' :
  NoDup o.*1 → NoDup o'.*1 → (∀ k, map_get k o = map_get k o') → o ≡ₚ o'.
Proof.
  intros Hnd Hnd' Hget. apply NoDup_Permutation.
  - by eapply NoDup_fmap_1.
  - by eapply NoDup_fmap_1.
  - intros [k v]. split; intros Hin.
    + apply map_get_Some_elem. rewrite <- Hget. by apply map_get_elem.
    + apply map_get_Some_elem. rewrite Hget. by apply map_get_elem.
Qed.
End map_ops.

(** ** The compact text of a value

    [to_vec] writes no blank; of a string and of a number only the bytes that
    matter to a scanner are said: a string's text is quoted, and a quote or a
    backslash in it is the second byte of an escape sequence; a number's text is not empty and
    starts and continues with none of the bytes that open something. *)
Abbreviation bytes := (list ascii).

Definition quote : ascii := ascii_of_nat 34.
Definition backslash : ascii := ascii_of_nat 92.
Definition lbracket : ascii := ascii_of_nat 91.
Definition rbracket : ascii := ascii_of_nat 93.
Definition lbrace : ascii := ascii_of_nat 123.
Definition rbrace : ascii := ascii_of_nat 125.
Definition comma : ascii := ascii_of_nat 44.
Definition colon : ascii := ascii_of_nat 58.

(** A byte that opens neither a string, an escape sequence, an array nor an
    object. *)
Definition plain (c : ascii) : Prop :=
  c ≠ quote ∧ c ≠ backslash ∧ c ≠ lbracket ∧ c ≠ lbrace.

#[export] Instance plain_dec c : Decision (plain c).
Proof. unfold plain. apply _. Defined.

(** Decides that the bytes of a literal are plain. *)
Ltac plain_literal := apply (bool_decide_eq_true_1 _); vm_compute; reflexivity.

Inductive string_body : bytes → Prop :=
| body_nil : string_body []
| body_raw c s : c ≠ quote → c ≠ backslash → string_body s → string_body (c :: s)
| body_escape c s : string_body s → string_body (backslash :: c :: s).

Definition quoted (body : bytes) : bytes := quote :: body ++ [quote].

Section text.
Context {Number : Type} (number_text : Number → bytes → Prop).

Inductive text : Json Number → bytes → Prop :=
| text_null : text JNull (list_ascii_of_string "null")
| text_true : text (JBool true) (list_ascii_of_string "true")
| text_false : text (JBool false) (list_ascii_of_string "false")
| text_number n t : number_text n t → text (JNumber n) t
| text_string s body : string_body body → text (JString s) (quoted body)
| text_array a t : text_elements a t → text (JArray a) (lbracket :: t ++ [rbracket])
| text_object o t : text_members o t → text (JObject o) (lbrace :: t ++ [rbrace])
with text_elements : list (Json Number) → bytes → Prop :=
| elements_nil : text_elements [] []
| elements_one v t : text v t → text_elements [v] t
| elements_cons v w a t e :
    text v t → text_elements (w :: a) e → text_elements (v :: w :: a) (t ++ comma :: e)
with text_members : Map Number → bytes → Prop :=
| members_nil : text_members [] []
| members_one k body v t :
    string_body body → text v t → text_members [(k, v)] (quoted body ++ colon :: t)
| members_cons k body v kv o t e :
    string_body body → text v t → text_members (kv :: o) e →
    text_members ((k, v) :: kv :: o) (quoted body ++ colon :: t ++ comma :: e).
End text.

(** ** The depth checker *)

(** The loop of [should_flatten_from_unchecked_slice]; [true] is its early
    return. *)
Fixpoint scan (skip_next in_string : bool) (json : bytes) : bool :=
  match json with
  | [] => false
  | byte :: json =>
      if skip_next then scan false in_string json
      else if decide (byte = backslash) then scan true in_string json
      else if in_string then
        if decide (byte = quote) then scan skip_next false json
        else scan skip_next in_string json
      else if decide (byte = quote) then scan skip_next true json
      else if decide (byte = lbracket) then true
      else if decide (byte = lbrace) then true
      else scan skip_next in_string json
  end.

Definition should_flatten_from_unchecked_slice (json : bytes) : bool :=
  match json with
  | [] => false
  | byte :: rest =>
      if decide (byte = lbrace) then true
      else if negb (bool_decide (byte = lbracket)) then false
      else scan false false rest
  end.

Definition should_flatten_from_value {Number} (json : Json Number) : bool :=
  match json with
  | JObject _ => true
  | JArray array => existsb (λ value, is_array value || is_object value) array
  | _ => false
  end.

(** ** The scan follows the text *)
Section scan_lemmas.
Implicit Types (t rest body : bytes).

Lemma scan_plain t rest :
  Forall plain t → scan false false (t ++ rest) = scan false false rest.
Proof.
  induction 1 as [|c t (Hq & Hb & Hl & Hr) Ht IH]; [done|]. cbn [scan app].
  by rewrite !decide_False by done.
Qed.

Lemma scan_string_body body rest :
  string_body body → scan false true (body ++ quote :: rest) = scan false false rest.
Proof.
  induction 1 as [|c s Hq Hb Hs IH|c s Hs IH]; cbn [scan app].
  - rewrite decide_False by done. by rewrite decide_True.
  - by rewrite !decide_False by done.
  - by rewrite decide_True.
Qed.

Lemma scan_quoted body rest :
  string_body body → scan false false (quoted body ++ rest) = scan false false rest.
Proof.
  intros Hb. unfold quoted. cbn [scan app].
  rewrite decide_False by done. rewrite decide_True by done.
  rewrite <- app_assoc. by apply scan_string_body.
Qed.

Lemma scan_opens t : scan false false (lbracket :: t) = true.
Proof. cbn [scan]. by rewrite !decide_False, decide_True by done. Qed.

Lemma scan_opens_object t : scan false false (lbrace :: t) = true.
Proof. cbn [scan]. by rewrite !decide_False, decide_True by done. Qed.
End scan_lemmas.

Section depth.
Context {Number : Type} (number_text : Number → bytes → Prop).
Hypothesis number_text_plain : ∀ n t, number_text n t → Forall plain t.
Hypothesis number_text_not_empty : ∀ n t, number_text n t → t ≠ [].

Lemma scan_scalar v t rest :
  text number_text v t → is_scalar v = true →
  scan false false (t ++ rest) = scan false false rest.
Proof.
  intros Ht Hv. destruct Ht; try discriminate Hv.
  - by apply scan_plain; plain_literal.
  - by apply scan_plain; plain_literal.
  - by apply scan_plain; plain_literal.
  - apply scan_plain. by eapply number_text_plain.
  - by apply scan_quoted.
Qed.

Lemma scan_nested v t rest :
  text number_text v t → is_scalar v = false → scan false false (t ++ rest) = true.
Proof.
  intros Ht Hv. destruct Ht; try discriminate Hv; cbn [app].
  - apply scan_opens.
  - apply scan_opens_object.
Qed.

Lemma scan_elements a t rest :
  text_elements number_text a t →
  scan false false rest = false →
  scan false false (t ++ rest) = existsb (λ v, negb (is_scalar v)) a.
Proof.
  intros Ht Hrest. induction Ht as [|v t Hv|v w a t e Hv He IH].
  - done.
  - cbn [existsb]. destruct (is_scalar v) eqn:Hs.
    + by rewrite (scan_scalar v).
    + by rewrite (scan_nested v).
  - change (existsb ?f (v :: ?l)) with (f v || existsb f l). rewrite <- IH, <- app_assoc.
    destruct (is_scalar v) eqn:Hs.
    + rewrite (scan_scalar v) by done. cbn [app scan].
      by rewrite !decide_False by done.
    + by rewrite (scan_nested v).
Qed.

Lemma scalar_text_start v t :
  text number_text v t → is_scalar v = true →
  ∃ c t', t = c :: t' ∧ c ≠ lbracket ∧ c ≠ lbrace.
Proof.
  intros Ht Hv.
  destruct Ht as [| | |n t Hn|s body Hb| |]; try discriminate Hv;
    try (eexists _, _; split; [reflexivity|split; vm_compute; discriminate]).
  pose proof (number_text_not_empty n t Hn). pose proof (number_text_plain n t Hn) as Hp.
  destruct t as [|c t]; [done|]. apply Forall_cons in Hp as [(? & ? & ? & ?) ?]. eauto.
Qed.

Lemma negb_is_scalar (v : Json Number) : negb (is_scalar v) = is_array v || is_object v.
Proof. by destruct v. Qed.

Lemma scan_of_text v t :
  text number_text v t →
  should_flatten_from_unchecked_slice t = should_flatten_from_value v.
Proof.
  intros Ht. destruct (is_scalar v) eqn:Hs.
  - destruct (scalar_text_start v t Ht Hs) as (c & t' & -> & Hc & Hc'). cbn.
    rewrite decide_False, bool_decide_false by done. by destruct v.
  - destruct Ht as [| | | | |a t Ha|]; try discriminate Hs; [|done].
    unfold should_flatten_from_unchecked_slice, should_flatten_from_value.
    rewrite decide_False, bool_decide_true by done. cbn [negb].
    rewrite (scan_elements a) by done. induction a as [|v a _]; [done|].
    clear. generalize (v :: a). intros l. induction l as [|w l IH]; [done|].
    cbn [existsb]. by rewrite IH, negb_is_scalar.
Qed.
(** On the compact text of a JSON value, the scan of the bytes answers what
    the inspection of the value answers: whether the value is an object or an
    array with an array or an object among its elements.  The brackets and
    braces that occur in strings, escape sequences included, do not mislead
    it. *)
Theorem should_flatten_texts_agree v t :
  text number_text v t →
  should_flatten_from_unchecked_slice t = should_flatten_from_value v.
Proof. apply scan_of_text. Qed.
End depth.

(** ** Witnesses *)
Module Demo.

Definition doc : Json N :=
  JArray [JString "a[{"; JNumber 1%N; JArray [JNull]].

(** The string of [doc] holds an opening bracket, an opening brace and an
    escaped quote. *)
Definition doc_body : bytes := list_ascii_of_string "a[{" ++ [backslash; quote].

Definition doc_text : bytes :=
  lbracket :: (quoted doc_body ++ comma :: list_ascii_of_string "1" ++ comma ::
    (lbracket :: list_ascii_of_string "null" ++ [rbracket])) ++ [rbracket].

(** One digit is enough here. *)
Definition digit (n : N) (t : bytes) : Prop := n = 1%N ∧ t = list_ascii_of_string "1".

Example doc_is_nested : should_flatten_from_unchecked_slice doc_text = true.
Proof. vm_compute. reflexivity. Qed.

Example doc_text_ok : text digit doc doc_text.
Proof.
  apply text_array. apply elements_cons.
  { apply text_string. repeat (apply body_raw; [done..|]). apply body_escape, body_nil. }
  apply (elements_cons _ _ _ _ (list_ascii_of_string "1")); [by apply text_number|].
  apply elements_one, text_array. apply elements_one, text_null.
Qed.

Lemma should_flatten_texts_agree_witness :
  text digit doc doc_text ∧
  should_flatten_from_unchecked_slice doc_text = should_flatten_from_value doc.
Proof.
  split; [apply doc_text_ok|].
  apply (should_flatten_texts_agree digit).
  - intros n t [_ ->]. plain_literal.
  - intros n t [_ ->]. discriminate.
  - apply doc_text_ok.
Defined.
End Demo.
