(* ===== verification/Flatten.v ===== *)
(** * Flattening of JSON objects (flatten-serde-json/src/lib.rs)

    The functions thread the object under construction and the list of all
    entries met, as the mutable references of the code do.  [insert_member] and
    [insert_element] are the bodies of the loops of [insert_object] and
    [insert_array].  The reference is [member_leaves]: the scalars of a value,
    each with its path, in document order; [flatten_lookup] says what the
    flattened object holds under each key in terms of these leaves. *)
From S2P Require Import Prelude Json.

Section flatten.
Context {Number : Type}.
Implicit Types (v value : Json Number) (o object : Map Number) (a : list (Json Number)).

(** The object under construction and [all_entries]. *)
Definition Flattening : Type := Map Number * list (string * Json Number).

Definition insert_value (base_json : Map Number) (key : string) (to_insert : Json Number)
    (came_from_array : bool) : Map Number :=
  match map_get key base_json with
  | Some (JArray array) => map_insert key (JArray (array ++ [to_insert])) base_json
  | Some value => map_insert key (JArray [value; to_insert]) base_json
  | None =>
      if came_from_array then map_insert key (JArray [to_insert]) base_json
      else map_insert key to_insert base_json
  end.

(** [format!("{base_key}.{key}")]. *)
Definition join (base_key key : string) : string := base_key +:+ "." +:+ key.

Definition sub_key (base_key : option string) (key : string) : string :=
  match base_key with None => key | Some base_key => join base_key key end.

Fixpoint insert_member (new_key : string) value (st : Flattening) {struct value} : Flattening :=
  let st := (st.1, st.2 ++ [(new_key, value)]) in
  match value with
  | JArray array => foldl (λ st value, insert_element new_key value st) st array
  | JObject object =>
      foldl (λ st '(key, value), insert_member (join new_key key) value st) st object
  | _ => (insert_value st.1 new_key value false, st.2)
  end
with insert_element (base_key : string) value (st : Flattening) {struct value} : Flattening :=
  match value with
  | JObject object =>
      foldl (λ st '(key, value), insert_member (join base_key key) value st) st object
  | JArray sub_array => foldl (λ st value, insert_element base_key value st) st sub_array
  | _ => (insert_value st.1 base_key value true, st.2)
  end.

Definition insert_object (base_key : option string) object (st : Flattening) : Flattening :=
  foldl (λ st '(key, value), insert_member (sub_key base_key key) value st) st object.

Definition insert_array (base_key : string) array (st : Flattening) : Flattening :=
  foldl (λ st value, insert_element base_key value st) st array.

Definition flatten (json : Map Number) : Map Number :=
  let '(obj, all_entries) := insert_object None json ([], []) in
  foldl (λ obj '(key, old_val), or_insert key old_val obj) obj all_entries.

(** The loop bodies call the loops. *)
Lemma insert_member_array key array st :
  insert_member key (JArray array) st =
    insert_array key array (st.1, st.2 ++ [(key, JArray array)]).
Proof. done. Qed.

Lemma insert_member_object key object st :
  insert_member key (JObject object) st =
    insert_object (Some key) object (st.1, st.2 ++ [(key, JObject object)]).
Proof. done. Qed.

Lemma insert_element_array key array st :
  insert_element key (JArray array) st = insert_array key array st.
Proof. done. Qed.

Lemma insert_element_object key object st :
  insert_element key (JObject object) st = insert_object (Some key) object st.
Proof. done. Qed.

(** ** The reference: leaves and entries in document order *)

(** A leaf: its path, whether the innermost container of the scalar is an
    array, and the scalar. *)
Definition Leaf : Type := string * (bool * Json Number).

Fixpoint leaves_at (from_array : bool) (key : string) value : list Leaf :=
  match value with
  | JArray array => concat (map (leaves_at true key) array)
  | JObject object => concat (map (λ '(k, v), leaves_at false (join key k) v) object)
  | _ => [(key, (from_array, value))]
  end.

(** The entries of the objects of a value, the nested ones after the entry they
    are in. *)
Fixpoint entries_in (key : string) value : list (string * Json Number) :=
  match value with
  | JArray array => concat (map (entries_in key) array)
  | JObject object =>
      concat (map (λ '(k, v), (join key k, v) :: entries_in (join key k) v) object)
  | _ => []
  end.

Definition leaves object : list Leaf :=
  concat (map (λ '(k, v), leaves_at false k v) object).

Definition entries object : list (string * Json Number) :=
  concat (map (λ '(k, v), (k, v) :: entries_in k v) object).

Definition insert_leaf (base_json : Map Number) (l : Leaf) : Map Number :=
  insert_value base_json l.1 l.2.2 l.2.1.

Lemma insert_is_leaves value key st :
  insert_member key value st =
    (foldl insert_leaf st.1 (leaves_at false key value),
     st.2 ++ (key, value) :: entries_in key value) ∧
  insert_element key value st =
    (foldl insert_leaf st.1 (leaves_at true key value), st.2 ++ entries_in key value).
Proof.
  revert key st.
  induction value as [|b|n|s|a IH|o IH] using json_ind'; intros key st;
    try by (split; cbn; rewrite ?app_nil_r).
  - assert (∀ st, foldl (λ st value, insert_element key value st) st a =
      (foldl insert_leaf st.1 (concat (map (leaves_at true key) a)),
       st.2 ++ concat (map (entries_in key) a))) as Hall.
    { clear st. induction IH as [|v a Hv _ IHa]; intros st; cbn.
      - rewrite app_nil_r. by destruct st.
      - rewrite (proj2 (Hv key st)), IHa. cbn. by rewrite foldl_app, <- app_assoc. }
    cbn. rewrite !Hall. cbn. by rewrite <- app_assoc.
  - assert (∀ st, foldl (λ st '(k, value), insert_member (join key k) value st) st o =
      (foldl insert_leaf st.1 (concat (map (λ '(k, v), leaves_at false (join key k) v) o)),
       st.2 ++ concat (map (λ '(k, v), (join key k, v) :: entries_in (join key k) v) o))) as Hall.
    { clear st. induction IH as [|[k v] o Hv _ IHo]; intros st; cbn.
      - rewrite app_nil_r. by destruct st.
      - cbn in Hv. rewrite (proj1 (Hv (join key k) st)), IHo. cbn.
        by rewrite foldl_app, <- app_assoc. }
    cbn. rewrite !Hall. cbn. by rewrite <- app_assoc.
Qed.

Lemma insert_object_is_leaves object :
  insert_object None object ([], []) = (foldl insert_leaf [] (leaves object), entries object).
Proof.
  unfold insert_object, leaves, entries.
  assert (∀ st : Flattening,
    foldl (λ st '(key, value), insert_member (sub_key None key) value st) st object =
    (foldl insert_leaf st.1 (concat (map (λ '(k, v), leaves_at false k v) object)),
     st.2 ++ concat (map (λ '(k, v), (k, v) :: entries_in k v) object))) as ->; [|done].
  induction object as [|[k v] o IH]; intros st; cbn.
  - rewrite app_nil_r. by destruct st.
  - rewrite (proj1 (insert_is_leaves v k st)), IH. cbn. by rewrite foldl_app, <- app_assoc.
Qed.

(** ** What the flattened object holds *)

(** The scalars with a path, in document order. *)
Definition at_path (k : string) (ls : list Leaf) : list (bool * Json Number) :=
  snd <$> filter (λ l : Leaf, l.1 = k) ls.

(** A lone scalar that an object holds stays as it is; all others are gathered
    in an array. *)
Definition flat_value (ls : list (bool * Json Number)) : option (Json Number) :=
  match ls with
  | [] => None
  | [(false, v)] => Some v
  | _ => Some (JArray ls.*2)
  end.

Lemma flat_value_snoc ls b v :
  ls ≠ [] → flat_value (ls ++ [(b, v)]) = Some (JArray (ls.*2 ++ [v])).
Proof.
  intros Hls. destruct ls as [|[b0 v0] ls]; [done|].
  destruct ls as [|x ls], b0; simpl; rewrite ?fmap_app; reflexivity.
Qed.

Lemma flat_value_is_Some ls : ls ≠ [] → is_Some (flat_value ls).
Proof. destruct ls as [|[[] ?] []]; intros; simpl; done. Qed.

Lemma at_path_cons k l ls :
  at_path k (l :: ls) = (if decide (l.1 = k) then [l.2] else []) ++ at_path k ls.
Proof. unfold at_path. rewrite filter_cons. by destruct (decide (l.1 = k)). Qed.

Lemma at_path_app k ls ls' : at_path k (ls ++ ls') = at_path k ls ++ at_path k ls'.
Proof. unfold at_path. by rewrite filter_app, fmap_app. Qed.

Lemma at_path_elem k x ls : x ∈ at_path k ls ↔ (k, x) ∈ ls.
Proof.
  unfold at_path. rewrite list_elem_of_fmap. split.
  - intros ([k' y] & -> & [Heq Hin]%list_elem_of_filter). simpl in *. by subst.
  - intros Hin. exists (k, x). by rewrite list_elem_of_filter.
Qed.

Definition scalar_leaf (l : Leaf) : Prop := is_scalar l.2.2 = true.

Lemma leaves_at_scalar b key v : Forall scalar_leaf (leaves_at b key v).
Proof.
  revert b key. induction v as [|b|n|s|a IH|o IH] using json_ind'; intros b0 key;
    cbn [leaves_at]; try by repeat constructor.
  - apply Forall_concat, Forall_map. eapply Forall_impl; [exact IH|]. auto.
  - apply Forall_concat, Forall_map. eapply Forall_impl; [exact IH|]. intros [k v]. auto.
Qed.

Lemma leaves_scalar object : Forall scalar_leaf (leaves object).
Proof.
  apply Forall_concat, Forall_map, Forall_forall. intros [k v] _. apply leaves_at_scalar.
Qed.

Lemma insert_leaf_get k pre base_json key b v :
  Forall (λ x : bool * Json Number, is_scalar x.2 = true) pre →
  map_get k base_json = flat_value pre →
  map_get k (insert_leaf base_json (key, (b, v))) =
    flat_value (pre ++ if decide (key = k) then [(b, v)] else []).
Proof.
  intros Hpre Hget. unfold insert_leaf, insert_value. cbn [fst snd].
  destruct (decide (key = k)) as [->|Hne].
  - rewrite Hget. destruct pre as [|[b0 v0] pre]; [by destruct b; cbn; rewrite map_get_insert, decide_True|].
    rewrite flat_value_snoc by done.
    apply Forall_cons in Hpre as [Hv0 _]. cbn in Hv0.
    destruct pre as [|x pre], b0; cbn; try by rewrite map_get_insert, decide_True.
    destruct v0; try done; by rewrite map_get_insert, decide_True.
  - rewrite app_nil_r, <- Hget.
    destruct (map_get key base_json) as [[]|]; [..|destruct b];
      by rewrite map_get_insert, decide_False.
Qed.

Lemma insert_leaves_get k ls base_json pre :
  Forall (λ x : bool * Json Number, is_scalar x.2 = true) pre →
  Forall scalar_leaf ls →
  map_get k base_json = flat_value pre →
  map_get k (foldl insert_leaf base_json ls) = flat_value (pre ++ at_path k ls).
Proof.
  intros Hpre Hls. revert base_json pre Hpre.
  induction Hls as [|[key [b v]] ls Hl Hls IH]; intros base_json pre Hpre Hget.
  - by rewrite app_nil_r.
  - rewrite at_path_cons, app_assoc. cbn [foldl fst snd]. apply IH.
    + apply Forall_app. split; [done|]. destruct (decide (key = k)); by repeat constructor.
    + by apply insert_leaf_get.
Qed.

Lemma insert_value_NoDup base_json key v b :
  NoDup base_json.*1 → NoDup (insert_value base_json key v b).*1.
Proof.
  intros. unfold insert_value.
  destruct (map_get key base_json) as [[]|]; [..|destruct b]; by apply map_insert_NoDup.
Qed.

Lemma insert_leaves_NoDup ls base_json :
  NoDup base_json.*1 → NoDup (foldl insert_leaf base_json ls).*1.
Proof.
  revert base_json. induction ls as [|l ls IH]; intros base_json Hnd; [done|].
  cbn. by apply IH, insert_value_NoDup.
Qed.

Lemma or_insert_all_get k (es : list (string * Json Number)) obj :
  map_get k (foldl (λ obj '(key, old_val), or_insert key old_val obj) obj es) =
    match map_get k obj with Some v => Some v | None => map_get k es end.
Proof.
  revert obj. induction es as [|[key v] es IH]; intros obj; cbn; [by destruct (map_get k obj)|].
  rewrite IH, map_get_or_insert. destruct (map_get k obj); [done|].
  by destruct (decide (k = key)).
Qed.

Lemma or_insert_all_NoDup (es : list (string * Json Number)) (obj : Map Number) :
  NoDup obj.*1 →
  NoDup (foldl (λ obj '(key, old_val), or_insert key old_val obj) obj es).*1.
Proof.
  revert obj. induction es as [|[key v] es IH]; intros obj Hnd; [done|].
  cbn. by apply IH, or_insert_NoDup.
Qed.

Lemma flatten_get object k :
  map_get k (flatten object) =
    match flat_value (at_path k (leaves object)) with
    | Some v => Some v
    | None => map_get k (entries object)
    end.
Proof.
  unfold flatten. rewrite insert_object_is_leaves, or_insert_all_get.
  by rewrite (insert_leaves_get k _ _ []) by (constructor || apply leaves_scalar).
Qed.

Lemma flatten_NoDup object : NoDup (flatten object).*1.
Proof.
  unfold flatten. rewrite insert_object_is_leaves.
  apply or_insert_all_NoDup, insert_leaves_NoDup. constructor.
Qed.

(** ** The scalars of a field *)

(** The scalars of a field's value, those of its sub-objects left aside. *)
Fixpoint scalars value : list (Json Number) :=
  match value with
  | JArray a => concat (map scalars a)
  | JObject _ => []
  | _ => [value]
  end.

Definition field_scalars (field : option (Json Number)) : list (Json Number) :=
  match field with Some value => scalars value | None => [] end.

Lemma scalars_scalar v : is_scalar v = true → scalars v = [v].
Proof. by destruct v. Qed.

Lemma scalars_of_scalars (a : list (Json Number)) :
  Forall (λ v, is_scalar v = true) a → scalars (JArray a) = a.
Proof.
  induction 1 as [|v a Hv Ha IH]; [done|]. cbn in *. by rewrite IH, scalars_scalar.
Qed.

Lemma field_scalars_flat_value ls :
  Forall (λ x : bool * Json Number, is_scalar x.2 = true) ls →
  field_scalars (flat_value ls) = ls.*2.
Proof.
  intros Hls. assert (scalars (JArray ls.*2) = ls.*2) as Harr.
  { apply scalars_of_scalars, Forall_fmap. done. }
  destruct ls as [|[[] v] [|x ls]]; try done. apply Forall_cons in Hls as [Hv _].
  by apply scalars_scalar.
Qed.

Lemma at_path_scalar k ls :
  Forall scalar_leaf ls → Forall (λ x : bool * Json Number, is_scalar x.2 = true) (at_path k ls).
Proof.
  intros Hls. apply Forall_forall. intros x Hx%at_path_elem.
  rewrite Forall_forall in Hls. by apply Hls in Hx.
Qed.

Lemma elem_of_concat_map {A B} (f : A → list B) (l : list A) y :
  y ∈ concat (map f l) ↔ ∃ x, x ∈ l ∧ y ∈ f x.
Proof.
  rewrite list_elem_of_In, in_concat. setoid_rewrite in_map_iff. split.
  - intros (? & (x & <- & Hx) & Hy). exists x. by rewrite !list_elem_of_In.
  - intros (x & Hx%list_elem_of_In & Hy%list_elem_of_In). eauto.
Qed.

Lemma scalars_are_leaves b key v x :
  x ∈ scalars v → ∃ b', (key, (b', x)) ∈ leaves_at b key v.
Proof.
  revert b key. induction v as [|b|n|s|a IH|o IH] using json_ind'; intros b0 key;
    cbn [leaves_at scalars]; try (intros ->%list_elem_of_singleton; exists b0; set_solver).
  - intros (w & Hw & Hx)%elem_of_concat_map. rewrite Forall_forall in IH.
    destruct (IH w Hw true key Hx) as [b' Hb']. exists b'. apply elem_of_concat_map. eauto.
  - set_solver.
Qed.

Lemma entries_in_leaves key b v k w :
  (k, w) ∈ entries_in key v → leaves_at false k w ⊆ leaves_at b key v.
Proof.
  revert b key. induction v as [|b|n|s|a IH|o IH] using json_ind'; intros b0 key;
    cbn [entries_in leaves_at]; try set_solver; intros (u & Hu & Hk)%elem_of_concat_map.
  - rewrite Forall_forall in IH. intros l Hl. apply elem_of_concat_map. exists u.
    split; [done|]. by apply (IH u Hu true key Hk).
  - destruct u as [k' u]. rewrite Forall_forall in IH. intros l Hl.
    apply elem_of_concat_map. exists (k', u). split; [done|].
    apply elem_of_cons in Hk as [[= -> ->]|Hk]; [done|].
    by apply (IH (k', u) Hu false (join key k') Hk).
Qed.

Lemma entries_leaves object k w :
  (k, w) ∈ entries object → leaves_at false k w ⊆ leaves object.
Proof.
  unfold entries, leaves. intros ([k' u] & Hu & Hk)%elem_of_concat_map l Hl.
  apply elem_of_concat_map. exists (k', u). split; [done|].
  apply elem_of_cons in Hk as [[= -> ->]|Hk]; [done|].
  by apply (entries_in_leaves k' false u k w Hk).
Qed.

Lemma entry_without_leaves object k :
  at_path k (leaves object) = [] → field_scalars (map_get k (entries object)) = [].
Proof.
  intros Hno. destruct (map_get k (entries object)) as [v|] eqn:Hg; [cbn|done].
  apply map_get_Some_elem in Hg. destruct (scalars v) as [|x xs] eqn:Hs; [done|].
  destruct (scalars_are_leaves false k v x) as [b Hb]; [rewrite Hs; set_solver|].
  apply (entries_leaves object k v Hg) in Hb. apply at_path_elem in Hb.
  rewrite Hno in Hb. set_solver.
Qed.

Lemma flatten_field_scalars object k :
  field_scalars (map_get k (flatten object)) = (at_path k (leaves object)).*2.
Proof.
  rewrite flatten_get. destruct (flat_value (at_path k (leaves object))) as [v|] eqn:Hv.
  - rewrite <- Hv. apply field_scalars_flat_value, at_path_scalar, leaves_scalar.
  - destruct (at_path k (leaves object)) as [|x ls] eqn:Hls.
    + by apply entry_without_leaves.
    + destruct (flat_value_is_Some (x :: ls)) as [? ?]; [done|congruence].
Qed.

(** ** Objects that are flat already *)

Definition is_flat object : Prop :=
  Forall (λ kv, should_flatten_from_value kv.2 = false) object.

Lemma flat_leaves b k v :
  should_flatten_from_value v = false →
  leaves_at b k v =
    match v with JArray a => (λ x, (k, (true, x))) <$> a | _ => [(k, (b, v))] end ∧
  entries_in k v = [].
Proof.
  destruct v as [| | | |a|o]; cbn; try done. intros Ha.
  rewrite existsb_false in Ha. induction a as [|x a IH]; [done|]. cbn.
  destruct IH as [IH1 IH2]; [set_solver|]. rewrite IH1, IH2.
  specialize (Ha x ltac:(set_solver)). by destruct x.
Qed.

Lemma flat_entries object : is_flat object → entries object = object.
Proof.
  induction 1 as [|[k v] o Hv Ho IH]; [done|]. unfold entries in *. cbn in *.
  by rewrite (proj2 (flat_leaves false k v Hv)), IH.
Qed.

Lemma at_path_member k b k' v :
  should_flatten_from_value v = false →
  at_path k (leaves_at b k' v) =
    if decide (k' = k) then
      match v with JArray a => (λ x, (true, x)) <$> a | _ => [(b, v)] end
    else [].
Proof.
  intros Hv. rewrite (proj1 (flat_leaves b k' v Hv)).
  assert (∀ a : list (Json Number),
    at_path k ((λ x, (k', (true, x))) <$> a) =
      if decide (k' = k) then (λ x, (true, x)) <$> a else []) as Harr.
  { intros a. induction a as [|x a IH]; [by destruct (decide (k' = k))|].
    rewrite fmap_cons, at_path_cons, IH. cbn. by destruct (decide (k' = k)). }
  destruct v; try apply Harr; rewrite at_path_cons; cbn; by destruct (decide (k' = k)).
Qed.

Lemma flat_at_path object k :
  is_flat object → NoDup object.*1 →
  at_path k (leaves object) =
    match map_get k object with
    | Some (JArray a) => (λ x, (true, x)) <$> a
    | Some v => [(false, v)]
    | None => []
    end.
Proof.
  induction 1 as [|[k' v] o Hv Ho IH]; intros Hnd; [done|].
  rewrite fmap_cons in Hnd. apply NoDup_cons in Hnd as [Hk'%map_get_None Hnd].
  cbn [fst] in Hk'.
  change (leaves ((k', v) :: o)) with (leaves_at false k' v ++ leaves o).
  rewrite at_path_app, at_path_member, (IH Hnd) by done. cbn [map_get].
  destruct (decide (k' = k)) as [->|Hne].
  - rewrite decide_True, Hk', app_nil_r by done. by destruct v.
  - by rewrite decide_False.
Qed.

Lemma flat_lookup object k :
  is_flat object → NoDup object.*1 → map_get k (flatten object) = map_get k object.
Proof.
  intros Hflat Hnd. rewrite flatten_get, flat_at_path, flat_entries by done.
  destruct (map_get k object) as [v|] eqn:Hg; [|done].
  destruct v as [| | | |[|x a]|]; cbn; rewrite ?Hg; try done.
  by rewrite <- list_fmap_compose, list_fmap_id.
Qed.

(** ** The scalars of a document by field *)

(** All the scalars under a name, if a document has it several times. *)
Definition scalars_under (nm : string) (d : Map Number) : list (Json Number) :=
  concat (map (λ e, if decide (e.1 = nm) then scalars e.2 else []) d).

Lemma scalars_under_app nm d d' :
  scalars_under nm (d ++ d') = scalars_under nm d ++ scalars_under nm d'.
Proof. unfold scalars_under. by rewrite map_app, concat_app. Qed.

Lemma concat_map_perm {A B} (f : A → list B) (l l' : list A) :
  l ≡ₚ l' → concat (map f l) ≡ₚ concat (map f l').
Proof.
  induction 1 as [|x l l' _ IH|x y l|l1 l2 l3 _ IH1 _ IH2]; cbn; [done|by rewrite IH| |].
  - by rewrite !app_assoc, (Permutation_app_comm (f y)).
  - by rewrite IH1.
Qed.

#[export] Instance scalars_under_perm nm : Proper ((≡ₚ) ==> (≡ₚ)) (scalars_under nm).
Proof. intros d d' Hd. by apply concat_map_perm. Qed.

Lemma scalars_under_absent nm d : nm ∉ d.*1 → scalars_under nm d = [].
Proof.
  induction d as [|[k v] d IH]; intros Hnm; [done|]. rewrite fmap_cons in Hnm.
  unfold scalars_under in *. cbn in *. rewrite decide_False by set_solver. apply IH. set_solver.
Qed.

Lemma scalars_under_get nm d :
  NoDup d.*1 → scalars_under nm d = field_scalars (map_get nm d).
Proof.
  induction d as [|[k v] d IH]; intros Hnd; [done|]. rewrite fmap_cons in Hnd.
  apply NoDup_cons in Hnd as [Hk Hnd]. cbn [map_get fst] in *.
  change (scalars_under nm ((k, v) :: d))
    with ((if decide (k = nm) then scalars v else []) ++ scalars_under nm d).
  destruct (decide (k = nm)) as [->|Hne].
  - rewrite decide_True, scalars_under_absent, app_nil_r by done. done.
  - rewrite decide_False by done. by apply IH.
Qed.

(** The scalars that a document has at a path. *)
Definition document_scalars (doc : Map Number) (nm : string) : list (Json Number) :=
  (at_path nm (leaves doc)).*2.

Lemma document_scalars_app doc doc' nm :
  document_scalars (doc ++ doc') nm = document_scalars doc nm ++ document_scalars doc' nm.
Proof.
  unfold document_scalars, leaves. by rewrite map_app, concat_app, at_path_app, fmap_app.
Qed.

Lemma document_scalars_perm doc doc' nm :
  doc ≡ₚ doc' → document_scalars doc nm ≡ₚ document_scalars doc' nm.
Proof.
  intros Hp. unfold document_scalars, at_path, leaves.
  by rewrite (concat_map_perm _ _ _ Hp).
Qed.

Lemma flatten_scalars_under object nm :
  scalars_under nm (flatten object) = document_scalars object nm.
Proof.
  rewrite scalars_under_get by apply flatten_NoDup. apply flatten_field_scalars.
Qed.

Lemma flat_scalars_under object nm :
  is_flat object → NoDup object.*1 → scalars_under nm object = document_scalars object nm.
Proof.
  intros Hflat Hnd. rewrite scalars_under_get by done.
  rewrite <- flat_lookup by done. apply flatten_field_scalars.
Qed.

Lemma flatten_not_empty object : object ≠ [] → flatten object ≠ [].
Proof.
  intros Hne Hflat. destruct object as [|[k v] o]; [done|].
  pose proof (flatten_get ((k, v) :: o) k) as Hget. rewrite Hflat in Hget.
  destruct (flat_value _); [done|]. cbn in Hget. by rewrite decide_True in Hget.
Qed.

(** *** Flattening gives values *)
Lemma entries_in_ok key v : json_ok v → Forall (λ e, json_ok e.2) (entries_in key v).
Proof.
  revert key. induction v as [|b|n|s|a IH|o IH] using json_ind'; intros key Hok;
    try by constructor.
  - apply json_ok_array in Hok. apply Forall_concat, Forall_map.
    rewrite Forall_forall in *. auto.
  - apply json_ok_object in Hok as [_ Hok]. apply Forall_concat, Forall_map.
    rewrite Forall_forall in *. intros [k v] Hin. constructor.
    + by apply (Hok (k, v)).
    + apply (IH (k, v) Hin). by apply (Hok (k, v)).
Qed.

Lemma flatten_ok object :
  Forall (λ e, json_ok e.2) object → Forall (λ e, json_ok e.2) (flatten object).
Proof.
  intros Hok. apply Forall_forall. intros [k v] Hin. cbn.
  apply map_get_elem in Hin; [|apply flatten_NoDup]. rewrite flatten_get in Hin.
  destruct (flat_value (at_path k (leaves object))) as [w|] eqn:Hw.
  - injection Hin as ->. pose proof (at_path_scalar k _ (leaves_scalar object)) as Hs.
    assert (json_ok (JArray (at_path k (leaves object)).*2)) as Harr.
    { apply json_ok_array, Forall_fmap. eapply Forall_impl; [exact Hs|].
      intros x. apply scalar_json_ok. }
    destruct (at_path k (leaves object)) as [|[[] x] [|y l]];
      [discriminate Hw|injection Hw as <-; try exact Harr..].
    apply Forall_cons in Hs as [Hs _]. by apply scalar_json_ok.
  - apply map_get_Some_elem in Hin. unfold entries in Hin.
    apply elem_of_concat_map in Hin as ([k' u] & Hu & Hin).
    rewrite Forall_forall in Hok. specialize (Hok _ Hu). cbn in Hok.
    apply elem_of_cons in Hin as [[= -> ->]|Hin]; [done|].
    pose proof (entries_in_ok k' u Hok) as Hall. rewrite Forall_forall in Hall.
    by apply (Hall (k, v)).
Qed.
End flatten.

(** What [flatten] returns.  Its keys are distinct.  Under a key that is the
    path of scalars of the object are these scalars in document order: a lone
    one that no array holds as it is, all others in one array, wherever they
    come from.  Under any other key is the first value of the object that has
    this path, so that nothing is forgotten of empty arrays and objects.
    Consequently the scalars of each field are exactly those at its path, and
    an object without nested fields is returned as it is, up to the order of
    its entries. *)
Theorem flatten_spec {Number} (object : Map Number) :
  NoDup (flatten object).*1 ∧
  (∀ k, map_get k (flatten object) =
    match flat_value (at_path k (leaves object)) with
    | Some v => Some v
    | None => map_get k (entries object)
    end) ∧
  (∀ k, field_scalars (map_get k (flatten object)) = (at_path k (leaves object)).*2) ∧
  (is_flat object → NoDup object.*1 → flatten object ≡ₚ object).
Proof.
  split_and!.
  - apply flatten_NoDup.
  - apply flatten_get.
  - apply flatten_field_scalars.
  - intros Hflat Hnd. apply map_get_perm; [apply flatten_NoDup|done|].
    intros k. by apply flat_lookup.
Qed.

(** ** Witnesses *)
Module Demo.

Definition flat_doc : Map N :=
  [("id", JNumber 1%N); ("empty", JArray []); ("genres", JArray [JString "Action"])].

Definition nested_doc : Map N :=
  [("a.b", JNumber 1%N); ("a", JObject [("b", JArray [JNumber 2%N; JNull]); ("c", JObject [])])].

(** The scalars of [a.b] come from two fields; the object [a] stays under its
    own key beside its flattened fields. *)
Example flatten_nested :
  flatten nested_doc =
    [("a.b", JArray [JNumber 1%N; JNumber 2%N; JNull]);
     ("a", JObject [("b", JArray [JNumber 2%N; JNull]); ("c", JObject [])]);
     ("a.c", JObject [])].
Proof. vm_compute. reflexivity. Qed.

Lemma flatten_spec_witness :
  is_flat flat_doc ∧ NoDup flat_doc.*1 ∧ flatten flat_doc ≡ₚ flat_doc ∧
  field_scalars (map_get "a.b" (flatten nested_doc)) = [JNumber 1%N; JNumber 2%N; JNull].
Proof.
  assert (is_flat flat_doc) as Hflat by (repeat constructor).
  assert (NoDup flat_doc.*1) as Hnd
    by (apply (bool_decide_eq_true_1 _); vm_compute; reflexivity).
  split; [done|]. split; [done|].
  split; [by apply (flatten_spec flat_doc)|].
  destruct (flatten_spec nested_doc) as (_ & _ & Hs & _). rewrite Hs.
  vm_compute. reflexivity.
Defined.
End Demo.
