(* ===== verification/FieldsIdsMap.v ===== *)
(** * The fields ids map (milli/src/fields_ids_map.rs)

    A field id is a [u16].  [well_formed] is the agreement of the two maps and
    the freshness of the next id; [fields_ids_map_life] follows a map through
    any sequence of insertions and removals.  Other files use it qualified. *)
From S2P Require Import Prelude.

(** [FieldId] is [u16]. *)
Abbreviation FieldId := N.
Definition u16_max : N := 65535.

Record FieldsIdsMap := mkFieldsIdsMap {
  names_ids : gmap string FieldId;
  ids_names : gmap FieldId string;
  next_id : option FieldId
}.

Implicit Types (self : FieldsIdsMap) (nm : string) (i : FieldId).

Definition new : FieldsIdsMap := mkFieldsIdsMap ∅ ∅ (Some 0%N).

Definition len self : nat := size (names_ids self).
Definition is_empty self : bool := bool_decide (names_ids self = ∅).

(** [u16::checked_add(1)]. *)
Definition checked_succ i : option FieldId :=
  if (i <? u16_max)%N then Some (i + 1)%N else None.

Definition insert nm self : option FieldId * FieldsIdsMap :=
  match names_ids self !! nm with
  | Some i => (Some i, self)
  | None =>
      match next_id self with
      | None => (None, self)
      | Some i =>
          (Some i, {| names_ids := <[nm := i]> (names_ids self);
                      ids_names := <[i := nm]> (ids_names self);
                      next_id := checked_succ i |})
      end
  end.

Definition id nm self : option FieldId := names_ids self !! nm.
Definition name i self : option string := ids_names self !! i.

Definition remove nm self : option FieldId * FieldsIdsMap :=
  match names_ids self !! nm with
  | None => (None, self)
  | Some i =>
      (match ids_names self !! i with Some _ => Some i | None => None end,
       {| names_ids := delete nm (names_ids self);
          ids_names := delete i (ids_names self);
          next_id := next_id self |})
  end.

(** [BTreeMap::iter] runs in the order of the ids. *)
Definition by_id (x y : FieldId * string) : Prop := (x.1 ≤ y.1)%N.
#[export] Instance by_id_dec x y : Decision (by_id x y).
Proof. unfold by_id. apply _. Defined.

Definition iter self : list (FieldId * string) := merge_sort by_id (map_to_list (ids_names self)).
Definition ids self : list FieldId := (iter self).*1.
Definition names self : list string := (iter self).*2.

(** ** Well-formedness *)

(** The bound below which every id was given out. *)
Definition bound self : N := match next_id self with Some i => i | None => 65536%N end.

Record well_formed self : Prop := {
  wf_bijection nm i : names_ids self !! nm = Some i ↔ ids_names self !! i = Some nm;
  wf_below i nm : ids_names self !! i = Some nm → (i < bound self)%N;
  wf_next i : next_id self = Some i → (i ≤ u16_max)%N
}.

Lemma new_well_formed : well_formed new.
Proof.
  split; simpl; [intros; by rewrite !lookup_empty|intros i nm; by rewrite lookup_empty|].
  by intros i [= <-].
Qed.

Lemma checked_succ_bound i :
  (i ≤ u16_max)%N →
  match checked_succ i with Some j => j | None => 65536%N end = (i + 1)%N ∧
  (∀ j, checked_succ i = Some j → (j ≤ u16_max)%N).
Proof.
  unfold checked_succ, u16_max. destruct (N.ltb_spec i 65535); split;
    try (intros ? [= <-]); try done; lia.
Qed.

Section well_formed_lemmas.
Context self (Hwf : well_formed self).

Lemma next_is_fresh i : next_id self = Some i → ids_names self !! i = None.
Proof.
  intros Hn. destruct (ids_names self !! i) as [nm|] eqn:Hi; [|done].
  apply (wf_below _ Hwf) in Hi. unfold bound in Hi. rewrite Hn in Hi. lia.
Qed.

Lemma insert_bound nm : (bound self ≤ bound (insert nm self).2)%N.
Proof.
  unfold insert. destruct (names_ids self !! nm); [done|].
  destruct (next_id self) as [i|] eqn:Hn; [|done]. unfold bound. simpl. rewrite Hn.
  destruct (checked_succ_bound i (wf_next _ Hwf i Hn)) as [-> _]. lia.
Qed.

Lemma insert_well_formed nm : well_formed (insert nm self).2.
Proof.
  unfold insert. destruct (names_ids self !! nm) as [i|] eqn:Hnm; [done|].
  destruct (next_id self) as [i|] eqn:Hn; [|done].
  pose proof (next_is_fresh i Hn) as Hi.
  destruct (checked_succ_bound i (wf_next _ Hwf i Hn)) as [Hb Hmax].
  split; simpl; [intros nm' j|intros j nm'|done].
  - destruct (decide (nm = nm')) as [<-|Hnm'], (decide (i = j)) as [<-|Hj].
    + by simplify_map_eq.
    + simplify_map_eq. rewrite <- (wf_bijection _ Hwf). naive_solver.
    + simplify_map_eq. rewrite (wf_bijection _ Hwf). naive_solver.
    + simplify_map_eq. apply (wf_bijection _ Hwf).
  - unfold bound. simpl. rewrite Hb. destruct (decide (i = j)) as [<-|Hj]; [lia|].
    rewrite lookup_insert_ne by done. intros Hj'%(wf_below _ Hwf).
    unfold bound in Hj'. rewrite Hn in Hj'. lia.
Qed.

Lemma remove_well_formed nm : well_formed (remove nm self).2.
Proof.
  unfold remove. destruct (names_ids self !! nm) as [i|] eqn:Hnm; [|done].
  pose proof (proj1 (wf_bijection _ Hwf nm i) Hnm) as Hi.
  split; simpl; [intros nm' j|intros j nm'|apply (wf_next _ Hwf)].
  - rewrite !lookup_delete_Some, (wf_bijection _ Hwf nm' j). split.
    + intros [Hne Hj]. split; [|done]. intros <-. congruence.
    + intros [Hne Hj]. split; [|done]. intros <-.
      apply (wf_bijection _ Hwf) in Hj. congruence.
  - intros [_ Hj]%lookup_delete_Some. by apply (wf_below _ Hwf) in Hj.
Qed.

(** A successful insertion knows the field afterwards; only the limit makes it
    fail. *)
Lemma insert_result nm :
  match insert nm self with
  | (Some i, self') =>
      id nm self' = Some i ∧ name i self' = Some nm ∧
      (∀ nm', nm' ≠ nm → id nm' self' = id nm' self) ∧
      (∀ j nm', name j self = Some nm' → name j self' = Some nm')
  | (None, self') => self' = self ∧ id nm self = None ∧ next_id self = None
  end.
Proof.
  unfold insert, id, name. destruct (names_ids self !! nm) as [i|] eqn:Hnm.
  - split; [done|]. split; [by apply (wf_bijection _ Hwf)|done].
  - destruct (next_id self) as [i|] eqn:Hn; [|done]. simpl.
    pose proof (next_is_fresh i Hn). split_and!.
    + by rewrite lookup_insert_eq.
    + by rewrite lookup_insert_eq.
    + intros nm' Hne. by rewrite lookup_insert_ne.
    + intros j nm' Hj. rewrite lookup_insert_ne by congruence. done.
Qed.
End well_formed_lemmas.

(** ** The life of a map *)
Inductive Op := Insert (nm : string) | Remove (nm : string).

Definition step self (op : Op) : FieldsIdsMap :=
  match op with Insert nm => (insert nm self).2 | Remove nm => (remove nm self).2 end.

Definition run (ops : list Op) self : FieldsIdsMap := foldl step self ops.

Lemma step_well_formed self op : well_formed self → well_formed (step self op).
Proof. destruct op; intros; [by apply insert_well_formed|by apply remove_well_formed]. Qed.

Lemma run_well_formed ops self : well_formed self → well_formed (run ops self).
Proof.
  revert self. induction ops as [|op ops IH]; intros self Hwf; [done|].
  by apply IH, step_well_formed.
Qed.

Lemma step_bound self op : well_formed self → (bound self ≤ bound (step self op))%N.
Proof.
  intros Hwf. destruct op as [nm|nm]; simpl; [by apply insert_bound|].
  unfold remove. by destruct (names_ids self !! nm).
Qed.

(** A name under an id below the bound was there before. *)
Lemma step_keeps_ids self op i nm :
  well_formed self → (i < bound self)%N →
  name i (step self op) = Some nm → name i self = Some nm.
Proof.
  intros Hwf Hi. unfold name. destruct op as [nm'|nm']; simpl.
  - unfold insert. destruct (names_ids self !! nm'); [done|].
    destruct (next_id self) as [j|] eqn:Hn; [|done]. simpl.
    unfold bound in Hi. rewrite Hn in Hi. by rewrite lookup_insert_ne by lia.
  - unfold remove. destruct (names_ids self !! nm'); [|done]. simpl.
    by intros [_ ?]%lookup_delete_Some.
Qed.

Lemma run_keeps_ids ops self i nm :
  well_formed self → (i < bound self)%N →
  name i (run ops self) = Some nm → name i self = Some nm.
Proof.
  revert self. induction ops as [|op ops IH]; intros self Hwf Hi Hnm; [done|].
  apply (step_keeps_ids self op); [done..|]. apply IH; [by apply step_well_formed| |done].
  pose proof (step_bound self op Hwf). lia.
Qed.

Definition is_insert (op : Op) : bool := match op with Insert _ => true | Remove _ => false end.

Lemma run_inserts_size ops self :
  forallb is_insert ops = true → well_formed self → N.of_nat (len self) = bound self →
  N.of_nat (len (run ops self)) = bound (run ops self).
Proof.
  revert self. induction ops as [|op ops IH]; intros self Hops Hwf Hlen; [done|].
  cbn [forallb] in Hops. apply andb_true_iff in Hops as [Hop Hops].
  apply (IH (step self op)); [done|by apply step_well_formed|].
  destruct op as [nm|]; [|done]. unfold step, insert.
  destruct (names_ids self !! nm) eqn:Hnm; [done|].
  destruct (next_id self) as [i|] eqn:Hn; [|done]. unfold len, bound in *. simpl.
  rewrite map_size_insert_None by done. rewrite Hn in Hlen.
  destruct (checked_succ_bound i (wf_next _ Hwf i Hn)) as [-> _]. lia.
Qed.

(** ** Iteration *)
#[export] Instance by_id_total : Total by_id.
Proof. intros [i ?] [j ?]. unfold by_id. simpl. lia. Qed.
#[export] Instance by_id_trans : Transitive by_id.
Proof. intros [i ?] [j ?] [k ?]. unfold by_id. simpl. lia. Qed.

Lemma iter_elem self i nm : (i, nm) ∈ iter self ↔ name i self = Some nm.
Proof. unfold iter. rewrite merge_sort_Permutation. apply elem_of_map_to_list. Qed.

Lemma sorted_ids (l : list (FieldId * string)) :
  StronglySorted by_id l → NoDup l.*1 → StronglySorted N.lt l.*1.
Proof.
  induction 1 as [|[i nm] l Hl IH Hi]; intros Hnd; [constructor|].
  rewrite fmap_cons in *. apply NoDup_cons in Hnd as [Hnot Hnd]. constructor; [auto|].
  apply Forall_forall. intros j Hj. apply list_elem_of_fmap in Hj as ([j' nm'] & -> & Hj).
  rewrite Forall_forall in Hi. specialize (Hi _ Hj). unfold by_id in Hi. simpl in *.
  assert (i ≠ j'); [|lia]. intros ->. apply Hnot. apply list_elem_of_fmap.
  by exists (j', nm').
Qed.

Lemma ids_increase self : StronglySorted N.lt (ids self).
Proof.
  apply sorted_ids; [apply (StronglySorted_merge_sort _)|].
  unfold iter. rewrite merge_sort_Permutation. apply NoDup_fst_map_to_list.
Qed.

(** The life of a fields ids map.  Whatever fields are inserted and removed
    from the empty map on, names and ids stay in bijection; an id that was
    given to a name is never given to another one, even after the field was
    removed; a known name keeps its id; the iteration lists the known fields
    in the order of the ids.  Without removals an insertion fails exactly when
    65 536 fields are known. *)
Theorem fields_ids_map_life ops :
  let self := run ops new in
  well_formed self ∧
  (∀ ops' nm nm' i,
    id nm self = Some i → name i (run ops' self) = Some nm' → nm' = nm) ∧
  (∀ nm i, id nm self = Some i → insert nm self = (Some i, self)) ∧
  StronglySorted N.lt (ids self) ∧
  (∀ i nm, (i, nm) ∈ iter self ↔ id nm self = Some i) ∧
  (forallb is_insert ops = true → ∀ nm,
    (insert nm self).1 = None ↔ id nm self = None ∧ N.of_nat (len self) = 65536%N).
Proof.
  intros self. assert (well_formed self) as Hwf by apply run_well_formed, new_well_formed.
  split_and!; [done|..].
  - intros ops' nm nm' i Hid Hnm. apply (wf_bijection _ Hwf) in Hid.
    apply run_keeps_ids in Hnm; [|done|by apply (wf_below _ Hwf) in Hid].
    unfold name in Hnm. congruence.
  - intros nm i Hid. unfold insert. unfold id in Hid. by rewrite Hid.
  - apply ids_increase.
  - intros i nm. rewrite iter_elem. symmetry. apply (wf_bijection _ Hwf).
  - intros Hops nm. pose proof (run_inserts_size ops new Hops new_well_formed eq_refl) as Hlen.
    fold self in Hlen. unfold insert, id. rewrite Hlen. unfold bound.
    destruct (names_ids self !! nm); [naive_solver|].
    destruct (next_id self) as [i|] eqn:Hn; [|naive_solver]. simpl.
    pose proof (wf_next _ Hwf i Hn). unfold u16_max in *. naive_solver lia.
Qed.

(** ** Witnesses *)
Module Demo.

(** The test of the source, with a removal at the end. *)
Definition ops : list Op :=
  [Insert "id"; Insert "title"; Insert "description"; Insert "id"; Insert "title"].

Example ids_of_ops : iter (run ops new) = [(0%N, "id"); (1%N, "title"); (2%N, "description")].
Proof. vm_compute. reflexivity. Qed.

(** The id of a removed field is not given again. *)
Example removed_id :
  id "title" (run (ops ++ [Remove "title"; Insert "title"]) new) = Some 3%N.
Proof. vm_compute. reflexivity. Qed.

Lemma fields_ids_map_life_witness :
  forallb is_insert ops = true ∧ id "title" (run ops new) = Some 1%N ∧
  name 1%N (run [Remove "id"] (run ops new)) = Some "title" ∧ "title" = "title" ∧
  (insert "date" (run ops new)).1 ≠ None.
Proof.
  destruct (fields_ids_map_life ops) as (_ & Hsame & _ & _ & _ & Hfail).
  assert (id "title" (run ops new) = Some 1%N) as Hid by (vm_compute; reflexivity).
  assert (name 1%N (run [Remove "id"] (run ops new)) = Some "title") as Hname
    by (vm_compute; reflexivity).
  split; [reflexivity|]. split; [done|]. split; [done|].
  split; [by apply (Hsame [Remove "id"] "title" "title" 1%N)|].
  rewrite (Hfail eq_refl "date"). vm_compute. intros [_ ?]. discriminate.
Defined.
End Demo.
