(* ===== verification/DocumentsIds.v ===== *)
(** * Internal and external documents ids
      (milli/src/update/available_documents_ids.rs, milli/src/external_documents_ids.rs)

    [AvailableDocumentsIds] enumerates the internal ids that no document of the
    index uses; [remaining] is the set of ids it has still to give.
    [ExternalDocumentsIds] maps the users' ids to internal ids by two finite
    maps (the two fst of the code); [lookup] is the map they stand for. *)
From S2P Require Import Prelude.

(** A document id is a [u32]; the values of the fst are [u64]. *)
Abbreviation DocumentId := N.

(** ** Available documents ids *)

(** [RoaringBitmap::max]. *)
Definition bitmap_max (s : gset N) : option N :=
  foldr (λ x acc, Some (match acc with Some y => N.max x y | None => x end)) None (elements s).

Lemma bitmap_max_spec s :
  match bitmap_max s with
  | Some m => m ∈ s ∧ ∀ x, x ∈ s → (x ≤ m)%N
  | None => s = ∅
  end.
Proof.
  unfold bitmap_max. assert (∀ x, x ∈ s ↔ x ∈ elements s) as Hs
    by (intros; by rewrite elem_of_elements).
  destruct (elements s) as [|y l] eqn:Hl; [by apply elements_empty_iff in Hl; apply leibniz_equiv|].
  clear Hl. revert s Hs. cut (∀ l : list N, match foldr
    (λ x acc, Some (match acc with Some y => N.max x y | None => x end)) None l with
    | Some m => m ∈ l ∧ ∀ x, x ∈ l → (x ≤ m)%N | None => l = [] end).
  { intros Hall s Hs. specialize (Hall (y :: l)). destruct (foldr _ _ (y :: l)); [|done].
    destruct Hall as [H1 H2]. split; [by apply Hs|]. intros x Hx. by apply H2, Hs. }
  clear. intros l. induction l as [|x l IH]; [done|]. cbn [foldr].
  destruct (foldr _ None l) as [m|]; [destruct IH as [Hm Hle]|subst l].
  - split.
    + destruct (N.max_spec x m) as [[_ ->]|[_ ->]]; set_solver.
    + intros z [->|Hz]%elem_of_cons; [lia|]. specialize (Hle z Hz). lia.
  - split; [set_solver|]. intros z [->|Hz]%elem_of_cons; [lia|set_solver].
Qed.

(** The chain of the free ids below the greatest one in use and of the range of
    the ids above it; [None] is an empty range. *)
Record AvailableDocumentsIds := mkAvailable {
  available : list DocumentId;
  range : option (DocumentId * DocumentId)
}.

Definition from_documents_ids (docids soft_deleted_docids : gset DocumentId) :
    AvailableDocumentsIds :=
  let used_docids := docids ∪ soft_deleted_docids in
  match bitmap_max used_docids with
  | Some last_id =>
      {| available := filter (λ d, d ∉ used_docids) (N.of_nat <$> seq 0 (N.to_nat last_id));
         range := if (last_id <? u32_max)%N then Some (last_id + 1, u32_max)%N else None |}
  | None => {| available := []; range := Some (0%N, u32_max) |}
  end.

Definition next (self : AvailableDocumentsIds) : option DocumentId * AvailableDocumentsIds :=
  match available self with
  | d :: rest => (Some d, mkAvailable rest (range self))
  | [] =>
      match range self with
      | Some (first, last) =>
          (Some first,
           mkAvailable [] (if (first <? last)%N then Some (first + 1, last)%N else None))
      | None => (None, self)
      end
  end.

(** The ids still to be given. *)
Definition remaining (self : AvailableDocumentsIds) (d : DocumentId) : Prop :=
  d ∈ available self ∨
  ∃ first last, range self = Some (first, last) ∧ (first ≤ d ≤ last)%N.

Record available_ok (self : AvailableDocumentsIds) : Prop := {
  av_range first last : range self = Some (first, last) → (first ≤ last)%N;
  av_nodup : NoDup (available self);
  av_disjoint d first last :
    range self = Some (first, last) → d ∈ available self → (d < first)%N
}.

Lemma elem_of_ids_below (n d : N) : d ∈ N.of_nat <$> seq 0 (N.to_nat n) ↔ (d < n)%N.
Proof.
  rewrite list_elem_of_fmap. setoid_rewrite elem_of_seq. split.
  - intros (k & -> & Hk). lia.
  - intros Hd. exists (N.to_nat d). lia.
Qed.

Lemma from_documents_ids_ok docids soft_deleted_docids :
  available_ok (from_documents_ids docids soft_deleted_docids).
Proof.
  unfold from_documents_ids. destruct (bitmap_max _) as [m|]; simpl.
  - split; simpl.
    + intros f l. destruct (N.ltb_spec m u32_max); intros; simplify_eq. lia.
    + apply NoDup_filter, NoDup_fmap_2; [apply _|]. apply NoDup_seq.
    + intros d f l Hr [_ Hd%elem_of_ids_below]%list_elem_of_filter.
      destruct (N.ltb_spec m u32_max); simplify_eq. lia.
  - split; simpl; [intros ? ? [= <- <-]; lia|constructor|set_solver].
Qed.

(** At the start all the ids that no document uses, soft deleted documents
    included, are to be given. *)
Lemma from_documents_ids_remaining docids soft_deleted_docids d :
  (∀ d, d ∈ docids ∪ soft_deleted_docids → (d ≤ u32_max)%N) →
  remaining (from_documents_ids docids soft_deleted_docids) d ↔
    (d ≤ u32_max)%N ∧ d ∉ docids ∪ soft_deleted_docids.
Proof.
  intros Hu32. unfold from_documents_ids, remaining.
  pose proof (bitmap_max_spec (docids ∪ soft_deleted_docids)) as Hmax.
  destruct (bitmap_max _) as [m|]; simpl.
  - destruct Hmax as [Hm Hle]. pose proof (Hu32 m Hm) as Hm32.
    rewrite list_elem_of_filter, elem_of_ids_below. split.
    + intros [[Hd Hlt]|(f & l & Hr & Hd)]; [split; [lia|done]|].
      destruct (N.ltb_spec m u32_max); simplify_eq.
      split; [lia|]. intros Hin%Hle. lia.
    + intros [Hd Hin]. destruct (decide (d < m)%N) as [|Hge]; [by left|right].
      assert (d ≠ m) by (intros ->; done).
      destruct (N.ltb_spec m u32_max); [|lia]. eexists _, _. split; [done|]. lia.
  - rewrite Hmax. split.
    + intros [?|(f & l & [= <- <-] & Hd)]; set_solver by lia.
    + intros [Hd _]. right. eexists _, _. split; [done|]. lia.
Qed.

(** Each call gives an id that was to be given and never gives it again; the
    iterator ends only when no id is left. *)
Lemma next_spec self :
  available_ok self →
  match next self with
  | (Some d, self') =>
      remaining self d ∧ available_ok self' ∧
      ∀ d', remaining self' d' ↔ remaining self d' ∧ d' ≠ d
  | (None, self') => self' = self ∧ ∀ d, ¬ remaining self d
  end.
Proof.
  intros [Hrange Hnd Hdisj]. unfold next, remaining.
  destruct self as [[|d rest] [[f l]|]]; simpl in *.
  - specialize (Hrange f l eq_refl). split; [right; eexists _, _; split; [done|lia]|]. split.
    + split; simpl; [|constructor|set_solver]. intros f' l'.
      destruct (N.ltb_spec f l); intros; simplify_eq; lia.
    + intros d'. destruct (N.ltb_spec f l); naive_solver lia.
  - split; [done|]. naive_solver set_solver.
  - apply NoDup_cons in Hnd as [Hd Hnd].
    split; [left; left|]. split.
    + split; simpl; [done|done|]. intros d' f' l' Hr Hin. apply (Hdisj d' f' l'); set_solver.
    + intros d'. specialize (Hdisj d f l eq_refl ltac:(left)).
      rewrite elem_of_cons. naive_solver lia.
  - apply NoDup_cons in Hnd as [Hd Hnd].
    split; [left; left|]. split.
    + split; simpl; [done|done|]. intros d' f' l' Hr. done.
    + intros d'. rewrite elem_of_cons. naive_solver.
Qed.

(** ** External documents ids *)
Definition DELETED_ID : N := 18446744073709551615.

Record ExternalDocumentsIds := mkExternal {
  hard : gmap string N;
  soft : gmap string N;
  soft_deleted_docids : gset DocumentId
}.

Implicit Types (self : ExternalDocumentsIds) (external_id : string) (id : N).

(** [u64 as u32]. *)
Definition as_u32 id : DocumentId := wrap32 id.

(** The guard of [get] and of [delete_soft_deleted_documents_ids_from_fsts]. *)
Definition alive self id : bool :=
  negb (bool_decide (id = DELETED_ID)) &&
  negb (bool_decide (as_u32 id ∈ soft_deleted_docids self)).

Definition get self external_id : outcome unit (option DocumentId) :=
  match match soft self !! external_id with
        | Some id => Some id
        | None => hard self !! external_id
        end with
  | Some id =>
      if alive self id then
        if (id <=? u32_max)%N then Ok (Some id)
        else Panic "called `Result::unwrap()` on an `Err` value"
      else Ok None
  | None => Ok None
  end.

(** The union of two fst whose last value wins. *)
Definition union_last (first second : gmap string N) : gmap string N := second ∪ first.

Definition is_empty self : bool :=
  bool_decide (hard self = ∅) && bool_decide (soft self = ∅).

Definition delete_soft_deleted_documents_ids_from_fsts self : ExternalDocumentsIds :=
  {| hard := filter (λ kv, alive self kv.2 = true) (union_last (hard self) (soft self));
     soft := ∅;
     soft_deleted_docids := soft_deleted_docids self |}.

Definition to_fst self : gmap string N :=
  if decide (soft self = ∅) then hard self
  else filter (λ kv, kv.2 ≠ DELETED_ID) (union_last (hard self) (soft self)).

Definition merge_soft_into_hard self : ExternalDocumentsIds :=
  if decide (size (hard self) `div` 2 ≤ size (soft self)) then
    {| hard := to_fst self; soft := ∅; soft_deleted_docids := soft_deleted_docids self |}
  else self.

Definition insert_ids self (other : gmap string N) : ExternalDocumentsIds :=
  merge_soft_into_hard
    {| hard := hard self; soft := union_last (soft self) other;
       soft_deleted_docids := soft_deleted_docids self |}.

(** Every value is a [u32]: no document id was marked [DELETED_ID]. *)
Definition values_u32 (m : gmap string N) : Prop := ∀ e id, m !! e = Some id → (id ≤ u32_max)%N.

Definition external_ok self : Prop := values_u32 (hard self) ∧ values_u32 (soft self).

(** The map of external to internal ids. *)
Definition lookup self external_id : option DocumentId :=
  id ← union_last (hard self) (soft self) !! external_id;
  if decide (id ∈ soft_deleted_docids self) then None else Some id.

Lemma union_last_lookup m1 m2 external_id :
  union_last m1 m2 !! external_id =
    match m2 !! external_id with Some id => Some id | None => m1 !! external_id end.
Proof. unfold union_last. rewrite lookup_union. by destruct (m2 !! _), (m1 !! _). Qed.

Lemma union_last_u32 m1 m2 : values_u32 m1 → values_u32 m2 → values_u32 (union_last m1 m2).
Proof.
  intros H1 H2 e id. rewrite union_last_lookup. destruct (m2 !! e) eqn:He; [|apply H1].
  intros [= <-]. by apply (H2 e).
Qed.

Lemma as_u32_small id : (id ≤ u32_max)%N → as_u32 id = id.
Proof. apply wrap32_small. Qed.

Lemma alive_small self id :
  (id ≤ u32_max)%N → alive self id = negb (bool_decide (id ∈ soft_deleted_docids self)).
Proof.
  intros Hid. unfold alive. rewrite as_u32_small by done.
  rewrite bool_decide_false; [done|]. unfold DELETED_ID, u32_max in *. lia.
Qed.

Lemma get_lookup self external_id :
  external_ok self → get self external_id = Ok (lookup self external_id).
Proof.
  intros [Hh Hs]. unfold get, lookup. rewrite union_last_lookup.
  destruct (soft self !! external_id) as [id|] eqn:He;
    [|destruct (hard self !! external_id) as [id|] eqn:He'; [|done]].
  all: assert (id ≤ u32_max)%N as Hid by first [by apply (Hs external_id)|by apply (Hh external_id)].
  all: rewrite alive_small by done; simpl; apply N.leb_le in Hid as ->.
  all: destruct (decide (id ∈ soft_deleted_docids self));
    [by rewrite bool_decide_true|by rewrite bool_decide_false].
Qed.

Lemma delete_soft_deleted_ok self :
  external_ok self → external_ok (delete_soft_deleted_documents_ids_from_fsts self).
Proof.
  intros [Hh Hs]. split; simpl; [|intros e id; rewrite lookup_empty; done].
  intros e id [He _]%map_lookup_filter_Some. revert He. by apply union_last_u32.
Qed.

(** Dropping the soft deleted ids changes no lookup, and makes the lookups
    independent of the soft deleted ids that follow. *)
Lemma delete_soft_deleted_lookup self external_id :
  external_ok self →
  lookup (delete_soft_deleted_documents_ids_from_fsts self) external_id
    = lookup self external_id ∧
  lookup (mkExternal (hard (delete_soft_deleted_documents_ids_from_fsts self))
                     (soft (delete_soft_deleted_documents_ids_from_fsts self)) ∅) external_id
    = lookup self external_id.
Proof.
  intros [Hh Hs]. unfold lookup at 1 3, delete_soft_deleted_documents_ids_from_fsts. simpl.
  rewrite !union_last_lookup, !lookup_empty. unfold lookup.
  pose proof (union_last_u32 _ _ Hh Hs external_id) as Hu32.
  destruct (union_last (hard self) (soft self) !! external_id) as [id|] eqn:He; simpl.
  - specialize (Hu32 id eq_refl). pose proof (alive_small self id Hu32) as Ha.
    destruct (decide (id ∈ soft_deleted_docids self)) as [Hin|Hin].
    + rewrite bool_decide_true in Ha by done.
      rewrite (map_lookup_filter_None_2 _ _ external_id); [done|].
      right. intros ? ?. simplify_eq. simpl. by rewrite Ha.
    + rewrite bool_decide_false in Ha by done.
      rewrite (map_lookup_filter_Some_2 _ _ external_id id) by done. simpl.
      rewrite decide_False by done. by rewrite decide_False by set_solver.
  - rewrite (map_lookup_filter_None_2 _ _ external_id) by (by left). done.
Qed.

Lemma to_fst_lookup self external_id :
  external_ok self →
  to_fst self !! external_id = union_last (hard self) (soft self) !! external_id.
Proof.
  intros [Hh Hs]. unfold to_fst. destruct (decide (soft self = ∅)) as [->|_].
  - by rewrite union_last_lookup, lookup_empty.
  - pose proof (union_last_u32 _ _ Hh Hs external_id) as Hu32.
    destruct (union_last (hard self) (soft self) !! external_id) as [id|] eqn:He.
    + apply map_lookup_filter_Some_2; [done|]. specialize (Hu32 id eq_refl).
      simpl. unfold DELETED_ID, u32_max in *. lia.
    + apply map_lookup_filter_None_2. by left.
Qed.

Lemma merge_soft_into_hard_spec self :
  external_ok self →
  external_ok (merge_soft_into_hard self) ∧
  soft_deleted_docids (merge_soft_into_hard self) = soft_deleted_docids self ∧
  ∀ external_id, lookup (merge_soft_into_hard self) external_id = lookup self external_id.
Proof.
  intros Hok. unfold merge_soft_into_hard.
  destruct (decide (size (hard self) `div` 2 ≤ size (soft self))); [|done].
  split_and!; [|done|].
  - split; simpl; [|intros e id; rewrite lookup_empty; done]. intros e id.
    rewrite to_fst_lookup by done. destruct Hok. by apply union_last_u32.
  - intros e. unfold lookup. simpl. rewrite union_last_lookup, lookup_empty.
    by rewrite to_fst_lookup.
Qed.

Lemma insert_ids_spec self other :
  external_ok self → values_u32 other →
  external_ok (insert_ids self other) ∧
  soft_deleted_docids (insert_ids self other) = soft_deleted_docids self ∧
  ∀ external_id, lookup (insert_ids self other) external_id =
    match other !! external_id with
    | Some id => if decide (id ∈ soft_deleted_docids self) then None else Some id
    | None => lookup self external_id
    end.
Proof.
  intros [Hh Hs] Ho. unfold insert_ids.
  destruct (merge_soft_into_hard_spec
    (mkExternal (hard self) (union_last (soft self) other) (soft_deleted_docids self)))
    as (Hok & Hsd & Hl).
  { split; [exact Hh|]. by apply union_last_u32. }
  split_and!; [done|by rewrite Hsd|]. intros e. rewrite Hl. unfold lookup. simpl.
  rewrite !union_last_lookup. by destruct (other !! e).
Qed.

(** C32: The external documents ids behave as one map, however their entries are
    spread over the two fst: a lookup never fails; inserting ids sets exactly
    these ids, the last insertion winning; dropping the entries of soft deleted
    documents changes no lookup, so that their internal ids may be used again;
    and the ids given to new documents are used by none, soft deleted ones
    included, and are given once. *)
Theorem documents_ids_spec self (other : gmap string N) docids :
  external_ok self → values_u32 other →
  (∀ d, d ∈ docids ∪ soft_deleted_docids self → (d ≤ u32_max)%N) →
  let dropped := delete_soft_deleted_documents_ids_from_fsts self in
  let ids := from_documents_ids docids (soft_deleted_docids self) in
  (∀ e, get self e = Ok (lookup self e)) ∧
  (∀ e, get (insert_ids self other) e = Ok
    match other !! e with
    | Some id => if decide (id ∈ soft_deleted_docids self) then None else Some id
    | None => lookup self e
    end) ∧
  (∀ e, get dropped e = Ok (lookup self e) ∧
    get (mkExternal (hard dropped) (soft dropped) ∅) e = Ok (lookup self e)) ∧
  match next ids with
  | (Some d, ids') =>
      (d ∉ docids ∪ soft_deleted_docids self) ∧ (d ≤ u32_max)%N ∧
      ∀ d', remaining ids' d' ↔ remaining ids d' ∧ d' ≠ d
  | (None, _) => ∀ d, (d ≤ u32_max)%N → d ∈ docids ∪ soft_deleted_docids self
  end.
Proof.
  intros Hok Ho Hu32 dropped ids. pose proof (delete_soft_deleted_ok self Hok) as Hdok.
  split_and!.
  - intros e. by apply get_lookup.
  - intros e. destruct (insert_ids_spec self other Hok Ho) as (Hok' & _ & Hl).
    by rewrite get_lookup, Hl.
  - intros e. destruct (delete_soft_deleted_lookup self e Hok) as [Hl Hl'].
    subst dropped. rewrite !get_lookup; [by rewrite Hl, Hl'| |done].
    destruct Hdok. by split.
  - pose proof (next_spec ids (from_documents_ids_ok _ _)) as Hnext.
    destruct (next ids) as [[d|] ids'].
    + destruct Hnext as (Hd & _ & Hrem). apply from_documents_ids_remaining in Hd; [|done].
      naive_solver.
    + destruct Hnext as [_ Hnone]. intros d Hd.
      destruct (decide (d ∈ docids ∪ soft_deleted_docids self)) as [|Hno]; [done|].
      destruct (Hnone d). by apply from_documents_ids_remaining.
Qed.

(** ** Witnesses *)
Module Demo.

(** Document 1 is soft deleted; [movie] has an entry in both fst. *)
Definition external : ExternalDocumentsIds :=
  mkExternal {["movie" := 0%N; "book" := 1%N; "song" := 2%N]} {["movie" := 3%N]} {[1%N]}.

Lemma documents_ids_spec_witness :
  external_ok external ∧ values_u32 {["book" := 4%N]} ∧
  (∀ d, d ∈ {[0%N; 2%N; 3%N]} ∪ soft_deleted_docids external → (d ≤ u32_max)%N) ∧
  get (insert_ids external {["book" := 4%N]}) "book" = Ok (Some 4%N) ∧
  get external "book" = Ok None.
Proof.
  assert (external_ok external) as Hok.
  { split; apply map_Forall_lookup; apply (bool_decide_eq_true_1 _); vm_compute; reflexivity. }
  assert (values_u32 {["book" := 4%N]}) as Ho.
  { apply map_Forall_lookup, (bool_decide_eq_true_1 _). vm_compute. reflexivity. }
  assert (∀ d, d ∈ {[0%N; 2%N; 3%N]} ∪ soft_deleted_docids external → (d ≤ u32_max)%N) as Hu32.
  { intros d Hd. assert (d = 0 ∨ d = 2 ∨ d = 3 ∨ d = 1)%N as Hcases by (simpl in Hd; set_solver).
    unfold u32_max. lia. }
  split; [done|]. split; [done|]. split; [done|].
  destruct (documents_ids_spec external {["book" := 4%N]} {[0%N; 2%N; 3%N]} Hok Ho Hu32)
    as (Hget & Hins & _).
  split; [rewrite Hins|rewrite Hget]; vm_compute; reflexivity.
Defined.
End Demo.
