(* ===== verification/Obkv.v ===== *)
(** * Stored documents: the interfaces to obkv, serde_json and the sorts

    A stored document is an obkv: the bytes of its fields by field id.  The
    format and the JSON text belong to libraries; [Obkv] and [SerdeJson] are
    what the code calls of them, with the laws it relies on.  [encode] is the
    obkv content of a list of fields, [names_known] and [named] relate field
    ids to names. *)
From S2P Require Import Prelude Json Flatten.
From S2P Require FieldsIdsMap.
Import FieldsIdsMap (FieldId).

(** The errors of milli that the modelled functions return. *)
Inductive MilliError :=
| FieldIdMapMissingEntry (field_id : FieldId)
| FieldIdMappingMissingEntry (key : FieldId)
| SerdeJsonError
| IoError
| DatabaseMissingEntry (db_name : string)
| AbortedIndexation
| AttributeLimitReached
| DocumentLimitReached.

(** ** obkv *)

(** The fields of a document come in the strict order of their ids. *)
Definition increasing {V} (l : list (FieldId * V)) : Prop := StronglySorted N.lt l.*1.

(** [KvReader] over a stored document, and [KvWriter].  A writer takes keys in
    strictly increasing order only. *)
Class Obkv := {
  kv : Type;
  kv_eq_dec :: EqDecision kv;
  kv_iter : kv → list (FieldId * bytes);
  kv_empty : kv;
  KvWriter : Type;
  kv_new : KvWriter;
  kv_insert : KvWriter → FieldId → bytes → option KvWriter;
  kv_finish : KvWriter → kv
}.

Class ObkvLaws (O : Obkv) := {
  kv_entries : KvWriter → list (FieldId * bytes);
  kv_iter_empty : kv_iter kv_empty = [];
  kv_entries_new : kv_entries kv_new = [];
  kv_entries_insert w k v :
    Forall (λ e, (e.1 < k)%N) (kv_entries w) →
    ∃ w', kv_insert w k v = Some w' ∧ kv_entries w' = kv_entries w ++ [(k, v)];
  kv_iter_finish w : kv_iter (kv_finish w) = kv_entries w
}.

(** [KvReader::get]. *)
Definition kv_get `{Obkv} (o : kv) (k : FieldId) : option bytes :=
  snd <$> find (λ e, N.eqb e.1 k) (kv_iter o).

(** The loop that inserts fields in a writer. *)
Fixpoint kv_insert_all `{Obkv} (w : KvWriter) (l : list (FieldId * bytes)) :
    outcome MilliError KvWriter :=
  match l with
  | [] => Ok w
  | (k, v) :: l => w ← ok_or (kv_insert w k v) IoError; kv_insert_all w l
  end.

(** ** serde_json *)
Class SerdeJson (Number : Type) := {
  to_vec : Json Number → bytes;
  from_slice : bytes → option (Json Number);
  (** The text of a string, quotes included. *)
  string_to_writer : string → bytes
}.

(** What is written is compact JSON text and is read back.  [Number] is what the
    parser makes of a number. *)
Class SerdeJsonLaws {Number} (S : SerdeJson Number) := {
  number_text : Number → bytes → Prop;
  number_text_plain n t : number_text n t → Forall plain t;
  number_text_not_empty n t : number_text n t → t ≠ [];
  to_vec_text v : text number_text v (to_vec v);
  from_slice_to_vec v : json_ok v → from_slice (to_vec v) = Some v;
  string_to_writer_text s : string_to_writer s = to_vec (JString s)
}.

Lemma should_flatten_to_vec `{L : SerdeJsonLaws Number} (v : Json Number) :
  should_flatten_from_unchecked_slice (to_vec v) = should_flatten_from_value v.
Proof.
  apply (scan_of_text number_text).
  - apply number_text_plain.
  - apply number_text_not_empty.
  - apply to_vec_text.
Qed.

(** ** Sorting by field id

    [sort_unstable_by_key] leaves the order of equal keys open: any function
    that sorts is an instance. *)
Class SortById := {
  sort_unstable_by_key {V} : list (FieldId * V) → list (FieldId * V);
  sort_unstable_by_key_perm {V} (l : list (FieldId * V)) : sort_unstable_by_key l ≡ₚ l;
  sort_unstable_by_key_sorted {V} (l : list (FieldId * V)) :
    StronglySorted N.le (sort_unstable_by_key l).*1
}.

(** ** Writing increasing keys *)
Section obkv.
Context {O : Obkv} {OL : ObkvLaws O}.

(** Keys in strict order are distinct. *)
Lemma increasing_keys_NoDup {V} (l : list (FieldId * V)) : increasing l → NoDup l.*1.
Proof.
  unfold increasing. generalize l.*1 as ks. clear. intros ks.
  induction 1 as [|k ks Hks IH Hk]; [constructor|]. apply NoDup_cons. split; [|done].
  intros Hin. rewrite Forall_forall in Hk. specialize (Hk _ Hin). lia.
Qed.

Lemma kv_insert_next w k v l :
  increasing (kv_entries w ++ (k, v) :: l) →
  ∃ w', kv_insert w k v = Some w' ∧ kv_entries w' ++ l = kv_entries w ++ (k, v) :: l.
Proof.
  intros Hinc. destruct (kv_entries_insert w k v) as (w1 & -> & Hw1).
  { unfold increasing in Hinc. rewrite fmap_app in Hinc.
    apply Forall_forall. intros e He.
    apply (StronglySorted_app_1_elem_of _ _ _ _ _ Hinc); [|rewrite fmap_cons; left].
    apply list_elem_of_fmap. by exists e. }
  exists w1. split; [done|]. by rewrite Hw1, <- app_assoc.
Qed.

Lemma kv_insert_all_Ok w l :
  increasing (kv_entries w ++ l) →
  ∃ w', kv_insert_all w l = Ok w' ∧ kv_entries w' = kv_entries w ++ l.
Proof.
  revert w. induction l as [|[k v] l IH]; intros w Hinc; cbn [kv_insert_all].
  - exists w. by rewrite app_nil_r.
  - destruct (kv_insert_next w k v l Hinc) as (w1 & -> & Hw1).
    cbn. destruct (IH w1) as (w' & Hw' & He); [by rewrite Hw1|].
    exists w'. split; [done|]. by rewrite He, Hw1.
Qed.

(** Writing increasing fields gives a document with these fields. *)
Lemma kv_write_Ok l :
  increasing l → ∃ w, kv_insert_all kv_new l = Ok w ∧ kv_iter (kv_finish w) = l.
Proof.
  intros Hinc. destruct (kv_insert_all_Ok kv_new l) as (w & Hw & He).
  { by rewrite kv_entries_new. }
  exists w. split; [done|]. by rewrite kv_iter_finish, He, kv_entries_new.
Qed.
End obkv.
