(* ===== verification/Concrete.v ===== *)
(** * Concrete instances of the interfaces of [Obkv.v]

    They show that the laws can hold and serve the witnesses: an obkv is its
    list of fields; JSON is printed and parsed for numbers of one digit, 0 or
    1; fields are sorted by merge sort. *)
From Stdlib Require Import Ascii String.
From S2P Require Import Prelude Json Flatten Obkv.
From S2P Require FieldsIdsMap.
Import FieldsIdsMap (FieldId).

(** ** obkv *)
#[export] Instance list_obkv : Obkv := {|
  kv := list (FieldId * bytes);
  kv_iter := λ o, o;
  kv_empty := [];
  KvWriter := list (FieldId * bytes);
  kv_new := [];
  kv_insert := λ w k v,
    if forallb (λ e, N.ltb e.1 k) w then Some (w ++ [(k, v)]) else None;
  kv_finish := λ w, w
|}.

#[export] Instance list_obkv_laws : ObkvLaws list_obkv.
Proof.
  refine {| kv_entries := λ w, w |}; try done. intros w k v Hw. exists (w ++ [(k, v)]).
  split; [|done]. cbn. rewrite (proj2 (forallb_true _ _)); [done|]. intros e He.
  rewrite Forall_forall in Hw. by apply N.ltb_lt, Hw.
Defined.

(** ** Sorting *)
Definition id_le {V} (x y : FieldId * V) : Prop := (x.1 ≤ y.1)%N.

#[export] Instance id_le_dec {V} (x y : FieldId * V) : Decision (id_le x y).
Proof. unfold id_le. apply _. Defined.
#[export] Instance id_le_total {V} : Total (@id_le V).
Proof. intros x y. unfold id_le. lia. Qed.
#[export] Instance id_le_trans {V} : Transitive (@id_le V).
Proof. intros x y z. unfold id_le. lia. Qed.

Lemma sorted_fst {V} (l : list (FieldId * V)) :
  StronglySorted id_le l → StronglySorted N.le l.*1.
Proof. apply StronglySorted_fmap. done. Qed.

#[export] Instance merge_sort_by_id : SortById.
Proof.
  refine {| sort_unstable_by_key V := merge_sort id_le |}; intros V l.
  - apply merge_sort_Permutation.
  - apply sorted_fst, (StronglySorted_merge_sort _).
Defined.

(** ** JSON text *)
Definition escape_byte (c : ascii) : bytes :=
  if decide (c = quote) then [backslash; c]
  else if decide (c = backslash) then [backslash; c] else [c].

Fixpoint escape (s : string) : bytes :=
  match s with EmptyString => [] | String c s => escape_byte c ++ escape s end.

Definition digit (n : bool) : ascii := ascii_of_nat (if n then 49 else 48).

Fixpoint commas (l : list bytes) : bytes :=
  match l with
  | [] => []
  | t :: l => match l with [] => t | _ => t ++ comma :: commas l end
  end.

Fixpoint print (v : Json bool) : bytes :=
  match v with
  | JNull => list_ascii_of_string "null"
  | JBool true => list_ascii_of_string "true"
  | JBool false => list_ascii_of_string "false"
  | JNumber n => [digit n]
  | JString s => quoted (escape s)
  | JArray a => lbracket :: commas (map print a) ++ [rbracket]
  | JObject o =>
      lbrace :: commas (map (λ '(k, v), quoted (escape k) ++ colon :: print v) o) ++ [rbrace]
  end.

(** The rest of a string, after its opening quote. *)
Fixpoint parse_string (s : bytes) : option (string * bytes) :=
  match s with
  | [] => None
  | c :: s =>
      if decide (c = quote) then Some ("", s)
      else if decide (c = backslash) then
        match s with
        | [] => None
        | c :: s => '(t, s) ← parse_string s; Some (String c t, s)
        end
      else '(t, s) ← parse_string s; Some (String c t, s)
  end.

Fixpoint strip_prefix (p s : bytes) : option bytes :=
  match p, s with
  | [], s => Some s
  | c :: p, c' :: s => if decide (c = c') then strip_prefix p s else None
  | _, [] => None
  end.

Definition parse_literal (s : bytes) : option (Json bool * bytes) :=
  match strip_prefix (list_ascii_of_string "null") s with
  | Some s => Some (JNull, s)
  | None =>
  match strip_prefix (list_ascii_of_string "true") s with
  | Some s => Some (JBool true, s)
  | None =>
  match strip_prefix (list_ascii_of_string "false") s with
  | Some s => Some (JBool false, s)
  | None =>
  match s with
  | c :: s =>
      if decide (c = digit true) then Some (JNumber true, s)
      else if decide (c = digit false) then Some (JNumber false, s) else None
  | [] => None
  end end end end.

Fixpoint parse (fuel : nat) (s : bytes) : option (Json bool * bytes) :=
  match fuel, s with
  | S n, c :: r =>
      if decide (c = quote) then '(t, r) ← parse_string r; Some (JString t, r)
      else if decide (c = lbracket) then
        match r with
        | c :: r' =>
            if decide (c = rbracket) then Some (JArray [], r')
            else '(a, r) ← parse_elements n r; Some (JArray a, r)
        | [] => None
        end
      else if decide (c = lbrace) then
        match r with
        | c :: r' =>
            if decide (c = rbrace) then Some (JObject [], r')
            else '(o, r) ← parse_members n r; Some (JObject o, r)
        | [] => None
        end
      else parse_literal s
  | _, _ => None
  end
with parse_elements (fuel : nat) (s : bytes) : option (list (Json bool) * bytes) :=
  match fuel with
  | S n =>
      '(v, s) ← parse n s;
      match s with
      | c :: s =>
          if decide (c = comma) then '(a, s) ← parse_elements n s; Some (v :: a, s)
          else if decide (c = rbracket) then Some ([v], s) else None
      | [] => None
      end
  | O => None
  end
with parse_members (fuel : nat) (s : bytes) : option (Map bool * bytes) :=
  match fuel with
  | S n =>
      match s with
      | c :: s =>
          if decide (c = quote) then
            '(k, s) ← parse_string s;
            match s with
            | c :: s =>
                if decide (c = colon) then
                  '(v, s) ← parse n s;
                  match s with
                  | c :: s =>
                      if decide (c = comma) then
                        '(o, s) ← parse_members n s; Some ((k, v) :: o, s)
                      else if decide (c = rbrace) then Some ([(k, v)], s) else None
                  | [] => None
                  end
                else None
            | [] => None
            end
          else None
      | [] => None
      end
  | O => None
  end.

Definition parse_text (s : bytes) : option (Json bool) :=
  match parse (length s) s with Some (v, []) => Some v | _ => None end.

(** *** The printed text is compact JSON text *)
Definition digit_text (n : bool) (t : bytes) : Prop := t = [digit n].

Lemma escape_body s : string_body (escape s).
Proof.
  induction s as [|c s IH]; [constructor|]. cbn. unfold escape_byte.
  destruct (decide (c = quote)); [by apply body_escape|].
  destruct (decide (c = backslash)); [by apply body_escape|]. by apply body_raw.
Qed.

Lemma print_elements a :
  Forall (λ v, text digit_text v (print v)) a → text_elements digit_text a (commas (map print a)).
Proof.
  induction 1 as [|v [|w a] Hv _ IH]; [constructor|by apply elements_one|].
  by apply elements_cons.
Qed.

Lemma print_members o :
  Forall (λ kv, text digit_text kv.2 (print kv.2)) o →
  text_members digit_text o
    (commas (map (λ '(k, v), quoted (escape k) ++ colon :: print v) o)).
Proof.
  induction 1 as [|[k v] [|kv o] Hv _ IH]; [constructor| |].
  - apply members_one; [apply escape_body|done].
  - pose proof (members_cons digit_text k (escape k) v kv o (print v) _
      (escape_body k) Hv IH) as Hm.
    cbn [map commas] in *. rewrite <- app_assoc. exact Hm.
Qed.

Lemma print_text v : text digit_text v (print v).
Proof.
  induction v as [|[]|n|s|a IH|o IH] using json_ind'; cbn [print]; try by constructor.
  - constructor. apply escape_body.
  - constructor. by apply print_elements.
  - constructor. by apply print_members.
Qed.

(** *** Parsing reads it back *)
Lemma parse_string_print s r : parse_string (escape s ++ quote :: r) = Some (s, r).
Proof.
  induction s as [|c s IH]; [done|]. cbn [escape]. unfold escape_byte.
  destruct (decide (c = quote)) as [->|Hq]; [|destruct (decide (c = backslash)) as [->|Hb]];
    cbn [app parse_string].
  - rewrite decide_False, decide_True by done. by rewrite IH.
  - rewrite decide_False, decide_True by done. by rewrite IH.
  - rewrite !decide_False by done. by rewrite IH.
Qed.

Lemma parse_quoted n s r : parse (S n) (quoted (escape s) ++ r) = Some (JString s, r).
Proof.
  unfold quoted. cbn [app parse]. rewrite decide_True by done.
  rewrite <- app_assoc. cbn [app]. by rewrite parse_string_print.
Qed.

Lemma print_not_empty v : ∃ c t, print v = c :: t ∧ c ≠ rbracket ∧ c ≠ rbrace.
Proof. destruct v as [|[]|[]| | |]; eexists _, _; split; try reflexivity; split; done. Qed.

Lemma length_commas_cons t u l :
  length (commas (t :: u :: l)) = length t + S (length (commas (u :: l))).
Proof. change (commas (t :: u :: l)) with (t ++ comma :: commas (u :: l)). by rewrite length_app. Qed.

Definition parses (v : Json bool) : Prop :=
  ∀ n r, length (print v) ≤ n → parse n (print v ++ r) = Some (v, r).

Lemma parse_elements_print a n r :
  Forall parses a → a ≠ [] → length (commas (map print a)) + 1 ≤ n →
  parse_elements n (commas (map print a) ++ rbracket :: r) = Some (a, r).
Proof.
  intros Ha. revert n. induction Ha as [|v a Hv Ha IH]; intros n Hne Hn; [done|].
  destruct n as [|n]; [lia|]. cbn [parse_elements]. destruct a as [|w a].
  - cbn [map commas] in *. rewrite Hv by lia. cbn.
    rewrite decide_False, decide_True by done. done.
  - cbn [map] in *. rewrite length_commas_cons in Hn.
    change (commas (print v :: print w :: map print a))
      with (print v ++ comma :: commas (print w :: map print a)).
    rewrite <- app_assoc, Hv by lia. cbn [mbind option_bind app].
    rewrite decide_True by done. rewrite IH by (done || lia). done.
Qed.

Lemma parse_members_print o n r :
  Forall (λ kv, parses kv.2) o → o ≠ [] →
  length (commas (map (λ '(k, v), quoted (escape k) ++ colon :: print v) o)) + 1 ≤ n →
  parse_members n
    (commas (map (λ '(k, v), quoted (escape k) ++ colon :: print v) o) ++ rbrace :: r)
    = Some (o, r).
Proof.
  set (member := λ '(k, v), quoted (escape k) ++ colon :: print v).
  assert (∀ (k : string) v n r, parses v → length (member (k, v)) ≤ n →
    parse_members (S n) (member (k, v) ++ r) =
      match r with
      | c :: s =>
          if decide (c = comma) then '(o, s) ← parse_members n s; Some ((k, v) :: o, s)
          else if decide (c = rbrace) then Some ([(k, v)], s) else None
      | [] => None
      end) as Hmember.
  { intros k v m s Hv Hm. unfold member, quoted in *. cbn [app parse_members].
    rewrite decide_True by done. rewrite <- !app_assoc. cbn [app].
    rewrite parse_string_print. cbn [mbind option_bind]. rewrite decide_True by done.
    rewrite Hv; [done|]. cbn in Hm. rewrite !length_app in Hm. cbn in Hm. lia. }
  intros Ho. revert n. induction Ho as [|[k v] o Hv Ho IH]; intros n Hne Hn; [done|].
  destruct n as [|n]; [lia|]. cbn [snd] in Hv. destruct o as [|[k' w] o].
  - cbn [map commas] in *. rewrite Hmember by (done || lia).
    rewrite decide_False, decide_True by done. done.
  - cbn [map] in *. rewrite length_commas_cons in Hn.
    change (commas (member (k, v) :: member (k', w) :: map member o))
      with (member (k, v) ++ comma :: commas (member (k', w) :: map member o)).
    rewrite <- app_assoc. cbn [app]. rewrite Hmember by (done || lia).
    rewrite decide_True by done. rewrite IH by (done || lia). done.
Qed.

Lemma parse_print v : parses v.
Proof.
  induction v as [|b|b|s|a IH|o IH] using json_ind'; intros n r Hn;
    (destruct n as [|n]; [by (destruct b || idtac); cbn in Hn; lia|]).
  - done.
  - by destruct b.
  - by destruct b.
  - apply parse_quoted.
  - cbn [print] in *. cbn [app parse]. rewrite decide_False, decide_True by done.
    destruct a as [|v a]; [done|]. rewrite <- app_assoc. cbn [app].
    cbn [length] in Hn. rewrite length_app in Hn. cbn [length] in Hn.
    pose proof (parse_elements_print (v :: a) n r IH ltac:(done) ltac:(lia)) as Hp.
    destruct (print_not_empty v) as (c & t & Hc & Hc' & _).
    assert (∃ s, commas (map print (v :: a)) = c :: s) as [s Hs]
      by (destruct a; cbn [map commas]; rewrite Hc; eexists; reflexivity).
    rewrite Hs in *. cbn [app] in *. rewrite decide_False by done. by rewrite Hp.
  - cbn [print] in *. cbn [app parse]. rewrite !decide_False, decide_True by done.
    destruct o as [|[k v] o]; [done|]. rewrite <- app_assoc. cbn [app].
    cbn [length] in Hn. rewrite length_app in Hn. cbn [length] in Hn.
    pose proof (parse_members_print ((k, v) :: o) n r IH ltac:(done) ltac:(lia)) as Hp.
    assert (∃ s, commas (map (λ '(k, v), quoted (escape k) ++ colon :: print v) ((k, v) :: o))
      = quote :: s) as [s Hs] by (destruct o; eexists; reflexivity).
    rewrite Hs in *. cbn [app] in *. rewrite decide_False by done. by rewrite Hp.
Qed.

Lemma parse_text_print v : parse_text (print v) = Some v.
Proof.
  unfold parse_text. pose proof (parse_print v (length (print v)) [] ltac:(lia)) as Hp.
  rewrite app_nil_r in Hp. by rewrite Hp.
Qed.

#[export] Instance print_json : SerdeJson bool := {|
  to_vec := print;
  from_slice := parse_text;
  string_to_writer := λ s, print (JString s)
|}.

#[export] Instance print_json_laws : SerdeJsonLaws print_json.
Proof.
  refine {| number_text := digit_text |}.
  - intros n t ->. destruct n; plain_literal.
  - by intros n t ->.
  - apply print_text.
  - intros v _. apply parse_text_print.
  - done.
Defined.
