(* ===== verification/DocFlatten.v ===== *)
(** * Flattening stored documents (milli/src/update/index_documents/transform.rs)

    [flatten_from_fields_ids_map] flattens the stored document that an addition
    brings, only when one of its fields is nested; [flatten_reindexed] is the
    step that a reindexing takes for each document.  The reference is the list
    of scalars of each path of the document as the user sent it
    ([document_scalars]). *)
From S2P Require Import Prelude Json Flatten Obkv.
From S2P Require FieldsIdsMap Concrete.
Import FieldsIdsMap (FieldId, FieldsIdsMap).

Section doc_flatten.
Context {O : Obkv} {Number : Type} {J : SerdeJson Number} {S : SortById}.

(** ** The operations *)

(** The loop that sets the nested fields apart from the others. *)
Fixpoint split_fields (fields_ids_map : FieldsIdsMap) (obkv : list (FieldId * bytes))
    (key_value : list (FieldId * bytes)) (doc : Map Number) :
    outcome MilliError (list (FieldId * bytes) * Map Number) :=
  match obkv with
  | [] => Ok (key_value, doc)
  | (key, value) :: obkv =>
      if should_flatten_from_unchecked_slice value then
        name ← ok_or (FieldsIdsMap.name key fields_ids_map) (FieldIdMapMissingEntry key);
        value ← ok_or (from_slice value) SerdeJsonError;
        split_fields fields_ids_map obkv key_value (map_insert name value doc)
      else split_fields fields_ids_map obkv (key_value ++ [(key, value)]) doc
  end.

(** [self.fields_ids_map.insert(&key).ok_or(AttributeLimitReached)?]. *)
Definition insert_field (name : string) : ST FieldsIdsMap MilliError FieldId := λ self,
  let '(fid, self) := FieldsIdsMap.insert name self in
  (ok_or fid AttributeLimitReached, self).

(** The loop that gives ids to the fields that the flattening generated. *)
Fixpoint insert_flattened (flattened : Map Number) (key_value : list (FieldId * bytes)) :
    ST FieldsIdsMap MilliError (list (FieldId * bytes)) :=
  match flattened with
  | [] => mret key_value
  | (key, value) :: flattened =>
      fid ← insert_field key;
      insert_flattened flattened (key_value ++ [(fid, to_vec value)])
  end.

(** Two values of one field become one array. *)
Definition merge_values (value1 value2 : Json Number) : Json Number :=
  match value1, value2 with
  | JArray l, JArray r => JArray (l ++ r)
  | JArray array, value | value, JArray array => JArray (array ++ [value])
  | l, r => JArray [l; r]
  end.

(** One turn of the loop over [key_value.windows(2)]. *)
Definition write_window (st : bool * KvWriter)
    (window : (FieldId * bytes) * (FieldId * bytes)) : outcome MilliError (bool * KvWriter) :=
  let '(skip_next_value, writer) := st in
  let '((key1, value1), (key2, value2)) := window in
  if skip_next_value then Ok (false, writer)
  else if decide (key1 = key2) then
    value1 ← ok_or (from_slice value1) SerdeJsonError;
    value2 ← ok_or (from_slice value2) SerdeJsonError;
    writer ← ok_or (kv_insert writer key1 (to_vec (merge_values value1 value2))) IoError;
    Ok (true, writer)
  else
    writer ← ok_or (kv_insert writer key1 value1) IoError;
    Ok (false, writer).

Definition windows {A} (l : list A) : list (A * A) := zip l (tail l).

Fixpoint write_windows (st : bool * KvWriter)
    (l : list ((FieldId * bytes) * (FieldId * bytes))) : outcome MilliError (bool * KvWriter) :=
  match l with
  | [] => Ok st
  | window :: l => st ← write_window st window; write_windows st l
  end.

Definition create_obkv_from_key_value (key_value : list (FieldId * bytes)) :
    outcome MilliError kv :=
  '(skip_next_value, writer) ← write_windows (false, kv_new) (windows key_value);
  if skip_next_value : bool then Ok (kv_finish writer)
  else
    match last key_value with
    | None => Panic "called `Option::unwrap()` on a `None` value"
    | Some (key, value) =>
        writer ← ok_or (kv_insert writer key value) IoError;
        Ok (kv_finish writer)
    end.

Definition flatten_from_fields_ids_map (obkv : kv) :
    ST FieldsIdsMap MilliError (option kv) :=
  if forallb (λ '(_, value), negb (should_flatten_from_unchecked_slice value)) (kv_iter obkv)
  then mret None
  else
    self ← st_get;
    '(key_value, doc) ← st_lift (split_fields self (kv_iter obkv) [] []);
    key_value ← insert_flattened (flatten doc) key_value;
    buffer ← st_lift (create_obkv_from_key_value (sort_unstable_by_key key_value));
    mret (Some buffer).

(** ** Reindexing *)

(** The loop that reads the whole document back. *)
Fixpoint read_fields (fields_ids_map : FieldsIdsMap) (obkv : list (FieldId * bytes))
    (doc : Map Number) : outcome MilliError (Map Number) :=
  match obkv with
  | [] => Ok doc
  | (k, v) :: obkv =>
      key ← ok_or (FieldsIdsMap.name k fields_ids_map) (FieldIdMapMissingEntry k);
      value ← ok_or (from_slice v) SerdeJsonError;
      read_fields fields_ids_map obkv (map_insert key value doc)
  end.

(** The known fields come first, in the order of their ids. *)
Definition sort_known_first (fields_ids_map : FieldsIdsMap) (flattened : Map Number) :
    Map Number :=
  (sort_unstable_by_key
    ((λ e : string * Json Number,
      (default FieldsIdsMap.u16_max (FieldsIdsMap.id e.1 fields_ids_map), e)) <$> flattened)).*2.

(** The loop that writes the flattened document. *)
Fixpoint write_flattened (flattened : Map Number) (writer : KvWriter) :
    ST FieldsIdsMap MilliError KvWriter :=
  match flattened with
  | [] => mret writer
  | (key, value) :: flattened =>
      fid ← insert_field key;
      writer ← st_lift (ok_or (kv_insert writer fid (to_vec value)) IoError);
      write_flattened flattened writer
  end.

Definition flatten_reindexed (obkv : kv) : ST FieldsIdsMap MilliError kv :=
  new_fields_ids_map ← st_get;
  doc ← st_lift (read_fields new_fields_ids_map (kv_iter obkv) []);
  writer ← write_flattened (sort_known_first new_fields_ids_map (flatten doc)) kv_new;
  mret (kv_finish writer).

(** The document as the reindexing stores it again: its fields under the ids of
    the new map, in the order of these ids. *)
Definition reorder_fields (old_fields_ids_map new_fields_ids_map : FieldsIdsMap) (obkv : kv) :
    outcome MilliError kv :=
  writer ← kv_insert_all kv_new
    (omap (λ '(id, name),
      v ← (FieldsIdsMap.id name old_fields_ids_map ≫= kv_get obkv);
      Some (id, v)) (FieldsIdsMap.iter new_fields_ids_map));
  Ok (kv_finish writer).
End doc_flatten.

(** ** Fields and documents *)
Section fields.
Context {Number : Type} {J : SerdeJson Number}.
Implicit Types (m : FieldsIdsMap) (t : list (FieldId * Json Number)).

(** What a stored document with given fields holds. *)
Definition encode t : list (FieldId * bytes) := (λ e, (e.1, to_vec e.2)) <$> t.

Definition names_known m t : Prop := Forall (λ e, is_Some (FieldsIdsMap.name e.1 m)) t.

(** The document under its field names. *)
Definition named m t : Map Number := (λ e, (default "" (FieldsIdsMap.name e.1 m), e.2)) <$> t.

Definition values_ok t : Prop := Forall (λ e, json_ok e.2) t.

(** [m'] knows the fields of [m]. *)
Definition extends m m' : Prop :=
  ∀ i nm, FieldsIdsMap.name i m = Some nm → FieldsIdsMap.name i m' = Some nm.

Lemma extends_refl m : extends m m.
Proof. by intros i nm. Qed.

Lemma extends_trans m1 m2 m3 : extends m1 m2 → extends m2 m3 → extends m1 m3.
Proof. unfold extends. eauto. Qed.

Lemma names_known_extends m m' t : extends m m' → names_known m t → names_known m' t.
Proof.
  intros Hext Hk. eapply Forall_impl; [exact Hk|]. cbn. intros e [nm Hnm].
  exists nm. by apply Hext.
Qed.

Lemma named_extends m m' t : extends m m' → names_known m t → named m' t = named m t.
Proof.
  intros Hext Hk. apply list_fmap_ext. intros i e He.
  unfold names_known in Hk. rewrite Forall_forall in Hk.
  destruct (Hk e) as [nm Hnm]; [by eapply list_elem_of_lookup_2|].
  by rewrite (Hext _ _ Hnm), Hnm.
Qed.

Lemma named_keys_NoDup m t :
  FieldsIdsMap.well_formed m → names_known m t → NoDup t.*1 → NoDup (named m t).*1.
Proof.
  intros Hwf Hk Hnd. induction t as [|[k v] t IH]; [constructor|].
  apply Forall_cons in Hk as [[nm Hnm] Hk]. cbn [fst] in Hnm.
  rewrite fmap_cons in Hnd. apply NoDup_cons in Hnd as [Hnot Hnd].
  unfold named. rewrite !fmap_cons. apply NoDup_cons. split; [|by apply IH].
  cbn [fst]. rewrite Hnm. cbn. intros Hin.
  apply list_elem_of_fmap in Hin as ([nm' v'] & -> & Hin).
  apply list_elem_of_fmap in Hin as ([k' u] & Heq & Hin).
  cbn in Heq. unfold names_known in Hk. rewrite Forall_forall in Hk.
  destruct (Hk _ Hin) as [nm2 Hnm2]. cbn in Hnm2. rewrite Hnm2 in Heq. simplify_eq/=.
  apply (FieldsIdsMap.wf_bijection _ Hwf) in Hnm, Hnm2. assert (k = k') as -> by congruence.
  apply Hnot. apply list_elem_of_fmap. by exists (k', u).
Qed.

Lemma encode_keys t : (encode t).*1 = t.*1.
Proof. unfold encode. rewrite <- list_fmap_compose. by apply list_fmap_ext. Qed.

Lemma increasing_snoc {V} (l : list (FieldId * V)) k v :
  increasing l → Forall (λ x, (x.1 < k)%N) l → increasing (l ++ [(k, v)]).
Proof.
  unfold increasing. intros Hl Hk. rewrite fmap_app. apply StronglySorted_app_2; [|done|].
  - intros k1 k2 Hk1 Hk2. apply list_elem_of_fmap in Hk1 as (x & -> & Hx).
    apply list_elem_of_singleton in Hk2 as ->. rewrite Forall_forall in Hk. by apply Hk.
  - repeat constructor.
Qed.

Lemma named_keys m t :
  (named m t).*1 = (λ i, default "" (FieldsIdsMap.name i m)) <$> t.*1.
Proof.
  unfold named. induction t as [|e t IH]; [done|]. rewrite !fmap_cons. cbn [fst].
  by rewrite IH.
Qed.

Lemma named_app m t t' : named m (t ++ t') = named m t ++ named m t'.
Proof. apply fmap_app. Qed.

Lemma encode_cons k v t : encode ((k, v) :: t) = (k, to_vec v) :: encode t.
Proof. done. Qed.

Lemma encode_app t t' : encode (t ++ t') = encode t ++ encode t'.
Proof. apply fmap_app. Qed.

(** A stored document: its fields in order, all known, all values. *)
Record stored `{Obkv} m (o : kv) t : Prop := {
  stored_iter : kv_iter o = encode t;
  stored_increasing : increasing t;
  stored_known : names_known m t;
  stored_values : values_ok t
}.
End fields.

(** ** Merging the fields that occur twice *)
Section merge.
Context {Number : Type}.
Implicit Types (t : list (FieldId * Json Number)).

(** The elements that a value brings into an array. *)
Definition items (v : Json Number) : list (Json Number) :=
  match v with JArray a => a | _ => [v] end.

Lemma merge_values_items (v1 v2 : Json Number) :
  ∃ l, merge_values v1 v2 = JArray l ∧ l ≡ₚ items v1 ++ items v2.
Proof.
  destruct v1, v2; eexists; (split; [reflexivity|]); try done;
    cbn; by rewrite Permutation_app_comm.
Qed.

Lemma items_scalars (v : Json Number) : concat (map scalars (items v)) = scalars v.
Proof. by destruct v. Qed.

Lemma merge_values_scalars (v1 v2 : Json Number) :
  scalars (merge_values v1 v2) ≡ₚ scalars v1 ++ scalars v2.
Proof.
  destruct (merge_values_items v1 v2) as (l & -> & Hl). cbn.
  by rewrite (concat_map_perm _ _ _ Hl), map_app, concat_app, !items_scalars.
Qed.

Lemma items_ok (v : Json Number) : json_ok v → Forall json_ok (items v).
Proof. intros Hok. destruct v; [..|by apply json_ok_array|]; apply Forall_singleton, Hok. Qed.

Lemma merge_values_ok (v1 v2 : Json Number) :
  json_ok v1 → json_ok v2 → json_ok (merge_values v1 v2).
Proof.
  intros H1 H2. destruct (merge_values_items v1 v2) as (l & -> & Hl).
  apply json_ok_array. rewrite Hl. apply Forall_app. by split; apply items_ok.
Qed.

(** The fields in the order of their ids, neighbours of one id merged. *)
Fixpoint merge_pairs t : list (FieldId * Json Number) :=
  match t with
  | [] => []
  | (k1, v1) :: t1 =>
      match t1 with
      | [] => [(k1, v1)]
      | (k2, v2) :: t2 =>
          if decide (k1 = k2) then (k1, merge_values v1 v2) :: merge_pairs t2
          else (k1, v1) :: merge_pairs t1
      end
  end.

(** An induction that follows [merge_pairs]. *)
Lemma merge_pairs_ind (P : list (FieldId * Json Number) → Prop) :
  P [] → (∀ e, P [e]) →
  (∀ k v1 v2 t, P t → P ((k, v1) :: (k, v2) :: t)) →
  (∀ k1 v1 k2 v2 t, k1 ≠ k2 → P ((k2, v2) :: t) → P ((k1, v1) :: (k2, v2) :: t)) →
  ∀ t, P t.
Proof.
  intros Hnil Hone Hsame Hother t.
  remember (length t) as n eqn:Hn. revert t Hn.
  induction (lt_wf n) as [n _ IH]. intros t ->.
  destruct t as [|[k1 v1] [|[k2 v2] t]]; [done|apply Hone|].
  destruct (decide (k1 = k2)) as [->|Hne].
  - apply Hsame. eapply IH; [|done]. cbn. lia.
  - apply Hother; [done|]. eapply IH; [|done]. cbn. lia.
Qed.

Lemma merge_pairs_same k v1 v2 t :
  merge_pairs ((k, v1) :: (k, v2) :: t) = (k, merge_values v1 v2) :: merge_pairs t.
Proof. cbn. by rewrite decide_True. Qed.

Lemma merge_pairs_other k1 v1 k2 v2 t :
  k1 ≠ k2 →
  merge_pairs ((k1, v1) :: (k2, v2) :: t) = (k1, v1) :: merge_pairs ((k2, v2) :: t).
Proof. intros. cbn [merge_pairs]. by rewrite decide_False. Qed.

Lemma merge_pairs_keys t : (merge_pairs t).*1 ⊆ t.*1.
Proof.
  induction t as [|e|k v1 v2 t IH|k1 v1 k2 v2 t Hne IH] using merge_pairs_ind.
  - done.
  - by destruct e.
  - rewrite merge_pairs_same, !fmap_cons. cbn [fst]. set_solver.
  - rewrite merge_pairs_other by done. rewrite !fmap_cons in *. cbn [fst] in *. set_solver.
Qed.

Lemma merge_pairs_ok t : values_ok t → values_ok (merge_pairs t).
Proof.
  induction t as [|e|k v1 v2 t IH|k1 v1 k2 v2 t Hne IH] using merge_pairs_ind; intros Hok.
  - done.
  - by destruct e.
  - rewrite merge_pairs_same. apply Forall_cons in Hok as [H1 Hok].
    apply Forall_cons in Hok as [H2 Hok]. constructor; [by apply merge_values_ok|by apply IH].
  - rewrite merge_pairs_other by done. apply Forall_cons in Hok as [H1 Hok].
    constructor; [done|by apply IH].
Qed.

(** The fields with a key. *)
Definition occurrences (k : FieldId) t : nat := length (filter (λ e, e.1 = k) t).

Lemma occurrences_cons k e t :
  occurrences k (e :: t) = (if decide (e.1 = k) then 1 else 0) + occurrences k t.
Proof. unfold occurrences. rewrite filter_cons. by destruct (decide (e.1 = k)). Qed.

Lemma occurrences_elem k t : k ∈ t.*1 → 1 ≤ occurrences k t.
Proof.
  induction t as [|e t IH]; intros Hin; [set_solver|]. rewrite occurrences_cons.
  rewrite fmap_cons in Hin. destruct (decide (e.1 = k)); [lia|].
  apply IH. set_solver.
Qed.

Lemma occurrences_NoDup k t : NoDup t.*1 → occurrences k t ≤ 1.
Proof.
  induction t as [|e t IH]; intros Hnd; [cbn; lia|]. rewrite fmap_cons in Hnd.
  apply NoDup_cons in Hnd as [Hnot Hnd]. specialize (IH Hnd).
  rewrite occurrences_cons. destruct (decide (e.1 = k)) as [<-|]; [|lia].
  assert (occurrences e.1 t = 0); [|lia]. unfold occurrences.
  destruct (filter (λ e0, e0.1 = e.1) t) as [|e' l] eqn:Hf; [done|].
  assert (e' ∈ filter (λ e0, e0.1 = e.1) t) as [Heq Hin]%list_elem_of_filter
    by (rewrite Hf; left).
  destruct Hnot. rewrite <- Heq. by apply (list_elem_of_fmap_2 fst) in Hin.
Qed.

(** When no id occurs three times, merging leaves each id once. *)
Lemma merge_pairs_increasing t :
  StronglySorted N.le t.*1 → (∀ k, occurrences k t ≤ 2) → increasing (merge_pairs t).
Proof.
  unfold increasing.
  induction t as [|e|k v1 v2 t IH|k1 v1 k2 v2 t Hne IH] using merge_pairs_ind; intros Hs Hocc.
  - constructor.
  - destruct e. repeat constructor.
  - rewrite merge_pairs_same, fmap_cons. rewrite !fmap_cons in Hs. cbn [fst] in *.
    apply StronglySorted_inv in Hs as [Hs Hle]. apply StronglySorted_inv in Hs as [Hs _].
    apply Forall_cons in Hle as [_ Hle]. constructor.
    + apply IH; [done|]. intros k'. specialize (Hocc k'). rewrite !occurrences_cons in Hocc. lia.
    + apply Forall_forall. intros k' Hk'%merge_pairs_keys.
      rewrite Forall_forall in Hle. specialize (Hle k' Hk').
      assert (k ≠ k'); [|lia]. intros <-. apply occurrences_elem in Hk'.
      specialize (Hocc k). rewrite !occurrences_cons in Hocc. cbn [fst] in Hocc.
      rewrite !decide_True in Hocc by done. lia.
  - rewrite merge_pairs_other, fmap_cons by done. rewrite fmap_cons in Hs. cbn [fst] in *.
    apply StronglySorted_inv in Hs as [Hs Hle]. constructor.
    + apply IH; [done|]. intros k'. specialize (Hocc k'). rewrite occurrences_cons in Hocc. lia.
    + apply Forall_forall. intros k' Hk'%merge_pairs_keys.
      rewrite fmap_cons in Hs, Hle, Hk'. cbn [fst] in *.
      apply StronglySorted_inv in Hs as [_ Hle2]. apply Forall_cons in Hle as [Hle _].
      apply elem_of_cons in Hk' as [->|Hk']; [lia|].
      rewrite Forall_forall in Hle2. specialize (Hle2 k' Hk'). lia.
Qed.

Lemma merge_pairs_scalars m nm t :
  scalars_under nm (named m (merge_pairs t)) ≡ₚ scalars_under nm (named m t).
Proof.
  induction t as [|e|k v1 v2 t IH|k1 v1 k2 v2 t Hne IH] using merge_pairs_ind.
  - done.
  - by destruct e.
  - rewrite merge_pairs_same. unfold named, scalars_under in *.
    rewrite !fmap_cons. cbn [map concat fst snd]. rewrite IH.
    destruct (decide _); [|done]. by rewrite merge_values_scalars, app_assoc.
  - rewrite merge_pairs_other by done. unfold named, scalars_under in *.
    rewrite (fmap_cons _ (k1, v1)), (fmap_cons _ (k1, v1) (_ :: _)). cbn [map concat fst snd].
    by rewrite IH.
Qed.
End merge.

(** ** The loops *)
Section loops.
Context {O : Obkv} {OL : ObkvLaws O}.
Context {Number : Type} {J : SerdeJson Number} {JL : SerdeJsonLaws J}.
Context {S : SortById}.
Implicit Types (m : FieldsIdsMap) (t : list (FieldId * Json Number)).

Definition is_nested (e : FieldId * Json Number) : Prop := should_flatten_from_value e.2 = true.

Lemma all_flat t :
  forallb (λ '(_, value), negb (should_flatten_from_unchecked_slice value)) (encode t) = true ↔
  Forall (λ e, should_flatten_from_value e.2 = false) t.
Proof.
  induction t as [|[k v] t IH]; [done|]. cbn.
  rewrite andb_true_iff, IH, Forall_cons, should_flatten_to_vec, negb_true_iff. done.
Qed.

Lemma split_fields_Ok m t key_value doc :
  names_known m t → values_ok t → NoDup (doc ++ named m t).*1 →
  split_fields m (encode t) key_value doc =
    Ok (key_value ++ encode (filter (λ e, ¬ is_nested e) t),
        doc ++ named m (filter is_nested t)).
Proof.
  revert key_value doc. induction t as [|[k v] t IH]; intros key_value doc Hk Hok Hnd.
  - cbn. by rewrite !app_nil_r.
  - apply Forall_cons in Hk as [[nm Hnm] Hk]. apply Forall_cons in Hok as [Hv Hok].
    cbn [fst snd] in Hnm, Hv. rewrite !filter_cons.
    change (encode ((k, v) :: t)) with ((k, to_vec v) :: encode t). cbn [split_fields].
    change (named m ((k, v) :: t))
      with ((default "" (FieldsIdsMap.name k m), v) :: named m t) in Hnd.
    rewrite should_flatten_to_vec. rewrite Hnm in Hnd. cbn [default] in Hnd.
    destruct (should_flatten_from_value v) eqn:Hf.
    + rewrite (decide_True (P := is_nested (k, v))) by done.
      rewrite (decide_False (P := ¬ is_nested (k, v))) by (intros Hn; by apply Hn).
      rewrite Hnm. cbn [ok_or mbind outcome_bind]. rewrite from_slice_to_vec by done.
      cbn [ok_or mbind outcome_bind]. rewrite map_insert_new.
      * rewrite IH by (rewrite <- ?app_assoc; done).
        unfold named. rewrite fmap_cons, <- app_assoc. cbn [fst snd]. by rewrite Hnm.
      * apply map_get_None. rewrite fmap_app, fmap_cons in Hnd.
        apply NoDup_app in Hnd as (_ & Hd & _). intros Hin. apply (Hd nm Hin). left.
    + assert (¬ is_nested (k, v)) by (unfold is_nested; cbn; congruence).
      rewrite (decide_False (P := is_nested (k, v))), decide_True by done.
      rewrite IH; [by unfold encode; rewrite fmap_cons, <- app_assoc|done..|].
      eapply (sublist_NoDup _ _ Hnd). rewrite !fmap_app, fmap_cons.
      apply sublist_app; [done|]. by apply sublist_cons.
Qed.

Lemma read_fields_Ok m t doc :
  names_known m t → values_ok t → NoDup (doc ++ named m t).*1 →
  read_fields m (encode t) doc = Ok (doc ++ named m t).
Proof.
  revert doc. induction t as [|[k v] t IH]; intros doc Hk Hok Hnd; [by cbn; rewrite app_nil_r|].
  apply Forall_cons in Hk as [[nm Hnm] Hk]. apply Forall_cons in Hok as [Hv Hok].
  cbn [fst snd] in Hnm, Hv.
  change (encode ((k, v) :: t)) with ((k, to_vec v) :: encode t). cbn [read_fields].
  change (named m ((k, v) :: t))
    with ((default "" (FieldsIdsMap.name k m), v) :: named m t) in *.
  rewrite Hnm in *. cbn [default ok_or mbind outcome_bind] in *.
  rewrite from_slice_to_vec by done. cbn [ok_or mbind outcome_bind]. rewrite map_insert_new.
  - rewrite IH; rewrite <- ?app_assoc; done.
  - apply map_get_None. rewrite fmap_app, fmap_cons in Hnd.
    apply NoDup_app in Hnd as (_ & Hd & _). intros Hin. apply (Hd nm Hin). left.
Qed.

(** What the insertion of fields leaves of the map, whatever it returns. *)
Lemma insert_field_spec m nm :
  FieldsIdsMap.well_formed m →
  match insert_field nm m with
  | (Ok fid, m') =>
      FieldsIdsMap.well_formed m' ∧ extends m m' ∧ FieldsIdsMap.name fid m' = Some nm
  | (Err e, m') => e = AttributeLimitReached ∧ FieldsIdsMap.next_id m' = None ∧ m' = m
  | (Panic _, _) => False
  end.
Proof.
  intros Hwf. pose proof (FieldsIdsMap.insert_result m Hwf nm) as Hins.
  pose proof (FieldsIdsMap.insert_well_formed m Hwf nm) as Hwf'.
  unfold insert_field. destruct (FieldsIdsMap.insert nm m) as [[fid|] m']; cbn in *.
  - by destruct Hins as (_ & Hnm & _ & Hext).
  - by destruct Hins as (-> & _ & Hn).
Qed.

Lemma insert_flattened_spec m flattened key_value :
  FieldsIdsMap.well_formed m →
  match insert_flattened flattened key_value m with
  | (Ok key_value', m') =>
      FieldsIdsMap.well_formed m' ∧ extends m m' ∧
      ∃ t, key_value' = key_value ++ encode t ∧ names_known m' t ∧ named m' t = flattened
  | (Err e, m') =>
      e = AttributeLimitReached ∧ FieldsIdsMap.next_id m' = None ∧
      FieldsIdsMap.well_formed m' ∧ extends m m'
  | (Panic _, _) => False
  end.
Proof.
  revert m key_value. induction flattened as [|[nm v] l IH]; intros m key_value Hwf.
  - cbn. split_and!; [done|apply extends_refl|]. exists [].
    split_and!; [symmetry; apply app_nil_r|constructor|done].
  - cbn [insert_flattened]. unfold mbind, st_bind. pose proof (insert_field_spec m nm Hwf) as Hf.
    destruct (insert_field nm m) as [[fid|e|p] m1]; [|destruct Hf as (? & ? & ->); eauto using extends_refl|done].
    destruct Hf as (Hwf1 & Hext1 & Hnm). specialize (IH m1 (key_value ++ [(fid, to_vec v)]) Hwf1).
    destruct (insert_flattened l _ m1) as [[key_value'|e|p] m'].
    + destruct IH as (Hwf' & Hext & t & -> & Hk & Ht).
      split_and!; [done|by eapply extends_trans|]. exists ((fid, v) :: t). split_and!.
      * by rewrite <- app_assoc.
      * constructor; [|done]. exists nm. by apply Hext.
      * unfold named in *. rewrite fmap_cons, Ht. cbn [fst snd]. by rewrite (Hext _ _ Hnm).
    + destruct IH as (-> & Hn & Hwf' & Hext). split_and!; try done. by eapply extends_trans.
    + done.
Qed.

(** The loop over the windows writes the merged fields. *)
Lemma write_windows_Ok t w :
  t ≠ [] → values_ok t → increasing (kv_entries w ++ encode (merge_pairs t)) →
  ∃ skip w', write_windows (false, w) (windows (encode t)) = Ok (skip, w') ∧
    if skip : bool then kv_entries w' = kv_entries w ++ encode (merge_pairs t)
    else ∃ k v, last (encode t) = Some (k, v) ∧
      kv_entries w' ++ [(k, v)] = kv_entries w ++ encode (merge_pairs t).
Proof.
  revert w.
  induction t as [|e|k v1 v2 t IH|k1 v1 k2 v2 t Hne IH] using merge_pairs_ind; intros w Ht Hok Hinc.
  - done.
  - destruct e as [k v]. exists false, w. split; [done|]. by exists k, (to_vec v).
  - rewrite merge_pairs_same, !encode_cons in *.
    apply Forall_cons in Hok as [Hv1 Hok]. apply Forall_cons in Hok as [Hv2 Hok].
    cbn [snd] in Hv1, Hv2.
    destruct (kv_insert_next _ _ _ _ Hinc) as (w1 & Hw1 & He1). rewrite <- He1.
    destruct t as [|e t].
    + exists true, w1. cbn. rewrite decide_True, !from_slice_to_vec by done. cbn.
      rewrite Hw1, app_nil_r. done.
    + destruct (IH w1) as (skip & w' & Hw' & Hskip); [done|done|by rewrite He1|].
      exists skip, w'. split; [|done].
      cbn. rewrite decide_True, !from_slice_to_vec by done. cbn. rewrite Hw1. exact Hw'.
  - rewrite merge_pairs_other, !encode_cons in * by done.
    apply Forall_cons in Hok as [Hv1 Hok]. cbn [snd] in Hv1.
    destruct (kv_insert_next _ _ _ _ Hinc) as (w1 & Hw1 & He1).
    destruct (IH w1) as (skip & w' & Hw' & Hskip); [done|done|by rewrite He1|].
    rewrite <- He1, <- encode_cons in *. exists skip, w'. split.
    + cbn. rewrite decide_False by done. rewrite Hw1. exact Hw'.
    + destruct skip; [done|]. destruct Hskip as (k & v & Hlast & He). exists k, v.
      split; [|done]. exact Hlast.
Qed.

Lemma create_obkv_Ok t :
  t ≠ [] → values_ok t → increasing (merge_pairs t) →
  ∃ o, create_obkv_from_key_value (encode t) = Ok o ∧ kv_iter o = encode (merge_pairs t).
Proof.
  intros Ht Hok Hinc. unfold create_obkv_from_key_value.
  destruct (write_windows_Ok t kv_new) as (skip & w & -> & Hskip); [done|done| |].
  { rewrite kv_entries_new. unfold increasing. by rewrite app_nil_l, encode_keys. }
  cbn. rewrite kv_entries_new, app_nil_l in Hskip. destruct skip.
  - exists (kv_finish w). by rewrite kv_iter_finish.
  - destruct Hskip as (k & v & -> & He). cbn.
    destruct (kv_insert_next w k v []) as (w' & -> & Hw').
    { rewrite He. unfold increasing. by rewrite encode_keys. }
    exists (kv_finish w'). split; [done|]. rewrite app_nil_r in Hw'.
    by rewrite kv_iter_finish, Hw'.
Qed.

Lemma stored_named_NoDup m o t :
  FieldsIdsMap.well_formed m → stored m o t → NoDup (named m t).*1.
Proof.
  intros Hwf [_ Hinc Hk _]. by apply named_keys_NoDup, increasing_keys_NoDup.
Qed.

Lemma named_filter_flat m t :
  is_flat (named m (filter (λ e, ¬ is_nested e) t)).
Proof.
  apply Forall_fmap, Forall_forall. intros e [He _]%list_elem_of_filter. cbn.
  by apply not_true_is_false.
Qed.

(** The scalars of the two parts are those of the document. *)
Lemma document_scalars_parts m t nm :
  document_scalars (named m (filter (λ e, ¬ is_nested e) t)) nm ++
  document_scalars (named m (filter is_nested t)) nm ≡ₚ document_scalars (named m t) nm.
Proof.
  rewrite <- document_scalars_app, <- named_app. apply document_scalars_perm.
  unfold named. by rewrite Permutation_app_comm, filter_app_complement.
Qed.

Lemma occurrences_app k t t' : occurrences k (t ++ t') = occurrences k t + occurrences k t'.
Proof. unfold occurrences. by rewrite filter_app, length_app. Qed.

Lemma occurrences_perm k t t' : t ≡ₚ t' → occurrences k t = occurrences k t'.
Proof. intros Hp. unfold occurrences. by rewrite Hp. Qed.

(** Sorting the encoded fields is sorting the fields. *)
Lemma sort_encode t :
  ∃ t', sort_unstable_by_key (encode t) = encode t' ∧ t' ≡ₚ t ∧ StronglySorted N.le t'.*1.
Proof.
  pose proof (sort_unstable_by_key_perm (encode t)) as Hp.
  apply Permutation_map_inv in Hp as (t' & Ht' & Hp).
  change (sort_unstable_by_key (encode t) = encode t') in Ht'.
  exists t'. split_and!; [done|by symmetry|].
  rewrite <- encode_keys, <- Ht'. apply sort_unstable_by_key_sorted.
Qed.

(** Merging two lists of fields of distinct keys makes a stored document. *)
Lemma create_sorted_Ok m t1 t2 :
  FieldsIdsMap.well_formed m → t1 ++ t2 ≠ [] →
  names_known m (t1 ++ t2) → values_ok (t1 ++ t2) → NoDup t1.*1 → NoDup t2.*1 →
  ∃ o t', create_obkv_from_key_value (sort_unstable_by_key (encode (t1 ++ t2))) = Ok o ∧
    stored m o t' ∧
    ∀ nm, field_scalars (map_get nm (named m t')) ≡ₚ
      scalars_under nm (named m t1) ++ scalars_under nm (named m t2).
Proof.
  intros Hwf Hne Hk Hok Hnd1 Hnd2.
  destruct (sort_encode (t1 ++ t2)) as (t & -> & Hp & Hs).
  assert (values_ok t) as Hok' by (unfold values_ok; by rewrite Hp).
  assert (increasing (merge_pairs t)) as Hinc.
  { apply merge_pairs_increasing; [done|]. intros k.
    rewrite (occurrences_perm k _ _ Hp), occurrences_app.
    pose proof (occurrences_NoDup k t1 Hnd1). pose proof (occurrences_NoDup k t2 Hnd2). lia. }
  destruct (create_obkv_Ok t) as (o & Ho & Hiter); [|done..|].
  { intros ->. by apply Permutation_nil_l in Hp. }
  assert (stored m o (merge_pairs t)) as Hst.
  { split; [done|done| |by apply merge_pairs_ok]. apply Forall_forall.
    intros e He. apply (list_elem_of_fmap_2 fst) in He. apply merge_pairs_keys in He.
    rewrite Hp in He. apply list_elem_of_fmap in He as (e' & -> & He').
    unfold names_known in Hk. rewrite Forall_forall in Hk. by apply Hk. }
  exists o, (merge_pairs t). split_and!; [done|done|]. intros nm.
  rewrite <- scalars_under_get by (by eapply stored_named_NoDup).
  rewrite merge_pairs_scalars. unfold named at 1. rewrite Hp.
  by rewrite fmap_app, scalars_under_app.
Qed.

Lemma Forall_filtered {A} (P Q : A → Prop) `{∀ x, Decision (Q x)} (l : list A) :
  Forall P l → Forall P (filter Q l).
Proof.
  rewrite !Forall_forall. intros Hall x [_ Hx]%list_elem_of_filter. by apply Hall.
Qed.

(** ** Flattening on addition *)
Lemma flatten_from_fields_ids_map_outcome m o t :
  FieldsIdsMap.well_formed m → stored m o t →
  match flatten_from_fields_ids_map o m with
  | (Ok None, m') => m' = m ∧ is_flat (named m t)
  | (Ok (Some o'), m') =>
      FieldsIdsMap.well_formed m' ∧ extends m m' ∧ ∃ t', stored m' o' t' ∧
      ∀ nm, field_scalars (map_get nm (named m' t')) ≡ₚ document_scalars (named m t) nm
  | (Err e, m') =>
      e = AttributeLimitReached ∧ FieldsIdsMap.next_id m' = None ∧
      FieldsIdsMap.well_formed m' ∧ extends m m'
  | (Panic _, _) => False
  end.
Proof.
  intros Hwf Hst. pose proof (stored_named_NoDup m o t Hwf Hst) as Hnd.
  destruct Hst as [Hiter Hinc Hk Hok]. unfold flatten_from_fields_ids_map. rewrite Hiter.
  destruct (forallb _ (encode t)) eqn:Hall.
  { cbn. split; [done|]. apply all_flat in Hall. by apply Forall_fmap. }
  unfold mbind, st_bind, st_get, st_lift. cbn beta iota.
  rewrite split_fields_Ok by done. rewrite !app_nil_l.
  set (t1 := filter (λ e, ¬ is_nested e) t). set (d2 := named m (filter is_nested t)).
  pose proof (insert_flattened_spec m (flatten d2) (encode t1) Hwf) as Hins.
  destruct (insert_flattened (flatten d2) (encode t1) m) as [[key_value|e|p] m']; [|done|done].
  destruct Hins as (Hwf' & Hext & t2 & -> & Hk2 & Ht2). rewrite <- encode_app.
  assert (names_known m t1) as Hk1 by (by apply Forall_filtered).
  destruct (create_sorted_Ok m' t1 t2) as (o' & t' & -> & Hst' & Hsc).
  - done.
  - intros [_ ->]%app_nil. symmetry in Ht2. apply (flatten_not_empty d2); [|done].
    intros Hd2. apply not_true_iff_false in Hall. apply Hall, all_flat, Forall_forall.
    intros e He. destruct (should_flatten_from_value e.2) eqn:Hf; [|done].
    assert (e ∈ filter is_nested t) as Hin by (by apply list_elem_of_filter).
    apply fmap_nil_inv in Hd2. rewrite Hd2 in Hin. set_solver.
  - apply Forall_app. split; [by eapply names_known_extends|done].
  - apply Forall_app. split; [by apply Forall_filtered|].
    assert (Forall (λ e, json_ok e.2) (named m' t2)) as Hall2.
    { rewrite Ht2. apply flatten_ok, Forall_fmap. by apply Forall_filtered. }
    unfold named in Hall2. rewrite Forall_fmap in Hall2. exact Hall2.
  - apply increasing_keys_NoDup in Hinc. eapply sublist_NoDup; [exact Hinc|].
    apply fmap_sublist, sublist_filter.
  - apply (NoDup_fmap_1 (λ i, default "" (FieldsIdsMap.name i m'))).
    rewrite <- named_keys, Ht2. apply flatten_NoDup.
  - cbn. split_and!; [done|done|]. exists t'. split; [done|]. intros nm.
    rewrite Hsc, (named_extends m m' t1), Ht2, flatten_scalars_under by done.
    rewrite flat_scalars_under.
    + apply document_scalars_parts.
    + apply named_filter_flat.
    + eapply sublist_NoDup; [exact Hnd|]. apply fmap_sublist, fmap_sublist, sublist_filter.
Qed.

(** ** Reindexing *)

(** The order in which the loop may meet two fields: known ones by their ids,
    then unknown ones; a known field may only follow an unknown one when no id
    is left. *)
Definition known_first m (e e' : string * Json Number) : Prop :=
  match FieldsIdsMap.id e.1 m, FieldsIdsMap.id e'.1 m with
  | Some i, Some i' => (i < i')%N
  | None, Some _ => FieldsIdsMap.next_id m = None
  | _, None => True
  end.

Lemma id_below m nm i :
  FieldsIdsMap.well_formed m → FieldsIdsMap.id nm m = Some i →
  (i < FieldsIdsMap.bound m)%N ∧ (i ≤ FieldsIdsMap.u16_max)%N.
Proof.
  intros Hwf Hi%(FieldsIdsMap.wf_bijection _ Hwf). apply (FieldsIdsMap.wf_below _ Hwf) in Hi.
  split; [done|]. unfold FieldsIdsMap.bound, FieldsIdsMap.u16_max in *.
  destruct (FieldsIdsMap.next_id m) as [j|] eqn:Hn; [|lia].
  pose proof (FieldsIdsMap.wf_next _ Hwf j Hn). unfold FieldsIdsMap.u16_max in *. lia.
Qed.

Lemma id_inj m nm nm' i :
  FieldsIdsMap.well_formed m →
  FieldsIdsMap.id nm m = Some i → FieldsIdsMap.id nm' m = Some i → nm = nm'.
Proof.
  intros Hwf H1%(FieldsIdsMap.wf_bijection _ Hwf) H2%(FieldsIdsMap.wf_bijection _ Hwf). congruence.
Qed.

Lemma known_first_key m (e e' : string * Json Number) :
  FieldsIdsMap.well_formed m → e.1 ≠ e'.1 →
  (default FieldsIdsMap.u16_max (FieldsIdsMap.id e.1 m)
    ≤ default FieldsIdsMap.u16_max (FieldsIdsMap.id e'.1 m))%N →
  known_first m e e'.
Proof.
  intros Hwf Hne Hle. unfold known_first.
  destruct (FieldsIdsMap.id e.1 m) as [i|] eqn:Hi, (FieldsIdsMap.id e'.1 m) as [i'|] eqn:Hi';
    cbn in Hle; try done.
  - assert (i ≠ i'); [|lia]. intros <-. apply Hne. by eapply id_inj.
  - destruct (id_below m _ _ Hwf Hi') as [Hb _]. unfold FieldsIdsMap.bound in Hb.
    destruct (FieldsIdsMap.next_id m) as [j|] eqn:Hn; [|done].
    pose proof (FieldsIdsMap.wf_next _ Hwf j Hn). lia.
Qed.

Lemma sort_known_first_spec m (flattened : Map Number) :
  FieldsIdsMap.well_formed m → NoDup flattened.*1 →
  sort_known_first m flattened ≡ₚ flattened ∧
  StronglySorted (known_first m) (sort_known_first m flattened).
Proof.
  intros Hwf Hnd. unfold sort_known_first.
  set (key := λ e : string * Json Number,
    (default FieldsIdsMap.u16_max (FieldsIdsMap.id e.1 m), e)).
  pose proof (sort_unstable_by_key_perm (key <$> flattened)) as Hp.
  pose proof (sort_unstable_by_key_sorted (key <$> flattened)) as Hs.
  apply Permutation_map_inv in Hp as (l & Hl & Hp).
  change (sort_unstable_by_key (key <$> flattened) = key <$> l) in Hl.
  rewrite Hl in Hs |- *. assert ((key <$> l).*2 = l) as ->.
  { rewrite <- list_fmap_compose. apply list_fmap_id. }
  split; [by symmetry|]. rewrite Hp in Hnd. clear Hp Hl flattened.
  induction l as [|e l IH]; [constructor|].
  rewrite !fmap_cons in Hs. rewrite fmap_cons in Hnd. apply StronglySorted_inv in Hs as [Hs Hle].
  apply NoDup_cons in Hnd as [Hnot Hnd]. constructor; [by apply IH|].
  apply Forall_forall. intros e' He'. apply known_first_key; [done| |].
  - intros Heq. apply Hnot. rewrite Heq. by apply (list_elem_of_fmap_2 fst).
  - rewrite Forall_forall in Hle. apply (Hle (key e').1).
    by apply (list_elem_of_fmap_2 fst), (list_elem_of_fmap_2 key).
Qed.

(** What may be written next comes after all that is written. *)
Record writable m (l : Map Number) (w : KvWriter) : Prop := {
  wr_nodup : NoDup l.*1;
  wr_sorted : StronglySorted (known_first m) l;
  wr_below : Forall (λ x, (x.1 < FieldsIdsMap.bound m)%N) (kv_entries w);
  wr_known e i : e ∈ l → FieldsIdsMap.id e.1 m = Some i →
    Forall (λ x, (x.1 < i)%N) (kv_entries w)
}.

Lemma insert_field_fresh m nm fid m' :
  FieldsIdsMap.well_formed m → insert_field nm m = (Ok fid, m') →
  (FieldsIdsMap.bound m ≤ FieldsIdsMap.bound m')%N ∧
  (∀ nm', nm' ≠ nm → FieldsIdsMap.id nm' m' = FieldsIdsMap.id nm' m) ∧
  (FieldsIdsMap.id nm m = Some fid ∧ m' = m ∨
   FieldsIdsMap.id nm m = None ∧ FieldsIdsMap.next_id m = Some fid ∧
     (fid < FieldsIdsMap.bound m')%N).
Proof.
  intros Hwf Hins. pose proof (FieldsIdsMap.insert_bound m Hwf nm) as Hb.
  pose proof (FieldsIdsMap.insert_result m Hwf nm) as Hres.
  pose proof (FieldsIdsMap.insert_well_formed m Hwf nm) as Hwf'.
  unfold insert_field in Hins. destruct (FieldsIdsMap.insert nm m) as [[i|] m1] eqn:Hi;
    simplify_eq/=. destruct Hres as (Hid & _ & Hother & _).
  split_and!; [done|done|]. apply id_below in Hid as [Hlt _]; [|done].
  unfold FieldsIdsMap.insert, FieldsIdsMap.id in *.
  destruct (FieldsIdsMap.names_ids m !! nm) eqn:Hnm; [left; by simplify_eq|right].
  destruct (FieldsIdsMap.next_id m) as [j|] eqn:Hn; by simplify_eq.
Qed.

Lemma write_next m nm v l w fid m' :
  FieldsIdsMap.well_formed m → writable m ((nm, v) :: l) w →
  insert_field nm m = (Ok fid, m') →
  ∃ w', kv_insert w fid (to_vec v) = Some w' ∧
    kv_entries w' = kv_entries w ++ [(fid, to_vec v)] ∧
    (increasing (kv_entries w) → increasing (kv_entries w')) ∧ writable m' l w'.
Proof.
  intros Hwf [Hnd Hs Hb Hkn] Hins.
  destruct (insert_field_fresh m nm fid m' Hwf Hins) as (Hbound & Hother & Hcase).
  rewrite fmap_cons in Hnd. apply NoDup_cons in Hnd as [Hnot Hnd]. cbn [fst] in Hnot.
  apply StronglySorted_inv in Hs as [Hs Hfirst].
  assert (∀ e, e ∈ l → FieldsIdsMap.id e.1 m' = FieldsIdsMap.id e.1 m) as Hsame.
  { intros e He. apply Hother. intros <-. apply Hnot. by apply (list_elem_of_fmap_2 fst). }
  assert (Forall (λ x, (x.1 < fid)%N) (kv_entries w)) as Hw.
  { destruct Hcase as [[Hid _]|(_ & Hn & _)]; [apply (Hkn (nm, v)); [left|done]|].
    unfold FieldsIdsMap.bound in Hb. by rewrite Hn in Hb. }
  destruct (kv_entries_insert w fid (to_vec v) Hw) as (w' & Hw' & He').
  exists w'. split_and!; [done|done| |split; [done| | |]].
  { intros Hinc. rewrite He'. by apply increasing_snoc. }
  - destruct Hcase as [[_ ->]|(Hid & Hn & _)]; [done|].
    (* the rest of the list is unknown *)
    assert (∀ e, e ∈ l → FieldsIdsMap.id e.1 m = None) as Hnone.
    { intros e He. rewrite Forall_forall in Hfirst. specialize (Hfirst e He).
      unfold known_first in Hfirst. cbn [fst] in Hfirst. rewrite Hid in Hfirst.
      destruct (FieldsIdsMap.id e.1 m); [congruence|done]. }
    clear - Hnone Hsame. induction l as [|e l IH]; constructor.
    + apply IH; intros; [apply Hsame|apply Hnone]; by right.
    + apply Forall_forall. intros e' He'. unfold known_first.
      rewrite !Hsame, !Hnone by set_solver. done.
  - rewrite He'. apply Forall_app. split.
    + eapply Forall_impl; [exact Hb|]. cbn. intros x Hx. lia.
    + apply Forall_singleton. cbn. destruct Hcase as [[Hid ->]|(_ & _ & ?)]; [|done].
      by apply (id_below _ _ _ Hwf) in Hid as [? _].
  - intros e i He Hi. rewrite Hsame in Hi by done. rewrite He'. apply Forall_app. split.
    + apply (Hkn e); [by right|done].
    + apply Forall_singleton. cbn. rewrite Forall_forall in Hfirst. specialize (Hfirst e He).
      unfold known_first in Hfirst. cbn [fst] in Hfirst. rewrite Hi in Hfirst.
      destruct Hcase as [[Hid _]|(Hid & Hn & _)]; rewrite Hid in Hfirst; [done|congruence].
Qed.

Lemma write_flattened_spec m l w :
  FieldsIdsMap.well_formed m → writable m l w → Forall (λ e, json_ok e.2) l →
  match write_flattened l w m with
  | (Ok w', m') =>
      FieldsIdsMap.well_formed m' ∧ extends m m' ∧
      (increasing (kv_entries w) → increasing (kv_entries w')) ∧
      ∃ t, kv_entries w' = kv_entries w ++ encode t ∧ names_known m' t ∧ named m' t = l
  | (Err e, m') =>
      e = AttributeLimitReached ∧ FieldsIdsMap.next_id m' = None ∧
      FieldsIdsMap.well_formed m' ∧ extends m m'
  | (Panic _, _) => False
  end.
Proof.
  revert m w. induction l as [|[nm v] l IH]; intros m w Hwf Hwr Hok.
  - cbn. split_and!; [done|apply extends_refl|done|]. exists [].
    split_and!; [symmetry; apply app_nil_r|constructor|done].
  - apply Forall_cons in Hok as [Hv Hok]. cbn [write_flattened]. unfold mbind, st_bind, st_lift.
    pose proof (insert_field_spec m nm Hwf) as Hf.
    destruct (insert_field nm m) as [[fid|e|p] m1] eqn:Hins;
      [|destruct Hf as (? & ? & ->); eauto using extends_refl|done].
    destruct Hf as (Hwf1 & Hext1 & Hnm).
    destruct (write_next m nm v l w fid m1 Hwf Hwr Hins) as (w1 & -> & He1 & Hinc1 & Hwr1).
    cbn [ok_or].
    specialize (IH m1 w1 Hwf1 Hwr1 Hok).
    destruct (write_flattened l w1 m1) as [[w'|e|p] m'].
    + destruct IH as (Hwf' & Hext & Hinc & t & He & Hk & Ht).
      split_and!; [done|by eapply extends_trans|auto|]. exists ((fid, v) :: t). split_and!.
      * by rewrite He, He1, <- app_assoc.
      * constructor; [|done]. exists nm. by apply Hext.
      * unfold named in *. rewrite fmap_cons, Ht. cbn [fst snd]. by rewrite (Hext _ _ Hnm).
    + destruct IH as (-> & Hn & Hwf' & Hext). split_and!; try done. by eapply extends_trans.
    + done.
Qed.

Lemma flatten_reindexed_outcome m o t :
  FieldsIdsMap.well_formed m → stored m o t →
  match flatten_reindexed o m with
  | (Ok o', m') =>
      FieldsIdsMap.well_formed m' ∧ extends m m' ∧ ∃ t', stored m' o' t' ∧
      named m' t' ≡ₚ flatten (named m t)
  | (Err e, m') =>
      e = AttributeLimitReached ∧ FieldsIdsMap.next_id m' = None ∧
      FieldsIdsMap.well_formed m' ∧ extends m m'
  | (Panic _, _) => False
  end.
Proof.
  intros Hwf Hst. pose proof (stored_named_NoDup m o t Hwf Hst) as Hnd.
  destruct Hst as [Hiter Hinc Hk Hok]. unfold flatten_reindexed. rewrite Hiter.
  unfold mbind, st_bind, st_get, st_lift. cbn beta iota.
  rewrite read_fields_Ok by done. rewrite app_nil_l.
  pose proof (flatten_NoDup (named m t)) as Hndf.
  assert (Forall (λ e, json_ok e.2) (flatten (named m t))) as Hokf
    by (apply flatten_ok, Forall_fmap; exact Hok).
  destruct (sort_known_first_spec m _ Hwf Hndf) as [Hp Hs].
  pose proof (write_flattened_spec m (sort_known_first m (flatten (named m t))) kv_new Hwf)
    as Hwrite.
  destruct (write_flattened _ kv_new m) as [[w|e|p] m'].
  - destruct Hwrite as (Hwf' & Hext & Hinc' & t' & He & Hk' & Ht').
    { split; [by rewrite Hp|done| |]; rewrite kv_entries_new; by constructor. }
    { by rewrite Hp. }
    rewrite kv_entries_new in He. cbn [app] in He. cbn.
    split_and!; [done|done|]. exists t'. split; [|by rewrite Ht', Hp]. split.
    + by rewrite kv_iter_finish.
    + unfold increasing. rewrite <- encode_keys, <- He. apply Hinc'.
      rewrite kv_entries_new. constructor.
    + done.
    + assert (Forall (λ e, json_ok e.2) (named m' t')) as Hall by by rewrite Ht', Hp.
      unfold named in Hall. rewrite Forall_fmap in Hall. exact Hall.
  - apply Hwrite; [split; [by rewrite Hp|done| |]; rewrite kv_entries_new; by constructor|].
    by rewrite Hp.
  - apply Hwrite; [split; [by rewrite Hp|done| |]; rewrite kv_entries_new; by constructor|].
    by rewrite Hp.
Qed.

(** The field with an id. *)
Definition field_at t (k : FieldId) : option (Json Number) :=
  snd <$> find (λ e, N.eqb e.1 k) t.

Lemma kv_get_encode o t k : kv_iter o = encode t → kv_get o k = to_vec <$> field_at t k.
Proof.
  intros Ho. unfold kv_get, field_at. rewrite Ho. clear Ho.
  induction t as [|[k' v] t IH]; [done|]. rewrite encode_cons. cbn [find fst].
  by destruct (N.eqb k' k).
Qed.

Lemma field_at_elem t k v : field_at t k = Some v → (k, v) ∈ t.
Proof.
  unfold field_at. induction t as [|[k' v'] t IH]; [done|]. cbn [find fst].
  destruct (N.eqb_spec k' k) as [->|].
  - intros [= ->]. left.
  - intros Hv. right. by apply IH.
Qed.

Lemma field_at_Some t k v : NoDup t.*1 → (k, v) ∈ t → field_at t k = Some v.
Proof.
  intros Hnd Hin. unfold field_at. induction t as [|[k' v'] t IH]; [set_solver|].
  rewrite fmap_cons in Hnd. apply NoDup_cons in Hnd as [Hnot Hnd]. cbn [find fst] in *.
  apply elem_of_cons in Hin as [[= -> ->]|Hin]; [by rewrite N.eqb_refl|].
  destruct (N.eqb_spec k' k) as [->|]; [|by apply IH].
  destruct Hnot. by apply (list_elem_of_fmap_2 fst) in Hin.
Qed.

(** The fields that a reindexing keeps, under their new ids. *)
Definition reordered old new t : list (FieldId * Json Number) :=
  omap (λ '(id, name),
    v ← (FieldsIdsMap.id name old ≫= field_at t); Some (id, v)) (FieldsIdsMap.iter new).

Lemma reordered_elem old new t i v :
  (i, v) ∈ reordered old new t ↔
  ∃ nm k, FieldsIdsMap.name i new = Some nm ∧ FieldsIdsMap.id nm old = Some k ∧
    field_at t k = Some v.
Proof.
  unfold reordered. rewrite list_elem_of_omap. split.
  - intros ([i' nm] & Hin%FieldsIdsMap.iter_elem & Hv).
    destruct (FieldsIdsMap.id nm old) as [k|] eqn:Hk; [|done]. cbn in Hv.
    destruct (field_at t k) as [v'|] eqn:Hv'; [|done]. cbn in Hv. simplify_eq.
    by exists nm, k.
  - intros (nm & k & Hnm & Hk & Hv). exists (i, nm). split; [by apply FieldsIdsMap.iter_elem|].
    rewrite Hk. cbn. by rewrite Hv.
Qed.

Lemma reordered_increasing old new t : increasing (reordered old new t).
Proof.
  unfold increasing, reordered. pose proof (FieldsIdsMap.ids_increase new) as Hs.
  unfold FieldsIdsMap.ids in Hs. induction (FieldsIdsMap.iter new) as [|[i nm] l IH]; [constructor|].
  rewrite fmap_cons in Hs. apply StronglySorted_inv in Hs as [Hs Hlt]. specialize (IH Hs).
  cbn [omap list_omap]. destruct (FieldsIdsMap.id nm old ≫= field_at t) as [v|]; [|done].
  cbn [mbind option_bind]. rewrite fmap_cons. constructor; [done|].
  apply Forall_forall. intros k Hk. apply list_elem_of_fmap in Hk as ([k' v'] & -> & Hin).
  apply list_elem_of_omap in Hin as ([i' nm'] & Hin & Hv).
  destruct (FieldsIdsMap.id nm' old ≫= field_at t); [|done]. cbn in Hv. simplify_eq.
  rewrite Forall_forall in Hlt. apply Hlt. by apply (list_elem_of_fmap_2 fst) in Hin.
Qed.

Lemma reorder_fields_Ok old new o t :
  stored old o t →
  ∃ o', reorder_fields old new o = Ok o' ∧ stored new o' (reordered old new t).
Proof.
  intros [Hiter Hinc Hk Hok]. unfold reorder_fields.
  assert (omap (λ '(id, name),
      v ← (FieldsIdsMap.id name old ≫= kv_get o); Some (id, v)) (FieldsIdsMap.iter new)
    = encode (reordered old new t)) as ->.
  { unfold reordered. induction (FieldsIdsMap.iter new) as [|[i nm] l IH]; [done|].
    cbn [omap list_omap]. destruct (FieldsIdsMap.id nm old) as [k|]; [|exact IH].
    cbn [mbind option_bind]. rewrite (kv_get_encode o t) by done.
    destruct (field_at t k) as [v|]; [|exact IH]. cbn [fmap option_fmap option_map].
    cbn [mbind option_bind]. rewrite encode_cons. f_equal. exact IH. }
  destruct (kv_write_Ok (encode (reordered old new t))) as (w & -> & Hw).
  { unfold increasing. rewrite encode_keys. apply reordered_increasing. }
  exists (kv_finish w). split; [done|]. split; [done|apply reordered_increasing| |].
  - apply Forall_forall. intros [i v] (nm & k & Hnm & _)%reordered_elem. by exists nm.
  - apply Forall_forall. intros [i v] (nm & k & _ & _ & Hv)%reordered_elem.
    apply field_at_elem in Hv. unfold values_ok in Hok. rewrite Forall_forall in Hok.
    by apply (Hok (k, v)).
Qed.

(** The reordered document has the same fields, those that the new map does not
    know excepted. *)
Lemma reordered_get old new t nm :
  FieldsIdsMap.well_formed old → FieldsIdsMap.well_formed new → names_known old t →
  NoDup t.*1 →
  map_get nm (named new (reordered old new t)) =
    if decide (is_Some (FieldsIdsMap.id nm new)) then map_get nm (named old t) else None.
Proof.
  intros Hold Hnew Hk Hnd. pose proof (named_keys_NoDup old t Hold Hk Hnd) as Hnd1.
  assert (NoDup (named new (reordered old new t)).*1) as Hnd2.
  { apply named_keys_NoDup; [done| |apply increasing_keys_NoDup, reordered_increasing].
    apply Forall_forall. intros [i v] (nm' & k & Hnm & _)%reordered_elem. by exists nm'. }
  apply option_eq. intros v. unfold names_known in Hk. rewrite Forall_forall in Hk.
  assert (map_get nm (named old t) = Some v ↔
    ∃ k, FieldsIdsMap.id nm old = Some k ∧ field_at t k = Some v) as Hget.
  { split.
    - intros Hv%map_get_Some_elem. apply list_elem_of_fmap in Hv as ([k u] & [= Hnm ->] & Hin).
      destruct (Hk _ Hin) as [nm' Hnm']. cbn [fst] in Hnm'. rewrite Hnm' in Hnm. cbn in Hnm.
      subst nm'. exists k. split; [by apply (FieldsIdsMap.wf_bijection _ Hold)|].
      by apply field_at_Some.
    - intros (k & Hid & Hv). apply map_get_elem; [done|]. apply field_at_elem in Hv.
      apply list_elem_of_fmap. exists (k, v). split; [|done]. cbn [fst snd].
      apply (FieldsIdsMap.wf_bijection _ Hold) in Hid.
      unfold FieldsIdsMap.name. by rewrite Hid. }
  split.
  - intros Hv%map_get_Some_elem. apply list_elem_of_fmap in Hv as ([i u] & [= Hnm ->] & Hin).
    apply reordered_elem in Hin as (nm' & k & Hi & Hid & Hv). rewrite Hi in Hnm. cbn in Hnm.
    subst nm'. apply (FieldsIdsMap.wf_bijection _ Hnew) in Hi.
    rewrite decide_True by (by exists i). apply Hget. by exists k.
  - destruct (decide (is_Some (FieldsIdsMap.id nm new))) as [[i Hi]|]; [|done].
    intros (k & Hid & Hv)%Hget. apply map_get_elem; [done|].
    apply (FieldsIdsMap.wf_bijection _ Hnew) in Hi.
    apply list_elem_of_fmap. exists (i, v). cbn [fst snd]. unfold FieldsIdsMap.name. rewrite Hi.
    split; [done|]. apply reordered_elem. by exists nm, k.
Qed.
End loops.

(** C31: Flattening keeps the scalars of every path.  When a document is added,
    what is indexed of it (its flattening, or the document itself when none of
    its fields is nested) holds under each field name exactly the scalars that
    the document has at this path, a name that occurs both as a field and as a
    path included; it is a well-formed stored document and no known field
    changes its id.  When documents are reindexed under other field ids, each
    one keeps its fields, in the order of the new ids, and what is indexed of it
    is its flattening.  The only failure is that of the 65 536 fields. *)
Theorem stored_documents_flattening {O : Obkv} {OL : ObkvLaws O}
    {Number : Type} {J : SerdeJson Number} {JL : SerdeJsonLaws J} {S : SortById}
    (m : FieldsIdsMap) (o : kv) (t : list (FieldId * Json Number)) :
  FieldsIdsMap.well_formed m → stored m o t →
  match flatten_from_fields_ids_map o m with
  | (Ok flattened, m') =>
      FieldsIdsMap.well_formed m' ∧ extends m m' ∧
      ∃ o' t', (flattened = Some o' ∨ flattened = None ∧ o' = o ∧ m' = m) ∧
        stored m' o' t' ∧
        ∀ nm, field_scalars (map_get nm (named m' t')) ≡ₚ document_scalars (named m t) nm
  | (Err e, m') => e = AttributeLimitReached ∧ FieldsIdsMap.next_id m' = None
  | (Panic _, _) => False
  end ∧
  ∀ new, FieldsIdsMap.well_formed new →
  ∃ o1 t1, reorder_fields m new o = Ok o1 ∧ stored new o1 t1 ∧
    (∀ nm, map_get nm (named new t1) =
      if decide (is_Some (FieldsIdsMap.id nm new)) then map_get nm (named m t) else None) ∧
    match flatten_reindexed o1 new with
    | (Ok o', new') =>
        ∃ t', stored new' o' t' ∧ named new' t' ≡ₚ flatten (named new t1)
    | (Err e, new') => e = AttributeLimitReached ∧ FieldsIdsMap.next_id new' = None
    | (Panic _, _) => False
    end.
Proof.
  intros Hwf Hst. split.
  - pose proof (flatten_from_fields_ids_map_outcome m o t Hwf Hst) as Hout.
    destruct (flatten_from_fields_ids_map o m) as [[[o'|]|e|p] m']; [..|done].
    + destruct Hout as (Hwf' & Hext & t' & Hst' & Hsc). split; [done|]. split; [done|].
      exists o', t'. by split; [left|].
    + destruct Hout as [-> Hflat]. split; [done|]. split; [apply extends_refl|].
      exists o, t. split; [by right|]. split; [done|]. intros nm.
      pose proof (stored_named_NoDup m o t Hwf Hst).
      by rewrite <- scalars_under_get, flat_scalars_under.
    + by destruct Hout as (? & ? & _).
  - intros new Hnew. destruct (reorder_fields_Ok m new o t Hst) as (o1 & Ho1 & Hst1).
    exists o1, (reordered m new t). split_and!; [done|done| |].
    + intros nm. destruct Hst. apply reordered_get; try done. by apply increasing_keys_NoDup.
    + pose proof (flatten_reindexed_outcome new o1 _ Hnew Hst1) as Hout.
      destruct (flatten_reindexed o1 new) as [[o'|e|p] m']; [|by destruct Hout as (? & ? & _)|done].
      by destruct Hout as (_ & _ & Hout).
Qed.

(** ** Witnesses *)
Module Demo.
Import Concrete.

Definition fields : FieldsIdsMap :=
  FieldsIdsMap.run [FieldsIdsMap.Insert "a.b"; FieldsIdsMap.Insert "a"] FieldsIdsMap.new.

(** The field [a.b] and the path [a.b] of the field [a]. *)
Definition doc : list (FieldId * Json bool) :=
  [(0%N, JNumber true); (1%N, JObject [("b", JArray [JString "x"]); ("c", JNull)])].

Definition stored_doc : kv := encode doc.

(** The fields of [a.b] are merged, and [a.c] is a new field. *)
Example flattened_doc :
  flatten_from_fields_ids_map stored_doc fields =
    (Ok (Some (encode
       [(0%N, JArray [JString "x"; JNumber true]);
        (1%N, JObject [("b", JArray [JString "x"]); ("c", JNull)]); (2%N, JNull)])),
     FieldsIdsMap.run [FieldsIdsMap.Insert "a.c"] fields).
Proof. vm_compute. reflexivity. Qed.

Lemma stored_documents_flattening_witness :
  FieldsIdsMap.well_formed fields ∧ stored fields stored_doc doc ∧
  (∃ o' t', stored (FieldsIdsMap.run [FieldsIdsMap.Insert "a.c"] fields) o' t' ∧
    field_scalars (map_get "a.b"
      (named (FieldsIdsMap.run [FieldsIdsMap.Insert "a.c"] fields) t'))
    ≡ₚ [JNumber true; JString "x"]) ∧
  ∃ o1, reorder_fields fields FieldsIdsMap.new stored_doc = Ok o1.
Proof.
  assert (FieldsIdsMap.well_formed fields) as Hwf
    by apply FieldsIdsMap.run_well_formed, FieldsIdsMap.new_well_formed.
  assert (stored fields stored_doc doc) as Hst.
  { split; [done|..].
    - repeat constructor.
    - repeat constructor; eexists; vm_compute; reflexivity.
    - apply Forall_cons. split; [done|]. apply Forall_singleton, json_ok_object.
      split; [apply (bool_decide_eq_true_1 _); vm_compute; reflexivity|].
      repeat constructor. }
  split; [done|]. split; [done|].
  pose proof (stored_documents_flattening fields stored_doc doc Hwf Hst) as [Hadd Hre].
  split.
  - rewrite flattened_doc in Hadd. destruct Hadd as (_ & _ & o' & t' & _ & Hst' & Hsc).
    exists o', t'. split; [exact Hst'|]. rewrite (Hsc "a.b"). vm_compute. reflexivity.
  - destruct (Hre FieldsIdsMap.new FieldsIdsMap.new_well_formed) as (o1 & t1 & Ho1 & _).
    by exists o1.
Defined.
End Demo.
