(* ===== verification/Merge.v ===== *)
(** * Merging document versions
      (milli/src/update/index_documents/helpers/merge_functions.rs)

    During an update the versions of a document wait in a sorter, each as an
    operation byte and an obkv; the sorter merges the versions of one document
    with one of the functions of this file.  [keeps] and [overrides] say what a
    sequence of versions amounts to; the sorter may merge any neighbouring
    versions first, in any number of rounds ([rtc merge_step]), and
    [merged_versions] shows that this makes no difference as long as nothing
    follows a deletion. *)
From S2P Require Import Prelude Json Obkv.
From S2P Require FieldsIdsMap Concrete.
Import FieldsIdsMap (FieldId).

(** The first byte of a value of the sorters. *)
Inductive Operation := Addition | Deletion.
#[export] Instance operation_eq_dec : EqDecision Operation.
Proof. solve_decision. Defined.

(** [itertools::merge_join_by] with a comparison of keys. *)
Inductive EitherOrBoth (A : Type) := Left (a : A) | Right (b : A) | Both (a b : A).
Arguments Left {A} a.
Arguments Right {A} b.
Arguments Both {A} a b.

Definition joined_key {V} (x : EitherOrBoth (FieldId * V)) : FieldId :=
  match x with Left a => a.1 | Right b => b.1 | Both a _ => a.1 end.

(** On two increasing sequences it yields, in increasing order, the elements
    that have a counterpart with the same key paired with it, and the others. *)
Class MergeJoin := {
  merge_join_by : list (FieldId * bytes) → list (FieldId * bytes) →
    list (EitherOrBoth (FieldId * bytes));
  merge_join_by_sorted l r : increasing l → increasing r →
    StronglySorted N.lt (joined_key <$> merge_join_by l r);
  merge_join_by_elem l r x : increasing l → increasing r →
    x ∈ merge_join_by l r ↔
    match x with
    | Left a => a ∈ l ∧ a.1 ∉ r.*1
    | Right b => b ∈ r ∧ b.1 ∉ l.*1
    | Both a b => a ∈ l ∧ b ∈ r ∧ a.1 = b.1
    end
}.

(** The fields of a stored document. *)
Abbreviation Fields := (gmap FieldId bytes).

(** A value of a sorter. *)
Abbreviation Version := (Operation * kv)%type.

Section merge.
Context {O : Obkv} {M : MergeJoin}.

(** Only the last version is kept. *)
Definition keep_latest_obkv (obkvs : list Version) : outcome MilliError Version :=
  match last obkvs with
  | Some version => Ok version
  | None => Panic "called `Option::unwrap()` on a `None` value"
  end.

(** The field that the loop of [merge_two_obkvs] writes: the update's one when
    both have it. *)
Definition joined_field (eob : EitherOrBoth (FieldId * bytes)) : FieldId * bytes :=
  match eob with Both _ kv | Left kv | Right kv => kv end.

Definition merge_two_obkvs (base update : kv) : outcome MilliError kv :=
  match kv_insert_all kv_new
    (joined_field <$> merge_join_by (kv_iter base) (kv_iter update)) with
  | Ok writer => Ok (kv_finish writer)
  | _ => Panic "called `Result::unwrap()` on an `Err` value"
  end.

(** The position of the last deletion. *)
Fixpoint last_deletion (obkvs : list Version) : option nat :=
  match obkvs with
  | [] => None
  | (op, _) :: obkvs =>
      match last_deletion obkvs with
      | Some i => Some (S i)
      | None => if decide (op = Deletion) then Some 0 else None
      end
  end.

Fixpoint merge_all (acc : kv) (obkvs : list Version) : outcome MilliError kv :=
  match obkvs with
  | [] => Ok acc
  | (_, current) :: obkvs => acc ← merge_two_obkvs acc current; merge_all acc obkvs
  end.

(** Merges the versions in the order we see them. *)
Definition merge_obkvs_and_operations (obkvs : list Version) : outcome MilliError Version :=
  let starting_position := default 0 (last_deletion obkvs) in
  match last obkvs with
  | None => Panic "called `Option::unwrap()` on a `None` value"
  | Some (op, last_obkv) =>
      if decide (starting_position = length obkvs - 1 ∧ op = Deletion) then
        Ok (op, last_obkv)
      else
        ret ← merge_all kv_empty (drop starting_position obkvs);
        Ok (Addition, ret)
  end.

(** ** What versions amount to *)

Definition content (o : kv) : Fields := list_to_map (kv_iter o).
Definition kv_ok (o : kv) : Prop := increasing (kv_iter o).

(** A version on top of an earlier state of the document: it replaces it, or
    its fields override the earlier ones. *)
Definition keeps (doc : option Fields) (v : Version) : option Fields :=
  match v.1 with Addition => Some (content v.2) | Deletion => None end.

Definition overrides (doc : option Fields) (v : Version) : option Fields :=
  match v.1 with Addition => Some (content v.2 ∪ default ∅ doc) | Deletion => None end.

(** The last version may delete the document, no other one. *)
Definition deletion_last (vs : list Version) : Prop :=
  ∃ additions rest, vs = additions ++ rest ∧ Forall (λ v, v.1 = Addition) additions ∧
    (rest = [] ∨ ∃ v, rest = [v] ∧ v.1 = Deletion).

(** One merge of neighbouring versions. *)
Definition merge_step (f : list Version → outcome MilliError Version) (vs vs' : list Version) :
    Prop :=
  ∃ before group after v,
    vs = before ++ group ++ after ∧ group ≠ [] ∧ f group = Ok v ∧ vs' = before ++ v :: after.
End merge.

(** ** The sorter

    [grenad::Sorter] with a stable sort: its stream has each key that was
    inserted once, in order, with a merge of the values inserted under it, in
    the order of the insertions; neighbours may be merged beforehand, each time
    a chunk is written. *)
Definition values_at {V} (k : N) (ins : list (N * V)) : list V :=
  snd <$> filter (λ e, e.1 = k) ins.

Class Sorter (O : Obkv) := {
  into_stream : (list Version → outcome MilliError Version) → list (N * Version) →
    outcome MilliError (list (N * Version));
  into_stream_Ok f (P : Version → Prop) ins :
    (∀ vs, vs ≠ [] → Forall P vs → ∃ v, f vs = Ok v ∧ P v) →
    Forall (λ e, P e.2) ins →
    ∃ out, into_stream f ins = Ok out ∧ StronglySorted N.lt out.*1 ∧
      (∀ k, k ∈ out.*1 ↔ k ∈ ins.*1) ∧
      (∀ k v, (k, v) ∈ out → P v ∧ rtc (merge_step f) (values_at k ins) [v])
}.

(** ** The merge functions on well-formed versions *)
Section merge_lemmas.
Context {O : Obkv} {OL : ObkvLaws O} {M : MergeJoin}.

Lemma content_elem (l : list (FieldId * bytes)) k b :
  increasing l → (list_to_map l : Fields) !! k = Some b ↔ (k, b) ∈ l.
Proof. intros Hl. symmetry. apply elem_of_list_to_map. by apply increasing_keys_NoDup. Qed.

Lemma joined_field_key eob : (joined_field eob).1 =
  match eob with Left a => a.1 | Right b => b.1 | Both _ b => b.1 end.
Proof. by destruct eob. Qed.

(** The written fields are those of the update and the others of the base. *)
Lemma merge_two_obkvs_Ok base update :
  kv_ok base → kv_ok update →
  ∃ o, merge_two_obkvs base update = Ok o ∧ kv_ok o ∧ content o = content update ∪ content base.
Proof.
  unfold kv_ok. intros Hb Hu. set (l := joined_field <$> merge_join_by (kv_iter base) (kv_iter update)).
  assert (increasing l) as Hl.
  { unfold increasing, l. rewrite <- list_fmap_compose.
    erewrite list_fmap_ext; [by apply (merge_join_by_sorted _ _ Hb Hu)|].
    intros i x Hx%list_elem_of_lookup_2. apply merge_join_by_elem in Hx; [|done..].
    destruct x; cbn; naive_solver. }
  destruct (kv_write_Ok l Hl) as (w & Hw & Hiter). unfold merge_two_obkvs. fold l. rewrite Hw.
  exists (kv_finish w). rewrite Hiter. split_and!; [done|done|].
  unfold content. rewrite Hiter. apply map_eq. intros k. apply option_eq. intros b.
  rewrite content_elem, lookup_union_Some_raw, !content_elem by done.
  unfold l. rewrite list_elem_of_fmap. split.
  - intros (x & Hx & Hin). apply merge_join_by_elem in Hin; [|done..].
    destruct x as [a|a|a a']; cbn in Hx; subst.
    + right. destruct Hin as [Hin Hnot]. split; [|done].
      apply not_elem_of_list_to_map. exact Hnot.
    + left. apply Hin.
    + left. apply Hin.
  - intros [Hin|[Hnot Hin]].
    + destruct (decide (k ∈ (kv_iter base).*1)) as [Hk|Hk].
      * apply list_elem_of_fmap in Hk as ([k' b'] & Heq & Hin'). cbn in Heq. subst k'.
        exists (Both (k, b') (k, b)). split; [done|]. by apply merge_join_by_elem.
      * exists (Right (k, b)). split; [done|]. by apply merge_join_by_elem.
    + exists (Left (k, b)). split; [done|]. apply merge_join_by_elem; [done..|].
      split; [done|]. by apply not_elem_of_list_to_map in Hnot.
Qed.

Lemma kv_empty_ok : kv_ok kv_empty.
Proof. unfold kv_ok. rewrite kv_iter_empty. constructor. Qed.

Lemma content_empty : content kv_empty = ∅.
Proof. unfold content. by rewrite kv_iter_empty. Qed.

Definition version_ok (v : Version) : Prop := kv_ok v.2.

Lemma merge_all_Ok acc vs :
  kv_ok acc → Forall version_ok vs →
  ∃ o, merge_all acc vs = Ok o ∧ kv_ok o ∧
    content o = foldl (λ c v, content v.2 ∪ c) (content acc) vs.
Proof.
  intros Hacc Hvs. revert acc Hacc.
  induction Hvs as [|[op current] vs Hv Hvs IH]; intros acc Hacc; [by exists acc|].
  destruct (merge_two_obkvs_Ok acc current Hacc Hv) as (o1 & Ho1 & Hok1 & Hc1).
  destruct (IH o1 Hok1) as (o & Ho & Hok & Hc). exists o. cbn. rewrite Ho1. cbn.
  split_and!; [done|done|]. by rewrite Hc, Hc1.
Qed.

Lemma keep_latest_Ok vs :
  vs ≠ [] → Forall version_ok vs → ∃ v, keep_latest_obkv vs = Ok v ∧ version_ok v.
Proof.
  intros Hne Hok. unfold keep_latest_obkv. destruct (last vs) as [v|] eqn:Hl.
  - exists v. split; [done|]. apply last_Some_elem_of in Hl. rewrite Forall_forall in Hok. auto.
  - by apply last_None in Hl.
Qed.

Lemma merge_operations_Ok vs :
  vs ≠ [] → Forall version_ok vs → ∃ v, merge_obkvs_and_operations vs = Ok v ∧ version_ok v.
Proof.
  intros Hne Hok. unfold merge_obkvs_and_operations.
  destruct (last vs) as [[op o]|] eqn:Hl; [|by apply last_None in Hl].
  destruct (decide _).
  - exists (op, o). split; [done|]. apply last_Some_elem_of in Hl.
    rewrite Forall_forall in Hok. by apply (Hok (op, o)).
  - destruct (merge_all_Ok kv_empty (drop (default 0 (last_deletion vs)) vs)) as (r & Hr & Hrok & _).
    { apply kv_empty_ok. }
    { by apply Forall_drop. }
    rewrite Hr. by exists (Addition, r).
Qed.

(** ** Merging does not lose anything *)
Lemma additions_no_deletion vs :
  Forall (λ v : Version, v.1 = Addition) vs → last_deletion vs = None.
Proof.
  induction 1 as [|[op o] vs Hop Hvs IH]; [done|]. cbn in *. by rewrite IH, Hop.
Qed.

Lemma last_deletion_snoc vs v :
  Forall (λ v : Version, v.1 = Addition) vs → v.1 = Deletion →
  last_deletion (vs ++ [v]) = Some (length vs).
Proof.
  destruct v as [op o]. intros Hvs Hop. cbn in Hop. subst op.
  induction Hvs as [|[op' o'] vs Hop' Hvs IH]; [done|]. cbn in *. by rewrite IH.
Qed.

Lemma foldl_overrides doc vs :
  Forall (λ v : Version, v.1 = Addition) vs → vs ≠ [] →
  foldl overrides doc vs = Some (foldl (λ c v, content v.2 ∪ c) (default ∅ doc) vs).
Proof.
  intros Hvs. revert doc. induction Hvs as [|[op o] vs Hop Hvs IH]; intros doc Hne; [done|].
  cbn in Hop. subst op. cbn [foldl]. destruct vs as [|v vs]; [done|]. by rewrite IH.
Qed.

Lemma foldl_content_union c vs :
  foldl (λ c (v : Version), content v.2 ∪ c) c vs =
  foldl (λ c (v : Version), content v.2 ∪ c) ∅ vs ∪ c.
Proof.
  revert c. induction vs as [|v vs IH]; intros c; cbn; [by rewrite map_empty_union|].
  rewrite IH, (IH (content v.2 ∪ ∅)), map_union_empty. by rewrite (assoc_L (∪)).
Qed.

Lemma merge_group_overrides vs v doc :
  deletion_last vs → Forall version_ok vs → vs ≠ [] → merge_obkvs_and_operations vs = Ok v →
  overrides doc v = foldl overrides doc vs ∧
  (v.1 = Deletion ↔ ∃ vs' v', vs = vs' ++ [v'] ∧ v'.1 = Deletion).
Proof.
  intros (adds & rest & -> & Hadds & Hrest) Hok Hne Hm. unfold merge_obkvs_and_operations in Hm.
  destruct Hrest as [->|(d & -> & Hd)].
  - rewrite app_nil_r in *. rewrite (additions_no_deletion _ Hadds) in Hm. cbn [default drop] in Hm.
    destruct (last adds) as [[op o]|] eqn:Hl; [|by apply last_None in Hl].
    apply last_Some_elem_of in Hl as Hin. pose proof (proj1 (Forall_forall _ _) Hadds) as Hall.
    rewrite decide_False in Hm by (specialize (Hall _ Hin); cbn in Hall; naive_solver).
    destruct (merge_all_Ok kv_empty adds kv_empty_ok Hok) as (r & Hr & _ & Hc).
    rewrite drop_0, Hr in Hm. cbn in Hm. injection Hm as <-. split.
    + rewrite foldl_overrides by done.
      unfold overrides. cbn. by rewrite Hc, content_empty, (foldl_content_union (default ∅ doc)).
    + split; [done|]. intros (vs' & v' & -> & Hv').
      specialize (Hall v' ltac:(set_solver)). congruence.
  - rewrite last_snoc, (last_deletion_snoc _ _ Hadds Hd) in Hm. destruct d as [op o].
    cbn in Hd. subst op. rewrite decide_True in Hm; [|split; [rewrite length_app; cbn; lia|done]].
    injection Hm as <-. split; [by rewrite foldl_app|]. split; [|done].
    intros _. by exists adds, (Deletion, o).
Qed.

Lemma keep_latest_keeps vs v doc :
  vs ≠ [] → keep_latest_obkv vs = Ok v →
  keeps doc v = foldl keeps doc vs ∧
  (v.1 = Deletion ↔ ∃ vs' v', vs = vs' ++ [v'] ∧ v'.1 = Deletion).
Proof.
  unfold keep_latest_obkv. intros Hne. destruct (last vs) as [v'|] eqn:Hl; [|done].
  intros [= ->]. apply last_Some in Hl as [vs' ->]. split.
  - rewrite foldl_app. cbn. unfold keeps. by destruct v.1.
  - split; [by exists vs', v|]. by intros (? & ? & [_ ->]%app_inj_tail & ?).
Qed.
End merge_lemmas.

(** ** Merging in rounds *)
Section rounds.
Context {O : Obkv} {OL : ObkvLaws O} {M : MergeJoin}.
Implicit Types (vs : list Version) (v : Version).

Definition ends_deleted vs : Prop := ∃ vs' v, vs = vs' ++ [v] ∧ v.1 = Deletion.

Lemma deletion_last_split vs :
  deletion_last vs ↔ ∀ before v after, vs = before ++ v :: after → v.1 = Deletion → after = [].
Proof.
  split.
  - intros (adds & rest & -> & Hadds & Hrest) before v after Heq Hv.
    rewrite Forall_forall in Hadds.
    destruct Hrest as [->|(d & -> & Hd)].
    + rewrite app_nil_r in Heq. specialize (Hadds v ltac:(rewrite Heq; set_solver)). congruence.
    + destruct after as [|w after _] using rev_ind; [done|].
      rewrite app_comm_cons, app_assoc in Heq. apply app_inj_tail in Heq as [Heq ->].
      specialize (Hadds v ltac:(rewrite Heq; set_solver)). congruence.
  - intros Hsplit. destruct vs as [|v vs _] using rev_ind; [exists [], []; auto|].
    assert (Forall (λ v, v.1 = Addition) vs) as Hvs.
    { apply Forall_forall. intros [op o] Hin. apply list_elem_of_split in Hin as (l1 & l2 & ->).
      destruct op; [done|]. specialize (Hsplit l1 (Deletion, o) (l2 ++ [v])).
      rewrite <- app_assoc in Hsplit. specialize (Hsplit eq_refl eq_refl).
      by destruct l2. }
    destruct v as [[] o].
    + exists (vs ++ [(Addition, o)]), []. rewrite app_nil_r, Forall_app. auto.
    + exists vs, [(Deletion, o)]. eauto 6.
Qed.

Lemma deletion_last_snoc vs v :
  Forall (λ v, v.1 = Addition) vs → deletion_last (vs ++ [v]).
Proof.
  intros Hvs. destruct v as [[] o].
  - exists (vs ++ [(Addition, o)]), []. rewrite app_nil_r, Forall_app. auto.
  - exists vs, [(Deletion, o)]. eauto 6.
Qed.

Context (f : list Version → outcome MilliError Version)
  (comb : option Fields → Version → option Fields).
Hypothesis f_Ok : ∀ vs, vs ≠ [] → Forall version_ok vs → ∃ v, f vs = Ok v ∧ version_ok v.
Hypothesis f_comb : ∀ vs v doc,
  deletion_last vs → Forall version_ok vs → vs ≠ [] → f vs = Ok v →
  comb doc v = foldl comb doc vs ∧ (v.1 = Deletion ↔ ends_deleted vs).

Lemma merge_step_inv vs vs' :
  deletion_last vs → Forall version_ok vs → merge_step f vs vs' →
  deletion_last vs' ∧ Forall version_ok vs' ∧
  (∀ doc, foldl comb doc vs' = foldl comb doc vs) ∧ (ends_deleted vs' ↔ ends_deleted vs).
Proof.
  intros Hlast Hok (before & group & after & v & -> & Hne & Hf & ->).
  rewrite deletion_last_split in Hlast. apply Forall_app in Hok as [Hok1 Hok].
  apply Forall_app in Hok as [Hok2 Hok3].
  assert (deletion_last group) as Hgroup.
  { apply deletion_last_split. intros b w a -> Hw.
    specialize (Hlast (before ++ b) w (a ++ after)). rewrite <- !app_assoc in Hlast.
    specialize (Hlast eq_refl Hw). by destruct a. }
  destruct (f_Ok group Hne Hok2) as (v' & Hv' & Hvok). assert (v' = v) as -> by congruence.
  pose proof (λ doc, f_comb group v doc Hgroup Hok2 Hne Hf) as Hcomb.
  destruct (Hcomb None) as [_ Hdel].
  assert (v.1 = Deletion → after = []) as Hafter.
  { intros (g & w & -> & Hw)%Hdel. apply (Hlast (before ++ g) w after); [|done].
    by rewrite <- !app_assoc. }
  split_and!.
  - apply deletion_last_split. intros b w a Heq Hw.
    apply app_eq_inv in Heq as [(k & -> & Hk)|(k & -> & Hk)].
    + destruct k as [|x k]; cbn in Hk.
      * injection Hk as <- <-. by apply Hafter.
      * injection Hk as -> ->. specialize (Hlast b x (k ++ group ++ after)).
        rewrite <- app_assoc in Hlast. cbn in Hlast. specialize (Hlast eq_refl Hw).
        destruct k, group; done.
    + destruct k as [|x k]; cbn in Hk.
      * injection Hk as -> ->. by apply Hafter.
      * injection Hk as -> ->. apply (Hlast (before ++ group ++ k) w a); [|done].
        by rewrite <- !app_assoc.
  - rewrite Forall_app, Forall_cons. done.
  - intros doc. rewrite !foldl_app. cbn. by rewrite (proj1 (Hcomb _)).
  - unfold ends_deleted. destruct after as [|w after _] using rev_ind.
    + rewrite app_nil_r. split.
      * intros (l & x & Hl & Hx). apply app_inj_tail in Hl as [-> ->].
        apply Hdel in Hx as (g & y & -> & Hy). exists (l ++ g), y. by rewrite app_assoc.
      * intros (l & x & Hl & Hx). exists before, v. split; [done|]. apply Hdel.
        destruct group as [|y g _] using rev_ind; [done|]. rewrite app_assoc in Hl.
        apply app_inj_tail in Hl as [_ ->]. by exists g, x.
    + split; intros (l & x & Hl & Hx).
      * rewrite app_comm_cons, app_assoc in Hl. apply app_inj_tail in Hl as [_ ->].
        exists (before ++ group ++ after), x. by rewrite <- !app_assoc.
      * rewrite !app_assoc in Hl. apply app_inj_tail in Hl as [_ ->].
        exists (before ++ v :: after), x. by rewrite <- app_assoc.
Qed.

Lemma merge_rounds vs v :
  deletion_last vs → Forall version_ok vs → rtc (merge_step f) vs [v] →
  (∀ doc, comb doc v = foldl comb doc vs) ∧ (v.1 = Deletion ↔ ends_deleted vs).
Proof.
  intros Hlast Hok Hrtc. remember [v] as vs' eqn:Heq. revert Heq.
  induction Hrtc as [vs|vs vs1 vs2 Hstep Hrtc IH]; intros ->.
  - split; [done|]. split.
    + intros Hv. by exists [], v.
    + intros (l & x & Hl & Hx). apply (app_inj_tail [] l) in Hl as [_ ->]. done.
  - destruct (merge_step_inv vs vs1 Hlast Hok Hstep) as (Hlast1 & Hok1 & Hfold & Hends).
    destruct (IH Hlast1 Hok1 eq_refl) as [Hc Hd]. split.
    + intros doc. by rewrite Hc, Hfold.
    + by rewrite Hd, Hends.
Qed.
End rounds.

(** Whatever neighbours a sorter merges before others, the versions of a
    document end up as if each had been applied after the other: replacing
    imports keep the fields of the last version, updating imports override the
    fields of the earlier ones, a final deletion leaves no document, and no
    merge panics.  This needs that nothing follows a deletion: the merge of a
    deletion and an addition is an addition, which forgets that earlier versions
    were to be dropped. *)
Theorem merged_versions {O : Obkv} {OL : ObkvLaws O} {M : MergeJoin}
    (vs : list Version) (v : Version) doc :
  deletion_last vs → Forall version_ok vs →
  (rtc (merge_step merge_obkvs_and_operations) vs [v] →
    overrides doc v = foldl overrides doc vs ∧ (v.1 = Deletion ↔ ends_deleted vs)) ∧
  (rtc (merge_step keep_latest_obkv) vs [v] →
    keeps doc v = foldl keeps doc vs ∧ (v.1 = Deletion ↔ ends_deleted vs)) ∧
  (vs ≠ [] → ∃ v1 v2,
    merge_obkvs_and_operations vs = Ok v1 ∧ keep_latest_obkv vs = Ok v2).
Proof.
  intros Hlast Hok. split_and!.
  - intros Hrtc. destruct (merge_rounds merge_obkvs_and_operations overrides
      merge_operations_Ok merge_group_overrides vs v Hlast Hok Hrtc) as [Hc Hd].
    by rewrite Hc.
  - intros Hrtc. destruct (merge_rounds keep_latest_obkv keeps keep_latest_Ok
      (λ vs v doc _ _, keep_latest_keeps vs v doc) vs v Hlast Hok Hrtc) as [Hc Hd].
    by rewrite Hc.
  - intros Hne. destruct (merge_operations_Ok vs Hne Hok) as (v1 & Hv1 & _).
    destruct (keep_latest_Ok vs Hne Hok) as (v2 & Hv2 & _). by exists v1, v2.
Qed.

(** ** Concrete instances and witnesses *)
Module Demo.
Import Concrete.

(** The elements of a list, increasing. *)
Definition sorted_keys (ks : list N) : list N :=
  merge_sort N.le (elements (list_to_set ks : gset N)).

Lemma sorted_keys_elem ks k : k ∈ sorted_keys ks ↔ k ∈ ks.
Proof. unfold sorted_keys. rewrite merge_sort_Permutation, elem_of_elements. apply elem_of_list_to_set. Qed.

Lemma strict_sorted (ks : list N) : StronglySorted N.le ks → NoDup ks → StronglySorted N.lt ks.
Proof.
  induction 1 as [|k ks Hks IH Hk]; intros Hnd; [constructor|].
  apply NoDup_cons in Hnd as [Hnot Hnd]. constructor; [auto|].
  apply Forall_forall. intros k' Hk'. rewrite Forall_forall in Hk. specialize (Hk k' Hk').
  assert (k ≠ k') by congruence. lia.
Qed.

Lemma sorted_keys_sorted ks : StronglySorted N.lt (sorted_keys ks).
Proof.
  apply strict_sorted; [apply (StronglySorted_merge_sort _)|].
  unfold sorted_keys. rewrite merge_sort_Permutation. apply NoDup_elements.
Qed.

(** A filtered image of increasing keys that keeps the keys is increasing. *)
Lemma omap_sorted {A} (g : N → option A) (key : A → N) ks :
  (∀ k x, g k = Some x → key x = k) → StronglySorted N.lt ks →
  StronglySorted N.lt (key <$> omap g ks).
Proof.
  intros Hg. induction 1 as [|k ks Hks IH Hk]; [constructor|]. cbn [omap list_omap].
  destruct (g k) as [x|] eqn:Hx; [|done]. rewrite fmap_cons. constructor; [done|].
  apply Forall_forall. intros k' Hk'. apply list_elem_of_fmap in Hk' as (y & -> & Hy).
  apply list_elem_of_omap in Hy as (k' & Hk' & Hy). apply Hg in Hx, Hy.
  rewrite Forall_forall in Hk. rewrite Hx, Hy. by apply Hk.
Qed.

Definition join_at (l r : list (FieldId * bytes)) (k : FieldId) :
    option (EitherOrBoth (FieldId * bytes)) :=
  match (list_to_map l : Fields) !! k, (list_to_map r : Fields) !! k with
  | Some a, Some b => Some (Both (k, a) (k, b))
  | Some a, None => Some (Left (k, a))
  | None, Some b => Some (Right (k, b))
  | None, None => None
  end.

Definition join (l r : list (FieldId * bytes)) : list (EitherOrBoth (FieldId * bytes)) :=
  omap (join_at l r) (sorted_keys (l.*1 ++ r.*1)).

Lemma join_at_key l r k x : join_at l r k = Some x → joined_key x = k.
Proof.
  unfold join_at. destruct (_ !! k), (_ !! k); intros; simplify_eq; done.
Qed.

#[export] Instance sorted_join : MergeJoin.
Proof.
  refine {| merge_join_by := join |}; intros l r.
  - intros _ _. apply omap_sorted; [apply join_at_key|apply sorted_keys_sorted].
  - intros x Hl Hr. unfold join. rewrite list_elem_of_omap.
    assert (∀ k, k ∈ sorted_keys (l.*1 ++ r.*1) ↔ k ∈ l.*1 ∨ k ∈ r.*1) as Hks
      by (intros k; by rewrite sorted_keys_elem, elem_of_app).
    assert (∀ (t : list (FieldId * bytes)) k, (list_to_map t : Fields) !! k = None ↔ k ∉ t.*1)
      as Hnone by (intros; symmetry; apply not_elem_of_list_to_map).
    split.
    + intros (k & _ & Hx). unfold join_at in Hx.
      destruct ((list_to_map l : Fields) !! k) as [a|] eqn:Ha,
        ((list_to_map r : Fields) !! k) as [b|] eqn:Hb; simplify_eq; cbn.
      * apply content_elem in Ha, Hb; done.
      * apply content_elem in Ha; [|done]. by apply Hnone in Hb.
      * apply content_elem in Hb; [|done]. by apply Hnone in Ha.
    + intros Hx. exists (joined_key x). unfold join_at.
      destruct x as [[k a]|[k b]|[k a] [k' b]]; cbn in *.
      * destruct Hx as [Ha Hb]. split.
        { apply Hks. left. by apply (list_elem_of_fmap_2 fst) in Ha. }
        apply content_elem in Ha as ->; [|done]. by apply Hnone in Hb as ->.
      * destruct Hx as [Hb Ha]. split.
        { apply Hks. right. by apply (list_elem_of_fmap_2 fst) in Hb. }
        apply content_elem in Hb as ->; [|done]. by apply Hnone in Ha as ->.
      * destruct Hx as (Ha & Hb & <-). split.
        { apply Hks. left. by apply (list_elem_of_fmap_2 fst) in Ha. }
        apply content_elem in Ha as ->; [|done]. by apply content_elem in Hb as ->.
Defined.

(** The sorter that merges all the values of a key at once. *)
Fixpoint merge_keys (f : list Version → outcome MilliError Version)
    (ins : list (N * Version)) (ks : list N) : outcome MilliError (list (N * Version)) :=
  match ks with
  | [] => Ok []
  | k :: ks => v ← f (values_at k ins); out ← merge_keys f ins ks; Ok ((k, v) :: out)
  end.

Lemma values_at_elem {V} k (v : V) ins : v ∈ values_at k ins ↔ (k, v) ∈ ins.
Proof.
  unfold values_at. rewrite list_elem_of_fmap. split.
  - intros ([k' v'] & -> & [Heq Hin]%list_elem_of_filter). cbn in *. by subst.
  - intros Hin. exists (k, v). by rewrite list_elem_of_filter.
Qed.

#[export] Instance one_round : Sorter list_obkv.
Proof.
  refine {| into_stream f ins := merge_keys f ins (sorted_keys ins.*1) |}.
  intros f P ins Hf Hins.
  assert (∀ ks, (∀ k, k ∈ ks → k ∈ ins.*1) → ∃ out, merge_keys f ins ks = Ok out ∧
    out.*1 = ks ∧ ∀ k v, (k, v) ∈ out → P v ∧ rtc (merge_step f) (values_at k ins) [v]) as Hall.
  { induction ks as [|k ks IH]; intros Hks.
    - exists []. split_and!; [done|done|set_solver].
    - destruct IH as (out & Hout & Hkeys & Hval); [set_solver|].
      destruct (Hf (values_at k ins)) as (v & Hv & HPv).
      + specialize (Hks k ltac:(left)). apply list_elem_of_fmap in Hks as ([k' v] & -> & Hin).
        apply values_at_elem in Hin. intros Hnil. cbn in *. rewrite Hnil in Hin. set_solver.
      + apply Forall_forall. intros v Hin%values_at_elem. rewrite Forall_forall in Hins.
        by apply (Hins (k, v)).
      + exists ((k, v) :: out). cbn [merge_keys]. rewrite Hv. cbn [mbind outcome_bind]. rewrite Hout. split_and!.
        * done.
        * by rewrite fmap_cons, Hkeys.
        * intros k' v' [[= -> ->]|Hin]%elem_of_cons; [|by apply Hval].
          split; [done|]. apply rtc_once. exists [], (values_at k ins), [], v.
          rewrite app_nil_r. split_and!; try done.
          specialize (Hks k ltac:(left)). apply list_elem_of_fmap in Hks as ([k' v'] & -> & Hin).
          apply values_at_elem in Hin. intros Hnil. cbn in *. rewrite Hnil in Hin. set_solver. }
  destruct (Hall (sorted_keys ins.*1)) as (out & Hout & Hkeys & Hval).
  { intros k. by rewrite sorted_keys_elem. }
  exists out. split; [done|]. rewrite Hkeys. split; [apply sorted_keys_sorted|].
  split; [apply sorted_keys_elem|done].
Defined.

(** Two versions and a deletion, merged in two rounds. *)
Definition text_of (s : string) : bytes := Concrete.print (JString s).
Definition versions : list Version :=
  [(Addition, [(0%N, text_of "a")]); (Addition, [(1%N, text_of "b")]); (Deletion, [])].

Lemma merged_versions_witness :
  deletion_last versions ∧ Forall version_ok versions ∧
  rtc (merge_step merge_obkvs_and_operations) versions [(Deletion, [])] ∧
  overrides None (Deletion, []) = foldl overrides None versions.
Proof.
  assert (deletion_last versions) as Hlast.
  { exists (take 2 versions), (drop 2 versions). split_and!; [done|by repeat constructor|].
    right. by exists (Deletion, []). }
  assert (Forall version_ok versions) as Hok by (repeat constructor).
  assert (rtc (merge_step merge_obkvs_and_operations) versions [(Deletion, [])]) as Hrtc.
  { apply (rtc_l _ _ [(Addition, [(0%N, text_of "a"); (1%N, text_of "b")]); (Deletion, [])]).
    - exists [], (take 2 versions), [(Deletion, [])].
      eexists. split_and!; [done|done|vm_compute; reflexivity|done].
    - apply rtc_once. exists []. eexists _, [], _.
      split_and!; [symmetry; apply app_nil_r|done|vm_compute; reflexivity|done]. }
  split; [done|]. split; [done|]. split; [done|].
  destruct (merged_versions versions (Deletion, []) None Hlast Hok) as (Ho & _ & _).
  exact (proj1 (Ho Hrtc)).
Defined.

(** A deletion merged with the addition after it is forgotten: merging all the
    versions at once is not merging the last two first. *)
Example deletion_then_addition :
  let vs := [(Addition, [(0%N, text_of "a")]); (Deletion, []); (Addition, [(1%N, text_of "b")])] in
  merge_obkvs_and_operations vs = Ok (Addition, [(1%N, text_of "b")]) ∧
  ∃ v, merge_obkvs_and_operations (drop 1 vs) = Ok v ∧
    merge_obkvs_and_operations (take 1 vs ++ [v])
      = Ok (Addition, [(0%N, text_of "a"); (1%N, text_of "b")]).
Proof. cbv zeta. split; [vm_compute; reflexivity|]. eexists. split; vm_compute; reflexivity. Qed.
End Demo.
