(* ===== verification/Transform.v ===== *)
(** * The document transform (milli/src/update/index_documents/transform.rs)

    [Index] is the part of an index's databases that holds documents; it is
    also the state of [IndexDocuments.v].  [Transform] reads batches of
    documents and deletions in order: every document version goes under a fresh
    internal id into two sorters, the original one and the flattened one, and
    the documents it replaces are noted.  [output_from_sorter] gives what is
    written at the end.  Progress callbacks and the logging are left out; the
    number of documents is not bounded. *)
From S2P Require Import Prelude Json Flatten Obkv DocFlatten Merge.
From S2P Require FieldsIdsMap DocumentsIds Tasks.
Import FieldsIdsMap (FieldId, FieldsIdsMap).
Import DocumentsIds (DocumentId, ExternalDocumentsIds, AvailableDocumentsIds).
Import Tasks (IndexDocumentsMethod(..)).

(** ** The databases of an index that hold documents *)
Section index.
Context {O : Obkv}.

Record Index := mkIndex {
  documents : gmap DocumentId kv;
  documents_ids : gset DocumentId;
  soft_deleted_documents_ids : gset DocumentId;
  hard_external_documents_ids : gmap string N;
  soft_external_documents_ids : gmap string N;
  index_fields_ids_map : FieldsIdsMap;
  index_primary_key : option string;
  index_field_distribution : gmap string N
}.

Definition external_documents_ids (index : Index) : ExternalDocumentsIds :=
  DocumentsIds.mkExternal (hard_external_documents_ids index)
    (soft_external_documents_ids index) (soft_deleted_documents_ids index).

Definition put_external_documents_ids (e : ExternalDocumentsIds) (index : Index) : Index :=
  mkIndex (documents index) (documents_ids index) (soft_deleted_documents_ids index)
    (DocumentsIds.hard e) (DocumentsIds.soft e)
    (index_fields_ids_map index) (index_primary_key index) (index_field_distribution index).

Definition put_documents (d : gmap DocumentId kv) (index : Index) : Index :=
  mkIndex d (documents_ids index) (soft_deleted_documents_ids index)
    (hard_external_documents_ids index) (soft_external_documents_ids index)
    (index_fields_ids_map index) (index_primary_key index) (index_field_distribution index).

Definition put_documents_ids (ids : gset DocumentId) (index : Index) : Index :=
  mkIndex (documents index) ids (soft_deleted_documents_ids index)
    (hard_external_documents_ids index) (soft_external_documents_ids index)
    (index_fields_ids_map index) (index_primary_key index) (index_field_distribution index).

Definition put_soft_deleted_documents_ids (ids : gset DocumentId) (index : Index) : Index :=
  mkIndex (documents index) (documents_ids index) ids
    (hard_external_documents_ids index) (soft_external_documents_ids index)
    (index_fields_ids_map index) (index_primary_key index) (index_field_distribution index).

Definition put_fields_ids_map (m : FieldsIdsMap) (index : Index) : Index :=
  mkIndex (documents index) (documents_ids index) (soft_deleted_documents_ids index)
    (hard_external_documents_ids index) (soft_external_documents_ids index)
    m (index_primary_key index) (index_field_distribution index).

Definition put_primary_key (primary_key : string) (index : Index) : Index :=
  mkIndex (documents index) (documents_ids index) (soft_deleted_documents_ids index)
    (hard_external_documents_ids index) (soft_external_documents_ids index)
    (index_fields_ids_map index) (Some primary_key) (index_field_distribution index).

Definition put_field_distribution (d : gmap string N) (index : Index) : Index :=
  mkIndex (documents index) (documents_ids index) (soft_deleted_documents_ids index)
    (hard_external_documents_ids index) (soft_external_documents_ids index)
    (index_fields_ids_map index) (index_primary_key index) d.

(** ** Documents as [enrich_documents_batch] hands them over *)
Inductive EnrichedId :=
| Retrieved (value : string)
| Generated (value : string) (document_nth : N).

Definition is_generated (id : EnrichedId) : bool :=
  match id with Generated _ _ => true | Retrieved _ => false end.

Definition id_value (id : EnrichedId) : string :=
  match id with Retrieved value | Generated value _ => value end.

Record EnrichedDocument := mkEnriched { document : kv; document_id : EnrichedId }.

(** The reader: the fields of the batch by their ids in the batch, the primary
    key, and the documents in order. *)
Record EnrichedBatch := mkBatch {
  fields_index : gmap FieldId string;
  batch_primary_key : string;
  batch_documents : list EnrichedDocument
}.

(** ** The state of the transform *)
Record Transform := mkTransform {
  fields_ids_map : FieldsIdsMap;
  index_documents_method : IndexDocumentsMethod;
  available_documents_ids : AvailableDocumentsIds;
  original_sorter : list (DocumentId * Version);
  flattened_sorter : list (DocumentId * Version);
  replaced_documents_ids : gset DocumentId;
  new_documents_ids : gset DocumentId;
  new_external_documents_ids_builder : gmap string N;
  documents_count : N
}.

Definition set_fields_ids_map (m : FieldsIdsMap) (self : Transform) : Transform :=
  mkTransform m (index_documents_method self) (available_documents_ids self)
    (original_sorter self) (flattened_sorter self) (replaced_documents_ids self)
    (new_documents_ids self) (new_external_documents_ids_builder self) (documents_count self).

Definition set_available (a : AvailableDocumentsIds) (self : Transform) : Transform :=
  mkTransform (fields_ids_map self) (index_documents_method self) a
    (original_sorter self) (flattened_sorter self) (replaced_documents_ids self)
    (new_documents_ids self) (new_external_documents_ids_builder self) (documents_count self).

Definition set_sorters (original flattened : list (DocumentId * Version)) (self : Transform) :
    Transform :=
  mkTransform (fields_ids_map self) (index_documents_method self) (available_documents_ids self)
    original flattened (replaced_documents_ids self)
    (new_documents_ids self) (new_external_documents_ids_builder self) (documents_count self).

Definition set_replaced (ids : gset DocumentId) (self : Transform) : Transform :=
  mkTransform (fields_ids_map self) (index_documents_method self) (available_documents_ids self)
    (original_sorter self) (flattened_sorter self) ids
    (new_documents_ids self) (new_external_documents_ids_builder self) (documents_count self).

Definition set_new_documents_ids (ids : gset DocumentId) (self : Transform) : Transform :=
  mkTransform (fields_ids_map self) (index_documents_method self) (available_documents_ids self)
    (original_sorter self) (flattened_sorter self) (replaced_documents_ids self)
    ids (new_external_documents_ids_builder self) (documents_count self).

Definition set_builder (b : gmap string N) (self : Transform) : Transform :=
  mkTransform (fields_ids_map self) (index_documents_method self) (available_documents_ids self)
    (original_sorter self) (flattened_sorter self) (replaced_documents_ids self)
    (new_documents_ids self) b (documents_count self).

Definition set_documents_count (n : N) (self : Transform) : Transform :=
  mkTransform (fields_ids_map self) (index_documents_method self) (available_documents_ids self)
    (original_sorter self) (flattened_sorter self) (replaced_documents_ids self)
    (new_documents_ids self) (new_external_documents_ids_builder self) n.

(** [Transform::new]. *)
Definition new (index : Index) (method : IndexDocumentsMethod) : Transform :=
  {| fields_ids_map := index_fields_ids_map index;
     index_documents_method := method;
     available_documents_ids :=
       DocumentsIds.from_documents_ids (documents_ids index) (soft_deleted_documents_ids index);
     original_sorter := [];
     flattened_sorter := [];
     replaced_documents_ids := ∅;
     new_documents_ids := ∅;
     new_external_documents_ids_builder := ∅;
     documents_count := 0 |}.

Record TransformOutput := mkOutput {
  out_primary_key : string;
  out_fields_ids_map : FieldsIdsMap;
  out_field_distribution : gmap string N;
  new_external_documents_ids : gmap string N;
  out_new_documents_ids : gset DocumentId;
  out_replaced_documents_ids : gset DocumentId;
  out_documents_count : N;
  original_documents : list (DocumentId * kv);
  flattened_documents : list (DocumentId * kv)
}.
End index.

#[local] Existing Instance FieldsIdsMap.by_id_dec.

(** ** Reading documents *)
Section transform.
Context {O : Obkv} {Number : Type} {J : SerdeJson Number} {S : SortById} {M : MergeJoin}.
Context {G : Sorter O}.

(** A computation on one field of the transform. *)
Definition with_fields_ids_map {A} (m : ST FieldsIdsMap MilliError A) : ST Transform MilliError A :=
  λ self, let '(r, f) := m (fields_ids_map self) in (r, set_fields_ids_map f self).

(** The loop of [create_fields_mapping], over the fields sorted by id. *)
Fixpoint map_fields (fields : list (FieldId * string)) (mapping : gmap FieldId FieldId) :
    ST FieldsIdsMap MilliError (gmap FieldId FieldId) :=
  match fields with
  | [] => mret mapping
  | (field, name) :: fields =>
      index_field_map ← st_get;
      id ← match FieldsIdsMap.id name index_field_map with
           | Some id => mret id
           | None => insert_field name
           end;
      map_fields fields (<[field := id]> mapping)
  end.

Definition create_fields_mapping (batch_field_map : gmap FieldId string) :
    ST FieldsIdsMap MilliError (gmap FieldId FieldId) :=
  map_fields (merge_sort FieldsIdsMap.by_id (map_to_list batch_field_map)) ∅.

(** The fields of a document under the ids of the index. *)
Fixpoint remap_fields (mapping : gmap FieldId FieldId) (fields : list (FieldId * bytes)) :
    outcome MilliError (list (FieldId * bytes)) :=
  match fields with
  | [] => Ok []
  | (k, v) :: fields =>
      mapped_id ← ok_or (mapping !! k) (FieldIdMappingMissingEntry k);
      rest ← remap_fields mapping fields;
      Ok ((mapped_id, v) :: rest)
  end.

Definition build_obkv (mapping : gmap FieldId FieldId) (primary_key_id : FieldId)
    (d : EnrichedDocument) : outcome MilliError kv :=
  let generated :=
    if is_generated (document_id d)
    then [(primary_key_id, string_to_writer (id_value (document_id d)))] else [] in
  remapped ← remap_fields mapping (kv_iter (document d));
  writer ← kv_insert_all kv_new (sort_unstable_by_key (generated ++ remapped));
  Ok (kv_finish writer).

(** The internal id of the new version, and the document of the database that
    it replaces, if it is the first version of this update. *)
Definition assign_docid (external : ExternalDocumentsIds) (external_id : string) :
    ST Transform MilliError (DocumentId * option DocumentId) := λ self,
  match new_external_documents_ids_builder self !! external_id with
  | Some id => (Ok (DocumentsIds.as_u32 id, None), self)
  | None =>
      match map_err (λ _, IoError) (DocumentsIds.get external external_id) with
      | Ok found =>
          let '(original_docid, replaced) :=
            match found with
            | Some docid =>
                (if decide (docid ∈ replaced_documents_ids self) then None else Some docid,
                 {[docid]} ∪ replaced_documents_ids self)
            | None => (None, replaced_documents_ids self)
            end in
          match DocumentsIds.next (available_documents_ids self) with
          | (Some docid, available) =>
              (Ok (docid, original_docid),
               set_builder (<[external_id := docid]> (new_external_documents_ids_builder self))
                 (set_available available (set_replaced replaced self)))
          | (None, available) =>
              (Err DocumentLimitReached, set_available available (set_replaced replaced self))
          end
      | Err e => (Err e, self)
      | Panic p => (Panic p, self)
      end
  end.

(** A version goes to both sorters, flattened in the second one. *)
Definition push_version (docid : DocumentId) (obkv : kv) : ST Transform MilliError unit :=
  self ← st_get;
  _ ← st_put (set_sorters (original_sorter self ++ [(docid, (Addition, obkv))])
    (flattened_sorter self) self);
  flattened ← with_fields_ids_map (flatten_from_fields_ids_map obkv);
  st_modify (λ self, set_sorters (original_sorter self)
    (flattened_sorter self ++ [(docid, (Addition, default obkv flattened))]) self).

(** The version of the database comes before the first one of the update, unless
    they are equal: then nothing is to be done, which is the result [true]. *)
Definition push_original (index : Index) (external_id : string) (obkv : kv)
    (docid original_docid : DocumentId) : ST Transform MilliError bool :=
  base_obkv ← st_lift (ok_or (documents index !! original_docid)
    (DatabaseMissingEntry "documents"));
  if decide (base_obkv = obkv) then
    _ ← st_modify (λ self,
      set_builder (delete external_id (new_external_documents_ids_builder self))
        (set_replaced (replaced_documents_ids self ∖ {[original_docid]}) self));
    mret true
  else
    _ ← push_version docid base_obkv;
    mret false.

Definition read_document (index : Index) (external : ExternalDocumentsIds)
    (mapping : gmap FieldId FieldId) (primary_key_id : FieldId) (d : EnrichedDocument) :
    ST Transform MilliError unit :=
  let external_id := id_value (document_id d) in
  obkv ← st_lift (build_obkv mapping primary_key_id d);
  '(docid, original_docid) ← assign_docid external external_id;
  skip_insertion ← match original_docid with
    | Some original_docid => push_original index external_id obkv docid original_docid
    | None => mret false
    end;
  if skip_insertion : bool then mret tt
  else
    _ ← st_modify (λ self,
      set_new_documents_ids ({[docid]} ∪ new_documents_ids self) self);
    push_version docid obkv.

(** The loop over the documents; [should_abort] is asked before each one. *)
Fixpoint read_loop (index : Index) (external : ExternalDocumentsIds)
    (mapping : gmap FieldId FieldId) (primary_key_id : FieldId) (should_abort : N → bool)
    (docs : list EnrichedDocument) (count : N) : ST Transform MilliError N :=
  match docs with
  | [] => mret count
  | d :: docs =>
      if should_abort count then st_lift (Err AbortedIndexation)
      else
        _ ← read_document index external mapping primary_key_id d;
        read_loop index external mapping primary_key_id should_abort docs (count + 1)%N
  end.

(** [read_documents] writes the fields ids map and the primary key in the index. *)
Definition read_documents (reader : EnrichedBatch) (should_abort : N → bool)
    (index : Index) : ST Transform MilliError (N * Index) :=
  let external := external_documents_ids index in
  mapping ← with_fields_ids_map (create_fields_mapping (fields_index reader));
  primary_key_id ← with_fields_ids_map (insert_field (batch_primary_key reader));
  count ← read_loop index external mapping primary_key_id should_abort
    (batch_documents reader) 0;
  self ← st_get;
  _ ← st_put (set_documents_count (documents_count self + count)%N self);
  mret (count,
    put_primary_key (batch_primary_key reader)
      (put_fields_ids_map (fields_ids_map self) index)).

(** ** Removing documents *)

(** Whether a document was removed. *)
Definition remove_document (external : ExternalDocumentsIds) (to_remove : string) :
    ST Transform MilliError bool := λ self,
  match new_external_documents_ids_builder self !! to_remove with
  | Some id =>
      let doc_id := DocumentsIds.as_u32 id in
      (Ok true,
       set_builder (delete to_remove (new_external_documents_ids_builder self))
         (set_new_documents_ids (new_documents_ids self ∖ {[doc_id]})
           (set_sorters (original_sorter self ++ [(doc_id, (Deletion, kv_empty))])
             (flattened_sorter self ++ [(doc_id, (Deletion, kv_empty))]) self)))
  | None =>
      match map_err (λ _, IoError) (DocumentsIds.get external to_remove) with
      | Ok (Some docid) =>
          (Ok true, set_replaced ({[docid]} ∪ replaced_documents_ids self) self)
      | Ok None => (Ok false, self)
      | Err e => (Err e, self)
      | Panic p => (Panic p, self)
      end
  end.

Fixpoint remove_loop (external : ExternalDocumentsIds) (should_abort : N → bool)
    (to_remove : list string) (turn : N) (documents_deleted : N) : ST Transform MilliError N :=
  match to_remove with
  | [] => mret documents_deleted
  | id :: to_remove =>
      if should_abort turn then st_lift (Err AbortedIndexation)
      else
        removed ← remove_document external id;
        remove_loop external should_abort to_remove (turn + 1)%N
          (if removed : bool then documents_deleted + 1 else documents_deleted)%N
  end.

(** [sort_unstable] and [dedup] on strings, which compare by their bytes. *)
Definition string_le (s t : string) : Prop := String.leb s t = true.
#[export] Instance string_le_dec s t : Decision (string_le s t).
Proof. unfold string_le. apply _. Defined.

Fixpoint dedup (l : list string) : list string :=
  match l with
  | [] => []
  | x :: l' => match l' with
               | [] => [x]
               | y :: _ => if decide (x = y) then dedup l' else x :: dedup l'
               end
  end.

Definition remove_documents (to_remove : list string) (should_abort : N → bool)
    (index : Index) : ST Transform MilliError N :=
  remove_loop (external_documents_ids index) should_abort
    (dedup (merge_sort string_le to_remove)) 0 0.

(** ** The output *)

(** One field less, or one more, in the distribution; the counters are [u64]. *)
Definition forget_field (self : FieldsIdsMap) (key : FieldId) (dist : gmap string N) :
    outcome MilliError (gmap string N) :=
  name ← ok_or (FieldsIdsMap.name key self) (FieldIdMapMissingEntry key);
  field ← ok_or (dist !! name) (FieldIdMapMissingEntry key);
  let field := wrap64 (field + (u64_size - 1)) in
  if decide (field = 0%N) then Ok (delete name dist) else Ok (<[name := field]> dist).

Definition count_field (self : FieldsIdsMap) (key : FieldId) (dist : gmap string N) :
    outcome MilliError (gmap string N) :=
  name ← ok_or (FieldsIdsMap.name key self) (FieldIdMapMissingEntry key);
  Ok (<[name := wrap64 (default 0%N (dist !! name) + 1)]> dist).

Fixpoint over_fields
    (f : FieldId → gmap string N → outcome MilliError (gmap string N))
    (fields : list (FieldId * bytes)) (dist : gmap string N) :
    outcome MilliError (gmap string N) :=
  match fields with
  | [] => Ok dist
  | (key, _) :: fields => dist ← f key dist; over_fields f fields dist
  end.

Fixpoint remove_deleted_documents_from_field_distribution (index : Index) (self : Transform)
    (docids : list DocumentId) (dist : gmap string N) : outcome MilliError (gmap string N) :=
  match docids with
  | [] => Ok dist
  | docid :: docids =>
      obkv ← ok_or (documents index !! docid) (DatabaseMissingEntry "documents");
      dist ← over_fields (forget_field (fields_ids_map self)) (kv_iter obkv) dist;
      remove_deleted_documents_from_field_distribution index self docids dist
  end.

(** Drops the deletions and the operation bytes. *)
Definition additions (versions : list (DocumentId * Version)) : list (DocumentId * kv) :=
  omap (λ '(key, (op, obkv)),
    if decide (op = Deletion) then None else Some (key, obkv)) versions.

Fixpoint count_documents (self : FieldsIdsMap) (docs : list (DocumentId * kv))
    (dist : gmap string N) : outcome MilliError (gmap string N) :=
  match docs with
  | [] => Ok dist
  | (_, obkv) :: docs =>
      dist ← over_fields (count_field self) (kv_iter obkv) dist;
      count_documents self docs dist
  end.

(** [Transform::new] chooses the merge function of both sorters. *)
Definition merge_function (method : IndexDocumentsMethod) :
    list Version → outcome MilliError Version :=
  match method with
  | ReplaceDocuments => keep_latest_obkv
  | UpdateDocuments => merge_obkvs_and_operations
  end.

(** The ids of a bitmap in order. *)
Definition bitmap_iter (s : gset DocumentId) : list DocumentId := merge_sort N.le (elements s).

Definition output_from_sorter (self : Transform) (index : Index) :
    outcome MilliError TransformOutput :=
  let f := merge_function (index_documents_method self) in
  primary_key ← ok_or (index_primary_key index) (DatabaseMissingEntry "main");
  dist ← remove_deleted_documents_from_field_distribution index self
    (bitmap_iter (replaced_documents_ids self)) (index_field_distribution index);
  original ← into_stream f (original_sorter self);
  dist ← count_documents (fields_ids_map self) (additions original) dist;
  flattened ← into_stream f (flattened_sorter self);
  Ok {| out_primary_key := primary_key;
        out_fields_ids_map := fields_ids_map self;
        out_field_distribution := dist;
        new_external_documents_ids := new_external_documents_ids_builder self;
        out_new_documents_ids := new_documents_ids self;
        out_replaced_documents_ids := replaced_documents_ids self;
        out_documents_count := documents_count self;
        original_documents := additions original;
        flattened_documents := additions flattened |}.
End transform.
