(* ===== verification/TransformInv.v ===== *)
(** * The invariant of the document transform

    [tr_inv] relates a transform to the index it was opened on; [current] is
    the document that each external id has after what was read and removed so
    far.  Reading a document and removing one keep the invariant and change the
    document of one external id only ([read_document_spec],
    [remove_document_spec]). *)
From S2P Require Import Prelude Json Flatten Obkv DocFlatten Merge Transform.
From S2P Require FieldsIdsMap DocumentsIds Tasks.
Import FieldsIdsMap (FieldId, FieldsIdsMap).
Import DocumentsIds (DocumentId, ExternalDocumentsIds, AvailableDocumentsIds).
Import Tasks (IndexDocumentsMethod(..)).

(** ** Stored documents by their content *)
Section content.
Context {O : Obkv} {OL : ObkvLaws O}.
Context {Number : Type} {J : SerdeJson Number}.
Implicit Types (m : FieldsIdsMap) (c : Fields).

(** Known fields, whose bytes are JSON values. *)
Definition fields_ok m c : Prop :=
  map_Forall (λ i b, is_Some (FieldsIdsMap.name i m) ∧ ∃ v, json_ok v ∧ b = to_vec v) c.

Definition doc_ok m (o : kv) : Prop := kv_ok o ∧ fields_ok m (content o).

Lemma fields_ok_extends m m' c : extends m m' → fields_ok m c → fields_ok m' c.
Proof.
  intros Hext Hc i b Hi. destruct (Hc i b Hi) as [[nm Hnm] Hv]. split; [|done].
  exists nm. by apply Hext.
Qed.

Lemma doc_ok_extends m m' o : extends m m' → doc_ok m o → doc_ok m' o.
Proof. intros Hext [Ho Hc]. split; [done|]. by eapply fields_ok_extends. Qed.

Lemma fields_ok_union m c c' : fields_ok m c → fields_ok m c' → fields_ok m (c ∪ c').
Proof.
  intros Hc Hc' i b [Hi|[_ Hi]]%lookup_union_Some_raw; [exact (Hc i b Hi)|exact (Hc' i b Hi)].
Qed.

Lemma fields_ok_empty m : fields_ok m ∅.
Proof. apply map_Forall_empty. Qed.

Lemma doc_ok_stored m o : doc_ok m o → ∃ t, stored m o t.
Proof.
  intros [Hinc Hc]. unfold kv_ok in Hinc.
  assert (∃ t, kv_iter o = encode t ∧ values_ok t) as (t & Ht & Hok).
  { assert (∀ e, e ∈ kv_iter o → ∃ v, json_ok v ∧ e.2 = to_vec v) as Hall.
    { intros [k b] Hin. apply content_elem in Hin; [|done]. by apply (Hc k b Hin). }
    clear Hc Hinc. induction (kv_iter o) as [|[k b] l IH]; [exists []; split; [done|constructor]|].
    destruct IH as (t & -> & Hok); [intros e He; apply Hall; by right|].
    destruct (Hall (k, b)) as (v & Hv & Hb); [left|]. cbn in Hb. subst b.
    exists ((k, v) :: t). split; [done|]. by constructor. }
  exists t. split; [done| | |done].
  - rewrite Ht in Hinc. unfold increasing in *. by rewrite encode_keys in Hinc.
  - apply Forall_forall. intros [k v] Hin. cbn [fst].
    assert ((k, to_vec v) ∈ kv_iter o) as Hin'.
    { rewrite Ht. apply list_elem_of_fmap. by exists (k, v). }
    apply content_elem in Hin'; [|done]. by apply (Hc k _ Hin').
Qed.

Lemma stored_doc_ok m o t : stored m o t → doc_ok m o.
Proof.
  intros [Hiter Hinc Hk Hok]. assert (kv_ok o) as Ho.
  { unfold kv_ok, increasing. by rewrite Hiter, encode_keys. }
  split; [done|]. intros i b Hi. apply content_elem in Hi; [|done]. rewrite Hiter in Hi.
  apply list_elem_of_fmap in Hi as ([k v] & [= -> ->] & Hin).
  unfold names_known, values_ok in *. rewrite Forall_forall in Hk, Hok. split.
  - by apply (Hk (k, v)).
  - exists v. split; [|done]. by apply (Hok (k, v)).
Qed.

Lemma doc_ok_empty m : doc_ok m kv_empty.
Proof. split; [apply kv_empty_ok|]. rewrite content_empty. apply fields_ok_empty. Qed.

(** Flattening a well-formed document, as the transform does. *)
Lemma flatten_doc_ok `{S : SortById} `{JL : !SerdeJsonLaws J} m o :
  FieldsIdsMap.well_formed m → doc_ok m o →
  match flatten_from_fields_ids_map o m with
  | (Ok flattened, m') =>
      FieldsIdsMap.well_formed m' ∧ extends m m' ∧ doc_ok m' (default o flattened)
  | (Err e, m') => e = AttributeLimitReached
  | (Panic _, _) => False
  end.
Proof.
  intros Hwf Ho. destruct (doc_ok_stored m o Ho) as [t Ht].
  pose proof (flatten_from_fields_ids_map_outcome m o t Hwf Ht) as Hout.
  destruct (flatten_from_fields_ids_map o m) as [[[o'|]|e|p] m']; [..|done].
  - destruct Hout as (? & ? & t' & Hst & _). split_and!; [done|done|]. by eapply stored_doc_ok.
  - destruct Hout as [-> _]. split_and!; [done|apply extends_refl|done].
  - by destruct Hout.
Qed.
End content.

(** ** Building the document that is read *)
Section build.
Context {O : Obkv} {OL : ObkvLaws O}.
Context {Number : Type} {J : SerdeJson Number} {JL : SerdeJsonLaws J} {S : SortById}.
Implicit Types (m : FieldsIdsMap) (reader : EnrichedBatch) (d : EnrichedDocument).

(** Fields, and a stored document, under the field names. *)
Definition fields_named m (c : Fields) : gmap string bytes :=
  omap (λ i, c !! i) (FieldsIdsMap.names_ids m).

Definition doc_fields m (o : kv) : gmap string bytes := fields_named m (content o).

(** The document that the user sent, with its id when this one was generated. *)
Definition source_doc reader d : gmap string bytes :=
  (if is_generated (document_id d)
   then {[batch_primary_key reader := string_to_writer (id_value (document_id d))]} else ∅) ∪
  list_to_map ((λ e, (default "" (fields_index reader !! e.1), e.2)) <$> kv_iter (document d)).

(** What [enrich_documents_batch] hands over: the names of the batch are
    distinct, the documents use them, and an id is generated for documents
    without a primary key only. *)
Record document_ok reader d : Prop := {
  do_kv : kv_ok (document d);
  do_fields k b : (k, b) ∈ kv_iter (document d) →
    is_Some (fields_index reader !! k) ∧ ∃ v : Json Number, json_ok v ∧ b = to_vec v;
  do_generated : is_generated (document_id d) = true → ∀ k b,
    (k, b) ∈ kv_iter (document d) → fields_index reader !! k ≠ Some (batch_primary_key reader)
}.

Record batch_ok reader : Prop := {
  ba_names k k' nm :
    fields_index reader !! k = Some nm → fields_index reader !! k' = Some nm → k = k';
  ba_documents : Forall (document_ok reader) (batch_documents reader)
}.

Lemma fields_named_Some m c nm b :
  fields_named m c !! nm = Some b ↔ ∃ i, FieldsIdsMap.id nm m = Some i ∧ c !! i = Some b.
Proof.
  unfold fields_named, FieldsIdsMap.id. rewrite lookup_omap.
  destruct (FieldsIdsMap.names_ids m !! nm) as [i|]; cbn; naive_solver.
Qed.

Lemma doc_fields_Some m o nm b :
  doc_fields m o !! nm = Some b ↔
  ∃ i, FieldsIdsMap.id nm m = Some i ∧ content o !! i = Some b.
Proof. apply fields_named_Some. Qed.

Lemma fields_named_extends m m' c :
  FieldsIdsMap.well_formed m → FieldsIdsMap.well_formed m' → extends m m' → fields_ok m c →
  fields_named m' c = fields_named m c.
Proof.
  intros Hwf Hwf' Hext Hc. apply map_eq. intros nm. apply option_eq. intros b.
  rewrite !fields_named_Some. split.
  - intros (i & Hid & Hb). destruct (Hc i b Hb) as [[nm' Hnm'] _].
    apply (FieldsIdsMap.wf_bijection _ Hwf') in Hid. pose proof (Hext _ _ Hnm') as Hnm.
    unfold FieldsIdsMap.name in *. assert (nm = nm') as -> by congruence.
    exists i. split; [|done]. by apply (FieldsIdsMap.wf_bijection _ Hwf).
  - intros (i & Hid & Hb). exists i. split; [|done].
    apply (FieldsIdsMap.wf_bijection _ Hwf') , Hext.
    by apply (FieldsIdsMap.wf_bijection _ Hwf) in Hid.
Qed.

Lemma fields_named_union m c c' :
  fields_named m (c ∪ c') = fields_named m c ∪ fields_named m c'.
Proof.
  apply map_eq. intros nm. unfold fields_named. rewrite lookup_union, !lookup_omap.
  destruct (FieldsIdsMap.names_ids m !! nm) as [i|]; [|done]. cbn. apply lookup_union.
Qed.

Lemma fields_named_empty m : fields_named m ∅ = ∅.
Proof.
  apply map_eq. intros nm. unfold fields_named. rewrite lookup_omap, lookup_empty.
  by destruct (FieldsIdsMap.names_ids m !! nm).
Qed.

(** The mapping sends each field of the batch to the field of that name. *)
Definition mapping_ok m (mapping : gmap FieldId FieldId) (fields : gmap FieldId string) : Prop :=
  ∀ k nm, fields !! k = Some nm → ∃ i, mapping !! k = Some i ∧ FieldsIdsMap.name i m = Some nm.

Lemma map_fields_spec m fields mapping :
  FieldsIdsMap.well_formed m →
  match map_fields fields mapping m with
  | (Ok mapping', m') =>
      FieldsIdsMap.well_formed m' ∧ extends m m' ∧
      (∀ k, k ∉ fields.*1 → mapping' !! k = mapping !! k) ∧
      (NoDup fields.*1 → ∀ k nm, (k, nm) ∈ fields →
        ∃ i, mapping' !! k = Some i ∧ FieldsIdsMap.name i m' = Some nm)
  | (Err e, m') => e = AttributeLimitReached
  | (Panic _, _) => False
  end.
Proof.
  revert m mapping. induction fields as [|[k nm] fields IH]; intros m mapping Hwf.
  - cbn. split_and!; [done|apply extends_refl|done|set_solver].
  - cbn [map_fields]. unfold mbind, st_bind, st_get.
    set (found := match FieldsIdsMap.id nm m with Some id => mret id | None => insert_field nm end).
    assert (match found m with
      | (Ok i, m1) => FieldsIdsMap.well_formed m1 ∧ extends m m1 ∧ FieldsIdsMap.name i m1 = Some nm
      | (Err e, _) => e = AttributeLimitReached | (Panic _, _) => False end) as Hfound.
    { unfold found. destruct (FieldsIdsMap.id nm m) as [i|] eqn:Hid.
      - cbn. split_and!; [done|apply extends_refl|].
        by apply (FieldsIdsMap.wf_bijection _ Hwf) in Hid.
      - pose proof (insert_field_spec m nm Hwf) as Hins.
        destruct (insert_field nm m) as [[]]; [done|by destruct Hins|done]. }
    destruct (found m) as [[i|e|p] m1]; [|done|done]. destruct Hfound as (Hwf1 & Hext1 & Hi).
    specialize (IH m1 (<[k := i]> mapping) Hwf1).
    destruct (map_fields fields _ m1) as [[mapping'|e|p] m']; [|done|done].
    destruct IH as (Hwf' & Hext & Hsame & Hnew).
    split_and!; [done|by eapply extends_trans|..].
    + intros k'. rewrite fmap_cons, not_elem_of_cons. intros [Hne Hk']. cbn in Hne.
      by rewrite Hsame, lookup_insert_ne.
    + rewrite fmap_cons. intros [Hk Hnd]%NoDup_cons k' nm' [[= -> ->]|Hin]%elem_of_cons.
      * exists i. cbn in Hk. rewrite Hsame, lookup_insert_eq by done. split; [done|by apply Hext].
      * by apply Hnew.
Qed.

Lemma create_fields_mapping_spec m (fields : gmap FieldId string) :
  FieldsIdsMap.well_formed m →
  match create_fields_mapping fields m with
  | (Ok mapping, m') =>
      FieldsIdsMap.well_formed m' ∧ extends m m' ∧ mapping_ok m' mapping fields
  | (Err e, m') => e = AttributeLimitReached
  | (Panic _, _) => False
  end.
Proof.
  intros Hwf. unfold create_fields_mapping.
  set (l := merge_sort FieldsIdsMap.by_id (map_to_list fields)).
  pose proof (map_fields_spec m l ∅ Hwf) as Hspec.
  destruct (map_fields l ∅ m) as [[mapping|e|p] m']; [|done|done].
  destruct Hspec as (Hwf' & Hext & _ & Hall). split_and!; [done|done|].
  intros k nm Hk. apply Hall.
  - unfold l. rewrite merge_sort_Permutation. apply NoDup_fst_map_to_list.
  - unfold l. rewrite merge_sort_Permutation. by apply elem_of_map_to_list.
Qed.

Lemma mapping_ok_extends m m' mapping fields :
  extends m m' → mapping_ok m mapping fields → mapping_ok m' mapping fields.
Proof.
  intros Hext Hmap k nm Hk. destruct (Hmap k nm Hk) as (i & Hi & Hnm). exists i.
  split; [done|by apply Hext].
Qed.

Lemma remap_fields_Ok m mapping fields (l : list (FieldId * bytes)) :
  mapping_ok m mapping fields → (∀ k b, (k, b) ∈ l → is_Some (fields !! k)) →
  ∃ r, remap_fields mapping l = Ok r ∧
    r = (λ e, (default 0%N (mapping !! e.1), e.2)) <$> l.
Proof.
  intros Hmap Hl. induction l as [|[k b] l IH]; [by exists []|].
  destruct (Hl k b) as [nm Hnm]; [left|]. destruct (Hmap k nm Hnm) as (i & Hi & _).
  destruct IH as (r & Hr & ->). { intros k' b' Hin. apply (Hl k' b'). by right. }
  eexists. split; [|done]. cbn [remap_fields]. rewrite Hi. cbn [ok_or mbind outcome_bind].
  rewrite Hr. cbn [mbind outcome_bind]. rewrite fmap_cons. cbn [fst snd]. by rewrite Hi.
Qed.

Lemma sorted_unique (l : list (FieldId * bytes)) :
  NoDup l.*1 → increasing (sort_unstable_by_key l) ∧
  (list_to_map (sort_unstable_by_key l) : Fields) = list_to_map l.
Proof.
  intros Hnd. pose proof (sort_unstable_by_key_perm l) as Hp.
  assert (NoDup (sort_unstable_by_key l).*1) as Hnd' by by rewrite Hp.
  split; [|by apply list_to_map_proper].
  pose proof (sort_unstable_by_key_sorted l) as Hs. unfold increasing.
  revert Hs Hnd'. generalize (sort_unstable_by_key l).*1. clear. intros ks Hs.
  induction Hs as [|k ks Hks IH Hk]; intros Hnd; [constructor|].
  apply NoDup_cons in Hnd as [Hnot Hnd]. constructor; [auto|].
  apply Forall_forall. intros k' Hk'. rewrite Forall_forall in Hk. specialize (Hk k' Hk').
  assert (k ≠ k') by congruence. lia.
Qed.

(** The fields that are written, before they are sorted. *)
Definition written (mapping : gmap FieldId FieldId) (primary_key_id : FieldId) d :
    list (FieldId * bytes) :=
  (if is_generated (document_id d)
   then [(primary_key_id, string_to_writer (id_value (document_id d)))] else []) ++
  ((λ e, (default 0%N (mapping !! e.1), e.2)) <$> kv_iter (document d)).

Lemma written_elem m mapping reader primary_key_id d i b :
  mapping_ok m mapping (fields_index reader) → document_ok reader d →
  (i, b) ∈ written mapping primary_key_id d ↔
  (is_generated (document_id d) = true ∧ i = primary_key_id ∧
    b = string_to_writer (id_value (document_id d))) ∨
  ∃ k nm, (k, b) ∈ kv_iter (document d) ∧ fields_index reader !! k = Some nm ∧
    mapping !! k = Some i ∧ FieldsIdsMap.name i m = Some nm.
Proof.
  intros Hmap Hd. unfold written. rewrite elem_of_app. f_equiv.
  - destruct (is_generated (document_id d)); [|set_solver].
    rewrite list_elem_of_singleton. naive_solver.
  - rewrite list_elem_of_fmap. split.
    + intros ([k b'] & [= -> ->] & Hin). destruct (do_fields _ _ Hd k b' Hin) as [[nm Hnm] _].
      destruct (Hmap k nm Hnm) as (i' & Hi' & Hnm'). exists k, nm. by rewrite Hi'.
    + intros (k & nm & Hin & _ & Hi & _). exists (k, b). cbn. by rewrite Hi.
Qed.

Lemma written_NoDup m mapping reader primary_key_id d :
  (∀ k k' nm, fields_index reader !! k = Some nm → fields_index reader !! k' = Some nm → k = k') →
  mapping_ok m mapping (fields_index reader) → document_ok reader d →
  FieldsIdsMap.name primary_key_id m = Some (batch_primary_key reader) →
  NoDup (written mapping primary_key_id d).*1.
Proof.
  intros Hinj Hmap Hd Hpk. unfold written. rewrite fmap_app. apply NoDup_app. split_and!.
  - destruct (is_generated (document_id d)); repeat constructor. set_solver.
  - intros i Hi Hi'. destruct (is_generated (document_id d)) eqn:Hg; [|set_solver].
    apply list_elem_of_singleton in Hi as ->. rewrite <- list_fmap_compose in Hi'.
    apply list_elem_of_fmap in Hi' as ([k b] & Hk & Hin). cbn in Hk.
    destruct (do_fields _ _ Hd k b Hin) as [[nm Hnm] _].
    destruct (Hmap k nm Hnm) as (i' & Hi' & Hnm'). rewrite Hi' in Hk. cbn in Hk. subst i'.
    apply (do_generated _ _ Hd Hg k b Hin). rewrite Hnm. congruence.
  - rewrite <- list_fmap_compose. pose proof (do_kv _ _ Hd) as Hinc.
    apply increasing_keys_NoDup in Hinc.
    assert (∀ k b, (k, b) ∈ kv_iter (document d) → ∃ nm i, fields_index reader !! k = Some nm ∧
      mapping !! k = Some i ∧ FieldsIdsMap.name i m = Some nm) as Hall.
    { intros k b Hin. destruct (do_fields _ _ Hd k b Hin) as [[nm Hnm] _].
      destruct (Hmap k nm Hnm) as (i & Hi & Hnm'). by exists nm, i. }
    induction (kv_iter (document d)) as [|[k b] l IH]; [constructor|].
    rewrite fmap_cons in *. apply NoDup_cons in Hinc as [Hnot Hinc]. apply NoDup_cons. split.
    + intros Hin. apply list_elem_of_fmap in Hin as ([k' b'] & Heq & Hin). cbn in Heq.
      destruct (Hall k b) as (nm & i & Hnm & Hi & Hnm'); [left|].
      destruct (Hall k' b') as (nm2 & i2 & Hnm2 & Hi2 & Hnm2'); [by right|].
      rewrite Hi, Hi2 in Heq. cbn in Heq. subst i2. assert (nm2 = nm) as -> by congruence.
      rewrite (Hinj _ _ _ Hnm Hnm2) in Hnot. apply Hnot.
      by apply (list_elem_of_fmap_2 fst) in Hin.
    + apply IH; [done|]. intros k' b' Hin. apply (Hall k' b'). by right.
Qed.

Lemma source_doc_Some m mapping reader primary_key_id d nm b :
  FieldsIdsMap.well_formed m →
  (∀ k k' nm, fields_index reader !! k = Some nm → fields_index reader !! k' = Some nm → k = k') →
  mapping_ok m mapping (fields_index reader) → document_ok reader d →
  FieldsIdsMap.name primary_key_id m = Some (batch_primary_key reader) →
  source_doc reader d !! nm = Some b ↔
  ∃ i, FieldsIdsMap.name i m = Some nm ∧ (i, b) ∈ written mapping primary_key_id d.
Proof.
  intros Hwf Hinj Hmap Hd Hpk.
  assert (∀ i i' nm, FieldsIdsMap.name i m = Some nm → FieldsIdsMap.name i' m = Some nm → i = i')
    as Hid.
  { intros i i' nm' H1%(FieldsIdsMap.wf_bijection _ Hwf) H2%(FieldsIdsMap.wf_bijection _ Hwf).
    congruence. }
  assert (NoDup ((λ e, (default "" (fields_index reader !! e.1), e.2))
    <$> kv_iter (document d)).*1) as Hnd.
  { pose proof (increasing_keys_NoDup _ (do_kv _ _ Hd)) as Hnd.
    pose proof (do_fields _ _ Hd) as Hf.
    induction (kv_iter (document d)) as [|[k b'] l IH]; [constructor|].
    rewrite !fmap_cons in *. apply NoDup_cons in Hnd as [Hnot Hnd]. apply NoDup_cons. split.
    - intros Hin. rewrite <- list_fmap_compose in Hin.
      apply list_elem_of_fmap in Hin as ([k2 b2] & Heq & Hin). cbn in Heq.
      destruct (Hf k b') as [[n1 Hn1] _]; [left|]. destruct (Hf k2 b2) as [[n2 Hn2] _]; [by right|].
      rewrite Hn1, Hn2 in Heq. cbn in Heq. subst n2. rewrite (Hinj _ _ _ Hn1 Hn2) in Hnot.
      apply Hnot. by apply (list_elem_of_fmap_2 fst) in Hin.
    - apply IH; [done|]. intros. apply Hf. by right. }
  unfold source_doc. rewrite lookup_union_Some_raw. setoid_rewrite written_elem; [|done..].
  assert (∀ nm b, (list_to_map ((λ e, (default "" (fields_index reader !! e.1), e.2)) <$>
      kv_iter (document d)) : gmap string bytes) !! nm = Some b ↔
    ∃ k, (k, b) ∈ kv_iter (document d) ∧ fields_index reader !! k = Some nm) as Hlist.
  { intros nm' b'. rewrite <- elem_of_list_to_map, list_elem_of_fmap by done. split.
    - intros ([k b2] & [= -> ->] & Hin). destruct (do_fields _ _ Hd k b2 Hin) as [[n Hn] _].
      exists k. by rewrite Hn.
    - intros (k & Hin & Hk). exists (k, b'). cbn. by rewrite Hk. }
  rewrite Hlist. split.
  - intros [Hgen|(_ & k & Hin & Hk)].
    + destruct (is_generated (document_id d)) eqn:Hg; [|by rewrite lookup_empty in Hgen].
      apply lookup_singleton_Some in Hgen as [<- <-]. exists primary_key_id. split; [done|].
      by left.
    + destruct (Hmap k nm Hk) as (i & Hi & Hnm). exists i. split; [done|]. right. by exists k, nm.
  - intros (i & Hi & [(Hg & -> & ->)|(k & nm' & Hin & Hk & Hmk & Hnm')]).
    + left. rewrite Hg, lookup_singleton_Some. split; [congruence|done].
    + assert (nm' = nm) as -> by congruence. right. split; [|by exists k].
      destruct (is_generated (document_id d)) eqn:Hg; [|apply lookup_empty].
      apply lookup_singleton_None. intros Heq. subst nm.
      by apply (do_generated _ _ Hd Hg k b Hin).
Qed.

Lemma build_obkv_Ok m mapping reader primary_key_id d :
  FieldsIdsMap.well_formed m → batch_ok reader →
  mapping_ok m mapping (fields_index reader) → document_ok reader d →
  FieldsIdsMap.name primary_key_id m = Some (batch_primary_key reader) →
  ∃ o, build_obkv mapping primary_key_id d = Ok o ∧ doc_ok m o ∧
    doc_fields m o = source_doc reader d.
Proof.
  intros Hwf [Hinj _] Hmap Hd Hpk. unfold build_obkv.
  destruct (remap_fields_Ok m mapping (fields_index reader) (kv_iter (document d)) Hmap)
    as (r & -> & ->). { intros k b Hin. by apply (do_fields _ _ Hd k b). }
  cbn [mbind outcome_bind]. fold (written mapping primary_key_id d).
  pose proof (written_NoDup m mapping reader primary_key_id d Hinj Hmap Hd Hpk) as Hnd.
  destruct (sorted_unique _ Hnd) as [Hinc Hmapeq].
  destruct (kv_write_Ok _ Hinc) as (w & -> & Hiter). cbn [mbind outcome_bind].
  exists (kv_finish w). split; [done|].
  assert (∀ i b, content (kv_finish w) !! i = Some b ↔ (i, b) ∈ written mapping primary_key_id d)
    as Hcontent.
  { intros i b. unfold content. rewrite Hiter, Hmapeq. symmetry. by apply elem_of_list_to_map. }
  split.
  - split; [unfold kv_ok; by rewrite Hiter|]. intros i b Hi. apply Hcontent in Hi.
    apply (written_elem m mapping reader) in Hi; [|done..].
    destruct Hi as [(_ & -> & ->)|(k & nm & Hin & _ & _ & Hnm)].
    + split; [by eexists|]. exists (JString (id_value (document_id d))).
      split; [done|apply string_to_writer_text].
    + split; [by eexists|]. by apply (do_fields _ _ Hd k).
  - apply map_eq. intros nm. apply option_eq. intros b.
    rewrite doc_fields_Some, source_doc_Some by done. setoid_rewrite Hcontent.
    unfold FieldsIdsMap.id, FieldsIdsMap.name. by setoid_rewrite (FieldsIdsMap.wf_bijection _ Hwf).
Qed.
End build.

(** ** The invariant *)
Section invariant.
Context {O : Obkv} {OL : ObkvLaws O}.
Context {Number : Type} {J : SerdeJson Number} {JL : SerdeJsonLaws J}.
Context {S : SortById} {M : MergeJoin}.

(** The internal id of a user's id in the databases. *)
Definition docid_of (index : Index) (e : string) : option DocumentId :=
  DocumentsIds.lookup (external_documents_ids index) e.

Record index_ok (index : Index) : Prop := {
  ix_wf : FieldsIdsMap.well_formed (index_fields_ids_map index);
  ix_external : DocumentsIds.external_ok (external_documents_ids index);
  ix_known e d : docid_of index e = Some d → d ∈ documents_ids index;
  ix_named d : d ∈ documents_ids index → ∃ e, docid_of index e = Some d;
  ix_inj e e' d : docid_of index e = Some d → docid_of index e' = Some d → e = e';
  ix_disjoint : documents_ids index ## soft_deleted_documents_ids index;
  ix_u32 d : d ∈ documents_ids index ∪ soft_deleted_documents_ids index → (d ≤ u32_max)%N;
  ix_documents d : d ∈ documents_ids index →
    ∃ o, documents index !! d = Some o ∧ doc_ok (index_fields_ids_map index) o
}.

(** What a version makes of the document before it. *)
Definition combine (method : IndexDocumentsMethod) : option Fields → Version → option Fields :=
  match method with ReplaceDocuments => keeps | UpdateDocuments => overrides end.

Definition versions (self : Transform) (n : DocumentId) : list Version :=
  values_at n (original_sorter self).

(** The document of a user's id so far. *)
Definition current (index : Index) (self : Transform) (e : string) : option Fields :=
  match new_external_documents_ids_builder self !! e with
  | Some n => foldl (combine (index_documents_method self)) None (versions self n)
  | None =>
      d ← docid_of index e;
      if decide (d ∈ replaced_documents_ids self) then None
      else content <$> documents index !! d
  end.

Record tr_inv (index : Index) (self : Transform) : Prop := {
  ti_wf : FieldsIdsMap.well_formed (fields_ids_map self);
  ti_extends : extends (index_fields_ids_map index) (fields_ids_map self);
  ti_available : DocumentsIds.available_ok (available_documents_ids self);
  ti_remaining d : DocumentsIds.remaining (available_documents_ids self) d →
    (d ≤ u32_max)%N ∧ (d ∉ documents_ids index ∪ soft_deleted_documents_ids index) ∧
    (d ∉ (original_sorter self).*1) ∧
    ∀ e, new_external_documents_ids_builder self !! e ≠ Some d;
  ti_builder e n : new_external_documents_ids_builder self !! e = Some n →
    (n ≤ u32_max)%N ∧ (n ∉ documents_ids index ∪ soft_deleted_documents_ids index) ∧
    versions self n ≠ [] ∧ Forall (λ v, v.1 = Addition) (versions self n) ∧
    n ∈ new_documents_ids self;
  ti_inj e e' n : new_external_documents_ids_builder self !! e = Some n →
    new_external_documents_ids_builder self !! e' = Some n → e = e';
  ti_replaced e n d : new_external_documents_ids_builder self !! e = Some n →
    docid_of index e = Some d → d ∈ replaced_documents_ids self;
  ti_replaced_ids d : d ∈ replaced_documents_ids self → ∃ e, docid_of index e = Some d;
  ti_new n : n ∈ new_documents_ids self →
    ∃ e, new_external_documents_ids_builder self !! e = Some n;
  ti_unused n : (∀ e, new_external_documents_ids_builder self !! e ≠ Some n) →
    versions self n = [] ∨ ends_deleted (versions self n);
  ti_deletion_last n : deletion_last (versions self n);
  ti_versions : Forall (λ x, doc_ok (fields_ids_map self) x.2.2) (original_sorter self);
  ti_flattened : Forall (λ x, doc_ok (fields_ids_map self) x.2.2) (flattened_sorter self);
  ti_same : (λ x, (x.1, x.2.1)) <$> flattened_sorter self
    = (λ x, (x.1, x.2.1)) <$> original_sorter self
}.

Lemma versions_app {V} n (l l' : list (DocumentId * V)) :
  values_at n (l ++ l') = values_at n l ++ values_at n l'.
Proof. unfold values_at. by rewrite filter_app, fmap_app. Qed.

Lemma values_at_none {V} n (l : list (DocumentId * V)) : n ∉ l.*1 → values_at n l = [].
Proof.
  unfold values_at. induction l as [|x l IH]; intros Hn; [done|]. rewrite fmap_cons in Hn.
  rewrite filter_cons, decide_False by set_solver. apply IH. set_solver.
Qed.

(** The versions that a list of documents brings under one id. *)
Definition adding (n : DocumentId) (os : list kv) : list (DocumentId * Version) :=
  (λ o, (n, (Addition, o))) <$> os.

Lemma values_at_adding n n' os :
  values_at n' (adding n os) = if decide (n' = n) then (λ o, (Addition, o)) <$> os else [].
Proof.
  unfold values_at, adding. induction os as [|o os IH]; [by destruct (decide _)|].
  rewrite fmap_cons, filter_cons. cbn [fst]. destruct (decide (n = n')) as [->|Hne].
  - rewrite decide_True in * by done. rewrite !fmap_cons, IH. done.
  - rewrite decide_False in * by done. done.
Qed.

(** The state after new versions of a document. *)
Definition after_add (self : Transform) (e : string) (n : DocumentId) (os fls : list kv)
    (m : FieldsIdsMap) (available : AvailableDocumentsIds) (replaced : gset DocumentId) :
    Transform :=
  mkTransform m (index_documents_method self) available
    (original_sorter self ++ adding n os) (flattened_sorter self ++ adding n fls) replaced
    ({[n]} ∪ new_documents_ids self) (<[e := n]> (new_external_documents_ids_builder self))
    (documents_count self).

Section add.
Context (index : Index) (Hindex : index_ok index) (self : Transform) (Hinv : tr_inv index self).
Context (e : string) (n : DocumentId) (os fls : list kv) (m : FieldsIdsMap)
  (available : AvailableDocumentsIds) (replaced : gset DocumentId).
Hypothesis Hos : os ≠ [].
Hypothesis Hlen : length fls = length os.
Hypothesis Hok : Forall (doc_ok m) os.
Hypothesis Hfls : Forall (doc_ok m) fls.
Hypothesis Hwf : FieldsIdsMap.well_formed m.
Hypothesis Hext : extends (fields_ids_map self) m.
Hypothesis Hav : DocumentsIds.available_ok available.
Hypothesis Hrem : ∀ d, DocumentsIds.remaining available d →
  DocumentsIds.remaining (available_documents_ids self) d ∧ d ≠ n.
Hypothesis Hn : new_external_documents_ids_builder self !! e = Some n ∨
  new_external_documents_ids_builder self !! e = None ∧
  DocumentsIds.remaining (available_documents_ids self) n.
Hypothesis Hrep : replaced_documents_ids self ⊆ replaced.
Hypothesis Hrep_e : ∀ d, docid_of index e = Some d → d ∈ replaced.
Hypothesis Hrep_only : ∀ d, d ∈ replaced →
  d ∈ replaced_documents_ids self ∨ docid_of index e = Some d.

Let self' := after_add self e n os fls m available replaced.

Lemma versions_after_add n' :
  versions self' n' = versions self n' ++ if decide (n' = n) then (λ o, (Addition, o)) <$> os else [].
Proof.
  unfold versions. change (original_sorter self') with (original_sorter self ++ adding n os).
  by rewrite versions_app, values_at_adding.
Qed.

(** The id is used by this document only. *)
Lemma id_is_own e' :
  new_external_documents_ids_builder self !! e' = Some n → e' = e.
Proof.
  intros He'. destruct Hn as [He|[_ Hr]].
  - by apply (ti_inj _ _ Hinv e' e n).
  - destruct (ti_remaining _ _ Hinv n Hr) as (_ & _ & _ & Hno). by destruct (Hno e').
Qed.

Lemma own_versions :
  Forall (λ v, v.1 = Addition) (versions self n) ∧ (n ≤ u32_max)%N ∧
  (n ∉ documents_ids index ∪ soft_deleted_documents_ids index) ∧
  (new_external_documents_ids_builder self !! e = None → versions self n = []).
Proof.
  destruct Hn as [He|[Hnone Hr]].
  - destruct (ti_builder _ _ Hinv e n He) as (? & ? & _ & ? & _). split_and!; try done. congruence.
  - destruct (ti_remaining _ _ Hinv n Hr) as (? & ? & Hno & _).
    assert (versions self n = []) as Hv by by apply values_at_none. by rewrite Hv.
Qed.

Lemma add_additions :
  Forall (λ v, v.1 = Addition) (versions self' n).
Proof.
  rewrite versions_after_add, decide_True by done. apply Forall_app.
  split; [apply own_versions|]. apply Forall_fmap, Forall_true. done.
Qed.

Lemma after_add_builder e' n' :
  new_external_documents_ids_builder self' !! e' = Some n' →
  (e' = e ∧ n' = n) ∨
  (e' ≠ e ∧ n' ≠ n ∧ new_external_documents_ids_builder self !! e' = Some n').
Proof.
  unfold self', after_add. cbn. intros [[<- <-]|[Hne He']]%lookup_insert_Some; [by left|right].
  split_and!; [done| |done]. intros ->. apply Hne. symmetry. by apply id_is_own.
Qed.

Lemma after_add_inv : tr_inv index self'.
Proof.
  pose proof own_versions as (Hown & Hu32 & Hfresh & _).
  assert (∀ n', n' ≠ n → versions self' n' = versions self n') as Hsame.
  { intros n' Hne. by rewrite versions_after_add, decide_False, app_nil_r. }
  split; try done.
  - eapply extends_trans; [apply (ti_extends _ _ Hinv)|done].
  - intros d Hd. destruct (Hrem d Hd) as [Hd' Hne].
    destruct (ti_remaining _ _ Hinv d Hd') as (? & ? & Hsort & Hb). split_and!; [done|done|..].
    + unfold self', after_add. cbn. rewrite fmap_app, elem_of_app. intros [?|Hin]; [done|].
      unfold adding in Hin. rewrite <- list_fmap_compose in Hin.
      apply list_elem_of_fmap in Hin as (? & -> & _). done.
    + intros e' [[_ ->]|(_ & _ & He')]%after_add_builder; [done|]. by apply (Hb e').
  - intros e' n' [[-> ->]|(_ & Hne & He')]%after_add_builder.
    + split_and!; [done|done| |apply add_additions|cbn; set_solver].
      rewrite versions_after_add, decide_True by done. intros [_ Hnil]%app_nil.
      by apply fmap_nil_inv in Hnil.
    + rewrite (Hsame n' Hne). destruct (ti_builder _ _ Hinv e' n' He') as (? & ? & ? & ? & ?).
      split_and!; try done. cbn. set_solver.
  - intros e1 e2 n' [[-> ->]|(_ & Hne & He1)]%after_add_builder
      [[-> Hn']|(_ & Hne2 & He2)]%after_add_builder; try done.
    by apply (ti_inj _ _ Hinv e1 e2 n').
  - intros e' n' d [[-> ->]|(_ & _ & He')]%after_add_builder Hd; [by apply Hrep_e|].
    apply Hrep. by apply (ti_replaced _ _ Hinv e' n').
  - intros d [Hd|Hd]%Hrep_only; [by apply (ti_replaced_ids _ _ Hinv)|by exists e].
  - intros n'. unfold self', after_add. cbn. intros [->%elem_of_singleton|Hin]%elem_of_union.
    + exists e. apply lookup_insert_eq.
    + destruct (ti_new _ _ Hinv n' Hin) as [e' He'].
      destruct (decide (e' = e)) as [->|Hne]; [|exists e'; by rewrite lookup_insert_ne].
      exists e. rewrite lookup_insert_eq. destruct Hn as [He|[He _]]; congruence.
  - intros n' Hno. destruct (decide (n' = n)) as [->|Hne].
    + destruct (Hno e). apply lookup_insert_eq.
    + rewrite (Hsame n' Hne). apply (ti_unused _ _ Hinv). intros e' He'. apply (Hno e').
      unfold self', after_add. cbn. rewrite lookup_insert_ne; [done|]. intros ->.
      destruct Hn as [He|[He _]]; congruence.
  - intros n'. destruct (decide (n' = n)) as [->|Hne].
    + exists (versions self' n), []. rewrite app_nil_r. split_and!; [done|apply add_additions|by left].
    + rewrite (Hsame n' Hne). apply (ti_deletion_last _ _ Hinv).
  - apply Forall_app. split.
    + eapply Forall_impl; [apply (ti_versions _ _ Hinv)|]. cbn. intros x.
      by apply doc_ok_extends.
    + unfold adding. apply Forall_fmap. eapply Forall_impl; [exact Hok|]. done.
  - apply Forall_app. split.
    + eapply Forall_impl; [apply (ti_flattened _ _ Hinv)|]. cbn. intros x.
      by apply doc_ok_extends.
    + unfold adding. apply Forall_fmap. eapply Forall_impl; [exact Hfls|]. done.
  - unfold self', after_add. cbn. rewrite !fmap_app, (ti_same _ _ Hinv). f_equal.
    unfold adding. rewrite <- !list_fmap_compose.
    clear - Hlen. revert fls Hlen. induction os as [|o l IH]; intros [|fl fls'] Hlen; try done.
    rewrite !fmap_cons. f_equal. apply IH. by injection Hlen.
Qed.

Lemma after_add_current e' :
  current index self' e' =
    if decide (e' = e)
    then foldl (combine (index_documents_method self))
           (foldl (combine (index_documents_method self)) None (versions self n))
           ((λ o, (Addition, o)) <$> os)
    else current index self e'.
Proof.
  unfold current. destruct (new_external_documents_ids_builder self' !! e') as [n'|] eqn:He'.
  - apply after_add_builder in He' as [[-> ->]|(Hne & Hne' & He')].
    + rewrite decide_True by done. rewrite versions_after_add, decide_True by done.
      by rewrite foldl_app.
    + rewrite decide_False, He', versions_after_add, decide_False, app_nil_r by done. done.
  - unfold self', after_add in He'. cbn in He'. apply lookup_insert_None in He' as [He' Hne].
    rewrite decide_False, He' by done. destruct (docid_of index e') as [d|] eqn:Hd; [|done].
    cbn. destruct (decide (d ∈ replaced)) as [Hin|Hin].
    + apply Hrep_only in Hin as [Hin|Hin]; [by rewrite decide_True|].
      destruct Hne. by apply (ix_inj _ Hindex e e' d).
    + rewrite decide_False by set_solver. done.
Qed.
End add.

(** ** Reading a document *)

(** What pushing a version leaves: both sorters grow, the fields ids map may. *)
Lemma push_version_spec n o self :
  FieldsIdsMap.well_formed (fields_ids_map self) → doc_ok (fields_ids_map self) o →
  match push_version n o self with
  | (Ok _, self') => ∃ m fl,
      self' = set_sorters (original_sorter self ++ [(n, (Addition, o))])
        (flattened_sorter self ++ [(n, (Addition, fl))]) (set_fields_ids_map m self) ∧
      FieldsIdsMap.well_formed m ∧ extends (fields_ids_map self) m ∧ doc_ok m fl
  | (Err e, _) => e = AttributeLimitReached
  | (Panic _, _) => False
  end.
Proof.
  intros Hwf Ho. unfold push_version, mbind, st_bind, st_get, st_put, st_modify.
  unfold with_fields_ids_map. pose proof (flatten_doc_ok (fields_ids_map self) o Hwf Ho) as Hfl.
  cbn [fields_ids_map set_sorters].
  destruct (flatten_from_fields_ids_map o (fields_ids_map self)) as [[flattened|e|p] m];
    [|done|done].
  destruct Hfl as (Hwf' & Hext & Hok). by exists m, (default o flattened).
Qed.

(** What assigning an id may do. *)
Lemma assign_docid_spec index self e :
  index_ok index → tr_inv index self →
  match assign_docid (external_documents_ids index) e self with
  | (Ok (n, original), self') =>
      (new_external_documents_ids_builder self !! e = Some n ∧ original = None ∧ self' = self) ∨
      (new_external_documents_ids_builder self !! e = None ∧
       DocumentsIds.remaining (available_documents_ids self) n ∧
       ∃ available replaced,
         self' = set_builder (<[e := n]> (new_external_documents_ids_builder self))
           (set_available available (set_replaced replaced self)) ∧
         DocumentsIds.available_ok available ∧
         (∀ d, DocumentsIds.remaining available d →
            DocumentsIds.remaining (available_documents_ids self) d ∧ d ≠ n) ∧
         match docid_of index e with
         | None => original = None ∧ replaced = replaced_documents_ids self
         | Some d =>
             replaced = {[d]} ∪ replaced_documents_ids self ∧
             original = if decide (d ∈ replaced_documents_ids self) then None else Some d
         end)
  | (Err err, _) => err = DocumentLimitReached
  | (Panic _, _) => False
  end.
Proof.
  intros Hindex Hinv. unfold assign_docid.
  destruct (new_external_documents_ids_builder self !! e) as [n|] eqn:He.
  { left. destruct (ti_builder _ _ Hinv e n He) as (Hu32 & _).
    by rewrite DocumentsIds.as_u32_small. }
  rewrite DocumentsIds.get_lookup by apply (ix_external _ Hindex). cbn [map_err].
  fold (docid_of index e). pose proof (DocumentsIds.next_spec _ (ti_available _ _ Hinv)) as Hnext.
  destruct (docid_of index e) as [d|] eqn:Hd; cbn iota beta;
    destruct (DocumentsIds.next (available_documents_ids self)) as [[n|] available]; try done;
    destruct Hnext as (Hr & Hav & Hrem); right; (split; [done|]); (split; [done|]);
    eexists _, _; (split; [done|]); (split; [done|]); (split; [apply Hrem|done]).
Qed.

(** What is left when the document of the database is read again: one internal
    id is lost. *)
Lemma set_available_inv index self available n :
  tr_inv index self → DocumentsIds.available_ok available →
  (∀ d, DocumentsIds.remaining available d →
     DocumentsIds.remaining (available_documents_ids self) d ∧ d ≠ n) →
  tr_inv index (set_available available self).
Proof.
  intros Hinv Hav Hrem. destruct Hinv. split; try done.
  intros d Hd. apply ti_remaining0. by apply Hrem.
Qed.

(** The state in which the versions of the document are pushed. *)
Definition pushed (self : Transform) (e : string) (n : DocumentId) (os fls : list kv)
    (m : FieldsIdsMap) (available : AvailableDocumentsIds) (replaced : gset DocumentId) :
    Transform :=
  mkTransform m (index_documents_method self) available
    (original_sorter self ++ adding n os) (flattened_sorter self ++ adding n fls) replaced
    (new_documents_ids self) (<[e := n]> (new_external_documents_ids_builder self))
    (documents_count self).

Lemma pushed_same self e n :
  new_external_documents_ids_builder self !! e = Some n →
  self = pushed self e n [] [] (fields_ids_map self) (available_documents_ids self)
    (replaced_documents_ids self).
Proof.
  intros He. unfold pushed, adding. cbn. rewrite !app_nil_r, insert_id by done. by destruct self.
Qed.

Lemma pushed_none self e n available replaced :
  set_builder (<[e := n]> (new_external_documents_ids_builder self))
    (set_available available (set_replaced replaced self)) =
  pushed self e n [] [] (fields_ids_map self) available replaced.
Proof. unfold pushed, adding. cbn. by rewrite !app_nil_r. Qed.

Lemma pushed_one self e n o fl m m0 available replaced :
  set_sorters (original_sorter (pushed self e n [] [] m0 available replaced) ++ [(n, (Addition, o))])
    (flattened_sorter (pushed self e n [] [] m0 available replaced) ++ [(n, (Addition, fl))])
    (set_fields_ids_map m (pushed self e n [] [] m0 available replaced)) =
  pushed self e n [o] [fl] m available replaced.
Proof. unfold pushed, adding. cbn. by rewrite !app_nil_r. Qed.

Section read.
Context (index : Index) (Hindex : index_ok index) (self : Transform) (Hinv : tr_inv index self).
Context (e : string) (n : DocumentId) (available : AvailableDocumentsIds)
  (replaced : gset DocumentId).
Hypothesis Hav : DocumentsIds.available_ok available.
Hypothesis Hrem : ∀ d, DocumentsIds.remaining available d →
  DocumentsIds.remaining (available_documents_ids self) d ∧ d ≠ n.
Hypothesis Hn : new_external_documents_ids_builder self !! e = Some n ∨
  new_external_documents_ids_builder self !! e = None ∧
  DocumentsIds.remaining (available_documents_ids self) n.
Hypothesis Hrep : replaced_documents_ids self ⊆ replaced.
Hypothesis Hrep_e : ∀ d, docid_of index e = Some d → d ∈ replaced.
Hypothesis Hrep_only : ∀ d, d ∈ replaced →
  d ∈ replaced_documents_ids self ∨ docid_of index e = Some d.

(** The last steps of reading a document. *)
Definition insert_new (n : DocumentId) (o : kv) : ST Transform MilliError unit :=
  _ ← st_modify (λ self, set_new_documents_ids ({[n]} ∪ new_documents_ids self) self);
  push_version n o.

Lemma insert_new_spec os fls m o :
  length fls = length os → Forall (doc_ok m) os → Forall (doc_ok m) fls →
  FieldsIdsMap.well_formed m → extends (fields_ids_map self) m → doc_ok (fields_ids_map self) o →
  match insert_new n o (pushed self e n os fls m available replaced) with
  | (Ok _, self') =>
      tr_inv index self' ∧ extends (fields_ids_map self) (fields_ids_map self') ∧
      index_documents_method self' = index_documents_method self ∧
      documents_count self' = documents_count self ∧
      ∀ e', current index self' e' =
        if decide (e' = e)
        then foldl (combine (index_documents_method self))
               (foldl (combine (index_documents_method self)) None (versions self n))
               ((λ o, (Addition, o)) <$> (os ++ [o]))
        else current index self e'
  | (Err e, _) => e = AttributeLimitReached
  | (Panic _, _) => False
  end.
Proof.
  intros Hlen Hos Hfls Hwf Hext Ho. unfold insert_new, mbind, st_bind, st_modify.
  pose proof (push_version_spec n o
    (set_new_documents_ids ({[n]} ∪ new_documents_ids (pushed self e n os fls m available replaced))
      (pushed self e n os fls m available replaced)) Hwf (doc_ok_extends _ _ _ Hext Ho)) as Hpush.
  destruct (push_version n o _) as [[[]|err|p] self']; [|done|done].
  destruct Hpush as (m' & fl & -> & Hwf' & Hext' & Hfl). cbn in Hext'.
  assert (set_sorters
    (original_sorter (set_new_documents_ids ({[n]} ∪ new_documents_ids
        (pushed self e n os fls m available replaced)) (pushed self e n os fls m available replaced))
      ++ [(n, (Addition, o))])
    (flattened_sorter (set_new_documents_ids ({[n]} ∪ new_documents_ids
        (pushed self e n os fls m available replaced)) (pushed self e n os fls m available replaced))
      ++ [(n, (Addition, fl))])
    (set_fields_ids_map m' (set_new_documents_ids ({[n]} ∪ new_documents_ids
        (pushed self e n os fls m available replaced)) (pushed self e n os fls m available replaced)))
    = after_add self e n (os ++ [o]) (fls ++ [fl]) m' available replaced) as ->.
  { unfold pushed, after_add, adding. cbn. by rewrite !fmap_app, !app_assoc. }
  assert (extends (fields_ids_map self) m') as Hext2 by by eapply extends_trans.
  assert (∀ l, Forall (doc_ok m) l → Forall (doc_ok m') l) as Hmono.
  { intros l Hl. eapply Forall_impl; [exact Hl|]. intros x. by apply doc_ok_extends. }
  assert (os ++ [o] ≠ []) by by destruct os.
  assert (length (fls ++ [fl]) = length (os ++ [o])) by (rewrite !length_app; cbn; lia).
  assert (Forall (doc_ok m') (os ++ [o])).
  { apply Forall_app. split; [by apply Hmono|]. apply Forall_singleton. by eapply doc_ok_extends. }
  assert (Forall (doc_ok m') (fls ++ [fl])).
  { apply Forall_app. split; [by apply Hmono|]. by apply Forall_singleton. }
  split_and!; [by apply after_add_inv|done|done|done|].
  intros e'. by apply after_add_current.
Qed.
End read.

Lemma combine_first method o : combine method None (Addition, o) = Some (content o).
Proof. destruct method; [done|]. unfold combine, overrides. cbn. by rewrite map_union_empty. Qed.

Lemma combine_same method o :
  combine method (Some (content o)) (Addition, o) = Some (content o).
Proof. destruct method; [done|]. unfold combine, overrides. cbn. by rewrite map_union_idemp. Qed.

(** What reading one document does. *)
Definition reads index self o e (res : outcome MilliError unit * Transform) : Prop :=
  match res with
  | (Ok _, self') =>
      tr_inv index self' ∧ extends (fields_ids_map self) (fields_ids_map self') ∧
      index_documents_method self' = index_documents_method self ∧
      documents_count self' = documents_count self ∧
      ∀ e', current index self' e' =
        if decide (e' = e)
        then combine (index_documents_method self) (current index self e) (Addition, o)
        else current index self e'
  | (Err e, _) => e = DocumentLimitReached ∨ e = AttributeLimitReached
  | (Panic _, _) => False
  end.

(** The steps after the document was built. *)
Definition read_built index e o : ST Transform MilliError unit :=
  '(docid, original_docid) ← assign_docid (external_documents_ids index) e;
  skip_insertion ← match original_docid with
    | Some original_docid => push_original index e o docid original_docid
    | None => mret false
    end;
  if skip_insertion : bool then mret tt else insert_new docid o.

Lemma read_built_known index self e n o :
  index_ok index → tr_inv index self → doc_ok (fields_ids_map self) o →
  new_external_documents_ids_builder self !! e = Some n →
  reads index self o e (insert_new n o self).
Proof.
  intros Hindex Hinv Ho He. rewrite (pushed_same self e n He) at 2.
  pose proof (insert_new_spec index Hindex self Hinv e n (available_documents_ids self)
    (replaced_documents_ids self)) as Hspec.
  assert (∀ d, DocumentsIds.remaining (available_documents_ids self) d →
    DocumentsIds.remaining (available_documents_ids self) d ∧ d ≠ n) as Hrem.
  { intros d Hd. split; [done|]. intros ->.
    destruct (ti_remaining _ _ Hinv n Hd) as (_ & _ & _ & Hno). by apply (Hno e). }
  specialize (Hspec (ti_available _ _ Hinv) Hrem (or_introl He) ltac:(done)
    (λ d, ti_replaced _ _ Hinv e n d He) (λ d Hd, or_introl Hd) [] [] (fields_ids_map self) o
    eq_refl ltac:(by constructor) ltac:(by constructor) (ti_wf _ _ Hinv) (extends_refl _) Ho).
  unfold reads. destruct (insert_new n o _) as [[[]|err|p] self']; [|by right|done].
  destruct Hspec as (? & ? & ? & ? & Hcur). split_and!; try done. intros e'. rewrite Hcur.
  destruct (decide (e' = e)); [|done]. unfold current. by rewrite He.
Qed.

(** A document that is not in the update yet and replaces none of the
    database. *)
Lemma read_built_fresh index self e n o available replaced :
  index_ok index → tr_inv index self → doc_ok (fields_ids_map self) o →
  new_external_documents_ids_builder self !! e = None →
  DocumentsIds.remaining (available_documents_ids self) n →
  DocumentsIds.available_ok available →
  (∀ d, DocumentsIds.remaining available d →
     DocumentsIds.remaining (available_documents_ids self) d ∧ d ≠ n) →
  (∀ d, docid_of index e = Some d → d ∈ replaced_documents_ids self) →
  replaced = replaced_documents_ids self →
  reads index self o e
    (insert_new n o (pushed self e n [] [] (fields_ids_map self) available replaced)).
Proof.
  intros Hindex Hinv Ho He Hr Hav Hrem Hd ->.
  pose proof (insert_new_spec index Hindex self Hinv e n available (replaced_documents_ids self)
    Hav Hrem (or_intror (conj He Hr)) ltac:(done) Hd (λ d Hd, or_introl Hd) [] []
    (fields_ids_map self) o eq_refl ltac:(by constructor) ltac:(by constructor)
    (ti_wf _ _ Hinv) (extends_refl _) Ho) as Hspec.
  unfold reads. destruct (insert_new n o _) as [[[]|err|p] self']; [|by right|done].
  destruct Hspec as (? & ? & ? & ? & Hcur). split_and!; try done. intros e'. rewrite Hcur.
  destruct (decide (e' = e)) as [->|]; [|done].
  destruct (ti_remaining _ _ Hinv n Hr) as (_ & _ & Hno & _).
  assert (versions self n = []) as -> by by apply values_at_none.
  unfold current. rewrite He. destruct (docid_of index e) as [d|] eqn:Hde; [|done].
  cbn [mbind option_bind]. by rewrite decide_True by by apply Hd.
Qed.

(** A document of the database that is not replaced yet. *)
Lemma read_built_original index self e n o d available :
  index_ok index → tr_inv index self → doc_ok (fields_ids_map self) o →
  new_external_documents_ids_builder self !! e = None →
  DocumentsIds.remaining (available_documents_ids self) n →
  DocumentsIds.available_ok available →
  (∀ d, DocumentsIds.remaining available d →
     DocumentsIds.remaining (available_documents_ids self) d ∧ d ≠ n) →
  docid_of index e = Some d → d ∉ replaced_documents_ids self →
  reads index self o e
    ((skip_insertion ← push_original index e o n d;
      if skip_insertion : bool then mret tt else insert_new n o)
     (pushed self e n [] [] (fields_ids_map self) available
       ({[d]} ∪ replaced_documents_ids self))).
Proof.
  intros Hindex Hinv Ho He Hr Hav Hrem Hd Hnot.
  destruct (ix_documents _ Hindex d (ix_known _ Hindex e d Hd)) as (base & Hbase & Hbok).
  assert (current index self e = Some (content base)) as Hcurrent.
  { unfold current. rewrite He, Hd. cbn [mbind option_bind].
    by rewrite decide_False, Hbase. }
  unfold push_original, mbind, st_bind, st_lift, st_modify. rewrite Hbase. cbn [ok_or].
  destruct (decide (base = o)) as [->|Hne].
  - assert (set_builder (delete e (<[e:=n]> (new_external_documents_ids_builder self)))
      (set_replaced (({[d]} ∪ replaced_documents_ids self) ∖ {[d]})
        (pushed self e n [] [] (fields_ids_map self) available
          ({[d]} ∪ replaced_documents_ids self))) = set_available available self) as Heq.
    { unfold pushed, adding. cbn. rewrite !app_nil_r, delete_insert_id by done.
      assert (({[d]} ∪ replaced_documents_ids self) ∖ {[d]} = replaced_documents_ids self) as ->
        by set_solver. by destruct self. }
    cbn. change (replaced_documents_ids (pushed _ _ _ _ _ _ _ ?r)) with r.
    cbn in Heq. rewrite Heq. split_and!; [by eapply set_available_inv|apply extends_refl|done|done|].
    intros e'. change (current index (set_available available self) e') with (current index self e').
    destruct (decide (e' = e)) as [->|]; [|done]. by rewrite Hcurrent, combine_same.
  - assert (doc_ok (fields_ids_map self) base) as Hbok'
      by (eapply doc_ok_extends; [apply (ti_extends _ _ Hinv)|done]).
    pose proof (push_version_spec n base (pushed self e n [] [] (fields_ids_map self) available
      ({[d]} ∪ replaced_documents_ids self)) (ti_wf _ _ Hinv) Hbok') as Hpush.
    destruct (push_version n base _) as [[[]|err|p] self2]; [|by right|done].
    destruct Hpush as (m & fl & -> & Hwf & Hext & Hfl). cbn in Hext. rewrite pushed_one.
    cbn [mret st_ret]. cbn iota beta.
    pose proof (insert_new_spec index Hindex self Hinv e n available
      ({[d]} ∪ replaced_documents_ids self) Hav Hrem (or_intror (conj He Hr))) as Hspec.
    specialize (Hspec ltac:(set_solver)). specialize (Hspec ltac:(set_solver)).
    specialize (Hspec ltac:(set_solver) [base] [fl] m o eq_refl).
    specialize (Hspec ltac:(apply Forall_singleton; by eapply doc_ok_extends)).
    specialize (Hspec ltac:(by apply Forall_singleton) Hwf Hext Ho).
    unfold reads. destruct (insert_new n o _) as [[[]|err|p] self']; [|by right|done].
    destruct Hspec as (? & ? & ? & ? & Hcur). split_and!; try done. intros e'. rewrite Hcur.
    destruct (decide (e' = e)) as [->|]; [|done].
    destruct (ti_remaining _ _ Hinv n Hr) as (_ & _ & Hno & _).
    assert (versions self n = []) as -> by by apply values_at_none.
    rewrite Hcurrent. cbn [app fmap list_fmap foldl]. by rewrite combine_first.
Qed.

Lemma read_built_spec index self e o :
  index_ok index → tr_inv index self → doc_ok (fields_ids_map self) o →
  reads index self o e (read_built index e o self).
Proof.
  intros Hindex Hinv Ho. unfold read_built, mbind at 1, st_bind at 1.
  pose proof (assign_docid_spec index self e Hindex Hinv) as Hassign.
  destruct (assign_docid (external_documents_ids index) e self) as [[[n original]|err|p] self1];
    [|by left|done].
  destruct Hassign as [(He & -> & ->)|(He & Hr & available & replaced & -> & Hav & Hrem & Hcase)].
  - cbn. by apply read_built_known.
  - rewrite pushed_none. destruct (docid_of index e) as [d|] eqn:Hd.
    + destruct Hcase as [-> ->]. destruct (decide (d ∈ replaced_documents_ids self)) as [Hin|Hin].
      * cbn. apply read_built_fresh; try done; [naive_solver|set_solver].
      * by apply read_built_original.
    + destruct Hcase as [-> ->]. cbn. apply read_built_fresh; try done. naive_solver.
Qed.

(** Reading a document makes it the current one of its id, and changes no
    other. *)
Lemma read_document_spec index self mapping primary_key_id reader d :
  index_ok index → tr_inv index self → batch_ok reader → document_ok reader d →
  mapping_ok (fields_ids_map self) mapping (fields_index reader) →
  FieldsIdsMap.name primary_key_id (fields_ids_map self) = Some (batch_primary_key reader) →
  ∃ o, doc_ok (fields_ids_map self) o ∧
    doc_fields (fields_ids_map self) o = source_doc reader d ∧
    reads index self o (id_value (document_id d))
      (read_document index (external_documents_ids index) mapping primary_key_id d self).
Proof.
  intros Hindex Hinv Hbatch Hd Hmap Hpk. pose proof (ti_wf _ _ Hinv) as Hwf.
  destruct (build_obkv_Ok (fields_ids_map self) mapping reader primary_key_id d Hwf Hbatch
    Hmap Hd Hpk) as (o & Hbuild & Hok & Hfields).
  exists o. split_and!; [done|done|].
  unfold read_document. unfold mbind at 1, st_bind at 1, st_lift at 1. rewrite Hbuild.
  by apply read_built_spec.
Qed.

(** ** Removing a document *)
Lemma remove_known_inv index self e n :
  tr_inv index self → new_external_documents_ids_builder self !! e = Some n →
  tr_inv index
    (set_builder (delete e (new_external_documents_ids_builder self))
      (set_new_documents_ids (new_documents_ids self ∖ {[n]})
        (set_sorters (original_sorter self ++ [(n, (Deletion, kv_empty))])
          (flattened_sorter self ++ [(n, (Deletion, kv_empty))]) self))).
Proof.
  intros Hinv He. set (self' := set_builder _ _).
  assert (∀ n', versions self' n' =
    versions self n' ++ if decide (n' = n) then [(Deletion, kv_empty)] else []) as Hversions.
  { intros n'. unfold versions. change (original_sorter self')
      with (original_sorter self ++ [(n, (Deletion, kv_empty))]). rewrite versions_app. f_equal.
    unfold values_at. rewrite filter_cons. cbn [fst].
    destruct (decide (n = n')) as [->|]; [by rewrite decide_True|by rewrite decide_False]. }
  assert (∀ e' n', new_external_documents_ids_builder self' !! e' = Some n' →
    n' ≠ n ∧ new_external_documents_ids_builder self !! e' = Some n') as Hbuilder.
  { intros e' n' Hin. unfold self' in Hin. cbn in Hin.
    apply lookup_delete_Some in Hin as [Hne He']. split; [|done]. intros ->. apply Hne.
    by apply (ti_inj _ _ Hinv e e' n). }
  destruct (ti_builder _ _ Hinv e n He) as (_ & _ & _ & Hadds & _).
  split; try apply Hinv.
  - intros d Hd. destruct (ti_remaining _ _ Hinv d Hd) as (? & ? & Hs & Hb).
    split_and!; [done|done| |].
    + change (original_sorter self') with (original_sorter self ++ [(n, (Deletion, kv_empty))]).
      rewrite fmap_app, elem_of_app. intros [?|Hin%list_elem_of_singleton]; [done|].
      cbn in Hin. subst d. by apply (Hb e).
    + intros e' [_ He']%Hbuilder. by apply (Hb e').
  - intros e' n' [Hne He']%Hbuilder. destruct (ti_builder _ _ Hinv e' n' He') as (?&?&?&?&?).
    rewrite Hversions, decide_False, app_nil_r by done. split_and!; try done.
    cbn. set_solver.
  - intros e1 e2 n' [_ He1]%Hbuilder [_ He2]%Hbuilder. by apply (ti_inj _ _ Hinv e1 e2 n').
  - intros e' n' d [_ He']%Hbuilder. by apply (ti_replaced _ _ Hinv e' n').
  - cbn. intros n' [Hn' Hne]%elem_of_difference. destruct (ti_new _ _ Hinv n' Hn') as [e' He'].
    exists e'. rewrite lookup_delete_ne; [done|]. intros <-. set_solver.
  - intros n' Hno. rewrite Hversions. destruct (decide (n' = n)) as [->|Hne].
    + right. by exists (versions self n), (Deletion, kv_empty).
    + rewrite app_nil_r. apply (ti_unused _ _ Hinv). intros e' He'. apply (Hno e').
      cbn. rewrite lookup_delete_ne; [done|]. intros <-. congruence.
  - intros n'. rewrite Hversions. destruct (decide (n' = n)) as [->|Hne].
    + by apply deletion_last_snoc.
    + rewrite app_nil_r. apply (ti_deletion_last _ _ Hinv).
  - cbn. apply Forall_app. split; [apply (ti_versions _ _ Hinv)|].
    apply Forall_singleton. apply doc_ok_empty.
  - cbn. apply Forall_app. split; [apply (ti_flattened _ _ Hinv)|].
    apply Forall_singleton. apply doc_ok_empty.
  - cbn. by rewrite !fmap_app, (ti_same _ _ Hinv).
Qed.

Lemma set_replaced_inv index self d :
  tr_inv index self → (∃ e, docid_of index e = Some d) →
  tr_inv index (set_replaced ({[d]} ∪ replaced_documents_ids self) self).
Proof.
  intros Hinv Hd. destruct Hinv. split; try done; cbn.
  - intros e n d' He Hd'. apply elem_of_union_r. by apply (ti_replaced0 e n).
  - intros d' [->%elem_of_singleton|Hin]%elem_of_union; [done|by apply ti_replaced_ids0].
Qed.

Lemma foldl_combine_Some method vs doc :
  vs ≠ [] → Forall (λ v : Version, v.1 = Addition) vs →
  is_Some (foldl (combine method) doc vs).
Proof.
  intros Hne Hvs. destruct vs as [|v vs _] using rev_ind; [done|].
  apply Forall_app in Hvs as [_ [Hv _]%Forall_cons]. rewrite foldl_app. cbn.
  destruct v as [[] o]; [|done]. by destruct method; eexists.
Qed.

Lemma remove_document_spec index self e :
  index_ok index → tr_inv index self →
  match remove_document (external_documents_ids index) e self with
  | (Ok removed, self') =>
      tr_inv index self' ∧ fields_ids_map self' = fields_ids_map self ∧
      index_documents_method self' = index_documents_method self ∧
      documents_count self' = documents_count self ∧
      (removed = true ↔
        is_Some (current index self e) ∨ ∃ d, docid_of index e = Some d ∧
          d ∈ replaced_documents_ids self) ∧
      ∀ e', current index self' e' = if decide (e' = e) then None else current index self e'
  | _ => False
  end.
Proof.
  intros Hindex Hinv. unfold remove_document.
  destruct (new_external_documents_ids_builder self !! e) as [n|] eqn:He.
  - destruct (ti_builder _ _ Hinv e n He) as (Hu32 & _ & Hne & Hadds & _).
    rewrite DocumentsIds.as_u32_small by done.
    split_and!; [by apply remove_known_inv|done|done|done| |].
    + split; [intros _; left|done]. unfold current. rewrite He. by apply foldl_combine_Some.
    + intros e'. destruct (decide (e' = e)) as [->|Hne'].
      * unfold current. cbn. rewrite lookup_delete_eq. destruct (docid_of index e) as [d|] eqn:Hd; [|done].
        cbn. by rewrite decide_True by by apply (ti_replaced _ _ Hinv e n).
      * unfold current, versions.
        cbn [new_external_documents_ids_builder set_builder set_new_documents_ids set_sorters
          replaced_documents_ids index_documents_method original_sorter].
        rewrite lookup_delete_ne by done.
        destruct (new_external_documents_ids_builder self !! e') as [n'|] eqn:He'; [|done].
        rewrite versions_app. unfold values_at at 2. rewrite filter_cons.
        rewrite decide_False; [by rewrite app_nil_r|]. cbn. intros <-.
        by apply Hne', (ti_inj _ _ Hinv e' e n).
  - rewrite DocumentsIds.get_lookup by apply (ix_external _ Hindex). cbn [map_err].
    fold (docid_of index e). destruct (docid_of index e) as [d|] eqn:Hd.
    + split_and!; [apply set_replaced_inv; [done|by exists e]|done|done|done| |].
      * split; [intros _|done]. unfold current. rewrite He, Hd. cbn.
        destruct (decide (d ∈ replaced_documents_ids self)) as [Hin|Hin]; [right; by exists d|left].
        destruct (ix_documents _ Hindex d (ix_known _ Hindex e d Hd)) as (o & -> & _). by eexists.
      * intros e'. unfold current. cbn. destruct (decide (e' = e)) as [->|Hne].
        { rewrite He, Hd. cbn. by rewrite decide_True by set_solver. }
        destruct (new_external_documents_ids_builder self !! e'); [done|].
        destruct (docid_of index e') as [d'|] eqn:Hd'; [|done]. cbn.
        assert (d' ≠ d) by (intros ->; by apply Hne, (ix_inj _ Hindex e' e d)).
        destruct (decide (d' ∈ replaced_documents_ids self)).
        { by rewrite decide_True by set_solver. }
        by rewrite decide_False by set_solver.
    + split_and!; [done|done|done|done| |].
      * split; [done|]. unfold current. rewrite He, Hd. intros [[? ?]|(? & ? & ?)]; done.
      * intros e'. destruct (decide (e' = e)) as [->|]; [|done]. unfold current. by rewrite He, Hd.
Qed.
End invariant.
