(* ===== verification/Distribution.v ===== *)
(** * The field distribution of an index

    The distribution maps each field name to the number of documents that have
    the field.  The transform takes the replaced documents out of it and counts
    the new ones in; [dist_rep] says that a distribution represents a count, and
    [total] is the count of a list of documents. *)
From S2P Require Import Prelude Json Flatten Obkv DocFlatten Merge Transform TransformInv.
From S2P Require FieldsIdsMap DocumentsIds.
Import FieldsIdsMap (FieldId, FieldsIdsMap).
Import DocumentsIds (DocumentId).

Section distribution.
Context {O : Obkv} {OL : ObkvLaws O}.
Context {Number : Type} {J : SerdeJson Number}.
Implicit Types (m : FieldsIdsMap) (o : kv) (docs : list kv) (dist : gmap string N).

Definition has_field m nm o : Prop := is_Some (doc_fields m o !! nm).

#[local] Instance has_field_dec m nm o : Decision (has_field m nm o).
Proof. unfold has_field. apply _. Defined.

(** The number of documents with a field. *)
Definition total m docs (nm : string) : N :=
  N.of_nat (length (filter (has_field m nm) docs)).

(** A field that no document has is not in the distribution. *)
Definition dist_rep dist (cnt : string → N) : Prop :=
  ∀ nm, dist !! nm = if decide (cnt nm = 0%N) then None else Some (cnt nm).

Lemma total_nil m nm : total m [] nm = 0%N.
Proof. done. Qed.

Lemma total_cons m o docs nm :
  total m (o :: docs) nm = ((if decide (has_field m nm o) then 1 else 0) + total m docs nm)%N.
Proof.
  unfold total. rewrite filter_cons. destruct (decide (has_field m nm o)); cbn [length]; lia.
Qed.

Lemma total_app m docs docs' nm : total m (docs ++ docs') nm = (total m docs nm + total m docs' nm)%N.
Proof. unfold total. rewrite filter_app, length_app. lia. Qed.

Lemma total_perm m docs docs' nm : docs ≡ₚ docs' → total m docs nm = total m docs' nm.
Proof. intros Hp. unfold total. by rewrite Hp. Qed.

Lemma total_le m docs nm : (total m docs nm ≤ N.of_nat (length docs))%N.
Proof. unfold total. pose proof (length_filter (has_field m nm) docs). lia. Qed.

Lemma total_extends m m' docs nm :
  FieldsIdsMap.well_formed m → FieldsIdsMap.well_formed m' → extends m m' →
  Forall (doc_ok m) docs → total m' docs nm = total m docs nm.
Proof.
  intros Hwf Hwf' Hext. induction 1 as [|o docs [Ho Hc] Hdocs IH]; [done|].
  rewrite !total_cons, IH. assert (doc_fields m' o = doc_fields m o) as Heq
    by (by apply fields_named_extends). f_equal.
  assert (has_field m' nm o ↔ has_field m nm o) as Hiff by (unfold has_field; by rewrite Heq).
  destruct (decide (has_field m nm o)) as [?|?];
    [rewrite decide_True|rewrite decide_False]; tauto.
Qed.

Lemma dist_rep_ext dist cnt cnt' :
  (∀ nm, cnt nm = cnt' nm) → dist_rep dist cnt → dist_rep dist cnt'.
Proof. intros Heq Hdist nm. rewrite (Hdist nm), Heq. done. Qed.

(** ** One field *)
Lemma wrap_pred c : (0 < c < u64_size)%N → wrap64 (c + (u64_size - 1)) = (c - 1)%N.
Proof.
  intros Hc. unfold wrap64. replace (c + (u64_size - 1))%N with ((c - 1) + 1 * u64_size)%N
    by (unfold u64_size in *; lia).
  rewrite N.Div0.mod_add. apply N.mod_small. lia.
Qed.

Lemma forget_field_Ok m k nm dist cnt :
  FieldsIdsMap.name k m = Some nm → dist_rep dist cnt → (0 < cnt nm < u64_size)%N →
  ∃ dist', forget_field m k dist = Ok dist' ∧
    dist_rep dist' (λ x, if decide (x = nm) then (cnt x - 1)%N else cnt x).
Proof.
  intros Hnm Hdist Hcnt. unfold forget_field. rewrite Hnm. cbn [ok_or mbind outcome_bind].
  rewrite (Hdist nm), decide_False by lia. cbn [ok_or mbind outcome_bind].
  rewrite wrap_pred by done. destruct (decide (cnt nm - 1 = 0)%N) as [Hz|Hz].
  - eexists. split; [done|]. intros x. destruct (decide (x = nm)) as [->|Hne].
    + by rewrite lookup_delete_eq, decide_True.
    + rewrite lookup_delete_ne by done. apply Hdist.
  - eexists. split; [done|]. intros x. destruct (decide (x = nm)) as [->|Hne].
    + by rewrite lookup_insert_eq, decide_False.
    + rewrite lookup_insert_ne by done. apply Hdist.
Qed.

Lemma count_field_Ok m k nm dist cnt :
  FieldsIdsMap.name k m = Some nm → dist_rep dist cnt → (cnt nm + 1 < u64_size)%N →
  ∃ dist', count_field m k dist = Ok dist' ∧
    dist_rep dist' (λ x, if decide (x = nm) then (cnt x + 1)%N else cnt x).
Proof.
  intros Hnm Hdist Hcnt. unfold count_field. rewrite Hnm. cbn [ok_or mbind outcome_bind].
  assert (default 0%N (dist !! nm) = cnt nm) as ->.
  { rewrite (Hdist nm). by destruct (decide (cnt nm = 0%N)). }
  rewrite wrap64_small by lia. eexists. split; [done|]. intros x.
  destruct (decide (x = nm)) as [->|Hne].
  - rewrite lookup_insert_eq. by rewrite decide_False by lia.
  - rewrite lookup_insert_ne by done. apply Hdist.
Qed.

(** ** The fields of a document *)
Definition names_of m (l : list (FieldId * bytes)) : list string :=
  (λ e, default "" (FieldsIdsMap.name e.1 m)) <$> l.

Lemma names_of_doc m o :
  FieldsIdsMap.well_formed m → doc_ok m o →
  NoDup (names_of m (kv_iter o)) ∧
  Forall (λ e, is_Some (FieldsIdsMap.name e.1 m)) (kv_iter o) ∧
  ∀ nm, nm ∈ names_of m (kv_iter o) ↔ has_field m nm o.
Proof.
  intros Hwf Ho. destruct (doc_ok_stored m o Ho) as [t [Hiter Hinc Hk Hok]].
  assert (names_of m (kv_iter o) = (named m t).*1) as Hnames.
  { rewrite Hiter, named_keys. unfold names_of, encode. by rewrite <- !list_fmap_compose. }
  assert (Forall (λ e, is_Some (FieldsIdsMap.name e.1 m)) (kv_iter o)) as Hknown.
  { rewrite Hiter. unfold encode. apply Forall_fmap. exact Hk. }
  split_and!; [|done|].
  - rewrite Hnames. by apply named_keys_NoDup, increasing_keys_NoDup.
  - intros nm. unfold has_field. rewrite Forall_forall in Hknown. split.
    + intros Hin. apply list_elem_of_fmap in Hin as ([k b] & -> & Hin).
      destruct (Hknown _ Hin) as [nm Hnm]. cbn [fst] in *. rewrite Hnm. exists b.
      apply doc_fields_Some. exists k. split; [by apply (FieldsIdsMap.wf_bijection _ Hwf)|].
      apply content_elem; [apply Ho|done].
    + intros [b (k & Hid & Hb)%doc_fields_Some]. apply content_elem in Hb; [|apply Ho].
      apply list_elem_of_fmap. exists (k, b). split; [|done]. cbn [fst].
      apply (FieldsIdsMap.wf_bijection _ Hwf) in Hid. unfold FieldsIdsMap.name. by rewrite Hid.
Qed.

Lemma over_fields_Ok m (f : FieldId → gmap string N → outcome MilliError (gmap string N))
    (g : N → N) (P : N → Prop) l dist cnt :
  (∀ k nm dist cnt, FieldsIdsMap.name k m = Some nm → dist_rep dist cnt → P (cnt nm) →
    ∃ dist', f k dist = Ok dist' ∧
      dist_rep dist' (λ x, if decide (x = nm) then g (cnt x) else cnt x)) →
  NoDup (names_of m l) → Forall (λ e, is_Some (FieldsIdsMap.name e.1 m)) l →
  dist_rep dist cnt → (∀ nm, nm ∈ names_of m l → P (cnt nm)) →
  ∃ dist', over_fields f l dist = Ok dist' ∧
    dist_rep dist' (λ x, if decide (x ∈ names_of m l) then g (cnt x) else cnt x).
Proof.
  intros Hf. revert dist cnt. induction l as [|[k b] l IH]; intros dist cnt Hnd Hk Hdist HP.
  - exists dist. split; [done|]. eapply dist_rep_ext; [|exact Hdist]. intros x. cbn beta.
    by rewrite decide_False by apply not_elem_of_nil.
  - apply Forall_cons in Hk as [[nm Hnm] Hk]. cbn [fst] in Hnm.
    unfold names_of in *. rewrite fmap_cons in *. cbn [fst] in *. rewrite Hnm in *. cbn [default] in *.
    apply NoDup_cons in Hnd as [Hnot Hnd].
    destruct (Hf k nm dist cnt Hnm Hdist) as (dist1 & Hd1 & Hrep1); [apply HP; left|].
    cbn [over_fields]. rewrite Hd1. cbn [mbind outcome_bind].
    destruct (IH dist1 _ Hnd Hk Hrep1) as (dist' & Hd' & Hrep').
    { intros x Hx. rewrite decide_False by (by intros ->). apply HP. by right. }
    exists dist'. split; [done|]. eapply dist_rep_ext; [|exact Hrep']. intros x. cbn beta.
    destruct (decide (x = nm)) as [->|Hne].
    + rewrite decide_False by done. by rewrite (decide_True (P := nm ∈ nm :: _)) by left.
    + destruct (decide (x ∈ _)) as [Hin|Hin].
      * by rewrite (decide_True (P := x ∈ nm :: _)) by by right.
      * by rewrite (decide_False (P := x ∈ nm :: _)) by (rewrite elem_of_cons; tauto).
Qed.

(** ** The replaced and the new documents *)
Lemma remove_deleted_Ok m index self docids dist cnt docs :
  fields_ids_map self = m → FieldsIdsMap.well_formed m →
  (λ d, documents index !! d) <$> docids = Some <$> docs → Forall (doc_ok m) docs →
  dist_rep dist cnt → (∀ nm, total m docs nm ≤ cnt nm)%N → (∀ nm, cnt nm < u64_size)%N →
  ∃ dist', remove_deleted_documents_from_field_distribution index self docids dist = Ok dist' ∧
    dist_rep dist' (λ nm, cnt nm - total m docs nm)%N.
Proof.
  intros Hm Hwf. revert docs dist cnt. induction docids as [|d docids IH];
    intros docs dist cnt Hdocs Hok Hdist Hle Hlt.
  - destruct docs; [|done]. exists dist. split; [done|].
    eapply dist_rep_ext; [|exact Hdist]. intros nm. cbn beta.
    change (total m _ nm) with 0%N. lia.
  - destruct docs as [|o docs]; [done|]. rewrite !fmap_cons in Hdocs.
    injection Hdocs as Hd Hdocs. apply Forall_cons in Hok as [Ho Hok].
    cbn [remove_deleted_documents_from_field_distribution]. rewrite Hd.
    cbn [ok_or mbind outcome_bind]. rewrite Hm.
    destruct (names_of_doc m o Hwf Ho) as (Hnd & Hknown & Hnames).
    destruct (over_fields_Ok m (forget_field m) (λ c, c - 1)%N (λ c, 0 < c < u64_size)%N
      (kv_iter o) dist cnt (forget_field_Ok m) Hnd Hknown Hdist) as (dist1 & -> & Hrep1).
    { intros nm Hin%Hnames. specialize (Hle nm). rewrite total_cons, decide_True in Hle by done.
      split; [lia|done]. }
    cbn [mbind outcome_bind]. destruct (IH docs dist1 _ Hdocs Hok Hrep1) as (dist' & -> & Hrep').
    + intros nm. specialize (Hle nm). rewrite total_cons in Hle.
      destruct (decide (nm ∈ _)) as [Hin%Hnames|Hin]; [rewrite decide_True in Hle by done; lia|].
      rewrite decide_False in Hle by (by rewrite <- Hnames). lia.
    + intros nm. specialize (Hlt nm). destruct (decide _); lia.
    + exists dist'. split; [done|]. eapply dist_rep_ext; [|exact Hrep'].
      intros nm. cbn beta. rewrite total_cons.
      destruct (decide (nm ∈ _)) as [Hin%Hnames|Hin]; [rewrite decide_True by done; lia|].
      rewrite decide_False by (by rewrite <- Hnames). lia.
Qed.

Lemma count_documents_Ok m (l : list (DocumentId * kv)) dist cnt :
  FieldsIdsMap.well_formed m → Forall (doc_ok m) l.*2 → dist_rep dist cnt →
  (∀ nm, cnt nm + N.of_nat (length l) < u64_size)%N →
  ∃ dist', count_documents m l dist = Ok dist' ∧
    dist_rep dist' (λ nm, cnt nm + total m l.*2 nm)%N.
Proof.
  intros Hwf. revert dist cnt. induction l as [|[d o] l IH]; intros dist cnt Hok Hdist Hlt.
  - exists dist. split; [done|]. eapply dist_rep_ext; [|exact Hdist]. intros nm. cbn beta.
    change (total m _ nm) with 0%N. lia.
  - rewrite fmap_cons in *. apply Forall_cons in Hok as [Ho Hok]. cbn [snd] in *.
    cbn [count_documents]. destruct (names_of_doc m o Hwf Ho) as (Hnd & Hknown & Hnames).
    destruct (over_fields_Ok m (count_field m) (λ c, c + 1)%N (λ c, c + 1 < u64_size)%N
      (kv_iter o) dist cnt (count_field_Ok m) Hnd Hknown Hdist) as (dist1 & -> & Hrep1).
    { intros nm _. specialize (Hlt nm). cbn [length] in Hlt. lia. }
    cbn [mbind outcome_bind]. destruct (IH dist1 _ Hok Hrep1) as (dist' & -> & Hrep').
    + intros nm. specialize (Hlt nm). cbn [length] in Hlt. destruct (decide _); lia.
    + exists dist'. split; [done|]. eapply dist_rep_ext; [|exact Hrep'].
      intros nm. cbn beta. rewrite total_cons.
      destruct (decide (nm ∈ _)) as [Hin%Hnames|Hin]; [rewrite decide_True by done; lia|].
      rewrite decide_False by (by rewrite <- Hnames). lia.
Qed.
End distribution.
