(* ===== verification/TransformSpec.v ===== *)
(** * What a document transform computes

    The specification is the sequence of the operations: [apply_op] adds a
    document under its id, replacing or overriding the fields of the one before
    it, or removes one.  [view] is the document of each user's id, by field
    names, in a transform; reading and removing documents apply their operations
    to it ([read_documents_spec], [remove_documents_spec]), and
    [output_spec] says that the output holds exactly the documents of the view
    that the update touched. *)
From S2P Require Import Prelude Json Flatten Obkv DocFlatten Merge Transform TransformInv Distribution.
From S2P Require FieldsIdsMap DocumentsIds Tasks.
Import FieldsIdsMap (FieldId, FieldsIdsMap).
Import DocumentsIds (DocumentId, ExternalDocumentsIds, AvailableDocumentsIds).
Import Tasks (IndexDocumentsMethod(..)).

(** ** Documents and operations *)

(** A document by field names, and the documents by the users' ids. *)
Abbreviation Doc := (gmap string bytes).
Abbreviation View := (string → option Doc).

Inductive DocumentOp := AddDocument (e : string) (doc : Doc) | RemoveDocument (e : string).

Definition add_to (method : IndexDocumentsMethod) (previous : option Doc) (doc : Doc) : Doc :=
  match method with
  | ReplaceDocuments => doc
  | UpdateDocuments => doc ∪ default ∅ previous
  end.

Definition apply_op (method : IndexDocumentsMethod) (v : View) (op : DocumentOp) : View := λ e,
  match op with
  | AddDocument e' doc => if decide (e = e') then Some (add_to method (v e') doc) else v e
  | RemoveDocument e' => if decide (e = e') then None else v e
  end.

Definition apply_ops (method : IndexDocumentsMethod) (v : View) (ops : list DocumentOp) : View :=
  foldl (apply_op method) v ops.

Lemma apply_ops_ext method (v v' : View) ops :
  (∀ e, v e = v' e) → ∀ e, apply_ops method v ops e = apply_ops method v' ops e.
Proof.
  revert v v'. induction ops as [|op ops IH]; intros v v' Hv e; [apply Hv|].
  apply IH. intros e'. destruct op; cbn; by rewrite ?Hv.
Qed.

Lemma apply_ops_app method v ops ops' :
  apply_ops method v (ops ++ ops') = apply_ops method (apply_ops method v ops) ops'.
Proof. apply foldl_app. Qed.

Lemma apply_removals method v l e :
  apply_ops method v (RemoveDocument <$> l) e = if decide (e ∈ l) then None else v e.
Proof.
  revert v. induction l as [|x l IH]; intros v; cbn [fmap list_fmap apply_ops foldl]; [done|].
  fold (apply_ops method (apply_op method v (RemoveDocument x)) (RemoveDocument <$> l)).
  rewrite IH. cbn. destruct (decide (e ∈ l)) as [Hl|Hl]; [by rewrite decide_True by set_solver|].
  destruct (decide (e = x)) as [->|Hne]; [by rewrite decide_True by set_solver|].
  by rewrite decide_False by set_solver.
Qed.

(** ** The view of a transform *)
Section spec.
Context {O : Obkv} {OL : ObkvLaws O}.
Context {Number : Type} {J : SerdeJson Number} {JL : SerdeJsonLaws J}.
Context {S : SortById} {M : MergeJoin}.

Definition view (index : Index) (self : Transform) : View := λ e,
  fields_named (fields_ids_map self) <$> current index self e.

Lemma foldl_combine_ok m method vs doc c :
  Forall (λ v : Version, doc_ok m v.2) vs → (∀ c, doc = Some c → fields_ok m c) →
  foldl (combine method) doc vs = Some c → fields_ok m c.
Proof.
  intros Hvs. revert doc. induction Hvs as [|[op o] vs [Ho Hc] Hvs IH]; intros doc Hdoc; [apply Hdoc|].
  cbn [foldl]. apply IH. intros c'. destruct method, op; cbn; intros; simplify_eq; try done.
  apply fields_ok_union; [done|]. destruct doc; [by apply Hdoc|apply fields_ok_empty].
Qed.

Lemma values_at_Forall {V} (P : V → Prop) n (l : list (DocumentId * V)) :
  Forall (λ x, P x.2) l → Forall P (values_at n l).
Proof.
  intros Hl. unfold values_at. apply Forall_fmap, Forall_forall.
  intros x [_ Hx]%list_elem_of_filter. rewrite Forall_forall in Hl. by apply Hl.
Qed.

Lemma current_ok index self e c :
  index_ok index → tr_inv index self → current index self e = Some c →
  fields_ok (fields_ids_map self) c.
Proof.
  intros Hindex Hinv. unfold current.
  destruct (new_external_documents_ids_builder self !! e) as [n|].
  - intros Hc. apply (foldl_combine_ok (fields_ids_map self) (index_documents_method self)
      (versions self n) None c);
      [|by intros|exact Hc].
    apply (values_at_Forall (λ v, doc_ok _ v.2)), (ti_versions _ _ Hinv).
  - destruct (docid_of index e) as [d|] eqn:Hd; [|done]. cbn.
    destruct (decide _); [done|].
    destruct (ix_documents _ Hindex d (ix_known _ Hindex e d Hd)) as (o & -> & Ho). cbn.
    intros [= <-]. eapply fields_ok_extends; [apply (ti_extends _ _ Hinv)|apply Ho].
Qed.

(** The view does not see how the fields ids map grows. *)
Lemma view_extends self m c :
  FieldsIdsMap.well_formed (fields_ids_map self) → FieldsIdsMap.well_formed m →
  extends (fields_ids_map self) m →
  (∀ x, c = Some x → fields_ok (fields_ids_map self) x) →
  fields_named m <$> c = fields_named (fields_ids_map self) <$> c.
Proof.
  intros Hwf Hwf' Hext Hc. destruct c as [c|]; [|done]. cbn. f_equal.
  apply fields_named_extends; try done. by apply Hc.
Qed.

Lemma combine_named m method prev o :
  fields_named m <$> combine method prev (Addition, o) =
  Some (add_to method (fields_named m <$> prev) (doc_fields m o)).
Proof.
  destruct method; [done|]. unfold combine, overrides, add_to, doc_fields. cbn.
  rewrite fields_named_union. destruct prev; cbn; [done|by rewrite fields_named_empty].
Qed.

(** Reading one document is adding it. *)
Lemma reads_view index self o e res :
  index_ok index → tr_inv index self → doc_ok (fields_ids_map self) o →
  reads index self o e res →
  match res with
  | (Ok _, self') =>
      tr_inv index self' ∧ extends (fields_ids_map self) (fields_ids_map self') ∧
      index_documents_method self' = index_documents_method self ∧
      documents_count self' = documents_count self ∧
      ∀ e', view index self' e' =
        apply_op (index_documents_method self) (view index self)
          (AddDocument e (doc_fields (fields_ids_map self) o)) e'
  | (Err err, _) => err = DocumentLimitReached ∨ err = AttributeLimitReached
  | (Panic _, _) => False
  end.
Proof.
  intros Hindex Hinv Ho Hreads. destruct res as [[[]|err|p] self']; [|done|done].
  destruct Hreads as (Hinv' & Hext & Hm & Hc & Hcur). split_and!; try done. intros e'.
  pose proof (ti_wf _ _ Hinv) as Hwf. pose proof (ti_wf _ _ Hinv') as Hwf'.
  unfold view. rewrite Hcur. unfold apply_op.
  assert (∀ x, combine (index_documents_method self) (current index self e) (Addition, o) = Some x →
    fields_ok (fields_ids_map self) x) as Hx.
  { intros x Hx. destruct Ho as [_ Ho].
    destruct (index_documents_method self); cbn in Hx; simplify_eq; [done|].
    apply fields_ok_union; [done|]. destruct (current index self e) eqn:Hcu; cbn;
      [by eapply current_ok|apply fields_ok_empty]. }
  destruct (decide (e' = e)) as [->|Hne].
  - rewrite (view_extends self) by done. apply combine_named.
  - apply (view_extends self); try done. intros x. by apply current_ok.
Qed.

(** The operations of a batch of documents. *)
Definition read_ops (reader : EnrichedBatch) (docs : list EnrichedDocument) : list DocumentOp :=
  (λ d, AddDocument (id_value (document_id d)) (source_doc reader d)) <$> docs.

Lemma read_loop_spec index reader mapping primary_key_id should_abort docs self count :
  index_ok index → tr_inv index self → batch_ok reader → Forall (document_ok reader) docs →
  mapping_ok (fields_ids_map self) mapping (fields_index reader) →
  FieldsIdsMap.name primary_key_id (fields_ids_map self) = Some (batch_primary_key reader) →
  match read_loop index (external_documents_ids index) mapping primary_key_id should_abort
    docs count self with
  | (Ok count', self') =>
      tr_inv index self' ∧ index_documents_method self' = index_documents_method self ∧
      documents_count self' = documents_count self ∧
      extends (fields_ids_map self) (fields_ids_map self') ∧
      count' = (count + N.of_nat (length docs))%N ∧
      ∀ e, view index self' e =
        apply_ops (index_documents_method self) (view index self) (read_ops reader docs) e
  | (Err err, _) =>
      err = AbortedIndexation ∨ err = DocumentLimitReached ∨ err = AttributeLimitReached
  | (Panic _, _) => False
  end.
Proof.
  intros Hindex Hinv Hbatch Hdocs Hmap Hpk. revert self count Hinv Hmap Hpk.
  induction Hdocs as [|d docs Hd Hdocs IH]; intros self count Hinv Hmap Hpk.
  - cbn. split_and!; try done; [apply extends_refl|lia].
  - cbn [read_loop]. destruct (should_abort count); [by left|].
    destruct (read_document_spec index self mapping primary_key_id reader d Hindex Hinv Hbatch
      Hd Hmap Hpk) as (o & Ho & Hfields & Hreads).
    apply reads_view in Hreads; [|done..]. unfold mbind, st_bind.
    destruct (read_document index _ mapping primary_key_id d self) as [[[]|err|p] self1];
      [|naive_solver|done].
    destruct Hreads as (Hinv1 & Hext1 & Hm1 & Hc1 & Hv1).
    specialize (IH self1 (count + 1)%N Hinv1 (mapping_ok_extends _ _ _ _ Hext1 Hmap)
      (Hext1 _ _ Hpk)).
    destruct (read_loop index _ mapping primary_key_id should_abort docs _ self1)
      as [[count'|err|p] self']; [|done|done].
    destruct IH as (Hinv' & Hm' & Hc' & Hext' & Hcount & Hv').
    split_and!; [done|congruence|congruence|by eapply extends_trans|cbn; lia|].
    intros e. rewrite Hv', Hm1.
    change (read_ops reader (d :: docs))
      with ([AddDocument (id_value (document_id d)) (source_doc reader d)] ++ read_ops reader docs).
    rewrite apply_ops_app. apply apply_ops_ext. intros e'. rewrite Hv1, Hfields. done.
Qed.

(** The index as reading documents leaves it: a greater fields ids map and a
    primary key. *)
Definition with_fields (m : FieldsIdsMap) (primary_key : string) (index : Index) : Index :=
  put_primary_key primary_key (put_fields_ids_map m index).

Lemma with_fields_ok m primary_key index :
  index_ok index → FieldsIdsMap.well_formed m → extends (index_fields_ids_map index) m →
  index_ok (with_fields m primary_key index).
Proof.
  intros Hindex Hwf Hext. destruct Hindex. split; try done.
  intros d Hd. destruct (ix_documents d Hd) as (o & Ho & Hok). exists o.
  split; [done|by eapply doc_ok_extends].
Qed.

Lemma with_fields_inv self primary_key index :
  tr_inv index self → tr_inv (with_fields (fields_ids_map self) primary_key index) self.
Proof. intros Hinv. destruct Hinv. split; try done. apply extends_refl. Qed.

Lemma set_fields_ids_map_inv index self m :
  tr_inv index self → FieldsIdsMap.well_formed m → extends (fields_ids_map self) m →
  tr_inv index (set_fields_ids_map m self).
Proof.
  intros Hinv Hwf Hext. destruct Hinv. split; try done.
  - by eapply extends_trans.
  - eapply Forall_impl; [exact ti_versions|]. cbn. intros x. by apply doc_ok_extends.
  - eapply Forall_impl; [exact ti_flattened|]. cbn. intros x. by apply doc_ok_extends.
Qed.

Lemma set_fields_ids_map_view index self m e :
  index_ok index → tr_inv index self → FieldsIdsMap.well_formed m →
  extends (fields_ids_map self) m →
  view index (set_fields_ids_map m self) e = view index self e.
Proof.
  intros Hindex Hinv Hwf Hext. unfold view.
  change (current index (set_fields_ids_map m self) e) with (current index self e).
  apply (view_extends self); [apply (ti_wf _ _ Hinv)|done|done|].
  intros x. by apply current_ok.
Qed.

(** Whether an error is one that reading documents may end with. *)
Definition read_error (err : MilliError) : Prop :=
  err = AbortedIndexation ∨ err = DocumentLimitReached ∨ err = AttributeLimitReached.

Lemma read_documents_spec index reader should_abort self :
  index_ok index → tr_inv index self → batch_ok reader →
  match read_documents reader should_abort index self with
  | (Ok (count, index'), self') =>
      index_ok index' ∧ tr_inv index' self' ∧
      (∃ m primary_key, index' = with_fields m primary_key index ∧ m = fields_ids_map self') ∧
      index_documents_method self' = index_documents_method self ∧
      count = N.of_nat (length (batch_documents reader)) ∧
      documents_count self' = (documents_count self + count)%N ∧
      extends (fields_ids_map self) (fields_ids_map self') ∧
      ∀ e, view index' self' e =
        apply_ops (index_documents_method self) (view index self)
          (read_ops reader (batch_documents reader)) e
  | (Err err, _) => read_error err
  | (Panic _, _) => False
  end.
Proof.
  intros Hindex Hinv Hbatch. unfold read_documents, mbind, st_bind, st_get, st_put.
  unfold with_fields_ids_map at 1.
  pose proof (create_fields_mapping_spec (fields_ids_map self) (fields_index reader)
    (ti_wf _ _ Hinv)) as Hmapping.
  destruct (create_fields_mapping (fields_index reader) (fields_ids_map self))
    as [[mapping|err|p] m1]; [|subst err; right; by right|done].
  destruct Hmapping as (Hwf1 & Hext1 & Hmap).
  unfold with_fields_ids_map. cbn [fields_ids_map set_fields_ids_map].
  pose proof (insert_field_spec m1 (batch_primary_key reader) Hwf1) as Hins.
  destruct (insert_field (batch_primary_key reader) m1) as [[primary_key_id|err|p] m2];
    [|destruct Hins as (-> & _); right; by right|done].
  destruct Hins as (Hwf2 & Hext2 & Hpk).
  change (set_fields_ids_map m2 (set_fields_ids_map m1 self)) with (set_fields_ids_map m2 self).
  assert (extends (fields_ids_map self) m2) as Hext by by eapply extends_trans.
  pose proof (set_fields_ids_map_inv index self m2 Hinv Hwf2 Hext) as Hinv2.
  pose proof (read_loop_spec index reader mapping primary_key_id should_abort
    (batch_documents reader) (set_fields_ids_map m2 self) 0 Hindex Hinv2 Hbatch
    (ba_documents _ Hbatch) (mapping_ok_extends _ _ _ _ Hext2 Hmap) Hpk) as Hloop.
  destruct (read_loop index _ mapping primary_key_id should_abort _ 0 _)
    as [[count|err|p] self']; [|done|done].
  destruct Hloop as (Hinv' & Hm & Hc & Hext' & -> & Hview). cbn iota beta.
  change (fields_ids_map (set_documents_count ?n ?s)) with (fields_ids_map s).
  assert (tr_inv index (set_documents_count (documents_count self' +
    (0 + N.of_nat (length (batch_documents reader))))%N self')) as Hinv3
    by (destruct Hinv'; by split).
  split_and!.
  - apply (with_fields_ok (fields_ids_map self')); [done|apply (ti_wf _ _ Hinv')|].
    apply (ti_extends _ _ Hinv').
  - exact (with_fields_inv _ (batch_primary_key reader) _ Hinv3).
  - by eexists _, _.
  - done.
  - lia.
  - cbn. rewrite Hc. cbn. lia.
  - by eapply extends_trans.
  - intros e. change (view (put_primary_key ?k (put_fields_ids_map ?m index)) ?s)
      with (view index s).
    change (view index (set_documents_count ?n self') e) with (view index self' e).
    rewrite Hview. cbn. apply apply_ops_ext. intros e'. by apply set_fields_ids_map_view.
Qed.

(** ** Removing documents *)
Lemma remove_loop_spec index should_abort l self turn count :
  index_ok index → tr_inv index self →
  match remove_loop (external_documents_ids index) should_abort l turn count self with
  | (Ok _, self') =>
      tr_inv index self' ∧ fields_ids_map self' = fields_ids_map self ∧
      index_documents_method self' = index_documents_method self ∧
      documents_count self' = documents_count self ∧
      ∀ e, current index self' e = if decide (e ∈ l) then None else current index self e
  | (Err err, _) => err = AbortedIndexation
  | (Panic _, _) => False
  end.
Proof.
  intros Hindex. revert self turn count. induction l as [|x l IH]; intros self turn count Hinv.
  - cbn. by split_and!.
  - cbn [remove_loop]. destruct (should_abort turn); [done|]. unfold mbind, st_bind.
    pose proof (remove_document_spec index self x Hindex Hinv) as Hrem.
    destruct (remove_document _ x self) as [[removed|err|p] self1]; [|done|done].
    destruct Hrem as (Hinv1 & Hf1 & Hm1 & Hc1 & _ & Hcur1).
    specialize (IH self1 (turn + 1)%N (if removed then count + 1 else count)%N Hinv1).
    destruct (remove_loop _ should_abort l _ _ self1) as [[count'|err|p] self']; [|done|done].
    destruct IH as (Hinv' & Hf' & Hm' & Hc' & Hcur').
    split_and!; [done|congruence|congruence|congruence|]. intros e. rewrite Hcur', Hcur1.
    destruct (decide (e ∈ l)) as [Hl|Hl]; [by rewrite decide_True by set_solver|].
    destruct (decide (e = x)) as [->|Hne]; [by rewrite decide_True by set_solver|].
    by rewrite decide_False by set_solver.
Qed.

Lemma dedup_elem l x : x ∈ dedup l ↔ x ∈ l.
Proof.
  induction l as [|y l IH]; [done|]. cbn [dedup]. destruct l as [|z l]; [done|].
  destruct (decide (y = z)) as [->|Hne]; [|by rewrite !elem_of_cons, IH, elem_of_cons].
  rewrite IH, !elem_of_cons. tauto.
Qed.

Lemma remove_documents_spec index to_remove should_abort self :
  index_ok index → tr_inv index self →
  match remove_documents to_remove should_abort index self with
  | (Ok _, self') =>
      tr_inv index self' ∧ fields_ids_map self' = fields_ids_map self ∧
      index_documents_method self' = index_documents_method self ∧
      documents_count self' = documents_count self ∧
      ∀ e, view index self' e =
        apply_ops (index_documents_method self) (view index self)
          (RemoveDocument <$> to_remove) e
  | (Err err, _) => err = AbortedIndexation
  | (Panic _, _) => False
  end.
Proof.
  intros Hindex Hinv. unfold remove_documents.
  pose proof (remove_loop_spec index should_abort (dedup (merge_sort string_le to_remove))
    self 0 0 Hindex Hinv) as Hloop.
  destruct (remove_loop _ should_abort _ 0 0 self) as [[count|err|p] self']; [|done|done].
  destruct Hloop as (Hinv' & Hf & Hm & Hc & Hcur). split_and!; try done.
  intros e. rewrite apply_removals. unfold view. rewrite Hcur, Hf.
  assert (e ∈ dedup (merge_sort string_le to_remove) ↔ e ∈ to_remove) as Hiff.
  { rewrite dedup_elem. by rewrite merge_sort_Permutation. }
  destruct (decide (e ∈ dedup (merge_sort string_le to_remove))) as [Hin|Hin].
  - by rewrite decide_True by by apply Hiff.
  - rewrite decide_False; [done|]. intros ?. by apply Hin, Hiff.
Qed.

(** ** The output *)
Context {G : Sorter O}.

Lemma merge_function_Ok method vs :
  vs ≠ [] → Forall version_ok vs → ∃ v, merge_function method vs = Ok v ∧ version_ok v.
Proof. destruct method; [apply keep_latest_Ok|apply merge_operations_Ok]. Qed.

Lemma merge_function_rounds method vs v :
  deletion_last vs → Forall version_ok vs → rtc (merge_step (merge_function method)) vs [v] →
  (∀ doc, combine method doc v = foldl (combine method) doc vs) ∧
  (v.1 = Deletion ↔ ends_deleted vs).
Proof.
  apply (merge_rounds (merge_function method) (combine method)).
  - apply merge_function_Ok.
  - intros vs' v' doc. destruct method.
    + intros _ _. apply keep_latest_keeps.
    + apply merge_group_overrides.
Qed.

Lemma additions_elem (out : list (DocumentId * Version)) n o :
  (n, o) ∈ additions out ↔ (n, (Addition, o)) ∈ out.
Proof.
  unfold additions. rewrite list_elem_of_omap. split.
  - intros ([n' [op o']] & Hin & Heq). destruct (decide (op = Deletion)); [done|].
    destruct op; [|done]. by injection Heq as -> ->.
  - intros Hin. by exists (n, (Addition, o)).
Qed.

Lemma additions_sorted (out : list (DocumentId * Version)) :
  StronglySorted N.lt out.*1 → StronglySorted N.lt (additions out).*1.
Proof.
  induction out as [|[n [op o]] out IH]; [done|]. rewrite fmap_cons. cbn [fst].
  intros [Hs Hlt]%StronglySorted_inv. unfold additions in *. cbn [omap list_omap].
  destruct (decide (op = Deletion)); [by apply IH|]. rewrite fmap_cons. constructor; [by apply IH|].
  apply Forall_forall. intros k Hk. apply list_elem_of_fmap in Hk as ([k' o'] & -> & Hin).
  apply additions_elem in Hin. rewrite Forall_forall in Hlt. apply Hlt.
  by apply (list_elem_of_fmap_2 fst) in Hin.
Qed.

Lemma sorted_NoDup (ks : list N) : StronglySorted N.lt ks → NoDup ks.
Proof.
  induction 1 as [|k ks Hks IH Hk]; [constructor|]. apply NoDup_cons. split; [|done].
  intros Hin. rewrite Forall_forall in Hk. specialize (Hk _ Hin). lia.
Qed.

Lemma versions_elem {V} n (v : V) ins : v ∈ values_at n ins ↔ (n, v) ∈ ins.
Proof.
  unfold values_at. rewrite list_elem_of_fmap. split.
  - intros ([k' v'] & -> & [Heq Hin]%list_elem_of_filter). cbn in *. by subst.
  - intros Hin. exists (n, v). by rewrite list_elem_of_filter.
Qed.

(** The stream of the original sorter has each current document of the update. *)
Lemma original_stream index self :
  tr_inv index self →
  ∃ out, into_stream (merge_function (index_documents_method self)) (original_sorter self) = Ok out ∧
    StronglySorted N.lt (additions out).*1 ∧
    (∀ n, n ∈ (additions out).*1 ↔ n ∈ new_documents_ids self) ∧
    ∀ e n, new_external_documents_ids_builder self !! e = Some n →
    ∀ o, (n, o) ∈ additions out →
      current index self e = Some (content o) ∧ kv_ok o.
Proof.
  intros Hinv.
  destruct (into_stream_Ok (merge_function (index_documents_method self)) version_ok
    (original_sorter self)) as (out & Hout & Hsorted & Hkeys & Hval).
  { apply merge_function_Ok. }
  { eapply Forall_impl; [apply (ti_versions _ _ Hinv)|]. by intros x [Hx _]. }
  exists out. split; [done|]. split; [by apply additions_sorted|].
  assert (∀ n, Forall version_ok (versions self n)) as Hok.
  { intros n. apply (values_at_Forall version_ok).
    eapply Forall_impl; [apply (ti_versions _ _ Hinv)|]. by intros x [Hx _]. }
  assert (∀ n v, (n, v) ∈ out → version_ok v ∧
    (∀ doc, combine (index_documents_method self) doc v =
      foldl (combine (index_documents_method self)) doc (versions self n)) ∧
    (v.1 = Deletion ↔ ends_deleted (versions self n))) as Hmerged.
  { intros n v Hin. destruct (Hval n v Hin) as [Hvok Hrtc]. split; [done|].
    apply merge_function_rounds; [apply (ti_deletion_last _ _ Hinv)|apply Hok|exact Hrtc]. }
  split.
  - intros n. split.
    + intros Hin. apply list_elem_of_fmap in Hin as ([n' o] & -> & Hin%additions_elem). cbn [fst].
      destruct (decide (n' ∈ new_documents_ids self)) as [|Hnew]; [done|].
      destruct (Hmerged _ _ Hin) as (_ & _ & Hdel). destruct (ti_unused _ _ Hinv n') as [Hnil|Hend].
      * intros e He. by destruct (ti_builder _ _ Hinv e n' He) as (_ & _ & _ & _ & ?).
      * apply (list_elem_of_fmap_2 fst) in Hin. apply Hkeys in Hin. cbn [fst] in Hin.
        apply list_elem_of_fmap in Hin as ([n2 v] & Heq & Hin). cbn in Heq. subst n2.
        apply versions_elem in Hin. unfold versions in Hnil. rewrite Hnil in Hin. set_solver.
      * by apply Hdel in Hend.
    + intros Hnew. destruct (ti_new _ _ Hinv n Hnew) as [e He].
      destruct (ti_builder _ _ Hinv e n He) as (_ & _ & Hne & Hadds & _).
      assert (n ∈ out.*1) as Hin.
      { apply Hkeys. destruct (versions self n) as [|v vs] eqn:Hv; [done|].
        assert ((n, v) ∈ original_sorter self) as Hin.
        { apply versions_elem. unfold versions in Hv. rewrite Hv. left. }
        by apply (list_elem_of_fmap_2 fst) in Hin. }
      apply list_elem_of_fmap in Hin as ([n' [op o]] & -> & Hin). cbn [fst] in *.
      destruct (Hmerged _ _ Hin) as (_ & _ & Hdel). destruct op.
      * apply (list_elem_of_fmap_2 fst (additions out) (n', o)). by apply additions_elem.
      * destruct (proj1 Hdel eq_refl) as (vs & v & Hvs & Hv). rewrite Hvs in Hadds.
        apply Forall_app in Hadds as [_ [Hv' _]%Forall_cons]. congruence.
  - intros e n He o Hin%additions_elem. destruct (Hmerged _ _ Hin) as (Ho & Hc & _).
    split; [|exact Ho]. unfold current. rewrite He, <- (Hc None). apply combine_first.
Qed.

(** The documents with some ids. *)
Definition docs_of (index : Index) (ids : gset DocumentId) : list kv :=
  omap (λ d, documents index !! d) (elements ids).

(** The field distribution counts the documents of the index. *)
Definition dist_ok (index : Index) : Prop :=
  dist_rep (index_field_distribution index)
    (total (index_fields_ids_map index) (docs_of index (documents_ids index))).

Lemma omap_Some {A B} (f : A → option B) (l : list A) :
  (∀ x, x ∈ l → is_Some (f x)) → f <$> l = Some <$> omap f l.
Proof.
  induction l as [|x l IH]; intros Hall; [done|]. cbn [omap list_omap]. rewrite fmap_cons.
  destruct (Hall x) as [y Hy]; [left|]. rewrite Hy, fmap_cons, IH; [done|].
  intros z Hz. apply Hall. by right.
Qed.

Lemma docs_of_ok index ids :
  index_ok index → ids ⊆ documents_ids index →
  Forall (doc_ok (index_fields_ids_map index)) (docs_of index ids).
Proof.
  intros Hindex Hids. apply Forall_forall. intros o Ho. unfold docs_of in Ho.
  apply list_elem_of_omap in Ho as (d & Hd%elem_of_elements & Ho).
  destruct (ix_documents _ Hindex d (Hids d Hd)) as (o' & Ho' & Hok). congruence.
Qed.

Lemma docs_of_union index ids ids' :
  ids ## ids' → docs_of index (ids ∪ ids') ≡ₚ docs_of index ids ++ docs_of index ids'.
Proof.
  intros Hdisj. unfold docs_of. rewrite <- omap_app. apply omap_Permutation.
  by apply elements_disj_union.
Qed.

(** A set of [u32] ids is small. *)
Lemma size_u32 (ids : gset DocumentId) :
  (∀ d, d ∈ ids → (d ≤ u32_max)%N) → (N.of_nat (size ids) ≤ u32_max + 1)%N.
Proof.
  intros Hids. assert (ids ⊆ list_to_set (N.of_nat <$> seq 0 (N.to_nat (u32_max + 1)))) as Hsub.
  { intros d Hd%Hids. apply elem_of_list_to_set, DocumentsIds.elem_of_ids_below. lia. }
  apply subseteq_size in Hsub. rewrite size_list_to_set in Hsub.
  - rewrite length_fmap, length_seq in Hsub. lia.
  - apply NoDup_fmap_2; [apply _|apply NoDup_seq].
Qed.
End spec.
