(* ===== verification/IndexDocuments.v ===== *)
(** * Updating the documents of an index
      (milli/src/update/index_documents/mod.rs, delete_documents.rs, clear_documents.rs)

    [IndexDocuments] is the builder that the scheduler drives: it feeds a
    [Transform] with batches of documents and deletions, then [execute] deletes
    the replaced documents and writes the new ones.  The search databases
    (postings, facets, vectors, word lists) are not modelled: of [execute_raw],
    [execute_inner] and [ClearDocuments::execute] the model keeps what concerns
    the documents, their ids and the field distribution. *)
From S2P Require Import Prelude Json Flatten Obkv DocFlatten Merge Transform TransformInv Distribution TransformSpec.
From S2P Require FieldsIdsMap DocumentsIds Tasks.
Import FieldsIdsMap (FieldId, FieldsIdsMap).
Import DocumentsIds (DocumentId, ExternalDocumentsIds, AvailableDocumentsIds).
Import Tasks (IndexDocumentsMethod(..)).

Section definitions.
Context {O : Obkv} {Number : Type} {J : SerdeJson Number} {S : SortById} {M : MergeJoin}.
Context {G : Sorter O}.

(** ** Clearing *)
Definition number_of_documents (index : Index) : N := N.of_nat (size (documents_ids index)).

(** [ClearDocuments::execute]. *)
Definition clear_documents : ST Index MilliError N :=
  index ← st_get;
  let number_of_documents := number_of_documents index in
  _ ← st_modify (put_external_documents_ids (DocumentsIds.mkExternal ∅ ∅ ∅));
  _ ← st_modify (put_documents_ids ∅);
  _ ← st_modify (put_soft_deleted_documents_ids ∅);
  _ ← st_modify (put_field_distribution ∅);
  _ ← st_modify (put_documents ∅);
  mret number_of_documents.

(** ** Deleting *)
Inductive DeletionStrategy := Dynamic | AlwaysSoft | AlwaysHard.

Definition SOFT_DELETED_SIZE_BYTE_THRESHOLD : N := 1073741824.

(** Whether the deleted documents stay in the databases; [size_used] is what the
    index occupies on disk. *)
Definition soft_deletion (strategy : DeletionStrategy) (size_used nb_documents nb_soft_deleted : N) :
    bool :=
  match strategy with
  | Dynamic =>
      (nb_soft_deleted <? nb_documents)%N &&
      let estimated_document_size := (size_used / (nb_documents + nb_soft_deleted))%N in
      let estimated_size_used_by_soft_deleted := (estimated_document_size * nb_soft_deleted)%N in
      (estimated_size_used_by_soft_deleted <? SOFT_DELETED_SIZE_BYTE_THRESHOLD)%N
  | AlwaysSoft => true
  | AlwaysHard => false
  end.

Definition forget_deleted_field (m : FieldsIdsMap) (fid : FieldId) (dist : gmap string N) :
    outcome MilliError (gmap string N) :=
  field_name ← ok_or (FieldsIdsMap.name fid m) (FieldIdMapMissingEntry fid);
  match dist !! field_name with
  | None => Ok dist
  | Some count =>
      if (count <=? 1)%N then Ok (delete field_name dist)
      else Ok (<[field_name := (count - 1)%N]> dist)
  end.

Fixpoint forget_deleted_documents (index : Index) (docids : list DocumentId)
    (dist : gmap string N) : outcome MilliError (gmap string N) :=
  match docids with
  | [] => Ok dist
  | docid :: docids =>
      document ← ok_or (documents index !! docid) (DatabaseMissingEntry "documents");
      dist ← over_fields (forget_deleted_field (index_fields_ids_map index))
        (kv_iter document) dist;
      forget_deleted_documents index docids dist
  end.

(** [DeleteDocuments::execute_inner]: the numbers of deleted and of remaining
    documents. *)
Definition delete_documents (strategy : DeletionStrategy) (size_used : N)
    (to_delete_docids : gset DocumentId) : ST Index MilliError (N * N) :=
  index ← st_get;
  let soft_deleted_docids := soft_deleted_documents_ids index in
  let current_documents_ids_len := size (documents_ids index) in
  if decide (documents_ids index = ∅) then
    _ ← if decide (soft_deleted_docids = ∅) then mret 0%N else clear_documents;
    mret (0%N, 0%N)
  else
    let documents_ids := documents_ids index ∖ to_delete_docids in
    _ ← st_modify (put_documents_ids documents_ids);
    if decide (current_documents_ids_len = size to_delete_docids) then
      remaining_documents ← clear_documents;
      mret (N.of_nat current_documents_ids_len, remaining_documents)
    else
      field_distribution ← st_lift (forget_deleted_documents index (bitmap_iter to_delete_docids)
        (index_field_distribution index));
      _ ← st_modify (put_field_distribution field_distribution);
      let soft_deleted_docids := soft_deleted_docids ∪ to_delete_docids in
      _ ← st_modify (put_soft_deleted_documents_ids soft_deleted_docids);
      if soft_deletion strategy size_used (N.of_nat (size documents_ids))
           (N.of_nat (size soft_deleted_docids))
      then mret (N.of_nat (size to_delete_docids), N.of_nat (size documents_ids))
      else
        _ ← st_modify (λ index, put_documents
          (filter (λ kv, kv.1 ∉ soft_deleted_docids) (documents index)) index);
        _ ← st_modify (λ index, put_external_documents_ids
          (DocumentsIds.delete_soft_deleted_documents_ids_from_fsts
            (external_documents_ids index)) index);
        _ ← st_modify (put_soft_deleted_documents_ids ∅);
        mret (N.of_nat (size soft_deleted_docids), N.of_nat (size documents_ids)).

(** ** The builder *)
Record IndexDocuments := mkIndexDocuments {
  transform : Transform;
  deletion_strategy : DeletionStrategy;
  added_documents : N;
  deleted_documents : N
}.

(** [IndexDocuments::new]. *)
Definition new (index : Index) (update_method : IndexDocumentsMethod)
    (strategy : DeletionStrategy) : IndexDocuments :=
  mkIndexDocuments (Transform.new index update_method) strategy 0 0.

(** [add_documents]; [enrich] is what [enrich_documents_batch] returns: a user
    error, after which the builder can still be used, or the documents. *)
Definition add_documents {E} (reader_is_empty : bool) (enrich : E + EnrichedBatch)
    (should_abort : N → bool) (self : IndexDocuments) :
    ST Index MilliError (IndexDocuments * (E + N)) := λ index,
  if reader_is_empty then (Ok (self, inr 0%N), index)
  else
    match enrich with
    | inl user_error => (Ok (self, inl user_error), index)
    | inr reader =>
        match Transform.read_documents reader should_abort index (transform self) with
        | (Ok (indexed_documents, index'), transform') =>
            (Ok (mkIndexDocuments transform' (deletion_strategy self)
                   (added_documents self + indexed_documents) (deleted_documents self),
                 inr indexed_documents), index')
        | (Err e, _) => (Err e, index)
        | (Panic p, _) => (Panic p, index)
        end
    end.

Definition remove_documents (to_delete : list string) (should_abort : N → bool)
    (self : IndexDocuments) : ST Index MilliError (IndexDocuments * N) := λ index,
  if decide (to_delete = []) then (Ok (self, 0%N), index)
  else
    match Transform.remove_documents to_delete should_abort index (transform self) with
    | (Ok deleted, transform') =>
        (Ok (mkIndexDocuments transform' (deletion_strategy self) (added_documents self)
               (deleted_documents self + deleted), deleted), index)
    | (Err e, _) => (Err e, index)
    | (Panic p, _) => (Panic p, index)
    end.

(** [execute_raw]; [aborted] is the answer of [should_abort] while the chunks are
    written. *)
Definition execute_raw (strategy : DeletionStrategy) (size_used : N) (aborted : bool)
    (output : TransformOutput) : ST Index MilliError N :=
  _ ← st_modify (put_fields_ids_map (out_fields_ids_map output));
  _ ← if decide (out_replaced_documents_ids output = ∅) then mret (0%N, 0%N)
      else delete_documents strategy size_used (out_replaced_documents_ids output);
  index ← st_get;
  let index_documents_ids := documents_ids index in
  if aborted then st_lift (Err AbortedIndexation)
  else
    _ ← st_modify (λ index, put_documents
      (foldl (λ d '(docid, obkv), <[docid := obkv]> d) (documents index)
        (original_documents output)) index);
    _ ← st_modify (put_field_distribution (out_field_distribution output));
    _ ← st_modify (put_primary_key (out_primary_key output));
    _ ← st_modify (λ index, put_external_documents_ids
      (DocumentsIds.insert_ids (external_documents_ids index)
        (new_external_documents_ids output)) index);
    let all_documents_ids := index_documents_ids ∪ out_new_documents_ids output in
    _ ← st_modify (put_documents_ids all_documents_ids);
    mret (N.of_nat (size all_documents_ids)).

(** [execute]: the numbers of indexed documents and of all documents. *)
Definition execute (size_used : N) (aborted : bool) (self : IndexDocuments) :
    ST Index MilliError (N * N) :=
  index ← st_get;
  if decide (added_documents self = 0%N) then mret (0%N, number_of_documents index)
  else
    output ← st_lift (output_from_sorter (transform self) index);
    number_of_documents ← execute_raw (deletion_strategy self) size_used aborted output;
    mret (out_documents_count output, number_of_documents).
End definitions.

(** ** What a deletion does *)
Section deletion.
Context {O : Obkv} {OL : ObkvLaws O}.
Context {Number : Type} {J : SerdeJson Number} {JL : SerdeJsonLaws J}.

(** The index without some documents. *)
Record deleted (index index' : Index) (ids : gset DocumentId) : Prop := {
  dl_ids : documents_ids index' = documents_ids index ∖ ids;
  dl_soft : soft_deleted_documents_ids index' ⊆ soft_deleted_documents_ids index ∪ ids;
  dl_docid e : docid_of index' e =
    (d ← docid_of index e; if decide (d ∈ ids) then None else Some d);
  dl_documents d : d ∈ documents_ids index' → documents index' !! d = documents index !! d;
  dl_fields : index_fields_ids_map index' = index_fields_ids_map index;
  dl_primary_key : index_primary_key index' = index_primary_key index;
  dl_external : DocumentsIds.external_ok (external_documents_ids index')
}.

Lemma deleted_ok index index' ids :
  index_ok index → ids ⊆ documents_ids index → deleted index index' ids → index_ok index'.
Proof.
  intros [Hwf Hext Hknown Hnamed Hinj Hdisj Hu32 Hdocs] Hsub [Hids Hsoft Hid Hd Hf Hpk Hext'].
  assert (∀ e d, docid_of index' e = Some d → docid_of index e = Some d ∧ d ∉ ids) as Hback.
  { intros e d. rewrite Hid. destruct (docid_of index e) as [d'|]; [|done]. cbn.
    destruct (decide (d' ∈ ids)); [done|]. naive_solver. }
  split.
  - by rewrite Hf.
  - done.
  - intros e d [He Hno]%Hback. rewrite Hids. apply elem_of_difference. eauto.
  - rewrite Hids. intros d [Hin Hno]%elem_of_difference. destruct (Hnamed d Hin) as [e He].
    exists e. rewrite Hid, He. cbn. by rewrite decide_False.
  - intros e e' d [He _]%Hback [He' _]%Hback. by apply (Hinj e e' d).
  - rewrite Hids. set_solver.
  - rewrite Hids. intros d Hin. apply Hu32. set_solver.
  - intros d Hin. rewrite Hf, Hd by done. apply Hdocs. set_solver.
Qed.

Lemma docs_of_agree index index' ids :
  (∀ d, d ∈ ids → documents index' !! d = documents index !! d) →
  docs_of index' ids = docs_of index ids.
Proof.
  intros Hall. unfold docs_of.
  assert (∀ d, d ∈ elements ids → documents index' !! d = documents index !! d) as Hel
    by (intros d Hd%elem_of_elements; auto).
  induction (elements ids) as [|d l IH]; [done|].
  cbn [omap list_omap]. rewrite Hel by left. rewrite IH; [done|]. intros d' Hd'. apply Hel. by right.
Qed.

(** What remains has the same documents. *)
Lemma deleted_docs index index' ids :
  deleted index index' ids → docs_of index' (documents_ids index') = docs_of index (documents_ids index').
Proof. intros Hdel. apply docs_of_agree, (dl_documents _ _ _ Hdel). Qed.

Lemma total_split index ids nm :
  ids ⊆ documents_ids index →
  total (index_fields_ids_map index) (docs_of index (documents_ids index)) nm =
    (total (index_fields_ids_map index) (docs_of index (documents_ids index ∖ ids)) nm +
     total (index_fields_ids_map index) (docs_of index ids) nm)%N.
Proof.
  intros Hsub. rewrite <- total_app. apply total_perm.
  rewrite <- docs_of_union by set_solver.
  assert (documents_ids index = documents_ids index ∖ ids ∪ ids) as <-; [|done].
  apply set_eq. intros d. rewrite elem_of_union, elem_of_difference.
  destruct (decide (d ∈ ids)); set_solver.
Qed.

Lemma forget_deleted_field_Ok m k nm dist cnt :
  FieldsIdsMap.name k m = Some nm → dist_rep dist cnt →
  ∃ dist', forget_deleted_field m k dist = Ok dist' ∧
    dist_rep dist' (λ x, if decide (x = nm) then (cnt x - 1)%N else cnt x).
Proof.
  intros Hnm Hdist. unfold forget_deleted_field. rewrite Hnm. cbn [ok_or mbind outcome_bind].
  rewrite (Hdist nm). destruct (decide (cnt nm = 0%N)) as [Hz|Hz].
  - exists dist. split; [done|]. eapply dist_rep_ext; [|exact Hdist]. intros x. cbn beta.
    destruct (decide (x = nm)) as [->|]; lia.
  - destruct (N.leb_spec (cnt nm) 1) as [Hle|Hgt]; eexists; split; [done| |done|];
      intros x; destruct (decide (x = nm)) as [->|Hne].
    + rewrite lookup_delete_eq, decide_True by lia. done.
    + by rewrite lookup_delete_ne.
    + rewrite lookup_insert_eq, decide_False by lia. done.
    + by rewrite lookup_insert_ne.
Qed.

Lemma forget_deleted_documents_Ok index docids dist cnt docs :
  FieldsIdsMap.well_formed (index_fields_ids_map index) →
  (λ d, documents index !! d) <$> docids = Some <$> docs →
  Forall (doc_ok (index_fields_ids_map index)) docs → dist_rep dist cnt →
  ∃ dist', forget_deleted_documents index docids dist = Ok dist' ∧
    dist_rep dist' (λ nm, cnt nm - total (index_fields_ids_map index) docs nm)%N.
Proof.
  intros Hwf. set (m := index_fields_ids_map index). revert docs dist cnt.
  induction docids as [|d docids IH]; intros docs dist cnt Hdocs Hok Hdist.
  - destruct docs; [|done]. exists dist. split; [done|].
    eapply dist_rep_ext; [|exact Hdist]. intros nm. cbn beta.
    change (total m _ nm) with 0%N. lia.
  - destruct docs as [|o docs]; [done|]. rewrite !fmap_cons in Hdocs.
    injection Hdocs as Hd Hdocs. apply Forall_cons in Hok as [Ho Hok].
    cbn [forget_deleted_documents]. rewrite Hd. cbn [ok_or mbind outcome_bind]. fold m.
    destruct (names_of_doc m o Hwf Ho) as (Hnd & Hknown & Hnames).
    destruct (over_fields_Ok m (forget_deleted_field m) (λ c, c - 1)%N (λ _, True)
      (kv_iter o) dist cnt) as (dist1 & -> & Hrep1); try done.
    { intros k nm dist' cnt' Hnm Hrep _. by apply forget_deleted_field_Ok. }
    cbn [mbind outcome_bind]. destruct (IH docs dist1 _ Hdocs Hok Hrep1) as (dist' & -> & Hrep').
    exists dist'. split; [done|]. eapply dist_rep_ext; [|exact Hrep'].
    intros nm. cbn beta. rewrite total_cons.
    destruct (decide (nm ∈ _)) as [Hin%Hnames|Hin]; [rewrite decide_True by done; lia|].
    rewrite decide_False by (by rewrite <- Hnames). lia.
Qed.

(** The documents of known ids, in the order of the ids. *)
Lemma docs_of_lookup index ids :
  index_ok index → ids ⊆ documents_ids index →
  ∃ docs, (λ d, documents index !! d) <$> bitmap_iter ids = Some <$> docs ∧
    docs ≡ₚ docs_of index ids.
Proof.
  intros Hindex Hsub. exists (omap (λ d, documents index !! d) (bitmap_iter ids)).
  unfold bitmap_iter. split.
  - apply omap_Some. intros d Hd. rewrite merge_sort_Permutation, elem_of_elements in Hd.
    destruct (ix_documents _ Hindex d (Hsub d Hd)) as (o & Ho & _). by exists o.
  - apply omap_Permutation, merge_sort_Permutation.
Qed.

Lemma clear_documents_spec index index' ids :
  (∀ d, d ∈ documents_ids index → d ∈ ids) → index_ok index →
  index_fields_ids_map index' = index_fields_ids_map index →
  index_primary_key index' = index_primary_key index →
  match clear_documents index' with
  | (Ok n, index'') =>
      n = N.of_nat (size (documents_ids index')) ∧ deleted index index'' ids ∧ dist_ok index''
  | _ => False
  end.
Proof.
  intros Hids Hindex Hf Hpk. cbn. split; [done|]. split.
  - split; try done; cbn.
    + symmetry. apply set_eq. set_solver.
    + intros e. change (docid_of _ e) with (@None DocumentId) at 1.
      destruct (docid_of index e) as [d|] eqn:He; [|done]. cbn.
      apply (ix_known _ Hindex), Hids in He. by rewrite decide_True.
  - intros nm. cbn. rewrite lookup_empty. done.
Qed.

(** The index once the distribution and the soft deleted documents are
    written. *)
Definition softly_deleted (index : Index) (ids : gset DocumentId) (dist : gmap string N) : Index :=
  put_soft_deleted_documents_ids (soft_deleted_documents_ids index ∪ ids)
    (put_field_distribution dist (put_documents_ids (documents_ids index ∖ ids) index)).

Lemma soft_docid index ids dist e :
  docid_of (softly_deleted index ids dist) e =
    (d ← docid_of index e; if decide (d ∈ ids) then None else Some d).
Proof.
  unfold docid_of, DocumentsIds.lookup.
  change (soft_deleted_documents_ids (softly_deleted index ids dist))
    with (soft_deleted_documents_ids index ∪ ids).
  change (DocumentsIds.union_last (DocumentsIds.hard _) (DocumentsIds.soft _))
    with (DocumentsIds.union_last (hard_external_documents_ids index)
      (soft_external_documents_ids index)).
  destruct (DocumentsIds.union_last (hard_external_documents_ids index)
    (soft_external_documents_ids index) !! e) as [d|]; [|done]. cbn.
  destruct (decide (d ∈ soft_deleted_documents_ids index)) as [Hin|Hin].
  - by rewrite decide_True by set_solver.
  - cbn. destruct (decide (d ∈ ids)); [by rewrite decide_True by set_solver|].
    by rewrite decide_False by set_solver.
Qed.

Lemma softly_deleted_spec index ids dist :
  index_ok index → deleted index (softly_deleted index ids dist) ids.
Proof.
  intros Hindex. split; try done; cbn.
  - apply soft_docid.
  - apply (ix_external _ Hindex).
Qed.

(** The index once the soft deleted documents are removed. *)
Definition hardly_deleted (index : Index) (ids : gset DocumentId) (dist : gmap string N) : Index :=
  let index := softly_deleted index ids dist in
  put_soft_deleted_documents_ids ∅
    (put_external_documents_ids
       (DocumentsIds.delete_soft_deleted_documents_ids_from_fsts (external_documents_ids index))
       (put_documents
          (filter (λ kv, kv.1 ∉ soft_deleted_documents_ids index) (documents index)) index)).

Lemma hardly_deleted_spec index ids dist :
  index_ok index → deleted index (hardly_deleted index ids dist) ids.
Proof.
  intros Hindex. pose proof (ix_external _ Hindex) as Hext.
  assert (DocumentsIds.external_ok (external_documents_ids (softly_deleted index ids dist)))
    as Hext' by done.
  split; try done.
  - intros e. destruct (DocumentsIds.delete_soft_deleted_lookup _ e Hext') as [_ Hl].
    etrans; [exact Hl|]. apply soft_docid.
  - intros d Hd. cbn in Hd |- *. apply elem_of_difference in Hd as [Hd Hno].
    destruct (ix_documents _ Hindex d Hd) as (o & Ho & _). rewrite Ho.
    apply map_lookup_filter_Some_2; [done|]. cbn.
    pose proof (ix_disjoint _ Hindex). set_solver.
  - destruct (DocumentsIds.delete_soft_deleted_ok _ Hext'). split; [done|].
    cbn. intros e id. by rewrite lookup_empty.
Qed.

Lemma deleted_dist_ok index index' ids :
  index_ok index → ids ⊆ documents_ids index → deleted index index' ids →
  dist_rep (index_field_distribution index') (λ nm,
    total (index_fields_ids_map index) (docs_of index (documents_ids index)) nm -
    total (index_fields_ids_map index) (docs_of index ids) nm)%N →
  dist_ok index'.
Proof.
  intros Hindex Hsub Hdel Hrep. unfold dist_ok. eapply dist_rep_ext; [|exact Hrep].
  intros nm. cbn beta. rewrite (dl_fields _ _ _ Hdel), (deleted_docs _ _ _ Hdel).
  rewrite (dl_ids _ _ _ Hdel), (total_split index ids) by done. lia.
Qed.

(** Deleting documents never fails, deletes these documents, and keeps the
    distribution exact. *)
Lemma delete_documents_spec strategy size_used ids index :
  index_ok index → dist_ok index → ids ⊆ documents_ids index →
  match delete_documents strategy size_used ids index with
  | (Ok _, index') => deleted index index' ids ∧ dist_ok index'
  | _ => False
  end.
Proof.
  intros Hindex Hdist Hsub. unfold delete_documents, mbind, st_bind, st_get, st_modify.
  destruct (decide (documents_ids index = ∅)) as [He|Hne].
  - assert (deleted index index ids ∧ dist_ok index) as Hsame.
    { split; [|done]. split; try done; [set_solver|set_solver| |apply Hindex].
      intros e. destruct (docid_of index e) as [d|] eqn:Hd; [|done].
      apply (ix_known _ Hindex) in Hd. set_solver. }
    destruct (decide (soft_deleted_documents_ids index = ∅)); [done|].
    pose proof (clear_documents_spec index index ids) as Hclear.
    destruct (clear_documents index) as [[]]; apply Hclear; set_solver.
  - destruct (decide (size (documents_ids index) = size ids)) as [Hsize|Hsize].
    + pose proof (clear_documents_spec index (put_documents_ids (documents_ids index ∖ ids) index) ids)
        as Hclear.
      assert (ids = documents_ids index) as Hids by (apply set_subseteq_size_eq; [done|lia]).
      destruct (clear_documents _) as [[]]; apply Hclear; try done; by rewrite Hids.
    + destruct (docs_of_lookup index ids Hindex Hsub) as (docs & Hdocs & Hperm).
      destruct (forget_deleted_documents_Ok index (bitmap_iter ids) (index_field_distribution index)
        (total (index_fields_ids_map index) (docs_of index (documents_ids index)))
        docs (ix_wf _ Hindex) Hdocs) as (dist & Hforget & Hrep); [|exact Hdist|].
      { rewrite Hperm. by apply docs_of_ok. }
      unfold st_lift. rewrite Hforget.
      match goal with |- context [soft_deletion ?a ?b ?c ?d] => destruct (soft_deletion a b c d) end.
      * pose proof (softly_deleted_spec index ids dist Hindex) as Hdel. split; [exact Hdel|].
        eapply deleted_dist_ok; [done|done|exact Hdel|]. cbn.
        eapply dist_rep_ext; [|exact Hrep]. intros nm. cbn beta. by rewrite (total_perm _ _ _ _ Hperm).
      * pose proof (hardly_deleted_spec index ids dist Hindex) as Hdel. split; [exact Hdel|].
        eapply deleted_dist_ok; [done|done|exact Hdel|]. cbn.
        eapply dist_rep_ext; [|exact Hrep]. intros nm. cbn beta. by rewrite (total_perm _ _ _ _ Hperm).
Qed.
End deletion.

(** ** What an execution does *)
Section execution.
Context {O : Obkv} {OL : ObkvLaws O}.
Context {Number : Type} {J : SerdeJson Number} {JL : SerdeJsonLaws J}.
Context {S : SortById} {M : MergeJoin} {G : Sorter O}.

(** The document of a user's id in the databases. *)
Definition index_view (index : Index) : View := λ e,
  d ← docid_of index e;
  doc_fields (index_fields_ids_map index) <$> documents index !! d.

(** The output of a transform holds the documents that the update left under
    new ids, and the exact distribution. *)
Record output_ok (index : Index) (self : Transform) (output : TransformOutput) : Prop := {
  oo_primary_key : Some (out_primary_key output) = index_primary_key index;
  oo_fields : out_fields_ids_map output = fields_ids_map self;
  oo_external : new_external_documents_ids output = new_external_documents_ids_builder self;
  oo_new : out_new_documents_ids output = new_documents_ids self;
  oo_replaced : out_replaced_documents_ids output = replaced_documents_ids self;
  oo_count : out_documents_count output = documents_count self;
  oo_NoDup : NoDup (original_documents output).*1;
  oo_keys n : n ∈ (original_documents output).*1 ↔ n ∈ new_documents_ids self;
  oo_documents e n o : new_external_documents_ids_builder self !! e = Some n →
    (n, o) ∈ original_documents output →
    current index self e = Some (content o) ∧ doc_ok (fields_ids_map self) o;
  oo_dist : dist_rep (out_field_distribution output) (λ nm,
    total (fields_ids_map self) (docs_of index (documents_ids index ∖ replaced_documents_ids self)) nm +
    total (fields_ids_map self) (original_documents output).*2 nm)%N
}.

Lemma keys_u32_length (l : list (DocumentId * kv)) :
  NoDup l.*1 → (∀ n, n ∈ l.*1 → (n ≤ u32_max)%N) → (N.of_nat (length l) ≤ u32_max + 1)%N.
Proof.
  intros Hnd Hu32. rewrite <- (length_fmap fst), <- (size_list_to_set (C := gset DocumentId)) by done.
  apply size_u32. intros d Hd%elem_of_list_to_set. by apply Hu32.
Qed.

Lemma docs_of_length index ids :
  length (docs_of index ids) ≤ size ids.
Proof. unfold docs_of, size, set_size. cbn. induction (elements ids); cbn; [lia|]. case_match; cbn; lia. Qed.

Lemma replaced_known index self :
  index_ok index → tr_inv index self → replaced_documents_ids self ⊆ documents_ids index.
Proof.
  intros Hindex Hinv d Hd. destruct (ti_replaced_ids _ _ Hinv d Hd) as [e He].
  by apply (ix_known _ Hindex e).
Qed.

Lemma flattened_stream index self :
  tr_inv index self →
  ∃ out, into_stream (merge_function (index_documents_method self)) (flattened_sorter self) = Ok out.
Proof.
  intros Hinv. destruct (into_stream_Ok (merge_function (index_documents_method self)) version_ok
    (flattened_sorter self)) as (out & Hout & _); [apply merge_function_Ok| |by exists out].
  eapply Forall_impl; [apply (ti_flattened _ _ Hinv)|]. by intros x [Hx _].
Qed.

Lemma total_small index ids m nm :
  index_ok index → ids ⊆ documents_ids index →
  (total m (docs_of index ids) nm ≤ u32_max + 1)%N.
Proof.
  intros Hindex Hids. etrans; [apply total_le|]. pose proof (docs_of_length index ids).
  etrans; [|apply (size_u32 ids)]; [lia|]. intros d Hd. apply (ix_u32 _ Hindex). set_solver.
Qed.

(** The replaced documents leave the distribution. *)
Lemma forgotten_distribution index self :
  index_ok index → dist_ok index → tr_inv index self →
  index_fields_ids_map index = fields_ids_map self →
  ∃ dist, remove_deleted_documents_from_field_distribution index self
      (bitmap_iter (replaced_documents_ids self)) (index_field_distribution index) = Ok dist ∧
    dist_rep dist (total (fields_ids_map self)
      (docs_of index (documents_ids index ∖ replaced_documents_ids self))).
Proof.
  intros Hindex Hdist Hinv Hfields. pose proof (replaced_known _ _ Hindex Hinv) as Hsub.
  destruct (docs_of_lookup index _ Hindex Hsub) as (docs & Hdocs & Hperm).
  pose proof (λ nm, total_split index (replaced_documents_ids self) nm Hsub) as Hsplit.
  unfold dist_ok in Hdist. rewrite Hfields in Hdist, Hsplit.
  destruct (remove_deleted_Ok (fields_ids_map self) index self
    (bitmap_iter (replaced_documents_ids self)) (index_field_distribution index)
    (total (fields_ids_map self) (docs_of index (documents_ids index))) docs
    eq_refl (ti_wf _ _ Hinv) Hdocs) as (dist & Hd & Hrep); [|exact Hdist|..].
  - rewrite Hperm, <- Hfields. by apply docs_of_ok.
  - intros nm. rewrite Hsplit, (total_perm _ docs _ _ Hperm). lia.
  - intros nm. eapply N.le_lt_trans; [by apply total_small|]. done.
  - exists dist. split; [done|]. eapply dist_rep_ext; [|exact Hrep]. intros nm. cbn beta.
    rewrite Hsplit, (total_perm _ docs _ _ Hperm). lia.
Qed.

(** The new documents enter it. *)
Lemma counted_distribution index self (l : list (DocumentId * kv)) dist :
  index_ok index → tr_inv index self → NoDup l.*1 →
  (∀ n, n ∈ l.*1 → (n ≤ u32_max)%N) → Forall (doc_ok (fields_ids_map self)) l.*2 →
  dist_rep dist (total (fields_ids_map self)
    (docs_of index (documents_ids index ∖ replaced_documents_ids self))) →
  ∃ dist', count_documents (fields_ids_map self) l dist = Ok dist' ∧
    dist_rep dist' (λ nm, total (fields_ids_map self)
      (docs_of index (documents_ids index ∖ replaced_documents_ids self)) nm +
      total (fields_ids_map self) l.*2 nm)%N.
Proof.
  intros Hindex Hinv Hnd Hu32 Hok Hrep. apply count_documents_Ok; [apply (ti_wf _ _ Hinv)|done|done|].
  intros nm. pose proof (keys_u32_length l Hnd Hu32).
  pose proof (total_small index (documents_ids index ∖ replaced_documents_ids self)
    (fields_ids_map self) nm Hindex ltac:(set_solver)). unfold u32_max, u64_size in *. lia.
Qed.

Lemma output_from_sorter_spec index self :
  index_ok index → dist_ok index → tr_inv index self → is_Some (index_primary_key index) →
  index_fields_ids_map index = fields_ids_map self →
  ∃ output, output_from_sorter self index = Ok output ∧ output_ok index self output.
Proof.
  intros Hindex Hdist Hinv [pk Hpk] Hfields.
  destruct (forgotten_distribution index self) as (dist1 & Hd1 & Hrep1); [done..|].
  destruct (original_stream index self Hinv) as (out & Hout & Hsorted & Hkeys & Hcur).
  destruct (flattened_stream index self Hinv) as [flat Hflat].
  assert (∀ e n o, new_external_documents_ids_builder self !! e = Some n → (n, o) ∈ additions out →
    current index self e = Some (content o) ∧ doc_ok (fields_ids_map self) o) as Hdoc.
  { intros e n o He Hin. destruct (Hcur e n He o Hin) as [Hc Ho]. split; [done|].
    split; [done|]. by apply (current_ok index self e). }
  assert (∀ n, n ∈ (additions out).*1 → ∃ e, new_external_documents_ids_builder self !! e = Some n)
    as Hnamed by (intros n Hn%Hkeys; by apply (ti_new _ _ Hinv)).
  destruct (counted_distribution index self (additions out) dist1) as (dist & Hd & Hrep); try done.
  { by apply sorted_NoDup. }
  { intros n Hn. destruct (Hnamed n Hn) as [e He]. by apply (ti_builder _ _ Hinv e n). }
  { apply Forall_fmap, Forall_forall. intros [n o] Hin. cbn.
    destruct (Hnamed n) as [e He]; [by apply (list_elem_of_fmap_2 fst) in Hin|].
    by apply (Hdoc e n o). }
  eexists. split.
  - unfold output_from_sorter. rewrite Hpk. cbn [ok_or mbind outcome_bind]. rewrite Hd1.
    cbn [mbind outcome_bind]. rewrite Hout. cbn [mbind outcome_bind]. rewrite Hd.
    cbn [mbind outcome_bind]. rewrite Hflat. done.
  - split; try done; cbn. by apply sorted_NoDup.
Qed.

Lemma foldl_insert_known (l : list (DocumentId * kv)) (base : gmap DocumentId kv) n o :
  NoDup l.*1 → (n, o) ∈ l →
  foldl (λ d '(docid, obkv), <[docid := obkv]> d) base l !! n = Some o.
Proof.
  induction l as [|[k o'] l IH] using rev_ind; [set_solver|].
  rewrite fmap_app, NoDup_app, foldl_app. intros (Hnd & Hno & _) [Hin|Heq]%elem_of_app; cbn.
  - rewrite lookup_insert_ne; [by apply IH|]. intros ->.
    apply (Hno n); [by apply (list_elem_of_fmap_2 fst) in Hin|left].
  - apply list_elem_of_singleton in Heq as [= -> ->]. apply lookup_insert_eq.
Qed.

Lemma foldl_insert_other (l : list (DocumentId * kv)) (base : gmap DocumentId kv) n :
  n ∉ l.*1 → foldl (λ d '(docid, obkv), <[docid := obkv]> d) base l !! n = base !! n.
Proof.
  revert base. induction l as [|[k o] l IH]; intros base Hn; [done|]. rewrite fmap_cons in Hn.
  cbn. rewrite IH by set_solver. apply lookup_insert_ne. set_solver.
Qed.

(** The index once the output is written. *)
Definition put_output (output : TransformOutput) (index : Index) : Index :=
  put_documents_ids (documents_ids index ∪ out_new_documents_ids output)
    (put_external_documents_ids
       (DocumentsIds.insert_ids (external_documents_ids index) (new_external_documents_ids output))
       (put_primary_key (out_primary_key output)
          (put_field_distribution (out_field_distribution output)
             (put_documents
                (foldl (λ d '(docid, obkv), <[docid := obkv]> d) (documents index)
                   (original_documents output)) index)))).

Section put.
Context (index index2 : Index) (self : Transform) (output : TransformOutput).
Context (Hindex : index_ok index) (Hinv : tr_inv index self).
Context (Hfields : index_fields_ids_map index = fields_ids_map self).
Context (Hout : output_ok index self output).
Context (Hdel : deleted index index2 (replaced_documents_ids self)).

Lemma new_id_fresh e n :
  new_external_documents_ids_builder self !! e = Some n →
  (n ≤ u32_max)%N ∧ (n ∉ documents_ids index2) ∧ (n ∉ soft_deleted_documents_ids index2).
Proof.
  intros He. destruct (ti_builder _ _ Hinv e n He) as (Hu & Hno & _).
  pose proof (replaced_known _ _ Hindex Hinv). pose proof (dl_soft _ _ _ Hdel).
  rewrite (dl_ids _ _ _ Hdel). set_solver.
Qed.

Lemma put_docid e :
  docid_of (put_output output index2) e =
    match new_external_documents_ids_builder self !! e with
    | Some n => Some n
    | None => docid_of index2 e
    end.
Proof.
  destruct (DocumentsIds.insert_ids_spec (external_documents_ids index2)
    (new_external_documents_ids output) (dl_external _ _ _ Hdel)) as (_ & Hsoft & Hl).
  { rewrite (oo_external _ _ _ Hout). intros e' n He'. by apply (new_id_fresh e'). }
  specialize (Hl e). rewrite (oo_external _ _ _ Hout) in Hl, Hsoft.
  unfold docid_of, put_output. rewrite (oo_external _ _ _ Hout).
  destruct (DocumentsIds.insert_ids _ _) as [h s sd]. cbn in Hsoft. subst sd.
  etrans; [exact Hl|]. destruct (new_external_documents_ids_builder self !! e) as [n|] eqn:He; [|done].
  rewrite decide_False; [done|]. by apply (new_id_fresh e).
Qed.

Lemma put_external : DocumentsIds.external_ok (external_documents_ids (put_output output index2)).
Proof.
  destruct (DocumentsIds.insert_ids_spec (external_documents_ids index2)
    (new_external_documents_ids output) (dl_external _ _ _ Hdel)) as ([Hh Hs] & _).
  { rewrite (oo_external _ _ _ Hout). intros e' n He'. by apply (new_id_fresh e'). }
  by split.
Qed.

Lemma new_document n :
  n ∈ new_documents_ids self →
  ∃ e o, new_external_documents_ids_builder self !! e = Some n ∧
    (n, o) ∈ original_documents output ∧ documents (put_output output index2) !! n = Some o ∧
    current index self e = Some (content o) ∧ doc_ok (fields_ids_map self) o.
Proof.
  intros Hn. destruct (ti_new _ _ Hinv n Hn) as [e He]. exists e.
  apply (oo_keys _ _ _ Hout) in Hn. apply list_elem_of_fmap in Hn as ([n' o] & -> & Hin).
  cbn [fst] in *. exists o. destruct (oo_documents _ _ _ Hout e n' o He Hin) as [Hc Ho].
  split_and!; try done. apply foldl_insert_known; [apply (oo_NoDup _ _ _ Hout)|done].
Qed.

Lemma kept_document d :
  d ∈ documents_ids index2 →
  (d ∉ new_documents_ids self) ∧
  documents (put_output output index2) !! d = documents index !! d.
Proof.
  intros Hd. assert (d ∉ new_documents_ids self) as Hno.
  { intros Hn. destruct (ti_new _ _ Hinv d Hn) as [e He].
    by destruct (new_id_fresh e d He) as (_ & ? & _). }
  split; [done|]. rewrite <- (dl_documents _ _ _ Hdel d Hd). apply foldl_insert_other.
  by rewrite (oo_keys _ _ _ Hout).
Qed.

Lemma put_named d :
  d ∈ documents_ids index2 → ∃ e, docid_of (put_output output index2) e = Some d.
Proof.
  intros Hd. pose proof (replaced_known _ _ Hindex Hinv) as Hsub.
  pose proof (deleted_ok _ _ _ Hindex Hsub Hdel) as Hindex2.
  destruct (ix_named _ Hindex2 d Hd) as [e He]. exists e. rewrite put_docid.
  destruct (new_external_documents_ids_builder self !! e) as [n|] eqn:Hn; [|done].
  rewrite (dl_docid _ _ _ Hdel) in He. destruct (docid_of index e) as [d'|] eqn:Hd'; [|done].
  cbn in He. rewrite decide_True in He; [done|]. by apply (ti_replaced _ _ Hinv e n).
Qed.

Lemma put_output_ok : index_ok (put_output output index2).
Proof.
  pose proof (replaced_known _ _ Hindex Hinv) as Hsub.
  pose proof (deleted_ok _ _ _ Hindex Hsub Hdel) as Hindex2.
  assert (index_fields_ids_map (put_output output index2) = fields_ids_map self) as Hf
    by (etrans; [apply (dl_fields _ _ _ Hdel)|done]).
  assert (documents_ids (put_output output index2) =
    documents_ids index2 ∪ new_documents_ids self) as Hids
    by (cbn; by rewrite (oo_new _ _ _ Hout)).
  split.
  - rewrite Hf. apply (ti_wf _ _ Hinv).
  - apply put_external.
  - intros e d. rewrite put_docid, Hids.
    destruct (new_external_documents_ids_builder self !! e) as [n|] eqn:He.
    + intros [= <-]. destruct (ti_builder _ _ Hinv e n He) as (_ & _ & _ & _ & Hn). set_solver.
    + intros Hd%(ix_known _ Hindex2). set_solver.
  - rewrite Hids. intros d [Hd|Hd]%elem_of_union; [by apply put_named|].
    destruct (ti_new _ _ Hinv d Hd) as [e He]. exists e. by rewrite put_docid, He.
  - intros e e' d. rewrite !put_docid.
    destruct (new_external_documents_ids_builder self !! e) as [n|] eqn:He,
      (new_external_documents_ids_builder self !! e') as [n'|] eqn:He'.
    + intros [= ->] [= ->]. by apply (ti_inj _ _ Hinv e e' d).
    + intros [= ->] Hd%(ix_known _ Hindex2). by destruct (new_id_fresh e d He) as (_ & ? & _).
    + intros Hd%(ix_known _ Hindex2) [= ->]. by destruct (new_id_fresh e' d He') as (_ & ? & _).
    + apply (ix_inj _ Hindex2).
  - rewrite Hids. change (soft_deleted_documents_ids (put_output output index2))
      with (soft_deleted_documents_ids index2).
    pose proof (ix_disjoint _ Hindex2). apply disjoint_union_l. split; [done|].
    intros n Hn. destruct (ti_new _ _ Hinv n Hn) as [e He]. by apply (new_id_fresh e).
  - rewrite Hids. change (soft_deleted_documents_ids (put_output output index2))
      with (soft_deleted_documents_ids index2).
    intros d Hd. destruct (decide (d ∈ new_documents_ids self)) as [Hn|Hn].
    + destruct (ti_new _ _ Hinv d Hn) as [e He]. by apply (new_id_fresh e).
    + apply (ix_u32 _ Hindex2). set_solver.
  - rewrite Hids, Hf. intros d [Hd|Hd]%elem_of_union.
    + destruct (kept_document d Hd) as [_ ->]. rewrite <- Hfields.
      apply (ix_documents _ Hindex). rewrite (dl_ids _ _ _ Hdel) in Hd. set_solver.
    + destruct (new_document d Hd) as (e & o & _ & _ & Ho & _ & Hok). by exists o.
Qed.

(** The documents of the index are those of the view. *)
Lemma put_output_view e : index_view (put_output output index2) e = view index self e.
Proof.
  assert (index_fields_ids_map (put_output output index2) = fields_ids_map self) as Hf
    by (etrans; [apply (dl_fields _ _ _ Hdel)|done]).
  unfold index_view, view, current. rewrite put_docid, Hf.
  destruct (new_external_documents_ids_builder self !! e) as [n|] eqn:He.
  - destruct (ti_builder _ _ Hinv e n He) as (_ & _ & _ & _ & Hn).
    destruct (new_document n Hn) as (e' & o & He' & _ & Ho & Hc & _).
    assert (e' = e) as -> by by apply (ti_inj _ _ Hinv e' e n).
    cbn [mbind option_bind]. rewrite Ho. unfold current in Hc. rewrite He in Hc. by rewrite Hc.
  - rewrite (dl_docid _ _ _ Hdel). destruct (docid_of index e) as [d|] eqn:Hd; [|done].
    cbn [mbind option_bind]. destruct (decide (d ∈ replaced_documents_ids self)) as [Hr|Hr]; [done|].
    cbn [mbind option_bind]. destruct (kept_document d) as [_ ->].
    { rewrite (dl_ids _ _ _ Hdel). apply (ix_known _ Hindex) in Hd. set_solver. }
    by destruct (documents index !! d).
Qed.

Lemma put_output_docs :
  docs_of (put_output output index2) (documents_ids (put_output output index2)) ≡ₚ
  docs_of index (documents_ids index ∖ replaced_documents_ids self) ++ (original_documents output).*2.
Proof.
  change (documents_ids (put_output output index2))
    with (documents_ids index2 ∪ out_new_documents_ids output).
  rewrite (oo_new _ _ _ Hout), docs_of_union.
  - rewrite (docs_of_agree index), (dl_ids _ _ _ Hdel); [|intros d Hd; by apply kept_document].
    apply Permutation_app_head. unfold docs_of.
    assert (elements (new_documents_ids self) ≡ₚ (original_documents output).*1) as ->.
    { apply NoDup_Permutation; [apply NoDup_elements|apply (oo_NoDup _ _ _ Hout)|].
      intros n. by rewrite elem_of_elements, (oo_keys _ _ _ Hout). }
    assert (∀ n o, (n, o) ∈ original_documents output →
      documents (put_output output index2) !! n = Some o) as Hall.
    { intros n o Hin. apply foldl_insert_known; [apply (oo_NoDup _ _ _ Hout)|done]. }
    induction (original_documents output) as [|[n o] l IH]; [done|].
    rewrite !fmap_cons. cbn [omap list_omap fst snd]. rewrite (Hall n o) by left.
    apply Permutation_skip, IH. intros n' o' Hin. apply Hall. by right.
  - intros d Hd Hn. by destruct (kept_document d Hd).
Qed.

Lemma put_output_dist : dist_ok (put_output output index2).
Proof.
  assert (index_fields_ids_map (put_output output index2) = fields_ids_map self) as Hf
    by (etrans; [apply (dl_fields _ _ _ Hdel)|done]).
  unfold dist_ok. rewrite Hf. eapply dist_rep_ext; [|exact (oo_dist _ _ _ Hout)]. intros nm. cbn beta.
  by rewrite (total_perm _ _ _ _ put_output_docs), total_app.
Qed.
End put.

Lemma execute_raw_spec index self output strategy size_used aborted :
  index_ok index → dist_ok index → tr_inv index self →
  index_fields_ids_map index = fields_ids_map self → output_ok index self output →
  match execute_raw strategy size_used aborted output index with
  | (Ok n, index') =>
      index_ok index' ∧ dist_ok index' ∧ (∀ e, index_view index' e = view index self e) ∧
      n = N.of_nat (size (documents_ids index'))
  | (Err err, _) => err = AbortedIndexation ∧ aborted = true
  | (Panic _, _) => False
  end.
Proof.
  intros Hindex Hdist Hinv Hfields Hout. unfold execute_raw, mbind, st_bind, st_modify, st_get.
  assert (put_fields_ids_map (out_fields_ids_map output) index = index) as ->.
  { rewrite (oo_fields _ _ _ Hout), <- Hfields. by destruct index. }
  rewrite (oo_replaced _ _ _ Hout).
  set (deletion := if decide (replaced_documents_ids self = ∅) then mret (0%N, 0%N) else _).
  assert (match deletion index with
    | (Ok _, index2) => deleted index index2 (replaced_documents_ids self) ∧ dist_ok index2
    | _ => False end) as Hdeletion.
  { unfold deletion. destruct (decide (replaced_documents_ids self = ∅)) as [->|Hne].
    - split; [|done]. split; try done; [set_solver|set_solver| |apply Hindex].
      intros e. by destruct (docid_of index e).
    - apply delete_documents_spec; [done|done|]. by apply replaced_known. }
  destruct (deletion index) as [[r|err|p] index2]; [|done|done]. destruct Hdeletion as [Hdel _].
  destruct aborted; [done|].
  change (match ?x with (Ok _, _) => _ | _ => _ end) with
    (let index' := put_output output index2 in
     index_ok index' ∧ dist_ok index' ∧ (∀ e, index_view index' e = view index self e) ∧
     N.of_nat (size (documents_ids index')) = N.of_nat (size (documents_ids index'))).
  split_and!; [by eapply put_output_ok|by eapply put_output_dist|by apply put_output_view|done].
Qed.

(** ** A whole update *)

(** A call on the builder. *)
Inductive BuilderCall :=
| Add (reader_is_empty : bool) (enrich : MilliError + EnrichedBatch)
| Remove (to_delete : list string).

Definition call (should_abort : N → bool) (c : BuilderCall) (self : IndexDocuments) :
    ST Index MilliError IndexDocuments :=
  match c with
  | Add reader_is_empty enrich =>
      '(self, _) ← add_documents reader_is_empty enrich should_abort self; mret self
  | Remove to_delete =>
      '(self, _) ← remove_documents to_delete should_abort self; mret self
  end.

Fixpoint calls (should_abort : N → bool) (l : list BuilderCall) (self : IndexDocuments) :
    ST Index MilliError IndexDocuments :=
  match l with
  | [] => mret self
  | c :: l => self ← call should_abort c self; calls should_abort l self
  end.

(** The update: a new builder, its calls and the execution. *)
Definition update (method : IndexDocumentsMethod) (strategy : DeletionStrategy) (size_used : N)
    (should_abort : N → bool) (aborted : bool) (l : list BuilderCall) :
    ST Index MilliError (N * N) :=
  index ← st_get;
  builder ← calls should_abort l (new index method strategy);
  execute size_used aborted builder.

Definition call_ok (c : BuilderCall) : Prop :=
  match c with Add false (inr reader) => batch_ok reader | _ => True end.

(** What a call asks for. *)
Definition call_ops (c : BuilderCall) : list DocumentOp :=
  match c with
  | Add false (inr reader) => read_ops reader (batch_documents reader)
  | Add _ _ => []
  | Remove to_delete => RemoveDocument <$> to_delete
  end.

Definition call_count (c : BuilderCall) : N :=
  match c with
  | Add false (inr reader) => N.of_nat (length (batch_documents reader))
  | _ => 0
  end.

Definition calls_ops (l : list BuilderCall) : list DocumentOp := l ≫= call_ops.

Definition calls_count (l : list BuilderCall) : N := foldr (λ c n, call_count c + n)%N 0%N l.

Lemma new_inv index method :
  index_ok index → tr_inv index (Transform.new index method).
Proof.
  intros Hindex. split; cbn; try done.
  - apply (ix_wf _ Hindex).
  - apply extends_refl.
  - apply DocumentsIds.from_documents_ids_ok.
  - intros d Hd. apply DocumentsIds.from_documents_ids_remaining in Hd; [|apply (ix_u32 _ Hindex)].
    destruct Hd as [Hle Hno]. split_and!; [done|done|set_solver|]. intros e. by rewrite lookup_empty.
  - intros n _. by left.
  - intros n. apply deletion_last_split. by intros [|].
Qed.

Lemma new_view index method e :
  view index (Transform.new index method) e = index_view index e.
Proof.
  unfold view, current, index_view. cbn. destruct (docid_of index e) as [d|]; [|done]. cbn.
  by destruct (documents index !! d).
Qed.

Lemma with_fields_index_view index m primary_key e :
  index_ok index → FieldsIdsMap.well_formed m → extends (index_fields_ids_map index) m →
  index_view (with_fields m primary_key index) e = index_view index e.
Proof.
  intros Hindex Hwf Hext. unfold index_view.
  change (docid_of (with_fields m primary_key index) e) with (docid_of index e).
  change (documents (with_fields m primary_key index)) with (documents index).
  change (index_fields_ids_map (with_fields m primary_key index)) with m.
  destruct (docid_of index e) as [d|] eqn:Hd; [|done]. cbn [mbind option_bind].
  destruct (ix_documents _ Hindex d (ix_known _ Hindex e d Hd)) as (o & -> & _ & Ho).
  cbn. f_equal. apply fields_named_extends; try done. apply (ix_wf _ Hindex).
Qed.

Lemma with_fields_dist_ok index m primary_key :
  index_ok index → dist_ok index → FieldsIdsMap.well_formed m →
  extends (index_fields_ids_map index) m → dist_ok (with_fields m primary_key index).
Proof.
  intros Hindex Hdist Hwf Hext. unfold dist_ok.
  eapply dist_rep_ext; [|exact Hdist]. intros nm. symmetry.
  apply total_extends; [apply (ix_wf _ Hindex)|done|done|]. by apply docs_of_ok.
Qed.

(** The state of the update after some operations on the documents [v]. *)
Record builder_ok (method : IndexDocumentsMethod) (v : View) (ops : list DocumentOp)
    (count : N) (index : Index) (self : IndexDocuments) : Prop := {
  bo_index : index_ok index;
  bo_dist : dist_ok index;
  bo_inv : tr_inv index (transform self);
  bo_fields : index_fields_ids_map index = fields_ids_map (transform self);
  bo_method : index_documents_method (transform self) = method;
  bo_added : added_documents self = count;
  bo_count : documents_count (transform self) = count;
  bo_primary_key : count ≠ 0%N → is_Some (index_primary_key index);
  bo_same e : index_view index e = v e;
  bo_view e : view index (transform self) e = apply_ops method v ops e
}.

Lemma call_spec method v ops count index self should_abort c :
  builder_ok method v ops count index self → call_ok c →
  match call should_abort c self index with
  | (Ok self', index') =>
      builder_ok method v (ops ++ call_ops c) (count + call_count c) index' self'
  | (Err err, _) => read_error err
  | (Panic _, _) => False
  end.
Proof.
  intros Hb Hc.
  assert (builder_ok method v (ops ++ []) (count + 0) index self) as Hnone
    by by rewrite app_nil_r, N.add_0_r.
  destruct Hb as [Hindex Hdist Hinv Hfields Hmethod Hadded Hcount Hpk Hsame Hview].
  destruct c as [[] [err|reader]|to_delete]; cbn [call call_ops call_count]; try exact Hnone.
  - unfold mbind, st_bind, add_documents.
    pose proof (read_documents_spec index reader should_abort (transform self) Hindex Hinv Hc) as Hread.
    destruct (read_documents reader should_abort index (transform self)) as [[[n index']|err|p] tr'];
      [|done|done].
    destruct Hread as (Hindex' & Hinv' & (m & pk & -> & ->) & Hm & -> & Hcount' & Hext & Hview').
    assert (extends (index_fields_ids_map index) (fields_ids_map tr')) as Hext' by by rewrite Hfields.
    cbn. split; cbn; try done.
    + apply with_fields_dist_ok; try done. apply (ti_wf _ _ Hinv').
    + congruence.
    + congruence.
    + congruence.
    + intros e. rewrite with_fields_index_view; [done|done|apply (ti_wf _ _ Hinv')|done].
    + intros e. rewrite Hview', Hmethod, apply_ops_app. by apply apply_ops_ext.
  - unfold mbind, st_bind, remove_documents. destruct (decide (to_delete = [])) as [->|Hne];
      [exact Hnone|].
    pose proof (remove_documents_spec index to_delete should_abort (transform self) Hindex Hinv) as Hrem.
    destruct (Transform.remove_documents to_delete should_abort index (transform self))
      as [[n|err|p] tr']; [|by left|done].
    destruct Hrem as (Hinv' & Hf & Hm & Hcount' & Hview').
    rewrite N.add_0_r. split; cbn; try done; try congruence.
    intros e. rewrite Hview', Hmethod, apply_ops_app. by apply apply_ops_ext.
Qed.

Lemma calls_spec method v ops count index self should_abort l :
  builder_ok method v ops count index self → Forall call_ok l →
  match calls should_abort l self index with
  | (Ok self', index') =>
      builder_ok method v (ops ++ calls_ops l) (count + calls_count l) index' self'
  | (Err err, _) => read_error err
  | (Panic _, _) => False
  end.
Proof.
  intros Hb Hl. revert ops count index self Hb.
  induction Hl as [|c l Hc Hl IH]; intros ops count index self Hb.
  - cbn. by rewrite app_nil_r, N.add_0_r.
  - cbn [calls]. unfold mbind, st_bind.
    pose proof (call_spec _ _ _ _ _ _ should_abort c Hb Hc) as Hcall.
    destruct (call should_abort c self index) as [[self'|err|p] index']; [|done|done].
    specialize (IH _ _ _ _ Hcall).
    destruct (calls should_abort l self' index') as [[self''|err|p] index'']; [|done|done].
    change (calls_ops (c :: l)) with (call_ops c ++ calls_ops l).
    change (calls_count (c :: l)) with (call_count c + calls_count l)%N.
    by rewrite app_assoc, N.add_assoc.
Qed.

End execution.

(** ** Witnesses *)
Module Demo.
Import Concrete Merge.Demo.

Definition empty_index : Index := mkIndex ∅ ∅ ∅ ∅ ∅ FieldsIdsMap.new None ∅.

Lemma empty_index_ok : index_ok empty_index ∧ dist_ok empty_index.
Proof.
  split; [split|]; cbn.
  - apply FieldsIdsMap.new_well_formed.
  - split; intros e id He; cbn in He; by rewrite lookup_empty in He.
  - intros e d. unfold docid_of, DocumentsIds.lookup. cbn. done.
  - set_solver.
  - intros e e' d. unfold docid_of, DocumentsIds.lookup. cbn. done.
  - set_solver.
  - set_solver.
  - set_solver.
  - intros nm. cbn. by rewrite lookup_empty.
Qed.

Definition batch (docs : list (string * list (FieldId * Json bool))) : EnrichedBatch := {|
  fields_index := list_to_map [(0%N, "id"); (1%N, "title"); (2%N, "seen")];
  batch_primary_key := "id";
  batch_documents := (λ d, mkEnriched (encode d.2 : kv) (Retrieved d.1)) <$> docs
|}.

(** Two films, of which the first one is updated and the second one removed. *)
Definition films : list BuilderCall := [
  Add false (inr (batch [
    ("1", [(0%N, JString "1"); (1%N, JString "Alien")]);
    ("2", [(0%N, JString "2"); (1%N, JString "Brazil")])]));
  Remove ["2"];
  Add false (inr (batch [("1", [(0%N, JString "1"); (2%N, JNumber true)])]))
].

Lemma batch_docs_ok docs :
  Forall (λ d, increasing d.2 ∧ Forall (λ f, (f.1 < 3)%N ∧ json_ok f.2) d.2) docs →
  batch_ok (batch docs).
Proof.
  intros Hdocs. split.
  - intros k k' nm. unfold batch. cbn [fields_index].
    intros H1%elem_of_list_to_map_2 H2%elem_of_list_to_map_2.
    rewrite !elem_of_cons in H1, H2. naive_solver set_solver.
  - cbn. apply Forall_fmap. eapply Forall_impl; [exact Hdocs|]. intros [e d] [Hinc Hd].
    split; [|cbn|done].
    + change (StronglySorted N.lt (encode d).*1). by rewrite encode_keys.
    + intros k b Hin. apply list_elem_of_fmap in Hin as ([k' v] & [= -> ->] & Hin).
      rewrite Forall_forall in Hd. destruct (Hd (k', v) Hin) as [Hk Hv]. cbn [fst snd] in *.
      split; [|by exists v]. assert (k' = 0 ∨ k' = 1 ∨ k' = 2)%N as [-> | [-> | ->]] by lia; by eexists.
Qed.

Lemma films_ok : Forall call_ok films.
Proof.
  repeat (apply Forall_cons; split); try apply Forall_nil; try done;
    apply batch_docs_ok; repeat constructor.
Qed.

Definition run (l : list BuilderCall) (index : Index) : outcome MilliError (N * N) * Index :=
  update UpdateDocuments AlwaysSoft 0 (λ _, false) false l index.

End Demo.
