(* ===== verification/FacetDb.v ===== *)
(** * The facet databases (milli/src/heed_codec/facet/mod.rs,
      milli/src/search/facet/mod.rs)

    A facet database maps the facet values of a field to the documents that have
    them.  Its keys are a field, a level and a left bound, its values a group
    size and a bitmap; the level 0 holds the values, and every group of a level
    above stands for some consecutive groups of the level below.  LMDB keeps the
    keys in the order of their bytes: the model is the list of the entries in
    that order.  [level db f l] is one level of one field, [tree_ok] the shape of
    the levels. *)
From S2P Require Import Prelude Json.
From S2P Require FieldsIdsMap DocumentsIds.
From Stdlib Require Import Ascii.
Import FieldsIdsMap (FieldId).
Import DocumentsIds (DocumentId).

(** ** The order of byte strings *)
Fixpoint blt (x y : bytes) : Prop :=
  match x, y with
  | [], [] => False
  | [], _ :: _ => True
  | _ :: _, [] => False
  | a :: x, b :: y => (N_of_ascii a < N_of_ascii b)%N ∨ a = b ∧ blt x y
  end.

#[export] Instance blt_dec x y : Decision (blt x y).
Proof. revert y. induction x as [|a x IH]; intros [|b y]; cbn; try apply _. Defined.

Lemma N_of_ascii_inj a b : N_of_ascii a = N_of_ascii b → a = b.
Proof. intros H. rewrite <- (ascii_N_embedding a), H. apply ascii_N_embedding. Qed.

Lemma blt_irrefl x : ¬ blt x x.
Proof. induction x as [|a x IH]; cbn; [tauto|]. intros [?|[_ ?]]; [lia|tauto]. Qed.

Lemma blt_trans x y z : blt x y → blt y z → blt x z.
Proof.
  revert y z. induction x as [|a x IH]; intros [|b y] [|c z]; cbn; try done.
  intros [?|[-> ?]] [?|[-> ?]]; [left; lia|by left|by left|right; eauto].
Qed.

Lemma blt_total x y : blt x y ∨ x = y ∨ blt y x.
Proof.
  revert y. induction x as [|a x IH]; intros [|b y]; cbn; auto.
  destruct (N.lt_total (N_of_ascii a) (N_of_ascii b)) as [?|[Heq|?]]; auto.
  apply N_of_ascii_inj in Heq as ->. destruct (IH y) as [?|[->|?]]; auto.
Qed.

Lemma ble_lt_trans x y z : ¬ blt y x → blt y z → blt x z.
Proof.
  intros Hle Hlt. destruct (blt_total x y) as [?|[->|?]]; [by eapply blt_trans|done|done].
Qed.

Lemma blt_le_trans x y z : blt x y → ¬ blt z y → blt x z.
Proof.
  intros Hlt Hle. destruct (blt_total y z) as [?|[->|?]]; [by eapply blt_trans|done|done].
Qed.

Lemma ble_trans x y z : ¬ blt y x → ¬ blt z y → ¬ blt z x.
Proof. intros H1 H2 Hlt. by apply H2, (blt_le_trans z x y). Qed.

Lemma ble_antisym x y : ¬ blt y x → ¬ blt x y → x = y.
Proof. destruct (blt_total x y) as [?|[?|?]]; done. Qed.

(** Decides the comparisons of byte strings by transitivity. *)
Ltac border_goal :=
  match goal with
  | |- ¬ _ => intro
  | |- blt ?x ?y => destruct (decide (blt x y)); [assumption|exfalso]
  | |- @eq _ ?x ?y => apply ble_antisym; intro; exfalso
  | |- False => idtac
  | |- _ => exfalso
  end.

Ltac border_loop :=
  match goal with
  | H : blt ?x ?x |- _ => destruct (blt_irrefl x H)
  | H : blt ?x ?y, H' : ¬ blt ?x ?y |- _ => destruct (H' H)
  | H : @eq bytes ?x ?y |- _ => rewrite H in *; clear H; border_loop
  | H : @eq (list ascii) ?x ?y |- _ => rewrite H in *; clear H; border_loop
  | H1 : blt ?x ?y, H2 : blt ?y ?z |- _ =>
      lazymatch goal with
      | _ : blt x z |- _ => fail
      | _ => pose proof (blt_trans x y z H1 H2); border_loop
      end
  | H1 : ¬ blt ?y ?x, H2 : blt ?y ?z |- _ =>
      lazymatch goal with
      | _ : blt x z |- _ => fail
      | _ => pose proof (ble_lt_trans x y z H1 H2); border_loop
      end
  | H1 : blt ?x ?y, H2 : ¬ blt ?z ?y |- _ =>
      lazymatch goal with
      | _ : blt x z |- _ => fail
      | _ => pose proof (blt_le_trans x y z H1 H2); border_loop
      end
  | H1 : ¬ blt ?y ?x, H2 : ¬ blt ?z ?y |- _ =>
      lazymatch goal with
      | _ : ¬ blt z x |- _ => fail
      | _ => pose proof (ble_trans x y z H1 H2); border_loop
      end
  end.

Ltac border := border_goal; border_loop.

(** The errors that are not those of LMDB: [heed::Error::Encoding] and the order of
    the keys of an FST. *)
Inductive FacetError := Encoding | OutOfOrder.

(** [x < y], [x > y], [x <= y] and [x >= y] on byte slices. *)
Definition lt_bytes (x y : bytes) : bool := bool_decide (blt x y).
Definition gt_bytes (x y : bytes) : bool := lt_bytes y x.
Definition le_bytes (x y : bytes) : bool := negb (lt_bytes y x).
Definition ge_bytes (x y : bytes) : bool := negb (lt_bytes x y).

(** ** Keys and values *)
Record FacetGroupKey := mkKey {
  field_id : FieldId;
  gk_level : nat;
  left_bound : bytes
}.

(** The size is a [u8]. *)
Record FacetGroupValue := mkValue {
  gv_size : N;
  gv_bitmap : gset DocumentId
}.

#[export] Instance key_eq_dec : EqDecision FacetGroupKey.
Proof. solve_decision. Defined.

Definition u8_max : nat := 255.

(** [FacetGroupKeyCodec] writes the field id in big endian, the level and the
    left bound: the bytes of the keys are in this order. *)
Definition level_lt (k k' : FacetGroupKey) : Prop :=
  (field_id k < field_id k')%N ∨ field_id k = field_id k' ∧ gk_level k < gk_level k'.

Definition same_level (k k' : FacetGroupKey) : Prop :=
  field_id k = field_id k' ∧ gk_level k = gk_level k'.

Definition key_lt (k k' : FacetGroupKey) : Prop :=
  level_lt k k' ∨ same_level k k' ∧ blt (left_bound k) (left_bound k').

#[export] Instance level_lt_dec k k' : Decision (level_lt k k').
Proof. unfold level_lt. apply _. Defined.
#[export] Instance same_level_dec k k' : Decision (same_level k k').
Proof. unfold same_level. apply _. Defined.
#[export] Instance key_lt_dec k k' : Decision (key_lt k k').
Proof. unfold key_lt. apply _. Defined.

(** ** The database *)
Abbreviation Entry := (FacetGroupKey * FacetGroupValue)%type.
Abbreviation FacetDb := (list Entry).

Fixpoint db_get (k : FacetGroupKey) (db : FacetDb) : option FacetGroupValue :=
  match db with
  | [] => None
  | (k', v) :: db => if decide (k' = k) then Some v else db_get k db
  end.

Fixpoint db_put (k : FacetGroupKey) (v : FacetGroupValue) (db : FacetDb) : FacetDb :=
  match db with
  | [] => [(k, v)]
  | (k', v') :: rest =>
      if decide (key_lt k k') then (k, v) :: db
      else if decide (k' = k) then (k, v) :: rest
      else (k', v') :: db_put k v rest
  end.

Definition db_delete (k : FacetGroupKey) (db : FacetDb) : FacetDb := filter (λ e, e.1 ≠ k) db.

(** [range(k..)], [get_lower_than_or_equal_to] and [get_greater_than]. *)
Definition db_range_from (k : FacetGroupKey) (db : FacetDb) : FacetDb :=
  filter (λ e, ¬ key_lt e.1 k) db.
Definition db_lower_than_or_equal_to (k : FacetGroupKey) (db : FacetDb) : option Entry :=
  last (filter (λ e, ¬ key_lt k e.1) db).
Definition db_greater_than (k : FacetGroupKey) (db : FacetDb) : option Entry :=
  head (filter (λ e, key_lt k e.1) db).

(** [prefix_iter] on a field and on a level of a field. *)
Definition prefix_field (f : FieldId) (db : FacetDb) : FacetDb :=
  filter (λ e, field_id e.1 = f) db.
Definition prefix_level (f : FieldId) (l : nat) (db : FacetDb) : FacetDb :=
  filter (λ e, field_id e.1 = f ∧ gk_level e.1 = l) db.

(** [Iterator::take]. *)
Fixpoint take_n {A} (n : N) (l : list A) : list A :=
  match l with
  | [] => []
  | x :: l => if (n =? 0)%N then [] else x :: take_n (n - 1) l
  end.

Definition get_first_facet_value (db : FacetDb) (f : FieldId) : option bytes :=
  (λ e : Entry, left_bound e.1) <$> head (prefix_level f 0 db).

Definition get_last_facet_value (db : FacetDb) (f : FieldId) : option bytes :=
  (λ e : Entry, left_bound e.1) <$> last (prefix_level f 0 db).

Definition get_highest_level (db : FacetDb) (f : FieldId) : nat :=
  match last (prefix_field f db) with Some e => gk_level e.1 | None => 0 end.

(** ** Levels *)
Abbreviation Level := (list (bytes * FacetGroupValue)).

Definition db_sorted (db : FacetDb) : Prop := StronglySorted key_lt db.*1.
Definition level_sorted (L : Level) : Prop := StronglySorted blt L.*1.

Definition level (db : FacetDb) (f : FieldId) (l : nat) : Level :=
  (λ e : Entry, (left_bound e.1, e.2)) <$> prefix_level f l db.

Definition at_level (f : FieldId) (l : nat) (e : bytes * FacetGroupValue) : Entry :=
  (mkKey f l e.1, e.2).

Lemma key_lt_irrefl k : ¬ key_lt k k.
Proof. intros [[?|[? ?]]|[_ ?%blt_irrefl]]; [lia|lia|done]. Qed.

Lemma key_lt_trans k1 k2 k3 : key_lt k1 k2 → key_lt k2 k3 → key_lt k1 k3.
Proof.
  unfold key_lt, level_lt, same_level.
  intros [?|[[? ?] ?]] [?|[[? ?] ?]]; [left; lia|left; lia|left; lia|right].
  split; [split; congruence|]. by eapply blt_trans.
Qed.

Lemma key_lt_total k1 k2 : key_lt k1 k2 ∨ k1 = k2 ∨ key_lt k2 k1.
Proof.
  destruct k1 as [f1 l1 b1], k2 as [f2 l2 b2]. unfold key_lt, level_lt, same_level. cbn.
  destruct (N.lt_total f1 f2) as [?|[->|?]]; [by left; left; left| |by right; right; left; left].
  destruct (Nat.lt_total l1 l2) as [?|[->|?]]; [by left; left; right| |by right; right; left; right].
  destruct (blt_total b1 b2) as [?|[->|?]]; [left; by right|by right; left|right; right; by right].
Qed.

(** Entries of an ordered list of keys. *)
Lemma sorted_app_inv {K V} (R : K → K → Prop) (l1 l2 : list (K * V)) :
  StronglySorted R (l1 ++ l2).*1 →
  StronglySorted R l1.*1 ∧ StronglySorted R l2.*1 ∧
  ∀ e1 e2, e1 ∈ l1 → e2 ∈ l2 → R e1.1 e2.1.
Proof.
  rewrite fmap_app. intros Hs. split_and!.
  - by eapply StronglySorted_app_1_l.
  - by eapply StronglySorted_app_1_r.
  - intros e1 e2 H1 H2. eapply StronglySorted_app_1_elem_of; [exact Hs|..];
      by apply list_elem_of_fmap_2.
Qed.

Lemma sorted_app {K V} (R : K → K → Prop) (l1 l2 : list (K * V)) :
  StronglySorted R l1.*1 → StronglySorted R l2.*1 →
  (∀ e1 e2, e1 ∈ l1 → e2 ∈ l2 → R e1.1 e2.1) → StronglySorted R (l1 ++ l2).*1.
Proof.
  intros H1 H2 H12. rewrite fmap_app. apply StronglySorted_app_2; [|done..].
  intros k1 k2 Hk1 Hk2. apply list_elem_of_fmap in Hk1 as (e1 & -> & ?), Hk2 as (e2 & -> & ?). auto.
Qed.

Lemma sorted_filter {K V} (R : K → K → Prop) (P : K * V → Prop) `{!∀ e, Decision (P e)} l :
  StronglySorted R l.*1 → StronglySorted R (filter P l).*1.
Proof.
  induction l as [|e l IH]; [done|]. rewrite fmap_cons. intros [Hs Hlt]%StronglySorted_inv.
  rewrite filter_cons. destruct (decide (P e)); [|auto]. rewrite fmap_cons. constructor; [auto|].
  rewrite Forall_forall in Hlt. apply Forall_forall. intros k Hk. apply Hlt.
  apply list_elem_of_fmap in Hk as (e' & -> & He'). apply list_elem_of_filter in He' as [_ He'].
  by apply list_elem_of_fmap_2.
Qed.

Lemma prefix_level_map db f l : prefix_level f l db = at_level f l <$> level db f l.
Proof.
  unfold level, prefix_level. rewrite <- list_fmap_compose.
  rewrite <- (list_fmap_id (filter _ db)) at 1.
  apply list_fmap_ext. intros i [[f' l' b] v] Hi. cbn.
  apply list_elem_of_lookup_2, list_elem_of_filter in Hi as [[Hf Hl] _]. cbn in *. by subst.
Qed.

Lemma level_elem db f l b v : (b, v) ∈ level db f l ↔ (mkKey f l b, v) ∈ db.
Proof.
  unfold level, prefix_level. rewrite list_elem_of_fmap. split.
  - intros ([[f' l' b'] v'] & [= -> ->] & [[Hf Hl] Hin]%list_elem_of_filter). cbn in *. by subst.
  - intros Hin. exists (mkKey f l b, v). split; [done|]. by apply list_elem_of_filter.
Qed.

Lemma level_is_sorted db f l : db_sorted db → level_sorted (level db f l).
Proof.
  intros Hs. apply (sorted_filter _ (λ e, field_id e.1 = f ∧ gk_level e.1 = l)) in Hs.
  fold (prefix_level f l db) in Hs. rewrite prefix_level_map in Hs. unfold level_sorted.
  induction (level db f l) as [|e L IH]; [constructor|]. rewrite !fmap_cons in *.
  apply StronglySorted_inv in Hs as [Hs Hlt]. constructor; [auto|].
  rewrite Forall_forall in Hlt. apply Forall_forall. intros b Hb. apply list_elem_of_fmap in Hb as (e' & -> & He').
  destruct (Hlt (mkKey f l e'.1)) as [[?|[? ?]]|[_ Hb]]; cbn in *; [|lia|lia|done].
  apply list_elem_of_fmap. exists (at_level f l e'). split; [done|]. by apply list_elem_of_fmap_2.
Qed.

(** A sorted database is what precedes a level, the level and what follows. *)
Lemma db_split db f l :
  db_sorted db →
  ∃ lo hi, db = lo ++ (at_level f l <$> level db f l) ++ hi ∧
    (∀ e, e ∈ lo → ∀ b, level_lt e.1 (mkKey f l b)) ∧
    (∀ e, e ∈ hi → ∀ b, level_lt (mkKey f l b) e.1).
Proof.
  unfold db_sorted. induction db as [|[k v] db IH].
  { exists [], []. cbn. split_and!; [done|set_solver|set_solver]. }
  rewrite fmap_cons. intros [Hs Hlt]%StronglySorted_inv. cbn [fst] in Hlt.
  destruct (IH Hs) as (lo & hi & Hdb & Hlo & Hhi). clear IH.
  rewrite Forall_forall in Hlt.
  assert (∀ e, e ∈ db → key_lt k e.1) as Hall by (intros e He; by apply Hlt, list_elem_of_fmap_2).
  assert (level ((k, v) :: db) f l =
    (if decide (field_id k = f ∧ gk_level k = l) then [(left_bound k, v)] else []) ++ level db f l)
    as Hlevel.
  { unfold level, prefix_level. rewrite filter_cons. cbn [fst]. by destruct (decide _). }
  destruct (decide (level_lt k (mkKey f l []))) as [Hk|Hk].
  - exists ((k, v) :: lo), hi. rewrite Hlevel, decide_False; cycle 1.
    { intros [<- <-]. destruct Hk as [?|[? ?]]; cbn in *; lia. }
    cbn [app]. split; [by rewrite <- Hdb|]. split; [|done].
    intros e [->|He]%elem_of_cons b; [exact Hk|by apply Hlo].
  - assert (lo = []) as ->.
    { destruct lo as [|e lo]; [done|]. destruct Hk. specialize (Hlo e ltac:(left) []).
      assert (key_lt k e.1) as Hke by (apply Hall; rewrite Hdb; left).
      unfold key_lt, level_lt, same_level in *. destruct Hlo, Hke as [[]|[[] _]]; lia. }
    cbn [app] in Hdb. exists []. rewrite Hlevel. cbn [app].
    destruct (decide (field_id k = f ∧ gk_level k = l)) as [[Hf Hl]|Hne].
    + exists hi. rewrite fmap_app. cbn. unfold at_level at 1. cbn. split; [|split; [set_solver|done]].
      f_equal; [|exact Hdb]. destruct k; cbn in *; by subst.
    + exists ((k, v) :: (at_level f l <$> level db f l) ++ hi). cbn [app].
      assert (∀ b, level_lt (mkKey f l b) k) as Hgt.
      { intros b. unfold level_lt in *. cbn in *. lia. }
      assert (level db f l = []) as Hnil.
      { destruct (level db f l) as [|[b v'] L]; [done|]. exfalso.
        assert (key_lt k (mkKey f l b)) as Hlt'.
        { apply (Hall (mkKey f l b, v')). rewrite Hdb. rewrite fmap_cons. left. }
        specialize (Hgt b). unfold key_lt, level_lt, same_level in *. cbn in *. lia. }
      rewrite Hnil in *. cbn in *. split; [by rewrite Hdb|]. split; [set_solver|].
      intros e [->|He]%elem_of_cons b; [apply Hgt|by apply Hhi].
Qed.

(** *** Reading a level *)
Lemma filter_all {A} (P : A → Prop) `{!∀ x, Decision (P x)} (l : list A) :
  (∀ x, x ∈ l → P x) → filter P l = l.
Proof.
  induction l as [|x l IH]; [done|]. intros Hall.
  rewrite filter_cons, decide_True by (apply Hall; left). f_equal. apply IH. intros y Hy. apply Hall. by right.
Qed.

Lemma filter_none {A} (P : A → Prop) `{!∀ x, Decision (P x)} (l : list A) :
  (∀ x, x ∈ l → ¬ P x) → filter P l = [].
Proof.
  induction l as [|x l IH]; [done|]. intros Hall.
  rewrite filter_cons, decide_False by (apply Hall; left). apply IH. intros y Hy. apply Hall. by right.
Qed.

Lemma filter_at_level f l (P : Entry → Prop) `{!∀ x, Decision (P x)} (Q : bytes * FacetGroupValue → Prop)
    `{!∀ x, Decision (Q x)} (L : Level) :
  (∀ e, P (at_level f l e) ↔ Q e) → filter P (at_level f l <$> L) = at_level f l <$> filter Q L.
Proof.
  intros HPQ. induction L as [|e L IH]; [done|]. rewrite fmap_cons, !filter_cons.
  destruct (decide (Q e)) as [HQ|HQ].
  - rewrite decide_True by by apply HPQ. by rewrite fmap_cons, IH.
  - rewrite decide_False by by rewrite HPQ. done.
Qed.

Lemma not_level_lt_both k k' : level_lt k k' → ¬ key_lt k' k.
Proof. unfold key_lt, level_lt, same_level. lia. Qed.

Lemma range_from_level db f l b :
  db_sorted db →
  ∃ rest, db_range_from (mkKey f l b) db =
      (at_level f l <$> filter (λ e, ¬ blt e.1 b) (level db f l)) ++ rest ∧
    ∀ e, e ∈ rest → ∀ b, level_lt (mkKey f l b) e.1.
Proof.
  intros Hs. destruct (db_split db f l Hs) as (lo & hi & Hdb & Hlo & Hhi). exists hi.
  split; [|done]. unfold db_range_from. rewrite Hdb at 1. rewrite !filter_app.
  rewrite (filter_none _ lo), (filter_all _ hi).
  - rewrite app_nil_l. f_equal. apply filter_at_level. intros e.
    unfold key_lt, level_lt, same_level. cbn. naive_solver lia.
  - intros e He. apply not_level_lt_both, Hhi, He.
  - intros e He Hn. apply Hn. left. by apply Hlo.
Qed.

Lemma lower_than_level db f l b :
  db_sorted db →
  ∃ lo, filter (λ e, ¬ key_lt (mkKey f l b) e.1) db =
      lo ++ (at_level f l <$> filter (λ e, ¬ blt b e.1) (level db f l)) ∧
    ∀ e, e ∈ lo → ∀ b, level_lt e.1 (mkKey f l b).
Proof.
  intros Hs. destruct (db_split db f l Hs) as (lo & hi & Hdb & Hlo & Hhi). exists lo.
  split; [|done]. rewrite Hdb at 1. rewrite !filter_app.
  rewrite (filter_all _ lo), (filter_none _ hi).
  - rewrite app_nil_r. f_equal. apply filter_at_level. intros e.
    unfold key_lt, level_lt, same_level. cbn. naive_solver lia.
  - intros e He Hn. apply Hn. left. by apply Hhi.
  - intros e He. apply not_level_lt_both, Hlo, He.
Qed.

Lemma greater_than_level db f l b :
  db_sorted db →
  ∃ hi, filter (λ e, key_lt (mkKey f l b) e.1) db =
      (at_level f l <$> filter (λ e, blt b e.1) (level db f l)) ++ hi ∧
    ∀ e, e ∈ hi → ∀ b, level_lt (mkKey f l b) e.1.
Proof.
  intros Hs. destruct (db_split db f l Hs) as (lo & hi & Hdb & Hlo & Hhi). exists hi.
  split; [|done]. rewrite Hdb at 1. rewrite !filter_app.
  rewrite (filter_none _ lo), (filter_all _ hi).
  - rewrite app_nil_l. f_equal. apply filter_at_level. intros e.
    unfold key_lt, level_lt, same_level. cbn. naive_solver lia.
  - intros e He. left. by apply Hhi.
  - intros e He. apply not_level_lt_both, Hlo, He.
Qed.

Lemma filter_from (L1 L2 : Level) b v :
  level_sorted (L1 ++ (b, v) :: L2) →
  filter (λ e, ¬ blt e.1 b) (L1 ++ (b, v) :: L2) = (b, v) :: L2.
Proof.
  intros (_ & Hs2 & H12)%sorted_app_inv. rewrite filter_app.
  rewrite (filter_none _ L1), (filter_all _ ((b, v) :: L2)); [done|..].
  - intros e [->|He]%elem_of_cons; cbn; [apply blt_irrefl|].
    apply StronglySorted_inv in Hs2 as [_ Hs2]. rewrite Forall_forall in Hs2.
    specialize (Hs2 e.1 ltac:(by apply list_elem_of_fmap_2)). cbn in Hs2. border.
  - intros e He Hn. apply Hn. apply (H12 e (b, v)); [done|left].
Qed.

Lemma take_n_app {A} (l1 l2 : list A) : take_n (N.of_nat (length l1)) (l1 ++ l2) = l1.
Proof.
  induction l1 as [|x l1 IH]; [by destruct l2|]. cbn [length app take_n].
  destruct (N.eqb_spec (N.of_nat (S (length l1))) 0); [lia|]. f_equal.
  replace (N.of_nat (S (length l1)) - 1)%N with (N.of_nat (length l1)) by lia. exact IH.
Qed.

Lemma take_n_all {A} n (l : list A) : (N.of_nat (length l) ≤ n)%N → take_n n l = l.
Proof.
  revert n. induction l as [|x l IH]; intros n Hn; [done|]. cbn [length] in Hn. cbn [take_n].
  destruct (N.eqb_spec n 0); [lia|]. f_equal. apply IH. lia.
Qed.

(** A group of a level, read from its left bound. *)
Lemma range_group db f l L1 b v g L2 :
  db_sorted db → level db f l = L1 ++ ((b, v) :: g) ++ L2 →
  take_n (N.of_nat (length ((b, v) :: g))) (db_range_from (mkKey f l b) db) =
    at_level f l <$> (b, v) :: g.
Proof.
  intros Hs Hl. destruct (range_from_level db f l b Hs) as (rest & -> & _).
  pose proof (level_is_sorted db f l Hs) as Hls. rewrite Hl in Hls |- *.
  change (L1 ++ ((b, v) :: g) ++ L2) with (L1 ++ (b, v) :: g ++ L2) in *.
  rewrite filter_from by done. rewrite <- (length_fmap (at_level f l)).
  change ((b, v) :: g ++ L2) with (((b, v) :: g) ++ L2). rewrite fmap_app, <- app_assoc.
  apply take_n_app.
Qed.

(** *** Writing a level *)

(** Two ordered lists with the same entries are equal. *)
Lemma sorted_eq {K V} (R : K → K → Prop) (l1 l2 : list (K * V)) :
  (∀ k, ¬ R k k) → (∀ k1 k2 k3, R k1 k2 → R k2 k3 → R k1 k3) →
  StronglySorted R l1.*1 → StronglySorted R l2.*1 → (∀ e, e ∈ l1 ↔ e ∈ l2) → l1 = l2.
Proof.
  intros Hirr Htr. revert l2. induction l1 as [|e1 l1 IH]; intros [|e2 l2] H1 H2 Hel.
  - done.
  - destruct (Hel e2) as [_ Hin]. set_solver.
  - destruct (Hel e1) as [Hin _]. set_solver.
  - rewrite !fmap_cons in *. apply StronglySorted_inv in H1 as [H1 Hlt1], H2 as [H2 Hlt2].
    rewrite Forall_forall in Hlt1. rewrite Forall_forall in Hlt2.
    assert (∀ e, e ∈ l1 → R e1.1 e.1) as Hgt1 by (intros e He; by apply Hlt1, list_elem_of_fmap_2).
    assert (∀ e, e ∈ l2 → R e2.1 e.1) as Hgt2 by (intros e He; by apply Hlt2, list_elem_of_fmap_2).
    assert (e1 = e2) as ->.
    { pose proof (proj1 (Hel e1) ltac:(left)) as [->|Hin1]%elem_of_cons; [done|].
      pose proof (proj2 (Hel e2) ltac:(left)) as [->|Hin2]%elem_of_cons; [done|].
      destruct (Hirr e1.1). eapply Htr; [by apply Hgt1|by apply Hgt2]. }
    f_equal. apply IH; [done|done|]. intros e. specialize (Hel e). rewrite !elem_of_cons in Hel.
    split; intros He.
    + destruct (proj1 Hel (or_intror He)) as [->|?]; [|done]. destruct (Hirr e2.1). by apply Hgt1.
    + destruct (proj2 Hel (or_intror He)) as [->|?]; [|done]. destruct (Hirr e2.1). by apply Hgt2.
Qed.

Lemma level_eq (L1 L2 : Level) :
  level_sorted L1 → level_sorted L2 → (∀ e, e ∈ L1 ↔ e ∈ L2) → L1 = L2.
Proof. apply sorted_eq; [apply blt_irrefl|apply blt_trans]. Qed.

Lemma db_sorted_cons k v db :
  db_sorted ((k, v) :: db) ↔ db_sorted db ∧ ∀ e, e ∈ db → key_lt k e.1.
Proof.
  unfold db_sorted. rewrite fmap_cons. split.
  - intros [Hs Hlt]%StronglySorted_inv. split; [done|]. intros e He. rewrite Forall_forall in Hlt.
    by apply Hlt, list_elem_of_fmap_2.
  - intros [Hs Hlt]. constructor; [done|]. apply Forall_forall. intros k' Hk'.
    apply list_elem_of_fmap in Hk' as (e & -> & He). by apply Hlt.
Qed.

Lemma db_put_elem k v db e :
  db_sorted db → e ∈ db_put k v db ↔ e = (k, v) ∨ e ∈ db ∧ e.1 ≠ k.
Proof.
  induction db as [|[k' v'] db IH]; intros Hs; [cbn; set_solver|].
  apply db_sorted_cons in Hs as [Hs Hlt]. cbn [db_put].
  destruct (decide (key_lt k k')) as [Hk|Hk].
  - rewrite !elem_of_cons. split; [|naive_solver]. intros [->|Hin]; [by left|right].
    split; [done|]. intros Heq. assert (key_lt k e.1) as Hke.
    { destruct Hin as [->|Hin]; [done|]. eapply key_lt_trans; [exact Hk|by apply Hlt]. }
    rewrite Heq in Hke. by apply key_lt_irrefl in Hke.
  - destruct (decide (k' = k)) as [->|Hne].
    + rewrite !elem_of_cons. split; [|naive_solver]. intros [->|Hin]; [by left|right].
      split; [by right|]. intros Heq. apply Hlt in Hin. rewrite Heq in Hin. by apply key_lt_irrefl in Hin.
    + rewrite !elem_of_cons, IH by done. naive_solver.
Qed.

Lemma db_put_sorted k v db : db_sorted db → db_sorted (db_put k v db).
Proof.
  induction db as [|[k' v'] db IH]; intros Hs; [repeat constructor|].
  pose proof Hs as [Hs' Hlt]%db_sorted_cons. cbn [db_put].
  destruct (decide (key_lt k k')) as [Hk|Hk].
  - apply db_sorted_cons. split; [done|]. intros e [->|He]%elem_of_cons; [done|].
    eapply key_lt_trans; [exact Hk|by apply Hlt].
  - destruct (decide (k' = k)) as [->|Hne]; [by apply db_sorted_cons|].
    apply db_sorted_cons. split; [by apply IH|]. intros e He. apply db_put_elem in He; [|done].
    destruct He as [->|[He _]]; [|by apply Hlt]. cbn. destruct (key_lt_total k k') as [?|[?|?]]; by subst.
Qed.

Lemma db_delete_sorted k db : db_sorted db → db_sorted (db_delete k db).
Proof. apply sorted_filter. Qed.

Lemma db_put_other k v db f l :
  db_sorted db → (field_id k = f ∧ gk_level k = l → False) →
  level (db_put k v db) f l = level db f l.
Proof.
  intros Hs Hk. apply level_eq; [by apply level_is_sorted, db_put_sorted|by apply level_is_sorted|].
  intros [b v']. rewrite !level_elem, db_put_elem by done. split; [|naive_solver].
  intros [[= <- <-]|[? _]]; [|done]. by destruct Hk.
Qed.

Lemma db_delete_other k db f l :
  db_sorted db → (field_id k = f ∧ gk_level k = l → False) →
  level (db_delete k db) f l = level db f l.
Proof.
  intros Hs Hk. apply level_eq; [by apply level_is_sorted, db_delete_sorted|by apply level_is_sorted|].
  intros [b v']. rewrite !level_elem. unfold db_delete. rewrite list_elem_of_filter. cbn.
  split; [naive_solver|]. intros Hin. split; [|done]. intros <-. by apply Hk.
Qed.

(** Putting an entry between the smaller and the greater ones. *)
Lemma db_put_level db f l b v L1 o L2 :
  db_sorted db → level db f l = L1 ++ o ++ L2 → (∀ e, e ∈ o → e.1 = b) →
  (∀ e, e ∈ L1 → blt e.1 b) → (∀ e, e ∈ L2 → blt b e.1) →
  level (db_put (mkKey f l b) v db) f l = L1 ++ [(b, v)] ++ L2.
Proof.
  intros Hs Hl Ho H1 H2. pose proof (level_is_sorted db f l Hs) as Hls.
  apply level_eq; [by apply level_is_sorted, db_put_sorted|..].
  - rewrite Hl in Hls. apply sorted_app_inv in Hls as (Hs1 & [_ [Hs2 _]]%sorted_app_inv & H12).
    apply sorted_app; [done|apply (sorted_app _ [(b, v)])|].
    + repeat constructor.
    + done.
    + intros e1 e2 ->%list_elem_of_singleton He2. by apply H2.
    + intros e1 e2 He1 [->%list_elem_of_singleton|He2]%elem_of_app; [by apply H1|].
      apply H12; [done|]. apply elem_of_app. by right.
  - intros [b' v']. rewrite level_elem, db_put_elem, <- level_elem, Hl by done.
    rewrite !elem_of_app, list_elem_of_singleton. split.
    + intros [[= -> ->]|[[?|[He|?]] Hne]]; auto. apply Ho in He. cbn in *. congruence.
    + intros [He|[[= -> ->]|He]]; [right|by left|right]; (split; [auto|]); intros [= ->];
        [apply H1 in He|apply H2 in He]; by apply blt_irrefl in He.
Qed.

Lemma db_delete_level db f l b v L1 L2 :
  db_sorted db → level db f l = L1 ++ (b, v) :: L2 →
  level (db_delete (mkKey f l b) db) f l = L1 ++ L2.
Proof.
  intros Hs Hl. pose proof (level_is_sorted db f l Hs) as Hls.
  pose proof Hls as Hls'. rewrite Hl in Hls'. apply sorted_app_inv in Hls' as (Hs1 & Hs2 & H12).
  rewrite fmap_cons in Hs2. apply StronglySorted_inv in Hs2 as [Hs2 Hlt2]. rewrite Forall_forall in Hlt2.
  assert (∀ e, e ∈ L2 → blt b e.1) as Hgt by (intros e He; by apply Hlt2, list_elem_of_fmap_2).
  apply level_eq; [by apply level_is_sorted, db_delete_sorted|..].
  - apply sorted_app; [done..|]. intros e1 e2 He1 He2. apply H12; [done|by right].
  - intros [b' v']. rewrite level_elem. unfold db_delete.
    rewrite list_elem_of_filter, <- level_elem, Hl, !elem_of_app, elem_of_cons. cbn. split.
    + intros [Hne [?|[[= -> ->]|?]]]; auto. by destruct Hne.
    + intros He. split; [|tauto]. intros [= ->]. destruct He as [He|He].
      * apply (blt_irrefl b). by apply (H12 (b, v') (b, v)); [|left].
      * apply (blt_irrefl b). by apply Hgt in He.
Qed.

Lemma db_get_level db f l b v :
  db_sorted db → db_get (mkKey f l b) db = Some v ↔ (b, v) ∈ level db f l.
Proof.
  intros Hs. rewrite level_elem. induction db as [|[k' v'] db IH]; [cbn; set_solver|].
  apply db_sorted_cons in Hs as [Hs Hlt]. cbn [db_get]. rewrite elem_of_cons.
  destruct (decide (k' = mkKey f l b)) as [->|Hne].
  - split; [intros [= ->]; by left|]. intros [[= ->]|Hin]; [done|].
    apply Hlt in Hin. by apply key_lt_irrefl in Hin.
  - rewrite IH by done. naive_solver.
Qed.

(** The highest level is the last one with entries. *)
Lemma highest_level_spec db f h :
  db_sorted db → (∀ l, h < l → level db f l = []) → (h = 0 ∨ level db f h ≠ []) →
  get_highest_level db f = h.
Proof.
  intros Hs Habove Hh. unfold get_highest_level.
  destruct (last (prefix_field f db)) as [[k v]|] eqn:Hlast.
  - apply last_Some in Hlast as [l' Hl']. cbn [fst].
    assert ((k, v) ∈ prefix_field f db) as Hk by (rewrite Hl'; set_solver).
    unfold prefix_field in Hk. apply list_elem_of_filter in Hk as [Hf Hin]. cbn in Hf.
    assert (gk_level k ≤ h).
    { destruct (decide (h < gk_level k)) as [Hlt|]; [|lia]. apply Habove in Hlt.
      assert ((left_bound k, v) ∈ level db f (gk_level k)) as Hel
        by (apply level_elem; rewrite <- Hf; by destruct k).
      rewrite Hlt in Hel. by apply not_elem_of_nil in Hel. }
    destruct Hh as [->|Hne]; [lia|]. destruct (level db f h) as [|[b v'] L] eqn:HL; [done|].
    assert ((mkKey f h b, v') ∈ db) as Hin' by (apply level_elem; rewrite HL; left).
    assert ((mkKey f h b, v') ∈ prefix_field f db) as Hpre by by apply list_elem_of_filter.
    assert (StronglySorted key_lt (prefix_field f db).*1) as Hps by by apply sorted_filter.
    rewrite Hl' in Hpre, Hps. apply sorted_app_inv in Hps as (_ & _ & Hps).
    apply elem_of_app in Hpre as [Hpre|[= <- <-]%list_elem_of_singleton]; [|done].
    specialize (Hps _ (k, v) Hpre ltac:(left)). unfold key_lt, level_lt, same_level in Hps. cbn in Hps. lia.
  - destruct Hh as [->|Hne]; [done|]. destruct (level db f h) as [|[b v'] L] eqn:HL; [done|].
    assert ((mkKey f h b, v') ∈ db) as Hin' by (apply level_elem; rewrite HL; left).
    apply last_None in Hlast. assert ((mkKey f h b, v') ∈ prefix_field f db) as Hpre
      by by apply list_elem_of_filter. rewrite Hlast in Hpre. by apply not_elem_of_nil in Hpre.
Qed.

Lemma first_facet_value db f : get_first_facet_value db f = fst <$> head (level db f 0).
Proof. unfold get_first_facet_value, level. by destruct (prefix_level f 0 db). Qed.

Lemma last_facet_value db f : get_last_facet_value db f = fst <$> last (level db f 0).
Proof.
  unfold get_last_facet_value, level. rewrite fmap_last.
  by destruct (last (prefix_level f 0 db)).
Qed.
