(* ===== verification/FacetTree.v ===== *)
(** * The shape of the levels of a facet database

    Every group of a level stands for some consecutive groups of the level below:
    its left bound is the one of the first of them, its size their number and its
    bitmap the union of theirs.  While documents [D] are being deleted, the bitmap
    of a group may already lack some of them.  [span] relates some consecutive
    groups of a level to the facet values they stand for. *)
From S2P Require Import Prelude Json FacetDb.
From S2P Require FieldsIdsMap DocumentsIds.
Import FieldsIdsMap (FieldId).
Import DocumentsIds (DocumentId).

Definition docids_of (L : Level) : gset DocumentId := ⋃ ((λ e, gv_bitmap e.2) <$> L).

Definition group_ok (D : gset DocumentId) (e : bytes * FacetGroupValue) (g : Level) : Prop :=
  (∃ v g', g = (e.1, v) :: g') ∧ gv_size e.2 = N.of_nat (length g) ∧
  gv_bitmap e.2 ⊆ docids_of g ∧ docids_of g ∖ D ⊆ gv_bitmap e.2.

(** The groups [upper] partition [lower]. *)
Inductive groups (D : gset DocumentId) : Level → Level → Prop :=
| groups_nil : groups D [] []
| groups_cons e g upper lower :
    group_ok D e g → groups D upper lower → groups D (e :: upper) (g ++ lower).

(** The levels [0..h] of a field. *)
Definition levels_ok (D : gset DocumentId) (db : FacetDb) (f : FieldId) (h : nat) : Prop :=
  (h = 0 ∨ level db f h ≠ []) ∧
  (∀ l, l < h → groups D (level db f (S l)) (level db f l)) ∧
  (∀ l, h < l → level db f l = []).

Definition tree_ok (D : gset DocumentId) (db : FacetDb) (f : FieldId) : Prop :=
  db_sorted db ∧ ∃ h, levels_ok D db f h.

(** The values [leaves] of the groups [seg] of the level [l]. *)
Fixpoint span (D : gset DocumentId) (db : FacetDb) (f : FieldId) (l : nat) (seg leaves : Level) : Prop :=
  (∃ pre post, level db f l = pre ++ seg ++ post) ∧
  match l with
  | 0 => leaves = seg
  | S l' => ∃ lower, groups D seg lower ∧ span D db f l' lower leaves
  end.

(** ** Unions *)
Lemma docids_of_cons e L : docids_of (e :: L) = gv_bitmap e.2 ∪ docids_of L.
Proof. done. Qed.

Lemma docids_of_app L1 L2 : docids_of (L1 ++ L2) = docids_of L1 ∪ docids_of L2.
Proof. unfold docids_of. by rewrite fmap_app, union_list_app_L. Qed.

Lemma elem_of_docids_of d L : d ∈ docids_of L ↔ ∃ e, e ∈ L ∧ d ∈ gv_bitmap e.2.
Proof.
  unfold docids_of. rewrite elem_of_union_list. split.
  - intros (X & HX & Hd). apply list_elem_of_fmap in HX as (e & -> & He). by exists e.
  - intros (e & He & Hd). exists (gv_bitmap e.2). split; [|done]. apply list_elem_of_fmap. by exists e.
Qed.

(** ** Groups *)
Lemma groups_app D u1 u2 l1 l2 :
  groups D u1 l1 → groups D u2 l2 → groups D (u1 ++ u2) (l1 ++ l2).
Proof.
  intros H1 H2. induction H1 as [|e g u1 l1 Hg _ IH]; [done|].
  rewrite <- app_assoc. cbn [app]. by constructor.
Qed.

Lemma groups_app_inv D u1 u2 l :
  groups D (u1 ++ u2) l → ∃ l1 l2, l = l1 ++ l2 ∧ groups D u1 l1 ∧ groups D u2 l2.
Proof.
  revert l. induction u1 as [|e u1 IH]; intros l H.
  - exists [], l. split_and!; [done|constructor|done].
  - cbn in H. inversion H as [|? g ? lower Hg Hu]; subst. apply IH in Hu as (l1 & l2 & -> & H1 & H2).
    exists (g ++ l1), l2. split_and!; [by rewrite app_assoc|by constructor|done].
Qed.

Lemma groups_single D e l : groups D [e] l ↔ group_ok D e l.
Proof.
  split.
  - intros H. inversion H as [|? g ? lower Hg Hu]; subst. inversion Hu; subst. by rewrite app_nil_r.
  - intros H. rewrite <- (app_nil_r l). apply groups_cons; [done|apply groups_nil].
Qed.

Lemma groups_head D b v u l : groups D ((b, v) :: u) l → ∃ v' l', l = (b, v') :: l'.
Proof. intros H. inversion H as [|? g ? lower [(v' & g' & ->) _] _]; subst. by eexists _, _. Qed.

Lemma groups_nil_inv D u : groups D u [] → u = [].
Proof.
  destruct u as [|[b v] u]; [done|]. by intros (v' & l' & ?)%groups_head.
Qed.

Lemma groups_docids D u l :
  groups D u l → docids_of u ⊆ docids_of l ∧ docids_of l ∖ D ⊆ docids_of u.
Proof.
  induction 1 as [|e g u l (_ & _ & H1 & H2) _ [IH1 IH2]]; [set_solver|].
  rewrite docids_of_cons, docids_of_app. set_solver.
Qed.

Lemma groups_mono D D' u l : D ⊆ D' → groups D u l → groups D' u l.
Proof.
  intros HD. induction 1 as [|e g u l (? & ? & ? & ?) _ IH]; constructor; [|done].
  split_and!; [done..|set_solver].
Qed.

(** Once no value holds the deleted documents, the groups are exact. *)
Lemma groups_exact D u l : docids_of l ## D → groups D u l → groups ∅ u l.
Proof.
  intros Hdis. induction 1 as [|e g u l (? & ? & ? & ?) _ IH]; [constructor|].
  rewrite docids_of_app in Hdis. constructor; [|apply IH; set_solver].
  split_and!; [done..|set_solver].
Qed.

(** ** Spans *)
Section spans.
Context (D : gset DocumentId) (db : FacetDb) (f : FieldId).

Lemma span_segment l seg leaves :
  span D db f l seg leaves → ∃ pre post, level db f l = pre ++ seg ++ post.
Proof. by destruct l; intros [? _]. Qed.

Lemma span_leaves l seg leaves :
  span D db f l seg leaves → ∃ pre post, level db f 0 = pre ++ leaves ++ post.
Proof.
  revert seg. induction l as [|l IH]; intros seg.
  - by intros [? ->].
  - intros (_ & lower & _ & H). by eapply IH.
Qed.

Lemma span_app l s1 s2 leaves :
  span D db f l (s1 ++ s2) leaves →
  ∃ l1 l2, leaves = l1 ++ l2 ∧ span D db f l s1 l1 ∧ span D db f l s2 l2.
Proof.
  revert s1 s2. induction l as [|l IH]; intros s1 s2 [(pre & post & Hl) H].
  - exists s1, s2. split_and!; [done|split; [|done]..].
    + exists pre, (s2 ++ post). by rewrite Hl, <- app_assoc.
    + exists (pre ++ s1), post. by rewrite Hl, <- !app_assoc.
  - destruct H as (lower & (g1 & g2 & -> & Hg1 & Hg2)%groups_app_inv & Hsp).
    apply IH in Hsp as (l1 & l2 & -> & H1 & H2). exists l1, l2. split; [done|].
    split; (split; [|by eexists]).
    + exists pre, (s2 ++ post). by rewrite Hl, <- app_assoc.
    + exists (pre ++ s1), post. by rewrite Hl, <- !app_assoc.
Qed.

Lemma span_cons l e s leaves :
  span D db f l (e :: s) leaves →
  ∃ l1 l2, leaves = l1 ++ l2 ∧ span D db f l [e] l1 ∧ span D db f l s l2.
Proof. apply (span_app l [e]). Qed.

Lemma span_head l b v s leaves :
  span D db f l ((b, v) :: s) leaves → ∃ v' leaves', leaves = (b, v') :: leaves'.
Proof.
  revert v s. induction l as [|l IH]; intros v s [_ H].
  - by exists v, s.
  - destruct H as (lower & (v' & l' & ->)%groups_head & H). by eapply IH.
Qed.

Lemma span_nil l leaves : span D db f l [] leaves → leaves = [].
Proof.
  induction l as [|l IH]; intros [_ H]; [done|]. destruct H as (lower & Hg & H).
  inversion Hg; subst. by apply IH.
Qed.

Lemma span_down l e leaves :
  span D db f (S l) [e] leaves → ∃ g, group_ok D e g ∧ span D db f l g leaves.
Proof. intros (_ & g & Hg & H). exists g. by rewrite groups_single in Hg. Qed.

Lemma span_docids l seg leaves :
  span D db f l seg leaves →
  docids_of seg ⊆ docids_of leaves ∧ docids_of leaves ∖ D ⊆ docids_of seg.
Proof.
  revert seg. induction l as [|l IH]; intros seg [_ H]; [subst; set_solver|].
  destruct H as (lower & Hg%groups_docids & H%IH). set_solver.
Qed.

Lemma levels_span h l :
  levels_ok D db f h → l ≤ h → span D db f l (level db f l) (level db f 0).
Proof.
  intros (_ & Hg & _). induction l as [|l IH]; intros Hl.
  - split; [|done]. exists [], []. by rewrite app_nil_r.
  - split; [exists [], []; by rewrite app_nil_r|]. exists (level db f l). split; [by apply Hg|apply IH; lia].
Qed.

Lemma levels_highest h : db_sorted db → levels_ok D db f h → get_highest_level db f = h.
Proof. intros Hs (Hh & _ & Hab). by apply highest_level_spec. Qed.

Lemma span_sorted l seg leaves : db_sorted db → span D db f l seg leaves → level_sorted leaves.
Proof.
  intros Hs (pre & post & Hl)%span_leaves. pose proof (level_is_sorted db f 0 Hs) as Hls.
  rewrite Hl in Hls. apply sorted_app_inv in Hls as (_ & Hls & _).
  by apply sorted_app_inv in Hls as (Hls & _).
Qed.

(** The values of some groups are not below the first left bound, and those of a
    group are below the next left bound. *)
Lemma leaves_above l b v s leaves :
  db_sorted db → span D db f l ((b, v) :: s) leaves → ∀ e, e ∈ leaves → ¬ blt e.1 b.
Proof.
  intros Hs Hsp e He. pose proof (span_sorted _ _ _ Hs Hsp) as Hls.
  apply span_head in Hsp as (v' & leaves' & ->).
  apply (sorted_app_inv blt [(b, v')]) in Hls as (_ & _ & Hls).
  apply elem_of_cons in He as [->|He]; [apply blt_irrefl|].
  specialize (Hls (b, v') e ltac:(left) He). cbn in Hls. border.
Qed.

Lemma leaves_between l b v b' v' s leaves :
  db_sorted db → span D db f l ((b, v) :: (b', v') :: s) leaves →
  ∃ l1 l2, leaves = l1 ++ l2 ∧ span D db f l [(b, v)] l1 ∧ span D db f l ((b', v') :: s) l2 ∧
    (∀ e, e ∈ l1 → blt e.1 b').
Proof.
  intros Hs Hsp. pose proof (span_sorted _ _ _ Hs Hsp) as Hls.
  apply span_cons in Hsp as (l1 & l2 & -> & H1 & H2). exists l1, l2. split_and!; [done..|].
  apply span_head in H2 as (v2 & l2' & ->). intros e He.
  apply sorted_app_inv in Hls as (_ & _ & Hls). apply (Hls e (b', v2)); [done|left].
Qed.

(** No level is empty below a level that is not. *)
Lemma levels_nonempty h l : levels_ok D db f h → l ≤ h → level db f 0 ≠ [] → level db f l ≠ [].
Proof. intros Hok Hl H0 Hnil. apply H0. pose proof (levels_span h l Hok Hl) as H. rewrite Hnil in H. by apply span_nil in H. Qed.
End spans.

Lemma span_bitmap db f l b v leaves : span ∅ db f l [(b, v)] leaves → gv_bitmap v = docids_of leaves.
Proof. intros H%span_docids. unfold docids_of in H at 1 4. cbn in H. set_solver. Qed.

(** ** Reading groups *)
Lemma group_iter D db f l b v s leaves :
  db_sorted db → span D db f l ((b, v) :: s) leaves →
  take_n (N.of_nat (length ((b, v) :: s))) (db_range_from (mkKey f l b) db) =
    at_level f l <$> (b, v) :: s.
Proof. intros Hs (pre & post & Hl)%span_segment. by eapply range_group. Qed.

Definition usize_max : N := u64_size - 1.

(** The whole of the highest level, then other fields. *)
Lemma top_iter D db f h b v s :
  db_sorted db → levels_ok D db f h → level db f h = (b, v) :: s →
  (N.of_nat (length db) ≤ usize_max)%N →
  ∃ rest, take_n usize_max (db_range_from (mkKey f h b) db) = (at_level f h <$> (b, v) :: s) ++ rest ∧
    ∀ e, e ∈ rest → field_id e.1 ≠ f.
Proof.
  intros Hs (_ & _ & Hab) Hl Hlen.
  pose proof (level_is_sorted db f h Hs) as Hls. rewrite Hl in Hls.
  assert (N.of_nat (length (db_range_from (mkKey f h b) db)) ≤ usize_max)%N as Hlen'.
  { pose proof (length_filter (λ e, ¬ key_lt e.1 (mkKey f h b)) db). unfold db_range_from. lia. }
  rewrite take_n_all by done. destruct (range_from_level db f h b Hs) as (rest & Hr & Hrest).
  exists rest. rewrite Hr, Hl.
  pose proof (filter_from [] s b v Hls) as Hf. cbn [app] in Hf. rewrite Hf. split; [done|]. clear Hf.
  intros [[f' l' b'] v'] He Hf'. cbn in Hf'. subst f'.
  assert ((mkKey f l' b', v') ∈ db) as Hin.
  { assert ((mkKey f l' b', v') ∈ db_range_from (mkKey f h b) db) as Hin
      by (rewrite Hr; apply elem_of_app; by right).
    unfold db_range_from in Hin. by apply list_elem_of_filter in Hin as [_ Hin]. }
  apply Hrest with (b := []) in He. destruct He as [?|[_ He]]; cbn in *; [lia|].
  apply level_elem in Hin. rewrite Hab in Hin by done. by apply not_elem_of_nil in Hin.
Qed.
