(* ===== verification/FacetSearch.v ===== *)
(** * Searching a facet database (milli/src/search/facet)

    [find_docids_of_facet_within_bounds] collects the documents that have a value
    within two bounds: it goes down the levels, takes the groups that are within
    the bounds whole, and leaves those that are outside alone. *)
From S2P Require Import Prelude Json FacetDb FacetTree.
From S2P Require FieldsIdsMap DocumentsIds.
Import FieldsIdsMap (FieldId).
Import DocumentsIds (DocumentId).

Inductive Bound (A : Type) : Type :=
| Included (a : A)
| Excluded (a : A)
| Unbounded.
Arguments Included {A} a.
Arguments Excluded {A} a.
Arguments Unbounded {A}.

(** ** Definitions *)
Section FacetRangeSearch.
Context (db : FacetDb) (self_field_id : FieldId) (self_left self_right : Bound bytes).

(** [RangeBounds::contains]. *)
Definition contains (k : bytes) : bool :=
  match self_left with
  | Included lo => le_bytes lo k
  | Excluded lo => lt_bytes lo k
  | Unbounded => true
  end &&
  match self_right with
  | Included hi => le_bytes k hi
  | Excluded hi => lt_bytes k hi
  | Unbounded => true
  end.

Fixpoint visit_level_0 (iter : FacetDb) (docids : gset DocumentId) : gset DocumentId :=
  match iter with
  | [] => docids
  | (key, value) :: iter =>
      if negb (field_id key =? self_field_id)%N then docids
      else if match self_left with
              | Included lo => gt_bytes lo (left_bound key)
              | Excluded lo => ge_bytes lo (left_bound key)
              | Unbounded => false
              end then visit_level_0 iter docids
      else if match self_right with
              | Included hi => lt_bytes hi (left_bound key)
              | Excluded hi => le_bytes hi (left_bound key)
              | Unbounded => false
              end then docids
      else if contains (left_bound key)
           then visit_level_0 iter (docids ∪ gv_bitmap value)
      else visit_level_0 iter docids
  end.

Definition run_level_0 (starting_left_bound : bytes) (group_size : N) (docids : gset DocumentId) :
    gset DocumentId :=
  let left_key := mkKey self_field_id 0 starting_left_bound in
  visit_level_0 (take_n group_size (db_range_from left_key db)) docids.

(** What follows the loop of [run]: the last element. *)
Definition visit_last (rec : bytes → Bound bytes → N → gset DocumentId → outcome FacetError (gset DocumentId))
    (rightmost_bound : Bound bytes) (previous : Entry) (docids : gset DocumentId) :
    outcome FacetError (gset DocumentId) :=
  let '(previous_key, previous_value) := previous in
  if match self_left, rightmost_bound with
     | Included lo, Included hi => gt_bytes lo hi
     | Included lo, Excluded hi => ge_bytes lo hi
     | Excluded lo, (Included hi | Excluded hi) => ge_bytes lo hi
     | Unbounded, _ => false
     | _, Unbounded => false
     end then Ok docids
  else if match self_right with
          | Included hi => lt_bytes hi (left_bound previous_key)
          | Excluded hi => le_bytes hi (left_bound previous_key)
          | Unbounded => false
          end then Ok docids
  else if match self_left with
          | Included lo => ge_bytes (left_bound previous_key) lo
          | Excluded lo => gt_bytes (left_bound previous_key) lo
          | Unbounded => true
          end &&
          match self_right, rightmost_bound with
          | Included hi, Included rightmost => le_bytes rightmost hi
          | Included hi, Excluded rightmost => le_bytes rightmost hi
          | Excluded hi, Included rightmost => lt_bytes rightmost hi
          | Excluded hi, Excluded rightmost => le_bytes rightmost hi
          | Unbounded, _ => true
          | _, Unbounded => false
          end then Ok (docids ∪ gv_bitmap previous_value)
  else rec (left_bound previous_key) rightmost_bound (gv_size previous_value) docids.

(** The loop of [run], [rec] is [run] on the level below. *)
Fixpoint visit (rec : bytes → Bound bytes → N → gset DocumentId → outcome FacetError (gset DocumentId))
    (rightmost_bound : Bound bytes) (previous : Entry) (iter : FacetDb) (docids : gset DocumentId) :
    outcome FacetError (gset DocumentId) :=
  match iter with
  | [] => visit_last rec rightmost_bound previous docids
  | (next_key, next_value) :: iter =>
      let '(previous_key, previous_value) := previous in
      if negb (field_id next_key =? self_field_id)%N
      then visit_last rec rightmost_bound previous docids
      else if match self_left with
              | Included lo => ge_bytes lo (left_bound next_key)
              | Excluded lo => ge_bytes lo (left_bound next_key)
              | Unbounded => false
              end then visit rec rightmost_bound (next_key, next_value) iter docids
      else if match self_right with
              | Included hi => lt_bytes hi (left_bound previous_key)
              | Excluded hi => le_bytes hi (left_bound previous_key)
              | Unbounded => false
              end then Ok docids
      else if match self_left with
              | Included lo => ge_bytes (left_bound previous_key) lo
              | Excluded lo => gt_bytes (left_bound previous_key) lo
              | Unbounded => true
              end &&
              match self_right with
              | Included hi => le_bytes (left_bound next_key) hi
              | Excluded hi => le_bytes (left_bound next_key) hi
              | Unbounded => true
              end
           then visit rec rightmost_bound (next_key, next_value) iter (docids ∪ gv_bitmap previous_value)
      else
        docids ← rec (left_bound previous_key) (Excluded (left_bound next_key))
                   (gv_size previous_value) docids;
        visit rec rightmost_bound (next_key, next_value) iter docids
  end.

Fixpoint run (level : nat) (starting_left_bound : bytes) (rightmost_bound : Bound bytes)
    (group_size : N) (docids : gset DocumentId) : outcome FacetError (gset DocumentId) :=
  match level with
  | 0 => Ok (run_level_0 starting_left_bound group_size docids)
  | S level' =>
      let left_key := mkKey self_field_id level starting_left_bound in
      match take_n group_size (db_range_from left_key db) with
      | [] => Panic "called Option::unwrap on a None value"
      | previous :: iter => visit (run level') rightmost_bound previous iter docids
      end
  end.
End FacetRangeSearch.

(** [BoundCodec::bytes_encode] of a bound. *)
Definition encode_bound {V} (bytes_encode : V → option bytes) (b : Bound V) :
    outcome FacetError (Bound bytes) :=
  match b with
  | Included v => inner ← ok_or (bytes_encode v) Encoding; Ok (Included inner)
  | Excluded v => inner ← ok_or (bytes_encode v) Encoding; Ok (Excluded inner)
  | Unbounded => Ok Unbounded
  end.

Definition find_docids_of_facet_within_bounds {V} (bytes_encode : V → option bytes) (db : FacetDb)
    (field_id : FieldId) (left_ right_ : Bound V) (docids : gset DocumentId) :
    outcome FacetError (gset DocumentId) :=
  left_ ← encode_bound bytes_encode left_;
  right_ ← encode_bound bytes_encode right_;
  let highest_level := get_highest_level db field_id in
  match get_first_facet_value db field_id with
  | Some starting_left_bound =>
      match get_last_facet_value db field_id with
      | Some last => run db field_id left_ right_ highest_level starting_left_bound (Included last)
                       usize_max docids
      | None => Panic "called Option::unwrap on a None value"
      end
  | None => Ok docids
  end.

(** ** The range search *)

(** The keys up to a bound. *)
Definition below (hi : Bound bytes) (k : bytes) : Prop :=
  match hi with Included r => ¬ blt r k | Excluded r => blt k r | Unbounded => True end.

#[export] Instance below_dec hi k : Decision (below hi k).
Proof. unfold below. destruct hi; apply _. Defined.

Section range_search.
Context (db : FacetDb) (f : FieldId) (left_ right_ : Bound bytes) (Hs : db_sorted db).

Definition above (k : bytes) : Prop :=
  match left_ with Included l => ¬ blt k l | Excluded l => blt l k | Unbounded => True end.

#[local] Instance above_dec k : Decision (above k).
Proof. unfold above. destruct left_; apply _. Defined.

Lemma contains_spec k : contains left_ right_ k = true ↔ above k ∧ below right_ k.
Proof.
  unfold contains, above, below, le_bytes, lt_bytes. rewrite andb_true_iff.
  destruct left_, right_; rewrite ?negb_true_iff, ?bool_decide_eq_true, ?bool_decide_eq_false; naive_solver.
Qed.

(** The documents of the values within the bounds. *)
Definition within (L : Level) : gset DocumentId :=
  docids_of (filter (λ e, contains left_ right_ e.1) L).

Lemma within_app L1 L2 : within (L1 ++ L2) = within L1 ∪ within L2.
Proof. unfold within. by rewrite filter_app, docids_of_app. Qed.

Lemma within_none L : (∀ e, e ∈ L → ¬ (above e.1 ∧ below right_ e.1)) → within L = ∅.
Proof.
  intros Hn. unfold within. rewrite filter_none; [done|]. intros e He Hc.
  apply (Hn e He), contains_spec. by apply Is_true_true.
Qed.

Lemma within_all L : (∀ e, e ∈ L → above e.1 ∧ below right_ e.1) → within L = docids_of L.
Proof.
  intros Hn. unfold within. rewrite filter_all; [done|]. intros e He.
  by apply Is_true_true, contains_spec, Hn.
Qed.

Lemma skip_0 k :
  match left_ with Included lo => gt_bytes lo k | Excluded lo => ge_bytes lo k | Unbounded => false end
    = negb (bool_decide (above k)).
Proof.
  case_bool_decide as H; unfold above in H; unfold gt_bytes, ge_bytes, lt_bytes;
    destruct left_; cbn; repeat case_bool_decide; naive_solver.
Qed.

Lemma stop_0 k :
  match right_ with Included hi => lt_bytes hi k | Excluded hi => le_bytes hi k | Unbounded => false end
    = negb (bool_decide (below right_ k)).
Proof.
  case_bool_decide as H; unfold below in H; unfold le_bytes, lt_bytes;
    destruct right_; cbn; repeat case_bool_decide; naive_solver.
Qed.

Lemma visit_level_0_spec L rest docids :
  level_sorted L → (∀ e, e ∈ rest → field_id e.1 ≠ f) →
  visit_level_0 f left_ right_ ((at_level f 0 <$> L) ++ rest) docids = docids ∪ within L.
Proof.
  intros HL Hrest. revert docids. induction L as [|[b v] L IH]; intros docids.
  - replace (within []) with (∅ : gset DocumentId) by done. destruct rest as [|[k v] rest]; [set_solver|].
    cbn. destruct (N.eqb_spec (field_id k) f) as [Heq|]; [|set_solver].
    destruct (Hrest (k, v)); [left|done].
  - rewrite fmap_cons. cbn [app visit_level_0 at_level]. rewrite N.eqb_refl. cbn [negb].
    apply (sorted_app_inv blt [(b, v)]) in HL as (_ & HL & Hgt).
    assert (∀ e, e ∈ L → blt b e.1) as Hgt' by (intros e He; apply (Hgt (b, v)); [left|done]).
    specialize (IH HL). pose proof (contains_spec b) as Hc. fold (at_level f 0).
    change (within ((b, v) :: L)) with (within ([(b, v)] ++ L)). rewrite within_app.
    assert (within [(b, v)] = if contains left_ right_ b then gv_bitmap v else ∅) as Hone.
    { unfold within. rewrite filter_cons. cbn [fst].
      destruct (contains left_ right_ b); cbn; [|done]. unfold docids_of. cbn. set_solver. }
    rewrite Hone. cbn [left_bound fst snd].
    assert (¬ below right_ b → within L = ∅) as Hstop.
    { intros Hb. apply within_none. intros e He [_ He']. apply Hgt' in He. unfold below in *.
      destruct right_; [exfalso; apply Hb; border..|by apply Hb]. }
    rewrite skip_0, stop_0.
    destruct (contains left_ right_ b) eqn:Hcb; cbn [negb].
    + destruct Hc as [[Ha Hb] _]; [done|].
      rewrite bool_decide_eq_true_2, bool_decide_eq_true_2 by done. cbn [negb]. rewrite IH. set_solver.
    + destruct (decide (above b)) as [Ha|Ha]; cbn.
      * rewrite bool_decide_eq_true_2 by done. cbn [negb]. destruct (decide (below right_ b)) as [Hb|Hb].
        -- naive_solver.
        -- rewrite bool_decide_eq_false_2 by done. cbn. rewrite Hstop by done. set_solver.
      * rewrite bool_decide_eq_false_2 by done. cbn. rewrite IH. set_solver.
Qed.

(** *** The groups *)
Ltac case_if H := match goal with |- (if ?c then _ else _) = _ => destruct c eqn:H end.

(** [rec] is right on the groups of the level [l]. *)
Definition run_ok (l : nat) (rec : bytes → Bound bytes → N → gset DocumentId → outcome FacetError (gset DocumentId)) : Prop :=
  ∀ b v s leaves rest hi n docids,
    span ∅ db f l ((b, v) :: s) leaves →
    take_n n (db_range_from (mkKey f l b) db) = (at_level f l <$> (b, v) :: s) ++ rest →
    (∀ e, e ∈ rest → field_id e.1 ≠ f) → (∀ e, e ∈ leaves → below hi e.1) →
    rec b hi n docids = Ok (docids ∪ within leaves).

(** The group [(b, v)] and its values [leaves]. *)
Lemma run_group l rec b v leaves hi docids :
  run_ok l rec → span ∅ db f (S l) [(b, v)] leaves → (∀ e, e ∈ leaves → below hi e.1) →
  rec b hi (gv_size v) docids = Ok (docids ∪ within leaves).
Proof.
  intros Hrec (g & (Hhd & Hsz & _) & Hsp)%span_down Hhi. destruct Hhd as (v' & g' & ->). cbn in *.
  rewrite Hsz. eapply (Hrec b v' g' leaves []); [done| |set_solver|done].
  rewrite app_nil_r. by eapply group_iter.
Qed.

Lemma within_above_none (L : Level) b :
  ¬ below right_ b → (∀ e, e ∈ L → ¬ blt e.1 b) → within L = ∅.
Proof.
  intros Hb Hge. apply within_none. intros e He [_ Hbe]. apply Hge in He. apply Hb.
  unfold below in *. destruct right_; [border..|done].
Qed.

Lemma visit_last_spec l rec b v leaves hi docids :
  run_ok l rec → span ∅ db f (S l) [(b, v)] leaves → (∀ e, e ∈ leaves → below hi e.1) →
  visit_last left_ right_ rec hi (at_level f (S l) (b, v)) docids = Ok (docids ∪ within leaves).
Proof.
  intros Hrec Hsp Hhi. pose proof (leaves_above _ _ _ _ _ _ _ _ Hs Hsp) as Hge.
  unfold visit_last. cbn [at_level fst snd left_bound]. rewrite stop_0.
  case_if Hskip.
  { rewrite within_none; [f_equal; set_solver|]. intros e He [Ha _]. apply Hhi in He.
    unfold above, below, gt_bytes, ge_bytes, lt_bytes in *.
    destruct left_, hi; rewrite ?negb_true_iff in Hskip; try case_bool_decide; try done; border. }
  case_bool_decide as Hb; cbn [negb]; cycle 1.
  { rewrite (within_above_none _ b) by done. f_equal. set_solver. }
  case_if Htake.
  - rewrite (span_bitmap _ _ _ _ _ _ Hsp), within_all; [done|]. intros e He.
    pose proof (Hge e He) as H1. pose proof (Hhi e He) as H2. apply andb_true_iff in Htake as [Hl Hr].
    unfold above, below, le_bytes, gt_bytes, ge_bytes, lt_bytes in *.
    split; [clear Hr|clear Hl]; [destruct left_|destruct right_, hi]; try case_bool_decide; try done; border.
  - by eapply run_group.
Qed.

Lemma visit_spec l rec b v s leaves rest hi docids :
  run_ok l rec → span ∅ db f (S l) ((b, v) :: s) leaves →
  (∀ e, e ∈ rest → field_id e.1 ≠ f) → (∀ e, e ∈ leaves → below hi e.1) →
  visit f left_ right_ rec hi (at_level f (S l) (b, v)) ((at_level f (S l) <$> s) ++ rest) docids =
    Ok (docids ∪ within leaves).
Proof.
  intros Hrec. revert b v leaves docids. induction s as [|[b' v'] s IH]; intros b v leaves docids Hsp Hrest Hhi.
  - destruct rest as [|[k w] rest]; [by apply visit_last_spec with (l := l)|].
    rewrite fmap_nil. cbn [app visit]. unfold at_level. cbn [fst snd].
    destruct (N.eqb_spec (field_id k) f) as [Heq|]; [destruct (Hrest (k, w)); [left|done]|].
    cbn [negb]. by apply visit_last_spec with (l := l).
  - pose proof (leaves_above _ _ _ _ _ _ _ _ Hs Hsp) as Hge.
    pose proof (leaves_between _ _ _ _ _ _ _ _ _ _ Hs Hsp) as (l1 & l2 & -> & H1 & H2 & Hlt).
    assert (∀ e, e ∈ l2 → below hi e.1) as Hhi2 by (intros e He; apply Hhi, elem_of_app; by right).
    assert (∀ e, e ∈ l1 → ¬ blt e.1 b) as Hge1 by (intros e He; apply Hge, elem_of_app; by left).
    rewrite within_app, fmap_cons. cbn [app visit at_level fst snd left_bound field_id].
    rewrite N.eqb_refl. cbn [negb]. fold (at_level f (S l)). rewrite stop_0.
    change (mkKey f (S l) b', v') with (at_level f (S l) (b', v')).
    case_if Hskip.
    { rewrite (IH b' v' l2) by done. rewrite (within_none l1); [f_equal; set_solver|]. intros e He [Ha _]. apply Hlt in He.
      unfold above, ge_bytes, lt_bytes in *.
      destruct left_; rewrite ?negb_true_iff in Hskip; try case_bool_decide; try done; border. }
    case_bool_decide as Hb; cbn [negb]; cycle 1.
    { rewrite <- within_app, (within_above_none _ b) by done. f_equal. set_solver. }
    case_if Htake.
    + rewrite (span_bitmap _ _ _ _ _ _ H1), (IH b' v' l2) by done. rewrite (within_all l1); [f_equal; set_solver|]. intros e He.
      pose proof (Hge1 e He) as H3. pose proof (Hlt e He) as H4. apply andb_true_iff in Htake as [Hl Hr].
      unfold above, below, le_bytes, gt_bytes, ge_bytes, lt_bytes in *.
      split; [clear Hr|clear Hl]; [destruct left_|destruct right_]; try case_bool_decide; try done; border.
    + rewrite (run_group l rec b v l1) by done. cbn. rewrite (IH b' v' l2) by done. f_equal. set_solver.
Qed.

Lemma run_spec l : run_ok l (run db f left_ right_ l).
Proof.
  induction l as [|l IH]; intros b v s leaves rest hi n docids Hsp Hn Hrest Hhi.
  - cbn. unfold run_level_0. rewrite Hn. f_equal. destruct Hsp as [? ->].
    apply visit_level_0_spec; [|done]. by eapply (span_sorted ∅ db f 0).
  - cbn [run]. rewrite Hn, fmap_cons. cbn [app]. by apply (visit_spec l _ b v s).
Qed.
End range_search.

Lemma encode_bound_Ok {V} (enc : V → option bytes) b b' :
  encode_bound enc b = Ok b' →
  match b, b' with
  | Included v, Included k | Excluded v, Excluded k => enc v = Some k
  | Unbounded, Unbounded => True
  | _, _ => False
  end.
Proof. destruct b; cbn; intros; inv_ok; done. Qed.


(** *** The theorem *)
Lemma in_level_0 db f d b v : db_sorted db → d ∈ gv_bitmap v → (b, v) ∈ level db f 0 →
  db_get (mkKey f 0 b) db = Some v.
Proof. intros Hs _. by apply db_get_level. Qed.

Lemma elem_of_within db f lo hi d :
  db_sorted db →
  d ∈ within lo hi (level db f 0) ↔
  ∃ k v, db_get (mkKey f 0 k) db = Some v ∧ above lo k ∧ below hi k ∧ d ∈ gv_bitmap v.
Proof.
  intros Hs. unfold within. rewrite elem_of_docids_of. split.
  - intros ([k v] & [Hc Hin]%list_elem_of_filter & Hd). apply Is_true_true, contains_spec in Hc as [Ha Hb].
    exists k, v. by rewrite db_get_level.
  - intros (k & v & Hk & Ha & Hb & Hd). rewrite db_get_level in Hk by done.
    exists (k, v). split; [|done]. apply list_elem_of_filter. split; [|done].
    by apply Is_true_true, contains_spec.
Qed.

Lemma find_docids_within {V} (enc : V → option bytes) db f lo hi lo' hi' docids :
  tree_ok ∅ db f → (N.of_nat (length db) ≤ usize_max)%N →
  encode_bound enc lo = Ok lo' → encode_bound enc hi = Ok hi' →
  find_docids_of_facet_within_bounds enc db f lo hi docids = Ok (docids ∪ within lo' hi' (level db f 0)).
Proof.
  intros (Hs & h & Hok) Hlen Hlo Hhi. unfold find_docids_of_facet_within_bounds. rewrite Hlo, Hhi. cbn.
  rewrite first_facet_value, last_facet_value, (levels_highest ∅ db f h) by done.
  destruct (level db f 0) as [|[b v] L] eqn:HL; [cbn; f_equal; set_solver|]. cbn [head fmap option_fmap option_map].
  destruct (last ((b, v) :: L)) as [[r w]|] eqn:Hlast; [|by apply last_None in Hlast]. cbn [fmap option_fmap option_map fst].
  destruct (level db f h) as [|[b' v'] s] eqn:HLh.
  { exfalso. apply (levels_nonempty ∅ db f h h); [done|lia|by rewrite HL|done]. }
  pose proof (levels_span ∅ db f h h Hok ltac:(lia)) as Hsp. rewrite HL, HLh in Hsp.
  pose proof (span_head _ _ _ _ _ _ _ _ Hsp) as (v2 & L2 & [= <- <- <-]).
  destruct (top_iter ∅ db f h b v' s) as (rest & Hiter & Hrest); [done..|].
  eapply run_spec; [done|exact Hsp|exact Hiter|done|].
  intros e He. pose proof (level_is_sorted db f 0 Hs) as Hls. rewrite HL in Hls.
  apply last_Some in Hlast as [l' Hl']. rewrite Hl' in He, Hls. cbn.
  apply sorted_app_inv in Hls as (_ & _ & Hls).
  apply elem_of_app in He as [He|He%list_elem_of_singleton]; [|subst; apply blt_irrefl].
  specialize (Hls e (r, w) He ltac:(left)). cbn in Hls. border.
Qed.

Lemma find_docids_elem {V} (enc : V → option bytes) db f lo hi lo' hi' docids :
  tree_ok ∅ db f → (N.of_nat (length db) ≤ usize_max)%N →
  encode_bound enc lo = Ok lo' → encode_bound enc hi = Ok hi' →
  ∃ found, find_docids_of_facet_within_bounds enc db f lo hi docids = Ok found ∧
    ∀ d, d ∈ found ↔ d ∈ docids ∨
      ∃ k v, db_get (mkKey f 0 k) db = Some v ∧ above lo' k ∧ below hi' k ∧ d ∈ gv_bitmap v.
Proof.
  intros Hok Hlen Hlo Hhi. eexists. split; [by apply find_docids_within|].
  intros d. rewrite elem_of_union, elem_of_within; [done|]. by destruct Hok.
Qed.

(** C10: Searching the documents with a value within two bounds answers exactly
    the documents of the values of the field within the bounds, added to those
    already found. *)
Theorem find_docids_of_facet_within_bounds_spec {V} (enc : V → option bytes) db f lo hi lo' hi' docids :
  tree_ok ∅ db f → (N.of_nat (length db) ≤ usize_max)%N →
  encode_bound enc lo = Ok lo' → encode_bound enc hi = Ok hi' →
  ∃ found, find_docids_of_facet_within_bounds enc db f lo hi docids = Ok found ∧
    ∀ d, d ∈ found ↔ d ∈ docids ∨
      ∃ k v, db_get (mkKey f 0 k) db = Some v ∧ above lo' k ∧ below hi' k ∧ d ∈ gv_bitmap v.
Proof. apply find_docids_elem. Qed.
