(* ===== verification/FacetSort.v ===== *)
(** * Sorting candidates by facet value
      (milli/src/search/facet/facet_sort_{ascending,descending}.rs)

    The two iterators keep a stack of the groups that are being visited, with the
    candidates that are left in each of them.  [ascending_facet_sort] and
    [descending_facet_sort] collect what the iterators yield; the fuel counts the
    turns of the outer loop of [next]. *)
From S2P Require Import Prelude Json FacetDb FacetTree FacetSearch.
From S2P Require FieldsIdsMap DocumentsIds.
Import FieldsIdsMap (FieldId).
Import DocumentsIds (DocumentId).

(** The candidates of a value, and the value. *)
Abbreviation Item := (gset DocumentId * bytes)%type.

(** ** Ascending *)
Module Ascending.

(** [Take<RoRange>] is the list of the entries it has yet to yield. *)
Abbreviation Frame := (gset DocumentId * FacetDb)%type.

(** How the inner loop ends: [return None], out of the loop, on a value of the
    level 0, or on a group to visit. *)
Inductive Scan :=
| OtherField
| Done
| Value (item : Item) (frame : Frame)
| Group (frame : Frame) (child : Frame).

Section Ascending.
Context (db : FacetDb) (self_field_id : FieldId).

Fixpoint scan (documents_ids : gset DocumentId) (deepest_iter : FacetDb) : Scan :=
  match deepest_iter with
  | [] => Done
  | (mkKey field_id level left_bound, mkValue group_size bitmap) :: deepest_iter =>
      if negb (field_id =? self_field_id)%N then OtherField
      else if decide (documents_ids = ∅) then Done
      else
        let bitmap := bitmap ∩ documents_ids in
        if decide (bitmap = ∅) then scan documents_ids deepest_iter
        else
          let documents_ids := documents_ids ∖ bitmap in
          match level with
          | 0 => Value (bitmap, left_bound) (documents_ids, deepest_iter)
          | S below =>
              let starting_key_below := mkKey self_field_id below left_bound in
              let iter := take_n group_size (db_range_from starting_key_below db) in
              Group (documents_ids, deepest_iter) (bitmap, iter)
          end
  end.

(** The items of the successive calls to [next], up to the first [None]. *)
Fixpoint items (fuel : nat) (stack : list Frame) : option (list Item) :=
  match fuel with
  | 0 => None
  | S fuel =>
      match stack with
      | [] => Some []
      | (documents_ids, deepest_iter) :: stack =>
          match scan documents_ids deepest_iter with
          | OtherField => Some []
          | Done => items fuel stack
          | Value item frame => cons item <$> items fuel (frame :: stack)
          | Group frame child => items fuel (child :: frame :: stack)
          end
      end
  end.
End Ascending.
End Ascending.

Definition ascending_facet_sort (fuel : nat) (db : FacetDb) (field_id : FieldId)
    (candidates : gset DocumentId) : option (list Item) :=
  let highest_level := get_highest_level db field_id in
  match get_first_facet_value db field_id with
  | Some first_bound =>
      let first_key := mkKey field_id highest_level first_bound in
      let iter := take_n usize_max (db_range_from first_key db) in
      Ascending.items db field_id fuel [(candidates, iter)]
  | None => Some []
  end.

(** ** Descending *)
Module Descending.

Abbreviation Frame := (gset DocumentId * FacetDb * Bound bytes)%type.

Inductive Scan :=
| OtherField
| Done
| Value (item : Item) (frame : Frame)
| Group (frame : Frame) (child : Frame).

(** [rev_range(start..=end)] and [rev_range(start..end)]. *)
Definition ends_at (end_key : Bound FacetGroupKey) (k : FacetGroupKey) : Prop :=
  match end_key with
  | Included k' => ¬ key_lt k' k
  | Excluded k' => key_lt k k'
  | Unbounded => True
  end.

#[export] Instance ends_at_dec end_key k : Decision (ends_at end_key k).
Proof. unfold ends_at. destruct end_key; apply _. Defined.

Definition db_rev_range (start_key : FacetGroupKey) (end_key : Bound FacetGroupKey) (db : FacetDb) : FacetDb :=
  rev (filter (λ e, ¬ key_lt e.1 start_key ∧ ends_at end_key e.1) db).

Section Descending.
Context (db : FacetDb) (self_field_id : FieldId).

Definition end_key_below (field_id : FieldId) (below : nat) (right_bound : Bound bytes) : Bound FacetGroupKey :=
  match right_bound with
  | Included hi => Included (mkKey field_id below hi)
  | Excluded hi => Excluded (mkKey field_id below hi)
  | Unbounded => Unbounded
  end.

Fixpoint scan (documents_ids : gset DocumentId) (deepest_iter : FacetDb) (right_bound : Bound bytes) : Scan :=
  match deepest_iter with
  | [] => Done
  | (mkKey field_id level left_bound, mkValue group_size bitmap) :: deepest_iter =>
      if negb (field_id =? self_field_id)%N then OtherField
      else if decide (documents_ids = ∅) then Done
      else
        let bitmap := bitmap ∩ documents_ids in
        if decide (bitmap = ∅) then scan documents_ids deepest_iter (Excluded left_bound)
        else
          let documents_ids := documents_ids ∖ bitmap in
          match level with
          | 0 => Value (bitmap, left_bound) (documents_ids, deepest_iter, right_bound)
          | S below =>
              let starting_key_below := mkKey field_id below left_bound in
              let end_key_kelow := end_key_below field_id below right_bound in
              let prev_right_bound := right_bound in
              let iter := take_n group_size (db_rev_range starting_key_below end_key_kelow db) in
              Group (documents_ids, deepest_iter, Excluded left_bound) (bitmap, iter, prev_right_bound)
          end
  end.

Fixpoint items (fuel : nat) (stack : list Frame) : option (list Item) :=
  match fuel with
  | 0 => None
  | S fuel =>
      match stack with
      | [] => Some []
      | (documents_ids, deepest_iter, right_bound) :: stack =>
          match scan documents_ids deepest_iter right_bound with
          | OtherField => Some []
          | Done => items fuel stack
          | Value item frame => cons item <$> items fuel (frame :: stack)
          | Group frame child => items fuel (child :: frame :: stack)
          end
      end
  end.
End Descending.
End Descending.

Definition descending_facet_sort (fuel : nat) (db : FacetDb) (field_id : FieldId)
    (candidates : gset DocumentId) : outcome FacetError (option (list Item)) :=
  let highest_level := get_highest_level db field_id in
  match get_first_facet_value db field_id with
  | Some first_bound =>
      let first_key := mkKey field_id highest_level first_bound in
      match get_last_facet_value db field_id with
      | Some last_bound =>
          let last_key := mkKey field_id highest_level last_bound in
          let iter := take_n usize_max (Descending.db_rev_range first_key (Included last_key) db) in
          Ok (Descending.items db field_id fuel [(candidates, iter, Included last_bound)])
      | None => Panic "called Option::unwrap on a None value"
      end
  | None => Ok (Some [])
  end.

(** ** The order of the values

    The candidates of each value in turn, without those of the values before. *)
Fixpoint by_value (candidates : gset DocumentId) (L : Level) : list Item :=
  match L with
  | [] => []
  | (b, v) :: L =>
      let bitmap := gv_bitmap v ∩ candidates in
      if decide (bitmap = ∅) then by_value candidates L
      else (bitmap, b) :: by_value (candidates ∖ bitmap) L
  end.

Lemma by_value_empty L : by_value ∅ L = [].
Proof.
  induction L as [|[b v] L IH]; [done|]. cbn. rewrite decide_True by set_solver. exact IH.
Qed.

Lemma by_value_app cands L1 L2 :
  by_value cands (L1 ++ L2) = by_value cands L1 ++ by_value (cands ∖ docids_of L1) L2.
Proof.
  revert cands. induction L1 as [|[b v] L1 IH]; intros cands.
  - cbn. f_equal. unfold docids_of. cbn. set_solver.
  - cbn [app by_value]. rewrite docids_of_cons. cbn [fst snd].
    destruct (decide (gv_bitmap v ∩ cands = ∅)) as [He|He]; rewrite IH; cbn [app].
    + replace (cands ∖ (gv_bitmap v ∪ docids_of L1)) with (cands ∖ docids_of L1) by set_solver. done.
    + replace (cands ∖ (gv_bitmap v ∪ docids_of L1)) with (cands ∖ (gv_bitmap v ∩ cands) ∖ docids_of L1)
        by set_solver. done.
Qed.

(** Only the candidates with a value matter. *)
Lemma by_value_relevant X cands L :
  docids_of L ⊆ X → by_value (X ∩ cands) L = by_value cands L.
Proof.
  revert cands. induction L as [|[b v] L IH]; intros cands HX; [done|]. rewrite docids_of_cons in HX. cbn in *.
  assert (gv_bitmap v ∩ (X ∩ cands) = gv_bitmap v ∩ cands) as -> by set_solver.
  destruct (decide _); [apply IH; set_solver|]. f_equal.
  replace ((X ∩ cands) ∖ (gv_bitmap v ∩ cands)) with (X ∩ (cands ∖ (gv_bitmap v ∩ cands))) by set_solver.
  apply IH. set_solver.
Qed.

Lemma by_value_none cands L : docids_of L ∩ cands = ∅ → by_value cands L = [].
Proof.
  intros He. rewrite <- (by_value_relevant (docids_of L)) by done. rewrite He. apply by_value_empty.
Qed.

(** ** Ascending order *)
Section ascending.
Context (db : FacetDb) (f : FieldId) (Hs : db_sorted db).
Import Ascending.

Lemma items_done fuel ids iter stack :
  scan db f ids iter = Done → items db f (S fuel) ((ids, iter) :: stack) = items db f fuel stack.
Proof. intros H. cbn. by rewrite H. Qed.

Lemma items_skip fuel l b v ids iter stack :
  ids ≠ ∅ → gv_bitmap v ∩ ids = ∅ →
  items db f fuel ((ids, at_level f l (b, v) :: iter) :: stack) = items db f fuel ((ids, iter) :: stack).
Proof.
  intros Hids He. destruct fuel, v as [sz bm]; [done|]. cbn in *. rewrite N.eqb_refl. cbn [negb].
  by rewrite decide_False, decide_True by done.
Qed.

Lemma scan_value b v ids iter :
  gv_bitmap v ∩ ids ≠ ∅ →
  scan db f ids (at_level f 0 (b, v) :: iter) =
    Value (gv_bitmap v ∩ ids, b) (ids ∖ (gv_bitmap v ∩ ids), iter).
Proof.
  intros Hne. destruct v as [sz bm]. cbn in *. rewrite N.eqb_refl. cbn [negb].
  by rewrite !decide_False by set_solver.
Qed.

Lemma scan_group l b v ids iter :
  gv_bitmap v ∩ ids ≠ ∅ →
  scan db f ids (at_level f (S l) (b, v) :: iter) =
    Group (ids ∖ (gv_bitmap v ∩ ids), iter)
      (gv_bitmap v ∩ ids, take_n (gv_size v) (db_range_from (mkKey f l b) db)).
Proof.
  intros Hne. destruct v as [sz bm]. cbn in *. rewrite N.eqb_refl. cbn [negb].
  by rewrite !decide_False by set_solver.
Qed.

Lemma scan_empty l L rest : L ≠ [] → scan db f ∅ ((at_level f l <$> L) ++ rest) = Done.
Proof. destruct L as [|[b [sz bm]] L]; [done|]. intros _. cbn. by rewrite N.eqb_refl. Qed.

(** [tail] follows the groups in the iterator: nothing, or other fields. *)
Definition tail_ok (tail : FacetDb) : Prop := ∀ e, e ∈ tail → field_id e.1 ≠ f.

Lemma items_tail ids tail fuel :
  tail_ok tail → items db f (S (S fuel)) [(ids, tail)] = Some [].
Proof.
  intros Ht. destruct tail as [|[[f' l b] [sz bm]] tail]; [done|]. cbn.
  destruct (N.eqb_spec f' f) as [->|]; [|done]. destruct (Ht (mkKey f l b, mkValue sz bm)); [left|done].
Qed.

Lemma items_S fuel ids iter stack :
  items db f (S fuel) ((ids, iter) :: stack) =
    match scan db f ids iter with
    | OtherField => Some []
    | Done => items db f fuel stack
    | Value item frame => cons item <$> items db f fuel (frame :: stack)
    | Group frame child => items db f fuel (child :: frame :: stack)
    end.
Proof. done. Qed.

Lemma items_more fuel stack out : items db f fuel stack = Some out → items db f (S fuel) stack = Some out.
Proof.
  revert stack out. induction fuel as [|fuel IH]; intros stack out; [done|].
  destruct stack as [|[ids iter] stack]; [done|]. rewrite !items_S.
  destruct (scan db f ids iter); [done|auto| |auto].
  intros (out' & Hout & ->)%fmap_Some. apply IH in Hout. by rewrite Hout.
Qed.

(** Visiting the groups [seg] of a level yields their candidates by value; [tail]
    is what the iterator has after them. *)
Lemma items_groups l seg leaves ids tail stack :
  span ∅ db f l seg leaves →
  ∃ n, n ≤ (2 * l + 1) * length leaves ∧ ∀ fuel out, items db f fuel stack = Some out →
    (∀ ids', items db f fuel ((ids', tail) :: stack) = Some out) →
    items db f (n + fuel) ((ids, (at_level f l <$> seg) ++ tail) :: stack) =
      Some (by_value ids leaves ++ out).
Proof.
  revert seg leaves ids tail stack.
  induction l as [|l IHl]; intros seg; induction seg as [|[b v] seg IH]; intros leaves ids tail stack Hsp.
  1, 3: apply span_nil in Hsp as ->; exists 0; split; [lia|]; intros fuel out _ Hout; apply Hout.
  all: apply span_cons in Hsp as (l1 & l2 & -> & H1 & H2); rewrite fmap_cons; cbn [app].
  all: assert (0 < length l1) as Hpos by (destruct (span_head _ _ _ _ _ _ _ _ H1) as (? & ? & ->); cbn; lia).
  all: rewrite length_app.
  all: pose proof (span_bitmap _ _ _ _ _ _ H1) as Hbm; rewrite by_value_app, <- Hbm.
  all: destruct (decide (ids = ∅)) as [->|Hids].
  1, 3: exists 1; split; [nia|]; intros fuel out Hout _; rewrite items_done by (by apply (scan_empty _ [(b, v)]));
    replace (∅ ∖ gv_bitmap v) with (∅ : gset DocumentId) by set_solver; rewrite !by_value_empty; exact Hout.
  all: destruct (decide (gv_bitmap v ∩ ids = ∅)) as [He|He].
  1, 3: destruct (IH _ ids tail stack H2) as (n & Hle & Hn); exists n; split; [nia|]; intros fuel out Hout Htl;
    rewrite items_skip, (Hn fuel out Hout Htl) by done;
    rewrite (by_value_none _ l1) by (by rewrite <- Hbm);
    replace (ids ∖ gv_bitmap v) with ids by set_solver; done.
  all: replace (ids ∖ gv_bitmap v) with (ids ∖ (gv_bitmap v ∩ ids)) by set_solver.
  all: destruct (IH _ (ids ∖ (gv_bitmap v ∩ ids)) tail stack H2) as (n & Hle & Hn).
  - exists (S n). split; [nia|]. intros fuel out Hout Htl. destruct H1 as [_ ->].
    change (S n + fuel) with (S (n + fuel)). rewrite items_S.
    rewrite scan_value, (Hn fuel out Hout Htl) by done. cbn [by_value]. by rewrite decide_False.
  - pose proof H1 as (g & (Hhd & Hsz & _) & Hg)%span_down. destruct Hhd as (w & g' & ->).
    cbn [fst snd] in Hsz, Hg.
    destruct (IHl _ l1 (gv_bitmap v ∩ ids) []
      ((ids ∖ (gv_bitmap v ∩ ids), (at_level f (S l) <$> seg) ++ tail) :: stack) Hg) as (m & Hlem & Hm).
    exists (S (m + S n)). split; [nia|]. intros fuel out Hout Htl. specialize (Hn fuel out Hout Htl).
    replace (S (m + S n) + fuel) with (S (m + S (n + fuel))) by lia. rewrite items_S.
    rewrite scan_group by done. rewrite Hsz, (group_iter ∅ db f l b w g' l1) by done.
    rewrite app_nil_r in Hm. rewrite (Hm _ _ (items_more _ _ _ Hn) (λ _, Hn)).
    rewrite by_value_relevant by (rewrite Hbm; done). by rewrite <- app_assoc.
Qed.
End ascending.

(** The highest level of a field that is not empty. *)
Lemma top_level db f h b v L :
  levels_ok ∅ db f h → level db f 0 = (b, v) :: L →
  ∃ v' s, level db f h = (b, v') :: s ∧ span ∅ db f h ((b, v') :: s) (level db f 0).
Proof.
  intros Hok HL. pose proof (levels_span ∅ db f h h Hok ltac:(lia)) as Hsp.
  destruct (level db f h) as [|[b' v'] s] eqn:HLh.
  { apply span_nil in Hsp. by rewrite HL in Hsp. }
  pose proof Hsp as (v2 & L2 & HL2)%span_head. rewrite HL in HL2. injection HL2 as <- _ _. eauto.
Qed.

(** The turns of the outer loop that are enough. *)
Definition sort_turns (db : FacetDb) (f : FieldId) : nat := (2 * get_highest_level db f + 1) * length (level db f 0) + 2.

Lemma ascending_facet_sort_correct db f candidates fuel :
  tree_ok ∅ db f → (N.of_nat (length db) ≤ usize_max)%N → sort_turns db f ≤ fuel →
  ascending_facet_sort fuel db f candidates = Some (by_value candidates (level db f 0)).
Proof.
  intros (Hs & h & Hok) Hlen Hfuel. unfold sort_turns in Hfuel. unfold ascending_facet_sort.
  rewrite (levels_highest ∅ db f h) in Hfuel |- * by done. rewrite first_facet_value by done.
  destruct (level db f 0) as [|[b v] L] eqn:HL; [done|].
  destruct (top_level db f h b v L) as (v' & s & HLh & Hsp); [done..|]. rewrite HL in Hsp.
  destruct (top_iter ∅ db f h b v' s) as (rest & Hiter & Hrest); [done..|].
  cbn [head fmap option_fmap option_map fst]. rewrite Hiter.
  destruct (items_groups db f Hs h _ _ candidates rest [] Hsp) as (n & Hle & Hn).
  replace fuel with (n + S (S (fuel - n - 2))) by lia.
  rewrite (Hn _ []), app_nil_r; [done..|]. intros ids'. by apply items_tail.
Qed.

(** The ascending sort yields, value by value in increasing order, the
    candidates that have the value and no smaller one; every fuel that is large
    enough gives this result. *)
Theorem ascending_facet_sort_spec db f candidates :
  tree_ok ∅ db f → (N.of_nat (length db) ≤ usize_max)%N →
  ∃ n, ∀ fuel, n ≤ fuel →
    ascending_facet_sort fuel db f candidates = Some (by_value candidates (level db f 0)).
Proof. intros Hok Hlen. exists (sort_turns db f). intros fuel Hfuel. by apply ascending_facet_sort_correct. Qed.

(** ** Descending order *)
Lemma docids_of_rev L : docids_of (rev L) = docids_of L.
Proof.
  induction L as [|e L IH]; [done|]. cbn [rev]. rewrite docids_of_app, IH, docids_of_cons.
  unfold docids_of at 2. cbn. set_solver.
Qed.

(** A segment of a level is given by its first key and its length. *)
Lemma segment_unique (p1 p2 g1 g2 q1 q2 : Level) b v1 v2 :
  level_sorted (p1 ++ (b, v1) :: g1 ++ q1) → p1 ++ (b, v1) :: g1 ++ q1 = p2 ++ (b, v2) :: g2 ++ q2 →
  length g1 = length g2 → v1 = v2 ∧ g1 = g2 ∧ q1 = q2.
Proof.
  intros Hs Heq Hlen. pose proof (filter_from p1 (g1 ++ q1) b v1 Hs) as H1.
  rewrite Heq in Hs, H1. rewrite filter_from in H1 by done. injection H1 as <- H1.
  split; [done|]. by apply app_inj_1 in H1 as [-> ->].
Qed.

Lemma level_key D db f h l b v :
  levels_ok D db f h → l ≤ h → (b, v) ∈ level db f l → ∃ v', (b, v') ∈ level db f 0.
Proof.
  intros Hok Hl (p & q & Hpq)%list_elem_of_split. pose proof (levels_span D db f h l Hok Hl) as Hsp.
  rewrite Hpq in Hsp. apply span_app in Hsp as (l1 & l2 & -> & _ & (v' & l' & ->)%span_head).
  exists v'. apply elem_of_app. right. left.
Qed.

Section descending.
Context (db : FacetDb) (f : FieldId) (h : nat) (Hs : db_sorted db) (Hok : levels_ok ∅ db f h).
Import Descending.

(** The right bound of an iterator that stops before [post]. *)
Definition right_ok (right_bound : Bound bytes) (post : Level) : Prop :=
  match post with
  | [] => ∃ hi, right_bound = Included hi ∧ ∀ e, e ∈ level db f 0 → ¬ blt hi e.1
  | (b', _) :: _ => right_bound = Excluded b'
  end.

Lemma right_ok_before l rb p g q :
  l ≤ h → level db f l = p ++ g ++ q → right_ok rb q → ∀ e, e ∈ g → below rb e.1.
Proof.
  intros Hl Hlev Hrb [b v] He. pose proof (level_is_sorted db f l Hs) as Hls. rewrite Hlev in Hls.
  destruct q as [|[b' v'] q].
  - destruct Hrb as (hi & -> & Hhi). cbn.
    destruct (level_key ∅ db f h l b v Hok Hl) as (v' & Hin); [rewrite Hlev; set_solver|].
    apply (Hhi _ Hin).
  - cbn in Hrb. subst rb. cbn. apply sorted_app_inv in Hls as (_ & (_ & _ & Hls)%sorted_app_inv & _).
    apply (Hls (b, v) (b', v')); [done|left].
Qed.

Lemma right_ok_after l rb p q :
  level db f l = p ++ q → right_ok rb q → ∀ e, e ∈ q → ¬ below rb e.1.
Proof.
  intros Hlev Hrb [b v] He. pose proof (level_is_sorted db f l Hs) as Hls. rewrite Hlev in Hls.
  destruct q as [|[b' v'] q]; [by apply not_elem_of_nil in He|]. cbn in Hrb. subst rb. cbn.
  apply sorted_app_inv in Hls as (_ & Hls & _).
  apply elem_of_cons in He as [[= -> ->]|He]; [apply blt_irrefl|].
  apply (sorted_app_inv blt [(b', v')]) in Hls as (_ & _ & Hls).
  specialize (Hls (b', v') (b, v) ltac:(left) He). cbn in Hls. border.
Qed.

Lemma rev_range_group l b v g p q rb :
  l ≤ h → level db f l = p ++ ((b, v) :: g) ++ q → right_ok rb q →
  db_rev_range (mkKey f l b) (end_key_below f l rb) db = rev (at_level f l <$> (b, v) :: g).
Proof.
  intros Hl Hlev Hrb. unfold db_rev_range. f_equal.
  destruct (db_split db f l Hs) as (lo & hi & Hdb & Hlo & Hhi). rewrite Hdb at 1. rewrite !filter_app.
  assert (rb ≠ Unbounded) as Hbd by (destruct q as [|[] ?]; [destruct Hrb as (? & -> & _)|rewrite Hrb]; done).
  rewrite (filter_none _ lo), (filter_none _ hi), app_nil_r, app_nil_l; cycle 1.
  { intros e He [_ Hend]. specialize (Hhi e He). destruct rb as [k|k|]; cbn in Hend; [..|done].
    - apply Hend. left. apply Hhi.
    - by apply (not_level_lt_both (mkKey f l k) e.1). }
  { intros e He [Hst _]. apply Hst. left. by apply Hlo. }
  pose proof (right_ok_before l rb p _ q Hl Hlev Hrb) as Hin.
  assert (∀ e, e ∈ q → ¬ below rb e.1) as Hout.
  { apply (right_ok_after l rb (p ++ (b, v) :: g)); [|done]. by rewrite <- app_assoc. }
  assert (∀ e, ¬ key_lt (at_level f l e).1 (mkKey f l b) ∧ ends_at (end_key_below f l rb) (at_level f l e).1
    ↔ ¬ blt e.1 b ∧ below rb e.1) as Hiff.
  { intros e. unfold key_lt, level_lt, same_level. cbn.
    destruct rb as [k|k|]; cbn; unfold key_lt, level_lt, same_level; cbn; naive_solver lia. }
  rewrite (filter_at_level f l _ (λ e, ¬ blt e.1 b ∧ below rb e.1)) by done. f_equal.
  pose proof (level_is_sorted db f l Hs) as Hls. rewrite Hlev in Hls |- *.
  apply sorted_app_inv in Hls as (_ & Hls & Hp). rewrite !filter_app.
  rewrite (filter_none _ p), (filter_none _ q), app_nil_r, app_nil_l; cycle 1.
  { intros e He [_ Hb]. by apply (Hout e). }
  { intros e He [Hb _]. apply Hb, (Hp e (b, v)); [done|left]. }
  apply filter_all. intros e He. split; [|by apply Hin].
  apply (sorted_app_inv blt ((b, v) :: g)) in Hls as (Hls & _). apply elem_of_cons in He as [->|He]; [apply blt_irrefl|].
  apply (sorted_app_inv blt [(b, v)]) in Hls as (_ & _ & Hls). specialize (Hls (b, v) e ltac:(left) He).
  cbn in Hls. border.
Qed.

(** The entries of a group, and what the iterator has of them. *)
Lemma last_group l b v s p q rb l1 :
  S l ≤ h → level db f (S l) = p ++ (s ++ [(b, v)]) ++ q → right_ok rb q → span ∅ db f (S l) [(b, v)] l1 →
  ∃ g lp lq, level db f l = lp ++ g ++ lq ∧ right_ok rb lq ∧ span ∅ db f l g l1 ∧
    take_n (gv_size v) (db_rev_range (mkKey f l b) (end_key_below f l rb) db) = rev (at_level f l <$> g).
Proof.
  intros Hl Hlev Hrb (g & (Hhd & Hsz & _) & Hg)%span_down. destruct Hhd as (w & g' & ->). cbn [fst snd] in *.
  destruct Hok as (_ & Hgr & _). specialize (Hgr l ltac:(lia)). rewrite Hlev in Hgr.
  apply groups_app_inv in Hgr as (lp & lo & Hlo & _ & Hgr).
  apply groups_app_inv in Hgr as (lo' & lq & -> & Hgr & Hq).
  apply groups_app_inv in Hgr as (ls & lg & -> & _ & ((w2 & g2 & Hg2) & Hsz2 & _)%groups_single).
  cbn [fst snd] in *. subst lg.
  assert (w = w2 ∧ g' = g2 ∧ ∃ p', level db f l = p' ++ ((b, w) :: g') ++ lq) as (-> & -> & p' & Hlev').
  { pose proof Hg as (pre & post & Hpre)%span_segment. pose proof (level_is_sorted db f l Hs) as Hls.
    rewrite Hpre in Hls. assert (pre ++ (b, w) :: g' ++ post = (lp ++ ls) ++ (b, w2) :: g2 ++ lq) as Heq.
    { etrans; [symmetry; exact Hpre|]. rewrite Hlo, <- !app_assoc. done. }
    destruct (segment_unique _ _ _ _ _ _ _ _ _ Hls Heq) as (-> & -> & ->).
    { rewrite Hsz in Hsz2. cbn [length] in Hsz2. lia. }
    split_and!; [done..|]. by exists pre. }
  assert (right_ok rb lq) as Hrb'.
  { destruct q as [|[b' v'] q]; [by inversion Hq; subst|]. by apply groups_head in Hq as (v2 & lq' & ->). }
  exists ((b, w2) :: g2), p', lq. split_and!; [done..|].
  rewrite (rev_range_group l b w2 g2 p' lq rb) by (done || lia). apply take_n_all.
  by rewrite length_rev, length_fmap, Hsz.
Qed.

Lemma scan_skip ids l b v iter rb :
  ids ≠ ∅ → gv_bitmap v ∩ ids = ∅ →
  scan db f ids (at_level f l (b, v) :: iter) rb = scan db f ids iter (Excluded b).
Proof.
  intros Hids He. destruct v as [sz bm]. cbn in *. rewrite N.eqb_refl. cbn [negb].
  by rewrite decide_False, decide_True by done.
Qed.

Lemma scan_empty_d l e iter rb : scan db f ∅ (at_level f l e :: iter) rb = Done.
Proof. destruct e as [b [sz bm]]. cbn. by rewrite N.eqb_refl. Qed.

Lemma scan_value_d b v ids iter rb :
  gv_bitmap v ∩ ids ≠ ∅ →
  scan db f ids (at_level f 0 (b, v) :: iter) rb =
    Value (gv_bitmap v ∩ ids, b) (ids ∖ (gv_bitmap v ∩ ids), iter, rb).
Proof.
  intros Hne. destruct v as [sz bm]. cbn in *. rewrite N.eqb_refl. cbn [negb].
  by rewrite !decide_False by set_solver.
Qed.

Lemma scan_group_d l b v ids iter rb :
  gv_bitmap v ∩ ids ≠ ∅ →
  scan db f ids (at_level f (S l) (b, v) :: iter) rb =
    Group (ids ∖ (gv_bitmap v ∩ ids), iter, Excluded b)
      (gv_bitmap v ∩ ids, take_n (gv_size v) (db_rev_range (mkKey f l b) (end_key_below f l rb) db), rb).
Proof.
  intros Hne. destruct v as [sz bm]. cbn in *. rewrite N.eqb_refl. cbn [negb].
  by rewrite !decide_False by set_solver.
Qed.

Lemma items_S_d fuel ids iter rb stack :
  items db f (S fuel) ((ids, iter, rb) :: stack) =
    match scan db f ids iter rb with
    | OtherField => Some []
    | Done => items db f fuel stack
    | Value item frame => cons item <$> items db f fuel (frame :: stack)
    | Group frame child => items db f fuel (child :: frame :: stack)
    end.
Proof. done. Qed.

Lemma items_same fuel ids iter rb iter' rb' stack :
  scan db f ids iter rb = scan db f ids iter' rb' →
  items db f fuel ((ids, iter, rb) :: stack) = items db f fuel ((ids, iter', rb') :: stack).
Proof. intros H. destruct fuel; [done|]. by rewrite !items_S_d, H. Qed.

(** Visiting the groups [seg] of a level, before [q]. *)
Lemma items_groups_d l seg leaves ids p q rb stack :
  l ≤ h → level db f l = p ++ seg ++ q → (0 < l → right_ok rb q) → span ∅ db f l seg leaves →
  ∃ n, n ≤ (2 * l + 1) * length leaves + 1 ∧ ∀ fuel out, items db f fuel stack = Some out →
    items db f (n + fuel) ((ids, rev (at_level f l <$> seg), rb) :: stack) =
      Some (by_value ids (rev leaves) ++ out).
Proof.
  revert seg leaves ids p q rb stack.
  induction l as [|l IHl]; intros seg; induction seg as [|[b v] seg IH] using rev_ind;
    intros leaves ids p q rb stack Hl Hlev Hrb Hsp.
  1, 3: apply span_nil in Hsp as ->; exists 1; split; [lia|]; intros fuel out Hout; done.
  all: assert (level db f _ = p ++ seg ++ (b, v) :: q) as Hlev' by (rewrite Hlev, <- app_assoc; done).
  all: apply span_app in Hsp as (l2 & l1 & -> & H2 & H1).
  all: assert (0 < length l1) as Hpos by (destruct (span_head _ _ _ _ _ _ _ _ H1) as (? & ? & ->); cbn; lia).
  all: rewrite length_app.
  all: rewrite fmap_app, rev_app_distr; cbn [fmap list_fmap rev app]; rewrite rev_app_distr, by_value_app, docids_of_rev.
  all: pose proof (span_bitmap _ _ _ _ _ _ H1) as Hbm; rewrite <- Hbm.
  all: destruct (decide (ids = ∅)) as [->|Hids].
  1, 3: exists 1; split; [lia|]; intros fuel out Hout; cbn [Nat.add]; rewrite items_S_d, scan_empty_d;
    replace (∅ ∖ gv_bitmap v) with (∅ : gset DocumentId) by set_solver; rewrite !by_value_empty; exact Hout.
  all: destruct (decide (gv_bitmap v ∩ ids = ∅)) as [He|He].
  1, 3: destruct (IH l2 ids p _ (Excluded b) stack Hl Hlev' ltac:(done) H2) as (n & Hle & Hn); exists n; split; [nia|]; intros fuel out Hout;
    rewrite (items_same _ _ _ _ _ _ _ (scan_skip _ _ _ _ _ _ Hids He)), (Hn fuel out Hout) by done;
    rewrite (by_value_none _ (rev l1)) by (by rewrite docids_of_rev, <- Hbm);
    replace (ids ∖ gv_bitmap v) with ids by set_solver; done.
  all: replace (ids ∖ gv_bitmap v) with (ids ∖ (gv_bitmap v ∩ ids)) by set_solver.
  - destruct (IH l2 (ids ∖ (gv_bitmap v ∩ ids)) p _ rb stack Hl Hlev' ltac:(lia) H2) as (n & Hle & Hn).
    exists (S n). split; [nia|]. intros fuel out Hout. destruct H1 as [_ ->].
    change (S n + fuel) with (S (n + fuel)). rewrite items_S_d.
    rewrite scan_value_d, (Hn fuel out Hout) by done. cbn [by_value rev app]. by rewrite decide_False.
  - destruct (IH l2 (ids ∖ (gv_bitmap v ∩ ids)) p _ (Excluded b) stack Hl Hlev' ltac:(done) H2) as (n & Hle & Hn).
    destruct (last_group l b v seg p q rb l1 Hl Hlev (Hrb ltac:(lia)) H1) as (g & lp & lq & Hlp & Hrq & Hg & Hiter).
    destruct (IHl g l1 (gv_bitmap v ∩ ids) lp lq rb
      ((ids ∖ (gv_bitmap v ∩ ids), rev (at_level f (S l) <$> seg), Excluded b) :: stack)) as (m & Hlem & Hm); [lia|done..|].
    exists (S (m + n)). split; [nia|]. intros fuel out Hout. specialize (Hn fuel out Hout).
    replace (S (m + n) + fuel) with (S (m + (n + fuel))) by lia. rewrite items_S_d.
    rewrite scan_group_d by done. rewrite Hiter, (Hm _ _ Hn).
    rewrite by_value_relevant by (rewrite docids_of_rev, Hbm; done). by rewrite <- app_assoc.
Qed.
End descending.

Lemma filter_fits (P : Entry → Prop) `{!∀ e, Decision (P e)} db n :
  (N.of_nat (length db) ≤ n)%N → (N.of_nat (length (filter P db)) ≤ n)%N.
Proof. pose proof (length_filter P db). lia. Qed.

Lemma descending_facet_sort_correct db f candidates fuel :
  tree_ok ∅ db f → (N.of_nat (length db) ≤ usize_max)%N → sort_turns db f ≤ fuel →
  descending_facet_sort fuel db f candidates = Ok (Some (by_value candidates (rev (level db f 0)))).
Proof.
  intros (Hs & h & Hok) Hlen Hfuel. unfold sort_turns in Hfuel. unfold descending_facet_sort.
  rewrite (levels_highest ∅ db f h) in Hfuel |- * by done. rewrite first_facet_value, last_facet_value by done.
  destruct (level db f 0) as [|[b v] L] eqn:HL; [done|].
  destruct (last ((b, v) :: L)) as [[r w]|] eqn:Hlast; [|by apply last_None in Hlast].
  destruct (top_level db f h b v L) as (v' & s & HLh & Hsp); [done..|].
  cbn [head fmap option_fmap option_map fst].
  assert (right_ok db f (Included r) []) as Hrb.
  { exists r. split; [done|]. pose proof (level_is_sorted db f 0 Hs) as Hls. rewrite HL in Hls |- *.
    apply last_Some in Hlast as [l' Hl']. rewrite Hl' in Hls |- *. apply sorted_app_inv in Hls as (_ & _ & Hls).
    intros e [He| ->%list_elem_of_singleton]%elem_of_app; [|apply blt_irrefl].
    specialize (Hls e (r, w) He ltac:(left)). cbn in Hls. border. }
  assert (level db f h = [] ++ ((b, v') :: s) ++ []) as HLh' by by rewrite app_nil_r.
  pose proof (rev_range_group db f h Hs Hok h b v' s [] [] (Included r) ltac:(lia) HLh' Hrb) as Hr.
  cbn [Descending.end_key_below] in Hr. rewrite Hr.
  rewrite take_n_all; cycle 1.
  { rewrite <- Hr. unfold Descending.db_rev_range. rewrite length_rev.
    apply filter_fits, Hlen. }
  destruct (items_groups_d db f h Hs Hok h _ _ candidates [] [] (Included r) [] ltac:(lia) HLh' (λ _, Hrb) Hsp) as (n & Hle & Hn).
  rewrite HL in Hle. replace fuel with (n + S (fuel - n - 1)) by lia.
  rewrite (Hn _ []), app_nil_r, HL by done. done.
Qed.

(** The descending sort yields, value by value in decreasing order, the
    candidates that have the value and no greater one, and does not panic. *)
Theorem descending_facet_sort_spec db f candidates :
  tree_ok ∅ db f → (N.of_nat (length db) ≤ usize_max)%N →
  ∃ n, ∀ fuel, n ≤ fuel →
    descending_facet_sort fuel db f candidates = Ok (Some (by_value candidates (rev (level db f 0)))).
Proof. intros Hok Hlen. exists (sort_turns db f). intros fuel Hfuel. by apply descending_facet_sort_correct. Qed.
