(* ===== verification/FacetDistribution.v ===== *)
(** * Facet distributions (milli/src/search/facet/facet_distribution_iter.rs)

    How many candidates each facet value has: in the order of the values, or from
    the most to the least frequent with a heap of groups.  The callback is a
    function that threads a state [S] of its own. *)
From S2P Require Import Prelude Json FacetDb FacetTree FacetSearch FacetSort.
From S2P Require FieldsIdsMap DocumentsIds.
Import FieldsIdsMap (FieldId).
Import DocumentsIds (DocumentId).

(** [RoaringBitmap::min] and [RoaringBitmap::len]. *)
Definition min_docid (s : gset DocumentId) : option DocumentId := head (merge_sort N.le (elements s)).
Definition len (s : gset DocumentId) : N := N.of_nat (size s).

(** What the callback receives: a value, its number of candidates, one of them. *)
Abbreviation Reported := (bytes * N * DocumentId)%type.

Section iterate.
Context {E S : Type} (db : FacetDb) (field_id_ : FieldId)
  (callback : bytes → N → DocumentId → S → outcome E (ControlFlow unit unit * S)).

(** ** In the order of the values *)
Fixpoint visit_values (candidates : gset DocumentId) (iter : FacetDb) (s : S) : outcome E (ControlFlow unit unit * S) :=
  match iter with
  | [] => Ok (Continue tt, s)
  | (key, value) :: iter =>
      if negb (field_id key =? field_id_)%N then Ok (Break tt, s)
      else
        let docids_in_common := gv_bitmap value ∩ candidates in
        if decide (docids_in_common = ∅) then visit_values candidates iter s
        else
          match min_docid docids_in_common with
          | None => Panic "called Option::unwrap on a None value"
          | Some any_docid_in_common =>
              r ← callback (left_bound key) (len docids_in_common) any_docid_in_common s;
              match r with
              | (Continue _, s) => visit_values candidates iter s
              | (Break _, s) => Ok (Break tt, s)
              end
          end
  end.

Definition iterate_level_0 (candidates : gset DocumentId) (starting_bound : bytes) (group_size : N) (s : S) :
    outcome E (ControlFlow unit unit * S) :=
  let starting_key := mkKey field_id_ 0 starting_bound in
  visit_values candidates (take_n group_size (db_range_from starting_key db)) s.

(** The loop of [iterate], [rec] is [iterate] on the level below. *)
Fixpoint visit_groups (rec : gset DocumentId → bytes → N → S → outcome E (ControlFlow unit unit * S))
    (candidates : gset DocumentId) (iter : FacetDb) (s : S) : outcome E (ControlFlow unit unit * S) :=
  match iter with
  | [] => Ok (Continue tt, s)
  | (key, value) :: iter =>
      if negb (field_id key =? field_id_)%N then Ok (Break tt, s)
      else
        let docids_in_common := gv_bitmap value ∩ candidates in
        if decide (docids_in_common = ∅) then visit_groups rec candidates iter s
        else
          r ← rec docids_in_common (left_bound key) (gv_size value) s;
          match r with
          | (Continue _, s) => visit_groups rec candidates iter s
          | (Break _, s) => Ok (Break tt, s)
          end
  end.

Fixpoint iterate (level : nat) (candidates : gset DocumentId) (starting_bound : bytes) (group_size : N) (s : S) :
    outcome E (ControlFlow unit unit * S) :=
  match level with
  | 0 => iterate_level_0 candidates starting_bound group_size s
  | Datatypes.S below =>
      let starting_key := mkKey field_id_ level starting_bound in
      visit_groups (iterate below) candidates (take_n group_size (db_range_from starting_key db)) s
  end.

Definition lexicographically_iterate_over_facet_distribution (candidates : gset DocumentId) (s : S) : outcome E S :=
  let highest_level := get_highest_level db field_id_ in
  match get_first_facet_value db field_id_ with
  | Some first_bound =>
      '(_, s) ← iterate highest_level candidates first_bound usize_max s;
      Ok s
  | None => Ok s
  end.

(** ** In the order of the counts *)
Record LevelEntry := mkLevelEntry {
  count : N;
  le_level : nat;
  le_left_bound : bytes;
  group_size : N;
  any_docid : DocumentId
}.

(** The derived order: the fields one after the other, the level reversed. *)
Definition entry_lt (x y : LevelEntry) : Prop :=
  (count x < count y)%N ∨ count x = count y ∧ (
    le_level y < le_level x ∨ le_level x = le_level y ∧ (
      blt (le_left_bound x) (le_left_bound y) ∨ le_left_bound x = le_left_bound y ∧ (
        (group_size x < group_size y)%N ∨ group_size x = group_size y ∧ (any_docid x < any_docid y)%N))).

#[local] Instance entry_lt_dec x y : Decision (entry_lt x y).
Proof. unfold entry_lt. apply _. Defined.

(** [BinaryHeap::pop]: a greatest entry and the others. *)
Fixpoint heap_pop (heap : list LevelEntry) : option (LevelEntry * list LevelEntry) :=
  match heap with
  | [] => None
  | x :: heap =>
      match heap_pop heap with
      | None => Some (x, [])
      | Some (y, rest) => if decide (entry_lt x y) then Some (y, x :: rest) else Some (x, y :: rest)
      end
  end.

(** The entries of the groups that have candidates; other fields end the loop. *)
Fixpoint push_groups (candidates : gset DocumentId) (iter : FacetDb) (heap : list LevelEntry) :
    outcome E (list LevelEntry) :=
  match iter with
  | [] => Ok heap
  | (key, value) :: iter =>
      if negb (field_id key =? field_id_)%N then Ok heap
      else
        let intersection := gv_bitmap value ∩ candidates in
        let count := len intersection in
        if (count =? 0)%N then push_groups candidates iter heap
        else
          match min_docid intersection with
          | None => Panic "called Option::unwrap on a None value"
          | Some any_docid =>
              push_groups candidates iter
                (mkLevelEntry count (gk_level key) (left_bound key) (gv_size value) any_docid :: heap)
          end
  end.

(** The [while] loop. *)
Fixpoint explore (fuel : nat) (candidates : gset DocumentId) (heap : list LevelEntry) (s : S) :
    option (outcome E S) :=
  match fuel with
  | 0 => None
  | Datatypes.S fuel =>
      match heap_pop heap with
      | None => Some (Ok s)
      | Some (mkLevelEntry count level left_bound group_size any_docid, heap) =>
          match level with
          | 0 =>
              match callback left_bound count any_docid s with
              | Ok (Continue _, s) => explore fuel candidates heap s
              | Ok (Break _, s) => Some (Ok s)
              | Err e => Some (Err e)
              | Panic msg => Some (Panic msg)
              end
          | Datatypes.S below =>
              let starting_key := mkKey field_id_ below left_bound in
              match push_groups candidates (take_n group_size (db_range_from starting_key db)) heap with
              | Ok heap => explore fuel candidates heap s
              | Err e => Some (Err e)
              | Panic msg => Some (Panic msg)
              end
          end
      end
  end.

Definition count_iterate_over_facet_distribution (fuel : nat) (candidates : gset DocumentId) (s : S) :
    option (outcome E S) :=
  let highest_level := get_highest_level db field_id_ in
  match get_first_facet_value db field_id_ with
  | Some first_bound =>
      let starting_key := mkKey field_id_ highest_level first_bound in
      match push_groups candidates (take_n usize_max (db_range_from starting_key db)) [] with
      | Ok heap => explore fuel candidates heap s
      | Err e => Some (Err e)
      | Panic msg => Some (Panic msg)
      end
  | None => Some (Ok s)
  end.
End iterate.

(** ** What the callback should receive *)
Definition report (candidates : gset DocumentId) (e : bytes * FacetGroupValue) : option Reported :=
  let common := gv_bitmap e.2 ∩ candidates in
  any ← min_docid common;
  Some (e.1, len common, any).

(** Calls the callback on the reports, up to its first [Break]. *)
Fixpoint feed {E S} (callback : bytes → N → DocumentId → S → outcome E (ControlFlow unit unit * S))
    (reports : list Reported) (s : S) : outcome E (ControlFlow unit unit * S) :=
  match reports with
  | [] => Ok (Continue tt, s)
  | (value, count, any) :: reports =>
      r ← callback value count any s;
      match r with
      | (Continue _, s) => feed callback reports s
      | (Break _, s) => Ok (Break tt, s)
      end
  end.

Lemma min_docid_None s : min_docid s = None ↔ s = ∅.
Proof.
  unfold min_docid. rewrite head_None. split.
  - intros H. apply leibniz_equiv, elements_empty_inv, Permutation_nil. rewrite <- H. apply merge_sort_Permutation.
  - intros ->. done.
Qed.

Lemma min_docid_elem s d : min_docid s = Some d → d ∈ s ∧ ∀ d', d' ∈ s → (d <= d')%N.
Proof.
  unfold min_docid. intros Hd. apply head_Some in Hd as [l Hl].
  pose proof (merge_sort_Permutation N.le (elements s)) as Hp.
  pose proof (StronglySorted_merge_sort N.le (elements s)) as Hsort. rewrite Hl in *.
  split.
  - apply elem_of_elements. rewrite <- Hp. left.
  - intros d' Hd'. apply elem_of_elements in Hd'. rewrite <- Hp in Hd'.
    apply StronglySorted_inv in Hsort as [_ Hsort]. rewrite Forall_forall in Hsort.
    apply elem_of_cons in Hd' as [->|Hd']; [lia|by apply Hsort].
Qed.

Lemma feed_app {E S} (cb : bytes → N → DocumentId → S → outcome E (ControlFlow unit unit * S)) l1 l2 s :
  feed cb (l1 ++ l2) s =
    r ← feed cb l1 s; match r with (Continue _, s) => feed cb l2 s | (Break _, s) => Ok (Break tt, s) end.
Proof.
  revert s. induction l1 as [|[[v c] a] l1 IH]; intros s; [done|]. cbn.
  destruct (cb v c a s) as [[[] s']| |]; cbn; [apply IH|done..].
Qed.

(** The reports of some values. *)
Definition reports (candidates : gset DocumentId) (L : Level) : list Reported := omap (report candidates) L.

Lemma report_relevant X cands e : gv_bitmap e.2 ⊆ X → report (X ∩ cands) e = report cands e.
Proof.
  intros HX. unfold report. replace (gv_bitmap e.2 ∩ (X ∩ cands)) with (gv_bitmap e.2 ∩ cands); [done|].
  set_solver.
Qed.

Lemma reports_relevant X cands L : docids_of L ⊆ X → reports (X ∩ cands) L = reports cands L.
Proof.
  intros HX. unfold reports. induction L as [|e L IH]; [done|]. rewrite docids_of_cons in HX. cbn.
  rewrite report_relevant, IH by set_solver. done.
Qed.

Lemma reports_none cands L : docids_of L ∩ cands = ∅ → reports cands L = [].
Proof.
  unfold reports. induction L as [|e L IH]; [done|]. rewrite docids_of_cons. intros He. cbn.
  rewrite IH by set_solver. unfold report. replace (gv_bitmap e.2 ∩ cands) with (∅ : gset DocumentId) by set_solver.
  by rewrite (proj2 (min_docid_None ∅)).
Qed.

Lemma reports_app cands L1 L2 : reports cands (L1 ++ L2) = reports cands L1 ++ reports cands L2.
Proof. apply omap_app. Qed.

Lemma report_Some cands e v c a :
  report cands e = Some (v, c, a) ↔
  v = e.1 ∧ c = len (gv_bitmap e.2 ∩ cands) ∧ min_docid (gv_bitmap e.2 ∩ cands) = Some a.
Proof.
  unfold report. destruct (min_docid _) as [a'|]; cbn; [naive_solver|].
  split; [done|]. by intros (_ & _ & ?).
Qed.

(** ** In the order of the values *)
Section lexicographic.
Context {E S : Type} (db : FacetDb) (f : FieldId) (Hs : db_sorted db).
Context (cb : bytes → N → DocumentId → S → outcome E (ControlFlow unit unit * S)).

(** Other fields stop the iteration. *)
Definition finish (tail : FacetDb) (r : ControlFlow unit unit * S) : outcome E (ControlFlow unit unit * S) :=
  match r, tail with
  | (Continue _, s), _ :: _ => Ok (Break tt, s)
  | _, _ => Ok r
  end.

Definition iterate_ok (l : nat) (rec : gset DocumentId → bytes → N → S → outcome E (ControlFlow unit unit * S)) : Prop :=
  ∀ b v seg leaves tail n cands s,
    span ∅ db f l ((b, v) :: seg) leaves →
    take_n n (db_range_from (mkKey f l b) db) = (at_level f l <$> (b, v) :: seg) ++ tail →
    (∀ e, e ∈ tail → field_id e.1 ≠ f) →
    rec cands b n s = feed cb (reports cands leaves) s ≫= finish tail.

Lemma visit_values_spec cands L tail s :
  (∀ e, e ∈ tail → field_id e.1 ≠ f) →
  visit_values f cb cands ((at_level f 0 <$> L) ++ tail) s = feed cb (reports cands L) s ≫= finish tail.
Proof.
  intros Ht. revert s. induction L as [|[b v] L IH]; intros s.
  - destruct tail as [|[k w] tail]; [done|]. cbn.
    destruct (N.eqb_spec (field_id k) f) as [Heq|]; [|done]. destruct (Ht (k, w)); [left|done].
  - rewrite fmap_cons. cbn [app visit_values at_level field_id fst snd]. rewrite N.eqb_refl. cbn [negb].
    fold (at_level f 0). change ((b, v) :: L) with ([(b, v)] ++ L). rewrite reports_app.
    destruct (decide (gv_bitmap v ∩ cands = ∅)) as [He|He].
    + rewrite IH, (reports_none _ [(b, v)]) by (unfold docids_of; cbn; set_solver). done.
    + destruct (min_docid (gv_bitmap v ∩ cands)) as [a|] eqn:Ha; [|by apply min_docid_None in Ha].
      unfold reports at 1. cbn [omap list_omap]. unfold report. cbn [fst snd]. rewrite Ha. cbn.
      destruct (cb b _ a s) as [[[] s']| |]; cbn; [|by destruct tail|done..]. apply IH.
Qed.

Lemma visit_groups_spec l rec seg leaves tail cands s :
  iterate_ok l rec → span ∅ db f (Datatypes.S l) seg leaves → (∀ e, e ∈ tail → field_id e.1 ≠ f) →
  visit_groups f rec cands ((at_level f (Datatypes.S l) <$> seg) ++ tail) s =
    feed cb (reports cands leaves) s ≫= finish tail.
Proof.
  intros Hrec Hsp Ht. revert leaves Hsp s. induction seg as [|[b v] seg IH]; intros leaves Hsp s.
  - apply span_nil in Hsp as ->. destruct tail as [|[k w] tail]; [done|]. cbn.
    destruct (N.eqb_spec (field_id k) f) as [Heq|]; [|done]. destruct (Ht (k, w)); [left|done].
  - apply span_cons in Hsp as (l1 & l2 & -> & H1 & H2). rewrite fmap_cons.
    cbn [app visit_groups at_level field_id left_bound fst snd]. rewrite N.eqb_refl. cbn [negb].
    fold (at_level f (Datatypes.S l)). rewrite reports_app.
    pose proof (span_bitmap _ _ _ _ _ _ H1) as Hbm.
    destruct (decide (gv_bitmap v ∩ cands = ∅)) as [He|He].
    + rewrite (IH _ H2), (reports_none _ l1) by (by rewrite <- Hbm). done.
    + pose proof H1 as (g & (Hhd & Hsz & _) & Hg)%span_down. destruct Hhd as (w & g' & ->). cbn [fst snd] in Hsz, Hg.
      rewrite (Hrec b w g' l1 [] (gv_size v) (gv_bitmap v ∩ cands) s); [|done| |by intros ? ?%not_elem_of_nil].
      * rewrite reports_relevant, feed_app by (by rewrite <- Hbm).
        destruct (feed cb (reports cands l1) s) as [[[] s']| |]; cbn; [by rewrite (IH _ H2)|by destruct tail|done..].
      * rewrite app_nil_r, Hsz. by apply (group_iter ∅ db f l b w g' l1).
Qed.

Lemma iterate_spec l : iterate_ok l (iterate db f cb l).
Proof.
  induction l as [|l IH]; intros b v seg leaves tail n cands s Hsp Hn Ht.
  - cbn [iterate]. unfold iterate_level_0. rewrite Hn. destruct Hsp as [_ ->]. by apply visit_values_spec.
  - cbn [iterate]. rewrite Hn. by eapply visit_groups_spec.
Qed.
End lexicographic.

(** The lexicographic distribution calls the callback on every value that
    some candidates have, in increasing order, with the number of these
    candidates and the smallest of them, up to the first [Break] or error. *)
Theorem lexicographic_distribution_spec {E S} db f
    (cb : bytes → N → DocumentId → S → outcome E (ControlFlow unit unit * S)) candidates s :
  tree_ok ∅ db f → (N.of_nat (length db) ≤ usize_max)%N →
  lexicographically_iterate_over_facet_distribution db f cb candidates s =
    snd <$> feed cb (reports candidates (level db f 0)) s.
Proof.
  intros (Hs & h & Hok) Hlen. unfold lexicographically_iterate_over_facet_distribution.
  rewrite first_facet_value, (levels_highest ∅ db f h) by done.
  destruct (level db f 0) as [|[b v] L] eqn:HL; [done|].
  destruct (top_level db f h b v L) as (v' & seg & HLh & Hsp); [done..|]. rewrite HL in Hsp.
  destruct (top_iter ∅ db f h b v' seg) as (rest & Hiter & Hrest); [done..|].
  cbn [head fmap option_fmap option_map fst].
  rewrite (iterate_spec db f Hs cb h b v' seg _ rest _ candidates s Hsp Hiter Hrest).
  destruct (feed cb _ s) as [[[] s']| |]; cbn; [|done..]. by destruct rest.
Qed.

(** ** In the order of the counts *)
Section by_count.
Context {E S : Type} (db : FacetDb) (f : FieldId) (Hs : db_sorted db) (cands : gset DocumentId).
Context (cb : bytes → N → DocumentId → S → outcome E (ControlFlow unit unit * S)).

(** How many entries a group can put on the heap, itself included. *)
Fixpoint weight (l : nat) (b : bytes) (n : N) : nat :=
  Datatypes.S match l with
    | 0 => 0
    | Datatypes.S below =>
        sum_list ((λ e : Entry, weight below (left_bound e.1) (gv_size e.2)) <$>
          take_n n (db_range_from (mkKey f below b) db))
    end.

Definition entry_weight (x : LevelEntry) : nat := weight (le_level x) (le_left_bound x) (group_size x).
Definition heap_weight (heap : list LevelEntry) : nat := sum_list (entry_weight <$> heap).

(** An entry and the values it stands for. *)
Definition entry_ok (p : LevelEntry * Level) : Prop :=
  ∃ v, span ∅ db f (le_level p.1) [(le_left_bound p.1, v)] p.2 ∧ group_size p.1 = gv_size v ∧
    count p.1 = len (gv_bitmap v ∩ cands) ∧ min_docid (gv_bitmap v ∩ cands) = Some (any_docid p.1).

Lemma heap_weight_app h1 h2 : heap_weight (h1 ++ h2) = heap_weight h1 + heap_weight h2.
Proof. unfold heap_weight. induction h1; cbn in *; lia. Qed.

Lemma heap_pop_spec heap x rest :
  heap_pop heap = Some (x, rest) → heap ≡ₚ x :: rest ∧ ∀ y, y ∈ rest → (count y <= count x)%N.
Proof.
  revert x rest. induction heap as [|z heap IH]; intros x rest; [done|]. cbn.
  destruct (heap_pop heap) as [[y r]|] eqn:Hpop.
  - destruct (IH y r eq_refl) as [Hp Hmax]. destruct (decide (entry_lt z y)) as [Hlt|Hge]; intros [= <- <-].
    + split; [rewrite Hp; apply Permutation_swap|]. intros w [->|Hw]%elem_of_cons; [|by apply Hmax].
      destruct Hlt as [?|[? _]]; lia.
    + split; [by rewrite Hp|]. assert (count y <= count z)%N as Hyz.
      { destruct (N.lt_ge_cases (count z) (count y)) as [?|?]; [|done]. destruct Hge. by left. }
      intros w [->|Hw]%elem_of_cons; [done|]. etrans; [by apply Hmax|done].
  - intros [= <- <-]. destruct heap as [|y heap]; [split; [done|set_solver]|]. cbn in Hpop.
    destruct (heap_pop heap) as [[? ?]|]; [destruct (decide _)|]; done.
Qed.

Lemma heap_pop_None heap : heap_pop heap = None → heap = [].
Proof.
  destruct heap as [|z heap]; [done|]. cbn. destruct (heap_pop heap) as [[? ?]|]; [destruct (decide _)|]; done.
Qed.

Lemma len_subset (X Y : gset DocumentId) : X ⊆ Y → (len X <= len Y)%N.
Proof. intros H%subseteq_size. unfold len. lia. Qed.

Lemma push_groups_spec l seg leaves tail heap :
  span ∅ db f l seg leaves → (∀ e, e ∈ tail → field_id e.1 ≠ f) →
  ∃ new, @push_groups E f cands ((at_level f l <$> seg) ++ tail) heap = Ok ((fst <$> new) ++ heap) ∧
    Forall entry_ok new ∧ reports cands (concat (snd <$> new)) ≡ₚ reports cands leaves ∧
    heap_weight (fst <$> new) ≤ sum_list ((λ e : bytes * FacetGroupValue, weight l e.1 (gv_size e.2)) <$> seg) ∧
    ∀ p, p ∈ new → (count p.1 <= len (docids_of leaves ∩ cands))%N.
Proof.
  intros Hsp Ht. revert leaves heap Hsp. induction seg as [|[b v] seg IH]; intros leaves heap Hsp.
  { apply span_nil in Hsp as ->. exists []. split_and!; [|done|done|done|by intros ? ?%not_elem_of_nil].
    destruct tail as [|[k w] tail]; [done|]. cbn.
    destruct (N.eqb_spec (field_id k) f) as [Heq|]; [|done]. destruct (Ht (k, w)); [left|done]. }
  apply span_cons in Hsp as (l1 & l2 & -> & H1 & H2). rewrite fmap_cons.
  cbn [app push_groups at_level field_id left_bound gk_level fst snd]. rewrite N.eqb_refl. cbn [negb].
  fold (at_level f l). pose proof (span_bitmap _ _ _ _ _ _ H1) as Hbm.
  assert (∀ c : N, (c <= len (docids_of l2 ∩ cands))%N → (c <= len (docids_of (l1 ++ l2) ∩ cands))%N) as Hle.
  { intros c Hc. etrans; [exact Hc|]. apply len_subset. rewrite docids_of_app. set_solver. }
  destruct (N.eqb_spec (len (gv_bitmap v ∩ cands)) 0) as [Hz|Hnz].
  - destruct (IH l2 heap H2) as (new & Hpush & Hok & Hrep & Hw & Hc). exists new. split_and!; [done|done| | |auto].
    + rewrite Hrep, reports_app, (reports_none _ l1); [done|]. rewrite <- Hbm. unfold len in Hz.
      apply leibniz_equiv, size_empty_inv. lia.
    + cbn. lia.
  - destruct (min_docid (gv_bitmap v ∩ cands)) as [a|] eqn:Ha.
    2: { apply min_docid_None in Ha. rewrite Ha in Hnz. unfold len in Hnz. by rewrite size_empty in Hnz. }
    set (x := mkLevelEntry (len (gv_bitmap v ∩ cands)) l b (gv_size v) a).
    destruct (IH l2 (x :: heap) H2) as (new & Hpush & Hok & Hrep & Hw & Hc). exists (new ++ [(x, l1)]). split_and!.
    + rewrite fmap_app, <- app_assoc. exact Hpush.
    + apply Forall_app. split; [done|]. constructor; [|constructor]. by exists v.
    + rewrite fmap_app, concat_app, !reports_app, Hrep. cbn. rewrite app_nil_r. apply Permutation_app_comm.
    + rewrite fmap_app, heap_weight_app. cbn. unfold entry_weight. cbn. lia.
    + intros p [Hp| ->%list_elem_of_singleton]%elem_of_app; [auto|]. cbn. apply len_subset.
      rewrite docids_of_app, <- Hbm. set_solver.
Qed.

Lemma heap_weight_perm h1 h2 : h1 ≡ₚ h2 → heap_weight h1 = heap_weight h2.
Proof. unfold heap_weight. induction 1; cbn in *; lia. Qed.

Definition by_count (x y : Reported) : Prop := (y.1.2 <= x.1.2)%N.

(** Popping an entry that is known to be right. *)
Lemma pop_ok (hp : list (LevelEntry * Level)) x rest :
  heap_pop (fst <$> hp) = Some (x, rest) →
  ∃ L hp', rest = fst <$> hp' ∧ hp ≡ₚ (x, L) :: hp' ∧ ∀ p, p ∈ hp' → (count p.1 <= count x)%N.
Proof.
  intros [Hp Hmax]%heap_pop_spec. symmetry in Hp. apply Permutation_map_inv in Hp as (hp' & Heq & Hp).
  destruct hp' as [|[x' L] hp']; [done|]. cbn in Heq. injection Heq as <- ->.
  exists L, hp'. split_and!; [done|done|]. intros p Hin. apply Hmax. by apply list_elem_of_fmap_2.
Qed.

Lemma concat_snd_perm (hp1 hp2 : list (LevelEntry * Level)) :
  hp1 ≡ₚ hp2 → concat (snd <$> hp1) ≡ₚ concat (snd <$> hp2).
Proof.
  induction 1 as [|p hp1 hp2 _ IH|p q hp|hp1 hp2 hp3 _ IH1 _ IH2]; cbn; [done|by rewrite IH| |by rewrite IH1].
  rewrite !app_assoc. apply Permutation_app_tail, Permutation_app_comm.
Qed.

Lemma explore_spec fuel (hp : list (LevelEntry * Level)) :
  heap_weight (fst <$> hp) < fuel → Forall entry_ok hp →
  ∃ out, (∀ s, explore db f cb fuel cands (fst <$> hp) s = Some (snd <$> feed cb out s)) ∧
    out ≡ₚ reports cands (concat (snd <$> hp)) ∧ StronglySorted by_count out ∧
    ∀ r, r ∈ out → ∃ p, p ∈ hp ∧ (r.1.2 <= count p.1)%N.
Proof.
  revert hp. induction fuel as [|fuel IH]; intros hp Hw Hok; [lia|]. cbn [explore].
  destruct (heap_pop (fst <$> hp)) as [[x rest]|] eqn:Hpop.
  2: { apply heap_pop_None, fmap_nil_inv in Hpop as ->. exists [].
    split_and!; [done|done|constructor|by intros ? ?%not_elem_of_nil]. }
  apply pop_ok in Hpop as (L & hp' & -> & Hp & Hmax).
  assert (heap_weight (fst <$> hp) = entry_weight x + heap_weight (fst <$> hp')) as Hwp.
  { rewrite (heap_weight_perm _ (fst <$> (x, L) :: hp')) by by rewrite Hp. done. }
  rewrite Hp in Hok. apply Forall_cons in Hok as [(v & Hsp & Hsz & Hct & Hany) Hok'].
  assert (∀ p, p ∈ (x, L) :: hp' → p ∈ hp) as Hin by (intros p; by rewrite Hp).
  apply concat_snd_perm in Hp. cbn [fst snd concat fmap list_fmap] in *.
  destruct x as [ct l b sz a]. cbn in *. subst sz ct. unfold entry_weight in Hwp. cbn [le_level le_left_bound group_size] in Hwp.
  destruct l as [|l].
  - cbn in Hwp. destruct (IH hp') as (out & Hex & Hperm & Hsort & Hcnt); [lia|done|].
    destruct Hsp as [_ ->]. exists ((b, len (gv_bitmap v ∩ cands), a) :: out). split_and!.
    + intros s. cbn. destruct (cb b _ a s) as [[[] s']| |]; cbn; [apply Hex|done..].
    + unfold reports in *. rewrite Hp. cbn. unfold report at 1. cbn [fst snd]. rewrite Hany. cbn. by rewrite Hperm.
    + constructor; [done|]. apply Forall_forall. intros r (p & Hpin & Hle)%Hcnt. unfold by_count.
      cbn. etrans; [exact Hle|by apply Hmax].
    + intros r [->|Hr]%elem_of_cons; [eexists; split; [apply Hin; left|done]|].
      apply Hcnt in Hr as (p & Hpin & Hle). exists p. split; [apply Hin; by right|done].
  - pose proof (span_bitmap _ _ _ _ _ _ Hsp) as Hbm.
    pose proof Hsp as (g & (Hhd & Hgs & _) & Hg)%span_down. destruct Hhd as (w & g' & ->). cbn [fst snd] in Hgs, Hg.
    pose proof (group_iter ∅ db f l b w g' L Hs Hg) as Hiter. rewrite <- Hgs in Hiter.
    destruct (push_groups_spec l _ L [] (fst <$> hp') Hg) as (new & Hpush & Hnew & Hrep & Hnw & Hnc);
      [by intros ? ?%not_elem_of_nil|]. rewrite app_nil_r in Hpush. rewrite Hiter, Hpush, <- fmap_app.
    destruct (IH (new ++ hp')) as (out & Hex & Hperm & Hsort & Hcnt).
    { cbn [weight] in Hwp. rewrite Hiter, <- list_fmap_compose in Hwp. rewrite fmap_app, heap_weight_app.
      unfold compose in Hwp. cbn in Hwp, Hnw |- *. lia. }
    { by apply Forall_app. }
    exists out. split_and!; [done| |done|].
    + rewrite Hperm, fmap_app, concat_app, reports_app, Hrep, <- reports_app. unfold reports. by rewrite Hp.
    + intros r (p & Hpin & Hle)%Hcnt. apply elem_of_app in Hpin as [Hpin|Hpin].
      * eexists. split; [apply Hin; left|]. cbn. etrans; [exact Hle|]. rewrite Hbm. by apply Hnc.
      * exists p. split; [apply Hin; by right|done].
Qed.
End by_count.

(** The distribution by count calls the callback on every value that some
    candidates have exactly once, from the most to the least frequent, with the
    number of these candidates and the smallest of them, up to the first [Break]
    or error; every fuel that is large enough gives this result. *)
Theorem count_distribution_spec {E S} db f
    (cb : bytes → N → DocumentId → S → outcome E (ControlFlow unit unit * S)) candidates :
  tree_ok ∅ db f → (N.of_nat (length db) ≤ usize_max)%N →
  ∃ n, ∀ fuel, n ≤ fuel →
    ∃ out, out ≡ₚ reports candidates (level db f 0) ∧ StronglySorted by_count out ∧
      ∀ s, count_iterate_over_facet_distribution db f cb fuel candidates s = Some (snd <$> feed cb out s).
Proof.
  intros (Hs & h & Hok) Hlen. unfold count_iterate_over_facet_distribution.
  rewrite first_facet_value, (levels_highest ∅ db f h) by done.
  destruct (level db f 0) as [|[b v] L] eqn:HL.
  { exists 0. intros fuel _. exists []. split_and!; [done|constructor|done]. }
  destruct (top_level db f h b v L) as (v' & seg & HLh & Hsp); [done..|]. rewrite HL in Hsp.
  destruct (top_iter ∅ db f h b v' seg) as (rest & Hiter & Hrest); [done..|].
  cbn [head fmap option_fmap option_map fst]. rewrite Hiter.
  destruct (push_groups_spec db f Hs candidates cb h _ _ rest [] Hsp Hrest) as (new & -> & Hnew & Hrep & _).
  rewrite app_nil_r. exists (Datatypes.S (heap_weight db f (fst <$> new))). intros fuel Hfuel.
  destruct (explore_spec db f Hs candidates cb fuel new ltac:(lia) Hnew) as (out & Hex & Hperm & Hsort & _).
  exists out. split_and!; [by rewrite Hperm, Hrep|done|exact Hex].
Qed.
