(* ===== verification/FacetIncremental.v ===== *)
(** * Incremental updates of a facet database
      (milli/src/update/facet/incremental.rs)

    [insert] adds documents to a facet value, [delete] removes documents from
    one; both go up the levels and keep every group in step with the level below.
    A computation threads the database; sizes and levels are [u8] values. *)
From S2P Require Import Prelude Json FacetDb FacetTree.
From S2P Require FieldsIdsMap DocumentsIds.
Import FieldsIdsMap (FieldId).
Import DocumentsIds (DocumentId).

Inductive InsertionResult := InPlace | Expand | Insert.

#[export] Instance insertion_result_eq_dec : EqDecision InsertionResult.
Proof. solve_decision. Defined.

Inductive DeletionResult :=
| DeletedInPlace
| Reduce (next : option bytes)
| Remove (next : option bytes).

Abbreviation M := (ST FacetDb FacetError).

Definition wrap8 (n : N) : N := (n `mod` 256)%N.

(** [delete] of heed says whether the key was there. *)
Definition put (k : FacetGroupKey) (v : FacetGroupValue) : M unit := st_modify (db_put k v).
Definition remove (k : FacetGroupKey) : M bool :=
  λ db, (Ok (bool_decide (is_Some (db_get k db))), db_delete k db).
Definition panic {A} (msg : string) : M A := st_lift (Panic msg).

Section FacetsUpdateIncrementalInner.
Context (group_size min_level_size max_group_size : N).

Definition find_insertion_key_value (field_id : FieldId) (level : nat) (facet_value : bytes) :
    M (FacetGroupKey * FacetGroupValue) :=
  st_lift (assert (0 <? level) "assertion failed: level > 0") ≫= λ _,
  db ← st_get;
  match db_lower_than_or_equal_to (mkKey field_id level facet_value) db with
  | Some (key, value) =>
      if negb (gk_level key =? level)
      then match prefix_level field_id level db with
           | first :: _ => mret first
           | [] => panic "called Option::unwrap on a None value"
           end
      else mret (key, value)
  | None => panic "explicit panic"
  end.

Definition insert_in_level_0 (field_id : FieldId) (facet_value : bytes) (docids : gset DocumentId) :
    M InsertionResult :=
  let key := mkKey field_id 0 facet_value in
  let value := mkValue 1 docids in
  db ← st_get;
  match prefix_level field_id 0 db with
  | [] => put key value ≫= λ _, mret Insert
  | _ =>
      match db_get key db with
      | Some updated_value =>
          let updated_value := mkValue (gv_size updated_value) (gv_bitmap updated_value ∪ gv_bitmap value) in
          put key updated_value ≫= λ _, mret InPlace
      | None => put key value ≫= λ _, mret Insert
      end
  end.

(** The values of the left group, until [i] reaches its size, and what the
    iterator has left. *)
Fixpoint values_left (i size_left : N) (iter : FacetDb) (acc : gset DocumentId) : gset DocumentId * FacetDb :=
  match iter with
  | [] => (acc, [])
  | (_, value) :: iter =>
      let i := (i + 1)%N in
      let acc := acc ∪ gv_bitmap value in
      if (i =? size_left)%N then (acc, iter) else values_left i size_left iter acc
  end.

(** A group that has grown too large becomes two groups. *)
Definition split_group (field_id : FieldId) (level_below : nat) (insertion_key : FacetGroupKey) (size : N) :
    M InsertionResult :=
  let size_left := (size / 2)%N in
  let size_right := (size - size_left)%N in
  let start_key := mkKey field_id level_below (left_bound insertion_key) in
  db ← st_get;
  let iter := take_n (size_left + size_right) (db_range_from start_key db) in
  let '(values_left, iter) := values_left 0 size_left iter ∅ in
  match iter with
  | (right_key, first_right) :: iter =>
      let values_right := fold_left (λ acc (e : Entry), acc ∪ gv_bitmap e.2) iter (gv_bitmap first_right) in
      remove insertion_key ≫= λ _,
      put (mkKey field_id (S level_below) (left_bound insertion_key)) (mkValue size_left values_left) ≫= λ _,
      put (mkKey field_id (S level_below) (left_bound right_key)) (mkValue size_right values_right) ≫= λ _,
      mret Insert
  | [] => panic "called Option::unwrap on a None value"
  end.

Fixpoint insert_in_level (field_id : FieldId) (level : nat) (facet_value : bytes) (docids : gset DocumentId) :
    M InsertionResult :=
  match level with
  | 0 => insert_in_level_0 field_id facet_value docids
  | S level_below =>
      insert_in_level field_id level_below facet_value docids ≫= λ result,
      find_insertion_key_value field_id level facet_value ≫= λ '(insertion_key, insertion_value),
      match result with
      | InPlace =>
          put insertion_key (mkValue (gv_size insertion_value) (gv_bitmap insertion_value ∪ docids)) ≫= λ _,
          mret InPlace
      | _ =>
          let modified := lt_bytes facet_value (left_bound insertion_key) in
          let new_insertion_key :=
            if modified then mkKey (FacetDb.field_id insertion_key) (gk_level insertion_key) facet_value
            else insertion_key in
          (if modified
           then remove insertion_key ≫= λ is_deleted,
                st_lift (assert is_deleted "assertion failed: is_deleted") ≫= λ _,
                put new_insertion_key insertion_value
           else mret tt) ≫= λ _,
          let size :=
            match result with Insert => wrap8 (gv_size insertion_value + 1) | _ => gv_size insertion_value end in
          if (size <? max_group_size)%N
          then put new_insertion_key (mkValue size (gv_bitmap insertion_value ∪ docids)) ≫= λ _,
               mret (if modified then Expand else InPlace)
          else split_group field_id level_below new_insertion_key size
      end
  end.

(** [n] elements of the iterator as a group. *)
Fixpoint group_values (n : nat) (iter : FacetDb) (first_key : option FacetGroupKey) (values : gset DocumentId) :
    outcome FacetError (option FacetGroupKey * gset DocumentId * FacetDb) :=
  match n with
  | 0 => Ok (first_key, values, iter)
  | S n =>
      match iter with
      | (key_i, value_i) :: iter =>
          let first_key := match first_key with None => Some key_i | _ => first_key end in
          group_values n iter first_key (values ∪ gv_bitmap value_i)
      | [] => Panic "called Option::unwrap on a None value"
      end
  end.

Definition new_group (field_id : FieldId) (level : nat) (size : N) (iter : FacetDb) :
    outcome FacetError (Entry * FacetDb) :=
  '(first_key, values, iter) ← group_values (N.to_nat size) iter None ∅;
  match first_key with
  | Some first_key => Ok ((mkKey field_id level (left_bound first_key), mkValue size values), iter)
  | None => Panic "called Option::unwrap on a None value"
  end.

Fixpoint new_groups (n : nat) (field_id : FieldId) (level : nat) (iter : FacetDb) :
    outcome FacetError (FacetDb * FacetDb) :=
  match n with
  | 0 => Ok ([], iter)
  | S n =>
      '(group, iter) ← new_group field_id level group_size iter;
      '(to_add, iter) ← new_groups n field_id level iter;
      Ok (group :: to_add, iter)
  end.

Fixpoint put_all (to_add : FacetDb) : M unit :=
  match to_add with
  | [] => mret tt
  | (key, value) :: to_add => put key value ≫= λ _, put_all to_add
  end.

(** What [insert] does when the highest level has a new key. *)
Definition add_level (field_id : FieldId) (highest_level : nat) : M unit :=
  db ← st_get;
  let groups_iter := prefix_level field_id highest_level db in
  let size_highest_level := N.of_nat (length groups_iter) in
  if (size_highest_level <? group_size * min_level_size)%N then mret tt
  else if (group_size =? 0)%N then panic "attempt to divide by zero"
  else
    let nbr_new_groups := N.to_nat (size_highest_level / group_size) in
    let nbr_leftover_elements := (size_highest_level mod group_size)%N in
    let level := N.to_nat (wrap8 (N.of_nat highest_level + 1)) in
    st_lift (
      '(to_add, groups_iter) ← new_groups nbr_new_groups field_id level groups_iter;
      if (0 <? nbr_leftover_elements)%N
      then '(group, _) ← new_group field_id level nbr_leftover_elements groups_iter;
           Ok (to_add ++ [group])
      else Ok to_add) ≫= λ to_add,
    put_all to_add.

Definition insert (field_id : FieldId) (facet_value : bytes) (docids : gset DocumentId) : M unit :=
  if decide (docids = ∅) then mret tt
  else
    db ← st_get;
    let highest_level := get_highest_level db field_id in
    insert_in_level field_id highest_level facet_value docids ≫= λ result,
    match result with
    | InPlace => mret tt
    | Expand => mret tt
    | Insert => add_level field_id highest_level
    end.

(** ** Deletion *)
Definition delete_in_level_0 (field_id : FieldId) (facet_value : bytes) (docids : gset DocumentId) :
    M DeletionResult :=
  let key := mkKey field_id 0 facet_value in
  db ← st_get;
  match db_get key db with
  | None => panic "called Option::unwrap on a None value"
  | Some value =>
      let bitmap := gv_bitmap value ∖ docids in
      if decide (bitmap = ∅) then
        let next_key :=
          match db_greater_than key db with
          | Some (next, _) =>
              if (FacetDb.field_id next =? field_id)%N && (gk_level next =? 0) then Some (left_bound next) else None
          | None => None
          end in
        remove key ≫= λ _, mret (Remove next_key)
      else put key (mkValue 1 bitmap) ≫= λ _, mret DeletedInPlace
  end.

Fixpoint delete_in_level (field_id : FieldId) (level : nat) (facet_value : bytes) (docids : gset DocumentId) :
    M DeletionResult :=
  match level with
  | 0 => delete_in_level_0 field_id facet_value docids
  | S level_below =>
      find_insertion_key_value field_id level facet_value ≫= λ '(deletion_key, bitmap),
      delete_in_level field_id level_below facet_value docids ≫= λ result,
      match result with
      | DeletedInPlace =>
          put deletion_key (mkValue (gv_size bitmap) (gv_bitmap bitmap ∖ docids)) ≫= λ _, mret DeletedInPlace
      | Reduce next | Remove next =>
          let size := match result with Remove _ => wrap8 (gv_size bitmap + 255) | _ => gv_size bitmap end in
          if (size =? 0)%N then remove deletion_key ≫= λ _, mret (Remove next)
          else
            let reduced_range := bool_decide (facet_value = left_bound deletion_key) in
            (if reduced_range
             then match next with
                  | Some next => mret (mkKey (FacetDb.field_id deletion_key) (gk_level deletion_key) next)
                  | None => panic "called Option::unwrap on a None value"
                  end
             else mret deletion_key) ≫= λ updated_deletion_key,
            remove deletion_key ≫= λ _,
            put updated_deletion_key (mkValue size (gv_bitmap bitmap ∖ docids)) ≫= λ _,
            mret (if reduced_range then Reduce next else DeletedInPlace)
      end
  end.

Fixpoint remove_all (to_delete : FacetDb) : M unit :=
  match to_delete with
  | [] => mret tt
  | (k, _) :: to_delete => remove k ≫= λ _, remove_all to_delete
  end.

Definition delete (field_id : FieldId) (facet_value : bytes) (docids : gset DocumentId) : M unit :=
  db ← st_get;
  match db_get (mkKey field_id 0 facet_value) db with
  | None => mret tt
  | Some _ =>
      let highest_level := get_highest_level db field_id in
      delete_in_level field_id highest_level facet_value docids ≫= λ result,
      match result with
      | DeletedInPlace => mret tt
      | Reduce _ => mret tt
      | Remove _ =>
          db ← st_get;
          if (highest_level =? 0) || (min_level_size <=? N.of_nat (length (prefix_level field_id highest_level db)))%N
          then mret tt
          else remove_all (prefix_level field_id highest_level db)
      end
  end.
End FacetsUpdateIncrementalInner.
