(* ===== verification/FacetInsert.v ===== *)
(** * Insertions in a facet database keep its levels

    Adding documents to a facet value changes, in every level, at most the group
    that the value belongs to: [edited] says how, for each result of
    [insert_in_level].  The level above then has to change one group only. *)
From S2P Require Import Prelude Json FacetDb FacetTree FacetIncremental.
From S2P Require FieldsIdsMap DocumentsIds.
Import FieldsIdsMap (FieldId).
Import DocumentsIds (DocumentId).

(** ** Finding the group of a value *)
Lemma split_at_key (L : Level) x :
  level_sorted L → ∃ F G, L = F ++ G ∧ (∀ e, e ∈ F → ¬ blt x e.1) ∧ (∀ e, e ∈ G → blt x e.1).
Proof.
  induction L as [|e L IH]; intros Hs; [exists [], []; split_and!; set_solver|].
  apply (sorted_app_inv blt [e]) in Hs as (_ & Hs & Hlt). destruct (decide (blt x e.1)) as [Hx|Hx].
  - exists [], (e :: L). split_and!; [done|set_solver|]. intros e' [->|He']%elem_of_cons; [done|].
    specialize (Hlt e e' ltac:(left) He'). border.
  - destruct (IH Hs) as (F & G & -> & HF & HG). exists (e :: F), G. split_and!; [done| |done].
    intros e' [->|He']%elem_of_cons; [done|by apply HF].
Qed.

(** A group [(b, v)] of a level that a value [x] belongs to. *)
Definition found (x : bytes) (L up uq : Level) (b : bytes) (v : FacetGroupValue) : Prop :=
  L = up ++ [(b, v)] ++ uq ∧ (∀ e, e ∈ uq → blt x e.1) ∧ (blt x b → up = []).

Lemma find_insertion_spec db f l x y w :
  db_sorted db → level db f (S l) ≠ [] → (y, w) ∈ level db f 0 →
  ∃ b v up uq, find_insertion_key_value f (S l) x db = (Ok (mkKey f (S l) b, v), db) ∧
    found x (level db f (S l)) up uq b v.
Proof.
  intros Hs Hne H0. unfold find_insertion_key_value, mbind, st_bind, st_lift, st_get. cbn. unfold db_lower_than_or_equal_to.
  destruct (lower_than_level db f (S l) x Hs) as (lo & Hlo & Hlev).
  destruct (split_at_key (level db f (S l)) x (level_is_sorted _ _ _ Hs)) as (F & G & HL & HF & HG).
  rewrite Hlo, HL, filter_app, (filter_all _ F), (filter_none _ G), app_nil_r by (naive_solver).
  destruct F as [|[b v] F _] using rev_ind.
  - rewrite fmap_nil, app_nil_r. cbn in HL.
    destruct G as [|[b v] G]; [done|]. exists b, v, [], G.
    assert (prefix_level f (S l) db = (mkKey f (S l) b, v) :: (at_level f (S l) <$> G)) as Hpre
      by by rewrite prefix_level_map, HL.
    assert ((mkKey f 0 y, w) ∈ lo) as Hin.
    { assert ((mkKey f 0 y, w) ∈ filter (λ e : Entry, ¬ key_lt (mkKey f (S l) x) e.1) db) as Hin.
      { apply list_elem_of_filter. split; [|by apply level_elem]. apply not_level_lt_both. cbn. right. cbn. lia. }
      rewrite Hlo, HL in Hin. rewrite filter_none in Hin by (intros e He; naive_solver).
      by rewrite fmap_nil, app_nil_r in Hin. }
    assert (StronglySorted key_lt lo.*1) as Hslo.
    { apply (sorted_filter _ (λ e, ¬ key_lt (mkKey f (S l) x) e.1)) in Hs. rewrite Hlo in Hs.
      by apply sorted_app_inv in Hs as (? & _). }
    destruct (last lo) as [[k u]|] eqn:Hlast; [|apply last_None in Hlast; subst; by apply not_elem_of_nil in Hin].
    apply last_Some in Hlast as [lo' ->].
    assert (gk_level k ≠ S l) as Hk.
    { intros Hk. assert (level_lt k (mkKey f (S l) [])) as Hlt by (apply (Hlev (k, u)); set_solver).
      apply elem_of_app in Hin as [Hin|[= <- <-]%list_elem_of_singleton]; [|done].
      apply sorted_app_inv in Hslo as (_ & _ & Hslo). specialize (Hslo _ (k, u) Hin ltac:(left)).
      unfold key_lt, level_lt, same_level in *. cbn in *. lia. }
    destruct (Nat.eqb_spec (gk_level k) (S l)) as [|_]; [done|]. cbn [negb]. rewrite Hpre.
    split; [done|]. split_and!; [done| |done]. intros e He. apply HG. by right.
  - rewrite fmap_app. cbn [fmap list_fmap]. rewrite app_assoc, last_snoc. unfold at_level. cbn [fst snd].
    cbn [gk_level]. rewrite Nat.eqb_refl. cbn [negb]. exists b, v, F, G. split; [done|].
    split_and!; [by rewrite <- app_assoc|done|]. intros Hlt. destruct (HF (b, v)); [set_solver|done].
Qed.

(** ** What an insertion does to a level *)
Definition edited (x : bytes) (docids : gset DocumentId) (r : InsertionResult) (pre old new post : Level) : Prop :=
  (∀ e, e ∈ pre → blt e.1 x) ∧ (∀ e, e ∈ post → blt x e.1) ∧
  docids_of new = docids_of old ∪ docids ∧
  match r with
  | InPlace => ∃ b v v', old = [(b, v)] ∧ new = [(b, v')] ∧ ¬ blt x b
  | Expand => pre = [] ∧ ∃ b v v', old = [(b, v)] ∧ new = [(x, v')] ∧ blt x b
  | Insert =>
      length new = S (length old) ∧
      ((old = [] ∧ ∃ v', new = [(x, v')]) ∨
       ∃ b v v' rest, old = [(b, v)] ∧ (blt x b → pre = []) ∧
         new = (if bool_decide (blt x b) then x else b, v') :: rest)
  end.

(** The levels of a field but those up to [l], and the other fields. *)
Definition same_outside (f : FieldId) (l : nat) (db db' : FacetDb) : Prop :=
  ∀ f' k, f' ≠ f ∨ l < k → level db' f' k = level db f' k.

Definition groups_below (D : gset DocumentId) (db : FacetDb) (f : FieldId) (l : nat) : Prop :=
  ∀ k, k < l → groups D (level db f (S k)) (level db f k).

(** Sizes that can still grow in a [u8]. *)
Definition sizes_below (db : FacetDb) (f : FieldId) (l : nat) : Prop :=
  ∀ k b v, k < l → (b, v) ∈ level db f (S k) → (gv_size v < 255)%N.

(** The documents of a value. *)
Definition value_docids (db : FacetDb) (f : FieldId) (x : bytes) : gset DocumentId :=
  match db_get (mkKey f 0 x) db with Some v => gv_bitmap v | None => ∅ end.

Lemma value_docids_level db db' f x :
  db_sorted db → db_sorted db' → level db' f 0 = level db f 0 → value_docids db' f x = value_docids db f x.
Proof.
  intros Hs Hs' Hl. unfold value_docids.
  destruct (db_get (mkKey f 0 x) db) as [v|] eqn:Hv.
  - apply db_get_level in Hv; [|done]. rewrite <- Hl in Hv. apply db_get_level in Hv; [|done]. by rewrite Hv.
  - destruct (db_get (mkKey f 0 x) db') as [v|] eqn:Hv'; [|done].
    apply db_get_level in Hv'; [|done]. rewrite Hl in Hv'. apply db_get_level in Hv'; [|done]. congruence.
Qed.

(** *** The level 0 *)
Lemma db_get_put k k' v db :
  db_sorted db → db_get k' (db_put k v db) = if decide (k' = k) then Some v else db_get k' db.
Proof.
  intros Hs. destruct k' as [f' l' b']. pose proof (db_put_sorted k v db Hs) as Hs'.
  destruct (decide (mkKey f' l' b' = k)) as [<-|Hne].
  - apply db_get_level; [done|]. apply level_elem, db_put_elem; [done|]. by left.
  - destruct (db_get (mkKey f' l' b') db) as [w|] eqn:Hw.
    + apply db_get_level in Hw; [|done]. apply db_get_level; [done|].
      rewrite level_elem in *. apply db_put_elem; [done|]. right. split; [done|]. cbn. congruence.
    + destruct (db_get (mkKey f' l' b') (db_put k v db)) as [w|] eqn:Hw'; [|done].
      apply db_get_level in Hw'; [|done]. rewrite level_elem in Hw'. apply db_put_elem in Hw' as [[= <-]|[Hin _]]; [done| |done].
      rewrite <- level_elem in Hin. apply db_get_level in Hin; [|done]. congruence.
Qed.

Lemma level_0_at db f x :
  db_sorted db →
  ∃ pre o post, level db f 0 = pre ++ o ++ post ∧ (∀ e, e ∈ pre → blt e.1 x) ∧ (∀ e, e ∈ post → blt x e.1) ∧
    o = match db_get (mkKey f 0 x) db with Some v => [(x, v)] | None => [] end.
Proof.
  intros Hs. pose proof (level_is_sorted db f 0 Hs) as Hls.
  destruct (split_at_key (level db f 0) x Hls) as (F & G & HL & HF & HG).
  destruct (db_get (mkKey f 0 x) db) as [v|] eqn:Hv.
  - apply db_get_level in Hv; [|done]. rewrite HL in Hv.
    apply elem_of_app in Hv as [Hv|Hv]; [|apply HG in Hv; by apply blt_irrefl in Hv].
    apply list_elem_of_split in Hv as (F1 & F2 & ->). exists F1, [(x, v)], (F2 ++ G).
    rewrite HL in Hls. split_and!; [by rewrite HL, <- app_assoc| | |done].
    + intros e He. rewrite <- app_assoc in Hls. apply sorted_app_inv in Hls as (_ & _ & Hls).
      apply (Hls e (x, v)); [done|left].
    + intros e He. rewrite <- app_assoc in Hls. apply sorted_app_inv in Hls as (_ & Hls & _).
      apply (sorted_app_inv blt [(x, v)]) in Hls as (_ & _ & Hls). apply (Hls (x, v) e); [left|done].
  - exists F, [], G. split_and!; [done| |done|done]. intros e He. pose proof (HF e He) as Hle.
    destruct (blt_total e.1 x) as [?|[Heq|?]]; [done| |done]. destruct e as [b w]. cbn in Heq. subst b.
    assert ((x, w) ∈ level db f 0) as Hin by (rewrite HL; set_solver).
    apply db_get_level in Hin; [congruence|done].
Qed.

(** *** A level and the one above *)
Definition slot (x : bytes) (pre old post : Level) : Prop :=
  (∀ e, e ∈ pre → blt e.1 x) ∧ (∀ e, e ∈ post → blt x e.1) ∧
  (old = [] ∨ ∃ b w, old = [(b, w)] ∧ (blt x b → pre = [])).

Lemma edited_slot x docids r pre old new post : edited x docids r pre old new post → slot x pre old post.
Proof.
  intros (Hpre & Hpost & _ & Hr). split_and!; [done..|]. destruct r.
  - destruct Hr as (b & v & v' & -> & _ & Hb). right. by exists b, v.
  - destruct Hr as (-> & b & v & v' & -> & _). right. by exists b, v.
  - destruct Hr as [_ [[-> _]|(b & v & v' & rest & -> & Hp & _)]]; [by left|right]. by exists b, v.
Qed.

Lemma groups_after D x uq lq :
  level_sorted lq → groups D uq lq → (∀ e, e ∈ uq → blt x e.1) → ∀ e, e ∈ lq → blt x e.1.
Proof.
  intros Hs Hg Huq e He. destruct uq as [|[b v] uq]; [inversion Hg; subst; by apply not_elem_of_nil in He|].
  apply groups_head in Hg as (v' & lq' & ->). specialize (Huq (b, v) ltac:(left)). cbn in Huq.
  apply elem_of_cons in He as [->|He]; [done|].
  apply (sorted_app_inv blt [(b, v')]) in Hs as (_ & _ & Hs). specialize (Hs (b, v') e ltac:(left) He).
  cbn in Hs. border.
Qed.

(** The group of the value contains the slot of the level below. *)
Lemma locate D x U up uq b v pre old post :
  level_sorted (pre ++ old ++ post) → groups D U (pre ++ old ++ post) → found x U up uq b v → slot x pre old post →
  ∃ lp g1 g2 lq, pre = lp ++ g1 ∧ post = g2 ++ lq ∧ groups D up lp ∧ group_ok D (b, v) (g1 ++ old ++ g2) ∧
    groups D uq lq.
Proof.
  intros Hs Hg (-> & Huq & Hup) (Hpre & Hpost & Hold).
  apply groups_app_inv in Hg as (lp & l' & Heq & Hlp & Hg).
  apply groups_app_inv in Hg as (g & lq & -> & Hgr%groups_single & Hlq).
  pose proof Hgr as [(v' & g' & Hg') _]. cbn [fst] in Hg'.
  rewrite Heq in Hs. pose proof Hs as (_ & (_ & Hslq & _)%sorted_app_inv & Hlt)%sorted_app_inv.
  pose proof (groups_after D x uq lq Hslq Hlq Huq) as HA.
  assert (∀ e, e ∈ lp → blt e.1 x) as HB.
  { intros e He. destruct (decide (blt x b)) as [Hx|Hx].
    - rewrite (Hup Hx) in Hlp. inversion Hlp; subst. by apply not_elem_of_nil in He.
    - specialize (Hlt e (b, v') He). cbn in Hlt. subst g. specialize (Hlt ltac:(left)). border. }
  assert (∃ k, pre = lp ++ k ∧ g ++ lq = k ++ old ++ post) as (k & -> & Heq').
  { apply app_eq_inv in Heq as [(k & -> & Heq)|(k & -> & Heq)]; [by exists k|].
    destruct k as [|e k]; [exists []; by rewrite !app_nil_r|]. exfalso.
    assert (blt e.1 x) as He by (apply HB; set_solver).
    destruct Hold as [->|(b' & w & -> & _)].
    - assert (blt x e.1) as He' by (apply Hpost; cbn in Heq; rewrite Heq; left). border.
    - injection Heq as <- Heq. assert (blt x b) as Hx.
      { apply (Hpost (b, v')). rewrite Heq, Hg'. set_solver. }
      rewrite (Hup Hx) in Hlp. inversion Hlp as [Hnil|]. by destruct pre. }
  rewrite app_assoc in Heq'. symmetry in Heq'.
  apply app_eq_inv in Heq' as [(k' & Hk' & ->)|(k' & -> & ->)].
  - assert (k' = []) as ->.
    { destruct k' as [|e k' _] using rev_ind; [done|]. exfalso.
      assert (blt x e.1) as He by (apply HA; set_solver).
      destruct Hold as [->|(b' & w & -> & Hp)].
      - rewrite app_nil_r in Hk'. assert (blt e.1 x) as He' by (apply Hpre; rewrite Hk'; set_solver). border.
      - rewrite app_assoc in Hk'. apply app_inj_tail in Hk' as [-> <-]. cbn in He. apply Hp in He.
        by destruct lp, g. }
    rewrite app_nil_r in Hk'. exists lp, k, [], post. split_and!; [done|done|done| |done].
    by rewrite app_nil_r, Hk'.
  - exists lp, k, k', lq. split_and!; [done|done|done| |done].
    rewrite app_assoc. exact Hgr.
Qed.

(** ** Insertion in the level 0 *)
Definition inserted (f : FieldId) (l : nat) (x : bytes) (docids : gset DocumentId) (db : FacetDb)
    (r : InsertionResult) (db' : FacetDb) : Prop :=
  db_sorted db' ∧ same_outside f l db db' ∧ groups_below ∅ db' f l ∧ sizes_below db' f l ∧
  (∃ w, (x, w) ∈ level db' f 0) ∧
  (∀ y, value_docids db' f y = if decide (y = x) then value_docids db f x ∪ docids else value_docids db f y) ∧
  ∃ pre old new post, level db f l = pre ++ old ++ post ∧ level db' f l = pre ++ new ++ post ∧
    edited x docids r pre old new post.

Lemma same_outside_put f l x v db :
  db_sorted db → same_outside f l db (db_put (mkKey f l x) v db).
Proof. intros Hs f' k Hk. apply db_put_other; [done|]. cbn. intros [? ?]. subst. destruct Hk; [done|lia]. Qed.

Lemma insert_in_level_0_spec f x docids db :
  db_sorted db → ∃ r db', insert_in_level_0 f x docids db = (Ok r, db') ∧ inserted f 0 x docids db r db'.
Proof.
  intros Hs. destruct (level_0_at db f x Hs) as (pre & o & post & Hl & Hpre & Hpost & Ho).
  set (r := match db_get (mkKey f 0 x) db with Some _ => InPlace | None => Insert end).
  set (v := match db_get (mkKey f 0 x) db with
            | Some v => mkValue (gv_size v) (gv_bitmap v ∪ docids) | None => mkValue 1 docids end).
  exists r, (db_put (mkKey f 0 x) v db). split.
  { unfold insert_in_level_0, mbind, st_bind, st_get, put, st_modify. cbn.
    destruct (prefix_level f 0 db) eqn:Hpl; [|subst r v; by destruct (db_get _ db)].
    assert (db_get (mkKey f 0 x) db = None) as Hnone.
    { destruct (db_get (mkKey f 0 x) db) as [w|] eqn:Hw; [|done]. apply db_get_level in Hw; [|done].
      unfold level in Hw. rewrite Hpl in Hw. by apply not_elem_of_nil in Hw. }
    subst r v. by rewrite Hnone. }
  assert (level (db_put (mkKey f 0 x) v db) f 0 = pre ++ [(x, v)] ++ post) as Hl'.
  { eapply db_put_level; [done|exact Hl| |done..]. intros e He. rewrite Ho in He.
    destruct (db_get _ db); [by apply list_elem_of_singleton in He as ->|by apply not_elem_of_nil in He]. }
  split_and!; [by apply db_put_sorted|by apply same_outside_put|intros k; lia|intros k; lia| | |].
  - exists v. rewrite Hl'. set_solver.
  - intros y. unfold value_docids. rewrite db_get_put by done.
    destruct (decide (mkKey f 0 y = mkKey f 0 x)) as [[= ->]|Hne].
    + rewrite decide_True by done. subst v. destruct (db_get _ db); cbn; set_solver.
    + rewrite decide_False by congruence. done.
  - exists pre, o, [(x, v)], post. split_and!; [done..|]. subst r v.
    destruct (db_get (mkKey f 0 x) db) as [w|]; subst o; split_and!; try done.
    + unfold docids_of. cbn. set_solver.
    + exists x, w. eexists. split_and!; [done|done|apply blt_irrefl].
    + unfold docids_of. cbn. set_solver.
    + left. split; [done|by eexists].
Qed.

(** ** Changing one level *)
Definition set_level (f : FieldId) (l : nat) (db db' : FacetDb) (L' : Level) : Prop :=
  db_sorted db' ∧ (∀ f' k, (f' = f ∧ k = l → False) → level db' f' k = level db f' k) ∧ level db' f l = L'.

Lemma set_level_trans f l db1 db2 db3 L2 L3 :
  set_level f l db1 db2 L2 → set_level f l db2 db3 L3 → set_level f l db1 db3 L3.
Proof. intros (_ & H2 & _) (Hs & H3 & Hl). split_and!; [done| |done]. intros f' k Hk. by rewrite H3, H2. Qed.

Lemma set_level_put f l db b v L1 o L2 :
  db_sorted db → level db f l = L1 ++ o ++ L2 → (∀ e, e ∈ o → e.1 = b) →
  (∀ e, e ∈ L1 → blt e.1 b) → (∀ e, e ∈ L2 → blt b e.1) →
  set_level f l db (db_put (mkKey f l b) v db) (L1 ++ [(b, v)] ++ L2).
Proof.
  intros Hs Hl Ho H1 H2. split_and!; [by apply db_put_sorted| |by eapply db_put_level].
  intros f' k Hk. apply db_put_other; [done|]. cbn. intros [? ?]. by apply Hk.
Qed.

Lemma set_level_delete f l db b v L1 L2 :
  db_sorted db → level db f l = L1 ++ [(b, v)] ++ L2 →
  set_level f l db (db_delete (mkKey f l b) db) (L1 ++ L2).
Proof.
  intros Hs Hl. split_and!; [by apply db_delete_sorted| |by eapply db_delete_level].
  intros f' k Hk. apply db_delete_other; [done|]. cbn. intros [? ?]. by apply Hk.
Qed.

(** The neighbours of an entry of a level. *)
Lemma level_neighbours db f l L1 b v L2 :
  db_sorted db → level db f l = L1 ++ [(b, v)] ++ L2 →
  (∀ e, e ∈ L1 → blt e.1 b) ∧ (∀ e, e ∈ L2 → blt b e.1).
Proof.
  intros Hs Hl. pose proof (level_is_sorted db f l Hs) as Hls. rewrite Hl in Hls.
  apply sorted_app_inv in Hls as (_ & Hls & H1). apply sorted_app_inv in Hls as (_ & _ & H2).
  split; intros e He; [apply (H1 e (b, v))|apply (H2 (b, v) e)]; set_solver.
Qed.

Lemma set_level_replace f l db b v v' L1 L2 :
  db_sorted db → level db f l = L1 ++ [(b, v)] ++ L2 →
  set_level f l db (db_put (mkKey f l b) v' db) (L1 ++ [(b, v')] ++ L2).
Proof.
  intros Hs Hl. destruct (level_neighbours _ _ _ _ _ _ _ Hs Hl) as [H1 H2].
  eapply set_level_put; [done|exact Hl| |done..]. by intros e ->%list_elem_of_singleton.
Qed.

Lemma groups_key D U L e : groups D U L → e ∈ U → ∃ w, (e.1, w) ∈ L.
Proof.
  induction 1 as [|e' g U L ((w & g' & ->) & _) _ IH]; [by intros ?%not_elem_of_nil|].
  intros [->|He]%elem_of_cons; [exists w; set_solver|]. destruct (IH He) as [w' Hw']. exists w'. set_solver.
Qed.

(** ** The new group of the level above *)
Lemma regroup x docids r b v lp g1 old new g2 lq :
  group_ok ∅ (b, v) (g1 ++ old ++ g2) → edited x docids r (lp ++ g1) old new (g2 ++ lq) → (blt x b → lp = []) →
  ∃ w rest, g1 ++ new ++ g2 = (if bool_decide (blt x b) then x else b, w) :: rest ∧
    (r = InPlace → ¬ blt x b) ∧ docids_of (g1 ++ new ++ g2) = gv_bitmap v ∪ docids ∧
    N.of_nat (length (g1 ++ new ++ g2)) = (match r with Insert => gv_size v + 1 | _ => gv_size v end)%N.
Proof.
  intros ((w0 & g0 & Hhd) & Hsz & Hsub & Hsup) (Hpre & Hpost & Hdoc & Hr) Hlp. cbn [fst snd] in *.
  assert (docids_of (g1 ++ new ++ g2) = gv_bitmap v ∪ docids) as Hbm.
  { rewrite !docids_of_app in *. rewrite Hdoc. set_solver. }
  assert (N.of_nat (length (g1 ++ new ++ g2)) = (match r with Insert => gv_size v + 1 | _ => gv_size v end)%N) as Hlen.
  { rewrite Hsz, !length_app. destruct r.
    - destruct Hr as (? & ? & ? & -> & -> & _). done.
    - destruct Hr as (_ & ? & ? & ? & -> & -> & _). done.
    - destruct Hr as [-> _]. lia. }
  enough (∃ w rest, g1 ++ new ++ g2 = (if bool_decide (blt x b) then x else b, w) :: rest ∧ (r = InPlace → ¬ blt x b))
    as (w & rest & ? & ?) by eauto 10.
  destruct g1 as [|e1 g1]; cbn [app] in *.
  - destruct r.
    + destruct Hr as (b' & u & u' & -> & -> & Hx). cbn in *. injection Hhd as -> -> _.
      rewrite bool_decide_eq_false_2 by done. eexists _, _. by split.
    + destruct Hr as (_ & b' & u & u' & -> & -> & Hx). cbn in *. injection Hhd as -> -> _.
      rewrite bool_decide_eq_true_2 by done. eexists _, _. by split.
    + destruct Hr as [_ [(-> & u' & ->)|(b' & u & u' & rest & -> & _ & ->)]]; cbn in *.
      * rewrite bool_decide_eq_true_2; [eexists _, _; by split|]. apply (Hpost (b, w0)). rewrite Hhd. left.
      * injection Hhd as -> _ _. eexists _, _. split; [done|]. done.
  - injection Hhd as -> _. assert (blt b x) as Hx by (apply (Hpre (b, w0)); set_solver).
    rewrite bool_decide_eq_false_2 by (intro; border). eexists _, _. split; [done|]. intros _ ?. border.
Qed.

Lemma values_left_spec f l ga gb i acc :
  ga ≠ [] →
  values_left i (i + N.of_nat (length ga)) (at_level f l <$> ga ++ gb) acc = (acc ∪ docids_of ga, at_level f l <$> gb).
Proof.
  revert i acc. induction ga as [|[b v] ga IH]; intros i acc Hne; [done|].
  rewrite fmap_app, fmap_cons. cbn [app values_left at_level fst snd length].
  destruct ga as [|e ga].
  - destruct (N.eqb_spec (i + 1) (i + N.of_nat (length [(b, v)]))); [|cbn in *; lia].
    cbn [length] in *. rewrite (proj2 (N.eqb_eq _ _)) by done. f_equal. unfold docids_of. cbn. set_solver.
  - destruct (N.eqb_spec (i + 1) (i + N.of_nat (S (length (e :: ga))))) as [Heq|_]; [cbn in Heq; lia|].
    rewrite <- fmap_app. specialize (IH (i + 1)%N (acc ∪ gv_bitmap v) ltac:(done)).
    replace (i + 1 + N.of_nat (length (e :: ga)))%N with (i + N.of_nat (S (length (e :: ga))))%N in IH by lia.
    rewrite IH, (docids_of_cons (b, v)). cbn [snd]. by rewrite union_assoc_L.
Qed.

Lemma fold_values f l gb acc :
  fold_left (λ acc (e : Entry), acc ∪ gv_bitmap e.2) (at_level f l <$> gb) acc = acc ∪ docids_of gb.
Proof.
  revert acc. induction gb as [|e gb IH]; intros acc; cbn [fmap list_fmap fold_left].
  - unfold docids_of. cbn. set_solver.
  - unfold fmap in IH. rewrite IH, docids_of_cons. cbn. set_solver.
Qed.

(** Splitting the group of a level: [k] is its key, [g] the group. *)
Lemma split_group_spec f l db up k v uq lp w g lq size :
  db_sorted db → level db f (S l) = up ++ [(k, v)] ++ uq → level db f l = lp ++ ((k, w) :: g) ++ lq →
  groups ∅ uq lq → size = N.of_nat (length ((k, w) :: g)) → (2 <= size < 256)%N →
  ∃ db' v1 kr v2, split_group f l (mkKey f (S l) k) size db = (Ok Insert, db') ∧
    set_level f (S l) db db' (up ++ [(k, v1); (kr, v2)] ++ uq) ∧
    groups ∅ [(k, v1); (kr, v2)] ((k, w) :: g) ∧ (gv_size v1 < 255)%N ∧ (gv_size v2 < 255)%N.
Proof.
  intros Hs Hup Hlow Huq Hsize Hbd. set (n := N.to_nat (size / 2)).
  assert (2 * n ≤ N.to_nat size ∧ 1 ≤ n ∧ n < N.to_nat size) as Hn.
  { subst n. pose proof (N.div_mod size 2 ltac:(lia)). pose proof (N.mod_lt size 2 ltac:(lia)).
    revert H H0 Hbd. clear. generalize (size / 2)%N, (size mod 2)%N. lia. }
  assert (N.of_nat n = (size / 2)%N) as Hn' by (subst n; lia).
  set (ga := take n ((k, w) :: g)). set (gb := drop n ((k, w) :: g)).
  assert ((k, w) :: g = ga ++ gb) as Hgg by (symmetry; apply take_drop).
  assert (N.of_nat (length ga) = (size / 2)%N) as Hla by (subst ga; rewrite length_take; lia).
  assert (N.of_nat (length gb) = (size - size / 2)%N) as Hlb by (subst gb; rewrite length_drop; lia).
  assert (∃ g', ga = (k, w) :: g') as [ga' Hga'] by (subst ga; destruct n; [lia|]; by eexists).
  destruct gb as [|[kr wr] gb'] eqn:Hgb; [cbn in Hlb; lia|].
  pose proof (level_is_sorted db f l Hs) as Hls. rewrite Hlow, Hgg in Hls.
  apply sorted_app_inv in Hls as (_ & (Hg & _ & Hglq)%sorted_app_inv & _).
  apply sorted_app_inv in Hg as (_ & _ & Hab). rewrite Hga' in Hab.
  assert (blt k kr) as Hkr by (apply (Hab (k, w) (kr, wr)); left).
  destruct (level_neighbours _ _ _ _ _ _ _ Hs Hup) as [Hupk Huqk].
  assert (∀ e, e ∈ uq → blt kr e.1) as Huqr.
  { intros e He. destruct (groups_key _ _ _ _ Huq He) as [we Hwe].
    apply (Hglq (kr, wr) (e.1, we)); [apply elem_of_app; right; left|done]. }
  set (v1 := mkValue (size / 2) (docids_of ga)). set (v2 := mkValue (size - size / 2) (docids_of ((kr, wr) :: gb'))).
  pose proof (set_level_delete f (S l) db k v up uq Hs Hup) as Hd.
  pose proof Hd as (Hsd & _ & Hld).
  pose proof (set_level_put f (S l) _ k v1 up [] uq Hsd Hld ltac:(by intros ? ?%not_elem_of_nil) Hupk Huqk) as Hp.
  pose proof Hp as (Hsp & _ & Hlp).
  assert (level (db_put (mkKey f (S l) k) v1 (db_delete (mkKey f (S l) k) db)) f (S l) = (up ++ [(k, v1)]) ++ [] ++ uq)
    as Hlp' by (rewrite Hlp, <- app_assoc; done).
  eexists _, v1, kr, v2. split; [|split; [|split]].
  - unfold split_group, mbind, st_bind, st_get, remove, put, st_modify. cbn [left_bound].
    replace (size / 2 + (size - size / 2))%N with size by lia.
    pose proof (range_group db f l lp k w g lq Hs Hlow) as Hr. rewrite <- Hsize in Hr. rewrite Hr, Hgg, <- Hla.
    pose proof (values_left_spec f l ga ((kr, wr) :: gb') 0 ∅) as Hv. rewrite N.add_0_l in Hv.
    rewrite Hv by (by rewrite Hga'). rewrite fmap_cons. cbn [at_level fst snd]. rewrite fold_values.
    rewrite Hla, union_empty_l_L. change (gv_bitmap wr ∪ docids_of gb') with (docids_of ((kr, wr) :: gb')).
    cbn [left_bound]. reflexivity.
  - eapply set_level_trans; [exact Hd|]. eapply set_level_trans; [exact Hp|].
    replace (up ++ [(k, v1); (kr, v2)] ++ uq) with ((up ++ [(k, v1)]) ++ [(kr, v2)] ++ uq) by (by rewrite <- app_assoc).
    eapply set_level_put; [done|exact Hlp'|by intros ? ?%not_elem_of_nil| |exact Huqr].
    intros e [He| ->%list_elem_of_singleton]%elem_of_app; [|done]. apply Hupk in He. border.
  - rewrite Hgg. replace (ga ++ (kr, wr) :: gb') with (ga ++ ((kr, wr) :: gb') ++ []) by by rewrite app_nil_r.
    repeat apply groups_cons; [..|apply groups_nil]; (split_and!; [by eauto|by cbn|done|set_solver]).
  - cbn. lia.
Qed.

(** ** One level up *)
Lemma st_bind_ok {St E A B} (m : ST St E A) (k : A → ST St E B) s a s' :
  m s = (Ok a, s') → (m ≫= k) s = k a s'.
Proof. unfold mbind, st_bind. by intros ->. Qed.

Lemma step_up f l x docids db r db1 db2 r2 up b v new uq :
  db_sorted db → inserted f l x docids db r db1 →
  level db f (S l) = up ++ [(b, v)] ++ uq → set_level f (S l) db1 db2 (up ++ new ++ uq) →
  groups ∅ (up ++ new ++ uq) (level db1 f l) →
  (∀ k w, (k, w) ∈ up ++ new ++ uq → (gv_size w < 255)%N) →
  edited x docids r2 up [(b, v)] new uq →
  inserted f (S l) x docids db r2 db2.
Proof.
  intros Hs (Hs1 & Hout1 & Hg1 & Hz1 & (w & Hw) & Hv1 & _) Hup (Hs2 & Hoth & Hl2) Hgr Hsz Hed.
  assert (∀ k, k ≤ l → level db2 f k = level db1 f k) as Hlow by (intros k Hk; apply Hoth; lia).
  split_and!; [done| | | | | |].
  - intros f' k Hk. rewrite Hoth by (intros [? ?]; subst; destruct Hk; [done|lia]).
    apply Hout1. destruct Hk; [by left|right; lia].
  - intros k Hk. destruct (decide (k = l)) as [->|].
    + by rewrite Hl2, Hlow.
    + rewrite !Hlow by lia. apply Hg1. lia.
  - intros k b' v' Hk Hin. destruct (decide (k = l)) as [->|].
    + rewrite Hl2 in Hin. by eapply Hsz.
    + rewrite Hlow in Hin by lia. eapply Hz1, Hin. lia.
  - exists w. by rewrite Hlow by lia.
  - intros y. rewrite <- Hv1. apply value_docids_level; [done..|]. apply Hlow. lia.
  - exists up, [(b, v)], new, uq. done.
Qed.

Section insertion.
Context (max_group_size : N) (Hmax : (2 <= max_group_size < 256)%N).

(** The group of the value takes the documents, its size stays below the maximum. *)
Lemma grow f l x docids db r db1 up b v uq lp g' lq w rest size :
  db_sorted db → inserted f l x docids db r db1 → r ≠ InPlace →
  level db f (S l) = up ++ [(b, v)] ++ uq → found x (level db f (S l)) up uq b v →
  level db1 f l = lp ++ g' ++ lq → groups ∅ up lp → groups ∅ uq lq →
  g' = (if bool_decide (blt x b) then x else b, w) :: rest → docids_of g' = gv_bitmap v ∪ docids →
  size = N.of_nat (length g') → (size < 256)%N → (∀ k w, (k, w) ∈ up ++ uq → (gv_size w < 255)%N) →
  ∃ r2 db2,
    (let modified := lt_bytes x b in
     let key := mkKey f (S l) (if modified then x else b) in
     (if modified
      then remove (mkKey f (S l) b) ≫= λ is_deleted,
           st_lift (assert is_deleted "assertion failed: is_deleted") ≫= λ _, put key v
      else mret tt) ≫= λ _,
     if (size <? max_group_size)%N
     then put key (mkValue size (gv_bitmap v ∪ docids)) ≫= λ _, mret (if modified then Expand else InPlace)
     else split_group f l key size) db1 = (Ok r2, db2) ∧
    inserted f (S l) x docids db r2 db2.
Proof.
  intros Hs Hins Hr Hup (_ & Hux & Hbx) Hlow Hglp Hglq Hg' Hbm Hsize Hlt Hszs. unfold lt_bytes.
  pose proof Hins as (Hs1 & Hout1 & _).
  assert (level db1 f (S l) = up ++ [(b, v)] ++ uq) as Hup1 by (rewrite Hout1 by (right; lia); exact Hup).
  destruct (level_neighbours _ _ _ _ _ _ _ Hs1 Hup1) as [Hub Huq].
  set (k := if bool_decide (blt x b) then x else b) in *.
  assert (∃ db1', set_level f (S l) db1 db1' (up ++ [(k, v)] ++ uq) ∧ level db1' f l = level db1 f l ∧ 
    (if bool_decide (blt x b)
      then remove (mkKey f (S l) b) ≫= λ is_deleted,
           st_lift (assert is_deleted "assertion failed: is_deleted") ≫= λ _, put (mkKey f (S l) k) v
      else mret tt) db1 = (Ok tt, db1')) as (db1' & Hset & Hsame & Hrun).
  { subst k. case_bool_decide as Hx; cycle 1.
    { exists db1. split; [done|by split]. }
    exists (db_put (mkKey f (S l) x) v (db_delete (mkKey f (S l) b) db1)).
    pose proof (set_level_delete _ _ _ _ _ _ _ Hs1 Hup1) as Hd. pose proof Hd as (Hsd & Hod & Hld).
    assert (set_level f (S l) (db_delete (mkKey f (S l) b) db1)
      (db_put (mkKey f (S l) x) v (db_delete (mkKey f (S l) b) db1)) (up ++ [(x, v)] ++ uq)) as Hp.
    { apply (set_level_put f (S l) _ x v up [] uq Hsd Hld); [by intros ? ?%not_elem_of_nil| |done].
      rewrite (Hbx Hx). by intros ? ?%not_elem_of_nil. }
    split; [by eapply set_level_trans|split].
    - destruct Hp as (_ & Hop & _). rewrite Hop, Hod by lia. done.
    - unfold mbind, st_bind, remove, st_lift, put, st_modify.
      rewrite (proj2 (db_get_level db1 f (S l) b v Hs1)) by (rewrite Hup1; set_solver). done. }
  rewrite (st_bind_ok _ _ _ _ _ Hrun). clear Hrun.
  pose proof Hset as (Hs1' & Ho1' & Hl1').
  assert (∀ e, e ∈ up → blt e.1 x) as Hupx.
  { intros e He. destruct (decide (blt x b)) as [Hx|Hx]; [rewrite (Hbx Hx) in He; by apply not_elem_of_nil in He|].
    apply Hub in He. border. }
  destruct (N.ltb_spec size max_group_size) as [Hsm|Hsm].
  - exists (if bool_decide (blt x b) then Expand else InPlace), (db_put (mkKey f (S l) k) (mkValue size (gv_bitmap v ∪ docids)) db1').
    split; [unfold mbind, st_bind, put, st_modify; done|].
    assert (edited x docids (if bool_decide (blt x b) then Expand else InPlace) up [(b, v)]
      [(k, mkValue size (gv_bitmap v ∪ docids))] uq) as Hed.
    { split_and!; [done|done|unfold docids_of; cbn; set_solver|].
      subst k. case_bool_decide as Hx; [split; [by apply Hbx|]|]; eexists _, _, _; split_and!; done. }
    eapply (step_up f l x docids db r db1 _ _ up b v); [done|done|done| | | |exact Hed].
    + eapply set_level_trans; [exact Hset|]. by eapply set_level_replace.
    + rewrite Hlow. apply groups_app; [done|]. apply (groups_app ∅ [_] uq); [|done]. apply groups_single.
      split_and!; [by eexists _, _|done|by rewrite Hbm|rewrite Hbm; cbn; set_solver].
    + intros k' w'. rewrite !elem_of_app, list_elem_of_singleton. intros [Hin|[[= -> ->]|Hin]].
      * eapply Hszs, elem_of_app. by left.
      * cbn. lia.
      * eapply Hszs, elem_of_app. by right.
  - rewrite Hlow in Hsame. subst g'.
    destruct (split_group_spec f l db1' up k v uq lp w rest lq size) as (db2 & v1 & kr & v2 & Hrun & Hset2 & Hgr & Hz1 & Hz2);
      [done..|lia|]. exists Insert, db2. split; [exact Hrun|].
    eapply (step_up f l x docids db r db1 db2 _ up b v [(k, v1); (kr, v2)]); [done|done|done| | | |].
    + by eapply set_level_trans.
    + rewrite Hlow. apply groups_app; [done|]. by apply groups_app.
    + intros k' w'. rewrite !elem_of_app, !elem_of_cons. intros [Hin|[[[= -> ->]|[[= -> ->]|?%not_elem_of_nil]]|Hin]]; try done.
      * eapply Hszs, elem_of_app. by left.
      * eapply Hszs, elem_of_app. by right.
    + split; [done|split; [done|split]].
      * apply groups_docids in Hgr. rewrite Hbm in Hgr.
        replace (docids_of [(b, v)]) with (gv_bitmap v) by (unfold docids_of; cbn; set_solver). set_solver.
      * split; [done|]. right. exists b, v, v1, [(kr, v2)]. done.
Qed.

Lemma insert_in_level_spec f l x docids db :
  db_sorted db → groups_below ∅ db f l → sizes_below db f l → (l = 0 ∨ level db f l ≠ []) →
  ∃ r db', insert_in_level max_group_size f l x docids db = (Ok r, db') ∧ inserted f l x docids db r db'.
Proof.
  intros Hs. induction l as [|l IH]; intros Hg Hz Hne; [by apply insert_in_level_0_spec|].
  destruct Hne as [?|Hne]; [done|]. pose proof (Hg l ltac:(lia)) as Hgl.
  destruct IH as (r & db1 & Hrun & Hins).
  { intros k Hk. apply Hg. lia. }
  { intros k b v Hk. apply Hz. lia. }
  { right. intros Hnil. rewrite Hnil in Hgl. by apply groups_nil_inv in Hgl. }
  pose proof Hins as (Hs1 & Hout1 & _ & _ & (w & Hw) & _ & pre & old & new & post & Hl0 & Hl1 & Hed).
  assert (level db1 f (S l) = level db f (S l)) as Hup by (apply Hout1; right; lia).
  destruct (find_insertion_spec db1 f l x x w Hs1 ltac:(by rewrite Hup) Hw) as (b & v & up & uq & Hfind & Hfound).
  rewrite Hup in Hfound. rewrite Hl0 in Hgl.
  assert (level_sorted (pre ++ old ++ post)) as Hls by (rewrite <- Hl0; by apply level_is_sorted).
  destruct (locate ∅ x _ up uq b v pre old post Hls Hgl Hfound (edited_slot _ _ _ _ _ _ _ Hed))
    as (lp & g1 & g2 & lq & -> & -> & Hglp & Hgr & Hglq).
  pose proof Hfound as (HU & Huq & Hbx).
  assert (blt x b → lp = []) as Hlp by (intros Hx; rewrite (Hbx Hx) in Hglp; by inversion Hglp).
  destruct (regroup _ _ _ _ _ _ _ _ _ _ _ Hgr Hed Hlp) as (w' & rest & Hg' & Hr & Hbm & Hlen).
  assert (level db1 f l = lp ++ (g1 ++ new ++ g2) ++ lq) as Hl1' by (rewrite Hl1, <- !app_assoc; done).
  assert (∀ k u, (k, u) ∈ up ++ [(b, v)] ++ uq → (gv_size u < 255)%N) as Hszs
    by (intros k u Hin; apply (Hz l k); [lia|by rewrite HU]).
  cbn [insert_in_level]. rewrite (st_bind_ok _ _ _ _ _ Hrun), (st_bind_ok _ _ _ _ _ Hfind).
  destruct (decide (r = InPlace)) as [->|Hnr].
  - specialize (Hr eq_refl). rewrite bool_decide_eq_false_2 in Hg' by done.
    exists InPlace. eexists. split; [unfold mbind, st_bind, put, st_modify; done|].
    eapply (step_up f l x docids db InPlace db1 _ InPlace up b v [(b, mkValue (gv_size v) (gv_bitmap v ∪ docids))]);
      [done|done|done| | | |].
    + apply (set_level_replace _ _ _ _ v); [done|]. by rewrite Hup.
    + rewrite Hl1'. apply groups_app; [done|]. apply (groups_app ∅ [_] uq); [|done]. apply groups_single.
      split; [by eexists _, _|split; [done|]]. rewrite Hbm. cbn. set_solver.
    + intros k u. rewrite !elem_of_app, list_elem_of_singleton. intros [Hin|[[= -> ->]|Hin]]; cbn;
        [apply (Hszs k)|apply (Hszs b)|apply (Hszs k)]; set_solver.
    + destruct (level_neighbours db f (S l) up b v uq Hs HU) as [Hub _].
      split; [|split; [done|split; [unfold docids_of; cbn; set_solver|by eexists _, _, _]]].
      intros e He. apply Hub in He. border.
  - assert (∀ k u, (k, u) ∈ up ++ uq → (gv_size u < 255)%N) as Hszs' by (intros k u Hin; apply (Hszs k); set_solver).
    assert (gv_size v < 255)%N as Hzv by (apply (Hszs b); set_solver).
    set (size := match r with Insert => wrap8 (gv_size v + 1) | _ => gv_size v end).
    assert (size = N.of_nat (length (g1 ++ new ++ g2))) as Hsize.
    { rewrite Hlen. subst size. destruct r; [done|done|]. unfold wrap8. apply N.mod_small. lia. }
    destruct (grow f l x docids db r db1 up b v uq lp (g1 ++ new ++ g2) lq w' rest size)
      as (r2 & db2 & Hrun2 & Hins2); try done.
    { rewrite Hsize, Hlen. destruct r; lia. }
    exists r2, db2. split; [|done]. rewrite <- Hrun2. cbn [FacetDb.field_id gk_level left_bound].
    destruct r; [done|..]; subst size; by destruct (lt_bytes x b).
Qed.
End insertion.

(** ** A level above the highest *)
Lemma groups_sorted D U L : level_sorted L → groups D U L → level_sorted U.
Proof.
  intros Hs Hg. induction Hg as [|e g U L ((w & g' & ->) & _) Hg IH]; [constructor|].
  apply sorted_app_inv in Hs as (_ & Hs & Hlt). unfold level_sorted. rewrite fmap_cons. constructor; [by apply IH|].
  apply Forall_forall. intros k Hk. apply list_elem_of_fmap in Hk as (e' & -> & He').
  destruct (groups_key _ _ _ _ Hg He') as [w' Hw']. apply (Hlt (e.1, w) (e'.1, w')); [left|done].
Qed.

Lemma group_values_spec f l g rest fk acc :
  group_values (length g) (at_level f l <$> g ++ rest) fk acc =
    Ok (match fk with None => (λ e : bytes * FacetGroupValue, mkKey f l e.1) <$> head g | _ => fk end,
        acc ∪ docids_of g, at_level f l <$> rest).
Proof.
  revert fk acc. induction g as [|[b v] g IH]; intros fk acc.
  - cbn [length group_values app docids_of]. unfold docids_of. cbn. rewrite union_empty_r_L. by destruct fk.
  - cbn [length app]. rewrite fmap_cons. cbn [group_values at_level fst snd]. rewrite IH, docids_of_cons.
    cbn [snd]. rewrite union_assoc_L. by destruct fk.
Qed.

Lemma new_group_spec f l lev b v g rest size :
  N.of_nat (length ((b, v) :: g)) = size →
  new_group f lev size (at_level f l <$> ((b, v) :: g) ++ rest) =
    Ok (at_level f lev (b, mkValue size (docids_of ((b, v) :: g))), at_level f l <$> rest).
Proof.
  intros Hsz. unfold new_group. replace (N.to_nat size) with (length ((b, v) :: g)) by lia.
  rewrite group_values_spec. cbn [mbind outcome_bind head fmap option_fmap option_map].
  by rewrite union_empty_l_L.
Qed.

Lemma group_of_all b v g size :
  N.of_nat (length ((b, v) :: g)) = size →
  groups ∅ [(b, mkValue size (docids_of ((b, v) :: g)))] ((b, v) :: g).
Proof. intros <-. apply groups_single. split; [by eexists _, _|split; [done|set_solver]]. Qed.

Lemma new_groups_spec group_size f l lev n L :
  (0 < group_size)%N → n * N.to_nat group_size ≤ length L →
  ∃ U g rest, L = g ++ rest ∧ length g = n * N.to_nat group_size ∧
    new_groups group_size n f lev (at_level f l <$> L) = Ok (at_level f lev <$> U, at_level f l <$> rest) ∧
    groups ∅ U g ∧ ∀ k u, (k, u) ∈ U → gv_size u = group_size.
Proof.
  intros Hgs. revert L. induction n as [|n IH]; intros L Hlen.
  { exists [], [], L. split_and!; [done|done|done|constructor|by intros ? ? ?%not_elem_of_nil]. }
  cbn in Hlen. assert (length (take (N.to_nat group_size) L) = N.to_nat group_size) as Htk by (rewrite length_take; lia).
  destruct (IH (drop (N.to_nat group_size) L)) as (U & g & rest & Hdrop & Hg & Hrun & Hgr & Hsz);
    [rewrite length_drop; lia|].
  destruct (take (N.to_nat group_size) L) as [|[b v] t] eqn:Ht; [cbn in Htk; lia|].
  assert (L = ((b, v) :: t) ++ g ++ rest) as HL by (rewrite <- Hdrop, <- Ht; symmetry; apply take_drop).
  exists ((b, mkValue group_size (docids_of ((b, v) :: t))) :: U), (((b, v) :: t) ++ g), rest. split_and!.
  - by rewrite <- app_assoc.
  - rewrite length_app. lia.
  - cbn [new_groups]. rewrite HL, (new_group_spec f l lev b v t (g ++ rest) group_size) by lia.
    cbn [mbind outcome_bind]. rewrite <- Hdrop, Hrun. done.
  - apply (groups_app ∅ [_] U); [|done]. apply group_of_all. lia.
  - intros k u [[= -> ->]|Hin]%elem_of_cons; [done|by eapply Hsz].
Qed.

Lemma put_all_spec f l db P U :
  db_sorted db → level db f l = P → level_sorted (P ++ U) →
  ∃ db', put_all (at_level f l <$> U) db = (Ok tt, db') ∧ set_level f l db db' (P ++ U).
Proof.
  revert db P. induction U as [|[b v] U IH]; intros db P Hs HP Hsort.
  { exists db. split; [done|]. rewrite app_nil_r. by split. }
  pose proof Hsort as (_ & _ & Hlt)%sorted_app_inv.
  assert (set_level f l db (db_put (mkKey f l b) v db) (P ++ [(b, v)] ++ [])) as Hset.
  { apply (set_level_put f l db b v P [] []); [done|by rewrite !app_nil_r|by intros ? ?%not_elem_of_nil| |by intros ? ?%not_elem_of_nil].
    intros e He. apply (Hlt e (b, v)); [done|left]. }
  rewrite app_nil_r in Hset. pose proof Hset as (Hs1 & _ & Hl1).
  destruct (IH (db_put (mkKey f l b) v db) (P ++ [(b, v)])) as (db' & Hrun & Hset'); [done|done|by rewrite <- app_assoc|].
  exists db'. split; [exact Hrun|]. rewrite <- app_assoc in Hset'. by eapply set_level_trans.
Qed.

Lemma add_level_spec group_size min_level_size f h db :
  db_sorted db → h < 255 → (0 < group_size < 255)%N → level db f (S h) = [] →
  ∃ db', add_level group_size min_level_size f h db = (Ok tt, db') ∧
    (db' = db ∨ ∃ U, set_level f (S h) db db' U ∧ groups ∅ U (level db f h) ∧
      ∀ k u, (k, u) ∈ U → (gv_size u < 255)%N).
Proof.
  intros Hs Hh Hgs Habove. unfold add_level.
  set (size := N.of_nat (length (prefix_level f h db))).
  destruct (N.ltb_spec size (group_size * min_level_size)) as [Hlt|Hge].
  { exists db. split; [|by left]. unfold mbind, st_bind, st_get. cbn zeta. fold size.
    by rewrite (proj2 (N.ltb_lt _ _) Hlt). }
  assert (size = N.of_nat (length (level db f h))) as Hsize by (subst size; by rewrite prefix_level_map, length_fmap).
  pose proof (N.div_mod size group_size ltac:(lia)) as Hdm. pose proof (N.mod_lt size group_size ltac:(lia)) as Hml.
  set (q := (size / group_size)%N) in *. set (m := (size mod group_size)%N) in *.
  destruct (new_groups_spec group_size f h (S h) (N.to_nat q) (level db f h)) as (U & g & rest & HL & Hg & Hrun & Hgr & Hsz);
    [lia|lia|].
  assert (∃ U', groups ∅ U' (level db f h) ∧ (∀ k u, (k, u) ∈ U' → (gv_size u < 255)%N) ∧
    ('(to_add, groups_iter) ← new_groups group_size (N.to_nat q) f (S h) (prefix_level f h db);
     if (0 <? m)%N then '(group, _) ← new_group f (S h) m groups_iter; Ok (to_add ++ [group]) else Ok to_add) =
      Ok (at_level f (S h) <$> U')) as (U' & Hgr' & Hsz' & Hrun').
  { rewrite prefix_level_map, Hrun. cbn [mbind outcome_bind].
    assert (length rest = N.to_nat m) as Hrest by (rewrite HL, length_app in Hsize; lia).
    destruct (N.ltb_spec 0 m) as [Hm|Hm].
    - destruct rest as [|[b v] rest]; [cbn in Hrest; lia|].
      exists (U ++ [(b, mkValue m (docids_of ((b, v) :: rest)))]). split; [|split].
      + rewrite HL. apply groups_app; [done|]. apply group_of_all. lia.
      + intros k u [Hin|[= -> ->]%list_elem_of_singleton]%elem_of_app; [apply Hsz in Hin; lia|cbn; lia].
      + rewrite <- (app_nil_r ((b, v) :: rest)) at 1. rewrite (new_group_spec f h (S h)) by lia.
        cbn [mbind outcome_bind]. by rewrite fmap_app.
    - destruct rest as [|e rest]; [|cbn in Hrest; lia]. exists U. rewrite HL, app_nil_r.
      split; [done|split; [|done]]. intros k u Hin%Hsz. lia. }
  destruct (put_all_spec f (S h) db [] U' Hs Habove) as (db' & Hput & Hset).
  { eapply groups_sorted; [by apply (level_is_sorted db f h)|exact Hgr']. }
  exists db'. split; [|right; exists U'; by split].
  unfold mbind at 1, st_bind, st_get. cbn zeta. fold size.
  rewrite (proj2 (N.ltb_ge _ _) Hge), (proj2 (N.eqb_neq _ _)) by lia. fold q m.
  replace (N.to_nat (wrap8 (N.of_nat h + 1))) with (S h) by (unfold wrap8; rewrite N.mod_small; lia).
  unfold st_lift. rewrite Hrun'. exact Hput.
Qed.

(** ** Insertion in a facet database *)

(** A field whose levels are right, and small enough for [u8] values. *)
Definition facet_ok (D : gset DocumentId) (db : FacetDb) (f : FieldId) : Prop :=
  db_sorted db ∧ ∃ h, h < 256 ∧ levels_ok D db f h ∧ sizes_below db f h.

Lemma facet_ok_tree D db f : facet_ok D db f → tree_ok D db f.
Proof. intros (Hs & h & _ & Hok & _). split; [done|by exists h]. Qed.

Lemma facet_ok_same D db db' f :
  db_sorted db' → (∀ l, level db' f l = level db f l) → facet_ok D db f → facet_ok D db' f.
Proof.
  intros Hs' Hl (Hs & h & Hh & (H1 & H2 & H3) & Hz). split; [done|]. exists h. split; [done|].
  split; [split_and!|].
  - by rewrite Hl.
  - intros l Hlt. rewrite !Hl. by apply H2.
  - intros l Hlt. rewrite Hl. by apply H3.
  - intros k b v Hk. rewrite Hl. by apply Hz.
Qed.

Lemma insert_correct group_size min_level_size max_group_size f x docids db :
  (0 < group_size < 255)%N → (2 <= max_group_size < 256)%N →
  facet_ok ∅ db f → get_highest_level db f < 255 →
  ∃ db', insert group_size min_level_size max_group_size f x docids db = (Ok tt, db') ∧
    facet_ok ∅ db' f ∧
    (∀ y, value_docids db' f y = if decide (y = x) then value_docids db f x ∪ docids else value_docids db f y) ∧
    ∀ f' l, f' ≠ f → level db' f' l = level db f' l.
Proof.
  intros Hgs Hmax Hfacet Hh. unfold insert. destruct (decide (docids = ∅)) as [->|Hne].
  { exists db. split_and!; [done|done| |done]. intros y. case_decide as Hy; [|done].
    by rewrite Hy, union_empty_r_L. }
  pose proof Hfacet as (Hs & h & _ & Hok & Hz). pose proof Hok as (Htop & Hgr & Hab).
  rewrite (levels_highest ∅ db f h) in Hh by done.
  destruct (insert_in_level_spec max_group_size Hmax f h x docids db Hs Hgr Hz Htop) as (r & db1 & Hrun & Hins).
  pose proof Hins as (Hs1 & Hout & Hg1 & Hz1 & _ & Hv1 & pre & old & new & post & Hl & Hl1 & Hed).
  assert (levels_ok ∅ db1 f h) as Hok1.
  { split; [|split; [exact Hg1|]].
    - destruct Htop as [->|Htop]; [by left|right]. rewrite Hl1. intros Hnil.
      apply app_nil in Hnil as [-> Hnil]. apply app_nil in Hnil as [-> ->]. destruct Hed as (_ & _ & _ & Hr).
      destruct r; [destruct Hr as (? & ? & ? & _ & ? & _)|destruct Hr as (_ & ? & ? & ? & _ & ? & _)|destruct Hr as [? _]]; done.
    - intros l Hlt. rewrite Hout by (by right). by apply Hab. }
  assert (facet_ok ∅ db1 f) as Hf1 by (split; [done|]; exists h; split_and!; [lia|done..]).
  assert (∀ f' l, f' ≠ f → level db1 f' l = level db f' l) as Hoth by (intros f' l Hf'; apply Hout; by left).
  unfold mbind at 1, st_bind, st_get. rewrite (levels_highest ∅ db f h) by done. cbn zeta.
  rewrite (st_bind_ok _ _ _ _ _ Hrun). destruct r; [exists db1; by split_and!|exists db1; by split_and!|].
  destruct (add_level_spec group_size min_level_size f h db1 Hs1 Hh Hgs) as (db2 & Hrun2 & Hres).
  { rewrite Hout by (right; lia). apply Hab. lia. }
  exists db2. split; [exact Hrun2|]. destruct Hres as [->|(U & (Hs2 & Hsame & HU) & HgU & HzU)]; [by split_and!|].
  assert (level db1 f h ≠ []) as Hne1.
  { rewrite Hl1. destruct Hed as (_ & _ & _ & Hlen & _). destruct new; [done|]. by destruct pre. }
  split_and!.
  - split; [done|]. exists (S h). split; [lia|]. split; [split; [|split]|].
    + right. rewrite HU. intros ->. apply Hne1. by inversion HgU.
    + intros l Hlt. destruct (decide (l = h)) as [->|]; [|rewrite !Hsame by lia; apply Hg1; lia].
      by rewrite HU, Hsame by lia.
    + intros l Hlt. rewrite Hsame, Hout by lia. apply Hab. lia.
    + intros k b v Hk Hin. destruct (decide (k = h)) as [->|].
      * rewrite HU in Hin. by eapply HzU.
      * rewrite Hsame in Hin by lia. eapply Hz1, Hin. lia.
  - intros y. rewrite <- Hv1. apply value_docids_level; [done..|]. apply Hsame. lia.
  - intros f' l Hf'. rewrite Hsame, Hoth; [done|done|]. by intros [? _].
Qed.

(** C15: Inserting documents for a facet value adds them to this value and to no
    other, of this field or of another, and keeps the levels: every group is the
    union of its members, and the field has a level more when the highest one has
    grown to [group_size * min_level_size].  No path panics. *)
Theorem insert_spec group_size min_level_size max_group_size f x docids db :
  (0 < group_size < 255)%N → (2 <= max_group_size < 256)%N →
  facet_ok ∅ db f → get_highest_level db f < 255 →
  ∃ db', insert group_size min_level_size max_group_size f x docids db = (Ok tt, db') ∧
    facet_ok ∅ db' f ∧
    (∀ y, value_docids db' f y = if decide (y = x) then value_docids db f x ∪ docids else value_docids db f y) ∧
    ∀ f' l, f' ≠ f → level db' f' l = level db f' l.
Proof. apply insert_correct. Qed.
