(* ===== verification/FacetDelete.v ===== *)
(** * Deletions in a facet database keep its levels

    The mirror of [FacetInsert]: removing documents from a facet value shrinks, in
    every level, at most the group that the value belongs to.  The documents that
    are removed are among those, [D], that are being deleted from every value: in
    the meantime the groups may lack some of [D]. *)
From S2P Require Import Prelude Json FacetDb FacetTree FacetIncremental FacetInsert.
From S2P Require FieldsIdsMap DocumentsIds.
Import FieldsIdsMap (FieldId).
Import DocumentsIds (DocumentId).

Definition shrunk (x : bytes) (docids : gset DocumentId) (r : DeletionResult) (pre old new post : Level) : Prop :=
  (∀ e, e ∈ pre → blt e.1 x) ∧ (∀ e, e ∈ post → blt x e.1) ∧
  docids_of new = docids_of old ∖ docids ∧
  match r with
  | DeletedInPlace => ∃ b v v', old = [(b, v)] ∧ new = [(b, v')] ∧ ¬ blt x b
  | Reduce next =>
      ∃ v v' n, old = [(x, v)] ∧ new = [(n, v')] ∧ next = Some n ∧ blt x n ∧ ∀ e, e ∈ post → blt n e.1
  | Remove next => ∃ v, old = [(x, v)] ∧ new = [] ∧ next = fst <$> head post
  end.

Lemma shrunk_old x docids r pre old new post :
  shrunk x docids r pre old new post → ∃ b v, old = [(b, v)] ∧ ¬ blt x b.
Proof.
  intros (_ & _ & _ & Hr). destruct r.
  - destruct Hr as (b & v & v' & -> & _ & ?). by exists b, v.
  - destruct Hr as (v & v' & n & -> & _). exists x, v. split; [done|apply blt_irrefl].
  - destruct Hr as (v & -> & _). exists x, v. split; [done|apply blt_irrefl].
Qed.

Lemma shrunk_slot x docids r pre old new post : shrunk x docids r pre old new post → slot x pre old post.
Proof.
  intros Hsh. pose proof (shrunk_old _ _ _ _ _ _ _ Hsh) as (b & v & -> & Hb). destruct Hsh as (? & ? & _).
  split_and!; [done..|]. right. by exists b, v.
Qed.

Definition deleted (D : gset DocumentId) (f : FieldId) (l : nat) (x : bytes) (docids : gset DocumentId)
    (db : FacetDb) (r : DeletionResult) (db' : FacetDb) : Prop :=
  db_sorted db' ∧ same_outside f l db db' ∧ groups_below D db' f l ∧ sizes_below db' f l ∧
  (∀ y, value_docids db' f y = if decide (y = x) then value_docids db f x ∖ docids else value_docids db f y) ∧
  ∃ pre old new post, level db f l = pre ++ old ++ post ∧ level db' f l = pre ++ new ++ post ∧
    shrunk x docids r pre old new post.

(** ** The level 0 *)
Lemma db_get_delete k k' db :
  db_sorted db → db_get k' (db_delete k db) = if decide (k' = k) then None else db_get k' db.
Proof.
  intros Hs. destruct k' as [f' l' b']. pose proof (db_delete_sorted k db Hs) as Hs'.
  assert (∀ w, db_get (mkKey f' l' b') (db_delete k db) = Some w ↔ mkKey f' l' b' ≠ k ∧ db_get (mkKey f' l' b') db = Some w) as Hiff.
  { intros w. rewrite !db_get_level, !level_elem by done. unfold db_delete. rewrite list_elem_of_filter. done. }
  apply option_eq. intros w. rewrite Hiff. case_decide; naive_solver.
Qed.

(** The entry after a value of the level 0. *)
Lemma greater_than_0 db f x pre v post :
  db_sorted db → level db f 0 = pre ++ [(x, v)] ++ post →
  match db_greater_than (mkKey f 0 x) db with
  | Some (next, _) => if (field_id next =? f)%N && (gk_level next =? 0) then Some (left_bound next) else None
  | None => None
  end = fst <$> head post.
Proof.
  intros Hs Hl. unfold db_greater_than. destruct (greater_than_level db f 0 x Hs) as (hi & -> & Hhi).
  destruct (level_neighbours _ _ _ _ _ _ _ Hs Hl) as [Hpre Hpost].
  rewrite Hl, !filter_app. rewrite (filter_none _ pre), (filter_none _ [(x, v)]), (filter_all _ post); cycle 1.
  { intros e He. by apply Hpost. }
  { intros e ->%list_elem_of_singleton. apply blt_irrefl. }
  { intros e He Hb. apply Hpre in He. border. }
  destruct post as [|[n w] post].
  - cbn. destruct hi as [|[k u] hi]; [done|]. cbn. specialize (Hhi (k, u) ltac:(left) []).
    destruct (N.eqb_spec (field_id k) f) as [Hf|], (Nat.eqb_spec (gk_level k) 0) as [Hk|]; cbn; try done.
    destruct Hhi as [Hhi|[_ Hhi]]; cbn in *; [lia|]. by rewrite Hk in Hhi; apply Nat.lt_irrefl in Hhi.
  - cbn. by rewrite N.eqb_refl.
Qed.

Lemma delete_in_level_0_spec D f x w docids db :
  db_sorted db → (x, w) ∈ level db f 0 →
  ∃ r db', delete_in_level_0 f x docids db = (Ok r, db') ∧ deleted D f 0 x docids db r db'.
Proof.
  intros Hs Hw. destruct (level_0_at db f x Hs) as (pre & o & post & Hl & Hpre & Hpost & Ho).
  rewrite (proj2 (db_get_level db f 0 x w Hs) Hw) in Ho. subst o. rename Hw into Hin.
  assert (db_get (mkKey f 0 x) db = Some w) as Hw by by apply db_get_level.
  unfold delete_in_level_0, mbind, st_bind, st_get. cbn zeta. rewrite Hw.
  destruct (decide (gv_bitmap w ∖ docids = ∅)) as [He|He].
  - rewrite (greater_than_0 db f x pre w post Hs Hl). unfold remove. eexists _, _. split; [done|].
    destruct (set_level_delete f 0 db x w pre post Hs Hl) as (Hs' & Hoth & Hl').
    split_and!; [done| |intros k; lia|intros k; lia| |].
    + intros f' k Hk. apply Hoth. intros [? ?]; subst. destruct Hk; [done|lia].
    + intros y. unfold value_docids. rewrite db_get_delete by done.
      destruct (decide (mkKey f 0 y = mkKey f 0 x)) as [[= ->]|Hne].
      * rewrite decide_True by done. by rewrite Hw, He.
      * rewrite decide_False by congruence. done.
    + exists pre, [(x, w)], [], post.
      split; [exact Hl|split; [exact Hl'|]]. split; [done|split; [done|split]].
      * unfold docids_of. cbn. set_solver.
      * by exists w.
  - unfold put, st_modify. eexists _, _. split; [done|].
    destruct (set_level_replace f 0 db x w (mkValue 1 (gv_bitmap w ∖ docids)) pre post Hs Hl) as (Hs' & Hoth & Hl').
    split_and!; [done| |intros k; lia|intros k; lia| |].
    + intros f' k Hk. apply Hoth. intros [? ?]; subst. destruct Hk; [done|lia].
    + intros y. unfold value_docids. rewrite db_get_put by done.
      destruct (decide (mkKey f 0 y = mkKey f 0 x)) as [[= ->]|Hne].
      * rewrite decide_True by done. by rewrite Hw.
      * rewrite decide_False by congruence. done.
    + exists pre, [(x, w)], [(x, mkValue 1 (gv_bitmap w ∖ docids))], post.
      split; [exact Hl|split; [exact Hl'|]]. split; [done|split; [done|split]].
      * unfold docids_of. cbn. set_solver.
      * eexists _, _, _. split_and!; [done|done|apply blt_irrefl].
Qed.

(** ** The new group of the level above *)
Lemma shrink_group D x docids r b v lp g1 old new g2 lq :
  group_ok D (b, v) (g1 ++ old ++ g2) → docids ⊆ D → shrunk x docids r (lp ++ g1) old new (g2 ++ lq) →
  (blt x b → lp = []) →
  ¬ blt x b ∧ (x = b → g1 = []) ∧
  gv_bitmap v ∖ docids ⊆ docids_of (g1 ++ new ++ g2) ∧ docids_of (g1 ++ new ++ g2) ∖ D ⊆ gv_bitmap v ∖ docids ∧
  gv_size v = N.of_nat (length (g1 ++ new ++ g2) + match r with Remove _ => 1 | _ => 0 end).
Proof.
  intros ((w0 & g0 & Hhd) & Hsz & Hsub & Hsup) HD Hsh Hlp. cbn [fst snd] in *.
  pose proof (shrunk_old _ _ _ _ _ _ _ Hsh) as (b' & v' & Hold & Hb').
  destruct Hsh as (Hpre & Hpost & Hdoc & Hr). split_and!.
  - intros Hx. destruct g1 as [|e1 g1].
    + subst old. cbn in Hhd. injection Hhd as -> _ _. done.
    + injection Hhd as -> _. assert (blt b x) as Hb by (apply (Hpre (b, w0)); set_solver). border.
  - intros <-. destruct g1 as [|e1 g1]; [done|]. injection Hhd as -> _.
    assert (blt x x) as Hb by (apply (Hpre (x, w0)); set_solver). border.
  - rewrite !docids_of_app in *. rewrite Hdoc. set_solver.
  - rewrite !docids_of_app in *. rewrite Hdoc. set_solver.
  - rewrite Hsz, !length_app. destruct r.
    + destruct Hr as (? & ? & ? & -> & -> & _). cbn. lia.
    + destruct Hr as (? & ? & ? & -> & -> & _). cbn. lia.
    + destruct Hr as (? & -> & -> & _). cbn. lia.
Qed.

Lemma head_groups D U L : groups D U L → fst <$> head U = fst <$> head L.
Proof. intros Hg. inversion Hg as [|e g U' L' ((w & g' & ->) & _) _]; subst; done. Qed.

(** ** One level up *)
Lemma step_down D f l x docids db r db1 db2 r2 up b v new uq :
  db_sorted db → deleted D f l x docids db r db1 →
  level db f (S l) = up ++ [(b, v)] ++ uq → set_level f (S l) db1 db2 (up ++ new ++ uq) →
  groups D (up ++ new ++ uq) (level db1 f l) → (∀ k w, (k, w) ∈ up ++ new ++ uq → (gv_size w < 255)%N) →
  shrunk x docids r2 up [(b, v)] new uq →
  deleted D f (S l) x docids db r2 db2.
Proof.
  intros Hs (Hs1 & Hout1 & Hg1 & Hz1 & Hv1 & _) Hup (Hs2 & Hoth & Hl2) Hgr Hsz Hed.
  assert (∀ k, k ≤ l → level db2 f k = level db1 f k) as Hlow by (intros k Hk; apply Hoth; lia).
  split_and!; [done| | | | |].
  - intros f' k Hk. rewrite Hoth by (intros [? ?]; subst; destruct Hk; [done|lia]).
    apply Hout1. destruct Hk; [by left|right; lia].
  - intros k Hk. destruct (decide (k = l)) as [->|].
    + by rewrite Hl2, Hlow.
    + rewrite !Hlow by lia. apply Hg1. lia.
  - intros k b' v' Hk Hin. destruct (decide (k = l)) as [->|].
    + rewrite Hl2 in Hin. by eapply Hsz.
    + rewrite Hlow in Hin by lia. eapply Hz1, Hin. lia.
  - intros y. rewrite <- Hv1. apply value_docids_level; [done..|]. apply Hlow. lia.
  - exists up, [(b, v)], new, uq. done.
Qed.

(** The first key of the new group, when the value is the first of the old one. *)
Lemma shrink_head x docids r next b v D pre old new g2 lq :
  (r = Reduce next ∨ r = Remove next) → level_sorted (g2 ++ lq) →
  group_ok D (b, v) (old ++ g2) → shrunk x docids r pre old new (g2 ++ lq) → new ++ g2 ≠ [] →
  ∃ n w' rest, next = Some n ∧ new ++ g2 = (n, w') :: rest ∧ blt x n ∧ ∀ e, e ∈ lq → blt n e.1.
Proof.
  intros Hnext Hs _ (_ & Hpost & _ & Hr) Hne. destruct Hnext as [-> | ->].
  - destruct Hr as (v0 & v' & n & -> & -> & -> & Hx & Hn). exists n, v', g2. split_and!; [done..|].
    intros e He. apply Hn, elem_of_app. by right.
  - destruct Hr as (v0 & -> & -> & ->). cbn in *. destruct g2 as [|[n w'] g2]; [done|].
    exists n, w', g2. split_and!; [done|done|apply (Hpost (n, w')); left|].
    intros e He. apply sorted_app_inv in Hs as (_ & _ & Hs). apply (Hs (n, w') e); [left|done].
Qed.

(** The group keeps its entry: its key, its size and its documents change. *)
Lemma shrink f l x docids D db r next db1 up b v uq lp g1 old new g2 lq k w' rest size :
  db_sorted db → docids ⊆ D → deleted D f l x docids db r db1 → (r = Reduce next ∨ r = Remove next) →
  level db f (S l) = up ++ [(b, v)] ++ uq → level db1 f l = lp ++ (g1 ++ new ++ g2) ++ lq →
  groups D up lp → groups D uq lq →
  shrunk x docids r (lp ++ g1) old new (g2 ++ lq) → group_ok D (b, v) (g1 ++ old ++ g2) → (blt x b → lp = []) →
  g1 ++ new ++ g2 = (k, w') :: rest → size = N.of_nat (length (g1 ++ new ++ g2)) →
  (if bool_decide (x = b) then next = Some k ∧ blt x k ∧ ∀ e, e ∈ uq → blt k e.1 else k = b) →
  (∀ k w, (k, w) ∈ up ++ [(b, v)] ++ uq → (gv_size w < 255)%N) →
  deleted D f (S l) x docids db (if bool_decide (x = b) then Reduce next else DeletedInPlace)
    (db_put (mkKey f (S l) k) (mkValue size (gv_bitmap v ∖ docids)) (db_delete (mkKey f (S l) b) db1)).
Proof.
  intros Hs HD Hdel Hnext Hup Hl1 Hglp Hglq Hsh Hgr Hlp Hg' Hsize Hk Hszs.
  pose proof Hdel as (Hs1 & Hout1 & _).
  assert (level db1 f (S l) = up ++ [(b, v)] ++ uq) as Hup1 by (rewrite Hout1 by (right; lia); exact Hup).
  destruct (level_neighbours _ _ _ _ _ _ _ Hs1 Hup1) as [Hub Huq].
  destruct (shrink_group _ _ _ _ _ _ _ _ _ _ _ _ Hgr HD Hsh Hlp) as (Hxb & _ & Hsub & Hsup & Hsz).
  destruct Hsh as (Hpre & Hpost & _).
  assert (∀ e, e ∈ up → blt e.1 k) as Hupk.
  { intros e He. apply Hub in He. case_bool_decide as Hx; [|by subst k]. destruct Hk as (_ & Hk & _). subst b. border. }
  assert (∀ e, e ∈ uq → blt k e.1) as Huqk.
  { intros e He. case_bool_decide as Hx; [by apply Hk|]. subst k. by apply Huq. }
  pose proof (set_level_delete _ _ _ _ _ _ _ Hs1 Hup1) as Hd. pose proof Hd as (Hsd & _ & Hld).
  pose proof (set_level_put f (S l) _ k (mkValue size (gv_bitmap v ∖ docids)) up [] uq Hsd Hld
    ltac:(by intros ? ?%not_elem_of_nil) Hupk Huqk) as Hp.
  eapply (step_down D f l x docids db r db1 _ _ up b v _ uq); [done|done|done|by eapply set_level_trans| | |].
  - rewrite Hl1. apply groups_app; [done|]. apply (groups_app D [_] uq); [|done]. apply groups_single.
    split; [by eexists _, _|split; [done|]]. by split.
  - intros k' u. rewrite !elem_of_app, list_elem_of_singleton. intros [Hin|[[= -> ->]|Hin]]; cbn;
      [apply (Hszs k')|assert (gv_size v < 255)%N by (apply (Hszs b); set_solver); lia|apply (Hszs k')]; set_solver.
  - split.
    { intros e He. apply Hub in He. border. }
    split.
    { intros e He. destruct (groups_key _ _ _ _ Hglq He) as [we Hwe]. apply (Hpost (e.1, we)). set_solver. }
    split; [unfold docids_of; cbn; set_solver|]. case_bool_decide as Hx.
    + destruct Hk as (-> & Hxk & Hkq). subst b. eexists _, _, k. split_and!; done.
    + subst k. eexists _, _, _. split_and!; done.
Qed.

(** The code after the recursive call, when the level below lost or renamed a key. *)
Lemma shrink_run f l x docids D db r next db1 up b v uq lp g1 old new g2 lq size :
  db_sorted db → docids ⊆ D → deleted D f l x docids db r db1 → (r = Reduce next ∨ r = Remove next) →
  level db f (S l) = up ++ [(b, v)] ++ uq → level db1 f l = lp ++ (g1 ++ new ++ g2) ++ lq →
  groups D up lp → groups D uq lq → level_sorted (g2 ++ lq) →
  shrunk x docids r (lp ++ g1) old new (g2 ++ lq) → group_ok D (b, v) (g1 ++ old ++ g2) → (blt x b → lp = []) →
  (∀ e, e ∈ up → blt e.1 x) → (∀ k w, (k, w) ∈ up ++ [(b, v)] ++ uq → (gv_size w < 255)%N) →
  size = N.of_nat (length (g1 ++ new ++ g2)) →
  ∃ r2 db2,
    (if (size =? 0)%N then remove (mkKey f (S l) b) ≫= λ _, mret (Remove next)
     else
       let reduced_range := bool_decide (x = b) in
       (if reduced_range
        then match next with
             | Some next => mret (mkKey f (S l) next)
             | None => panic "called Option::unwrap on a None value"
             end
        else mret (mkKey f (S l) b)) ≫= λ updated_deletion_key,
       remove (mkKey f (S l) b) ≫= λ _,
       put updated_deletion_key (mkValue size (gv_bitmap v ∖ docids)) ≫= λ _,
       mret (if reduced_range then Reduce next else DeletedInPlace)) db1 = (Ok r2, db2) ∧
    deleted D f (S l) x docids db r2 db2.
Proof.
  intros Hs HD Hdel Hnext HU Hl1 Hglp Hglq Hls2 Hsh Hgr Hlp Hupx Hszs Hsize.
  pose proof Hdel as (Hs1 & Hout1 & _).
  assert (level db1 f (S l) = up ++ [(b, v)] ++ uq) as Hup1 by (rewrite Hout1 by (right; lia); exact HU).
  destruct (shrink_group _ _ _ _ _ _ _ _ _ _ _ _ Hgr HD Hsh Hlp) as (Hxb & Hg1 & Hsub & Hsup & Hsz).
  assert (∃ v0, old = [(x, v0)]) as [v0 Hold].
  { destruct Hsh as (_ & _ & _ & Hr). destruct Hnext as [-> | ->]; [destruct Hr as (? & ? & ? & -> & _)|destruct Hr as (? & -> & _)]; by eexists. }
  assert (g1 = [] → x = b) as Hg1'.
  { intros ->. subst old. destruct Hgr as ((? & ? & Hhd) & _). by injection Hhd as -> _ _. }
  destruct (N.eqb_spec size 0) as [Hz0|Hnz].
  - assert (g1 ++ new ++ g2 = []) as Hnil by (destruct (g1 ++ new ++ g2); [done|cbn in *; lia]).
    apply app_nil in Hnil as [-> Hnil]. apply app_nil in Hnil as [-> ->]. specialize (Hg1' eq_refl). subst b.
    eexists _, _. split; [unfold mbind, st_bind, remove; done|].
    eapply (step_down D f l x docids db r db1 _ _ up x v [] uq); [done|done|done| | | |].
    + by eapply set_level_delete.
    + rewrite Hl1. by apply groups_app.
    + intros k u Hin. apply (Hszs k). set_solver.
    + destruct (level_neighbours _ _ _ _ _ _ _ Hs1 Hup1) as [_ Huq]. split; [done|split; [done|split]].
      * unfold docids_of in *. cbn in *. set_solver.
      * exists v. split; [done|split; [done|]]. rewrite (head_groups _ _ _ Hglq).
        destruct Hsh as (_ & _ & _ & Hr). destruct Hnext as [-> | ->]; [by destruct Hr as (? & ? & ? & _ & ? & _)|].
        by destruct Hr as (? & _ & _ & ->).
  - assert (g1 ++ new ++ g2 ≠ []) as Hne by (intros Hnil; rewrite Hnil in Hsize; cbn in *; lia).
    case_bool_decide as Hx.
    + specialize (Hg1 Hx). subst g1. cbn [app] in *.
      destruct (shrink_head x docids r next b v D _ old new g2 lq Hnext Hls2 Hgr Hsh Hne) as (n & w' & rest & -> & Hg' & Hxn & Hlqn).
      eexists _, _. split; [unfold mbind, st_bind, remove, put, st_modify; done|].
      pose proof (shrink f l x docids D db r (Some n) db1 up b v uq lp [] old new g2 lq n w' rest size) as Hshr.
      rewrite bool_decide_eq_true_2 in Hshr by done. apply Hshr; try done. split; [done|split; [done|]].
      intros e He. destruct (groups_key _ _ _ _ Hglq He) as [we Hwe]. by apply (Hlqn (e.1, we)).
    + destruct g1 as [|e1 g1]; [by destruct Hx; apply Hg1'|].
      pose proof Hgr as ((w1 & g' & Hhd) & _). injection Hhd as -> _.
      eexists _, _. split; [unfold mbind, st_bind, remove, put, st_modify; done|].
      pose proof (shrink f l x docids D db r next db1 up b v uq lp ((b, w1) :: g1) old new g2 lq b w1 (g1 ++ new ++ g2) size) as Hshr.
      rewrite bool_decide_eq_false_2 in Hshr by done. by apply Hshr.
Qed.

Lemma delete_in_level_spec f l x w docids D db :
  db_sorted db → docids ⊆ D → groups_below D db f l → sizes_below db f l → (x, w) ∈ level db f 0 →
  (l = 0 ∨ level db f l ≠ []) →
  ∃ r db', delete_in_level f l x docids db = (Ok r, db') ∧ deleted D f l x docids db r db'.
Proof.
  intros Hs HD. induction l as [|l IH]; intros Hg Hz Hw Hne; [by eapply delete_in_level_0_spec|].
  destruct Hne as [?|Hne]; [done|]. pose proof (Hg l ltac:(lia)) as Hgl.
  destruct IH as (r & db1 & Hrun & Hdel).
  { intros k Hk. apply Hg. lia. }
  { intros k b v Hk. apply Hz. lia. }
  { done. }
  { right. intros Hnil. rewrite Hnil in Hgl. by apply groups_nil_inv in Hgl. }
  destruct (find_insertion_spec db f l x x w Hs Hne Hw) as (b & v & up & uq & Hfind & Hfound).
  pose proof Hdel as (Hs1 & Hout1 & _ & _ & _ & pre & old & new & post & Hl0 & Hl1 & Hsh).
  rewrite Hl0 in Hgl.
  assert (level_sorted (pre ++ old ++ post)) as Hls by (rewrite <- Hl0; by apply level_is_sorted).
  destruct (locate D x _ up uq b v pre old post Hls Hgl Hfound (shrunk_slot _ _ _ _ _ _ _ Hsh))
    as (lp & g1 & g2 & lq & -> & -> & Hglp & Hgr & Hglq).
  pose proof Hfound as (HU & Huq & Hbx).
  assert (level db1 f (S l) = up ++ [(b, v)] ++ uq) as Hup1 by (rewrite Hout1 by (right; lia); exact HU).
  assert (blt x b → lp = []) as Hlp by (intros Hx; rewrite (Hbx Hx) in Hglp; by inversion Hglp).
  destruct (shrink_group _ _ _ _ _ _ _ _ _ _ _ _ Hgr HD Hsh Hlp) as (Hxb & Hg1 & Hsub & Hsup & Hsz).
  assert (level db1 f l = lp ++ (g1 ++ new ++ g2) ++ lq) as Hl1' by (rewrite Hl1, <- !app_assoc; done).
  assert (∀ k u, (k, u) ∈ up ++ [(b, v)] ++ uq → (gv_size u < 255)%N) as Hszs
    by (intros k u Hin; apply (Hz l k); [lia|by rewrite HU]).
  pose proof Hls as (_ & (_ & Hls2 & _)%sorted_app_inv & _)%sorted_app_inv.
  destruct (level_neighbours db f (S l) up b v uq Hs HU) as [Hub Hubq].
  assert (∀ e, e ∈ up → blt e.1 x) as Hupx by (intros e He; apply Hub in He; border).
  assert (gv_size v < 255)%N as Hzv by (apply (Hszs b); set_solver).
  cbn [delete_in_level]. rewrite (st_bind_ok _ _ _ _ _ Hfind), (st_bind_ok _ _ _ _ _ Hrun).
  destruct r as [|next|next].
  - exists DeletedInPlace. eexists. split; [unfold mbind, st_bind, put, st_modify; done|].
    rewrite Nat.add_0_r in Hsz. destruct Hsh as (_ & _ & _ & b0 & v0 & v0' & -> & -> & Hb0).
    eapply (step_down D f l x docids db DeletedInPlace db1 _ _ up b v [(b, mkValue (gv_size v) (gv_bitmap v ∖ docids))] uq);
      [done|done|done|by eapply set_level_replace| | |].
    + rewrite Hl1'. apply groups_app; [done|]. apply (groups_app D [_] uq); [|done]. apply groups_single.
      split; [|split; [done|by split]]. destruct Hgr as ((w1 & g' & Hhd) & _). cbn [fst] in *.
      destruct g1 as [|e1 g1]; cbn [app] in *; injection Hhd as -> _; by eexists _, _.
    + intros k u. rewrite !elem_of_app, list_elem_of_singleton. intros [Hin|[[= -> ->]|Hin]]; cbn;
        [apply (Hszs k)|done|apply (Hszs k)]; set_solver.
    + split; [done|split; [done|split; [unfold docids_of; cbn; set_solver|]]]. by eexists _, _, _.
  - rewrite Nat.add_0_r in Hsz. cbn [FacetDb.field_id gk_level left_bound].
    eapply (shrink_run f l x docids D db (Reduce next) next db1 up b v uq lp g1 old new g2 lq); try done. by left.
  - cbn [FacetDb.field_id gk_level left_bound].
    replace (wrap8 (gv_size v + 255)) with (N.of_nat (length (g1 ++ new ++ g2))).
    + eapply (shrink_run f l x docids D db (Remove next) next db1 up b v uq lp g1 old new g2 lq); try done. by right.
    + unfold wrap8. rewrite Hsz. replace (N.of_nat (length (g1 ++ new ++ g2) + 1) + 255)%N
        with (N.of_nat (length (g1 ++ new ++ g2)) + 1 * 256)%N by lia.
      rewrite N.Div0.mod_add, N.mod_small by lia. done.
Qed.

(** ** Deletion in a facet database *)
Lemma remove_all_spec f l db L :
  db_sorted db → level db f l = L → ∃ db', remove_all (at_level f l <$> L) db = (Ok tt, db') ∧ set_level f l db db' [].
Proof.
  revert db. induction L as [|[b v] L IH]; intros db Hs HL; [by exists db|].
  destruct (set_level_delete f l db b v [] L Hs HL) as (Hs' & Hoth & HL').
  destruct (IH _ Hs' HL') as (db' & Hrun & Hset). exists db'. split.
  - rewrite fmap_cons. cbn [remove_all at_level fst snd]. exact Hrun.
  - eapply set_level_trans; [|exact Hset]. by split_and!.
Qed.

(** Every level of a field is empty when one is. *)
Lemma groups_below_empty D db f l k :
  groups_below D db f l → k ≤ l → level db f l = [] → level db f k = [].
Proof.
  intros Hg Hk Hl. remember (l - k) as n eqn:Hn. revert k Hk Hn.
  induction n as [|n IH]; intros k Hk Hn; [by replace k with l by lia|].
  specialize (Hg k ltac:(lia)). rewrite (IH (S k)) in Hg by lia. by inversion Hg.
Qed.

Lemma delete_correct min_level_size f x docids D db :
  docids ⊆ D → facet_ok D db f →
  ∃ db', delete min_level_size f x docids db = (Ok tt, db') ∧ facet_ok D db' f ∧
    (∀ y, value_docids db' f y = if decide (y = x) then value_docids db f x ∖ docids else value_docids db f y) ∧
    ∀ f' l, f' ≠ f → level db' f' l = level db f' l.
Proof.
  intros HD Hfacet. unfold delete, mbind at 1, st_bind, st_get. cbn zeta.
  destruct (db_get (mkKey f 0 x) db) as [w|] eqn:Hw; cycle 1.
  { exists db. split_and!; [done|done| |done]. intros y. case_decide as Hy; [|done].
    subst y. unfold value_docids. rewrite Hw. set_solver. }
  pose proof Hfacet as (Hs & h & Hh & Hok & Hz). pose proof Hok as (Htop & Hgr & Hab).
  apply db_get_level in Hw; [|done].
  destruct (delete_in_level_spec f h x w docids D db Hs HD Hgr Hz Hw Htop) as (r & db1 & Hrun & Hdel).
  pose proof Hdel as (Hs1 & Hout & Hg1 & Hz1 & Hv1 & pre & old & new & post & Hl & Hl1 & Hsh).
  assert (∀ l, h < l → level db1 f l = []) as Hab1 by (intros l Hlt; rewrite Hout by (by right); by apply Hab).
  assert (facet_ok D db1 f) as Hf1.
  { split; [done|]. destruct (level db1 f h) as [|e L] eqn:HLh.
    - assert (∀ l, level db1 f l = []) as Hnil.
      { intros l. destruct (decide (l ≤ h)); [by eapply groups_below_empty|apply Hab1; lia]. }
      exists 0. split_and!; [lia|by split; [left|split; [lia|auto]]|intros k; lia].
    - exists h. split_and!; [done| |done]. split; [right; by rewrite HLh|by split]. }
  assert (∀ f' l, f' ≠ f → level db1 f' l = level db f' l) as Hoth by (intros f' l Hf'; apply Hout; by left).
  rewrite (levels_highest D db f h) by done. rewrite (st_bind_ok _ _ _ _ _ Hrun).
  destruct r; [exists db1; by split_and!|exists db1; by split_and!|].
  unfold mbind, st_bind. cbn zeta.
  destruct (orb _ _) eqn:Hc; [exists db1; by split_and!|].
  apply orb_false_iff in Hc as [Hh0 _]. apply Nat.eqb_neq in Hh0. rewrite prefix_level_map.
  destruct (remove_all_spec f h db1 _ Hs1 eq_refl) as (db2 & Hrun2 & Hs2 & Hsame & Hl2).
  exists db2. split; [exact Hrun2|]. split_and!.
  - split; [done|]. destruct (level db1 f (h - 1)) as [|e L] eqn:HLh.
    + assert (∀ l, level db2 f l = []) as Hnil.
      { intros l. destruct (decide (l = h)) as [->|Hne]; [done|]. rewrite Hsame by lia.
        destruct (decide (l ≤ h)); [|apply Hab1; lia].
        eapply (groups_below_empty D db1 f (h - 1)); [|lia|done]. intros k Hk. apply Hg1. lia. }
      exists 0. split_and!; [lia|by split; [left|split; [lia|auto]]|intros k; lia].
    + exists (h - 1). split; [lia|]. split; [split; [|split]|].
      * right. rewrite Hsame by lia. by rewrite HLh.
      * intros l Hlt. rewrite !Hsame by lia. apply Hg1. lia.
      * intros l Hlt. destruct (decide (l = h)) as [->|Hne]; [done|]. rewrite Hsame by lia. apply Hab1. lia.
      * intros k b v Hk. rewrite Hsame by lia. apply Hz1. lia.
  - intros y. rewrite <- Hv1. apply value_docids_level; [done..|]. apply Hsame. lia.
  - intros f' l Hf'. rewrite Hsame, Hoth; [done|done|]. by intros [? _].
Qed.

(** Deleting documents from a facet value removes them from this value and
    from no other, and keeps the levels, up to the documents [D] that are being
    deleted from every value; the value, the groups and the level that are left
    empty or too small disappear.  No path panics. *)
Theorem delete_spec min_level_size f x docids D db :
  docids ⊆ D → facet_ok D db f →
  ∃ db', delete min_level_size f x docids db = (Ok tt, db') ∧ facet_ok D db' f ∧
    (∀ y, value_docids db' f y = if decide (y = x) then value_docids db f x ∖ docids else value_docids db f y) ∧
    ∀ f' l, f' ≠ f → level db' f' l = level db f' l.
Proof. apply delete_correct. Qed.

(** Once the documents are in no value any more, the groups are exact. *)
Lemma facet_ok_exact D db f :
  facet_ok D db f → (∀ x, value_docids db f x ## D) → facet_ok ∅ db f.
Proof.
  intros (Hs & h & Hh & Hok & Hz) Hdis. split; [done|]. exists h. split; [done|]. split; [|done].
  pose proof Hok as (Htop & Hgr & Hab). split; [done|split; [|done]]. intros l Hl.
  eapply groups_exact; [|by apply Hgr]. pose proof (levels_span D db f h l Hok ltac:(lia)) as [Hsub _]%span_docids.
  intros d Hd HdD. apply Hsub, elem_of_docids_of in Hd as ([b v] & Hin & Hd).
  apply (Hdis b d); [|done]. unfold value_docids. apply db_get_level in Hin; [|done]. by rewrite Hin.
Qed.
