(* ===== verification/FacetBulk.v ===== *)
(** * Bulk updates of a facet database (milli/src/update/facet/bulk.rs)

    The level 0 receives the new values, the levels above are cleared and computed
    again.  [compute_higher_levels] gives the groups it completes to a callback,
    which fills the level above: here the calls of the callback are a list, in
    their order.  Files of grenad are lists of entries. *)
From S2P Require Import Prelude Json FacetDb FacetTree FacetIncremental FacetInsert.
From S2P Require FieldsIdsMap DocumentsIds.
Import FieldsIdsMap (FieldId).
Import DocumentsIds (DocumentId).

(** What [handle_group] is called with: some bitmaps and their left bound. *)
Abbreviation Call := (list (gset DocumentId) * bytes)%type.

Definition max_word_length : nat := 250.

(** [valid_lmdb_key] on the bytes of a key: three of them are the field and the level. *)
Definition valid_lmdb_key (key : FacetGroupKey) : bool := 3 + length (left_bound key) <=? max_word_length * 2.

(** The elements of a level that are not in a group of the level above yet, what is
    written, and the groups given to the level above. *)
Record LevelState := mkState {
  group_sizes : list N;
  left_bounds : list bytes;
  bitmaps : list (gset DocumentId);
  cur_writer : FacetDb;
  handled : list Call
}.

Section FacetsUpdateBulkInner.
Context (group_size min_level_size : N).

(** *** The level 0 *)
Fixpoint update_level0_append (new_data : list (FacetGroupKey * gset DocumentId)) (db : FacetDb) : FacetDb :=
  match new_data with
  | [] => db
  | (key, value) :: new_data =>
      if negb (valid_lmdb_key key) then update_level0_append new_data db
      else update_level0_append new_data (db ++ [(key, mkValue 1 value)])
  end.

Fixpoint update_level0_merge (new_data : list (FacetGroupKey * gset DocumentId)) (db : FacetDb) : FacetDb :=
  match new_data with
  | [] => db
  | (key, value) :: new_data =>
      if negb (valid_lmdb_key key) then update_level0_merge new_data db
      else
        let bitmap :=
          match db_get key db with
          | Some prev_value => value ∪ gv_bitmap prev_value
          | None => value
          end in
        update_level0_merge new_data (db_put key (mkValue 1 bitmap) db)
  end.

Definition update_level0 (new_data : option (list (FacetGroupKey * gset DocumentId))) (db : FacetDb) : FacetDb :=
  match new_data with
  | None => db
  | Some new_data =>
      match db with
      | [] => update_level0_append new_data db
      | _ => update_level0_merge new_data db
      end
  end.

(** [delete_range(left..=right)]. *)
Definition clear_levels (field_id : FieldId) (db : FacetDb) : FacetDb :=
  let lo := mkKey field_id 1 [] in
  let hi := mkKey field_id u8_max [] in
  filter (λ e, ¬ (¬ key_lt e.1 lo ∧ ¬ key_lt hi e.1)) db.

(** The loop of [read_level_0]. *)
Fixpoint read_level_0_loop (iter : FacetDb) (left_bound_ : bytes) (first_iteration_for_new_group : bool)
    (bitmaps : list (gset DocumentId)) : list Call :=
  match iter with
  | [] => match bitmaps with [] => [] | _ => [(bitmaps, left_bound_)] end
  | (key, value) :: iter =>
      let bound := left_bound key in
      let docids := gv_bitmap value in
      let left_bound_ := if first_iteration_for_new_group then bound else left_bound_ in
      let bitmaps := bitmaps ++ [docids] in
      if (N.of_nat (length bitmaps) =? group_size)%N
      then (bitmaps, left_bound_) :: read_level_0_loop iter left_bound_ true []
      else read_level_0_loop iter left_bound_ false bitmaps
  end.

Definition read_level_0 (db : FacetDb) (field_id : FieldId) : list Call :=
  read_level_0_loop (prefix_level field_id 0 db) [] true [].

(** *** The levels above *)

(** The drained vectors, zipped. *)
Fixpoint drained (field_id : FieldId) (level : nat) (bitmaps : list (gset DocumentId)) (left_bounds : list bytes)
    (group_sizes : list N) : FacetDb :=
  match bitmaps, left_bounds, group_sizes with
  | bitmap :: bitmaps, left_bound :: left_bounds, group_size :: group_sizes =>
      (mkKey field_id level left_bound, mkValue group_size bitmap)
        :: drained field_id level bitmaps left_bounds group_sizes
  | _, _, _ => []
  end.

Definition handle_group (st : LevelState) : outcome FacetError Call :=
  match left_bounds st with
  | left_bound :: _ => Ok (bitmaps st, left_bound)
  | [] => Panic "called Option::unwrap on a None value"
  end.

(** Gives the elements to the level above and writes them. *)
Definition flush (field_id : FieldId) (level : nat) (st : LevelState) : outcome FacetError LevelState :=
  call ← handle_group st;
  Ok (mkState [] [] []
        (cur_writer st ++ drained field_id level (bitmaps st) (left_bounds st) (group_sizes st))
        (handled st ++ [call])).

(** The callback given to the level below. *)
Definition on_group (field_id : FieldId) (level : nat) (st : LevelState) (call : Call) :
    outcome FacetError LevelState :=
  let '(sub_bitmaps, left_bound) := call in
  let st := mkState (group_sizes st ++ [wrap8 (N.of_nat (length sub_bitmaps))]) (left_bounds st ++ [left_bound])
              (bitmaps st ++ [⋃ sub_bitmaps]) (cur_writer st) (handled st) in
  if negb (N.of_nat (length (bitmaps st)) =? group_size)%N then Ok st else flush field_id level st.

Fixpoint on_groups (field_id : FieldId) (level : nat) (st : LevelState) (calls : list Call) :
    outcome FacetError LevelState :=
  match calls with
  | [] => Ok st
  | call :: calls => st ← on_group field_id level st call; on_groups field_id level st calls
  end.

(** What follows the calls of the level below: the leftover elements, and whether
    the level is kept. *)
Definition end_of_level (field_id : FieldId) (level : nat) (sub_writers : list FacetDb) (st : LevelState) :
    outcome FacetError (list FacetDb * list Call) :=
  let len := λ st, N.of_nat (length (cur_writer st)) in
  st ← (match bitmaps st with
        | [] => Ok st
        | _ =>
            if (wrap64 (min_level_size + (u64_size - 1)) <=? len st)%N then
              _ ← assert (N.of_nat (length (bitmaps st)) <? group_size)%N "assertion failed: bitmaps.len() < group_size";
              _ ← assert (0 <? len st)%N "assertion failed: cur_writer_len > 0";
              flush field_id level st
            else Ok st
        end);
  if (min_level_size <=? len st)%N then Ok (sub_writers ++ [cur_writer st], handled st)
  else
    match bitmaps st with
    | [] => Ok (sub_writers, handled st)
    | _ => call ← handle_group st; Ok (sub_writers, handled st ++ [call])
    end.

(** The writers of the levels [1..level] that are kept, and the calls to [handle_group]. *)
Fixpoint compute_higher_levels (db : FacetDb) (field_id : FieldId) (level : nat) :
    outcome FacetError (list FacetDb * list Call) :=
  match level with
  | 0 => Ok ([], read_level_0 db field_id)
  | S below =>
      '(sub_writers, calls) ← compute_higher_levels db field_id below;
      st ← on_groups field_id level (mkState [] [] [] [] []) calls;
      end_of_level field_id level sub_writers st
  end.

Definition compute_levels_for_field_id (db : FacetDb) (field_id : FieldId) :
    outcome FacetError (list FacetDb * gset DocumentId) :=
  '(subwriters, calls) ← compute_higher_levels db field_id 32;
  Ok (subwriters, ⋃ ((λ call : Call, ⋃ call.1) <$> calls)).

Definition put_entries (entries : FacetDb) (db : FacetDb) : FacetDb :=
  fold_left (λ db (e : Entry), db_put e.1 e.2 db) entries db.

(** The second loop of [update]; [handle_all_docids] is what is done with the
    documents of a field. *)
Fixpoint update_fields {W} (handle_all_docids : FieldId → gset DocumentId → W → W) (field_ids : list FieldId)
    (db : FacetDb) (w : W) : outcome FacetError (FacetDb * W) :=
  match field_ids with
  | [] => Ok (db, w)
  | field_id :: field_ids =>
      '(level_readers, all_docids) ← compute_levels_for_field_id db field_id;
      let w := handle_all_docids field_id all_docids w in
      let db := fold_left (λ db entries, put_entries entries db) level_readers db in
      update_fields handle_all_docids field_ids db w
  end.

Definition update {W} (handle_all_docids : FieldId → gset DocumentId → W → W)
    (new_data : option (list (FacetGroupKey * gset DocumentId))) (field_ids : list FieldId) (db : FacetDb) (w : W) :
    outcome FacetError (FacetDb * W) :=
  let db := update_level0 new_data db in
  let db := fold_left (λ db field_id, clear_levels field_id db) field_ids db in
  update_fields handle_all_docids field_ids db w.
End FacetsUpdateBulkInner.

(** ** The groups of a level *)
Definition first_key (g : Level) : bytes := from_option fst [] (head g).
Definition call_of (g : Level) : Call := ((λ e : bytes * FacetGroupValue, gv_bitmap e.2) <$> g, first_key g).
Definition combined (g : Level) : bytes * FacetGroupValue :=
  (first_key g, mkValue (N.of_nat (length g)) (docids_of g)).

Section groups.
Context (group_size min_level_size : N) (Hgs : (0 < group_size < 255)%N) (Hmin : (2 <= min_level_size < 256)%N).
Context (f : FieldId).

Definition group_fits (g : Level) : Prop := g ≠ [] ∧ (N.of_nat (length g) <= group_size)%N.

Lemma combined_ok g : g ≠ [] → group_ok ∅ (combined g) g.
Proof.
  intros Hne. destruct g as [|[b v] g]; [done|]. split; [by eexists _, _|]. split; [done|]. cbn. set_solver.
Qed.

Lemma groups_combined G : Forall group_fits G → groups ∅ (combined <$> G) (concat G).
Proof.
  induction 1 as [|g G [Hne _] _ IH]; [constructor|]. rewrite fmap_cons. cbn [concat].
  constructor; [by apply combined_ok|done].
Qed.

Lemma docids_of_combined G : docids_of (combined <$> G) = docids_of (concat G).
Proof.
  induction G as [|g G IH]; [done|]. rewrite fmap_cons. cbn [concat].
  by rewrite docids_of_cons, docids_of_app, IH.
Qed.

Lemma calls_docids G : ⋃ ((λ call : Call, ⋃ call.1) <$> (call_of <$> G)) = docids_of (concat G).
Proof.
  induction G as [|g G IH]; [done|]. cbn [concat fmap list_fmap union_list]. rewrite docids_of_app, <- IH. done.
Qed.

Lemma read_level_0_spec L P lb first :
  (length P < N.to_nat group_size) → first = bool_decide (P = []) → (P ≠ [] → lb = first_key P) →
  ∃ G, read_level_0_loop group_size (at_level f 0 <$> L) lb first ((λ e : bytes * FacetGroupValue, gv_bitmap e.2) <$> P) =
      call_of <$> G ∧ concat G = P ++ L ∧ Forall group_fits G.
Proof.
  revert P lb first. induction L as [|[b v] L IH]; intros P lb first HP -> Hlb.
  - cbn. destruct P as [|e P]; [by exists []|]. exists [e :: P]. rewrite Hlb by done.
    split_and!; [done|cbn; by rewrite !app_nil_r|]. constructor; [|constructor]. split; [done|lia].
  - rewrite fmap_cons. cbn [read_level_0_loop at_level fst snd left_bound].
    set (lb' := if bool_decide (P = []) then b else lb).
    assert (lb' = first_key (P ++ [(b, v)])) as Hlb'.
    { subst lb'. destruct P as [|e P]; [done|]. cbn. by apply Hlb. }
    replace (((λ e : bytes * FacetGroupValue, gv_bitmap e.2) <$> P) ++ [gv_bitmap v])
      with ((λ e : bytes * FacetGroupValue, gv_bitmap e.2) <$> P ++ [(b, v)]) by by rewrite fmap_app.
    rewrite length_fmap. destruct (N.eqb_spec (N.of_nat (length (P ++ [(b, v)]))) group_size) as [Heq|Hne].
    + destruct (IH [] lb' true) as (G & Hrun & Hcat & Hfit); [cbn; lia|done|done|].
      exists ((P ++ [(b, v)]) :: G). rewrite fmap_cons. cbn [concat]. rewrite Hcat, Hlb'. cbn in Hrun. rewrite <- Hlb', Hrun.
      split_and!; [unfold call_of at 2; by rewrite Hlb'|by rewrite <- app_assoc|]. constructor; [|done].
      split; [by destruct P|lia].
    + destruct (IH (P ++ [(b, v)]) lb' false) as (G & Hrun & Hcat & Hfit).
      { rewrite length_app in *. cbn in *. lia. }
      { by destruct P. }
      { done. }
      exists G. rewrite Hcat, <- app_assoc. done.
Qed.

(** *** The state of a level *)
Definition st_ok (level : nat) (st : LevelState) (done : list Level) (R : Level) : Prop :=
  bitmaps st = (λ e : bytes * FacetGroupValue, gv_bitmap e.2) <$> R ∧ left_bounds st = fst <$> R ∧
  group_sizes st = (λ e : bytes * FacetGroupValue, gv_size e.2) <$> R ∧
  cur_writer st = at_level f level <$> concat done ∧ handled st = call_of <$> done ∧
  length R < N.to_nat group_size ∧ Forall (λ g, length g = N.to_nat group_size) done.

Lemma st_ok_init level : st_ok level (mkState [] [] [] [] []) [] [].
Proof. repeat split; [cbn; lia|]. by apply Forall_nil. Qed.

Lemma drained_spec level (R : Level) :
  drained f level ((λ e : bytes * FacetGroupValue, gv_bitmap e.2) <$> R) (fst <$> R)
    ((λ e : bytes * FacetGroupValue, gv_size e.2) <$> R) = at_level f level <$> R.
Proof. induction R as [|[b [sz bm]] R IH]; [done|]. cbn. f_equal. exact IH. Qed.

Lemma flush_spec level st done R :
  R ≠ [] → bitmaps st = (λ e : bytes * FacetGroupValue, gv_bitmap e.2) <$> R → left_bounds st = fst <$> R →
  group_sizes st = (λ e : bytes * FacetGroupValue, gv_size e.2) <$> R →
  cur_writer st = at_level f level <$> concat done → handled st = call_of <$> done →
  flush f level st =
    Ok (mkState [] [] [] (at_level f level <$> concat (done ++ [R])) (call_of <$> done ++ [R])).
Proof.
  intros HR Hb Hl Hg Hw Hh. unfold flush, handle_group. rewrite Hl, Hb, Hg, Hw, Hh.
  destruct R as [|e R]; [done|]. cbn [fmap list_fmap mbind outcome_bind].
  rewrite concat_app, !fmap_app. cbn [concat]. rewrite app_nil_r. f_equal. f_equal.
  f_equal. apply (drained_spec level (e :: R)).
Qed.

Lemma on_groups_spec level G st done R :
  st_ok level st done R → Forall group_fits G →
  ∃ st' done' R', on_groups group_size f level st (call_of <$> G) = Ok st' ∧ st_ok level st' done' R' ∧
    concat done' ++ R' = concat done ++ R ++ (combined <$> G).
Proof.
  revert st done R. induction G as [|g G IH]; intros st done R Hst Hfit.
  { exists st, done, R. by rewrite app_nil_r. }
  apply Forall_cons in Hfit as [[Hne Hlen] Hfit]. pose proof Hst as (Hb & Hl & Hg & Hw & Hh & HR & Hdone).
  assert (⋃ ((λ e : bytes * FacetGroupValue, gv_bitmap e.2) <$> g) = gv_bitmap (combined g).2) as Hu by done.
  rewrite fmap_cons. cbn [on_groups]. unfold on_group at 1. change (call_of g) with ((λ e : bytes * FacetGroupValue, gv_bitmap e.2) <$> g, first_key g). cbv beta iota zeta.
  rewrite length_fmap.
  unfold wrap8. rewrite N.mod_small by lia. rewrite Hu.
  change (N.of_nat (length g)) with (gv_size (combined g).2). change (first_key g) with ((combined g).1).
  cbn [bitmaps]. rewrite Hb, Hl, Hg.
  assert (∀ {B} (h : bytes * FacetGroupValue → B), (h <$> R) ++ [h (combined g)] = h <$> R ++ [combined g]) as Hsnoc
    by (intros B h; by rewrite fmap_app).
  rewrite (Hsnoc _ (λ e, gv_bitmap e.2)), (Hsnoc _ fst), (Hsnoc _ (λ e, gv_size e.2)), length_fmap.
  assert (length (R ++ [combined g]) = S (length R)) as HlR by (rewrite length_app; cbn; lia).
  destruct (N.eqb_spec (N.of_nat (length (R ++ [combined g]))) group_size) as [Heq|Hneq]; cbn [negb].
  - rewrite (flush_spec level _ done (R ++ [combined g])) by (done || by destruct R). cbn [mbind outcome_bind].
    destruct (IH (mkState [] [] [] (at_level f level <$> concat (done ++ [R ++ [combined g]]))
      (call_of <$> done ++ [R ++ [combined g]])) (done ++ [R ++ [combined g]]) []) as (st' & done' & R' & Hrun & Hst' & Hcat); [|done|].
    { split_and!; try done; [cbn; lia|]. apply Forall_app. split; [done|]. constructor; [lia|constructor]. }
    exists st', done', R'. split; [exact Hrun|split; [done|]]. rewrite Hcat, concat_app. cbn.
    by rewrite app_nil_r, <- !app_assoc.
  - cbn [mbind outcome_bind].
    destruct (IH (mkState ((λ e : bytes * FacetGroupValue, gv_size e.2) <$> R ++ [combined g]) (fst <$> R ++ [combined g])
      ((λ e : bytes * FacetGroupValue, gv_bitmap e.2) <$> R ++ [combined g]) (cur_writer st) (handled st))
      done (R ++ [combined g])) as (st' & done' & R' & Hrun & Hst' & Hcat); [|done|].
    { split_and!; try done. lia. }
    exists st', done', R'. split; [exact Hrun|split; [done|]]. by rewrite Hcat, <- !app_assoc.
Qed.

Lemma length_concat_full (done : list Level) :
  Forall (λ g, length g = N.to_nat group_size) done → length (concat done) = length done * N.to_nat group_size.
Proof. induction 1 as [|g done Hg _ IH]; [done|]. cbn. rewrite length_app, IH, Hg. done. Qed.

Lemma end_of_level_spec level ws st done R :
  st_ok level st done R →
  ∃ ws' G, end_of_level group_size min_level_size f level ws st = Ok (ws', call_of <$> G) ∧
    concat G = concat done ++ R ∧ Forall group_fits G ∧
    ((ws' = ws ++ [at_level f level <$> concat done ++ R] ∧ (min_level_size <= N.of_nat (length (concat done ++ R)))%N) ∨
     (ws' = ws ∧ (N.of_nat (length G) < min_level_size)%N)).
Proof.
  intros (Hb & Hl & Hg & Hw & Hh & HR & Hdone). pose proof (length_concat_full done Hdone) as Hn.
  assert (Forall group_fits done) as Hfit.
  { eapply Forall_impl; [exact Hdone|]. intros g Hgl. cbn beta in Hgl. split; [|lia]. intros ->. cbn in Hgl. lia. }
  assert (length done ≤ length (concat done)) as Hle by (rewrite Hn; nia).
  assert (R ≠ [] → Forall group_fits (done ++ [R])) as HfitR.
  { intros HRn. apply Forall_app. split; [done|]. constructor; [|constructor]. split; [done|lia]. }
  unfold end_of_level. cbv beta zeta. rewrite Hw, length_fmap.
  replace (wrap64 (min_level_size + (u64_size - 1))) with (min_level_size - 1)%N.
  2: { unfold wrap64, u64_size. replace (min_level_size + (18446744073709551616 - 1))%N
         with ((min_level_size - 1) + 1 * 18446744073709551616)%N by lia.
       rewrite N.Div0.mod_add, N.mod_small by lia. done. }
  destruct R as [|e R].
  - rewrite Hb. cbn [fmap list_fmap mbind outcome_bind]. rewrite Hw, length_fmap, app_nil_r, Hb, Hh.
    destruct (N.leb_spec min_level_size (N.of_nat (length (concat done)))) as [Hge|Hlt].
    + eexists _, done. split; [done|split; [done|split; [done|]]]. left. by split.
    + exists ws, done. split; [done|split; [done|split; [done|]]]. right. split; [done|lia].
  - destruct (bitmaps st) as [|bm bms] eqn:Hbm; [done|].
    destruct (N.leb_spec (min_level_size - 1) (N.of_nat (length (concat done)))) as [Hge|Hlt].
    + rewrite Hb, length_fmap. cbn [mbind outcome_bind]. unfold assert.
      rewrite (proj2 (N.ltb_lt _ _)) by lia. rewrite (proj2 (N.ltb_lt _ _)) by lia.
      rewrite (flush_spec level st done (e :: R)) by (done || by rewrite Hbm). cbn [cur_writer handled bitmaps mbind outcome_bind].
      rewrite length_fmap, concat_app. cbn [concat]. rewrite app_nil_r.
      rewrite (proj2 (N.leb_le _ _)) by (rewrite length_app; cbn; lia).
      eexists _, (done ++ [e :: R]). split; [done|]. split; [by rewrite concat_app; cbn; rewrite app_nil_r|].
      split; [by apply HfitR|]. left. split; [done|]. rewrite length_app. cbn. lia.
    + cbn [mbind outcome_bind]. rewrite Hw, length_fmap, (proj2 (N.leb_gt _ _)), Hbm by lia.
      unfold handle_group. rewrite Hl, Hbm, Hb, Hh. cbn [fmap list_fmap].
      eexists ws, (done ++ [e :: R]). split; [by rewrite fmap_app|].
      split; [by rewrite concat_app; cbn; rewrite app_nil_r|]. split; [by apply HfitR|].
      right. split; [done|]. rewrite length_app. cbn. lia.
Qed.
End groups.

(** ** The levels of a field *)
Section update.
Context (group_size min_level_size : N) (Hgs : (0 < group_size < 255)%N) (Hmin : (2 <= min_level_size < 256)%N).

(** The writers of the levels above [L], the last one holding [E]. *)
Inductive stack (f : FieldId) (L : Level) : list FacetDb → Level → Prop :=
| stack_nil : stack f L [] L
| stack_snoc ws E E' :
    stack f L ws E → groups ∅ E' E → E' ≠ [] → (∀ k u, (k, u) ∈ E' → (gv_size u < 255)%N) →
    stack f L (ws ++ [at_level f (S (length ws)) <$> E']) E'.

Lemma compute_higher_levels_spec db f l :
  ∃ ws G, compute_higher_levels group_size min_level_size db f l = Ok (ws, call_of <$> G) ∧
    Forall (group_fits group_size) G ∧ docids_of (concat G) = docids_of (level db f 0) ∧ length ws ≤ l ∧
    ((length ws = l ∧ stack f (level db f 0) ws (concat G)) ∨
     ((N.of_nat (length G) < min_level_size)%N ∧ ∃ E, stack f (level db f 0) ws E)).
Proof.
  induction l as [|l IH].
  - cbn [compute_higher_levels]. unfold read_level_0. rewrite prefix_level_map.
    destruct (read_level_0_spec group_size min_level_size Hgs Hmin f (level db f 0) [] [] true) as (G & Hrun & Hcat & Hfit);
      [cbn; lia|done|done|]. cbn in Hrun. rewrite Hrun. exists [], G. rewrite Hcat. split_and!; [done..|].
    left. split; [done|constructor].
  - destruct IH as (ws & G & Hrun & Hfit & Hdoc & Hlen & Hst). cbn [compute_higher_levels]. rewrite Hrun.
    cbn [mbind outcome_bind].
    destruct (on_groups_spec group_size min_level_size Hgs Hmin f (S l) G (mkState [] [] [] [] []) [] []) as (st & dn & R & Hrun1 & Hok & Hcat);
      [by eapply st_ok_init|done|]. rewrite Hrun1. cbn [mbind outcome_bind].
    destruct (end_of_level_spec group_size min_level_size Hgs Hmin f (S l) ws st dn R Hok) as (ws' & G' & Hrun2 & Hcat' & Hfit' & Hws).
    cbn [app concat] in Hcat. rewrite Hcat in *. exists ws', G'.
    rewrite Hcat', docids_of_combined. split; [exact Hrun2|split; [done|split; [done|]]].
    destruct Hws as [[-> Hge]|[-> Hlt]].
    + destruct Hst as [[Hl Hst]|[Hlt _]]; [|rewrite length_fmap in Hge; lia].
      split; [rewrite length_app; cbn; lia|]. left. split; [rewrite length_app; cbn; lia|]. rewrite <- Hl.
      apply stack_snoc with (concat G); [done|by eapply groups_combined| |].
      * intros Hnil. rewrite Hnil in Hge. cbn in Hge. lia.
      * intros k u Hin. apply list_elem_of_fmap in Hin as (g & [= -> ->] & Hg). rewrite Forall_forall in Hfit.
        apply Hfit in Hg as [_ Hg]. cbn. lia.
    + split; [lia|]. right. split; [done|]. destruct Hst as [[_ Hst]|[_ Hst]]; [by eexists|done].
Qed.

Lemma put_entries_spec f l db P U :
  db_sorted db → level db f l = P → level_sorted (P ++ U) →
  set_level f l db (put_entries (at_level f l <$> U) db) (P ++ U).
Proof.
  intros Hs HP Hsort. destruct (put_all_spec f l db P U Hs HP Hsort) as (db' & Hrun & Hset).
  replace (put_entries (at_level f l <$> U) db) with db'; [done|]. clear -Hrun. revert db Hrun.
  induction U as [|e U IH]; intros db Hrun; [by injection Hrun|]. rewrite fmap_cons in *. cbn in *. by apply IH.
Qed.

(** Writing the levels above the level 0 of a field that has no other. *)
Lemma put_stack f db ws E :
  db_sorted db → stack f (level db f 0) ws E → (∀ l, 0 < l → level db f l = []) →
  let db' := fold_left (λ db entries, put_entries entries db) ws db in
  db_sorted db' ∧ levels_ok ∅ db' f (length ws) ∧ sizes_below db' f (length ws) ∧ level db' f (length ws) = E ∧
  (∀ f' l, f' ≠ f ∨ l = 0 → level db' f' l = level db f' l).
Proof.
  intros Hs Hst Hempty. induction Hst as [|ws E E' Hst IH Hg Hne Hsz]; cbn zeta.
  { cbn. split_and!; [done|split; [by left|split; [lia|done]]|intros k; lia|done|done]. }
  cbn zeta in IH. rewrite fold_left_app. cbn [fold_left].
  set (db1 := fold_left (λ db entries, put_entries entries db) ws db) in *.
  destruct IH as (Hs1 & (Htop & Hgr & Hab) & Hz & HE & Hoth). rewrite length_app, Nat.add_1_r.
  destruct (put_entries_spec f (S (length ws)) db1 [] E') as (Hs2 & Hsame & Hl2); [done|apply Hab; lia| |].
  { eapply groups_sorted; [|exact Hg]. rewrite <- HE. by apply (level_is_sorted db1 f (length ws)). }
  cbn [app] in Hl2. split_and!.
  - done.
  - split; [right; by rewrite Hl2|split].
    + intros l Hl. destruct (decide (l = length ws)) as [->|]; [|rewrite !Hsame by lia; apply Hgr; lia].
      by rewrite Hl2, Hsame, HE by lia.
    + intros l Hl. rewrite Hsame by lia. apply Hab. lia.
  - intros k b v Hk Hin. destruct (decide (k = length ws)) as [->|].
    + rewrite Hl2 in Hin. by eapply Hsz.
    + rewrite Hsame in Hin by lia. eapply Hz, Hin. lia.
  - done.
  - intros f' l Hl. rewrite Hsame by (intros [? ?]; subst; destruct Hl; done). by apply Hoth.
Qed.

(** *** Clearing the levels *)
Lemma clear_levels_spec f db :
  db_sorted db → (∀ l, 254 < l → level db f l = []) →
  db_sorted (clear_levels f db) ∧ (∀ l, 0 < l → level (clear_levels f db) f l = []) ∧
  (∀ f' l, f' ≠ f ∨ l = 0 → level (clear_levels f db) f' l = level db f' l).
Proof.
  intros Hs Hab. assert (db_sorted (clear_levels f db)) as Hs' by by apply sorted_filter.
  assert (∀ f' l b v, (b, v) ∈ level (clear_levels f db) f' l ↔
    (b, v) ∈ level db f' l ∧ ¬ (¬ key_lt (mkKey f' l b) (mkKey f 1 []) ∧ ¬ key_lt (mkKey f u8_max []) (mkKey f' l b))) as Hel.
  { intros f' l b v. rewrite !level_elem. unfold clear_levels. rewrite list_elem_of_filter. naive_solver. }
  split_and!; [done| |].
  - intros l Hl. destruct (level (clear_levels f db) f l) as [|[b v] L] eqn:HL; [done|]. exfalso.
    assert ((b, v) ∈ level (clear_levels f db) f l) as Hin by (rewrite HL; left).
    apply Hel in Hin as [Hin Hn]. destruct (decide (254 < l)) as [Hlt|Hge].
    + rewrite Hab in Hin by done. by apply not_elem_of_nil in Hin.
    + apply Hn. unfold key_lt, level_lt, same_level, u8_max. cbn. split; [|lia].
      intros [?|[_ Hb]]; [lia|]. by destruct b.
  - intros f' l Hfl. apply level_eq; [by apply level_is_sorted|by apply level_is_sorted|].
    intros [b v]. rewrite Hel. split; [by intros [? _]|]. intros Hin. split; [done|].
    intros [H1 H2]. unfold key_lt, level_lt, same_level, u8_max in *. cbn in *. lia.
Qed.

Lemma clear_all_spec fs db :
  db_sorted db → (∀ f l, f ∈ fs → 254 < l → level db f l = []) →
  let db' := fold_left (λ db f, clear_levels f db) fs db in
  db_sorted db' ∧ (∀ f l, f ∈ fs → 0 < l → level db' f l = []) ∧
  (∀ f l, f ∉ fs ∨ l = 0 → level db' f l = level db f l).
Proof.
  cbn zeta. revert db. induction fs as [|f fs IH]; intros db Hs Hab; cbn [fold_left].
  { split_and!; [done|by intros ? ? ?%not_elem_of_nil|done]. }
  destruct (clear_levels_spec f db Hs) as (Hs1 & Hcl & Hoth); [intros l; apply Hab; left|].
  assert (∀ f' l, 254 < l → f' ∈ f :: fs → level (clear_levels f db) f' l = []) as Hab1.
  { intros f' l Hl Hin. destruct (decide (f' = f)) as [->|]; [apply Hcl; lia|].
    rewrite Hoth by (by left). by apply Hab. }
  destruct (IH (clear_levels f db) Hs1) as (Hs2 & Hcl2 & Hoth2); [intros f' l Hin Hl; apply Hab1; [done|by right]|].
  split_and!; [done| |].
  - intros f' l Hin Hl. destruct (decide (f' ∈ fs)) as [Hfs|Hfs]; [by apply Hcl2|].
    apply elem_of_cons in Hin as [->|]; [|done]. rewrite Hoth2 by (by left). by apply Hcl.
  - intros f' l Hfl. rewrite Hoth2; [apply Hoth|]; destruct Hfl as [Hfl|]; [..|by right]; try by right.
    + left. intros ->. apply Hfl. left.
    + left. intros Hin. apply Hfl. by right.
Qed.

(** *** The loop on the fields *)
Lemma compute_levels_spec db f :
  ∃ ws E, compute_levels_for_field_id group_size min_level_size db f = Ok (ws, docids_of (level db f 0)) ∧
    stack f (level db f 0) ws E ∧ length ws ≤ 32.
Proof.
  destruct (compute_higher_levels_spec db f 32) as (ws & G & Hrun & _ & Hdoc & Hlen & Hst).
  assert (∃ E, stack f (level db f 0) ws E) as [E HE].
  { destruct Hst as [[_ Hst]|[_ Hst]]; [by eexists|done]. }
  exists ws, E. unfold compute_levels_for_field_id. rewrite Hrun. cbn [mbind outcome_bind].
  by rewrite calls_docids, Hdoc.
Qed.

Lemma fold_left_handle {W} (handle : FieldId → gset DocumentId → W → W) db db' fs w :
  (∀ f, level db f 0 = level db' f 0) →
  fold_left (λ w f, handle f (docids_of (level db f 0)) w) fs w =
    fold_left (λ w f, handle f (docids_of (level db' f 0)) w) fs w.
Proof. intros Hl. revert w. induction fs as [|f fs IH]; intros w; [done|]. cbn. by rewrite Hl, IH. Qed.

Lemma update_fields_spec {W} (handle : FieldId → gset DocumentId → W → W) fs db w :
  db_sorted db → NoDup fs → (∀ f l, f ∈ fs → 0 < l → level db f l = []) →
  ∃ db', update_fields group_size min_level_size handle fs db w =
      Ok (db', fold_left (λ w f, handle f (docids_of (level db f 0)) w) fs w) ∧
    db_sorted db' ∧ (∀ f, f ∈ fs → facet_ok ∅ db' f) ∧
    (∀ f l, f ∉ fs ∨ l = 0 → level db' f l = level db f l).
Proof.
  revert db w. induction fs as [|f fs IH]; intros db w Hs Hnd Hemp.
  { exists db. split_and!; [done|done|by intros ? ?%not_elem_of_nil|done]. }
  apply NoDup_cons in Hnd as [Hnin Hnd]. cbn [update_fields fold_left].
  destruct (compute_levels_spec db f) as (ws & E & Hrun & Hst & Hlen). rewrite Hrun. cbn [mbind outcome_bind].
  destruct (put_stack f db ws E Hs Hst) as (Hs1 & Hok1 & Hz1 & _ & Hoth1); [intros l; apply Hemp; left|].
  set (db1 := fold_left (λ db entries, put_entries entries db) ws db) in *.
  destruct (IH db1 (handle f (docids_of (level db f 0)) w) Hs1 Hnd) as (db2 & Hrun2 & Hs2 & Hok2 & Hoth2).
  { intros f' l Hin Hl. rewrite Hoth1 by (left; intros ->; done). apply Hemp; [by right|done]. }
  exists db2. split; [|split_and!; [done| |]].
  - rewrite Hrun2, (fold_left_handle handle db1 db fs); [done|]. intros f'. apply Hoth1. by right.
  - intros f' [->|Hin]%elem_of_cons; [|by apply Hok2]. apply (facet_ok_same ∅ db1); [done| |].
    + intros l. apply Hoth2. by left.
    + split; [done|]. exists (length ws). split_and!; [lia|done..].
  - intros f' l Hfl. rewrite Hoth2, Hoth1; [done| |]; destruct Hfl as [Hfl|]; [..|by right]; try by right.
    + left. intros ->. apply Hfl. left.
    + left. intros Hin. apply Hfl. by right.
Qed.

(** *** The level 0 *)

(** The new documents of a value. *)
Fixpoint new_docids (new_data : list (FacetGroupKey * gset DocumentId)) (f : FieldId) (x : bytes) : gset DocumentId :=
  match new_data with
  | [] => ∅
  | (k, d) :: new_data =>
      if decide (k = mkKey f 0 x ∧ valid_lmdb_key k = true) then d ∪ new_docids new_data f x
      else new_docids new_data f x
  end.

Lemma db_put_last k v db : (∀ e, e ∈ db → key_lt e.1 k) → db_put k v db = db ++ [(k, v)].
Proof.
  induction db as [|[k' v'] db IH]; intros Hlt; [done|]. cbn [db_put app].
  assert (key_lt k' k) as Hk by (apply (Hlt (k', v')); left).
  rewrite decide_False by (intros H; by apply (key_lt_irrefl k), (key_lt_trans k k' k)).
  rewrite decide_False by (intros ->; by apply key_lt_irrefl in Hk). f_equal. apply IH. intros e He. apply Hlt. by right.
Qed.

Lemma db_get_last k db : (∀ e, e ∈ db → key_lt e.1 k) → db_get k db = None.
Proof.
  induction db as [|[k' v'] db IH]; intros Hlt; [done|]. cbn [db_get].
  assert (key_lt k' k) as Hk by (apply (Hlt (k', v')); left).
  rewrite decide_False by (intros ->; by apply key_lt_irrefl in Hk). apply IH. intros e He. apply Hlt. by right.
Qed.

Lemma append_is_merge nd db :
  StronglySorted key_lt nd.*1 → (∀ e k, e ∈ db → k ∈ nd.*1 → key_lt e.1 k) →
  update_level0_append nd db = update_level0_merge nd db.
Proof.
  revert db. induction nd as [|[k d] nd IH]; intros db Hs Hlt; [done|]. rewrite fmap_cons in *. cbn [fst] in *.
  apply StronglySorted_inv in Hs as [Hs Hk]. rewrite Forall_forall in Hk.
  cbn [update_level0_append update_level0_merge].
  destruct (valid_lmdb_key k); cbn [negb]; [|apply IH; [done|]; intros e k' He Hk'; apply Hlt; [done|by right]].
  assert (∀ e, e ∈ db → key_lt e.1 k) as Hdb by (intros e He; apply Hlt; [done|left]).
  rewrite db_get_last, db_put_last by done. apply IH; [done|].
  intros e k' [He| ->%list_elem_of_singleton]%elem_of_app Hk'; [apply Hlt; [done|by right]|by apply Hk].
Qed.

Definition untouched (new_data : list (FacetGroupKey * gset DocumentId)) (f : FieldId) : Prop :=
  ∀ k d, (k, d) ∈ new_data → field_id k ≠ f.

Lemma update_level0_merge_spec nd db :
  db_sorted db → (∀ k d, (k, d) ∈ nd → gk_level k = 0) →
  db_sorted (update_level0_merge nd db) ∧
  (∀ f l, 0 < l ∨ untouched nd f → level (update_level0_merge nd db) f l = level db f l) ∧
  (∀ f x, value_docids (update_level0_merge nd db) f x = value_docids db f x ∪ new_docids nd f x).
Proof.
  revert db. induction nd as [|[k d] nd IH]; intros db Hs H0; cbn [update_level0_merge new_docids].
  { split_and!; [done|done|]. intros f x. by rewrite union_empty_r_L. }
  assert (∀ k d, (k, d) ∈ nd → gk_level k = 0) as H0' by (intros k' d' Hin; apply (H0 k' d'); by right).
  destruct (valid_lmdb_key k) eqn:Hv; cbn [negb]; cycle 1.
  { destruct (IH db Hs H0') as (Hs1 & Hl1 & Hv1). split_and!; [done| |].
    { intros f l Hfl. apply Hl1. destruct Hfl as [?|Hun]; [by left|right]. intros k' d' Hin. apply (Hun k' d'). by right. }
    intros f x. rewrite decide_False by (by intros [_ ?]). apply Hv1. }
  set (v := mkValue 1 match db_get k db with Some p => d ∪ gv_bitmap p | None => d end).
  destruct (IH (db_put k v db) (db_put_sorted k v db Hs) H0') as (Hs1 & Hl1 & Hv1).
  specialize (H0 k d ltac:(left)). split_and!; [done| |].
  - intros f l Hfl. rewrite Hl1; cycle 1.
    { destruct Hfl as [?|Hun]; [by left|right]. intros k' d' Hin. apply (Hun k' d'). by right. }
    apply db_put_other; [done|]. intros [Hk1 Hk]. destruct Hfl as [Hfl|Hun]; [lia|]. by apply (Hun k d); [left|].
  - intros f x. rewrite Hv1. unfold value_docids. rewrite db_get_put by done.
    destruct (decide (mkKey f 0 x = k)) as [<-|Hne].
    + rewrite decide_True by done. subst v. destruct (db_get _ db); cbn; set_solver.
    + rewrite decide_False by (intros [-> _]; done). done.
Qed.

Lemma update_level0_spec nd db :
  db_sorted db → StronglySorted key_lt (from_option id [] nd).*1 → (∀ k d, (k, d) ∈ from_option id [] nd → gk_level k = 0) →
  db_sorted (update_level0 nd db) ∧
  (∀ f l, 0 < l ∨ untouched (from_option id [] nd) f → level (update_level0 nd db) f l = level db f l) ∧
  (∀ f x, value_docids (update_level0 nd db) f x = value_docids db f x ∪ new_docids (from_option id [] nd) f x).
Proof.
  intros Hs Hnd H0. destruct nd as [nd|]; cbn [from_option id] in *.
  - unfold update_level0. destruct db as [|e db]; [|by apply update_level0_merge_spec].
    rewrite append_is_merge; [by apply update_level0_merge_spec|done|by intros ? ? ?%not_elem_of_nil].
  - split_and!; [done|done|]. intros f x. cbn. by rewrite union_empty_r_L.
Qed.

Lemma update_correct {W} (handle : FieldId → gset DocumentId → W → W) nd fs db w :
  db_sorted db → NoDup fs → (∀ f l, f ∈ fs → 254 < l → level db f l = []) →
  StronglySorted key_lt (from_option id [] nd).*1 → (∀ k d, (k, d) ∈ from_option id [] nd → gk_level k = 0) →
  ∃ db', update group_size min_level_size handle nd fs db w =
      Ok (db', fold_left (λ w f, handle f (docids_of (level db' f 0)) w) fs w) ∧
    db_sorted db' ∧ (∀ f, f ∈ fs → facet_ok ∅ db' f) ∧
    (∀ f x, value_docids db' f x = value_docids db f x ∪ new_docids (from_option id [] nd) f x) ∧
    (∀ f l, ((f ∉ fs) ∧ 0 < l) ∨ (l = 0 ∧ untouched (from_option id [] nd) f) → level db' f l = level db f l).
Proof.
  intros Hs Hnd Hab Hsn H0. unfold update. destruct (update_level0_spec nd db Hs Hsn H0) as (Hs1 & Hl1 & Hv1).
  set (db1 := update_level0 nd db) in *.
  destruct (clear_all_spec fs db1 Hs1) as (Hs2 & Hcl2 & Hoth2); [intros f l Hin Hl; rewrite Hl1 by (left; lia); by apply Hab|].
  set (db2 := fold_left (λ db f, clear_levels f db) fs db1) in *.
  destruct (update_fields_spec handle fs db2 w Hs2 Hnd Hcl2) as (db3 & Hrun & Hs3 & Hok3 & Hoth3).
  exists db3. rewrite Hrun. split_and!; [|done|done| |].
  - rewrite (fold_left_handle handle db2 db3 fs w); [done|]. intros f. symmetry. apply Hoth3. by right.
  - intros f x. rewrite <- Hv1, (value_docids_level db2 db3), (value_docids_level db1 db2); try done.
    + apply Hoth2. by right.
    + apply Hoth3. by right.
  - intros f l [[Hin Hl]|[-> Hun]].
    + rewrite Hoth3, Hoth2, Hl1 by (by left). done.
    + rewrite Hoth3, Hoth2, Hl1 by (by right). done.
Qed.

(** C22: A bulk update adds the new documents to their values, builds the levels
    of its fields again from the level 0 and hands over the documents of each of
    these fields; other fields keep their levels.  No assertion fails. *)
Theorem update_spec {W} (handle : FieldId → gset DocumentId → W → W) nd fs db w :
  db_sorted db → NoDup fs → (∀ f l, f ∈ fs → 254 < l → level db f l = []) →
  StronglySorted key_lt (from_option id [] nd).*1 → (∀ k d, (k, d) ∈ from_option id [] nd → gk_level k = 0) →
  ∃ db', update group_size min_level_size handle nd fs db w =
      Ok (db', fold_left (λ w f, handle f (docids_of (level db' f 0)) w) fs w) ∧
    db_sorted db' ∧ (∀ f, f ∈ fs → facet_ok ∅ db' f) ∧
    (∀ f x, value_docids db' f x = value_docids db f x ∪ new_docids (from_option id [] nd) f x) ∧
    (∀ f l, ((f ∉ fs) ∧ 0 < l) ∨ (l = 0 ∧ untouched (from_option id [] nd) f) → level db' f l = level db f l).
Proof. apply update_correct. Qed.
End update.
