(* ===== verification/FacetUpdate.v ===== *)
(** * Updating the facets of an index
      (milli/src/update/facet/{mod,incremental,bulk}.rs)

    New values go through a bulk or an incremental update, depending on their
    number.  The state of a type of facets, strings or numbers, is its facet
    database, the faceted documents of each field and the database of the values of
    each document; [store_ok] is its invariant. *)
From S2P Require Import Prelude Json FacetDb FacetTree FacetSearch FacetIncremental FacetInsert FacetBulk.
From S2P Require FieldsIdsMap DocumentsIds.
Import FieldsIdsMap (FieldId).
Import DocumentsIds (DocumentId).

Definition FACET_MAX_GROUP_SIZE : N := 8.
Definition FACET_GROUP_SIZE : N := 4.
Definition FACET_MIN_LEVEL_SIZE : N := 5.

Inductive FacetType := Strings | Numbers.

(** The databases of a type of facets; [field_id_docid_facets] has the entries of
    [field_id_docid_facet_strings], whose values are the original strings, or those of
    [field_id_docid_facet_f64s], whose values are empty. *)
Record FacetStore := mkStore {
  facet_id_docids : FacetDb;
  faceted_documents_ids : gmap FieldId (gset DocumentId);
  field_id_docid_facets : list (FieldId * DocumentId * bytes * bytes)
}.

Record Facets := mkFacets {
  facet_strings : FacetStore;
  facet_numbers : FacetStore;
  facet_id_string_fst : gmap FieldId (list bytes)
}.

Definition facets_of (t : FacetType) (fc : Facets) : FacetStore :=
  match t with Strings => facet_strings fc | Numbers => facet_numbers fc end.

Definition with_facets (t : FacetType) (st : FacetStore) (fc : Facets) : Facets :=
  match t with
  | Strings => mkFacets st (facet_numbers fc) (facet_id_string_fst fc)
  | Numbers => mkFacets (facet_strings fc) st (facet_id_string_fst fc)
  end.

(** [Index::faceted_documents_ids] and [Index::put_faceted_documents_ids]. *)
Definition get_faceted (st : FacetStore) (field_id : FieldId) : gset DocumentId :=
  default ∅ (faceted_documents_ids st !! field_id).
Definition put_faceted (field_id : FieldId) (docids : gset DocumentId) (st : FacetStore) : FacetStore :=
  mkStore (facet_id_docids st) (<[field_id := docids]> (faceted_documents_ids st)) (field_id_docid_facets st).
Definition with_db (db : FacetDb) (st : FacetStore) : FacetStore :=
  mkStore db (faceted_documents_ids st) (field_id_docid_facets st).

Abbreviation NewData := (list (FacetGroupKey * gset DocumentId)).

(** ** [FacetsUpdateIncremental::execute] *)
Fixpoint insert_all (group_size min_level_size max_group_size : N) (new_data : NewData)
    (new_faceted_docids : gmap FieldId (gset DocumentId)) : M (gmap FieldId (gset DocumentId)) :=
  match new_data with
  | [] => mret new_faceted_docids
  | (key, docids) :: new_data =>
      if negb (valid_lmdb_key key) then insert_all group_size min_level_size max_group_size new_data new_faceted_docids
      else
        insert group_size min_level_size max_group_size (field_id key) (left_bound key) docids ≫= λ _,
        insert_all group_size min_level_size max_group_size new_data
          (<[field_id key := default ∅ (new_faceted_docids !! field_id key) ∪ docids]> new_faceted_docids)
  end.

Definition incremental_execute (group_size min_level_size max_group_size : N) (new_data : NewData) (st : FacetStore) :
    outcome FacetError FacetStore :=
  match insert_all group_size min_level_size max_group_size new_data ∅ (facet_id_docids st) with
  | (Ok new_faceted_docids, db) =>
      Ok (map_fold (λ field_id new_docids st, put_faceted field_id (get_faceted st field_id ∪ new_docids) st)
            (with_db db st) new_faceted_docids)
  | (Err e, _) => Err e
  | (Panic msg, _) => Panic msg
  end.

(** ** [FacetsUpdateBulk::execute] *)
Definition bulk_execute (group_size min_level_size : N) (new_data : option NewData) (field_ids : list FieldId)
    (st : FacetStore) : outcome FacetError FacetStore :=
  '(db, st') ← update group_size min_level_size (λ field_id all_docids st, put_faceted field_id all_docids st)
                 new_data field_ids (facet_id_docids st) st;
  Ok (with_db db st').

(** ** [FacetsUpdate::execute] *)

(** [fst::SetBuilder::insert]: the values come in order. *)
Definition fst_insert (fst_builder : list bytes) (b : bytes) : outcome FacetError (list bytes) :=
  match last fst_builder with
  | Some b' => if bool_decide (blt b b') then Err OutOfOrder else if bool_decide (b = b') then Ok fst_builder else Ok (fst_builder ++ [b])
  | None => Ok [b]
  end.

(** The loop that builds one FST by field. *)
Fixpoint text_fsts (iter : FacetDb) (current_fst : option (FieldId * list bytes)) (fsts : list (FieldId * list bytes)) :
    outcome FacetError (list (FieldId * list bytes)) :=
  match iter with
  | [] => Ok (match current_fst with Some fst => fsts ++ [fst] | None => fsts end)
  | (mkKey field_id level left_bound, _) :: iter =>
      if negb (level =? 0) then text_fsts iter current_fst fsts
      else
        let '(current, fsts) :=
          match current_fst with
          | Some (fid, fst_builder) =>
              if negb (fid =? field_id)%N then ((field_id, []), fsts ++ [(fid, fst_builder)])
              else ((fid, fst_builder), fsts)
          | None => ((field_id, []), fsts)
          end in
        fst_builder ← fst_insert current.2 left_bound;
        text_fsts iter (Some (current.1, fst_builder)) fsts
  end.

Definition facets_update_execute (t : FacetType) (new_data : NewData) (faceted_fields_ids : list FieldId) (fc : Facets) :
    outcome FacetError Facets :=
  match new_data with
  | [] => Ok fc
  | _ =>
      let st := facets_of t fc in
      st ← (if (N.of_nat (length (facet_id_docids st)) / 50 <=? N.of_nat (length new_data))%N
            then bulk_execute FACET_GROUP_SIZE FACET_MIN_LEVEL_SIZE (Some new_data) faceted_fields_ids st
            else incremental_execute FACET_GROUP_SIZE FACET_MIN_LEVEL_SIZE FACET_MAX_GROUP_SIZE new_data st);
      let fc := with_facets t st fc in
      fsts ← text_fsts (facet_id_docids (facet_strings fc)) None [];
      Ok (mkFacets (facet_strings fc) (facet_numbers fc) (list_to_map fsts))
  end.

(** ** Documents and values *)
Lemma elem_of_value_docids db f x d :
  db_sorted db → d ∈ value_docids db f x ↔ ∃ v, (x, v) ∈ level db f 0 ∧ d ∈ gv_bitmap v.
Proof.
  intros Hs. unfold value_docids. split.
  - destruct (db_get (mkKey f 0 x) db) as [v|] eqn:Hv; [|by intros ?%elem_of_empty].
    intros Hd. exists v. by rewrite <- db_get_level.
  - intros (v & Hin & Hd). apply db_get_level in Hin; [|done]. by rewrite Hin.
Qed.

Lemma elem_of_level_docids db f d :
  db_sorted db → d ∈ docids_of (level db f 0) ↔ ∃ x, d ∈ value_docids db f x.
Proof.
  intros Hs. rewrite elem_of_docids_of. split.
  - intros ([x v] & Hin & Hd). exists x. apply elem_of_value_docids; [done|]. by exists v.
  - intros (x & Hd). apply elem_of_value_docids in Hd as (v & Hin & Hd); [|done]. by exists (x, v).
Qed.

(** The new documents of a field. *)
Fixpoint new_field_docids (new_data : NewData) (f : FieldId) : gset DocumentId :=
  match new_data with
  | [] => ∅
  | (k, d) :: new_data =>
      if decide (field_id k = f ∧ valid_lmdb_key k = true) then d ∪ new_field_docids new_data f
      else new_field_docids new_data f
  end.

(** New data for the values of the fields [fs]. *)
Definition new_data_ok (fs : list FieldId) (new_data : NewData) : Prop :=
  ∀ k d, (k, d) ∈ new_data → gk_level k = 0 ∧ field_id k ∈ fs.

Lemma elem_of_new_field_docids fs nd f d :
  new_data_ok fs nd → d ∈ new_field_docids nd f ↔ ∃ x, d ∈ new_docids nd f x.
Proof.
  induction nd as [|[k dk] nd IH]; intros Hok; cbn [new_field_docids new_docids].
  { split; [by intros ?%elem_of_empty|by intros (x & ?%elem_of_empty)]. }
  assert (new_data_ok fs nd) as Hok' by (intros k' d' Hin; apply (Hok k' d'); by right).
  specialize (IH Hok'). destruct (Hok k dk ltac:(left)) as [Hl _].
  destruct (decide (field_id k = f ∧ valid_lmdb_key k = true)) as [[Hf Hv]|Hn].
  - rewrite elem_of_union, IH. split.
    + intros [Hd|[x Hx]].
      * exists (left_bound k). rewrite decide_True; [set_solver|]. split; [|done].
        destruct k; cbn in *; by subst.
      * exists x. case_decide; set_solver.
    + intros (x & Hx). case_decide; [|by right; exists x]. apply elem_of_union in Hx as [?|?]; [by left|right; by exists x].
  - rewrite IH. split; intros (x & Hx); exists x.
    + by rewrite decide_False by (intros [-> ?]; by apply Hn).
    + by rewrite decide_False in Hx by (intros [-> ?]; by apply Hn).
Qed.

(** ** The fields of a store *)
Definition fields_ok (fs : list FieldId) (db : FacetDb) : Prop :=
  db_sorted db ∧ ∀ f, f ∈ fs → facet_ok ∅ db f.

(** The faceted documents are those that have a value, and every value of every
    document is known. *)
Definition store_ok (fs : list FieldId) (st : FacetStore) : Prop :=
  fields_ok fs (facet_id_docids st) ∧
  (∀ f, f ∈ fs → get_faceted st f = docids_of (level (facet_id_docids st) f 0)).

Lemma get_put_faceted st f f' X : get_faceted (put_faceted f X st) f' = if decide (f' = f) then X else get_faceted st f'.
Proof.
  unfold get_faceted, put_faceted. cbn. case_decide as Hf; [subst; by rewrite lookup_insert_eq|].
  by rewrite lookup_insert_ne.
Qed.

(** *** Bulk *)
Lemma fold_put_faceted (X : FieldId → gset DocumentId) fs st f :
  get_faceted (fold_left (λ st f, put_faceted f (X f) st) fs st) f = if decide (f ∈ fs) then X f else get_faceted st f.
Proof.
  revert st. induction fs as [|f' fs IH]; intros st; cbn [fold_left].
  { by rewrite decide_False by (apply not_elem_of_nil). }
  rewrite IH, get_put_faceted. destruct (decide (f ∈ fs)) as [Hin|Hin].
  - by rewrite decide_True by (by right).
  - destruct (decide (f = f')) as [->|Hne]; [by rewrite decide_True by left|].
    by rewrite decide_False by (by intros [?|?]%elem_of_cons).
Qed.

Lemma facet_docids_fold (X : FieldId → gset DocumentId) fs st :
  facet_id_docids (fold_left (λ st f, put_faceted f (X f) st) fs st) = facet_id_docids st ∧
  field_id_docid_facets (fold_left (λ st f, put_faceted f (X f) st) fs st) = field_id_docid_facets st.
Proof. revert st. induction fs as [|f fs IH]; intros st; [done|]. cbn [fold_left]. by destruct (IH (put_faceted f (X f) st)) as [-> ->]. Qed.

Lemma bulk_execute_spec gs ms nd fs st :
  (0 < gs < 255)%N → (2 <= ms < 256)%N →
  db_sorted (facet_id_docids st) → NoDup fs → (∀ f l, f ∈ fs → 254 < l → level (facet_id_docids st) f l = []) →
  StronglySorted key_lt (from_option id [] nd).*1 → (∀ k d, (k, d) ∈ from_option id [] nd → gk_level k = 0) →
  ∃ st', bulk_execute gs ms nd fs st = Ok st' ∧ db_sorted (facet_id_docids st') ∧
    (∀ f, f ∈ fs → facet_ok ∅ (facet_id_docids st') f) ∧
    (∀ f x, value_docids (facet_id_docids st') f x = value_docids (facet_id_docids st) f x ∪ new_docids (from_option id [] nd) f x) ∧
    (∀ f, get_faceted st' f = if decide (f ∈ fs) then docids_of (level (facet_id_docids st') f 0) else get_faceted st f) ∧
    (∀ f l, ((f ∉ fs) ∧ 0 < l) ∨ (l = 0 ∧ untouched (from_option id [] nd) f) →
      level (facet_id_docids st') f l = level (facet_id_docids st) f l) ∧
    field_id_docid_facets st' = field_id_docid_facets st.
Proof.
  intros Hgs Hms Hs Hnd Hab Hsn H0. unfold bulk_execute.
  destruct (update_correct gs ms Hgs Hms (λ f docids st, put_faceted f docids st) nd fs (facet_id_docids st) st Hs Hnd Hab Hsn H0)
    as (db' & Hrun & Hs' & Hok & Hv & Hoth). rewrite Hrun. cbn [mbind outcome_bind].
  eexists. split; [done|]. cbn [with_db facet_id_docids field_id_docid_facets].
  pose proof (facet_docids_fold (λ f, docids_of (level db' f 0)) fs st) as [Hdb Hfd].
  split_and!; [done|done|done| |done|done]. intros f. apply (fold_put_faceted (λ f, docids_of (level db' f 0))).
Qed.

(** *** Incremental *)
Lemma fields_ok_insert gs ms mx fs f x docids db :
  (0 < gs < 255)%N → (2 <= mx < 256)%N → fields_ok fs db → f ∈ fs → get_highest_level db f < 255 →
  ∃ db', insert gs ms mx f x docids db = (Ok tt, db') ∧ fields_ok fs db' ∧
    ∀ f' y, value_docids db' f' y = if decide (f' = f ∧ y = x) then value_docids db f x ∪ docids else value_docids db f' y.
Proof.
  intros Hgs Hmx [Hs Hok] Hf Hh.
  destruct (insert_correct gs ms mx f x docids db Hgs Hmx (Hok f Hf) Hh) as (db' & Hrun & Hok' & Hv & Hoth).
  exists db'. assert (db_sorted db') as Hs' by by destruct Hok'. split; [done|]. split.
  - split; [done|]. intros f' Hf'. destruct (decide (f' = f)) as [->|Hne]; [done|].
    apply (facet_ok_same ∅ db); [done| |by apply Hok]. intros l. by apply Hoth.
  - intros f' y. destruct (decide (f' = f)) as [->|Hne].
    + rewrite Hv. repeat case_decide; naive_solver.
    + rewrite decide_False by (by intros [? _]). apply value_docids_level; [done|done|by apply Hoth].
Qed.

(** No insertion finds a field whose levels are at their maximum. *)
Fixpoint heights_fit (gs ms mx : N) (new_data : NewData) (db : FacetDb) : Prop :=
  match new_data with
  | [] => True
  | (k, d) :: new_data =>
      if valid_lmdb_key k then
        get_highest_level db (field_id k) < 255 ∧
        heights_fit gs ms mx new_data (insert gs ms mx (field_id k) (left_bound k) d db).2
      else heights_fit gs ms mx new_data db
  end.

Lemma insert_all_spec gs ms mx fs nd m db :
  (0 < gs < 255)%N → (2 <= mx < 256)%N → fields_ok fs db → new_data_ok fs nd → heights_fit gs ms mx nd db →
  ∃ m' db', insert_all gs ms mx nd m db = (Ok m', db') ∧ fields_ok fs db' ∧
    (∀ f x, value_docids db' f x = value_docids db f x ∪ new_docids nd f x) ∧
    (∀ f, default ∅ (m' !! f) = default ∅ (m !! f) ∪ new_field_docids nd f).
Proof.
  intros Hgs Hmx. revert m db. induction nd as [|[k d] nd IH]; intros m db Hok Hnd Hh;
    cbn [insert_all heights_fit new_docids new_field_docids] in *.
  { exists m, db. split_and!; [done|done|..]; intros; by rewrite union_empty_r_L. }
  assert (new_data_ok fs nd) as Hnd' by (intros k' d' Hin; apply (Hnd k' d'); by right).
  destruct (Hnd k d ltac:(left)) as [Hl Hf].
  destruct (valid_lmdb_key k) eqn:Hv; cbn [negb]; cycle 1.
  { destruct (IH m db Hok Hnd' Hh) as (m' & db' & Hrun & Hok' & Hval & Hm). exists m', db'.
    split_and!; [done|done| |]; intros; rewrite decide_False by (by intros [_ ?]); auto. }
  destruct Hh as [Hh1 Hh].
  destruct (fields_ok_insert gs ms mx fs (field_id k) (left_bound k) d db Hgs Hmx Hok Hf Hh1) as (db1 & Hrun1 & Hok1 & Hv1).
  rewrite Hrun1 in Hh. cbn [snd] in Hh. rewrite (st_bind_ok _ _ _ _ _ Hrun1).
  destruct (IH (<[field_id k := default ∅ (m !! field_id k) ∪ d]> m) db1 Hok1 Hnd' Hh) as (m' & db' & Hrun & Hok' & Hval & Hm).
  exists m', db'. split_and!; [done|done| |].
  - intros f x. rewrite Hval, Hv1. destruct k as [fk lk bk]; cbn in *; subst lk.
    destruct (decide (f = fk ∧ x = bk)) as [[-> ->]|Hne].
    + rewrite decide_True by done. by rewrite union_assoc_L.
    + rewrite decide_False by (intros [[= -> ->] _]; by apply Hne). done.
  - intros f. rewrite Hm. destruct (decide (f = field_id k)) as [->|Hne].
    + rewrite lookup_insert_eq, decide_True by done. cbn. by rewrite union_assoc_L.
    + rewrite lookup_insert_ne, decide_False by (done || by intros [? _]). done.
Qed.

Lemma put_new_docids (m : gmap FieldId (gset DocumentId)) st :
  let st' := map_fold (λ f new st, put_faceted f (get_faceted st f ∪ new) st) st m in
  facet_id_docids st' = facet_id_docids st ∧ field_id_docid_facets st' = field_id_docid_facets st ∧
  ∀ f, get_faceted st' f = get_faceted st f ∪ default ∅ (m !! f).
Proof.
  cbn zeta. revert m. apply (map_fold_weak_ind (λ st' m,
    facet_id_docids st' = facet_id_docids st ∧ field_id_docid_facets st' = field_id_docid_facets st ∧
    ∀ f, get_faceted st' f = get_faceted st f ∪ default ∅ (m !! f))).
  - split_and!; [done|done|]. intros f. rewrite lookup_empty. cbn. by rewrite union_empty_r_L.
  - intros f new m st' Hf (Hdb & Hfd & Hget). split_and!; [done|done|]. intros f'. rewrite get_put_faceted.
    case_decide as Heq; [subst; rewrite Hget, lookup_insert_eq, Hf; cbn; by rewrite union_empty_r_L|].
    by rewrite Hget, lookup_insert_ne.
Qed.

Lemma incremental_execute_spec gs ms mx fs nd st :
  (0 < gs < 255)%N → (2 <= mx < 256)%N → fields_ok fs (facet_id_docids st) → new_data_ok fs nd →
  heights_fit gs ms mx nd (facet_id_docids st) →
  ∃ st', incremental_execute gs ms mx nd st = Ok st' ∧ fields_ok fs (facet_id_docids st') ∧
    (∀ f x, value_docids (facet_id_docids st') f x = value_docids (facet_id_docids st) f x ∪ new_docids nd f x) ∧
    (∀ f, get_faceted st' f = get_faceted st f ∪ new_field_docids nd f) ∧
    field_id_docid_facets st' = field_id_docid_facets st.
Proof.
  intros Hgs Hmx Hok Hnd Hh. unfold incremental_execute.
  destruct (insert_all_spec gs ms mx fs nd ∅ (facet_id_docids st) Hgs Hmx Hok Hnd Hh) as (m & db' & -> & Hok' & Hv & Hm).
  destruct (put_new_docids m (with_db db' st)) as (Hdb & Hfd & Hget). eexists. split; [done|].
  rewrite Hdb, Hfd. split_and!; [done|done| |done]. intros f. rewrite Hget, Hm, lookup_empty. cbn.
  by rewrite union_empty_l_L.
Qed.

(** *** The FSTs of the strings *)
Definition values_of (db : FacetDb) (f : FieldId) : list bytes := (level db f 0).*1.

Lemma level_snoc db k v f l :
  level (db ++ [(k, v)]) f l =
    level db f l ++ (if decide (field_id k = f ∧ gk_level k = l) then [(left_bound k, v)] else []).
Proof.
  unfold level, prefix_level. rewrite filter_app, fmap_app, filter_cons. cbn [fst].
  by destruct (decide (field_id k = f ∧ gk_level k = l)).
Qed.

(** What the loop has built after the entries [P]. *)
Definition fsts_ok (P : FacetDb) (current : option (FieldId * list bytes)) (fsts : list (FieldId * list bytes)) : Prop :=
  NoDup fsts.*1 ∧
  match current with
  | None => fsts = [] ∧ ∀ f, values_of P f = []
  | Some (fid, ks) =>
      ks = values_of P fid ∧ ks ≠ [] ∧ (fid ∉ fsts.*1) ∧ (∀ f, values_of P f ≠ [] → (f <= fid)%N) ∧
      ∀ f ks', (f, ks') ∈ fsts ↔ f ≠ fid ∧ values_of P f ≠ [] ∧ ks' = values_of P f
  end.

Lemma fst_insert_last ks b : (∀ k, k ∈ ks → blt k b) → fst_insert ks b = Ok (ks ++ [b]).
Proof.
  intros Hlt. unfold fst_insert. destruct (last ks) as [b'|] eqn:Hl; [|apply last_None in Hl; by subst].
  assert (blt b' b) as Hb by (apply Hlt; apply last_Some in Hl as [l ->]; set_solver).
  rewrite bool_decide_eq_false_2 by (intros ?; border).
  by rewrite bool_decide_eq_false_2 by (intros ->; by apply blt_irrefl in Hb).
Qed.

Lemma text_fsts_spec P iter current fsts :
  db_sorted (P ++ iter) → fsts_ok P current fsts →
  ∃ fsts', text_fsts iter current fsts = Ok fsts' ∧ NoDup fsts'.*1 ∧
    ∀ f ks, (f, ks) ∈ fsts' ↔ values_of (P ++ iter) f ≠ [] ∧ ks = values_of (P ++ iter) f.
Proof.
  revert P current fsts. induction iter as [|[[f l b] v] iter IH]; intros P current fsts Hs (Hnd & Hc).
  { rewrite app_nil_r. cbn. destruct current as [[fid ks]|].
    - destruct Hc as (-> & Hne & Hnin & _ & Hel). eexists. split; [done|]. split.
      + rewrite fmap_app. apply NoDup_app. split; [done|]. split; [|apply NoDup_singleton].
        by intros f Hf ->%list_elem_of_singleton.
      + intros f ks. rewrite elem_of_app, list_elem_of_singleton, Hel. split.
        * intros [(_ & ? & ->)|[= -> ->]]; done.
        * intros [Hf ->]. destruct (decide (f = fid)) as [->|]; [by right|by left].
    - destruct Hc as [-> Hnil]. exists []. split_and!; [done|constructor|]. intros f ks.
      rewrite Hnil. split; [by intros ?%not_elem_of_nil|by intros [? _]]. }
  assert (db_sorted ((P ++ [(mkKey f l b, v)]) ++ iter)) as Hs' by by rewrite <- app_assoc.
  replace (P ++ (mkKey f l b, v) :: iter) with ((P ++ [(mkKey f l b, v)]) ++ iter) by by rewrite <- app_assoc.
  cbn [text_fsts]. destruct (Nat.eqb_spec l 0) as [->|Hl]; cbn [negb]; cycle 1.
  { apply IH; [done|]. split; [done|].
    assert (∀ f', values_of (P ++ [(mkKey f l b, v)]) f' = values_of P f') as Hsame.
    { intros f'. unfold values_of. rewrite level_snoc, decide_False by (intros [_ ?]; done). by rewrite app_nil_r. }
    destruct current as [[fid ks]|]; [|by setoid_rewrite Hsame].
    rewrite Hsame. by setoid_rewrite Hsame. }
  pose proof Hs as Hs2. apply (sorted_app_inv key_lt) in Hs2 as (_ & _ & Hlt).
  assert (∀ f' k, k ∈ values_of P f' → (f' < f)%N ∨ f' = f ∧ blt k b) as Hbefore.
  { intros f' k Hk. unfold values_of in Hk. apply list_elem_of_fmap in Hk as ([k' w] & -> & Hin).
    apply level_elem in Hin. specialize (Hlt _ (mkKey f 0 b, v) Hin ltac:(left)).
    unfold key_lt, level_lt, same_level in Hlt. cbn in *. naive_solver lia. }
  assert (∀ f', values_of (P ++ [(mkKey f 0 b, v)]) f' = values_of P f' ++ (if decide (f = f') then [b] else [])) as Hsnoc.
  { intros f'. unfold values_of. rewrite level_snoc, fmap_app. cbn. repeat case_decide; naive_solver. }
  assert (fst_insert (values_of P f) b = Ok (values_of P f ++ [b])) as Hins.
  { apply fst_insert_last. intros k Hk. apply Hbefore in Hk as [?|[_ ?]]; [lia|done]. }
  assert (∀ f', values_of P f' ≠ [] → (f' <= f)%N) as Hle.
  { intros f' Hne. destruct (values_of P f') as [|k ks'] eqn:Hk; [done|].
    destruct (Hbefore f' k) as [?|[-> _]]; [rewrite Hk; left|lia|lia]. }
  destruct current as [[fid ks]|].
  - destruct Hc as (-> & Hne & Hnin & Hmax & Hel). destruct (N.eqb_spec fid f) as [->|Hneq]; cbn [negb fst snd].
    + rewrite Hins. cbn [mbind outcome_bind]. apply IH; [done|]. split; [done|].
      rewrite Hsnoc, decide_True by done. split_and!; [done|by destruct (values_of P f)|done| |].
      * intros f'. rewrite Hsnoc. case_decide; [subst; lia|]. rewrite app_nil_r. apply Hle.
      * intros f' ks'. rewrite Hel, Hsnoc. case_decide; [naive_solver|]. by rewrite app_nil_r.
    + assert (values_of P f = []) as Hnone.
      { destruct (values_of P f) as [|k ks] eqn:Hk; [done|]. exfalso.
        assert (f <= fid)%N by (apply Hmax; by rewrite Hk). pose proof (Hle fid Hne). lia. }
      rewrite Hnone in Hins. cbn [app] in Hins. rewrite Hins. cbn [mbind outcome_bind]. apply IH; [done|].
      assert (f ∉ fsts.*1) as Hfn.
      { intros Hin. apply list_elem_of_fmap in Hin as ([f' ks'] & -> & Hin). apply Hel in Hin as (_ & Hn & _). done. }
      split; [|rewrite Hsnoc, Hnone, decide_True by done; split_and!; [done|done| | |]].
      * rewrite fmap_app. apply NoDup_app. split; [done|]. split; [|apply NoDup_singleton].
        by intros f' Hf' ->%list_elem_of_singleton.
      * rewrite fmap_app. intros [Hin|Hin%list_elem_of_singleton]%elem_of_app; [done|by subst].
      * intros f'. rewrite Hsnoc. case_decide; [subst; lia|]. rewrite app_nil_r. apply Hle.
      * intros f' ks'. rewrite elem_of_app, list_elem_of_singleton, Hel, Hsnoc. split.
        -- intros [(? & Hn & ->)|[= -> ->]]; rewrite decide_False by naive_solver; rewrite app_nil_r; naive_solver.
        -- intros (Hff & Hn & ->). rewrite decide_False in * by naive_solver. rewrite app_nil_r in *.
           destruct (decide (f' = fid)) as [->|]; [by right|by left].
  - destruct Hc as [-> Hnil]. cbn [fst snd]. rewrite (Hnil f) in Hins. cbn [app] in Hins. rewrite Hins.
    cbn [mbind outcome_bind]. apply IH; [done|]. split; [done|].
    rewrite Hsnoc, Hnil, decide_True by done. split_and!; [done|done|by intros ?%not_elem_of_nil| |].
    + intros f'. rewrite Hsnoc, Hnil. case_decide; [subst; lia|done].
    + intros f' ks'. rewrite Hsnoc, Hnil. split; [by intros ?%not_elem_of_nil|].
      intros (Hff & Hn & _). by rewrite decide_False in Hn by done.
Qed.

Lemma text_fsts_map db :
  db_sorted db → ∃ fsts, text_fsts db None [] = Ok fsts ∧
    ∀ f, (list_to_map fsts : gmap FieldId (list bytes)) !! f =
      match values_of db f with [] => None | ks => Some ks end.
Proof.
  intros Hs. destruct (text_fsts_spec [] db None []) as (fsts & Hrun & Hnd & Hel); [done|by split; [constructor|]|].
  exists fsts. split; [done|]. intros f. cbn [app] in Hel. destruct (values_of db f) as [|k ks] eqn:Hk.
  - apply not_elem_of_list_to_map_1. intros Hin. apply list_elem_of_fmap in Hin as ([f' ks'] & -> & Hin).
    apply Hel in Hin as [Hn _]. done.
  - apply elem_of_list_to_map_1; [done|]. apply Hel. by rewrite Hk.
Qed.

(** ** [FacetsUpdate] *)
Definition heights_ok (fs : list FieldId) (nd : NewData) (db : FacetDb) : Prop :=
  (∀ f, f ∈ fs → get_highest_level db f < 255) ∧
  heights_fit FACET_GROUP_SIZE FACET_MIN_LEVEL_SIZE FACET_MAX_GROUP_SIZE nd db.

Lemma above_highest D db f h l : levels_ok D db f h → db_sorted db → get_highest_level db f < l → level db f l = [].
Proof. intros Hok Hs Hl. rewrite (levels_highest D db f h) in Hl by done. by apply Hok. Qed.

(** The new values of a type of facets, either way. *)
Lemma new_values_spec fs nd st :
  store_ok fs st → NoDup fs → new_data_ok fs nd → StronglySorted key_lt nd.*1 → heights_ok fs nd (facet_id_docids st) →
  ∃ st', (if (N.of_nat (length (facet_id_docids st)) / 50 <=? N.of_nat (length nd))%N
          then bulk_execute FACET_GROUP_SIZE FACET_MIN_LEVEL_SIZE (Some nd) fs st
          else incremental_execute FACET_GROUP_SIZE FACET_MIN_LEVEL_SIZE FACET_MAX_GROUP_SIZE nd st) = Ok st' ∧
    store_ok fs st' ∧ field_id_docid_facets st' = field_id_docid_facets st ∧
    ∀ f x, value_docids (facet_id_docids st') f x = value_docids (facet_id_docids st) f x ∪ new_docids nd f x.
Proof.
  intros [[Hs Hok] Hfac] Hndf Hnd Hsn [Hh Hfit].
  assert (db_sorted (facet_id_docids st)) as Hs0 by done.
  destruct (N.leb_spec (N.of_nat (length (facet_id_docids st)) / 50) (N.of_nat (length nd))) as [_|_].
  - destruct (bulk_execute_spec FACET_GROUP_SIZE FACET_MIN_LEVEL_SIZE (Some nd) fs st) as (st' & Hrun & Hs' & Hok' & Hv & Hget & Hlev & Hfd);
      [done|done|done|done| |done|intros k d Hin; by apply (Hnd k d)|].
    { intros f l Hf Hl. destruct (Hok f Hf) as (_ & h & _ & Hlev & _). apply (above_highest ∅ _ f h); [done|done|].
      specialize (Hh f Hf). lia. }
    exists st'. split; [exact Hrun|]. split; [|by split]. 
    split; [by split|]. intros f Hf. rewrite Hget. by rewrite decide_True.
  - destruct (incremental_execute_spec FACET_GROUP_SIZE FACET_MIN_LEVEL_SIZE FACET_MAX_GROUP_SIZE fs nd st)
      as (st' & Hrun & [Hs' Hok'] & Hv & Hget & Hfd); [done|done|by split|done|done|].
    exists st'. split; [exact Hrun|]. split; [|by split]. split; [by split|]. intros f Hf.
    rewrite Hget, (Hfac f Hf). apply set_eq. intros d.
    rewrite elem_of_union, !elem_of_level_docids, (elem_of_new_field_docids fs) by done.
    setoid_rewrite Hv. setoid_rewrite elem_of_union. naive_solver.
Qed.

Lemma facets_of_with t t' st fc :
  facets_of t' (with_facets t st fc) = match t, t' with Strings, Strings | Numbers, Numbers => st | _, _ => facets_of t' fc end.
Proof. by destruct t, t'. Qed.

Lemma facets_update_execute_correct t nd fs fc :
  store_ok fs (facets_of t fc) → db_sorted (facet_id_docids (facet_strings fc)) →
  NoDup fs → new_data_ok fs nd → StronglySorted key_lt nd.*1 → heights_ok fs nd (facet_id_docids (facets_of t fc)) →
  ∃ fc', facets_update_execute t nd fs fc = Ok fc' ∧ store_ok fs (facets_of t fc') ∧
    field_id_docid_facets (facets_of t fc') = field_id_docid_facets (facets_of t fc) ∧
    (∀ f x, value_docids (facet_id_docids (facets_of t fc')) f x =
      value_docids (facet_id_docids (facets_of t fc)) f x ∪ new_docids nd f x) ∧
    (∀ t', t' ≠ t → facets_of t' fc' = facets_of t' fc) ∧
    (nd ≠ [] → ∀ f, facet_id_string_fst fc' !! f =
      match values_of (facet_id_docids (facet_strings fc')) f with [] => None | ks => Some ks end).
Proof.
  intros Hok Hsstr Hndf Hnd Hsn Hh. unfold facets_update_execute. destruct nd as [|e nd].
  { exists fc. split_and!; [done|done|done| |done|done]. intros f x. cbn. by rewrite union_empty_r_L. }
  destruct (new_values_spec fs (e :: nd) (facets_of t fc) Hok Hndf Hnd Hsn Hh) as (st' & Hrun & Hok' & Hfd & Hv).
  rewrite Hrun. cbn [mbind outcome_bind].
  assert (db_sorted (facet_id_docids (facet_strings (with_facets t st' fc)))) as Hs'.
  { destruct t; cbn; [by destruct Hok' as [[? _] _]|done]. }
  destruct (text_fsts_map _ Hs') as (fsts & Hfst & Hmap). rewrite Hfst. cbn [mbind outcome_bind].
  eexists. split; [done|]. split_and!.
  - destruct t; exact Hok'.
  - rewrite <- Hfd. by destruct t.
  - intros f x. rewrite <- Hv. by destruct t.
  - intros t' Ht'. by destruct t, t'.
  - intros _ f. rewrite Hmap. done.
Qed.

(** C14: Updating a type of facets adds the new documents to their values and to the
    faceted documents of their fields and keeps the levels, whether the update is
    bulk or incremental; the FST of a field holds its string values in order. *)
Theorem facets_update_execute_spec t nd fs fc :
  store_ok fs (facets_of t fc) → db_sorted (facet_id_docids (facet_strings fc)) →
  NoDup fs → new_data_ok fs nd → StronglySorted key_lt nd.*1 → heights_ok fs nd (facet_id_docids (facets_of t fc)) →
  ∃ fc', facets_update_execute t nd fs fc = Ok fc' ∧ store_ok fs (facets_of t fc') ∧
    (∀ f x, value_docids (facet_id_docids (facets_of t fc')) f x =
      value_docids (facet_id_docids (facets_of t fc)) f x ∪ new_docids nd f x) ∧
    (∀ t', t' ≠ t → facets_of t' fc' = facets_of t' fc) ∧
    (nd ≠ [] → ∀ f, facet_id_string_fst fc' !! f =
      match values_of (facet_id_docids (facet_strings fc')) f with [] => None | ks => Some ks end).
Proof.
  intros Hok Hsstr Hndf Hnd Hsn Hh.
  destruct (facets_update_execute_correct t nd fs fc) as (fc' & Hrun & Hok' & _ & H); [done..|]. by exists fc'.
Qed.
