(* ===== verification/FacetRemove.v ===== *)
(** * The facets of deleted documents
      (milli/src/update/facet/delete.rs, milli/src/update/delete_documents.rs)

    A hard deletion looks the values of the documents up in the database of the values
    of each document and removes the documents from these values, in bulk or one value
    at a time, depending on the number of values.  The sets of values are lists in any
    order. *)
From S2P Require Import Prelude Json FacetDb FacetTree FacetSearch FacetIncremental FacetInsert FacetDelete FacetBulk FacetUpdate.
From S2P Require FieldsIdsMap DocumentsIds.
Import FieldsIdsMap (FieldId).
Import DocumentsIds (DocumentId).

(** ** [FacetsDelete::execute] *)

(** The loop of the bulk deletion: the database, and whether it was modified. *)
Fixpoint delete_values (field_id : FieldId) (values : list bytes) (docids_to_delete : gset DocumentId) (modified : bool)
    (db : FacetDb) : outcome FacetError (bool * FacetDb) :=
  match values with
  | [] => Ok (modified, db)
  | facet_value :: values =>
      let key := mkKey field_id 0 facet_value in
      match db_get key db with
      | None => Panic "called Option::unwrap on a None value"
      | Some old =>
          let bitmap := gv_bitmap old ∖ docids_to_delete in
          if decide (bitmap = ∅) then delete_values field_id values docids_to_delete true (db_delete key db)
          else if negb (size bitmap =? size (gv_bitmap old))
          then delete_values field_id values docids_to_delete true (db_put key (mkValue (gv_size old) bitmap) db)
          else delete_values field_id values docids_to_delete modified db
      end
  end.

Fixpoint delete_each (field_id : FieldId) (values : list bytes) (docids_to_delete : gset DocumentId) : M unit :=
  match values with
  | [] => mret tt
  | facet_value :: values =>
      delete FACET_MIN_LEVEL_SIZE field_id facet_value docids_to_delete ≫= λ _,
      delete_each field_id values docids_to_delete
  end.

Definition delete_field (field_id : FieldId) (values : list bytes) (docids_to_delete : gset DocumentId) (st : FacetStore) :
    outcome FacetError FacetStore :=
  if (N.of_nat (length (facet_id_docids st)) / 150 <=? N.of_nat (length values))%N then
    '(modified, db) ← delete_values field_id values docids_to_delete false (facet_id_docids st);
    let st := with_db db st in
    if (modified : bool) then bulk_execute FACET_GROUP_SIZE FACET_MIN_LEVEL_SIZE None [field_id] st else Ok st
  else
    match delete_each field_id values docids_to_delete (facet_id_docids st) with
    | (Ok _, db) => Ok (with_db db st)
    | (Err e, _) => Err e
    | (Panic msg, _) => Panic msg
    end.

Fixpoint facets_delete_execute (affected_facet_values : list (FieldId * list bytes)) (docids_to_delete : gset DocumentId)
    (st : FacetStore) : outcome FacetError FacetStore :=
  match affected_facet_values with
  | [] => Ok st
  | (field_id, values) :: affected =>
      st ← delete_field field_id values docids_to_delete st;
      facets_delete_execute affected docids_to_delete st
  end.

(** ** The facets of the documents deleted by [DeleteDocuments] *)

(** The values of the removed entries of a field, and the entries that stay. *)
Fixpoint remove_docids_from_field_id_docid_facet_value (field_id : FieldId) (to_remove : gset DocumentId)
    (iter : list (FieldId * DocumentId * bytes * bytes)) (all_affected_facet_values : list bytes) :
    list bytes * list (FieldId * DocumentId * bytes * bytes) :=
  match iter with
  | [] => (all_affected_facet_values, [])
  | ((fid, docid, facet_value, _) as e) :: iter =>
      if negb (fid =? field_id)%N || negb (bool_decide (docid ∈ to_remove)) then
        let '(values, rest) := remove_docids_from_field_id_docid_facet_value field_id to_remove iter all_affected_facet_values in
        (values, e :: rest)
      else
        remove_docids_from_field_id_docid_facet_value field_id to_remove iter
          (if bool_decide (facet_value ∈ all_affected_facet_values) then all_affected_facet_values
           else all_affected_facet_values ++ [facet_value])
  end.

Fixpoint affected_values (faceted_fields_ids : list FieldId) (to_delete_docids : gset DocumentId)
    (affected_facet_values : list (FieldId * list bytes)) (st : FacetStore) : list (FieldId * list bytes) * FacetStore :=
  match faceted_fields_ids with
  | [] => (affected_facet_values, st)
  | field_id :: faceted_fields_ids =>
      let docids := get_faceted st field_id ∖ to_delete_docids in
      let st := put_faceted field_id docids st in
      let '(facet_values, rest) :=
        remove_docids_from_field_id_docid_facet_value field_id to_delete_docids (field_id_docid_facets st) [] in
      let st := mkStore (facet_id_docids st) (faceted_documents_ids st) rest in
      affected_values faceted_fields_ids to_delete_docids
        (match facet_values with [] => affected_facet_values | _ => affected_facet_values ++ [(field_id, facet_values)] end) st
  end.

Definition delete_facets_of_type (faceted_fields_ids : list FieldId) (to_delete_docids : gset DocumentId) (st : FacetStore) :
    outcome FacetError FacetStore :=
  let '(affected_facet_values, st) := affected_values faceted_fields_ids to_delete_docids [] st in
  facets_delete_execute affected_facet_values to_delete_docids st.

Definition delete_facets (faceted_fields_ids : list FieldId) (to_delete_docids : gset DocumentId) (fc : Facets) :
    outcome FacetError Facets :=
  st ← delete_facets_of_type faceted_fields_ids to_delete_docids (facets_of Numbers fc);
  let fc := with_facets Numbers st fc in
  st ← delete_facets_of_type faceted_fields_ids to_delete_docids (facets_of Strings fc);
  Ok (with_facets Strings st fc).

(** ** [FacetsDelete] *)
Lemma value_docids_put db f x v f' y :
  db_sorted db →
  value_docids (db_put (mkKey f 0 x) v db) f' y = if decide (f' = f ∧ y = x) then gv_bitmap v else value_docids db f' y.
Proof.
  intros Hs. unfold value_docids. rewrite db_get_put by done. repeat case_decide; naive_solver.
Qed.

Lemma value_docids_delete db f x f' y :
  db_sorted db →
  value_docids (db_delete (mkKey f 0 x) db) f' y = if decide (f' = f ∧ y = x) then ∅ else value_docids db f' y.
Proof.
  intros Hs. unfold value_docids. rewrite db_get_delete by done. repeat case_decide; naive_solver.
Qed.

Lemma difference_same_size (X D : gset DocumentId) : size (X ∖ D) = size X → X ∖ D = X.
Proof. intros Hsz. apply set_subseteq_size_eq; [set_solver|lia]. Qed.

Lemma delete_values_spec f D vs m db :
  db_sorted db → NoDup vs → (∀ x, x ∈ vs → is_Some (db_get (mkKey f 0 x) db)) →
  ∃ m' db', delete_values f vs D m db = Ok (m', db') ∧ db_sorted db' ∧
    (∀ f' x, value_docids db' f' x = if decide (f' = f ∧ x ∈ vs) then value_docids db f x ∖ D else value_docids db f' x) ∧
    (∀ f' l, f' ≠ f ∨ 0 < l → level db' f' l = level db f' l) ∧ (m' = false → db' = db).
Proof.
  revert m db. induction vs as [|x vs IH]; intros m db Hs Hnd Hin; cbn [delete_values].
  { exists m, db. split_and!; [done|done| |done|done]. intros f' y. rewrite decide_False by (by intros [_ ?%not_elem_of_nil]). done. }
  apply NoDup_cons in Hnd as [Hnin Hnd]. destruct (Hin x ltac:(left)) as [old Hold]. rewrite Hold.
  assert (value_docids db f x = gv_bitmap old) as Hvx by (unfold value_docids; by rewrite Hold).
  assert (∀ (m1 : bool) db1, db_sorted db1 → (∀ f' l, f' ≠ f ∨ 0 < l → level db1 f' l = level db f' l) →
    (∀ f' y, value_docids db1 f' y = if decide (f' = f ∧ y = x) then value_docids db f x ∖ D else value_docids db f' y) →
    (∀ y, y ∈ vs → is_Some (db_get (mkKey f 0 y) db1)) → (m1 = false → db1 = db) →
    ∃ m' db', delete_values f vs D m1 db1 = Ok (m', db') ∧ db_sorted db' ∧
      (∀ f' y, value_docids db' f' y = if decide (f' = f ∧ y ∈ x :: vs) then value_docids db f y ∖ D else value_docids db f' y) ∧
      (∀ f' l, f' ≠ f ∨ 0 < l → level db' f' l = level db f' l) ∧ (m' = false → db' = db)) as Hstep.
  { intros m1 db1 Hs1 Hl1 Hv1 Hin1 Hm1. destruct (IH m1 db1 Hs1 Hnd Hin1) as (m' & db' & Hrun & Hs' & Hv' & Hl' & Hm').
    exists m', db'. split_and!; [done|done| | |].
    - intros f' y. rewrite Hv', !Hv1. repeat case_decide; set_solver.
    - intros f' l Hfl. by rewrite Hl', Hl1.
    - intros ->. rewrite Hm' by done. destruct m1; [|by apply Hm1].
      clear -Hrun. exfalso. revert db1 Hrun. induction vs as [|y vs IH]; intros db1; cbn [delete_values]; [done|].
      destruct (db_get _ db1); [|done]. repeat case_decide; [apply IH|]. destruct (negb _); apply IH. }
  assert (∀ y, y ∈ vs → is_Some (db_get (mkKey f 0 y) db) ∧ mkKey f 0 y ≠ mkKey f 0 x) as Hvs.
  { intros y Hy. split; [apply Hin; by right|]. intros [= ->]. done. }
  assert (∀ f' y, f' ≠ f ∨ 0 < y → field_id (mkKey f 0 x) = f' ∧ gk_level (mkKey f 0 x) = y → False) as Hoth
    by (cbn; intros f' y ? [? ?]; subst; destruct_or!; [done|lia]).
  destruct (decide (gv_bitmap old ∖ D = ∅)) as [He|He]; [|destruct (Nat.eqb_spec (size (gv_bitmap old ∖ D)) (size (gv_bitmap old))) as [Heq|Hne]; cbn [negb]].
  - apply Hstep; [by apply db_delete_sorted| | | |done].
    + intros f' l Hfl. apply db_delete_other; [done|by apply Hoth].
    + intros f' y. rewrite value_docids_delete by done. rewrite Hvx, He. done.
    + intros y Hy. destruct (Hvs y Hy) as [Hsome Hne]. rewrite db_get_delete by done. by rewrite decide_False.
  - apply difference_same_size in Heq. destruct (IH m db Hs Hnd) as (m' & db' & Hrun & Hs' & Hv' & Hl' & Hm').
    { intros y Hy. by apply Hvs. }
    exists m', db'. split_and!; [done|done| |done|done]. intros f' y. rewrite Hv'.
    destruct (decide (f' = f ∧ y ∈ vs)) as [[-> Hy]|Hn]; [rewrite decide_True by (split; [done|by right]); done|].
    case_decide as Hc; [|done]. destruct Hc as [-> [->|Hy]%elem_of_cons]; [by rewrite Hvx, Heq|by destruct Hn].
  - apply Hstep; [by apply db_put_sorted| | | |done].
    + intros f' l Hfl. apply db_put_other; [done|by apply Hoth].
    + intros f' y. rewrite value_docids_put by done. by rewrite Hvx.
    + intros y Hy. destruct (Hvs y Hy) as [Hsome Hne']. rewrite db_get_put by done. by rewrite decide_False.
Qed.

Lemma facet_ok_mono D D' db f : D ⊆ D' → facet_ok D db f → facet_ok D' db f.
Proof.
  intros HD (Hs & h & Hh & (H1 & H2 & H3) & Hz). split; [done|]. exists h. split_and!; [done| |done].
  split; [done|split; [|done]]. intros l Hl. eapply groups_mono; [exact HD|by apply H2].
Qed.

Lemma delete_each_spec f D vs db :
  facet_ok D db f →
  ∃ db', delete_each f vs D db = (Ok tt, db') ∧ facet_ok D db' f ∧
    (∀ x, value_docids db' f x = if decide (x ∈ vs) then value_docids db f x ∖ D else value_docids db f x) ∧
    (∀ f' l, f' ≠ f → level db' f' l = level db f' l).
Proof.
  revert db. induction vs as [|x vs IH]; intros db Hok; cbn [delete_each].
  { exists db. split_and!; [done|done| |done]. intros y. by rewrite decide_False by apply not_elem_of_nil. }
  destruct (delete_correct FACET_MIN_LEVEL_SIZE f x D D db ltac:(done) Hok) as (db1 & Hrun1 & Hok1 & Hv1 & Hoth1).
  rewrite (st_bind_ok _ _ _ _ _ Hrun1). destruct (IH db1 Hok1) as (db' & Hrun & Hok' & Hv & Hoth).
  exists db'. split_and!; [done|done| |].
  - intros y. rewrite Hv, Hv1. repeat case_decide; set_solver.
  - intros f' l Hf'. by rewrite Hoth, Hoth1.
Qed.

Lemma highest_same db db' f :
  db_sorted db → db_sorted db' → (∀ l, level db' f l = level db f l) → facet_ok ∅ db f →
  get_highest_level db' f = get_highest_level db f.
Proof.
  intros Hs Hs' Hl (_ & h & _ & Hok & _). rewrite (levels_highest ∅ db f h) by done.
  apply (levels_highest ∅ db' f h); [done|]. destruct Hok as (H1 & H2 & H3). split; [by rewrite Hl|split].
  - intros l Hlt. rewrite !Hl. by apply H2.
  - intros l Hlt. rewrite Hl. by apply H3.
Qed.

(** The values [vs] of the field hold every document of [D] that the field has. *)
Definition values_cover (db : FacetDb) (f : FieldId) (D : gset DocumentId) (vs : list bytes) : Prop :=
  NoDup vs ∧ (∀ x, x ∈ vs → is_Some (db_get (mkKey f 0 x) db)) ∧ ∀ x d, d ∈ value_docids db f x → d ∈ D → x ∈ vs.

Lemma delete_field_spec fs f D vs st :
  fields_ok fs (facet_id_docids st) → f ∈ fs → get_highest_level (facet_id_docids st) f < 255 →
  values_cover (facet_id_docids st) f D vs →
  get_faceted st f = docids_of (level (facet_id_docids st) f 0) ∖ D →
  ∃ st', delete_field f vs D st = Ok st' ∧ fields_ok fs (facet_id_docids st') ∧
    (∀ x, value_docids (facet_id_docids st') f x = value_docids (facet_id_docids st) f x ∖ D) ∧
    (∀ f' l, f' ≠ f → level (facet_id_docids st') f' l = level (facet_id_docids st) f' l) ∧
    get_faceted st' f = docids_of (level (facet_id_docids st') f 0) ∧
    (∀ f', f' ≠ f → get_faceted st' f' = get_faceted st f') ∧ field_id_docid_facets st' = field_id_docid_facets st.
Proof.
  intros [Hs Hok] Hf Hh (Hnd & Hpres & Hcov) Hfac. set (db := facet_id_docids st) in *.
  assert (∀ db' : FacetDb, db_sorted db' → facet_ok ∅ db' f → (∀ f' l, f' ≠ f → level db' f' l = level db f' l) → fields_ok fs db') as Hfields.
  { intros db' Hs' Hok' Hoth. split; [done|]. intros f' Hf'. destruct (decide (f' = f)) as [->|Hne]; [done|].
    apply (facet_ok_same ∅ db); [done| |by apply Hok]. intros l. by apply Hoth. }
  assert (∀ x, x ∉ vs → value_docids db f x ∖ D = value_docids db f x) as Hnot.
  { intros x Hx. apply set_eq. intros d. rewrite elem_of_difference. split; [by intros [? _]|].
    intros Hd. split; [done|]. intros HD. by apply Hx, (Hcov x d). }
  assert (∀ db' : FacetDb, db_sorted db' → (∀ x, value_docids db' f x = value_docids db f x ∖ D) →
    docids_of (level db' f 0) = docids_of (level db f 0) ∖ D) as Hdocs.
  { intros db' Hs' Hv. apply set_eq. intros d. rewrite elem_of_difference, !elem_of_level_docids by done.
    setoid_rewrite Hv. setoid_rewrite elem_of_difference. naive_solver. }
  unfold delete_field. fold db. case_match.
  - destruct (delete_values_spec f D vs false db Hs Hnd Hpres) as (m & db1 & Hrun & Hs1 & Hv1 & Hl1 & Hm).
    rewrite Hrun. cbn [mbind outcome_bind].
    assert (∀ x, value_docids db1 f x = value_docids db f x ∖ D) as Hv1'.
    { intros x. rewrite Hv1. case_decide as Hc; [done|]. rewrite Hnot; [done|]. naive_solver. }
    destruct m.
    + destruct (bulk_execute_spec FACET_GROUP_SIZE FACET_MIN_LEVEL_SIZE None [f] (with_db db1 st)) as
        (st' & Hrun' & Hs' & Hok' & Hv' & Hget & Hlev & Hfd); [done|done|done|apply NoDup_singleton| |constructor|by intros ? ? ?%not_elem_of_nil|].
      { intros f' l ->%list_elem_of_singleton Hl. cbn [facet_id_docids with_db]. rewrite Hl1 by (right; lia).
        destruct (Hok f Hf) as (_ & h & _ & Hlv & _). apply (above_highest ∅ _ f h); [done|done|lia]. }
      exists st'. cbn [facet_id_docids with_db from_option id new_docids] in *.
      assert (∀ f' x, value_docids (facet_id_docids st') f' x = value_docids db1 f' x) as Hv2.
      { intros f' x. rewrite Hv'. by rewrite union_empty_r_L. }
      assert (∀ f' l, f' ≠ f → level (facet_id_docids st') f' l = level db f' l) as Hoth.
      { intros f' l Hne. etrans; [apply Hlev|apply Hl1; by left]. destruct (decide (l = 0)) as [->|].
        - right. split; [done|]. by intros ? ? ?%not_elem_of_nil.
        - left. split; [by intros ?%list_elem_of_singleton|lia]. }
      assert (facet_ok ∅ (facet_id_docids st') f) as Hok1 by (apply Hok'; left).
      split; [exact Hrun'|]. split_and!; [by apply Hfields|intros x; by rewrite Hv2|done| | |done].
      * rewrite Hget, decide_True by left. done.
      * intros f' Hne. rewrite Hget, decide_False by by intros ?%list_elem_of_singleton. done.
    + rewrite Hm in * by done. eexists. split; [done|]. cbn [facet_id_docids with_db field_id_docid_facets].
      split_and!; [by split|done|done| |done|done]. rewrite (Hdocs db) by done. exact Hfac.
  - assert (facet_ok D db f) as HokD by (eapply facet_ok_mono; [|by apply Hok]; set_solver).
    destruct (delete_each_spec f D vs db HokD) as (db' & -> & Hok' & Hv & Hoth).
    assert (db_sorted db') as Hs' by by destruct Hok'.
    assert (∀ x, value_docids db' f x = value_docids db f x ∖ D) as Hv'.
    { intros x. rewrite Hv. case_decide as Hc; [done|]. by rewrite Hnot. }
    eexists. split; [done|]. cbn [facet_id_docids with_db field_id_docid_facets].
    split_and!; [|done|done| |done|done].
    + apply Hfields; [done| |done]. apply (facet_ok_exact D); [done|]. intros x. rewrite Hv'. set_solver.
    + rewrite (Hdocs db') by done. exact Hfac.
Qed.

(** Levels that do not change. *)
Lemma values_cover_same db db' f D vs :
  db_sorted db → db_sorted db' → (∀ l, level db' f l = level db f l) → values_cover db f D vs → values_cover db' f D vs.
Proof.
  intros Hs Hs' Hl (Hnd & Hin & Hcov). split_and!; [done| |].
  - intros x [v Hv]%Hin. exists v. apply db_get_level; [done|]. rewrite Hl. by apply db_get_level.
  - intros x d Hd HD. apply (Hcov x d); [|done]. by rewrite <- (value_docids_level db db' f x Hs Hs' (Hl 0)).
Qed.

Lemma docids_of_disjoint db f (D : gset DocumentId) :
  db_sorted db → (∀ x, value_docids db f x ## D) → docids_of (level db f 0) ∖ D = docids_of (level db f 0).
Proof.
  intros Hs Hd. apply set_eq. intros d. rewrite elem_of_difference, elem_of_level_docids by done. split; [by intros [? _]|].
  intros (x & Hx). split; [by exists x|]. specialize (Hd x). set_solver.
Qed.

Lemma facets_delete_spec fs D aff st :
  fields_ok fs (facet_id_docids st) → NoDup aff.*1 →
  (∀ f vs, (f, vs) ∈ aff → f ∈ fs ∧ values_cover (facet_id_docids st) f D vs ∧ get_highest_level (facet_id_docids st) f < 255) →
  (∀ f x, f ∈ fs → f ∉ aff.*1 → value_docids (facet_id_docids st) f x ## D) →
  (∀ f, f ∈ fs → get_faceted st f = docids_of (level (facet_id_docids st) f 0) ∖ D) →
  ∃ st', facets_delete_execute aff D st = Ok st' ∧ store_ok fs st' ∧
    (∀ f x, f ∈ fs → value_docids (facet_id_docids st') f x = value_docids (facet_id_docids st) f x ∖ D) ∧
    field_id_docid_facets st' = field_id_docid_facets st.
Proof.
  revert st. induction aff as [|[f vs] aff IH]; intros st Hok Hnd Haff Hrest Hfac; cbn [facets_delete_execute].
  { pose proof Hok as [Hs _]. exists st. split_and!; [done| | |done].
    - split; [done|]. intros f Hf. rewrite Hfac by done. apply docids_of_disjoint; [done|]. intros x. apply Hrest; [done|apply not_elem_of_nil].
    - intros f x Hf. specialize (Hrest f x Hf ltac:(apply not_elem_of_nil)). set_solver. }
  rewrite fmap_cons in Hnd. apply NoDup_cons in Hnd as [Hnin Hnd]. cbn [fst] in Hnin.
  destruct (Haff f vs ltac:(left)) as (Hf & Hcov & Hh).
  destruct (delete_field_spec fs f D vs st Hok Hf Hh Hcov (Hfac f Hf)) as (st1 & Hrun1 & Hok1 & Hv1 & Hl1 & Hf1 & Hfo & Hfd1).
  rewrite Hrun1. cbn [mbind outcome_bind]. pose proof Hok as [Hs Hokf]. pose proof Hok1 as [Hs1 Hokf1].
  assert (∀ f' x, f' ≠ f → value_docids (facet_id_docids st1) f' x = value_docids (facet_id_docids st) f' x) as Hvo
    by (intros f' x Hne; apply value_docids_level; [done|done|by apply Hl1]).
  destruct (IH st1) as (st' & Hrun & Hst & Hv & Hfd); [done|done| | | |].
  - intros f' vs' Hin. destruct (Haff f' vs' ltac:(by right)) as (Hf' & Hc' & Hh').
    assert (f' ≠ f) as Hne by (intros ->; apply Hnin; by apply (list_elem_of_fmap_2 fst) in Hin).
    split_and!; [done| |].
    + apply (values_cover_same (facet_id_docids st)); [done|done| |done]. intros l. by apply Hl1.
    + rewrite (highest_same (facet_id_docids st)); [done|done|done| |by apply Hokf]. intros l. by apply Hl1.
  - intros f' x Hf' Hn. destruct (decide (f' = f)) as [->|Hne]; [rewrite Hv1; set_solver|].
    rewrite Hvo by done. apply Hrest; [done|]. cbn. by intros [?|?]%elem_of_cons.
  - intros f' Hf'. destruct (decide (f' = f)) as [->|Hne].
    + rewrite Hf1. symmetry. apply docids_of_disjoint; [done|]. intros x. rewrite Hv1. set_solver.
    + rewrite Hfo, Hl1 by done. by apply Hfac.
  - exists st'. split; [done|]. split; [done|]. split; [|by rewrite Hfd]. intros f' x Hf'. rewrite Hv by done.
    destruct (decide (f' = f)) as [->|Hne]; [rewrite Hv1; set_solver|by rewrite Hvo].
Qed.

(** ** The facets of the deleted documents *)
Lemma remove_docids_spec f (D : gset DocumentId) iter vals :
  NoDup vals →
  ∃ vs rest, remove_docids_from_field_id_docid_facet_value f D iter vals = (vs, rest) ∧ NoDup vs ∧
    (∀ x, x ∈ vs ↔ x ∈ vals ∨ ∃ d o, d ∈ D ∧ (f, d, x, o) ∈ iter) ∧
    (∀ f' d x o, (f', d, x, o) ∈ rest ↔ (f', d, x, o) ∈ iter ∧ ¬ (f' = f ∧ d ∈ D)).
Proof.
  revert vals. induction iter as [|[[[f1 d1] x1] o1] iter IH]; intros vals Hnd; cbn [remove_docids_from_field_id_docid_facet_value].
  { exists vals, []. split_and!; [done|done| |].
    - intros x. split; [by left|]. by intros [?|(d & o & _ & ?%not_elem_of_nil)].
    - intros f' d x o. by split; [intros ?%not_elem_of_nil|intros [?%not_elem_of_nil _]]. }
  destruct (negb (f1 =? f)%N || negb (bool_decide (d1 ∈ D))) eqn:Hkeep.
  - assert (¬ (f1 = f ∧ d1 ∈ D)) as Hk.
    { intros [-> Hd]. rewrite N.eqb_refl, bool_decide_eq_true_2 in Hkeep by done. done. }
    destruct (IH vals Hnd) as (vs & rest & -> & Hnd' & Hvs & Hrest). eexists vs, _. split; [done|]. split_and!; [done| |].
    + intros x. rewrite Hvs. setoid_rewrite elem_of_cons. naive_solver.
    + intros f' d x o. rewrite !elem_of_cons, Hrest. naive_solver.
  - apply orb_false_iff in Hkeep as [Hf Hd]. apply negb_false_iff, N.eqb_eq in Hf as ->.
    apply negb_false_iff, bool_decide_eq_true in Hd.
    edestruct (IH (if bool_decide (x1 ∈ vals) then vals else vals ++ [x1])) as (vs & rest & -> & Hnd' & Hvs & Hrest).
    { case_bool_decide; [done|]. apply NoDup_app. split; [done|]. split; [|apply NoDup_singleton].
      by intros y Hy ->%list_elem_of_singleton. }
    exists vs, rest. split; [done|]. split_and!; [done| |].
    + intros x. rewrite Hvs. setoid_rewrite (elem_of_cons iter). case_bool_decide; [naive_solver|].
      rewrite elem_of_app, list_elem_of_singleton. naive_solver.
    + intros f' d x o. rewrite elem_of_cons, Hrest. naive_solver.
Qed.

(** The values of the field [f] in the entries of the documents [D]. *)
Definition values_in (entries : list (FieldId * DocumentId * bytes * bytes)) (D : gset DocumentId) (f : FieldId)
    (vs : list bytes) : Prop :=
  NoDup vs ∧ ∀ x, x ∈ vs ↔ ∃ d o, d ∈ D ∧ (f, d, x, o) ∈ entries.

Lemma values_in_ext entries entries' D f vs :
  (∀ d x o, (f, d, x, o) ∈ entries' ↔ (f, d, x, o) ∈ entries) → values_in entries D f vs → values_in entries' D f vs.
Proof. intros He [Hnd Hv]. split; [done|]. intros x. rewrite Hv. by setoid_rewrite He. Qed.

Lemma affected_values_spec fs (D : gset DocumentId) aff st :
  NoDup fs → NoDup aff.*1 → (∀ f, f ∈ fs → f ∉ aff.*1) →
  ∃ aff' st', affected_values fs D aff st = (aff', st') ∧
    facet_id_docids st' = facet_id_docids st ∧
    (∀ f, get_faceted st' f = if decide (f ∈ fs) then get_faceted st f ∖ D else get_faceted st f) ∧
    (∀ f d x o, (f, d, x, o) ∈ field_id_docid_facets st' ↔ (f, d, x, o) ∈ field_id_docid_facets st ∧ ¬ (f ∈ fs ∧ d ∈ D)) ∧
    NoDup aff'.*1 ∧
    (∀ f vs, (f, vs) ∈ aff' → (f, vs) ∈ aff ∨ f ∈ fs ∧ values_in (field_id_docid_facets st) D f vs) ∧
    (∀ f d x o, (f ∈ fs ∧ d ∈ D ∧ (f, d, x, o) ∈ field_id_docid_facets st) ∨ f ∈ aff.*1 → f ∈ aff'.*1).
Proof.
  revert aff st. induction fs as [|f fs IH]; intros aff st Hnd Haff Hdis; cbn [affected_values].
  { exists aff, st. split_and!; [done|done| | |done|by left|].
    - intros f. by rewrite decide_False by apply not_elem_of_nil.
    - intros f d x o. split; [|by intros [? _]]. intros ?. split; [done|]. by intros [?%not_elem_of_nil _].
    - by intros f d x o [(?%not_elem_of_nil & _)|?]. }
  apply NoDup_cons in Hnd as [Hnin Hnd].
  destruct (remove_docids_spec f D (field_id_docid_facets (put_faceted f (get_faceted st f ∖ D) st)) []) as
    (vs & rest & -> & Hndvs & Hvs & Hrest); [constructor|].
  cbn [field_id_docid_facets put_faceted facet_id_docids faceted_documents_ids] in *.
  assert (values_in (field_id_docid_facets st) D f vs) as Hin.
  { split; [done|]. intros x. rewrite Hvs. split; [by intros [?%not_elem_of_nil|?]|by right]. }
  set (aff1 := match vs with [] => aff | _ => aff ++ [(f, vs)] end).
  assert (∀ e, e ∈ aff1 ↔ e ∈ aff ∨ vs ≠ [] ∧ e = (f, vs)) as Haff1.
  { intros e. subst aff1. destruct vs; [naive_solver|]. rewrite elem_of_app, list_elem_of_singleton. naive_solver. }
  assert (∀ g, g ∈ aff1.*1 ↔ g ∈ aff.*1 ∨ vs ≠ [] ∧ g = f) as Haff1'.
  { intros g. subst aff1. destruct vs as [|y vs']; [naive_solver|].
    rewrite fmap_app, elem_of_app. change ((f, y :: vs') :: []).*1 with [f]. rewrite list_elem_of_singleton. naive_solver. }
  destruct (IH aff1 (mkStore (facet_id_docids st) (<[f:=get_faceted st f ∖ D]> (faceted_documents_ids st)) rest))
    as (aff' & st' & -> & Hdb & Hget & Hent & Hnd' & Hsrc & Hall); [done| | |].
  { subst aff1. destruct vs; [done|]. rewrite fmap_app. apply NoDup_app. split; [done|]. split; [|apply NoDup_singleton].
    intros g Hg ->%list_elem_of_singleton. by apply (Hdis f ltac:(left)). }
  { intros g Hg [Hg'|[_ ->]]%Haff1'; [|done]. by apply (Hdis g ltac:(by right)). }
  cbn [field_id_docid_facets facet_id_docids] in *.
  exists aff', st'. split; [done|]. split_and!; [done| | |done| |].
  - intros g. rewrite Hget. change (get_faceted (mkStore _ _ _) g) with (get_faceted (put_faceted f (get_faceted st f ∖ D) st) g).
    rewrite get_put_faceted. destruct (decide (g = f)) as [->|Hne].
    + rewrite decide_False by done. by rewrite decide_True by left.
    + repeat case_decide; set_solver.
  - intros g d x o. rewrite Hent, Hrest, elem_of_cons. naive_solver.
  - intros g ws Hg. apply Hsrc in Hg as [[?|[_ [= -> ->]]]%Haff1|[Hg Hw]]; [by left|right; split; [left|done]|].
    right. split; [by right|]. eapply values_in_ext; [|exact Hw]. intros d x o. rewrite Hrest. split; [|by intros [? _]].
    intros ?. split; [done|]. by intros [-> _].
  - intros g d x o [(Hg & Hd & He)|Hg]; [|eapply (Hall g d x o); right; apply Haff1'; by left].
    apply elem_of_cons in Hg as [->|Hg].
    + apply (Hall f d x o). right. apply Haff1'. right. split; [|done]. intros ->.
      destruct Hin as [_ Hin]. apply (not_elem_of_nil x), Hin. by exists d, o.
    + apply (Hall g d x o). left. split_and!; [done|done|]. apply Hrest. split; [done|]. by intros [-> _].
Qed.

(** The entries of the documents are those of the values. *)
Definition values_known (fs : list FieldId) (st : FacetStore) : Prop :=
  ∀ f d x, f ∈ fs → (∃ o, (f, d, x, o) ∈ field_id_docid_facets st) ↔ d ∈ value_docids (facet_id_docids st) f x.

Lemma values_in_cover fs D f vs st :
  values_known fs st → f ∈ fs → values_in (field_id_docid_facets st) D f vs → values_cover (facet_id_docids st) f D vs.
Proof.
  intros Hk Hf [Hnd Hv]. split_and!; [done| |].
  - intros x (d & o & _ & Hx)%Hv. assert (d ∈ value_docids (facet_id_docids st) f x) as Hd by (apply Hk; [done|by exists o]).
    unfold value_docids in Hd. destruct (db_get _ _); [by eexists|]. by apply elem_of_empty in Hd.
  - intros x d Hd HD. apply Hk in Hd as [o Ho]; [|done]. apply Hv. by exists d, o.
Qed.

Lemma delete_facets_of_type_correct fs D st :
  store_ok fs st → values_known fs st → NoDup fs → (∀ f, f ∈ fs → get_highest_level (facet_id_docids st) f < 255) →
  ∃ st', delete_facets_of_type fs D st = Ok st' ∧ store_ok fs st' ∧ values_known fs st' ∧
    ∀ f x, f ∈ fs → value_docids (facet_id_docids st') f x = value_docids (facet_id_docids st) f x ∖ D.
Proof.
  intros [Hok Hfac] Hk Hnd Hh. unfold delete_facets_of_type.
  destruct (affected_values_spec fs D [] st) as (aff & st1 & -> & Hdb & Hget & Hent & Hnda & Hsrc & Hall);
    [done|constructor|by intros ? _ ?%not_elem_of_nil|].
  destruct (facets_delete_spec fs D aff st1) as (st' & Hrun & Hst & Hv & Hfd); rewrite ?Hdb in *.
  - done.
  - done.
  - intros f vs Hin. apply Hsrc in Hin as [?%not_elem_of_nil|[Hf Hvs]]; [done|]. split_and!; [done| |by apply Hh].
    eapply values_in_cover; [exact Hk|done|exact Hvs].
  - intros f x Hf Hn d Hd HD. apply Hk in Hd as [o Ho]; [|done]. apply Hn, (Hall f d x o). by left.
  - intros f Hf. rewrite Hget, decide_True by done. by rewrite Hfac.
  - exists st'. split_and!; [done|done| |done]. intros f d x Hf. rewrite Hfd, Hv by done. setoid_rewrite Hent.
    rewrite elem_of_difference. rewrite <- (Hk f d x) by done. naive_solver.
Qed.

Lemma delete_facets_correct fs D fc :
  (∀ t, store_ok fs (facets_of t fc) ∧ values_known fs (facets_of t fc) ∧
    ∀ f, f ∈ fs → get_highest_level (facet_id_docids (facets_of t fc)) f < 255) →
  NoDup fs →
  ∃ fc', delete_facets fs D fc = Ok fc' ∧
    ∀ t, store_ok fs (facets_of t fc') ∧ values_known fs (facets_of t fc') ∧
      ∀ f x, f ∈ fs → value_docids (facet_id_docids (facets_of t fc')) f x =
        value_docids (facet_id_docids (facets_of t fc)) f x ∖ D.
Proof.
  intros Hok Hnd. unfold delete_facets. destruct (Hok Numbers) as (Hok1 & Hk1 & Hh1), (Hok Strings) as (Hok2 & Hk2 & Hh2).
  destruct (delete_facets_of_type_correct fs D (facets_of Numbers fc)) as (st1 & Hrun1 & H1); [done..|].
  rewrite Hrun1. cbn [mbind outcome_bind].
  change (facets_of Strings (with_facets Numbers st1 fc)) with (facets_of Strings fc).
  destruct (delete_facets_of_type_correct fs D (facets_of Strings fc)) as (st2 & Hrun2 & H2); [done..|].
  rewrite Hrun2. cbn [mbind outcome_bind]. eexists. split; [done|]. intros []; [exact H2|exact H1].
Qed.

(** C20: Deleting documents removes them, and nothing else, from every value of every
    faceted field, strings and numbers; the levels and the faceted documents stay
    those of the values that are left. *)
Theorem delete_facets_spec fs D fc :
  (∀ t, store_ok fs (facets_of t fc) ∧ values_known fs (facets_of t fc) ∧
    ∀ f, f ∈ fs → get_highest_level (facet_id_docids (facets_of t fc)) f < 255) →
  NoDup fs →
  ∃ fc', delete_facets fs D fc = Ok fc' ∧
    ∀ t, store_ok fs (facets_of t fc') ∧ values_known fs (facets_of t fc') ∧
      ∀ f x, f ∈ fs → value_docids (facet_id_docids (facets_of t fc')) f x =
        value_docids (facet_id_docids (facets_of t fc)) f x ∖ D.
Proof. apply delete_facets_correct. Qed.
