(* ===== verification/FacetF64.v ===== *)
(** * The encoding of the numbers of the facets
      (milli/src/facet/value_encoding.rs,
      milli/src/heed_codec/facet/ordered_f64_codec.rs)

    A float is its 64 bits.  [f64_value] is the number that the bits stand for in
    units of 2^-1074, the smallest positive float, so that the value of every finite
    float is an integer; the codec writes eight bytes whose order is the order of the
    values, then the bits themselves. *)
From S2P Require Import Prelude Json FacetDb.
From Stdlib Require Import Ascii ZArith.
#[local] Open Scope Z_scope.

(** ** Floats *)
Abbreviation f64 := Z.

Definition f64_ok (x : f64) : Prop := 0 <= x < 2 ^ 64.
Definition sign_bit (x : f64) : bool := Z.testbit x 63.
Definition magnitude_bits (x : f64) : Z := x mod 2 ^ 63.
Definition exponent_bits (x : f64) : Z := magnitude_bits x / 2 ^ 52.
Definition mantissa_bits (x : f64) : Z := x mod 2 ^ 52.

(** The absolute value of a float in units of 2^-1074. *)
Definition scaled (exponent mantissa : Z) : Z :=
  if exponent =? 0 then mantissa else (2 ^ 52 + mantissa) * 2 ^ (exponent - 1).
Definition f64_value (x : f64) : Z :=
  let v := scaled (exponent_bits x) (mantissa_bits x) in if sign_bit x then - v else v.

(** [f64::is_finite], [is_sign_negative], [is_sign_positive] and the comparison with zero. *)
Definition is_finite (x : f64) : bool := negb (exponent_bits x =? 2047).
Definition is_sign_negative (x : f64) : bool := sign_bit x.
Definition is_sign_positive (x : f64) : bool := negb (sign_bit x).
Definition is_zero (x : f64) : bool := f64_value x =? 0.

(** [f64::to_be_bytes] and [f64::from_be_bytes]. *)
Fixpoint be_bytes (n : nat) (x : Z) : bytes :=
  match n with
  | O => []
  | S n => be_bytes n (x / 256) ++ [ascii_of_N (Z.to_N (x mod 256))]
  end.
Definition to_be_bytes (x : f64) : bytes := be_bytes 8 x.
Definition of_be_bytes (b : bytes) : Z := fold_left (λ x c, x * 256 + Z.of_N (N_of_ascii c)) b 0.

(** ** [f64_into_bytes] *)
Definition xor_byte (m : N) (c : ascii) : ascii := ascii_of_N (N.lxor (N_of_ascii c) m).

Definition xor_first_bit (x : bytes) : bytes :=
  match x with c :: x => xor_byte 128 c :: x | [] => [] end.

Definition xor_all_bits (x : bytes) : bytes := xor_byte 255 <$> x.

Definition f64_into_bytes (float : f64) : option bytes :=
  if is_finite float then
    if is_zero float then Some (xor_first_bit (to_be_bytes 0))
    else if is_sign_negative float then Some (xor_all_bits (to_be_bytes float))
    else if is_sign_positive float then Some (xor_first_bit (to_be_bytes float))
    else None
  else None.

(** ** [OrderedF64Codec] *)
Module OrderedF64Codec.
Definition bytes_decode (b : bytes) : option f64 :=
  if (length b <? 16)%nat then None
  else if (length (drop 8 b) =? 8)%nat then Some (of_be_bytes (drop 8 b)) else None.

Definition bytes_encode (f : f64) : option bytes :=
  b ← f64_into_bytes f;
  Some (b ++ to_be_bytes f).
End OrderedF64Codec.

(** ** Bytes *)
Lemma be_bytes_length n x : length (be_bytes n x) = n.
Proof. revert x. induction n as [|n IH]; intros x; [done|]. cbn [be_bytes]. rewrite length_app, IH. cbn. lia. Qed.

Lemma byte_of_N n : (n < 256)%N → N_of_ascii (ascii_of_N n) = n.
Proof. intros. by apply N_ascii_embedding. Qed.

Lemma of_be_bytes_be n x : 0 <= x < 256 ^ Z.of_nat n → of_be_bytes (be_bytes n x) = x.
Proof.
  revert x. induction n as [|n IH]; intros x Hx; [cbn in *; lia|].
  cbn [be_bytes]. unfold of_be_bytes in *. rewrite fold_left_app. cbn [fold_left].
  assert (0 <= x mod 256 < 256) as Hm by (apply Z.mod_pos_bound; lia).
  rewrite Nat2Z.inj_succ, Z.pow_succ_r in Hx by lia.
  assert (0 <= x / 256 < 256 ^ Z.of_nat n) by (split; [apply Z.div_pos; lia|apply Z.div_lt_upper_bound; lia]).
  rewrite byte_of_N, Z2N.id, IH by lia. pose proof (Z.div_mod x 256). lia.
Qed.

(** The bytes of the same number of digits compare as the numbers. *)
Lemma blt_snoc x y a b :
  length x = length y → blt (x ++ [a]) (y ++ [b]) ↔ blt x y ∨ x = y ∧ (N_of_ascii a < N_of_ascii b)%N.
Proof.
  revert y. induction x as [|c x IH]; intros [|d y]; cbn; try done.
  - intros _. split; [intros [?|[_ []]]; by right|intros [[]|[_ ?]]; by left].
  - intros [= Hlen]. rewrite IH by done. naive_solver.
Qed.

Lemma be_bytes_lt n x y :
  0 <= x < 256 ^ Z.of_nat n → 0 <= y < 256 ^ Z.of_nat n → blt (be_bytes n x) (be_bytes n y) ↔ x < y.
Proof.
  revert x y. induction n as [|n IH]; intros x y Hx Hy; [cbn in *; lia|].
  rewrite Nat2Z.inj_succ, Z.pow_succ_r in Hx, Hy by lia. cbn [be_bytes]. rewrite blt_snoc by by rewrite !be_bytes_length.
  assert (0 <= x mod 256 < 256) by (apply Z.mod_pos_bound; lia).
  assert (0 <= y mod 256 < 256) by (apply Z.mod_pos_bound; lia).
  assert (0 <= x / 256 < 256 ^ Z.of_nat n) by (split; [apply Z.div_pos; lia|apply Z.div_lt_upper_bound; lia]).
  assert (0 <= y / 256 < 256 ^ Z.of_nat n) by (split; [apply Z.div_pos; lia|apply Z.div_lt_upper_bound; lia]).
  rewrite IH, !byte_of_N by lia. pose proof (Z.div_mod x 256). pose proof (Z.div_mod y 256).
  split; [intros [?|[Heq ?]]|intros Hlt].
  - lia.
  - apply (f_equal of_be_bytes) in Heq. rewrite !of_be_bytes_be in Heq by done. lia.
  - destruct (Z.lt_trichotomy (x / 256) (y / 256)) as [?|[Heq|?]]; [by left| |lia]. right. rewrite Heq. split; [done|lia].
Qed.

Lemma be_bytes_cons n x : be_bytes (S n) x = ascii_of_N (Z.to_N (x / 256 ^ Z.of_nat n mod 256)) :: be_bytes n x.
Proof.
  revert x. induction n as [|n IH]; intros x; [cbn; by rewrite Z.div_1_r|].
  change (be_bytes (S (S n)) x) with (be_bytes (S n) (x / 256) ++ [ascii_of_N (Z.to_N (x mod 256))]). rewrite IH.
  rewrite Z.div_div, <- Z.pow_succ_r, <- Nat2Z.inj_succ by lia. done.
Qed.

Lemma be_bytes_add n x k : 0 <= k → be_bytes n (x + k * 256 ^ Z.of_nat n) = be_bytes n x.
Proof.
  intros Hk. revert x. induction n as [|n IH]; intros x; [done|]. cbn [be_bytes].
  rewrite Nat2Z.inj_succ, Z.pow_succ_r by lia. replace (k * (256 * 256 ^ Z.of_nat n)) with (k * 256 ^ Z.of_nat n * 256) by ring.
  rewrite Z.div_add, Z.mod_add by lia. by rewrite IH.
Qed.

(** A fact about every byte, by evaluation. *)
Lemma bytes_forall (P : N → bool) :
  forallb P (N.of_nat <$> seq 0 256) = true → ∀ a, (a < 256)%N → P a = true.
Proof.
  intros Hall a Ha. rewrite forallb_forall in Hall. apply Hall, list_elem_of_In, list_elem_of_fmap.
  exists (N.to_nat a). split; [by rewrite N2Nat.id|]. apply elem_of_seq. lia.
Qed.

Lemma xor_255 a : (a < 256)%N → N.lxor a 255 = (255 - a)%N.
Proof. intros Ha. apply N.eqb_eq. by apply (bytes_forall (λ a, N.lxor a 255 =? 255 - a)%N). Qed.

Lemma xor_128 a : (a < 128)%N → N.lxor a 128 = (a + 128)%N.
Proof.
  intros Ha. assert ((if (a <? 128)%N then N.lxor a 128 =? a + 128 else true)%N = true) as H.
  { apply (bytes_forall (λ a, if (a <? 128)%N then N.lxor a 128 =? a + 128 else true)%N); [done|lia]. }
  apply N.ltb_lt in Ha. rewrite Ha in H. by apply N.eqb_eq.
Qed.

Lemma xor_all_bits_spec n x :
  0 <= x < 256 ^ Z.of_nat n → xor_all_bits (be_bytes n x) = be_bytes n (256 ^ Z.of_nat n - 1 - x).
Proof.
  revert x. induction n as [|n IH]; intros x Hx; [done|].
  rewrite Nat2Z.inj_succ, Z.pow_succ_r in * by lia. set (p := 256 ^ Z.of_nat n) in *.
  assert (0 <= x mod 256 < 256) by (apply Z.mod_pos_bound; lia).
  pose proof (Z.div_mod x 256).
  assert (0 <= x / 256 < p) by (split; [apply Z.div_pos; lia|apply Z.div_lt_upper_bound; lia]).
  assert ((256 * p - 1 - x) / 256 = p - 1 - x / 256) as Hd
    by (symmetry; apply Z.div_unique with (255 - x mod 256); lia).
  assert ((256 * p - 1 - x) mod 256 = 255 - x mod 256) as Hm
    by (symmetry; apply Z.mod_unique with (p - 1 - x / 256); lia).
  cbn [be_bytes]. unfold xor_all_bits in *. rewrite fmap_app, IH by done. rewrite Hd, Hm.
  cbn [fmap list_fmap]. do 2 f_equal. unfold xor_byte. rewrite byte_of_N by lia. rewrite xor_255 by lia. f_equal. lia.
Qed.

Lemma xor_first_bit_spec x : 0 <= x < 2 ^ 63 → xor_first_bit (to_be_bytes x) = to_be_bytes (x + 2 ^ 63).
Proof.
  intros Hx. unfold to_be_bytes. rewrite (be_bytes_cons 7 x), (be_bytes_cons 7 (x + 2 ^ 63)). change (256 ^ Z.of_nat 7) with (2 ^ 56). cbn [xor_first_bit].
  replace (x + 2 ^ 63) with (x + 128 * 256 ^ Z.of_nat 7) at 2 by (change (256 ^ Z.of_nat 7) with (2 ^ 56); lia).
  rewrite be_bytes_add by lia. f_equal. unfold xor_byte.
  replace (x + 2 ^ 63) with (x + 128 * 2 ^ 56) by lia. rewrite Z.div_add by lia.
  assert (0 <= x / 2 ^ 56 < 128) by (split; [apply Z.div_pos; lia|apply Z.div_lt_upper_bound; lia]).
  rewrite !Z.mod_small by lia. rewrite byte_of_N by lia. rewrite xor_128 by lia. f_equal. lia.
Qed.

(** ** The order of the values *)
Definition scaled_bits (m : Z) : Z := scaled (m / 2 ^ 52) (m mod 2 ^ 52).

Lemma scaled_bits_lt m m' : 0 <= m → m < m' → scaled_bits m < scaled_bits m'.
Proof.
  intros Hm Hlt. unfold scaled_bits, scaled.
  pose proof (Z.mod_pos_bound m (2 ^ 52)). pose proof (Z.mod_pos_bound m' (2 ^ 52)).
  pose proof (Z.div_mod m (2 ^ 52)). pose proof (Z.div_mod m' (2 ^ 52)).
  assert (0 <= m / 2 ^ 52) by (apply Z.div_pos; lia).
  assert (m / 2 ^ 52 <= m' / 2 ^ 52) as Hle by (apply Z.div_le_mono; lia).
  set (e := m / 2 ^ 52) in *. set (e' := m' / 2 ^ 52) in *. set (a := m mod 2 ^ 52) in *. set (a' := m' mod 2 ^ 52) in *.
  destruct (Z.eqb_spec e 0) as [He|He], (Z.eqb_spec e' 0) as [He'|He']; [lia| |lia|].
  - assert (1 <= 2 ^ (e' - 1)) by (apply (Z.pow_le_mono_r 2 0); lia). nia.
  - destruct (Z.eq_dec e e') as [Heq|Hne].
    + rewrite Heq. apply Z.mul_lt_mono_pos_r; [apply Z.pow_pos_nonneg; lia|]. lia.
    + assert (2 * 2 ^ (e - 1) <= 2 ^ (e' - 1)) as Hp.
      { rewrite <- Z.pow_succ_r by lia. apply Z.pow_le_mono_r; lia. }
      assert (0 < 2 ^ (e - 1)) by (apply Z.pow_pos_nonneg; lia). nia.
Qed.

Lemma scaled_bits_0 : scaled_bits 0 = 0.
Proof. done. Qed.

Lemma f64_bits x : f64_ok x → x = (if sign_bit x then 2 ^ 63 else 0) + magnitude_bits x.
Proof.
  intros Hx. unfold f64_ok, sign_bit, magnitude_bits in *.
  pose proof (Z.div_mod x (2 ^ 63)). rewrite Z.testbit_eqb by lia.
  assert (0 <= x / 2 ^ 63 < 2) by (split; [apply Z.div_pos; lia|apply Z.div_lt_upper_bound; lia]).
  rewrite (Z.mod_small _ 2) by lia. destruct (Z.eqb_spec (x / 2 ^ 63) 1); lia.
Qed.

Lemma f64_value_bits x :
  f64_value x = if sign_bit x then - scaled_bits (magnitude_bits x) else scaled_bits (magnitude_bits x).
Proof.
  unfold f64_value, exponent_bits, mantissa_bits, scaled_bits, magnitude_bits.
  replace ((x mod 2 ^ 63) mod 2 ^ 52) with (x mod 2 ^ 52); [done|].
  change (2 ^ 63) with (2 ^ 52 * 2 ^ 11). rewrite Z.rem_mul_r by lia.
  rewrite (Z.mul_comm (2 ^ 52) (_ mod 2 ^ 11)), Z.mod_add by lia. by rewrite Z.mod_mod by lia.
Qed.

(** The 64 bits that [f64_into_bytes] writes. *)
Definition ordered_bits (x : f64) : Z :=
  if is_zero x then 2 ^ 63 else if sign_bit x then 2 ^ 64 - 1 - x else x + 2 ^ 63.

Lemma is_zero_bits x : f64_ok x → is_zero x = (magnitude_bits x =? 0).
Proof.
  intros Hx. unfold is_zero. rewrite f64_value_bits.
  assert (0 <= magnitude_bits x) as Hm by (apply Z.mod_pos_bound; lia).
  destruct (Z.eqb_spec (magnitude_bits x) 0) as [->|Hne]; [by destruct (sign_bit x)|].
  pose proof (scaled_bits_lt 0 (magnitude_bits x)) as Hlt. rewrite scaled_bits_0 in Hlt.
  apply Z.eqb_neq. destruct (sign_bit x); lia.
Qed.

Lemma ordered_bits_ok x : f64_ok x → 0 <= ordered_bits x < 2 ^ 64.
Proof.
  intros Hx. pose proof (f64_bits x Hx) as Hb.
  assert (0 <= magnitude_bits x < 2 ^ 63) by (apply Z.mod_pos_bound; lia).
  unfold ordered_bits. destruct (is_zero x), (sign_bit x); lia.
Qed.

Lemma ordered_bits_lt x y : f64_ok x → f64_ok y → ordered_bits x < ordered_bits y ↔ f64_value x < f64_value y.
Proof.
  intros Hx Hy. unfold ordered_bits. rewrite !is_zero_bits, !f64_value_bits by done.
  pose proof (f64_bits x Hx) as Hbx. pose proof (f64_bits y Hy) as Hby.
  assert (0 <= magnitude_bits x) by (apply Z.mod_pos_bound; lia).
  assert (0 <= magnitude_bits y) by (apply Z.mod_pos_bound; lia).
  set (mx := magnitude_bits x) in *. set (my := magnitude_bits y) in *.
  pose proof (scaled_bits_lt mx my) as H1. pose proof (scaled_bits_lt my mx) as H2.
  pose proof (scaled_bits_lt 0 mx) as H3. pose proof (scaled_bits_lt 0 my) as H4.
  rewrite scaled_bits_0 in H3, H4.
  assert (mx = 0 → scaled_bits mx = 0) by (intros ->; done).
  assert (my = 0 → scaled_bits my = 0) by (intros ->; done).
  assert (mx = my → scaled_bits mx = scaled_bits my) by (intros ->; done).
  generalize dependent (scaled_bits mx). generalize dependent (scaled_bits my). intros.
  destruct (Z.eqb_spec mx 0), (Z.eqb_spec my 0), (sign_bit x), (sign_bit y); lia.
Qed.

Lemma f64_into_bytes_eq x :
  f64_ok x → is_finite x = true → f64_into_bytes x = Some (to_be_bytes (ordered_bits x)).
Proof.
  intros Hx Hfin. unfold f64_into_bytes, ordered_bits, is_sign_negative, is_sign_positive. rewrite Hfin.
  pose proof (f64_bits x Hx) as Hb. assert (0 <= magnitude_bits x < 2 ^ 63) by (apply Z.mod_pos_bound; lia).
  destruct (is_zero x); [by rewrite xor_first_bit_spec by lia|]. destruct (sign_bit x); cbn [negb].
  - unfold to_be_bytes. rewrite (xor_all_bits_spec 8); [done|exact Hx].
  - rewrite xor_first_bit_spec by lia. done.
Qed.

Lemma bytes_encode_eq x :
  f64_ok x → is_finite x = true →
  OrderedF64Codec.bytes_encode x = Some (to_be_bytes (ordered_bits x) ++ to_be_bytes x).
Proof. intros Hx Hfin. unfold OrderedF64Codec.bytes_encode. by rewrite f64_into_bytes_eq. Qed.

Lemma to_be_bytes_lt x y : f64_ok x → f64_ok y → blt (to_be_bytes x) (to_be_bytes y) ↔ x < y.
Proof. intros Hx Hy. by apply (be_bytes_lt 8). Qed.

Lemma blt_app x y x' y' : length x = length y → blt (x ++ x') (y ++ y') ↔ blt x y ∨ x = y ∧ blt x' y'.
Proof.
  revert y. induction x as [|c x IH]; intros [|d y]; cbn; try done; [intros _; naive_solver|].
  intros [= Hlen]. rewrite IH by done. naive_solver.
Qed.

Lemma to_be_bytes_inj x y : f64_ok x → f64_ok y → to_be_bytes x = to_be_bytes y → x = y.
Proof.
  intros Hx Hy Heq. apply (f_equal of_be_bytes) in Heq. unfold to_be_bytes in Heq.
  rewrite !of_be_bytes_be in Heq; done.
Qed.

Lemma encode_lt x y bx bys :
  f64_ok x → f64_ok y → OrderedF64Codec.bytes_encode x = Some bx → OrderedF64Codec.bytes_encode y = Some bys →
  blt bx bys ↔ f64_value x < f64_value y ∨ f64_value x = f64_value y ∧ x < y.
Proof.
  intros Hx Hy Hbx Hby.
  assert (∀ z, is_finite z = true ∨ OrderedF64Codec.bytes_encode z = None) as Hfin.
  { intros z. unfold OrderedF64Codec.bytes_encode, f64_into_bytes. destruct (is_finite z); [by left|by right]. }
  destruct (Hfin x) as [Hfx|]; [|congruence]. destruct (Hfin y) as [Hfy|]; [|congruence].
  rewrite bytes_encode_eq in Hbx, Hby by done.
  assert (bx = to_be_bytes (ordered_bits x) ++ to_be_bytes x) as -> by congruence.
  assert (bys = to_be_bytes (ordered_bits y) ++ to_be_bytes y) as -> by congruence. clear Hbx Hby.
  pose proof (ordered_bits_ok x Hx) as Ox. pose proof (ordered_bits_ok y Hy) as Oy.
  rewrite blt_app by (unfold to_be_bytes; by rewrite !be_bytes_length).
  rewrite !to_be_bytes_lt by done. rewrite ordered_bits_lt by done.
  pose proof (ordered_bits_lt x y Hx Hy). pose proof (ordered_bits_lt y x Hy Hx).
  split; intros [?|[Heq ?]]; [by left|right|by left|right].
  - apply to_be_bytes_inj in Heq; [|done|done]. split; [lia|done].
  - split; [|done]. f_equal. lia.
Qed.

(** *** The order of the keys *)

(** [x] comes before [y] in the order of the keys: -0.0 is after 0.0. *)
Definition before (x y : f64) : Prop := f64_value x < f64_value y ∨ f64_value x = f64_value y ∧ x < y.
#[export] Instance before_dec x y : Decision (before x y).
Proof. unfold before. apply _. Defined.

Lemma f64_value_inj x y : f64_ok x → f64_ok y → f64_value x = f64_value y → f64_value x ≠ 0 → x = y.
Proof.
  intros Hx Hy Heq Hne. pose proof (ordered_bits_lt x y Hx Hy). pose proof (ordered_bits_lt y x Hy Hx).
  assert (ordered_bits x = ordered_bits y) as Ho by lia. clear -Ho Heq Hne Hx Hy. unfold ordered_bits, is_zero in Ho.
  rewrite <- Heq in Ho. destruct (Z.eqb_spec (f64_value x) 0); [done|].
  pose proof (f64_bits x Hx). pose proof (f64_bits y Hy).
  assert (0 <= magnitude_bits x < 2 ^ 63) by (apply Z.mod_pos_bound; lia).
  assert (0 <= magnitude_bits y < 2 ^ 63) by (apply Z.mod_pos_bound; lia).
  destruct (sign_bit x), (sign_bit y); lia.
Qed.

(** [f64::MAX] and [f64::MIN]. *)
Definition f64_MAX : f64 := 9218868437227405311.
Definition f64_MIN : f64 := 18442240474082181119.

Lemma finite_bounds x :
  f64_ok x → is_finite x = true → f64_value f64_MIN <= f64_value x <= f64_value f64_MAX.
Proof.
  intros Hx Hfin. rewrite !f64_value_bits.
  change (sign_bit f64_MIN) with true. change (sign_bit f64_MAX) with false. cbn match.
  change (magnitude_bits f64_MIN) with 9218868437227405311. change (magnitude_bits f64_MAX) with 9218868437227405311.
  assert (0 <= magnitude_bits x < 2 ^ 63) as Hm by (apply Z.mod_pos_bound; lia).
  assert (magnitude_bits x <= 9218868437227405311) as Hle.
  { unfold is_finite, exponent_bits in Hfin. apply negb_true_iff, Z.eqb_neq in Hfin.
    pose proof (Z.div_mod (magnitude_bits x) (2 ^ 52)). pose proof (Z.mod_pos_bound (magnitude_bits x) (2 ^ 52)).
    assert (magnitude_bits x / 2 ^ 52 < 2048) by (apply Z.div_lt_upper_bound; lia). lia. }
  assert (0 <= scaled_bits (magnitude_bits x) <= scaled_bits 9218868437227405311) as Hs.
  { split.
    - destruct (Z.eq_dec (magnitude_bits x) 0) as [->|]; [done|]. rewrite <- scaled_bits_0. apply Z.lt_le_incl, scaled_bits_lt; lia.
    - destruct (Z.eq_dec (magnitude_bits x) 9218868437227405311) as [->|]; [lia|]. apply Z.lt_le_incl, scaled_bits_lt; lia. }
  generalize dependent (scaled_bits 9218868437227405311). intros. destruct (sign_bit x); lia.
Qed.

Lemma encode_before x y bx bys :
  f64_ok x → f64_ok y → OrderedF64Codec.bytes_encode x = Some bx → OrderedF64Codec.bytes_encode y = Some bys →
  blt bx bys ↔ before x y.
Proof. apply encode_lt. Qed.

Lemma encode_finite x : f64_ok x → is_finite x = true → ∃ b, OrderedF64Codec.bytes_encode x = Some b.
Proof. intros Hx Hfin. eexists. by apply bytes_encode_eq. Qed.

(** The keys of two numbers compare as the numbers do; equal numbers, which are
    two zeros of different signs, compare as their bits. *)
Theorem ordered_f64_encode_order x y bx bys :
  f64_ok x → f64_ok y → OrderedF64Codec.bytes_encode x = Some bx → OrderedF64Codec.bytes_encode y = Some bys →
  blt bx bys ↔ f64_value x < f64_value y ∨ f64_value x = f64_value y ∧ x < y.
Proof. apply encode_lt. Qed.

Lemma f64_decode_encode x b :
  f64_ok x → OrderedF64Codec.bytes_encode x = Some b → length b = 16%nat ∧ OrderedF64Codec.bytes_decode b = Some x.
Proof.
  intros Hx Hb. assert (is_finite x = true) as Hfin.
  { unfold OrderedF64Codec.bytes_encode, f64_into_bytes in Hb. by destruct (is_finite x). }
  rewrite bytes_encode_eq in Hb by done. assert (b = to_be_bytes (ordered_bits x) ++ to_be_bytes x) as -> by congruence.
  assert (∀ z, length (to_be_bytes z) = 8%nat) as Hl by (intros; apply be_bytes_length).
  rewrite length_app, !Hl. split; [done|]. unfold OrderedF64Codec.bytes_decode.
  rewrite length_app, !Hl. cbn [Nat.add Nat.ltb Nat.leb]. rewrite drop_app_length' by done. rewrite Hl. cbn [Nat.eqb].
  f_equal. by apply (of_be_bytes_be 8).
Qed.

(** A finite number is encoded in 16 bytes that are read back as its bits; a number
    that is not finite has no encoding. *)
Theorem ordered_f64_round_trip x :
  f64_ok x →
  (is_finite x = true → ∃ b, OrderedF64Codec.bytes_encode x = Some b ∧ length b = 16%nat ∧
    OrderedF64Codec.bytes_decode b = Some x) ∧
  (is_finite x = false → OrderedF64Codec.bytes_encode x = None).
Proof.
  intros Hx. split; intros Hfin.
  - eexists. split; [by apply bytes_encode_eq|]. by apply f64_decode_encode; [|apply bytes_encode_eq].
  - unfold OrderedF64Codec.bytes_encode, f64_into_bytes. by rewrite Hfin.
Qed.

(** The bits of 0.0 and of -0.0. *)
Definition zero : f64 := 0.
Definition minus_zero : f64 := 2 ^ 63.

(** The two zeros are equal numbers with different keys, although the eight ordered
    bytes of both are the same. *)
Lemma zeros_differ :
  f64_value zero = f64_value minus_zero ∧ f64_into_bytes zero = f64_into_bytes minus_zero ∧
  ∃ b b', OrderedF64Codec.bytes_encode zero = Some b ∧ OrderedF64Codec.bytes_encode minus_zero = Some b' ∧ blt b b'.
Proof.
  split; [done|]. split; [by vm_compute|]. eexists _, _. split; [by vm_compute|]. split; [by vm_compute|].
  apply (encode_lt zero minus_zero); [done|done|by vm_compute|by vm_compute|]. right. done.
Qed.

Module Demo.
(** -2.5 is below 1.0. *)
Definition bits_of_minus_2_5 : f64 := 13836183955189006336.
Definition bits_of_1 : f64 := 4607182418800017408.
Definition key_of_minus_2_5 : bytes := default [] (OrderedF64Codec.bytes_encode bits_of_minus_2_5).
Definition key_of_1 : bytes := default [] (OrderedF64Codec.bytes_encode bits_of_1).

Example values : f64_value bits_of_minus_2_5 = -5 * 2 ^ 1073 ∧ f64_value bits_of_1 = 2 ^ 1074.
Proof. split; by vm_compute. Qed.

Lemma ordered_f64_encode_order_witness : blt key_of_minus_2_5 key_of_1.
Proof.
  apply (ordered_f64_encode_order bits_of_minus_2_5 bits_of_1); [by vm_compute|by vm_compute|by vm_compute|by vm_compute|].
  left. by vm_compute.
Defined.

Lemma ordered_f64_round_trip_witness :
  ∃ b, OrderedF64Codec.bytes_encode bits_of_1 = Some b ∧ length b = 16%nat ∧
    OrderedF64Codec.bytes_decode b = Some bits_of_1.
Proof. apply (ordered_f64_round_trip bits_of_1); by vm_compute. Defined.
End Demo.
