(* ===== verification/FacetExtract.v ===== *)
(** * The extraction of the facets of documents
      (milli/src/update/index_documents/extract/extract_fid_docid_facet_values.rs,
      extract_facet_string_docids.rs, extract_facet_number_docids.rs)

    The faceted fields of the documents of a chunk are read as JSON: their numbers and
    strings become the entries of the databases of the values of each document, and
    these entries the new data of the facet databases.  Documents whose field is there,
    null or empty are noted apart.  The normalizer of charabia, the conversion of JSON
    numbers to floats and the sorter of grenad are parameters. *)
From Stdlib Require Import Ascii String.
From S2P Require Import Prelude Json FieldsIdsMap Obkv FacetDb FacetF64 FacetBulk FacetUpdate.
From S2P Require DocumentsIds Concrete.
Import DocumentsIds (DocumentId).

Definition MAX_LMDB_KEY_LENGTH : nat := 500.
Definition MAX_FACET_VALUE_LENGTH : nat := MAX_LMDB_KEY_LENGTH - 20.

(** ** The sorter *)
Inductive SortAlgorithm := Stable | Unstable.

(** The values inserted under a key. *)
Definition inserted_at {K V} `{EqDecision K} (k : K) (ins : list (K * V)) : list V :=
  snd <$> filter (λ e, e.1 = k) ins.

(** A merge function whose result does not depend on the rounds of the merges. *)
Definition merge_assoc {V} (merge : list V → V) : Prop :=
  ∀ before group after, group ≠ [] → merge (before ++ merge group :: after) = merge (before ++ group ++ after).

(** [grenad::Sorter]: each key once, in the order of the keys, with the merge of the
    values inserted under it, in the order of the insertions if the sort is stable. *)
Class GrenadSorter := {
  sorter_into_reader {K V} `{EqDecision K} (lt : K → K → Prop) `{!RelDecision lt} :
    SortAlgorithm → (list V → V) → list (K * V) → list (K * V);
  sorter_sorted {K V} `{EqDecision K} (lt : K → K → Prop) `{!RelDecision lt} a (merge : list V → V) ins :
    StrictOrder lt → (∀ x y, lt x y ∨ x = y ∨ lt y x) → StronglySorted lt (sorter_into_reader lt a merge ins).*1;
  sorter_keys {K V} `{EqDecision K} (lt : K → K → Prop) `{!RelDecision lt} a (merge : list V → V) ins k :
    k ∈ (sorter_into_reader lt a merge ins).*1 ↔ k ∈ ins.*1;
  sorter_values {K V} `{EqDecision K} (lt : K → K → Prop) `{!RelDecision lt} a (merge : list V → V) ins k v :
    merge_assoc merge → (k, v) ∈ sorter_into_reader lt a merge ins →
    ∃ vs, vs ≡ₚ inserted_at k ins ∧ (a = Stable → vs = inserted_at k ins) ∧ v = merge vs
}.

(** [keep_first] and [merge_cbo_roaring_bitmaps]; a sorter merges at least one value. *)
Definition keep_first (values : list bytes) : bytes := default [] (head values).
Definition merge_cbo_roaring_bitmaps (values : list (gset DocumentId)) : gset DocumentId := ⋃ values.

(** ** Extraction *)

(** What a document field contains. *)
Inductive FilterableValues :=
| Null
| Empty
| Values (numbers : list f64) (strings : list (bytes * bytes)).

(** Keys of [FieldDocIdFacetCodec], in the order of their bytes. *)
Abbreviation FacetEntryKey := (FieldId * DocumentId * bytes)%type.
Definition entry_key_lt (k k' : FacetEntryKey) : Prop :=
  let '(f, d, x) := k in let '(f', d', x') := k' in
  (f < f')%N ∨ f = f' ∧ ((d < d')%N ∨ d = d' ∧ blt x x').
#[export] Instance entry_key_lt_dec : RelDecision entry_key_lt.
Proof. intros [[f d] x] [[f' d'] x']. unfold entry_key_lt. apply _. Defined.

#[export] Instance key_lt_rel : RelDecision key_lt := key_lt_dec.

Record ExtractedFacetValues := mkExtracted {
  docid_fid_facet_numbers_chunk : list (FacetEntryKey * bytes);
  docid_fid_facet_strings_chunk : list (FacetEntryKey * bytes);
  fid_facet_is_null_docids_chunk : gmap FieldId (gset DocumentId);
  fid_facet_is_empty_docids_chunk : gmap FieldId (gset DocumentId);
  fid_facet_exists_docids_chunk : gmap FieldId (gset DocumentId)
}.

(** [char_indices().take_while(|(idx, _)| idx + 4 < MAX_FACET_VALUE_LENGTH)] on the
    bytes of a string: a byte 10xxxxxx continues a character. *)
Definition is_char_boundary (c : ascii) : bool := negb (N.land (N_of_ascii c) 192 =? 128)%N.
Fixpoint truncated (idx : nat) (s : bytes) : bytes :=
  match s with
  | [] => []
  | c :: s => if is_char_boundary c && negb (idx + 4 <? MAX_FACET_VALUE_LENGTH) then [] else c :: truncated (S idx) s
  end.

Section extract.
Context {Number : Type} {O : Obkv} {J : SerdeJson Number} {G : GrenadSorter}.
Context (as_f64 : Number → option f64) (normalize_facet : bytes → bytes).

(** [bool::to_string]. *)
Definition bool_to_string (b : bool) : bytes := list_ascii_of_string (if b then "true" else "false").

Fixpoint inner_extract_facet_values (value : Json Number) (can_recurse : bool) (output_numbers : list f64)
    (output_strings : list (bytes * bytes)) : list f64 * list (bytes * bytes) :=
  match value with
  | JNull => (output_numbers, output_strings)
  | JBool b => (output_numbers, output_strings ++ [(bool_to_string b, bool_to_string b)])
  | JNumber number =>
      match as_f64 number with
      | Some float => (output_numbers ++ [float], output_strings)
      | None => (output_numbers, output_strings)
      end
  | JString original =>
      let original := list_ascii_of_string original in
      (output_numbers, output_strings ++ [(normalize_facet original, original)])
  | JArray values =>
      if can_recurse then
        fold_left (λ out value, inner_extract_facet_values value false out.1 out.2) values (output_numbers, output_strings)
      else (output_numbers, output_strings)
  | JObject _ => (output_numbers, output_strings)
  end.

Definition extract_facet_values (value : Json Number) : FilterableValues :=
  match value with
  | JNull => Null
  | JString EmptyString => Empty
  | JArray [] => Empty
  | JObject [] => Empty
  | otherwise => let '(numbers, strings) := inner_extract_facet_values otherwise true [] [] in Values numbers strings
  end.

(** [map.entry(field_id).or_default().insert(document)]. *)
Definition insert_docid (field_id : FieldId) (document : DocumentId) (m : gmap FieldId (gset DocumentId)) :
    gmap FieldId (gset DocumentId) :=
  <[field_id := default ∅ (m !! field_id) ∪ {[document]}]> m.

(** The insertions of a field in the sorters. *)
Definition number_entries (field_id : FieldId) (document : DocumentId) (numbers : list f64) : list (FacetEntryKey * bytes) :=
  omap (λ number, value_bytes ← f64_into_bytes number; Some ((field_id, document, value_bytes ++ to_be_bytes number), [])) numbers.
Definition string_entries (field_id : FieldId) (document : DocumentId) (strings : list (bytes * bytes)) :
    list (FacetEntryKey * bytes) :=
  omap (λ '(normalized, original),
    if bool_decide (normalized = []) then None else Some ((field_id, document, truncated 0 normalized), original)) strings.

Definition extract_field (document : DocumentId) (field_id : FieldId) (field_bytes : bytes) (acc : ExtractedFacetValues) :
    outcome MilliError ExtractedFacetValues :=
  let '(mkExtracted numbers_sorter strings_sorter is_null is_empty facet_exists) := acc in
  let facet_exists := insert_docid field_id document facet_exists in
  value ← ok_or (from_slice field_bytes) SerdeJsonError;
  match extract_facet_values value with
  | Null => Ok (mkExtracted numbers_sorter strings_sorter (insert_docid field_id document is_null) is_empty facet_exists)
  | Empty => Ok (mkExtracted numbers_sorter strings_sorter is_null (insert_docid field_id document is_empty) facet_exists)
  | Values numbers strings =>
      Ok (mkExtracted (numbers_sorter ++ number_entries field_id document numbers)
            (strings_sorter ++ string_entries field_id document strings) is_null is_empty facet_exists)
  end.

Fixpoint extract_fields (faceted_fields : gset FieldId) (document : DocumentId) (obkv : list (FieldId * bytes))
    (acc : ExtractedFacetValues) : outcome MilliError ExtractedFacetValues :=
  match obkv with
  | [] => Ok acc
  | (field_id, field_bytes) :: obkv =>
      if bool_decide (field_id ∈ faceted_fields) then
        acc ← extract_field document field_id field_bytes acc;
        extract_fields faceted_fields document obkv acc
      else extract_fields faceted_fields document obkv acc
  end.

Fixpoint extract_documents (faceted_fields : gset FieldId) (obkv_documents : list (DocumentId * kv)) (acc : ExtractedFacetValues) :
    outcome MilliError ExtractedFacetValues :=
  match obkv_documents with
  | [] => Ok acc
  | (document, obkv) :: obkv_documents =>
      acc ← extract_fields faceted_fields document (kv_iter obkv) acc;
      extract_documents faceted_fields obkv_documents acc
  end.

Definition extract_fid_docid_facet_values (obkv_documents : list (DocumentId * kv)) (faceted_fields : gset FieldId) :
    outcome MilliError ExtractedFacetValues :=
  acc ← extract_documents faceted_fields obkv_documents (mkExtracted [] [] ∅ ∅ ∅);
  Ok (mkExtracted
        (sorter_into_reader entry_key_lt Stable keep_first (docid_fid_facet_numbers_chunk acc))
        (sorter_into_reader entry_key_lt Stable keep_first (docid_fid_facet_strings_chunk acc))
        (fid_facet_is_null_docids_chunk acc) (fid_facet_is_empty_docids_chunk acc) (fid_facet_exists_docids_chunk acc)).

(** ** The new data of the facet databases *)
Definition extract_facet_string_docids (docid_fid_facet_string : list (FacetEntryKey * bytes)) :
    list (FacetGroupKey * gset DocumentId) :=
  sorter_into_reader key_lt Stable merge_cbo_roaring_bitmaps
    ((λ '((field_id, document_id, normalised_value), _),
        (mkKey field_id 0
           (if MAX_FACET_VALUE_LENGTH <? length normalised_value then truncated 0 normalised_value else normalised_value),
         {[document_id]})) <$> docid_fid_facet_string).

(** [FieldDocIdFacetF64Codec] and [OrderedF64Codec]. *)
Definition extract_facet_number_docids (docid_fid_facet_number : list (FacetEntryKey * bytes)) :
    outcome MilliError (list (FacetGroupKey * gset DocumentId)) :=
  ins ← fold_right (λ '((field_id, document_id, b), _) ins,
    ins ← ins;
    match (number ← OrderedF64Codec.bytes_decode b; OrderedF64Codec.bytes_encode number) with
    | Some left_bound => Ok ((mkKey field_id 0 left_bound, {[document_id]}) :: ins)
    | None => Panic "called Option::unwrap on a None value"
    end) (Ok []) docid_fid_facet_number;
  Ok (sorter_into_reader key_lt Unstable merge_cbo_roaring_bitmaps ins).
End extract.

(** ** The lengths of the values *)

(** The bytes of a [str]: at most three bytes continue a character. *)
Fixpoint continues (k : nat) (s : bytes) : Prop :=
  match s with
  | [] => True
  | c :: s =>
      if is_char_boundary c then continues 3 s
      else match k with O => False | S k => continues k s end
  end.
Definition is_str (s : bytes) : Prop := continues 0 s.

Lemma truncated_length idx k s :
  continues k s → idx + k <= 479 → idx + length (truncated idx s) <= 479.
Proof.
  revert idx k. induction s as [|c s IH]; intros idx k Hs Hk; cbn [truncated continues length] in *; [lia|].
  destruct (is_char_boundary c); cbn [andb].
  - destruct (Nat.ltb_spec (idx + 4) MAX_FACET_VALUE_LENGTH) as [Hlt|]; cbn [negb length]; [|lia].
    change MAX_FACET_VALUE_LENGTH with 480 in Hlt. specialize (IH (S idx) 3 Hs). lia.
  - destruct k as [|k]; [done|]. cbn [length]. specialize (IH (S idx) k Hs). lia.
Qed.

Lemma truncated_prefix idx s : truncated idx s `prefix_of` s.
Proof.
  revert idx. induction s as [|c s IH]; intros idx; cbn [truncated]; [done|].
  destruct (_ && _); [apply prefix_nil|]. by apply prefix_cons.
Qed.

Lemma truncated_short idx s : idx + length s <= 476 → truncated idx s = s.
Proof.
  revert idx. induction s as [|c s IH]; intros idx Hl; cbn [truncated length] in *; [done|].
  destruct (Nat.ltb_spec (idx + 4) MAX_FACET_VALUE_LENGTH) as [_|Hge];
    [|change MAX_FACET_VALUE_LENGTH with 480 in Hge; lia].
  rewrite andb_false_r. f_equal. apply IH. lia.
Qed.

Lemma truncated_is_str idx s k : continues k s → continues k (truncated idx s).
Proof.
  revert idx k. induction s as [|c s IH]; intros idx k Hs; cbn [truncated continues] in *; [done|].
  destruct (is_char_boundary c) eqn:Hc; cbn [andb].
  - destruct (negb _); [done|]. cbn [continues]. rewrite Hc. by apply IH.
  - cbn [continues]. rewrite Hc. destruct k; [done|]. by apply IH.
Qed.

(** The value of a string takes at most 479 bytes, so that the keys of the values and
    of the facet databases fit LMDB and no value is truncated twice; up to 476 bytes
    nothing is cut. *)
Theorem truncated_fits field_id s :
  is_str s →
  length (truncated 0 s) <= 479 ∧ valid_lmdb_key (mkKey field_id 0 (truncated 0 s)) = true ∧
  2 + 4 + length (truncated 0 s) <= MAX_LMDB_KEY_LENGTH ∧
  truncated 0 s `prefix_of` s ∧ is_str (truncated 0 s) ∧ (length s <= 476 → truncated 0 s = s).
Proof.
  intros Hs. assert (length (truncated 0 s) <= 479) as Hl by (apply (truncated_length 0 0 s); [done|lia]).
  assert (3 + length (truncated 0 s) <= 500) as Hl' by lia.
  split_and!; [done| |unfold MAX_LMDB_KEY_LENGTH; lia|apply truncated_prefix|by apply truncated_is_str|apply (truncated_short 0)].
  unfold valid_lmdb_key, max_word_length. cbn [left_bound]. by apply Nat.leb_le.
Qed.

(** The documents of a field in a map. *)
Abbreviation docids_at f m := (default (∅ : gset DocumentId) (m !! f)).

(** ** The values of the documents *)
Section values.
Context {Number : Type} {O : Obkv} {J : SerdeJson Number} {G : GrenadSorter}.
Context (as_f64 : Number → option f64) (normalize_facet : bytes → bytes).

(** The scalars of a field: itself or the elements of its array. *)
Definition scalars (value : Json Number) : list (Json Number) :=
  match value with
  | JArray values => values
  | JString EmptyString => []
  | value => [value]
  end.

(** The facet value of a scalar. *)
Definition scalar_value (t : FacetType) (value : Json Number) : option bytes :=
  match t, value with
  | Numbers, JNumber number => float ← as_f64 number; OrderedF64Codec.bytes_encode float
  | Strings, JBool b => Some (bool_to_string b)
  | Strings, JString s =>
      let normalized := normalize_facet (list_ascii_of_string s) in
      if bool_decide (normalized = []) then None else Some (truncated 0 normalized)
  | _, _ => None
  end.

Definition field_values (t : FacetType) (value : Json Number) : list bytes := omap (scalar_value t) (scalars value).

(** The field [f] of the document [d] of the chunk is [value]. *)
Definition doc_field (docs : list (DocumentId * kv)) (f : FieldId) (d : DocumentId) (value : Json Number) : Prop :=
  ∃ obkv b, (d, obkv) ∈ docs ∧ (f, b) ∈ kv_iter obkv ∧ from_slice b = Some value.

(** Every faceted field can be read. *)
Definition docs_readable (faceted : gset FieldId) (docs : list (DocumentId * kv)) : Prop :=
  ∀ d obkv f b, (d, obkv) ∈ docs → (f, b) ∈ kv_iter obkv → f ∈ faceted → is_Some (from_slice (Number := Number) b).

(** What a scalar adds. *)
Definition scalar_number (value : Json Number) : list f64 :=
  match value with JNumber number => match as_f64 number with Some float => [float] | None => [] end | _ => [] end.
Definition scalar_string (value : Json Number) : list (bytes * bytes) :=
  match value with
  | JBool b => [(bool_to_string b, bool_to_string b)]
  | JString s => [(normalize_facet (list_ascii_of_string s), list_ascii_of_string s)]
  | _ => []
  end.

Lemma inner_scalar value ns ss :
  inner_extract_facet_values as_f64 normalize_facet value false ns ss = (ns ++ scalar_number value, ss ++ scalar_string value).
Proof.
  destruct value; cbn; rewrite ?app_nil_r; try done.
  destruct (as_f64 n); [done|by rewrite app_nil_r].
Qed.

Lemma inner_array values ns ss :
  fold_left (λ out value, inner_extract_facet_values as_f64 normalize_facet value false out.1 out.2) values (ns, ss) =
    (ns ++ concat (scalar_number <$> values), ss ++ concat (scalar_string <$> values)).
Proof.
  revert ns ss. induction values as [|v vs IH]; intros ns ss; cbn [fold_left]; [cbn; by rewrite !app_nil_r|].
  rewrite inner_scalar. cbn [fst snd]. rewrite IH, !fmap_cons. cbn [concat]. by rewrite <- !app_assoc.
Qed.

(** What a field adds to the sorters. *)
Definition field_numbers (value : Json Number) : list f64 := concat (scalar_number <$> scalars value).
Definition field_strings (value : Json Number) : list (bytes * bytes) := concat (scalar_string <$> scalars value).

Lemma extract_facet_values_spec value :
  match extract_facet_values as_f64 normalize_facet value with
  | Values ns ss => ns = field_numbers value ∧ ss = field_strings value
  | _ => field_numbers value = [] ∧ field_strings value = []
  end.
Proof.
  destruct value as [|b|n|s|a|o]; [done|done| | | |].
  - cbn. unfold field_numbers, field_strings. cbn. destruct (as_f64 n); cbn; by rewrite ?app_nil_r.
  - destruct s; done.
  - unfold extract_facet_values. destruct a as [|v a]; [done|]. cbn [inner_extract_facet_values].
    rewrite inner_array. done.
  - destruct o; done.
Qed.

Lemma elem_of_number_entries f d (value : Json Number) k :
  k ∈ (number_entries f d (field_numbers value)).*1 ↔ ∃ x, k = (f, d, x) ∧ x ∈ field_values Numbers value.
Proof.
  unfold number_entries, field_numbers, field_values.
  induction (scalars value) as [|v vs IH]; [cbn; split; [by intros ?%not_elem_of_nil|by intros (? & _ & ?%not_elem_of_nil)]|].
  rewrite fmap_cons. cbn [concat]. rewrite omap_app, fmap_app, elem_of_app, IH.
  setoid_rewrite (list_elem_of_omap (scalar_value Numbers)). setoid_rewrite elem_of_cons.
  assert (k ∈ (omap (λ number, value_bytes ← f64_into_bytes number;
      Some ((f, d, value_bytes ++ to_be_bytes number), @nil ascii)) (scalar_number v)).*1 ↔
    ∃ x, k = (f, d, x) ∧ scalar_value Numbers v = Some x) as ->; [|naive_solver].
  destruct v; cbn; try (split; [by intros ?%not_elem_of_nil|by intros (? & _ & ?)]).
  unfold OrderedF64Codec.bytes_encode. destruct (as_f64 n) as [x|]; cbn; [|split; [by intros ?%not_elem_of_nil|by intros (? & _ & ?)]].
  destruct (f64_into_bytes x); cbn; [rewrite list_elem_of_singleton; naive_solver|].
  split; [by intros ?%not_elem_of_nil|by intros (? & _ & ?)].
Qed.

Lemma elem_of_string_entries f d (value : Json Number) k :
  k ∈ (string_entries f d (field_strings value)).*1 ↔ ∃ x, k = (f, d, x) ∧ x ∈ field_values Strings value.
Proof.
  unfold string_entries, field_strings, field_values.
  induction (scalars value) as [|v vs IH]; [cbn; split; [by intros ?%not_elem_of_nil|by intros (? & _ & ?%not_elem_of_nil)]|].
  rewrite fmap_cons. cbn [concat]. rewrite omap_app, fmap_app, elem_of_app, IH.
  setoid_rewrite (list_elem_of_omap (scalar_value Strings)). setoid_rewrite elem_of_cons.
  match goal with |- (k ∈ (omap ?g _).*1) ∨ _ ↔ _ => assert (k ∈ (omap g (scalar_string v)).*1 ↔
    ∃ x, k = (f, d, x) ∧ scalar_value Strings v = Some x) as ->; [|naive_solver] end.
  destruct v as [|[]| |s| |]; cbn; try (split; [by intros ?%not_elem_of_nil|by intros (? & _ & ?)]).
  - rewrite list_elem_of_singleton. naive_solver.
  - rewrite list_elem_of_singleton. naive_solver.
  - case_bool_decide; cbn; [split; [by intros ?%not_elem_of_nil|by intros (? & _ & ?)]|].
    rewrite list_elem_of_singleton. naive_solver.
Qed.
(** *** Extraction *)

(** An empty string, array or object. *)
Definition empty_value (value : Json Number) : bool :=
  match value with JString EmptyString | JArray [] | JObject [] => true | _ => false end.

Definition chunk_of (t : FacetType) (ext : ExtractedFacetValues) : list (FacetEntryKey * bytes) :=
  match t with Strings => docid_fid_facet_strings_chunk ext | Numbers => docid_fid_facet_numbers_chunk ext end.

(** [ext'] has what [ext] has and the values of the fields of [P]. *)
Record adds (P : FieldId → DocumentId → Json Number → Prop) (ext ext' : ExtractedFacetValues) : Prop := {
  adds_values t k : k ∈ (chunk_of t ext').*1 ↔
    k ∈ (chunk_of t ext).*1 ∨ ∃ f d v x, P f d v ∧ k = (f, d, x) ∧ x ∈ field_values t v;
  adds_null f d : d ∈ docids_at f (fid_facet_is_null_docids_chunk ext') ↔
    d ∈ docids_at f (fid_facet_is_null_docids_chunk ext) ∨ P f d JNull;
  adds_empty f d : d ∈ docids_at f (fid_facet_is_empty_docids_chunk ext') ↔
    d ∈ docids_at f (fid_facet_is_empty_docids_chunk ext) ∨ ∃ v, P f d v ∧ empty_value v = true;
  adds_exists f d : d ∈ docids_at f (fid_facet_exists_docids_chunk ext') ↔
    d ∈ docids_at f (fid_facet_exists_docids_chunk ext) ∨ ∃ v, P f d v
}.

Lemma adds_nothing (P : FieldId → DocumentId → Json Number → Prop) ext : (∀ f d v, ¬ P f d v) → adds P ext ext.
Proof. intros HP. split; intros; naive_solver. Qed.

Lemma adds_trans P Q R ext1 ext2 ext3 :
  adds P ext1 ext2 → adds Q ext2 ext3 → (∀ f d v, R f d v ↔ P f d v ∨ Q f d v) → adds R ext1 ext3.
Proof.
  intros H1 H2 HR. split; intros.
  - rewrite (adds_values _ _ _ H2), (adds_values _ _ _ H1). setoid_rewrite HR. naive_solver.
  - rewrite (adds_null _ _ _ H2), (adds_null _ _ _ H1). rewrite HR. naive_solver.
  - rewrite (adds_empty _ _ _ H2), (adds_empty _ _ _ H1). setoid_rewrite HR. naive_solver.
  - rewrite (adds_exists _ _ _ H2), (adds_exists _ _ _ H1). setoid_rewrite HR. naive_solver.
Qed.

Lemma elem_of_insert_docid f d m f' d' :
  d' ∈ docids_at f' (insert_docid f d m) ↔ d' ∈ docids_at f' m ∨ f' = f ∧ d' = d.
Proof.
  unfold insert_docid. destruct (decide (f' = f)) as [->|Hne]; [|rewrite lookup_insert_ne by done; naive_solver].
  rewrite lookup_insert_eq. cbn. rewrite elem_of_union, elem_of_singleton. naive_solver.
Qed.

Lemma extract_field_spec d f b v ext :
  from_slice b = Some v →
  ∃ ext', extract_field as_f64 normalize_facet d f b ext = Ok ext' ∧
    adds (λ f' d' v', f' = f ∧ d' = d ∧ v' = v) ext ext'.
Proof.
  intros Hb. destruct ext as [ns ss nl em ex]. unfold extract_field. rewrite Hb. cbn [ok_or mbind outcome_bind].
  pose proof (extract_facet_values_spec v) as Hv.
  assert (∀ t, field_numbers v = [] → field_strings v = [] → field_values t v = []) as Hnone.
  { intros t Hn Hs. apply elem_of_nil_inv. intros x Hx. destruct t.
    - assert ((f, d, x) ∈ (string_entries f d (field_strings v)).*1) as He by (apply elem_of_string_entries; by exists x).
      rewrite Hs in He. by apply not_elem_of_nil in He.
    - assert ((f, d, x) ∈ (number_entries f d (field_numbers v)).*1) as He by (apply elem_of_number_entries; by exists x).
      rewrite Hn in He. by apply not_elem_of_nil in He. }
  destruct (extract_facet_values as_f64 normalize_facet v) as [| |xs ys] eqn:He; eexists; (split; [done|]).
  - destruct Hv as [Hn Hs]. assert (v = JNull) as ->.
    { unfold extract_facet_values in He. repeat case_match; done. }
    split; cbn [chunk_of docid_fid_facet_numbers_chunk docid_fid_facet_strings_chunk fid_facet_is_null_docids_chunk
      fid_facet_is_empty_docids_chunk fid_facet_exists_docids_chunk].
    + intros t k. split; [by left|]. intros [?|(? & ? & ? & x & (-> & -> & ->) & _ & Hx)]; [by destruct t|].
      rewrite Hnone in Hx by done. by apply not_elem_of_nil in Hx.
    + intros. rewrite elem_of_insert_docid. naive_solver.
    + naive_solver.
    + intros. rewrite elem_of_insert_docid. naive_solver.
  - destruct Hv as [Hn Hs]. assert (empty_value v = true ∧ v ≠ JNull) as [Hempty Hnull].
    { unfold extract_facet_values in He. repeat case_match; done. }
    split; cbn [chunk_of docid_fid_facet_numbers_chunk docid_fid_facet_strings_chunk fid_facet_is_null_docids_chunk
      fid_facet_is_empty_docids_chunk fid_facet_exists_docids_chunk].
    + intros t k. split; [by left|]. intros [?|(? & ? & ? & x & (-> & -> & ->) & _ & Hx)]; [by destruct t|].
      rewrite Hnone in Hx by done. by apply not_elem_of_nil in Hx.
    + naive_solver.
    + intros. rewrite elem_of_insert_docid. naive_solver.
    + intros. rewrite elem_of_insert_docid. naive_solver.
  - destruct Hv as [-> ->]. assert (empty_value v = false ∧ v ≠ JNull) as [Hempty Hnull].
    { unfold extract_facet_values in He. repeat case_match; done. }
    split; cbn [chunk_of docid_fid_facet_numbers_chunk docid_fid_facet_strings_chunk fid_facet_is_null_docids_chunk
      fid_facet_is_empty_docids_chunk fid_facet_exists_docids_chunk].
    + intros [] k; cbn [chunk_of docid_fid_facet_numbers_chunk docid_fid_facet_strings_chunk];
        rewrite fmap_app, elem_of_app, ?elem_of_number_entries, ?elem_of_string_entries; naive_solver.
    + naive_solver.
    + intros f0 d0. split; [by left|]. intros [?|(v0 & (-> & -> & ->) & Hv0)]; [done|congruence].
    + intros. rewrite elem_of_insert_docid. naive_solver.
Qed.

Lemma extract_fields_spec faceted d obkv ext :
  (∀ f b, (f, b) ∈ obkv → f ∈ faceted → is_Some (from_slice (Number := Number) b)) →
  ∃ ext', extract_fields as_f64 normalize_facet faceted d obkv ext = Ok ext' ∧
    adds (λ f' d' v', f' ∈ faceted ∧ d' = d ∧ ∃ b, (f', b) ∈ obkv ∧ from_slice b = Some v') ext ext'.
Proof.
  revert ext. induction obkv as [|[f b] obkv IH]; intros ext Hread; cbn [extract_fields].
  { exists ext. split; [done|]. apply adds_nothing. by intros f' d' v' (_ & _ & ? & ?%not_elem_of_nil & _). }
  assert (∀ f' b', (f', b') ∈ obkv → f' ∈ faceted → is_Some (from_slice (Number := Number) b')) as Hread'
    by (intros f' b' Hin; apply Hread; by right).
  case_bool_decide as Hf.
  - destruct (Hread f b ltac:(left) Hf) as [v Hv]. destruct (extract_field_spec d f b v ext Hv) as (ext1 & -> & H1).
    cbn [mbind outcome_bind]. destruct (IH ext1 Hread') as (ext2 & -> & H2). exists ext2. split; [done|].
    eapply adds_trans; [exact H1|exact H2|]. intros f' d' v'. cbn. setoid_rewrite elem_of_cons. naive_solver.
  - destruct (IH ext Hread') as (ext2 & -> & H2). exists ext2. split; [done|].
    eapply adds_trans; [by apply (adds_nothing (λ _ _ _, False)); naive_solver|exact H2|]. intros f' d' v'. cbn.
    setoid_rewrite elem_of_cons. naive_solver.
Qed.

Lemma extract_documents_spec faceted docs ext :
  docs_readable faceted docs →
  ∃ ext', extract_documents as_f64 normalize_facet faceted docs ext = Ok ext' ∧
    adds (λ f d v, f ∈ faceted ∧ doc_field docs f d v) ext ext'.
Proof.
  revert ext. induction docs as [|[d obkv] docs IH]; intros ext Hread; cbn [extract_documents].
  { exists ext. split; [done|]. apply adds_nothing. by intros f d v (_ & ? & ? & ?%not_elem_of_nil & _). }
  destruct (extract_fields_spec faceted d (kv_iter obkv) ext) as (ext1 & -> & H1).
  { intros f b Hin. apply (Hread d obkv f b); [left|done]. }
  cbn [mbind outcome_bind]. destruct (IH ext1) as (ext2 & -> & H2).
  { intros d' o' f' b' Hin. apply (Hread d' o'). by right. }
  exists ext2. split; [done|]. eapply adds_trans; [exact H1|exact H2|]. intros f' d' v'. cbn. unfold doc_field.
  setoid_rewrite elem_of_cons. naive_solver.
Qed.
(** *** The order of the entries *)
Lemma entry_key_strict : StrictOrder entry_key_lt.
Proof.
  split.
  - intros [[f d] x]. unfold entry_key_lt, complement. intros [?|[_ [?|[_ ?%blt_irrefl]]]]; [lia|lia|done].
  - intros [[f1 d1] x1] [[f2 d2] x2] [[f3 d3] x3]. unfold entry_key_lt.
    intros [?|[-> H1]] [?|[-> H2]]; [left; lia..|right; split; [done|]].
    destruct H1 as [?|[-> ?]], H2 as [?|[-> ?]]; [left; lia..|right; split; [done|]]. by eapply blt_trans.
Qed.

Lemma entry_key_total k k' : entry_key_lt k k' ∨ k = k' ∨ entry_key_lt k' k.
Proof.
  destruct k as [[f d] x], k' as [[f' d'] x']. unfold entry_key_lt.
  destruct (N.lt_total f f') as [?|[->|?]]; [by left; left| |by right; right; left].
  destruct (N.lt_total d d') as [?|[->|?]]; [left; right; by auto| |right; right; right; by auto].
  destruct (blt_total x x') as [?|[->|?]]; [left; right; by auto|by right; left|right; right; right; by auto].
Qed.

Lemma key_lt_strict : StrictOrder key_lt.
Proof. split; [intros k; apply key_lt_irrefl|intros k1 k2 k3; apply key_lt_trans]. Qed.

(** *** [extract_fid_docid_facet_values] *)
Definition extracted (faceted : gset FieldId) (docs : list (DocumentId * kv)) (ext : ExtractedFacetValues) : Prop :=
  (∀ t, StronglySorted entry_key_lt (chunk_of t ext).*1) ∧
  (∀ t f d x, (f, d, x) ∈ (chunk_of t ext).*1 ↔ f ∈ faceted ∧ ∃ v, doc_field docs f d v ∧ x ∈ field_values t v) ∧
  (∀ f d, d ∈ docids_at f (fid_facet_is_null_docids_chunk ext) ↔ f ∈ faceted ∧ doc_field docs f d JNull) ∧
  (∀ f d, d ∈ docids_at f (fid_facet_is_empty_docids_chunk ext) ↔
    f ∈ faceted ∧ ∃ v, doc_field docs f d v ∧ empty_value v = true) ∧
  (∀ f d, d ∈ docids_at f (fid_facet_exists_docids_chunk ext) ↔ f ∈ faceted ∧ ∃ v, doc_field docs f d v).

Lemma extract_correct faceted docs :
  docs_readable faceted docs →
  ∃ ext, extract_fid_docid_facet_values as_f64 normalize_facet docs faceted = Ok ext ∧ extracted faceted docs ext.
Proof.
  intros Hread. unfold extract_fid_docid_facet_values.
  destruct (extract_documents_spec faceted docs (mkExtracted [] [] ∅ ∅ ∅) Hread) as (acc & -> & Hadds).
  cbn [mbind outcome_bind]. eexists. split; [done|]. split_and!.
  - intros []; apply sorter_sorted; (apply entry_key_strict || apply entry_key_total).
  - intros t f d x. assert (∀ k, k ∈ (chunk_of t acc).*1 ↔ ∃ f d v x, (f ∈ faceted ∧ doc_field docs f d v) ∧ k = (f, d, x) ∧ x ∈ field_values t v) as Hk.
    { intros k. rewrite (adds_values _ _ _ Hadds). split; [|by right]. intros [Hin|?]; [|done].
      destruct t; by apply not_elem_of_nil in Hin. }
    transitivity ((f, d, x) ∈ (chunk_of t acc).*1); [destruct t; apply sorter_keys|]. rewrite Hk. naive_solver.
  - intros f d. cbn [fid_facet_is_null_docids_chunk]. rewrite (adds_null _ _ _ Hadds). cbn. rewrite lookup_empty. cbn. set_solver.
  - intros f d. cbn [fid_facet_is_empty_docids_chunk]. rewrite (adds_empty _ _ _ Hadds). cbn. rewrite lookup_empty. cbn. set_solver.
  - intros f d. cbn [fid_facet_exists_docids_chunk]. rewrite (adds_exists _ _ _ Hadds). cbn. rewrite lookup_empty. cbn. set_solver.
Qed.

(** *** The new data *)
Lemma elem_of_inserted_at {K V} `{EqDecision K} (k : K) (ins : list (K * V)) v : v ∈ inserted_at k ins ↔ (k, v) ∈ ins.
Proof.
  unfold inserted_at. rewrite list_elem_of_fmap. split.
  - intros ([k' v'] & -> & [Hk Hin]%list_elem_of_filter). cbn in *. by subst.
  - intros Hin. exists (k, v). split; [done|]. by apply list_elem_of_filter.
Qed.

Lemma merge_assoc_union : merge_assoc merge_cbo_roaring_bitmaps.
Proof.
  intros before group after _. unfold merge_cbo_roaring_bitmaps. rewrite !union_list_app_L. cbn. done.
Qed.

(** The documents of a key that is inserted with one document at a time. *)
Lemma sorter_docids a (ins : list (FacetGroupKey * gset DocumentId)) k d :
  (∃ ds, (k, ds) ∈ sorter_into_reader key_lt a merge_cbo_roaring_bitmaps ins ∧ d ∈ ds) ↔
  ∃ ds, (k, ds) ∈ ins ∧ d ∈ ds.
Proof.
  assert (∀ ds, (k, ds) ∈ sorter_into_reader key_lt a merge_cbo_roaring_bitmaps ins → d ∈ ds ↔ ∃ ds', (k, ds') ∈ ins ∧ d ∈ ds') as Hv.
  { intros ds Hin. apply sorter_values in Hin as (vs & Hvs & _ & ->); [|apply merge_assoc_union].
    unfold merge_cbo_roaring_bitmaps. rewrite elem_of_union_list. split.
    - intros (X & HX & Hd). rewrite Hvs in HX. exists X. split; [by apply elem_of_inserted_at|done].
    - intros (X & HX & Hd). exists X. rewrite Hvs. split; [by apply elem_of_inserted_at|done]. }
  split.
  - intros (ds & Hin & Hd). by apply Hv in Hd.
  - intros (ds' & Hin & Hd). assert (k ∈ (sorter_into_reader key_lt a merge_cbo_roaring_bitmaps ins).*1) as Hk.
    { apply sorter_keys. by apply (list_elem_of_fmap_2 fst) in Hin. }
    apply list_elem_of_fmap in Hk as ([k' ds] & -> & Hk). exists ds. split; [done|]. apply (Hv ds Hk). by exists ds'.
Qed.

Lemma elem_of_new_docids nd f x d :
  d ∈ new_docids nd f x ↔ valid_lmdb_key (mkKey f 0 x) = true ∧ ∃ ds, (mkKey f 0 x, ds) ∈ nd ∧ d ∈ ds.
Proof.
  induction nd as [|[k dk] nd IH]; cbn [new_docids].
  { split; [by intros ?%elem_of_empty|by intros (_ & ? & ?%not_elem_of_nil & _)]. }
  setoid_rewrite elem_of_cons. case_decide as Hk.
  - destruct Hk as [-> Hv]. rewrite elem_of_union, IH. naive_solver.
  - rewrite IH. naive_solver.
Qed.

(** The new data of the entries of a chunk. *)
Definition data_of (entries : list (FacetEntryKey * bytes)) (nd : list (FacetGroupKey * gset DocumentId)) : Prop :=
  StronglySorted key_lt nd.*1 ∧ (∀ k d, (k, d) ∈ nd → gk_level k = 0 ∧ ∃ d x, (field_id k, d, x) ∈ entries.*1) ∧
  ∀ f x d, d ∈ new_docids nd f x ↔ (f, d, x) ∈ entries.*1.

(** Insertions that keep the values. *)
Definition inserted_entry (e : FacetEntryKey * bytes) : FacetGroupKey * gset DocumentId :=
  (mkKey e.1.1.1 0 e.1.2, {[e.1.1.2]}).

Lemma sorted_data a entries (ins : list (FacetGroupKey * gset DocumentId)) :
  ins = inserted_entry <$> entries →
  (∀ f d x, (f, d, x) ∈ entries.*1 → length x <= 479) →
  data_of entries (sorter_into_reader key_lt a merge_cbo_roaring_bitmaps ins).
Proof.
  intros Hins Hlen.
  assert (∀ k d, (∃ ds, (k, ds) ∈ ins ∧ d ∈ ds) ↔ gk_level k = 0 ∧ (field_id k, d, left_bound k) ∈ entries.*1) as Hel.
  { intros k d. rewrite Hins. split.
    - intros (ds & Hin & Hd). apply list_elem_of_fmap in Hin as ([[[f d'] x] o] & [= -> ->] & Hin).
      apply elem_of_singleton in Hd as ->. split; [done|]. by apply (list_elem_of_fmap_2 fst) in Hin.
    - intros [Hl Hin]. apply list_elem_of_fmap in Hin as ([k' o] & Heq & Hin). cbn in Heq. subst k'.
      exists {[d]}. split; [|by apply elem_of_singleton]. apply list_elem_of_fmap. exists ((field_id k, d, left_bound k), o).
      split; [|done]. destruct k; cbn in *. by subst. }
  split_and!.
  - apply sorter_sorted; [apply key_lt_strict|apply key_lt_total].
  - intros k ds Hin. assert (k ∈ ins.*1) as Hk.
    { apply (sorter_keys key_lt a merge_cbo_roaring_bitmaps). by apply (list_elem_of_fmap_2 fst) in Hin. }
    rewrite Hins in Hk. apply list_elem_of_fmap in Hk as ([k' X] & -> & Hk).
    apply list_elem_of_fmap in Hk as ([[[f d'] x] o] & [= -> ->] & Hk). split; [done|]. exists d', x.
    by apply (list_elem_of_fmap_2 fst) in Hk.
  - intros f x d. rewrite elem_of_new_docids, sorter_docids, Hel. cbn [gk_level field_id left_bound]. split; [naive_solver|].
    intros Hin. split; [|done]. apply Hlen in Hin. unfold valid_lmdb_key, max_word_length. cbn [left_bound]. apply Nat.leb_le. lia.
Qed.
Lemma extracted_string faceted docs ext f d x :
  (∀ s, is_str (normalize_facet s)) → extracted faceted docs ext →
  (f, d, x) ∈ (docid_fid_facet_strings_chunk ext).*1 → length x <= 479.
Proof.
  intros Hnorm (_ & Hv & _) Hin. apply (Hv Strings) in Hin as (_ & v & _ & Hx).
  apply list_elem_of_omap in Hx as (s & _ & Hs). destruct s as [|[]|n|s| |]; cbn in Hs; try done.
  - injection Hs as <-. cbn. lia.
  - injection Hs as <-. cbn. lia.
  - case_bool_decide; [done|]. injection Hs as <-. apply (truncated_length 0 0); [apply Hnorm|lia].
Qed.

Lemma string_data faceted docs ext :
  (∀ s, is_str (normalize_facet s)) → extracted faceted docs ext →
  data_of (docid_fid_facet_strings_chunk ext) (extract_facet_string_docids (docid_fid_facet_strings_chunk ext)).
Proof.
  intros Hnorm Hext. pose proof (λ f d x, extracted_string faceted docs ext f d x Hnorm Hext) as Hlen.
  apply sorted_data; [|exact Hlen]. unfold extract_facet_string_docids. apply list_fmap_ext.
  intros i [[[f d] x] o] Hi. apply list_elem_of_lookup_2, (list_elem_of_fmap_2 fst) in Hi. apply Hlen in Hi.
  destruct (Nat.ltb_spec MAX_FACET_VALUE_LENGTH (length x)) as [Hlt|]; [|done].
  change MAX_FACET_VALUE_LENGTH with 480 in Hlt. lia.
Qed.

(** What [as_f64] gives is a float. *)
Definition floats_ok : Prop := ∀ n x, as_f64 n = Some x → f64_ok x.

Lemma extracted_number faceted docs ext f d x :
  floats_ok → extracted faceted docs ext → (f, d, x) ∈ (docid_fid_facet_numbers_chunk ext).*1 →
  length x = 16 ∧ ∃ float, OrderedF64Codec.bytes_decode x = Some float ∧ OrderedF64Codec.bytes_encode float = Some x.
Proof.
  intros Hf (_ & Hv & _) Hin. apply (Hv Numbers) in Hin as (_ & v & _ & Hx).
  apply list_elem_of_omap in Hx as (s & _ & Hs). destruct s as [| |n| | |]; cbn in Hs; try done.
  destruct (as_f64 n) as [float|] eqn:Hn; cbn in Hs; [|done]. apply Hf in Hn.
  destruct (f64_decode_encode float x Hn Hs) as [Hl Hd]. split; [done|]. by exists float.
Qed.

Lemma number_data faceted docs ext :
  floats_ok → extracted faceted docs ext →
  ∃ nd, extract_facet_number_docids (docid_fid_facet_numbers_chunk ext) = Ok nd ∧
    data_of (docid_fid_facet_numbers_chunk ext) nd.
Proof.
  intros Hf Hext. pose proof (λ f d x, extracted_number faceted docs ext f d x Hf Hext) as Hnum.
  unfold extract_facet_number_docids. set (entries := docid_fid_facet_numbers_chunk ext) in *.
  assert (∀ l, (∀ e, e ∈ l → e ∈ entries) →
    fold_right (λ '((field_id, document_id, b), _) ins,
      ins ← ins;
      match (number ← OrderedF64Codec.bytes_decode b; OrderedF64Codec.bytes_encode number) with
      | Some left_bound => Ok ((mkKey field_id 0 left_bound, {[document_id]}) :: ins)
      | None => Panic "called Option::unwrap on a None value"
      end) (Ok []) l = Ok (E := MilliError) (inserted_entry <$> l)) as Hins.
  { induction l as [|[[[f d] x] o] l IH]; intros Hl; [done|]. cbn [fold_right]. rewrite IH by (intros e He; apply Hl; by right).
    cbn [mbind outcome_bind]. destruct (Hnum f d x) as (_ & float & Hd & He).
    { apply (list_elem_of_fmap_2 fst _ (f, d, x, o)), Hl. left. }
    rewrite Hd. cbn [mbind option_bind]. rewrite He. done. }
  rewrite Hins by done. cbn [mbind outcome_bind]. eexists. split; [done|]. apply sorted_data; [done|].
  intros f d x Hin. destruct (Hnum f d x Hin) as [-> _]. lia.
Qed.
End values.

(** ** A sorter *)
Section insertion.
Context {K : Type} `{EqDecision K} (lt : K → K → Prop) `{!RelDecision lt}.

Fixpoint insert_key (k : K) (ks : list K) : list K :=
  match ks with
  | [] => [k]
  | k' :: ks => if decide (k = k') then k' :: ks else if decide (lt k k') then k :: k' :: ks else k' :: insert_key k ks
  end.

Definition insertion_sort {V} (merge : list V → V) (ins : list (K * V)) : list (K * V) :=
  (λ k, (k, merge (inserted_at k ins))) <$> foldr insert_key [] ins.*1.

Lemma elem_of_insert_key k ks k' : k' ∈ insert_key k ks ↔ k' = k ∨ k' ∈ ks.
Proof.
  induction ks as [|k1 ks IH]; cbn [insert_key]; [by rewrite list_elem_of_singleton; set_solver|].
  repeat case_decide; rewrite ?elem_of_cons, ?IH; set_solver.
Qed.

Lemma elem_of_insert_keys ks k : k ∈ foldr insert_key [] ks ↔ k ∈ ks.
Proof. induction ks as [|k1 ks IH]; cbn [foldr]; [done|]. by rewrite elem_of_insert_key, IH, elem_of_cons. Qed.

Lemma insert_key_sorted k ks :
  StrictOrder lt → (∀ x y, lt x y ∨ x = y ∨ lt y x) → StronglySorted lt ks → StronglySorted lt (insert_key k ks).
Proof.
  intros Hso Htot. induction 1 as [|k1 ks Hs IH Hk]; cbn [insert_key]; [repeat constructor|].
  destruct (decide (k = k1)) as [->|Hne]; [by constructor|]. rewrite Forall_forall in Hk.
  destruct (decide (lt k k1)) as [Hlt|Hge].
  - constructor; [by constructor; [|apply Forall_forall]|]. apply Forall_forall. intros x [->|Hx]%elem_of_cons; [done|].
    transitivity k1; [done|by apply Hk].
  - constructor; [done|]. apply Forall_forall. intros x [->|Hx]%elem_of_insert_key; [|by apply Hk].
    by destruct (Htot k k1) as [?|[?|?]].
Qed.

Lemma insertion_sort_keys {V} (merge : list V → V) ins : (insertion_sort merge ins).*1 = foldr insert_key [] ins.*1.
Proof. unfold insertion_sort. rewrite <- list_fmap_compose. apply list_fmap_id. Qed.
End insertion.

#[export] Instance insertion_sorter : GrenadSorter.
Proof.
  refine {| sorter_into_reader K V _ lt _ _ merge ins := insertion_sort lt merge ins |}.
  - intros K V HK lt Hlt a merge ins Hso Htot. rewrite insertion_sort_keys.
    induction ins.*1 as [|k ks IH]; cbn [foldr]; [constructor|]. by apply insert_key_sorted.
  - intros K V HK lt Hlt a merge ins k. rewrite insertion_sort_keys. apply elem_of_insert_keys.
  - intros K V HK lt Hlt a merge ins k v _ Hin. apply list_elem_of_fmap in Hin as (k' & [= -> ->] & _). by eexists.
Defined.

(** ** Extraction, as a whole *)
Section facet_extraction.
Context {Number : Type} {O : Obkv} {J : SerdeJson Number} {G : GrenadSorter}.
Context (as_f64 : Number → option f64) (normalize_facet : bytes → bytes).

(** C28: The new data of the facet databases hold, for each value of a faceted field, the
    documents of the chunk whose field has that value, itself or in an array; the
    documents whose field is there, null or empty are noted. *)
Theorem facet_extraction_spec faceted docs :
  floats_ok as_f64 → (∀ s, is_str (normalize_facet s)) → docs_readable (Number := Number) faceted docs →
  ∃ ext numbers, extract_fid_docid_facet_values as_f64 normalize_facet docs faceted = Ok ext ∧
    extract_facet_number_docids (docid_fid_facet_numbers_chunk ext) = Ok numbers ∧
    (∀ f x d, d ∈ new_docids numbers f x ↔
      f ∈ faceted ∧ ∃ v, doc_field docs f d v ∧ x ∈ field_values as_f64 normalize_facet Numbers v) ∧
    (∀ f x d, d ∈ new_docids (extract_facet_string_docids (docid_fid_facet_strings_chunk ext)) f x ↔
      f ∈ faceted ∧ ∃ v, doc_field docs f d v ∧ x ∈ field_values as_f64 normalize_facet Strings v) ∧
    (∀ f d, d ∈ docids_at f (fid_facet_is_null_docids_chunk ext) ↔ f ∈ faceted ∧ doc_field docs f d JNull) ∧
    (∀ f d, d ∈ docids_at f (fid_facet_is_empty_docids_chunk ext) ↔
      f ∈ faceted ∧ ∃ v, doc_field docs f d v ∧ empty_value v = true) ∧
    (∀ f d, d ∈ docids_at f (fid_facet_exists_docids_chunk ext) ↔ f ∈ faceted ∧ ∃ v, doc_field docs f d v).
Proof.
  intros Hf Hnorm Hread. destruct (extract_correct as_f64 normalize_facet faceted docs Hread) as (ext & Hrun & Hext).
  destruct (number_data as_f64 normalize_facet faceted docs ext Hf Hext) as (nn & Hnn & _ & _ & Hn).
  pose proof (string_data as_f64 normalize_facet faceted docs ext Hnorm Hext) as (_ & _ & Hs).
  destruct Hext as (_ & Hv & Hnull & Hempty & Hexists). exists ext, nn. split_and!; [done|done| | |done..].
  - intros f x d. rewrite Hn. apply (Hv Numbers).
  - intros f x d. rewrite Hs. apply (Hv Strings).
Qed.
End facet_extraction.

Module Demo.
Import Concrete.
Open Scope string_scope.

(** Numbers 0 and 1, ASCII letters kept, other bytes replaced. *)
Definition as_f64 (n : bool) : option f64 := Some (if n then 4607182418800017408 else 0)%Z.
Definition to_ascii (c : ascii) : ascii := ascii_of_N (N_of_ascii c mod 128).
Definition normalize (s : bytes) : bytes := to_ascii <$> s.

Lemma floats : floats_ok as_f64.
Proof. intros [] x [= <-]; by vm_compute. Qed.

Lemma to_ascii_boundary c : is_char_boundary (to_ascii c) = true.
Proof.
  destruct (ascii_N_embedding c). set (n := N_of_ascii c). assert (n < 256)%N as Hn by apply N_ascii_bounded.
  unfold to_ascii. rewrite N_ascii_embedding by done. unfold is_char_boundary.
  rewrite N_ascii_embedding by (pose proof (N.mod_lt n 128); lia).
  by apply (bytes_forall (λ n, negb (N.land (n mod 128) 192 =? 128)%N)).
Qed.

Lemma normalize_is_str s : is_str (normalize s).
Proof.
  unfold is_str, normalize. generalize 0. induction s as [|c s IH]; intros k; [done|].
  rewrite fmap_cons. cbn [continues]. rewrite to_ascii_boundary. apply IH.
Qed.

(** Document 7 has the tags [a], 1 and null, document 8 a null. *)
Definition tags : FieldId := 3%N.
Definition docs : list (DocumentId * kv) :=
  [(7%N, [(tags, print (JArray [JString "a"; JNumber true; JNull]))]); (8%N, [(tags, print JNull)])].

Lemma facet_extraction_spec_witness :
  ∃ ext numbers, extract_fid_docid_facet_values as_f64 normalize docs {[tags]} = Ok ext ∧
    extract_facet_number_docids (docid_fid_facet_numbers_chunk ext) = Ok numbers ∧
    (∀ f d, d ∈ docids_at f (fid_facet_is_null_docids_chunk ext) ↔ f ∈ ({[tags]} : gset FieldId) ∧ doc_field docs f d JNull).
Proof.
  destruct (facet_extraction_spec as_f64 normalize {[tags]} docs) as (ext & nn & He & Hn & _ & _ & Hnull & _).
  - apply floats.
  - apply normalize_is_str.
  - intros d obkv f b Hd Hf _. repeat (apply elem_of_cons in Hd as [[= -> ->]|Hd]); [..|by apply not_elem_of_nil in Hd].
    + apply list_elem_of_singleton in Hf as [= -> ->]. eexists. vm_compute. reflexivity.
    + apply list_elem_of_singleton in Hf as [= -> ->]. eexists. vm_compute. reflexivity.
  - by exists ext, nn.
Defined.

Lemma truncated_fits_witness : valid_lmdb_key (mkKey tags 0 (truncated 0 (list_ascii_of_string "shoes"))) = true.
Proof. apply (truncated_fits tags (list_ascii_of_string "shoes")). by vm_compute. Defined.
End Demo.
