(* ===== verification/FacetIndex.v ===== *)
(** * The facets of an index over a history of updates and deletions
      (milli/src/update/index_documents/typed_chunk.rs,
      milli/src/update/delete_documents.rs)

    [FacetIndex] gathers the databases of the facets.  [index_facets] extracts the facets
    of a chunk of documents and writes them, [delete_document_facets] removes those of
    deleted documents.  [facets_hold] relates the databases with the JSON of the
    documents, and [history] is any sequence of chunks and deletions from the empty
    index. *)
From S2P Require Import Prelude Json FieldsIdsMap Obkv FacetDb FacetTree FacetSearch FacetF64 FacetInsert FacetBulk FacetUpdate FacetRemove FacetExtract.
From S2P Require DocumentsIds.
Import DocumentsIds (DocumentId).

Abbreviation DocidsDb := (gmap FieldId (gset DocumentId)).

Record FacetIndex := mkIndex {
  facets : Facets;
  facet_id_exists_docids : DocidsDb;
  facet_id_is_null_docids : DocidsDb;
  facet_id_is_empty_docids : DocidsDb
}.

Definition with_facets_of (fc : Facets) (index : FacetIndex) : FacetIndex :=
  mkIndex fc (facet_id_exists_docids index) (facet_id_is_null_docids index) (facet_id_is_empty_docids index).

(** The errors of the extraction and those of the databases. *)
Abbreviation IndexError := (MilliError + FacetError)%type.
Definition milli_error {A} (m : outcome MilliError A) : outcome IndexError A :=
  match m with Ok a => Ok a | Err e => Err (inl e) | Panic msg => Panic msg end.
Definition facet_error {A} (m : outcome FacetError A) : outcome IndexError A :=
  match m with Ok a => Ok a | Err e => Err (inr e) | Panic msg => Panic msg end.

(** ** Writing the chunks *)

(** [Database::put] in the order of the keys. *)
Fixpoint entry_put (key : FacetEntryKey) (value : bytes) (db : list (FacetEntryKey * bytes)) : list (FacetEntryKey * bytes) :=
  match db with
  | [] => [(key, value)]
  | (key', value') :: db =>
      if decide (entry_key_lt key key') then (key, value) :: (key', value') :: db
      else if decide (key = key') then (key, value) :: db
      else (key', value') :: entry_put key value db
  end.

(** [valid_lmdb_key] on the bytes of a key: six of them are the field and the document. *)
Definition valid_entry_key (key : FacetEntryKey) : bool := 6 + length key.2 <=? max_word_length * 2.

(** The arms [FieldIdDocidFacetNumbers] and [FieldIdDocidFacetStrings]. *)
Fixpoint put_field_id_docid_facets (chunk : list (FacetEntryKey * bytes)) (db : list (FacetEntryKey * bytes)) :
    list (FacetEntryKey * bytes) :=
  match chunk with
  | [] => db
  | (key, value) :: chunk => put_field_id_docid_facets chunk (if valid_entry_key key then entry_put key value db else db)
  end.

Definition put_chunk (t : FacetType) (ext : ExtractedFacetValues) (fc : Facets) : Facets :=
  let st := facets_of t fc in
  with_facets t (mkStore (facet_id_docids st) (faceted_documents_ids st)
    (put_field_id_docid_facets (chunk_of t ext) (field_id_docid_facets st))) fc.

(** [write_entries_into_database] with [merge_cbo_roaring_bitmaps]; on the empty database
    of an empty index [append_entries_into_database] writes the same. *)
Definition write_entries_into_database (data : list (FieldId * gset DocumentId)) (database : DocidsDb) : DocidsDb :=
  fold_left (λ database '(key, value),
    <[key := match database !! key with
             | Some prev_value => merge_cbo_roaring_bitmaps [value; prev_value]
             | None => value
             end]> database) data database.

(** [remove_docids_from_facet_id_docids]. *)
Definition remove_docids_from_facet_id_docids (db : DocidsDb) (to_remove : gset DocumentId) : DocidsDb :=
  omap (λ docids, let docids := docids ∖ to_remove in if decide (docids = ∅) then None else Some docids) db.

Section index.
Context {Number : Type} {O : Obkv} {J : SerdeJson Number} {G : GrenadSorter}.
Context (as_f64 : Number → option f64) (normalize_facet : bytes → bytes).

Definition new_facets (t : FacetType) (ext : ExtractedFacetValues) : outcome MilliError NewData :=
  match t with
  | Strings => Ok (extract_facet_string_docids (docid_fid_facet_strings_chunk ext))
  | Numbers => extract_facet_number_docids (docid_fid_facet_numbers_chunk ext)
  end.

(** The facets of a chunk of documents, from the extraction to the databases. *)
Definition index_facets (faceted_fields_ids : list FieldId) (obkv_documents : list (DocumentId * kv)) (index : FacetIndex) :
    outcome IndexError FacetIndex :=
  ext ← milli_error (extract_fid_docid_facet_values as_f64 normalize_facet obkv_documents (list_to_set faceted_fields_ids));
  let index :=
    mkIndex (put_chunk Strings ext (put_chunk Numbers ext (facets index)))
      (write_entries_into_database (map_to_list (fid_facet_exists_docids_chunk ext)) (facet_id_exists_docids index))
      (write_entries_into_database (map_to_list (fid_facet_is_null_docids_chunk ext)) (facet_id_is_null_docids index))
      (write_entries_into_database (map_to_list (fid_facet_is_empty_docids_chunk ext)) (facet_id_is_empty_docids index)) in
  strings ← milli_error (new_facets Strings ext);
  fc ← facet_error (facets_update_execute Strings strings faceted_fields_ids (facets index));
  numbers ← milli_error (new_facets Numbers ext);
  fc ← facet_error (facets_update_execute Numbers numbers faceted_fields_ids fc);
  Ok (with_facets_of fc index).

(** The facets of the documents that a hard deletion removes. *)
Definition delete_document_facets (faceted_fields_ids : list FieldId) (to_delete_docids : gset DocumentId) (index : FacetIndex) :
    outcome IndexError FacetIndex :=
  fc ← facet_error (delete_facets faceted_fields_ids to_delete_docids (facets index));
  Ok (mkIndex fc
        (remove_docids_from_facet_id_docids (facet_id_exists_docids index) to_delete_docids)
        (remove_docids_from_facet_id_docids (facet_id_is_null_docids index) to_delete_docids)
        (remove_docids_from_facet_id_docids (facet_id_is_empty_docids index) to_delete_docids)).

(** ** What the databases hold *)

(** [known f d v]: the field [f] of the document [d] is [v]. *)
Abbreviation Known := (FieldId → DocumentId → Json Number → Prop).

Record facets_hold (fs : list FieldId) (index : FacetIndex) (known : Known) : Prop := {
  hold_store t : store_ok fs (facets_of t (facets index));
  hold_known t : values_known fs (facets_of t (facets index));
  hold_values t f x d : f ∈ fs →
    d ∈ value_docids (facet_id_docids (facets_of t (facets index))) f x ↔
    ∃ v, known f d v ∧ x ∈ field_values as_f64 normalize_facet t v;
  hold_null f d : f ∈ fs → d ∈ docids_at f (facet_id_is_null_docids index) ↔ known f d JNull;
  hold_empty f d : f ∈ fs → d ∈ docids_at f (facet_id_is_empty_docids index) ↔ ∃ v, known f d v ∧ empty_value v = true;
  hold_exists f d : f ∈ fs → d ∈ docids_at f (facet_id_exists_docids index) ↔ ∃ v, known f d v
}.

(** *** The databases of a field *)
Lemma elem_of_put_entries chunk db k :
  (∀ k, k ∈ chunk.*1 → valid_entry_key k = true) →
  k ∈ (put_field_id_docid_facets chunk db).*1 ↔ k ∈ chunk.*1 ∨ k ∈ db.*1.
Proof.
  assert (∀ key value (db : list (FacetEntryKey * bytes)), k ∈ (entry_put key value db).*1 ↔ k = key ∨ k ∈ db.*1) as Hput.
  { intros key value db'. induction db' as [|[key' value'] db' IH]; cbn [entry_put].
    - rewrite !fmap_cons, elem_of_cons. done.
    - repeat case_decide; rewrite !fmap_cons, !elem_of_cons, ?IH; cbn [fst]; naive_solver. }
  revert db. induction chunk as [|[key value] chunk IH]; intros db Hval; cbn [put_field_id_docid_facets].
  { split; [by right|]. by intros [?%not_elem_of_nil|?]. }
  rewrite (Hval key) by left. rewrite IH, Hput by (intros k' Hk'; apply Hval; by right).
  rewrite fmap_cons, elem_of_cons. cbn [fst]. naive_solver.
Qed.

Lemma docids_at_write data db f d :
  d ∈ docids_at f (write_entries_into_database (map_to_list data) db) ↔ d ∈ docids_at f db ∨ d ∈ docids_at f data.
Proof.
  assert (∀ l (db : DocidsDb), NoDup l.*1 → d ∈ docids_at f (write_entries_into_database l db) ↔
    d ∈ docids_at f db ∨ ∃ X, (f, X) ∈ l ∧ d ∈ X) as Hl.
  { induction l as [|[f' X] l IH]; intros db' Hnd; cbn [write_entries_into_database fold_left].
    - split; [by left|]. by intros [?|(? & ?%not_elem_of_nil & _)].
    - rewrite fmap_cons in Hnd. apply NoDup_cons in Hnd as [Hnin Hnd]. cbn [fst] in Hnin.
      unfold write_entries_into_database in IH. rewrite IH by done. setoid_rewrite elem_of_cons.
      destruct (decide (f' = f)) as [->|Hne].
      + rewrite lookup_insert_eq. assert (∀ X, (f, X) ∉ l) as Hno.
        { intros Y HY. by apply Hnin, (list_elem_of_fmap_2 fst _ (f, Y)). }
        destruct (db' !! f) as [Y|]; cbn [from_option default id]; [unfold merge_cbo_roaring_bitmaps; cbn|]; set_solver.
      + rewrite lookup_insert_ne by done. naive_solver. }
  rewrite Hl by apply NoDup_fst_map_to_list. setoid_rewrite elem_of_map_to_list. f_equiv. split.
  - intros (X & -> & Hd). done.
  - destruct (data !! f) as [X|] eqn:HX; [|by intros ?%elem_of_empty]. intros Hd. by exists X.
Qed.

Lemma docids_at_remove (db : DocidsDb) D f d :
  d ∈ docids_at f (remove_docids_from_facet_id_docids db D) ↔ d ∈ docids_at f db ∧ d ∉ D.
Proof.
  unfold remove_docids_from_facet_id_docids. rewrite lookup_omap. destruct (db !! f) as [X|]; cbn; [|set_solver].
  case_decide; cbn; set_solver.
Qed.
(** *** Indexing a chunk *)
Lemma entry_keys {V} (l : list (FacetEntryKey * V)) k : (∃ o, (k, o) ∈ l) ↔ k ∈ l.*1.
Proof.
  rewrite list_elem_of_fmap. split; [intros (o & Ho); by exists (k, o)|]. intros ([k' o] & -> & Ho). by exists o.
Qed.

Lemma store_ok_same fs st st' :
  facet_id_docids st' = facet_id_docids st → faceted_documents_ids st' = faceted_documents_ids st →
  store_ok fs st → store_ok fs st'.
Proof. destruct st, st'. cbn. by intros -> ->. Qed.

Lemma new_facets_spec fs docs ext t :
  floats_ok as_f64 → (∀ s, is_str (normalize_facet s)) → extracted as_f64 normalize_facet fs docs ext →
  ∃ nd, new_facets t ext = Ok nd ∧ data_of (chunk_of t ext) nd ∧
    ∀ k, k ∈ (chunk_of t ext).*1 → valid_entry_key k = true.
Proof.
  intros Hf Hn Hext.
  assert (∀ f d x, (f, d, x) ∈ (chunk_of t ext).*1 → length x <= 479) as Hlen.
  { intros f d x Hin. destruct t; [by eapply extracted_string|].
    eapply (extracted_number as_f64) in Hin as [-> _]; [lia|done|exact Hext]. }
  assert (∃ nd, new_facets t ext = Ok nd ∧ data_of (chunk_of t ext) nd) as (nd & Hnd & Hdata).
  { destruct t; [eexists; split; [done|by eapply string_data]|by eapply number_data]. }
  exists nd. split_and!; [done|done|]. intros [[f d] x] Hin. apply Hlen in Hin. unfold valid_entry_key, max_word_length.
  cbn [snd]. apply Nat.leb_le. lia.
Qed.

(** No level of the fields grows past what a byte can number. *)
Definition heights_fit_chunk (fs : list FieldId) (docs : list (DocumentId * kv)) (index : FacetIndex) : Prop :=
  ∀ t ext nd, extract_fid_docid_facet_values as_f64 normalize_facet docs (list_to_set fs) = Ok ext →
    new_facets t ext = Ok nd → heights_ok fs nd (facet_id_docids (facets_of t (facets index))).

(** The update of a type of facets whose entries are written. *)
Lemma update_type_spec fs docs ext t nd fc :
  floats_ok as_f64 → (∀ s, is_str (normalize_facet s)) → extracted as_f64 normalize_facet (list_to_set fs) docs ext →
  data_of (chunk_of t ext) nd → NoDup fs → db_sorted (facet_id_docids (facet_strings fc)) →
  store_ok fs (facets_of t fc) → heights_ok fs nd (facet_id_docids (facets_of t fc)) →
  ∃ fc', facets_update_execute t nd fs fc = Ok fc' ∧ store_ok fs (facets_of t fc') ∧
    field_id_docid_facets (facets_of t fc') = field_id_docid_facets (facets_of t fc) ∧
    (∀ f x d, d ∈ value_docids (facet_id_docids (facets_of t fc')) f x ↔
      d ∈ value_docids (facet_id_docids (facets_of t fc)) f x ∨ (f, d, x) ∈ (chunk_of t ext).*1) ∧
    ∀ t', t' ≠ t → facets_of t' fc' = facets_of t' fc.
Proof.
  intros Hf Hn (_ & Hext & _) (Hs & Hkeys & Hnew) Hnd Hstr Hok Hh.
  destruct (facets_update_execute_correct t nd fs fc) as (fc' & Hrun & Hok' & Hent & Hv & Hoth & _); [done|done|done| |done|done|].
  { intros k d Hin. destruct (Hkeys k d Hin) as (Hl & d' & x & Hk). split; [done|]. apply Hext in Hk as [Hf' _].
    by apply elem_of_list_to_set in Hf'. }
  exists fc'. split_and!; [done|done|done| |done]. intros f x d. rewrite Hv, elem_of_union. by rewrite Hnew.
Qed.

(** Both types, the strings first. *)
Lemma update_types_spec fs docs ext nds ndn fc :
  floats_ok as_f64 → (∀ s, is_str (normalize_facet s)) → extracted as_f64 normalize_facet (list_to_set fs) docs ext →
  data_of (chunk_of Strings ext) nds → data_of (chunk_of Numbers ext) ndn → NoDup fs →
  (∀ t, store_ok fs (facets_of t fc)) →
  heights_ok fs nds (facet_id_docids (facets_of Strings fc)) → heights_ok fs ndn (facet_id_docids (facets_of Numbers fc)) →
  ∃ fc' fc'', facets_update_execute Strings nds fs fc = Ok fc' ∧ facets_update_execute Numbers ndn fs fc' = Ok fc'' ∧
    ∀ t, store_ok fs (facets_of t fc'') ∧
      field_id_docid_facets (facets_of t fc'') = field_id_docid_facets (facets_of t fc) ∧
      ∀ f x d, d ∈ value_docids (facet_id_docids (facets_of t fc'')) f x ↔
        d ∈ value_docids (facet_id_docids (facets_of t fc)) f x ∨ (f, d, x) ∈ (chunk_of t ext).*1.
Proof.
  intros Hf Hn Hext Hds Hdn Hnd Hok Hhs Hhn.
  assert (∀ t, db_sorted (facet_id_docids (facets_of t fc))) as Hs by (intros t; by destruct (Hok t) as [[? _] _]).
  destruct (update_type_spec fs docs ext Strings nds fc) as (fc2 & Hrun2 & Hok2 & Hent2 & Hv2 & Hoth2);
    [done..|apply (Hs Strings)|apply Hok|done|].
  assert (facets_of Numbers fc2 = facets_of Numbers fc) as HN2 by by apply Hoth2.
  destruct (update_type_spec fs docs ext Numbers ndn fc2) as (fc3 & Hrun3 & Hok3 & Hent3 & Hv3 & Hoth3); [done..| | | |].
  { by destruct Hok2 as [[? _] _]. }
  { rewrite HN2. apply Hok. }
  { by rewrite HN2. }
  assert (facets_of Strings fc3 = facets_of Strings fc2) as HS3 by by apply Hoth3.
  rewrite HN2 in Hent3, Hv3. exists fc2, fc3. split_and!; [done|done|]. intros []; [|done]. by rewrite HS3.
Qed.

Lemma index_facets_correct fs docs index known :
  floats_ok as_f64 → (∀ s, is_str (normalize_facet s)) → NoDup fs → docs_readable (Number := Number) (list_to_set fs) docs →
  heights_fit_chunk fs docs index → facets_hold fs index known →
  ∃ index', index_facets fs docs index = Ok index' ∧
    facets_hold fs index' (λ f d v, known f d v ∨ f ∈ fs ∧ doc_field docs f d v).
Proof.
  intros Hf Hn Hnd Hread Hh Hold. unfold index_facets.
  destruct (extract_correct as_f64 normalize_facet (list_to_set fs) docs Hread) as (ext & Hrun & Hext).
  pose proof (Hh Strings ext) as Hhs. pose proof (Hh Numbers ext) as Hhn. rewrite Hrun. cbn [milli_error mbind outcome_bind].
  cbn [facets facet_id_exists_docids facet_id_is_null_docids facet_id_is_empty_docids].
  destruct (new_facets_spec _ docs ext Strings Hf Hn Hext) as (nds & Hnds & Hds & Hvs).
  destruct (new_facets_spec _ docs ext Numbers Hf Hn Hext) as (ndn & Hndn & Hdn & Hvn).
  rewrite Hnds, Hndn. cbn [milli_error mbind outcome_bind].
  specialize (Hhs nds Hrun Hnds). specialize (Hhn ndn Hrun Hndn). destruct index as [fc ex nl em]. cbn [facets] in *.
  set (fc1 := put_chunk Strings ext (put_chunk Numbers ext fc)).
  destruct (update_types_spec fs docs ext nds ndn fc1) as (fc2 & fc3 & Hrun2 & Hrun3 & H3); [done..| |done|done|].
  { intros t. apply (store_ok_same fs (facets_of t fc)); [by destruct t|by destruct t|]. apply (hold_store _ _ _ Hold). }
  rewrite Hrun2. cbn [facet_error mbind outcome_bind]. rewrite Hrun3. cbn [facet_error mbind outcome_bind].
  eexists. split; [done|]. destruct Hext as (_ & Hval & Hnull & Hempty & Hexists).
  assert (∀ t f x d, d ∈ value_docids (facet_id_docids (facets_of t fc3)) f x ↔
    d ∈ value_docids (facet_id_docids (facets_of t fc)) f x ∨ (f, d, x) ∈ (chunk_of t ext).*1) as Hvt.
  { intros t f x d. destruct (H3 t) as (_ & _ & ->). by destruct t. }
  split; cbn [with_facets_of facets facet_id_exists_docids facet_id_is_null_docids facet_id_is_empty_docids].
  - intros t. apply H3.
  - intros t f d x Hin. rewrite Hvt, entry_keys. destruct (H3 t) as (_ & -> & _).
    transitivity ((f, d, x) ∈ (put_field_id_docid_facets (chunk_of t ext) (field_id_docid_facets (facets_of t fc))).*1);
      [by destruct t|]. rewrite elem_of_put_entries by (intros; destruct t; auto).
    pose proof (hold_known _ _ _ Hold t f d x Hin) as Hk. rewrite entry_keys in Hk. cbn [facets] in Hk. rewrite Hk. naive_solver.
  - intros t f x d Hin. rewrite Hvt, Hval. pose proof (hold_values _ _ _ Hold t f x d Hin) as Hk. cbn [facets] in Hk.
    rewrite Hk, elem_of_list_to_set. naive_solver.
  - intros f d Hin. rewrite docids_at_write, Hnull. pose proof (hold_null _ _ _ Hold f d Hin) as Hk. cbn in Hk.
    rewrite Hk, elem_of_list_to_set. naive_solver.
  - intros f d Hin. rewrite docids_at_write, Hempty. pose proof (hold_empty _ _ _ Hold f d Hin) as Hk. cbn in Hk.
    rewrite Hk, elem_of_list_to_set. naive_solver.
  - intros f d Hin. rewrite docids_at_write, Hexists. pose proof (hold_exists _ _ _ Hold f d Hin) as Hk. cbn in Hk.
    rewrite Hk, elem_of_list_to_set. naive_solver.
Qed.
(** *** Deleting documents *)
Lemma delete_document_facets_correct fs D index known :
  NoDup fs → (∀ t f, f ∈ fs → get_highest_level (facet_id_docids (facets_of t (facets index))) f < 255) →
  facets_hold fs index known →
  ∃ index', delete_document_facets fs D index = Ok index' ∧ facets_hold fs index' (λ f d v, known f d v ∧ d ∉ D).
Proof.
  intros Hnd Hh Hold. unfold delete_document_facets.
  destruct (delete_facets_correct fs D (facets index)) as (fc & Hrun & Hfc); [|done|].
  { intros t. split_and!; [apply (hold_store _ _ _ Hold)|apply (hold_known _ _ _ Hold)|apply Hh]. }
  rewrite Hrun. cbn [facet_error mbind outcome_bind]. eexists. split; [done|].
  split; cbn [facets facet_id_exists_docids facet_id_is_null_docids facet_id_is_empty_docids].
  - intros t. apply Hfc.
  - intros t. apply Hfc.
  - intros t f x d Hin. destruct (Hfc t) as (_ & _ & ->); [|done].
    rewrite elem_of_difference, (hold_values _ _ _ Hold) by done. naive_solver.
  - intros f d Hin. by rewrite docids_at_remove, (hold_null _ _ _ Hold).
  - intros f d Hin. rewrite docids_at_remove, (hold_empty _ _ _ Hold) by done. naive_solver.
  - intros f d Hin. rewrite docids_at_remove, (hold_exists _ _ _ Hold) by done. naive_solver.
Qed.

(** ** Histories *)
Definition empty_store : FacetStore := mkStore [] ∅ [].
Definition empty_index : FacetIndex := mkIndex (mkFacets empty_store empty_store ∅) ∅ ∅ ∅.

Lemma facet_ok_empty D f : facet_ok D [] f.
Proof.
  split; [apply SSorted_nil|]. exists 0. split; [lia|]. split; [|by intros k b v ?; lia].
  split_and!; [by left|by intros ? ?; lia|done].
Qed.

Lemma facets_hold_empty fs : facets_hold fs empty_index (λ _ _ _, False).
Proof.
  assert (∀ t, facets_of t (facets empty_index) = empty_store) as Hst by by intros [].
  split.
  - intros t. rewrite Hst. split; [split; [apply SSorted_nil|intros; apply facet_ok_empty]|done].
  - intros t f d x _. rewrite Hst. cbn. split; [by intros (o & ?%not_elem_of_nil)|by intros ?%elem_of_empty].
  - intros t f x d _. rewrite Hst. cbn. split; [by intros ?%elem_of_empty|naive_solver].
  - intros f d _. cbn. rewrite lookup_empty. cbn. set_solver.
  - intros f d _. cbn. rewrite lookup_empty. cbn. set_solver.
  - intros f d _. cbn. rewrite lookup_empty. cbn. set_solver.
Qed.

(** Chunks and deletions from the empty index, with what is known of the documents. *)
Inductive history (fs : list FieldId) : FacetIndex → Known → Prop :=
| history_empty : history fs empty_index (λ _ _ _, False)
| history_index docs index index' known :
    history fs index known →
    docs_readable (Number := Number) (list_to_set fs) docs → heights_fit_chunk fs docs index →
    index_facets fs docs index = Ok index' →
    history fs index' (λ f d v, known f d v ∨ f ∈ fs ∧ doc_field docs f d v)
| history_delete D index index' known :
    history fs index known →
    (∀ t f, f ∈ fs → get_highest_level (facet_id_docids (facets_of t (facets index))) f < 255) →
    delete_document_facets fs D index = Ok index' →
    history fs index' (λ f d v, known f d v ∧ d ∉ D).

Lemma history_hold fs index known :
  floats_ok as_f64 → (∀ s, is_str (normalize_facet s)) → NoDup fs → history fs index known → facets_hold fs index known.
Proof.
  intros Hf Hn Hnd. induction 1 as [|docs index index' known _ IH Hread Hh Hrun|D index index' known _ IH Hh Hrun].
  - apply facets_hold_empty.
  - destruct (index_facets_correct fs docs index known) as (i & Hi & Hold); [done..|]. rewrite Hrun in Hi. by injection Hi as ->.
  - destruct (delete_document_facets_correct fs D index known) as (i & Hi & Hold); [done..|]. rewrite Hrun in Hi. by injection Hi as ->.
Qed.

(** C7: Whatever chunks are indexed and documents deleted, the facet databases keep the
    shape of their levels and hold exactly the values, nulls, empty values and presences
    of the fields of the documents that are not deleted. *)
Theorem history_facets fs index known :
  floats_ok as_f64 → (∀ s, is_str (normalize_facet s)) → NoDup fs → history fs index known →
  ∀ f, f ∈ fs →
    (∀ t, tree_ok ∅ (facet_id_docids (facets_of t (facets index))) f) ∧
    (∀ t x d, d ∈ value_docids (facet_id_docids (facets_of t (facets index))) f x ↔
      ∃ v, known f d v ∧ x ∈ field_values as_f64 normalize_facet t v) ∧
    (∀ d, d ∈ docids_at f (facet_id_is_null_docids index) ↔ known f d JNull) ∧
    (∀ d, d ∈ docids_at f (facet_id_is_empty_docids index) ↔ ∃ v, known f d v ∧ empty_value v = true) ∧
    (∀ d, d ∈ docids_at f (facet_id_exists_docids index) ↔ ∃ v, known f d v).
Proof.
  intros Hf Hn Hnd Hhist f Hin. pose proof (history_hold fs index known Hf Hn Hnd Hhist) as Hold. split_and!.
  - intros t. apply facet_ok_tree. by destruct (hold_store _ _ _ Hold t) as [[_ H] _]; apply H.
  - intros t x d. by apply (hold_values _ _ _ Hold).
  - intros d. by apply (hold_null _ _ _ Hold).
  - intros d. by apply (hold_empty _ _ _ Hold).
  - intros d. by apply (hold_exists _ _ _ Hold).
Qed.

(** A chunk of readable documents is indexed without an error, and adds exactly the
    values of its faceted fields. *)
Theorem index_facets_spec fs docs index known :
  floats_ok as_f64 → (∀ s, is_str (normalize_facet s)) → NoDup fs → docs_readable (Number := Number) (list_to_set fs) docs →
  heights_fit_chunk fs docs index → facets_hold fs index known →
  ∃ index', index_facets fs docs index = Ok index' ∧
    facets_hold fs index' (λ f d v, known f d v ∨ f ∈ fs ∧ doc_field docs f d v).
Proof. apply index_facets_correct. Qed.
End index.
