(* ===== verification/FacetDemo.v ===== *)
(** * Concrete facet databases

    The theorems about the facets applied to a database of three levels, which nine
    insertions build, and to the facets of a chunk of two documents. *)
From S2P Require Import Prelude Json Obkv FacetDb FacetTree FacetSearch FacetSort FacetDistribution FacetIncremental FacetInsert FacetDelete FacetBulk FacetUpdate FacetRemove FacetF64 FacetExtract FacetIndex.
From S2P Require FieldsIdsMap DocumentsIds Concrete.
From Stdlib Require Import Ascii.
Import FieldsIdsMap (FieldId).
Import DocumentsIds (DocumentId).

(** ** A database of three levels *)
Definition field : FieldId := 3%N.
Definition letter (n : nat) : bytes := [ascii_of_nat (65 + n)].

(** The documents 0 and 20 have A, 1 and 21 have B, and so on up to I. *)
Definition new_letters : NewData :=
  (λ n : nat, (mkKey field 0 (letter n), ({[N.of_nat n; (N.of_nat n + 20)%N]} : gset DocumentId))) <$> seq 0 9.
Definition letters : FacetDb := (insert_all 2 2 4 new_letters ∅ []).2.

Example letters_levels : get_highest_level letters field = 2 ∧ length letters = 15.
Proof. by vm_compute. Qed.

Lemma new_letters_ok : new_data_ok [field] new_letters.
Proof.
  intros k d Hin. apply list_elem_of_fmap in Hin as (n & [= -> ->] & _). split; [done|left].
Qed.

Lemma fields_ok_nil fs : fields_ok fs [].
Proof. split; [apply SSorted_nil|]. intros f _. apply facet_ok_empty. Qed.

Lemma letters_fit : heights_fit 2 2 4 new_letters [].
Proof. vm_compute. repeat split; lia. Qed.

Lemma letters_fields_ok : fields_ok [field] letters.
Proof.
  destruct (insert_all_spec 2 2 4 [field] new_letters ∅ []) as (m & db & Hrun & Hok & _);
    [done|done|apply fields_ok_nil|apply new_letters_ok|apply letters_fit|].
  unfold letters. by rewrite Hrun.
Qed.

Lemma letters_facet_ok : facet_ok ∅ letters field.
Proof. apply letters_fields_ok. left. Qed.

Lemma letters_tree_ok : tree_ok ∅ letters field.
Proof. apply facet_ok_tree, letters_facet_ok. Qed.

Lemma letters_length : (N.of_nat (length letters) ≤ usize_max)%N.
Proof. by vm_compute. Qed.

(** ** Search *)
Definition some_bytes (b : bytes) : option bytes := Some b.

Lemma find_docids_of_facet_within_bounds_spec_witness :
  ∃ found, find_docids_of_facet_within_bounds some_bytes letters field (Included (letter 2)) (Excluded (letter 7)) ∅ = Ok found ∧
    4%N ∈ found.
Proof.
  destruct (find_docids_of_facet_within_bounds_spec some_bytes letters field (Included (letter 2)) (Excluded (letter 7))
    (Included (letter 2)) (Excluded (letter 7)) ∅) as (found & Hrun & Hel);
    [apply letters_tree_ok|apply letters_length|done|done|].
  exists found. split; [exact Hrun|]. apply Hel. right. exists (letter 4), (mkValue 1 {[4%N; 24%N]}).
  split; [by vm_compute|]. split; [by vm_compute; intros [?|[? ?]]|]. split; [by vm_compute; left|]. set_solver.
Defined.

(** ** Sort and distribution *)
Definition wanted : gset DocumentId := {[1%N; 4%N; 24%N; 8%N]}.

Lemma ascending_facet_sort_spec_witness :
  ∃ n, ∀ fuel, n ≤ fuel → ascending_facet_sort fuel letters field wanted = Some (by_value wanted (level letters field 0)).
Proof. apply ascending_facet_sort_spec; [apply letters_tree_ok|apply letters_length]. Defined.

Lemma descending_facet_sort_spec_witness :
  ∃ n, ∀ fuel, n ≤ fuel →
    descending_facet_sort fuel letters field wanted = Ok (Some (by_value wanted (rev (level letters field 0)))).
Proof. apply descending_facet_sort_spec; [apply letters_tree_ok|apply letters_length]. Defined.

(** The first two values reported. *)
Definition first_two (v : bytes) (n : N) (_ : DocumentId) (s : list (bytes * N)) : outcome FacetError (ControlFlow unit unit * list (bytes * N)) :=
  let s := s ++ [(v, n)] in Ok (if length s =? 2 then Break tt else Continue tt, s).

Lemma lexicographic_distribution_spec_witness :
  lexicographically_iterate_over_facet_distribution letters field first_two wanted [] = Ok [(letter 1, 1%N); (letter 4, 2%N)].
Proof.
  etransitivity; [apply lexicographic_distribution_spec; [apply letters_tree_ok|apply letters_length]|]. by vm_compute.
Defined.

Lemma count_distribution_spec_witness :
  ∃ n, ∀ fuel, n ≤ fuel →
    ∃ out, out ≡ₚ reports wanted (level letters field 0) ∧ StronglySorted by_count out ∧
      ∀ s, count_iterate_over_facet_distribution letters field first_two fuel wanted s = Some (snd <$> feed first_two out s).
Proof. apply count_distribution_spec; [apply letters_tree_ok|apply letters_length]. Defined.

(** ** Insertion and deletion *)
Lemma insert_spec_witness :
  ∃ db', insert 2 2 4 field (letter 4) {[50%N]} letters = (Ok tt, db') ∧ facet_ok ∅ db' field ∧
    value_docids db' field (letter 4) = {[4%N; 24%N; 50%N]}.
Proof.
  destruct (insert_spec 2 2 4 field (letter 4) {[50%N]} letters) as (db' & Hrun & Hok & Hv & _);
    [done|done|apply letters_facet_ok|vm_compute; lia|].
  exists db'. split; [exact Hrun|]. split; [exact Hok|]. rewrite Hv. by vm_compute.
Defined.

Lemma delete_spec_witness :
  ∃ db', delete 2 field (letter 4) {[4%N]} letters = (Ok tt, db') ∧ facet_ok {[4%N]} db' field.
Proof.
  destruct (delete_spec 2 field (letter 4) {[4%N]} {[4%N]} letters) as (db' & Hrun & Hok & _).
  - done.
  - apply (facet_ok_mono ∅); [set_solver|apply letters_facet_ok].
  - exists db'. exact (conj Hrun Hok).
Defined.

(** A bulk update of the letters without new data. *)
Lemma update_spec_witness :
  ∃ db', update 4 5 (λ _ docids _, docids) None [field] letters ∅ = Ok (db', docids_of (level db' field 0)) ∧ facet_ok ∅ db' field.
Proof.
  destruct (update_spec 4 5 ltac:(done) ltac:(done) (λ _ docids _, docids) None [field] letters ∅) as (db' & Hrun & _ & Hok & _).
  - apply letters_fields_ok.
  - apply NoDup_singleton.
  - intros f l ->%list_elem_of_singleton Hl. destruct letters_facet_ok as (_ & h & Hh & Hlev & _).
    apply (above_highest ∅ _ _ h); [done|apply letters_fields_ok|]. vm_compute (get_highest_level _ _). lia.
  - constructor.
  - by intros k d ?%not_elem_of_nil.
  - exists db'. split; [exact Hrun|]. apply Hok. left.
Defined.

(** ** Updates *)
Definition no_facets : Facets := mkFacets empty_store empty_store ∅.

Lemma store_ok_empty fs : store_ok fs empty_store.
Proof. split; [apply fields_ok_nil|done]. Qed.

Lemma new_letters_sorted : StronglySorted key_lt new_letters.*1.
Proof. vm_compute. repeat (constructor; [|repeat (constructor; [right; split; [done|]; left; vm_compute; reflexivity|]); constructor]). constructor. Qed.

Lemma facets_update_execute_spec_witness :
  ∃ fc, facets_update_execute Strings new_letters [field] no_facets = Ok fc ∧ store_ok [field] (facet_strings fc).
Proof.
  destruct (facets_update_execute_spec Strings new_letters [field] no_facets) as (fc & Hrun & Hok & _).
  - apply store_ok_empty.
  - constructor.
  - apply NoDup_singleton.
  - apply new_letters_ok.
  - apply new_letters_sorted.
  - split; [intros f _; vm_compute; lia|]. vm_compute. repeat split; lia.
  - exists fc. exact (conj Hrun Hok).
Defined.

(** ** Chunks of documents *)
Import Concrete FacetExtract.Demo.

(** The state after the chunk of the two documents, and what is known then. *)
Abbreviation index_docs := (index_facets as_f64 normalize [tags] docs).
Definition two_documents : FacetIndex := match index_docs empty_index with Ok index => index | _ => empty_index end.
Definition two_known (f : FieldId) (d : DocumentId) (v : Json bool) : Prop := False ∨ f ∈ [tags] ∧ doc_field docs f d v.

Lemma docs_are_readable : docs_readable (Number := bool) (list_to_set [tags]) docs.
Proof.
  intros d obkv f b Hd Hf _. repeat (apply elem_of_cons in Hd as [[= -> ->]|Hd]); [..|by apply not_elem_of_nil in Hd].
  - apply list_elem_of_singleton in Hf as [= -> ->]. eexists. vm_compute. reflexivity.
  - apply list_elem_of_singleton in Hf as [= -> ->]. eexists. vm_compute. reflexivity.
Qed.

Lemma docs_fit : heights_fit_chunk as_f64 normalize [tags] docs empty_index.
Proof.
  intros t ext nd He Hn. vm_compute in He. injection He as <-. destruct t; vm_compute in Hn; injection Hn as <-.
  - split; [intros f _; vm_compute; lia|]. vm_compute. repeat split; lia.
  - split; [intros f _; vm_compute; lia|]. vm_compute. repeat split; lia.
Qed.

Lemma index_facets_spec_witness :
  ∃ index, index_docs empty_index = Ok index ∧ facets_hold as_f64 normalize [tags] index two_known.
Proof.
  apply (index_facets_spec as_f64 normalize [tags] docs empty_index (λ _ _ _, False)).
  - apply floats.
  - apply normalize_is_str.
  - apply NoDup_singleton.
  - apply docs_are_readable.
  - apply docs_fit.
  - apply facets_hold_empty.
Defined.

Lemma two_documents_run : index_docs empty_index = Ok two_documents.
Proof. vm_compute. reflexivity. Qed.

Lemma two_documents_history : history as_f64 normalize [tags] two_documents two_known.
Proof.
  apply (history_index as_f64 normalize [tags] docs empty_index two_documents (λ _ _ _, False)).
  - constructor.
  - apply docs_are_readable.
  - apply docs_fit.
  - apply two_documents_run.
Qed.

Lemma two_documents_hold : facets_hold as_f64 normalize [tags] two_documents two_known.
Proof.
  apply history_hold; [apply floats|apply normalize_is_str|apply NoDup_singleton|apply two_documents_history].
Qed.

Lemma two_documents_heights t f : f ∈ [tags] → get_highest_level (facet_id_docids (facets_of t (facets two_documents))) f < 255.
Proof. intros ->%list_elem_of_singleton. destruct t; vm_compute; lia. Qed.

(** The document 8 is deleted: 7 is left with its values. *)
Lemma history_facets_witness :
  ∃ index, delete_document_facets [tags] {[8%N]} two_documents = Ok index ∧
    ∀ t, tree_ok ∅ (facet_id_docids (facets_of t (facets index))) tags.
Proof.
  destruct (delete_document_facets_correct as_f64 normalize [tags] {[8%N]} two_documents two_known) as (index & Hrun & _);
    [apply NoDup_singleton|intros t f; apply two_documents_heights|apply two_documents_hold|].
  exists index. split; [exact Hrun|].
  apply (history_facets as_f64 normalize [tags] index (λ f d v, two_known f d v ∧ d ∉ ({[8%N]} : gset DocumentId)));
    [apply floats|apply normalize_is_str|apply NoDup_singleton| |left].
  apply (history_delete as_f64 normalize [tags] {[8%N]} two_documents index two_known);
    [apply two_documents_history|intros t f; apply two_documents_heights|exact Hrun].
Defined.

Lemma delete_facets_spec_witness :
  ∃ fc, delete_facets [tags] {[8%N]} (facets two_documents) = Ok fc ∧ store_ok [tags] (facet_strings fc).
Proof.
  destruct (delete_facets_spec [tags] {[8%N]} (facets two_documents)) as (fc & Hrun & Hok).
  - intros t. split; [apply (hold_store _ _ _ _ _ two_documents_hold)|].
    split; [apply (hold_known _ _ _ _ _ two_documents_hold)|intros f; apply two_documents_heights].
  - apply NoDup_singleton.
  - exists fc. split; [exact Hrun|]. apply (Hok Strings).
Defined.
