(* ===== verification/Filter.v ===== *)
(** * Filters (milli/src/search/facet/filter.rs, filter-parser/src/lib.rs,
      filter-parser/src/condition.rs, milli/src/lib.rs)

    A filter is a tree of conditions on the fields of the documents; [evaluate] answers the
    documents that satisfy it from the facet databases, [sat] is what it means for the
    JSON of a document.  The parser of expressions, the parsing of a float and the search
    of the r-tree are parameters. *)
From Stdlib Require Import Ascii String.
From S2P Require Import Prelude Json FieldsIdsMap Obkv FacetDb FacetTree FacetSearch FacetF64 FacetInsert FacetBulk FacetUpdate FacetExtract FacetIndex.
From S2P Require DocumentsIds Concrete FacetDemo.
Import DocumentsIds (DocumentId).

#[local] Set Warnings "-register-all".

(** ** Conditions *)

(** A token: the text of its span, and a text that replaces it. *)
Record Token := mkToken { span : string; token_value : option string }.
Definition token (s : string) : Token := mkToken s None.
Definition value (self : Token) : string := default (span self) (token_value self).

Inductive Condition :=
| GreaterThan (val : Token)
| GreaterThanOrEqual (val : Token)
| Equal (val : Token)
| NotEqual (val : Token)
| CNull
| CEmpty
| CExists
| LowerThan (val : Token)
| LowerThanOrEqual (val : Token)
| Between (from to : Token).

Inductive FilterCondition :=
| Not (f : FilterCondition)
| Cond (fid : Token) (op : Condition)
| In (fid : Token) (els : list Token)
| Or (subfilters : list FilterCondition)
| And (subfilters : list FilterCondition)
| GeoLowerThan (point0 point1 radius : Token)
| GeoBoundingBox (top_right0 top_right1 bottom_left0 bottom_left1 : Token).

(** [FilterError], and the errors of the tokens. *)
Inductive FilterError :=
| AttributeNotFilterable (token : Token) (attribute : string)
| BadLat (token : Token) (lat : f64)
| BadLng (token : Token) (lng : f64)
| BoundingBoxTopIsBelowBottom (token : Token) (top bottom : f64)
| TooDeep (token : Token)
| InvalidFloat (token : Token)
| NonFiniteFloat (token : Token)
| InvalidFilter (expression : string)
| InvalidFilterExpression
| HeedError (e : FacetError).

(** The induction principle that reaches the conditions inside the lists. *)
Section filter_ind.
Context (P : FilterCondition → Prop).
Hypothesis case_not : ∀ f, P f → P (Not f).
Hypothesis case_cond : ∀ fid op, P (Cond fid op).
Hypothesis case_in : ∀ fid els, P (In fid els).
Hypothesis case_or : ∀ fs, Forall P fs → P (Or fs).
Hypothesis case_and : ∀ fs, Forall P fs → P (And fs).
Hypothesis case_geo : ∀ p0 p1 r, P (GeoLowerThan p0 p1 r).
Hypothesis case_box : ∀ t0 t1 b0 b1, P (GeoBoundingBox t0 t1 b0 b1).

Fixpoint filter_ind' (f : FilterCondition) : P f :=
  let all := fix all (fs : list FilterCondition) : Forall P fs :=
    match fs with [] => Forall_nil_2 P | f :: fs => Forall_cons_2 P f fs (filter_ind' f) (all fs) end in
  match f with
  | Not f => case_not f (filter_ind' f)
  | Cond fid op => case_cond fid op
  | In fid els => case_in fid els
  | Or fs => case_or fs (all fs)
  | And fs => case_and fs (all fs)
  | GeoLowerThan p0 p1 r => case_geo p0 p1 r
  | GeoBoundingBox t0 t1 b0 b1 => case_box t0 t1 b0 b1
  end.
End filter_ind.

(** [FilterCondition::token_at_depth]. *)
Fixpoint token_at_depth (self : FilterCondition) (depth : N) : option Token :=
  let first := fix first (depth : N) (subfilters : list FilterCondition) : option Token :=
    match subfilters with
    | [] => None
    | f :: subfilters => match token_at_depth f depth with Some t => Some t | None => first depth subfilters end
    end in
  match self with
  | Cond fid _ => if (depth =? 0)%N then Some fid else None
  | Or subfilters => first (depth - 1)%N subfilters
  | And subfilters => first (depth - 1)%N subfilters
  | GeoLowerThan point0 _ _ => if (depth =? 0)%N then Some point0 else None
  | _ => None
  end.

(** [is_faceted_by] and [is_faceted]. *)
Definition is_faceted_by (field facet : string) : bool :=
  String.prefix facet field &&
  match substring (String.length facet) (String.length field - String.length facet) field with
  | EmptyString => true
  | String c _ => bool_decide (c = "."%char)
  end.
Definition is_faceted (field : string) (faceted_fields : list string) : bool :=
  existsb (is_faceted_by field) faceted_fields.

(** ** Floats *)
Definition f64_180 : f64 := 4640537203540230144.
Definition f64_minus_180 : f64 := 13863909240395005952.
Definition f64_90 : f64 := 4636033603912859648.
Definition f64_minus_90 : f64 := 13859405640767635456.

(** The comparisons of floats that are not NaN. *)
Definition f64_gt (x y : f64) : bool := (f64_value y <? f64_value x)%Z.
Definition f64_ge (x y : f64) : bool := (f64_value y <=? f64_value x)%Z.
Definition f64_lt (x y : f64) : bool := f64_gt y x.

(** [(lo..=hi).contains(&x)]. *)
Definition range_contains (lo hi x : f64) : bool := f64_ge x lo && f64_ge hi x.

(** What a filter reads of an index. *)
Record FilterIndex := mkFilterIndex {
  documents_ids : gset DocumentId;
  soft_deleted_documents_ids : gset DocumentId;
  filterable_fields : list string;
  fields_ids_map : FieldsIdsMap;
  facet_index : FacetIndex
}.

Section filter.
Context (normalize_facet : bytes → bytes).
(** [str::parse::<f64>]. *)
Context (parse_f64 : string → option f64).
(** The r-tree, if there is one, and the documents within a radius of a point. *)
Context (geo_rtree : FilterIndex → option (f64 → f64 → f64 → gset DocumentId)).

(** [Token::parse_finite_float]. *)
Definition parse_finite_float (self : Token) : outcome FilterError f64 :=
  value ← ok_or (parse_f64 (value self)) (InvalidFloat self);
  if is_finite value then Ok value else Err (NonFiniteFloat self).

Definition heed_error {A} (m : outcome FacetError A) : outcome FilterError A :=
  match m with Ok a => Ok a | Err e => Err (HeedError e) | Panic msg => Panic msg end.

Definition numbers_db (index : FacetIndex) : FacetDb := facet_id_docids (facet_numbers (facets index)).
Definition strings_db (index : FacetIndex) : FacetDb := facet_id_docids (facet_strings (facets index)).

Definition explore_facet_number_levels (db : FacetDb) (field_id : FieldId) (left_ right_ : Bound f64)
    (output : gset DocumentId) : outcome FilterError (gset DocumentId) :=
  let search := heed_error (find_docids_of_facet_within_bounds OrderedF64Codec.bytes_encode db field_id left_ right_ output) in
  match left_, right_ with
  | Included l, Included r => if f64_gt l r then Ok output else search
  | Included l, Excluded r => if f64_ge l r then Ok output else search
  | Excluded l, Excluded r => if f64_ge l r then Ok output else search
  | Excluded l, Included r => if f64_ge l r then Ok output else search
  | _, _ => search
  end.

(** The arm [Condition::Equal]; encoding a finite number does not fail. *)
Definition evaluate_equal (index : FacetIndex) (field_id : FieldId) (val : Token) : outcome FilterError (gset DocumentId) :=
  let string_docids :=
    value_docids (strings_db index) field_id (normalize_facet (list_ascii_of_string (value val))) in
  number_docids ←
    (match parse_finite_float val with
     | Ok n =>
         match OrderedF64Codec.bytes_encode n with
         | Some left_bound => Ok (value_docids (numbers_db index) field_id left_bound)
         | None => Err (HeedError Encoding)
         end
     | _ => Ok ∅
     end);
  Ok (string_docids ∪ number_docids).

Definition evaluate_operator (index : FilterIndex) (field_id : FieldId) (operator : Condition) :
    outcome FilterError (gset DocumentId) :=
  let fi := facet_index index in
  let explore left_ right_ := explore_facet_number_levels (numbers_db fi) field_id left_ right_ ∅ in
  match operator with
  | GreaterThan val => v ← parse_finite_float val; explore (Excluded v) (Included f64_MAX)
  | GreaterThanOrEqual val => v ← parse_finite_float val; explore (Included v) (Included f64_MAX)
  | LowerThan val => v ← parse_finite_float val; explore (Included f64_MIN) (Excluded v)
  | LowerThanOrEqual val => v ← parse_finite_float val; explore (Included f64_MIN) (Included v)
  | Between from to =>
      from ← parse_finite_float from;
      to ← parse_finite_float to;
      explore (Included from) (Included to)
  | CNull => Ok (docids_at field_id (facet_id_is_null_docids fi))
  | CEmpty => Ok (docids_at field_id (facet_id_is_empty_docids fi))
  | CExists => Ok (docids_at field_id (facet_id_exists_docids fi))
  | Equal val => evaluate_equal fi field_id val
  | NotEqual val =>
      docids ← evaluate_equal fi field_id val;
      Ok (documents_ids index ∖ docids)
  end.

Fixpoint evaluate_els (index : FilterIndex) (fid : FieldId) (els : list Token) (bitmap : gset DocumentId) :
    outcome FilterError (gset DocumentId) :=
  match els with
  | [] => Ok bitmap
  | el :: els =>
      el_bitmap ← evaluate_operator index fid (Equal el);
      evaluate_els index fid els (bitmap ∪ el_bitmap)
  end.

(** The arm [FilterCondition::Condition]. *)
Definition evaluate_condition (index : FilterIndex) (fid : Token) (op : Condition) : outcome FilterError (gset DocumentId) :=
  if is_faceted (value fid) (filterable_fields index) then
    match id (value fid) (fields_ids_map index) with
    | Some fid => evaluate_operator index fid op
    | None => Ok ∅
    end
  else Err (AttributeNotFilterable fid (value fid)).

(** The arm [FilterCondition::GeoLowerThan]. *)
Definition evaluate_geo_lower_than (index : FilterIndex) (point0 point1 radius : Token) : outcome FilterError (gset DocumentId) :=
  if bool_decide ("_geo"%string ∈ filterable_fields index) then
    lat ← parse_finite_float point0;
    lng ← parse_finite_float point1;
    if negb (range_contains f64_minus_90 f64_90 lat) then Err (BadLat point0 lat)
    else if negb (range_contains f64_minus_180 f64_180 lng) then Err (BadLng point1 lng)
    else
      radius ← parse_finite_float radius;
      Ok (match geo_rtree index with Some nearest => nearest lat lng radius | None => ∅ end)
  else Err (AttributeNotFilterable point0 "_geo").

(** The arm [FilterCondition::GeoBoundingBox]. *)
Definition evaluate_geo_bounding_box (index : FilterIndex) (top_right0 top_right1 bottom_left0 bottom_left1 : Token) :
    outcome FilterError (gset DocumentId) :=
  if bool_decide ("_geo"%string ∈ filterable_fields index) then
    tr0 ← parse_finite_float top_right0;
    tr1 ← parse_finite_float top_right1;
    bl0 ← parse_finite_float bottom_left0;
    bl1 ← parse_finite_float bottom_left1;
    if negb (range_contains f64_minus_90 f64_90 tr0) then Err (BadLat top_right0 tr0)
    else if negb (range_contains f64_minus_180 f64_180 tr1) then Err (BadLng top_right1 tr1)
    else if negb (range_contains f64_minus_90 f64_90 bl0) then Err (BadLat bottom_left0 bl0)
    else if negb (range_contains f64_minus_180 f64_180 bl1) then Err (BadLng bottom_left1 bl1)
    else if f64_lt tr0 bl0 then Err (BoundingBoxTopIsBelowBottom bottom_left1 tr0 bl0)
    else
      let geo_lat_token := mkToken (span top_right0) (Some "_geo.lat"%string) in
      selected_lat ← evaluate_condition index geo_lat_token (Between bottom_left0 top_right0);
      let geo_lng_token := mkToken (span top_right1) (Some "_geo.lng"%string) in
      selected_lng ←
        (if f64_lt tr1 bl1 then
           let min_lng_token := mkToken (span top_right1) (Some "-180.0"%string) in
           let max_lng_token := mkToken (span top_right1) (Some "180.0"%string) in
           left_ ← evaluate_condition index geo_lng_token (Between bottom_left1 max_lng_token);
           right_ ← evaluate_condition index geo_lng_token (Between min_lng_token top_right1);
           Ok (left_ ∪ right_)
         else evaluate_condition index geo_lng_token (Between bottom_left1 top_right1));
      Ok (selected_lat ∩ selected_lng)
  else Err (AttributeNotFilterable top_right0 "_geo").

(** The loops of the arms [FilterCondition::Or] and [FilterCondition::And]. *)
Definition evaluate_or (inner_evaluate : FilterCondition → outcome FilterError (gset DocumentId)) :=
  fix evaluate_or (subfilters : list FilterCondition) (bitmap : gset DocumentId) : outcome FilterError (gset DocumentId) :=
    match subfilters with
    | [] => Ok bitmap
    | f :: subfilters => docids ← inner_evaluate f; evaluate_or subfilters (bitmap ∪ docids)
    end.
Definition evaluate_and (inner_evaluate : FilterCondition → outcome FilterError (gset DocumentId)) :=
  fix evaluate_and (subfilters : list FilterCondition) (bitmap : gset DocumentId) : outcome FilterError (gset DocumentId) :=
    match subfilters with
    | [] => Ok bitmap
    | f :: subfilters =>
        if decide (bitmap = ∅) then Ok bitmap
        else docids ← inner_evaluate f; evaluate_and subfilters (bitmap ∩ docids)
    end.

Fixpoint inner_evaluate (index : FilterIndex) (condition : FilterCondition) : outcome FilterError (gset DocumentId) :=
  match condition with
  | Not f =>
      selected ← inner_evaluate index f;
      Ok (documents_ids index ∖ selected)
  | In fid els =>
      if is_faceted (value fid) (filterable_fields index) then
        match id (value fid) (fields_ids_map index) with
        | Some fid => evaluate_els index fid els ∅
        | None => Ok ∅
        end
      else Err (AttributeNotFilterable fid (value fid))
  | Cond fid op => evaluate_condition index fid op
  | Or subfilters => evaluate_or (inner_evaluate index) subfilters ∅
  | And [] => Ok ∅
  | And (first_subfilter :: subfilters) =>
      bitmap ← inner_evaluate index first_subfilter;
      evaluate_and (inner_evaluate index) subfilters bitmap
  | GeoLowerThan point0 point1 radius => evaluate_geo_lower_than index point0 point1 radius
  | GeoBoundingBox top_right0 top_right1 bottom_left0 bottom_left1 =>
      evaluate_geo_bounding_box index top_right0 top_right1 bottom_left0 bottom_left1
  end.

Definition evaluate (self : FilterCondition) (index : FilterIndex) : outcome FilterError (gset DocumentId) :=
  result ← inner_evaluate index self;
  Ok (result ∖ soft_deleted_documents_ids index).
End filter.

(** ** The meaning of a filter *)
Section meaning.
Context {Number : Type}.
Context (as_f64 : Number → option f64) (normalize_facet : bytes → bytes) (parse_f64 : string → option f64).
Context (geo_rtree : FilterIndex → option (f64 → f64 → f64 → gset DocumentId)).
Context (known : FieldId → DocumentId → Json Number → Prop) (index : FilterIndex).

(** A finite number of the field of the document that satisfies [P]. *)
Definition number_in (f : FieldId) (d : DocumentId) (P : f64 → Prop) : Prop :=
  ∃ v n x, known f d v ∧ JNumber n ∈ scalars v ∧ as_f64 n = Some x ∧ is_finite x = true ∧ P x.

(** A string or a boolean of the field whose normalized and truncated text is [text]. *)
Definition string_is (f : FieldId) (d : DocumentId) (text : bytes) : Prop :=
  ∃ v s, known f d v ∧ s ∈ scalars v ∧ scalar_value as_f64 normalize_facet Strings s = Some text.

(** The finite number of a token. *)
Definition number_of (val : Token) (y : f64) : Prop := parse_f64 (value val) = Some y ∧ is_finite y = true.

Definition between (from to x : f64) : Prop := ¬ before x from ∧ ¬ before to x.

Definition sat_equal (f : FieldId) (d : DocumentId) (val : Token) : Prop :=
  string_is f d (normalize_facet (list_ascii_of_string (value val))) ∨
  ∃ y, number_of val y ∧ number_in f d (λ x, x = y).

Definition sat_operator (f : FieldId) (d : DocumentId) (op : Condition) : Prop :=
  match op with
  | GreaterThan val => ∃ y, number_of val y ∧ number_in f d (λ x, before y x)
  | GreaterThanOrEqual val => ∃ y, number_of val y ∧ number_in f d (λ x, ¬ before x y)
  | LowerThan val => ∃ y, number_of val y ∧ number_in f d (λ x, before x y)
  | LowerThanOrEqual val => ∃ y, number_of val y ∧ number_in f d (λ x, ¬ before y x)
  | Between from to => ∃ y z, number_of from y ∧ number_of to z ∧ number_in f d (between y z)
  | Equal val => sat_equal f d val
  | NotEqual val => ¬ sat_equal f d val
  | CNull => known f d JNull
  | CEmpty => ∃ v, known f d v ∧ empty_value v = true
  | CExists => ∃ v, known f d v
  end.

Definition sat_condition (name : string) (d : DocumentId) (P : FieldId → Prop) : Prop :=
  match id name (fields_ids_map index) with Some f => P f | None => False end.

(** A document within a bounding box, which may cross the antimeridian. *)
Definition sat_box (d : DocumentId) (tr0 tr1 bl0 bl1 : f64) : Prop :=
  sat_condition "_geo.lat" d (λ f, number_in f d (between bl0 tr0)) ∧
  sat_condition "_geo.lng" d (λ f,
    if f64_lt tr1 bl1 then number_in f d (between bl1 f64_180) ∨ number_in f d (between f64_minus_180 tr1)
    else number_in f d (between bl1 tr1)).

Fixpoint sat (d : DocumentId) (condition : FilterCondition) : Prop :=
  match condition with
  | Not f => ¬ sat d f
  | Cond fid op => sat_condition (value fid) d (λ f, sat_operator f d op)
  | In fid els => sat_condition (value fid) d (λ f, ∃ el, el ∈ els ∧ sat_equal f d el)
  | Or subfilters => foldr (λ f P, sat d f ∨ P) False subfilters
  | And [] => False
  | And (f :: subfilters) => sat d f ∧ foldr (λ f P, sat d f ∧ P) True subfilters
  | GeoLowerThan p0 p1 r =>
      ∃ lat lng radius nearest, number_of p0 lat ∧ number_of p1 lng ∧ number_of r radius ∧
        geo_rtree index = Some nearest ∧ d ∈ nearest lat lng radius
  | GeoBoundingBox t0 t1 b0 b1 =>
      ∃ tr0 tr1 bl0 bl1, number_of t0 tr0 ∧ number_of t1 tr1 ∧ number_of b0 bl0 ∧ number_of b1 bl1 ∧ sat_box d tr0 tr1 bl0 bl1
  end.

(** What the index guarantees: the facets are those of the documents, every filterable
    field is faceted, and the documents that are known are indexed or soft deleted. *)
Record filter_index_ok `{Obkv} `{SerdeJson Number} (fs : list FieldId) : Prop := {
  ok_hold : facets_hold as_f64 normalize_facet fs (facet_index index) known;
  ok_length : (N.of_nat (length (numbers_db (facet_index index))) ≤ usize_max)%N;
  ok_faceted name f : is_faceted name (filterable_fields index) = true → id name (fields_ids_map index) = Some f → f ∈ fs;
  ok_known f d v : known f d v → d ∈ documents_ids index ∪ soft_deleted_documents_ids index;
  ok_disjoint : documents_ids index ## soft_deleted_documents_ids index;
  ok_geo nearest lat lng radius : geo_rtree index = Some nearest →
    nearest lat lng radius ⊆ documents_ids index ∪ soft_deleted_documents_ids index
}.
End meaning.

Section evaluate.
Context {Number : Type} {O : Obkv} {J : SerdeJson Number}.
Context (as_f64 : Number → option f64) (normalize_facet : bytes → bytes) (parse_f64 : string → option f64).
Context (geo_rtree : FilterIndex → option (f64 → f64 → f64 → gset DocumentId)).
Context (known : FieldId → DocumentId → Json Number → Prop) (index : FilterIndex) (fs : list FieldId).

(** [str::parse] gives floats, and the longitudes of the antimeridian. *)
Definition parse_f64_ok : Prop :=
  (∀ s x, parse_f64 s = Some x → f64_ok x) ∧
  parse_f64 "180.0" = Some f64_180 ∧ parse_f64 "-180.0" = Some f64_minus_180.

Hypothesis Hfloats : floats_ok as_f64.
Hypothesis Hparse : parse_f64_ok.
Hypothesis Hok : filter_index_ok as_f64 normalize_facet geo_rtree known index fs.

#[local] Abbreviation number_in := (number_in as_f64 known).
#[local] Abbreviation number_of := (number_of parse_f64).
#[local] Abbreviation sat := (sat as_f64 normalize_facet parse_f64 geo_rtree known index).
#[local] Abbreviation sat_equal := (sat_equal as_f64 normalize_facet parse_f64 known).
#[local] Abbreviation sat_operator := (sat_operator as_f64 normalize_facet parse_f64 known).

Lemma parse_finite_float_Ok val x :
  parse_finite_float parse_f64 val = Ok x ↔ number_of val x.
Proof.
  unfold parse_finite_float, Filter.number_of. destruct (parse_f64 (value val)) as [y|]; cbn; [|by split; [|intros [? _]]].
  destruct (is_finite y) eqn:Hy; split.
  - by intros [= ->].
  - by intros [[= ->] _].
  - done.
  - intros [[= ->] ?]. congruence.
Qed.

Lemma number_of_ok val x : number_of val x → f64_ok x ∧ is_finite x = true.
Proof. intros [Hx Hfin]. split; [by eapply (proj1 Hparse)|done]. Qed.

(** The values of the numbers of a field. *)
Lemma elem_of_number_value f d b :
  f ∈ fs → d ∈ value_docids (numbers_db (facet_index index)) f b ↔
  number_in f d (λ x, OrderedF64Codec.bytes_encode x = Some b).
Proof.
  intros Hf. unfold numbers_db. pose proof (hold_values _ _ _ _ _ (ok_hold _ _ _ _ _ _ Hok) Numbers f b d Hf) as Hv.
  cbn [facets_of] in Hv. rewrite Hv. unfold field_values. setoid_rewrite list_elem_of_omap. split.
  - intros (v & Hk & s & Hs & Hb). destruct s as [| |n| | |]; cbn in Hb; try done.
    destruct (as_f64 n) as [x|] eqn:Hn; cbn in Hb; [|done]. exists v, n, x. split_and!; try done.
    unfold OrderedF64Codec.bytes_encode, f64_into_bytes in Hb. by destruct (is_finite x).
  - intros (v & n & x & Hk & Hs & Hn & _ & Hb). exists v. split; [done|]. exists (JNumber n). split; [done|]. cbn. by rewrite Hn.
Qed.

Definition above_f (lo : Bound f64) (x : f64) : Prop :=
  match lo with Included l => ¬ before x l | Excluded l => before l x | Unbounded => True end.
Definition below_f (hi : Bound f64) (x : f64) : Prop :=
  match hi with Included r => ¬ before r x | Excluded r => before x r | Unbounded => True end.
Definition bound_ok (b : Bound f64) : Prop :=
  match b with Included x | Excluded x => f64_ok x ∧ is_finite x = true | Unbounded => True end.

Lemma encode_bound_ok b :
  bound_ok b → ∃ b', encode_bound OrderedF64Codec.bytes_encode b = Ok b' ∧
    ∀ x bx, f64_ok x → OrderedF64Codec.bytes_encode x = Some bx →
      (above b' bx ↔ above_f b x) ∧ (below b' bx ↔ below_f b x).
Proof.
  destruct b as [y|y|]; cbn [bound_ok encode_bound]; [| |by intros _; exists Unbounded].
  all: intros [Hy Hfin]; destruct (encode_finite y Hy Hfin) as [b' Hb']; rewrite Hb'; cbn [ok_or mbind outcome_bind];
    eexists; (split; [done|]); intros x bx Hx Hbx; cbn [above below above_f below_f];
    by rewrite (encode_before x y bx b'), (encode_before y x b' bx).
Qed.

(** A range of numbers, if the shortcut for an empty range is right. *)
Lemma explore_levels_spec f lo hi :
  f ∈ fs → bound_ok lo → bound_ok hi →
  (∀ x, f64_ok x → is_finite x = true →
    match lo, hi with
    | Included l, Included r => f64_gt l r
    | Included l, Excluded r | Excluded l, Excluded r | Excluded l, Included r => f64_ge l r
    | _, _ => false
    end = true → ¬ (above_f lo x ∧ below_f hi x)) →
  ∃ s, explore_facet_number_levels (numbers_db (facet_index index)) f lo hi ∅ = Ok s ∧
    ∀ d, d ∈ s ↔ number_in f d (λ x, above_f lo x ∧ below_f hi x).
Proof.
  intros Hf Hlo Hhi Hshort. set (db := numbers_db (facet_index index)).
  destruct (hold_store _ _ _ _ _ (ok_hold _ _ _ _ _ _ Hok) Numbers) as [[Hs Htree] _].
  destruct (encode_bound_ok lo Hlo) as (lo' & Hlo' & Habove). destruct (encode_bound_ok hi Hhi) as (hi' & Hhi' & Hbelow).
  assert (∃ s, heed_error (find_docids_of_facet_within_bounds OrderedF64Codec.bytes_encode db f lo hi ∅) = Ok s ∧
    ∀ d, d ∈ s ↔ number_in f d (λ x, above_f lo x ∧ below_f hi x)) as Hsearch.
  { destruct (find_docids_elem OrderedF64Codec.bytes_encode db f lo hi lo' hi' ∅) as (s & -> & Hel); [|apply (ok_length _ _ _ _ _ _ Hok)|done|done|].
    { apply facet_ok_tree, Htree, Hf. }
    exists s. split; [done|]. intros d. rewrite Hel.
    assert (∀ k, (∃ v, db_get (mkKey f 0 k) db = Some v ∧ d ∈ gv_bitmap v) ↔ d ∈ value_docids db f k) as Hget.
    { intros k. unfold value_docids. destruct (db_get _ db) as [v|]; [naive_solver|]. set_solver. }
    split.
    - intros [?%elem_of_empty|(k & v & Hk & Ha & Hb & Hd)]; [done|].
      assert (d ∈ value_docids db f k) as Hin by (apply Hget; by exists v).
      apply elem_of_number_value in Hin as (w & n & x & Hw & Hn & Hx & Hfin & He); [|done]. exists w, n, x.
      pose proof (Hfloats n x Hx) as Hxok. split_and!; try done; [by eapply (Habove x k)|by eapply (Hbelow x k)].
    - intros (w & n & x & Hw & Hn & Hx & Hfin & Ha & Hb). pose proof (Hfloats n x Hx) as Hxok. right.
      destruct (encode_finite x Hxok Hfin) as [k Hk].
      assert (d ∈ value_docids db f k) as Hin by (apply elem_of_number_value; [done|]; by exists w, n, x).
      apply Hget in Hin as (v & Hv & Hd). exists k, v. split_and!; [done|by eapply (Habove x k)|by eapply (Hbelow x k)|done]. }
  assert (∀ b : bool, (b = true → ∀ x, f64_ok x → is_finite x = true → ¬ (above_f lo x ∧ below_f hi x)) →
    ∃ s, (if b then Ok ∅ else heed_error (find_docids_of_facet_within_bounds OrderedF64Codec.bytes_encode db f lo hi ∅)) = Ok s ∧
    ∀ d, d ∈ s ↔ number_in f d (λ x, above_f lo x ∧ below_f hi x)) as Hif.
  { intros [] Hb; [|exact Hsearch]. exists ∅. split; [done|]. intros d. split; [by intros ?%elem_of_empty|].
    intros (w & n & x & _ & _ & Hx & Hfin & Hr). exfalso. by apply (Hb eq_refl x (Hfloats n x Hx)). }
  unfold explore_facet_number_levels. destruct lo as [l|l|], hi as [r|r|]; try exact Hsearch; apply Hif; intros Hb x Hx Hfin; by apply Hshort.
Qed.

(** *** Operators *)
Lemma MAX_after x : f64_ok x → is_finite x = true → ¬ before f64_MAX x.
Proof.
  intros Hx Hfin. pose proof (finite_bounds x Hx Hfin) as Hb. intros [Hlt|[Heq Hlt]]; [lia|].
  apply f64_value_inj in Heq as <-; [lia|by vm_compute|done|by vm_compute].
Qed.

Lemma MIN_before x : f64_ok x → is_finite x = true → ¬ before x f64_MIN.
Proof.
  intros Hx Hfin. pose proof (finite_bounds x Hx Hfin) as Hb. intros [Hlt|[Heq Hlt]]; [lia|]. symmetry in Heq.
  apply f64_value_inj in Heq as <-; [lia|by vm_compute|done|by vm_compute].
Qed.

(** Numbers at an end of the range are equal to it. *)
Lemma at_MAX v x : f64_ok v → is_finite v = true → f64_ok x → is_finite x = true → f64_ge v f64_MAX = true → ¬ before v x.
Proof.
  intros Hv Hfv Hx Hfx Hge%Z.leb_le. pose proof (finite_bounds v Hv Hfv). pose proof (finite_bounds x Hx Hfx).
  assert (f64_value f64_MAX ≠ 0%Z) as Hne by by vm_compute.
  assert (v = f64_MAX) as -> by (apply f64_value_inj; [done|by vm_compute|lia|intros ?; apply Hne; lia]).
  by apply MAX_after.
Qed.

Lemma at_MIN v x : f64_ok v → is_finite v = true → f64_ok x → is_finite x = true → f64_ge f64_MIN v = true → ¬ before x v.
Proof.
  intros Hv Hfv Hx Hfx Hge%Z.leb_le. pose proof (finite_bounds v Hv Hfv). pose proof (finite_bounds x Hx Hfx).
  assert (f64_value f64_MIN ≠ 0%Z) as Hne by by vm_compute.
  assert (v = f64_MIN) as -> by (apply f64_value_inj; [done|by vm_compute|lia|intros ?; apply Hne; lia]).
  by apply MIN_before.
Qed.

Lemma number_in_iff f d (P Q : f64 → Prop) :
  (∀ x, f64_ok x → is_finite x = true → P x ↔ Q x) → number_in f d P ↔ number_in f d Q.
Proof.
  intros HPQ. split; intros (v & n & x & Hk & Hs & Hn & Hfin & HP); exists v, n, x; pose proof (Hfloats n x Hn);
    (split_and!; [done..|by apply HPQ]).
Qed.

Lemma f64_gt_before l r x : f64_gt l r = true → ¬ (¬ before x l ∧ ¬ before r x).
Proof. intros Hgt%Z.ltb_lt [H1 H2]. unfold before in *. lia. Qed.

Lemma evaluate_equal_spec f val :
  f ∈ fs → ∃ s, evaluate_equal normalize_facet parse_f64 (facet_index index) f val = Ok s ∧ ∀ d, d ∈ s ↔ sat_equal f d val.
Proof.
  intros Hf. unfold evaluate_equal.
  assert (∀ d text, d ∈ value_docids (strings_db (facet_index index)) f text ↔ string_is as_f64 normalize_facet known f d text) as Hstr.
  { intros d text. pose proof (hold_values _ _ _ _ _ (ok_hold _ _ _ _ _ _ Hok) Strings f text d Hf) as Hv.
    cbn [facets_of] in Hv. unfold strings_db. rewrite Hv. unfold field_values. setoid_rewrite list_elem_of_omap.
    unfold string_is. naive_solver. }
  destruct (parse_finite_float parse_f64 val) as [y| |] eqn:Hy.
  - apply parse_finite_float_Ok in Hy. destruct (number_of_ok val y Hy) as [Hyok Hfin].
    destruct (encode_finite y Hyok Hfin) as [b Hb]. rewrite Hb. cbn [mbind outcome_bind]. eexists. split; [done|].
    intros d. rewrite elem_of_union, Hstr, elem_of_number_value by done. unfold Filter.sat_equal. f_equiv. split.
    + intros Hin. exists y. split; [done|]. eapply number_in_iff; [|exact Hin]. intros x Hx Hfx. split; [intros ->; done|].
      intros Hbx. destruct (f64_decode_encode x b Hx Hbx) as [_ H1], (f64_decode_encode y b Hyok Hb) as [_ H2]. congruence.
    + intros (y' & Hy' & Hin). assert (y' = y) as -> by (destruct Hy, Hy'; congruence).
      eapply number_in_iff; [|exact Hin]. intros x Hx Hfx. split; [|by intros ->].
      intros Hbx. destruct (f64_decode_encode x b Hx Hbx) as [_ H1], (f64_decode_encode y b Hyok Hb) as [_ H2]. congruence.
  - cbn [mbind outcome_bind]. eexists. split; [done|]. intros d. rewrite union_empty_r_L, Hstr. unfold Filter.sat_equal.
    split; [by left|]. intros [?|(y & Hy' & _)]; [done|]. apply parse_finite_float_Ok in Hy'. congruence.
  - unfold parse_finite_float in Hy. destruct (parse_f64 _) as [y|]; cbn in Hy; [|done]. by destruct (is_finite y).
Qed.

(** The documents of a condition. *)
Definition holds (s : gset DocumentId) (P : DocumentId → Prop) : Prop :=
  (∀ d, d ∈ documents_ids index → d ∈ s ↔ P d) ∧ s ⊆ documents_ids index ∪ soft_deleted_documents_ids index.

Lemma number_in_known f d P : number_in f d P → d ∈ documents_ids index ∪ soft_deleted_documents_ids index.
Proof. intros (v & n & x & Hk & _). by apply (ok_known _ _ _ _ _ _ Hok f d v). Qed.

Lemma sat_equal_known f d val : sat_equal f d val → d ∈ documents_ids index ∪ soft_deleted_documents_ids index.
Proof. intros [(v & s & Hk & _)|(y & _ & Hn)]; [by apply (ok_known _ _ _ _ _ _ Hok f d v)|by eapply number_in_known]. Qed.

Lemma explore_holds f lo hi P :
  f ∈ fs → bound_ok lo → bound_ok hi →
  (∀ x, f64_ok x → is_finite x = true →
    match lo, hi with
    | Included l, Included r => f64_gt l r
    | Included l, Excluded r | Excluded l, Excluded r | Excluded l, Included r => f64_ge l r
    | _, _ => false
    end = true → ¬ (above_f lo x ∧ below_f hi x)) →
  (∀ d, number_in f d (λ x, above_f lo x ∧ below_f hi x) ↔ P d) →
  ∃ s, explore_facet_number_levels (numbers_db (facet_index index)) f lo hi ∅ = Ok s ∧ holds s P.
Proof.
  intros Hf Hlo Hhi Hshort HP. destruct (explore_levels_spec f lo hi Hf Hlo Hhi Hshort) as (s & Hrun & Hs).
  exists s. split; [done|]. split; [intros d _; by rewrite Hs, HP|]. intros d Hd%Hs. by eapply number_in_known.
Qed.

Lemma with_number val (P : f64 → Prop) y : number_of val y → P y ↔ ∃ z, number_of val z ∧ P z.
Proof. intros Hy. split; [by exists y|]. intros (z & Hz & HP). destruct Hy, Hz. by simplify_eq. Qed.

Lemma bound_MAX : bound_ok (Included f64_MAX).
Proof. split; by vm_compute. Qed.
Lemma bound_MIN : bound_ok (Included f64_MIN).
Proof. split; by vm_compute. Qed.

(** A comparison with one number. *)
Lemma one_number_holds f val (lo hi : f64 → Bound f64) (P : f64 → f64 → Prop) :
  f ∈ fs → (∃ y, number_of val y) →
  (∀ y, f64_ok y → is_finite y = true → bound_ok (lo y) ∧ bound_ok (hi y) ∧
    ∀ x, f64_ok x → is_finite x = true →
      (match lo y, hi y with
       | Included l, Included r => f64_gt l r
       | Included l, Excluded r | Excluded l, Excluded r | Excluded l, Included r => f64_ge l r
       | _, _ => false
       end = true → ¬ (above_f (lo y) x ∧ below_f (hi y) x)) ∧
      (above_f (lo y) x ∧ below_f (hi y) x ↔ P y x)) →
  ∃ s, (v ← parse_finite_float parse_f64 val;
        explore_facet_number_levels (numbers_db (facet_index index)) f (lo v) (hi v) ∅) = Ok s ∧
    holds s (λ d, ∃ y, number_of val y ∧ number_in f d (P y)).
Proof.
  intros Hf [y Hy] Hb. rewrite (proj2 (parse_finite_float_Ok val y) Hy). cbn [mbind outcome_bind].
  destruct (number_of_ok val y Hy) as [Hyok Hfy]. destruct (Hb y Hyok Hfy) as (Hlo & Hhi & HP).
  apply explore_holds; [done|done|done|intros x Hx Hfx; by apply HP|].
  intros d. rewrite <- (with_number val (λ y, number_in f d (P y)) y Hy). apply number_in_iff. intros x Hx Hfx. by apply HP.
Qed.

(** Every number of the operator is finite. *)
Definition operator_numbers (op : Condition) : list Token :=
  match op with
  | GreaterThan val | GreaterThanOrEqual val | LowerThan val | LowerThanOrEqual val => [val]
  | Between from to => [from; to]
  | _ => []
  end.

Lemma evaluate_operator_spec f op :
  f ∈ fs → (∀ val, val ∈ operator_numbers op → ∃ y, number_of val y) →
  ∃ s, evaluate_operator normalize_facet parse_f64 index f op = Ok s ∧ holds s (λ d, sat_operator f d op).
Proof.
  intros Hf Hnum. destruct op as [val|val|val|val| | | |val|val|from to]; cbn [operator_numbers evaluate_operator] in *.
  - apply (one_number_holds f val Excluded (λ _, Included f64_MAX) before Hf (Hnum val ltac:(left))). intros y Hy Hfy.
    split; [exact (conj Hy Hfy)|split; [exact bound_MAX|]]. intros x Hx Hfx. cbn [above_f below_f]. split.
    + intros Hge [Ha _]. by apply (at_MAX y x).
    + pose proof (MAX_after x Hx Hfx). tauto.
  - apply (one_number_holds f val Included (λ _, Included f64_MAX) (λ y x, ¬ before x y) Hf (Hnum val ltac:(left))). intros y Hy Hfy.
    split; [exact (conj Hy Hfy)|split; [exact bound_MAX|]]. intros x Hx Hfx. cbn [above_f below_f]. split.
    + apply f64_gt_before.
    + pose proof (MAX_after x Hx Hfx). tauto.
  - destruct (evaluate_equal_spec f val Hf) as (s & -> & Hs). exists s. split; [done|]. split; [intros d _; apply Hs|].
    intros d Hd%Hs. by eapply sat_equal_known.
  - destruct (evaluate_equal_spec f val Hf) as (s & -> & Hs). cbn [mbind outcome_bind]. eexists. split; [done|].
    split; [|set_solver]. intros d Hd. rewrite elem_of_difference. rewrite (Hs d). cbn. naive_solver.
  - eexists. split; [done|]. pose proof (λ d, hold_null _ _ _ _ _ (ok_hold _ _ _ _ _ _ Hok) f d Hf) as Hn. split; [intros d _; apply Hn|].
    intros d Hd%Hn. by apply (ok_known _ _ _ _ _ _ Hok f d JNull).
  - eexists. split; [done|]. pose proof (λ d, hold_empty _ _ _ _ _ (ok_hold _ _ _ _ _ _ Hok) f d Hf) as Hn. split; [intros d _; apply Hn|].
    intros d (v & Hv & _)%Hn. by apply (ok_known _ _ _ _ _ _ Hok f d v).
  - eexists. split; [done|]. pose proof (λ d, hold_exists _ _ _ _ _ (ok_hold _ _ _ _ _ _ Hok) f d Hf) as Hn. split; [intros d _; apply Hn|].
    intros d (v & Hv)%Hn. by apply (ok_known _ _ _ _ _ _ Hok f d v).
  - apply (one_number_holds f val (λ _, Included f64_MIN) Excluded (λ y x, before x y) Hf (Hnum val ltac:(left))). intros y Hy Hfy.
    split; [exact bound_MIN|split; [exact (conj Hy Hfy)|]]. intros x Hx Hfx. cbn [above_f below_f]. split.
    + intros Hge [_ Hb]. by apply (at_MIN y x).
    + pose proof (MIN_before x Hx Hfx). tauto.
  - apply (one_number_holds f val (λ _, Included f64_MIN) Included (λ y x, ¬ before y x) Hf (Hnum val ltac:(left))). intros y Hy Hfy.
    split; [exact bound_MIN|split; [exact (conj Hy Hfy)|]]. intros x Hx Hfx. cbn [above_f below_f]. split.
    + apply f64_gt_before.
    + pose proof (MIN_before x Hx Hfx). tauto.
  - destruct (Hnum from ltac:(left)) as [y Hy], (Hnum to ltac:(right; left)) as [z Hz].
    rewrite (proj2 (parse_finite_float_Ok from y) Hy), (proj2 (parse_finite_float_Ok to z) Hz). cbn [mbind outcome_bind].
    destruct (number_of_ok from y Hy) as [Hyok Hfy], (number_of_ok to z Hz) as [Hzok Hfz]. apply explore_holds; [done|done|done| |].
    + intros x Hx Hfx Hgt. by apply f64_gt_before.
    + intros d. cbn [Filter.sat_operator above_f below_f]. split; [intros ?; by exists y, z|].
      intros (y' & z' & [Hy' _] & [Hz' _] & Hin). destruct Hy, Hz. by simplify_eq.
Qed.

(** *** Conditions *)
Lemma holds_ext s P Q : (∀ d, P d ↔ Q d) → holds s P → holds s Q.
Proof. intros HPQ [H1 H2]. split; [|done]. intros d Hd. by rewrite <- HPQ, H1. Qed.
Lemma holds_empty : holds ∅ (λ _, False).
Proof. split; [|set_solver]. intros d _. set_solver. Qed.
Lemma holds_union s t P Q : holds s P → holds t Q → holds (s ∪ t) (λ d, P d ∨ Q d).
Proof. intros [H1 H2] [H3 H4]. split; [|set_solver]. intros d Hd. by rewrite elem_of_union, H1, H3. Qed.
Lemma holds_inter s t P Q : holds s P → holds t Q → holds (s ∩ t) (λ d, P d ∧ Q d).
Proof. intros [H1 H2] [H3 H4]. split; [|set_solver]. intros d Hd. by rewrite elem_of_intersection, H1, H3. Qed.
Lemma holds_not s P : holds s P → holds (documents_ids index ∖ s) (λ d, ¬ P d).
Proof. intros [H1 _]. split; [|set_solver]. intros d Hd. rewrite elem_of_difference, H1 by done. tauto. Qed.

Lemma operator_numbers_Ok f op s :
  evaluate_operator normalize_facet parse_f64 index f op = Ok s → ∀ val, val ∈ operator_numbers op → ∃ y, number_of val y.
Proof.
  intros Hrun val Hin. destruct op; cbn [operator_numbers evaluate_operator] in *; try (by apply not_elem_of_nil in Hin).
  1, 2, 3, 4: apply list_elem_of_singleton in Hin as ->;
    destruct (parse_finite_float parse_f64 _) as [y| |] eqn:Hy; [apply parse_finite_float_Ok in Hy; by exists y|done|done].
  destruct (parse_finite_float parse_f64 from) as [y| |] eqn:Hy; [|done|done].
  destruct (parse_finite_float parse_f64 to) as [z| |] eqn:Hz; [|done|done]. rewrite parse_finite_float_Ok in Hy, Hz.
  apply elem_of_cons in Hin as [->| ->%list_elem_of_singleton]; [by exists y|by exists z].
Qed.

Lemma evaluate_condition_spec fid op :
  is_faceted (value fid) (filterable_fields index) = true → (∀ val, val ∈ operator_numbers op → ∃ y, number_of val y) →
  ∃ s, evaluate_condition normalize_facet parse_f64 index fid op = Ok s ∧
    holds s (λ d, sat_condition index (value fid) d (λ f, sat_operator f d op)).
Proof.
  intros Hfac Hnum. unfold evaluate_condition, sat_condition. rewrite Hfac.
  destruct (id (value fid) (fields_ids_map index)) as [f|] eqn:Hf; [|exists ∅; split; [done|apply holds_empty]].
  apply evaluate_operator_spec; [|done]. by eapply (ok_faceted _ _ _ _ _ _ Hok).
Qed.

Lemma evaluate_condition_Ok fid op s :
  evaluate_condition normalize_facet parse_f64 index fid op = Ok s →
  holds s (λ d, sat_condition index (value fid) d (λ f, sat_operator f d op)).
Proof.
  unfold evaluate_condition, sat_condition. destruct (is_faceted (value fid) (filterable_fields index)) eqn:Hfac; [|done].
  destruct (id (value fid) (fields_ids_map index)) as [f|] eqn:Hf; [|intros [= <-]; apply holds_empty].
  intros Hrun. assert (f ∈ fs) as Hin by by eapply (ok_faceted _ _ _ _ _ _ Hok).
  destruct (evaluate_operator_spec f op Hin (operator_numbers_Ok f op s Hrun)) as (s' & Hrun' & Hs).
  rewrite Hrun in Hrun'. by injection Hrun' as ->.
Qed.

Lemma evaluate_els_spec f els bitmap P :
  f ∈ fs → holds bitmap P →
  ∃ s, evaluate_els normalize_facet parse_f64 index f els bitmap = Ok s ∧
    holds s (λ d, P d ∨ ∃ el, el ∈ els ∧ sat_equal f d el).
Proof.
  intros Hf. revert bitmap P. induction els as [|el els IH]; intros bitmap P HP; cbn [evaluate_els].
  { exists bitmap. split; [done|]. eapply holds_ext; [|exact HP]. intros d. split; [by left|]. by intros [?|(? & ?%not_elem_of_nil & _)]. }
  destruct (evaluate_operator_spec f (Equal el) Hf) as (s & -> & Hs); [by intros ? ?%not_elem_of_nil|].
  cbn [mbind outcome_bind]. destruct (IH (bitmap ∪ s) _ (holds_union _ _ _ _ HP Hs)) as (s' & Hrun & Hs').
  exists s'. split; [done|]. eapply holds_ext; [|exact Hs']. intros d. cbn [Filter.sat_operator].
  setoid_rewrite elem_of_cons. naive_solver.
Qed.

Lemma evaluate_geo_Ok p0 p1 r s :
  evaluate_geo_lower_than parse_f64 geo_rtree index p0 p1 r = Ok s → holds s (λ d, sat d (GeoLowerThan p0 p1 r)).
Proof.
  unfold evaluate_geo_lower_than. case_bool_decide; [|done].
  destruct (parse_finite_float parse_f64 p0) as [lat| |] eqn:Hp0; [|done|done].
  destruct (parse_finite_float parse_f64 p1) as [lng| |] eqn:Hp1; [|done|done]. cbn [mbind outcome_bind].
  destruct (negb _); [done|]. destruct (negb _); [done|].
  destruct (parse_finite_float parse_f64 r) as [radius| |] eqn:Hr; [|done|done]. cbn [mbind outcome_bind]. intros [= <-].
  rewrite parse_finite_float_Ok in Hp0, Hp1, Hr. cbn [Filter.sat]. destruct (geo_rtree index) as [nearest|] eqn:Hg.
  - split; [|by apply (ok_geo _ _ _ _ _ _ Hok)]. intros d _. split; [intros Hd; by exists lat, lng, radius, nearest|].
    intros (x & y & z & n & [? _] & [? _] & [? _] & [= ->] & Hd). destruct Hp0, Hp1, Hr. by simplify_eq.
  - eapply holds_ext; [|apply holds_empty]. intros d. split; [done|]. by intros (? & ? & ? & ? & _ & _ & _ & ? & _).
Qed.

(** The longitudes of a bounding box. *)
Lemma antimeridian s : number_of (mkToken s (Some "180.0"%string)) f64_180 ∧ number_of (mkToken s (Some "-180.0"%string)) f64_minus_180.
Proof. destruct Hparse as (_ & H1 & H2). split; split; (exact H1 || exact H2 || by vm_compute). Qed.

Lemma sat_between name d from to y z :
  number_of from y → number_of to z →
  sat_condition index name d (λ f, sat_operator f d (Between from to)) ↔
  sat_condition index name d (λ f, number_in f d (between y z)).
Proof.
  intros Hy Hz. unfold sat_condition. destruct (id name _); [|done]. cbn [Filter.sat_operator]. split; [|intros ?; by exists y, z].
  intros (y' & z' & [? _] & [? _] & Hin). destruct Hy, Hz. by simplify_eq.
Qed.

Lemma evaluate_box_Ok t0 t1 b0 b1 s :
  evaluate_geo_bounding_box normalize_facet parse_f64 index t0 t1 b0 b1 = Ok s →
  holds s (λ d, sat d (GeoBoundingBox t0 t1 b0 b1)).
Proof.
  unfold evaluate_geo_bounding_box. case_bool_decide; [|done].
  destruct (parse_finite_float parse_f64 t0) as [tr0| |] eqn:Ht0; [|done|done].
  destruct (parse_finite_float parse_f64 t1) as [tr1| |] eqn:Ht1; [|done|done].
  destruct (parse_finite_float parse_f64 b0) as [bl0| |] eqn:Hb0; [|done|done].
  destruct (parse_finite_float parse_f64 b1) as [bl1| |] eqn:Hb1; [|done|done]. cbn [mbind outcome_bind].
  do 4 (destruct (negb _); [done|]). destruct (f64_lt tr0 bl0); [done|].
  rewrite parse_finite_float_Ok in Ht0, Ht1, Hb0, Hb1.
  destruct (evaluate_condition _ _ _ _ (Between b0 t0)) as [lat| |] eqn:Hlat; [|done|done]. apply evaluate_condition_Ok in Hlat.
  cbn [mbind outcome_bind]. intros Hrun.
  assert (∃ lng, s = lat ∩ lng ∧ holds lng (λ d, sat_condition index "_geo.lng" d (λ f,
    if f64_lt tr1 bl1 then number_in f d (between bl1 f64_180) ∨ number_in f d (between f64_minus_180 tr1)
    else number_in f d (between bl1 tr1)))) as (lng & -> & Hlng).
  { destruct (antimeridian (span t1)) as [H180 Hm180]. destruct (f64_lt tr1 bl1).
    - destruct (evaluate_condition _ _ _ _ (Between b1 _)) as [l| |] eqn:Hl; [|done|done]. apply evaluate_condition_Ok in Hl.
      cbn [mbind outcome_bind] in Hrun.
      destruct (evaluate_condition _ _ _ _ (Between _ t1)) as [r| |] eqn:Hr; [|done|done]. apply evaluate_condition_Ok in Hr.
      cbn [mbind outcome_bind] in Hrun. injection Hrun as <-. eexists. split; [done|]. eapply holds_ext; [|apply (holds_union _ _ _ _ Hl Hr)].
      intros d. cbn [value token_value default]. rewrite (sat_between _ d _ _ _ _ Hb1 H180), (sat_between _ d _ _ _ _ Hm180 Ht1).
      unfold sat_condition. by destruct (id _ _); naive_solver.
    - destruct (evaluate_condition _ _ _ _ (Between b1 t1)) as [l| |] eqn:Hl; [|done|done]. apply evaluate_condition_Ok in Hl.
      cbn [mbind outcome_bind] in Hrun. injection Hrun as <-. eexists. split; [done|]. eapply holds_ext; [|exact Hl].
      intros d. apply (sat_between _ d _ _ _ _ Hb1 Ht1). }
  eapply holds_ext; [|apply (holds_inter _ _ _ _ Hlat Hlng)]. intros d. cbn [Filter.sat]. cbn [value token_value default].
  rewrite (sat_between _ d _ _ _ _ Hb0 Ht0). split; [intros [H1 H2]; exists tr0, tr1, bl0, bl1; by split_and!|].
  intros (? & ? & ? & ? & [? _] & [? _] & [? _] & [? _] & Hbox). destruct Ht0, Ht1, Hb0, Hb1. by simplify_eq.
Qed.

(** *** The tree *)
Lemma evaluate_or_Ok ev fcs bitmap P s :
  Forall (λ f, ∀ s, ev f = Ok s → holds s (λ d, sat d f)) fcs → holds bitmap P → evaluate_or ev fcs bitmap = Ok s →
  holds s (λ d, P d ∨ foldr (λ f P, sat d f ∨ P) False fcs).
Proof.
  revert bitmap P. induction fcs as [|f fcs IH]; intros bitmap P Hall HP; cbn [evaluate_or foldr].
  { intros [= <-]. eapply holds_ext; [|exact HP]. intros d. tauto. }
  apply Forall_cons in Hall as [Hf Hall]. destruct (ev f) as [docids| |] eqn:Hev; [|done|done]. cbn [mbind outcome_bind].
  intros Hrun. pose proof (IH _ _ Hall (holds_union _ _ _ _ HP (Hf docids eq_refl)) Hrun) as Hs.
  eapply holds_ext; [|exact Hs]. intros d. cbn. tauto.
Qed.

Lemma evaluate_and_Ok ev fcs bitmap P s :
  Forall (λ f, ∀ s, ev f = Ok s → holds s (λ d, sat d f)) fcs → holds bitmap P → evaluate_and ev fcs bitmap = Ok s →
  holds s (λ d, P d ∧ foldr (λ f P, sat d f ∧ P) True fcs).
Proof.
  revert bitmap P. induction fcs as [|f fcs IH]; intros bitmap P Hall HP; cbn [evaluate_and foldr].
  { intros [= <-]. eapply holds_ext; [|exact HP]. intros d. tauto. }
  apply Forall_cons in Hall as [Hf Hall]. destruct (decide (bitmap = ∅)) as [->|_].
  - intros [= <-]. split; [|set_solver]. intros d Hd. destruct HP as [HP _]. specialize (HP d Hd). set_solver.
  - destruct (ev f) as [docids| |] eqn:Hev; [|done|done]. cbn [mbind outcome_bind].
    intros Hrun. pose proof (IH _ _ Hall (holds_inter _ _ _ _ HP (Hf docids eq_refl)) Hrun) as Hs.
    eapply holds_ext; [|exact Hs]. intros d. cbn. tauto.
Qed.

Lemma inner_evaluate_Ok condition s :
  inner_evaluate normalize_facet parse_f64 geo_rtree index condition = Ok s → holds s (λ d, sat d condition).
Proof.
  revert s. induction condition as [f IH|fid op|fid els|fcs IH|fcs IH|p0 p1 r|t0 t1 b0 b1] using filter_ind'; intros s; cbn [inner_evaluate].
  - destruct (inner_evaluate _ _ _ _ f) as [docids| |] eqn:Hf; [|done|done]. cbn [mbind outcome_bind]. intros [= <-].
    apply (holds_not docids (λ d, sat d f)). by apply IH.
  - apply evaluate_condition_Ok.
  - destruct (is_faceted (value fid) (filterable_fields index)) eqn:Hfac; [|done]. cbn [Filter.sat]. unfold sat_condition.
    destruct (id (value fid) (fields_ids_map index)) as [f|] eqn:Hf; [|intros [= <-]; apply holds_empty].
    destruct (evaluate_els_spec f els ∅ (λ _, False)) as (s' & Hrun & Hs');
      [by eapply (ok_faceted _ _ _ _ _ _ Hok)|apply holds_empty|]. rewrite Hrun. intros [= <-].
    eapply holds_ext; [|exact Hs']. intros d. cbn. tauto.
  - intros Hrun. pose proof (evaluate_or_Ok _ fcs ∅ (λ _, False) s IH holds_empty Hrun) as Hs.
    eapply holds_ext; [|exact Hs]. intros d. cbn. tauto.
  - destruct fcs as [|f fcs]; [intros [= <-]; apply holds_empty|]. apply Forall_cons in IH as [Hf IH].
    destruct (inner_evaluate _ _ _ _ f) as [docids| |] eqn:Hev; [|done|done]. cbn [mbind outcome_bind]. intros Hrun.
    exact (evaluate_and_Ok _ fcs docids (λ d, sat d f) s IH (Hf docids eq_refl) Hrun).
  - apply evaluate_geo_Ok.
  - apply evaluate_box_Ok.
Qed.

Lemma evaluate_correct condition s :
  evaluate normalize_facet parse_f64 geo_rtree condition index = Ok s →
  ∀ d, d ∈ s ↔ d ∈ documents_ids index ∧ sat d condition.
Proof.
  unfold evaluate. destruct (inner_evaluate _ _ _ _ condition) as [r| |] eqn:Hr; [|done|done]. cbn [mbind outcome_bind].
  intros [= <-] d. apply inner_evaluate_Ok in Hr as [H1 H2]. pose proof (ok_disjoint _ _ _ _ _ _ Hok) as Hdis.
  rewrite elem_of_difference. split.
  - intros [Hd Hsoft]. assert (d ∈ documents_ids index) as Hin by set_solver. split; [done|]. by apply H1.
  - intros [Hin Hd]. split; [by apply H1|set_solver].
Qed.


(** *** Filters without errors *)

(** A point with a latitude and a longitude on the earth. *)
Definition point_ok (lat lng : Token) (y z : f64) : Prop :=
  number_of lat y ∧ number_of lng z ∧ range_contains f64_minus_90 f64_90 y = true ∧ range_contains f64_minus_180 f64_180 z = true.

(** The fields are filterable and the numbers finite. *)
Fixpoint valid (condition : FilterCondition) : Prop :=
  match condition with
  | Not f => valid f
  | Cond fid op =>
      is_faceted (value fid) (filterable_fields index) = true ∧ ∀ val, val ∈ operator_numbers op → ∃ y, number_of val y
  | In fid _ => is_faceted (value fid) (filterable_fields index) = true
  | Or subfilters | And subfilters => foldr (λ f P, valid f ∧ P) True subfilters
  | GeoLowerThan p0 p1 r =>
      "_geo"%string ∈ filterable_fields index ∧ (∃ y z, point_ok p0 p1 y z) ∧ ∃ x, number_of r x
  | GeoBoundingBox t0 t1 b0 b1 =>
      "_geo"%string ∈ filterable_fields index ∧
      ∃ tr0 tr1 bl0 bl1, point_ok t0 t1 tr0 tr1 ∧ point_ok b0 b1 bl0 bl1 ∧ f64_lt tr0 bl0 = false
  end.

Lemma is_faceted_geo name :
  "_geo"%string ∈ filterable_fields index → is_faceted_by name "_geo" = true → is_faceted name (filterable_fields index) = true.
Proof. intros Hin Hname. apply existsb_exists. exists "_geo"%string. split; [by apply list_elem_of_In|done]. Qed.

Lemma evaluate_between_total name from to y z s :
  is_faceted name (filterable_fields index) = true → number_of from y → number_of to z →
  ∃ r, evaluate_condition normalize_facet parse_f64 index (mkToken s (Some name)) (Between from to) = Ok r.
Proof.
  intros Hfac Hy Hz. destruct (evaluate_condition_spec (mkToken s (Some name)) (Between from to)) as (r & Hr & _); [done| |by exists r].
  cbn [operator_numbers]. intros val [->| ->%list_elem_of_singleton]%elem_of_cons; [by exists y|by exists z].
Qed.

Lemma evaluate_box_total t0 t1 b0 b1 :
  valid (GeoBoundingBox t0 t1 b0 b1) → ∃ s, evaluate_geo_bounding_box normalize_facet parse_f64 index t0 t1 b0 b1 = Ok s.
Proof.
  intros (Hgeo & tr0 & tr1 & bl0 & bl1 & (Ht0 & Ht1 & Hr0 & Hr1) & (Hb0 & Hb1 & Hr2 & Hr3) & Hlt).
  unfold evaluate_geo_bounding_box. rewrite bool_decide_eq_true_2 by done.
  rewrite (proj2 (parse_finite_float_Ok _ _) Ht0), (proj2 (parse_finite_float_Ok _ _) Ht1),
    (proj2 (parse_finite_float_Ok _ _) Hb0), (proj2 (parse_finite_float_Ok _ _) Hb1). cbn [mbind outcome_bind].
  rewrite Hr0, Hr1, Hr2, Hr3, Hlt. cbn [negb].
  assert (is_faceted "_geo.lat" (filterable_fields index) = true) as Hlat by by apply is_faceted_geo.
  assert (is_faceted "_geo.lng" (filterable_fields index) = true) as Hlng by by apply is_faceted_geo.
  destruct (antimeridian (span t1)) as [H180 Hm180].
  destruct (evaluate_between_total "_geo.lat" b0 t0 bl0 tr0 (span t0) Hlat Hb0 Ht0) as [r ->]. cbn [mbind outcome_bind].
  destruct (f64_lt tr1 bl1).
  - destruct (evaluate_between_total "_geo.lng" b1 _ bl1 _ (span t1) Hlng Hb1 H180) as [r1 ->]. cbn [mbind outcome_bind].
    destruct (evaluate_between_total "_geo.lng" _ t1 _ tr1 (span t1) Hlng Hm180 Ht1) as [r2 ->]. by eexists.
  - destruct (evaluate_between_total "_geo.lng" b1 t1 bl1 tr1 (span t1) Hlng Hb1 Ht1) as [r1 ->]. by eexists.
Qed.

Lemma evaluate_list_total ev fcs :
  Forall (λ f, valid f → ∃ s, ev f = Ok s) fcs → foldr (λ f P, valid f ∧ P) True fcs →
  (∀ bitmap, ∃ s, evaluate_or ev fcs bitmap = Ok s) ∧ (∀ bitmap, ∃ s, evaluate_and ev fcs bitmap = Ok s).
Proof.
  induction fcs as [|f fcs IH]; intros Hall Hval; cbn [foldr] in Hval; [split; intros bitmap; by exists bitmap|].
  apply Forall_cons in Hall as [Hf Hall]. destruct Hval as [Hvf Hval]. destruct (IH Hall Hval) as [H1 H2].
  destruct (Hf Hvf) as [docids Hev]. split; intros bitmap; cbn [evaluate_or evaluate_and].
  - rewrite Hev. cbn [mbind outcome_bind]. apply H1.
  - case_decide; [by exists bitmap|]. rewrite Hev. cbn [mbind outcome_bind]. apply H2.
Qed.

End evaluate.

(** ** Building filters *)
Section from_json.
Context {Number : Type}.
(** [FilterCondition::parse]: nothing for an expression of white space. *)
Context (parse : string → outcome FilterError (option FilterCondition)).

Definition MAX_FILTER_DEPTH : N := 2000.

(** [Filter::from_str]. *)
Definition from_str (expression : string) : outcome FilterError (option FilterCondition) :=
  condition ← parse expression;
  match condition with
  | None => Ok None
  | Some condition =>
      match token_at_depth condition MAX_FILTER_DEPTH with
      | Some token => Err (TooDeep token)
      | None => Ok (Some condition)
      end
  end.

(** The rules of an array, joined by OR. *)
Fixpoint collect_ors (array : list string) : outcome FilterError (list FilterCondition) :=
  match array with
  | [] => Ok []
  | rule :: array =>
      filter ← from_str rule;
      ors ← collect_ors array;
      Ok (match filter with Some condition => condition :: ors | None => ors end)
  end.

Fixpoint collect_ands (array : list (list string + string)) : outcome FilterError (list FilterCondition) :=
  match array with
  | [] => Ok []
  | inl rules :: array =>
      ors ← collect_ors rules;
      ands ← collect_ands array;
      Ok (match ors with [] => ands | [condition] => condition :: ands | _ => Or ors :: ands end)
  | inr rule :: array =>
      filter ← from_str rule;
      ands ← collect_ands array;
      Ok (match filter with Some condition => condition :: ands | None => ands end)
  end.

(** [Filter::from_array]. *)
Definition from_array (array : list (list string + string)) : outcome FilterError (option FilterCondition) :=
  ands ← collect_ands array;
  match ands with
  | [] => Ok None
  | _ =>
      let and := match ands with [condition] => condition | _ => And ands end in
      match token_at_depth and MAX_FILTER_DEPTH with
      | Some token => Err (TooDeep token)
      | None => Ok (Some and)
      end
  end.

(** [Filter::parse_filter_array]. *)
Fixpoint strings_of (arr : list (Json Number)) : outcome FilterError (list string) :=
  match arr with
  | [] => Ok []
  | JString s :: arr => ors ← strings_of arr; Ok (s :: ors)
  | _ :: _ => Err InvalidFilterExpression
  end.

Fixpoint rules_of (arr : list (Json Number)) : outcome FilterError (list (list string + string)) :=
  match arr with
  | [] => Ok []
  | JString s :: arr => ands ← rules_of arr; Ok (inr s :: ands)
  | JArray rules :: arr => ors ← strings_of rules; ands ← rules_of arr; Ok (inl ors :: ands)
  | _ :: _ => Err InvalidFilterExpression
  end.

Definition parse_filter_array (arr : list (Json Number)) : outcome FilterError (option FilterCondition) :=
  ands ← rules_of arr;
  from_array ands.

(** [Filter::from_json]. *)
Definition from_json (facets : Json Number) : outcome FilterError (option FilterCondition) :=
  match facets with
  | JString expr => from_str expr
  | JArray arr => parse_filter_array arr
  | _ => Err InvalidFilterExpression
  end.

(** What the rules mean, whatever a condition means. *)
Context (as_f64 : Number → option f64) (normalize_facet : bytes → bytes) (parse_f64 : string → option f64).
Context (geo_rtree : FilterIndex → option (f64 → f64 → f64 → gset DocumentId)).
Context (known : FieldId → DocumentId → Json Number → Prop) (index : FilterIndex).
#[local] Abbreviation sat := (sat as_f64 normalize_facet parse_f64 geo_rtree known index).

(** A rule is satisfied when its expression is, a list of rules when one of them is; white
    space and lists of it say nothing. *)
Definition sat_rule (d : DocumentId) (rule : string) : Prop := ∃ c, parse rule = Ok (Some c) ∧ sat d c.
Definition blank (rule : string) : Prop := parse rule = Ok None.
Definition sat_clause (d : DocumentId) (clause : list string + string) : Prop :=
  match clause with
  | inl rules => Exists (sat_rule d) rules ∨ Forall blank rules
  | inr rule => sat_rule d rule ∨ blank rule
  end.
Definition blank_clause (clause : list string + string) : Prop :=
  match clause with inl rules => Forall blank rules | inr rule => blank rule end.

Lemma from_str_Ok rule r :
  from_str rule = Ok r → parse rule = Ok r.
Proof.
  unfold from_str. destruct (parse rule) as [[c|]| |]; cbn [mbind outcome_bind]; [|by intros [= <-]|done|done].
  destruct (token_at_depth c MAX_FILTER_DEPTH); [done|]. by intros [= <-].
Qed.

Lemma rule_blank d rule : sat_rule d rule → blank rule → False.
Proof. unfold blank. intros (c & -> & _). done. Qed.

Lemma collect_ors_Ok rules ors d :
  collect_ors rules = Ok ors →
  (foldr (λ f P, sat d f ∨ P) False ors ↔ Exists (sat_rule d) rules) ∧ (ors = [] ↔ Forall blank rules).
Proof.
  revert ors. induction rules as [|rule rules IH]; intros ors; cbn [collect_ors].
  { intros [= <-]. cbn. by rewrite Exists_nil, Forall_nil. }
  destruct (from_str rule) as [r| |] eqn:Hr; [|done|done]. apply from_str_Ok in Hr. cbn [mbind outcome_bind].
  destruct (collect_ors rules) as [ors'| |]; [|done|done]. cbn [mbind outcome_bind]. intros [= <-].
  destruct (IH ors' eq_refl) as [H1 H2]. rewrite Exists_cons, Forall_cons. unfold sat_rule at 1, blank at 1. rewrite Hr.
  destruct r as [c|]; cbn [foldr]; rewrite H1; naive_solver.
Qed.

Lemma collect_ands_Ok array ands d :
  collect_ands array = Ok ands →
  (foldr (λ f P, sat d f ∧ P) True ands ↔ Forall (sat_clause d) array) ∧ (ands = [] ↔ Forall blank_clause array).
Proof.
  revert ands. induction array as [|[rules|rule] array IH]; intros ands; cbn [collect_ands].
  { intros [= <-]. cbn. by rewrite !Forall_nil. }
  - destruct (collect_ors rules) as [ors| |] eqn:Hors; [|done|done]. cbn [mbind outcome_bind].
    destruct (collect_ands array) as [ands'| |]; [|done|done]. cbn [mbind outcome_bind]. intros [= <-].
    destruct (IH ands' eq_refl) as [H1 H2]. destruct (collect_ors_Ok rules ors d Hors) as [H3 H4].
    rewrite !Forall_cons. cbn [sat_clause blank_clause]. rewrite <- H3, <- H4, <- H1, <- H2.
    destruct ors as [|c [|c' ors]]; cbn [foldr Filter.sat]; naive_solver.
  - destruct (from_str rule) as [r| |] eqn:Hr; [|done|done]. apply from_str_Ok in Hr. cbn [mbind outcome_bind].
    destruct (collect_ands array) as [ands'| |]; [|done|done]. cbn [mbind outcome_bind]. intros [= <-].
    destruct (IH ands' eq_refl) as [H1 H2]. rewrite !Forall_cons. cbn [sat_clause blank_clause]. unfold sat_rule, blank. rewrite Hr.
    rewrite <- H1, <- H2. destruct r as [c|]; cbn [foldr]; naive_solver.
Qed.

(** A filter given as an array of rules is satisfied when, in each element of the
    array, one rule at least is; without a rule that is not blank there is no filter. *)
Theorem from_array_spec array r d :
  from_array array = Ok r →
  match r with
  | Some c => sat d c ↔ Forall (sat_clause d) array
  | None => Forall blank_clause array
  end.
Proof.
  unfold from_array. destruct (collect_ands array) as [ands| |] eqn:Hands; [|done|done]. cbn [mbind outcome_bind].
  destruct (collect_ands_Ok array ands d Hands) as [H1 H2]. destruct ands as [|c ands].
  - intros [= <-]. by apply H2.
  - destruct (token_at_depth _ MAX_FILTER_DEPTH); [done|]. intros [= <-]. rewrite <- H1.
    destruct ands as [|c' ands]; cbn [foldr Filter.sat]; tauto.
Qed.
End from_json.

Module Demo.
Import Concrete FacetExtract.Demo FacetDemo.
Open Scope string_scope.

Definition parse_f64 (s : string) : option f64 :=
  if decide (s = "1") then Some 4607182418800017408%Z
  else if decide (s = "180.0") then Some f64_180
  else if decide (s = "-180.0") then Some f64_minus_180 else None.

(** The two documents of the chunk; [tags] is filterable. *)
Definition index : FilterIndex :=
  mkFilterIndex {[7%N; 8%N]} ∅ ["tags"] (mkFieldsIdsMap {["tags" := tags]} {[tags := "tags"]} (Some 4%N)) two_documents.
Definition no_rtree (_ : FilterIndex) : option (f64 → f64 → f64 → gset DocumentId) := None.

Lemma parse_ok : parse_f64_ok parse_f64.
Proof.
  split; [|by vm_compute]. intros s x. unfold parse_f64. repeat case_decide; intros [= <-]; by vm_compute.
Qed.

Lemma index_ok : filter_index_ok as_f64 normalize no_rtree two_known index [tags].
Proof.
  split.
  - apply two_documents_hold.
  - by vm_compute.
  - intros name f _ Hf. unfold id in Hf. cbn in Hf. apply lookup_singleton_Some in Hf as [_ <-]. left.
  - intros f d v [[]|(_ & obkv & b & Hd & _)].
    repeat (apply elem_of_cons in Hd as [[= -> _]|Hd]); [set_solver|set_solver|by apply not_elem_of_nil in Hd].
  - set_solver.
  - done.
Qed.

(** [tags = a AND tags = 1 AND NOT tags IS NULL]. *)
Definition filter : FilterCondition :=
  And [Cond (token "tags") (Equal (token "a")); Cond (token "tags") (GreaterThanOrEqual (token "1"));
       Not (Cond (token "tags") CNull)].



(** A parser of one expression. *)
Definition parse (s : string) : outcome FilterError (option FilterCondition) :=
  if decide (s = "") then Ok None else Ok (Some (Cond (token "tags") (Equal (token s)))).

Lemma from_array_spec_witness :
  ∃ c, from_array parse [inl ["a"; "b"]; inr ""] = Ok (Some c) ∧
    ∀ d, sat as_f64 normalize parse_f64 no_rtree two_known index d c ↔
      Forall (sat_clause parse as_f64 normalize parse_f64 no_rtree two_known index d) [inl ["a"; "b"]; inr ""].
Proof.
  eexists. split; [by vm_compute|]. intros d.
  apply (from_array_spec parse as_f64 normalize parse_f64 no_rtree two_known index [inl ["a"; "b"]; inr ""] (Some _) d).
  by vm_compute.
Defined.
End Demo.
