(* ===== verification/Distinct.v ===== *)
(** * The distinct rule (milli/src/search/new/distinct.rs)

    With a distinct field, a search keeps one document for each value of the field:
    [distinct_single_docid] looks the documents up that have a value of a kept document.
    [classes] is what the search relies on when the documents have one value at most. *)
From S2P Require Import Prelude Json FieldsIdsMap Obkv FacetDb FacetTree FacetInsert FacetUpdate FacetExtract FacetIndex.
From S2P Require DocumentsIds Transform.
Import DocumentsIds (DocumentId).
Import Transform (bitmap_iter).

(** ** The code *)

(** [facet_values_prefix_key] and the iterators on the values of a document. *)
Definition facet_values (docid : DocumentId) (field_id : FieldId) (st : FacetStore) : list bytes :=
  (λ e : FieldId * DocumentId * bytes * bytes, e.1.2) <$> filter (λ e, e.1.1 = (field_id, docid)) (field_id_docid_facets st).

Definition facet_string_values (docid : DocumentId) (field_id : FieldId) (index : FacetIndex) : list bytes :=
  facet_values docid field_id (facet_strings (facets index)).
Definition facet_number_values (docid : DocumentId) (field_id : FieldId) (index : FacetIndex) : list bytes :=
  facet_values docid field_id (facet_numbers (facets index)).

Definition facet_value_docids (database : FacetDb) (field_id : FieldId) (facet_value : bytes) : option (gset DocumentId) :=
  gv_bitmap <$> db_get (mkKey field_id 0 facet_value) database.

(** The loop over the values of one type. *)
Definition exclude_values (database : FacetDb) (field_id : FieldId) (values : list bytes) (excluded : gset DocumentId) :
    gset DocumentId :=
  fold_left (λ excluded facet_value,
    match facet_value_docids database field_id facet_value with
    | Some facet_docids => excluded ∪ facet_docids
    | None => excluded
    end) values excluded.

Definition distinct_single_docid (index : FacetIndex) (field_id : FieldId) (docid : DocumentId) (excluded : gset DocumentId) :
    gset DocumentId :=
  let excluded := exclude_values (facet_id_docids (facet_strings (facets index))) field_id
                    (facet_string_values docid field_id index) excluded in
  exclude_values (facet_id_docids (facet_numbers (facets index))) field_id (facet_number_values docid field_id index) excluded.

Record DistinctOutput := mkDistinct { remaining : gset DocumentId; excluded : gset DocumentId }.

Definition apply_distinct_rule (index : FacetIndex) (field_id : FieldId) (candidates : gset DocumentId) : DistinctOutput :=
  fold_left (λ out docid,
    if bool_decide (docid ∈ excluded out) then out
    else mkDistinct (remaining out ∪ {[docid]}) (distinct_single_docid index field_id docid (excluded out)))
    (bitmap_iter candidates) (mkDistinct ∅ ∅).

(** ** The documents with a value of a document *)
Lemma elem_of_bitmap_iter d s : d ∈ bitmap_iter s ↔ d ∈ s.
Proof. unfold bitmap_iter. by rewrite merge_sort_Permutation, elem_of_elements. Qed.

Lemma NoDup_bitmap_iter s : NoDup (bitmap_iter s).
Proof. unfold bitmap_iter. rewrite merge_sort_Permutation. apply NoDup_elements. Qed.

Lemma length_bitmap_iter s : length (bitmap_iter s) = size s.
Proof. unfold bitmap_iter. by rewrite merge_sort_Permutation. Qed.

Lemma bitmap_iter_empty : bitmap_iter ∅ = [].
Proof. done. Qed.

Lemma bitmap_iter_singleton d : bitmap_iter {[d]} = [d].
Proof. unfold bitmap_iter. by rewrite elements_singleton. Qed.

Lemma elem_of_exclude_values db f values X d :
  d ∈ exclude_values db f values X ↔ d ∈ X ∨ ∃ x, x ∈ values ∧ d ∈ value_docids db f x.
Proof.
  unfold exclude_values. revert X. induction values as [|x values IH]; intros X; cbn [fold_left].
  - split; [by left|]. by intros [?|(x & ?%not_elem_of_nil & _)].
  - rewrite IH. setoid_rewrite elem_of_cons. unfold value_docids, facet_value_docids.
    destruct (db_get (mkKey f 0 x) db) as [v|] eqn:Hv; cbn [fmap option_fmap option_map].
    + rewrite elem_of_union. split.
      * intros [[?|Hd]|(y & ? & ?)]; [by left|right; exists x; rewrite Hv; auto|right; eauto].
      * intros [?|(y & [->|?] & Hd)]; [by do 2 left|rewrite Hv in Hd; left; by right|right; eauto].
    + split.
      * intros [?|(y & ? & ?)]; [by left|right; eauto].
      * intros [?|(y & [->|?] & Hd)]; [by left|by rewrite Hv in Hd|right; eauto].
Qed.

(** The class of a document: the documents that have one of its values. *)
Definition class (index : FacetIndex) (f : FieldId) (d : DocumentId) : gset DocumentId := distinct_single_docid index f d ∅.

Lemma distinct_single_class index f d X : distinct_single_docid index f d X = X ∪ class index f d.
Proof.
  apply set_eq. intros d'. unfold class, distinct_single_docid. rewrite elem_of_union, !elem_of_exclude_values. set_solver.
Qed.

(** ** Keeping one document of each class *)

(** [kept cls seen out]: [out] has the documents that are kept among [seen], in order:
    no one is in the class of an earlier one, and each document that is not kept is in the
    class of one that is. *)
Record kept (cls : DocumentId → gset DocumentId) (seen : gset DocumentId) (out : list DocumentId) : Prop := {
  kept_seen d : d ∈ out → d ∈ seen;
  kept_nodup : NoDup out;
  kept_apart l1 l2 d d' : out = l1 ++ l2 → d ∈ l1 → d' ∈ l2 → d' ∉ cls d;
  kept_all d : d ∈ seen → d ∈ out ∨ ∃ d', d' ∈ out ∧ d ∈ cls d'
}.

Definition classes_of (cls : DocumentId → gset DocumentId) (out : list DocumentId) : gset DocumentId := ⋃ (cls <$> out).

Lemma elem_of_classes_of cls out d : d ∈ classes_of cls out ↔ ∃ d', d' ∈ out ∧ d ∈ cls d'.
Proof.
  unfold classes_of. rewrite elem_of_union_list. setoid_rewrite list_elem_of_fmap. naive_solver.
Qed.

Lemma classes_of_app cls out1 out2 : classes_of cls (out1 ++ out2) = classes_of cls out1 ∪ classes_of cls out2.
Proof. unfold classes_of. by rewrite fmap_app, union_list_app_L. Qed.

Lemma kept_nil cls : kept cls ∅ [].
Proof.
  split; [by intros d ?%not_elem_of_nil|constructor| |set_solver].
  intros [] l2 d d' Hl; [by intros ?%not_elem_of_nil|done].
Qed.

Lemma kept_single cls d : kept cls {[d]} [d].
Proof.
  split.
  - intros d' ->%list_elem_of_singleton. set_solver.
  - apply NoDup_singleton.
  - intros [|x [|y l1]] l2 a b Hl; [by intros ?%not_elem_of_nil| |done].
    injection Hl as <- <-. by intros _ ?%not_elem_of_nil.
  - intros d' ->%elem_of_singleton. left. by left.
Qed.

(** Two parts one after the other, the second without the classes of the first. *)
Lemma kept_app cls s1 s2 s out1 out2 :
  kept cls s1 out1 → kept cls s2 out2 → s1 ⊆ s → s2 = (s ∖ s1) ∖ classes_of cls out1 →
  kept cls s (out1 ++ out2).
Proof.
  intros K1 K2 Hs1 Hs2. split.
  - intros d [Hd|Hd]%elem_of_app; [by apply Hs1, (kept_seen _ _ _ K1)|]. apply (kept_seen _ _ _ K2) in Hd. set_solver.
  - apply NoDup_app. split_and!; [apply K1| |apply K2].
    intros d Hd1 Hd2. apply (kept_seen _ _ _ K1) in Hd1. apply (kept_seen _ _ _ K2) in Hd2. set_solver.
  - intros l1 l2 d d' Hl Hd Hd'. apply app_eq_app in Hl as (k & [[-> ->]|[-> ->]]).
    + apply elem_of_app in Hd' as [Hd'|Hd']; [by apply (kept_apart _ _ _ K1 l1 k)|].
      intros Hc. apply (kept_seen _ _ _ K2) in Hd'. rewrite Hs2 in Hd'. apply elem_of_difference in Hd' as [_ Hd'].
      apply Hd'. rewrite classes_of_app. apply elem_of_union_l, elem_of_classes_of. by exists d.
    + apply elem_of_app in Hd as [Hd|Hd]; [|by apply (kept_apart _ _ _ K2 k l2)].
      intros Hc. assert (d' ∈ s2) as Hs by (apply (kept_seen _ _ _ K2), elem_of_app; by right).
      rewrite Hs2 in Hs. apply elem_of_difference in Hs as [_ Hs]. apply Hs, elem_of_classes_of. by exists d.
  - intros d Hd. destruct (decide (d ∈ s1)) as [H1|H1].
    { destruct (kept_all _ _ _ K1 d H1) as [?|(d' & ? & ?)]; [left; set_solver|right; exists d'; set_solver]. }
    destruct (decide (d ∈ classes_of cls out1)) as [(d' & ? & ?)%elem_of_classes_of|Hc]; [right; exists d'; set_solver|].
    destruct (kept_all _ _ _ K2 d) as [?|(d' & ? & ?)]; [set_solver|left; set_solver|right; exists d'; set_solver].
Qed.

(** Keeping the documents greedily, in the order of the list. *)
Fixpoint greedy (cls : DocumentId → gset DocumentId) (l : list DocumentId) (X : gset DocumentId) : list DocumentId :=
  match l with
  | [] => []
  | d :: l => if bool_decide (d ∈ X) then greedy cls l X else d :: greedy cls l (X ∪ cls d)
  end.

Lemma greedy_snoc cls l d X :
  greedy cls (l ++ [d]) X = greedy cls l X ++ (if bool_decide (d ∈ X ∪ classes_of cls (greedy cls l X)) then [] else [d]).
Proof.
  revert X. induction l as [|x l IH]; intros X; cbn.
  - unfold classes_of. cbn. by rewrite (right_id_L ∅ (∪)).
  - case_bool_decide; [apply IH|]. rewrite IH. cbn. f_equal. f_equal. unfold classes_of. cbn. by rewrite (assoc_L (∪)).
Qed.

Lemma greedy_sublist cls l X : greedy cls l X `sublist_of` l.
Proof. revert X. induction l as [|x l IH]; intros X; cbn; [done|]. case_bool_decide; by constructor. Qed.

(** [apply_distinct_rule] does it in the order of the ids. *)
Lemma apply_distinct_rule_greedy index f candidates :
  let out := greedy (class index f) (bitmap_iter candidates) ∅ in
  apply_distinct_rule index f candidates = mkDistinct (list_to_set out) (classes_of (class index f) out).
Proof.
  cbv zeta. unfold apply_distinct_rule. generalize (bitmap_iter candidates). intros l.
  induction l as [|d l IH] using rev_ind; [done|]. rewrite fold_left_app, IH, greedy_snoc. cbn [fold_left excluded remaining].
  rewrite (left_id_L ∅ (∪)). case_bool_decide; [by rewrite app_nil_r|].
  rewrite distinct_single_class, list_to_set_app_L, classes_of_app. f_equal; unfold classes_of; cbn; set_solver.
Qed.

Lemma greedy_kept cls l : NoDup l → kept cls (list_to_set l) (greedy cls l ∅).
Proof.
  induction l as [|d l IH] using rev_ind; intros Hnd; [apply kept_nil|].
  apply NoDup_app in Hnd as (Hnd & Hdis & _). pose proof (IH Hnd) as Hk. rewrite greedy_snoc, (left_id_L ∅ (∪)), list_to_set_app_L.
  case_bool_decide as Hd.
  - rewrite app_nil_r. destruct Hk as [H1 H2 H3 H4]. split; [|done..|].
    + intros d' Hd'. apply H1 in Hd'. set_solver.
    + intros d'. rewrite elem_of_union. intros [Hd'|Hd']; [by apply H4|].
      cbn in Hd'. assert (d' = d) as -> by set_solver. right. by apply elem_of_classes_of in Hd.
  - eapply kept_app; [exact Hk|apply (kept_single _ d)|set_solver|].
    cbn. apply set_eq. intros d'. specialize (Hdis d'). set_solver.
Qed.

Lemma apply_distinct_rule_kept index f candidates :
  ∃ out, remaining (apply_distinct_rule index f candidates) = list_to_set out ∧ out `sublist_of` bitmap_iter candidates ∧
    excluded (apply_distinct_rule index f candidates) = classes_of (class index f) out ∧ kept (class index f) candidates out.
Proof.
  exists (greedy (class index f) (bitmap_iter candidates) ∅). rewrite apply_distinct_rule_greedy.
  split_and!; [done|apply greedy_sublist|done|].
  replace candidates with (list_to_set (bitmap_iter candidates) : gset DocumentId) at 1.
  - apply greedy_kept, NoDup_bitmap_iter.
  - apply set_eq. intros d. by rewrite elem_of_list_to_set, elem_of_bitmap_iter.
Qed.

(** ** One value at most

    When no document has two values, the classes partition the documents with a value: the
    number of documents that are kept does not depend on their order. *)
Definition classes (cls : DocumentId → gset DocumentId) : Prop :=
  (∀ d d', d' ∈ cls d → cls d' = cls d) ∧ ∀ d, d ∈ cls d ∨ cls d = ∅.

Definition key (cls : DocumentId → gset DocumentId) (d : DocumentId) : DocumentId + gset DocumentId :=
  if decide (cls d = ∅) then inl d else inr (cls d).

Lemma kept_keys cls seen out :
  classes cls → kept cls seen out → length out = size (set_map (key cls) seen : gset (DocumentId + gset DocumentId)).
Proof.
  intros [Hpart Hself] [Hseen Hnd Hap Hall].
  transitivity (length (key cls <$> out)); [by rewrite length_fmap|].
  assert (∀ d d', d ∈ out → d' ∈ out → d' ∈ cls d → d = d') as Huniq.
  { intros d d' Hd Hd' Hc. destruct (decide (d = d')) as [|Hne]; [done|exfalso].
    apply list_elem_of_split in Hd as (l1 & l2 & ->). apply elem_of_app in Hd' as [Hd'|Hd'].
    - apply list_elem_of_split in Hd' as (k1 & k2 & ->).
      assert (d ∈ cls d') as Hc'. { destruct (Hself d) as [Hs|Hs]; [|by rewrite Hs in Hc]. by rewrite (Hpart d d'). }
      rewrite <- app_assoc in Hap. by apply (Hap (k1 ++ [d']) (k2 ++ d :: l2) d' d); [rewrite <- app_assoc|set_solver..].
    - apply elem_of_cons in Hd' as [->|Hd']; [done|].
      by apply (Hap (l1 ++ [d]) l2 d d'); [rewrite <- app_assoc|set_solver..]. }
  assert (NoDup (key cls <$> out)) as Hndk.
  { apply NoDup_fmap_2_strong; [|done]. intros d d' Hd Hd'. unfold key. repeat case_decide; [congruence|done..|].
    intros [= Heq]. apply Huniq; [done..|]. rewrite Heq. by destruct (Hself d') as [|]. }
  rewrite <- (size_list_to_set (C := gset (DocumentId + gset DocumentId))) by done. f_equal. apply set_eq.
  intros k. rewrite elem_of_list_to_set, list_elem_of_fmap, elem_of_map. split; intros (d & -> & Hd).
  - exists d. split; [done|by apply Hseen].
  - destruct (Hall d Hd) as [?|(d' & Hd' & Hc)]; [by exists d|]. exists d'. split; [|done].
    unfold key. rewrite (Hpart d' d) by done. rewrite !decide_False; [done|set_solver..].
Qed.

Lemma kept_classes cls seen out :
  classes cls → kept cls seen out → ∀ d, d ∈ classes_of cls out ↔ ∃ d', d' ∈ seen ∧ d ∈ cls d'.
Proof.
  intros [Hpart Hself] [Hseen Hnd Hap Hall] d. rewrite elem_of_classes_of. split; intros (d' & Hd' & Hd).
  - exists d'. split; [by apply Hseen|done].
  - destruct (Hall d' Hd') as [?|(d2 & Hd2 & Hc)]; [by exists d'|]. exists d2. split; [done|]. by rewrite <- (Hpart d2 d').
Qed.
