(* ===== verification/BucketSort.v ===== *)
(** * The bucket sort (milli/src/search/new/bucket_sort.rs, ranking_rules.rs)

    A search sorts the documents of its universe with a list of ranking rules.  A rule
    splits a universe into buckets, best first, and the next rule sorts each bucket.
    [bucket_sort] explores the buckets depth first with a stack of universes, skips the
    buckets before the first document it has to return, and stops when it has enough
    documents.  [sorts] is the ranking without any of these shortcuts. *)
From S2P Require Import Prelude Json FieldsIdsMap Obkv FacetDb FacetIndex Distinct.
From S2P Require DocumentsIds Transform.
Import DocumentsIds (DocumentId).
Import Transform (bitmap_iter).

(** ** Ranking rules *)
Record RankingRuleOutput (Query Score : Type) := mkOutput {
  query : Query;
  candidates : gset DocumentId;
  score : Score
}.
Arguments mkOutput {Query Score} _ _ _.
Arguments query {Query Score} _.
Arguments candidates {Query Score} _.
Arguments score {Query Score} _.

(** The trait [RankingRule]: an object with its state and its methods. *)
Record RankingRule (E Query Score : Type) := mkRule {
  rule_state : Type;
  self : rule_state;
  id : rule_state → string;
  start_iteration : gset DocumentId → Query → rule_state → outcome E rule_state;
  next_bucket : gset DocumentId → rule_state → outcome E (option (RankingRuleOutput Query Score) * rule_state);
  end_iteration : rule_state → rule_state
}.
Arguments mkRule {E Query Score} _ _ _ _ _ _.
Arguments rule_state {E Query Score} _.
Arguments self {E Query Score} _.
Arguments id {E Query Score} _ _.
Arguments start_iteration {E Query Score} _ _ _ _.
Arguments next_bucket {E Query Score} _ _ _.
Arguments end_iteration {E Query Score} _ _.

Definition with_self {E Query Score} (r : RankingRule E Query Score) (st : rule_state r) : RankingRule E Query Score :=
  mkRule (rule_state r) st (id r) (start_iteration r) (next_bucket r) (end_iteration r).

(** [ScoringStrategy]. *)
Inductive ScoringStrategy := Skip | Detailed.
#[export] Instance scoring_strategy_eq_dec : EqDecision ScoringStrategy.
Proof. solve_decision. Defined.

Section bucket_sort.
Context {E Query Score : Type}.
Abbreviation RankingRule := (RankingRule E Query Score).

Record BucketSortOutput := mkSorted {
  docids : list DocumentId;
  scores : list (list Score);
  out_candidates : gset DocumentId
}.

(** The variables of the loop. *)
Record Loop := mkLoop {
  ranking_rules : list RankingRule;
  ranking_rule_scores : list Score;
  ranking_rule_universes : list (gset DocumentId);
  cur_ranking_rule_index : nat;
  all_candidates : gset DocumentId;
  valid_docids : list DocumentId;
  valid_scores : list (list Score);
  cur_offset : nat
}.

Definition with_rules rules (s : Loop) : Loop :=
  mkLoop rules (ranking_rule_scores s) (ranking_rule_universes s) (cur_ranking_rule_index s) (all_candidates s)
    (valid_docids s) (valid_scores s) (cur_offset s).
Definition with_scores scores (s : Loop) : Loop :=
  mkLoop (ranking_rules s) scores (ranking_rule_universes s) (cur_ranking_rule_index s) (all_candidates s)
    (valid_docids s) (valid_scores s) (cur_offset s).
Definition with_universes universes (s : Loop) : Loop :=
  mkLoop (ranking_rules s) (ranking_rule_scores s) universes (cur_ranking_rule_index s) (all_candidates s)
    (valid_docids s) (valid_scores s) (cur_offset s).
Definition with_index i (s : Loop) : Loop :=
  mkLoop (ranking_rules s) (ranking_rule_scores s) (ranking_rule_universes s) i (all_candidates s)
    (valid_docids s) (valid_scores s) (cur_offset s).
Definition with_all_candidates all (s : Loop) : Loop :=
  mkLoop (ranking_rules s) (ranking_rule_scores s) (ranking_rule_universes s) (cur_ranking_rule_index s) all
    (valid_docids s) (valid_scores s) (cur_offset s).
Definition with_results docids scores (s : Loop) : Loop :=
  mkLoop (ranking_rules s) (ranking_rule_scores s) (ranking_rule_universes s) (cur_ranking_rule_index s) (all_candidates s)
    docids scores (cur_offset s).
Definition with_offset offset (s : Loop) : Loop :=
  mkLoop (ranking_rules s) (ranking_rule_scores s) (ranking_rule_universes s) (cur_ranking_rule_index s) (all_candidates s)
    (valid_docids s) (valid_scores s) offset.

(** Indexing a slice, and [Vec::pop]. *)
Definition slice_get {A} (l : list A) (i : nat) : outcome E A :=
  match l !! i with Some x => Ok x | None => Panic "index out of bounds" end.
Definition vec_pop {A} (l : list A) : list A := take (length l - 1) l.

Section loop.
Context (index : FacetIndex) (distinct_fid : option FieldId) (from len : nat) (scoring_strategy : ScoringStrategy).

Definition output_of (s : Loop) : BucketSortOutput := mkSorted (valid_docids s) (valid_scores s) (all_candidates s).

(** The macro [back!]: [inr] leaves the loop. *)
Definition back (s : Loop) : outcome E (Loop + BucketSortOutput) :=
  let i := cur_ranking_rule_index s in
  universe ← slice_get (ranking_rule_universes s) i;
  _ ← assert (bool_decide (universe = ∅)) "The ranking rule did not sort its bucket exhaustively";
  rule ← slice_get (ranking_rules s) i;
  let s := with_universes (<[i := ∅]> (ranking_rule_universes s)) s in
  let s := with_rules (<[i := with_self rule (end_iteration rule (self rule))]> (ranking_rules s)) s in
  match i with
  | 0 => Ok (inr (output_of s))
  | S i =>
      let s := with_index i s in
      Ok (inl (if i <? length (ranking_rule_scores s) then with_scores (vec_pop (ranking_rule_scores s)) s else s))
  end.

Definition add_to_results (candidates : list DocumentId) (s : Loop) : Loop :=
  with_results (valid_docids s ++ candidates)
    (valid_scores s ++ replicate (length candidates) (ranking_rule_scores s)) s.

(** The distinct rule on the candidates, and on what is left everywhere. *)
Definition reduce_to_distinct (candidates : gset DocumentId) (s : Loop) : gset DocumentId * Loop :=
  match distinct_fid with
  | Some distinct_fid =>
      let out := apply_distinct_rule index distinct_fid candidates in
      (remaining out,
       with_all_candidates (all_candidates s ∖ excluded out)
         (with_universes ((λ universe, universe ∖ excluded out) <$> ranking_rule_universes s) s))
  | None => (candidates, s)
  end.

(** The candidates between the offset and the limit. *)
Definition add_candidates (candidates : gset DocumentId) (s : Loop) : Loop :=
  if decide (candidates = ∅) then s
  else
    let s :=
      if cur_offset s <? from then
        if cur_offset s + size candidates <? from then s
        else
          let candidates := drop (from - cur_offset s) (bitmap_iter candidates) in
          add_to_results (take (len - length (valid_docids s)) candidates) s
      else add_to_results (take (len - length (valid_docids s)) (bitmap_iter candidates)) s in
    with_offset (cur_offset s + size candidates) s.

Definition maybe_add_to_results (candidates : gset DocumentId) (s : Loop) : Loop :=
  let '(candidates, s) := reduce_to_distinct candidates s in
  add_candidates candidates (with_all_candidates (all_candidates s ∪ candidates) s).

(** One turn of the loop. *)
Definition step (s : Loop) : outcome E (Loop + BucketSortOutput) :=
  if len <=? length (valid_docids s) then Ok (inr (output_of s))
  else
    let i := cur_ranking_rule_index s in
    universe ← slice_get (ranking_rule_universes s) i;
    if bool_decide (universe = ∅) || bool_decide (scoring_strategy = Skip) && (size universe =? 1) then
      let s := with_universes (<[i := ∅]> (ranking_rule_universes s)) s in
      back (maybe_add_to_results universe s)
    else
      rule ← slice_get (ranking_rules s) i;
      '(next, st) ← next_bucket rule universe (self rule);
      let s := with_rules (<[i := with_self rule st]> (ranking_rules s)) s in
      match next with
      | None => back s
      | Some next_bucket =>
          let s := with_scores (ranking_rule_scores s ++ [score next_bucket]) s in
          let s := with_universes (<[i := universe ∖ candidates next_bucket]> (ranking_rule_universes s)) s in
          if (i =? length (ranking_rules s) - 1) ||
             bool_decide (scoring_strategy = Skip) && (size (candidates next_bucket) <=? 1) ||
             (cur_offset s + size (candidates next_bucket) <? from)
          then
            let s := maybe_add_to_results (candidates next_bucket) s in
            Ok (inl (with_scores (vec_pop (ranking_rule_scores s)) s))
          else
            let i := i + 1 in
            let s := with_index i s in
            let s := with_universes (<[i := candidates next_bucket]> (ranking_rule_universes s)) s in
            rule ← slice_get (ranking_rules s) i;
            st ← start_iteration rule (candidates next_bucket) (query next_bucket) (self rule);
            Ok (inl (with_rules (<[i := with_self rule st]> (ranking_rules s)) s))
      end.

(** The loop; [None] when the fuel is spent. *)
Fixpoint run (fuel : nat) (s : Loop) : option (outcome E BucketSortOutput) :=
  match fuel with
  | 0 => None
  | S fuel =>
      match step s with
      | Ok (inl s) => run fuel s
      | Ok (inr out) => Some (Ok out)
      | Err e => Some (Err e)
      | Panic msg => Some (Panic msg)
      end
  end.

(** The loop over the universe when there is no ranking rule but a distinct field. *)
Fixpoint distinct_results (distinct_fid : FieldId) (limit : nat) (iter : list DocumentId) (excluded : gset DocumentId)
    (results : list DocumentId) : gset DocumentId * list DocumentId :=
  match iter with
  | [] => (excluded, results)
  | docid :: iter =>
      if limit <=? length results then (excluded, results)
      else if bool_decide (docid ∈ excluded) then distinct_results distinct_fid limit iter excluded results
      else distinct_results distinct_fid limit iter (distinct_single_docid index distinct_fid docid excluded)
             (results ++ [docid])
  end.

(** The addition of two [usize]. *)
Definition usize_add (a b : nat) : nat := N.to_nat (wrap64 (N.of_nat a + N.of_nat b)).

Definition bucket_sort (fuel : nat) (rules : list RankingRule) (query : Query) (universe : gset DocumentId) :
    option (outcome E BucketSortOutput) :=
  if size universe <? from then Some (Ok (mkSorted [] [] universe))
  else
    match rules with
    | [] =>
        match distinct_fid with
        | Some distinct_fid =>
            let '(excluded, results) := distinct_results distinct_fid (usize_add from len) (bitmap_iter universe) ∅ [] in
            Some (Ok (mkSorted results (replicate (length results) []) ((universe ∖ excluded) ∪ list_to_set results)))
        | None =>
            let docids := take len (drop from (bitmap_iter universe)) in
            Some (Ok (mkSorted docids (replicate (length docids) []) universe))
        end
    | first :: rest =>
        match start_iteration first universe query (self first) with
        | Ok st =>
            run fuel (mkLoop (with_self first st :: rest) [] (universe :: replicate (length rest) ∅) 0 universe [] [] 0)
        | Err e => Some (Err e)
        | Panic msg => Some (Panic msg)
        end
    end.
End loop.

(** ** The ranking *)
Section ranking.
Context (index : FacetIndex) (distinct_fid : option FieldId).

(** The documents that a kept document excludes, and what is kept of a set of documents. *)
Definition same_value : DocumentId → gset DocumentId :=
  match distinct_fid with Some fid => class index fid | None => λ _, ∅ end.

Definition keep (docs : gset DocumentId) : list DocumentId :=
  bitmap_iter (match distinct_fid with Some fid => remaining (apply_distinct_rule index fid docs) | None => docs end).

(** [out] is the ranking of a universe by a rule in the state [st], whose buckets are
    sorted by [sub]. *)
Inductive iterates (sub : Query → gset DocumentId → list (DocumentId * list Score) → Prop) (r : RankingRule) :
    rule_state r → gset DocumentId → list (DocumentId * list Score) → Prop :=
| iterates_done st : iterates sub r st ∅ []
| iterates_bucket st universe bucket st' out1 out2 :
    universe ≠ ∅ → next_bucket r universe st = Ok (Some bucket, st') → candidates bucket ⊆ universe →
    sub (query bucket) (candidates bucket) out1 →
    iterates sub r st' ((universe ∖ candidates bucket) ∖ classes_of same_value out1.*1) out2 →
    iterates sub r st universe ((prod_map (λ x, x) (cons (score bucket)) <$> out1) ++ out2).

Fixpoint sorts (rules : list RankingRule) (query : Query) (universe : gset DocumentId) (out : list (DocumentId * list Score)) :
    Prop :=
  match rules with
  | [] => out = (λ d, (d, [])) <$> keep universe
  | r :: rules => ∃ st, start_iteration r universe query (self r) = Ok st ∧ iterates (sorts rules) r st universe out
  end.
End ranking.

(** What a ranking rule owes to the bucket sort, when [fits query universe] holds at the
    start of an iteration: it starts, it always has a bucket for a universe that is not
    empty, its buckets are in the universe and end up to cover it, and it forgets an
    iteration when it is over. *)
Record rule_laws (fits : Query → gset DocumentId → Prop) (r : RankingRule)
    (active : nat → gset DocumentId → rule_state r → Prop) : Prop := {
  law_start universe query : fits query universe →
    ∃ n st, start_iteration r universe query (self r) = Ok st ∧ active n universe st;
  law_subset n universe universe' st : active n universe st → universe' ⊆ universe → active n universe' st;
  law_next n universe st : active n universe st → universe ≠ ∅ →
    ∃ bucket st' n', next_bucket r universe st = Ok (Some bucket, st') ∧ candidates bucket ⊆ universe ∧
      fits (query bucket) (candidates bucket) ∧ active n' (universe ∖ candidates bucket) st' ∧
      (n' < n ∨ universe ⊆ candidates bucket);
  law_end n universe st : active n universe st → end_iteration r st = self r
}.

Definition lawful (fits : Query → gset DocumentId → Prop) (r : RankingRule) : Prop := ∃ active, rule_laws fits r active.
End bucket_sort.
Arguments rule_laws {E Query Score} _ _ _.
Arguments lawful {E Query Score} _ _.

(** ** What is kept *)
Section kept.
Context (index : FacetIndex) (distinct_fid : option FieldId).
Abbreviation same_value := (same_value index distinct_fid).
Abbreviation keep := (keep index distinct_fid).

Lemma bitmap_iter_sublist out s : out `sublist_of` bitmap_iter s → bitmap_iter (list_to_set out) = out.
Proof.
  intros Hsub. unfold bitmap_iter.
  assert (NoDup out) as Hnd by (eapply sublist_NoDup; [apply (NoDup_bitmap_iter s)|done]).
  apply (StronglySorted_unique N.le).
  - apply (StronglySorted_merge_sort _).
  - assert (∀ l1 l2, l1 `sublist_of` l2 → StronglySorted N.le l2 → StronglySorted N.le l1) as Hs; cycle 1.
    { apply (Hs out (bitmap_iter s)); [done|]. apply (StronglySorted_merge_sort _). }
    clear. induction 1 as [|x l1 l2 Hsub IH|x l1 l2 Hsub IH]; [done|..]; inversion 1 as [|? ? Hl Hx]; subst; [|auto].
    constructor; [auto|]. rewrite Forall_forall in Hx. apply Forall_forall. intros y Hy.
    apply Hx. by eapply elem_of_sublist.
  - rewrite merge_sort_Permutation. by apply elements_list_to_set.
Qed.

Lemma keep_kept docs : kept same_value docs (keep docs).
Proof.
  unfold BucketSort.keep, BucketSort.same_value. destruct distinct_fid as [f|].
  - destruct (apply_distinct_rule_kept index f docs) as (out & -> & Hsub & _ & Hk).
    by rewrite (bitmap_iter_sublist out docs).
  - split.
    + intros d. by rewrite elem_of_bitmap_iter.
    + apply NoDup_bitmap_iter.
    + intros l1 l2 d d' _ _ _. apply not_elem_of_empty.
    + intros d Hd. left. by apply elem_of_bitmap_iter.
Qed.

Lemma keep_empty : keep ∅ = [].
Proof. unfold BucketSort.keep. by case_match. Qed.

Lemma fst_prod_map {B C} (f : B → C) (l : list (DocumentId * B)) : (prod_map (λ x, x) f <$> l).*1 = l.*1.
Proof. rewrite <- list_fmap_compose. apply list_fmap_ext. by intros i [d b]. Qed.

Lemma iterates_kept {E Query Score} (sub : Query → gset DocumentId → list (DocumentId * list Score) → Prop)
    (r : RankingRule E Query Score) st universe out :
  (∀ q u o, sub q u o → kept same_value u o.*1) →
  iterates index distinct_fid sub r st universe out → kept same_value universe out.*1.
Proof.
  intros Hsub. induction 1 as [|st universe bucket st' out1 out2 Hne Hb Hc H1 _ IH]; [apply kept_nil|].
  rewrite fmap_app, fst_prod_map. by eapply kept_app; [eapply Hsub|exact IH|done|].
Qed.

Lemma sorts_kept {E Query Score} (rules : list (RankingRule E Query Score)) q universe out :
  sorts index distinct_fid rules q universe out → kept same_value universe out.*1.
Proof.
  revert q universe out. induction rules as [|r rules IH]; intros q universe out; cbn [sorts].
  - intros ->. rewrite <- list_fmap_compose. cbn. rewrite list_fmap_id. apply keep_kept.
  - intros (st & _ & Hit). by eapply iterates_kept.
Qed.

(** *** Sets of at most one document *)
Lemma kept_one d out : kept same_value {[d]} out → out = [d].
Proof.
  intros [Hseen Hnd _ Hall]. assert (d ∈ out) as Hd.
  { destruct (Hall d ltac:(set_solver)) as [?|(d' & Hd' & _)]; [done|].
    pose proof (Hseen d' Hd') as ->%elem_of_singleton. done. }
  assert (∀ x, x ∈ out → x = d) as Hx by (intros x Hx; apply Hseen in Hx; set_solver).
  destruct out as [|x [|y out]]; [by apply not_elem_of_nil in Hd|by rewrite (Hx x) by left|].
  exfalso. rewrite (Hx x), (Hx y) in Hnd by set_solver. apply NoDup_cons in Hnd as [Hnd _]. by apply Hnd; left.
Qed.

Lemma kept_none out : kept same_value ∅ out → out = [].
Proof. intros [Hseen _ _ _]. destruct out as [|x out]; [done|]. specialize (Hseen x ltac:(left)). set_solver. Qed.

Lemma kept_small docs out out' : size docs ≤ 1 → kept same_value docs out → kept same_value docs out' → out = out'.
Proof.
  intros Hsz H1 H2. destruct (decide (docs = ∅)) as [->|Hne].
  - by rewrite (kept_none out), (kept_none out').
  - apply set_choose_L in Hne as [d Hd]. assert (docs = {[d]}) as ->.
    { apply set_eq. intros d'. rewrite elem_of_singleton. split; [|by intros ->]. intros Hd'.
      apply (size_singleton_inv docs); [|done..]. assert (size docs ≠ 0) by (intros He%size_empty_inv; set_solver). lia. }
    by rewrite (kept_one d out), (kept_one d out').
Qed.

Lemma kept_length docs out : kept same_value docs out → length out ≤ size docs.
Proof.
  intros [Hseen Hnd _ _]. rewrite <- (size_list_to_set (C := gset DocumentId)) by done.
  apply subseteq_size. intros d. rewrite elem_of_list_to_set. apply Hseen.
Qed.
End kept.

(** ** The ranking exists and is unique *)
Section total.
Context {E Query Score : Type} (index : FacetIndex) (distinct_fid : option FieldId).
Abbreviation RankingRule := (RankingRule E Query Score).
Abbreviation iterates := (iterates index distinct_fid).
Abbreviation sorts := (sorts index distinct_fid).

Lemma sorts_total fits (rules : list RankingRule) q universe :
  Forall (lawful fits) rules → fits q universe → ∃ out, sorts rules q universe out.
Proof.
  intros Hlaw. revert q universe. induction Hlaw as [|r rules (active & [Hstart Hmono Hnext _]) _ IH]; intros q universe Hfits.
  { by eexists. }
  cbn [BucketSort.sorts]. destruct (Hstart universe q Hfits) as (n & st & Hst & Hact).
  assert (∃ out, iterates (sorts rules) r st universe out) as [out Hout]; [|by exists out, st].
  clear Hst Hfits. revert st universe Hact. induction (lt_wf n) as [n _ IHn]. intros st universe Hact.
  destruct (decide (universe = ∅)) as [->|Hne]; [eexists; constructor|].
  destruct (Hnext n universe st Hact Hne) as (bucket & st' & n' & Hb & Hsub & Hfits & Hact' & Hdec).
  destruct (IH (query bucket) (candidates bucket) Hfits) as [out1 H1].
  assert (∃ out2, iterates (sorts rules) r st' ((universe ∖ candidates bucket) ∖ classes_of (same_value index distinct_fid) out1.*1) out2)
    as [out2 H2]; [|by eexists; econstructor].
  destruct Hdec as [Hlt|Hcov].
  - apply (IHn n' Hlt). eapply Hmono; [exact Hact'|set_solver].
  - replace (universe ∖ _ ∖ _) with (∅ : gset DocumentId) by set_solver. eexists. constructor.
Qed.

Lemma sorts_unique (rules : list RankingRule) q universe out out' :
  sorts rules q universe out → sorts rules q universe out' → out = out'.
Proof.
  revert q universe out out'. induction rules as [|r rules IH]; intros q universe out out'; cbn [BucketSort.sorts]; [congruence|].
  intros (st & Hst & H1) (st' & Hst' & H2). assert (st' = st) as -> by congruence. clear Hst Hst'.
  revert out' H2. induction H1 as [|st universe b st' out1 out2 Hne Hb _ Hsub _ IH1]; intros out'; inversion 1 as
    [|? ? b' st2 out1' out2' Hne' Hb' _ Hsub' Hit']; simplify_eq; [done|].
  assert (b' = b ∧ st2 = st') as [-> ->] by (rewrite Hb in Hb'; simplify_eq; done).
  rewrite (IH _ _ _ _ Hsub Hsub') in *. f_equal. by apply IH1.
Qed.
End total.

(** ** The code follows the ranking *)
Section follows.
Context {E Query Score : Type} (index : FacetIndex) (distinct_fid : option FieldId).
Context (from len : nat) (strategy : ScoringStrategy) (universe0 : gset DocumentId).
Abbreviation RankingRule := (RankingRule E Query Score).
Abbreviation Loop := (@Loop E Query Score).
Abbreviation BucketSortOutput := (@BucketSortOutput Score).
Abbreviation same_value := (same_value index distinct_fid).
Abbreviation keep := (keep index distinct_fid).
Abbreviation maybe_add_to_results := (maybe_add_to_results index distinct_fid from len).
Abbreviation step := (step index distinct_fid from len strategy).
Hypothesis Hclasses : classes same_value.

(** The part of a ranking that the search returns. *)
Definition window {A} (l : list A) : list A := take len (drop from l).

(** The results are the window of what has been ranked so far. *)
Record ranked (s : Loop) (done : list (DocumentId * list Score)) : Prop := {
  ranked_docids : valid_docids s = window done.*1;
  ranked_offset : cur_offset s = length done;
  ranked_lengths : length (valid_scores s) = length (valid_docids s);
  ranked_scores : strategy = Detailed → valid_scores s = window done.*2;
  ranked_candidates d : d ∈ valid_docids s → d ∈ all_candidates s;
  ranked_universe : all_candidates s ⊆ universe0;
  ranked_all : distinct_fid = None → all_candidates s = universe0
}.

Lemma window_full {A} (l l' : list A) : len ≤ length (window l) → window (l ++ l') = window l.
Proof.
  unfold window. rewrite length_take, length_drop, drop_app. intros Hlen. rewrite take_app_le; [done|]. rewrite length_drop. lia.
Qed.

Lemma window_app {A} (l l' : list A) :
  length (window l) < len →
  window (l ++ l') = window l ++ take (len - length (window l)) (drop (from - length l) l').
Proof.
  unfold window. rewrite length_take, length_drop, drop_app. intros Hlen.
  assert (length (drop from l) < len) as Hl by (rewrite length_drop; lia).
  rewrite take_app, (take_ge (drop from l)) by lia. f_equal. rewrite length_drop. f_equal. lia.
Qed.

Lemma window_subseteq {A} (l : list A) x : x ∈ window l → x ∈ l.
Proof.
  unfold window. intros Hx. eapply elem_of_sublist; [|apply (sublist_drop l from)].
  eapply elem_of_sublist; [exact Hx|apply sublist_take].
Qed.

Lemma window_split {A} (l l' : list A) x : x ∈ window (l ++ l') → x ∈ window l ∨ x ∈ l'.
Proof.
  destruct (decide (length (window l) < len)) as [Hlt|Hge].
  - rewrite window_app by done. intros [Hx|Hx]%elem_of_app; [by left|right].
    eapply elem_of_sublist; [|apply (sublist_drop l' (from - length l))]. eapply elem_of_sublist; [exact Hx|apply sublist_take].
  - rewrite window_full by lia. by left.
Qed.

Lemma window_short {A} (l : list A) : length l ≤ from → window l = [].
Proof. intros Hl. unfold window. by rewrite drop_ge, take_nil. Qed.

(** What [maybe_add_to_results] does to the candidates. *)
Definition keep_set (docs : gset DocumentId) : gset DocumentId :=
  match distinct_fid with Some fid => remaining (apply_distinct_rule index fid docs) | None => docs end.

Lemma keep_keep_set docs : keep docs = bitmap_iter (keep_set docs).
Proof. done. Qed.

Lemma excluded_classes fid docs :
  distinct_fid = Some fid → excluded (apply_distinct_rule index fid docs) = classes_of same_value (keep docs).
Proof.
  clear Hclasses. intros Hd. rewrite keep_keep_set. unfold keep_set, BucketSort.same_value. rewrite Hd.
  destruct (apply_distinct_rule_kept index fid docs) as (out & -> & Hsub & -> & _). by rewrite (bitmap_iter_sublist out docs).
Qed.

Lemma no_classes out : distinct_fid = None → classes_of same_value out = ∅.
Proof.
  clear Hclasses. intros Hd. apply set_eq. intros d. rewrite elem_of_classes_of. unfold BucketSort.same_value. rewrite Hd. set_solver.
Qed.

(** The classes are symmetric. *)
Lemma same_value_sym d d' : d' ∈ same_value d → d ∈ same_value d'.
Proof.
  destruct Hclasses as [Hpart Hself]. intros Hd. rewrite (Hpart d d' Hd).
  destruct (Hself d) as [?|He]; [done|]. rewrite He in Hd. set_solver.
Qed.

(** Adding the candidates of a bucket. *)
Lemma add_candidates_spec (s : Loop) docs (done : list (DocumentId * list Score)) :
  length (window done.*1) < len → valid_docids s = window done.*1 → cur_offset s = length done →
  length (valid_scores s) = length (valid_docids s) → (strategy = Detailed → valid_scores s = window done.*2) →
  let done' := done ++ ((λ d, (d, ranking_rule_scores s)) <$> bitmap_iter docs) in
  let s' := add_candidates from len docs s in
  ranking_rules s' = ranking_rules s ∧ ranking_rule_scores s' = ranking_rule_scores s ∧
  cur_ranking_rule_index s' = cur_ranking_rule_index s ∧ ranking_rule_universes s' = ranking_rule_universes s ∧
  all_candidates s' = all_candidates s ∧
  valid_docids s' = window done'.*1 ∧ cur_offset s' = length done' ∧ length (valid_scores s') = length (valid_docids s') ∧
  (strategy = Detailed → valid_scores s' = window done'.*2).
Proof.
  intros Hlen Hv Ho Hls Hsc. cbv zeta.
  assert (((λ d, (d, ranking_rule_scores s)) <$> bitmap_iter docs).*1 = bitmap_iter docs) as Hfst.
  { rewrite <- list_fmap_compose. apply list_fmap_id. }
  assert (((λ d, (d, ranking_rule_scores s)) <$> bitmap_iter docs).*2 = replicate (size docs) (ranking_rule_scores s)) as Hsnd.
  { rewrite <- list_fmap_compose, <- length_bitmap_iter. generalize (bitmap_iter docs). intros l.
    induction l as [|x l IH]; [done|]. cbn. by f_equal. }
  assert (length (window done.*2) = length (window done.*1)) as Hw.
  { unfold window. by rewrite !length_take, !length_drop, !length_fmap. }
  rewrite !fmap_app, Hfst, Hsnd, length_app, length_fmap, length_bitmap_iter.
  rewrite !window_app, Hw, !length_fmap by (by rewrite ?Hw). unfold add_candidates.
  destruct (decide (docs = ∅)) as [->|Hne].
  { rewrite size_empty, bitmap_iter_empty. cbn [replicate]. rewrite !drop_nil, !take_nil, !app_nil_r, Nat.add_0_r. done. }
  rewrite drop_replicate, take_replicate. destruct (Nat.ltb_spec (cur_offset s) from) as [Hlt|Hge].
  - destruct (Nat.ltb_spec (cur_offset s + size docs) from) as [Hlt2|Hge2]; cbn; split_and!; try done.
    + rewrite (drop_ge (bitmap_iter docs)) by (rewrite length_bitmap_iter; lia). by rewrite take_nil, app_nil_r.
    + by rewrite Ho.
    + intros Hd. rewrite Hsc by done. replace (size docs - _) with 0 by lia. rewrite Nat.min_0_r. by rewrite app_nil_r.
    + by rewrite Ho, Hv.
    + by rewrite Ho.
    + rewrite !length_app, length_replicate. by rewrite Hls.
    + intros Hd. rewrite Hsc by done. f_equal. f_equal. rewrite length_take, length_drop, length_bitmap_iter, Hv, Ho. lia.
  - replace (from - length done) with 0 by lia. rewrite drop_0, Nat.sub_0_r. cbn; split_and!; try done.
    + by rewrite Hv.
    + by rewrite Ho.
    + rewrite !length_app, length_replicate. by rewrite Hls.
    + intros Hd. rewrite Hsc by done. f_equal. f_equal. by rewrite length_take, length_bitmap_iter, Hv.
Qed.

Lemma maybe_add_spec (s : Loop) docs done :
  length (valid_docids s) < len → ranked s done → docs ⊆ universe0 → docs ## classes_of same_value done.*1 →
  let s' := maybe_add_to_results docs s in
  ranking_rules s' = ranking_rules s ∧ ranking_rule_scores s' = ranking_rule_scores s ∧
  cur_ranking_rule_index s' = cur_ranking_rule_index s ∧
  ranking_rule_universes s' = (λ u, u ∖ classes_of same_value (keep docs)) <$> ranking_rule_universes s ∧
  ranked s' (done ++ ((λ d, (d, ranking_rule_scores s)) <$> keep docs)).
Proof.
  intros Hlen [Hv Ho Hls Hsc Hin Hun Hall] Hdocs Hdis. cbv zeta. unfold BucketSort.maybe_add_to_results.
  assert (∃ s1, reduce_to_distinct index distinct_fid docs s = (keep_set docs, s1) ∧
    ranking_rules s1 = ranking_rules s ∧ ranking_rule_scores s1 = ranking_rule_scores s ∧
    cur_ranking_rule_index s1 = cur_ranking_rule_index s ∧ valid_docids s1 = valid_docids s ∧
    valid_scores s1 = valid_scores s ∧ cur_offset s1 = cur_offset s ∧
    ranking_rule_universes s1 = (λ u, u ∖ classes_of same_value (keep docs)) <$> ranking_rule_universes s ∧
    all_candidates s1 = all_candidates s ∖ classes_of same_value (keep docs))
    as (s1 & -> & Hr1 & Hs1 & Hi1 & Hv1 & Hvs1 & Ho1 & Hu1 & Ha1).
  { unfold reduce_to_distinct, keep_set. destruct distinct_fid as [fid|] eqn:Hd.
    - rewrite <- !Hd. rewrite (excluded_classes fid docs Hd). eexists. split; [done|]. cbn. split_and!; done.
    - rewrite <- !Hd. exists s. rewrite (no_classes _ Hd). split_and!; try done; [|set_solver].
      rewrite <- (list_fmap_id (ranking_rule_universes s)) at 1. apply list_fmap_ext. intros. cbn. set_solver. }
  set (s2 := with_all_candidates (all_candidates s1 ∪ keep_set docs) s1).
  destruct (add_candidates_spec s2 (keep_set docs) done) as (Hr & Hs & Hi & Hu & Ha & Hv' & Ho' & Hls' & Hsc').
  { by rewrite <- Hv. }
  { cbn. congruence. }
  { cbn. congruence. }
  { cbn. congruence. }
  { intros Hd. cbn. rewrite Hvs1. by apply Hsc. }
  cbn in *. rewrite Hr, Hs, Hi, Hu, Hr1, Hs1, Hi1, Hu1. split_and!; [done..|].
  assert (∀ d, d ∈ keep docs → d ∈ docs) as Hkeep by apply (keep_kept index distinct_fid docs).
  split; rewrite ?Ha; cbn; rewrite ?Hs1 in *; [done..| | |].
  - intros d Hd. rewrite Hv', fmap_app, <- list_fmap_compose, list_fmap_id in Hd. apply window_split in Hd as [Hd|Hd].
    + rewrite Ha1, elem_of_union, elem_of_difference. left. split; [apply Hin; by rewrite Hv|].
      intros (d' & Hd' & Hc)%elem_of_classes_of. apply same_value_sym in Hc.
      apply (Hdis d'); [by apply Hkeep|]. apply elem_of_classes_of. exists d. split; [by apply window_subseteq|done].
    + rewrite Ha1, elem_of_union. right. by rewrite elem_of_bitmap_iter in Hd.
  - intros d [Hd|Hd]%elem_of_union; [set_solver|]. apply Hdocs, Hkeep. by rewrite keep_keep_set, elem_of_bitmap_iter.
  - intros Hd. rewrite Ha1, (no_classes _ Hd), (Hall Hd). apply set_eq. intros d.
    assert (d ∈ keep_set docs → d ∈ universe0) as Hk; [|set_solver].
    intros Hk. apply Hdocs, Hkeep. by rewrite keep_keep_set, elem_of_bitmap_iter.
Qed.

#[local] Arguments vec_pop : simpl never.
#[local] Arguments slice_get : simpl never.
#[local] Arguments Nat.ltb : simpl never.
#[local] Arguments Nat.leb : simpl never.

(** *** Runs of the loop *)
Inductive reaches : Loop → outcome E (Loop + BucketSortOutput) → Prop :=
| reaches_step s : reaches s (step s)
| reaches_next s s' res : step s = Ok (inl s') → reaches s' res → reaches s res.

Lemma reaches_trans s s' res : reaches s (Ok (inl s')) → reaches s' res → reaches s res.
Proof.
  intros H1 H2. remember (Ok (inl s')) as r eqn:Hr. revert Hr.
  induction H1 as [s|s s1 r Hs _ IH]; intros Hr; [by eapply reaches_next|]. eapply reaches_next; eauto.
Qed.

Lemma reaches_run s out :
  reaches s (Ok (inr out)) → ∃ n, ∀ fuel, n ≤ fuel → run index distinct_fid from len strategy fuel s = Some (Ok out).
Proof.
  intros H. remember (Ok (inr out)) as r eqn:Hr. revert Hr. induction H as [s|s s1 r Hs _ IH]; intros Hr.
  - exists 1. intros [|fuel] Hf; [lia|]. cbn. by rewrite Hr.
  - destruct (IH Hr) as [n Hn]. exists (S n). intros [|fuel] Hf; [lia|]. cbn. rewrite Hs. apply Hn. lia.
Qed.

(** What the search returns for a ranking. *)
Record result_ok (out : BucketSortOutput) (ranking : list (DocumentId * list Score)) : Prop := {
  result_docids : docids out = window ranking.*1;
  result_lengths : length (scores out) = length (docids out);
  result_scores : strategy = Detailed → scores out = window ranking.*2;
  result_candidates d : d ∈ docids out → d ∈ out_candidates out;
  result_universe : out_candidates out ⊆ universe0;
  result_all : distinct_fid = None → out_candidates out = universe0
}.

Lemma ranked_enough (s : Loop) done more :
  len ≤ length (valid_docids s) → ranked s done → result_ok (output_of s) (done ++ more).
Proof.
  intros Hlen [Hv Ho Hls Hsc Hin Hun Hall].
  assert (length (window done.*1) = length (window done.*2)) as Hw.
  { unfold window. by rewrite !length_take, !length_drop, !length_fmap. }
  rewrite Hv in Hlen. split; cbn; [| |intros Hd|by auto..]; rewrite ?fmap_app, ?window_full by lia; auto.
Qed.

Lemma ranked_done (s : Loop) done : ranked s done → result_ok (output_of s) done.
Proof. intros [Hv Ho Hls Hsc Hin Hun Hall]. split; auto. Qed.

Lemma ranked_replace (s : Loop) done l l' :
  length l = length l' → strategy = Skip ∧ l.*1 = l'.*1 ∨ length (done ++ l) ≤ from →
  ranked s (done ++ l) → ranked s (done ++ l').
Proof.
  intros Hlen Hor [Hv Ho Hls Hsc Hin Hun Hall]. rewrite !fmap_app in *. rewrite length_app in *.
  split; rewrite ?fmap_app, ?length_app; [|lia|done| |done..].
  - destruct Hor as [[_ <-]|Hshort]; [done|]. by rewrite Hv, !window_short by (rewrite length_app, !length_fmap; lia).
  - intros Hd. destruct Hor as [[? _]|Hshort]; [congruence|].
    rewrite Hsc, !window_short by (done || rewrite length_app, !length_fmap; lia). done.
Qed.

(** The state of the loop in the iteration of the rule [R] on [U]: [pre] are the rules
    before, with the universes [us] left for them, [rest] the rules after, which are idle. *)
Record at_level (s : Loop) (pre rest : list RankingRule) (us : list (gset DocumentId)) (R : RankingRule)
    (U : gset DocumentId) (P : list Score) (done : list (DocumentId * list Score)) : Prop := {
  level_rules : ranking_rules s = pre ++ R :: rest;
  level_universes : ∃ vs, ranking_rule_universes s = us ++ U :: vs ∧ length vs = length rest;
  level_us : length us = length pre;
  level_index : cur_ranking_rule_index s = length pre;
  level_scores : ranking_rule_scores s = P;
  level_prefix : length P = length pre;
  level_ranked : ranked s done
}.

Lemma ranked_with (s s' : Loop) done :
  valid_docids s' = valid_docids s → valid_scores s' = valid_scores s → cur_offset s' = cur_offset s →
  all_candidates s' = all_candidates s → ranked s done → ranked s' done.
Proof. intros H1 H2 H3 H4 [? ? ? ? ? ? ?]. split; rewrite ?H1, ?H2, ?H3, ?H4; auto. Qed.

Lemma slice_get_middle {A} (l1 l2 : list A) x i : i = length l1 → slice_get (E := E) (l1 ++ x :: l2) i = Ok x.
Proof. intros ->. unfold slice_get. by rewrite list_lookup_middle. Qed.

Lemma insert_middle {A} (l1 l2 : list A) x y i : i = length l1 → <[i := y]> (l1 ++ x :: l2) = l1 ++ y :: l2.
Proof. intros ->. rewrite insert_app_r_alt by lia. by rewrite Nat.sub_diag. Qed.

Lemma vec_pop_snoc {A} (l : list A) x : vec_pop (l ++ [x]) = l.
Proof. unfold vec_pop. rewrite length_app. cbn. rewrite Nat.add_sub, take_app_length. done. Qed.

Lemma step_enough (s : Loop) : len ≤ length (valid_docids s) → step s = Ok (inr (output_of s)).
Proof. intros Hlen. unfold BucketSort.step. by apply Nat.leb_le in Hlen as ->. Qed.

(** Leaving a rule. *)
Lemma back_first (s : Loop) rest r st P done :
  at_level s [] rest [] (with_self r st) ∅ P done → ∃ out, back s = Ok (inr out) ∧ result_ok out done.
Proof.
  intros [Hr (vs & Hu & _) _ Hi _ _ Hrk]. unfold back. rewrite Hi, Hr, Hu. cbn. eexists. split; [done|].
  apply ranked_done. by eapply ranked_with; [..|exact Hrk].
Qed.

Lemma back_level (s : Loop) pre R0 rest us U0 r st P x done :
  at_level s (pre ++ [R0]) rest (us ++ [U0]) (with_self r st) ∅ (P ++ [x]) done → end_iteration r st = self r →
  ∃ s', back s = Ok (inl s') ∧ at_level s' pre (r :: rest) us R0 U0 P done.
Proof.
  intros [Hr (vs & Hu & Hvs) Hus Hi Hs Hp Hrk] Hend. destruct s. cbn in *. subst.
  rewrite !length_app in Hus, Hp. cbn in Hus, Hp. unfold back. cbn.
  rewrite !slice_get_middle by (rewrite !length_app; cbn; lia). cbn. rewrite bool_decide_true by done. cbn.
  rewrite !insert_middle by (rewrite !length_app; cbn; lia).
  rewrite vec_pop_snoc, !length_app, Nat.add_comm. cbn.
  rewrite (proj2 (Nat.ltb_lt _ _)) by lia.
  eexists. split; [done|]. split; cbn; [|exists (∅ :: vs)|lia|done|done|lia|].
  - rewrite <- app_assoc. cbn. unfold with_self at 1. cbn. rewrite Hend. by destruct r.
  - rewrite <- app_assoc. cbn. split; [done|]. by rewrite Hvs.
  - by eapply ranked_with; [..|exact Hrk].
Qed.

(** Adding the documents of a bucket at a level. *)
Lemma add_level s pre rest us vs R U P P' done docs :
  ranking_rules s = pre ++ R :: rest → ranking_rule_universes s = us ++ U :: vs → length vs = length rest →
  length us = length pre → cur_ranking_rule_index s = length pre → ranking_rule_scores s = P' → length P = length pre →
  ranked s done → length (valid_docids s) < len → docs ⊆ universe0 → docs ## classes_of same_value done.*1 →
  at_level (with_scores P (maybe_add_to_results docs s)) pre rest
    ((λ u, u ∖ classes_of same_value (keep docs)) <$> us) R (U ∖ classes_of same_value (keep docs)) P
    (done ++ ((λ d, (d, P')) <$> keep docs)).
Proof.
  intros Hr Hu Hvs Hus Hi Hs Hp Hrk Hlen Hdocs Hdis.
  destruct (maybe_add_spec s docs done Hlen Hrk Hdocs Hdis) as (Hr' & Hs' & Hi' & Hu' & Hrk'). rewrite Hs in Hrk'.
  split; cbn; [by rewrite Hr'| |by rewrite length_fmap|by rewrite Hi'|done|done|by eapply ranked_with; [..|exact Hrk']].
  exists ((λ u, u ∖ classes_of same_value (keep docs)) <$> vs). rewrite length_fmap. split; [|done].
  by rewrite Hu', Hu, fmap_app, fmap_cons.
Qed.

(** When a turn of the loop asks the rule for a bucket, and when it adds the bucket at once. *)
Definition asks (U : gset DocumentId) : Prop := U ≠ ∅ ∧ ¬ (strategy = Skip ∧ size U = 1).
Definition at_once (rest : list RankingRule) (docs : gset DocumentId) (done : list (DocumentId * list Score)) : Prop :=
  rest = [] ∨ strategy = Skip ∧ size docs ≤ 1 ∨ length done + size docs < from.

Lemma step_bucket s pre rest us r st U P done bucket st' :
  at_level s pre rest us (with_self r st) U P done → length (valid_docids s) < len → asks U →
  next_bucket r U st = Ok (Some bucket, st') → candidates bucket ⊆ U → U ⊆ universe0 → U ## classes_of same_value done.*1 →
  at_once rest (candidates bucket) done →
  ∃ s', step s = Ok (inl s') ∧
    at_level s' pre rest ((λ u, u ∖ classes_of same_value (keep (candidates bucket))) <$> us) (with_self r st')
      ((U ∖ candidates bucket) ∖ classes_of same_value (keep (candidates bucket))) P
      (done ++ ((λ d, (d, P ++ [score bucket])) <$> keep (candidates bucket))).
Proof.
  intros [Hr (vs & Hu & Hvs) Hus Hi Hs Hp Hrk] Hlen [Hne Hskip] Hb Hc HU Hdis Honce. destruct s. cbn in *. subst.
  unfold BucketSort.step. cbn. rewrite (proj2 (Nat.leb_gt _ _)) by done. rewrite !slice_get_middle by done. cbn.
  rewrite (bool_decide_eq_false_2 (U = ∅)) by done. cbn. case_match eqn:Hif.
  { exfalso. apply andb_true_iff in Hif as [Hsk%bool_decide_eq_true Hsz%Nat.eqb_eq]. by apply Hskip. }
  rewrite Hb. cbn. rewrite !insert_middle by done. rewrite length_app. cbn.
  case_match eqn:Hor; cycle 1.
  { exfalso. apply orb_false_iff in Hor as [[Hlast Hsmall]%orb_false_iff Hoff]. destruct Honce as [->|[[-> Hsz]|Hoff']].
    - apply Nat.eqb_neq in Hlast. apply Hlast. cbn. lia.
    - rewrite bool_decide_true in Hsmall by done. cbn in Hsmall. apply Nat.leb_gt in Hsmall. lia.
    - pose proof (ranked_offset _ _ Hrk) as Ho. cbn in Ho. apply Nat.ltb_ge in Hoff. lia. }
  eexists. split; [done|]. set (s1 := with_universes _ _).
  destruct (maybe_add_spec s1 (candidates bucket) done) as (Hr' & Hs' & Hi' & Hu' & Hrk'); [done|..].
  { by eapply ranked_with; [..|exact Hrk]. }
  { set_solver. }
  { set_solver. }
  rewrite Hs'. replace (vec_pop (ranking_rule_scores s1)) with P by (symmetry; apply vec_pop_snoc).
  eapply (add_level s1 pre rest us vs); cbn; try done; [|set_solver..]. by eapply ranked_with; [..|exact Hrk].
Qed.

Lemma step_descend s pre r2 rest us r st U P done bucket st' st2 :
  at_level s pre (r2 :: rest) us (with_self r st) U P done → length (valid_docids s) < len → asks U →
  next_bucket r U st = Ok (Some bucket, st') → ¬ at_once (r2 :: rest) (candidates bucket) done →
  start_iteration r2 (candidates bucket) (query bucket) (self r2) = Ok st2 →
  ∃ s', step s = Ok (inl s') ∧
    at_level s' (pre ++ [with_self r st']) rest (us ++ [U ∖ candidates bucket]) (with_self r2 st2) (candidates bucket)
      (P ++ [score bucket]) done.
Proof.
  intros [Hr (vs & Hu & Hvs) Hus Hi Hs Hp Hrk] Hlen [Hne Hskip] Hb Honce Hst. destruct s. cbn in *. subst.
  destruct vs as [|v vs]; [done|].
  unfold BucketSort.step. cbn. rewrite (proj2 (Nat.leb_gt _ _)) by done. rewrite !slice_get_middle by done. cbn.
  rewrite (bool_decide_eq_false_2 (U = ∅)) by done. cbn. case_match eqn:Hif.
  { exfalso. apply andb_true_iff in Hif as [Hsk%bool_decide_eq_true Hsz%Nat.eqb_eq]. by apply Hskip. }
  rewrite Hb. cbn. rewrite !insert_middle by done. rewrite length_app. cbn.
  case_match eqn:Hor.
  { exfalso. apply Honce. apply orb_true_iff in Hor as [[Hlast|Hsmall]%orb_true_iff|Hoff].
    - apply Nat.eqb_eq in Hlast. lia.
    - apply andb_true_iff in Hsmall as [?%bool_decide_eq_true ?%Nat.leb_le]. right. by left.
    - pose proof (ranked_offset _ _ Hrk) as Ho. cbn in Ho. apply Nat.ltb_lt in Hoff. right. right. lia. }
  rewrite (cons_middle _ pre (r2 :: rest)), (app_assoc pre), (cons_middle _ us (v :: vs)), (app_assoc us).
  rewrite !insert_middle, slice_get_middle by (rewrite length_app; cbn; lia). cbn. rewrite Hst. cbn.
  rewrite insert_middle by (rewrite length_app; cbn; lia). eexists. split; [done|].
  split; cbn; rewrite ?length_app; cbn; [done|exists vs|lia|done|done|lia|by eapply ranked_with; [..|exact Hrk]].
  cbn in Hvs. split; [done|lia].
Qed.

Lemma step_skip s pre rest us r st U P done :
  at_level s pre rest us (with_self r st) U P done → length (valid_docids s) < len → ¬ asks U →
  U ⊆ universe0 → U ## classes_of same_value done.*1 →
  ∃ s', step s = back s' ∧
    at_level s' pre rest ((λ u, u ∖ classes_of same_value (keep U)) <$> us) (with_self r st) ∅ P
      (done ++ ((λ d, (d, P)) <$> keep U)).
Proof.
  intros [Hr (vs & Hu & Hvs) Hus Hi Hs Hp Hrk] Hlen Hasks HU Hdis.
  unfold BucketSort.step. rewrite (proj2 (Nat.leb_gt _ _)) by done. rewrite Hu, Hi, slice_get_middle by done. cbn.
  case_match eqn:Hif; cycle 1.
  { exfalso. apply Hasks. apply orb_false_iff in Hif as [Hne%bool_decide_eq_false Hsk]. split; [done|]. intros [-> Hsz].
    rewrite bool_decide_true in Hsk by done. cbn in Hsk. by apply Nat.eqb_neq in Hsk. }
  set (s1 := with_universes _ _). exists (maybe_add_to_results U s1). split; [done|].
  assert (ranked s1 done) as Hrk1 by by eapply ranked_with; [..|exact Hrk].
  assert (ranking_rule_universes s1 = us ++ ∅ :: vs) as Hu1 by (cbn; by rewrite insert_middle).
  replace (maybe_add_to_results U s1) with (with_scores P (maybe_add_to_results U s1)).
  2: { destruct (maybe_add_spec s1 U done) as (_ & Hs' & _); [done..|]. cbn in Hs'. rewrite Hs in Hs'.
       rewrite <- Hs'. by destruct (maybe_add_to_results U s1). }
  pose proof (add_level s1 pre rest us vs (with_self r st) ∅ P P done U) as Hadd.
  rewrite (subseteq_empty_difference_L ∅) in Hadd by set_solver. by apply Hadd.
Qed.

(** The ranking of an iteration, with the scores of the rules before. *)
Definition scored (P : list Score) (out : list (DocumentId * list Score)) : list (DocumentId * list Score) :=
  prod_map (λ x, x) (app P) <$> out.

Lemma scored_cons P x out : scored P (prod_map (λ x, x) (cons x) <$> out) = scored (P ++ [x]) out.
Proof. unfold scored. rewrite <- list_fmap_compose. apply list_fmap_ext. intros _ [d l] _. cbn. by rewrite <- app_assoc. Qed.

(** The end of the iteration of a rule: the search is over, or the loop goes back to the
    rule before. *)
Definition over (pre rest : list RankingRule) us (r : RankingRule) P done (out : list (DocumentId * list Score))
    (res : outcome E (Loop + BucketSortOutput)) : Prop :=
  (∃ o, res = Ok (inr o) ∧ ∀ more, result_ok o (done ++ scored P out ++ more)) ∨
  ∃ s' st', res = back s' ∧ end_iteration r st' = self r ∧
    at_level s' pre rest ((λ u, u ∖ classes_of same_value out.*1) <$> us) (with_self r st') ∅ P (done ++ scored P out).

Lemma at_level_replace s pre rest us r st U P done l l' :
  length l = length l' → strategy = Skip ∧ l.*1 = l'.*1 ∨ length (done ++ l) ≤ from →
  at_level s pre rest us (with_self r st) U P (done ++ l) → at_level s pre rest us (with_self r st) U P (done ++ l').
Proof. intros Hlen Hor [? ? ? ? ? ? Hrk]. split; [done..|]. by eapply ranked_replace. Qed.

(** The documents of a bucket that is added at once are those of its ranking, as far as
    the window and the other buckets are concerned. *)
Lemma once_classes docs out : kept same_value docs out → classes_of same_value (keep docs) = classes_of same_value out.
Proof.
  intros Hk. apply set_eq. intros d. by rewrite (kept_classes _ docs) by (done || apply keep_kept);
    rewrite (kept_classes _ docs out).
Qed.

Lemma once_level s pre rest us r st U P done q docs x out :
  sorts index distinct_fid rest q docs out → at_once rest docs done →
  at_level s pre rest us (with_self r st) U P (done ++ ((λ d, (d, P ++ [x])) <$> keep docs)) →
  at_level s pre rest us (with_self r st) U P (done ++ scored (P ++ [x]) out).
Proof.
  intros Hsorts Honce. pose proof (sorts_kept _ _ _ _ _ _ Hsorts) as Hk.
  assert (length (keep docs) = length out) as Hlen.
  { rewrite (kept_keys same_value docs) by (done || apply keep_kept).
    rewrite <- (kept_keys same_value docs out.*1), length_fmap by done. done. }
  destruct Honce as [->|Honce].
  { cbn in Hsorts. subst out. unfold scored. rewrite <- list_fmap_compose. cbn.
    erewrite list_fmap_ext; [exact (λ H, H)|]. intros _ d _. cbn. by rewrite app_nil_r. }
  apply at_level_replace; [unfold scored; by rewrite !length_fmap|]. destruct Honce as [[-> Hsz]|Hoff].
  - left. split; [done|]. unfold scored. rewrite fst_prod_map, <- list_fmap_compose, list_fmap_id.
    eapply (kept_small index distinct_fid docs); [done|apply keep_kept|done].
  - right. rewrite length_app, length_fmap. pose proof (kept_length _ _ _ _ (keep_kept index distinct_fid docs)). lia.
Qed.

Lemma scored_app P out1 out2 : scored P (out1 ++ out2) = scored P out1 ++ scored P out2.
Proof. apply fmap_app. Qed.

(** What comes after a bucket. *)
Lemma over_next pre rest us r P done b out1 out2 res :
  over pre rest ((λ u, u ∖ classes_of same_value out1.*1) <$> us) r P (done ++ scored (P ++ [b]) out1) out2 res →
  over pre rest us r P done ((prod_map (λ x, x) (cons b) <$> out1) ++ out2) res.
Proof.
  unfold over. rewrite scored_app, scored_cons, fmap_app, fst_prod_map, classes_of_app, !(assoc_L (++)).
  intros [(o & -> & Ho)|(s' & st' & -> & Hend & Hlev)]; [left|right].
  - exists o. split; [done|]. intros more. specialize (Ho more). by rewrite <- !(assoc_L (++)) in *.
  - exists s', st'. split_and!; [done|done|]. rewrite <- list_fmap_compose in Hlev.
    erewrite list_fmap_ext; [exact Hlev|]. intros _ u _. cbn. set_solver.
Qed.

(** The iteration of a rule follows its ranking. *)
Definition follows fits rest (r : RankingRule) : Prop :=
  ∀ active, rule_laws fits r active → ∀ n st U out pre us P done s,
    active n U st → iterates index distinct_fid (sorts index distinct_fid rest) r st U out →
    at_level s pre rest us (with_self r st) U P done → U ⊆ universe0 → U ## classes_of same_value done.*1 →
    ∃ res, reaches s res ∧ over pre rest us r P done out res.

(** One bucket, whether it is added at once or sorted by the rules after. *)
Lemma bucket_run fits rest s pre us r st U P done b st' out1 :
  (∀ r2 rest2, rest = r2 :: rest2 → lawful fits r2 ∧ follows fits rest2 r2) →
  at_level s pre rest us (with_self r st) U P done → length (valid_docids s) < len → asks U →
  next_bucket r U st = Ok (Some b, st') → candidates b ⊆ U → fits (query b) (candidates b) → end_iteration r st' = self r →
  sorts index distinct_fid rest (query b) (candidates b) out1 → U ⊆ universe0 → U ## classes_of same_value done.*1 →
  ∃ res, reaches s res ∧
    ((∃ o, res = Ok (inr o) ∧ ∀ more, result_ok o (done ++ scored (P ++ [score b]) out1 ++ more)) ∨
     ∃ s', res = Ok (inl s') ∧
       at_level s' pre rest ((λ u, u ∖ classes_of same_value out1.*1) <$> us) (with_self r st')
         ((U ∖ candidates b) ∖ classes_of same_value out1.*1) P (done ++ scored (P ++ [score b]) out1)).
Proof.
  intros Hrest Hlev Hlen Hasks Hb Hc Hfits Hend Hsub HU Hdis. pose proof (sorts_kept _ _ _ _ _ _ Hsub) as Hk.
  destruct (decide (rest = [] ∨ strategy = Skip ∧ size (candidates b) ≤ 1 ∨ length done + size (candidates b) < from)) as [Honce|Honce].
  - destruct (step_bucket s pre rest us r st U P done b st') as (s' & Hs & Hlev'); [done..|].
    exists (Ok (inl s')). split; [rewrite <- Hs; constructor|]. right. exists s'. split; [done|].
    rewrite (once_classes (candidates b) out1.*1) in Hlev' by done. by eapply once_level.
  - destruct rest as [|r2 rest2]; [destruct Honce; by left|]. destruct (Hrest r2 rest2 eq_refl) as [(active & Hlaws) Hfol].
    destruct Hsub as (st2 & Hst2 & Hit2). destruct (law_start _ _ _ Hlaws (candidates b) (query b) Hfits) as (n2 & st2' & Hst2' & Hact2).
    assert (st2' = st2) as -> by congruence.
    destruct (step_descend s pre r2 rest2 us r st U P done b st' st2) as (s' & Hs & Hlev'); [done..|].
    destruct (Hfol active Hlaws n2 st2 (candidates b) out1 _ _ _ _ _ Hact2 Hit2 Hlev') as (res & Hres & Hover); [set_solver..|].
    destruct Hover as [(o & -> & Ho)|(s2 & st3 & -> & Hend2 & Hlev2)].
    { exists (Ok (inr o)). split; [by eapply reaches_next|]. left. by exists o. }
    rewrite fmap_app in Hlev2. cbn in Hlev2.
    destruct (back_level _ _ _ _ _ _ _ _ _ _ _ Hlev2 Hend2) as (s3 & Hs3 & Hlev3).
    exists (Ok (inl s3)). split; [eapply reaches_next; [done|]; by rewrite <- Hs3|]. right. by exists s3.
Qed.

Lemma level_follows fits rest r :
  (∀ r2 rest2, rest = r2 :: rest2 → lawful fits r2 ∧ follows fits rest2 r2) → follows fits rest r.
Proof.
  intros Hrest active Hlaws n st U out pre us P done s Hact Hit. revert n pre us P done s Hact.
  induction Hit as [st|st U b st' out1 out2 Hne Hb Hc Hsub Hit IH]; intros n pre us P done s Hact Hlev HU Hdis.
  all: destruct (decide (len ≤ length (valid_docids s))) as [Hlen|Hlen];
    [exists (Ok (inr (output_of s))); split; [rewrite <- (step_enough s) by done; constructor|]; left; eexists; split; [done|];
     intros more; apply ranked_enough; [done|apply Hlev]|].
  { destruct (step_skip s pre rest us r st ∅ P done) as (s' & Hs & Hlev'); [done|lia|by intros [? _]|done..|].
    exists (back s'). split; [rewrite <- Hs; constructor|]. right. exists s', st. split_and!; [done|by eapply law_end|].
    rewrite keep_empty in Hlev'. exact Hlev'. }
  destruct (decide (strategy = Skip ∧ size U = 1)) as [[Hsk Hsz]|Hask].
  { destruct (step_skip s pre rest us r st U P done) as (s' & Hs & Hlev'); [done|lia|by intros [_ []]|done..|].
    exists (back s'). split; [rewrite <- Hs; constructor|]. right. exists s', st. split_and!; [done|by eapply law_end|].
    assert (iterates index distinct_fid (sorts index distinct_fid rest) r st U ((prod_map (λ x, x) (cons (score b)) <$> out1) ++ out2))
      as Hit' by by econstructor.
    apply (iterates_kept index distinct_fid) in Hit'; [|intros; by eapply sorts_kept].
    pose proof (kept_small index distinct_fid U _ _ ltac:(lia) (keep_kept _ _ U) Hit') as Heq. rewrite <- Heq.
    eapply at_level_replace; [| |exact Hlev'].
    - unfold scored. by rewrite !length_fmap, Heq, length_fmap.
    - left. split; [done|]. unfold scored. rewrite fst_prod_map, <- list_fmap_compose, list_fmap_id. exact Heq. }
  destruct (law_next _ _ _ Hlaws n U st Hact Hne) as (b' & st2 & n' & Hb' & _ & Hfits & Hact' & _).
  assert (b' = b ∧ st2 = st') as [-> ->] by (rewrite Hb in Hb'; by simplify_eq).
  destruct (bucket_run fits rest s pre us r st U P done b st' out1) as (res & Hres & Hcase); try (done || lia || by eapply law_end).
  destruct Hcase as [(o & -> & Ho)|(s' & -> & Hlev')].
  - exists (Ok (inr o)). split; [done|]. left. exists o. split; [done|]. intros more.
    rewrite scored_app, scored_cons, <- (assoc_L (++)). apply Ho.
  - edestruct (IH n' pre) as (res & Hres' & Hover); [|exact Hlev'|set_solver| |].
    { eapply law_subset; [done..|set_solver]. }
    { unfold scored. rewrite fmap_app, fst_prod_map, classes_of_app. set_solver. }
    exists res. split; [by eapply reaches_trans|]. by apply over_next.
Qed.

Lemma level_run fits rest r : Forall (lawful fits) rest → follows fits rest r.
Proof.
  revert r. induction rest as [|r2 rest2 IH]; intros r Hrest; apply level_follows; [done|].
  intros ? ? [= <- <-]. apply Forall_cons in Hrest as [??]. split; [done|by apply IH].
Qed.

(** The whole search. *)
Lemma bucket_sort_run fits (first : RankingRule) rest q ranking :
  Forall (lawful fits) (first :: rest) → fits q universe0 → from ≤ size universe0 →
  sorts index distinct_fid (first :: rest) q universe0 ranking →
  ∃ n, ∀ fuel, n ≤ fuel → ∃ out,
    bucket_sort index distinct_fid from len strategy fuel (first :: rest) q universe0 = Some (Ok out) ∧ result_ok out ranking.
Proof.
  intros [(active & Hlaws) Hrest]%Forall_cons Hfits Hfrom (st & Hst & Hit). unfold bucket_sort.
  rewrite (proj2 (Nat.ltb_ge _ _)) by done. rewrite Hst.
  destruct (law_start _ _ _ Hlaws universe0 q Hfits) as (n & st' & Hst' & Hact).
  assert (st' = st) as -> by congruence. set (s := mkLoop _ _ _ _ _ _ _ _).
  destruct (level_run fits rest first Hrest active Hlaws n st universe0 ranking [] [] [] [] s Hact Hit) as (res & Hres & Hover); [|done| |].
  { split; cbn; [done| |done..|].
    - exists (replicate (length rest) ∅). by rewrite length_replicate.
    - split; cbn; try done. by unfold window; rewrite drop_nil, take_nil. by unfold window; rewrite drop_nil, take_nil.
      by intros d ?%not_elem_of_nil. }
  { intros d _ (d' & ?%not_elem_of_nil & _)%elem_of_classes_of. done. }
  assert (scored [] ranking = ranking) as Hsc.
  { unfold scored. rewrite <- (list_fmap_id ranking) at 2. apply list_fmap_ext. by intros _ [d l] _. }
  assert (∃ out, res = Ok (inr out) ∧ result_ok out ranking) as (out & -> & Hout).
  { destruct Hover as [(o & -> & Ho)|(s' & st' & -> & _ & Hlev)].
    - exists o. split; [done|]. specialize (Ho []). by rewrite Hsc, app_nil_r in Ho.
    - cbn in Hlev. rewrite Hsc in Hlev. by eapply back_first. }
  apply reaches_run in Hres as [m Hm]. exists m. intros fuel Hfuel. exists out. split; [by apply Hm|done].
Qed.
End follows.

(** ** The results of a search *)
Section results.
Context {E Query Score : Type} (index : FacetIndex) (distinct_fid : option FieldId).
Context (from len : nat) (strategy : ScoringStrategy).
Abbreviation RankingRule := (RankingRule E Query Score).
Abbreviation same_value := (same_value index distinct_fid).
Abbreviation result_ok := (@result_ok Score distinct_fid from len strategy).

Lemma keep_scores docs : ((λ d, (d, [])) <$> keep index distinct_fid docs : list (DocumentId * list Score)).*1 = keep index distinct_fid docs.
Proof. rewrite <- list_fmap_compose. apply list_fmap_id. Qed.

Lemma result_short universe ranking :
  size universe < from → kept same_value universe ranking.*1 → result_ok universe (mkSorted [] [] universe) ranking.
Proof.
  intros Hsz Hk. pose proof (kept_length index distinct_fid _ _ Hk) as Hlen. rewrite length_fmap in Hlen.
  split; cbn; [by rewrite window_short by (rewrite length_fmap; lia)|done| |by intros d ?%not_elem_of_nil|done|done].
  intros _. by rewrite window_short by (rewrite length_fmap; lia).
Qed.

(** The window of the ranking, for any list of rules. *)
Lemma bucket_sort_correct (fits : Query → gset DocumentId → Prop) (rules : list RankingRule) q universe :
  Forall (lawful fits) rules → fits q universe → classes same_value → rules ≠ [] ∨ distinct_fid = None →
  ∃ ranking, sorts index distinct_fid rules q universe ranking ∧ kept same_value universe ranking.*1 ∧
    ∃ n, ∀ fuel, n ≤ fuel → ∃ out,
      bucket_sort index distinct_fid from len strategy fuel rules q universe = Some (Ok out) ∧ result_ok universe out ranking.
Proof.
  intros Hlaw Hfits Hcls Hor. destruct (sorts_total index distinct_fid fits rules q universe Hlaw Hfits) as [ranking Hr].
  exists ranking. split; [done|]. pose proof (sorts_kept _ _ _ _ _ _ Hr) as Hk. split; [done|].
  destruct (decide (size universe < from)) as [Hsz|Hsz].
  { exists 0. intros fuel _. unfold bucket_sort. rewrite (proj2 (Nat.ltb_lt _ _)) by done. eexists. split; [done|].
    by apply result_short. }
  destruct rules as [|first rest]; [|eapply bucket_sort_run; try done; lia].
  destruct Hor as [?|Hnone]; [done|]. exists 0. intros fuel _. unfold bucket_sort. rewrite (proj2 (Nat.ltb_ge _ _)) by lia.
  cbn in Hr. subst ranking. rewrite Hnone in *. eexists. split; [done|]. cbn [keep].
  change (keep index None universe) with (bitmap_iter universe). split; cbn; rewrite <- ?list_fmap_compose.
  - by rewrite list_fmap_id.
  - by rewrite length_replicate.
  - intros _. unfold window. rewrite <- fmap_drop, <- fmap_take. generalize (take len (drop from (bitmap_iter universe))).
    intros l. induction l as [|x l IH]; [done|]. cbn. by f_equal.
  - intros d Hd. apply (window_subseteq from len), elem_of_bitmap_iter in Hd. done.
  - done.
  - done.
Qed.

(** C9: A search returns the documents of its ranking from the offset up to the limit, with
    their scores in the detailed strategy: skipping the buckets before the offset and the
    small buckets, and stopping early, change nothing.  It terminates and does not panic.  The
    ranking keeps, of the documents with the same distinct value, the first one; a distinct
    field must have one value at most in each document. *)
Theorem bucket_sort_spec (fits : Query → gset DocumentId → Prop) (rules : list RankingRule) q universe :
  Forall (lawful fits) rules → fits q universe → classes same_value → rules ≠ [] ∨ distinct_fid = None →
  ∃ ranking, sorts index distinct_fid rules q universe ranking ∧ kept same_value universe ranking.*1 ∧
    ∃ n, ∀ fuel, n ≤ fuel → ∃ out,
      bucket_sort index distinct_fid from len strategy fuel rules q universe = Some (Ok out) ∧ result_ok universe out ranking.
Proof. apply bucket_sort_correct. Qed.

(** Without ranking rules but with a distinct field the offset is forgotten: the search
    returns the first documents up to the end of the page, whatever the page. *)
Theorem distinct_page_starts_at_zero universe fuel (q : Query) fid :
  distinct_fid = Some fid → from ≤ size universe → (N.of_nat from + N.of_nat len < u64_size)%N →
  ∃ out : @BucketSortOutput Score, bucket_sort (E := E) index distinct_fid from len strategy fuel [] q universe = Some (Ok out) ∧
    docids out = take (from + len) (keep index distinct_fid universe).
Proof.
  intros -> Hfrom Hlen. unfold bucket_sort. rewrite (proj2 (Nat.ltb_ge _ _)) by done.
  assert (usize_add from len = from + len) as ->.
  { unfold usize_add. rewrite wrap64_small by done. lia. }
  assert (∀ l X res, length res ≤ from + len → (distinct_results index fid (from + len) l X res).2 =
    res ++ take (from + len - length res) (greedy (class index fid) l X)) as Hres.
  { induction l as [|d l IH]; intros X res Hle; cbn [distinct_results greedy]; [by rewrite take_nil, app_nil_r|].
    destruct (Nat.leb_spec (from + len) (length res)) as [Hge|Hlt].
    { replace (from + len - length res) with 0 by lia. by rewrite take_0, app_nil_r. }
    case_bool_decide; [by apply IH|]. rewrite IH by (rewrite length_app; cbn; lia).
    rewrite distinct_single_class, length_app. cbn [length]. replace (from + len - length res) with (S (from + len - (length res + 1))) by lia.
    cbn [take]. by rewrite <- app_assoc. }
  specialize (Hres (bitmap_iter universe) ∅ [] ltac:(cbn; lia)).
  destruct (distinct_results index fid (from + len) (bitmap_iter universe) ∅ []) as [ex res]. eexists. split; [done|].
  cbn in *. rewrite Hres, Nat.sub_0_r. f_equal. unfold keep. rewrite apply_distinct_rule_greedy. cbn.
  by rewrite (bitmap_iter_sublist _ universe) by apply greedy_sublist.
Qed.
End results.
