(* ===== verification/ScoreDetails.v ===== *)
(** * Scores (milli/src/score_details.rs)

    Every ranking rule gives a document a score.  The rules on words give a rank among a
    number of ranks; [global_score] combines the ranks of a document into one fraction.
    Ranks are [u32]: the release build wraps around.  A score is the fraction of two [u32],
    which the code rounds to a float. *)
From S2P Require Import Prelude Json FacetF64.

Record Rank := mkRank { rank : N; max_rank : N }.

Record Words := mkWords { matching_words : N; max_matching_words : N }.
Record Typo := mkTypo { typo_count : N; max_typo_count : N }.
Inductive ExactAttribute := ExactMatch | MatchesStart | NoExactMatch.
Record Sort := mkSort { sort_field_name : string; sort_ascending : bool; redacted : bool; sort_value : Json f64 }.
Record GeoSort := mkGeoSort { target_point : f64 * f64; geo_ascending : bool; geo_value : option (f64 * f64) }.

Inductive ScoreDetails :=
| SWords (details : Words)
| STypo (details : Typo)
| SProximity (details : Rank)
| SFid (details : Rank)
| SPosition (details : Rank)
| SExactAttribute (details : ExactAttribute)
| SExactness (details : Rank)
| SSort (details : Sort)
| SGeoSort (details : GeoSort).

(** Addition, subtraction and product of [u32]. *)
Definition u32_add (a b : N) : N := wrap32 (a + b).
Definition u32_sub (a b : N) : N := wrap32 (a + (u32_max + 1) - b).
Definition u32_mul (a b : N) : N := wrap32 (a * b).

Definition words_rank (self : Words) : Rank := mkRank (matching_words self) (max_matching_words self).
Definition words_from_rank (r : Rank) : Words := mkWords (rank r) (max_rank r).

Definition typo_rank (self : Typo) : Rank :=
  mkRank (u32_add (u32_sub (max_typo_count self) (typo_count self)) 1) (u32_add (max_typo_count self) 1).
Definition typo_from_rank (r : Rank) : Typo := mkTypo (u32_sub (max_rank r) (rank r)) (u32_sub (max_rank r) 1).

Definition exact_attribute_rank (self : ExactAttribute) : Rank :=
  mkRank (match self with ExactMatch => 3 | MatchesStart => 2 | NoExactMatch => 1 end) 3.

Definition details_rank (self : ScoreDetails) : option Rank :=
  match self with
  | SWords details => Some (words_rank details)
  | STypo details => Some (typo_rank details)
  | SProximity details => Some details
  | SFid details => Some details
  | SPosition details => Some details
  | SExactAttribute details => Some (exact_attribute_rank details)
  | SExactness details => Some details
  | SSort _ => None
  | SGeoSort _ => None
  end.

(** [Rank::global_score], before the division. *)
Definition combine_rank (r inner_rank : Rank) : Rank :=
  mkRank (u32_add (u32_mul (u32_sub (rank r) 1) (max_rank inner_rank)) (rank inner_rank)) (u32_mul (max_rank r) (max_rank inner_rank)).
Definition global_rank (details : list Rank) : Rank := fold_left combine_rank details (mkRank 1 1).

Definition global_score (details : list ScoreDetails) : Rank := global_rank (omap details_rank details).

(** ** Ranks *)
Definition rank_ok (r : Rank) : Prop := (1 ≤ rank r ≤ max_rank r ∧ max_rank r ≤ u32_max)%N.

Lemma u32_add_small a b : (a + b ≤ u32_max)%N → u32_add a b = (a + b)%N.
Proof. apply wrap32_small. Qed.
Lemma u32_mul_small a b : (a * b ≤ u32_max)%N → u32_mul a b = (a * b)%N.
Proof. apply wrap32_small. Qed.
Lemma u32_sub_small a b : (b ≤ a ≤ u32_max)%N → u32_sub a b = (a - b)%N.
Proof.
  intros H. unfold u32_sub, wrap32. replace (a + (u32_max + 1) - b)%N with (a - b + 1 * (u32_max + 1))%N by lia.
  rewrite N.Div0.mod_add. apply N.mod_small. lia.
Qed.

(** The number of typos and its rank are inverse. *)
Lemma typo_round_trip r : rank_ok r → typo_rank (typo_from_rank r) = r.
Proof.
  intros [Hr Hm]. unfold typo_rank, typo_from_rank. cbn. rewrite !(u32_sub_small (max_rank r)) by lia.
  rewrite u32_sub_small, !u32_add_small by lia. destruct r as [x m]. cbn in *. f_equal; lia.
Qed.

(** The product of the numbers of ranks. *)
Definition ranks (details : list Rank) : N := foldr (λ r n, max_rank r * n)%N 1%N details.

(** The position of a list of ranks in the lexicographic order, from 1 for the worst. *)
Fixpoint position (details : list Rank) : N :=
  match details with
  | [] => 0
  | r :: details => (rank r - 1) * ranks details + position details
  end%N.

Lemma mul_block a b m : (1 ≤ a ≤ b → (a - 1) * m + m ≤ b * m)%N.
Proof. intros [Ha Hb]. replace ((a - 1) * m + m)%N with (a * m)%N by (rewrite N.mul_sub_distr_r; nia). by apply N.mul_le_mono_r. Qed.

Lemma ranks_pos details : Forall rank_ok details → (1 ≤ ranks details)%N.
Proof.
  induction 1 as [|r details Hr _ IH]; cbn; [lia|]. fold (ranks details). unfold rank_ok in Hr.
  pose proof (N.mul_le_mono 1 (max_rank r) 1 (ranks details) ltac:(lia) IH). lia.
Qed.

Lemma position_bound details : Forall rank_ok details → (position details < ranks details)%N.
Proof.
  induction 1 as [|r details Hr _ IH]; cbn; [lia|]. fold (ranks details). unfold rank_ok in Hr.
  pose proof (mul_block (rank r) (max_rank r) (ranks details) ltac:(lia)). lia.
Qed.

Lemma global_rank_from details r :
  rank_ok r → Forall rank_ok details → (max_rank r * ranks details ≤ u32_max)%N →
  fold_left combine_rank details r =
    mkRank ((rank r - 1) * ranks details + position details + 1) (max_rank r * ranks details).
Proof.
  intros Hr Hok. revert r Hr. induction Hok as [|i details Hi Hok IH]; intros r Hr Hfit; cbn [fold_left ranks foldr position].
  { destruct r as [x m]. unfold rank_ok in Hr. cbn in *. f_equal; lia. }
  pose proof (ranks_pos details Hok) as Hpos. cbn [ranks foldr] in Hfit. fold (ranks details) in Hfit. unfold rank_ok in *.
  assert (max_rank r * max_rank i ≤ max_rank r * (max_rank i * ranks details))%N as Hmm'.
  { rewrite N.mul_assoc. pose proof (N.mul_le_mono_l 1 (ranks details) (max_rank r * max_rank i) Hpos). lia. }
  assert (max_rank r * max_rank i ≤ u32_max)%N as Hmm by lia.
  pose proof (mul_block (rank r) (max_rank r) (max_rank i) ltac:(lia)) as Hle.
  assert (combine_rank r i = mkRank ((rank r - 1) * max_rank i + rank i) (max_rank r * max_rank i)) as ->.
  { unfold combine_rank. rewrite u32_sub_small by lia. rewrite (u32_mul_small (rank r - 1)) by lia.
    rewrite u32_add_small by lia. by rewrite u32_mul_small. }
  rewrite IH; cbn; [|nia|nia]. fold (ranks details). f_equal; [|lia].
  rewrite <- N.add_sub_assoc by lia.
  rewrite N.mul_add_distr_r, <- N.mul_assoc. lia.
Qed.

(** ** The order of the scores *)

(** The lexicographic order on the ranks of two documents. *)
Fixpoint lex_lt (l l' : list Rank) : Prop :=
  match l, l' with
  | r :: l, r' :: l' => (rank r < rank r')%N ∨ rank r = rank r' ∧ lex_lt l l'
  | _, _ => False
  end.

Lemma position_lex l l' :
  Forall rank_ok l → Forall rank_ok l' → (max_rank <$> l) = (max_rank <$> l') → lex_lt l l' ↔ (position l < position l')%N.
Proof.
  intros Hl. revert l'. induction Hl as [|r l Hr Hl IH]; intros l' Hl' Hm; destruct Hl' as [|r' l' Hr' Hl']; try discriminate Hm; cbn.
  { split; [intros []|lia]. }
  injection Hm as Hrm Hm. assert (ranks l = ranks l') as Hranks.
  { clear -Hm. revert l' Hm. induction l as [|x l IH]; intros [|y l'] Hm; try done. injection Hm as Hx Hm.
    cbn. rewrite Hx. f_equal. by apply IH. }
  rewrite (IH l') by done. unfold rank_ok in *.
  pose proof (position_bound l Hl). pose proof (position_bound l' Hl'). rewrite <- Hranks in *. split.
  - intros [Hlt|[Heq Hp]]; [|rewrite Heq; lia].
    pose proof (mul_block (rank r) (rank r' - 1) (ranks l) ltac:(lia)). lia.
  - intros Hlt. destruct (N.lt_trichotomy (rank r) (rank r')) as [?|[Heq|Hgt]]; [by left|right; rewrite Heq in *; lia|exfalso].
    pose proof (mul_block (rank r') (rank r - 1) (ranks l) ltac:(lia)). lia.
Qed.

(** C38: The global score of documents with the same ranking rules is a fraction between 0,
    excluded, and 1, and it is smaller exactly when the ranks are before in the
    lexicographic order, as long as the product of the numbers of ranks fits in a [u32]. *)
Theorem global_score_order l l' :
  Forall rank_ok l → Forall rank_ok l' → (max_rank <$> l) = (max_rank <$> l') → (ranks l ≤ u32_max)%N →
  (0 < rank (global_rank l) ≤ max_rank (global_rank l))%N ∧ max_rank (global_rank l) = max_rank (global_rank l') ∧
  (lex_lt l l' ↔ (rank (global_rank l) < rank (global_rank l'))%N).
Proof.
  intros Hl Hl' Hm Hfit. assert (ranks l = ranks l') as Hranks.
  { clear -Hm. revert l' Hm. induction l as [|x l IH]; intros [|y l'] Hm; try done. injection Hm as Hx Hm.
    cbn. rewrite Hx. f_equal. by apply IH. }
  assert (rank_ok (mkRank 1 1)) as H1 by (unfold rank_ok, u32_max; cbn; lia).
  unfold global_rank. rewrite (global_rank_from l), (global_rank_from l') by (done || cbn; lia). cbn [rank max_rank].
  rewrite (position_lex l l') by done. pose proof (position_bound l Hl). rewrite Hranks in *. lia.
Qed.

Lemma global_score_order_witness :
  (lex_lt [mkRank 2 3; mkRank 1 4] [mkRank 2 3; mkRank 3 4] ↔
    (rank (global_rank [mkRank 2 3; mkRank 1 4]) < rank (global_rank [mkRank 2 3; mkRank 3 4]))%N) ∧
  global_rank [mkRank 2 3; mkRank 3 4] = mkRank 7 12.
Proof.
  split; [|reflexivity].
  apply global_score_order; [..|reflexivity|done]; repeat constructor; cbn; unfold u32_max; lia.
Defined.
