(* ===== verification/RankingOrder.v ===== *)
(** * The order of a ranking

    A ranking rule grades documents when each of its buckets is better than what is left
    and when it does not distinguish the documents of a bucket.  The rankings of such rules
    are sorted lexicographically, and by id between equals. *)
From S2P Require Import Prelude Json FieldsIdsMap Obkv FacetDb FacetIndex Distinct BucketSort.
From S2P Require DocumentsIds Transform.
Import DocumentsIds (DocumentId).
Import Transform (bitmap_iter).

Section order.
Context {E Query Score : Type}.
Abbreviation RankingRule := (RankingRule E Query Score).

(** [better d d'] on the documents of an iteration of the rule. *)
Definition grades (fits : Query → gset DocumentId → Prop) (r : RankingRule) (better : DocumentId → DocumentId → Prop) : Prop :=
  ∃ active, rule_laws fits r active ∧
    ∀ n universe st bucket st', active n universe st → universe ≠ ∅ → next_bucket r universe st = Ok (Some bucket, st') →
      (∀ d d', d ∈ candidates bucket → d' ∈ universe → d' ∉ candidates bucket → better d d' ∧ ¬ better d' d) ∧
      (∀ d d', d ∈ candidates bucket → d' ∈ candidates bucket → ¬ better d d').

Lemma grades_lawful fits r better : grades fits r better → lawful fits r.
Proof. intros (active & Hlaws & _). by exists active. Qed.

(** [d] comes before [d'] in the lexicographic order, then by id. *)
Fixpoint comes_before (betters : list (DocumentId → DocumentId → Prop)) (d d' : DocumentId) : Prop :=
  match betters with
  | [] => (d < d')%N
  | better :: betters => better d d' ∧ ¬ better d' d ∨ ¬ better d d' ∧ ¬ better d' d ∧ comes_before betters d d'
  end.

Lemma sorted_by_app (R : DocumentId → DocumentId → Prop) l1 l2 :
  StronglySorted R l1 → StronglySorted R l2 → (∀ d d', d ∈ l1 → d' ∈ l2 → R d d') → StronglySorted R (l1 ++ l2).
Proof.
  intros H1 H2 H. induction H1 as [|d l1 H1 IH Hd]; [done|]. cbn. constructor.
  - apply IH. intros x y Hx Hy. apply H; [by right|done].
  - apply Forall_app. split; [done|]. apply Forall_forall. intros y Hy. apply H; [by left|done].
Qed.

Lemma sorted_by_impl (R R' : DocumentId → DocumentId → Prop) l :
  (∀ d d', d ∈ l → d' ∈ l → R d d' → R' d d') → StronglySorted R l → StronglySorted R' l.
Proof.
  intros H Hs. induction Hs as [|d l Hs IH Hd]; constructor.
  - apply IH. intros x y Hx Hy. apply H; by right.
  - rewrite Forall_forall in Hd. apply Forall_forall. intros y Hy. apply H; [by left|by right|by apply Hd].
Qed.

Lemma bitmap_iter_sorted s : StronglySorted N.lt (bitmap_iter s).
Proof.
  pose proof (StronglySorted_merge_sort N.le (elements s)) as Hs. pose proof (NoDup_bitmap_iter s) as Hnd.
  fold (bitmap_iter s) in Hs. revert Hnd. induction Hs as [|d l Hs IH Hd]; intros Hnd; constructor.
  - apply IH. by apply NoDup_cons in Hnd as [_ ?].
  - rewrite Forall_forall in Hd. apply Forall_forall. intros y Hy. specialize (Hd y Hy).
    assert (d ≠ y); [|lia]. intros ->. by apply NoDup_cons in Hnd as [? _].
Qed.

(** The documents of a ranking are in the lexicographic order of its rules: a document
    is before another when the first rule that distinguishes them finds it better, or when
    none does and its id is smaller. *)
Lemma ranking_lexicographic index distinct_fid fits (rules : list RankingRule) betters q universe ranking :
  Forall2 (grades fits) rules betters → fits q universe → sorts index distinct_fid rules q universe ranking →
  StronglySorted (comes_before betters) ranking.*1.
Proof.
  intros Hg. revert q universe ranking. induction Hg as [|r better rules betters (active & Hlaws & Hgr) _ IH];
    intros q universe ranking Hfits; cbn [sorts].
  { intros ->. rewrite <- list_fmap_compose, list_fmap_id. apply bitmap_iter_sorted. }
  intros (st & Hst & Hit). destruct (law_start _ _ _ Hlaws universe q Hfits) as (n & st' & Hst' & Hact).
  assert (st' = st) as -> by congruence. clear Hst Hst' Hfits. revert n Hact.
  induction Hit as [|st universe b st' out1 out2 Hne Hb Hc Hsub Hit IHit]; intros n Hact; [constructor|].
  destruct (law_next _ _ _ Hlaws n universe st Hact Hne) as (b' & st2 & n' & Hb' & _ & Hfits & Hact' & _).
  assert (b' = b ∧ st2 = st') as [-> ->] by (rewrite Hb in Hb'; by simplify_eq).
  destruct (Hgr _ _ _ _ _ Hact Hne Hb) as [Hbetter Hsame].
  pose proof (kept_seen _ _ _ (sorts_kept _ _ _ _ _ _ Hsub)) as Hin1.
  assert (∀ d, d ∈ out2.*1 → d ∈ (universe ∖ candidates b) ∖ classes_of (same_value index distinct_fid) out1.*1) as Hin2.
  { eapply kept_seen, iterates_kept; [|exact Hit]. intros. by eapply sorts_kept. }
  rewrite fmap_app, fst_prod_map. apply sorted_by_app.
  - eapply sorted_by_impl; [|by eapply IH]. intros d d' Hd Hd' Hlt. right. split_and!; [by apply Hsame; apply Hin1..|done].
  - apply (IHit n'). eapply law_subset; [done..|set_solver].
  - intros d d' Hd Hd'. left. apply Hin2 in Hd'. apply Hbetter; [by apply Hin1|set_solver..].
Qed.
End order.
