(* ===== verification/SortRule.v ===== *)
(** * The ranking rules that need no query (milli/src/search/new/sort.rs, geo_sort.rs)
    and the rule on exact attributes (exact_attribute.rs)

    [Sort] sorts by the values of a field, the numbers before the strings, with the
    iterators of the facet sorts; [ExactAttribute] makes three buckets; [GeoSort] sorts by the
    distance to a point. *)
From Stdlib Require Import String.
From S2P Require Import Prelude Json FieldsIdsMap Obkv FacetDb FacetTree FacetSearch FacetSort FacetF64 FacetInsert FacetUpdate FacetExtract FacetIndex Distinct BucketSort RankingOrder ScoreDetails.
From S2P Require DocumentsIds Transform.
Import DocumentsIds (DocumentId).
Import Transform (bitmap_iter).

(** ** Sort *)
Section sort.
Context {E Query : Type}.
(** The errors of the databases, and [std::str::from_utf8]. *)
Context (heed_error : FacetError → E) (from_utf8 : bytes → option string).
Abbreviation Output := (RankingRuleOutput Query ScoreDetails).

(** The iterator is the list of what it has yet to yield. *)
Record Sort := mkSortRule {
  field_name : string;
  field_id : option FieldId;
  is_ascending : bool;
  original_query : option Query;
  iter : option (list (outcome E Output));
  must_redact : bool
}.

Definition sort_must_redact (displayed_fields : option (list string)) (field_name : string) : bool :=
  match displayed_fields with
  | None => false
  | Some displayed_fields => negb (bool_decide (field_name ∈ displayed_fields))
  end.

Definition sort_new (fields_ids_map : FieldsIdsMap) (displayed_fields : option (list string)) (field_name : string)
    (is_ascending : bool) : Sort :=
  mkSortRule field_name (FieldsIdsMap.id field_name fields_ids_map) is_ascending None None
    (sort_must_redact displayed_fields field_name).

Definition sort_id (self : Sort) : string :=
  (field_name self ++ ":" ++ if is_ascending self then "asc" else "desc")%string.

Definition sort_score (self : Sort) (value : Json f64) : ScoreDetails :=
  SSort (mkSort (field_name self) (is_ascending self) (must_redact self) value).

(** The items of one of the iterators on the facet databases. *)
Definition facet_sort (is_ascending : bool) (db : FacetDb) (field_id : FieldId) (candidates : gset DocumentId) :
    outcome E (list (gset DocumentId * bytes)) :=
  items ← (if is_ascending then Ok (ascending_facet_sort (sort_turns db field_id) db field_id candidates)
           else map_err heed_error (descending_facet_sort (sort_turns db field_id) db field_id candidates));
  match items with
  | Some items => Ok items
  | None => Panic "the iterator does not end"
  end.

(** [serde_json::Number::from_f64] fails on NaN and on infinities. *)
Definition number_value (b : bytes) : outcome E (Json f64) :=
  match OrderedF64Codec.bytes_decode b with
  | Some x => if is_finite x then Ok (JNumber x) else Panic "too big float"
  | None => Panic "some number"
  end.
Definition string_value (b : bytes) : outcome E (Json f64) :=
  match from_utf8 b with
  | Some s => Ok (JString s)
  | None => Panic "some string"
  end.

Definition sort_output (self : Sort) (query : Query) (value : bytes → outcome E (Json f64))
    (item : gset DocumentId * bytes) : outcome E Output :=
  value ← value item.2;
  Ok (mkOutput query item.1 (sort_score self value)).

Definition sort_start_iteration (index : FacetIndex) (parent_candidates : gset DocumentId) (parent_query : Query) (self : Sort) :
    outcome E Sort :=
  iter ←
    match field_id self with
    | Some field_id =>
        let number_db := facet_id_docids (facet_numbers (facets index)) in
        let string_db := facet_id_docids (facet_strings (facets index)) in
        number_iter ← facet_sort (is_ascending self) number_db field_id parent_candidates;
        string_iter ← facet_sort (is_ascending self) string_db field_id parent_candidates;
        Ok ((sort_output self parent_query number_value <$> number_iter) ++
            (sort_output self parent_query string_value <$> string_iter))
    | None => Ok []
    end;
  Ok (mkSortRule (field_name self) (field_id self) (is_ascending self) (Some parent_query) (Some iter) (must_redact self)).

Definition sort_next_bucket (universe : gset DocumentId) (self : Sort) : outcome E (option Output * Sort) :=
  match iter self with
  | None => Panic "called Option::unwrap on a None value"
  | Some (item :: rest) =>
      bucket ← item;
      Ok (Some (mkOutput (query bucket) (candidates bucket ∩ universe) (score bucket)),
          mkSortRule (field_name self) (field_id self) (is_ascending self) (original_query self) (Some rest) (must_redact self))
  | Some [] =>
      match original_query self with
      | None => Panic "called Option::unwrap on a None value"
      | Some query => Ok (Some (mkOutput query universe (sort_score self JNull)), self)
      end
  end.

Definition sort_end_iteration (self : Sort) : Sort :=
  mkSortRule (field_name self) (field_id self) (is_ascending self) None None (must_redact self).

(** The trait object. *)
Definition sort_rule (index : FacetIndex) (self : Sort) : RankingRule E Query ScoreDetails :=
  mkRule Sort self sort_id (sort_start_iteration index) sort_next_bucket sort_end_iteration.
End sort.

(** ** The order of the values of a field *)

(** The values that follow another one, and the values of a document in a level. *)
Definition value_lt (is_ascending : bool) (x y : bytes) : Prop := if is_ascending then blt x y else blt y x.
Definition has (L : Level) (d : DocumentId) (x : bytes) : Prop := ∃ v, (x, v) ∈ L ∧ d ∈ gv_bitmap v.

(** The values of a type in the order of the sort. *)
Definition sort_level (index : FacetIndex) (t : FacetType) (f : option FieldId) (is_ascending : bool) : Level :=
  match f with
  | Some f =>
      let L := level (facet_id_docids (facets_of t (facets index))) f 0 in
      if is_ascending then L else rev L
  | None => []
  end.

(** The first value of [d] comes before those of [d']. *)
Definition better_in (is_ascending : bool) (L : Level) (d d' : DocumentId) : Prop :=
  ∃ x, has L d x ∧ ∀ y, has L d' y → value_lt is_ascending x y.
Definition none (L : Level) (d : DocumentId) : Prop := ∀ x, ¬ has L d x.

(** A document is better when it has the first number of the two or, if neither has a
    number, the first string. *)
Definition sort_better (index : FacetIndex) (f : option FieldId) (is_ascending : bool) (d d' : DocumentId) : Prop :=
  better_in is_ascending (sort_level index Numbers f is_ascending) d d' ∨
  none (sort_level index Numbers f is_ascending) d ∧ none (sort_level index Numbers f is_ascending) d' ∧
    better_in is_ascending (sort_level index Strings f is_ascending) d d'.

Definition values_sorted (is_ascending : bool) (L : Level) : Prop := StronglySorted (value_lt is_ascending) L.*1.

Lemma value_lt_irrefl asc x : ¬ value_lt asc x x.
Proof. destruct asc; apply blt_irrefl. Qed.
Lemma value_lt_trans asc x y z : value_lt asc x y → value_lt asc y z → value_lt asc x z.
Proof. destruct asc; cbn; intros; border. Qed.

Lemma rev_sorted (L : Level) : StronglySorted blt L.*1 → StronglySorted (flip blt) (rev L).*1.
Proof. intros Hs. change ((rev L).*1) with (map fst (rev L)). rewrite map_rev. by apply StronglySorted_rev. Qed.

Lemma sort_level_sorted index t f asc :
  (∀ f', f = Some f' → db_sorted (facet_id_docids (facets_of t (facets index)))) → values_sorted asc (sort_level index t f asc).
Proof.
  intros Hs. destruct f as [f|]; [|constructor]. pose proof (level_is_sorted _ f 0 (Hs f eq_refl)) as Hl.
  destruct asc; [exact Hl|by apply rev_sorted].
Qed.

(** What an iterator has yet to yield, for the documents [U] that are left. *)
Definition remaining_items (L : Level) (U : gset DocumentId) (items : list (gset DocumentId * bytes)) : Prop :=
  ∃ U1 pre L', L = pre ++ L' ∧ items = by_value U1 L' ∧ U ⊆ U1 ∧ ∀ d, d ∈ U → none pre d.

Lemma remaining_all L U : remaining_items L U (by_value U L).
Proof. exists U, [], L. split_and!; [done..|]. by intros d _ x (v & ?%not_elem_of_nil & _). Qed.

Lemma remaining_subset L U U' items : remaining_items L U items → U' ⊆ U → remaining_items L U' items.
Proof. intros (U1 & pre & L' & ? & ? & ? & Hpre) Hsub. exists U1, pre, L'. split_and!; [done..|set_solver|]. intros d Hd. apply Hpre. set_solver. Qed.

Lemma has_app L1 L2 d x : has (L1 ++ L2) d x ↔ has L1 d x ∨ has L2 d x.
Proof. unfold has. setoid_rewrite elem_of_app. naive_solver. Qed.

Lemma remaining_nil L U d : remaining_items L U [] → d ∈ U → none L d.
Proof.
  intros (U1 & pre & L' & -> & Hit & Hsub & Hpre) Hd x [Hx|(v & Hv & Hdv)]%has_app; [by eapply Hpre|].
  clear Hpre. revert U1 Hit Hsub. induction L' as [|[b w] L' IH]; intros U1 Hit Hsub; [by apply not_elem_of_nil in Hv|].
  cbn in Hit. destruct (decide (gv_bitmap w ∩ U1 = ∅)) as [He|]; [|done].
  apply elem_of_cons in Hv as [[= -> ->]|Hv]; [set_solver|by apply (IH Hv U1)].
Qed.

Lemma sorted_after asc pre b v L' y w :
  values_sorted asc (pre ++ (b, v) :: L') → (y, w) ∈ L' → value_lt asc b y.
Proof.
  unfold values_sorted. rewrite fmap_app, fmap_cons. intros Hs Hy. apply (StronglySorted_app_1_r _) in Hs.
  inversion Hs as [|? ? _ Hb]; subst. rewrite Forall_forall in Hb. apply Hb. by apply (list_elem_of_fmap_2 fst _ (y, w)).
Qed.

(** The next item: its documents have its value first, and the other documents have only
    values that follow it. *)
Lemma remaining_next asc L U B b items :
  values_sorted asc L → remaining_items L U ((B, b) :: items) →
  (∃ d, has L d b) ∧
  (∀ d, d ∈ U → d ∈ B → has L d b ∧ ∀ y, has L d y → y = b ∨ value_lt asc b y) ∧
  (∀ d, d ∈ U → d ∉ B → ∀ y, has L d y → value_lt asc b y) ∧
  remaining_items L (U ∖ B) items.
Proof.
  intros Hs (U1 & pre & L' & -> & Hit & Hsub & Hpre). revert pre Hs Hpre. induction L' as [|[b' v] L' IH]; intros pre Hs Hpre; [done|].
  cbn in Hit. destruct (decide (gv_bitmap v ∩ U1 = ∅)) as [He|He].
  - replace (pre ++ (b', v) :: L') with ((pre ++ [(b', v)]) ++ L') in * by (by rewrite <- app_assoc).
    apply IH; [done..|]. intros d Hd x [Hx|(w & [= -> ->]%list_elem_of_singleton & Hdw)]%has_app; [by eapply Hpre|set_solver].
  - injection Hit as -> -> ->. assert (∀ d, d ∈ U → ∀ y, has (pre ++ (b', v) :: L') d y → y = b' ∧ d ∈ gv_bitmap v ∨ value_lt asc b' y) as Hafter.
    { intros d Hd y [Hx|(w & [[= -> ->]|Hw]%elem_of_cons & Hdw)]%has_app; [by destruct (Hpre d Hd y)|by left|right].
      by eapply sorted_after. }
    split_and!.
    + apply set_choose_L in He as (d & [Hd _]%elem_of_intersection). exists d. apply has_app. right. exists v. split; [left|done].
    + intros d Hd [Hdv _]%elem_of_intersection. split; [apply has_app; right; exists v; split; [left|done]|].
      intros y Hy. destruct (Hafter d Hd y Hy) as [[? _]|?]; [by left|by right].
    + intros d Hd Hnin y Hy. destruct (Hafter d Hd y Hy) as [[_ Hdv]|?]; [|done].
      destruct Hnin. apply elem_of_intersection. split; [done|by apply Hsub].
    + exists (U1 ∖ (gv_bitmap v ∩ U1)), (pre ++ [(b', v)]), L'. split_and!; [by rewrite <- app_assoc|done|set_solver|].
      intros d [Hd Hnin]%elem_of_difference x [Hx|(w & [= -> ->]%list_elem_of_singleton & Hdw)]%has_app; [by eapply Hpre|].
      apply Hnin, elem_of_intersection. split; [done|by apply Hsub].
Qed.

(** ** Sort is a ranking rule *)
Section sort_rule.
Context {E Query : Type} (heed_error : FacetError → E) (from_utf8 : bytes → option string) (index : FacetIndex).
Abbreviation Output := (RankingRuleOutput Query ScoreDetails).
Abbreviation Sort := (@Sort E Query).
Abbreviation sort_start_iteration := (sort_start_iteration heed_error from_utf8 index).
Abbreviation sort_rule := (sort_rule heed_error from_utf8 index).

(** The databases of a field have the shape of the facet databases and hold the codes of
    finite numbers and of strings. *)
Record sortable (f : FieldId) : Prop := {
  sortable_tree t : tree_ok ∅ (facet_id_docids (facets_of t (facets index))) f;
  sortable_length t : (N.of_nat (length (facet_id_docids (facets_of t (facets index)))) ≤ usize_max)%N;
  sortable_numbers d b : has (level (facet_id_docids (facets_of Numbers (facets index))) f 0) d b →
    ∃ x, OrderedF64Codec.bytes_decode b = Some x ∧ is_finite x = true;
  sortable_strings d b : has (level (facet_id_docids (facets_of Strings (facets index))) f 0) d b → ∃ s, from_utf8 b = Some s
}.

Lemma facet_sort_correct asc t f U :
  sortable f → facet_sort heed_error asc (facet_id_docids (facets_of t (facets index))) f U =
    Ok (by_value U (sort_level index t (Some f) asc)).
Proof.
  intros Hf. unfold facet_sort. destruct asc; cbn.
  - by rewrite ascending_facet_sort_correct by (apply Hf || done).
  - by rewrite descending_facet_sort_correct by (apply Hf || done).
Qed.

Lemma has_sort_level asc t f d b : has (sort_level index t (Some f) asc) d b →
  has (level (facet_id_docids (facets_of t (facets index))) f 0) d b.
Proof. destruct asc; [done|]. intros (v & Hv & Hd). exists v. split; [|done].
  apply list_elem_of_In, in_rev, list_elem_of_In. exact Hv.
Qed.

Context (self : Sort) (fits : Query → gset DocumentId → Prop).
Hypothesis Hself : original_query self = None ∧ iter self = None.
Hypothesis Hsortable : ∀ f, field_id self = Some f → sortable f.
Hypothesis Hfits : ∀ q U U', fits q U → U' ⊆ U → fits q U'.

Abbreviation asc := (is_ascending self).
Abbreviation numbers := (sort_level index Numbers (field_id self) asc).
Abbreviation strings := (sort_level index Strings (field_id self) asc).

#[local] Arguments sort_level : simpl never.

(** An iteration, with [n] items to come. *)
Definition sort_active (n : nat) (U : gset DocumentId) (st : Sort) : Prop :=
  ∃ q N S, fits q U ∧ remaining_items numbers U N ∧ remaining_items strings U S ∧ n = length N + length S ∧
    st = mkSortRule (field_name self) (field_id self) asc (Some q)
      (Some ((sort_output self q number_value <$> N) ++ (sort_output self q (string_value from_utf8) <$> S))) (must_redact self).

Lemma numbers_sorted : values_sorted asc numbers.
Proof. apply sort_level_sorted. intros f Hf. by destruct (sortable_tree _ (Hsortable f Hf) Numbers). Qed.
Lemma strings_sorted : values_sorted asc strings.
Proof. apply sort_level_sorted. intros f Hf. by destruct (sortable_tree _ (Hsortable f Hf) Strings). Qed.

Lemma number_output q B b d : has numbers d b → ∃ value, sort_output self q number_value (B, b) = Ok (mkOutput q B (sort_score self value)) (E := E).
Proof.
  destruct (field_id self) as [f|] eqn:Hf; [|intros (v & Hv & _); by apply not_elem_of_nil in Hv].
  intros Hd%has_sort_level. destruct (sortable_numbers _ (Hsortable f eq_refl) d b Hd) as (x & Hx & Hfin).
  unfold sort_output, number_value. cbn. rewrite Hx, Hfin. cbn. by eexists.
Qed.

Lemma string_output q B b d : has strings d b →
  ∃ value, sort_output self q (string_value from_utf8) (B, b) = Ok (mkOutput q B (sort_score self value)) (E := E).
Proof.
  destruct (field_id self) as [f|] eqn:Hf; [|intros (v & Hv & _); by apply not_elem_of_nil in Hv].
  intros Hd%has_sort_level. destruct (sortable_strings _ (Hsortable f eq_refl) d b Hd) as (x & Hx).
  unfold sort_output, string_value. cbn. rewrite Hx. cbn. by eexists.
Qed.

(** The next bucket: what is distinguished and what is left. *)
Definition splits (U C : gset DocumentId) : Prop :=
  (∀ d d', d ∈ C → d' ∈ U → d' ∉ C → sort_better index (field_id self) asc d d' ∧ ¬ sort_better index (field_id self) asc d' d) ∧
  ∀ d d', d ∈ C → d' ∈ C → ¬ sort_better index (field_id self) asc d d'.

Lemma better_first L (C U : gset DocumentId) b :
  (∀ d, d ∈ C → has L d b ∧ ∀ y, has L d y → y = b ∨ value_lt asc b y) →
  (∀ d, d ∈ U → d ∉ C → ∀ y, has L d y → value_lt asc b y) →
  (∀ d d', d ∈ C → d' ∈ U → d' ∉ C → better_in asc L d d' ∧ ¬ better_in asc L d' d) ∧
  (∀ d d', d ∈ C → d' ∈ C → ¬ better_in asc L d d').
Proof.
  intros HC HU. split; [intros d d' Hd Hd' Hn; split|intros d d' Hd Hd'].
  - exists b. split; [by apply HC|by apply HU].
  - intros (x & Hx & Hlt). specialize (Hlt b (proj1 (HC d Hd))). apply (HU d' Hd' Hn) in Hx.
    by apply (value_lt_irrefl asc x), (value_lt_trans _ _ b).
  - intros (x & Hx & Hlt). specialize (Hlt b (proj1 (HC d' Hd'))). apply (HC d Hd) in Hx as [->|Hx];
      [by apply (value_lt_irrefl asc b)|by apply (value_lt_irrefl asc x), (value_lt_trans _ _ b)].
Qed.

Lemma splits_numbers U B b items :
  remaining_items numbers U ((B, b) :: items) → splits U (B ∩ U).
Proof.
  intros (_ & HB & HU & _)%(remaining_next asc) ; [|apply numbers_sorted].
  destruct (better_first numbers (B ∩ U) U b) as [H1 H2];
    [intros d Hd; apply HB; set_solver|intros d Hd Hn; apply HU; [done|set_solver]|].
  split; unfold sort_better.
  - intros d d' Hd Hd' Hn. destruct (H1 d d' Hd Hd' Hn) as [Hb Hnb]. split; [by left|]. intros [?|(_ & Hno & _)]; [done|].
    apply (Hno b), HB; set_solver.
  - intros d d' Hd Hd' [Hb|(Hno & _ & _)]; [by apply (H2 d d')|]. apply (Hno b), HB; set_solver.
Qed.

Lemma splits_strings U B b items :
  (∀ d, d ∈ U → none numbers d) → remaining_items strings U ((B, b) :: items) → splits U (B ∩ U).
Proof.
  intros Hno (_ & HB & HU & _)%(remaining_next asc) ; [|apply strings_sorted].
  destruct (better_first strings (B ∩ U) U b) as [H1 H2];
    [intros d Hd; apply HB; set_solver|intros d Hd Hn; apply HU; [done|set_solver]|].
  assert (∀ d d', d ∈ U → ¬ better_in asc numbers d d') as Hnb by (intros d d' Hd (x & Hx & _); by eapply Hno).
  split; unfold sort_better.
  - intros d d' Hd Hd' Hn. destruct (H1 d d' Hd Hd' Hn) as [Hb Hnb']. split; [right; split_and!; [apply Hno; set_solver..|done]|].
    intros [Hb'|(_ & _ & Hb')]; [by apply (Hnb d' d Hd')|done].
  - intros d d' Hd Hd' [Hb|(_ & _ & Hb)]; [apply (Hnb d d'); [set_solver|done]|by apply (H2 d d')].
Qed.

Lemma splits_rest U :
  (∀ d, d ∈ U → none numbers d) → (∀ d, d ∈ U → none strings d) → splits U U.
Proof.
  intros Hn Hs. split; [done|]. intros d d' Hd Hd' [(x & Hx & _)|(_ & _ & x & Hx & _)]; [exact (Hn d Hd x Hx)|exact (Hs d Hd x Hx)].
Qed.

Lemma sort_active_intro n q U U' N S :
  fits q U → U' ⊆ U → remaining_items numbers U' N → remaining_items strings U' S → n = length N + length S →
  sort_active n U' (mkSortRule (field_name self) (field_id self) asc (Some q)
      (Some ((sort_output self q number_value <$> N) ++ (sort_output self q (string_value from_utf8) <$> S))) (must_redact self)).
Proof. intros Hq HU HN HS Hn. exists q, N, S. split_and!; [by apply (Hfits q U)|done..]. Qed.

Lemma sort_next n U st : sort_active n U st →
  ∃ bucket st' n', sort_next_bucket U st = Ok (Some bucket, st') ∧ candidates bucket ⊆ U ∧ splits U (candidates bucket) ∧
    fits (query bucket) (candidates bucket) ∧ sort_active n' (U ∖ candidates bucket) st' ∧ (n' < n ∨ U ⊆ candidates bucket).
Proof.
  intros (q & N & S & Hq & HN & HS & -> & ->). unfold sort_next_bucket. cbn.
  destruct N as [|[B b] N]; [destruct S as [|[B b] S]|]; cbn.
  - eexists _, _, 0. split; [done|]. cbn. split_and!; [done| |done| |by right].
    + apply splits_rest; intros d Hd; by apply (remaining_nil _ U).
    + apply (sort_active_intro 0 q U _ [] []); [done|set_solver| | |done]; (eapply remaining_subset; [done|set_solver]).
  - pose proof (remaining_next asc _ _ _ _ _ strings_sorted HS) as ((d0 & Hd0) & _ & _ & Hrest).
    destruct (string_output q B b d0 Hd0) as [value ->]. cbn. eexists _, _, (length S). split; [done|]. cbn. split_and!; [set_solver| | | |lia].
    + eapply splits_strings; [|done]. intros d Hd. by apply (remaining_nil _ U).
    + apply (Hfits q U); [done|set_solver].
    + apply (sort_active_intro _ q U _ [] S); [done|set_solver| | |done]; (eapply remaining_subset; [done|set_solver]).
  - pose proof (remaining_next asc _ _ _ _ _ numbers_sorted HN) as ((d0 & Hd0) & _ & _ & Hrest).
    destruct (number_output q B b d0 Hd0) as [value ->]. cbn. eexists _, _, (length N + length S). split; [done|]. cbn. split_and!; [set_solver| | | |lia].
    + by eapply splits_numbers.
    + apply (Hfits q U); [done|set_solver].
    + apply (sort_active_intro _ q U _ N S); [done|set_solver| | |done]; (eapply remaining_subset; [done|set_solver]).
Qed.

Lemma sort_start U q : fits q U → ∃ n st, sort_start_iteration U q self = Ok st ∧ sort_active n U st.
Proof.
  intros Hq. exists (length (by_value U numbers) + length (by_value U strings)). unfold SortRule.sort_start_iteration.
  destruct (field_id self) as [f|] eqn:Hf.
  - pose proof (Hsortable f eq_refl) as Hs. change (facet_numbers (facets index)) with (facets_of Numbers (facets index)).
    pose proof (facet_sort_correct asc Numbers f U Hs) as ->.
    change (facet_strings (facets index)) with (facets_of Strings (facets index)).
    pose proof (facet_sort_correct asc Strings f U Hs) as ->. cbn.
    eexists. split; [done|]. exists q, (by_value U numbers), (by_value U strings). rewrite Hf.
    split_and!; try done; apply remaining_all.
  - eexists. split; [done|]. exists q, [], []. rewrite Hf. split_and!; try done; apply (remaining_all []).
Qed.

(** [Sort] grades the documents by their first number or, without one, by their first
    string, in the order of the sort, the documents without any value at the end; it is a
    ranking rule. *)
Lemma sort_rule_grades : grades fits (sort_rule self) (sort_better index (field_id self) asc).
Proof.
  exists sort_active. split.
  - split; cbn.
    + intros U q. apply sort_start.
    + intros n U U' st (q & N & S & Hq & HN & HS & -> & ->) Hsub. exists q, N, S.
      split_and!; try done; [by eapply Hfits|by eapply remaining_subset..].
    + intros n U st Hact _. destruct (sort_next n U st Hact) as (b & st' & n' & ? & ? & _ & ? & ? & ?). by exists b, st', n'.
    + intros n U st (q & N & S & _ & _ & _ & _ & ->). unfold sort_end_iteration. cbn. destruct Hself as [Hq Hi].
      destruct self. cbn in *. by subst.
  - cbn. intros n U st b st' Hact _ Hb. destruct (sort_next n U st Hact) as (b2 & st2 & n' & Hb2 & _ & Hsp & _).
    rewrite Hb2 in Hb. by simplify_eq.
Qed.
End sort_rule.
