(* ===== verification/GeoSort.v ===== *)
(** * Sorting by distance (milli/src/search/new/geo_sort.rs)

    [GeoSort] sorts the documents of a universe by their distance to a point, one document in
    a bucket, and the documents without coordinates in a last bucket.  It keeps a buffer of
    sorted documents, filled from the coordinates of the candidates or from an r-tree. *)
From Stdlib Require Import String.
From S2P Require Import Prelude Json FieldsIdsMap Obkv FacetDb FacetTree FacetSearch FacetUpdate FacetF64 FacetIndex Distinct BucketSort ScoreDetails.
From S2P Require DocumentsIds Transform.
Import DocumentsIds (DocumentId).
Import Transform (bitmap_iter).

Definition point := (f64 * f64)%type.

Inductive Strategy := AlwaysIterative (cache_size : nat) | AlwaysRtree (cache_size : nat) | Dynamic (cache_size : nat).
Definition default_strategy : Strategy := Dynamic 1000.

Definition use_rtree (self : Strategy) (candidates : nat) : bool :=
  match self with
  | AlwaysIterative _ => false
  | AlwaysRtree _ => true
  | Dynamic i => i <=? candidates
  end.
Definition cache_size (self : Strategy) : nat :=
  match self with AlwaysIterative i | AlwaysRtree i | Dynamic i => i end.

(** The conversion of a float to a [usize]. *)
Definition is_nan (x : f64) : bool := negb (is_finite x) && negb (mantissa_bits x =? 0)%Z.
Definition as_usize (x : f64) : N :=
  if is_nan x then 0
  else if (f64_value x <? 0)%Z then 0
  else N.min usize_max (Z.to_N (f64_value x / 2 ^ 1074)).

Section geo_sort.
Context {E Query RTree : Type}.
(** The functions of the floats, the distance of geoutils, and the r-trees. *)
Context (f64_add f64_sub f64_mul : f64 → f64 → f64) (f64_cos f64_sin to_radians : f64 → f64).
Context (haversine_distance : point → point → f64).
Context (geo_rtree : FacetIndex → option RTree) (nearest_neighbor_iter : RTree → f64 * f64 * f64 → list (DocumentId * point)).
Context (decoding_error : E).
Abbreviation Output := (RankingRuleOutput Query ScoreDetails).

Definition lat_lng_to_xyz (coord : point) : f64 * f64 * f64 :=
  let '(lat, lng) := (to_radians coord.1, to_radians coord.2) in
  (f64_mul (f64_cos lat) (f64_cos lng), f64_mul (f64_cos lat) (f64_sin lng), f64_sin lat).

Definition f64_minus_1 : f64 := 13830554455654793216.
Definition f64_180 : f64 := 4640537203540230144.

Definition opposite_of (coord : point) : point :=
  (f64_mul coord.1 f64_minus_1,
   if negb (is_nan coord.2) && (0 <? f64_value coord.2)%Z then f64_sub coord.2 f64_180 else f64_add coord.2 f64_180).

Record GeoSortRule := mkGeoRule {
  geo_query : option Query;
  strategy : Strategy;
  ascending : bool;
  geo_point : point;
  field_ids : option (FieldId * FieldId);
  rtree : option RTree;
  cached_sorted_docids : list (DocumentId * point);
  geo_candidates : gset DocumentId
}.

Definition geo_new (strategy : Strategy) (geo_faceted_docids : gset DocumentId) (point : point) (ascending : bool) : GeoSortRule :=
  mkGeoRule None strategy ascending point None None [] geo_faceted_docids.

Definition with_query q g :=
  mkGeoRule q (strategy g) (ascending g) (geo_point g) (field_ids g) (rtree g) (cached_sorted_docids g) (geo_candidates g).
Definition with_field_ids f g :=
  mkGeoRule (geo_query g) (strategy g) (ascending g) (geo_point g) f (rtree g) (cached_sorted_docids g) (geo_candidates g).
Definition with_rtree t g :=
  mkGeoRule (geo_query g) (strategy g) (ascending g) (geo_point g) (field_ids g) t (cached_sorted_docids g) (geo_candidates g).
Definition with_cache c g :=
  mkGeoRule (geo_query g) (strategy g) (ascending g) (geo_point g) (field_ids g) (rtree g) c (geo_candidates g).
Definition with_candidates c g :=
  mkGeoRule (geo_query g) (strategy g) (ascending g) (geo_point g) (field_ids g) (rtree g) (cached_sorted_docids g) c.

Definition geo_score (g : GeoSortRule) (value : option point) : ScoreDetails := SGeoSort (mkGeoSort (geo_point g) (ascending g) value).

(** The first value of a document in a field. *)
Definition first_number (index : FacetIndex) (docid : DocumentId) (field_id : FieldId) (msg : string) : outcome E f64 :=
  match facet_number_values docid field_id index with
  | [] => Panic msg
  | v :: _ => ok_or (OrderedF64Codec.bytes_decode v) decoding_error
  end.

(** [sort_by_cached_key] is stable. *)
Fixpoint insert_by_key {A} (key : A → N) (x : A) (l : list A) : list A :=
  match l with
  | [] => [x]
  | y :: l => if (key x <=? key y)%N then x :: y :: l else y :: insert_by_key key x l
  end.
Definition sort_by_cached_key {A} (key : A → N) (l : list A) : list A := foldr (insert_by_key key) [] l.

(** The nearest points that are candidates, until the cache is full. *)
Fixpoint fill_from (candidates : gset DocumentId) (size : nat) (push : DocumentId * point → list (DocumentId * point) → list (DocumentId * point))
    (nearest : list (DocumentId * point)) (cache : list (DocumentId * point)) : list (DocumentId * point) :=
  match nearest with
  | [] => cache
  | p :: nearest =>
      if bool_decide (p.1 ∈ candidates) then
        let cache := push p cache in
        if size <=? length cache then cache else fill_from candidates size push nearest cache
      else fill_from candidates size push nearest cache
  end.

Fixpoint collect_points (index : FacetIndex) (lat lng : FieldId) (ids : list DocumentId) : outcome E (list (DocumentId * point)) :=
  match ids with
  | [] => Ok []
  | id :: ids =>
      x ← first_number index id lat "A geo faceted document doesn't contain any lat";
      y ← first_number index id lng "A geo faceted document doesn't contain any lng";
      documents ← collect_points index lat lng ids;
      Ok ((id, (x, y)) :: documents)
  end.

Definition fill_buffer (index : FacetIndex) (g : GeoSortRule) : outcome E GeoSortRule :=
  if use_rtree (strategy g) (size (geo_candidates g)) then
    tree ← match rtree g with
           | Some tree => Ok tree
           | None => match geo_rtree index with Some tree => Ok tree | None => Panic "geo candidates but no rtree" end
           end;
    let g := with_rtree (Some tree) g in
    let size := cache_size (strategy g) in
    Ok (with_cache
      (if ascending g
       then fill_from (geo_candidates g) size (λ p cache, cache ++ [p])
              (nearest_neighbor_iter tree (lat_lng_to_xyz (geo_point g))) (cached_sorted_docids g)
       else fill_from (geo_candidates g) size (λ p cache, p :: cache)
              (nearest_neighbor_iter tree (lat_lng_to_xyz (opposite_of (geo_point g)))) (cached_sorted_docids g)) g)
  else
    match field_ids g with
    | None => Panic "called Option::unwrap on a None value"
    | Some (lat, lng) =>
        documents ← collect_points index lat lng (bitmap_iter (geo_candidates g));
        let documents := sort_by_cached_key (λ d, as_usize (haversine_distance (geo_point g) d.2)) documents in
        Ok (with_cache (cached_sorted_docids g ++ documents) g)
    end.

Definition geo_start_iteration (fields_ids_map : FieldsIdsMap) (index : FacetIndex) (universe : gset DocumentId) (query : Query)
    (g : GeoSortRule) : outcome E GeoSortRule :=
  _ ← assert (bool_decide (geo_query g = None)) "assertion failed: self.query.is_none()";
  let g := with_candidates (geo_candidates g ∩ universe) (with_query (Some query) g) in
  if bool_decide (geo_candidates g = ∅) then Ok g
  else
    match FieldsIdsMap.id "_geo.lat" fields_ids_map, FieldsIdsMap.id "_geo.lng" fields_ids_map with
    | Some lat, Some lng => fill_buffer index (with_field_ids (Some (lat, lng)) g)
    | None, _ => Panic "geo candidates but no fid for lat"
    | _, None => Panic "geo candidates but no fid for lng"
    end.

(** The loop that empties the cache from its front. *)
Fixpoint pop_candidate (candidates : gset DocumentId) (cache : list (DocumentId * point)) :
    option (DocumentId * point) * list (DocumentId * point) :=
  match cache with
  | [] => (None, [])
  | p :: cache => if bool_decide (p.1 ∈ candidates) then (Some p, cache) else pop_candidate candidates cache
  end.

(** A call fills the buffer once at most: a second one would find the same documents, and
    the recursion would not end. *)
Fixpoint geo_next_bucket_calls (calls : nat) (index : FacetIndex) (universe : gset DocumentId) (g : GeoSortRule) :
    outcome E (option Output * GeoSortRule) :=
  match calls with
  | 0 => Panic "stack overflow"
  | S calls =>
      match geo_query g with
      | None => Panic "called Option::unwrap on a None value"
      | Some query =>
          let g := with_candidates (geo_candidates g ∩ universe) g in
          if bool_decide (geo_candidates g = ∅) then Ok (Some (mkOutput query universe (geo_score g None)), g)
          else
            let '(next, cache) :=
              if ascending g then pop_candidate (geo_candidates g) (cached_sorted_docids g)
              else prod_map (λ x, x) (@rev _) (pop_candidate (geo_candidates g) (rev (cached_sorted_docids g))) in
            let g := with_cache cache g in
            match next with
            | Some (id, point) => Ok (Some (mkOutput query {[id]} (geo_score g (Some point))), g)
            | None => g ← fill_buffer index g; geo_next_bucket_calls calls index universe g
            end
      end
  end.
Definition geo_next_bucket (index : FacetIndex) := geo_next_bucket_calls 2 index.

Definition geo_end_iteration (g : GeoSortRule) : GeoSortRule := with_cache [] (with_query None g).

(** Asking for the buckets of a universe, one after the other. *)
Fixpoint geo_buckets (n : nat) (index : FacetIndex) (universe : gset DocumentId) (g : GeoSortRule) :
    outcome E (list (gset DocumentId * ScoreDetails)) :=
  match n with
  | 0 => Ok []
  | S n =>
      '(out, g) ← geo_next_bucket index universe g;
      match out with
      | None => Ok []
      | Some b => rest ← geo_buckets n index (universe ∖ candidates b) g; Ok ((candidates b, score b) :: rest)
      end
  end.

(** The trait object. *)
Definition geo_sort_rule (fields_ids_map : FieldsIdsMap) (index : FacetIndex) (g : GeoSortRule) : RankingRule E Query ScoreDetails :=
  mkRule GeoSortRule g (λ _, "geo_sort"%string) (geo_start_iteration fields_ids_map index) (geo_next_bucket index) geo_end_iteration.

(** ** The order of the buckets *)
Lemma insert_by_key_Permutation {A} (key : A → N) x l : insert_by_key key x l ≡ₚ x :: l.
Proof. induction l as [|y l IH]; cbn; [done|]. destruct (_ <=? _)%N; [done|]. rewrite IH. constructor. Qed.

Lemma sort_by_cached_key_Permutation {A} (key : A → N) l : sort_by_cached_key key l ≡ₚ l.
Proof. induction l as [|x l IH]; cbn; [done|]. by rewrite insert_by_key_Permutation, IH. Qed.

Lemma insert_by_key_sorted {A} (key : A → N) x l :
  StronglySorted (λ x y, key x ≤ key y)%N l → StronglySorted (λ x y, key x ≤ key y)%N (insert_by_key key x l).
Proof.
  induction l as [|y l IH]; cbn; intros Hs; [repeat constructor|]. apply StronglySorted_inv in Hs as [Hs Hy].
  destruct (N.leb_spec (key x) (key y)).
  - constructor; [by constructor|]. constructor; [done|]. eapply Forall_impl; [exact Hy|]. cbn. lia.
  - constructor; [by apply IH|]. rewrite insert_by_key_Permutation. constructor; [lia|done].
Qed.

Lemma sort_by_cached_key_sorted {A} (key : A → N) l :
  StronglySorted (λ x y, key x ≤ key y)%N (sort_by_cached_key key l).
Proof. induction l as [|x l IH]; cbn; [constructor|]. by apply insert_by_key_sorted. Qed.

Lemma collect_points_ids index lat lng ids pts : collect_points index lat lng ids = Ok pts → pts.*1 = ids.
Proof.
  revert pts. induction ids as [|id ids IH]; intros pts; cbn; [by intros [= <-]|].
  destruct (first_number index id lat _) as [x| |]; [|done..]. cbn.
  destruct (first_number index id lng _) as [y| |]; [|done..]. cbn.
  destruct (collect_points index lat lng ids) as [pts'| |]; [|done..]. cbn. intros [= <-]. cbn. f_equal. by apply IH.
Qed.

(** The documents that are left, in the order they will come. *)
Definition coming (q : Query) (U : gset DocumentId) (order : list (DocumentId * point)) (g : GeoSortRule) : Prop :=
  geo_query g = Some q ∧ NoDup order.*1 ∧ geo_candidates g ∩ U = list_to_set order.*1 ∧
  cached_sorted_docids g = if ascending g then order else rev order.

Lemma left_after (X U L : gset DocumentId) d : X = {[d]} ∪ L → d ∉ L → X ⊆ U → X ∩ (U ∖ {[d]}) = L.
Proof. set_solver. Qed.

Lemma coming_next index q U p order g :
  coming q U (p :: order) g → ∃ g', geo_next_bucket index U g = Ok (Some (mkOutput q {[p.1]} (geo_score g (Some p.2))), g') ∧
    coming q (U ∖ {[p.1]}) order g' ∧ ascending g' = ascending g ∧ geo_point g' = geo_point g.
Proof.
  intros (Hq & Hnd & Hc & Hcache). rewrite fmap_cons in Hnd, Hc. apply NoDup_cons in Hnd as [Hp Hnd]. unfold geo_next_bucket. cbn [geo_next_bucket_calls].
  rewrite Hq. cbn [geo_candidates with_candidates cached_sorted_docids ascending].
  rewrite bool_decide_eq_false_2 by (rewrite Hc; cbn; set_solver).
  assert (∀ l, pop_candidate (geo_candidates g ∩ U) (p :: l) = (Some p, l)) as Hpop.
  { intros l. cbn. rewrite bool_decide_eq_true_2; [done|]. rewrite Hc. cbn. set_solver. }
  destruct (ascending g) eqn:Hasc; rewrite Hcache; rewrite ?rev_involutive, Hpop; cbn; destruct p as [d x];
    (eexists; split; [reflexivity|]; split_and!; [split_and!; cbn; try done|done..]).
  1,3: apply left_after; [done|by rewrite elem_of_list_to_set|set_solver].
  all: by rewrite Hasc.
Qed.

Lemma coming_end index q U g : coming q U [] g → ∃ g', geo_next_bucket index U g = Ok (Some (mkOutput q U (geo_score g None)), g').
Proof.
  intros (Hq & _ & Hc & _). unfold geo_next_bucket. cbn [geo_next_bucket_calls]. rewrite Hq. cbn [geo_candidates with_candidates].
  rewrite bool_decide_eq_true_2 by done. by eexists.
Qed.

Lemma coming_buckets index q U order g :
  coming q U order g →
  geo_buckets (length order + 1) index U g =
    Ok (((λ p, ({[p.1]}, geo_score g (Some p.2))) <$> order) ++ [(U ∖ list_to_set order.*1, geo_score g None)]).
Proof.
  revert U g. induction order as [|p order IH]; intros U g Hg.
  - destruct (coming_end index q U g Hg) as [g' Hn]. cbn [Nat.add length geo_buckets]. rewrite Hn. cbn. do 3 f_equal.
    set_solver.
  - destruct (coming_next index q U p order g Hg) as (g' & Hn & Hg' & Ha & Hp). cbn [Nat.add length geo_buckets].
    rewrite Hn. cbn [mbind outcome_bind candidates score]. rewrite (IH _ _ Hg'). cbn. unfold geo_score. rewrite Ha, Hp.
    do 3 f_equal. f_equal. f_equal. set_solver.
Qed.

Definition distance_key (g : GeoSortRule) (d : DocumentId * point) : N := as_usize (haversine_distance (geo_point g) d.2).
Definition nearer (g : GeoSortRule) (x y : DocumentId * point) : Prop :=
  (if ascending g then distance_key g x ≤ distance_key g y else distance_key g y ≤ distance_key g x)%N.

(** The buffer that an iteration starts with. *)
Lemma fill_coming index q U g lat lng pts :
  geo_query g = Some q → cached_sorted_docids g = [] → field_ids g = Some (lat, lng) → geo_candidates g ⊆ U →
  use_rtree (strategy g) (size (geo_candidates g)) = false →
  collect_points index lat lng (bitmap_iter (geo_candidates g)) = Ok pts →
  ∃ g1 order, fill_buffer index g = Ok g1 ∧ order ≡ₚ pts ∧ StronglySorted (nearer g) order ∧ coming q U order g1 ∧
    ascending g1 = ascending g ∧ geo_point g1 = geo_point g.
Proof.
  intros Hq Hcache Hf Hsub Hr Hpts. unfold fill_buffer. rewrite Hr, Hf, Hpts, Hcache. cbn.
  pose proof (sort_by_cached_key_Permutation (distance_key g) pts) as Hperm.
  set (sorted := sort_by_cached_key (distance_key g) pts) in *.
  pose proof (sort_by_cached_key_sorted (distance_key g) pts : StronglySorted _ sorted) as Hsorted.
  assert (∀ order, order ≡ₚ pts → NoDup order.*1 ∧ geo_candidates g ∩ U = list_to_set order.*1) as Hord.
  { intros order Ho. pose proof (collect_points_ids _ _ _ _ _ Hpts) as Hids. rewrite Ho, Hids. split; [apply NoDup_bitmap_iter|].
    apply set_eq. intros d. rewrite elem_of_list_to_set, elem_of_bitmap_iter. set_solver. }
  unfold nearer, coming. destruct (ascending g) eqn:Ha.
  - exists (with_cache sorted g), sorted. split_and!; cbn; try done; [by apply Hord..|by rewrite Ha].
  - exists (with_cache sorted g), (rev sorted).
    assert (rev sorted ≡ₚ pts) as Hrev by by rewrite <- Permutation_rev.
    split_and!; cbn; try done; [by apply (StronglySorted_rev _ _ Hsorted)|by apply Hord..|by rewrite Ha, rev_involutive].
Qed.

(** C37: Without the r-tree, one iteration of [GeoSort] gives the documents with coordinates one by
    one, the nearest first or, in descending order, the farthest first, and then the other
    documents at once. *)
Theorem geo_sort_order fields_ids_map index U q g lat lng pts :
  geo_query g = None → cached_sorted_docids g = [] →
  FieldsIdsMap.id "_geo.lat" fields_ids_map = Some lat → FieldsIdsMap.id "_geo.lng" fields_ids_map = Some lng →
  use_rtree (strategy g) (size (geo_candidates g ∩ U)) = false →
  collect_points index lat lng (bitmap_iter (geo_candidates g ∩ U)) = Ok pts →
  ∃ g1 order, geo_start_iteration fields_ids_map index U q g = Ok g1 ∧ order ≡ₚ pts ∧ StronglySorted (nearer g) order ∧
    geo_buckets (length order + 1) index U g1 =
      Ok (((λ p, ({[p.1]}, geo_score g (Some p.2))) <$> order) ++ [(U ∖ geo_candidates g, geo_score g None)]).
Proof.
  intros Hq Hcache Hlat Hlng Hr Hpts. unfold geo_start_iteration. rewrite (bool_decide_eq_true_2 (geo_query g = None)) by done. cbn [mbind outcome_bind assert].
  pose proof (collect_points_ids _ _ _ _ _ Hpts) as Hids.
  set (g0 := with_candidates (geo_candidates g ∩ U) (with_query (Some q) g)).
  assert (∃ g1 order, (if bool_decide (geo_candidates g0 = ∅) then Ok g0 else fill_buffer index (with_field_ids (Some (lat, lng)) g0)) = Ok g1 ∧
    order ≡ₚ pts ∧ StronglySorted (nearer g) order ∧ coming q U order g1 ∧ ascending g1 = ascending g ∧ geo_point g1 = geo_point g)
    as (g1 & order & Hg1 & Hperm & Hs & Hcom & Ha & Hp).
  { assert (geo_candidates g0 ⊆ U) as Hsub by apply intersection_subseteq_r.
    case_bool_decide as He.
    - change (geo_candidates g ∩ U = ∅) in He. rewrite He, bitmap_iter_empty in Hids. apply fmap_nil_inv in Hids as ->.
      exists g0, []. do 2 (split; [reflexivity|]). split; [constructor|]. split; [|by split].
      split; [reflexivity|]. split; [constructor|]. split; [change ((geo_candidates g ∩ U) ∩ U = ∅); rewrite He; apply intersection_empty_l_L|].
      cbn. rewrite Hcache. by destruct (ascending g).
    - exact (fill_coming index q U (with_field_ids (Some (lat, lng)) g0) lat lng pts eq_refl Hcache eq_refl Hsub Hr Hpts). }
  exists g1, order. rewrite Hlat, Hlng. split_and!; [done..|]. rewrite (coming_buckets index q U order g1 Hcom).
  unfold geo_score. rewrite Ha, Hp. do 4 f_equal. apply set_eq. intros d. rewrite !elem_of_difference, elem_of_list_to_set, Hperm, Hids, elem_of_bitmap_iter.
  set_solver.
Qed.

(** ** The next iterations *)

(** The state that a bucket leaves. *)
Definition asked (index : FacetIndex) (g g' : GeoSortRule) : Prop := ∃ U out, geo_next_bucket index U g = Ok (out, g').

Lemma fill_buffer_candidates index g g' : fill_buffer index g = Ok g' → geo_candidates g' = geo_candidates g.
Proof.
  unfold fill_buffer. destruct (use_rtree _ _).
  - destruct (match rtree g with Some _ => _ | None => _ end) as [t| |]; [|done..]. cbn. by intros [= <-].
  - destruct (field_ids g) as [[lat lng]|]; [|done]. destruct (collect_points _ _ _ _); [|done..]. cbn. by intros [= <-].
Qed.

Lemma next_bucket_candidates calls index U g out g' :
  geo_next_bucket_calls calls index U g = Ok (out, g') → geo_candidates g' ⊆ geo_candidates g.
Proof.
  revert g. induction calls as [|calls IH]; intros g; [done|]. cbn [geo_next_bucket_calls].
  destruct (geo_query g) as [q|]; [|done]. cbn [geo_candidates with_candidates]. case_bool_decide.
  { intros [= _ <-]. cbn. apply intersection_subseteq_l. }
  destruct (if ascending g then _ else _) as [[[id x]|] cache].
  - intros [= _ <-]. cbn. apply intersection_subseteq_l.
  - destruct (fill_buffer index _) as [g2| |] eqn:Hf; [|done..]. cbn. intros H2%IH.
    apply fill_buffer_candidates in Hf. cbn in Hf. rewrite Hf in H2. etrans; [exact H2|apply intersection_subseteq_l].
Qed.

Lemma start_candidates fields_ids_map index U q g g' :
  geo_start_iteration fields_ids_map index U q g = Ok g' → geo_candidates g' = geo_candidates g ∩ U.
Proof.
  unfold geo_start_iteration. destruct (assert _ _); [|done..]. cbn [mbind outcome_bind]. case_bool_decide; [by intros [= <-]|].
  destruct (FieldsIdsMap.id "_geo.lat" fields_ids_map), (FieldsIdsMap.id "_geo.lng" fields_ids_map); try done.
  intros ->%fill_buffer_candidates. done.
Qed.

Lemma start_query fields_ids_map index U q g g' :
  geo_start_iteration fields_ids_map index U q g = Ok g' → geo_candidates g' = ∅ → geo_query g' = Some q.
Proof.
  unfold geo_start_iteration. destruct (assert _ _); [|done..]. cbn [mbind outcome_bind]. case_bool_decide as He; [by intros [= <-]|].
  destruct (FieldsIdsMap.id "_geo.lat" fields_ids_map), (FieldsIdsMap.id "_geo.lng" fields_ids_map); try done.
  intros Hf%fill_buffer_candidates. rewrite Hf. done.
Qed.

(** [GeoSort] forgets the documents with coordinates that were not in its first universe: when
    it sorts the buckets of another rule, it gives every bucket after the first one as a single
    bucket without distances. *)
Theorem geo_sort_forgets fields_ids_map index U1 U2 q1 q2 g g1 g2 g3 :
  geo_start_iteration fields_ids_map index U1 q1 g = Ok g1 → rtc (asked index) g1 g2 → U1 ## U2 →
  geo_start_iteration fields_ids_map index U2 q2 (geo_end_iteration g2) = Ok g3 →
  ∃ g4, geo_next_bucket index U2 g3 = Ok (Some (mkOutput q2 U2 (geo_score g3 None)), g4).
Proof.
  intros H1%start_candidates Hrun Hdis H3. assert (geo_candidates g2 ⊆ U1) as Hsub.
  { assert (geo_candidates g1 ⊆ U1) as Hg1 by (rewrite H1; apply intersection_subseteq_r). clear -Hrun Hg1.
    induction Hrun as [|g1 g' g2 (U & out & Hn%next_bucket_candidates) _ IH]; [done|]. apply IH. by etrans. }
  pose proof (start_candidates _ _ _ _ _ _ H3) as Hc. cbn in Hc.
  assert (geo_candidates g3 = ∅) as He by (rewrite Hc; set_solver).
  pose proof (start_query _ _ _ _ _ _ H3 He) as Hq. unfold geo_next_bucket. cbn [geo_next_bucket_calls]. rewrite Hq.
  rewrite bool_decide_eq_true_2; [by eexists|]. cbn. rewrite He. apply intersection_empty_l_L.
Qed.
End geo_sort.
