(* ===== verification/Criteria.v ===== *)
(** * Sort expressions and ranking rules (milli/src/asc_desc.rs, criterion.rs)

    The texts of the ranking rules of an index and of the sort expressions of a search:
    their parsers, their errors and the texts that are printed for them. *)
From Stdlib Require Import Ascii String.
From S2P Require Import Prelude FacetF64 Filter Settings.

(** ** The methods of [str]

    A string is its UTF-8 bytes. *)
Fixpoint strip_prefix (pattern text : string) : option string :=
  match pattern, text with
  | EmptyString, _ => Some text
  | String c pattern, String c' text => if decide (c = c') then strip_prefix pattern text else None
  | _, EmptyString => None
  end.
Definition starts_with (pattern text : string) : bool := bool_decide (is_Some (strip_prefix pattern text)).
Definition strip_suffix (pattern text : string) : option string :=
  String.rev <$> strip_prefix (String.rev pattern) (String.rev text).

(** [split_once] and [rsplit_once] at a character of one byte. *)
Fixpoint split_once (c : ascii) (text : string) : option (string * string) :=
  match text with
  | EmptyString => None
  | String c' text => if decide (c' = c) then Some (EmptyString, text) else prod_map (String c') (λ x, x) <$> split_once c text
  end.
Fixpoint rsplit_once (c : ascii) (text : string) : option (string * string) :=
  match text with
  | EmptyString => None
  | String c' text =>
      match rsplit_once c text with
      | Some (left_, right_) => Some (String c' left_, right_)
      | None => if decide (c' = c) then Some (EmptyString, text) else None
      end
  end.

(** The characters that have the property [White_Space]. *)
Definition utf8 (l : list nat) : string := string_of_list_ascii (ascii_of_nat <$> l).
Definition whitespaces : list string :=
  utf8 <$> [[9]; [10]; [11]; [12]; [13]; [32]; [194; 133]; [194; 160]; [225; 154; 128]; [226; 128; 128]; [226; 128; 129];
    [226; 128; 130]; [226; 128; 131]; [226; 128; 132]; [226; 128; 133]; [226; 128; 134]; [226; 128; 135]; [226; 128; 136];
    [226; 128; 137]; [226; 128; 138]; [226; 128; 168]; [226; 128; 169]; [226; 128; 175]; [226; 129; 159]; [227; 128; 128]].

Fixpoint trim_with (strip : string → string → option string) (fuel : nat) (text : string) : string :=
  match fuel with
  | 0 => text
  | S fuel =>
      match head (omap (λ w, strip w text) whitespaces) with
      | Some text => trim_with strip fuel text
      | None => text
      end
  end.
Definition trim (text : string) : string :=
  let text := trim_with strip_prefix (String.length text) text in
  trim_with strip_suffix (String.length text) text.

(** [is_reserved_keyword] (milli/src/error.rs). *)
Definition is_reserved_keyword (keyword : string) : bool :=
  bool_decide (keyword ∈ ["_geo"; "_geoDistance"; "_geoPoint"; "_geoRadius"; "_geoBoundingBox"]%string).

(** ** Asc and desc *)
Inductive BadGeoError :=
| Lat (lat : f64)
| Lng (lng : f64)
| TopIsBelowBottom (top bottom : f64).

Inductive AscDescError :=
| GeoError (error : BadGeoError)
| InvalidSyntax (name : string)
| ReservedKeyword (name : string).

Inductive Member :=
| Field (field : string)
| Geo (lat lng : f64).

Inductive AscDesc :=
| AscBy (member : Member)
| DescBy (member : Member).

Definition member (self : AscDesc) : Member := match self with AscBy member | DescBy member => member end.

Inductive SortError :=
| ParseGeoError (error : BadGeoError)
| BadGeoPointUsage (name : string)
| SortInvalidName (name : string)
| SortReservedName (name : string)
| SortReservedNameForSettings (name : string)
| SortReservedNameForFilter (name : string).

Definition sort_error (error : AscDescError) : SortError :=
  match error with
  | GeoError error => ParseGeoError error
  | InvalidSyntax name => SortInvalidName name
  | ReservedKeyword name =>
      if starts_with "_geoPoint" name then BadGeoPointUsage name
      else if bool_decide (name = "_geo"%string) then SortReservedNameForSettings name
      else if starts_with "_geoRadius" name then SortReservedNameForFilter "_geoRadius"
      else if starts_with "_geoBoundingBox" name then SortReservedNameForFilter "_geoBoundingBox"
      else SortReservedName name
  end.

Inductive CriterionError :=
| InvalidName (name : string)
| ReservedName (name : string)
| ReservedNameForSort (name : string)
| ReservedNameForFilter (name : string).

Definition criterion_error (error : AscDescError) : CriterionError :=
  match error with
  | GeoError _ => ReservedNameForSort "_geoPoint"
  | InvalidSyntax name => InvalidName name
  | ReservedKeyword name =>
      if starts_with "_geoPoint" name then ReservedNameForSort "_geoPoint"
      else if starts_with "_geoRadius" name then ReservedNameForFilter "_geoRadius"
      else if starts_with "_geoBoundingBox" name then ReservedNameForFilter "_geoBoundingBox"
      else ReservedName name
  end.

Section parse.
(** [str::parse::<f64>]. *)
Context (parse_f64 : string → option f64).

Definition parse_point (text point : string) : outcome AscDescError (f64 * f64) :=
  '(lat, lng) ← ok_or (split_once "," point) (ReservedKeyword text);
  lat ← ok_or (parse_f64 (trim lat)) (ReservedKeyword text);
  lng ← ok_or (parse_f64 (trim lng)) (ReservedKeyword text);
  Ok (lat, lng).

Definition member_from_str (text : string) : outcome AscDescError Member :=
  match strip_prefix "_geoPoint(" text ≫= strip_suffix ")" with
  | Some point =>
      '(lat, lng) ← parse_point text point;
      if negb (range_contains f64_minus_90 f64_90 lat) then Err (GeoError (Lat lat))
      else if negb (range_contains f64_minus_180 f64_180 lng) then Err (GeoError (Lng lng))
      else Ok (Geo lat lng)
  | None =>
      if is_reserved_keyword text || starts_with "_geoRadius(" text || starts_with "_geoBoundingBox(" text ||
         starts_with "_geo(" text || starts_with "_geoDistance(" text
      then Err (ReservedKeyword text)
      else Ok (Field text)
  end.

Definition asc_desc_from_str (text : string) : outcome AscDescError AscDesc :=
  match rsplit_once ":" text with
  | Some (left_, right_) =>
      if decide (right_ = "asc"%string) then member ← member_from_str left_; Ok (AscBy member)
      else if decide (right_ = "desc"%string) then member ← member_from_str left_; Ok (DescBy member)
      else Err (InvalidSyntax text)
  | None => Err (InvalidSyntax text)
  end.

Definition criterion_from_str (text : string) : outcome CriterionError Criterion :=
  if decide (text = "words"%string) then Ok Words
  else if decide (text = "typo"%string) then Ok Typo
  else if decide (text = "proximity"%string) then Ok Proximity
  else if decide (text = "attribute"%string) then Ok Attribute
  else if decide (text = "sort"%string) then Ok Settings.Sort
  else if decide (text = "exactness"%string) then Ok Exactness
  else
    match map_err criterion_error (asc_desc_from_str text) with
    | Ok (AscBy (Field field)) => Ok (Asc field)
    | Ok (DescBy (Field field)) => Ok (Desc field)
    | Ok (AscBy (Geo _ _)) | Ok (DescBy (Geo _ _)) => Err (ReservedNameForSort "_geoPoint")
    | Err e => Err e
    | Panic msg => Panic msg
    end.
End parse.

(** [fmt] of a criterion, and [default_criteria]. *)
Definition criterion_fmt (self : Criterion) : string :=
  match self with
  | Words => "words"
  | Typo => "typo"
  | Proximity => "proximity"
  | Attribute => "attribute"
  | Settings.Sort => "sort"
  | Exactness => "exactness"
  | Asc attr => attr ++ ":asc"
  | Desc attr => attr ++ ":desc"
  end%string.

Definition default_criteria : list Criterion := [Words; Typo; Proximity; Attribute; Settings.Sort; Exactness].

(** ** What the methods of [str] find *)
#[local] Open Scope string_scope.

Lemma str_strip_prefix_spec p t r : strip_prefix p t = Some r ↔ t = p ++ r.
Proof.
  revert t. induction p as [|c p IH]; intros t; [split; [by intros [= ->]|by intros ->]|].
  destruct t as [|c' t]; cbn; [by split|]. case_decide as Hc.
  - subst c'. rewrite IH. split; [by intros ->|by intros [= ->]].
  - split; [done|]. by intros [= -> _].
Qed.

Lemma starts_with_spec p t : starts_with p t = true ↔ ∃ r, t = p ++ r.
Proof. unfold starts_with. rewrite bool_decide_eq_true. unfold is_Some. by setoid_rewrite str_strip_prefix_spec. Qed.

#[local] Arguments String.append : simpl nomatch.

Lemma string_app_assoc s t u : ((s ++ t) ++ u = s ++ t ++ u)%string.
Proof. induction s as [|c s IH]; [done|]. cbn. by f_equal. Qed.

Lemma string_app_nil s : (s ++ "" = s)%string.
Proof. induction s as [|c s IH]; [done|]. cbn. by f_equal. Qed.

Lemma rev_app_spec s t : String.rev_app s t = (String.rev s ++ t)%string.
Proof.
  unfold String.rev. revert t. induction s as [|c s IH]; intros t; [done|]. cbn.
  rewrite (IH (String c t)), (IH (String c "")). by rewrite string_app_assoc.
Qed.
Lemma rev_cons c s : String.rev (String c s) = (String.rev s ++ String c "")%string.
Proof. unfold String.rev at 1. cbn. apply rev_app_spec. Qed.
Lemma string_rev_app s t : String.rev (s ++ t) = (String.rev t ++ String.rev s)%string.
Proof.
  induction s as [|c s IH]; [by rewrite string_app_nil|]. cbn [String.append]. by rewrite !rev_cons, IH, string_app_assoc.
Qed.
Lemma string_rev_rev s : String.rev (String.rev s) = s.
Proof. induction s as [|c s IH]; [done|]. by rewrite rev_cons, string_rev_app, IH. Qed.

Lemma str_strip_suffix_spec p t r : strip_suffix p t = Some r ↔ t = (r ++ p)%string.
Proof.
  unfold strip_suffix. rewrite fmap_Some. setoid_rewrite str_strip_prefix_spec. split.
  - intros (r' & Ht & ->). rewrite <- (string_rev_rev t), Ht, string_rev_app. by rewrite !string_rev_rev.
  - intros ->. exists (String.rev r). by rewrite string_rev_app, string_rev_rev.
Qed.

Lemma rsplit_once_None c t : rsplit_once c t = None ↔ c ∉ list_ascii_of_string t.
Proof.
  induction t as [|c' t IH]; cbn; [split; [intros _; apply not_elem_of_nil|done]|]. rewrite not_elem_of_cons, <- IH.
  destruct (rsplit_once c t) as [[l r]|]; [naive_solver|]. case_decide; naive_solver.
Qed.

Lemma rsplit_once_spec c t l r :
  rsplit_once c t = Some (l, r) ↔ t = (l ++ String c r)%string ∧ c ∉ list_ascii_of_string r.
Proof.
  revert l. induction t as [|c' t IH]; intros l; cbn.
  { split; [done|]. by intros [Ht _]; destruct l. }
  destruct (rsplit_once c t) as [[l' r']|] eqn:Hs.
  - split.
    + intros [= <- <-]. destruct (proj1 (IH l') eq_refl) as [-> ?]. done.
    + intros [Ht Hr]. destruct l as [|c2 l]; cbn in Ht; injection Ht as -> ->.
      * apply rsplit_once_None in Hr. by rewrite Hr in Hs.
      * f_equal. assert (Some (l', r') = Some (l, r)) as [= -> ->] by by apply IH. done.
  - pose proof (proj1 (rsplit_once_None c t) Hs) as Hno. case_decide; subst.
    + split.
      * by intros [= <- <-].
      * intros [Ht Hr]. destruct l as [|c2 l]; cbn in Ht; [by injection Ht as ->|injection Ht as _ ->].
        destruct Hno. clear. induction l as [|c3 l IH]; cbn; [left|by right].
    + split; [done|]. intros [Ht Hr]. destruct l as [|c2 l]; cbn in Ht; injection Ht as -> ->; [done|].
      destruct Hno. clear. induction l as [|c3 l IH]; cbn; [left|by right].
Qed.

(** ** The round trip *)

(** The names that are not reserved. *)
Definition field_name_ok (field : string) : Prop :=
  (∀ point, field ≠ "_geoPoint(" ++ point ++ ")") ∧ is_reserved_keyword field = false ∧
  ∀ prefix rest, prefix ∈ ["_geoRadius("; "_geoBoundingBox("; "_geo("; "_geoDistance("] → field ≠ prefix ++ rest.

Definition criterion_ok (c : Criterion) : Prop :=
  match c with Asc field | Desc field => field_name_ok field | _ => True end.

Section round_trip.
Context (parse_f64 : string → option f64).

Lemma member_from_str_field text field :
  member_from_str parse_f64 text = Ok (Field field) ↔ text = field ∧ field_name_ok field.
Proof.
  unfold member_from_str, field_name_ok. destruct (strip_prefix "_geoPoint(" text ≫= strip_suffix ")") as [point|] eqn:Hp.
  - apply bind_Some in Hp as (t & ->%str_strip_prefix_spec & ->%str_strip_suffix_spec). split.
    + destruct (parse_point _ _ _) as [[lat lng]| |]; cbn; [|done..]. by repeat case_match.
    + intros [<- [Hno _]]. by destruct (Hno point).
  - assert (∀ point, text ≠ ("_geoPoint(" ++ point ++ ")")%string) as Hno.
    { intros point ->. rewrite (proj2 (str_strip_prefix_spec _ _ _) eq_refl) in Hp.
      cbn [mbind option_bind] in Hp. by rewrite (proj2 (str_strip_suffix_spec ")" _ point) eq_refl) in Hp. }
    assert (∀ b p, b || starts_with p text = false ↔ b = false ∧ ∀ rest, text ≠ (p ++ rest)%string) as Hor.
    { intros b p. rewrite orb_false_iff, <- (not_true_iff_false (starts_with p text)), starts_with_spec. naive_solver. }
    destruct (_ || _) eqn:Hres; (split; [try done|]).
    + intros [<- (_ & Hk & Hpre)]. exfalso. apply not_false_iff_true in Hres. apply Hres. rewrite !Hor.
      split_and!; [done|..]; intros rest; apply Hpre; set_solver.
    + intros [= <-]. rewrite !Hor in Hres. destruct Hres as ((((? & ?) & ?) & ?) & ?). split_and!; [done..|].
      intros p rest Hin. repeat (apply elem_of_cons in Hin as [->|Hin]; [done|]). by apply not_elem_of_nil in Hin.
    + by intros [<- _].
Qed.

Lemma colon_not_in : (":"%char ∉ list_ascii_of_string "asc") ∧ (":"%char ∉ list_ascii_of_string "desc").
Proof. split; apply (bool_decide_unpack _); by vm_compute. Qed.

Lemma asc_desc_from_str_Ok text by_ :
  asc_desc_from_str parse_f64 text = Ok by_ ↔
    ∃ left_, member_from_str parse_f64 left_ = Ok (member by_) ∧
      text = (left_ ++ match by_ with AscBy _ => ":asc" | DescBy _ => ":desc" end)%string.
Proof.
  unfold asc_desc_from_str. split.
  - destruct (rsplit_once ":" text) as [[l r]|] eqn:Hs; [|done]. apply rsplit_once_spec in Hs as [-> _].
    case_decide; [|case_decide; [|done]]; subst; destruct (member_from_str _ l) eqn:Hm; try done; cbn; intros [= <-]; by exists l.
  - intros (l & Hm & ->). destruct by_; cbn in *;
      rewrite (proj2 (rsplit_once_spec ":" _ l _)) by (split; [done|apply colon_not_in]); cbn; by rewrite Hm.
Qed.

Lemma asc_field text field :
  asc_desc_from_str parse_f64 text = Ok (AscBy (Field field)) ↔ text = (field ++ ":asc")%string ∧ field_name_ok field.
Proof. rewrite asc_desc_from_str_Ok. cbn. setoid_rewrite member_from_str_field. naive_solver. Qed.

Lemma desc_field text field :
  asc_desc_from_str parse_f64 text = Ok (DescBy (Field field)) ↔ text = (field ++ ":desc")%string ∧ field_name_ok field.
Proof. rewrite asc_desc_from_str_Ok. cbn. setoid_rewrite member_from_str_field. naive_solver. Qed.

Lemma fmt_no_colon text c : rsplit_once ":" text = None → text = criterion_fmt c → ∀ field, c ≠ Asc field ∧ c ≠ Desc field.
Proof.
  intros Hn Ht field. split; intros ->; cbn in Ht; subst text.
  - by rewrite (proj2 (rsplit_once_spec ":" _ field "asc")) in Hn by (split; [done|apply colon_not_in]).
  - by rewrite (proj2 (rsplit_once_spec ":" _ field "desc")) in Hn by (split; [done|apply colon_not_in]).
Qed.

Lemma plain_rule w c :
  w ∈ default_criteria → (Ok w : outcome CriterionError Criterion) = Ok c ↔ criterion_fmt w = criterion_fmt c ∧ criterion_ok c.
Proof.
  intros Hw. split.
  - intros [= <-]. split; [done|]. by repeat (apply elem_of_cons in Hw as [->|Hw]; [done|]); apply not_elem_of_nil in Hw.
  - intros [Hc _]. f_equal. assert (rsplit_once ":" (criterion_fmt w) = None) as Hn.
    { by repeat (apply elem_of_cons in Hw as [->|Hw]; [done|]); apply not_elem_of_nil in Hw. }
    pose proof (fmt_no_colon _ c Hn Hc) as Hf.
    repeat (apply elem_of_cons in Hw as [->|Hw]; [destruct c; cbn in Hc; first [done|by destruct (Hf field)]|]).
    by apply not_elem_of_nil in Hw.
Qed.

Lemma in_default n w : default_criteria !! n = Some w → w ∈ default_criteria.
Proof. apply list_elem_of_lookup_2. Qed.

(** C33: The ranking rules are exactly the printed ones: a text is accepted as a rule when
    and only when it is what the rule prints and, for a sort, the name of the field is not
    reserved; the name may hold colons. *)
Theorem criterion_round_trip text c :
  criterion_from_str parse_f64 text = Ok c ↔ text = criterion_fmt c ∧ criterion_ok c.
Proof.
  unfold criterion_from_str.
  case_decide; [subst text; by apply (plain_rule Words), (in_default 0)|].
  case_decide; [subst text; by apply (plain_rule Typo), (in_default 1)|].
  case_decide; [subst text; by apply (plain_rule Proximity), (in_default 2)|].
  case_decide; [subst text; by apply (plain_rule Attribute), (in_default 3)|].
  case_decide; [subst text; by apply (plain_rule Settings.Sort), (in_default 4)|].
  case_decide; [subst text; by apply (plain_rule Exactness), (in_default 5)|].
  destruct c as [| | | | | |field|field]; cbn; rewrite <- ?asc_field, <- ?desc_field;
    (destruct (asc_desc_from_str parse_f64 text) as [[[f|? ?]|[f|? ?]]| |]; cbn; split; try done; naive_solver).
Qed.
End round_trip.
