(* ===== verification/Search.v ===== *)
(** * Searches without words (milli/src/search/new/mod.rs)

    [execute_search]: the universe of a search from its filter, the checks of its sort
    expressions, the ranking rules of a search without words, its sorted documents and its
    number of hits; and the searches by vector. *)
From S2P Require Import Prelude Json FieldsIdsMap Obkv FacetDb FacetTree FacetSort FacetUpdate FacetF64 FacetInsert FacetExtract FacetIndex Filter Distinct BucketSort RankingOrder ScoreDetails SortRule GeoSort Criteria.
From S2P Require DocumentsIds Transform Settings.
Import DocumentsIds (DocumentId).
Import Transform (bitmap_iter).
Import Settings (Criterion).
#[local] Existing Instance Settings.criterion_eq_dec.

(** What a search reads of an index. *)
Record SearchIndex := mkSearchIndex {
  filter_index : FilterIndex;
  stored_criteria : option (list Criterion);
  sortable_fields : list string;
  displayed_fields : option (list string);
  distinct_field : option string;
  geo_faceted_documents_ids : gset DocumentId
}.

(** [Index::criteria]. *)
Definition criteria (index : SearchIndex) : list Criterion := default default_criteria (stored_criteria index).

Definition the_facets (index : SearchIndex) : FacetIndex := facet_index (filter_index index).
Definition the_fields (index : SearchIndex) : FieldsIdsMap := fields_ids_map (filter_index index).

(** The distinct field of [bucket_sort] and of [execute_search]. *)
Definition distinct_fid (index : SearchIndex) : option FieldId :=
  match distinct_field index with Some field => FieldsIdsMap.id field (the_fields index) | None => None end.

Inductive SearchError :=
| SortRankingRuleMissing
| InvalidSortableAttribute (field : string) (valid_fields : list string)
| FilterFailed (error : FilterError)
| FacetFailed (error : FacetError)
| DecodingFailed.

Definition check_member (index : SearchIndex) (m : Member) : outcome SearchError unit :=
  match m with
  | Field field =>
      if is_faceted field (sortable_fields index) then Ok tt
      else Err (InvalidSortableAttribute field (sortable_fields index))
  | Geo _ _ =>
      if bool_decide ("_geo"%string ∈ sortable_fields index) then Ok tt
      else Err (InvalidSortableAttribute "_geo" (sortable_fields index))
  end.

Fixpoint check_members (index : SearchIndex) (l : list AscDesc) : outcome SearchError unit :=
  match l with
  | [] => Ok tt
  | asc_desc :: l => _ ← check_member index (member asc_desc); check_members index l
  end.

Definition check_sort_criteria (index : SearchIndex) (sort_criteria : option (list AscDesc)) : outcome SearchError unit :=
  match sort_criteria with
  | None | Some [] => Ok tt
  | Some sort_criteria =>
      if bool_decide (Settings.Sort ∈ criteria index) then check_members index sort_criteria
      else Err SortRankingRuleMissing
  end.

Section search.
Context {RTree : Type}.
(** The functions of the floats, of strings, of facets, and the r-trees. *)
Context (f64_add f64_sub f64_mul : f64 → f64 → f64) (f64_cos f64_sin to_radians : f64 → f64).
Context (haversine_distance : point → point → f64).
Context (rtree_of : FacetIndex → option RTree) (nearest_neighbor_iter : RTree → f64 * f64 * f64 → list (DocumentId * point)).
Context (from_utf8 : bytes → option string) (normalize_facet : bytes → bytes) (parse_f64 : string → option f64).
Context (geo_within : FilterIndex → option (f64 → f64 → f64 → gset DocumentId)).

Abbreviation PlaceholderQuery := unit.
Abbreviation Rule := (RankingRule SearchError PlaceholderQuery ScoreDetails).

(** ** The ranking rules *)
Definition boxed_sort (index : SearchIndex) (field_name : string) (is_ascending : bool) : Rule :=
  sort_rule FacetFailed from_utf8 (the_facets index)
    (sort_new (the_fields index) (displayed_fields index) field_name is_ascending).

Definition boxed_geo_sort (index : SearchIndex) (geo_strategy : Strategy) (point : point) (is_ascending : bool) : Rule :=
  geo_sort_rule f64_add f64_sub f64_mul f64_cos f64_sin to_radians haversine_distance rtree_of nearest_neighbor_iter
    DecodingFailed (the_fields index) (the_facets index)
    (geo_new geo_strategy (geo_faceted_documents_ids index) point is_ascending).

(** The fields that are sorted already, and the rules. *)
Abbreviation Resolved := (gset string * list Rule)%type.

Definition push_sort (index : SearchIndex) (field_name : string) (is_ascending : bool) (st : Resolved) : Resolved :=
  let '(sorted_fields, ranking_rules) := st in
  if bool_decide (field_name ∈ sorted_fields) then st
  else (sorted_fields ∪ {[field_name]}, ranking_rules ++ [boxed_sort index field_name is_ascending]).

(** [geo_sorted] is never set. *)
Definition resolve_sort_criteria (index : SearchIndex) (geo_strategy : Strategy) (geo_sorted : bool)
    (sort_criteria : option (list AscDesc)) (st : Resolved) : Resolved :=
  fold_left (λ st criterion,
    match criterion with
    | AscBy (Field field_name) => push_sort index field_name true st
    | DescBy (Field field_name) => push_sort index field_name false st
    | AscBy (Geo lat lng) =>
        if geo_sorted then st else (st.1, st.2 ++ [boxed_geo_sort index geo_strategy (lat, lng) true])
    | DescBy (Geo lat lng) =>
        if geo_sorted then st else (st.1, st.2 ++ [boxed_geo_sort index geo_strategy (lat, lng) false])
    end) (default [] sort_criteria) st.

Definition get_ranking_rules_for_placeholder_search (index : SearchIndex) (sort_criteria : option (list AscDesc))
    (geo_strategy : Strategy) : list Rule :=
  (fold_left (λ (acc : bool * Resolved) rr,
    let '(sort, st) := acc in
    match rr with
    | Settings.Words | Settings.Typo | Settings.Attribute | Settings.Proximity | Settings.Exactness => acc
    | Settings.Sort => if sort then acc else (true, resolve_sort_criteria index geo_strategy false sort_criteria st)
    | Settings.Asc field_name => (sort, push_sort index field_name true st)
    | Settings.Desc field_name => (sort, push_sort index field_name false st)
    end) (criteria index) (false, (∅, []))).2.2.

(** ** The search *)
Record PartialSearchResult := mkResult {
  res_candidates : gset DocumentId;
  documents_ids : list DocumentId;
  document_scores : list (list ScoreDetails)
}.

(** The beginning of [execute_search]. *)
Definition search_universe (filters : option FilterCondition) (index : SearchIndex) (sort_criteria : option (list AscDesc)) :
    outcome SearchError (gset DocumentId) :=
  universe ← match filters with
             | Some filters => map_err FilterFailed (evaluate normalize_facet parse_f64 geo_within filters (filter_index index))
             | None => Ok (Filter.documents_ids (filter_index index))
             end;
  _ ← check_sort_criteria index sort_criteria;
  Ok universe.

(** Its end. *)
Definition search_result (index : SearchIndex) (exhaustive_number_hits : bool) (out : @BucketSortOutput ScoreDetails) :
    PartialSearchResult :=
  let all_candidates :=
    if exhaustive_number_hits then
      match distinct_fid index with
      | Some distinct_fid => remaining (apply_distinct_rule (the_facets index) distinct_fid (out_candidates out))
      | None => out_candidates out
      end
    else out_candidates out in
  mkResult all_candidates (docids out) (scores out).

(** The search without words. *)
Definition placeholder_search (fuel : nat) (index : SearchIndex) (scoring_strategy : ScoringStrategy) (exhaustive_number_hits : bool)
    (filters : option FilterCondition) (sort_criteria : option (list AscDesc)) (geo_strategy : Strategy) (from length : nat) :
    option (outcome SearchError PartialSearchResult) :=
  match search_universe filters index sort_criteria with
  | Ok universe =>
      let ranking_rules := get_ranking_rules_for_placeholder_search index sort_criteria geo_strategy in
      out ← bucket_sort (the_facets index) (distinct_fid index) from length scoring_strategy fuel ranking_rules tt universe;
      Some (out ← out; Ok (search_result index exhaustive_number_hits out))
  | Err e => Some (Err e)
  | Panic msg => Some (Panic msg)
  end.

(** The search by vector, from the neighbors that the hnsw index finds. *)
Fixpoint vector_docids (vector_id_docid : gmap N DocumentId) (universe : gset DocumentId) (last : nat) (neighbors : list N)
    (docids : list DocumentId) (uniq_docids : gset DocumentId) : outcome SearchError (list DocumentId) :=
  match neighbors with
  | [] => Ok docids
  | index :: neighbors =>
      match vector_id_docid !! index with
      | None => Panic "called Option::unwrap on a None value"
      | Some docid =>
          if bool_decide (docid ∈ universe) && bool_decide (docid ∉ uniq_docids) then
            let docids := docids ++ [docid] in
            if length docids =? last then Ok docids
            else vector_docids vector_id_docid universe last neighbors docids (uniq_docids ∪ {[docid]})
          else vector_docids vector_id_docid universe last neighbors docids uniq_docids
      end
  end.

Definition vector_search (vector_id_docid : gmap N DocumentId) (neighbors : list N) (universe : gset DocumentId) (from len : nat) :
    outcome SearchError PartialSearchResult :=
  docids ← vector_docids vector_id_docid universe (usize_add from len) neighbors [] ∅;
  let docids := take len (drop from docids) in
  Ok (mkResult universe docids (replicate (length docids) [])).
End search.

(** ** The checks of the sort expressions *)
Definition member_sortable (index : SearchIndex) (m : Member) : Prop :=
  match m with
  | Field field => is_faceted field (sortable_fields index) = true
  | Geo _ _ => "_geo"%string ∈ sortable_fields index
  end.

Lemma check_members_Ok index l : check_members index l = Ok tt ↔ ∀ c, c ∈ l → member_sortable index (member c).
Proof.
  assert (∀ m, check_member index m = Ok tt ↔ member_sortable index m) as Hm.
  { intros [field|lat lng]; cbn; [by destruct (is_faceted _ _)|]. by case_bool_decide. }
  induction l as [|c l IH]; cbn [check_members]; [split; [by intros _ c ?%not_elem_of_nil|done]|].
  setoid_rewrite elem_of_cons. specialize (Hm (member c)). destruct (check_member index (member c)) as [[]| |]; cbn; naive_solver.
Qed.

(** C34: Sort expressions are accepted when and only when there is none, or the ranking rules
    of the index have [sort] and every field and point is sortable; the error on the missing
    rule comes first. *)
Theorem check_sort_criteria_spec index sort_criteria :
  (check_sort_criteria index sort_criteria = Ok tt ↔
    default [] sort_criteria = [] ∨
    Settings.Sort ∈ criteria index ∧ ∀ c, c ∈ default [] sort_criteria → member_sortable index (member c)) ∧
  (check_sort_criteria index sort_criteria = Err SortRankingRuleMissing ↔
    default [] sort_criteria ≠ [] ∧ Settings.Sort ∉ criteria index).
Proof.
  assert (∀ l, check_members index l ≠ Err SortRankingRuleMissing) as Hne.
  { induction l as [|c l IH]; cbn; [done|]. destruct (member c); cbn; case_match; cbn; done. }
  destruct sort_criteria as [[|c l]|]; cbn [check_sort_criteria default from_option]; [naive_solver| |naive_solver].
  rewrite <- (check_members_Ok index (c :: l)). specialize (Hne (c :: l)). case_bool_decide; naive_solver.
Qed.

(** ** The search by vector *)
Section vector.
Context (vector_id_docid : gmap N DocumentId) (universe : gset DocumentId).

(** The documents of the neighbors that are in the universe, each one once. *)
Definition found (docs : list DocumentId) (seen : gset DocumentId) : list DocumentId :=
  greedy (λ d, {[d]}) (filter (λ d, d ∈ universe) docs) seen.

Lemma found_cons d docs seen :
  found (d :: docs) seen =
    if bool_decide (d ∈ universe) && bool_decide (d ∉ seen) then d :: found docs (seen ∪ {[d]}) else found docs seen.
Proof.
  unfold found. case_bool_decide as Hu; cbn [andb].
  - rewrite filter_cons_True by done. cbn [greedy]. by repeat case_bool_decide.
  - by rewrite filter_cons_False by done.
Qed.

Lemma vector_docids_spec last neighbors docs docids seen :
  Forall2 (λ n d, vector_id_docid !! n = Some d) neighbors docs → length docids < last ∨ last = 0 →
  vector_docids vector_id_docid universe last neighbors docids seen =
    Ok (docids ++ if decide (last = 0) then found docs seen else take (last - length docids) (found docs seen)).
Proof.
  intros Hn. revert docids seen. induction Hn as [|n d neighbors docs Hd _ IH]; intros docids seen Hlt; cbn [vector_docids].
  { unfold found. cbn. rewrite take_nil. case_decide; by rewrite app_nil_r. }
  rewrite Hd, found_cons. destruct (_ && _) eqn:Hin; [|by apply IH].
  rewrite length_app. cbn [length]. destruct (Nat.eqb_spec (length docids + 1) last) as [Heq|Hne].
  - rewrite decide_False by lia. replace (last - length docids) with 1 by lia. by rewrite firstn_cons, take_0.
  - rewrite IH by (rewrite length_app; cbn; lia). rewrite <- app_assoc, length_app. cbn [length app]. do 2 f_equal. case_decide; [done|].
    by replace (last - length docids) with (S (last - (length docids + 1))) by lia.
Qed.

(** C39: A search by vector answers the documents of its neighbors, the nearest first, that
    satisfy the filter, each one once, from the offset up to the limit. *)
Theorem vector_search_spec neighbors docs from len :
  Forall2 (λ n d, vector_id_docid !! n = Some d) neighbors docs → (N.of_nat from + N.of_nat len < u64_size)%N →
  ∃ res, vector_search vector_id_docid neighbors universe from len = Ok res ∧
    documents_ids res = take len (drop from (found docs ∅)) ∧ length (document_scores res) = length (documents_ids res).
Proof.
  intros Hn Hw. unfold vector_search, usize_add. rewrite wrap64_small by done.
  rewrite (vector_docids_spec _ _ docs) by (done || cbn; lia). cbn [mbind outcome_bind app]. eexists. split; [done|].
  cbn [documents_ids document_scores]. split; [|by rewrite length_replicate]. case_decide as H0.
  - assert (len = 0) as -> by lia. by rewrite !take_0.
  - cbn [length]. rewrite Nat.sub_0_r. replace (N.to_nat (N.of_nat from + N.of_nat len)) with (from + len) by lia.
    rewrite skipn_firstn_comm, take_take. f_equal. lia.
Qed.
End vector.
