(* ===== verification/SearchSpec.v ===== *)
(** * What a search without words answers

    The documents of the index that satisfy the filter, one for each value of the distinct
    field, sorted by the fields of the ranking rules as they are in the JSON of the
    documents; and the page of them that is asked. *)
From S2P Require Import Prelude Json FieldsIdsMap Obkv FacetDb FacetTree FacetSort FacetUpdate FacetF64 FacetInsert FacetExtract FacetIndex Filter Distinct BucketSort RankingOrder ScoreDetails SortRule GeoSort Criteria Search.
From S2P Require DocumentsIds Transform Settings.
Import DocumentsIds (DocumentId).
Import Transform (bitmap_iter).
Import Settings (Criterion).

(** ** The values of the fields *)
Section values.
Context {Number : Type} {O : Obkv} {J : SerdeJson Number}.
Context (as_f64 : Number → option f64) (normalize_facet : bytes → bytes).
Context (geo_within : FilterIndex → option (f64 → f64 → f64 → gset DocumentId)).
Context (known : FieldId → DocumentId → Json Number → Prop) (index : FilterIndex) (fs : list FieldId).
Context (from_utf8 : bytes → option string).
Abbreviation number_in := (number_in as_f64 known).
Abbreviation string_is := (string_is as_f64 normalize_facet known).

(** The order of the sort on numbers. *)
Definition number_before (is_ascending : bool) (x y : f64) : Prop := if is_ascending then before x y else before y x.

Definition first_number_better (is_ascending : bool) (f : FieldId) (d d' : DocumentId) : Prop :=
  ∃ x, number_in f d (eq x) ∧ ∀ y, number_in f d' (eq y) → number_before is_ascending x y.
Definition first_string_better (is_ascending : bool) (f : FieldId) (d d' : DocumentId) : Prop :=
  ∃ s, string_is f d s ∧ ∀ s', string_is f d' s' → value_lt is_ascending s s'.

(** [d] is sorted before [d'] by a field: it has a number that comes before the numbers of
    [d'] or, if neither has a number, a string that comes before its strings. *)
Definition doc_better (f : option FieldId) (is_ascending : bool) (d d' : DocumentId) : Prop :=
  match f with
  | None => False
  | Some f =>
      first_number_better is_ascending f d d' ∨
      (∀ x, ¬ number_in f d (eq x)) ∧ (∀ x, ¬ number_in f d' (eq x)) ∧ first_string_better is_ascending f d d'
  end.

Hypothesis Hfloats : floats_ok as_f64.
Hypothesis Hok : filter_index_ok as_f64 normalize_facet geo_within known index fs.

Lemma has_value_docids db f d b : db_sorted db → has (level db f 0) d b ↔ d ∈ value_docids db f b.
Proof.
  intros Hs. unfold has, value_docids. destruct (db_get (mkKey f 0 b) db) as [v|] eqn:Hv.
  - split.
    + intros (v' & Hv' & Hd). apply db_get_level in Hv'; [|done]. by simplify_eq.
    + intros Hd. exists v. split; [by apply db_get_level|done].
  - split; [|set_solver]. intros (v' & Hv' & Hd). apply db_get_level in Hv'; [|done]. congruence.
Qed.

Lemma facets_sorted t f : f ∈ fs → tree_ok ∅ (facet_id_docids (facets_of t (facets (facet_index index)))) f.
Proof. intros Hf. apply facet_ok_tree. by apply (hold_store _ _ _ _ _ (ok_hold _ _ _ _ _ _ Hok) t). Qed.

Lemma has_number f d b :
  f ∈ fs → has (level (facet_id_docids (facets_of Numbers (facets (facet_index index)))) f 0) d b ↔
    ∃ x, number_in f d (eq x) ∧ OrderedF64Codec.bytes_encode x = Some b.
Proof.
  intros Hf. rewrite has_value_docids by apply (facets_sorted Numbers f Hf).
  pose proof (elem_of_number_value _ _ _ _ _ _ Hok f d b Hf) as ->. split.
  - intros (v & n & x & Hk & Hn & Hx & Hfin & Hb). exists x. split; [|done]. by exists v, n, x.
  - intros (x & (v & n & x' & Hk & Hn & Hx & Hfin & <-) & Hb). by exists v, n, x.
Qed.

Lemma has_string f d b :
  f ∈ fs → has (level (facet_id_docids (facets_of Strings (facets (facet_index index)))) f 0) d b ↔ string_is f d b.
Proof.
  intros Hf. rewrite has_value_docids by apply (facets_sorted Strings f Hf).
  rewrite (hold_values _ _ _ _ _ (ok_hold _ _ _ _ _ _ Hok) Strings f b d Hf). unfold field_values.
  setoid_rewrite list_elem_of_omap. unfold Filter.string_is. naive_solver.
Qed.

Lemma number_ok f d x : number_in f d (eq x) → f64_ok x ∧ is_finite x = true.
Proof. intros (v & n & x' & _ & _ & Hx & Hfin & <-). split; [by eapply Hfloats|done]. Qed.

Lemma known_sortable f :
  f ∈ fs → (∀ t, (N.of_nat (length (facet_id_docids (facets_of t (facets (facet_index index))))) ≤ usize_max)%N) →
  (∀ d s, string_is f d s → ∃ text, from_utf8 s = Some text) → sortable from_utf8 (facet_index index) f.
Proof.
  intros Hf Hlen Hutf. split; [intros t; by apply facets_sorted|done|..].
  - intros d b (x & Hx & Hb)%has_number; [|done]. destruct (number_ok _ _ _ Hx) as [Hxok Hfin].
    exists x. split; [by apply (f64_decode_encode x b Hxok)|done].
  - intros d b Hs%has_string; [|done]. by eapply Hutf.
Qed.

(** The two orders are the same. *)
Lemma has_sort_level_iff t f asc d b :
  has (sort_level (facet_index index) t (Some f) asc) d b ↔ has (level (facet_id_docids (facets_of t (facets (facet_index index)))) f 0) d b.
Proof.
  unfold has, sort_level. destruct asc; [done|]. apply exist_proper. intros v.
  by rewrite (list_elem_of_In (rev _)), <- in_rev, <- list_elem_of_In.
Qed.

Lemma encode_number_before asc x y bx bys :
  f64_ok x → f64_ok y → OrderedF64Codec.bytes_encode x = Some bx → OrderedF64Codec.bytes_encode y = Some bys →
  value_lt asc bx bys ↔ number_before asc x y.
Proof. intros. destruct asc; cbn; by apply encode_before. Qed.

Lemma better_numbers f asc d d' :
  f ∈ fs → better_in asc (sort_level (facet_index index) Numbers (Some f) asc) d d' ↔ first_number_better asc f d d'.
Proof.
  intros Hf. unfold better_in, first_number_better. setoid_rewrite has_sort_level_iff. setoid_rewrite has_number; [|done..]. split.
  - intros (b & (x & Hx & Hb) & Hall). exists x. split; [done|]. intros y Hy.
    destruct (number_ok _ _ _ Hx) as [Hxok _]. destruct (number_ok _ _ _ Hy) as [Hyok Hfin].
    destruct (encode_finite y Hyok Hfin) as [b' Hb']. apply (encode_number_before asc x y b b'); eauto.
  - intros (x & Hx & Hall). destruct (number_ok _ _ _ Hx) as [Hxok Hfin]. destruct (encode_finite x Hxok Hfin) as [b Hb].
    exists b. split; [by exists x|]. intros b' (y & Hy & Hb'). destruct (number_ok _ _ _ Hy) as [Hyok _].
    apply (encode_number_before asc x y b b'); auto.
Qed.

Lemma none_numbers f asc d :
  f ∈ fs → none (sort_level (facet_index index) Numbers (Some f) asc) d ↔ ∀ x, ¬ number_in f d (eq x).
Proof.
  intros Hf. unfold none. setoid_rewrite has_sort_level_iff. setoid_rewrite has_number; [|done]. split.
  - intros Hno x Hx. destruct (number_ok _ _ _ Hx) as [Hxok Hfin]. destruct (encode_finite x Hxok Hfin) as [b Hb].
    apply (Hno b). by exists x.
  - intros Hno b (x & Hx & _). by apply (Hno x).
Qed.

Lemma better_strings f asc d d' :
  f ∈ fs → better_in asc (sort_level (facet_index index) Strings (Some f) asc) d d' ↔ first_string_better asc f d d'.
Proof.
  intros Hf. unfold better_in, first_string_better. setoid_rewrite has_sort_level_iff. by setoid_rewrite has_string; [|done..].
Qed.

Lemma sort_better_known f asc d d' :
  (∀ f', f = Some f' → f' ∈ fs) → sort_better (facet_index index) f asc d d' ↔ doc_better f asc d d'.
Proof.
  intros Hf. unfold sort_better, doc_better. destruct f as [f|].
  - specialize (Hf f eq_refl). rewrite better_numbers, !none_numbers, better_strings by done. done.
  - unfold better_in, has. cbn. setoid_rewrite elem_of_nil. naive_solver.
Qed.
End values.

(** ** The ranking rules of a search *)

(** The fields of the ranking rules and of the sort expressions, in order: the expressions
    stand where the first [sort] rule is. *)
Definition sort_field (c : AscDesc) : option (string * bool) :=
  match c with
  | AscBy (Field field) => Some (field, true)
  | DescBy (Field field) => Some (field, false)
  | _ => None
  end.

Fixpoint sort_fields (sort_done : bool) (sort_criteria : list AscDesc) (criteria : list Criterion) : list (string * bool) :=
  match criteria with
  | [] => []
  | Settings.Sort :: criteria =>
      (if sort_done then [] else omap sort_field sort_criteria) ++ sort_fields true sort_criteria criteria
  | Settings.Asc field :: criteria => (field, true) :: sort_fields sort_done sort_criteria criteria
  | Settings.Desc field :: criteria => (field, false) :: sort_fields sort_done sort_criteria criteria
  | _ :: criteria => sort_fields sort_done sort_criteria criteria
  end.

(** Only the first rule on a field counts. *)
Fixpoint first_fields (seen : gset string) (l : list (string * bool)) : list (string * bool) :=
  match l with
  | [] => []
  | (field, asc) :: l =>
      if bool_decide (field ∈ seen) then first_fields seen l else (field, asc) :: first_fields (seen ∪ {[field]}) l
  end.

Definition search_fields (index : SearchIndex) (sort_criteria : option (list AscDesc)) : list (string * bool) :=
  first_fields ∅ (sort_fields false (default [] sort_criteria) (criteria index)).

Definition geo_free (sort_criteria : option (list AscDesc)) : Prop :=
  ∀ c, c ∈ default [] sort_criteria → is_Some (sort_field c).

Section rules.
Context {RTree : Type}.
Context (f64_add f64_sub f64_mul : f64 → f64 → f64) (f64_cos f64_sin to_radians : f64 → f64).
Context (haversine_distance : point → point → f64).
Context (rtree_of : FacetIndex → option RTree) (nearest_neighbor_iter : RTree → f64 * f64 * f64 → list (DocumentId * point)).
Context (from_utf8 : bytes → option string) (index : SearchIndex).
Abbreviation boxed := (λ p : string * bool, boxed_sort from_utf8 index p.1 p.2).
Abbreviation push_sort := (push_sort from_utf8 index).
Abbreviation resolve := (resolve_sort_criteria f64_add f64_sub f64_mul f64_cos f64_sin to_radians haversine_distance rtree_of
  nearest_neighbor_iter from_utf8 index).
Abbreviation rules_of := (get_ranking_rules_for_placeholder_search f64_add f64_sub f64_mul f64_cos f64_sin to_radians
  haversine_distance rtree_of nearest_neighbor_iter from_utf8 index).
Abbreviation push_all l init := (fold_left (λ acc (p : string * bool), push_sort p.1 p.2 acc) l init).

Lemma push_all_spec l seen rules :
  (push_all l (seen, rules)).2 = rules ++ (boxed <$> first_fields seen l).
Proof.
  revert seen rules. induction l as [|[field asc] l IH]; intros seen rules; cbn [fold_left first_fields]; [by rewrite app_nil_r|].
  cbn [fst snd Search.push_sort]. case_bool_decide; [apply IH|]. rewrite IH. by rewrite <- app_assoc.
Qed.

Lemma resolve_push geo_strategy sort_criteria st :
  geo_free sort_criteria → resolve geo_strategy false sort_criteria st = push_all (omap sort_field (default [] sort_criteria)) st.
Proof.
  unfold geo_free, resolve_sort_criteria. generalize (default [] sort_criteria). intros l Hl. revert st.
  induction l as [|c l IH]; intros st; [done|]. destruct (Hl c ltac:(left)) as [[field asc] Hc].
  cbn [omap list_omap fold_left]. rewrite Hc. cbn [fold_left fst snd]. rewrite IH by (intros c' Hc'; apply Hl; by right).
  by destruct c as [[f|lat lng]|[f|lat lng]]; cbn in Hc; simplify_eq.
Qed.

Lemma ranking_rules_fields geo_strategy sort_criteria :
  geo_free sort_criteria → rules_of sort_criteria geo_strategy = boxed <$> search_fields index sort_criteria.
Proof.
  intros Hgeo. unfold get_ranking_rules_for_placeholder_search, search_fields. set (turn := λ (acc : bool * _) rr, _).
  assert (∀ l sort st, (fold_left turn l (sort, st)).2 = push_all (sort_fields sort (default [] sort_criteria) l) st) as Hfold.
  { induction l as [|rr l IH]; intros sort st; [done|]. cbn [fold_left]. destruct rr; cbn [sort_fields]; try apply IH.
    unfold turn at 2. destruct sort; cbn [app]; [apply IH|]. rewrite IH, fold_left_app. f_equal. by apply resolve_push. }
  rewrite Hfold. apply (push_all_spec _ ∅ []).
Qed.
End rules.

(** ** The answer *)
Lemma comes_before_iff (betters betters' : list (DocumentId → DocumentId → Prop)) d d' :
  Forall2 (λ b b', ∀ d d', b d d' ↔ b' d d') betters betters' → comes_before betters d d' ↔ comes_before betters' d d'.
Proof. induction 1 as [|b b' bs bs' Hb _ IH]; cbn; [done|]. by rewrite !Hb, IH. Qed.

Section answer.
Context {Number RTree : Type} {O : Obkv} {J : SerdeJson Number}.
Context (as_f64 : Number → option f64).
Context (f64_add f64_sub f64_mul : f64 → f64 → f64) (f64_cos f64_sin to_radians : f64 → f64).
Context (haversine_distance : point → point → f64).
Context (rtree_of : FacetIndex → option RTree) (nearest_neighbor_iter : RTree → f64 * f64 * f64 → list (DocumentId * point)).
Context (from_utf8 : bytes → option string) (normalize_facet : bytes → bytes) (parse_f64 : string → option f64).
Context (geo_within : FilterIndex → option (f64 → f64 → f64 → gset DocumentId)).
Context (known : FieldId → DocumentId → Json Number → Prop) (fs : list FieldId) (index : SearchIndex).
Abbreviation placeholder_search := (placeholder_search f64_add f64_sub f64_mul f64_cos f64_sin to_radians haversine_distance
  rtree_of nearest_neighbor_iter from_utf8 normalize_facet parse_f64 geo_within).
Abbreviation search_universe := (search_universe normalize_facet parse_f64 geo_within).
Abbreviation field_of name := (FieldsIdsMap.id name (the_fields index)).

(** What the index guarantees to a search. *)
Record search_index_ok : Prop := {
  search_filter_ok : filter_index_ok as_f64 normalize_facet geo_within known (filter_index index) fs;
  search_length t : (N.of_nat (length (facet_id_docids (facets_of t (facets (the_facets index))))) ≤ usize_max)%N;
  search_utf8 f d s : f ∈ fs → string_is as_f64 normalize_facet known f d s → ∃ text, from_utf8 s = Some text;
  search_distinct : classes (same_value (the_facets index) (distinct_fid index))
}.

(** The fields of the search are faceted, and no point is sorted by. *)
Definition fields_faceted (sort_criteria : option (list AscDesc)) : Prop :=
  geo_free sort_criteria ∧ ∀ name asc f, (name, asc) ∈ search_fields index sort_criteria → field_of name = Some f → f ∈ fs.

(** The documents that a search is about, and the order of its fields. *)
Definition selected (filters : option FilterCondition) (d : DocumentId) : Prop :=
  d ∈ Filter.documents_ids (filter_index index) ∧
  match filters with
  | Some condition => sat as_f64 normalize_facet parse_f64 geo_within known (filter_index index) d condition
  | None => True
  end.
Definition search_order (sort_criteria : option (list AscDesc)) : DocumentId → DocumentId → Prop :=
  comes_before ((λ p : string * bool, doc_better as_f64 normalize_facet known (field_of p.1) p.2) <$> search_fields index sort_criteria).

Hypothesis Hfloats : floats_ok as_f64.
Hypothesis Hparse : parse_f64_ok parse_f64.
Hypothesis Hok : search_index_ok.

Lemma universe_selected filters sort_criteria universe :
  search_universe filters index sort_criteria = Ok universe → ∀ d, d ∈ universe ↔ selected filters d.
Proof.
  unfold Search.search_universe, selected. intros Hu d. destruct filters as [condition|].
  - destruct (evaluate _ _ _ condition (filter_index index)) as [s| |] eqn:He; [|done..]. cbn in Hu.
    destruct (check_sort_criteria index sort_criteria); [|done..]. cbn in Hu. injection Hu as <-.
    exact (evaluate_correct _ _ _ _ known _ fs Hfloats Hparse (search_filter_ok Hok) condition s He d).
  - cbn in Hu. destruct (check_sort_criteria index sort_criteria); [|done..]. cbn in Hu. injection Hu as <-. naive_solver.
Qed.

Lemma boxed_grades sort_criteria :
  fields_faceted sort_criteria →
  Forall2 (grades (λ _ _, True)) ((λ p, boxed_sort from_utf8 index p.1 p.2) <$> search_fields index sort_criteria)
    ((λ p : string * bool, sort_better (the_facets index) (field_of p.1) p.2) <$> search_fields index sort_criteria).
Proof.
  intros [_ Hfs]. apply Forall2_fmap, Forall_Forall2_diag, Forall_forall. intros [name asc] Hin. cbn [fst snd].
  apply (sort_rule_grades FacetFailed from_utf8 (the_facets index) (sort_new (the_fields index) (displayed_fields index) name asc));
    [done| |done].
  intros f Hf. cbn in Hf. specialize (Hfs name asc f Hin Hf).
  apply (known_sortable as_f64 normalize_facet geo_within known (filter_index index) fs from_utf8 Hfloats (search_filter_ok Hok) f Hfs);
    [apply (search_length Hok)|]. intros d s. by apply (search_utf8 Hok).
Qed.

End answer.
