(* ===== verification/RankingDemo.v ===== *)
(** * A concrete ranking

    The theorems about searches applied to the database of [FacetDemo]: the documents 0 to 8
    and 20 to 28 have a letter from A to I, the document 50 has none. *)
From S2P Require Import Prelude Json FieldsIdsMap Obkv FacetDb FacetTree FacetSort FacetInsert FacetUpdate FacetF64 FacetExtract FacetIndex FacetDemo Distinct BucketSort RankingOrder ScoreDetails SortRule GeoSort Filter Criteria Search SearchSpec.
From S2P Require DocumentsIds Transform Settings Concrete.
Import DocumentsIds (DocumentId).
Import Transform (bitmap_iter).

Definition lettered : list DocumentId := [0; 1; 2; 3; 4; 5; 6; 7; 8; 20; 21; 22; 23; 24; 25; 26; 27; 28]%N.
Definition letter_of (d : DocumentId) : bytes := letter (N.to_nat (if (d <? 20)%N then d else d - 20)).
Definition shelf : FacetIndex :=
  mkIndex (mkFacets (mkStore letters ∅ ((λ d, (field, d, letter_of d, letter_of d)) <$> lettered)) empty_store ∅) ∅ ∅ ∅.

Definition ascii_from_utf8 (b : bytes) : option string := Some (String.string_of_list_ascii b).
(** From the last letter to the first one; every query fits. *)
Definition by_letter : @Sort FacetError unit := mkSortRule "letter" (Some field) false None None false.
Definition any_query (_ : unit) (_ : gset DocumentId) : Prop := True.
Definition shelf_rules : list (RankingRule FacetError unit ScoreDetails) := [sort_rule (λ e, e) ascii_from_utf8 shelf by_letter].
Definition asked : gset DocumentId := {[0; 4; 8; 20; 28; 50]}%N.

Lemma shelf_sortable : sortable ascii_from_utf8 shelf field.
Proof.
  split.
  - intros []; [apply letters_tree_ok|apply facet_ok_tree, facet_ok_empty].
  - intros []; [apply letters_length|done].
  - intros d b (v & Hv & _). by apply not_elem_of_nil in Hv.
  - intros d b _. by eexists.
Qed.

Lemma by_letter_lawful : Forall (lawful any_query) shelf_rules.
Proof.
  constructor; [|constructor]. eapply grades_lawful, sort_rule_grades; [done|intros f [= <-]; apply shelf_sortable|done].
Qed.

(** The documents with the same letter. *)
Lemma shelf_classes : classes (class shelf field).
Proof.
  assert (∀ d, d ∈ lettered ∨ class shelf field d = ∅) as Hall.
  { intros d. destruct (decide (d ∈ lettered)) as [|Hd]; [by left|right].
    unfold class, distinct_single_docid, facet_string_values, facet_values.
    replace (filter _ _) with ([] : list (FieldId * DocumentId * bytes * bytes)); [done|].
    destruct (filter _ _) as [|e l] eqn:Hf; [done|exfalso]. assert (e ∈ e :: l) as He by left. rewrite <- Hf in He.
    apply list_elem_of_filter in He as [He (d2 & -> & Hd2)%list_elem_of_fmap]. cbn in He. by injection He as ->. }
  assert (Forall (λ d, d ∈ class shelf field d ∧ Forall (λ d', class shelf field d' = class shelf field d) (elements (class shelf field d))) lettered) as Hin
    by (apply (bool_decide_unpack _); vm_compute; reflexivity).
  rewrite Forall_forall in Hin. split.
  - intros d d' Hd'. destruct (Hall d) as [Hd|Hd]; [|by rewrite Hd in Hd'].
    destruct (Hin d Hd) as [_ Hf]. rewrite Forall_forall in Hf. apply Hf. by apply elem_of_elements.
  - intros d. destruct (Hall d) as [Hd|Hd]; [left; by apply Hin|by right].
Qed.

(** One document for each letter, the last letter first; the page of two after the first. *)
Example search_page :
  docids <$> match bucket_sort shelf (Some field) 1 2 Detailed 100 shelf_rules tt asked with Some (Ok out) => Some out | _ => None end
    = Some [4%N; 0%N].
Proof. vm_compute. reflexivity. Qed.

(** The whole ranking has four documents; the theorem gives the page. *)
Lemma bucket_sort_spec_witness :
  ∃ ranking, sorts shelf (Some field) shelf_rules tt asked ranking ∧ kept (same_value shelf (Some field)) asked ranking.*1 ∧
    ∃ n, ∀ fuel, n ≤ fuel → ∃ out,
      bucket_sort shelf (Some field) 1 2 Detailed fuel shelf_rules tt asked = Some (Ok out) ∧
      result_ok (Some field) 1 2 Detailed asked out ranking.
Proof.
  apply (bucket_sort_spec shelf (Some field) 1 2 Detailed any_query shelf_rules tt asked).
  - apply by_letter_lawful.
  - exact I.
  - apply shelf_classes.
  - by left.
Defined.

Lemma distinct_page_starts_at_zero_witness :
  ∃ out : @BucketSortOutput ScoreDetails,
    bucket_sort (E := FacetError) shelf (Some field) 1 1 Detailed 0 [] tt asked = Some (Ok out) ∧ docids out = [0; 4]%N.
Proof.
  destruct (distinct_page_starts_at_zero (E := FacetError) (Score := ScoreDetails) shelf (Some field) 1 1 Detailed asked 0 tt field)
    as (out & Hout & Hdocs); [done|by vm_compute; lia|done|].
  exists out. split; [exact Hout|]. rewrite Hdocs. vm_compute. reflexivity.
Defined.

(** ** A search on the two documents of [FacetDemo] *)
Import Concrete FacetExtract.Demo.
#[local] Open Scope list_scope.

Definition library : SearchIndex :=
  mkSearchIndex Filter.Demo.index (Some [Settings.Sort; Settings.Desc "title"%string]) ["tags"%string] None None ∅.
Definition by_tags : option (list AscDesc) := Some [AscBy (Field "tags")].

Lemma library_ok : search_index_ok as_f64 ascii_from_utf8 normalize Filter.Demo.no_rtree two_known [tags] library.
Proof.
  split.
  - apply Filter.Demo.index_ok.
  - by intros []; vm_compute.
  - intros f d s _ _. by eexists.
  - split; [|by right]. intros d d' Hd. by apply not_elem_of_empty in Hd.
Qed.

Lemma library_faceted : fields_faceted [tags] library by_tags.
Proof.
  split; [intros c ->%list_elem_of_singleton; by eexists|].
  assert (search_fields library by_tags = [("tags", true); ("title", false)]%string) as -> by by vm_compute.
  intros name asc f Hin Hf. repeat (apply elem_of_cons in Hin as [[= -> ->]|Hin]); [..|by apply not_elem_of_nil in Hin].
  - vm_compute in Hf. injection Hf as <-. left.
  - by vm_compute in Hf.
Qed.

(** No distance is needed. *)
Definition no_op (x y : f64) : f64 := x.
Definition no_fun (x : f64) : f64 := x.
Definition by_latitude (p q : point) : f64 := q.1.
Definition no_tree (_ : FacetIndex) : option unit := None.
Definition no_neighbor (_ : unit) (_ : f64 * f64 * f64) : list (DocumentId * point) := [].


Lemma vector_search_spec_witness :
  ∃ res, vector_search {[0%N := 7%N; 1%N := 8%N; 2%N := 7%N]} [1%N; 2%N; 0%N] {[7%N; 8%N]} 1 3 = Ok res ∧ documents_ids res = [7%N].
Proof.
  destruct (vector_search_spec {[0%N := 7%N; 1%N := 8%N; 2%N := 7%N]} {[7%N; 8%N]} [1%N; 2%N; 0%N] [8%N; 7%N; 7%N] 1 3)
    as (res & Hres & Hdocs & _); [repeat constructor|done|].
  exists res. split; [exact Hres|]. rewrite Hdocs. vm_compute. reflexivity.
Defined.

(** ** Three places *)
Definition f64_of (n : Z) : f64 := (match n with 1 => 4607182418800017408 | 2 => 4611686018427387904 | _ => 4613937818241073152 end)%Z.
Definition encoded (n : Z) : bytes := default [] (OrderedF64Codec.bytes_encode (f64_of n)).
Definition place (d : DocumentId) (lat : Z) : list (FieldId * DocumentId * bytes * bytes) :=
  [(0%N, d, encoded lat, []); (1%N, d, encoded 1, [])].
Definition places : FacetIndex :=
  mkIndex (mkFacets empty_store (mkStore [] ∅ (place 1 2 ++ place 2 3 ++ place 3 1)) ∅) ∅ ∅ ∅.
Definition place_fields : FieldsIdsMap :=
  mkFieldsIdsMap {["_geo.lat"%string := 0%N; "_geo.lng"%string := 1%N]} {[0%N := "_geo.lat"%string; 1%N := "_geo.lng"%string]} (Some 2%N).

Definition near : @GeoSortRule unit unit := geo_new default_strategy {[1%N; 2%N; 3%N]} (f64_of 1, f64_of 1) true.
Abbreviation start_near := (geo_start_iteration (E := unit) no_op no_op no_op no_fun no_fun no_fun by_latitude no_tree no_neighbor tt place_fields places).
Abbreviation buckets_near := (geo_buckets (E := unit) no_op no_op no_op no_fun no_fun no_fun by_latitude no_tree no_neighbor tt).
Abbreviation next_near := (geo_next_bucket (E := unit) no_op no_op no_op no_fun no_fun no_fun by_latitude no_tree no_neighbor tt places).

Lemma geo_sort_order_witness :
  ∃ g1 order, start_near {[1%N; 2%N; 3%N; 4%N]} tt near = Ok g1 ∧ order ≡ₚ [(1%N, (f64_of 2, f64_of 1)); (2%N, (f64_of 3, f64_of 1)); (3%N, (f64_of 1, f64_of 1))] ∧
    buckets_near (length order + 1) places {[1%N; 2%N; 3%N; 4%N]} g1 =
      Ok (((λ p, ({[p.1]}, geo_score near (Some p.2))) <$> order) ++ [({[1%N; 2%N; 3%N; 4%N]} ∖ geo_candidates near, geo_score near None)]).
Proof.
  destruct (geo_sort_order (E := unit) no_op no_op no_op no_fun no_fun no_fun by_latitude no_tree no_neighbor tt place_fields places
    {[1%N; 2%N; 3%N; 4%N]} tt near 0%N 1%N [(1%N, (f64_of 2, f64_of 1)); (2%N, (f64_of 3, f64_of 1)); (3%N, (f64_of 1, f64_of 1))])
    as (g1 & order & Hstart & Hperm & _ & Hrun); [done..|by vm_compute|by vm_compute|].
  exists g1, order. exact (conj Hstart (conj Hperm Hrun)).
Defined.

(** After the document 1, the documents 2 and 3 are in one bucket. *)
Definition near_again : @GeoSortRule unit unit := match start_near {[1%N]} tt near with Ok g => g | _ => near end.
Definition near_other : @GeoSortRule unit unit := match start_near {[2%N; 3%N]} tt (geo_end_iteration near_again) with Ok g => g | _ => near end.

Lemma geo_sort_forgets_witness :
  ∃ g4, next_near {[2%N; 3%N]} near_other = Ok (Some (mkOutput tt {[2%N; 3%N]} (geo_score near_other None)), g4).
Proof.
  apply (geo_sort_forgets (E := unit) no_op no_op no_op no_fun no_fun no_fun by_latitude no_tree no_neighbor tt place_fields places
    {[1%N]} {[2%N; 3%N]} tt tt near near_again near_again near_other).
  - vm_compute. reflexivity.
  - constructor.
  - set_solver.
  - vm_compute. reflexivity.
Defined.
