(* ===== verification/SmallBitmap.v ===== *)
(** * Small bitmaps (milli/src/search/new/small_bitmap.rs)

    The sets of nodes, edges and conditions of a search graph: one word of 64 bits when the
    universe has at most 64 elements, and an array of words otherwise.  The indexes are [u16].
    A bitmap refines a finite set of indexes below the length of its universe. *)
From S2P Require Import Prelude.
#[local] Open Scope N_scope.

(** ** The code *)
Inductive SmallBitmapInternal :=
| Tiny (set : N)
| Small (sets : list N).
Abbreviation SmallBitmap := SmallBitmapInternal.

Definition wrap16 (n : N) : N := n `mod` 65536.

(** [SmallBitmap::new], and the constructor of [SmallBitmapInternal] that [from_iter] uses. *)
Definition new (universe_length : N) : SmallBitmap :=
  if universe_length <=? 64 then Tiny 0
  else Small (replicate (N.to_nat (1 + (universe_length - 1) / 64)) 0).
Definition internal_new (universe_length : N) : SmallBitmapInternal :=
  if universe_length <=? 64 then Tiny 0
  else Small (replicate (N.to_nat (1 + universe_length / 64)) 0).

Definition is_empty (self : SmallBitmap) : bool :=
  match self with
  | Tiny set => set =? 0
  | Small sets => forallb (λ set, set =? 0) sets
  end.

Definition clear (self : SmallBitmap) : SmallBitmap :=
  match self with
  | Tiny _ => Tiny 0
  | Small sets => Small ((λ _, 0) <$> sets)
  end.

Definition universe_length (self : SmallBitmap) : N :=
  match self with
  | Tiny _ => 64
  | Small xs => wrap16 (64 * wrap16 (N.of_nat (length xs)))
  end.

Section ops.
Context {E : Type}.

(** [get_set_index]: the word of an index, and the index in the word. *)
Definition get_set_index (self : SmallBitmap) (x : N) : outcome E (N * N) :=
  match self with
  | Tiny set => if x <? 64 then Ok (set, x) else Panic "index out of bounds"
  | Small sets =>
      match sets !! N.to_nat (x / 64) with
      | Some set => Ok (set, x `mod` 64)
      | None => Panic "index out of bounds"
      end
  end.

(** A change of the word that [get_set_index_mut] gives. *)
Definition with_set_index (self : SmallBitmap) (x : N) (f : N → N → N) : outcome E SmallBitmap :=
  '(set, i) ← get_set_index self x;
  Ok (match self with
      | Tiny _ => Tiny (f set i)
      | Small sets => Small (<[N.to_nat (x / 64) := f set i]> sets)
      end).

Definition u64_not (b : N) : N := N.lnot b 64.

Definition contains (self : SmallBitmap) (x : N) : outcome E bool :=
  '(set, i) ← get_set_index self x;
  Ok (negb (N.land set (N.shiftl 1 i) =? 0)).
Definition insert (self : SmallBitmap) (x : N) : outcome E SmallBitmap :=
  with_set_index self x (λ set i, N.lor set (N.shiftl 1 i)).
Definition remove (self : SmallBitmap) (x : N) : outcome E SmallBitmap :=
  with_set_index self x (λ set i, N.land set (u64_not (N.shiftl 1 i))).

Fixpoint insert_all (xs : list N) (self : SmallBitmap) : outcome E SmallBitmap :=
  match xs with
  | [] => Ok self
  | x :: xs => self ← insert self x; insert_all xs self
  end.
Definition from_iter (xs : list N) (universe_length : N) : outcome E SmallBitmap := insert_all xs (internal_new universe_length).

Definition apply_op (self other : SmallBitmap) (op : N → N → N) : outcome E SmallBitmap :=
  match self, other with
  | Tiny a, Tiny b => Ok (Tiny (op a b))
  | Small a, Small b => if (length a =? length b)%nat then Ok (Small (zip_with op a b)) else Panic "universe length mismatch"
  | _, _ => Panic "universe length mismatch"
  end.
Definition intersection (self other : SmallBitmap) := apply_op self other (λ a b, N.land a b).
Definition union (self other : SmallBitmap) := apply_op self other (λ a b, N.lor a b).
Definition subtract (self other : SmallBitmap) := apply_op self other (λ a b, N.land a (u64_not b)).

Definition all_satisfy_op (self other : SmallBitmap) (op : N → N → bool) : outcome E bool :=
  match self, other with
  | Tiny a, Tiny b => Ok (op a b)
  | Small a, Small b =>
      if (length a =? length b)%nat then Ok (forallb (λ ab, op ab.1 ab.2) (zip a b)) else Panic "universe length mismatch"
  | _, _ => Panic "universe length mismatch"
  end.
Definition any_satisfy_op (self other : SmallBitmap) (op : N → N → bool) : outcome E bool :=
  match self, other with
  | Tiny a, Tiny b => Ok (op a b)
  | Small a, Small b =>
      if (length a =? length b)%nat then Ok (existsb (λ ab, op ab.1 ab.2) (zip a b)) else Panic "universe length mismatch"
  | _, _ => Panic "universe length mismatch"
  end.
Definition is_subset (self other : SmallBitmap) := all_satisfy_op self other (λ a b, N.land a (u64_not b) =? 0).
Definition intersects (self other : SmallBitmap) := any_satisfy_op self other (λ a b, negb (N.land a b =? 0)).
End ops.

(** [u64::trailing_zeros] of a number that is not zero. *)
Fixpoint trailing_zeros_pos (p : positive) : N :=
  match p with xO p => N.succ (trailing_zeros_pos p) | _ => 0 end.
Definition trailing_zeros (set : N) : N := match set with 0 => 64 | Npos p => trailing_zeros_pos p end.

(** The iterators. *)
Inductive SmallBitmapIter :=
| TinyIter (set : N)
| SmallIter (cur : N) (next : list N) (base : N).

Definition iter (self : SmallBitmap) : SmallBitmapIter :=
  match self with
  | Tiny x => TinyIter x
  | Small xs => SmallIter (hd 0 xs) (tail xs) 0
  end.

Fixpoint small_next (cur : N) (next : list N) (base : N) : option (N * SmallBitmapIter) :=
  if 0 <? cur then
    Some (wrap16 (trailing_zeros cur + base), SmallIter (N.land cur (cur - 1)) next base)
  else
    match next with
    | [] => None
    | set :: next => small_next set next (wrap16 (base + 64))
    end.

Definition iter_next (self : SmallBitmapIter) : option (N * SmallBitmapIter) :=
  match self with
  | TinyIter set => if 0 <? set then Some (trailing_zeros set, TinyIter (N.land set (set - 1))) else None
  | SmallIter cur next base => small_next cur next base
  end.

Fixpoint collect (fuel : nat) (self : SmallBitmapIter) : list N :=
  match fuel with
  | O => []
  | S fuel => match iter_next self with Some (x, self) => x :: collect fuel self | None => [] end
  end.

(** ** Bits *)
Lemma bits_high w j : w < 2 ^ 64 → 64 ≤ j → N.testbit w j = false.
Proof. intros Hw Hj. rewrite <- (N.mod_small w (2 ^ 64)) by done. by apply N.mod_pow2_bits_high. Qed.

Lemma bits_low w : (∀ j, 64 ≤ j → N.testbit w j = false) → w < 2 ^ 64.
Proof.
  intros Hw. assert (w = w `mod` 2 ^ 64) as ->; [|by apply N.mod_lt]. apply N.bits_inj. intros j.
  destruct (N.le_gt_cases 64 j); [by rewrite N.mod_pow2_bits_high, Hw|by rewrite N.mod_pow2_bits_low].
Qed.

Lemma shiftl_bits i j : N.testbit (N.shiftl 1 i) j = (i =? j).
Proof. rewrite N.shiftl_1_l. apply N.pow2_bits_eqb. Qed.

Lemma land_not_bits a b j : a < 2 ^ 64 → N.testbit (N.land a (u64_not b)) j = N.testbit a j && negb (N.testbit b j).
Proof.
  intros Ha. rewrite N.land_spec. unfold u64_not. destruct (N.le_gt_cases 64 j).
  - by rewrite (bits_high a j) by done.
  - by rewrite N.lnot_spec_low.
Qed.

Lemma zero_bits w : w = 0 ↔ ∀ j, N.testbit w j = false.
Proof. split; [intros ->; apply N.bits_0|]. intros H. apply N.bits_inj. intros j. by rewrite H, N.bits_0. Qed.

Lemma land_single w i : (N.land w (N.shiftl 1 i) =? 0) = negb (N.testbit w i).
Proof.
  apply eq_true_iff_eq. rewrite N.eqb_eq, negb_true_iff, zero_bits. setoid_rewrite N.land_spec. setoid_rewrite shiftl_bits. split.
  - intros H. specialize (H i). by rewrite N.eqb_refl, andb_true_r in H.
  - intros H j. destruct (N.eqb_spec i j) as [<-|]; [by rewrite H|by rewrite andb_false_r].
Qed.

(** The lowest bit. *)
Lemma lowest_bit p :
  let w := Npos p in
  N.testbit w (trailing_zeros w) = true ∧ (∀ j, j < trailing_zeros w → N.testbit w j = false) ∧
  ∀ j, N.testbit (N.land w (w - 1)) j = N.testbit w j && negb (j =? trailing_zeros w).
Proof.
  cbv zeta. induction p as [p IH|p IH|]; cbn [trailing_zeros trailing_zeros_pos] in *.
  - split_and!; [done|lia|]. intros j. replace (N.pos p~1 - 1) with (2 * Npos p) by lia.
    change (N.pos p~1) with (2 * Npos p + 1). rewrite N.land_spec. destruct (N.eqb_spec j 0) as [->|Hj].
    + cbn [negb]. by rewrite N.testbit_even_0, !andb_false_r.
    + replace j with (N.succ (N.pred j)) by lia. rewrite N.testbit_odd_succ, N.testbit_even_succ by lia. by rewrite andb_diag, andb_true_r.
  - destruct IH as (H1 & H2 & H3). change (N.pos p~0) with (2 * Npos p). split_and!.
    + by rewrite N.testbit_even_succ by lia.
    + intros j Hj. destruct (N.eqb_spec j 0) as [->|]; [apply N.testbit_even_0|].
      replace j with (N.succ (N.pred j)) by lia. rewrite N.testbit_even_succ by lia. apply H2. lia.
    + intros j. replace (2 * N.pos p - 1) with (2 * (N.pos p - 1) + 1) by lia. rewrite N.land_spec.
      destruct (N.eqb_spec j 0) as [->|]; [by rewrite N.testbit_even_0|].
      replace j with (N.succ (N.pred j)) by lia. rewrite N.testbit_even_succ, N.testbit_odd_succ, <- N.land_spec, H3 by lia.
      f_equal. f_equal. apply eq_true_iff_eq. rewrite !N.eqb_eq. lia.
  - split_and!; [done|lia|]. intros j. change (N.land 1 (1 - 1)) with 0. rewrite N.bits_0.
    destruct (N.eqb_spec j 0) as [->|]; [done|]. rewrite andb_true_r. symmetry. apply (N.pow2_bits_false 0). lia.
Qed.

(** ** Sets *)
Definition words (b : SmallBitmap) : list N := match b with Tiny s => [s] | Small l => l end.
Definition capacity (b : SmallBitmap) : N := 64 * N.of_nat (length (words b)).
Definition shape (b : SmallBitmap) : option nat := match b with Tiny _ => None | Small l => Some (length l) end.
Definition member (b : SmallBitmap) (x : N) : Prop :=
  ∃ w, words b !! N.to_nat (x / 64) = Some w ∧ N.testbit w (x `mod` 64) = true.

Record denotes (b : SmallBitmap) (X : gset N) : Prop := {
  denotes_words : Forall (λ w, w < 2 ^ 64) (words b);
  denotes_members x : x ∈ X ↔ member b x
}.

Lemma word_index b x : x < capacity b → ∃ w, words b !! N.to_nat (x / 64) = Some w.
Proof.
  unfold capacity. intros Hx. apply lookup_lt_is_Some. assert (x / 64 < N.of_nat (length (words b))); [|lia].
  apply N.Div0.div_lt_upper_bound. lia.
Qed.

Lemma word_none b x : capacity b ≤ x → words b !! N.to_nat (x / 64) = None.
Proof.
  unfold capacity. intros Hx. apply lookup_ge_None. assert (N.of_nat (length (words b)) ≤ x / 64); [|lia].
  apply N.div_le_lower_bound; lia.
Qed.

Lemma get_set_index_spec {E} b x :
  get_set_index (E := E) b x =
    match words b !! N.to_nat (x / 64) with Some w => Ok (w, x `mod` 64) | None => Panic "index out of bounds" end.
Proof.
  destruct b as [s|l]; cbn; [|done]. destruct (N.ltb_spec x 64).
  - by rewrite N.div_small, N.mod_small.
  - rewrite (lookup_ge_None_2 [s]); [done|]. cbn. assert (1 ≤ x / 64) by (apply N.div_le_lower_bound; lia). lia.
Qed.

Lemma get_set_index_panics {E} b x : capacity b ≤ x → get_set_index (E := E) b x = Panic "index out of bounds".
Proof. intros Hx. by rewrite get_set_index_spec, word_none. Qed.

Lemma same_index x y : x = y ↔ N.to_nat (x / 64) = N.to_nat (y / 64) ∧ x `mod` 64 = y `mod` 64.
Proof.
  split; [by intros ->|]. intros [Hd Hm]. apply N2Nat.inj in Hd.
  rewrite (N.div_mod x 64), (N.div_mod y 64) by done. by rewrite Hd, Hm.
Qed.

Lemma with_set_index_spec {E} b x f : x < capacity b →
  ∃ w b', words b !! N.to_nat (x / 64) = Some w ∧ with_set_index (E := E) b x f = Ok b' ∧
    words b' = <[N.to_nat (x / 64) := f w (x `mod` 64)]> (words b) ∧ shape b' = shape b.
Proof.
  intros Hx. destruct (word_index b x Hx) as [w Hw]. unfold with_set_index. rewrite get_set_index_spec, Hw. cbn.
  exists w. eexists. split_and!; [done..| |]; destruct b as [s|l]; cbn in *; try done.
  - by destruct (N.to_nat (x / 64)).
  - by rewrite length_insert.
Qed.

(** A change of one bit. *)
Lemma with_set_index_denotes {E} b x f (X Y : gset N) :
  denotes b X → x < capacity b →
  (∀ w i, w < 2 ^ 64 → i < 64 → f w i < 2 ^ 64) →
  (∀ w y, w < 2 ^ 64 → y `mod` 64 ≠ x `mod` 64 → N.testbit (f w (x `mod` 64)) (y `mod` 64) = N.testbit w (y `mod` 64)) →
  (∀ w, w < 2 ^ 64 → N.testbit (f w (x `mod` 64)) (x `mod` 64) = true ↔ x ∈ Y) →
  (∀ y, y ≠ x → y ∈ Y ↔ y ∈ X) →
  ∃ b', with_set_index (E := E) b x f = Ok b' ∧ denotes b' Y ∧ shape b' = shape b.
Proof.
  intros [Hw Hm] Hx Hlt Hother Hself HY. destruct (with_set_index_spec (E := E) b x f Hx) as (w & b' & Hlook & Hok & Hwords & Hsh).
  exists b'. split_and!; [done| |done]. pose proof (Forall_lookup_1 _ _ _ _ Hw Hlook) as Hwlt. cbn in Hwlt.
  assert (x `mod` 64 < 64) as Hi by by apply N.mod_lt.
  pose proof (lookup_lt_Some _ _ _ Hlook) as Hlen. split.
  - rewrite Hwords. apply Forall_insert; [done|by apply Hlt].
  - intros y. destruct (decide (N.to_nat (y / 64) = N.to_nat (x / 64))) as [Hq|Hq].
    + assert (member b' y ↔ N.testbit (f w (x `mod` 64)) (y `mod` 64) = true) as ->.
      { unfold member. rewrite Hwords, Hq, list_lookup_insert_eq by done. naive_solver. }
      destruct (decide (y `mod` 64 = x `mod` 64)) as [Hr|Hr].
      * assert (y = x) as -> by by apply same_index. by rewrite Hself.
      * rewrite Hother by done. rewrite HY, Hm by (intros ->; done). unfold member. rewrite Hq, Hlook. naive_solver.
    + rewrite HY, Hm by (intros ->; done). unfold member. by rewrite Hwords, list_lookup_insert_ne by done.
Qed.

Lemma bitmap_insert {E} b (X : gset N) x :
  denotes b X → x < capacity b → ∃ b', insert (E := E) b x = Ok b' ∧ denotes b' ({[x]} ∪ X) ∧ shape b' = shape b.
Proof.
  intros HX Hx. apply (with_set_index_denotes b x _ X); [done..| | | |set_solver].
  - intros w i Hw Hi. apply bits_low. intros j Hj. rewrite N.lor_spec, shiftl_bits, bits_high by done.
    by destruct (N.eqb_spec i j); [lia|].
  - intros w y Hw Hne. rewrite N.lor_spec, shiftl_bits. destruct (N.eqb_spec (x `mod` 64) (y `mod` 64)); [done|by rewrite orb_false_r].
  - intros w Hw. rewrite N.lor_spec, shiftl_bits, N.eqb_refl, orb_true_r. set_solver.
Qed.

Lemma bitmap_remove {E} b (X : gset N) x :
  denotes b X → x < capacity b → ∃ b', remove (E := E) b x = Ok b' ∧ denotes b' (X ∖ {[x]}) ∧ shape b' = shape b.
Proof.
  intros HX Hx. apply (with_set_index_denotes b x _ X); [done..| | | |set_solver].
  - intros w i Hw Hi. apply bits_low. intros j Hj. by rewrite land_not_bits, bits_high.
  - intros w y Hw Hne. rewrite land_not_bits, shiftl_bits by done. destruct (N.eqb_spec (x `mod` 64) (y `mod` 64)); [done|by rewrite andb_true_r].
  - intros w Hw. rewrite land_not_bits, shiftl_bits, N.eqb_refl, andb_false_r by done. set_solver.
Qed.

Lemma bitmap_contains {E} b (X : gset N) x :
  denotes b X → x < capacity b → contains (E := E) b x = Ok (bool_decide (x ∈ X)).
Proof.
  intros [Hw Hm] Hx. destruct (word_index b x Hx) as [w Hlook]. unfold contains. rewrite get_set_index_spec, Hlook. cbn.
  rewrite land_single, negb_involutive. f_equal. apply eq_true_iff_eq. rewrite bool_decide_eq_true, Hm. unfold member.
  rewrite Hlook. naive_solver.
Qed.

(** *** Two bitmaps *)
Lemma apply_op_spec {E} a b (X Y Z : gset N) op :
  denotes a X → denotes b Y → shape a = shape b →
  (∀ v w, v < 2 ^ 64 → w < 2 ^ 64 → op v w < 2 ^ 64) →
  (∀ x v w, v < 2 ^ 64 → N.testbit v (x `mod` 64) = bool_decide (x ∈ X) → N.testbit w (x `mod` 64) = bool_decide (x ∈ Y) →
    N.testbit (op v w) (x `mod` 64) = bool_decide (x ∈ Z)) → Z ⊆ X ∪ Y →
  ∃ c, apply_op (E := E) a b op = Ok c ∧ denotes c Z ∧ shape c = shape a.
Proof.
  intros [Ha HX] [Hb HY] Hsh Hlt Hop HZ.
  assert (length (words a) = length (words b)) as Hlen by (destruct a, b; cbn in *; congruence).
  assert (∃ c, apply_op (E := E) a b op = Ok c ∧ words c = zip_with op (words a) (words b) ∧ shape c = shape a) as (c & Hok & Hc & Hshc).
  { destruct a as [s|l], b as [s'|l']; cbn in *; try done; [by eexists|]. rewrite (proj2 (Nat.eqb_eq _ _)) by done.
    eexists. split_and!; [done..|]. cbn. rewrite length_zip_with. f_equal. lia. }
  exists c. split_and!; [done| |done]. split.
  - rewrite Hc. apply Forall_lookup. intros i w. rewrite lookup_zip_with_Some. intros (v & v' & -> & Hv & Hv').
    apply Hlt; [exact (Forall_lookup_1 _ _ _ _ Ha Hv)|exact (Forall_lookup_1 _ _ _ _ Hb Hv')].
  - intros x. unfold member. rewrite Hc.
    destruct (words a !! N.to_nat (x / 64)) as [v|] eqn:Hv.
    + destruct (lookup_lt_is_Some_2 (words b) (N.to_nat (x / 64))) as [w Hw].
      { rewrite <- Hlen. by eapply lookup_lt_Some. }
      rewrite lookup_zip_with, Hv. cbn. rewrite Hw. cbn.
      assert (N.testbit v (x `mod` 64) = bool_decide (x ∈ X)) as HvX.
      { apply eq_true_iff_eq. rewrite bool_decide_eq_true, HX. unfold member. rewrite Hv. naive_solver. }
      assert (N.testbit w (x `mod` 64) = bool_decide (x ∈ Y)) as HwY.
      { apply eq_true_iff_eq. rewrite bool_decide_eq_true, HY. unfold member. rewrite Hw. naive_solver. }
      pose proof (Forall_lookup_1 _ _ _ _ Ha Hv) as Hvlt. specialize (Hop x v w Hvlt HvX HwY).
      rewrite <- (bool_decide_eq_true (x ∈ Z)), <- Hop. naive_solver.
    + rewrite lookup_zip_with, Hv. cbn. split; [|naive_solver]. intros Hx%HZ%elem_of_union. exfalso.
      destruct Hx as [Hx%HX|Hx%HY]; destruct Hx as (w & Hw & _); [congruence|].
      apply lookup_ge_None in Hv. apply lookup_lt_Some in Hw. lia.
Qed.

Lemma union_spec {E} a b (X Y : gset N) :
  denotes a X → denotes b Y → shape a = shape b → ∃ c, union (E := E) a b = Ok c ∧ denotes c (X ∪ Y) ∧ shape c = shape a.
Proof.
  intros HX HY Hsh. apply (apply_op_spec a b X Y); try done.
  - intros v w Hv Hw. apply bits_low. intros j Hj. by rewrite N.lor_spec, !bits_high.
  - intros x v w _ Hv Hw. rewrite N.lor_spec, Hv, Hw, <- bool_decide_or. apply bool_decide_ext. set_solver.
Qed.

Lemma intersection_spec {E} a b (X Y : gset N) :
  denotes a X → denotes b Y → shape a = shape b → ∃ c, intersection (E := E) a b = Ok c ∧ denotes c (X ∩ Y) ∧ shape c = shape a.
Proof.
  intros HX HY Hsh. apply (apply_op_spec a b X Y); try done; [| |set_solver].
  - intros v w Hv Hw. apply bits_low. intros j Hj. by rewrite N.land_spec, !bits_high.
  - intros x v w _ Hv Hw. rewrite N.land_spec, Hv, Hw, <- bool_decide_and. apply bool_decide_ext. set_solver.
Qed.

Lemma subtract_spec {E} a b (X Y : gset N) :
  denotes a X → denotes b Y → shape a = shape b → ∃ c, subtract (E := E) a b = Ok c ∧ denotes c (X ∖ Y) ∧ shape c = shape a.
Proof.
  intros HX HY Hsh. apply (apply_op_spec a b X Y); try done; [| |set_solver].
  - intros v w Hv Hw. apply bits_low. intros j Hj. by rewrite land_not_bits, (bits_high v).
  - intros x v w Hlt Hv Hw. rewrite land_not_bits, Hv, Hw, <- bool_decide_not, <- bool_decide_and by done. apply bool_decide_ext. set_solver.
Qed.

(** The words of two bitmaps of the same shape. *)
Lemma same_words a b : shape a = shape b → length (words a) = length (words b).
Proof. destruct a, b; cbn; congruence. Qed.

Lemma bit_index x : ∃ i j, N.to_nat (x / 64) = i ∧ x `mod` 64 = j ∧ j < 64 ∧ x = 64 * N.of_nat i + j.
Proof. exists (N.to_nat (x / 64)), (x `mod` 64). split_and!; [done..|by apply N.mod_lt|]. rewrite N2Nat.id. by apply N.div_mod. Qed.

Lemma index_bit i j : j < 64 → N.to_nat ((64 * N.of_nat i + j) / 64) = i ∧ (64 * N.of_nat i + j) `mod` 64 = j.
Proof.
  intros Hj. assert ((64 * N.of_nat i + j) / 64 = N.of_nat i) as Hd by (symmetry; by apply (N.div_unique _ 64 _ j)).
  split; [by rewrite Hd, Nat2N.id|]. symmetry. by apply (N.mod_unique _ 64 (N.of_nat i)).
Qed.

(** Every bit of every pair of words. *)
Lemma no_bits_spec a b (X Y : gset N) (P : N → N → N) (Q : bool → bool → bool) :
  denotes a X → denotes b Y → shape a = shape b →
  (∀ v w j, v < 2 ^ 64 → N.testbit (P v w) j = Q (N.testbit v j) (N.testbit w j)) → Q false false = false →
  forallb (λ vw, P vw.1 vw.2 =? 0) (zip (words a) (words b)) = true ↔ ∀ x, Q (bool_decide (x ∈ X)) (bool_decide (x ∈ Y)) = false.
Proof.
  intros [Ha HX] [Hb HY] Hsh HP HQ. pose proof (same_words a b Hsh) as Hlen. rewrite forallb_true. split.
  - intros Hall x. destruct (words a !! N.to_nat (x / 64)) as [v|] eqn:Hv.
    + destruct (lookup_lt_is_Some_2 (words b) (N.to_nat (x / 64))) as [w Hw]; [rewrite <- Hlen; by eapply lookup_lt_Some|].
      assert (P v w = 0) as Hz.
      { apply N.eqb_eq, (Hall (v, w)), (list_elem_of_lookup_2 _ (N.to_nat (x / 64))). rewrite lookup_zip_with, Hv. cbn. by rewrite Hw. }
      rewrite zero_bits in Hz. specialize (Hz (x `mod` 64)). rewrite HP in Hz by apply (Forall_lookup_1 _ _ _ _ Ha Hv). rewrite <- Hz. f_equal; apply eq_true_iff_eq; rewrite bool_decide_eq_true.
      * rewrite HX. unfold member. rewrite Hv. naive_solver.
      * rewrite HY. unfold member. rewrite Hw. naive_solver.
    + rewrite !bool_decide_eq_false_2; [done|..].
      * rewrite HY. intros (w & Hw & _). apply lookup_ge_None in Hv. apply lookup_lt_Some in Hw. lia.
      * rewrite HX. intros (w & Hw & _). congruence.
  - intros Hall [v w] (i & Hi)%list_elem_of_lookup. rewrite lookup_zip_with_Some in Hi. destruct Hi as (v' & w' & [= <- <-] & Hv & Hw).
    pose proof (Forall_lookup_1 _ _ _ _ Ha Hv) as Hvlt. pose proof (Forall_lookup_1 _ _ _ _ Hb Hw) as Hwlt. cbn in *.
    apply N.eqb_eq, zero_bits. intros j. rewrite HP by done. destruct (N.le_gt_cases 64 j) as [Hj|Hj].
    { by rewrite !bits_high. }
    destruct (index_bit i j Hj) as [Hi Hm]. rewrite <- (Hall (64 * N.of_nat i + j)). f_equal; apply eq_true_iff_eq; rewrite bool_decide_eq_true.
    + rewrite HX. unfold member. rewrite Hi, Hm, Hv. naive_solver.
    + rewrite HY. unfold member. rewrite Hi, Hm, Hw. naive_solver.
Qed.

Lemma is_subset_spec {E} a b (X Y : gset N) :
  denotes a X → denotes b Y → shape a = shape b → is_subset (E := E) a b = Ok (bool_decide (X ⊆ Y)).
Proof.
  intros HX HY Hsh. pose proof (no_bits_spec a b X Y (λ v w, N.land v (u64_not w)) (λ p q, p && negb q) HX HY Hsh) as Hs.
  assert (is_subset (E := E) a b = Ok (forallb (λ vw, N.land vw.1 (u64_not vw.2) =? 0) (zip (words a) (words b)))) as ->.
  { destruct a, b; cbn in *; try done; [by rewrite andb_true_r|]. rewrite (proj2 (Nat.eqb_eq _ _)) by congruence. done. }
  f_equal. apply eq_true_iff_eq. rewrite Hs by (done || intros; by apply land_not_bits). rewrite bool_decide_eq_true. split.
  - intros H x Hx. specialize (H x). rewrite bool_decide_eq_true_2 in H by done. by case_bool_decide.
  - intros H x. repeat case_bool_decide; cbn; try done. set_solver.
Qed.

Lemma intersects_spec {E} a b (X Y : gset N) :
  denotes a X → denotes b Y → shape a = shape b → intersects (E := E) a b = Ok (negb (bool_decide (X ∩ Y = ∅))).
Proof.
  intros HX HY Hsh. pose proof (no_bits_spec a b X Y (λ v w, N.land v w) (λ p q, p && q) HX HY Hsh) as Hs.
  assert (intersects (E := E) a b = Ok (negb (forallb (λ vw, N.land vw.1 vw.2 =? 0) (zip (words a) (words b))))) as ->.
  { assert (∀ l : list (N * N), existsb (λ ab, negb (N.land ab.1 ab.2 =? 0)) l = negb (forallb (λ ab, N.land ab.1 ab.2 =? 0) l)) as Hex.
    { induction l as [|ab l IH]; [done|]. cbn. by rewrite IH, negb_andb. }
    destruct a, b; cbn in *; try done; [by rewrite andb_true_r|]. rewrite (proj2 (Nat.eqb_eq _ _)) by congruence. by rewrite Hex. }
  f_equal. f_equal. apply eq_true_iff_eq. rewrite Hs by (done || intros; apply N.land_spec). rewrite bool_decide_eq_true. split.
  - intros H. apply set_eq. intros x. specialize (H x). repeat case_bool_decide; set_solver.
  - intros H x. repeat case_bool_decide; cbn; try done. set_solver.
Qed.

Lemma is_empty_spec b (X : gset N) : denotes b X → is_empty b = bool_decide (X = ∅).
Proof.
  intros [Hw HX]. assert (is_empty b = forallb (λ w, w =? 0) (words b)) as -> by (destruct b; cbn; [by rewrite andb_true_r|done]).
  apply eq_true_iff_eq. rewrite bool_decide_eq_true, forallb_true. split.
  - intros Hall. apply set_eq. intros x. split; [|set_solver]. intros (w & Hl & Hb)%HX.
    rewrite (proj1 (N.eqb_eq w 0)) in Hb; [by rewrite N.bits_0 in Hb|]. by eapply Hall, list_elem_of_lookup_2.
  - intros -> w (i & Hi)%list_elem_of_lookup. apply N.eqb_eq, zero_bits. intros j. destruct (N.le_gt_cases 64 j) as [Hj|Hj].
    { apply bits_high; [|done]. by apply (Forall_lookup_1 _ _ _ _ Hw Hi). }
    destruct (index_bit i j Hj) as [H1 H2]. apply not_true_iff_false. intros Hb. apply (not_elem_of_empty (C := gset N) (64 * N.of_nat i + j)).
    apply HX. exists w. by rewrite H1, H2.
Qed.

Lemma zero_words b : (∀ w, w ∈ words b → w = 0) → denotes b ∅.
Proof.
  intros Hz. split; [apply Forall_forall; intros w Hw; by rewrite (Hz w Hw)|]. intros x. split; [set_solver|].
  intros (w & Hl & Hb). by rewrite (Hz w), N.bits_0 in Hb by by eapply list_elem_of_lookup_2.
Qed.

Lemma clear_spec b : denotes (clear b) ∅ ∧ shape (clear b) = shape b.
Proof.
  split; [|destruct b; cbn; [done|by rewrite length_fmap]]. apply zero_words. destruct b; cbn.
  - by intros w ->%list_elem_of_singleton.
  - by intros w (_ & -> & _)%list_elem_of_fmap.
Qed.

Lemma new_spec len : denotes (new len) ∅ ∧ len ≤ capacity (new len) < len + 64 + 64.
Proof.
  unfold new, capacity. destruct (N.leb_spec len 64); cbn [words length].
  - split; [by apply zero_words; intros w ->%list_elem_of_singleton|lia].
  - split; [apply zero_words; cbn; intros w Hw; by apply elem_of_replicate_inv in Hw|].
    rewrite length_replicate, N2Nat.id. pose proof (N.div_mod (len - 1) 64 ltac:(done)). pose proof (N.mod_lt (len - 1) 64 ltac:(done)).
    generalize dependent ((len - 1) `mod` 64). generalize ((len - 1) / 64). intros. lia.
Qed.

Lemma internal_new_spec len : denotes (internal_new len) ∅ ∧ len ≤ capacity (internal_new len).
Proof.
  unfold internal_new, capacity. destruct (N.leb_spec len 64); cbn [words length].
  - split; [by apply zero_words; intros w ->%list_elem_of_singleton|lia].
  - split; [apply zero_words; cbn; intros w Hw; by apply elem_of_replicate_inv in Hw|].
    rewrite length_replicate, N2Nat.id. pose proof (N.div_mod len 64 ltac:(done)). pose proof (N.mod_lt len 64 ltac:(done)).
    generalize dependent (len `mod` 64). generalize (len / 64). intros. lia.
Qed.

Lemma shape_capacity a b : shape a = shape b → capacity a = capacity b.
Proof. intros Hsh. unfold capacity. by rewrite (same_words a b Hsh). Qed.

Lemma from_iter_spec {E} xs len : (∀ x, x ∈ xs → x < len) →
  ∃ b, from_iter (E := E) xs len = Ok b ∧ denotes b (list_to_set xs) ∧ shape b = shape (internal_new len).
Proof.
  intros Hxs. unfold from_iter. destruct (internal_new_spec len) as [H0 Hcap].
  assert (∀ (xs : list N) b (X : gset N), (∀ x, x ∈ xs → x < len) → denotes b X → shape b = shape (internal_new len) →
    ∃ b', insert_all (E := E) xs b = Ok b' ∧ denotes b' (list_to_set xs ∪ X) ∧ shape b' = shape (internal_new len)) as Hins.
  { clear. intros xs. induction xs as [|x xs IH]; intros b X Hxs HX Hsh; cbn.
    - exists b. by rewrite (left_id_L ∅ (∪)).
    - destruct (internal_new_spec len) as [_ Hcap].
      destruct (bitmap_insert (E := E) b X x HX) as (b1 & Hb1 & HX1 & Hsh1).
      { rewrite (shape_capacity _ _ Hsh). specialize (Hxs x ltac:(left)). lia. }
      rewrite Hb1. cbn. destruct (IH b1 ({[x]} ∪ X)) as (b2 & Hb2 & HX2 & Hsh2); [intros; apply Hxs; by right|done|congruence|].
      exists b2. split_and!; [done| |done]. replace ({[x]} ∪ list_to_set xs ∪ X) with (list_to_set xs ∪ ({[x]} ∪ X)); [done|set_solver]. }
  destruct (Hins xs (internal_new len) ∅) as (b & Hb & HX & Hsh); [done..|]. exists b. by rewrite (right_id_L ∅ (∪)) in HX.
Qed.

(** ** Iteration *)
Definition bits_of (w : N) : list N := filter (λ i, N.testbit w i = true) (N.of_nat <$> seq 0 64).

#[export] Instance N_lt_antisymm : AntiSymm (=) N.lt.
Proof. intros x y Hx Hy. lia. Qed.

Lemma strongly_sorted_filter {A} (R : A → A → Prop) (P : A → Prop) `{∀ x, Decision (P x)} l : StronglySorted R l → StronglySorted R (filter P l).
Proof.
  induction 1 as [|x l Hs IH Hx]; [constructor|]. destruct (decide (P x)).
  - rewrite filter_cons_True by done. constructor; [done|]. rewrite Forall_forall in *. intros y [_ Hy]%list_elem_of_filter. by apply Hx.
  - by rewrite filter_cons_False.
Qed.

Lemma bits_of_sorted w : StronglySorted N.lt (bits_of w).
Proof. apply strongly_sorted_filter. vm_compute. repeat constructor. Qed.

Lemma elem_of_bits_of w i : i ∈ bits_of w ↔ N.testbit w i = true ∧ i < 64.
Proof.
  unfold bits_of. rewrite list_elem_of_filter, list_elem_of_fmap. setoid_rewrite elem_of_seq. f_equiv. split.
  - intros (n & -> & Hn). lia.
  - intros Hi. exists (N.to_nat i). lia.
Qed.

Lemma sorted_lt_unique l1 l2 : StronglySorted N.lt l1 → StronglySorted N.lt l2 → (∀ x, x ∈ l1 ↔ x ∈ l2) → l1 = l2.
Proof.
  assert (∀ l, StronglySorted N.lt l → NoDup l) as Hnd.
  { induction 1 as [|x l _ IH Hx]; constructor; [|done]. intros Hin. rewrite Forall_forall in Hx. specialize (Hx x Hin). lia. }
  intros H1 H2 Heq. apply (StronglySorted_unique N.lt); [done..|]. apply NoDup_Permutation; auto.
Qed.

Lemma bits_of_next p : let w := Npos p in w < 2 ^ 64 → bits_of w = trailing_zeros w :: bits_of (N.land w (w - 1)).
Proof.
  cbv zeta. intros Hw. destruct (lowest_bit p) as (H1 & H2 & H3).
  assert (trailing_zeros (N.pos p) < 64) as Hlt.
  { apply N.nle_gt. intros Hge. by rewrite (bits_high _ _ Hw Hge) in H1. }
  apply sorted_lt_unique; [apply bits_of_sorted| |].
  - constructor; [apply bits_of_sorted|]. apply Forall_forall. intros i [Hi _]%elem_of_bits_of. rewrite H3 in Hi.
    apply andb_true_iff in Hi as [Hi Hne]. apply negb_true_iff, N.eqb_neq in Hne.
    assert (¬ i < trailing_zeros (N.pos p)); [|lia]. intros Hl. by rewrite H2 in Hi.
  - intros i. rewrite elem_of_cons, !elem_of_bits_of, H3, andb_true_iff, negb_true_iff, N.eqb_neq. split.
    + intros [Hi Hi64]. destruct (decide (i = trailing_zeros (N.pos p))); [by left|by right].
    + intros [->|[[? _] ?]]; done.
Qed.

Lemma bits_of_0 : bits_of 0 = [].
Proof. by vm_compute. Qed.

Lemma land_lt w v : w < 2 ^ 64 → N.land w v < 2 ^ 64.
Proof. intros Hw. apply bits_low. intros j Hj. by rewrite N.land_spec, (bits_high w). Qed.

Lemma trailing_zeros_lt p : Npos p < 2 ^ 64 → trailing_zeros (Npos p) < 64.
Proof.
  intros Hw. apply N.nle_gt. intros Hge. destruct (lowest_bit p) as [H1 _]. by rewrite (bits_high _ _ Hw Hge) in H1.
Qed.

Lemma wrap16_small n : n < 65536 → wrap16 n = n.
Proof. apply N.mod_small. Qed.

(** The elements of the words, in order. *)
Fixpoint elements_from (base : N) (ws : list N) : list N :=
  match ws with
  | [] => []
  | w :: ws => ((λ i, i + base) <$> bits_of w) ++ elements_from (base + 64) ws
  end.

Lemma small_next_spec next cur base :
  Forall (λ w, w < 2 ^ 64) (cur :: next) → base + 64 * N.of_nat (length (cur :: next)) ≤ 65536 →
  match elements_from base (cur :: next) with
  | [] => small_next cur next base = None
  | x :: rest => ∃ cur' next' base', small_next cur next base = Some (x, SmallIter cur' next' base') ∧
      elements_from base' (cur' :: next') = rest ∧ Forall (λ w, w < 2 ^ 64) (cur' :: next') ∧
      base' + 64 * N.of_nat (length (cur' :: next')) ≤ 65536
  end.
Proof.
  revert cur base. induction next as [|w next IH]; intros cur base Hws Hbase; apply Forall_cons in Hws as [Hcur Hws];
    (destruct cur as [|p]; [|cbn [elements_from]; rewrite bits_of_next by done; cbn [fmap list_fmap app]; cbn [small_next];
      rewrite (proj2 (N.ltb_lt 0 (N.pos p))) by done; rewrite (wrap16_small (trailing_zeros _ + base)) by (pose proof (trailing_zeros_lt p Hcur); cbn [length] in Hbase; lia);
      eexists _, _, _; split; [reflexivity|]; split_and!; [done|by constructor; [apply land_lt|]|done]]).
  - cbn [elements_from]. by rewrite bits_of_0.
  - cbn [elements_from small_next]. rewrite bits_of_0. cbn [fmap list_fmap app].
    rewrite (wrap16_small (base + 64)) by (cbn [length] in Hbase; lia). apply (IH w (base + 64)); [done|]. cbn [length] in *. lia.
Qed.

Lemma collect_small fuel cur next base :
  Forall (λ w, w < 2 ^ 64) (cur :: next) → base + 64 * N.of_nat (length (cur :: next)) ≤ 65536 →
  (length (elements_from base (cur :: next)) ≤ fuel)%nat →
  collect fuel (SmallIter cur next base) = elements_from base (cur :: next).
Proof.
  revert cur next base. induction fuel as [|fuel IH]; intros cur next base Hws Hbase Hlen.
  { destruct (elements_from base (cur :: next)); [done|cbn in Hlen; lia]. }
  pose proof (small_next_spec next cur base Hws Hbase) as Hn. cbn [collect iter_next].
  destruct (elements_from base (cur :: next)) as [|x rest]; [by rewrite Hn|].
  destruct Hn as (cur' & next' & base' & -> & <- & Hws' & Hbase'). f_equal. apply IH; [done..|]. cbn [length] in Hlen. lia.
Qed.

Lemma collect_tiny fuel w : w < 2 ^ 64 → (length (bits_of w) ≤ fuel)%nat → collect fuel (TinyIter w) = bits_of w.
Proof.
  revert w. induction fuel as [|fuel IH]; intros w Hw Hlen.
  { destruct (bits_of w); [done|cbn in Hlen; lia]. }
  destruct w as [|p]; [by rewrite bits_of_0|]. cbn [collect iter_next]. rewrite (proj2 (N.ltb_lt 0 (N.pos p))) by done.
  rewrite bits_of_next in * by done. f_equal. apply IH; [by apply land_lt|]. cbn [length] in Hlen. lia.
Qed.

Lemma elements_from_0 w : elements_from 0 [w] = bits_of w.
Proof. cbn [elements_from]. rewrite app_nil_r. rewrite <- (list_fmap_id (bits_of w)) at 2. apply list_fmap_ext. intros i x _. by rewrite N.add_0_r. Qed.

Lemma elements_from_length base ws : (length (elements_from base ws) ≤ 64 * length ws)%nat.
Proof.
  revert base. induction ws as [|w ws IH]; intros base; [done|]. cbn [elements_from length]. rewrite length_app, length_fmap.
  assert (length (bits_of w) ≤ 64)%nat; [|specialize (IH (base + 64)); lia].
  unfold bits_of. etrans; [apply length_filter|]. done.
Qed.

Lemma elem_of_elements_from base ws x :
  x ∈ elements_from base ws ↔ ∃ i j w, ws !! i = Some w ∧ j < 64 ∧ N.testbit w j = true ∧ x = 64 * N.of_nat i + j + base.
Proof.
  revert base. induction ws as [|w ws IH]; intros base; cbn [elements_from].
  { split; [by intros ?%not_elem_of_nil|]. by intros (i & j & w & Hw & _). }
  rewrite elem_of_app, IH, list_elem_of_fmap. setoid_rewrite elem_of_bits_of. split.
  - intros [(j & -> & Hb & Hj)|(i & j & w' & Hw' & Hj & Hb & ->)]; [exists 0%nat, j, w|exists (S i), j, w']; split_and!; try done; lia.
  - intros (i & j & w' & Hw' & Hj & Hb & ->). destruct i as [|i]; cbn in Hw'; [injection Hw' as ->; left; exists j|right; exists i, j, w'];
      split_and!; try done; lia.
Qed.

Lemma elements_from_sorted base ws : StronglySorted N.lt (elements_from base ws).
Proof.
  revert base. induction ws as [|w ws IH]; intros base; [constructor|]. cbn [elements_from].
  apply StronglySorted_app_2; [|generalize (bits_of_sorted w)|apply IH].
  - intros x y (j & -> & Hj)%list_elem_of_fmap (i & j' & w' & _ & _ & _ & ->)%elem_of_elements_from.
    apply elem_of_bits_of in Hj as [_ Hj]. lia.
  - induction 1 as [|x l Hs IHl Hx]; [constructor|]. cbn. constructor; [done|]. apply Forall_fmap. eapply Forall_impl; [exact Hx|]. cbn. lia.
Qed.

Lemma iter_spec b (X : gset N) fuel :
  denotes b X → words b ≠ [] → capacity b ≤ 65536 → (N.to_nat (capacity b) ≤ fuel)%nat →
  StronglySorted N.lt (collect fuel (iter b)) ∧ ∀ x, x ∈ collect fuel (iter b) ↔ x ∈ X.
Proof.
  intros [Hw HX] Hne Hcap Hfuel. assert (collect fuel (iter b) = elements_from 0 (words b)) as ->.
  { pose proof (elements_from_length 0 (words b)). unfold capacity in *. destruct b as [w|[|w ws]]; cbn [words iter hd tl] in *; [| done|].
    - rewrite elements_from_0 in *. apply collect_tiny; [inversion_clear Hw; assumption|lia].
    - apply collect_small; [done|lia|lia]. }
  split; [apply elements_from_sorted|]. intros x. rewrite elem_of_elements_from, HX. unfold member. split.
  - intros (i & j & w & Hl & Hj & Hb & ->). exists w. rewrite N.add_0_r. by destruct (index_bit i j Hj) as [-> ->].
  - intros (w & Hl & Hb). exists (N.to_nat (x / 64)), (x `mod` 64), w. rewrite N2Nat.id, N.add_0_r. split_and!; try done; [by apply N.mod_lt|by apply N.div_mod].
Qed.

(** ** The refinement *)

(** C36: A small bitmap is a finite set: on indexes below the length of the universe and on
    bitmaps of the same shape every operation answers, changes and keeps what the operation
    on sets does, and the iterator yields the elements in order. *)
Theorem small_bitmap_refines_set {E} (a b : SmallBitmap) (X Y : gset N) x :
  denotes a X → denotes b Y → shape a = shape b → x < capacity a →
  (contains (E := E) a x = Ok (bool_decide (x ∈ X)) ∧ is_empty a = bool_decide (X = ∅) ∧
    is_subset (E := E) a b = Ok (bool_decide (X ⊆ Y)) ∧ intersects (E := E) a b = Ok (negb (bool_decide (X ∩ Y = ∅)))) ∧
  (∃ c, insert (E := E) a x = Ok c ∧ denotes c ({[x]} ∪ X) ∧ shape c = shape a) ∧
  (∃ c, remove (E := E) a x = Ok c ∧ denotes c (X ∖ {[x]}) ∧ shape c = shape a) ∧
  (∃ c, union (E := E) a b = Ok c ∧ denotes c (X ∪ Y) ∧ shape c = shape a) ∧
  (∃ c, intersection (E := E) a b = Ok c ∧ denotes c (X ∩ Y) ∧ shape c = shape a) ∧
  (∃ c, subtract (E := E) a b = Ok c ∧ denotes c (X ∖ Y) ∧ shape c = shape a) ∧
  (denotes (clear a) ∅ ∧ shape (clear a) = shape a) ∧
  ∀ fuel, capacity a ≤ 65536 → (N.to_nat (capacity a) ≤ fuel)%nat →
    StronglySorted N.lt (collect fuel (iter a)) ∧ ∀ y, y ∈ collect fuel (iter a) ↔ y ∈ X.
Proof.
  intros HX HY Hsh Hx. split_and!.
  - by apply bitmap_contains.
  - by apply is_empty_spec.
  - by apply is_subset_spec.
  - by apply intersects_spec.
  - by apply bitmap_insert.
  - by apply bitmap_remove.
  - by apply union_spec.
  - by apply intersection_spec.
  - by apply subtract_spec.
  - apply clear_spec.
  - apply clear_spec.
  - intros fuel Hcap Hfuel. apply iter_spec; [done| |done..]. intros Hnil. unfold capacity in Hx. rewrite Hnil in Hx. cbn in Hx. lia.
Qed.

Lemma small_bitmap_refines_set_witness :
  union (E := unit) (Small [5; 0]) (Small [2; 1]) = Ok (Small [7; 1]) ∧ contains (E := unit) (Small [5; 0]) 2 = Ok true.
Proof.
  assert (denotes (Small [5; 0]) {[0; 2]}) as Ha.
  { destruct (from_iter_spec (E := unit) [0; 2] 100) as (b & Hb & HX & _).
    - intros x Hx. repeat (apply elem_of_cons in Hx as [->|Hx]; [lia|]). by apply not_elem_of_nil in Hx.
    - vm_compute in Hb. injection Hb as <-. replace {[0; 2]} with (list_to_set [0; 2] : gset N); [done|by vm_compute]. }
  assert (denotes (Small [2; 1]) {[1; 64]}) as Hb.
  { destruct (from_iter_spec (E := unit) [1; 64] 100) as (b & Hb & HX & _).
    - intros x Hx. repeat (apply elem_of_cons in Hx as [->|Hx]; [lia|]). by apply not_elem_of_nil in Hx.
    - vm_compute in Hb. injection Hb as <-. replace {[1; 64]} with (list_to_set [1; 64] : gset N); [done|by vm_compute]. }
  destruct (small_bitmap_refines_set (E := unit) _ _ _ _ 2 Ha Hb eq_refl eq_refl) as ((Hc & _) & _).
  split; [by vm_compute|]. rewrite Hc. vm_compute. reflexivity.
Defined.

(** C40: An index that is not below the length of the universe, or two bitmaps of different
    shapes, panic; so do a bitmap made with [from_iter] and one made with [new] for the same
    interner, when its length is a multiple of 64 above 64. *)
Theorem small_bitmap_panics {E} (a b : SmallBitmap) x :
  (capacity a ≤ x → contains (E := E) a x = Panic "index out of bounds" ∧ insert (E := E) a x = Panic "index out of bounds" ∧
    remove (E := E) a x = Panic "index out of bounds") ∧
  (shape a ≠ shape b → union (E := E) a b = Panic "universe length mismatch" ∧ intersection (E := E) a b = Panic "universe length mismatch" ∧
    subtract (E := E) a b = Panic "universe length mismatch" ∧ is_subset (E := E) a b = Panic "universe length mismatch" ∧
    intersects (E := E) a b = Panic "universe length mismatch") ∧
  ∀ xs len, 64 < len → len `mod` 64 = 0 → from_iter (E := E) xs len = Ok a → shape b = shape (new len) → shape a ≠ shape b.
Proof.
  split_and!.
  - intros Hx. unfold contains, insert, remove, with_set_index. by rewrite get_set_index_panics.
  - intros Hsh. unfold union, intersection, subtract, is_subset, intersects, apply_op, all_satisfy_op, any_satisfy_op.
    destruct a as [s|l], b as [s'|l']; cbn in *; try done. rewrite (proj2 (Nat.eqb_neq _ _)) by congruence. done.
  - intros xs len Hlen Hmod Ha Hb. assert (shape a = shape (internal_new len)) as ->.
    { unfold from_iter in Ha. revert Ha. generalize (internal_new len). clear. induction xs as [|x xs IH]; intros c; cbn; [by intros [= ->]|].
      unfold insert, with_set_index. rewrite get_set_index_spec. destruct (words c !! _) as [w|] eqn:Hw; [|done]. cbn. intros H%IH.
      rewrite H. destruct c; cbn; [done|by rewrite length_insert]. }
    rewrite Hb. unfold internal_new, new. destruct (N.leb_spec len 64); [lia|]. cbn. rewrite !length_replicate. intros [= Heq%N2Nat.inj].
    pose proof (N.div_mod len 64 ltac:(done)) as Hd. rewrite Hmod in Hd.
    assert ((len - 1) / 64 = len / 64 - 1) as Hq; [|lia]. symmetry. apply (N.div_unique _ 64 _ 63); [lia|].
    generalize dependent (len / 64). intros. lia.
Qed.

Lemma small_bitmap_panics_witness :
  union (E := unit) (match from_iter (E := unit) [3] 128 with Ok b => b | _ => new 128 end) (new 128) = Panic "universe length mismatch".
Proof.
  destruct (from_iter (E := unit) [3] 128) as [b| |] eqn:Hb; [|by vm_compute in Hb..].
  destruct (small_bitmap_panics (E := unit) b (new 128) 0) as (_ & Hsh & Hmul). apply Hsh, (Hmul [3] 128); [done..|exact Hb|done].
Defined.
