(* ===== verification/Interner.v ===== *)
(** * Interners (milli/src/search/new/interner.rs)

    A value of a search graph is known by its index in a vector, on 16 bits.  A dedup
    interner gives equal values the same index; the other interners are vectors. *)
From S2P Require Import Prelude.

Section interner.
Context {E T : Type}.

(** [get] and [get_mut] of every interner: indexing a vector. *)
Definition get (stable_store : list T) (interned : N) : outcome E T :=
  match stable_store !! N.to_nat interned with Some x => Ok x | None => Panic "index out of bounds" end.
Definition get_mut (f : T → T) (interned : N) (stable_store : list T) : outcome E (list T) :=
  x ← get stable_store interned; Ok (<[N.to_nat interned := f x]> stable_store).

(** The length, cast to [u16]. *)
Definition interned_len (stable_store : list T) : N := (N.of_nat (length stable_store) `mod` 65536)%N.

(** [Interner::push]. *)
Definition push (value : T) (stable_store : list T) : outcome E (N * list T) :=
  _ ← assert (N.of_nat (length stable_store) <? 65535)%N "assertion failed: self.stable_store.len() < u16::MAX as usize";
  let stable_store := stable_store ++ [value] in
  Ok (interned_len stable_store - 1, stable_store)%N.

(** [indexes] and [iter]. *)
Definition indexes (stable_store : list T) : list N := (λ i, N.of_nat i `mod` 65536)%N <$> seq 0 (length stable_store).
Definition iter (stable_store : list T) : list (N * T) := zip (indexes stable_store) stable_store.

(** The hash map of a dedup interner finds a key that is equal for the [PartialEq] of the
    values. *)
Context (eqb : T → T → bool).

Record DedupInterner := mkDedup { stable_store : list T; lookup_ : list (N * T) }.
Definition dedup_default : DedupInterner := mkDedup [] [].
Definition freeze (self : DedupInterner) : list T := stable_store self.

Fixpoint find_interned (s : T) (lookup : list (N * T)) : option N :=
  match lookup with
  | [] => None
  | (i, t) :: lookup => if eqb t s then Some i else find_interned s lookup
  end.

(** [DedupInterner::insert]. *)
Definition dedup_insert (s : T) (self : DedupInterner) : outcome E (N * DedupInterner) :=
  match find_interned s (lookup_ self) with
  | Some interned => Ok (interned, self)
  | None =>
      '(interned, store) ← push s (stable_store self);
      Ok (interned, mkDedup store (lookup_ self ++ [(interned, s)]))
  end.
End interner.
Arguments DedupInterner T : clear implicits.

(** ** Indexes *)
Section lemmas.
Context {E T : Type}.
Implicit Type l : list T.

Definition fits16 l : Prop := (N.of_nat (length l) ≤ 65535)%N.

Lemma get_Ok l i (x : T) : get (E := E) l i = Ok x ↔ l !! N.to_nat i = Some x.
Proof. unfold get. destruct (l !! _); naive_solver. Qed.

Lemma get_of_nat l (i : nat) (x : T) : l !! i = Some x → get (E := E) l (N.of_nat i) = Ok x.
Proof. intros H. apply get_Ok. by rewrite Nat2N.id. Qed.

Lemma push_Ok l (v : T) i l' : push (E := E) v l = Ok (i, l') ↔ (N.of_nat (length l) < 65535)%N ∧ i = N.of_nat (length l) ∧ l' = l ++ [v].
Proof.
  unfold push, assert, interned_len. destruct (N.ltb_spec (N.of_nat (length l)) 65535) as [H|H]; cbn.
  - rewrite length_app. cbn. rewrite N.mod_small by lia. split; [intros [= <- <-]|intros (_ & -> & ->)].
    + split_and!; [done|lia|done].
    + do 2 f_equal. lia.
  - split; [done|]. lia.
Qed.

Lemma iter_lookup l i (x : T) : fits16 l → (i, x) ∈ iter l ↔ get (E := E) l i = Ok x.
Proof.
  unfold fits16. intros Hfit. rewrite get_Ok. unfold iter, indexes. rewrite list_elem_of_lookup. setoid_rewrite lookup_zip_with_Some.
  setoid_rewrite list_lookup_fmap_Some. setoid_rewrite lookup_seq. split.
  - intros (k & i' & x' & [= <- <-] & (j & -> & -> & Hk) & Hx). cbn. rewrite N.mod_small by lia. by rewrite Nat2N.id.
  - intros Hx. pose proof (lookup_lt_Some _ _ _ Hx). exists (N.to_nat i), i, x. split_and!; [done| |done].
    exists (N.to_nat i). cbn. rewrite N.mod_small by lia. lia.
Qed.

Lemma iter_app l (v : T) : (N.of_nat (length l) < 65535)%N → iter (l ++ [v]) = iter l ++ [(N.of_nat (length l), v)].
Proof.
  intros Hl. unfold iter, indexes. rewrite length_app. cbn [length]. rewrite Nat.add_1_r, seq_S, fmap_app.
  rewrite zip_with_app by (by rewrite length_fmap, length_seq). cbn. by rewrite N.mod_small by lia.
Qed.
End lemmas.

(** ** Dedup interners *)
Section dedup.
Context {E T : Type} (eqb : T → T → bool).

Record interner_ok (d : DedupInterner T) : Prop := {
  interner_lookup : lookup_ d = iter (stable_store d);
  interner_fits : fits16 (stable_store d);
  interner_unique i j x y : stable_store d !! i = Some x → stable_store d !! j = Some y → eqb x y = true → i = j
}.

Lemma default_ok : interner_ok dedup_default.
Proof. split; [done|by unfold fits16|]. intros i j x y Hx. cbn in Hx. by rewrite lookup_nil in Hx. Qed.

Lemma find_interned_Some s l i : find_interned eqb s l = Some i → ∃ t, (i, t) ∈ l ∧ eqb t s = true.
Proof.
  induction l as [|[k t] l IH]; cbn; [done|]. destruct (eqb t s) eqn:Ht.
  - intros [= ->]. exists t. split; [by left|done].
  - intros (t' & ? & ?)%IH. exists t'. split; [by right|done].
Qed.

Lemma find_interned_None s l : find_interned eqb s l = None ↔ ∀ i t, (i, t) ∈ l → eqb t s = false.
Proof.
  induction l as [|[k t] l IH]; cbn; [split; [by intros _ i t ?%not_elem_of_nil|done]|]. destruct (eqb t s) eqn:Ht.
  - split; [done|]. intros H. specialize (H k t ltac:(left)). congruence.
  - rewrite IH. split; [|intros H i t' ?; apply (H i); by right].
    intros H i t' [[= -> ->]|?]%elem_of_cons; [done|by eapply H].
Qed.

Context (eqb_sym : ∀ x y, eqb x y = true → eqb y x = true).

(** Inserting a value: an equal value keeps its index, a new one gets the next index, and
    it panics when there is none left. *)
Lemma dedup_insert_Ok s d : interner_ok d →
  (∃ i t, dedup_insert (E := E) eqb s d = Ok (i, d) ∧ get (E := E) (stable_store d) i = Ok t ∧ eqb t s = true) ∨
  (∀ t, t ∈ stable_store d → eqb t s = false) ∧
    ((N.of_nat (length (stable_store d)) < 65535)%N ∧
      (∃ d', dedup_insert (E := E) eqb s d = Ok (N.of_nat (length (stable_store d)), d') ∧ interner_ok d' ∧
        stable_store d' = stable_store d ++ [s]) ∨
     N.of_nat (length (stable_store d)) = 65535%N ∧ is_panic (dedup_insert (E := E) eqb s d) = true).
Proof.
  intros [Hl Hf Hu]. unfold dedup_insert. destruct (find_interned eqb s (lookup_ d)) as [i|] eqn:Hfind.
  - left. apply find_interned_Some in Hfind as (t & Hin & Ht). rewrite Hl in Hin. apply (iter_lookup (E := E)) in Hin; [|done].
    by exists i, t.
  - right. rewrite Hl in Hfind. rewrite find_interned_None in Hfind.
    assert (∀ t, t ∈ stable_store d → eqb t s = false) as Hnew.
    { intros t (k & Hk)%list_elem_of_lookup. apply (Hfind (N.of_nat k)), (iter_lookup (E := E)), get_of_nat; done. }
    split; [done|]. unfold fits16 in Hf. destruct (decide (N.of_nat (length (stable_store d)) < 65535)%N) as [Hlt|Hge].
    + left. split; [done|]. assert (push (E := E) s (stable_store d) = Ok (N.of_nat (length (stable_store d)), stable_store d ++ [s])) as ->
        by by apply push_Ok.
      cbn. eexists. split_and!; [done| |done]. split; cbn [stable_store lookup_].
      * by rewrite Hl, iter_app.
      * unfold fits16. rewrite length_app. cbn. lia.
      * intros i j x y. rewrite !lookup_snoc_Some. intros [[_ Hx]|[-> ->]] [[_ Hy]|[-> ->]] Hxy; [by eapply Hu|..]; [| |done].
        -- apply list_elem_of_lookup_2 in Hx. rewrite Hnew in Hxy by done. done.
        -- apply list_elem_of_lookup_2 in Hy. apply eqb_sym in Hxy. rewrite Hnew in Hxy by done. done.
    + right. split; [lia|]. unfold push, assert. by rewrite (proj2 (N.ltb_ge _ _)) by lia.
Qed.
End dedup.
