(* ===== verification/QueryTerm.v ===== *)
(** * Query terms (milli/src/search/new/query_term)

    A term of the query stands for words and phrases: those it is written with, those
    that are one or two typos away and its synonyms.  A subset of a term keeps some of
    them.  Words and phrases are indexes of interners, and so is the term of a subset. *)
From S2P Require Import Prelude Interner.
#[local] Open Scope N_scope.

(** ** Subsets (ntypo_subset.rs) *)
Inductive NTypoTermSubset :=
| All
| Subset (words phrases : gset N)
| Nothing.
#[export] Instance ntypo_eq_dec : EqDecision NTypoTermSubset.
Proof. solve_decision. Defined.

Definition contains_word (self : NTypoTermSubset) (word : N) : bool :=
  match self with All => true | Subset words _ => bool_decide (word ∈ words) | Nothing => false end.
Definition contains_phrase (self : NTypoTermSubset) (phrase : N) : bool :=
  match self with All => true | Subset _ phrases => bool_decide (phrase ∈ phrases) | Nothing => false end.
Definition ntypo_is_empty (self : NTypoTermSubset) : bool :=
  match self with
  | All => false
  | Subset words phrases => bool_decide (words = ∅) && bool_decide (phrases = ∅)
  | Nothing => true
  end.
Definition ntypo_union (self other : NTypoTermSubset) : NTypoTermSubset :=
  match self with
  | All => All
  | Subset words phrases =>
      match other with
      | All => All
      | Subset w2 p2 => Subset (words ∪ w2) (phrases ∪ p2)
      | Nothing => Subset words phrases
      end
  | Nothing => other
  end.
Definition ntypo_intersect (self other : NTypoTermSubset) : NTypoTermSubset :=
  match self with
  | All => other
  | Subset words phrases =>
      match other with
      | All => Subset words phrases
      | Subset w2 p2 => Subset (words ∩ w2) (phrases ∩ p2)
      | Nothing => Nothing
      end
  | Nothing => Nothing
  end.

(** ** Terms (mod.rs, phrase.rs) *)
Definition Phrase : Type := list (option N).

Record ZeroTypoTerm := mkZero {
  phrase : option N;
  exact_ : option N;
  prefix_of : gset N;
  synonyms : gset N;
  use_prefix_db_ : option N
}.
Record OneTypoTerm := mkOne { split_words : option N; one_typo_ : gset N }.
Record TwoTypoTerm := mkTwo { two_typos : gset N }.

Inductive Lazy (T : Type) := Uninit | Init (t : T).
Arguments Uninit {T}.
Arguments Init {T} t.

Record QueryTerm := mkTerm {
  original_ : N;
  ngram_words : option (list N);
  max_levenshtein_distance : N;
  is_prefix : bool;
  zero_typo : ZeroTypoTerm;
  one_typo : Lazy OneTypoTerm;
  two_typo : Lazy TwoTypoTerm
}.

Record QueryTermSubset := mkSubset {
  original : N;
  zero_typo_subset : NTypoTermSubset;
  one_typo_subset : NTypoTermSubset;
  two_typo_subset : NTypoTermSubset;
  mandatory : bool
}.
#[export] Instance query_term_subset_eq_dec : EqDecision QueryTermSubset.
Proof. solve_decision. Defined.

(** [RangeInclusive]: the two ends. *)
Record LocatedQueryTermSubset := mkLocated {
  term_subset : QueryTermSubset;
  positions : N * N;
  term_ids : N * N
}.
#[export] Instance located_subset_eq_dec : EqDecision LocatedQueryTermSubset.
Proof. solve_decision. Defined.

Record LocatedQueryTerm := mkLocatedTerm { value : N; term_positions : N * N }.

Inductive ExactTerm := ExactPhrase (phrase : N) | ExactWord (word : N).
Inductive Word := Original (word : N) | Derived (word : N).
#[export] Instance word_eq_dec : EqDecision Word.
Proof. solve_decision. Defined.
#[export] Instance word_countable : Countable Word.
Proof.
  apply (inj_countable' (λ w, match w with Original n => inl n | Derived n => inr n end)
    (λ s : N + N, match s with inl n => Original n | inr n => Derived n end)). by intros [].
Defined.

(** The interners of a search. *)
Record SearchContext := mkContext {
  word_interner : list string;
  phrase_interner : list Phrase;
  term_interner : list QueryTerm
}.

Definition option_to_set {A} `{Countable A} (o : option A) : gset A := match o with Some x => {[x]} | None => ∅ end.

(** *** Methods of a subset *)
Definition is_mandatory (self : QueryTermSubset) : bool := mandatory self.
Definition make_mandatory (self : QueryTermSubset) : QueryTermSubset :=
  mkSubset (original self) (zero_typo_subset self) (one_typo_subset self) (two_typo_subset self) true.
Definition empty_subset (for_term : N) : QueryTermSubset := mkSubset for_term Nothing Nothing Nothing false.
Definition full (for_term : N) : QueryTermSubset := mkSubset for_term All All All false.

Definition with_zero z (self : QueryTermSubset) : QueryTermSubset :=
  mkSubset (original self) z (one_typo_subset self) (two_typo_subset self) (mandatory self).
Definition clear_zero_typo_subset : QueryTermSubset → QueryTermSubset := with_zero Nothing.
Definition clear_one_typo_subset (self : QueryTermSubset) : QueryTermSubset :=
  mkSubset (original self) (zero_typo_subset self) Nothing (two_typo_subset self) (mandatory self).
Definition clear_two_typo_subset (self : QueryTermSubset) : QueryTermSubset :=
  mkSubset (original self) (zero_typo_subset self) (one_typo_subset self) Nothing (mandatory self).

Section methods.
Context {E : Type}.
(** [Interned<QueryTerm>::compute_fully_if_needed] fills the lazy fields of a term from the
    dictionary of words. *)
Context (compute_fully_if_needed : N → SearchContext → outcome E SearchContext).

Definition exact_term (self : QueryTermSubset) (ctx : SearchContext) : outcome E (option ExactTerm) :=
  full_query_term ← get (term_interner ctx) (original self);
  if bool_decide (is_Some (ngram_words full_query_term)) then Ok None
  else
    match phrase (zero_typo full_query_term), exact_ (zero_typo full_query_term) with
    | Some phrase, _ => Ok (if contains_phrase (zero_typo_subset self) phrase then Some (ExactPhrase phrase) else None)
    | None, Some word => Ok (if contains_word (zero_typo_subset self) word then Some (ExactWord word) else None)
    | None, None => Ok None
    end.

Definition zip_subsets (f : NTypoTermSubset → NTypoTermSubset → NTypoTermSubset) (self other : QueryTermSubset) :
    outcome E QueryTermSubset :=
  _ ← assert (original self =? original other) "assertion failed: self.original == other.original";
  Ok (mkSubset (original self) (f (zero_typo_subset self) (zero_typo_subset other))
       (f (one_typo_subset self) (one_typo_subset other)) (f (two_typo_subset self) (two_typo_subset other)) (mandatory self)).
Definition union : QueryTermSubset → QueryTermSubset → outcome E QueryTermSubset := zip_subsets ntypo_union.
Definition intersect : QueryTermSubset → QueryTermSubset → outcome E QueryTermSubset := zip_subsets ntypo_intersect.

(** A word of a term: those of an ngram are derived from the query. *)
Definition query_word (term : QueryTerm) (word : N) : Word :=
  match ngram_words term with Some _ => Derived word | None => Original word end.

Definition use_prefix_db (self : QueryTermSubset) (ctx : SearchContext) : outcome E (option Word) :=
  original ← get (term_interner ctx) (original self);
  match use_prefix_db_ (zero_typo original) with
  | None => Ok None
  | Some prefix =>
      let word :=
        match zero_typo_subset self with
        | All => Some prefix
        | Subset words _ => if bool_decide (prefix ∈ words) then Some prefix else None
        | Nothing => None
        end in
      Ok (query_word original <$> word)
  end.

Definition expect_init {T} (lazy : Lazy T) : outcome E T := match lazy with Init t => Ok t | Uninit => Panic "explicit panic" end.

(** The words of one class of typos: those of the term that the subset keeps. *)
Definition typo_words (subset : NTypoTermSubset) (words : outcome E (gset N)) : outcome E (gset N) :=
  match subset with
  | All => words
  | Subset kept _ => words ← words; Ok (words ∩ kept)
  | Nothing => Ok ∅
  end.

Definition computed (needed : bool) (self : QueryTermSubset) (ctx : SearchContext) : outcome E SearchContext :=
  if needed then compute_fully_if_needed (original self) ctx else Ok ctx.

Definition all_single_words_except_prefix_db (self : QueryTermSubset) (ctx : SearchContext) :
    outcome E (gset Word * SearchContext) :=
  ctx ← computed (negb (ntypo_is_empty (one_typo_subset self)) || negb (ntypo_is_empty (two_typo_subset self))) self ctx;
  original ← get (term_interner ctx) (original self);
  zero ← typo_words (zero_typo_subset self) (Ok (option_to_set (exact_ (zero_typo original)) ∪ prefix_of (zero_typo original)));
  one ← typo_words (one_typo_subset self) (one_typo_ <$> expect_init (one_typo original));
  two ← typo_words (two_typo_subset self) (two_typos <$> expect_init (two_typo original));
  Ok (set_map (query_word original) zero ∪ set_map Derived one ∪ set_map Derived two, ctx).

Definition all_phrases (self : QueryTermSubset) (ctx : SearchContext) : outcome E (gset N * SearchContext) :=
  ctx ← computed (negb (ntypo_is_empty (one_typo_subset self))) self ctx;
  original ← get (term_interner ctx) (original self);
  let result := option_to_set (phrase (zero_typo original)) ∪ synonyms (zero_typo original) in
  one ← match one_typo_subset self with
        | All => one ← expect_init (one_typo original); Ok (option_to_set (split_words one))
        | Subset _ phrases => one ← expect_init (one_typo original); Ok (option_to_set (split_words one) ∩ phrases)
        | Nothing => Ok ∅
        end;
  Ok (result ∪ one, ctx).

Definition original_phrase (self : QueryTermSubset) (ctx : SearchContext) : outcome E (option N) :=
  t ← get (term_interner ctx) (original self);
  Ok (match phrase (zero_typo t) with
      | Some p => if contains_phrase (zero_typo_subset self) p then Some p else None
      | None => None
      end).

Definition allows_split_words (self : QueryTerm) : bool := bool_decide (phrase (zero_typo self) = None).

Definition max_typo_cost (self : QueryTermSubset) (ctx : SearchContext) : outcome E N :=
  t ← get (term_interner ctx) (original self);
  match max_levenshtein_distance t with
  | 0 => Ok (if allows_split_words t then 1 else 0)
  | 1 => Ok (if ntypo_is_empty (one_typo_subset self) then 0 else 1)
  | 2 =>
      Ok (if ntypo_is_empty (two_typo_subset self) then
            if ntypo_is_empty (one_typo_subset self) then 0 else 1
          else 2)
  | _ => Panic "explicit panic"
  end.

Definition keep_only_exact_term (self : QueryTermSubset) (ctx : SearchContext) : outcome E QueryTermSubset :=
  term ← exact_term self ctx;
  Ok (match term with
      | Some (ExactPhrase p) => clear_two_typo_subset (clear_one_typo_subset (with_zero (Subset ∅ {[p]}) self))
      | Some (ExactWord w) => clear_two_typo_subset (clear_one_typo_subset (with_zero (Subset {[w]} ∅) self))
      | None => self
      end).

Definition original_single_word (self : N) (ctx : SearchContext) : outcome E (option N) :=
  self_ ← get (term_interner ctx) self;
  Ok (match ngram_words self_ with Some _ => None | None => Some (original_ self_) end).

(** *** Methods of a term *)
Definition zero_is_empty (self : ZeroTypoTerm) : bool :=
  bool_decide (phrase self = None) && bool_decide (exact_ self = None) && bool_decide (prefix_of self = ∅) &&
  bool_decide (synonyms self = ∅) && bool_decide (use_prefix_db_ self = None).
Definition one_is_empty (self : OneTypoTerm) : bool := bool_decide (one_typo_ self = ∅) && bool_decide (split_words self = None).
Definition two_is_empty (self : TwoTypoTerm) : bool := bool_decide (two_typos self = ∅).
Definition term_is_empty (self : QueryTerm) : bool :=
  match one_typo self, two_typo self with
  | Init one_typo, Init two_typo => zero_is_empty (zero_typo self) && one_is_empty one_typo && two_is_empty two_typo
  | _, _ => false
  end.

Definition all_computed_derivations (self : QueryTerm) : gset N * gset N :=
  let words := option_to_set (exact_ (zero_typo self)) ∪ prefix_of (zero_typo self) in
  let phrases := option_to_set (phrase (zero_typo self)) ∪ synonyms (zero_typo self) in
  let '(words, phrases) :=
    match one_typo self with
    | Init one => (words ∪ one_typo_ one, phrases ∪ option_to_set (split_words one))
    | Uninit => (words, phrases)
    end in
  (match two_typo self with Init two => words ∪ two_typos two | Uninit => words end, phrases).
End methods.
