(* ===== verification/QueryGraph.v ===== *)
(** * The query graph (milli/src/search/new/query_graph.rs)

    The nodes are the words of the query and the ngrams of consecutive words, between a
    start and an end; a path reads the query.  The sets of nodes are finite sets, which
    [SmallBitmap.v] refines. *)
From S2P Require Import Prelude Interner QueryTerm.
From S2P Require Transform.
Import Transform (bitmap_iter).
#[local] Open Scope N_scope.

(** ** The code *)
Inductive QueryNodeData := Term (t : LocatedQueryTermSubset) | Deleted | Start | End.
#[export] Instance query_node_data_eq_dec : EqDecision QueryNodeData.
Proof. solve_decision. Defined.

Record QueryNode := mkNode { data : QueryNodeData; predecessors : gset N; successors : gset N }.
Record QueryGraph := mkGraph { root_node : N; end_node : N; nodes : list QueryNode }.

Definition with_data d (n : QueryNode) : QueryNode := mkNode d (predecessors n) (successors n).
Definition with_predecessors p (n : QueryNode) : QueryNode := mkNode (data n) p (successors n).
Definition with_successors s (n : QueryNode) : QueryNode := mkNode (data n) (predecessors n) s.
Definition with_nodes (nodes : list QueryNode) (g : QueryGraph) : QueryGraph := mkGraph (root_node g) (end_node g) nodes.

Definition wrap8 (n : N) : N := n `mod` 256.
Definition i16_MAX : Z := 32767.

Section code.
Context {E : Type}.

(** A loop that can fail. *)
Fixpoint try_fold {A B} (f : B → A → outcome E A) (l : list B) (a : A) : outcome E A :=
  match l with [] => Ok a | x :: l => a ← f x a; try_fold f l a end.

(** *** [build_initial_edges] *)

(** The last term of a node, and the first one. *)
Definition end_prev_term_id (d : QueryNodeData) : option Z :=
  match d with Term term => Some (Z.of_N (term_ids term).2) | Start => Some (-1)%Z | Deleted | End => None end.
Definition start_next_term_id (d : QueryNodeData) : option Z :=
  match d with Term term => Some (Z.of_N (term_ids term).1) | End => Some i16_MAX | Start | Deleted => None end.

Definition successors_step (end_prev_term_id : Z) (acc : gset N * Z) (n : N * QueryNode) : gset N * Z :=
  let '(successors, min) := acc in
  let '(node_id, node) := n in
  match start_next_term_id (data node) with
  | None => acc
  | Some start_next_term_id =>
      if (start_next_term_id <=? end_prev_term_id)%Z then acc
      else
        match Z.compare start_next_term_id min with
        | Lt => ({[node_id]}, start_next_term_id)
        | Eq => (successors ∪ {[node_id]}, min)
        | Gt => acc
        end
  end.
Definition initial_successors (nodes : list QueryNode) (end_prev_term_id : Z) : gset N :=
  (fold_left (successors_step end_prev_term_id) (Interner.iter nodes) (∅, i16_MAX)).1.

Definition add_edges (node_id : N) (nodes : list QueryNode) : outcome E (list QueryNode) :=
  node ← get nodes node_id;
  match end_prev_term_id (data node) with
  | None => Ok nodes
  | Some id =>
      let successors := initial_successors nodes id in
      nodes ← get_mut (with_successors successors) node_id nodes;
      try_fold (λ successor, get_mut (λ n, with_predecessors (predecessors n ∪ {[node_id]}) n) successor)
        (bitmap_iter successors) nodes
  end.
Definition build_initial_edges (graph : QueryGraph) : outcome E QueryGraph :=
  let nodes := (λ n, mkNode (data n) ∅ ∅) <$> nodes graph in
  nodes ← try_fold add_edges (indexes nodes) nodes;
  Ok (with_nodes nodes graph).

(** *** [from_query] *)
Definition add_node (nodes_data : list QueryNodeData) (node_data : QueryNodeData) : N * list QueryNodeData :=
  (interned_len nodes_data, nodes_data ++ [node_data]).

Definition term_node (value : N) (positions : N * N) (first last : N) : QueryNodeData :=
  Term (mkLocated (full value) positions (first, last)).

(** The variables of the loop: the nodes, the terms with the ngrams, and whether the last
    three terms have nodes. *)
Record Building := mkBuilding {
  nodes_data : list QueryNodeData;
  new_located_query_terms : list LocatedQueryTerm;
  prev2 : list N; prev1 : list N; prev0 : list N
}.

(** An ngram of [size + 1] terms that ends at [term_idx]. *)
Definition add_ngram (make_ngram : list LocatedQueryTerm → outcome E (option LocatedQueryTerm)) (terms : list LocatedQueryTerm)
    (term_idx size : nat) (state : list QueryNodeData * list LocatedQueryTerm * list N) :
    outcome E (list QueryNodeData * list LocatedQueryTerm * list N) :=
  let '(nodes_data, located, new_nodes) := state in
  ngram ← make_ngram (take (size + 1) (drop (term_idx - size) terms));
  match ngram with
  | None => Ok state
  | Some ngram =>
      let '(ngram_idx, nodes_data) :=
        add_node nodes_data (term_node (value ngram) (term_positions ngram)
          (wrap8 (wrap8 (N.of_nat term_idx) + (256 - N.of_nat size))) (wrap8 (N.of_nat term_idx))) in
      Ok (nodes_data, located ++ [ngram], new_nodes ++ [ngram_idx])
  end.

Definition add_term (make_ngram : list LocatedQueryTerm → outcome E (option LocatedQueryTerm)) (terms : list LocatedQueryTerm)
    (term_idx : nat) (self : Building) : outcome E Building :=
  match terms !! term_idx with
  | None => Panic "index out of bounds"
  | Some term =>
      let '(new_node_idx, nodes_data) :=
        add_node (nodes_data self) (term_node (value term) (term_positions term) (wrap8 (N.of_nat term_idx)) (wrap8 (N.of_nat term_idx))) in
      let state := (nodes_data, new_located_query_terms self, [new_node_idx]) in
      state ← if bool_decide (prev1 self = []) then Ok state else add_ngram make_ngram terms term_idx 1 state;
      '(nodes_data, located, new_nodes) ←
        if bool_decide (prev2 self = []) then Ok state else add_ngram make_ngram terms term_idx 2 state;
      Ok (mkBuilding nodes_data located (prev1 self) (prev0 self) new_nodes)
  end.

Definition set_data (nodes_data : list QueryNodeData) (nodes : list QueryNode) : outcome E (list QueryNode) :=
  try_fold (λ '(node_idx, node_data), get_mut (with_data node_data) node_idx) (Interner.iter nodes_data) nodes.

Definition from_query (make_ngram : list LocatedQueryTerm → outcome E (option LocatedQueryTerm)) (terms : list LocatedQueryTerm) :
    outcome E (QueryGraph * list LocatedQueryTerm) :=
  b ← try_fold (add_term make_ngram terms) (seq 0 (length terms)) (mkBuilding [Start; End] terms [] [] [0]);
  let nodes := replicate (N.to_nat (interned_len (nodes_data b))) (mkNode Deleted ∅ ∅) in
  nodes ← set_data (nodes_data b) nodes;
  graph ← build_initial_edges (mkGraph 0 1 nodes);
  Ok (graph, new_located_query_terms b).

(** *** Removals *)
Definition clear_node (n : QueryNode) : QueryNode := mkNode Deleted ∅ ∅.

Definition remove_node_keep_edges (node_id : N) (nodes : list QueryNode) : outcome E (list QueryNode) :=
  node ← get nodes node_id;
  let old_node_pred := predecessors node in
  let old_node_succ := successors node in
  nodes ← try_fold (λ pred, get_mut (λ n, with_successors (successors n ∖ {[node_id]} ∪ old_node_succ) n) pred)
            (bitmap_iter old_node_pred) nodes;
  nodes ← try_fold (λ succ, get_mut (λ n, with_predecessors (predecessors n ∖ {[node_id]} ∪ old_node_pred) n) succ)
            (bitmap_iter old_node_succ) nodes;
  get_mut clear_node node_id nodes.
Definition remove_nodes_keep_edges (removed : list N) (graph : QueryGraph) : outcome E QueryGraph :=
  nodes ← try_fold remove_node_keep_edges removed (nodes graph); Ok (with_nodes nodes graph).

Definition remove_node (node_id : N) (nodes : list QueryNode) : outcome E (list QueryNode) :=
  node ← get nodes node_id;
  let old_node_pred := predecessors node in
  let old_node_succ := successors node in
  nodes ← try_fold (λ pred, get_mut (λ n, with_successors (successors n ∖ {[node_id]}) n) pred) (bitmap_iter old_node_pred) nodes;
  nodes ← try_fold (λ succ, get_mut (λ n, with_predecessors (predecessors n ∖ {[node_id]}) n) succ) (bitmap_iter old_node_succ) nodes;
  get_mut clear_node node_id nodes.
Definition remove_nodes (removed : list N) (graph : QueryGraph) : outcome E QueryGraph :=
  nodes ← try_fold remove_node removed (nodes graph); Ok (with_nodes nodes graph).

(** [simplify]; [None] when the fuel is spent. *)
Definition dangling (n : QueryNode) : bool :=
  (match data n with End | Deleted => false | _ => true end && bool_decide (successors n = ∅)) ||
  (match data n with Start | Deleted => false | _ => true end && bool_decide (predecessors n = ∅)).
Definition nodes_to_remove (graph : QueryGraph) : list N := (filter (λ n, dangling n.2 = true) (Interner.iter (nodes graph))).*1.
Fixpoint simplify (fuel : nat) (graph : QueryGraph) : option (outcome E QueryGraph) :=
  match fuel with
  | O => None
  | S fuel =>
      match nodes_to_remove graph with
      | [] => Some (Ok graph)
      | removed =>
          match remove_nodes removed graph with
          | Ok graph => simplify fuel graph
          | Err e => Some (Err e)
          | Panic msg => Some (Panic msg)
          end
      end
  end.

(** *** The order in which terms are given up *)
Definition bounds_step (acc : N * N) (n : QueryNode) : N * N :=
  let '(first_term_idx, last_term_idx) := acc in
  match data n with
  | Term t =>
      (if (term_ids t).1 <? first_term_idx then (term_ids t).1 else first_term_idx,
       if last_term_idx <? (term_ids t).2 then (term_ids t).2 else last_term_idx)
  | _ => acc
  end.
Definition term_bounds (graph : QueryGraph) : N * N := fold_left bounds_step (nodes graph) (255, 0).

(** The ids of a term, from the first to the last. *)
Definition ids_of (ids : N * N) : list N := (λ i, ids.1 + N.of_nat i) <$> seq 0 (N.to_nat (ids.2 + 1 - ids.1)).

Definition cost_of_term_idx (last_term_idx term_idx : N) : N := wrap8 (wrap8 (1 + last_term_idx) + (256 - term_idx)).
Definition removal_cost (last_term_idx : N) (t : LocatedQueryTermSubset) : N :=
  fold_left (λ cost id, N.max cost (cost_of_term_idx last_term_idx id)) (ids_of (term_ids t)) 0.

Definition removal_step (ctx : SearchContext) (last_term_idx : N) (n : N * QueryNode) (acc : bool * gmap N (gset N)) :
    outcome E (bool * gmap N (gset N)) :=
  let '(at_least_one_mandatory_term, removed) := acc in
  match data n.2 with
  | Term t =>
      phrase ← original_phrase (term_subset t) ctx;
      if bool_decide (is_Some phrase) || is_mandatory (term_subset t) then Ok (true, removed)
      else
        let cost := removal_cost last_term_idx t in
        Ok (at_least_one_mandatory_term, <[cost := default ∅ (removed !! cost) ∪ {[n.1]}]> removed)
  | _ => Ok acc
  end.
Definition removal_order_for_terms_matching_strategy_last (ctx : SearchContext) (graph : QueryGraph) : outcome E (list (gset N)) :=
  let '(first_term_idx, last_term_idx) := term_bounds graph in
  if last_term_idx <=? first_term_idx then Ok []
  else
    '(at_least_one_mandatory_term, removed) ← try_fold (removal_step ctx last_term_idx) (Interner.iter (nodes graph)) (false, ∅);
    let res := (λ cost, default ∅ (removed !! cost)) <$> bitmap_iter (dom removed) in
    Ok (if at_least_one_mandatory_term : bool then res else take (length res - 1) res).

Definition words_in_phrases_count (ctx : SearchContext) (graph : QueryGraph) : outcome E nat :=
  try_fold (λ n word_count,
    match data n with
    | Term term =>
        phrase ← original_phrase (term_subset term) ctx;
        match phrase with
        | None => Ok word_count
        | Some phrase =>
            words ← get (phrase_interner ctx) phrase;
            Ok (word_count + length (filter is_Some words))%nat
        end
    | _ => Ok word_count
    end) (nodes graph) 0%nat.

(** *** [build_from_paths] *)
Definition Path : Type := list (option LocatedQueryTermSubset * LocatedQueryTermSubset).

Definition process_step (step : option LocatedQueryTermSubset * LocatedQueryTermSubset)
    (acc : list LocatedQueryTermSubset * option LocatedQueryTermSubset) :
    outcome E (list LocatedQueryTermSubset * option LocatedQueryTermSubset) :=
  let '(processed_path, prev_dest_term) := acc in
  let '(start_term, dest_term) := step in
  match prev_dest_term with
  | Some prev_dest_term =>
      match start_term with
      | Some start_term =>
          if bool_decide (term_ids start_term = term_ids prev_dest_term) then
            subset ← intersect (term_subset start_term) (term_subset prev_dest_term);
            Ok (processed_path ++ [mkLocated subset (positions start_term) (term_ids start_term)], Some dest_term)
          else Ok (processed_path ++ [prev_dest_term; start_term], Some dest_term)
      | None => Ok (processed_path ++ [prev_dest_term], Some dest_term)
      end
  | None =>
      match start_term with
      | Some start_term => Ok (processed_path ++ [start_term], Some dest_term)
      | None => Ok (processed_path, Some dest_term)
      end
  end.
Definition process_path (path : Path) : outcome E (list LocatedQueryTermSubset) :=
  '(processed_path, prev_dest_term) ← try_fold process_step path ([], None);
  Ok (processed_path ++ match prev_dest_term with Some t => [t] | None => [] end).

(** The hash of a term and of those after it. *)
Fixpoint with_suffix_hash (finish : list LocatedQueryTermSubset → N) (path : list LocatedQueryTermSubset) :
    list (LocatedQueryTermSubset * N) :=
  match path with [] => [] | term :: path => (term, finish (rev (term :: path))) :: with_suffix_hash finish path end.

(** The nodes, with the ids of the pairs of a term and a hash. *)
Definition NodeIds : Type := list QueryNodeData * list (LocatedQueryTermSubset * N * N).
Definition find_node_id (key : LocatedQueryTermSubset * N) (ids : list (LocatedQueryTermSubset * N * N)) : option N :=
  snd <$> find (λ e, bool_decide (e.1 = key)) ids.
Definition node_id_of (key : LocatedQueryTermSubset * N) (acc : NodeIds) : outcome E (N * NodeIds) :=
  let '(node_data, ids) := acc in
  match find_node_id key ids with
  | Some id => Ok (id, acc)
  | None => '(id, node_data) ← push (Term key.1) node_data; Ok (id, (node_data, ids ++ [(key, id)]))
  end.
Fixpoint node_ids_of (path : list (LocatedQueryTermSubset * N)) (acc : NodeIds) : outcome E (list N * NodeIds) :=
  match path with
  | [] => Ok ([], acc)
  | key :: path => '(id, acc) ← node_id_of key acc; '(ids, acc) ← node_ids_of path acc; Ok (id :: ids, acc)
  end.
Fixpoint all_node_ids (paths : list (list (LocatedQueryTermSubset * N))) (acc : NodeIds) : outcome E (list (list N) * NodeIds) :=
  match paths with
  | [] => Ok ([], acc)
  | path :: paths => '(ids, acc) ← node_ids_of path acc; '(rest, acc) ← all_node_ids paths acc; Ok (ids :: rest, acc)
  end.
Fixpoint process_paths (paths : list Path) : outcome E (list (list LocatedQueryTermSubset)) :=
  match paths with [] => Ok [] | path :: paths => path ← process_path path; paths ← process_paths paths; Ok (path :: paths) end.

Definition link (prev_node_id node_id : N) (nodes : list QueryNode) : outcome E (list QueryNode) :=
  nodes ← get_mut (λ n, with_successors (successors n ∪ {[node_id]}) n) prev_node_id nodes;
  get_mut (λ n, with_predecessors (predecessors n ∪ {[prev_node_id]}) n) node_id nodes.
Fixpoint link_path (end_node prev_node_id : N) (path : list N) (nodes : list QueryNode) : outcome E (list QueryNode) :=
  match path with
  | [] => link prev_node_id end_node nodes
  | node_id :: path => nodes ← link prev_node_id node_id nodes; link_path end_node node_id path nodes
  end.

Definition build_from_paths (finish : list LocatedQueryTermSubset → N) (paths : list Path) : outcome E QueryGraph :=
  '(root_node, node_data) ← push Start [];
  '(end_node, node_data) ← push End node_data;
  paths ← process_paths paths;
  '(paths, (node_data, _)) ← all_node_ids (with_suffix_hash finish <$> paths) (node_data, []);
  nodes ← try_fold (link_path end_node root_node) paths ((λ d, mkNode d ∅ ∅) <$> node_data);
  Ok (mkGraph root_node end_node nodes).
End code.

(** ** Loops *)
Section loops.
Context {E : Type}.

Lemma try_fold_app {A B} (f : B → A → outcome E A) l1 l2 a : try_fold f (l1 ++ l2) a = a ← try_fold f l1 a; try_fold f l2 a.
Proof. revert a. induction l1 as [|x l1 IH]; intros a; cbn; [done|]. destruct (f x a); cbn; [apply IH|done..]. Qed.

(** A loop keeps an invariant that says what is left to do. *)
Lemma try_fold_inv {A B} (I : list B → A → Prop) (f : B → A → outcome E A) l a :
  I [] a → (∀ done_ x rest a, l = done_ ++ x :: rest → I done_ a → ∃ a', f x a = Ok a' ∧ I (done_ ++ [x]) a') →
  ∃ a', try_fold f l a = Ok a' ∧ I l a'.
Proof.
  intros H0 Hstep. induction l as [|x l IH] using rev_ind; [by exists a|].
  destruct IH as (a1 & Ha1 & HI).
  { intros done_ y rest a1 -> HI. apply (Hstep done_ y (rest ++ [x]) a1); [by rewrite <- app_assoc|done]. }
  destruct (Hstep l x [] a1 eq_refl HI) as (a2 & Ha2 & HI2). exists a2. split; [|done].
  rewrite try_fold_app, Ha1. cbn. by rewrite Ha2.
Qed.

Lemma get_mut_Ok {A} (f : A → A) i l x : l !! N.to_nat i = Some x → get_mut (E := E) f i l = Ok (<[N.to_nat i := f x]> l).
Proof. intros H. unfold get_mut, get. by rewrite H. Qed.

Lemma to_nat_ne (i k : N) : i ≠ k → N.to_nat i ≠ N.to_nat k.
Proof. lia. Qed.

(** Changing some elements. *)
Lemma try_fold_get_mut {A} (f : A → A) ids (l : list A) : NoDup ids → (∀ i, i ∈ ids → is_Some (l !! N.to_nat i)) →
  ∃ l', try_fold (E := E) (λ i, get_mut f i) ids l = Ok l' ∧ length l' = length l ∧
    ∀ k, l' !! N.to_nat k = (if decide (k ∈ ids) then f else λ x, x) <$> l !! N.to_nat k.
Proof.
  revert l. induction ids as [|i ids IH]; intros l Hnd Hin; cbn [try_fold].
  { exists l. split_and!; [done..|]. intros k. rewrite decide_False by by apply not_elem_of_nil. by destruct (l !! _). }
  apply NoDup_cons in Hnd as [Hni Hnd]. destruct (Hin i ltac:(left)) as [x Hx]. rewrite (get_mut_Ok f i l x Hx). cbn.
  destruct (IH (<[N.to_nat i := f x]> l) Hnd) as (l' & Hl' & Hlen & Hlook).
  { intros k Hk. rewrite list_lookup_insert_ne by (apply to_nat_ne; by intros ->). apply Hin. by right. }
  exists l'. split_and!; [done|by rewrite Hlen, length_insert|]. intros k. rewrite Hlook. destruct (decide (k = i)) as [->|Hne].
  - rewrite list_lookup_insert_eq by (by eapply lookup_lt_Some). rewrite decide_False by done. rewrite decide_True by by left. by rewrite Hx.
  - rewrite list_lookup_insert_ne by (apply to_nat_ne; congruence). destruct (decide (k ∈ ids)); [by rewrite decide_True by by right|].
    by rewrite decide_False by (rewrite elem_of_cons; tauto).
Qed.
End loops.

(** ** Nodes *)
Definition data_of (nodes : list QueryNode) (a : N) : option QueryNodeData := data <$> nodes !! N.to_nat a.
Definition succ_of (nodes : list QueryNode) (a : N) : gset N := default ∅ (successors <$> nodes !! N.to_nat a).
Definition pred_of (nodes : list QueryNode) (a : N) : gset N := default ∅ (predecessors <$> nodes !! N.to_nat a).

Lemma elem_of_iter {A} (l : list A) i x : fits16 l → (i, x) ∈ Interner.iter l ↔ l !! N.to_nat i = Some x.
Proof. intros Hf. rewrite (iter_lookup (E := unit)) by done. apply get_Ok. Qed.

Lemma elem_of_indexes {A} (l : list A) i : fits16 l → i ∈ indexes l ↔ is_Some (l !! N.to_nat i).
Proof.
  unfold fits16, indexes. intros Hf. rewrite list_elem_of_fmap. setoid_rewrite elem_of_seq. rewrite lookup_lt_is_Some. split.
  - intros (k & -> & Hk). rewrite N.mod_small by lia. lia.
  - intros Hi. exists (N.to_nat i). rewrite N.mod_small by lia. lia.
Qed.

Lemma NoDup_indexes {A} (l : list A) : fits16 l → NoDup (indexes l).
Proof.
  unfold fits16, indexes. intros Hf. apply NoDup_fmap_2_strong; [|apply NoDup_seq].
  intros i j ?%elem_of_seq ?%elem_of_seq. rewrite !N.mod_small by lia. lia.
Qed.

(** *** The successors of a term *)
Lemma initial_successors_data nodes nodes' p : data <$> nodes = data <$> nodes' → initial_successors nodes p = initial_successors nodes' p.
Proof.
  intros Heq. unfold initial_successors, Interner.iter, indexes. f_equal.
  assert (length nodes = length nodes') as <- by (apply (f_equal length) in Heq; by rewrite !length_fmap in Heq).
  generalize (∅ : gset N, i16_MAX). generalize (seq 0 (length nodes)). intros ixs acc. revert acc ixs nodes' Heq.
  induction nodes as [|n nodes IH]; intros acc ixs [|n' nodes'] Heq; try done.
  destruct ixs as [|i ixs]; [done|]. cbn. cbn in Heq. injection Heq as Hd Hrest. unfold successors_step at 2 4. rewrite Hd. by apply IH.
Qed.

(** The successors are the nodes whose first term is the smallest one after [p]. *)
Record smallest_after (p : Z) (l : list (N * QueryNode)) (s : gset N) (m : Z) : Prop := {
  smallest_le i n x : (i, n) ∈ l → start_next_term_id (data n) = Some x → (p < x)%Z → (m ≤ x)%Z;
  smallest_max : (m ≤ i16_MAX)%Z;
  smallest_members i : i ∈ s ↔ ∃ n, (i, n) ∈ l ∧ start_next_term_id (data n) = Some m ∧ (p < m)%Z;
  smallest_reached : m = i16_MAX ∨ ∃ i n, (i, n) ∈ l ∧ start_next_term_id (data n) = Some m ∧ (p < m)%Z
}.

Lemma successors_fold p l :
  (∀ i n x, (i, n) ∈ l → start_next_term_id (data n) = Some x → (x ≤ i16_MAX)%Z) →
  let acc := fold_left (successors_step p) l (∅, i16_MAX) in smallest_after p l acc.1 acc.2.
Proof.
  cbv zeta. induction l as [|[k n] l IH] using rev_ind; intros Hmax.
  { split; cbn; [by intros ? ? ? ?%not_elem_of_nil|done| |by left]. intros i. split; [set_solver|]. by intros (? & ?%not_elem_of_nil & _). }
  specialize (IH ltac:(intros i n' x Hin; apply (Hmax i n' x); apply elem_of_app; by left)).
  rewrite fold_left_app. cbn [fold_left]. destruct (fold_left _ l _) as [s m]. cbn [fst snd] in IH. destruct IH as [Hle Hm Hs Hr].
  assert (∀ i n', (i, n') ∈ l ++ [(k, n)] ↔ (i, n') ∈ l ∨ i = k ∧ n' = n) as Hin.
  { intros i n'. rewrite elem_of_app, list_elem_of_singleton. naive_solver. }
  cbn [successors_step]. destruct (start_next_term_id (data n)) as [x|] eqn:Hx; [destruct (Z.leb_spec x p) as [Hxp|Hxp]; [|destruct (Z.compare_spec x m) as [->|Hlt|Hgt]]|].
  - split; cbn; try setoid_rewrite Hin; [naive_solver lia|done|intros i; rewrite Hs; naive_solver lia|naive_solver].
  - split; cbn; try setoid_rewrite Hin; [naive_solver lia|done| |naive_solver].
    intros i. rewrite elem_of_union, Hs, elem_of_singleton. naive_solver.
  - split; cbn; try setoid_rewrite Hin; [|lia| |right; exists k, n; naive_solver].
    + intros i n' y [H|[-> ->]] Hy Hpy; [|naive_solver lia]. pose proof (Hle _ _ _ H Hy Hpy). lia.
    + intros i. rewrite elem_of_singleton. split; [intros ->; exists n; naive_solver|].
      intros (n' & [H|[-> ->]] & Hy & Hpx); [|done]. pose proof (Hle _ _ _ H Hy Hpx). lia.
  - split; cbn; try setoid_rewrite Hin; [naive_solver lia|done|intros i; rewrite Hs; naive_solver lia|naive_solver].
  - split; cbn; try setoid_rewrite Hin; [naive_solver|done|intros i; rewrite Hs; naive_solver|naive_solver].
Qed.

(** ** The graph of a query *)

(** The ids of the terms that a node reads, in a query of [n] terms. *)
Definition first_id (n : N) (d : QueryNodeData) : option N :=
  match d with Term t => Some (term_ids t).1 | End => Some n | Start | Deleted => None end.
Definition next_id (d : QueryNodeData) : option N :=
  match d with Term t => Some ((term_ids t).2 + 1) | Start => Some 0 | End | Deleted => None end.
Definition follows (n : N) (nodes : list QueryNode) (a b : N) : Prop :=
  ∃ x, data_of nodes a ≫= next_id = Some x ∧ data_of nodes b ≫= first_id n = Some x.

(** A start, an end, and terms, among them every term alone. *)
Record query_data (n : N) (l : list QueryNodeData) : Prop := {
  query_start : l !! 0%nat = Some Start;
  query_end : l !! 1%nat = Some End;
  query_terms i d : l !! S (S i) = Some d → ∃ t, d = Term t ∧ (term_ids t).1 ≤ (term_ids t).2 < n;
  query_words k : k < n → ∃ i t, l !! i = Some (Term t) ∧ term_ids t = (k, k)
}.

Lemma query_data_cases n l i d : query_data n l → l !! i = Some d →
  i = 0%nat ∧ d = Start ∨ i = 1%nat ∧ d = End ∨ ∃ t, d = Term t ∧ (term_ids t).1 ≤ (term_ids t).2 < n.
Proof.
  intros [H0 H1 Ht _] Hd. destruct i as [|[|i]]; [left|right; left|right; right]; [split; congruence..|by eapply Ht].
Qed.

Lemma data_of_lookup nodes a : data_of nodes a = (data <$> nodes) !! N.to_nat a.
Proof. unfold data_of. by rewrite list_lookup_fmap. Qed.

Lemma end_next d p : end_prev_term_id d = Some p → next_id d = Some (Z.to_N (p + 1)) ∧ (-1 ≤ p)%Z.
Proof. destruct d; cbn; intros [= <-]; split; try lia; f_equal; lia. Qed.

Lemma end_next_None d : end_prev_term_id d = None → next_id d = None.
Proof. by destruct d. Qed.

Section query.
Context (n : N) (nodes : list QueryNode) (Hn : n ≤ 256) (Hfit : fits16 nodes) (Hq : query_data n (data <$> nodes)).

Lemma node_cases i x : (i, x) ∈ Interner.iter nodes →
  data_of nodes i = Some (data x) ∧ (data x = Start ∨ data x = End ∨ ∃ t, data x = Term t ∧ (term_ids t).1 ≤ (term_ids t).2 < n).
Proof.
  intros Hx%elem_of_iter; [|done]. assert (data_of nodes i = Some (data x)) as Hd by (unfold data_of; by rewrite Hx). split; [done|].
  rewrite data_of_lookup in Hd. destruct (query_data_cases _ _ _ _ Hq Hd) as [[_ ?]|[[_ ?]|?]]; auto.
Qed.

Lemma start_bound i x s : (i, x) ∈ Interner.iter nodes → start_next_term_id (data x) = Some s →
  s = i16_MAX ∧ data x = End ∨ ∃ t, data x = Term t ∧ s = Z.of_N (term_ids t).1 ∧ (0 ≤ s < Z.of_N n)%Z.
Proof.
  intros Hx Hs. apply node_cases in Hx as [_ [Hd|[Hd|(t & Hd & Ht)]]]; rewrite Hd in Hs |- *; cbn in Hs; [done|left; by injection Hs as <-|right].
  injection Hs as <-. exists t. split_and!; [done..|lia|lia].
Qed.

(** The node of an index, for its data. *)
Lemma node_at i d : data_of nodes i = Some d → ∃ x, (i, x) ∈ Interner.iter nodes ∧ data x = d.
Proof. unfold data_of. intros (x & Hx & ->)%fmap_Some. exists x. split; [by apply elem_of_iter|done]. Qed.

Lemma word_starts k : k < n → ∃ i x, (i, x) ∈ Interner.iter nodes ∧ start_next_term_id (data x) = Some (Z.of_N k).
Proof.
  intros Hk. destruct (query_words _ _ Hq k Hk) as (i & t & Hi & Ht).
  destruct (node_at (N.of_nat i) (Term t)) as (x & Hx & Hd); [by rewrite data_of_lookup, Nat2N.id|].
  exists (N.of_nat i), x. split; [done|]. rewrite Hd. cbn. by rewrite Ht.
Qed.

Lemma end_starts : ∃ i x, (i, x) ∈ Interner.iter nodes ∧ start_next_term_id (data x) = Some i16_MAX.
Proof.
  destruct (node_at 1 End) as (x & Hx & Hd); [rewrite data_of_lookup; apply Hq|]. exists 1, x. by rewrite Hd.
Qed.

Lemma query_successors a d p : data_of nodes a = Some d → end_prev_term_id d = Some p →
  ∀ b, b ∈ initial_successors nodes p ↔ follows n nodes a b.
Proof.
  intros Ha Hp b. destruct (end_next d p Hp) as [Hnext Hp1].
  assert (p < Z.of_N n)%Z as Hpn.
  { rewrite data_of_lookup in Ha. destruct (query_data_cases _ _ _ _ Hq Ha) as [[_ ->]|[[_ ->]|(t & -> & Ht)]]; cbn in Hp; simplify_eq; lia. }
  destruct (successors_fold p (Interner.iter nodes)) as [Hle Hmax Hs Hr].
  { intros i x s Hx Hs. destruct (start_bound i x s Hx Hs) as [[-> _]|(t & _ & _ & Hb)]; unfold i16_MAX; lia. }
  unfold initial_successors. rewrite Hs. generalize dependent (fold_left (successors_step p) (Interner.iter nodes) (∅, i16_MAX)).
  intros [s m]. cbn. intros Hle Hmax Hs Hr.
  assert (m = if decide (p + 1 < Z.of_N n)%Z then (p + 1)%Z else i16_MAX) as Hm.
  { case_decide as Hlt.
    - destruct (word_starts (Z.to_N (p + 1)) ltac:(lia)) as (i & x & Hx & Hst).
      pose proof (Hle i x _ Hx Hst ltac:(lia)). destruct Hr as [->|(i' & x' & _ & _ & ?)]; unfold i16_MAX in *; lia.
    - destruct Hr as [?|(i' & x' & Hx' & Hst & ?)]; [done|].
      destruct (start_bound i' x' m Hx' Hst) as [[? _]|(t & _ & _ & ?)]; [done|lia]. }
  unfold follows. rewrite Ha. cbn. rewrite Hnext. split.
  - intros (x & Hx & Hst & _). eexists. split; [done|]. destruct (node_cases b x Hx) as [-> _]. cbn.
    destruct (start_bound b x m Hx Hst) as [[Hmm Hd]|(t & Hd & Hst' & Hb)]; rewrite Hd; cbn; f_equal; case_decide; unfold i16_MAX in *; lia.
  - intros (y & [= <-] & Hb). apply bind_Some in Hb as (d' & Hd' & Hf). destruct (node_at b d' Hd') as (x & Hx & <-).
    exists x. split; [done|]. rewrite Hm. destruct (node_cases b x Hx) as [_ [Hd|[Hd|(t & Hd & Ht)]]]; rewrite Hd in Hf |- *; cbn in Hf |- *; [done|..].
    + injection Hf as Hf. rewrite decide_False by lia. unfold i16_MAX. split; [done|lia].
    + injection Hf as Hf. rewrite decide_True by lia. split; [f_equal|]; lia.
Qed.
End query.

(** [predecessors] and [successors] are the two sides of the same edges. *)
Definition edges_agree (nodes : list QueryNode) : Prop := ∀ a b, a ∈ pred_of nodes b ↔ b ∈ succ_of nodes a.

Section build.
Context {E : Type}.
Lemma NoDup_iter_bits s : NoDup (bitmap_iter s).
Proof. unfold bitmap_iter. rewrite merge_sort_Permutation. apply NoDup_elements. Qed.
Lemma elem_of_iter_bits d s : d ∈ bitmap_iter s ↔ d ∈ s.
Proof. unfold bitmap_iter. by rewrite merge_sort_Permutation, elem_of_elements. Qed.

(** A change of the nodes of a set. *)
Lemma try_fold_bits (f : QueryNode → QueryNode) (s : gset N) nodes : (∀ i, i ∈ s → is_Some (nodes !! N.to_nat i)) →
  ∃ nodes', try_fold (E := E) (λ i, get_mut f i) (bitmap_iter s) nodes = Ok nodes' ∧ length nodes' = length nodes ∧
    ∀ k, nodes' !! N.to_nat k = (if decide (k ∈ s) then f else λ x, x) <$> nodes !! N.to_nat k.
Proof.
  intros Hs. destruct (try_fold_get_mut (E := E) f (bitmap_iter s) nodes) as (nodes' & H1 & H2 & H3).
  - apply NoDup_iter_bits.
  - intros i Hi%elem_of_iter_bits. by apply Hs.
  - exists nodes'. split_and!; [done..|]. intros k. rewrite H3. f_equal. by rewrite (decide_ext (k ∈ bitmap_iter s) (k ∈ s)) by apply elem_of_iter_bits.
Qed.

Lemma same_data nodes nodes' : length nodes' = length nodes → (∀ k, data_of nodes' k = data_of nodes k) → data <$> nodes' = data <$> nodes.
Proof.
  intros Hlen H. apply list_eq. intros i. specialize (H (N.of_nat i)). by rewrite !data_of_lookup, !Nat2N.id in H.
Qed.

Lemma length_data nodes nodes' : data <$> nodes' = data <$> nodes → length nodes' = length nodes.
Proof. intros H. apply (f_equal length) in H. by rewrite !length_fmap in H. Qed.

Lemma follows_data n nodes nodes' a b : data <$> nodes' = data <$> nodes → follows n nodes' a b ↔ follows n nodes a b.
Proof. intros H. unfold follows. by rewrite !data_of_lookup, H. Qed.

Lemma follows_in_range n nodes a b : follows n nodes a b → is_Some (nodes !! N.to_nat a) ∧ is_Some (nodes !! N.to_nat b).
Proof. unfold follows, data_of. intros (x & Ha & Hb). destruct (nodes !! N.to_nat a), (nodes !! N.to_nat b); naive_solver. Qed.

(** The edges of the nodes before a point of the loop. *)
Record edges_done (n : N) (nodes : list QueryNode) (done_ : list N) (nodes' : list QueryNode) : Prop := {
  done_data : data <$> nodes' = data <$> nodes;
  done_succ a b : b ∈ succ_of nodes' a ↔ a ∈ done_ ∧ follows n nodes a b;
  done_pred a b : a ∈ pred_of nodes' b ↔ a ∈ done_ ∧ follows n nodes a b
}.

Lemma add_edges_done n nodes done_ a nodes1 :
  n ≤ 256 → fits16 nodes → query_data n (data <$> nodes) → a ∉ done_ → is_Some (nodes !! N.to_nat a) →
  edges_done n nodes done_ nodes1 → ∃ nodes2, add_edges (E := E) a nodes1 = Ok nodes2 ∧ edges_done n nodes (done_ ++ [a]) nodes2.
Proof.
  intros Hn Hfit Hq Ha Hin [Hd Hsucc Hpred]. pose proof (length_data _ _ Hd) as Hlen.
  assert (∃ x, nodes1 !! N.to_nat a = Some x) as [x Hx]. { apply lookup_lt_is_Some. rewrite Hlen. by apply lookup_lt_is_Some. }
  assert (data_of nodes a = Some (data x)) as Hda. { rewrite data_of_lookup, <- Hd, list_lookup_fmap, Hx. done. }
  unfold add_edges, get. rewrite Hx. cbn. destruct (end_prev_term_id (data x)) as [p|] eqn:Hp; cycle 1.
  { exists nodes1. split; [done|]. assert (∀ b, ¬ follows n nodes a b) as Hno.
    { intros b (y & Hy & _). rewrite Hda in Hy. cbn in Hy. by rewrite end_next_None in Hy. }
    split; [done|intros c b; rewrite Hsucc|intros c b; rewrite Hpred]; rewrite elem_of_app, list_elem_of_singleton; naive_solver. }
  pose proof (query_successors n nodes Hn Hfit Hq a _ p Hda Hp) as Hb. rewrite (initial_successors_data nodes1 nodes p Hd).
  rewrite (get_mut_Ok (E := E) _ a nodes1 x Hx). cbn [mbind outcome_bind].
  set (S := initial_successors nodes p) in *.
  destruct (try_fold_bits (λ n, with_predecessors (predecessors n ∪ {[a]}) n) S (<[N.to_nat a:=with_successors S x]> nodes1))
    as (nodes2 & Hok & Hlen2 & Hlook).
  { intros i Hi%Hb%follows_in_range. apply lookup_lt_is_Some. rewrite length_insert, Hlen. apply lookup_lt_is_Some, Hi. }
  rewrite length_insert in Hlen2. exists nodes2. split; [exact Hok|].
  assert (∀ k, nodes2 !! N.to_nat k =
    (λ y, mkNode (data y) (if decide (k ∈ S) then predecessors y ∪ {[a]} else predecessors y) (if decide (k = a) then S else successors y)) <$>
      nodes1 !! N.to_nat k) as Hnew.
  { intros k. rewrite Hlook. destruct (decide (k = a)) as [->|Hne].
    - rewrite list_lookup_insert_eq by (by eapply lookup_lt_Some). rewrite Hx. cbn. f_equal. by case_decide.
    - rewrite list_lookup_insert_ne by (apply to_nat_ne; congruence). destruct (nodes1 !! N.to_nat k) as [[]|]; cbn; [|done]. f_equal. by case_decide. }
  clear Hlook. split.
  - rewrite <- Hd. apply same_data; [done|]. intros k. unfold data_of. rewrite Hnew. destruct (nodes1 !! N.to_nat k); done.
  - intros c b. specialize (Hsucc c b). unfold succ_of in *. rewrite Hnew. rewrite elem_of_app, list_elem_of_singleton. destruct (decide (c = a)) as [->|Hne].
    + rewrite Hx. cbn. rewrite Hb. naive_solver.
    + destruct (nodes1 !! N.to_nat c); cbn in *; rewrite Hsucc; naive_solver.
  - intros c b. specialize (Hpred c b). unfold pred_of in *. rewrite Hnew, elem_of_app, list_elem_of_singleton.
    destruct (nodes1 !! N.to_nat b) as [y|] eqn:Hy; cbn in *.
    + case_decide as HbS; [rewrite elem_of_union, elem_of_singleton, Hpred; naive_solver|]. rewrite Hpred. rewrite Hb in HbS. naive_solver.
    + rewrite Hpred. split; [naive_solver|]. intros [_ [_ Hr]%follows_in_range]. apply lookup_ge_None in Hy. rewrite lookup_lt_is_Some in Hr. lia.
Qed.

Lemma build_initial_edges_spec n g :
  n ≤ 256 → fits16 (nodes g) → query_data n (data <$> nodes g) →
  ∃ g', build_initial_edges (E := E) g = Ok g' ∧ root_node g' = root_node g ∧ end_node g' = end_node g ∧
    data <$> nodes g' = data <$> nodes g ∧ edges_agree (nodes g') ∧ ∀ a b, b ∈ succ_of (nodes g') a ↔ follows n (nodes g') a b.
Proof.
  intros Hn Hfit Hq. unfold build_initial_edges. set (nodes0 := (λ n, mkNode (data n) ∅ ∅) <$> nodes g).
  assert (data <$> nodes0 = data <$> nodes g) as Hd0 by (unfold nodes0; by rewrite <- list_fmap_compose).
  assert (fits16 nodes0) as Hfit0 by (unfold fits16, nodes0; by rewrite length_fmap).
  destruct (try_fold_inv (edges_done n nodes0) (add_edges (E := E)) (indexes nodes0) nodes0) as (nodes' & Hok & Hdone).
  - split; [done|..]; intros a b; (split; [|by intros [?%not_elem_of_nil _]]); unfold succ_of, pred_of, nodes0; rewrite list_lookup_fmap;
      destruct (nodes g !! _); cbn; set_solver.
  - intros done_ a rest nodes1 Hl Hdone. apply add_edges_done; [done..|by rewrite Hd0| | |done].
    + pose proof (NoDup_indexes nodes0 Hfit0) as Hnd. rewrite Hl in Hnd. apply NoDup_app in Hnd as (_ & Hnd & _). intros Hin. apply (Hnd a Hin). left.
    + apply elem_of_indexes; [done|]. rewrite Hl. apply elem_of_app. right. left.
  - cbn zeta. rewrite Hok. cbn. eexists. split_and!; [done..| | |]; destruct Hdone as [Hd Hs Hp]; cbn [nodes with_nodes].
    + by rewrite Hd.
    + intros a b. by rewrite Hs, Hp.
    + intros a b. rewrite Hs, (follows_data n nodes0 nodes' a b Hd), elem_of_indexes by done. split; [naive_solver|].
      intros Hf. split; [|done]. by apply follows_in_range in Hf as [? _].
Qed.
End build.

(** *** The nodes of a query *)
Section from_query.
Context {E : Type} (make_ngram : list LocatedQueryTerm → outcome E (option LocatedQueryTerm)) (terms : list LocatedQueryTerm).
Hypothesis make_ngram_ok : ∀ ts, ∃ o, make_ngram ts = Ok o.
Hypothesis few_terms : (length terms ≤ 256)%nat.

Lemma query_data_snoc n l t : query_data n l → (term_ids t).1 ≤ (term_ids t).2 < n → query_data n (l ++ [Term t]).
Proof.
  intros [H0 H1 Ht Hw] Hi. split.
  - by apply lookup_app_l_Some.
  - by apply lookup_app_l_Some.
  - intros i d [[_ H]|[_ <-]]%lookup_snoc_Some; [by eapply Ht|by exists t].
  - intros k Hk. destruct (Hw k Hk) as (i & t' & Hi' & Ht'). exists i, t'. split; [by apply lookup_app_l_Some|done].
Qed.

Lemma query_data_next (n : nat) l t : query_data (N.of_nat n) l → term_ids t = (N.of_nat n, N.of_nat n) →
  query_data (N.of_nat (S n)) (l ++ [Term t]).
Proof.
  intros [H0 H1 Ht Hw] Hi. split.
  - by apply lookup_app_l_Some.
  - by apply lookup_app_l_Some.
  - intros i d [[_ H]|[_ <-]]%lookup_snoc_Some; [destruct (Ht i d H) as (t' & -> & ?); exists t'; split; [done|lia]|].
    exists t. rewrite Hi. cbn. split; [done|lia].
  - intros k Hk. destruct (decide (k < N.of_nat n)) as [Hlt|Hge].
    + destruct (Hw k Hlt) as (i & t' & Hi' & Ht'). exists i, t'. split; [by apply lookup_app_l_Some|done].
    + assert (k = N.of_nat n) as -> by lia. exists (length l), t. split; [by apply list_lookup_middle|done].
Qed.

(** The variables of the loop after [k] terms. *)
Record building (k : nat) (b : Building) : Prop := {
  building_data : query_data (N.of_nat k) (nodes_data b);
  building_len : (length (nodes_data b) ≤ 2 + 3 * k)%nat;
  building_prev1 : k = 0%nat → prev1 b = [];
  building_prev2 : (k ≤ 1)%nat → prev2 b = []
}.

Lemma wrap8_small n : n < 256 → wrap8 n = n.
Proof. apply N.mod_small. Qed.

Lemma add_ngram_spec k size nodes_data located new_nodes :
  (1 ≤ size ≤ k)%nat → (k < 256)%nat → query_data (N.of_nat (S k)) nodes_data →
  ∃ nodes_data' located' new_nodes', add_ngram make_ngram terms k size (nodes_data, located, new_nodes) = Ok (nodes_data', located', new_nodes') ∧
    query_data (N.of_nat (S k)) nodes_data' ∧ (length nodes_data' ≤ S (length nodes_data))%nat.
Proof.
  intros Hsize Hk Hq. unfold add_ngram. destruct (make_ngram_ok (take (size + 1) (drop (k - size) terms))) as [[ngram|] ->]; cbn.
  - eexists _, _, _. split; [done|]. split; [|rewrite length_app; cbn; lia]. apply query_data_snoc; [done|].
    cbn [term_ids fst snd]. rewrite (wrap8_small (N.of_nat k)) by lia. unfold wrap8.
    replace (N.of_nat k + (256 - N.of_nat size)) with (N.of_nat k - N.of_nat size + 1 * 256) by lia.
    rewrite N.Div0.mod_add, N.mod_small by lia. lia.
  - eexists _, _, _. split; [done|]. split; [done|lia].
Qed.

Lemma add_term_spec k b : (k < length terms)%nat → building k b → ∃ b', add_term make_ngram terms k b = Ok b' ∧ building (S k) b'.
Proof.
  intros Hk [Hq Hlen H1 H2]. unfold add_term. destruct (lookup_lt_is_Some_2 terms k Hk) as [term ->]. cbn.
  assert (query_data (N.of_nat (S k)) (nodes_data b ++ [term_node (value term) (term_positions term) (wrap8 (N.of_nat k)) (wrap8 (N.of_nat k))])) as Hq1.
  { apply query_data_next; [done|]. cbn. by rewrite wrap8_small by lia. }
  set (data1 := nodes_data b ++ _) in *. assert (length data1 = S (length (nodes_data b))) as Hlen1 by (unfold data1; rewrite length_app; cbn; lia).
  assert (∃ d2 l2 n2, (if bool_decide (prev1 b = []) then Ok (data1, new_located_query_terms b, [interned_len (nodes_data b)])
      else add_ngram make_ngram terms k 1 (data1, new_located_query_terms b, [interned_len (nodes_data b)])) = Ok (d2, l2, n2) ∧
    query_data (N.of_nat (S k)) d2 ∧ (length d2 ≤ S (length data1))%nat) as (d2 & l2 & n2 & Hok2 & Hq2 & Hlen2).
  { case_bool_decide as Hp; [eexists _, _, _; split; [done|]; split; [done|lia]|]. apply add_ngram_spec; [|lia|done].
    destruct k; [by rewrite H1 in Hp|lia]. }
  setoid_rewrite Hok2. clear Hok2. cbn.
  assert (∃ d3 l3 n3, (if bool_decide (prev2 b = []) then Ok (d2, l2, n2) else add_ngram make_ngram terms k 2 (d2, l2, n2)) = Ok (d3, l3, n3) ∧
    query_data (N.of_nat (S k)) d3 ∧ (length d3 ≤ S (length d2))%nat) as (d3 & l3 & n3 & Hok3 & Hq3 & Hlen3).
  { case_bool_decide as Hp; [eexists _, _, _; split; [done|]; split; [done|lia]|]. apply add_ngram_spec; [|lia|done].
    destruct k as [|[|k]]; [rewrite H2 in Hp by lia; done..|lia]. }
  setoid_rewrite Hok3. cbn. eexists. split; [done|]. split; cbn; [done|lia|done|]. intros Hk1. apply H1. lia.
Qed.

Lemma add_terms_spec : ∃ b, try_fold (add_term make_ngram terms) (seq 0 (length terms)) (mkBuilding [Start; End] terms [] [] [0]) = Ok b ∧
  building (length terms) b.
Proof.
  destruct (try_fold_inv (λ done_, building (length done_)) (add_term make_ngram terms) (seq 0 (length terms))
    (mkBuilding [Start; End] terms [] [] [0])) as (b & Hb & HI).
  - split; cbn; [|lia|done..]. split; [done..|by intros i d ?|lia].
  - intros done_ k rest b Hl Hb. assert (k = length done_ ∧ (k < length terms)%nat) as [-> Hk].
    { assert (seq 0 (length terms) !! length done_ = Some k) as Hk%lookup_seq; [|lia]. rewrite Hl. by apply list_lookup_middle. }
    rewrite length_app, Nat.add_1_r. by apply add_term_spec.
  - rewrite length_seq in HI. by exists b.
Qed.

Lemma set_data_spec (l : list QueryNodeData) : fits16 l →
  ∃ nodes, set_data (E := E) l (replicate (length l) (mkNode Deleted ∅ ∅)) = Ok nodes ∧ data <$> nodes = l.
Proof.
  intros Hf. unfold set_data.
  destruct (try_fold_inv (λ done_ nodes, length nodes = length l ∧ ∀ i, (i < length done_)%nat → data <$> nodes !! i = l !! i)
    (λ '(node_idx, node_data), get_mut (E := E) (with_data node_data) node_idx) (Interner.iter l) (replicate (length l) (mkNode Deleted ∅ ∅)))
    as (nodes & Hok & Hlen & Hd).
  - rewrite length_replicate. split; [done|]. cbn. lia.
  - intros done_ [i d] rest nodes Hl [Hlen Hd].
    assert (Interner.iter l !! length done_ = Some (i, d)) as Hid by (rewrite Hl; by apply list_lookup_middle).
    unfold Interner.iter in Hid. apply lookup_zip_with_Some in Hid as (i' & d' & [= <- <-] & Hi & Hld).
    unfold indexes in Hi. apply list_lookup_fmap_Some in Hi as (j & -> & [-> Hj]%lookup_seq).
    unfold fits16 in Hf. rewrite N.mod_small by lia. cbn [Nat.add].
    destruct (lookup_lt_is_Some_2 nodes (length done_)) as [x Hx]; [lia|].
    rewrite (get_mut_Ok _ _ _ x) by by rewrite Nat2N.id. rewrite Nat2N.id. eexists. split; [done|]. rewrite length_insert. split; [done|].
    intros k. rewrite length_app. cbn. intros Hk. destruct (decide (k = length done_)) as [->|].
    + rewrite list_lookup_insert_eq by lia. by rewrite Hld.
    + rewrite list_lookup_insert_ne by lia. apply Hd. lia.
  - exists nodes. split; [done|]. apply list_eq. intros i. rewrite list_lookup_fmap.
    assert (length (Interner.iter l) = length l) as Hil.
    { unfold Interner.iter, indexes. rewrite length_zip_with, length_fmap, length_seq. lia. }
    destruct (decide (i < length l)%nat); [apply Hd; lia|]. rewrite !lookup_ge_None_2 by lia. done.
Qed.

(** The query graph: its nodes are the terms and the ngrams, and there is an edge from a node to
    another when the latter starts with the term that follows the former. *)
Lemma from_query_edges : ∃ g located, from_query make_ngram terms = Ok (g, located) ∧ root_node g = 0 ∧ end_node g = 1 ∧
  fits16 (nodes g) ∧ query_data (N.of_nat (length terms)) (data <$> nodes g) ∧ edges_agree (nodes g) ∧
  ∀ a b, b ∈ succ_of (nodes g) a ↔ follows (N.of_nat (length terms)) (nodes g) a b.
Proof.
  destruct add_terms_spec as (b & Hb & [Hq Hlen _ _]). unfold from_query. rewrite Hb. cbn [mbind outcome_bind].
  assert (fits16 (nodes_data b)) as Hf by (unfold fits16; lia).
  assert (N.to_nat (interned_len (nodes_data b)) = length (nodes_data b)) as ->.
  { unfold interned_len, fits16 in *. rewrite N.mod_small by lia. lia. }
  destruct (set_data_spec (nodes_data b) Hf) as (nodes & -> & Hd). cbn [mbind outcome_bind].
  assert (length nodes = length (nodes_data b)) as Hln by by rewrite <- Hd, length_fmap.
  destruct (build_initial_edges_spec (E := E) (N.of_nat (length terms)) (mkGraph 0 1 nodes)) as (g & -> & Hr & He & Hdg & Hag & Hsucc); cbn in *.
  - lia.
  - unfold fits16 in *. by rewrite Hln.
  - by rewrite Hd.
  - assert (length (QueryGraph.nodes g) = length nodes) as Hlg by by apply length_data. eexists _, _. split; [done|]. split_and!; [done..| | |done|done].
    + unfold fits16 in *. by rewrite Hlg, Hln.
    + by rewrite Hdg, Hd.
Qed.
End from_query.

(** ** Readings *)

(** A path from a node to the end, with the ids of the terms of its nodes. *)
Inductive reads (g : QueryGraph) : N → list (N * N) → Prop :=
| reads_end a : end_node g ∈ succ_of (nodes g) a → reads g a []
| reads_term a b t l : b ∈ succ_of (nodes g) a → data_of (nodes g) b = Some (Term t) → reads g b l → reads g a (term_ids t :: l).

(** Ranges of terms that follow each other from [x] to [n], each that of a node. *)
Fixpoint tiles (n : N) (nodes : list QueryNode) (x : N) (l : list (N * N)) : Prop :=
  match l with
  | [] => x = n
  | ids :: l => ids.1 = x ∧ (∃ i t, data_of nodes i = Some (Term t) ∧ term_ids t = ids) ∧ tiles n nodes (ids.2 + 1) l
  end.

Definition ranked (rank : N → nat) (bound : nat) (nodes : list QueryNode) : Prop :=
  ∀ a b, b ∈ succ_of nodes a → (rank b < rank a ≤ bound)%nat.
Definition acyclic (nodes : list QueryNode) : Prop := ∃ rank bound, ranked rank bound nodes.

Section readings.
Context (n : N) (g : QueryGraph).
Hypothesis Hend : end_node g = 1.
Hypothesis Hq : query_data n (data <$> nodes g).
Hypothesis Hsucc : ∀ a b, b ∈ succ_of (nodes g) a ↔ follows n (nodes g) a b.

Lemma node_term i t : data_of (nodes g) i = Some (Term t) → (term_ids t).1 ≤ (term_ids t).2 < n.
Proof.
  rewrite data_of_lookup. intros Hd. destruct (query_data_cases _ _ _ _ Hq Hd) as [[_ ?]|[[_ ?]|(t' & [= ->] & ?)]]; done.
Qed.

Lemma end_data i : data_of (nodes g) i = Some End ↔ i = 1.
Proof.
  rewrite data_of_lookup. split; [|intros ->; apply Hq]. intros Hd. destruct (query_data_cases _ _ _ _ Hq Hd) as [[_ ?]|[[? _]|(? & ? & _)]]; [done|lia|done].
Qed.

Lemma reads_tiles a x l : data_of (nodes g) a ≫= next_id = Some x → reads g a l ↔ tiles n (nodes g) x l.
Proof.
  intros Ha. split.
  - intros Hr. revert x Ha. induction Hr as [a H|a b t l Hb Ht _ IH]; intros x Ha; cbn.
    + apply Hsucc in H as (y & Hy & He). rewrite Hend, (proj2 (end_data 1)) in He by done. cbn in He. congruence.
    + apply Hsucc in Hb as (y & Hy & Hf). rewrite Ht in Hf. cbn in Hf. split_and!; [congruence|by exists b, t|].
      apply IH. by rewrite Ht.
  - revert a x Ha. induction l as [|ids l IH]; intros a x Ha; cbn.
    + intros ->. apply reads_end, Hsucc. exists n. split; [done|]. by rewrite Hend, (proj2 (end_data 1)).
    + intros (<- & (i & t & Hi & <-) & Hl). apply (reads_term g a i t); [|done|].
      * apply Hsucc. exists (term_ids t).1. by rewrite Hi.
      * apply (IH i ((term_ids t).2 + 1)); [by rewrite Hi|done].
Qed.

Lemma range_split x e : x ≤ e < n →
  (λ k, x + N.of_nat k) <$> seq 0 (N.to_nat (n - x)) = ids_of (x, e) ++ ((λ k, (e + 1) + N.of_nat k) <$> seq 0 (N.to_nat (n - (e + 1)))).
Proof.
  intros Hx. unfold ids_of. cbn [fst snd]. replace (N.to_nat (n - x)) with (N.to_nat (e + 1 - x) + N.to_nat (n - (e + 1)))%nat by lia.
  rewrite seq_app, fmap_app. f_equal. rewrite Nat.add_0_l, <- (Nat.add_0_r (N.to_nat (e + 1 - x))) at 1.
  rewrite <- fmap_add_seq, <- list_fmap_compose. apply list_fmap_ext. intros _ k _. cbn. lia.
Qed.

Lemma tiles_ids x l : tiles n (nodes g) x l → x ≤ n ∧ concat (ids_of <$> l) = (λ k, x + N.of_nat k) <$> seq 0 (N.to_nat (n - x)).
Proof.
  revert x. induction l as [|ids l IH]; intros x; cbn.
  - intros ->. split; [lia|]. by replace (N.to_nat (n - n)) with 0%nat by lia.
  - intros (Hx & (i & t & Hi & <-) & [_ Hl]%IH). pose proof (node_term i t Hi) as Ht. rewrite Hx in Ht. split; [lia|].
    rewrite Hl, (range_split x (term_ids t).2) by done. f_equal. destruct (term_ids t); cbn in *; congruence.
Qed.

Lemma query_acyclic : acyclic (nodes g).
Proof.
  exists (λ a, match data_of (nodes g) a ≫= next_id with Some x => S (N.to_nat (n - x)) | None => 0%nat end), (S (N.to_nat n)).
  intros a b (x & Ha & Hb)%Hsucc. rewrite Ha. destruct (data_of (nodes g) b) as [d|] eqn:Hd; [|done]. cbn in Hb |- *.
  destruct d as [t| | |]; cbn in *; [|done|done|lia]. pose proof (node_term b t Hd). injection Hb as <-. lia.
Qed.
End readings.


Module Demo.
Definition two_words : list LocatedQueryTerm := [mkLocatedTerm 0 (0, 0); mkLocatedTerm 1 (1, 1)].
Definition one_ngram (ts : list LocatedQueryTerm) : outcome unit (option LocatedQueryTerm) := Ok (Some (mkLocatedTerm 2 (0, 1))).

End Demo.
