(* ===== verification/Traversal.v ===== *)
(** * Loops over a queue of nodes

    The search graphs are explored by loops that pop a node from a queue and push it back
    when it is not ready, that is when a node it depends on is not done.  On a graph without
    cycles some node of the queue is always ready, and the loops end. *)
From S2P Require Import Prelude Interner QueryTerm QueryGraph.

(** [while let Some(x) = queue.pop_front()]: a loop whose body goes on or returns; [None] when
    the fuel is spent. *)
Fixpoint loop {E S R} (step : S → outcome E (S + R)) (fuel : nat) (s : S) : option (outcome E R) :=
  match fuel with
  | O => None
  | S fuel =>
      match step s with
      | Ok (inl s) => loop step fuel s
      | Ok (inr r) => Some (Ok r)
      | Err e => Some (Err e)
      | Panic msg => Some (Panic msg)
      end
  end.

(** A loop whose invariant has a measure that decreases returns. *)
Lemma loop_returns {E S R} (step : S → outcome E (S + R)) (Inv : nat → S → Prop) (P : R → Prop) :
  (∀ k s, Inv k s → (∃ r, step s = Ok (inr r) ∧ P r) ∨ ∃ k' s', step s = Ok (inl s') ∧ Inv k' s' ∧ k' < k) →
  ∀ fuel k s, Inv k s → k < fuel → ∃ r, loop step fuel s = Some (Ok r) ∧ P r.
Proof.
  intros Hstep fuel. induction fuel as [|fuel IH]; intros k s HI Hk; [lia|]. cbn.
  destruct (Hstep k s HI) as [(r & -> & Hr)|(k' & s' & -> & HI' & Hlt)]; [by exists r|]. apply (IH k'); [done|lia].
Qed.

(** ** Nodes that are ready *)
Section ready.
Context (T : gset N) (deps : N → gset N) (rank : N → nat).
Hypothesis deps_rank : ∀ x y, y ∈ T → x ∈ deps y → x ∈ T → rank x < rank y.

Definition ready (done_ : gset N) (y : N) : Prop := ∀ x, x ∈ deps y → x ∈ T → x ∈ done_.

(** A node of smallest rank among those that are left is ready. *)
Lemma smallest_ready (done_ : gset N) : ¬ T ⊆ done_ → ∃ y, y ∈ T ∖ done_ ∧ ready done_ y.
Proof.
  intros HT. assert (∃ y, y ∈ T ∖ done_) as [y Hy].
  { destruct (set_choose_or_empty (T ∖ done_)) as [[y Hy]|He]; [by exists y|]. exfalso. apply HT. intros x Hx.
    destruct (decide (x ∈ done_)); [done|]. set_solver. }
  remember (rank y) as k eqn:Hk. revert y Hk Hy. induction (lt_wf k) as [k _ IH]. intros y -> Hy.
  destruct (decide (set_Forall (λ x, x ∈ done_) (deps y ∩ T))) as [Hall|Hne].
  - exists y. split; [done|]. intros x Hx HxT. apply Hall. set_solver.
  - apply not_set_Forall_Exists in Hne as (x & Hx & Hnd); [|intros x; apply _]. apply elem_of_intersection in Hx as [Hx HxT].
    apply (IH (rank x)) with x; [|done|set_solver]. apply deps_rank; [set_solver|done..].
Qed.

(** It is in the queue when the queue has every node that is ready. *)
Lemma queue_ready (done_ : gset N) (queue : list N) :
  (∀ y, y ∈ T → y ∉ done_ → ready done_ y → y ∈ queue) → ¬ T ⊆ done_ →
  ∃ before x after, queue = before ++ x :: after ∧ x ∈ T ∖ done_ ∧ ready done_ x.
Proof.
  intros Hq HT. destruct (smallest_ready done_ HT) as (y & Hy & Hr).
  assert (y ∈ queue) as (before & after & ->)%list_elem_of_split by (apply Hq; set_solver). by exists before, y, after.
Qed.
End ready.
