(* ===== verification/QueryResolve.v ===== *)
(** * The documents of a query graph (milli/src/search/new/resolve_query_graph.rs)

    The documents of a phrase and of a term, and those that satisfy a path of the query graph
    from its start to its end.  The universe of a search is found with the graph from which
    the words that can be given up are removed (search/new/mod.rs). *)
From S2P Require Import Prelude Interner QueryTerm QueryGraph Traversal.
From S2P Require DocumentsIds Transform.
Import DocumentsIds (DocumentId).
Import Transform (bitmap_iter).
#[local] Open Scope N_scope.

(** The databases of words: the documents of a word, of a pair of words at a distance, of a
    prefix. *)
Record WordDbs := mkWordDbs {
  word_docids : Word → option (gset DocumentId);
  get_db_word_pair_proximity_docids : N → N → N → option (gset DocumentId);
  word_prefix_docids : Word → option (gset DocumentId);
  get_db_word_fid_docids : N → N → option (gset DocumentId);
  get_db_word_prefix_fid_docids : N → N → option (gset DocumentId);
  get_db_word_position_docids : N → N → option (gset DocumentId);
  get_db_word_prefix_position_docids : N → N → option (gset DocumentId)
}.

Definition interned (w : Word) : N := match w with Original word | Derived word => word end.

(** The interners, and the cache of the documents of phrases. *)
Record ResolveCtx := mkResolve { search_ctx : SearchContext; phrase_docids : gmap N (gset DocumentId) }.

(** ** Phrases *)
Definition windows {A} (size : nat) (l : list A) : list (list A) := (λ i, take size (drop i l)) <$> seq 0 (length l + 1 - size).

Section phrases.
Context (dbs : WordDbs).

(** The union of the documents of the words; [None] when a word is unknown. *)
Fixpoint words_union (words : Phrase) (candidates : gset DocumentId) : option (gset DocumentId) :=
  match words with
  | [] => Some candidates
  | None :: words => words_union words candidates
  | Some word :: words =>
      match word_docids dbs (Original word) with
      | Some word_docids => words_union words (candidates ∪ word_docids)
      | None => None
      end
  end.

(** The documents where two words are in order, with [dist] words between them at most;
    [None] when there are none. *)
Definition pair_docids (s1 s2 : N) (dist : nat) : option (gset DocumentId) :=
  match dist with
  | O => get_db_word_pair_proximity_docids dbs s1 s2 1
  | S _ =>
      let bitmap := fold_left (λ bitmap dist,
        match get_db_word_pair_proximity_docids dbs s1 s2 (N.of_nat dist + 1) with Some m => bitmap ∪ m | None => bitmap end)
        (seq 0 (dist + 1)) ∅ in
      if decide (bitmap = ∅) then None else Some bitmap
  end.

(** The pairs of a word and those after it. *)
Fixpoint pairs_after (s1 : N) (dist : nat) (rest : Phrase) (bitmaps : list (gset DocumentId)) : option (list (gset DocumentId)) :=
  match rest with
  | [] => Some bitmaps
  | None :: rest => pairs_after s1 (S dist) rest bitmaps
  | Some s2 :: rest =>
      match pair_docids s1 s2 dist with
      | Some bitmap => pairs_after s1 (S dist) rest (bitmaps ++ [bitmap])
      | None => None
      end
  end.
Fixpoint window_bitmaps (win : Phrase) (bitmaps : list (gset DocumentId)) : option (list (gset DocumentId)) :=
  match win with
  | [] => Some bitmaps
  | None :: win => window_bitmaps win bitmaps
  | Some s1 :: win =>
      match pairs_after s1 0 win bitmaps with
      | Some bitmaps => window_bitmaps win bitmaps
      | None => None
      end
  end.

Definition smaller (a b : gset DocumentId) : Prop := (size a ≤ size b)%nat.
#[export] Instance smaller_dec : RelDecision smaller.
Proof. unfold smaller. solve_decision. Defined.

Fixpoint intersect_all (bitmaps : list (gset DocumentId)) (candidates : gset DocumentId) : gset DocumentId :=
  match bitmaps with
  | [] => candidates
  | bitmap :: bitmaps =>
      let candidates := candidates ∩ bitmap in
      if decide (candidates = ∅) then candidates else intersect_all bitmaps candidates
  end.

Fixpoint phrase_windows (wins : list Phrase) (candidates : gset DocumentId) : gset DocumentId :=
  match wins with
  | [] => candidates
  | win :: wins =>
      match window_bitmaps win [] with
      | Some bitmaps => phrase_windows wins (intersect_all (merge_sort smaller bitmaps) candidates)
      | None => ∅
      end
  end.

Definition words_docids (words : Phrase) : gset DocumentId :=
  match words with
  | [] => ∅
  | _ =>
      match words_union words ∅ with
      | Some candidates => phrase_windows (windows (length words `min` 3) words) candidates
      | None => ∅
      end
  end.

Section terms.
Context {E : Type} (compute_fully_if_needed : N → SearchContext → outcome E SearchContext).

Definition compute_phrase_docids (ctx : ResolveCtx) (phrase : N) : outcome E (gset DocumentId) :=
  words ← get (phrase_interner (search_ctx ctx)) phrase; Ok (words_docids words).

Definition get_phrase_docids (phrase : N) (ctx : ResolveCtx) : outcome E (gset DocumentId * ResolveCtx) :=
  match phrase_docids ctx !! phrase with
  | Some docids => Ok (docids, ctx)
  | None => docids ← compute_phrase_docids ctx phrase; Ok (docids, mkResolve (search_ctx ctx) (<[phrase := docids]> (phrase_docids ctx)))
  end.

(** ** Terms *)
Definition known (o : option (gset DocumentId)) : gset DocumentId := default ∅ o.

Definition compute_query_term_subset_docids (term : QueryTermSubset) (ctx : ResolveCtx) : outcome E (gset DocumentId * ResolveCtx) :=
  '(words, ctx1) ← all_single_words_except_prefix_db compute_fully_if_needed term (search_ctx ctx);
  let docids := ⋃ ((λ word, known (word_docids dbs word)) <$> elements words) in
  '(phrases, ctx2) ← all_phrases compute_fully_if_needed term ctx1;
  '(docids, ctx) ← try_fold (λ phrase '(docids, ctx),
                     '(phrase_docids, ctx) ← get_phrase_docids phrase ctx; Ok (docids ∪ phrase_docids, ctx))
                   (bitmap_iter phrases) (docids, mkResolve ctx2 (phrase_docids ctx));
  prefix ← use_prefix_db term (search_ctx ctx);
  Ok (docids ∪ match prefix with Some prefix => known (word_prefix_docids dbs prefix) | None => ∅ end, ctx).

(** The same with the databases of a field or of a position: a phrase is there when its first
    word is. *)
Definition subset_docids_within (word_db prefix_db : N → option (gset DocumentId)) (term : QueryTermSubset) (ctx : ResolveCtx) :
    outcome E (gset DocumentId * ResolveCtx) :=
  '(words, ctx1) ← all_single_words_except_prefix_db compute_fully_if_needed term (search_ctx ctx);
  let docids := ⋃ ((λ word, known (word_db (interned word))) <$> elements words) in
  '(phrases, ctx2) ← all_phrases compute_fully_if_needed term ctx1;
  '(docids, ctx) ← try_fold (λ phrase '(docids, ctx),
                     words ← get (phrase_interner (search_ctx ctx)) phrase;
                     match omap (λ w, w) words with
                     | word :: _ =>
                         match word_db word with
                         | Some word_docids => '(phrase_docids, ctx) ← get_phrase_docids phrase ctx; Ok (docids ∪ (phrase_docids ∩ word_docids), ctx)
                         | None => Ok (docids, ctx)
                         end
                     | [] => Ok (docids, ctx)
                     end)
                   (bitmap_iter phrases) (docids, mkResolve ctx2 (phrase_docids ctx));
  prefix ← use_prefix_db term (search_ctx ctx);
  Ok (docids ∪ match prefix with Some prefix => known (prefix_db (interned prefix)) | None => ∅ end, ctx).
Definition compute_query_term_subset_docids_within_field_id (term : QueryTermSubset) (fid : N) : ResolveCtx → outcome E (gset DocumentId * ResolveCtx) :=
  subset_docids_within (λ word, get_db_word_fid_docids dbs word fid) (λ word, get_db_word_prefix_fid_docids dbs word fid) term.
Definition compute_query_term_subset_docids_within_position (term : QueryTermSubset) (position : N) : ResolveCtx → outcome E (gset DocumentId * ResolveCtx) :=
  subset_docids_within (λ word, get_db_word_position_docids dbs word position) (λ word, get_db_word_prefix_position_docids dbs word position) term.
End terms.
End phrases.

(** ** Graphs *)
Section graphs.
Context {E Ctx : Type}.
(** [compute_query_term_subset_docids], with what it changes in the context. *)
Context (compute_term : QueryTermSubset → Ctx → outcome E (gset DocumentId * Ctx)).

Record Resolving := mkResolving {
  nodes_resolved : gset N;
  path_nodes_docids : list (gset DocumentId);
  next_nodes_to_visit : list N;
  resolving_ctx : Ctx
}.

Definition push_successor (nodes_resolved : gset N) (queue : list N) (succ : N) : list N :=
  if decide ((succ ∉ queue) ∧ (succ ∉ nodes_resolved)) then queue ++ [succ] else queue.

Definition clear_predecessor (q : QueryGraph) (nodes_resolved : gset N) (prec : N) (path_nodes_docids : list (gset DocumentId)) :
    outcome E (list (gset DocumentId)) :=
  node ← get (nodes q) prec;
  if decide (successors node ⊆ nodes_resolved) then get_mut (λ _, ∅) prec path_nodes_docids else Ok path_nodes_docids.

Definition union_predecessors (predecessors : gset N) (path_nodes_docids : list (gset DocumentId)) : outcome E (gset DocumentId) :=
  try_fold (λ p acc, docids ← get path_nodes_docids p; Ok (acc ∪ docids)) (bitmap_iter predecessors) ∅.

Definition resolve_step (q : QueryGraph) (universe : gset DocumentId) (s : Resolving) :
    outcome E (Resolving + (gset DocumentId * Ctx)) :=
  match next_nodes_to_visit s with
  | [] => Panic "explicit panic"
  | node_id :: queue =>
      node ← get (nodes q) node_id;
      if decide (predecessors node ⊆ nodes_resolved s) then
        predecessors_docids ← union_predecessors (predecessors node) (path_nodes_docids s);
        let visit (node_docids : gset DocumentId) (ctx : Ctx) :=
          let nodes_resolved := nodes_resolved s ∪ {[node_id]} in
          path_nodes_docids ← get_mut (λ _, node_docids) node_id (path_nodes_docids s);
          let queue := fold_left (push_successor nodes_resolved) (bitmap_iter (successors node)) queue in
          path_nodes_docids ← try_fold (clear_predecessor q nodes_resolved) (bitmap_iter (predecessors node)) path_nodes_docids;
          Ok (inl (mkResolving nodes_resolved path_nodes_docids queue ctx)) in
        match data node with
        | Term t =>
            '(node_docids, ctx) ← compute_term (term_subset t) (resolving_ctx s);
            visit (predecessors_docids ∩ node_docids) ctx
        | Deleted => Panic "explicit panic"
        | Start => visit universe (resolving_ctx s)
        | End => Ok (inr (predecessors_docids, resolving_ctx s))
        end
      else Ok (inl (mkResolving (nodes_resolved s) (path_nodes_docids s) (queue ++ [node_id]) (resolving_ctx s)))
  end.

Definition compute_query_graph_docids (fuel : nat) (q : QueryGraph) (universe : gset DocumentId) (ctx : Ctx) :
    option (outcome E (gset DocumentId * Ctx)) :=
  loop (resolve_step q universe) fuel (mkResolving ∅ ((λ _, ∅) <$> nodes q) [root_node q] ctx).

(** [resolve_maximally_reduced_query_graph] (mod.rs). *)
Inductive TermsMatchingStrategy := Last | AllTerms.
Definition nodes_given_up (ctx : SearchContext) (query_graph : QueryGraph) (matching_strategy : TermsMatchingStrategy) : outcome E (list N) :=
  match matching_strategy with
  | Last => order ← removal_order_for_terms_matching_strategy_last ctx query_graph; Ok (concat (bitmap_iter <$> order))
  | AllTerms => Ok []
  end.
Definition resolve_maximally_reduced_query_graph (fuel : nat) (search_ctx : SearchContext) (ctx : Ctx) (universe : gset DocumentId)
    (query_graph : QueryGraph) (matching_strategy : TermsMatchingStrategy) : option (outcome E (gset DocumentId * Ctx)) :=
  match
    nodes_to_remove ← nodes_given_up search_ctx query_graph matching_strategy;
    remove_nodes_keep_edges nodes_to_remove query_graph
  with
  | Ok graph => compute_query_graph_docids fuel graph universe ctx
  | Err e => Some (Err e)
  | Panic msg => Some (Panic msg)
  end.
End graphs.

(** ** The documents of a phrase *)
Section phrase_spec.
Context (dbs : WordDbs).
Implicit Type d : DocumentId.

(** The documents where two words are in order with [dist] words between them at most. *)
Definition near (s1 s2 : N) (dist : nat) : gset DocumentId :=
  ⋃ ((λ k : nat, known (get_db_word_pair_proximity_docids dbs s1 s2 (N.of_nat k + 1))) <$> seq 0 (dist + 1)).

Fixpoint after_pairs (s1 : N) (dist : nat) (rest : Phrase) : list (gset DocumentId) :=
  match rest with
  | [] => []
  | None :: rest => after_pairs s1 (S dist) rest
  | Some s2 :: rest => near s1 s2 dist :: after_pairs s1 (S dist) rest
  end.
Fixpoint pairs_of (win : Phrase) : list (gset DocumentId) :=
  match win with
  | [] => []
  | None :: win => pairs_of win
  | Some s1 :: win => after_pairs s1 0 win ++ pairs_of win
  end.

Lemma elem_of_union_fold {A} (f : A → gset DocumentId) (l : list A) acc d :
  d ∈ fold_left (λ b x, b ∪ f x) l acc ↔ d ∈ acc ∨ ∃ x, x ∈ l ∧ d ∈ f x.
Proof.
  revert acc. induction l as [|x l IH]; intros acc; cbn; [set_solver|]. rewrite IH. set_solver.
Qed.

Lemma near_fold s1 s2 dist :
  fold_left (λ bitmap dist, match get_db_word_pair_proximity_docids dbs s1 s2 (N.of_nat dist + 1) with Some m => bitmap ∪ m | None => bitmap end)
    (seq 0 (dist + 1)) ∅ = near s1 s2 dist.
Proof.
  apply set_eq. intros d. unfold near. rewrite elem_of_union_list. setoid_rewrite list_elem_of_fmap.
  assert (∀ l acc, fold_left (λ bitmap dist, match get_db_word_pair_proximity_docids dbs s1 s2 (N.of_nat dist + 1) with Some m => bitmap ∪ m | None => bitmap end) l acc =
    fold_left (λ b x, b ∪ known (get_db_word_pair_proximity_docids dbs s1 s2 (N.of_nat x + 1))) l acc) as ->.
  { induction l as [|x l IH]; intros acc; cbn; [done|]. destruct (get_db_word_pair_proximity_docids _ _ _ _); cbn; rewrite IH; [done|]. by rewrite (right_id_L ∅ (∪)). }
  rewrite elem_of_union_fold. naive_solver set_solver.
Qed.

Lemma pair_docids_near s1 s2 dist : match pair_docids dbs s1 s2 dist with Some m => m = near s1 s2 dist | None => near s1 s2 dist = ∅ end.
Proof.
  unfold pair_docids. destruct dist as [|dist].
  - unfold near. cbn [seq Nat.add fmap list_fmap union_list foldr]. change (N.of_nat 0 + 1) with 1. rewrite (right_id_L ∅ (∪)).
    by destruct (get_db_word_pair_proximity_docids dbs s1 s2 1).
  - rewrite near_fold. by case_decide.
Qed.

(** The bitmaps of a window, or a pair of words that is nowhere. *)
Definition collected (acc pairs : list (gset DocumentId)) (o : option (list (gset DocumentId))) : Prop :=
  match o with Some bitmaps => bitmaps = acc ++ pairs | None => ∅ ∈ pairs end.

Lemma pairs_after_spec s1 dist rest acc : collected acc (after_pairs s1 dist rest) (pairs_after dbs s1 dist rest acc).
Proof.
  revert dist acc. induction rest as [|[s2|] rest IH]; intros dist acc; cbn; [by rewrite app_nil_r| |apply IH].
  pose proof (pair_docids_near s1 s2 dist) as Hp. destruct (pair_docids dbs s1 s2 dist) as [m|].
  - subst m. specialize (IH (S dist) (acc ++ [near s1 s2 dist])). unfold collected in *. destruct (pairs_after _ _ _ _ _); [|by right].
    by rewrite IH, <- app_assoc.
  - unfold collected. rewrite <- Hp. left.
Qed.

Lemma window_bitmaps_spec win acc : collected acc (pairs_of win) (window_bitmaps dbs win acc).
Proof.
  revert acc. induction win as [|[s1|] win IH]; intros acc; cbn; [by rewrite app_nil_r| |apply IH].
  pose proof (pairs_after_spec s1 0 win acc) as Hp. unfold collected in *. destruct (pairs_after dbs s1 0 win acc) as [bitmaps|].
  - subst bitmaps. specialize (IH (acc ++ after_pairs s1 0 win)). destruct (window_bitmaps _ _ _); [by rewrite IH, <- app_assoc|].
    apply elem_of_app. by right.
  - apply elem_of_app. by left.
Qed.

Lemma elem_of_intersect_all d bitmaps candidates : d ∈ intersect_all bitmaps candidates ↔ d ∈ candidates ∧ ∀ m, m ∈ bitmaps → d ∈ m.
Proof.
  revert candidates. induction bitmaps as [|m bitmaps IH]; intros candidates; cbn; [set_solver|].
  setoid_rewrite elem_of_cons. case_decide as He.
  - rewrite He. split; [by intros ?%not_elem_of_empty|]. intros [Hc Hall]. rewrite <- He. apply elem_of_intersection. naive_solver.
  - rewrite IH. set_solver.
Qed.

Lemma elem_of_sorted_bitmaps m l : m ∈ merge_sort smaller l ↔ m ∈ l.
Proof. by rewrite merge_sort_Permutation. Qed.

Lemma elem_of_phrase_windows d wins candidates :
  d ∈ phrase_windows dbs wins candidates ↔ d ∈ candidates ∧ ∀ win m, win ∈ wins → m ∈ pairs_of win → d ∈ m.
Proof.
  revert candidates. induction wins as [|win wins IH]; intros candidates; cbn.
  { split; [|by intros [? _]]. intros Hd. split; [done|]. by intros ? ? ?%not_elem_of_nil. }
  setoid_rewrite elem_of_cons. pose proof (window_bitmaps_spec win []) as Hw. unfold collected in Hw. destruct (window_bitmaps dbs win []) as [bitmaps|].
  - cbn in Hw. subst bitmaps. rewrite IH, elem_of_intersect_all. setoid_rewrite elem_of_sorted_bitmaps. naive_solver.
  - split; [by intros ?%not_elem_of_empty|]. intros [_ Hall]. by apply (Hall win ∅); [left|].
Qed.

Lemma words_union_spec words acc :
  match words_union dbs words acc with
  | Some c => (∀ w, Some w ∈ words → is_Some (word_docids dbs (Original w))) ∧
      ∀ d, d ∈ c ↔ d ∈ acc ∨ ∃ w, Some w ∈ words ∧ d ∈ known (word_docids dbs (Original w))
  | None => ∃ w, Some w ∈ words ∧ word_docids dbs (Original w) = None
  end.
Proof.
  revert acc. induction words as [|[w|] words IH]; intros acc; cbn.
  - split; [by intros w ?%not_elem_of_nil|]. intros d. split; [by left|]. intros [?|(w & ?%not_elem_of_nil & _)]; done.
  - assert (∀ w', Some w' ∈ Some w :: words ↔ w' = w ∨ Some w' ∈ words) as Hcons by (intros w'; rewrite elem_of_cons; naive_solver).
    destruct (word_docids dbs (Original w)) as [m|] eqn:Hm; [|exists w; split; [by left|done]].
    specialize (IH (acc ∪ m)). destruct (words_union _ _ _) as [c|].
    + destruct IH as [Hk Hd]. setoid_rewrite Hcons. split; [naive_solver|]. intros d. rewrite Hd, elem_of_union. split.
      * intros [[?|?]|(w' & ? & ?)]; [by left|right; exists w; rewrite Hm; naive_solver|right; naive_solver].
      * intros [?|(w' & [->|?] & Hin)]; [naive_solver| |right; naive_solver]. rewrite Hm in Hin. left. by right.
    + destruct IH as (w' & ? & ?). exists w'. split; [by right|done].
  - assert (∀ w', Some w' ∈ None :: words ↔ Some w' ∈ words) as Hcons by (intros w'; rewrite elem_of_cons; naive_solver).
    specialize (IH acc). destruct (words_union _ _ _) as [c|].
    + destruct IH as [Hk Hd]. setoid_rewrite Hcons. split; [naive_solver|]. intros d. rewrite Hd. naive_solver.
    + destruct IH as (w' & ? & ?). exists w'. split; [by right|done].
Qed.

Lemma phrase_docids_correct (words : Phrase) d :
  d ∈ words_docids dbs words ↔
    (∀ w, Some w ∈ words → is_Some (word_docids dbs (Original w))) ∧
    (∃ w, Some w ∈ words ∧ d ∈ known (word_docids dbs (Original w))) ∧
    ∀ win m, win ∈ windows (length words `min` 3) words → m ∈ pairs_of win → d ∈ m.
Proof.
  unfold words_docids. destruct words as [|w0 words].
  { split; [by intros ?%not_elem_of_empty|]. by intros (_ & (w & ?%not_elem_of_nil & _) & _). }
  pose proof (words_union_spec (w0 :: words) ∅) as Hu. destruct (words_union dbs (w0 :: words) ∅) as [c|].
  - rewrite elem_of_phrase_windows. destruct Hu as [Hk Hd]. rewrite Hd. set_solver.
  - split; [by intros ?%not_elem_of_empty|]. destruct Hu as (w & Hw & Hn). intros (Hk & _). destruct (Hk w Hw) as [m Hm]. congruence.
Qed.

(** C35: The documents of a phrase are those that have one of its words and, for all words at
    most two places apart, the pair of them in order at most that far; there are none when a
    word is unknown.  Words that are further apart, with stop words between them, are not
    related: a document with only one of them satisfies the phrase. *)
Theorem phrase_docids_spec (words : Phrase) (d : DocumentId) :
  (d ∈ words_docids dbs words ↔
    (∀ w, Some w ∈ words → is_Some (word_docids dbs (Original w))) ∧
    (∃ w, Some w ∈ words ∧ d ∈ known (word_docids dbs (Original w))) ∧
    ∀ win m, win ∈ windows (length words `min` 3) words → m ∈ pairs_of win → d ∈ m) ∧
  ∀ a b, is_Some (word_docids dbs (Original a)) → is_Some (word_docids dbs (Original b)) →
    words_docids dbs [Some a; None; None; Some b] = known (word_docids dbs (Original a)) ∪ known (word_docids dbs (Original b)).
Proof.
  split; [apply phrase_docids_correct|]. intros a b [ma Ha] [mb Hb]. unfold words_docids, words_union. rewrite Ha, Hb. cbn. set_solver.
Qed.
End phrase_spec.

(** ** Giving words up *)

(** An edge of the graph without the removed nodes: a path through them. *)
Inductive skips (nodes : list QueryNode) (R : N → Prop) : N → N → Prop :=
| skips_edge a b : b ∈ succ_of nodes a → skips nodes R a b
| skips_over a x b : R x → x ∈ succ_of nodes a → skips nodes R x b → skips nodes R a b.

Section removal.
Context {E : Type}.
Implicit Type (nodes : list QueryNode) (a b x : N).

Lemma in_range_succ nodes a b : edges_agree nodes → b ∈ succ_of nodes a → is_Some (nodes !! N.to_nat a) ∧ is_Some (nodes !! N.to_nat b).
Proof.
  intros Hag Hb. split.
  - unfold succ_of in Hb. by destruct (nodes !! N.to_nat a); [|apply not_elem_of_empty in Hb].
  - apply Hag in Hb. unfold pred_of in Hb. by destruct (nodes !! N.to_nat b); [|apply not_elem_of_empty in Hb].
Qed.

Lemma acyclic_irrefl nodes x : acyclic nodes → x ∉ succ_of nodes x.
Proof. intros (rank & M & Hr) Hx. specialize (Hr x x Hx). lia. Qed.

(** The neighbours of a node when those of [x] replace [x]. *)
Lemma rewired (a b x : N) (sa sx : gset N) P (d : Decision P) :
  a ≠ x → x ∉ sx → (P ↔ x ∈ sa) → b ∈ (if d then sa ∖ {[x]} ∪ sx else sa) ↔ a ≠ x ∧ b ≠ x ∧ (b ∈ sa ∨ x ∈ sa ∧ b ∈ sx).
Proof.
  intros Hax Hsx HP. assert (b ∈ sx → b ≠ x) by (by intros ? ->). destruct d as [Hd|Hd].
  - rewrite elem_of_union, elem_of_difference, elem_of_singleton. tauto.
  - assert (b ∈ sa → b ≠ x) by (intros ? ->; tauto). tauto.
Qed.

Lemma remove_node_keep_edges_spec nodes x :
  edges_agree nodes → acyclic nodes → is_Some (nodes !! N.to_nat x) →
  ∃ nodes', remove_node_keep_edges (E := E) x nodes = Ok nodes' ∧ length nodes' = length nodes ∧ edges_agree nodes' ∧
    (∀ a b, b ∈ succ_of nodes' a ↔ a ≠ x ∧ b ≠ x ∧ (b ∈ succ_of nodes a ∨ x ∈ succ_of nodes a ∧ b ∈ succ_of nodes x)) ∧
    ∀ a, data_of nodes' a = if decide (a = x) then Some Deleted else data_of nodes a.
Proof.
  intros Hag Hac [n Hx]. unfold remove_node_keep_edges, get. rewrite Hx. cbn [mbind outcome_bind].
  assert (predecessors n = pred_of nodes x) as -> by (unfold pred_of; by rewrite Hx).
  assert (successors n = succ_of nodes x) as -> by (unfold succ_of; by rewrite Hx).
  destruct (try_fold_bits (E := E) (λ n, with_successors (successors n ∖ {[x]} ∪ succ_of nodes x) n) (pred_of nodes x) nodes) as (nodes1 & -> & Hl1 & H1).
  { intros i Hi%Hag. by apply (in_range_succ nodes i x). }
  cbn [mbind outcome_bind].
  destruct (try_fold_bits (E := E) (λ n, with_predecessors (predecessors n ∖ {[x]} ∪ pred_of nodes x) n) (succ_of nodes x) nodes1) as (nodes2 & -> & Hl2 & H2).
  { intros i Hi. apply lookup_lt_is_Some. rewrite Hl1. apply lookup_lt_is_Some. by apply (in_range_succ nodes x i). }
  cbn [mbind outcome_bind]. pose proof (acyclic_irrefl nodes x Hac) as Hirr.
  assert (nodes2 !! N.to_nat x = Some n) as Hx2.
  { rewrite H2, decide_False by done. rewrite H1, decide_False, Hx; [done|]. by rewrite (Hag x x). }
  rewrite (get_mut_Ok (E := E) _ _ _ _ Hx2). eexists. split; [done|]. rewrite length_insert.
  assert (∀ k, k ≠ x → <[N.to_nat x:=clear_node n]> nodes2 !! N.to_nat k =
    (λ y, mkNode (data y) (if decide (k ∈ succ_of nodes x) then predecessors y ∖ {[x]} ∪ pred_of nodes x else predecessors y)
      (if decide (k ∈ pred_of nodes x) then successors y ∖ {[x]} ∪ succ_of nodes x else successors y)) <$> nodes !! N.to_nat k) as Hk.
  { intros k Hne. rewrite list_lookup_insert_ne by (apply to_nat_ne; congruence). rewrite H2, H1. destruct (nodes !! N.to_nat k) as [[]|]; cbn; [|done].
    f_equal. by repeat case_decide. }
  assert (<[N.to_nat x:=clear_node n]> nodes2 !! N.to_nat x = Some (clear_node n)) as Hxx by (apply list_lookup_insert_eq; by eapply lookup_lt_Some).
  set (nodes3 := <[N.to_nat x:=clear_node n]> nodes2) in *.
  assert (∀ a b, b ∈ succ_of nodes3 a ↔ a ≠ x ∧ b ≠ x ∧ (b ∈ succ_of nodes a ∨ x ∈ succ_of nodes a ∧ b ∈ succ_of nodes x)) as Hsucc.
  { intros a b. unfold succ_of at 1. destruct (decide (a = x)) as [->|Hne]; [rewrite Hxx; cbn; set_solver|]. rewrite Hk by done.
    rewrite <- (rewired a b x (succ_of nodes a) (succ_of nodes x) _ (decide (a ∈ pred_of nodes x)) Hne Hirr (Hag a x)).
    unfold succ_of. destruct (nodes !! N.to_nat a) as [y|] eqn:Hy; cbn; [by case_decide|]. rewrite decide_False; [done|].
    rewrite (Hag a x). unfold succ_of. by rewrite Hy. }
  assert (∀ a b, a ∈ pred_of nodes3 b ↔ a ≠ x ∧ b ≠ x ∧ (b ∈ succ_of nodes a ∨ x ∈ succ_of nodes a ∧ b ∈ succ_of nodes x)) as Hpred.
  { intros a b. unfold pred_of at 1. destruct (decide (b = x)) as [->|Hne]; [rewrite Hxx; cbn; set_solver|]. rewrite Hk by done.
    assert (x ∉ pred_of nodes x) as Hirr' by by rewrite (Hag x x).
    assert (b ∈ succ_of nodes x ↔ x ∈ pred_of nodes b) as Hxb by by rewrite (Hag x b).
    pose proof (rewired b a x (pred_of nodes b) (pred_of nodes x) _ (decide (b ∈ succ_of nodes x)) Hne Hirr' Hxb) as Hr.
    rewrite (Hag a b), (Hag x b), (Hag a x) in Hr. rewrite (and_assoc (a ≠ x)), (and_comm (a ≠ x)), <- (and_assoc (b ≠ x)), (and_comm (x ∈ _)), <- Hr.
    unfold pred_of. destruct (nodes !! N.to_nat b) as [y|] eqn:Hy; cbn; [by case_decide|]. rewrite decide_False; [done|].
    rewrite Hxb. unfold pred_of. by rewrite Hy. }
  split_and!; [by rewrite Hl2, Hl1|intros a b; by rewrite Hpred, Hsucc|done|].
  intros a. unfold data_of. destruct (decide (a = x)) as [->|Hne]; [by rewrite Hxx|]. rewrite Hk by done. by destruct (nodes !! N.to_nat a).
Qed.

(** Paths through removed nodes. *)
Lemma skips_trans nodes R a x b : skips nodes R a x → R x → skips nodes R x b → skips nodes R a b.
Proof. intros H HR Hb. induction H as [a x Hx|a y x Hy Hay _ IH]; [by eapply skips_over|]. eapply skips_over; [exact Hy|exact Hay|by apply IH]. Qed.

Lemma skips_mono nodes (R R' : N → Prop) a b : (∀ x, R x → R' x) → skips nodes R a b → skips nodes R' a b.
Proof. intros HR. induction 1; [by apply skips_edge|eapply skips_over; eauto]. Qed.

Lemma skips_removed nodes nodes' x (R : N → Prop) a b :
  acyclic nodes → (∀ a b, b ∈ succ_of nodes' a ↔ a ≠ x ∧ b ≠ x ∧ (b ∈ succ_of nodes a ∨ x ∈ succ_of nodes a ∧ b ∈ succ_of nodes x)) →
  skips nodes' R a b ↔ a ≠ x ∧ b ≠ x ∧ skips nodes (λ y, y = x ∨ R y) a b.
Proof.
  intros Hac Hs. split.
  - induction 1 as [a b Hb%Hs|a y b Hy Hay%Hs _ (IH1 & IH2 & IH3)].
    + destruct Hb as (Ha & Hb & Hor). split_and!; [done..|]. destruct Hor as [H|[H1 H2]]; [by apply skips_edge|].
      eapply skips_over; [by left|done|by apply skips_edge].
    + destruct Hay as (Ha & _ & Hor). split_and!; [done..|]. destruct Hor as [H|[H1 H2]]; [eapply skips_over; [by right|done..]|].
      eapply skips_over; [by left|done|]. eapply skips_over; [by right|done..].
  - intros (Ha & Hb & Hsk).
    assert (b ≠ x → (a ≠ x → skips nodes' R a b) ∧ (a = x → ∀ p, p ≠ x → x ∈ succ_of nodes p → skips nodes' R p b)) as [? _]; [|by auto|by auto].
    clear Ha Hb. induction Hsk as [a b Hab|a z b Hz Haz _ IH]; intros Hb.
    + split; [intros Ha; apply skips_edge, Hs; tauto|]. intros -> p Hp Hxp. apply skips_edge, Hs. tauto.
    + destruct (IH Hb) as [IH1 IH2]. destruct (decide (z = x)) as [->|Hne].
      * split; [intros Ha; by apply IH2|]. intros ->. by apply acyclic_irrefl in Haz.
      * destruct Hz as [?|Hz]; [done|]. split; [intros Ha|intros -> p Hp Hxp]; (eapply skips_over; [exact Hz| |by apply IH1]); apply Hs; tauto.
Qed.

Lemma remove_nodes_keep_edges_spec removed nodes :
  edges_agree nodes → acyclic nodes → (∀ x, x ∈ removed → is_Some (nodes !! N.to_nat x)) →
  ∃ nodes', try_fold (E := E) remove_node_keep_edges removed nodes = Ok nodes' ∧ length nodes' = length nodes ∧ edges_agree nodes' ∧ acyclic nodes' ∧
    (∀ a b, b ∈ succ_of nodes' a ↔ (a ∉ removed) ∧ (b ∉ removed) ∧ skips nodes (λ x, x ∈ removed) a b) ∧
    ∀ a, data_of nodes' a = if decide (a ∈ removed) then Some Deleted else data_of nodes a.
Proof.
  revert nodes. induction removed as [|x removed IH]; intros nodes Hag Hac Hin; cbn [try_fold].
  - exists nodes. split_and!; [done..| |by intros a; rewrite decide_False by apply not_elem_of_nil]. intros a b. split.
    + intros Hb. split_and!; [apply not_elem_of_nil..|by apply skips_edge].
    + intros (_ & _ & Hsk). by destruct Hsk as [|? ? ? ?%not_elem_of_nil].
  - destruct (remove_node_keep_edges_spec nodes x Hag Hac) as (nodes1 & -> & Hl1 & Hag1 & Hs1 & Hd1); [apply Hin; left|]. cbn [mbind outcome_bind].
    assert (acyclic nodes1) as Hac1.
    { destruct Hac as (rank & M & Hr). exists rank, M. intros a b (_ & _ & [H|[H1 H2]])%Hs1; [by apply Hr|]. apply Hr in H1, H2. lia. }
    destruct (IH nodes1 Hag1 Hac1) as (nodes' & -> & Hl & Hag' & Hac' & Hs & Hd).
    { intros y Hy. apply lookup_lt_is_Some. rewrite Hl1. apply lookup_lt_is_Some, Hin. by right. }
    exists nodes'. split_and!; [done|by rewrite Hl, Hl1|done|done| |].
    + intros a b. rewrite Hs, (skips_removed nodes nodes1 x) by done. rewrite !not_elem_of_cons.
      assert (skips nodes (λ y, y ∈ x :: removed) a b ↔ skips nodes (λ y, y = x ∨ y ∈ removed) a b) as ->; [|tauto].
      split; apply skips_mono; intros y; by rewrite elem_of_cons.
    + intros a. rewrite Hd, Hd1. destruct (decide (a ∈ removed)) as [Hr|Hr]; [by rewrite decide_True by by right|].
      destruct (decide (a = x)) as [->|]; [by rewrite decide_True by left|]. by rewrite decide_False by (rewrite elem_of_cons; tauto).
Qed.
End removal.

Module Demo.
(** Two words that are never near each other, in one document each. *)
Definition apart : WordDbs :=
  mkWordDbs (λ w, match w with Original 0 => Some {[7]} | Original 1 => Some {[8]} | _ => None end) (λ _ _ _, None)
    (λ _, None) (λ _ _, None) (λ _ _, None) (λ _ _, None) (λ _ _, None).

Lemma phrase_docids_spec_witness : (8 ∉ words_docids apart [Some 0; Some 1]) ∧ words_docids apart [Some 0; None; None; Some 1] = {[7]} ∪ {[8]}.
Proof.
  destruct (phrase_docids_spec apart [Some 0; Some 1] 8) as [Hd Hfar]. split.
  - intros Hin. apply Hd in Hin as (_ & _ & Hpairs). by specialize (Hpairs [Some 0; Some 1] ∅ ltac:(left) ltac:(left)).
  - exact (Hfar 0 1 ltac:(by eexists) ltac:(by eexists)).
Defined.
End Demo.
