(* ===== verification/ResolveSpec.v ===== *)
(** * What the universe of a search is

    [compute_query_graph_docids] gives the documents that satisfy a path of the graph, and
    the universe of a search those that satisfy a reading of the query, but for the words
    that are given up. *)
From S2P Require Import Prelude Interner QueryTerm QueryGraph Traversal QueryResolve.
From S2P Require DocumentsIds Transform.
Import DocumentsIds (DocumentId).
Import Transform (bitmap_iter).

Section resolve.
Context {E Ctx : Type} (compute_term : QueryTermSubset → Ctx → outcome E (gset DocumentId * Ctx)).
(** The documents of the terms, which do not depend on the state of the caches. *)
Context (D : QueryTermSubset → gset DocumentId) (ctx_ok : Ctx → Prop).
Hypothesis term_docids : ∀ t ctx, ctx_ok ctx → ∃ ctx', compute_term t ctx = Ok (D t, ctx') ∧ ctx_ok ctx'.

(** A document satisfies a path to the end that may skip the nodes in [R]. *)
Inductive satisfies (q : QueryGraph) (R : N → Prop) (d : DocumentId) : N → Prop :=
| satisfies_end a : end_node q ∈ succ_of (nodes q) a → satisfies q R d a
| satisfies_term a b t : b ∈ succ_of (nodes q) a → data_of (nodes q) b = Some (Term t) → d ∈ D (term_subset t) →
    satisfies q R d b → satisfies q R d a
| satisfies_skip a b : b ∈ succ_of (nodes q) a → R b → satisfies q R d b → satisfies q R d a.

(** The shape of the graphs that can be resolved: one start, one end, and no node without
    a way to it. *)
Record resolvable (q : QueryGraph) : Prop := {
  res_fits : fits16 (nodes q);
  res_agree : edges_agree (nodes q);
  res_acyclic : acyclic (nodes q);
  res_root : data_of (nodes q) (root_node q) = Some Start;
  res_end : data_of (nodes q) (end_node q) = Some End;
  res_one_root a : data_of (nodes q) a = Some Start → a = root_node q;
  res_one_end a : data_of (nodes q) a = Some End → a = end_node q;
  res_root_pred : pred_of (nodes q) (root_node q) = ∅;
  res_end_succ : succ_of (nodes q) (end_node q) = ∅;
  res_deleted a : data_of (nodes q) a = Some Deleted → succ_of (nodes q) a = ∅ ∧ pred_of (nodes q) a = ∅;
  res_reached a d : data_of (nodes q) a = Some d → d ≠ Deleted → d ≠ Start → pred_of (nodes q) a ≠ ∅
}.

Section graph.
Context (q : QueryGraph) (universe : gset DocumentId) (Hq : resolvable q).
Abbreviation nodes := (nodes q).
Abbreviation root := (root_node q).
Abbreviation end_ := (end_node q).

(** A document satisfies a path from the start. *)
Inductive matched (d : DocumentId) : N → Prop :=
| matched_root : d ∈ universe → matched d root
| matched_term a b t : matched d a → b ∈ succ_of nodes a → data_of nodes b = Some (Term t) → d ∈ D (term_subset t) → matched d b.

Lemma matched_satisfies d : (∃ a, matched d a ∧ end_ ∈ succ_of nodes a) ↔ d ∈ universe ∧ satisfies q (λ _, False) d root.
Proof.
  split.
  - intros (a & Ha & He). assert (satisfies q (λ _, False) d a) as Hs by by apply satisfies_end. clear He. induction Ha as [|a b t Ha IH Hb Ht Hd]; [done|].
    apply IH. by eapply satisfies_term.
  - intros [Hd Hs]. assert (matched d root) as Hm by by apply matched_root. clear Hd. induction Hs as [a He|a b t Hb Ht Hd _ IH|a b _ [] _].
    + by exists a.
    + apply IH. by eapply matched_term.
Qed.

(** *** The nodes to visit *)
Definition live : gset N := list_to_set (filter (λ a, data_of nodes a ≠ Some Deleted) (indexes nodes)).

Lemma elem_of_live a : a ∈ live ↔ is_Some (nodes !! N.to_nat a) ∧ data_of nodes a ≠ Some Deleted.
Proof. unfold live. rewrite elem_of_list_to_set, list_elem_of_filter, elem_of_indexes by apply Hq. tauto. Qed.

Lemma size_live : (size live ≤ length nodes)%nat.
Proof.
  unfold live. rewrite size_list_to_set by (apply NoDup_filter, NoDup_indexes, Hq). etrans; [apply length_filter|].
  unfold indexes. by rewrite length_fmap, length_seq.
Qed.

Lemma live_edge a b : b ∈ succ_of nodes a → a ∈ live ∧ b ∈ live.
Proof.
  intros Hb. rewrite !elem_of_live. destruct (in_range_succ nodes a b (res_agree q Hq) Hb) as [Ha' Hb']. split_and!; [done| |done|]; intros Hd.
  - apply (res_deleted q Hq) in Hd as [Hs _]. rewrite Hs in Hb. by apply not_elem_of_empty in Hb.
  - apply (res_deleted q Hq) in Hd as [_ Hp]. apply (res_agree q Hq) in Hb. rewrite Hp in Hb. by apply not_elem_of_empty in Hb.
Qed.

Lemma live_root : root ∈ live.
Proof. apply elem_of_live. pose proof (res_root q Hq) as Hr. split; [|congruence]. unfold data_of in Hr. by destruct (nodes !! _). Qed.

Lemma live_end : end_ ∈ live.
Proof. apply elem_of_live. pose proof (res_end q Hq) as Hr. split; [|congruence]. unfold data_of in Hr. by destruct (nodes !! _). Qed.

(** *** The loops of the body *)
Lemma union_predecessors_spec preds (path : list (gset DocumentId)) : (∀ p, p ∈ preds → is_Some (path !! N.to_nat p)) →
  ∃ u, union_predecessors (E := E) preds path = Ok u ∧ ∀ d, d ∈ u ↔ ∃ p X, p ∈ preds ∧ path !! N.to_nat p = Some X ∧ d ∈ X.
Proof.
  intros Hin. unfold union_predecessors.
  destruct (try_fold_inv (E := E) (λ done_ u, ∀ d, d ∈ u ↔ ∃ p X, p ∈ done_ ∧ path !! N.to_nat p = Some X ∧ d ∈ X)
    (λ p acc, docids ← get path p; Ok (acc ∪ docids)) (bitmap_iter preds) ∅) as (u & Hu & HI).
  - intros d. split; [by intros ?%not_elem_of_empty|]. by intros (p & X & ?%not_elem_of_nil & _).
  - intros done_ p rest u Hl HI. destruct (Hin p) as [X HX]. { apply elem_of_iter_bits. rewrite Hl. apply elem_of_app. right. left. }
    unfold get. rewrite HX. cbn. eexists. split; [done|]. intros d. rewrite elem_of_union, HI. setoid_rewrite elem_of_app. setoid_rewrite list_elem_of_singleton.
    split; [intros [(p' & X' & ? & ? & ?)|?]; [exists p', X'|exists p, X]; by auto|]. intros (p' & X' & [?| ->] & HX' & Hd); [left; by exists p', X'|right].
    congruence.
  - exists u. split; [done|]. intros d. rewrite HI. by setoid_rewrite elem_of_iter_bits.
Qed.

Lemma push_successors_spec done_ succs queue :
  NoDup queue → let queue' := fold_left (push_successor done_) succs queue in
  NoDup queue' ∧ ∀ z, z ∈ queue' ↔ z ∈ queue ∨ (z ∈ succs) ∧ (z ∉ done_).
Proof.
  cbv zeta. revert queue. induction succs as [|x succs IH]; intros queue Hnd; cbn [fold_left].
  { split; [done|]. intros z. split; [by left|]. intros [?|[?%not_elem_of_nil _]]; done. }
  destruct (IH (push_successor done_ queue x)) as [Hnd' Hin].
  { unfold push_successor. case_decide as Hd; [|done]. apply NoDup_app. split_and!; [done| |apply NoDup_singleton].
    intros z Hz ->%list_elem_of_singleton. tauto. }
  split; [done|]. intros z. rewrite Hin, elem_of_cons. unfold push_successor. case_decide as Hd.
  - rewrite elem_of_app, list_elem_of_singleton. destruct (decide (z = x)) as [->|]; tauto.
  - destruct (decide (z = x)) as [->|]; [|tauto]. destruct (decide (x ∈ queue)), (decide (x ∈ done_)); tauto.
Qed.

Lemma clear_predecessors_spec done_ preds (path : list (gset DocumentId)) :
  length path = length nodes → (∀ p, p ∈ preds → is_Some (nodes !! N.to_nat p)) →
  ∃ path', try_fold (E := E) (clear_predecessor q done_) preds path = Ok path' ∧ length path' = length path ∧
    ∀ a X, path !! N.to_nat a = Some X → path' !! N.to_nat a = Some X ∨ path' !! N.to_nat a = Some ∅ ∧ succ_of nodes a ⊆ done_.
Proof.
  revert path. induction preds as [|p preds IH]; intros path Hlen Hin; cbn [try_fold]; [exists path; split_and!; [done..|]; intros; by left|].
  destruct (Hin p ltac:(left)) as [n Hn].
  assert (∃ X, path !! N.to_nat p = Some X) as [X HX]. { apply lookup_lt_is_Some. rewrite Hlen. by apply lookup_lt_Some in Hn. }
  assert (clear_predecessor (E := E) q done_ p path = Ok (if decide (succ_of nodes p ⊆ done_) then <[N.to_nat p:=∅]> path else path)) as ->.
  { unfold clear_predecessor, get, succ_of. rewrite Hn. cbn. case_decide; [by rewrite (get_mut_Ok (E := E) _ _ _ _ HX)|done]. }
  cbn [mbind outcome_bind]. case_decide as Hs; cycle 1; [destruct (IH path Hlen) as (path' & ? & ? & ?); [intros; apply Hin; by right|by exists path']|].
  destruct (IH (<[N.to_nat p:=∅]> path)) as (path' & -> & Hl & Hc).
  { by rewrite length_insert. } { intros; apply Hin; by right. }
  exists path'. split_and!; [done|by rewrite Hl, length_insert|]. intros a Y HY. destruct (decide (a = p)) as [->|Hne].
  - right. split; [|done]. destruct (Hc p ∅) as [?|[? _]]; [|done|done]. apply list_lookup_insert_eq. by eapply lookup_lt_Some.
  - apply Hc. by rewrite list_lookup_insert_ne by (apply to_nat_ne; congruence).
Qed.

(** *** The loop *)
Abbreviation ready := (Traversal.ready live (pred_of nodes)).

Record resolving (s : Resolving (Ctx := Ctx)) : Prop := {
  rs_len : length (path_nodes_docids s) = length nodes;
  rs_done : nodes_resolved s ⊆ live ∖ {[end_]};
  rs_docids a : a ∈ nodes_resolved s → ∃ X, path_nodes_docids s !! N.to_nat a = Some X ∧
    ((∀ d, d ∈ X ↔ matched d a) ∨ succ_of nodes a ⊆ nodes_resolved s);
  rs_nodup : NoDup (next_nodes_to_visit s);
  rs_queue a : a ∈ next_nodes_to_visit s → (a ∈ live) ∧ (a ∉ nodes_resolved s);
  rs_next a b : a ∈ nodes_resolved s → b ∈ succ_of nodes a → b ∈ nodes_resolved s ∨ b ∈ next_nodes_to_visit s;
  rs_first : root ∈ nodes_resolved s ∨ root ∈ next_nodes_to_visit s;
  rs_ctx : ctx_ok (resolving_ctx s)
}.

(** What is left: the nodes, and the place in the queue of one that is ready. *)
Definition resolving_in (k : nat) (s : Resolving (Ctx := Ctx)) : Prop :=
  resolving s ∧ ∃ before x after, next_nodes_to_visit s = before ++ x :: after ∧ ready (nodes_resolved s) x ∧
    k = (size (live ∖ nodes_resolved s) * S (size live) + length before)%nat.

Lemma ready_in_queue s : resolving s →
  ∃ before x after, next_nodes_to_visit s = before ++ x :: after ∧ ready (nodes_resolved s) x ∧ (length before ≤ size live)%nat.
Proof.
  intros [_ Hd _ Hnd Hqu Hnx Hf _]. destruct (res_acyclic q Hq) as (rank & M & Hr).
  destruct (queue_ready live (pred_of nodes) (λ a, M - rank a)%nat) with (done_ := nodes_resolved s) (queue := next_nodes_to_visit s)
    as (before & x & after & Hqueue & _ & Hx).
  - intros x y _ Hx _. apply (res_agree q Hq), Hr in Hx. lia.
  - intros y Hy Hny Hready. destruct (decide (y = root)) as [->|Hne]; [by destruct Hf|].
    apply elem_of_live in Hy as [[n Hn] Hdel]. assert (pred_of nodes y ≠ ∅) as Hp.
    { assert (data_of nodes y = Some (data n)) as Hdy by (unfold data_of; by rewrite Hn).
      apply (res_reached q Hq y (data n)); [done|congruence|]. intros Hst. apply Hne, (res_one_root q Hq). congruence. }
    apply set_choose_L in Hp as [p Hp]. pose proof Hp as Hs. apply (res_agree q Hq) in Hs.
    destruct (Hnx p y) as [?|?]; [|done..]. apply Hready; [done|]. by apply live_edge in Hs as [? _].
  - intros Hall. pose proof (Hall _ live_end) as Hin. apply Hd in Hin. set_solver.
  - exists before, x, after. split_and!; [done..|]. etrans; [|apply (subseteq_size (list_to_set (next_nodes_to_visit s)))].
    + rewrite size_list_to_set by done. rewrite Hqueue, length_app. lia.
    + intros a Ha%elem_of_list_to_set. by apply Hqu in Ha as [? _].
Qed.

(** A node that is ready: its documents. *)
Lemma ready_docids s y rest : resolving s → next_nodes_to_visit s = y :: rest → ready (nodes_resolved s) y →
  ∃ u, union_predecessors (E := E) (pred_of nodes y) (path_nodes_docids s) = Ok u ∧
    ∀ d, d ∈ u ↔ ∃ a, matched d a ∧ y ∈ succ_of nodes a.
Proof.
  intros [Hlen _ Hv _ Hqu _ _ _] Hqueue Hready. destruct (Hqu y) as [_ Hny]; [rewrite Hqueue; left|].
  assert (∀ p, p ∈ pred_of nodes y → ∃ X, path_nodes_docids s !! N.to_nat p = Some X ∧ ∀ d, d ∈ X ↔ matched d p) as Hp.
  { intros p Hp. pose proof Hp as Hs. apply (res_agree q Hq) in Hs. destruct (Hv p) as (X & HX & [Hm|Hs']).
    - apply Hready; [done|]. by apply live_edge in Hs as [? _].
    - by exists X.
    - exfalso. by apply Hny, Hs'. }
  destruct (union_predecessors_spec (pred_of nodes y) (path_nodes_docids s)) as (u & Hu & Hd).
  { intros p (X & HX & _)%Hp. by eexists. }
  exists u. split; [done|]. intros d. rewrite Hd. split.
  - intros (p & X & Hpy & HX & HdX). exists p. destruct (Hp p Hpy) as (X' & HX' & Hm). split; [apply Hm; congruence|by apply (res_agree q Hq)].
  - intros (a & Hm & Ha). apply (res_agree q Hq) in Ha. destruct (Hp a Ha) as (X & HX & HmX). exists a, X. by rewrite HmX.
Qed.

(** The state after a node is resolved. *)
Lemma resolve_visit_spec s y rest n docids ctx : resolving s → next_nodes_to_visit s = y :: rest → nodes !! N.to_nat y = Some n → y ≠ end_ →
  (∀ d, d ∈ docids ↔ matched d y) → ctx_ok ctx →
  ∃ path', (path ← get_mut (E := E) (λ _, docids) y (path_nodes_docids s);
    try_fold (clear_predecessor q (nodes_resolved s ∪ {[y]})) (bitmap_iter (predecessors n)) path) = Ok path' ∧
    resolving (mkResolving (nodes_resolved s ∪ {[y]}) path'
      (fold_left (push_successor (nodes_resolved s ∪ {[y]})) (bitmap_iter (successors n)) rest) ctx).
Proof.
  intros [Hlen Hd Hv Hnd Hqu Hnx Hf _] Hqueue Hn Hne Hdoc Hctx. destruct (Hqu y) as [Hy Hny]; [rewrite Hqueue; left|].
  destruct (lookup_lt_is_Some_2 (path_nodes_docids s) (N.to_nat y)) as [X HX]; [rewrite Hlen; by eapply lookup_lt_Some|].
  rewrite (get_mut_Ok (E := E) _ _ _ _ HX). cbn [mbind outcome_bind].
  destruct (clear_predecessors_spec (nodes_resolved s ∪ {[y]}) (bitmap_iter (predecessors n)) (<[N.to_nat y:=docids]> (path_nodes_docids s)))
    as (path' & -> & Hl' & Hc); [by rewrite length_insert| |].
  { intros p Hp%elem_of_iter_bits. apply (in_range_succ nodes p y (res_agree q Hq)), (res_agree q Hq). unfold pred_of. by rewrite Hn. }
  exists path'. split; [done|]. rewrite Hqueue in Hnd, Hqu, Hnx, Hf. apply NoDup_cons in Hnd as [Hyr Hnd].
  destruct (push_successors_spec (nodes_resolved s ∪ {[y]}) (bitmap_iter (successors n)) rest Hnd) as [Hnd' Hin'].
  assert (∀ b, b ∈ bitmap_iter (successors n) ↔ b ∈ succ_of nodes y) as Hsucc by (intros b; rewrite elem_of_iter_bits; unfold succ_of; by rewrite Hn).
  split; cbn [path_nodes_docids nodes_resolved next_nodes_to_visit resolving_ctx].
  - by rewrite Hl', length_insert.
  - set_solver.
  - intros a [Ha| ->%elem_of_singleton]%elem_of_union.
    + destruct (Hv a Ha) as (Xa & HXa & HvX). assert (a ≠ y) by (by intros ->).
      destruct (Hc a Xa) as [?|[? ?]]; [by rewrite list_lookup_insert_ne by (apply to_nat_ne; congruence)|exists Xa|exists ∅; split; [done|by right]].
      split; [done|]. destruct HvX; [by left|right; set_solver].
    + destruct (Hc y docids) as [?|[? ?]]; [apply list_lookup_insert_eq; by eapply lookup_lt_Some|exists docids; split; [done|by left]|].
      exists ∅. split; [done|by right].
  - done.
  - intros a [Ha|[Hs Hr]]%Hin'.
    + destruct (Hqu a) as [? ?]; [by right|]. split; [done|]. rewrite elem_of_union, elem_of_singleton. intros [?| ->]; done.
    + split; [|done]. rewrite Hsucc in Hs. by apply live_edge in Hs as [_ ?].
  - intros a b [Ha| ->%elem_of_singleton]%elem_of_union Hb; rewrite elem_of_union, elem_of_singleton, Hin'.
    + destruct (Hnx a b Ha Hb) as [?|[->|?]%elem_of_cons]; [by left; left|by left; right|by right; left].
    + destruct (decide (b ∈ nodes_resolved s ∪ {[y]})) as [Hr|Hr]; [set_solver|]. right. right. split; [by rewrite Hsucc|done].
  - rewrite elem_of_union, elem_of_singleton, Hin'. destruct Hf as [?|[?|?]%elem_of_cons]; [by left; left|by left; right|by right; left].
  - done.
Qed.

Lemma step_ready s y rest : resolving s → next_nodes_to_visit s = y :: rest → ready (nodes_resolved s) y →
  (∃ docids ctx, resolve_step compute_term q universe s = Ok (inr (docids, ctx)) ∧ ctx_ok ctx ∧ ∀ d, d ∈ docids ↔ ∃ a, matched d a ∧ end_ ∈ succ_of nodes a) ∨
  (∃ s', resolve_step compute_term q universe s = Ok (inl s') ∧ resolving s' ∧ (y ∉ nodes_resolved s) ∧ y ∈ live ∧ nodes_resolved s' = nodes_resolved s ∪ {[y]}).
Proof.
  intros Hs Hqueue Hready. destruct (rs_queue s Hs y) as [Hy Hny]; [rewrite Hqueue; left|]. pose proof Hy as [[n Hn] Hdel]%elem_of_live.
  assert (data_of nodes y = Some (data n)) as Hdata by (unfold data_of; by rewrite Hn). rewrite Hdata in Hdel.
  assert (predecessors n = pred_of nodes y) as Hpred by (unfold pred_of; by rewrite Hn).
  destruct (ready_docids s y rest Hs Hqueue Hready) as (u & Hu & Hud). unfold resolve_step, get. rewrite Hqueue. cbv beta iota. rewrite Hn. cbn [mbind outcome_bind].
  rewrite decide_True; cycle 1.
  { rewrite Hpred. intros p Hp. apply Hready; [done|]. apply (res_agree q Hq) in Hp. by apply live_edge in Hp as [? _]. }
  rewrite Hpred, Hu. cbn [mbind outcome_bind].
  pose proof (λ docids ctx, resolve_visit_spec s y rest n docids ctx Hs Hqueue Hn) as Hvisit. rewrite Hpred in Hvisit.
  destruct (data n) as [t| | |] eqn:Hd; [|done|..].
  - destruct (term_docids (term_subset t) (resolving_ctx s) (rs_ctx s Hs)) as (ctx' & -> & Hctx). cbn [mbind outcome_bind]. right.
    destruct (Hvisit (u ∩ D (term_subset t)) ctx') as (path' & Hpath & Hs'); [intros ->; by rewrite (res_end q Hq) in Hdata| |done|].
    { intros d. rewrite elem_of_intersection, Hud. split; [intros [(a & Ha & Hb) Ht]; by eapply matched_term|].
      intros Hm. inversion Hm as [|a b t' Ha Hb Ht HdD]; subst; [by rewrite (res_root q Hq) in Hdata|]. split; [by exists a|]. congruence. }
    eexists. split; [|split; [exact Hs'|done]]. apply bind_Ok in Hpath as (p1 & Hp1 & Hp2). rewrite Hp1. cbn. by rewrite Hp2.
  - right. assert (y = root) as Hyr by by apply (res_one_root q Hq).
    destruct (Hvisit universe (resolving_ctx s)) as (path' & Hpath & Hs'); [intros ->; by rewrite (res_end q Hq) in Hdata| |apply Hs|].
    { intros d. rewrite Hyr. split; [by apply matched_root|]. intros Hm. inversion Hm as [|a b t' Ha Hb Ht HdD]; subst; [done|].
      by rewrite (res_root q Hq) in Ht. }
    eexists. split; [|split; [exact Hs'|done]]. apply bind_Ok in Hpath as (p1 & Hp1 & Hp2). rewrite Hp1. cbn. by rewrite Hp2.
  - left. assert (y = end_) as Hye by by apply (res_one_end q Hq). eexists _, _. split; [done|]. split; [apply Hs|]. intros d. by rewrite Hud, Hye.
Qed.

Lemma step_rotates s y rest n : next_nodes_to_visit s = y :: rest → nodes !! N.to_nat y = Some n → ¬ pred_of nodes y ⊆ nodes_resolved s →
  resolve_step compute_term q universe s =
    Ok (inl (mkResolving (nodes_resolved s) (path_nodes_docids s) (rest ++ [y]) (resolving_ctx s))).
Proof.
  intros Hqueue Hn Hsub. unfold resolve_step, get. rewrite Hqueue, Hn. cbn [mbind outcome_bind].
  assert (predecessors n = pred_of nodes y) as -> by (unfold pred_of; by rewrite Hn). by rewrite decide_False.
Qed.

Lemma resolve_loop k s : resolving_in k s →
  (∃ r, resolve_step compute_term q universe s = Ok (inr r) ∧ (ctx_ok r.2 ∧ ∀ d, d ∈ r.1 ↔ ∃ a, matched d a ∧ end_ ∈ succ_of nodes a)) ∨
  ∃ k' s', resolve_step compute_term q universe s = Ok (inl s') ∧ resolving_in k' s' ∧ (k' < k)%nat.
Proof.
  intros (Hs & before & x & after & Hqueue & Hready & ->).
  assert (∃ y rest, next_nodes_to_visit s = y :: rest) as (y & rest & Hy) by (rewrite Hqueue; destruct before; by eexists _, _).
  destruct (rs_queue s Hs y) as [Hyl Hny]; [rewrite Hy; left|]. pose proof Hyl as [[n Hn] _]%elem_of_live.
  destruct (decide (pred_of nodes y ⊆ nodes_resolved s)) as [Hsub|Hsub].
  - destruct (step_ready s y rest Hs Hy) as [(docids & ctx & Hok & Hc & Hd)|(s' & Hok & Hs' & _ & _ & Hdone)]; [by intros p Hp _; apply Hsub|left; by exists (docids, ctx)|right].
    destruct (ready_in_queue s' Hs') as (before' & x' & after' & Hq' & Hr' & Hlen'). eexists _, s'. split; [done|]. split; [by split; [done|exists before', x', after']|].
    rewrite Hdone. assert (size (live ∖ nodes_resolved s) = S (size (live ∖ (nodes_resolved s ∪ {[y]})))) as ->; [|cbn; lia].
    assert (live ∖ nodes_resolved s = {[y]} ∪ live ∖ (nodes_resolved s ∪ {[y]})) as ->.
    { apply set_eq. intros z. destruct (decide (z = y)) as [->|]; set_solver. }
    rewrite size_union, size_singleton by set_solver. done.
  - destruct before as [|y' before].
    { exfalso. rewrite Hqueue in Hy. injection Hy as <- <-. apply Hsub. intros p Hp. apply Hready; [done|]. apply (res_agree q Hq) in Hp. by apply live_edge in Hp as [? _]. }
    right. rewrite (step_rotates s y rest n Hy Hn Hsub). rewrite Hqueue in Hy. injection Hy as -> <-.
    eexists _, _. split; [done|]. split; [split|].
    + destruct Hs as [H1 H2 H3 H4 H5 H6 H7 H8]. rewrite Hqueue in H4, H5, H6, H7.
      assert (∀ a, a ∈ (before ++ x :: after) ++ [y] ↔ a ∈ (y :: before) ++ x :: after) as Hin.
      { intros a. cbn. set_solver. }
      split; cbn [path_nodes_docids nodes_resolved next_nodes_to_visit resolving_ctx]; try setoid_rewrite Hin; try done.
      by rewrite <- Permutation_cons_append.
    + cbn. exists before, x, (after ++ [y]). split_and!; [by rewrite <- app_assoc|done|reflexivity].
    + cbn. lia.
Qed.

Lemma query_graph_docids_correct fuel ctx : ctx_ok ctx → (S (length nodes) * S (length nodes) < fuel)%nat →
  ∃ docids ctx', compute_query_graph_docids compute_term fuel q universe ctx = Some (Ok (docids, ctx')) ∧ ctx_ok ctx' ∧
    ∀ d, d ∈ docids ↔ d ∈ universe ∧ satisfies q (λ _, False) d root.
Proof.
  intros Hctx Hfuel. unfold compute_query_graph_docids.
  assert (resolving (mkResolving ∅ ((λ _, ∅) <$> nodes) [root] ctx)) as Hs0.
  { split; cbn; [by rewrite length_fmap|set_solver|by intros a ?%not_elem_of_empty|apply NoDup_singleton| |by intros a b ?%not_elem_of_empty|right; left|done].
    intros a ->%list_elem_of_singleton. split; [apply live_root|apply not_elem_of_empty]. }
  destruct (ready_in_queue _ Hs0) as (before & x & after & Hqu & Hr & Hlen).
  destruct (loop_returns (resolve_step compute_term q universe) resolving_in _ resolve_loop fuel _ _
    (conj Hs0 (ex_intro _ before (ex_intro _ x (ex_intro _ after (conj Hqu (conj Hr eq_refl))))))) as ([docids ctx'] & Hok & Hc & Hd).
  - cbn. pose proof size_live. assert (size (live ∖ ∅) ≤ size live)%nat by (apply subseteq_size; set_solver). nia.
  - exists docids, ctx'. split_and!; [done..|]. intros d. rewrite Hd. apply matched_satisfies.
Qed.
End graph.
End resolve.

(** ** Giving words up *)
Section removing.
Context {E Ctx : Type} (compute_term : QueryTermSubset → Ctx → outcome E (gset DocumentId * Ctx)).
Context (D : QueryTermSubset → gset DocumentId) (ctx_ok : Ctx → Prop).
Hypothesis term_docids : ∀ t ctx, ctx_ok ctx → ∃ ctx', compute_term t ctx = Ok (D t, ctx') ∧ ctx_ok ctx'.
Abbreviation satisfies := (satisfies D).

(** The graph without some terms. *)
Section removed.
Context (q : QueryGraph) (removed : list N) (nodes' : list QueryNode).
Hypothesis Hq : resolvable q.
Hypothesis removed_terms : ∀ x, x ∈ removed → ∃ t, data_of (nodes q) x = Some (Term t).
Hypothesis Hlen : length nodes' = length (nodes q).
Hypothesis Hagree : edges_agree nodes'.
Hypothesis Hacyclic : acyclic nodes'.
Hypothesis Hsucc : ∀ a b, b ∈ succ_of nodes' a ↔ (a ∉ removed) ∧ (b ∉ removed) ∧ skips (nodes q) (λ x, x ∈ removed) a b.
Hypothesis Hdata : ∀ a, data_of nodes' a = if decide (a ∈ removed) then Some Deleted else data_of (nodes q) a.
Abbreviation q' := (with_nodes nodes' q).

Lemma root_stays : root_node q ∉ removed.
Proof. intros (t & Ht)%removed_terms. by rewrite (res_root q Hq) in Ht. Qed.
Lemma end_stays : end_node q ∉ removed.
Proof. intros (t & Ht)%removed_terms. by rewrite (res_end q Hq) in Ht. Qed.

Lemma skips_ends a b : skips (nodes q) (λ x, x ∈ removed) a b → succ_of (nodes q) a ≠ ∅ ∧ pred_of (nodes q) b ≠ ∅.
Proof. induction 1 as [a b Hb|a x b Hx Hax _ [_ IH]]; [pose proof (proj2 (res_agree q Hq a b) Hb)|]; (split; [set_solver|]); [set_solver|done]. Qed.

(** A node keeps a predecessor: the first one that is not removed, backwards. *)
Lemma kept_predecessor b : pred_of (nodes q) b ≠ ∅ → ∃ a, (a ∉ removed) ∧ skips (nodes q) (λ x, x ∈ removed) a b.
Proof.
  destruct (res_acyclic q Hq) as (rank & M & Hr).
  remember (M - rank b)%nat as k eqn:Hk. revert b Hk. induction (lt_wf k) as [k _ IH]. intros b -> [a Ha]%set_choose_L.
  apply (res_agree q Hq) in Ha. destruct (decide (a ∈ removed)) as [Hin|Hin]; [|exists a; split; [done|by apply skips_edge]].
  destruct (IH (M - rank a)%nat) with (b := a) as (p & Hp & Hsk); [apply Hr in Ha; lia|done| |].
  - destruct (removed_terms a Hin) as [t Ht]. by eapply (res_reached q Hq).
  - exists p. split; [done|]. eapply skips_trans; [exact Hsk|done|by apply skips_edge].
Qed.

Lemma resolvable_removed : resolvable q'.
Proof.
  split; cbn [nodes root_node end_node with_nodes].
  - unfold fits16. rewrite Hlen. apply Hq.
  - done.
  - done.
  - rewrite Hdata, decide_False by apply root_stays. apply Hq.
  - rewrite Hdata, decide_False by apply end_stays. apply Hq.
  - intros a. rewrite Hdata. case_decide; [done|apply Hq].
  - intros a. rewrite Hdata. case_decide; [done|apply Hq].
  - apply set_eq. intros a. split; [|by intros ?%not_elem_of_empty]. intros (_ & _ & [_ Hp]%skips_ends)%Hagree%Hsucc. by rewrite (res_root_pred q Hq) in Hp.
  - apply set_eq. intros a. split; [|by intros ?%not_elem_of_empty]. intros (_ & _ & [Hs _]%skips_ends)%Hsucc. by rewrite (res_end_succ q Hq) in Hs.
  - intros a. rewrite Hdata. intros Hd. assert (a ∈ removed ∨ succ_of (nodes q) a = ∅ ∧ pred_of (nodes q) a = ∅) as Ha.
    { case_decide; [by left|right]. by apply (res_deleted q Hq). }
    split; apply set_eq; intros b; (split; [|by intros ?%not_elem_of_empty]).
    + intros (H1 & _ & [Hs _]%skips_ends)%Hsucc. destruct Ha as [?|[? _]]; done.
    + intros (_ & H1 & [_ Hp]%skips_ends)%Hagree%Hsucc. destruct Ha as [?|[_ ?]]; done.
  - intros b d. rewrite Hdata. case_decide as Hb; [by intros [= <-]|]. intros Hd Hdel Hst.
    destruct (kept_predecessor b) as (a & Ha & Hsk); [by eapply (res_reached q Hq)|]. assert (a ∈ pred_of nodes' b) as Hin; [|set_solver].
    by apply Hagree, Hsucc.
Qed.

Lemma satisfies_removed d : satisfies q' (λ _, False) d (root_node q) ↔ satisfies q (λ x, x ∈ removed) d (root_node q).
Proof.
  assert (∀ p b, skips (nodes q) (λ x, x ∈ removed) p b → ∀ K : Prop, (∀ a, b ∈ succ_of (nodes q) a → satisfies q (λ x, x ∈ removed) d a) →
    satisfies q (λ x, x ∈ removed) d p) as Hskip.
  { induction 1 as [a b Hb|a x b Hx Hax _ IH]; intros K Hs; [by apply Hs|]. eapply satisfies_skip; [exact Hax|exact Hx|by apply (IH K)]. }
  split.
  - induction 1 as [a He|a b t Hb Ht Hd _ IH|a b _ [] _]; cbn [nodes with_nodes end_node] in *.
    + apply Hsucc in He as (_ & _ & Hsk). apply (Hskip _ _ Hsk True). intros p Hp. by apply satisfies_end.
    + apply Hsucc in Hb as (_ & Hnb & Hsk). rewrite Hdata, decide_False in Ht by done. apply (Hskip _ _ Hsk True). intros p Hp. by eapply satisfies_term.
  - intros Hs. assert ((root_node q ∉ removed → satisfies q' (λ _, False) d (root_node q)) ∧
      ∀ p, root_node q ∈ removed → p ∉ removed → skips (nodes q) (λ x, x ∈ removed) p (root_node q) → satisfies q' (λ _, False) d p) as [H _]; [|apply H, root_stays].
    assert (∀ p b a, skips (nodes q) (λ x, x ∈ removed) p a → a ∈ removed → b ∈ succ_of (nodes q) a → skips (nodes q) (λ x, x ∈ removed) p b) as Hext.
    { intros p b a Hp Ha Hb. eapply skips_trans; [exact Hp|done|by apply skips_edge]. }
    induction Hs as [a He|a b t Hb Ht Hd _ [IH1 IH2]|a b Hb Hin _ [IH1 IH2]].
    + split; [intros Ha|intros p Ha Hp Hsk]; apply satisfies_end, Hsucc; (split_and!; [done|apply end_stays|]); [by apply skips_edge|by eapply Hext].
    + destruct (decide (b ∈ removed)) as [Hin|Hin].
      * split; [intros Ha; apply IH2; [done..|by apply skips_edge]|intros p Ha Hp Hsk; apply IH2; [done..|by eapply Hext]].
      * specialize (IH1 Hin). split; [intros Ha|intros p Ha Hp Hsk]; (eapply (satisfies_term D q' _ d _ b t); [|cbn [nodes with_nodes]; rewrite Hdata, decide_False by done; exact Ht|done|exact IH1]);
          apply Hsucc; (split_and!; [done..|]); [by apply skips_edge|by eapply Hext].
    + split; [intros Ha; apply IH2; [done..|by apply skips_edge]|intros p Ha Hp Hsk; apply IH2; [done..|by eapply Hext]].
Qed.
End removed.
End removing.
