(* ===== verification/RemovalOrder.v ===== *)
(** * The words that are given up

    [removal_order_for_terms_matching_strategy_last]: with the strategy [Last] a search gives
    up the words of the query from the last one, but never all of them. *)
From S2P Require Import Prelude Interner QueryTerm QueryGraph Traversal QueryResolve ResolveSpec.
From S2P Require Transform.
Import Transform (bitmap_iter).
#[local] Open Scope N_scope.

(** Phrases and mandatory terms stay. *)
Definition stays (ctx : SearchContext) (t : LocatedQueryTermSubset) : bool :=
  match original_phrase (E := unit) (term_subset t) ctx with Ok (Some _) => true | _ => is_mandatory (term_subset t) end.

Section order.
Context {E : Type} (ctx : SearchContext).

Lemma original_phrase_stays t o : original_phrase (E := E) (term_subset t) ctx = Ok o →
  stays ctx t = bool_decide (is_Some o) || is_mandatory (term_subset t).
Proof.
  unfold stays, original_phrase, get. destruct (term_interner ctx !! _) as [qt|]; [|done]. cbn. intros [= <-].
  by destruct (match phrase (zero_typo qt) with Some p => _ | None => _ end).
Qed.

(** The classes of the terms that can go, by cost. *)
Record classes_of_costs (last : N) (l : list (N * QueryNode)) (acc : bool * gmap N (gset N)) : Prop := {
  costs_stay : acc.1 = true ↔ ∃ x n t, (x, n) ∈ l ∧ data n = Term t ∧ stays ctx t = true;
  costs_class c x : x ∈ default ∅ (acc.2 !! c) ↔ ∃ n t, (x, n) ∈ l ∧ data n = Term t ∧ stays ctx t = false ∧ removal_cost last t = c;
  costs_empty c : acc.2 !! c ≠ Some ∅
}.

Lemma ex_snoc {A B C} (l : list (A * B)) x n (Q : A → B → C → Prop) :
  (∃ y m t, (y, m) ∈ l ++ [(x, n)] ∧ Q y m t) ↔ (∃ y m t, (y, m) ∈ l ∧ Q y m t) ∨ ∃ t, Q x n t.
Proof.
  split.
  - intros (y & m & t & [H|[= -> ->]%list_elem_of_singleton]%elem_of_app & HQ); [left; by exists y, m, t|right; by exists t].
  - intros [(y & m & t & H & HQ)|[t HQ]]; [exists y, m, t|exists x, n, t]; (split; [apply elem_of_app|done]); [by left|by right; left].
Qed.

Lemma ex_snoc_at {A B C} (l : list (A * B)) x n y (Q : B → C → Prop) :
  (∃ m t, (y, m) ∈ l ++ [(x, n)] ∧ Q m t) ↔ (∃ m t, (y, m) ∈ l ∧ Q m t) ∨ y = x ∧ ∃ t, Q n t.
Proof.
  split.
  - intros (m & t & [H|[= -> ->]%list_elem_of_singleton]%elem_of_app & HQ); [left; by exists m, t|right; split; [done|by exists t]].
  - intros [(m & t & H & HQ)|[-> [t HQ]]]; [exists m, t|exists n, t]; (split; [apply elem_of_app|done]); [by left|by right; left].
Qed.

Lemma removal_steps last l acc : try_fold (E := E) (removal_step ctx last) l (false, ∅) = Ok acc → classes_of_costs last l acc.
Proof.
  revert acc. induction l as [|[x n] l IH] using rev_ind; intros acc.
  - intros [= <-]. split; cbn; [|intros c x; rewrite lookup_empty; cbn|intros c; by rewrite lookup_empty].
    + split; [done|]. by intros (? & ? & ? & ?%not_elem_of_nil & _).
    + split; [by intros ?%not_elem_of_empty|]. by intros (? & ? & ?%not_elem_of_nil & _).
  - rewrite try_fold_app. intros ([flag removed] & Hacc & Hstep)%bind_Ok. destruct (IH _ Hacc) as [Hs Hc He]. cbn [fst snd] in *. clear IH Hacc.
    cbn [try_fold] in Hstep. apply bind_Ok in Hstep as (acc' & Hstep & [= ->]). cbn [removal_step fst snd] in Hstep.
    destruct (data n) as [t| | |] eqn:Hd; cycle 1.
    1-3: injection Hstep as <-; split; cbn; [rewrite Hs, ex_snoc, Hd|intros c y; rewrite Hc, ex_snoc_at, Hd|done]; (split; [by left|]); (intros [?|?]; [done|naive_solver]).
    apply bind_Ok in Hstep as (o & Ho & Hstep). rewrite <- (original_phrase_stays t o Ho) in Hstep. destruct (stays ctx t) eqn:Hst; injection Hstep as <-.
    + split; cbn; [rewrite ex_snoc, Hd|intros c y; rewrite Hc, ex_snoc_at, Hd|done].
      * split; [intros _; right; by exists t|done].
      * split; [by left|]. intros [?|(_ & t' & [= <-] & ? & _)]; [done|congruence].
    + split; cbn; [rewrite Hs, ex_snoc, Hd| |].
      * split; [by left|]. intros [?|(t' & [= <-] & ?)]; [done|congruence].
      * intros c y. rewrite ex_snoc_at, Hd. assert ((∃ t', Term t = Term t' ∧ stays ctx t' = false ∧ removal_cost last t' = c) ↔ removal_cost last t = c) as ->.
        { split; [by intros (t' & [= <-] & _ & ?)|]. intros ?. by exists t. }
        destruct (decide (c = removal_cost last t)) as [->|Hne].
        -- rewrite lookup_insert_eq. cbn. rewrite elem_of_union, Hc, elem_of_singleton. tauto.
        -- rewrite lookup_insert_ne by done. rewrite Hc. split; [by left|]. intros [?|[_ ?]]; [done|congruence].
      * intros c. destruct (decide (c = removal_cost last t)) as [->|Hne]; [rewrite lookup_insert_eq|by rewrite lookup_insert_ne].
        intros [= He']. set_solver.
Qed.

(** Dropping the class of the highest cost. *)
Lemma drop_highest (l : list N) c : StronglySorted N.lt l → c ∈ take (length l - 1) l ↔ c ∈ l ∧ ∃ c', c' ∈ l ∧ c < c'.
Proof.
  intros Hs. destruct l as [|m l _] using rev_ind; cbn; [split; [by intros ?%not_elem_of_nil|by intros [?%not_elem_of_nil _]]|].
  rewrite length_app. cbn. replace (length l + 1 - 1)%nat with (length l) by lia. rewrite take_app_length. setoid_rewrite elem_of_app. setoid_rewrite list_elem_of_singleton.
  assert (∀ c, c ∈ l → c < m) as Hlt. { intros x Hx. eapply StronglySorted_app_1_elem_of; [exact Hs|done|left]. }
  split; [intros Hc; split; [by left|exists m; auto]|]. intros [[?| ->] (c' & [Hc'| ->] & ?)]; [done..|specialize (Hlt c' Hc'); lia|lia].
Qed.
End order.

(** ** The bounds and the costs of the terms of a query *)
Lemma fold_max (f : N → N) l acc m : acc ≤ m → (∀ id, id ∈ l → f id ≤ m) → (acc = m ∨ ∃ id, id ∈ l ∧ f id = m) →
  fold_left (λ c id, N.max c (f id)) l acc = m.
Proof.
  revert acc. induction l as [|id l IH]; intros acc Hacc Hle Hex; cbn.
  { destruct Hex as [?|(id & ?%not_elem_of_nil & _)]; done. }
  apply IH; [pose proof (Hle id ltac:(left)); lia|intros; apply Hle; by right|]. pose proof (Hle id ltac:(left)).
  destruct Hex as [->|(id' & [->|Hin]%elem_of_cons & Hf)]; [left; lia|left; lia|right; by exists id'].
Qed.

Lemma cost_of_term_idx_eq last id : id ≤ last ≤ 254 → cost_of_term_idx last id = 1 + last - id.
Proof.
  intros H. unfold cost_of_term_idx. rewrite (wrap8_small (1 + last)) by lia. unfold wrap8.
  replace (1 + last + (256 - id)) with (1 + last - id + 1 * 256) by lia. rewrite N.Div0.mod_add, N.mod_small; lia.
Qed.

Lemma elem_of_ids_of ids id : id ∈ ids_of ids ↔ ids.1 ≤ id ≤ ids.2.
Proof.
  unfold ids_of. rewrite list_elem_of_fmap. setoid_rewrite elem_of_seq. split.
  - intros (k & -> & Hk). lia.
  - intros Hid. exists (N.to_nat (id - ids.1)). lia.
Qed.

Lemma removal_cost_eq last t : (term_ids t).1 ≤ (term_ids t).2 ≤ last → last ≤ 254 → removal_cost last t = 1 + last - (term_ids t).1.
Proof.
  intros Ht Hl. unfold removal_cost. apply fold_max; [lia| |].
  - intros id Hid%elem_of_ids_of. rewrite cost_of_term_idx_eq by lia. lia.
  - right. exists (term_ids t).1. split; [apply elem_of_ids_of; lia|]. by rewrite cost_of_term_idx_eq by lia.
Qed.

Definition term_of (d : QueryNodeData) : option LocatedQueryTermSubset := match d with Term t => Some t | _ => None end.

Lemma bounds_spec l f0 l0 : let b := fold_left bounds_step l (f0, l0) in
  b.1 ≤ f0 ∧ l0 ≤ b.2 ∧ (∀ n t, n ∈ l → data n = Term t → b.1 ≤ (term_ids t).1 ∧ (term_ids t).2 ≤ b.2) ∧
  (b.2 = l0 ∨ ∃ n t, n ∈ l ∧ data n = Term t ∧ b.2 = (term_ids t).2).
Proof.
  cbv zeta. revert f0 l0. induction l as [|n l IH]; intros f0 l0; cbn [fold_left].
  { split_and!; [cbn; lia..|by intros n t ?%not_elem_of_nil|by left]. }
  destruct (bounds_step (f0, l0) n) as [f1 l1] eqn:Hb. destruct (IH f1 l1) as (H1 & H2 & H3 & H4). cbn [bounds_step] in Hb.
  assert (f1 ≤ f0 ∧ l0 ≤ l1 ∧ (∀ t, data n = Term t → f1 ≤ (term_ids t).1 ∧ (term_ids t).2 ≤ l1) ∧ (l1 = l0 ∨ ∃ t, data n = Term t ∧ l1 = (term_ids t).2)) as (H5 & H6 & H7 & H8).
  { destruct (data n) as [t| | |]; injection Hb as <- <-; [|split_and!; [lia..|done|by left]..].
    split_and!; [destruct (N.ltb_spec (term_ids t).1 f0); lia|destruct (N.ltb_spec l0 (term_ids t).2); lia| |].
    - intros t' [= <-]. destruct (N.ltb_spec (term_ids t).1 f0), (N.ltb_spec l0 (term_ids t).2); lia.
    - destruct (N.ltb_spec l0 (term_ids t).2); [right; by exists t|by left]. }
  split_and!; [lia..| |].
  - intros m t [->|Hm]%elem_of_cons Ht; [destruct (H7 t Ht); lia|by eapply H3].
  - destruct H4 as [->|(m & t & Hm & Ht & ->)]; [|right; exists m, t; split_and!; [by right|done..]].
    destruct H8 as [->|(t & Ht & ->)]; [by left|right; exists n, t; split_and!; [left|done..]].
Qed.

Lemma sorted_bits s : StronglySorted N.lt (bitmap_iter s).
Proof.
  pose proof (StronglySorted_merge_sort N.le (elements s)) as Hs. pose proof (NoDup_iter_bits s) as Hnd.
  fold (bitmap_iter s) in Hs. revert Hnd. induction Hs as [|d l Hs IH Hd]; intros Hnd; constructor.
  - apply IH. by apply NoDup_cons in Hnd as [_ ?].
  - rewrite Forall_forall in Hd. apply Forall_forall. intros y Hy. specialize (Hd y Hy).
    assert (d ≠ y); [|lia]. intros ->. by apply NoDup_cons in Hnd as [? _].
Qed.

Section query.
Context (n : N) (g : QueryGraph) (Hn : n ≤ 255) (Hfit : fits16 (nodes g)) (Hq : query_data n (data <$> nodes g)).

Lemma query_node x t : data_of (nodes g) x = Some (Term t) → (term_ids t).1 ≤ (term_ids t).2 < n.
Proof.
  rewrite data_of_lookup. intros Hd. destruct (query_data_cases _ _ _ _ Hq Hd) as [[_ ?]|[[_ ?]|(t' & [= ->] & ?)]]; done.
Qed.

Lemma iter_data x t : (∃ m, (x, m) ∈ Interner.iter (nodes g) ∧ data m = Term t) ↔ data_of (nodes g) x = Some (Term t).
Proof.
  unfold data_of. setoid_rewrite elem_of_iter; [|done]. split.
  - intros (m & -> & Hm). cbn. by rewrite Hm.
  - intros (m & Hm & Ht)%fmap_Some. exists m. by rewrite Ht.
Qed.

Lemma word_node k : k < n → ∃ x t, data_of (nodes g) x = Some (Term t) ∧ term_ids t = (k, k).
Proof.
  intros Hk. destruct (query_words _ _ Hq k Hk) as (i & t & Hi & Ht). exists (N.of_nat i), t. by rewrite data_of_lookup, Nat2N.id.
Qed.

Lemma query_bounds : 0 < n → term_bounds g = (0, n - 1).
Proof.
  intros Hpos. unfold term_bounds. destruct (bounds_spec (nodes g) 255 0) as (_ & _ & H3 & H4).
  destruct (fold_left bounds_step (nodes g) (255, 0)) as [f l]. cbn [fst snd] in *.
  assert (∀ x t, data_of (nodes g) x = Some (Term t) → f ≤ (term_ids t).1 ∧ (term_ids t).2 ≤ l) as H3'.
  { unfold data_of. intros x t (m & Hm & Ht)%fmap_Some. apply (H3 m t); [by eapply list_elem_of_lookup_2|done]. }
  destruct (word_node 0 Hpos) as (x & t & Hx & Ht). destruct (H3' x t Hx) as [Hf _]. rewrite Ht in Hf. cbn in Hf.
  destruct (word_node (n - 1) ltac:(lia)) as (x' & t' & Hx' & Ht'). destruct (H3' x' t' Hx') as [_ Hl]. rewrite Ht' in Hl. cbn in Hl.
  assert (l ≤ n - 1); [|f_equal; lia]. destruct H4 as [->|(m & t2 & Hm & Hd & ->)]; [lia|]. apply list_elem_of_lookup in Hm as [i Hi].
  assert (data_of (nodes g) (N.of_nat i) = Some (Term t2)) as Hd2 by (unfold data_of; rewrite Nat2N.id, Hi; cbn; by rewrite Hd).
  pose proof (query_node _ _ Hd2). lia.
Qed.

Lemma elem_of_given_up ctx {E} order x : removal_order_for_terms_matching_strategy_last (E := E) ctx g = Ok order →
  x ∈ concat (bitmap_iter <$> order) ↔ 1 < n ∧ ∃ t, data_of (nodes g) x = Some (Term t) ∧ stays ctx t = false ∧
    (0 < (term_ids t).1 ∨ ∃ y t', data_of (nodes g) y = Some (Term t') ∧ stays ctx t' = true).
Proof.
  unfold removal_order_for_terms_matching_strategy_last. intros Horder. destruct (decide (1 < n)) as [H1|H1]; cycle 1.
  { assert (order = []) as ->; [|split; [by intros ?%not_elem_of_nil|by intros [? _]]].
    destruct (term_bounds g) as [f l] eqn:Hb. assert (l ≤ f) as Hle; [|by rewrite (proj2 (N.leb_le l f)) in Horder by done; injection Horder].
    destruct (decide (0 < n)) as [Hpos|Hz]; [rewrite query_bounds in Hb by done; simplify_eq; lia|].
    destruct (bounds_spec (nodes g) 255 0) as (_ & _ & _ & H4). unfold term_bounds in Hb. rewrite Hb in H4. cbn in H4.
    destruct H4 as [->|(m & t & [i Hi]%list_elem_of_lookup & Hd & _)]; [lia|].
    assert (data_of (nodes g) (N.of_nat i) = Some (Term t)) as Hd2 by (unfold data_of; rewrite Nat2N.id, Hi; cbn; by rewrite Hd).
    pose proof (query_node _ _ Hd2). lia. }
  rewrite query_bounds in Horder by lia. rewrite (proj2 (N.leb_gt (n - 1) 0)) in Horder by lia.
  apply bind_Ok in Horder as ([flag removed] & Hsteps & [= <-]). apply removal_steps in Hsteps as [Hs Hc He]. cbn [fst snd] in *.
  assert (∀ c, c ∈ dom removed ↔ ∃ y t, data_of (nodes g) y = Some (Term t) ∧ stays ctx t = false ∧ n - (term_ids t).1 = c) as Hdom.
  { intros c. rewrite elem_of_dom. split.
    - intros [S HS]. destruct (set_choose_or_empty S) as [[y Hy]|Hem]; [|exfalso; apply (He c); rewrite HS; f_equal; set_solver].
      specialize (Hc c y). rewrite HS in Hc. apply Hc in Hy as (m & t & Hm & Hd & Hst & Hcost). exists y, t.
      assert (data_of (nodes g) y = Some (Term t)) as Hy by (apply iter_data; by exists m). split_and!; [done..|].
      pose proof (query_node y t Hy). rewrite removal_cost_eq in Hcost by lia. lia.
    - intros (y & t & Hy & Hst & Hcost). pose proof (query_node y t Hy). assert (y ∈ default ∅ (removed !! c)) as Hin.
      { apply Hc. apply iter_data in Hy as (m & Hm & Hd). exists m, t. rewrite removal_cost_eq by lia. split_and!; [done..|lia]. }
      destruct (removed !! c); [done|by apply not_elem_of_empty in Hin]. }
  assert (∀ c, x ∈ default ∅ (removed !! c) ↔ ∃ t, data_of (nodes g) x = Some (Term t) ∧ stays ctx t = false ∧ n - (term_ids t).1 = c) as Hcx.
  { intros c. rewrite Hc. split.
    - intros (m & t & Hm & Hd & Hst & Hcost). assert (data_of (nodes g) x = Some (Term t)) as Hx by (apply iter_data; by exists m).
      exists t. pose proof (query_node x t Hx). rewrite removal_cost_eq in Hcost by lia. split_and!; [done..|lia].
    - intros (t & Hx & Hst & Hcost). pose proof (query_node x t Hx). apply iter_data in Hx as (m & Hm & Hd). exists m, t.
      rewrite removal_cost_eq by lia. split_and!; [done..|lia]. }
  assert (flag = true ↔ ∃ y t', data_of (nodes g) y = Some (Term t') ∧ stays ctx t' = true) as Hflag.
  { rewrite Hs. split; [intros (y & m & t & Hm & Hd & Hst)|intros (y & t & Hy & Hst)].
    - exists y, t. split; [apply iter_data; by exists m|done].
    - apply iter_data in Hy as (m & Hm & Hd). by exists y, m, t. }
  clear Hs Hc He.
  assert (∀ l, x ∈ concat (bitmap_iter <$> ((λ cost, default ∅ (removed !! cost)) <$> l)) ↔ ∃ c, c ∈ l ∧ x ∈ default ∅ (removed !! c)) as Hconcat.
  { intros l. induction l as [|c l IH]; cbn; [split; [by intros ?%not_elem_of_nil|by intros (c & ?%not_elem_of_nil & _)]|].
    rewrite elem_of_app, IH, elem_of_iter_bits. setoid_rewrite elem_of_cons. naive_solver. }
  assert (∀ c, c ∈ bitmap_iter (dom removed) ↔ c ∈ dom removed) as Hiter by (intros; apply elem_of_iter_bits).
  rewrite length_fmap, <- fmap_take. destruct flag.
  - rewrite Hconcat. setoid_rewrite Hiter. split.
    + intros (c & _ & (t & Hx & Hst & _)%Hcx). split; [done|]. exists t. split_and!; [done..|right; by apply Hflag].
    + intros (_ & t & Hx & Hst & _). exists (n - (term_ids t).1). split; [apply Hdom; by exists x, t|apply Hcx; by exists t].
  - rewrite Hconcat. setoid_rewrite drop_highest; [|apply sorted_bits]. setoid_rewrite Hiter.
    assert (∀ y t, data_of (nodes g) y = Some (Term t) → stays ctx t = false) as Hgo.
    { intros y t Hy. apply not_true_iff_false. intros Hst. assert (false = true); [|done]. apply Hflag. by exists y, t. }
    split.
    + intros (c & (_ & c' & (y & t' & Hy & _ & <-)%Hdom & Hlt) & (t & Hx & Hst & <-)%Hcx). split; [done|]. exists t. split_and!; [done..|left; lia].
    + intros (_ & t & Hx & Hst & [Hpos|(y & t' & Hy & Hst')]); [|by rewrite (Hgo y t') in Hst'].
      exists (n - (term_ids t).1). split; [split|].
      * apply Hdom. by exists x, t.
      * destruct (word_node 0 ltac:(lia)) as (y & t' & Hy & Ht'). exists n. split; [|pose proof (query_node x t Hx); lia].
        apply Hdom. exists y, t'. split_and!; [done|by eapply Hgo|rewrite Ht'; cbn; lia].
      * apply Hcx. by exists t.
Qed.
End query.

(** ** The universe of a search *)
Lemma resolvable_query n g : n ≤ 255 → fits16 (nodes g) → root_node g = 0 → end_node g = 1 → query_data n (data <$> nodes g) →
  edges_agree (nodes g) → (∀ a b, b ∈ succ_of (nodes g) a ↔ follows n (nodes g) a b) → resolvable g.
Proof.
  intros Hn Hfit Hr He Hq Hag Hs.
  assert (data_of (nodes g) 0 = Some Start) as H0 by (rewrite data_of_lookup; apply Hq).
  assert (data_of (nodes g) 1 = Some End) as H1 by (rewrite data_of_lookup; apply Hq).
  assert (∀ a d, data_of (nodes g) a = Some d → a = 0 ∧ d = Start ∨ a = 1 ∧ d = End ∨ ∃ t, d = Term t ∧ (term_ids t).1 ≤ (term_ids t).2 < n) as Hcases.
  { intros a d. rewrite data_of_lookup. intros Hd. destruct (query_data_cases _ _ _ _ Hq Hd) as [[? ?]|[[? ?]|?]]; [left; split; [lia|done]|right; left; split; [lia|done]|by right; right]. }
  assert (∀ x y, x ≤ n → (data_of (nodes g) y ≫= first_id n) = Some x → pred_of (nodes g) y ≠ ∅) as Hpred.
  { intros x y Hx Hy Hempty. assert (∃ a, (data_of (nodes g) a ≫= next_id) = Some x) as [a Ha].
    - destruct (decide (x = 0)) as [->|]; [exists 0; by rewrite H0|]. destruct (word_node n g Hq (x - 1) ltac:(lia)) as (a & t & Ha & Ht).
      exists a. rewrite Ha. cbn. rewrite Ht. cbn. f_equal. lia.
    - assert (a ∈ pred_of (nodes g) y) as Hin by (apply Hag, Hs; by exists x). rewrite Hempty in Hin. by apply not_elem_of_empty in Hin. }
  split; rewrite ?Hr, ?He; try done.
  - by eapply query_acyclic.
  - intros a Ha. destruct (Hcases a Start Ha) as [[? _]|[[_ ?]|(t & ? & _)]]; done.
  - intros a Ha. destruct (Hcases a End Ha) as [[_ ?]|[[? _]|(t & ? & _)]]; done.
  - apply set_eq. intros a. split; [|by intros ?%not_elem_of_empty]. intros (x & _ & Hx)%Hag%Hs. by rewrite H0 in Hx.
  - apply set_eq. intros a. split; [|by intros ?%not_elem_of_empty]. intros (x & Hx & _)%Hs. by rewrite H1 in Hx.
  - intros a Ha. destruct (Hcases a Deleted Ha) as [[_ ?]|[[_ ?]|(t & ? & _)]]; done.
  - intros a d Ha _ Hst. destruct (Hcases a d Ha) as [[_ ?]|[[_ ->]|(t & -> & Ht)]]; [done|apply (Hpred n); [lia|by rewrite Ha]|].
    apply (Hpred (term_ids t).1); [lia|by rewrite Ha].
Qed.

Section universe.
Context {E Ctx : Type} (compute_term : QueryTermSubset → Ctx → outcome E (gset N * Ctx)).
Context (D : QueryTermSubset → gset N) (ctx_ok : Ctx → Prop).
Context (make_ngram : list LocatedQueryTerm → outcome E (option LocatedQueryTerm)).

End universe.

Module Demo.
Definition words : list LocatedQueryTerm := [mkLocatedTerm 0 (0, 0); mkLocatedTerm 1 (1, 1)].
Definition no_ngram (ts : list LocatedQueryTerm) : outcome unit (option LocatedQueryTerm) := Ok None.
Definition known_term : QueryTerm := mkTerm 0 None 0 false (mkZero None (Some 0) ∅ ∅ None) Uninit Uninit.
Definition interners : SearchContext := mkContext [] [] [known_term; known_term].
Definition term_docs (t : QueryTermSubset) : gset N := if original t =? 0 then {[1; 2]} else {[2; 3]}.
Definition find_docs (t : QueryTermSubset) (ctx : unit) : outcome unit (gset N * unit) := Ok (term_docs t, ctx).

End Demo.
